(* ===== verification/_CoqProject ===== *)
-Q . S2P
Prelude.v
PyDict.v
PyBytes.v
PyFloat.v
Log.v
Groups.v
Retention.v
Replication.v
Idempotence.v
Transactions.v
Index.v
Rebalance.v
Codec.v
Raft.v
Encoding.v
Crdt.v
Requests.v
Structures.v
Coordination.v
Trees.v
SkipList.v
Stores.v
Storage.v
Access.v
Streams.v
Selection.v
Distributed.v
GroupProtocol.v
Cluster.v
Client.v
Producer.v
Resilience.v
Processing.v
Operators.v
Maintenance.v
Admin.v
Coordinators.v
ReplicaOps.v
Sessions.v
Metrics.v
Drills.v
