(* ===== verification/Prelude.v ===== *)
(** * relay: a verification library for the event-stream broker

    [src/relay] is a broker for partitioned logs written as some 350 small Python modules, one mechanism each: the log and
    its retention, replication and elections, idempotent and transactional producers, consumer groups, the wire, quorums,
    the stream layer, quotas, administration, and the data structures they use.  A module holds one or a few dataclasses
    whose methods check a condition, raise one of five errors of [errors.py] or change a few fields, and answer a value or
    a message.  Modules meet where one class holds or is handed another: a topic holds partitions, a partition a segment log,
    the transaction coordinator an epoch fencer, a retention run the log it trims, the drills of [relay/proofs] everything.
    This library translates the methods of those modules, one definition per method, and proves what makes each of them
    correct; the definition of [relay/x.py] is in a [Module x] (or the module of its class) of one of the files below, and
    the comment in front of a definition names the Python name, and the lines where it is only a part of it.

    ** How Python is modelled

    - A method that changes its object is an [act S A := S → S * result A]: the state it leaves and a value or an exception.
      The state reached before an exception is kept, as in Python.  A method that only reads is a function to a value, or to
      [result] when it can raise.  [Invalid], [Missing], [Sealed], [Fenced] and [Lagging] are the errors of the source; the
      interpreter's own ([KeyError], [IndexError], [ZeroDivisionError], ...) are raised where the code would raise them.
    - [for] loops are [for_each], [for_fold], [r_fold] and [r_first] over the list iterated; a [while] loop is [loop] or
      [act_loop] over one turn of its body, with fuel, or a [Fixpoint] with fuel.  [OutOfFuel] is no behaviour of the code:
      for each such loop the theorems show that the fuel the definition passes (the length of the list, the number of
      nodes, the value that falls) is enough, by proving what the function returns or that it returns.
    - Integers are Python's: [Z], with floor division and masks written as the source writes them.  Bit widths appear where
      the code has them: 31-bit frame lengths, 64-bit varints, 32-bit CRC words, 32-bit SHA-256 words.
    - [PyDict]: a dictionary is an association list in insertion order, or a [gmap] where the order is never observed; sets
      are [gset]; where a set is iterated in an order the language leaves open the model takes that of [elements], one of
      the possible ones, and the theorems do not speak of it.
    - [PyBytes]: bytes, code points, [repr], UTF-8 and SHA-256, which computes.  [PyFloat]: a float is the Standard
      Library's [spec_float] at binary64, so rounding, comparison, [round], [int] and the formats of f-strings are exact.
    - Shared mutable objects have a store where aliasing matters: the nodes of the skip list are a heap; a registry that
      hands out the object it stores is updated in place.
    - What the code takes from outside is a parameter of a Section: the interpreter's [hash] of strings, which changes from
      run to run, random rolls, [math.log], roots and powers of the C library, and the functions a caller passes in.  The theorems hold
      for all of them, or name the one property needed (no ties between weights).  Where a constructor is given an unknown
      name of a policy the model has [None] or an unknown constructor, and it is refused as in the code.
    - Some early modules answer a sentence; where only which sentence matters, the model answers a constructor of a type
      of answers (and its number), and says so at the definition.

    ** The files

    - [Prelude] (this file): errors, [result], [act], loops and their rules ([loop_rule], [act_loop_rule]), runs of
      operations ([run], [run_invariant]), sorting ([py_sorted], a stable insertion sort), [min]/[max] by key, indexing and slices, sums
      and tabulated lists, the tactics [act_simpl] and [bool_prop] and the hint bases.  [PyDict], [PyBytes], [PyFloat].
    - The log.  [Log]: records, segments, segment logs, partitions; [segment_log_refines] is a refinement to an abstract
      log (a first offset and a list), [partition_consume_stable] says that what was served stays served.  [Groups]: topics
      and consumer groups.  [Retention]: retention, compaction ([compact_preserves_view]), deletion.  [Index]: the three
      binary searches and the fetch plan.  [Maintenance]: cleaning, rolling, recovery, rebuilding an index, disks.
    - Replication.  [Replication]: in-sync sets, elections ([failover_keeps_committed]), truncation and recovery.
      [Raft]: votes ([election_completeness]), log matching, commit index, membership changes.  [ReplicaOps]: lag, fetchers, racks
      ([rack_failures_exact]), reassignments, mirrors.  [Cluster]: the controller's metadata ([metadata_route_current]), fencing and
      placement.  [Admin]: topic ids ([topic_ids_never_reused]), configuration, version negotiation
      ([negotiate_highest_common]), capacity ([plan_covers_need]), shutdown plans ([graceful_handoff_exact]).
    - Producers and transactions.  [Idempotence]: the sequence gate and epochs ([gate_lands_once], [zombie_stays_fenced]).
      [Transactions]: atomicity, markers, the last stable offset ([read_committed_boundary]).  [Sessions]: producer ids,
      aborted transactions, authentication ([sasl_serves_authenticated]).  [Producer]: from the size check to the batch.
    - Consumers and groups.  [Rebalance]: assignment ([sticky_assign_balanced]) and cooperative rebalancing.
      [GroupProtocol]: join, sync, generations ([group_round_assigns_all]).  [Coordinators]: coordinators
      ([one_coordinator_serves]), offsets, long polls ([long_poll_earliest]), coalesced fetches
      ([coalesce_exact]).  [Client]: fetch sessions, positions, resets.
    - The wire and security.  [Codec]: varints, CRC-32C, frames in any chunks.  [Encoding]: run lengths, deltas, prefixes.
      [Access]: authorization, schemas and their resolution ([schema_resolution_sound]).
    - Streams.  [Streams]: session windows, joins, suppression, stores.  [Processing]: hopping windows, watermarks,
      retractions, tables, connectors ([session_windows_exact]).  [Operators]: the topology's cycle search
      ([topology_cycles_exact]) and the leaderboard.
    - Distributed mechanisms.  [Crdt]: vector clocks and replicated data in a network of replicas ([vector_clock_causality],
      [orset_add_wins]).  [Distributed]: logical clocks behind one interface, total-order broadcast, chains, rings.
      [Coordination]: leases, two-phase commit, snapshot isolation, barriers, sagas.  [Requests]: purgatory, causal
      delivery, deduplication, dead letters, the outbox.  [Resilience]: rate limits, breakers, fair queues
      ([fair_queue_shares]), backoff.  [Metrics]: lag, latency, sketches, rendezvous hashing.
    - Data structures.  [Structures], [Trees], [SkipList], [Selection]: heaps, orders ([topological_order]), disjoint sets, Fenwick
      and segment trees, skip lists, selection, filters.  [Stores]: the LSM tree and Bitcask against the class [KVStore], the LRU cache.
      [Storage]: the timer wheel, tiers, the write-ahead log, Merkle trees.
    - [Drills]: the thirteen scenarios of [relay/proofs], their registry and the command line, on the definitions of the
      other files; [drills_hold] runs them.

    ** What the theorems show

    A theorem marked with a claim (C1 to C40) is a property of the broker; those marked "Also" belong to the same group and are
    proved the same way.  State is quantified over everything reachable: a theorem starts from a constructor that succeeds
    and any sequence of operations, refused ones included, and speaks of the state after them.  The groups are: refinement
    of an abstract object (log, key-value store, sorted set, connectivity, session windows); equivalence with a direct
    definition (timer wheel, joins, segment tree, cycle search, rack failures); safety of protocols
    (what is committed, fenced, delivered or authenticated); invariants of states; exact functional answers, errors
    included; bounds; round trips; liveness and termination.  A theorem with hypotheses is followed by a witness that
    applies it to concrete data.

    Where the text of a module promises more than its code checks, the theorem names the discipline of the caller under
    which both agree, and a lemma after it shows what the code does without it: no transaction begun twice
    ([begun_once]), prior entries carried by one a majority holds ([carried]), a connection given up when its
    authentication fails ([gives_up]), clients with work at every round ([never_idle]), edges that respect the roles of
    the nodes ([roles_respected]).

    A few theorems record where a module does not do what its text says: record checksums join their parts without
    escaping, a recovery that compares epoch ends only keeps some divergence, a half-open breaker admits every call, an
    idle client hoards its quantum, a second abort forgets the first, a refill may be negative, an unlink
    waits for its delay only, a late event may enter a window never closed, a transaction begun again exposes its records,
    a failed client chooses again, an epoch never handed out passes the fence.

    ** Not modelled

    [src/examples] (demonstration scripts that print what the classes answer) and the tests; [argparse] in [cli.py], whose
    three commands are modelled from the parsed command on.  Concurrency: the code has no threads and no I/O,
    time is an argument, and interleavings are the sequences of operations the theorems quantify over.  Strings outside
    code points below 256 and integers of 2^1024 in mixed float arithmetic are outside the model. *)

From stdpp Require Export base tactics numbers list strings pretty gmap sets sorting relations.
From Stdlib Require Export ZArith Lia.
#[global] Open Scope Z_scope.

(** ** Exceptions and results *)

(** [relay/errors.py:6-27] RelayError *)
Inductive exn :=
  | Invalid | Missing | Sealed | Fenced | Lagging
  (* exceptions of the interpreter itself *)
  | KeyError | IndexError | ValueError | ZeroDivisionError | OverflowError | TypeError
  (* no exception of the source: a loop of the model that used up its fuel *)
  | OutOfFuel.

#[export] Instance exn_eq_dec : EqDecision exn.
Proof. solve_decision. Defined.

Inductive result (A : Type) :=
  | Ok (a : A)
  | Err (e : exn).
Arguments Ok {A} a.
Arguments Err {A} e.

#[export] Instance result_eq_dec `{EqDecision A} : EqDecision (result A).
Proof. solve_decision. Defined.

#[export] Instance result_ret : MRet result := @Ok.
#[export] Instance result_bind : MBind result := λ A B k m,
  match m with Ok a => k a | Err e => Err e end.

Definition is_ok {A} (r : result A) : bool :=
  match r with Ok _ => true | Err _ => false end.

(** ** Methods of mutable objects

    A method of a Python object is a function from the object's state to the
    state it leaves behind and the value returned or the exception raised.  The
    state is kept when an exception is raised, as it is in Python: a method that
    updates a field and then raises has updated the field. *)

Definition act (S A : Type) : Type := S → S * result A.

#[export] Instance act_ret {S} : MRet (act S) := λ A a s, (s, Ok a).
#[export] Instance act_bind {S} : MBind (act S) := λ A B k m s,
  match m s with
  | (s', Ok a) => k a s'
  | (s', Err e) => (s', Err e)
  end.

Section act.
Context {S : Type}.

Definition get : act S S := λ s, (s, Ok s).
Definition put (s' : S) : act S unit := λ _, (s', Ok ()).
Definition modify (f : S → S) : act S unit := λ s, (f s, Ok ()).
Definition raise {A} (e : exn) : act S A := λ s, (s, Err e).
(** [if b: raise e] *)
Definition raise_if (b : bool) (e : exn) : act S unit :=
  λ s, if b then (s, Err e) else (s, Ok ()).
(** a pure computation that may raise *)
Definition pure_of {A} (r : result A) : act S A := λ s, (s, r).
(** [for x in l: body(x)] *)
Fixpoint for_each {X} (l : list X) (body : X → act S unit) : act S unit :=
  match l with
  | [] => mret ()
  | x :: l' => body x;; for_each l' body
  end.
End act.

(** ** Loops

    [while] with a body that may leave the loop, go round again or raise.  The
    fuel is a bound on the number of rounds; [loop_rule] and [act_loop_rule] are
    the rules of total correctness: with an invariant and a measure that every
    round decreases, any fuel above the measure gives a result of the body, never
    [OutOfFuel] of the loop itself. *)

Section loop.
Context {S A : Type}.

Fixpoint loop (body : S → result (S + A)) (fuel : nat) (s : S) : result A :=
  match fuel with
  | O => Err OutOfFuel
  | Datatypes.S fuel =>
      match body s with
      | Ok (inl s') => loop body fuel s'
      | Ok (inr a) => Ok a
      | Err e => Err e
      end
  end.

(** the same for a body that changes an object *)
Fixpoint act_loop {T} (body : S → act T (S + A)) (fuel : nat) (s : S) : act T A := λ t,
  match fuel with
  | O => (t, Err OutOfFuel)
  | Datatypes.S fuel =>
      match body s t with
      | (t', Ok (inl s')) => act_loop body fuel s' t'
      | (t', Ok (inr a)) => (t', Ok a)
      | (t', Err e) => (t', Err e)
      end
  end.

Lemma act_loop_rule {T} (body : S → act T (S + A)) (I : S → T → Prop) (measure : S → nat)
    (Q : T → result A → Prop) :
  (∀ s t, I s t →
     match body s t with
     | (t', Ok (inl s')) => I s' t' ∧ (measure s' < measure s)%nat
     | (t', Ok (inr a)) => Q t' (Ok a)
     | (t', Err e) => Q t' (Err e)
     end) →
  ∀ fuel s t, I s t → (measure s < fuel)%nat →
  Q (act_loop body fuel s t).1 (act_loop body fuel s t).2.
Proof.
  intros Hbody. induction fuel as [|fuel IH]; intros s t HI Hfuel; [lia|].
  cbn [act_loop]. specialize (Hbody s t HI). destruct (body s t) as [t' [[s'|a]|e]]; [|done..].
  destruct Hbody as [HI' Hm]. apply IH; [done|lia].
Qed.

Lemma loop_act_loop (body : S → result (S + A)) fuel s :
  loop body fuel s = (act_loop (λ s, pure_of (body s)) fuel s ()).2.
Proof.
  revert s. induction fuel as [|fuel IH]; intros s; [done|].
  cbn [loop act_loop]. unfold pure_of at 1. by destruct (body s) as [[s'|a]|e].
Qed.

Lemma loop_rule (body : S → result (S + A)) (I : S → Prop) (measure : S → nat)
    (Q : result A → Prop) :
  (∀ s, I s →
     match body s with
     | Ok (inl s') => I s' ∧ (measure s' < measure s)%nat
     | Ok (inr a) => Q (Ok a)
     | Err e => Q (Err e)
     end) →
  ∀ fuel s, I s → (measure s < fuel)%nat → Q (loop body fuel s).
Proof.
  intros Hbody fuel s HI Hm. rewrite loop_act_loop.
  apply (act_loop_rule _ (λ s _, I s) measure (λ _, Q)); [|done..].
  intros s' [] HI'. specialize (Hbody s' HI'). unfold pure_of. by destruct (body s') as [[|]|].
Qed.
End loop.

(** [for x in l] with local variables that the body assigns: in an action, and in
    a function that may raise *)
Fixpoint for_fold {S X B} (l : list X) (b : B) (body : B → X → act S B) : act S B :=
  match l with
  | [] => mret b
  | x :: l' => b' ← body b x; for_fold l' b' body
  end.
Fixpoint r_fold {X B} (l : list X) (b : B) (body : B → X → result B) : result B :=
  match l with
  | [] => Ok b
  | x :: l' => b' ← body b x; r_fold l' b' body
  end.

(** [for x in l] whose body may [return]: the value returned, or [None] at the end *)
Fixpoint first_some {X A} (l : list X) (body : X → option A) : option A :=
  match l with
  | [] => None
  | x :: l' => match body x with Some a => Some a | None => first_some l' body end
  end.
Fixpoint r_first {X A} (l : list X) (body : X → result (option A)) : result (option A) :=
  match l with
  | [] => Ok None
  | x :: l' => r ← body x; match r with Some a => Ok (Some a) | None => r_first l' body end
  end.
Fixpoint for_first {S X A} (l : list X) (body : X → act S (option A)) : act S (option A) :=
  match l with
  | [] => mret None
  | x :: l' => r ← body x; match r with Some a => mret (Some a) | None => for_first l' body end
  end.

(** A constructor whose [__post_init__] changes the object. *)
Definition construct {S} (m : act S unit) (s : S) : result S :=
  match m s with (s', Ok _) => Ok s' | (_, Err e) => Err e end.

(** A loop body that keeps an invariant keeps it to the end of the loop, or to the
    element that raised. *)
Lemma for_each_rule {S X} (I : S → Prop) (l : list X) (body : X → act S unit) :
  (∀ x s, x ∈ l → I s → I (body x s).1) → ∀ s, I s → I (for_each l body s).1.
Proof.
  induction l as [|x l IH]; intros Hbody s HI; [done|].
  cbn [for_each]. unfold mbind, act_bind. pose proof (Hbody x s ltac:(by left) HI) as Hx.
  destruct (body x s) as [s' [u|e]]; [|done]. apply IH; [|done].
  intros y t Hy. apply Hbody. by right.
Qed.

Lemma for_fold_rule {S X B} (I : S → Prop) (l : list X) (body : B → X → act S B) :
  (∀ b x s, x ∈ l → I s → I (body b x s).1) → ∀ b s, I s → I (for_fold l b body s).1.
Proof.
  induction l as [|x l IH]; intros Hbody b s HI; [done|].
  cbn [for_fold]. unfold mbind, act_bind. pose proof (Hbody b x s ltac:(by left) HI) as Hx.
  destruct (body b x s) as [s' [u|e]]; [|done]. apply IH; [|done].
  intros c y t Hy. apply Hbody. by right.
Qed.

(** A loop whose body never raises is a fold. *)
Lemma r_fold_pure {X B} (l : list X) (b : B) (f : B → X → B) :
  r_fold l b (λ b x, Ok (f b x)) = Ok (foldl f b l).
Proof. revert b. induction l as [|x l IH]; intros b; [done|]. apply IH. Qed.

Lemma for_fold_app {S X B} (l1 l2 : list X) (b : B) (body : B → X → act S B) s :
  for_fold (l1 ++ l2) b body s =
  match for_fold l1 b body s with (s', Ok b') => for_fold l2 b' body s' | (s', Err e) => (s', Err e) end.
Proof.
  revert b s. induction l1 as [|x l1 IH]; intros b s; [done|].
  cbn [app for_fold]. unfold mbind, act_bind. destruct (body b x s) as [s' [b'|e]]; [apply IH|done].
Qed.

(** A method of an object held in a field of another one. *)
Definition zoom {S T A} (proj : S → T) (upd : T → S → S) (m : act T A) : act S A :=
  λ s, let '(t, r) := m (proj s) in (upd t s, r).

(** The state a call leaves behind, and what it returns. *)
Definition state_of {S A} (m : act S A) (s : S) : S := fst (m s).
Definition value_of {S A} (m : act S A) (s : S) : result A := snd (m s).

Section act_laws.
Context {S A B : Type}.
Implicit Types (s : S).

Lemma bind_get (k : S → act S B) s : (get ≫= k) s = k s s.
Proof. reflexivity. Qed.
Lemma bind_put (k : unit → act S B) s s' : (put s' ≫= k) s = k () s'.
Proof. reflexivity. Qed.
Lemma bind_modify (k : unit → act S B) s f : (modify f ≫= k) s = k () (f s).
Proof. reflexivity. Qed.
Lemma bind_ret (k : A → act S B) s a : (mret a ≫= k) s = k a s.
Proof. reflexivity. Qed.
Lemma bind_raise (k : A → act S B) s e : (raise e ≫= k) s = (s, Err e).
Proof. reflexivity. Qed.
Lemma bind_raise_if (k : unit → act S B) s b e :
  (raise_if b e ≫= k) s = if b then (s, Err e) else k () s.
Proof. by destruct b. Qed.
Lemma bind_pure_of (k : A → act S B) s r :
  (pure_of r ≫= k) s = match r with Ok a => k a s | Err e => (s, Err e) end.
Proof. by destruct r. Qed.
Lemma run_ret s (a : A) : (mret a : act S A) s = (s, Ok a).
Proof. reflexivity. Qed.
Lemma run_raise s e : (raise e : act S A) s = (s, Err e).
Proof. reflexivity. Qed.
Lemma run_raise_if s b e :
  raise_if b e s = if b then (s, Err e) else (s, Ok ()).
Proof. by destruct b. Qed.
Lemma run_modify s f : modify f s = (f s, Ok ()).
Proof. reflexivity. Qed.
Lemma run_put s s' : put s' s = (s', Ok ()).
Proof. reflexivity. Qed.
Lemma run_get s : get s = (s, Ok s).
Proof. reflexivity. Qed.
Lemma bind_if (b : bool) (m1 m2 : act S A) (k : A → act S B) s :
  ((if b then m1 else m2) ≫= k) s = if b then (m1 ≫= k) s else (m2 ≫= k) s.
Proof. by destruct b. Qed.
Lemma run_if (b : bool) (m1 m2 : act S A) s :
  (if b then m1 else m2) s = if b then m1 s else m2 s.
Proof. by destruct b. Qed.
Lemma bind_run (m : act S A) (k : A → act S B) s :
  (m ≫= k) s = match m s with (s', Ok a) => k a s' | (s', Err e) => (s', Err e) end.
Proof. reflexivity. Qed.
End act_laws.

Lemma bind_assoc {S A B C} (m : act S A) (k : A → act S B) (h : B → act S C) s :
  ((m ≫= k) ≫= h) s = (m ≫= (λ a, k a ≫= h)) s.
Proof. unfold mbind, act_bind. by destruct (m s) as [s' [a|e]]. Qed.

Create Rewrite HintDb act.
#[export] Hint Rewrite @bind_get @bind_put @bind_modify @bind_ret @bind_raise @bind_raise_if
  @bind_pure_of @run_ret @run_raise @run_raise_if @run_modify @run_put @run_get @bind_assoc
  @bind_if @run_if : act.

(** Normalise the run of a method to a tree of conditionals. *)
Ltac act_simpl := repeat (progress (autorewrite with act; cbn beta iota; simpl)).
Tactic Notation "act_simpl" "in" hyp(H) :=
  repeat (progress (autorewrite with act in H; cbn beta iota in H; simpl in H)).

(** Split on the innermost boolean condition, and turn it into arithmetic. *)
Ltac bool_split :=
  match goal with
  | |- context [if ?b then _ else _] =>
      lazymatch b with
      | context [if _ then _ else _] => fail
      | _ => destruct b eqn:?
      end
  end.

Ltac bool_split_in H :=
  match type of H with
  | context [if ?b then _ else _] =>
      lazymatch b with
      | context [if _ then _ else _] => fail
      | _ => destruct b eqn:?
      end
  end.

(** Boolean hypotheses as propositions. *)
Ltac bool_prop :=
  repeat match goal with
  | H : (_ && _)%bool = true |- _ => apply andb_true_iff in H; destruct H
  | H : (_ && _)%bool = false |- _ => apply andb_false_iff in H
  | H : (_ || _)%bool = true |- _ => apply orb_true_iff in H
  | H : (_ || _)%bool = false |- _ => apply orb_false_iff in H; destruct H
  | H : negb _ = true |- _ => apply negb_true_iff in H
  | H : negb _ = false |- _ => apply negb_false_iff in H
  | H : (_ <? _) = true |- _ => apply Z.ltb_lt in H
  | H : (_ <? _) = false |- _ => apply Z.ltb_ge in H
  | H : (_ <=? _) = true |- _ => apply Z.leb_le in H
  | H : (_ <=? _) = false |- _ => apply Z.leb_gt in H
  | H : (_ =? _) = true |- _ => apply Z.eqb_eq in H
  | H : (_ =? _) = false |- _ => apply Z.eqb_neq in H
  | H : bool_decide _ = true |- _ => apply bool_decide_eq_true in H
  | H : bool_decide _ = false |- _ => apply bool_decide_eq_false in H
  end.

(** Run every branch of a method: the workhorse for the functional theorems. *)
Ltac act_cases := act_simpl; repeat (bool_split; act_simpl); bool_prop; simplify_eq/=.

(** ** Strings and f-strings *)

(** a line break *)
Definition nl : string := String (Ascii.ascii_of_nat 10) EmptyString.

(** [str(n)] of an integer, as an f-string prints it *)
Definition zs (z : Z) : string := pretty z.
(** [len(l)] *)
Definition zlen {A} (l : list A) : Z := Z.of_nat (length l).

(** ** Reachable states *)

Section reachable.
Context {S O : Type} (step : O → S → S).

Definition run (ops : list O) (s : S) : S := foldl (λ s o, step o s) s ops.

Lemma run_app ops1 ops2 s : run (ops1 ++ ops2) s = run ops2 (run ops1 s).
Proof. apply foldl_app. Qed.

Lemma run_invariant (I : S → Prop) ops s :
  (∀ o s, I s → I (step o s)) → I s → I (run ops s).
Proof. intros Hstep. revert s. induction ops as [|o ops IH]; simpl; auto. Qed.

(** A relation between successive states that is a preorder holds along runs. *)
Lemma run_monotone (I : S → Prop) (R : S → S → Prop) `{!Reflexive R, !Transitive R} ops s :
  (∀ o s, I s → I (step o s) ∧ R s (step o s)) → I s → R s (run ops s).
Proof.
  intros Hstep. revert s. induction ops as [|o ops IH]; simpl; intros s Hs; [done|].
  destruct (Hstep o s Hs). etrans; eauto.
Qed.
End reachable.

(** ** Sorting: Python's [sorted], which is stable *)

Section sorted.
Context {A : Type} (R : relation A) `{!RelDecision R}.

Fixpoint sort_insert (x : A) (l : list A) : list A :=
  match l with
  | [] => [x]
  | y :: l' => if bool_decide (R x y) then x :: l else y :: sort_insert x l'
  end.

Definition py_sorted (l : list A) : list A := foldr sort_insert [] l.

Lemma sort_insert_Permutation x l : sort_insert x l ≡ₚ x :: l.
Proof.
  induction l as [|y l IH]; simpl; [done|].
  case_bool_decide; [done|]. rewrite IH. constructor.
Qed.

Lemma py_sorted_Permutation l : py_sorted l ≡ₚ l.
Proof.
  induction l as [|x l IH]; simpl; [done|].
  by rewrite sort_insert_Permutation, IH.
Qed.

Lemma sort_insert_Sorted `{!Total R} x l : Sorted R l → Sorted R (sort_insert x l).
Proof.
  induction l as [|y l IH]; simpl; intros Hs; [repeat constructor|].
  case_bool_decide as Hxy.
  - by constructor; [|constructor].
  - apply Sorted_inv in Hs as [Hs Hd].
    constructor; [by apply IH|].
    destruct (total R x y) as [|Hyx]; [done|].
    destruct l as [|z l]; simpl; [by constructor|].
    inversion Hd; subst. case_bool_decide; by constructor.
Qed.

Lemma py_sorted_Sorted `{!Total R} l : Sorted R (py_sorted l).
Proof. induction l; simpl; [constructor|by apply sort_insert_Sorted]. Qed.

Lemma py_sorted_elem_of l x : x ∈ py_sorted l ↔ x ∈ l.
Proof. by rewrite py_sorted_Permutation. Qed.

Lemma py_sorted_length l : length (py_sorted l) = length l.
Proof. by rewrite py_sorted_Permutation. Qed.

Lemma py_sorted_nil l : py_sorted l = [] ↔ l = [].
Proof.
  split; [|by intros ->].
  intros H. apply nil_length_inv. by rewrite <-py_sorted_length, H.
Qed.

Lemma py_sorted_id l : Sorted R l → py_sorted l = l.
Proof.
  induction 1 as [|x l Hl IH Hd]; simpl; [done|].
  rewrite IH. destruct Hd; simpl; [done|]. by rewrite bool_decide_eq_true_2.
Qed.

(** The head of a sorted list is below every element. *)
Lemma py_sorted_head `{!Total R, !Transitive R} l x l' :
  py_sorted l = x :: l' → x ∈ l ∧ ∀ y, y ∈ l → R x y.
Proof.
  intros Hl. split; [apply py_sorted_elem_of; rewrite Hl; left|].
  pose proof (py_sorted_Sorted l) as Hs. rewrite Hl in Hs.
  apply Sorted_StronglySorted in Hs; [|done].
  intros y Hy. apply py_sorted_elem_of in Hy. rewrite Hl in Hy.
  apply StronglySorted_inv in Hs as [_ Hall].
  apply elem_of_cons in Hy as [->|Hy]; [by destruct (total R x x)|].
  by eapply Forall_forall in Hall.
Qed.
End sorted.

(** [sorted(l, key=k)] and [sorted(l, key=k, reverse=True)] are [py_sorted (key_le k)] and
    [py_sorted (key_ge k)], for integer keys; [skey_le] is for text keys. *)
Section keys.
Context {A : Type}.
Definition key_le (k : A → Z) : relation A := λ a b, k a <= k b.
Definition key_ge (k : A → Z) : relation A := λ a b, k b <= k a.
Definition skey_le (k : A → string) : relation A := λ a b, String.le (k a) (k b).
#[export] Instance key_le_dec k : RelDecision (key_le k) := λ a b, Z_le_dec (k a) (k b).
#[export] Instance key_ge_dec k : RelDecision (key_ge k) := λ a b, Z_le_dec (k b) (k a).
#[export] Instance skey_le_dec k : RelDecision (skey_le k).
Proof. unfold RelDecision, skey_le. intros a b. apply _. Defined.
#[export] Instance key_le_total k : Total (key_le k).
Proof. intros a b. unfold key_le. lia. Qed.
#[export] Instance key_ge_total k : Total (key_ge k).
Proof. intros a b. unfold key_ge. lia. Qed.
#[export] Instance skey_le_total k : Total (skey_le k).
Proof. intros a b. apply (total String.le). Qed.
#[export] Instance key_le_trans k : Transitive (key_le k).
Proof. intros a b c. unfold key_le. lia. Qed.
#[export] Instance key_ge_trans k : Transitive (key_ge k).
Proof. intros a b c. unfold key_ge. lia. Qed.
#[export] Instance skey_le_trans k : Transitive (skey_le k).
Proof. intros a b c. unfold skey_le. apply (transitivity (R:=String.le)). Qed.
End keys.

(** A strictly increasing permutation is what sorting gives. *)
Lemma py_sorted_strict {A} (R : relation A) `{!RelDecision R, !Total R, !Transitive R} (l l' : list A) :
  StronglySorted (λ x y, ¬ R y x) l' → l' ≡ₚ l → py_sorted R l = l'.
Proof.
  intros Hs Hp. assert (StronglySorted R (py_sorted R l)) as Hsorted.
  { apply Sorted_StronglySorted; [done|]. by apply py_sorted_Sorted. }
  assert (py_sorted R l ≡ₚ l') as Hperm by (by rewrite py_sorted_Permutation).
  clear Hp. revert Hperm. generalize dependent (py_sorted R l). clear l.
  induction Hs as [|a l' Hs IH Ha]; intros k Hk Hperm; [by apply Permutation_nil_r in Hperm|].
  destruct Hk as [|b k Hk Hb]; [by apply Permutation_nil_l in Hperm|].
  rewrite Forall_forall in Ha. rewrite Forall_forall in Hb.
  assert (b = a) as ->.
  { assert (b ∈ a :: l') as Hbl by (rewrite <- Hperm; by left).
    apply elem_of_cons in Hbl as [->|Hbl]; [done|].
    assert (a ∈ b :: k) as Hak by (rewrite Hperm; by left).
    apply elem_of_cons in Hak as [->|Hak]; [done|].
    exfalso. by apply (Ha b Hbl), Hb. }
  f_equal. apply IH; [done|]. by apply Permutation_cons_inv in Hperm.
Qed.

(** ** Lists *)

(** [range(a, b)] *)
Definition py_range (a b : Z) : list Z := seqZ a (b - a).

(** [sum(f(x) for x in l)] *)
Definition zsum {A} (f : A → Z) (l : list A) : Z := foldr (λ x n, f x + n) 0 l.

Lemma zsum_cons {A} (f : A → Z) x l : zsum f (x :: l) = f x + zsum f l.
Proof. reflexivity. Qed.
Lemma zsum_app {A} (f : A → Z) l1 l2 : zsum f (l1 ++ l2) = zsum f l1 + zsum f l2.
Proof. induction l1 as [|x l1 IH]; simpl; [done|]. rewrite IH. lia. Qed.

Lemma zsum_nonneg {A} (f : A → Z) l : (∀ x, x ∈ l → 0 <= f x) → 0 <= zsum f l.
Proof.
  induction l as [|x l IH]; simpl; intros Hf; [done|].
  pose proof (Hf x ltac:(left)). assert (0 <= zsum f l) by (apply IH; intros; apply Hf; by right).
  lia.
Qed.

Lemma zsum_Permutation {A} (f : A → Z) l1 l2 : l1 ≡ₚ l2 → zsum f l1 = zsum f l2.
Proof. induction 1; simpl; lia. Qed.

Lemma zsum_ext {A} (f g : A → Z) l : (∀ x, x ∈ l → f x = g x) → zsum f l = zsum g l.
Proof.
  induction l as [|x l IH]; simpl; intros H; [done|].
  rewrite H by left. rewrite IH; [done|]. intros. apply H. by right.
Qed.

Lemma zsum_le {A} (f g : A → Z) l :
  (∀ x, x ∈ l → f x <= g x) → zsum f l <= zsum g l.
Proof.
  induction l as [|x l IH]; simpl; intros H; [done|].
  pose proof (H x ltac:(left)). assert (zsum f l <= zsum g l) by (apply IH; intros; apply H; by right).
  lia.
Qed.

Lemma lookup_snoc_inv {A} (h : list A) x k y :
  (h ++ [x]) !! k = Some y → (h !! k = Some y ∧ (k < length h)%nat) ∨ (k = length h ∧ y = x).
Proof.
  intros [H|[H1 H2]]%lookup_app_Some.
  - left. split; [done|]. by eapply lookup_lt_Some.
  - right. apply list_lookup_singleton_Some in H2 as [? ->]. split; [lia|done].
Qed.

Lemma filter_cons_bool {A} (f : A → bool) x (l : list A) :
  filter (λ y, f y = true) (x :: l) =
    if f x then x :: filter (λ y, f y = true) l else filter (λ y, f y = true) l.
Proof. rewrite filter_cons. by destruct (f x). Qed.

Lemma list_filter_all {A} (P : A → Prop) `{!∀ x, Decision (P x)} (l : list A) :
  (∀ x, x ∈ l → P x) → filter P l = l.
Proof.
  induction l as [|x l IH]; intros Hall; [done|].
  rewrite filter_cons_True by (apply Hall; left). f_equal. apply IH. intros. apply Hall. by right.
Qed.

Lemma list_filter_none {A} (P : A → Prop) `{!∀ x, Decision (P x)} (l : list A) :
  (∀ x, x ∈ l → ¬ P x) → filter P l = [].
Proof. intros Hn. apply elem_of_nil_inv. intros x [HP Hx]%list_elem_of_filter. by eapply Hn. Qed.

Lemma filter_ext_in {A} (P Q : A → Prop) `{!∀ x, Decision (P x), !∀ x, Decision (Q x)} (l : list A) :
  (∀ x, x ∈ l → P x ↔ Q x) → filter P l = filter Q l.
Proof.
  intros Hiff. induction l as [|x l IH]; [done|]. rewrite !filter_cons.
  rewrite IH by (intros y Hy; apply Hiff; by right). pose proof (Hiff x ltac:(by left)).
  repeat case_decide; tauto.
Qed.

(** [[x for x in l if f(x)]] *)
Definition py_filter {A} (f : A → bool) (l : list A) : list A := filter (λ x, f x = true) l.

Lemma py_filter_cons {A} (f : A → bool) x l :
  py_filter f (x :: l) = if f x then x :: py_filter f l else py_filter f l.
Proof. apply filter_cons_bool. Qed.
Lemma py_filter_nil {A} (f : A → bool) : py_filter f [] = [].
Proof. reflexivity. Qed.
Lemma py_filter_app {A} (f : A → bool) l1 l2 : py_filter f (l1 ++ l2) = py_filter f l1 ++ py_filter f l2.
Proof. apply filter_app. Qed.
Lemma elem_of_py_filter {A} (f : A → bool) l x : x ∈ py_filter f l ↔ f x = true ∧ x ∈ l.
Proof. unfold py_filter. by rewrite list_elem_of_filter. Qed.
Lemma py_filter_nil_iff {A} (f : A → bool) l : py_filter f l = [] ↔ ∀ x, x ∈ l → f x = false.
Proof.
  split.
  - intros H x Hx. destruct (f x) eqn:E; [|done]. exfalso.
    assert (x ∈ py_filter f l) as Hin by (by apply elem_of_py_filter). rewrite H in Hin. by apply elem_of_nil in Hin.
  - intros H. apply list_filter_none. intros x Hx. by rewrite (H x Hx).
Qed.
Lemma py_filter_length {A} (f : A → bool) l : (length (py_filter f l) <= length l)%nat.
Proof. apply length_filter. Qed.

Lemma existsb_elem {A} (f : A → bool) l : existsb f l = true ↔ ∃ x, x ∈ l ∧ f x = true.
Proof. rewrite existsb_exists. setoid_rewrite list_elem_of_In. done. Qed.
Lemma existsb_none {A} (f : A → bool) l : existsb f l = false ↔ ∀ x, x ∈ l → f x = false.
Proof.
  rewrite <- not_true_iff_false, existsb_elem. split.
  - intros H x Hx. destruct (f x) eqn:E; [|done]. exfalso. eauto.
  - intros H (x & Hx & Hf). by rewrite (H x Hx) in Hf.
Qed.
Lemma forallb_elem {A} (f : A → bool) l : forallb f l = true ↔ ∀ x, x ∈ l → f x = true.
Proof. rewrite forallb_forall. setoid_rewrite list_elem_of_In. done. Qed.

Lemma zlen_nil {A} : zlen (@nil A) = 0.
Proof. reflexivity. Qed.
Lemma zlen_cons {A} (x : A) l : zlen (x :: l) = 1 + zlen l.
Proof. unfold zlen. simpl. lia. Qed.
Lemma zlen_app {A} (l1 l2 : list A) : zlen (l1 ++ l2) = zlen l1 + zlen l2.
Proof. unfold zlen. rewrite length_app. lia. Qed.
Lemma zlen_nonneg {A} (l : list A) : 0 <= zlen l.
Proof. unfold zlen. lia. Qed.
#[export] Instance zlen_Permutation {A} : Proper ((≡ₚ) ==> (=)) (@zlen A).
Proof. intros l1 l2 H. unfold zlen. by rewrite H. Qed.
Lemma zlen_zero {A} (l : list A) : zlen l = 0 ↔ l = [].
Proof. destruct l; unfold zlen; simpl; split; intros; [done|done|lia|done]. Qed.

(** [l[i]]: negative indices count from the end, [IndexError] outside *)
Definition py_pos {A} (l : list A) (i : Z) : option nat :=
  if (0 <=? i) && (i <? zlen l) then Some (Z.to_nat i)
  else if (- zlen l <=? i) && (i <? 0) then Some (Z.to_nat (zlen l + i))
  else None.

Definition py_index {A} (l : list A) (i : Z) : result A :=
  match py_pos l i with
  | Some n => match l !! n with Some x => Ok x | None => Err IndexError end
  | None => Err IndexError
  end.

Lemma py_index_nonneg {A} (l : list A) i x :
  0 <= i → l !! Z.to_nat i = Some x → py_index l i = Ok x.
Proof.
  intros Hi Hx. pose proof (lookup_lt_Some _ _ _ Hx). unfold py_index, py_pos, zlen.
  rewrite (proj2 (Z.leb_le _ _)), (proj2 (Z.ltb_lt _ _)) by lia. simpl. by rewrite Hx.
Qed.

Lemma py_index_last {A} (l : list A) x : py_index (l ++ [x]) (-1) = Ok x.
Proof.
  unfold py_index, py_pos. rewrite zlen_app. change (zlen [x]) with 1.
  pose proof (zlen_nonneg l).
  replace (0 <=? -1) with false by done.
  replace (- (zlen l + 1) <=? -1) with true by (symmetry; apply Z.leb_le; lia). simpl.
  replace (Z.to_nat (zlen l + 1 + -1)) with (length l) by (unfold zlen; lia).
  by rewrite list_lookup_middle.
Qed.

Lemma py_pos_nonneg {A} (l : list A) i x :
  0 <= i → l !! Z.to_nat i = Some x → py_pos l i = Some (Z.to_nat i).
Proof.
  intros Hi Hx. pose proof (lookup_lt_Some _ _ _ Hx). unfold py_pos, zlen.
  by rewrite (proj2 (Z.leb_le _ _)), (proj2 (Z.ltb_lt _ _)) by lia.
Qed.

(** A method of the object [l[i]]. *)
Definition on_index {S A} (i : Z) (m : act S A) : act (list S) A := λ l,
  match py_pos l i with
  | Some n =>
      match l !! n with
      | Some s => let '(s', r) := m s in (<[n := s']> l, r)
      | None => (l, Err IndexError)
      end
  | None => (l, Err IndexError)
  end.

Lemma on_index_Some {S A} i (m : act S A) (l : list S) s :
  0 <= i → l !! Z.to_nat i = Some s →
  on_index i m l = (<[Z.to_nat i := (m s).1]> l, (m s).2).
Proof.
  intros Hi Hs. unfold on_index. rewrite (py_pos_nonneg _ _ _ Hi Hs), Hs. by destruct (m s).
Qed.

(** [a % b] and [a // b]: floored, as [Z.modulo] and [Z.div] *)
Definition py_mod (a b : Z) : result Z :=
  if b =? 0 then Err ZeroDivisionError else Ok (a mod b).
Definition py_div (a b : Z) : result Z :=
  if b =? 0 then Err ZeroDivisionError else Ok (a / b).

(** [l[i] = x] *)
Definition py_setitem {A} (l : list A) (i : Z) (x : A) : result (list A) :=
  match py_pos l i with Some n => Ok (<[n := x]> l) | None => Err IndexError end.

(** [min(l, key=k)] and [max(l, key=k)]: the first of the best *)
Section best.
Context {A K : Type} (lt : K → K → bool) (k : A → K).

Definition py_min_key (l : list A) : result A :=
  match l with
  | [] => Err ValueError
  | x :: l => Ok (foldl (λ b y, if lt (k y) (k b) then y else b) x l)
  end.
Definition py_max_key (l : list A) : result A :=
  match l with
  | [] => Err ValueError
  | x :: l => Ok (foldl (λ b y, if lt (k b) (k y) then y else b) x l)
  end.

Lemma best_elem (f : A → A → bool) x l : foldl (λ b y, if f b y then y else b) x l ∈ x :: l.
Proof.
  revert x. induction l as [|y l IH]; intros x; cbn [foldl]; [by left|].
  pose proof (IH (if f x y then y else x)) as H. apply elem_of_cons in H as [->|H].
  - destruct (f x y); [right; left|left].
  - right. by right.
Qed.
Lemma py_min_key_elem l x : py_min_key l = Ok x → x ∈ l.
Proof. destruct l as [|y l]; [done|]. intros [= <-]. apply (best_elem (λ b y, lt (k y) (k b))). Qed.
Lemma py_max_key_elem l x : py_max_key l = Ok x → x ∈ l.
Proof. destruct l as [|y l]; [done|]. intros [= <-]. apply (best_elem (λ b y, lt (k b) (k y))). Qed.
End best.

(** With integer keys the chosen element is a least, or a greatest, one. *)
Lemma py_min_key_le {A} (k : A → Z) l x : py_min_key Z.ltb k l = Ok x → ∀ y, y ∈ l → k x <= k y.
Proof.
  destruct l as [|z l]; [done|]. intros [= <-]. revert z. induction l as [|w l IH]; intros z y Hy; cbn [foldl].
  - apply list_elem_of_singleton in Hy as ->. lia.
  - pose proof (IH (if k w <? k z then w else z)) as H.
    apply elem_of_cons in Hy as [->|[->|Hy]%elem_of_cons].
    + etrans; [apply H; left|]. destruct (k w <? k z) eqn:E; lia.
    + etrans; [apply H; left|]. destruct (k w <? k z) eqn:E; lia.
    + apply H. by right.
Qed.
Lemma py_max_key_ge {A} (k : A → Z) l x : py_max_key Z.ltb k l = Ok x → ∀ y, y ∈ l → k y <= k x.
Proof.
  destruct l as [|z l]; [done|]. intros [= <-]. revert z. induction l as [|w l IH]; intros z y Hy; cbn [foldl].
  - apply list_elem_of_singleton in Hy as ->. lia.
  - pose proof (IH (if k z <? k w then w else z)) as H.
    apply elem_of_cons in Hy as [->|[->|Hy]%elem_of_cons].
    + etrans; [|apply H; left]. destruct (k z <? k w) eqn:E; lia.
    + etrans; [|apply H; left]. destruct (k z <? k w) eqn:E; lia.
    + apply H. by right.
Qed.

(** the order of pairs *)
Definition zz_ltb (a b : Z * Z) : bool := (a.1 <? b.1) || ((a.1 =? b.1) && (a.2 <? b.2)).

(** [min(l)] and [max(l)] of a non-empty sequence of integers *)
Definition py_min (x : Z) (l : list Z) : Z := foldr Z.min x l.
Definition py_max (x : Z) (l : list Z) : Z := foldr Z.max x l.

Lemma py_min_le x l y : y ∈ x :: l → py_min x l <= y.
Proof.
  unfold py_min. intros Hy. apply elem_of_cons in Hy as [->|Hy].
  - induction l; simpl; lia.
  - induction l as [|z l IH]; simpl; [by apply elem_of_nil in Hy|].
    apply elem_of_cons in Hy as [->|Hy]; [lia|]. specialize (IH Hy). lia.
Qed.

Lemma py_min_elem x l : py_min x l ∈ x :: l.
Proof.
  unfold py_min. induction l as [|z l IH]; simpl; [left|].
  destruct (Z.min_spec z (foldr Z.min x l)) as [[_ ->]|[_ ->]]; [right; left|].
  apply elem_of_cons in IH as [->|IH]; [left|right; by right].
Qed.

Lemma py_max_ge x l y : y ∈ x :: l → y <= py_max x l.
Proof.
  unfold py_max. intros Hy. apply elem_of_cons in Hy as [->|Hy].
  - induction l; simpl; lia.
  - induction l as [|z l IH]; simpl; [by apply elem_of_nil in Hy|].
    apply elem_of_cons in Hy as [->|Hy]; [lia|]. specialize (IH Hy). lia.
Qed.

Lemma py_max_elem x l : py_max x l ∈ x :: l.
Proof.
  unfold py_max. induction l as [|z l IH]; simpl; [left|].
  destruct (Z.max_spec z (foldr Z.max x l)) as [[_ ->]|[_ ->]]; [|right; left].
  apply elem_of_cons in IH as [->|IH]; [left|right; by right].
Qed.

(** ** Sorted lists *)

Lemma StronglySorted_weaken {A} (R1 R2 : relation A) l :
  (∀ x y, R1 x y → R2 x y) → StronglySorted R1 l → StronglySorted R2 l.
Proof.
  intros HR. induction 1 as [|x l Hl IH Hx]; constructor; [done|].
  eapply Forall_impl; [exact Hx|]. auto.
Qed.

Lemma StronglySorted_filter {A} (R : relation A) (P : A → Prop) `{!∀ x, Decision (P x)} (l : list A) :
  StronglySorted R l → StronglySorted R (filter P l).
Proof.
  induction 1 as [|x l Hl IH Hall]; [constructor|]. rewrite filter_cons. case_decide; [|done].
  constructor; [done|]. apply Forall_forall. intros y [_ Hy]%list_elem_of_filter.
  by eapply Forall_forall in Hall.
Qed.

Lemma StronglySorted_seqZ a n : StronglySorted Z.lt (seqZ a n).
Proof.
  destruct (Z.le_gt_cases 0 n) as [Hn|Hn]; [|rewrite seqZ_nil by lia; constructor].
  revert a. pattern n. apply natlike_ind; [| |done]; clear n Hn.
  - intros a. rewrite seqZ_nil by lia. constructor.
  - intros n Hn IH a. rewrite seqZ_cons by lia. constructor.
    + replace (Z.pred (Z.succ n)) with n by lia. apply IH.
    + apply Forall_forall. intros x Hx%elem_of_seqZ. lia.
Qed.

(** ** Lists built by a function of the index *)

Section tabulated.
Context {A : Type}.
Implicit Types f : Z → A.

Lemma tab_lookup f n i : 0 <= i < n → (f <$> seqZ 0 n) !! Z.to_nat i = Some (f i).
Proof. intros Hi. rewrite list_lookup_fmap, lookup_seqZ_lt by lia. cbn. f_equal. f_equal. lia. Qed.
Lemma tab_index f n i : 0 <= i < n → py_index (f <$> seqZ 0 n) i = Ok (f i).
Proof. intros Hi. apply py_index_nonneg; [lia|]. by apply tab_lookup. Qed.
Lemma tab_ext f g n : (∀ i, 0 <= i < n → f i = g i) → f <$> seqZ 0 n = g <$> seqZ 0 n.
Proof. intros Heq. apply list_fmap_ext. intros k x [-> Hk]%lookup_seqZ. apply Heq. lia. Qed.
Lemma tab_setitem f n i v : 0 <= i < n →
  py_setitem (f <$> seqZ 0 n) i v = Ok ((λ j, if j =? i then v else f j) <$> seqZ 0 n).
Proof.
  intros Hi. unfold py_setitem. rewrite (py_pos_nonneg _ _ _ (proj1 Hi) (tab_lookup f n i Hi)). f_equal.
  apply list_eq. intros k. destruct (decide (Z.of_nat k < n)) as [Hk|Hk].
  - rewrite list_lookup_fmap, lookup_seqZ_lt by done. cbn.
    destruct (decide (k = Z.to_nat i)) as [->|Hne].
    + rewrite list_lookup_insert_eq by (rewrite length_fmap, length_seqZ; lia). by rewrite (proj2 (Z.eqb_eq _ i)) by lia.
    + rewrite list_lookup_insert_ne by done. rewrite list_lookup_fmap, lookup_seqZ_lt by done. cbn.
      by rewrite (proj2 (Z.eqb_neq _ i)) by lia.
  - rewrite !lookup_ge_None_2; [done|rewrite length_fmap, length_seqZ; lia|rewrite length_insert, length_fmap, length_seqZ; lia].
Qed.
Lemma tab_replicate (x : A) n : replicate (Z.to_nat n) x = (λ _, x) <$> seqZ 0 n.
Proof. apply list_eq. intros k. rewrite list_lookup_fmap. destruct (decide (Z.of_nat k < n)).
  - rewrite lookup_replicate_2, lookup_seqZ_lt by lia. done.
  - rewrite lookup_seqZ_ge by lia. apply lookup_ge_None_2. rewrite length_replicate. lia.
Qed.
Lemma tab_mapM (g : Z → result A) f n : (∀ i, 0 <= i < n → g i = Ok (f i)) → mapM g (seqZ 0 n) = Ok (f <$> seqZ 0 n).
Proof.
  intros Hg. assert (∀ l, (∀ i, i ∈ l → 0 <= i < n) → mapM g l = Ok (f <$> l)) as H.
  { induction l as [|i l IH]; intros Hl; [done|]. cbn. rewrite Hg by (apply Hl; left). cbn.
    by rewrite IH by (intros j Hj; apply Hl; by right). }
  apply H. intros i Hi%elem_of_seqZ. lia.
Qed.
Lemma tab_imap {B} f (g : Z → A → B) n : imap (λ i x, g (Z.of_nat i) x) (f <$> seqZ 0 n) = (λ i, g i (f i)) <$> seqZ 0 n.
Proof.
  apply list_eq. intros k. rewrite list_lookup_imap, !list_lookup_fmap. destruct (decide (Z.of_nat k < n)).
  - rewrite lookup_seqZ_lt by done. done.
  - by rewrite lookup_seqZ_ge by lia.
Qed.
End tabulated.

Create HintDb relay.
Create Rewrite HintDb relay_rw.
#[export] Hint Resolve zlen_nonneg : relay.
(** [l[-1]] of a list that is not empty does not look at its default *)
Lemma list_last_cons {A} (x : A) l d : List.last (x :: l) d = List.last l x.
Proof.
  revert x d. induction l as [|y l IH]; intros x d; [done|].
  change (List.last (x :: y :: l) d) with (List.last (y :: l) d). by rewrite !IH.
Qed.

#[export] Hint Rewrite @zlen_nil @zlen_cons @zlen_app @zsum_app : relay_rw.
