(* ===== verification/PyDict.v ===== *)
(** * Python dictionaries

    A [dict] is an association list in insertion order: assigning to a key that
    is present changes its value in place, assigning to a new key appends it,
    and iteration follows that order.  Dictionaries whose order the code never
    observes are stdpp's [gmap] in the components; this type is for the others. *)

From S2P Require Import Prelude.

Abbreviation pydict K V := (list (K * V)) (only parsing).

Section pydict.
Context {K V : Type} `{EqDecision K}.

Implicit Types (d : pydict K V) (k : K) (v : V).

(** [d.get(k)] *)
Fixpoint d_get (d : pydict K V) (k : K) : option V :=
  match d with
  | [] => None
  | (k', v) :: d' => if bool_decide (k = k') then Some v else d_get d' k
  end.

(** [d[k] = v] *)
Fixpoint d_set (d : pydict K V) (k : K) (v : V) : pydict K V :=
  match d with
  | [] => [(k, v)]
  | (k', v') :: d' =>
      if bool_decide (k = k') then (k', v) :: d' else (k', v') :: d_set d' k v
  end.

(** [del d[k]], for a key that is present *)
Definition d_del (d : pydict K V) (k : K) : pydict K V :=
  filter (λ p, p.1 ≠ k) d.

Definition d_keys (d : pydict K V) : list K := d.*1.
Definition d_values (d : pydict K V) : list V := d.*2.
Definition d_mem (d : pydict K V) (k : K) : bool := bool_decide (k ∈ d_keys d).
(** [d.get(k, default)] *)
Definition d_getd (d : pydict K V) (k : K) (v : V) : V := default v (d_get d k).

(** [d[k]] *)
Definition d_item (d : pydict K V) (k : K) : result V :=
  match d_get d k with Some v => Ok v | None => Err KeyError end.

Definition d_wf (d : pydict K V) : Prop := NoDup (d_keys d).

Lemma d_get_set_eq d k v : d_get (d_set d k v) k = Some v.
Proof.
  induction d as [|[k' v'] d IH]; simpl.
  - by rewrite bool_decide_eq_true_2.
  - case_bool_decide as H; simpl; [by rewrite bool_decide_eq_true_2|].
    by rewrite bool_decide_eq_false_2.
Qed.

Lemma d_get_set_ne d k k' v : k' ≠ k → d_get (d_set d k v) k' = d_get d k'.
Proof.
  intros Hne. induction d as [|[k'' v''] d IH]; simpl.
  - by rewrite bool_decide_eq_false_2.
  - case_bool_decide as H; simpl; [|by rewrite IH].
    subst k''. by rewrite bool_decide_eq_false_2.
Qed.

Lemma d_get_set d k k' v :
  d_get (d_set d k v) k' = if bool_decide (k' = k) then Some v else d_get d k'.
Proof. case_bool_decide as H; [subst; apply d_get_set_eq|by apply d_get_set_ne]. Qed.

Lemma d_getd_set d k k' v v0 :
  d_getd (d_set d k v) k' v0 = if bool_decide (k' = k) then v else d_getd d k' v0.
Proof. unfold d_getd. rewrite d_get_set. by case_bool_decide. Qed.

Lemma d_get_None d k : d_get d k = None ↔ k ∉ d_keys d.
Proof.
  induction d as [|[k' v'] d IH]; simpl; [split; [intros _ []%elem_of_nil|done]|].
  rewrite not_elem_of_cons, <-IH. case_bool_decide; [|tauto]. split; [done|tauto].
Qed.

Lemma d_get_is_Some d k : is_Some (d_get d k) ↔ k ∈ d_keys d.
Proof.
  rewrite <-not_eq_None_Some, d_get_None. split; [|tauto].
  intros H. destruct (decide (k ∈ d_keys d)); tauto.
Qed.

Lemma d_mem_get d k : d_mem d k = match d_get d k with Some _ => true | None => false end.
Proof.
  unfold d_mem. destruct (d_get d k) eqn:E.
  - apply bool_decide_eq_true_2, d_get_is_Some. by rewrite E.
  - apply bool_decide_eq_false_2. by apply d_get_None.
Qed.

Lemma d_get_elem_of d k v : d_get d k = Some v → (k, v) ∈ d.
Proof.
  induction d as [|[k' v'] d IH]; simpl; [done|].
  case_bool_decide; intros; simplify_eq; [left|right; auto].
Qed.

Lemma d_elem_of_get d k v : d_wf d → (k, v) ∈ d → d_get d k = Some v.
Proof.
  unfold d_wf. induction d as [|[k' v'] d IH]; simpl; intros Hwf Hin;
    [by apply elem_of_nil in Hin|].
  apply NoDup_cons in Hwf as [Hk Hwf].
  apply elem_of_cons in Hin as [?|Hin]; simplify_eq.
  - by rewrite bool_decide_eq_true_2.
  - rewrite bool_decide_eq_false_2; [auto|].
    intros ->. apply Hk. apply list_elem_of_fmap. by exists (k', v).
Qed.

Lemma d_keys_set_mem d k v : k ∈ d_keys d → d_keys (d_set d k v) = d_keys d.
Proof.
  induction d as [|[k' v'] d IH]; simpl; intros Hin; [by apply elem_of_nil in Hin|].
  case_bool_decide; simpl; [done|].
  apply elem_of_cons in Hin as [|Hin]; [done|]. by rewrite <-IH.
Qed.

Lemma d_set_fresh d k v : k ∉ d_keys d → d_set d k v = d ++ [(k, v)].
Proof.
  induction d as [|[k' v'] d IH]; simpl; [done|].
  rewrite not_elem_of_cons. intros [Hne Hk].
  rewrite bool_decide_eq_false_2 by done. by rewrite IH.
Qed.

Lemma d_keys_set_fresh d k v : k ∉ d_keys d → d_keys (d_set d k v) = d_keys d ++ [k].
Proof. intros. rewrite d_set_fresh by done. unfold d_keys. by rewrite fmap_app. Qed.

Lemma d_wf_nil : d_wf [].
Proof. constructor. Qed.

Lemma d_wf_set d k v : d_wf d → d_wf (d_set d k v).
Proof.
  unfold d_wf. intros Hwf. destruct (decide (k ∈ d_keys d)).
  - by rewrite d_keys_set_mem.
  - rewrite d_keys_set_fresh by done. apply NoDup_app.
    split; [done|]. split; [|apply NoDup_singleton].
    intros k' Hk' ->%list_elem_of_singleton. done.
Qed.

Lemma d_keys_del d k : d_keys (d_del d k) = filter (.≠ k) (d_keys d).
Proof.
  unfold d_del, d_keys. induction d as [|[k' v'] d IH]; [done|].
  destruct (decide (k' = k)) as [->|Hne].
  - rewrite fmap_cons, !filter_cons_False by (simpl; tauto). apply IH.
  - rewrite fmap_cons, !filter_cons_True by done. simpl. by f_equal.
Qed.

Lemma d_wf_del d k : d_wf d → d_wf (d_del d k).
Proof. unfold d_wf. rewrite d_keys_del. apply NoDup_filter. Qed.

Lemma d_get_del_eq d k : d_get (d_del d k) k = None.
Proof. apply d_get_None. rewrite d_keys_del, list_elem_of_filter. tauto. Qed.

Lemma d_get_del_ne d k k' : k' ≠ k → d_get (d_del d k) k' = d_get d k'.
Proof.
  intros Hne. unfold d_del. induction d as [|[k'' v''] d IH]; simpl; [done|].
  rewrite filter_cons. simpl. case_decide; simpl; rewrite IH; [done|].
  case_bool_decide; naive_solver.
Qed.

Lemma d_get_del d k k' :
  d_get (d_del d k) k' = if bool_decide (k' = k) then None else d_get d k'.
Proof. case_bool_decide as H; [subst; apply d_get_del_eq|by apply d_get_del_ne]. Qed.

Lemma d_del_Permutation d k : d_wf d → k ∈ d_keys d → d_keys d ≡ₚ k :: d_keys (d_del d k).
Proof.
  intros Hwf Hk. rewrite d_keys_del. apply NoDup_Permutation; [done| |].
  - apply NoDup_cons. rewrite list_elem_of_filter. split; [tauto|by apply NoDup_filter].
  - intros k'. rewrite elem_of_cons, list_elem_of_filter. destruct (decide (k' = k)); naive_solver.
Qed.

Lemma d_del_elem_of d k k' v : (k', v) ∈ d_del d k ↔ k' ≠ k ∧ (k', v) ∈ d.
Proof. unfold d_del. by rewrite list_elem_of_filter. Qed.

Lemma d_set_elem_of d k v k' v' : d_wf d →
  (k', v') ∈ d_set d k v ↔ (k' = k ∧ v' = v) ∨ (k' ≠ k ∧ (k', v') ∈ d).
Proof.
  intros Hwf. assert (Heq : ∀ (d' : pydict K V), d_wf d' → (k', v') ∈ d' ↔ d_get d' k' = Some v').
  { intros d' Hd'. split; [by apply d_elem_of_get|apply d_get_elem_of]. }
  rewrite !Heq, d_get_set by auto using d_wf_set. case_bool_decide; naive_solver.
Qed.

Lemma d_keys_length d : length (d_keys d) = length d.
Proof. apply length_fmap. Qed.

(** Looking every key of a dictionary up sums its values. *)
Lemma zsum_lookup (f : V → Z) (dflt : V) d :
  d_wf d → zsum (λ k, f (d_getd d k dflt)) (d_keys d) = zsum f (d_values d).
Proof.
  unfold d_wf, d_keys. induction d as [|[k v] d IH]; simpl; intros Hwf; [done|].
  apply NoDup_cons in Hwf as [Hk Hwf]. rewrite <-(IH Hwf). f_equal.
  - unfold d_getd. simpl. by rewrite bool_decide_eq_true_2.
  - apply zsum_ext. intros k' Hk'. unfold d_getd. simpl.
    rewrite bool_decide_eq_false_2; [done|]. by intros ->.
Qed.

(** Writing or deleting a key changes the sum of the values by that key's share. *)
Lemma zsum_values_set (f : V → Z) (dflt : V) d k v : f dflt = 0 →
  zsum f (d_values (d_set d k v)) = zsum f (d_values d) - f (d_getd d k dflt) + f v.
Proof.
  intros H0. unfold d_values, d_getd. induction d as [|[k' v'] d IH]; [cbn; lia|].
  cbn [d_set d_get]. case_bool_decide; rewrite !fmap_cons, !zsum_cons; cbn [snd default]; [unfold id|rewrite IH]; lia.
Qed.

Lemma zsum_values_del (f : V → Z) (dflt : V) d k : f dflt = 0 → d_wf d →
  zsum f (d_values (d_del d k)) = zsum f (d_values d) - f (d_getd d k dflt).
Proof.
  intros H0. unfold d_values, d_getd, d_wf, d_del, d_keys. induction d as [|[k' v'] d IH]; [cbn; lia|].
  intros [Hk Hwf]%NoDup_cons. rewrite filter_cons. cbn [d_get fst].
  destruct (decide (k' = k)) as [->|Hne]; case_decide as Hd; [done| | |done].
  - rewrite bool_decide_eq_true_2, fmap_cons, zsum_cons by done. rewrite list_filter_all; [cbn; unfold id; lia|].
    intros [k2 v2] Hin Heq. cbn in Heq. subst k2. apply Hk, list_elem_of_fmap. by exists (k, v2).
  - rewrite bool_decide_eq_false_2, !fmap_cons, !zsum_cons, IH by (done || congruence). cbn [snd]. lia.
Qed.

(** Two dictionaries with the same lookups: the equality of Python. *)
Definition d_eq (d1 d2 : pydict K V) : Prop := ∀ k, d_get d1 k = d_get d2 k.

#[global] Instance d_eq_equiv : Equivalence d_eq.
Proof.
  split; [by intros d k|intros d1 d2 H k; by rewrite H|].
  intros d1 d2 d3 H1 H2 k. by rewrite H1, H2.
Qed.

#[global] Instance d_get_proper : Proper (d_eq ==> (=) ==> (=)) d_get.
Proof. intros d1 d2 H k ? <-. apply H. Qed.

#[global] Instance d_set_proper : Proper (d_eq ==> (=) ==> (=) ==> d_eq) d_set.
Proof. intros d1 d2 H k ? <- v ? <- k'. rewrite !d_get_set. by rewrite H. Qed.

#[global] Instance d_del_proper : Proper (d_eq ==> (=) ==> d_eq) d_del.
Proof. intros d1 d2 H k ? <- k'. rewrite !d_get_del. by rewrite H. Qed.
End pydict.

(** ** Dictionaries as finite maps *)

Section pydict_map.
Context {K V : Type} `{Countable K}.
Implicit Types (d : pydict K V).

Definition d_map d : gmap K V := list_to_map d.

Lemma d_map_lookup d k : d_map d !! k = d_get d k.
Proof.
  unfold d_map. induction d as [|[k' v] d IH]; [done|]. cbn [list_to_map d_get foldr].
  rewrite lookup_insert. case_decide as Hk; case_bool_decide; subst; done.
Qed.
Lemma d_map_set d k v : d_map (d_set d k v) = <[k := v]> (d_map d).
Proof.
  apply map_eq. intros k'. rewrite lookup_insert, !d_map_lookup, d_get_set.
  case_decide; case_bool_decide; subst; done.
Qed.
Lemma d_map_del d k : d_map (d_del d k) = delete k (d_map d).
Proof.
  apply map_eq. intros k'. rewrite lookup_delete, !d_map_lookup, d_get_del.
  case_decide; case_bool_decide; subst; done.
Qed.
End pydict_map.

(** [d.setdefault(k, v)], and the dict of a sequence of pairs *)
Definition d_setdefault {K V} `{EqDecision K} (d : pydict K V) (k : K) (v : V) : pydict K V :=
  if d_mem d k then d else d_set d k v.
Definition d_of_list {K V} `{EqDecision K} (l : list (K * V)) : pydict K V :=
  foldl (λ d p, d_set d p.1 p.2) [] l.

(** [d.update(other)] *)
Definition d_update {K V} `{EqDecision K} (d other : pydict K V) : pydict K V :=
  foldl (λ d p, d_set d p.1 p.2) d other.

Lemma d_wf_update {K V} `{EqDecision K} (d other : pydict K V) : d_wf d → d_wf (d_update d other).
Proof.
  revert d. induction other as [|[k v] other IH]; intros d Hd; [done|]. by apply IH, d_wf_set.
Qed.

Lemma d_get_update {K V} `{EqDecision K} (d other : pydict K V) k : d_wf other →
  d_get (d_update d other) k = match d_get other k with Some v => Some v | None => d_get d k end.
Proof.
  revert d. induction other as [|[k' v] other IH]; intros d Hwf; [done|].
  inversion Hwf as [|? ? Hk Hwf']; subst. unfold d_update. cbn [foldl fst snd].
  fold (d_update (d_set d k' v) other). rewrite IH by done. cbn [d_get]. rewrite d_get_set.
  case_bool_decide as Heq; [subst k'|done].
  by rewrite (proj2 (d_get_None other k) Hk).
Qed.

Lemma d_get_filter {K V} `{EqDecision K} (P : V → Prop) `{!∀ v, Decision (P v)} (d : pydict K V) k :
  d_wf d →
  d_get (filter (λ p, P p.2) d) k
  = match d_get d k with Some v => if decide (P v) then Some v else None | None => None end.
Proof.
  intros Hwf. induction d as [|[k' v] d IH]; [done|]. inversion Hwf as [|? ? Hk Hwf']; subst.
  rewrite filter_cons. cbn [d_get]. specialize (IH Hwf'). case_bool_decide as Heq.
  - subst k'. cbn [snd]. rewrite (proj2 (d_get_None d k) Hk) in IH.
    case_decide; cbn [d_get]; [by rewrite bool_decide_eq_true_2|done].
  - case_decide; cbn [d_get]; [by rewrite bool_decide_eq_false_2|done].
Qed.

#[export] Hint Resolve @d_wf_nil @d_wf_set @d_wf_del : relay.
#[export] Hint Rewrite @d_get_set_eq @d_get_del_eq : relay_rw.
