(* ===== verification/PyBytes.v ===== *)
(** * Bytes, text and SHA-256

    [bytes] is a list of [Byte.byte].  A [str] is a [string] of code points
    below 256 (one [ascii] per code point): its UTF-8 encoding, its whitespace
    and its ordering are Python's on that range.  [hashlib.sha256] is written
    out, so that the routing and the checksums of the broker compute. *)

From Stdlib Require Import Strings.Byte Strings.Ascii.
From S2P Require Import Prelude.

Abbreviation bytes := (list byte).

#[export] Instance byte_eq_dec : EqDecision byte := Byte.byte_eq_dec.

(** the integer value of a byte, and the byte of an integer modulo 256 *)
Definition b2z (b : byte) : Z := Z.of_N (Byte.to_N b).
Definition z2b (z : Z) : byte :=
  match Byte.of_N (Z.to_N (z mod 256)) with Some b => b | None => x00 end.

Lemma b2z_range b : 0 <= b2z b < 256.
Proof. unfold b2z. pose proof (Byte.to_N_bounded b). lia. Qed.

Lemma z2b_b2z b : z2b (b2z b) = b.
Proof.
  unfold z2b. rewrite Z.mod_small by apply b2z_range.
  unfold b2z. by rewrite N2Z.id, Byte.of_to_N.
Qed.

Lemma b2z_z2b z : b2z (z2b z) = z mod 256.
Proof.
  pose proof (Z.mod_pos_bound z 256 ltac:(lia)). unfold z2b, b2z.
  destruct (Byte.of_N (Z.to_N (z mod 256))) as [b|] eqn:E.
  - apply Byte.to_of_N in E. rewrite E. by rewrite Z2N.id by lia.
  - apply Byte.of_N_None_iff in E. lia.
Qed.

Lemma b2z_inj b1 b2 : b2z b1 = b2z b2 → b1 = b2.
Proof. intros H. by rewrite <-(z2b_b2z b1), <-(z2b_b2z b2), H. Qed.

#[export] Hint Resolve b2z_range : relay.
#[export] Hint Rewrite z2b_b2z b2z_z2b : relay_rw.

(** [int.from_bytes(bs, "big")] and [n.to_bytes(len, "big")] *)
Definition be_combine (bs : bytes) : Z := foldl (λ acc b, acc * 256 + b2z b) 0 bs.
Fixpoint be_split (len : nat) (n : Z) : bytes :=
  match len with
  | O => []
  | S len' => be_split len' (n / 256) ++ [z2b n]
  end.

Lemma be_split_length len n : length (be_split len n) = len.
Proof. revert n. induction len; intros; simpl; [done|]. rewrite length_app, IHlen. simpl. lia. Qed.

Lemma be_combine_split len n :
  0 <= n < 256 ^ Z.of_nat len → be_combine (be_split len n) = n.
Proof.
  unfold be_combine. revert n. induction len as [|len IH]; intros n Hn.
  - simpl in *. lia.
  - rewrite Nat2Z.inj_succ, Z.pow_succ_r in Hn by lia. simpl.
    rewrite foldl_snoc, b2z_z2b, IH.
    + pose proof (Z.div_mod n 256). lia.
    + split; [apply Z.div_pos; lia|apply Z.div_lt_upper_bound; lia].
Qed.

(** ** Text *)

Definition code (c : ascii) : Z := Z.of_N (N_of_ascii c).

(** [s.encode()]: UTF-8 *)
Definition encode_char (c : ascii) : bytes :=
  let p := code c in
  if p <? 128 then [z2b p]
  else [z2b (Z.lor 192 (Z.shiftr p 6)); z2b (Z.lor 128 (Z.land p 63))].
Fixpoint encode (s : string) : bytes :=
  match s with
  | EmptyString => []
  | String c s' => encode_char c ++ encode s'
  end.

(** [str.isspace] on one character *)
Definition is_space (c : ascii) : bool :=
  let p := code c in
  ((9 <=? p) && (p <=? 13)) || ((28 <=? p) && (p <=? 32)) || (p =? 133) || (p =? 160).

(** [not s.strip()]: every character is whitespace *)
Fixpoint blank (s : string) : bool :=
  match s with
  | EmptyString => true
  | String c s' => is_space c && blank s'
  end.

(** [c in s], for a single character *)
Fixpoint has_char (c : ascii) (s : string) : bool :=
  match s with
  | EmptyString => false
  | String c' s' => Ascii.eqb c c' || has_char c s'
  end.

Definition slen (s : string) : Z := Z.of_nat (String.length s).

(** [sep.join(parts)], on bytes and on text *)
Fixpoint join_bytes (sep : bytes) (parts : list bytes) : bytes :=
  match parts with
  | [] => []
  | [p] => p
  | p :: parts' => p ++ sep ++ join_bytes sep parts'
  end.
Fixpoint join_str (sep : string) (parts : list string) : string :=
  match parts with
  | [] => ""
  | [p] => p
  | p :: parts' => p +:+ sep +:+ join_str sep parts'
  end.

(** ** Hexadecimal *)

Definition hex_digit (d : Z) : ascii :=
  ascii_of_N (Z.to_N (if d <? 10 then 48 + d else 87 + d)).
Fixpoint hex_of (bs : bytes) : string :=
  match bs with
  | [] => ""
  | b :: bs' =>
      String (hex_digit (b2z b / 16)) (String (hex_digit (b2z b mod 16)) (hex_of bs'))
  end.
(** [f"{n:08x}"], for [0 <= n < 2**32] *)
Definition hex08 (n : Z) : string := hex_of (be_split 4 n).

Definition hex_value (c : ascii) : Z := let p := code c in if p <? 58 then p - 48 else p - 87.
(** [int(s, 16)], on lower-case digits *)
Fixpoint int_of_hex (acc : Z) (s : string) : Z :=
  match s with
  | EmptyString => acc
  | String c s' => int_of_hex (acc * 16 + hex_value c) s'
  end.

(** ** [repr] of bytes *)

Definition repr_byte (quote : Z) (b : byte) : string :=
  let p := b2z b in
  let ch := String (ascii_of_N (Z.to_N p)) "" in
  if (p =? quote) || (p =? 92) then "\" +:+ ch
  else if p =? 9 then "\t"
  else if p =? 10 then "\n"
  else if p =? 13 then "\r"
  else if (p <? 32) || (127 <=? p) then "\x" +:+ hex_of [b]
  else ch.
(** single quotes, unless the bytes hold one and no double quote *)
Definition repr_quote (bs : bytes) : Z :=
  if existsb (λ b, b2z b =? 39) bs && negb (existsb (λ b, b2z b =? 34) bs) then 34 else 39.
Definition repr_bytes (bs : bytes) : string :=
  let q := repr_quote bs in
  let qs := String (ascii_of_N (Z.to_N q)) "" in
  "b" +:+ qs +:+ foldr (λ b s, repr_byte q b +:+ s) "" bs +:+ qs.

(** [repr] of a [str], and of a list of them *)
Definition repr_char (quote : Z) (c : ascii) : string :=
  let p := code c in
  let ch := String c "" in
  if (p =? quote) || (p =? 92) then "\" +:+ ch
  else if p =? 9 then "\t"
  else if p =? 10 then "\n"
  else if p =? 13 then "\r"
  else if (p <? 32) || ((127 <=? p) && (p <=? 160)) || (p =? 173) then "\x" +:+ hex_of [z2b p]
  else ch.
Definition repr_str (s : string) : string :=
  let q := if has_char "'"%char s && negb (has_char (ascii_of_N 34) s) then 34 else 39 in
  let qs := String (ascii_of_N (Z.to_N q)) "" in
  let fix go s := match s with EmptyString => "" | String c s' => repr_char q c +:+ go s' end in
  qs +:+ go s +:+ qs.
Definition repr_list {A} (f : A → string) (l : list A) : string :=
  "[" +:+ join_str ", " (f <$> l) +:+ "]".

(** ** [hashlib.sha256] *)

Module Sha256.
Definition w32 (x : Z) : Z := Z.land x 0xffffffff.
Definition rotr (n x : Z) : Z := w32 (Z.lor (Z.shiftr x n) (Z.shiftl x (32 - n))).
Definition xor3 (a b c : Z) : Z := Z.lxor (Z.lxor a b) c.
Definition ch (x y z : Z) : Z := Z.lxor (Z.land x y) (Z.land (w32 (Z.lnot x)) z).
Definition maj (x y z : Z) : Z := xor3 (Z.land x y) (Z.land x z) (Z.land y z).
Definition bsig0 (x : Z) : Z := xor3 (rotr 2 x) (rotr 13 x) (rotr 22 x).
Definition bsig1 (x : Z) : Z := xor3 (rotr 6 x) (rotr 11 x) (rotr 25 x).
Definition ssig0 (x : Z) : Z := xor3 (rotr 7 x) (rotr 18 x) (Z.shiftr x 3).
Definition ssig1 (x : Z) : Z := xor3 (rotr 17 x) (rotr 19 x) (Z.shiftr x 10).

Definition round_constants : list Z :=
[
 1116352408; 1899447441; 3049323471; 3921009573;
 961987163; 1508970993; 2453635748; 2870763221;
 3624381080; 310598401; 607225278; 1426881987;
 1925078388; 2162078206; 2614888103; 3248222580;
 3835390401; 4022224774; 264347078; 604807628;
 770255983; 1249150122; 1555081692; 1996064986;
 2554220882; 2821834349; 2952996808; 3210313671;
 3336571891; 3584528711; 113926993; 338241895;
 666307205; 773529912; 1294757372; 1396182291;
 1695183700; 1986661051; 2177026350; 2456956037;
 2730485921; 2820302411; 3259730800; 3345764771;
 3516065817; 3600352804; 4094571909; 275423344;
 430227734; 506948616; 659060556; 883997877;
 958139571; 1322822218; 1537002063; 1747873779;
 1955562222; 2024104815; 2227730452; 2361852424;
 2428436474; 2756734187; 3204031479; 3329325298
].
Definition initial_state : list Z :=
[
 1779033703; 3144134277; 1013904242; 2773480762;
 1359893119; 2600822924; 528734635; 1541459225
].

(** The message schedule, most recent word first. *)
Fixpoint extend (n : nat) (ws : list Z) : list Z :=
  match n with
  | O => ws
  | S n' =>
      let at_ i := nth i ws 0 in
      extend n' (w32 (ssig1 (at_ 1%nat) + at_ 6%nat + ssig0 (at_ 14%nat) + at_ 15%nat) :: ws)
  end.

Fixpoint words (fuel : nat) (bs : bytes) : list Z :=
  match fuel, bs with
  | S fuel', _ :: _ => be_combine (take 4 bs) :: words fuel' (drop 4 bs)
  | _, _ => []
  end.

Definition round (st : list Z) (kw : Z * Z) : list Z :=
  match st with
  | [a; b; c; d; e; f; g; h] =>
      let t1 := h + bsig1 e + ch e f g + kw.1 + kw.2 in
      let t2 := bsig0 a + maj a b c in
      [w32 (t1 + t2); a; b; c; w32 (d + t1); e; f; g]
  | _ => st
  end.

Definition compress (st : list Z) (block : bytes) : list Z :=
  let ws := reverse (extend 48 (reverse (words 16 block))) in
  zip_with (λ x y, w32 (x + y)) st (foldl round st (zip round_constants ws)).

Fixpoint blocks (fuel : nat) (bs : bytes) (st : list Z) : list Z :=
  match fuel, bs with
  | S fuel', _ :: _ => blocks fuel' (drop 64 bs) (compress st (take 64 bs))
  | _, _ => st
  end.

Definition pad (bs : bytes) : bytes :=
  let zeros := Z.to_nat ((55 - zlen bs) mod 64) in
  bs ++ [x80] ++ replicate zeros x00 ++ be_split 8 (8 * zlen bs).

(** [hashlib.sha256(bs).digest()] *)
Definition digest (bs : bytes) : bytes :=
  let padded := pad bs in
  mjoin (be_split 4 <$> blocks (length padded) padded initial_state).

(** [hashlib.sha256(bs).hexdigest()] *)
Definition hexdigest (bs : bytes) : string := hex_of (digest bs).

(* FIPS 180-2, appendix B *)
Example hexdigest_abc :
  hexdigest (encode "abc") =
  "ba7816bf8f01cfea414140de5dae2223b00361a396177a9cb410ff61f20015ad".
Proof. vm_compute. reflexivity. Qed.
Example hexdigest_two_blocks :
  hexdigest (encode "abcdbcdecdefdefgefghfghighijhijkijkljklmklmnlmnomnopnopq") =
  "248d6a61d20638b8e5c026930c3e6039a33ce45964ff2167f6ecedd419db06c1".
Proof. vm_compute. reflexivity. Qed.
End Sha256.
