(* ===== verification/PyFloat.v ===== *)
(** * Floating-point numbers

    A Python [float] is an IEEE 754 binary64 number: the value type and the
    correctly rounded operations are those of the Standard Library's
    [SpecFloat] at precision 53 and maximal exponent 1024, which compute in the
    kernel and assume nothing.  The literals, the comparisons with integers,
    the division of integers, [round], [int], and the decimal formats of
    f-strings ([:.2f], [:.0%], and the shortest [repr]) are written out on the
    exact rational a finite number stands for.  One case is outside the model:
    an integer of 2^1024 or more in mixed arithmetic, which Python refuses to
    convert and [of_Z] sends to infinity. *)

From Stdlib Require Import Floats.SpecFloat.
From S2P Require Import Prelude.

Abbreviation float := spec_float.

#[export] Instance float_eq_dec : EqDecision float.
Proof. solve_decision. Defined.

Definition prec : Z := 53.
Definition emax : Z := 1024.

(** ** Arithmetic *)

Definition f_add : float → float → float := SFadd prec emax.
Definition f_sub : float → float → float := SFsub prec emax.
Definition f_mul : float → float → float := SFmul prec emax.
Definition f_neg : float → float := SFopp.
Definition f_abs : float → float := SFabs.

Definition f_zero (x : float) : bool := match x with S754_zero _ => true | _ => false end.
Definition f_nan (x : float) : bool := match x with S754_nan => true | _ => false end.

(** [x / y]: Python raises on a zero divisor *)
Definition f_div (x y : float) : result float :=
  if f_zero y then Err ZeroDivisionError else Ok (SFdiv prec emax x y).

(** the float of an integer, rounded to nearest, ties to even *)
Definition of_Z (z : Z) : float := binary_normalize prec emax z 0 false.

(** [a / b] of two integers: the quotient, correctly rounded *)
Definition z_truediv (a b : Z) : result float :=
  let raw z := match z with
               | Z0 => S754_zero false
               | Zpos p => S754_finite false p 0
               | Zneg p => S754_finite true p 0
               end in
  if b =? 0 then Err ZeroDivisionError
  else match SFdiv prec emax (raw a) (raw b) with
       | S754_infinity _ => Err OverflowError
       | q => Ok q
       end.

(** the float a decimal literal denotes: [n * 10 ^ k] *)
Definition f_dec (n k : Z) : float :=
  if 0 <=? k then of_Z (n * 10 ^ k)
  else match z_truediv n (10 ^ (- k)) with Ok x => x | Err _ => S754_nan end.

Definition f0 : float := S754_zero false.
Definition f1 : float := Eval vm_compute in of_Z 1.
Definition f_inf : float := S754_infinity false.

(** ** Comparisons *)

Definition f_lt (x y : float) : bool := SFltb x y.
Definition f_le (x y : float) : bool := SFleb x y.
Definition f_eq (x y : float) : bool := SFeqb x y.

(** [min(x, y)] and [max(x, y)]: the first argument unless the second is strictly better *)
Definition f_min (x y : float) : float := if f_lt y x then y else x.
Definition f_max (x y : float) : float := if f_lt x y then y else x.

(** the exact value of a finite number, as a fraction with a positive denominator *)
Definition f_frac (x : float) : option (Z * Z) :=
  match x with
  | S754_zero _ => Some (0, 1)
  | S754_finite s m e =>
      let n := if s then Zneg m else Zpos m in
      Some (if 0 <=? e then (n * 2 ^ e, 1) else (n, 2 ^ (- e)))
  | _ => None
  end.

(** [z < x], [z <= x] of an integer and a float: exact, however large the integer *)
Definition z_cmp (z : Z) (x : float) : option comparison :=
  match x with
  | S754_nan => None
  | S754_infinity s => Some (if s then Gt else Lt)
  | _ => (λ '(n, d), Z.compare (z * d) n) <$> f_frac x
  end.
Definition zf_le (z : Z) (x : float) : bool :=
  match z_cmp z x with Some Lt | Some Eq => true | _ => false end.
Definition zf_lt (z : Z) (x : float) : bool :=
  match z_cmp z x with Some Lt => true | _ => false end.
Definition fz_le (x : float) (z : Z) : bool :=
  match z_cmp z x with Some Gt | Some Eq => true | _ => false end.
Definition fz_lt (x : float) (z : Z) : bool :=
  match z_cmp z x with Some Gt => true | _ => false end.

(** [sum(xs)] of floats from the integer 0, left to right, as in Python 3.11, the version the
    project asks for (from 3.12 on the interpreter compensates the rounding) *)
Definition f_sum (xs : list float) : float := foldl f_add f0 xs.

(** ** Conversions to integers *)

(** the integer nearest to [n / d], ties to even *)
Definition round_half_even (n d : Z) : Z :=
  let q := n / d in
  let r := n mod d in
  match 2 * r ?= d with
  | Lt => q
  | Gt => q + 1
  | Eq => if Z.even q then q else q + 1
  end.

Definition f_to_Z (f : Z → Z → Z) (x : float) : result Z :=
  match f_frac x with
  | Some (n, d) => Ok (f n d)
  | None => if f_nan x then Err ValueError else Err OverflowError
  end.

(** [int(x)], [math.ceil(x)], [math.floor(x)] and [round(x)] *)
Definition f_int : float → result Z := f_to_Z Z.quot.
Definition f_ceil : float → result Z := f_to_Z (λ n d, - (- n / d)).
Definition f_floor : float → result Z := f_to_Z Z.div.
Definition f_round : float → result Z := f_to_Z round_half_even.

(** [round(x, digits)] *)
Definition f_round_to (x : float) (digits : Z) : float :=
  match f_frac x with
  | Some (n, d) =>
      let r := round_half_even (n * 10 ^ digits) d in
      if r =? 0 then match x with S754_zero s | S754_finite s _ _ => S754_zero s | _ => x end
      else f_dec r (- digits)
  | None => x
  end.

(** ** Decimal formats *)

Fixpoint zeros (n : nat) : string :=
  match n with O => ""%string | S n => ("0" +:+ zeros n)%string end.

Definition f_sign (x : float) : bool :=
  match x with S754_zero s | S754_infinity s | S754_finite s _ _ => s | S754_nan => false end.

(** the decimal digits of [n], at least [w] of them *)
Definition pad_digits (w : Z) (n : Z) : string :=
  let s := zs n in (zeros (Z.to_nat w - String.length s) +:+ s)%string.

(** [f"{x:.pf}"] *)
Definition fmt_fixed (p : Z) (x : float) : string :=
  match f_frac x with
  | None => if f_nan x then "nan" else if f_sign x then "-inf" else "inf"
  | Some (n, d) =>
      let r := round_half_even (Z.abs n * 10 ^ p) d in
      ((if f_sign x then "-" else "") +:+ zs (r / 10 ^ p)%Z
       +:+ (if (p =? 0)%Z then "" else "." +:+ pad_digits p (r mod 10 ^ p)%Z))%string
  end.

(** [f"{x:.p%}"] *)
Definition fmt_percent (p : Z) (x : float) : string :=
  (fmt_fixed p (f_mul x (of_Z 100)) +:+ "%")%string.

(** the position of the decimal point: [10 ^ (k - 1) <= n / d < 10 ^ k] *)
Fixpoint decpt_loop (fuel : nat) (n d k : Z) : Z :=
  match fuel with
  | O => k
  | S fuel =>
      if (if 0 <=? k then d * 10 ^ k <=? n else d <=? n * 10 ^ (- k))
      then decpt_loop fuel n d (k + 1) else k
  end.
Definition decpt (n d : Z) : Z :=
  decpt_loop 4 n d ((Z.log2 n - Z.log2 d) * 30103 / 100000 - 1).

(** [n / d] to [k] significant digits *)
Definition to_digits (n d pt k : Z) : Z :=
  if 0 <=? k - pt then round_half_even (n * 10 ^ (k - pt)) d
  else round_half_even n (d * 10 ^ (pt - k)).

(** the fewest digits that read back as [x] *)
Fixpoint shortest (fuel : nat) (x : float) (n d pt k : Z) : Z * Z :=
  let ds := to_digits n d pt k in
  match fuel with
  | O => (ds, pt - k)
  | S fuel => if bool_decide (f_dec ds (pt - k) = x) then (ds, pt - k)
              else shortest fuel x n d pt (k + 1)
  end.

Fixpoint strip_zeros (fuel : nat) (n e : Z) : Z * Z :=
  match fuel with
  | O => (n, e)
  | S fuel => if n mod 10 =? 0 then strip_zeros fuel (n / 10) (e + 1) else (n, e)
  end.

(** [repr(x)], as [f"{x}"] prints it *)
Definition f_repr (x : float) : string :=
  match x with
  | S754_nan => "nan"
  | S754_infinity s => if s then "-inf" else "inf"
  | S754_zero s => if s then "-0.0" else "0.0"
  | S754_finite s m e =>
      let '(n, d) := default (0, 1) (f_frac (S754_finite false m e)) in
      let '(ds, ex) := shortest 16 (S754_finite false m e) n d (decpt n d) 1 in
      let '(ds, ex) := strip_zeros 18 ds ex in
      let digits := zs ds in
      let len := Z.of_nat (String.length digits) in
      let pt := len + ex in
      let body :=
        (if ((-4 <? pt) && (pt <=? 16))%Z then
           if (pt <=? 0)%Z then "0." +:+ zeros (Z.to_nat (- pt)) +:+ digits
           else if (len <=? pt)%Z then digits +:+ zeros (Z.to_nat (pt - len)%Z) +:+ ".0"
           else String.substring 0 (Z.to_nat pt) digits +:+ "."
                +:+ String.substring (Z.to_nat pt) (String.length digits) digits
         else
           let mant := (if (len =? 1)%Z then digits
                        else String.substring 0 1 digits +:+ "."
                             +:+ String.substring 1 (String.length digits) digits) in
           let e10 := (pt - 1)%Z in
           mant +:+ "e" +:+ (if (e10 <? 0)%Z then "-" else "+") +:+ pad_digits 2 (Z.abs e10))%string in
      ((if s then "-" else "") +:+ body)%string
  end.

Example f_dec_tenth : f_dec 1 (-1) = S754_finite false 7205759403792794 (-56).
Proof. vm_compute. reflexivity. Qed.
Example f_add_not_exact : f_repr (f_add (f_dec 1 (-1)) (f_dec 2 (-1))) = "0.30000000000000004"%string.
Proof. vm_compute. reflexivity. Qed.
Example f_repr_samples :
  f_repr <$> [f_dec 5 (-1); of_Z 100; f_dec 1 22; f_dec 1 (-7); f_dec 123456 (-3); f_dec 1 16; f_dec (-25) (-1);
              f_dec 9007199254740993 0; f_dec 1 (-4)]
  = ["0.5"; "100.0"; "1e+22"; "1e-07"; "123.456"; "1e+16"; "-2.5"; "9007199254740992.0"; "0.0001"]%string.
Proof. vm_compute. reflexivity. Qed.
Example fmt_samples :
  [fmt_fixed 1 (f_dec 25 (-2)); fmt_fixed 1 (f_dec 35 (-2)); fmt_fixed 0 (f_dec 25 (-1));
   fmt_percent 1 (f_dec 125 (-3)); fmt_fixed 2 (of_Z (-3))]
  = ["0.2"; "0.3"; "2"; "12.5%"; "-3.00"]%string.
Proof. vm_compute. reflexivity. Qed.
Example int_samples :
  (f_int (f_dec (-27) (-1)), f_ceil (f_dec 21 (-1)), f_floor (f_dec (-21) (-1)), f_round (f_dec 25 (-1)),
   z_truediv 1 3, f_round_to (f_dec 26750 (-4)) 2)
  = (Ok (-2), Ok 3, Ok (-3), Ok 2, Ok (S754_finite false 6004799503160661 (-54)), f_dec 267 (-2)).
Proof. vm_compute. reflexivity. Qed.

(** ** Order *)

Lemma f_cmp_antisym x y : SFcompare y x = CompOpp <$> SFcompare x y.
Proof.
  destruct x as [[]|[]| |[] m e], y as [[]|[]| |[] m' e']; try done.
  all: unfold SFcompare; rewrite (Z.compare_antisym e' e); destruct (Z.compare e' e); cbn; try done.
  all: pose proof (Pos.compare_antisym m' m) as Hm; unfold Pos.compare in Hm; rewrite Hm;
    by destruct (Pos.compare_cont Eq m' m).
Qed.

Lemma f_lt_irrefl x : f_lt x x = false.
Proof.
  unfold f_lt, SFltb. pose proof (f_cmp_antisym x x) as H. destruct (SFcompare x x) as [[]|]; try done.
Qed.
Lemma f_lt_asym x y : f_lt x y = true → f_lt y x = false.
Proof.
  unfold f_lt, SFltb. rewrite (f_cmp_antisym x y). by destruct (SFcompare x y) as [[]|].
Qed.
Lemma f_lt_not_ge x y : f_lt x y = true → f_le y x = false.
Proof.
  unfold f_lt, SFltb, f_le, SFleb. rewrite (f_cmp_antisym x y). by destruct (SFcompare x y) as [[]|].
Qed.
(** the order of numbers that are not NaN is total *)
Lemma f_not_lt_le x y : f_nan x = false → f_nan y = false → f_lt x y = false → f_le y x = true.
Proof.
  unfold f_lt, SFltb, f_le, SFleb. rewrite (f_cmp_antisym x y).
  destruct (SFcompare x y) as [[]|] eqn:E; try done. intros Hx Hy _. exfalso.
  destruct x, y; try done; cbn in E; repeat (case_match; try done).
Qed.
(** [min(x, y)] does not exceed its first argument, [max(x, y)] is not below it *)
Lemma f_min_upper x y : f_lt x (f_min x y) = false.
Proof. unfold f_min. destruct (f_lt y x) eqn:E; [by apply f_lt_asym|apply f_lt_irrefl]. Qed.
Lemma f_max_lower x y : f_lt (f_max x y) x = false.
Proof. unfold f_max. destruct (f_lt x y) eqn:E; [by apply f_lt_asym|apply f_lt_irrefl]. Qed.

(** ** No overflow *)

(** the number of binary digits bounds a number, and back *)
Lemma digits2_spec p : 2 ^ (Z.pos (digits2_pos p) - 1) <= Z.pos p < 2 ^ Z.pos (digits2_pos p).
Proof.
  assert (∀ d, 2 ^ (Z.pos (Pos.succ d)) = 2 * 2 ^ Z.pos d ∧ 2 ^ (Z.pos (Pos.succ d) - 1) = 2 * 2 ^ (Z.pos d - 1)) as Hs.
  { intros d. rewrite Pos2Z.inj_succ. split; [apply Z.pow_succ_r; lia|].
    replace (Z.succ (Z.pos d) - 1) with (Z.succ (Z.pos d - 1)) by lia. apply Z.pow_succ_r. lia. }
  induction p as [p IH|p IH|]; cbn [digits2_pos]; [| |done].
  all: destruct (Hs (digits2_pos p)) as [-> ->]; lia.
Qed.
Lemma Zdigits2_bound m k : 0 <= k → 0 <= m < 2 ^ k → 0 <= Zdigits2 m <= k.
Proof.
  intros Hk Hm. destruct m as [|p|p]; cbn [Zdigits2]; [lia| |lia]. split; [lia|].
  pose proof (digits2_spec p) as [Hp _]. apply Z.nlt_ge. intros Hlt.
  pose proof (Z.pow_le_mono_r 2 k (Z.pos (digits2_pos p) - 1) eq_refl ltac:(lia)). lia.
Qed.

(** shifting right does not make a mantissa larger *)
Lemma shr_1_shrinks r : 0 <= shr_m r → 0 <= shr_m (shr_1 r) <= shr_m r.
Proof. destruct r as [[|[p|p|]|p] ? ?]; cbn; lia. Qed.
Lemma iter_shr_shrinks p : ∀ r, 0 <= shr_m r → 0 <= shr_m (SpecFloat.iter_pos shr_1 p r) <= shr_m r.
Proof.
  induction p as [p IH|p IH|]; intros r Hr; cbn [SpecFloat.iter_pos]; [| |by apply shr_1_shrinks].
  - pose proof (shr_1_shrinks r Hr) as H1. pose proof (IH (shr_1 r) ltac:(lia)) as H2.
    pose proof (IH _ (proj1 H2)) as H3. lia.
  - pose proof (IH r Hr) as H1. pose proof (IH _ (proj1 H1)) as H2. lia.
Qed.
Lemma shr_fexp_bound m e l k : 0 <= k → 0 <= m < 2 ^ k →
  0 <= shr_m (shr_fexp prec emax m e l).1 <= m ∧ (shr_fexp prec emax m e l).2 <= Z.max e (Z.max (k + e - 53) (-1074)).
Proof.
  intros Hk Hm. pose proof (Zdigits2_bound m k Hk Hm) as Hd. unfold shr_fexp, shr.
  assert (shr_m (shr_record_of_loc m l) = m) as Hr by (by destruct l as [|[]]).
  assert (fexp prec emax (Zdigits2 m + e) <= Z.max (k + e - 53) (-1074)) as Hf.
  { unfold fexp, emin, prec, emax in *. lia. }
  destruct (fexp prec emax (Zdigits2 m + e) - e) as [|p|p] eqn:E; cbn [fst snd]; rewrite ?Hr; [lia| |lia].
  pose proof (iter_shr_shrinks p (shr_record_of_loc m l)) as Hi. rewrite Hr in Hi. split; [apply Hi; lia|]. lia.
Qed.

(** a quotient of two numbers below [2 ** 200] is a float *)
Lemma z_truediv_small a b : 0 <= a < 2 ^ 200 → 1 <= b < 2 ^ 200 → ∃ x, z_truediv a b = Ok x.
Proof.
  intros Ha Hb. unfold z_truediv. rewrite (proj2 (Z.eqb_neq b 0)) by lia.
  destruct a as [|a|a], b as [|b|b]; [lia|by eexists|lia|lia| |lia..].
  cbn [SFdiv xorb]. destruct (SFdiv_core_binary prec emax (Z.pos a) 0 (Z.pos b) 0) as [[q e] l] eqn:Hcore.
  assert (-253 <= e <= 0 ∧ 0 <= q < 2 ^ 453) as [He Hq].
  { unfold SFdiv_core_binary in Hcore. pose proof (Zdigits2_bound (Z.pos a) 200 ltac:(lia) ltac:(lia)) as Hda.
    pose proof (Zdigits2_bound (Z.pos b) 200 ltac:(lia) ltac:(lia)) as Hdb.
    rewrite !Z.add_0_r in Hcore. set (e' := Z.min _ _) in Hcore.
    assert (-253 <= e' <= 0) as He' by (unfold e', fexp, emin, prec, emax; lia). clearbody e'.
    change (0 - 0 - e') with (- e') in Hcore. set (m' := match _ with Z0 => _ | Z.pos _ => _ | Z.neg _ => _ end) in Hcore.
    assert (0 <= m' < 2 ^ 453) as Hm'.
    { assert (m' = Z.pos a * 2 ^ (- e')) as ->.
      { unfold m'. destruct (- e') eqn:E; [change (2 ^ 0) with 1; lia|by rewrite Z.shiftl_mul_pow2|lia]. }
      pose proof (Z.pow_le_mono_r 2 (- e') 253 eq_refl ltac:(lia)) as Hp. pose proof (Z.pow_pos_nonneg 2 (- e') eq_refl ltac:(lia)).
      replace (2 ^ 453) with (2 ^ 200 * 2 ^ 253) by reflexivity. split; [nia|].
      apply Z.lt_le_trans with (2 ^ 200 * 2 ^ (- e')); [apply Z.mul_lt_mono_pos_r|apply Z.mul_le_mono_nonneg_l]; lia. }
    clearbody m'. pose proof (Z_div_mod m' (Z.pos b) eq_refl) as Hdiv. destruct (Z.div_eucl m' (Z.pos b)) as [q' r'].
    simplify_eq. nia. }
  unfold binary_round_aux. pose proof (shr_fexp_bound q e l 453 ltac:(lia) Hq) as H1.
  destruct (shr_fexp prec emax q e l) as [r1 e1]. cbn [fst snd] in H1.
  assert (0 <= round_nearest_even (shr_m r1) (loc_of_shr_record r1) < 2 ^ 454) as Hround.
  { change (2 ^ 454) with (2 ^ 453 * 2). unfold round_nearest_even. repeat case_match; lia. }
  pose proof (shr_fexp_bound _ e1 loc_Exact 454 ltac:(lia) Hround) as H2.
  destruct (shr_fexp prec emax _ e1 loc_Exact) as [r2 e2]. cbn [fst snd] in H2.
  destruct (shr_m r2) as [|m|m]; [by eexists| |by eexists].
  assert (e2 <= emax - prec) as He2 by (unfold emax, prec; lia). rewrite (proj2 (Z.leb_le _ _) He2). by eexists.
Qed.

(** ** Values of a record of fields: [dict[str, object]] *)
Inductive pyval :=
  | PNone
  | PInt (z : Z)
  | PFloat (x : float)
  | PStr (s : string).

#[export] Instance pyval_eq_dec : EqDecision pyval.
Proof. solve_decision. Defined.
