(* ===== verification/Log.v ===== *)
(** * The log: records, segments, partitions

    [relay/records.py], [relay/segmentlog.py] and [relay/partition.py].  A
    segment log refines an abstract log, a first offset and a list of records;
    a partition adds the high watermark below which consumers read. *)

From Stdlib Require Import Strings.Byte.
From S2P Require Import Prelude PyBytes.

Module records.
(** [relay/records.py] MAX_VALUE_BYTES *)
Definition MAX_VALUE_BYTES : Z := 1000000.

(** [relay/records.py] _digest *)
Definition _digest (payload : bytes) : string :=
  String.substring 0 16 (Sha256.hexdigest payload).

Module Record.
(** [relay/records.py] class Record *)
Record t := mk {
  value : bytes;
  key : option bytes;
  headers : list (string * string);
  checksum : string;
}.

(** [relay/records.py] Record.body_digest *)
Definition body_digest (self : t) : string :=
  let parts := [value self; default [] (key self)] in
  let parts := foldl (λ parts '(name, value), parts ++ [encode name; encode value])
                     parts (headers self) in
  _digest (join_bytes [x7c] parts).

(** [relay/records.py] Record.__post_init__ *)
Definition make (value : bytes) (key : option bytes)
    (headers : list (string * string)) : result t :=
  if bool_decide (value = []) then Err Invalid
  else if MAX_VALUE_BYTES <? zlen value then Err Invalid
  else if existsb (λ h, blank h.1) headers then Err Invalid
  else
    let self := mk value key headers "" in
    Ok (mk value key headers (body_digest self)).

(** [relay/records.py] Record.verify *)
Definition verify (self : t) : result unit :=
  if negb (bool_decide (checksum self = body_digest self)) then Err Invalid else Ok ().

(** [relay/records.py] Record.size_bytes *)
Definition size_bytes (self : t) : Z :=
  let header_bytes := zsum (λ h, slen h.1 + slen h.2) (headers self) in
  zlen (value self) + zlen (default [] (key self)) + header_bytes.

#[global] Instance record_eq_dec : EqDecision t.
Proof. solve_decision. Defined.

(** A record as [Record(...)] builds it. *)
Definition valid (self : t) : Prop :=
  make (value self) (key self) (headers self) = Ok self.

Lemma make_valid v k h r : make v k h = Ok r → valid r.
Proof.
  intros H. pose proof H as H'. unfold valid. unfold make in H.
  repeat bool_split_in H; simplify_eq. apply H'.
Qed.

Lemma size_bytes_nonneg r : 0 <= size_bytes r.
Proof.
  unfold size_bytes, slen. pose proof (zlen_nonneg (value r)).
  pose proof (zlen_nonneg (default [] (key r))).
  assert (0 <= zsum (λ h : string * string, slen h.1 + slen h.2) (headers r)); [|unfold slen in *; lia].
  apply zsum_nonneg. intros. unfold slen. lia.
Qed.
End Record.
End records.
Import records.

Module segmentlog.
(** [relay/segmentlog.py] ROLL_AT_BYTES *)
Definition ROLL_AT_BYTES : Z := 4096.

Module Segment.
(** [relay/segmentlog.py] class Segment *)
Record t := mk {
  base_offset : Z;
  records : list Record.t;
  sealed : bool;
}.

Definition set_records (rs : list Record.t) (s : t) : t := mk (base_offset s) rs (sealed s).
Definition seal (s : t) : t := mk (base_offset s) (records s) true.

(** [relay/segmentlog.py] Segment.append *)
Definition append (record : Record.t) : act t Z :=
  self ← get;
  raise_if (sealed self) Sealed;;
  put (set_records (records self ++ [record]) self);;
  self ← get;
  mret (base_offset self + zlen (records self) - 1).

(** [relay/segmentlog.py] Segment.size_bytes *)
Definition size_bytes (self : t) : Z := zsum Record.size_bytes (records self).

(** [relay/segmentlog.py] Segment.next_offset *)
Definition next_offset (self : t) : Z := base_offset self + zlen (records self).

(** [relay/segmentlog.py] Segment.holds *)
Definition holds (self : t) (offset : Z) : bool :=
  (base_offset self <=? offset) && (offset <? next_offset self).

(** [relay/segmentlog.py] Segment.read *)
Definition read (self : t) (offset : Z) : result Record.t :=
  if negb (holds self offset) then Err Missing
  else py_index (records self) (offset - base_offset self).
End Segment.

Module SegmentLog.
(** [relay/segmentlog.py] class SegmentLog *)
Record t := mk {
  segments : list Segment.t;
  rolls : Z;
}.

(** [relay/segmentlog.py] SegmentLog.__post_init__ *)
Definition make (segments : list Segment.t) (rolls : Z) : t :=
  match segments with
  | [] => mk [Segment.mk 0 [] false] rolls
  | _ => mk segments rolls
  end.
(** [SegmentLog()] *)
Definition new : t := make [] 0.

(** [relay/segmentlog.py] SegmentLog._active *)
Definition _active (self : t) : result Segment.t := py_index (segments self) (-1).

(** A mutation of the active segment, the last of the list. *)
Definition on_active {A} (m : act Segment.t A) : act t A := λ self,
  match _active self with
  | Ok seg =>
      let '(seg', r) := m seg in
      (mk (removelast (segments self) ++ [seg']) (rolls self), r)
  | Err e => (self, Err e)
  end.

(** [relay/segmentlog.py] SegmentLog.append *)
Definition append (record : Record.t) : act t Z :=
  self ← get;
  active ← pure_of (_active self);
  (if (ROLL_AT_BYTES <? Segment.size_bytes active + Record.size_bytes record)
      && negb (bool_decide (Segment.records active = []))
   then
     on_active (modify Segment.seal);;
     modify (λ s, mk (segments s) (rolls s + 1));;
     modify (λ s, mk (segments s ++ [Segment.mk (Segment.next_offset active) [] false])
                     (rolls s))
   else mret ());;
  on_active (Segment.append record).

(** [relay/segmentlog.py] SegmentLog.first_offset *)
Definition first_offset (self : t) : result Z :=
  seg ← py_index (segments self) 0;
  mret (Segment.base_offset seg).

(** [relay/segmentlog.py] SegmentLog.next_offset *)
Definition next_offset (self : t) : result Z :=
  seg ← _active self;
  mret (Segment.next_offset seg).

(** [relay/segmentlog.py:106-109] SegmentLog.read *)
Fixpoint read_in (segs : list Segment.t) (offset : Z) : result Record.t :=
  match segs with
  | [] => Err Invalid
  | segment :: segs' =>
      if Segment.holds segment offset then Segment.read segment offset
      else read_in segs' offset
  end.

(** [relay/segmentlog.py] SegmentLog.read *)
Definition read (self : t) (offset : Z) : result Record.t :=
  first ← first_offset self;
  if offset <? first then Err Lagging
  else
    next ← next_offset self;
    if next <=? offset then Err Missing
    else read_in (segments self) offset.

(** [relay/segmentlog.py] SegmentLog.drop_sealed_before *)
Fixpoint drop_loop (offset : Z) (segs : list Segment.t) (dropped : Z) :
    list Segment.t * Z :=
  match segs with
  | seg :: ((_ :: _) as rest) =>
      if Segment.sealed seg && (Segment.next_offset seg <=? offset)
      then drop_loop offset rest (dropped + 1)
      else (segs, dropped)
  | _ => (segs, dropped)
  end.
(** [relay/segmentlog.py] SegmentLog.drop_sealed_before *)
Definition drop_sealed_before (offset : Z) : act t Z :=
  self ← get;
  let '(segs, dropped) := drop_loop offset (segments self) 0 in
  put (mk segs (rolls self));;
  mret dropped.

(** [relay/segmentlog.py] SegmentLog.shape *)
Definition shape (self : t) : result string :=
  let sealed := zsum (λ s, if Segment.sealed s then 1 else 0) (segments self) in
  first ← first_offset self;
  next ← next_offset self;
  mret (zs (zlen (segments self)) +:+ " segment(s), " +:+ zs sealed
        +:+ " sealed, offsets " +:+ zs first +:+ ".." +:+ zs (next - 1)
        +:+ ", " +:+ zs (rolls self) +:+ " roll(s)").
End SegmentLog.
End segmentlog.
Import segmentlog.

Module partition.
Module Partition.
(** [relay/partition.py] class Partition *)
Record t := mk {
  number : Z;
  log : SegmentLog.t;
  high_watermark : Z;
}.
(** [Partition(number=number)] *)
Definition new (number : Z) : t := mk number SegmentLog.new 0.

Definition set_log (l : SegmentLog.t) (p : t) : t := mk (number p) l (high_watermark p).
Definition set_high_watermark (h : Z) (p : t) : t := mk (number p) (log p) h.

(** [relay/partition.py] Partition.append *)
Definition append (record : Record.t) : act t Z :=
  zoom log set_log (SegmentLog.append record).

(** [relay/partition.py] Partition.advance_watermark *)
Definition advance_watermark (to_offset : Z) : act t string :=
  self ← get;
  raise_if (to_offset <? high_watermark self) Invalid;;
  next ← pure_of (SegmentLog.next_offset (log self));
  raise_if (next <? to_offset) Invalid;;
  put (set_high_watermark to_offset self);;
  mret ("partition " +:+ zs (number self) +:+ " committed through " +:+ zs (to_offset - 1)).

(** [relay/partition.py] Partition.consume *)
Definition consume (self : t) (offset : Z) : result Record.t :=
  if high_watermark self <=? offset then Err Missing
  else SegmentLog.read (log self) offset.

(** [relay/partition.py] Partition.honesty_interval *)
Definition honesty_interval (self : t) : result string :=
  next ← SegmentLog.next_offset (log self);
  let uncommitted := next - high_watermark self in
  mret ("partition " +:+ zs (number self) +:+ ": " +:+ zs uncommitted
        +:+ " record(s) exist but are not yet promises").

(** [relay/partition.py] Partition.lag_of *)
Definition lag_of (self : t) (committed_offset : Z) : result Z :=
  if high_watermark self <? committed_offset then Err Invalid
  else Ok (high_watermark self - committed_offset).
End Partition.
End partition.
Import partition.

(** ** Facts about segment logs *)

Section segmentlog_facts.
Implicit Types (s seg : Segment.t) (l : SegmentLog.t) (segs : list Segment.t).

(** Each segment starts where the previous one ends. *)
Fixpoint chain (base : Z) segs : Prop :=
  match segs with
  | [] => True
  | s :: segs' => Segment.base_offset s = base ∧ chain (Segment.next_offset s) segs'
  end.

Definition contents segs : list Record.t := segs ≫= Segment.records.
Definition start segs : Z := default 0 (Segment.base_offset <$> head segs).

Definition sealed_full s : Prop := Segment.sealed s = true ∧ Segment.records s ≠ [].
(** No segment outgrows the threshold, except one that holds a single record. *)
Definition within_threshold s : Prop :=
  Segment.size_bytes s <= ROLL_AT_BYTES ∨ (length (Segment.records s) <= 1)%nat.

(** The invariant of a segment log: a contiguous chain of sealed non-empty
    segments followed by one that is open. *)
Record log_wf l : Prop := {
  log_wf_shape : ∃ pre active, SegmentLog.segments l = pre ++ [active] ∧
    Forall sealed_full pre ∧ Segment.sealed active = false;
  log_wf_chain : chain (start (SegmentLog.segments l)) (SegmentLog.segments l);
  log_wf_threshold : Forall within_threshold (SegmentLog.segments l);
}.

Lemma contents_snoc segs s : contents (segs ++ [s]) = contents segs ++ Segment.records s.
Proof. unfold contents. rewrite bind_app. simpl. by rewrite app_nil_r. Qed.

Lemma chain_app b segs1 segs2 :
  chain b (segs1 ++ segs2) ↔ chain b segs1 ∧ chain (b + zlen (contents segs1)) segs2.
Proof.
  revert b. induction segs1 as [|s segs1 IH]; intros b; simpl.
  - rewrite Z.add_0_r. tauto.
  - rewrite IH. unfold Segment.next_offset, contents. rewrite zlen_app.
    rewrite Z.add_assoc. split; [intros (<- & ? & ?)|intros ((<- & ?) & ?)]; tauto.
Qed.

Lemma next_offset_last b pre active :
  chain b (pre ++ [active]) →
  Segment.next_offset active = b + zlen (contents (pre ++ [active])).
Proof.
  rewrite chain_app, contents_snoc, zlen_app. simpl. unfold Segment.next_offset.
  intros (_ & Hb & _). lia.
Qed.

Lemma start_snoc pre s s' :
  Segment.base_offset s = Segment.base_offset s' → start (pre ++ [s]) = start (pre ++ [s']).
Proof. destruct pre; simpl; [|done]. unfold start. simpl. by intros ->. Qed.

Lemma chain_snoc_records b pre active rs :
  chain b (pre ++ [active]) → chain b (pre ++ [Segment.set_records rs active]).
Proof. rewrite !chain_app. simpl. tauto. Qed.

Lemma active_snoc l pre active :
  SegmentLog.segments l = pre ++ [active] → SegmentLog._active l = Ok active.
Proof.
  intros Hl. unfold SegmentLog._active. rewrite Hl. apply py_index_last.
Qed.

Lemma on_active_snoc {A} (m : act Segment.t A) l pre active :
  SegmentLog.segments l = pre ++ [active] →
  SegmentLog.on_active m l =
    (SegmentLog.mk (pre ++ [(m active).1]) (SegmentLog.rolls l), (m active).2).
Proof.
  intros Hl. unfold SegmentLog.on_active. rewrite (active_snoc l pre active Hl), Hl.
  rewrite removelast_last. by destruct (m active).
Qed.

Lemma on_active_bind {A B} (m : act Segment.t A) (k : A → act SegmentLog.t B) l pre active :
  SegmentLog.segments l = pre ++ [active] →
  (SegmentLog.on_active m ≫= k) l =
    let l' := SegmentLog.mk (pre ++ [(m active).1]) (SegmentLog.rolls l) in
    match (m active).2 with Ok a => k a l' | Err e => (l', Err e) end.
Proof. intros Hl. by rewrite bind_run, (on_active_snoc _ _ _ _ Hl). Qed.

Lemma first_offset_wf l :
  log_wf l → SegmentLog.first_offset l = Ok (start (SegmentLog.segments l)).
Proof.
  intros [(pre & active & Hl & _) _ _]. unfold SegmentLog.first_offset. rewrite Hl.
  destruct pre as [|s pre].
  - by rewrite (py_index_nonneg _ 0 active).
  - by rewrite (py_index_nonneg _ 0 s).
Qed.

Lemma next_offset_wf l :
  log_wf l →
  SegmentLog.next_offset l =
    Ok (start (SegmentLog.segments l) + zlen (contents (SegmentLog.segments l))).
Proof.
  intros [(pre & active & Hl & _) Hc _]. unfold SegmentLog.next_offset.
  rewrite (active_snoc _ _ _ Hl). simpl. rewrite Hl in *.
  by rewrite (next_offset_last _ _ _ Hc).
Qed.

(** *** Appending *)

(** What the append leaves: the record joins the open segment, or opens the
    next one when the open segment would outgrow the threshold. *)
Definition needs_roll active r : bool :=
  (ROLL_AT_BYTES <? Segment.size_bytes active + Record.size_bytes r)
  && negb (bool_decide (Segment.records active = [])).

Lemma append_eq l pre active r :
  SegmentLog.segments l = pre ++ [active] → Segment.sealed active = false →
  SegmentLog.append r l =
    if needs_roll active r then
      let fresh := Segment.mk (Segment.next_offset active) [r] false in
      (SegmentLog.mk ((pre ++ [Segment.seal active]) ++ [fresh]) (SegmentLog.rolls l + 1),
       Ok (Segment.next_offset active))
    else
      (SegmentLog.mk (pre ++ [Segment.set_records (Segment.records active ++ [r]) active])
                     (SegmentLog.rolls l),
       Ok (Segment.next_offset active)).
Proof.
  intros Hl Hs. unfold SegmentLog.append, needs_roll. act_simpl.
  rewrite (active_snoc _ _ _ Hl). bool_split.
  - rewrite bind_assoc, (on_active_bind _ _ _ _ _ Hl). act_simpl.
    erewrite on_active_snoc by reflexivity. unfold Segment.append. act_simpl.
    unfold Segment.set_records. simpl. repeat f_equal. unfold zlen. simpl. lia.
  - act_simpl. rewrite (on_active_snoc _ _ _ _ Hl). unfold Segment.append.
    act_simpl. rewrite Hs. simpl. repeat f_equal.
    unfold Segment.next_offset. rewrite zlen_app. unfold zlen. simpl. lia.
Qed.

Lemma append_wf l r :
  log_wf l →
  ∃ l', SegmentLog.append r l =
      (l', Ok (start (SegmentLog.segments l) + zlen (contents (SegmentLog.segments l)))) ∧
    log_wf l' ∧
    start (SegmentLog.segments l') = start (SegmentLog.segments l) ∧
    contents (SegmentLog.segments l') = contents (SegmentLog.segments l) ++ [r].
Proof.
  intros [(pre & active & Hl & Hpre & Hs) Hc Hb].
  rewrite (append_eq _ _ _ r Hl Hs). rewrite Hl in *.
  rewrite <-(next_offset_last _ _ _ Hc).
  apply Forall_app in Hb as [Hbp Hba]. rewrite Forall_singleton in Hba.
  destruct (needs_roll active r) eqn:Hr; unfold needs_roll in Hr;
    (eexists; split; [reflexivity|]).
  - apply andb_true_iff in Hr as [_ Hne].
    apply negb_true_iff, bool_decide_eq_false in Hne.
    assert (start ((pre ++ [Segment.seal active]) ++
              [Segment.mk (Segment.next_offset active) [r] false])
            = start (pre ++ [active])) as Hst.
    { destruct pre; done. }
    simpl. rewrite Hst. split; [|split; [done|by rewrite !contents_snoc]].
    split; simpl.
    + eexists _, _. split; [done|]. split; [|done].
      apply Forall_app. split; [done|]. by apply Forall_singleton.
    + rewrite Hst. rewrite chain_app. split.
      * by rewrite chain_app in *.
      * simpl. split; [|done]. rewrite contents_snoc. simpl.
        rewrite (next_offset_last _ _ _ Hc), contents_snoc. done.
    + apply Forall_app. split; [apply Forall_app; split; [done|]|].
      * apply Forall_singleton, Hba.
      * apply Forall_singleton. right. simpl. lia.
  - simpl. rewrite (start_snoc pre _ active) by done.
    split; [|split; [done|rewrite !contents_snoc; simpl; by rewrite app_assoc]].
    split; simpl.
    + by eexists _, _.
    + rewrite (start_snoc pre _ active) by done. by apply chain_snoc_records.
    + apply Forall_app. split; [done|]. apply Forall_singleton.
      unfold within_threshold, Segment.size_bytes in *. simpl.
      rewrite zsum_app. simpl. bool_prop. destruct Hr as [Hr|Hr]; bool_prop.
      * left. lia.
      * right. rewrite Hr. simpl. lia.
Qed.

(** *** Reading *)

Lemma read_in_contents b segs o :
  chain b segs → b <= o < b + zlen (contents segs) →
  ∃ r, SegmentLog.read_in segs o = Ok r ∧ contents segs !! Z.to_nat (o - b) = Some r.
Proof.
  revert b. induction segs as [|s segs IH]; intros b; simpl; [rewrite zlen_nil; lia|].
  intros [Hb Hc]. unfold contents in *. rewrite zlen_app. intros Ho.
  unfold Segment.read. destruct (Segment.holds s o) eqn:Hh; simpl;
    unfold Segment.holds, Segment.next_offset in *; bool_prop.
  - destruct (lookup_lt_is_Some_2 (Segment.records s) (Z.to_nat (o - b))) as [r Hr];
      [unfold zlen in *; lia|].
    exists r. rewrite Hb. split; [by apply py_index_nonneg; [lia|]|].
    by apply lookup_app_l_Some.
  - destruct (IH _ Hc) as (r & Hr & Hl); [lia|]. exists r. split; [done|].
    rewrite lookup_app_r by (unfold zlen in *; lia). rewrite <-Hl. f_equal.
    unfold zlen in *. lia.
Qed.

Lemma read_wf l o :
  log_wf l →
  let first := start (SegmentLog.segments l) in
  let recs := contents (SegmentLog.segments l) in
  SegmentLog.read l o =
    if o <? first then Err Lagging
    else if first + zlen recs <=? o then Err Missing
    else match recs !! Z.to_nat (o - first) with Some r => Ok r | None => Err Invalid end.
Proof.
  intros Hwf. unfold SegmentLog.read. rewrite first_offset_wf, next_offset_wf by done.
  simpl. repeat bool_split; bool_prop; [done..|].
  destruct (read_in_contents _ _ o (log_wf_chain _ Hwf)) as (r & -> & ->); [lia|done].
Qed.

(** *** Dropping sealed segments *)

Lemma drop_loop_app b o pre active n :
  chain b (pre ++ [active]) →
  ∃ gone kept, pre = gone ++ kept ∧
    SegmentLog.drop_loop o (pre ++ [active]) n = (kept ++ [active], n + zlen gone) ∧
    (∀ s, s ∈ gone → Segment.next_offset s <= o) ∧
    (Forall sealed_full pre →
     ∀ s kept', kept = s :: kept' → o < Segment.next_offset s).
Proof.
  revert b n. induction pre as [|s pre IH]; intros b n; simpl.
  - exists [], []. rewrite zlen_nil, Z.add_0_r. split; [done|]. split; [done|].
    split; [by intros s ?%elem_of_nil|done].
  - intros [Hb Hc].
    assert (∃ s' rest, pre ++ [active] = s' :: rest) as (s' & rest & Hrest)
      by (destruct pre; simpl; eauto).
    rewrite Hrest. destruct (_ && _) eqn:Hcond.
    + rewrite <-Hrest. destruct (IH _ (n + 1) Hc) as (gone & kept & -> & -> & Hg & Hk).
      exists (s :: gone), kept. rewrite zlen_cons. split; [done|].
      split; [f_equal; lia|]. bool_prop. split.
      * intros x [->|Hx]%elem_of_cons; auto.
      * intros Hall. apply Forall_cons in Hall as [_ Hall]. by apply Hk.
    + exists [], (s :: pre). rewrite zlen_nil, Z.add_0_r, <-Hrest. split; [done|].
      split; [done|]. split; [by intros x ?%elem_of_nil|].
      intros Hall x kept' [= -> ->]. apply Forall_cons in Hall as [[Hsl _] _].
      rewrite Hsl in Hcond. simpl in Hcond. by bool_prop.
Qed.

Lemma drop_segments_wf l gone kept active :
  log_wf l → SegmentLog.segments l = (gone ++ kept) ++ [active] →
  let l' := SegmentLog.mk (kept ++ [active]) (SegmentLog.rolls l) in
  log_wf l' ∧
  start (kept ++ [active]) = start (SegmentLog.segments l) + zlen (contents gone) ∧
  contents (kept ++ [active]) =
    drop (length (contents gone)) (contents (SegmentLog.segments l)).
Proof.
  intros [(pre & act' & Hl & Hpre & Hs) Hc Hb] Hl'. rewrite Hl' in Hl.
  apply app_inj_tail in Hl as [<- <-]. rewrite Hl' in Hc, Hb. rewrite Hl'.
  rewrite <-app_assoc in *. apply chain_app in Hc as [_ Hc].
  apply Forall_app in Hpre as [_ Hpre]. apply Forall_app in Hb as [_ Hb].
  assert (start (kept ++ [active]) = start (gone ++ kept ++ [active]) + zlen (contents gone))
    as Hst. { destruct kept; simpl in *; by destruct Hc as [<- _]. }
  split; [|split; [done|]].
  - split; simpl; [by eexists _, _|by rewrite Hst|done].
  - unfold contents at 3. rewrite bind_app. by rewrite drop_app_length.
Qed.

Lemma start_le_next b segs1 s segs2 :
  chain b (segs1 ++ s :: segs2) → b + zlen (contents segs1) <= Segment.next_offset s.
Proof.
  rewrite chain_app. simpl. intros (_ & Hs & _). unfold Segment.next_offset.
  pose proof (zlen_nonneg (Segment.records s)). lia.
Qed.

Lemma next_offset_in_chain b segs s :
  chain b segs → s ∈ segs → Segment.next_offset s <= b + zlen (contents segs).
Proof.
  intros Hc (segs1 & segs2 & ->)%list_elem_of_split.
  rewrite chain_app in Hc. simpl in Hc. destruct Hc as (_ & Hb & _).
  unfold contents. rewrite bind_app, bind_cons, !zlen_app.
  unfold Segment.next_offset. pose proof (zlen_nonneg (segs2 ≫= Segment.records)).
  unfold contents in Hb. lia.
Qed.

(** The records dropped are below the bound, and the log still starts at or
    below the bound when anything was dropped. *)
Lemma drop_sealed_before_wf l o :
  log_wf l →
  ∃ l' n (k : nat), SegmentLog.drop_sealed_before o l = (l', Ok n) ∧ log_wf l' ∧
    start (SegmentLog.segments l') = start (SegmentLog.segments l) + Z.of_nat k ∧
    contents (SegmentLog.segments l') = drop k (contents (SegmentLog.segments l)) ∧
    (k <= length (contents (SegmentLog.segments l)))%nat ∧
    0 <= n ∧ (k = 0%nat ∨ start (SegmentLog.segments l') <= o).
Proof.
  intros Hwf. pose proof Hwf as [(pre & active & Hl & Hpre & Hs) Hc Hb].
  unfold SegmentLog.drop_sealed_before. act_simpl.
  rewrite Hl in Hc |- *.
  destruct (drop_loop_app _ o _ _ 0 Hc) as (gone & kept & -> & -> & Hg & _).
  destruct (drop_segments_wf l gone kept active Hwf Hl) as (Hwf' & Hst & Hct).
  rewrite Hl in Hst, Hct. act_simpl. eexists _, _, (length (contents gone)).
  split; [reflexivity|]. simpl. rewrite Hst, Hct. split; [done|]. split; [done|].
  split; [done|]. split; [|split].
  - unfold contents. rewrite !bind_app, !length_app. lia.
  - pose proof (zlen_nonneg gone). lia.
  - destruct (decide (gone = [])) as [->|Hne]; [by left|right].
    destruct (exists_last Hne) as (gone' & s & ->).
    etrans; [|apply (Hg s); apply elem_of_app; right; left].
    rewrite <-(app_assoc (gone' ++ [s])) in Hc |- *. apply chain_app in Hc as [Hc _].
    by rewrite <-(next_offset_last _ _ _ Hc).
Qed.
End segmentlog_facts.

(** ** The abstract log, and the refinement *)

(** What a log promises: a first retained offset and the records from there. *)
Record alog := mk_alog { al_first : Z; al_records : list Record.t }.

Definition alog_of (l : SegmentLog.t) : alog :=
  mk_alog (start (SegmentLog.segments l)) (contents (SegmentLog.segments l)).

Inductive log_op := LAppend (r : Record.t) | LDrop (offset : Z).

Definition log_exec (op : log_op) : act SegmentLog.t Z :=
  match op with
  | LAppend r => SegmentLog.append r
  | LDrop o => SegmentLog.drop_sealed_before o
  end.

(** Appends extend the list and answer with the new record's offset; drops
    remove a prefix, none of it at or above the bound. *)
Definition alog_step (op : log_op) (a a' : alog) (answer : Z) : Prop :=
  match op with
  | LAppend r =>
      a' = mk_alog (al_first a) (al_records a ++ [r]) ∧
      answer = al_first a + zlen (al_records a)
  | LDrop o =>
      ∃ k : nat, (k <= length (al_records a))%nat ∧
        a' = mk_alog (al_first a + Z.of_nat k) (drop k (al_records a)) ∧
        (k = 0%nat ∨ al_first a + Z.of_nat k <= o) ∧ 0 <= answer
  end.

Definition alog_read (a : alog) (o : Z) : result Record.t :=
  if o <? al_first a then Err Lagging
  else match al_records a !! Z.to_nat (o - al_first a) with
       | Some r => Ok r
       | None => Err Missing
       end.

Definition log_run (ops : list log_op) : SegmentLog.t :=
  run (λ op, state_of (log_exec op)) ops SegmentLog.new.

Lemma new_wf : log_wf SegmentLog.new.
Proof.
  split; simpl.
  - by exists [], (Segment.mk 0 [] false).
  - done.
  - apply Forall_singleton. right. simpl. lia.
Qed.

Lemma log_exec_refines op l :
  log_wf l →
  ∃ l' v, log_exec op l = (l', Ok v) ∧ log_wf l' ∧ alog_step op (alog_of l) (alog_of l') v.
Proof.
  intros Hwf. destruct op as [r|o]; simpl.
  - destruct (append_wf l r Hwf) as (l' & -> & Hwf' & Hst & Hct).
    eexists _, _. split; [done|]. split; [done|]. unfold alog_of. simpl.
    by rewrite Hst, Hct.
  - destruct (drop_sealed_before_wf l o Hwf) as (l' & n & k & -> & Hwf' & Hst & Hct & Hk & Hn & Ho).
    eexists _, _. split; [done|]. split; [done|]. exists k. unfold alog_of. simpl.
    rewrite Hst in *. by rewrite Hct.
Qed.

Lemma log_run_wf ops : log_wf (log_run ops).
Proof.
  unfold log_run. apply run_invariant; [|apply new_wf]. intros op l Hwf.
  destruct (log_exec_refines op l Hwf) as (l' & v & Heq & Hwf' & _).
  unfold state_of. by rewrite Heq.
Qed.

Lemma read_alog l o : log_wf l → SegmentLog.read l o = alog_read (alog_of l) o.
Proof.
  intros Hwf. rewrite read_wf by done. unfold alog_read, alog_of. simpl.
  bool_split; [done|]. bool_split; bool_prop.
  - rewrite lookup_ge_None_2; [done|]. unfold zlen in *. lia.
  - destruct (lookup_lt_is_Some_2 (contents (SegmentLog.segments l))
      (Z.to_nat (o - start (SegmentLog.segments l)))) as [r ->]; [unfold zlen in *; lia|done].
Qed.

(** ** Partitions *)

Definition p_first (p : Partition.t) : Z := start (SegmentLog.segments (Partition.log p)).
Definition p_records (p : Partition.t) : list Record.t :=
  contents (SegmentLog.segments (Partition.log p)).

(** The watermark never passes the end of the log. *)
Record partition_wf (p : Partition.t) : Prop := {
  partition_wf_log : log_wf (Partition.log p);
  partition_wf_mark : 0 <= Partition.high_watermark p <= p_first p + zlen (p_records p);
  partition_wf_first : 0 <= p_first p;
}.

Inductive partition_op :=
  | PAppend (r : Record.t)
  | PAdvance (to_offset : Z)
  | PRetain (offset : Z).

(** The answer is dropped: the theorems below are about the states. *)
Definition partition_exec (op : partition_op) (p : Partition.t) : Partition.t :=
  match op with
  | PAppend r => state_of (Partition.append r) p
  | PAdvance o => state_of (Partition.advance_watermark o) p
  | PRetain o =>
      state_of (zoom Partition.log Partition.set_log (SegmentLog.drop_sealed_before o)) p
  end.

Lemma consume_wf p o :
  partition_wf p →
  Partition.consume p o =
    if Partition.high_watermark p <=? o then Err Missing
    else alog_read (alog_of (Partition.log p)) o.
Proof. intros Hwf. unfold Partition.consume. by rewrite read_alog by apply Hwf. Qed.

Lemma partition_new_wf n : partition_wf (Partition.new n).
Proof. split; [apply new_wf|done|done]. Qed.

(** What any operation does to a partition: the watermark does not retreat, the
    first offset does not retreat, and the retained records keep their offsets. *)
Record partition_le (p p' : Partition.t) : Prop := {
  partition_le_mark : Partition.high_watermark p <= Partition.high_watermark p';
  partition_le_first : p_first p <= p_first p';
  partition_le_records : ∀ o r, p_first p' <= o →
    p_records p !! Z.to_nat (o - p_first p) = Some r →
    p_records p' !! Z.to_nat (o - p_first p') = Some r;
}.

#[export] Instance partition_le_refl : Reflexive partition_le.
Proof. by split. Qed.
#[export] Instance partition_le_trans : Transitive partition_le.
Proof.
  intros p1 p2 p3 [H1 F1 R1] [H2 F2 R2]. split; [lia|lia|].
  intros o r Ho Hr. apply R2; [done|]. apply R1; [lia|done].
Qed.

Lemma partition_exec_log p l' :
  partition_wf p → log_wf l' →
  (∃ k, (k <= length (p_records p))%nat ∧
     (∃ new, start (SegmentLog.segments l') = p_first p + Z.of_nat k ∧
             contents (SegmentLog.segments l') = drop k (p_records p) ++ new)) →
  partition_wf (Partition.set_log l' p) ∧ partition_le p (Partition.set_log l' p).
Proof.
  intros [Hl Hm Hf] Hl' (k & Hk & new & Hst & Hct).
  assert (zlen (drop k (p_records p)) = zlen (p_records p) - Z.of_nat k) as Hlen.
  { unfold zlen. rewrite length_drop. lia. }
  split; split; unfold p_first, p_records in *; simpl in *; rewrite ?Hst, ?Hct; try lia; try done.
  - rewrite zlen_app, Hlen. pose proof (zlen_nonneg new). lia.
  - intros o r Ho Hr. apply lookup_app_l_Some. rewrite lookup_drop, <-Hr. f_equal. lia.
Qed.

Lemma partition_exec_wf op p :
  partition_wf p → partition_wf (partition_exec op p) ∧ partition_le p (partition_exec op p).
Proof.
  intros Hwf. pose proof Hwf as [Hl Hm Hf].
  destruct op as [r|o|o]; simpl; unfold state_of.
  - unfold Partition.append, zoom.
    destruct (append_wf _ r Hl) as (l' & -> & Hl' & Hst & Hct). simpl.
    apply partition_exec_log; [done..|]. exists 0%nat. split; [lia|].
    exists [r]. by rewrite Z.add_0_r, drop_0.
  - unfold Partition.advance_watermark. act_simpl.
    rewrite next_offset_wf by done. repeat (bool_split; act_simpl); bool_prop; [done..|].
    split; split; unfold p_first, p_records in *; simpl; auto with lia.
  - unfold zoom. destruct (drop_sealed_before_wf _ o Hl) as
      (l' & n & k & -> & Hl' & Hst & Hct & Hk & _). simpl.
    apply partition_exec_log; [done..|]. exists k. split; [done|].
    exists []. by rewrite app_nil_r.
Qed.

Lemma partition_run_wf ops p :
  partition_wf p →
  partition_wf (run partition_exec ops p) ∧ partition_le p (run partition_exec ops p).
Proof.
  intros Hwf. split.
  - apply run_invariant; [|done]. intros; by apply partition_exec_wf.
  - apply (run_monotone partition_exec partition_wf partition_le); auto using partition_exec_wf.
Qed.

(** ** Properties *)

(** C1 (refinement): from a fresh [SegmentLog()], after any sequence of appends
    and of drops of sealed segments, one more [append] or [drop_sealed_before]
    never raises, keeps the segment chain well formed (contiguous offsets, only
    the last segment open, sealed segments non-empty, no segment above
    [ROLL_AT_BYTES] unless it holds one record) and is a step of the abstract
    log: an append answers with the next offset and extends the record list, a
    drop removes a prefix whose records all lie below the bound. *)
Theorem segment_log_refines ops op :
  ∃ l' v, log_exec op (log_run ops) = (l', Ok v) ∧ log_wf l' ∧
    alog_step op (alog_of (log_run ops)) (alog_of l') v.
Proof. apply log_exec_refines, log_run_wf. Qed.

(** Also (functional): on every reachable segment log, [SegmentLog.read] is the
    lookup of the abstract log: [Lagging] below the first retained offset,
    [Missing] at or past the end, the record at that offset otherwise; the
    "segment chain has a hole" branch ([Invalid]) is never taken. *)
Theorem segment_log_read ops offset :
  SegmentLog.read (log_run ops) offset = alog_read (alog_of (log_run ops)) offset ∧
  SegmentLog.read (log_run ops) offset ≠ Err Invalid.
Proof.
  rewrite read_alog by apply log_run_wf. split; [done|].
  unfold alog_read. bool_split; [done|]. by case_match.
Qed.

(** C2 (safety): whatever appends, watermark advances and retention drops are made, accepted or
    refused, the high watermark is never negative, never retreats and never passes the end of the
    log, and the first offset never goes back; and a record served by [Partition.consume] is below the
    watermark and never un-happens: later reads of its offset return the same record, or [Lagging]
    once retention has moved the first offset past it. *)
Theorem partition_consume_stable n ops1 ops2 :
  let p := run partition_exec ops1 (Partition.new n) in
  let p' := run partition_exec ops2 p in
  (0 <= Partition.high_watermark p ∧ Partition.high_watermark p <= Partition.high_watermark p' ∧
   Partition.high_watermark p' <= p_first p' + zlen (p_records p') ∧ p_first p <= p_first p') ∧
  ∀ offset r, Partition.consume p offset = Ok r →
    offset < Partition.high_watermark p ∧
    (Partition.consume p' offset = Ok r ∨
     Partition.consume p' offset = Err Lagging ∧ offset < p_first p').
Proof.
  intros p p'.
  destruct (partition_run_wf ops1 _ (partition_new_wf n)) as [Hwf _]. fold p in Hwf.
  destruct (partition_run_wf ops2 p Hwf) as [Hwf' Hle]. fold p' in Hwf', Hle.
  pose proof (partition_wf_mark _ Hwf). pose proof (partition_wf_mark _ Hwf').
  destruct Hle as [Hm Hf Hrec]. split; [lia|].
  intros offset r Hr. rewrite consume_wf in Hr |- * by done.
  repeat bool_split_in Hr; [done|]. bool_prop. split; [lia|]. bool_split; bool_prop; [lia|].
  unfold alog_read in *. simpl in *. bool_split_in Hr; [done|].
  fold (p_first p) (p_first p') (p_records p) (p_records p') in *.
  destruct (p_records p !! _) eqn:Hl; simplify_eq.
  bool_split; bool_prop; [by right|left].
  by rewrite (Hrec offset r ltac:(lia) Hl).
Qed.

(** A record with a one-byte value, for the examples. *)
Definition sample_record (b : byte) : Record.t :=
  Record.mk [b] None [] (Record.body_digest (Record.mk [b] None [] "")).

Lemma partition_consume_stable_witness :
  let p := run partition_exec [PAppend (sample_record x61); PAppend (sample_record x62);
                               PAdvance 1] (Partition.new 0) in
  let p' := run partition_exec [PAppend (sample_record x63); PAdvance 3; PRetain 2] p in
  Partition.consume p 0 = Ok (sample_record x61) ∧
  (Partition.high_watermark p <= Partition.high_watermark p' ∧
   Partition.high_watermark p' <= p_first p' + zlen (p_records p')) ∧
  (Partition.consume p' 0 = Ok (sample_record x61) ∨
   Partition.consume p' 0 = Err Lagging ∧ 0 < p_first p').
Proof.
  intros p p'. assert (Partition.consume p 0 = Ok (sample_record x61)) as Hr by (vm_compute; reflexivity).
  destruct (partition_consume_stable 0 [PAppend (sample_record x61); PAppend (sample_record x62); PAdvance 1]
              [PAppend (sample_record x63); PAdvance 3; PRetain 2]) as ((_ & Hm & Hend & _) & Hs).
  split; [exact Hr|]. split; [exact (conj Hm Hend)|exact (proj2 (Hs _ _ Hr))].
Defined.

(** Also (functional): [Record(...)] accepts exactly the values that are not empty
    and within [MAX_VALUE_BYTES] with no blank header name, keeps the fields it
    is given, and leaves a record that [verify] accepts; it raises only
    [Invalid]; and a record whose stored checksum is not the digest of its
    current body is refused by [verify]. *)
Theorem record_make_verify value key headers :
  (match Record.make value key headers with
   | Ok r =>
       value ≠ [] ∧ zlen value <= MAX_VALUE_BYTES ∧
       Forall (λ h, blank h.1 = false) headers ∧
       Record.value r = value ∧ Record.key r = key ∧ Record.headers r = headers ∧
       Record.verify r = Ok ()
   | Err e =>
       e = Invalid ∧
       (value = [] ∨ MAX_VALUE_BYTES < zlen value ∨ Exists (λ h, blank h.1 = true) headers)
   end) ∧
  ∀ checksum, checksum ≠ Record.body_digest (Record.mk value key headers checksum) →
    Record.verify (Record.mk value key headers checksum) = Err Invalid.
Proof.
  split.
  - unfold Record.make. repeat bool_split; bool_prop; [auto..| |].
    + split; [done|]. right. right. apply Exists_exists.
      apply existsb_exists in Heqb1 as (h & Hin & Hb).
      exists h. by rewrite list_elem_of_In.
    + split; [done|]. split; [done|]. split; [|repeat split].
      * apply Forall_forall. intros h Hh. destruct (blank h.1) eqn:E; [|done].
        enough (existsb (λ h, blank h.1) headers = true) by congruence.
        apply existsb_exists. exists h. by rewrite <-list_elem_of_In.
      * unfold Record.verify. by rewrite bool_decide_eq_true_2.
  - intros c Hc. unfold Record.verify. by rewrite bool_decide_eq_false_2.
Qed.

Lemma record_make_verify_witness :
  let r := Record.mk [x61; x62] None [] "0000000000000000" in
  Record.checksum r ≠ Record.body_digest r ∧ Record.verify r = Err Invalid.
Proof.
  assert ("0000000000000000" ≠ Record.body_digest (Record.mk [x61; x62] None [] "0000000000000000"))
    as Hne by (vm_compute; discriminate).
  split; [exact Hne|]. by apply (proj2 (record_make_verify [x61; x62] None [])).
Defined.

(** Also (functional): self-checking has a blind spot: the digest joins the fields with a
    separator that the fields may contain, so two different records, both
    accepted by [Record(...)], carry the same checksum: bytes moved between the
    value and the key pass [verify]. *)
Theorem record_checksum_collision :
  ∃ r1 r2, Record.make [x61; x7c; x62] None [] = Ok r1 ∧
    Record.make [x61] (Some [x62; x7c]) [] = Ok r2 ∧
    Record.value r1 ≠ Record.value r2 ∧ Record.key r1 ≠ Record.key r2 ∧
    Record.checksum r1 = Record.checksum r2 ∧
    Record.verify (Record.mk (Record.value r2) (Record.key r2) [] (Record.checksum r1)) = Ok ().
Proof.
  eexists _, _. split; [vm_compute; reflexivity|]. split; [vm_compute; reflexivity|].
  split; [vm_compute; discriminate|]. split; [vm_compute; discriminate|].
  split; vm_compute; reflexivity.
Qed.
