(* ===== verification/Groups.v ===== *)
(** * Topics and consumer groups

    [relay/topics.py] and [relay/consumergroup.py]: routing of records to
    partitions, and the committed offsets of the groups that read them.  A
    registry hands out the very objects it stores: a method called on
    [registry.get(name)] changes the registry's entry. *)

From Stdlib Require Import Strings.Byte Strings.Ascii.
From S2P Require Import Prelude PyBytes Log.
Import records segmentlog partition.

Module topics.
(** [relay/topics.py] _key_slot *)
Definition _key_slot (key : bytes) (partitions : Z) : result Z :=
  let digest := Sha256.hexdigest key in
  py_mod (int_of_hex 0 (String.substring 0 8 digest)) partitions.

Module Topic.
(** [relay/topics.py] class Topic *)
Record t := mk {
  name : string;
  partitions : list Partition.t;
  round_robin_next : Z;
}.

Definition set_round_robin_next (n : Z) (self : t) : t := mk (name self) (partitions self) n.
Definition set_partitions (ps : list Partition.t) (self : t) : t :=
  mk (name self) ps (round_robin_next self).

(** [relay/topics.py] Topic.route *)
Definition route (record : Record.t) : act t Z :=
  self ← get;
  match Record.key record with
  | Some key => pure_of (_key_slot key (zlen (partitions self)))
  | None =>
      let slot := round_robin_next self in
      next ← pure_of (py_mod (slot + 1) (zlen (partitions self)));
      put (set_round_robin_next next self);;
      mret slot
  end.

(** [relay/topics.py] Topic.append *)
Definition append (record : Record.t) : act t (Z * Z) :=
  slot ← route record;
  offset ← zoom partitions set_partitions (on_index slot (Partition.append record));
  mret (slot, offset).
End Topic.

Module TopicRegistry.
(** [relay/topics.py] class TopicRegistry *)
Record t := mk { topics : gmap string Topic.t }.

(** [relay/topics.py] TopicRegistry.create *)
Definition create (name : string) (partition_count : Z) : act t Topic.t :=
  self ← get;
  raise_if (blank name || has_char "/"%char name) Invalid;;
  raise_if (bool_decide (is_Some (topics self !! name))) Invalid;;
  raise_if (partition_count <? 1) Invalid;;
  let topic :=
    Topic.mk name (Partition.new <$> (Z.of_nat <$> seq 0 (Z.to_nat partition_count))) 0 in
  put (mk (<[name := topic]> (topics self)));;
  mret topic.

(** [relay/topics.py] TopicRegistry.get *)
Definition get (self : t) (name : string) : result Topic.t :=
  match topics self !! name with
  | None => Err Missing
  | Some topic => Ok topic
  end.

(** [relay/topics.py] TopicRegistry.resize *)
Definition resize (self : t) (name : string) (new_count : Z) : result string :=
  topic ← get self name;
  Err Invalid.

(** [relay/topics.py] TopicRegistry.audit_key *)
Definition audit_key (self : t) (name : string) (key : bytes) : result string :=
  topic ← get self name;
  slot ← _key_slot key (zlen (Topic.partitions topic));
  mret (repr_bytes key +:+ " lives in partition " +:+ zs slot +:+ " of " +:+ name
        +:+ ", and lived there last month too, because the count is immutable").

(** A method of [registry.get(name)]: it changes the entry of the registry. *)
Definition on_topic {A} (name : string) (m : act Topic.t A) : act t A := λ self,
  match topics self !! name with
  | None => (self, Err Missing)
  | Some topic => let '(topic', r) := m topic in (mk (<[name := topic']> (topics self)), r)
  end.
End TopicRegistry.
End topics.
Import topics.

Module consumergroup.
(** [relay/consumergroup.py] CONTRACTS *)
Definition CONTRACTS : list string := ["at-least-once"; "at-most-once"].

Module ConsumerGroup.
(** [relay/consumergroup.py] class ConsumerGroup *)
Record t := mk {
  name : string;
  contract : string;
  committed : gmap Z Z;
  skips_logged : list string;
}.

(** [relay/consumergroup.py] ConsumerGroup.__post_init__ *)
Definition make (name contract : string) : result t :=
  if bool_decide (contract ∉ CONTRACTS) then Err Invalid
  else Ok (mk name contract ∅ []).

Definition set_committed (c : gmap Z Z) (self : t) : t :=
  mk (name self) (contract self) c (skips_logged self).
Definition log_skip (line : string) (self : t) : t :=
  mk (name self) (contract self) (committed self) (skips_logged self ++ [line]).

(** [relay/consumergroup.py] ConsumerGroup.position *)
Definition position (self : t) (partition_number : Z) : Z :=
  default 0 (committed self !! partition_number).

(** [relay/consumergroup.py] ConsumerGroup.commit *)
Definition commit (partition : Partition.t) (offset : Z) : act t string :=
  self ← get;
  let number := Partition.number partition in
  let held := position self number in
  raise_if (offset <? held) Invalid;;
  raise_if (Partition.high_watermark partition <? offset) Invalid;;
  let jumped := offset - held in
  (if 1 <? jumped then
     let skipped := jumped - 1 in
     modify (log_skip ("partition " +:+ zs number +:+ ": skipped " +:+ zs skipped
                       +:+ " record(s) between " +:+ zs held +:+ " and " +:+ zs (offset - 1)))
   else mret ());;
  modify (λ self, set_committed (<[number := offset]> (committed self)) self);;
  let note := if 1 <? jumped
              then "; " +:+ zs (jumped - 1) +:+ " skip(s) logged, not disguised as progress"
              else "" in
  mret (name self +:+ " committed partition " +:+ zs number +:+ " to " +:+ zs offset +:+ note).

(** [relay/consumergroup.py] ConsumerGroup.lag *)
Definition lag (self : t) (partition : Partition.t) : result Z :=
  Partition.lag_of partition
    (Z.min (position self (Partition.number partition)) (Partition.high_watermark partition)).

(** [relay/consumergroup.py] ConsumerGroup.contract_line *)
Definition contract_line (self : t) : string :=
  if bool_decide (contract self = "at-least-once")
  then name self +:+ ": process then commit; a crash replays the record in hand"
  else name self +:+ ": commit then process; a crash loses the record in hand".
End ConsumerGroup.

Module GroupRegistry.
(** [relay/consumergroup.py] class GroupRegistry *)
Record t := mk { groups : gmap string ConsumerGroup.t }.

(** [relay/consumergroup.py] GroupRegistry.register *)
Definition register (name contract : string) : act t ConsumerGroup.t :=
  self ← get;
  raise_if (bool_decide (is_Some (groups self !! name))) Invalid;;
  group ← pure_of (ConsumerGroup.make name contract);
  put (mk (<[name := group]> (groups self)));;
  mret group.

(** [relay/consumergroup.py] GroupRegistry.get *)
Definition get (self : t) (name : string) : result ConsumerGroup.t :=
  match groups self !! name with
  | None => Err Missing
  | Some group => Ok group
  end.
End GroupRegistry.
End consumergroup.
Import consumergroup.

(** ** Facts about topics *)

Section topic_facts.
Implicit Types (t : Topic.t) (r : Record.t) (p : Partition.t).

(** Every partition's log is well formed and complete from offset 0. *)
Definition whole p : Prop := log_wf (Partition.log p) ∧ p_first p = 0.

Record topic_wf t : Prop := {
  topic_wf_next : 0 <= Topic.round_robin_next t < zlen (Topic.partitions t);
  topic_wf_whole : Forall whole (Topic.partitions t);
}.

(** Nothing a partition holds moves. *)
Definition topic_extends t t' : Prop :=
  zlen (Topic.partitions t') = zlen (Topic.partitions t) ∧
  ∀ (n : nat) p, Topic.partitions t !! n = Some p →
    ∃ p', Topic.partitions t' !! n = Some p' ∧ p_records p `prefix_of` p_records p'.

#[global] Instance topic_extends_refl : Reflexive topic_extends.
Proof. intros t. split; [done|]. eauto. Qed.
#[global] Instance topic_extends_trans : Transitive topic_extends.
Proof.
  intros t1 t2 t3 [Hl1 H1] [Hl2 H2]. split; [congruence|].
  intros n p Hp. destruct (H1 _ _ Hp) as (p2 & Hp2 & ?).
  destruct (H2 _ _ Hp2) as (p3 & ? & ?). exists p3. split; [done|]. by etrans.
Qed.

(** The record sits at that address. *)
Definition located t r (addr : Z * Z) : Prop :=
  0 <= addr.1 ∧ 0 <= addr.2 ∧
  ∃ p, Topic.partitions t !! Z.to_nat addr.1 = Some p ∧
       p_records p !! Z.to_nat addr.2 = Some r.

Lemma located_extends t t' r a : topic_extends t t' → located t r a → located t' r a.
Proof.
  intros [_ He] (Hs & Ho & p & Hp & Hr). split; [done|]. split; [done|].
  destruct (He _ _ Hp) as (p' & Hp' & Hpre). exists p'. split; [done|].
  by eapply prefix_lookup_Some.
Qed.

Lemma key_slot_range key n :
  0 < n → ∃ s, _key_slot key n = Ok s ∧ 0 <= s < n.
Proof.
  intros Hn. unfold _key_slot, py_mod. destruct (Z.eqb_spec n 0); [lia|].
  eexists. split; [done|]. by apply Z.mod_pos_bound.
Qed.

Lemma route_wf t r :
  topic_wf t →
  ∃ s t', Topic.route r t = (t', Ok s) ∧ 0 <= s < zlen (Topic.partitions t) ∧
    Topic.partitions t' = Topic.partitions t ∧ topic_wf t' ∧
    match Record.key r with
    | Some k => _key_slot k (zlen (Topic.partitions t)) = Ok s ∧ t' = t
    | None => s = Topic.round_robin_next t ∧
              Topic.round_robin_next t' = (s + 1) mod zlen (Topic.partitions t)
    end.
Proof.
  intros [Hn Hw]. unfold Topic.route. act_simpl. destruct (Record.key r) as [k|]; act_simpl.
  - destruct (key_slot_range k (zlen (Topic.partitions t))) as (s & Hs & Hr); [lia|].
    rewrite Hs. eexists _, _. split; [reflexivity|]. split; [done|]. split; [done|].
    split; [by split|done].
  - unfold py_mod at 1. destruct (Z.eqb_spec (zlen (Topic.partitions t)) 0); [lia|]. act_simpl.
    eexists _, _. split; [reflexivity|]. split; [done|]. simpl. split; [done|].
    split; [|done]. split; simpl; [|done]. apply Z.mod_pos_bound. lia.
Qed.

Lemma topic_append_wf t r :
  topic_wf t →
  ∃ t' s p p', Topic.append r t = (t', Ok (s, zlen (p_records p))) ∧
    0 <= s ∧ Topic.partitions t !! Z.to_nat s = Some p ∧
    Topic.partitions t' = <[Z.to_nat s := p']> (Topic.partitions t) ∧
    p_records p' = p_records p ++ [r] ∧ topic_wf t' ∧
    (∀ k, Record.key r = Some k → _key_slot k (zlen (Topic.partitions t)) = Ok s).
Proof.
  intros Hwf. destruct (route_wf t r Hwf) as (s & t1 & Hr & Hs & Hp & Hwf1 & Hk).
  unfold Topic.append. rewrite bind_run, Hr.
  destruct (lookup_lt_is_Some_2 (Topic.partitions t) (Z.to_nat s)) as [p Hps];
    [unfold zlen in *; lia|].
  rewrite bind_run. unfold zoom at 1. rewrite Hp, (on_index_Some s _ _ p) by (done || lia).
  pose proof (Forall_lookup_1 _ _ _ _ (topic_wf_whole _ Hwf) Hps) as [Hlw Hf0].
  unfold Partition.append, zoom.
  destruct (append_wf _ r Hlw) as (l' & -> & Hl' & Hst & Hct).
  fold (p_first p) in Hst |- *. fold (p_records p) in Hct |- *. rewrite Hf0 in *. act_simpl.
  eexists _, s, p, (Partition.set_log l' p). rewrite Z.add_0_l. split; [reflexivity|].
  simpl. split; [lia|]. split; [done|]. split; [done|]. split; [by rewrite <-Hct|].
  split.
  - destruct Hwf1 as [Hn1 Hw1]. split; simpl.
    + unfold zlen in *. by rewrite length_insert, <-Hp.
    + rewrite Hp in Hw1. apply Forall_insert; [done|]. split; [done|]. unfold p_first. simpl. lia.
  - intros k Hkey. rewrite Hkey in Hk. tauto.
Qed.

Lemma topic_append_extends t t' s p p' r :
  Topic.partitions t !! s = Some p →
  Topic.partitions t' = <[s := p']> (Topic.partitions t) →
  p_records p' = p_records p ++ [r] → topic_extends t t'.
Proof.
  intros Hp Ht' Hrec. split; [unfold zlen; by rewrite Ht', length_insert|].
  intros n q Hq. rewrite Ht'. destruct (decide (n = s)) as [->|Hne].
  - exists p'. rewrite list_lookup_insert_eq by (by eapply lookup_lt_Some). split; [done|].
    simplify_eq. rewrite Hrec. by apply prefix_app_r.
  - exists q. by rewrite list_lookup_insert_ne.
Qed.

(** A producer appending records one after the other. *)
Fixpoint produce (rs : list Record.t) : act Topic.t (list (Z * Z)) :=
  match rs with
  | [] => mret []
  | r :: rs' =>
      addr ← Topic.append r;
      addrs ← produce rs';
      mret (addr :: addrs)
  end.

Lemma produce_wf t rs :
  topic_wf t →
  ∃ t' addrs, produce rs t = (t', Ok addrs) ∧ topic_wf t' ∧ topic_extends t t' ∧
    Forall2 (located t') rs addrs ∧
    Forall2 (λ r addr, ∀ k, Record.key r = Some k →
      _key_slot k (zlen (Topic.partitions t)) = Ok addr.1) rs addrs ∧
    (∀ i a, addrs !! i = Some a →
       ∃ p, Topic.partitions t !! Z.to_nat a.1 = Some p ∧ zlen (p_records p) <= a.2) ∧
    (∀ (i j : nat) a b, (i < j)%nat → addrs !! i = Some a → addrs !! j = Some b →
       a.1 = b.1 → a.2 < b.2).
Proof.
  revert t. induction rs as [|r rs IH]; intros t Hwf.
  - exists t, []. split; [done|]. split; [done|]. split; [done|].
    split; [constructor|]. split; [constructor|]. done.
  - destruct (topic_append_wf t r Hwf) as (t1 & s & p & p' & Ha & Hs & Hp & Ht1 & Hrec & Hwf1 & Hk).
    destruct (IH t1 Hwf1) as (t2 & addrs & Hb & Hwf2 & Hext & Hloc & Hkeys & Hlow & Hord).
    pose proof (topic_append_extends _ _ _ _ _ _ Hp Ht1 Hrec) as Hext1.
    assert (Topic.partitions t1 !! Z.to_nat s = Some p') as Hp1.
    { rewrite Ht1. apply list_lookup_insert_eq. by eapply lookup_lt_Some. }
    exists t2, ((s, zlen (p_records p)) :: addrs).
    simpl. rewrite bind_run, Ha, bind_run, Hb. split; [done|]. split; [done|].
    split; [by etrans|]. split; [|split; [|split]].
    + constructor; [|done]. eapply located_extends; [done|]. split; [done|]. split; [apply zlen_nonneg|].
      exists p'. split; [done|]. rewrite Hrec. simpl. unfold zlen. rewrite Nat2Z.id.
      by rewrite list_lookup_middle.
    + constructor; [done|]. destruct Hext1 as [Hlen _]. by rewrite <-Hlen.
    + intros [|i] a Hi; simplify_eq/=; [by exists p|].
      destruct (Hlow i a Hi) as (q1 & Hq1 & Hle). destruct (lookup_lt_is_Some_2
        (Topic.partitions t) (Z.to_nat a.1)) as [q Hq].
      { apply lookup_lt_Some in Hq1. by rewrite Ht1, length_insert in Hq1. }
      exists q. split; [done|]. destruct Hext1 as [_ He].
      destruct (He _ _ Hq) as (q1' & ? & Hpre); simplify_eq.
      apply prefix_length in Hpre. unfold zlen in *. lia.
    + intros [|i] [|j] a b Hij Hi Hj Hab; simplify_eq/=; [lia| |lia|].
      * destruct (Hlow j b Hj) as (q & Hq & Hle). simplify_eq.
        rewrite Hrec, zlen_app in Hle. unfold zlen at 2 in Hle. simpl in Hle. lia.
      * eapply (Hord i j); eauto. lia.
Qed.

Lemma created_topic_wf name n :
  0 < n →
  topic_wf (Topic.mk name (Partition.new <$> (Z.of_nat <$> seq 0 (Z.to_nat n))) 0).
Proof.
  intros Hn. split; simpl.
  - unfold zlen. rewrite !length_fmap, length_seq. lia.
  - apply Forall_fmap, Forall_true. intros. split; [apply new_wf|done].
Qed.

Lemma located_read t r addr p :
  topic_wf t → located t r addr → Topic.partitions t !! Z.to_nat addr.1 = Some p →
  SegmentLog.read (Partition.log p) addr.2 = Ok r.
Proof.
  intros Hwf (_ & Ho & q & Hq & Hr) Hp. rewrite Hp in Hq. injection Hq as <-.
  pose proof (Forall_lookup_1 _ _ _ _ (topic_wf_whole _ Hwf) Hp) as [Hlw Hf0].
  rewrite read_alog by done. unfold alog_read, alog_of. simpl.
  fold (p_first p). rewrite Hf0, Z.sub_0_r. bool_split; bool_prop; [lia|].
  unfold p_records in Hr. by rewrite Hr.
Qed.
End topic_facts.

(** ** Runs of a registry and of a group *)

Inductive registry_op :=
  | RCreate (name : string) (count : Z)
  | RAppend (name : string) (record : Record.t)
  | RResize (name : string) (count : Z).

Definition registry_exec (op : registry_op) (reg : TopicRegistry.t) : TopicRegistry.t :=
  match op with
  | RCreate name n => state_of (TopicRegistry.create name n) reg
  | RAppend name r => state_of (TopicRegistry.on_topic name (Topic.append r)) reg
  | RResize name n =>
      state_of (self ← get; pure_of (TopicRegistry.resize self name n)) reg
  end.

(** Topics do not disappear and keep their partition count. *)
Definition counts_kept (reg reg' : TopicRegistry.t) : Prop :=
  ∀ name t, TopicRegistry.topics reg !! name = Some t →
    ∃ t', TopicRegistry.topics reg' !! name = Some t' ∧
      zlen (Topic.partitions t') = zlen (Topic.partitions t).

#[export] Instance counts_kept_refl : Reflexive counts_kept.
Proof. intros reg name t Ht. eauto. Qed.
#[export] Instance counts_kept_trans : Transitive counts_kept.
Proof.
  intros r1 r2 r3 H1 H2 name t Ht. destruct (H1 _ _ Ht) as (t2 & Ht2 & <-). by apply H2.
Qed.

Lemma topic_append_count r t :
  zlen (Topic.partitions (Topic.append r t).1) = zlen (Topic.partitions t).
Proof.
  unfold Topic.append, Topic.route. act_simpl.
  assert (∀ s t0, zlen (Topic.partitions
    (zoom Topic.partitions Topic.set_partitions (on_index s (Partition.append r)) t0).1)
    = zlen (Topic.partitions t0)) as Hz.
  { intros s t0. unfold zoom, on_index. destruct (py_pos _ _); [|done].
    destruct (_ !! _); [|done]. destruct (Partition.append _ _). simpl.
    unfold zlen. by rewrite length_insert. }
  destruct (Record.key r) as [k|]; act_simpl.
  - destruct (_key_slot _ _); [|done]. rewrite bind_run.
    specialize (Hz a t). by destruct (zoom _ _ _ _) as [? []].
  - destruct (py_mod _ _) as [x|]; [|done]. act_simpl. rewrite bind_run.
    specialize (Hz (Topic.round_robin_next t) (Topic.set_round_robin_next x t)).
    by destruct (zoom _ _ _ _) as [? []].
Qed.

Lemma registry_exec_counts op reg : counts_kept reg (registry_exec op reg).
Proof.
  destruct op as [name n|name r|name n]; unfold registry_exec, state_of.
  - unfold TopicRegistry.create. act_cases; try done.
    intros name' t Ht. simpl. exists t. split; [|done].
    rewrite lookup_insert_ne; [done|]. intros ->.
    match goal with H : ¬ is_Some _ |- _ => apply H; eauto end.
  - unfold TopicRegistry.on_topic. destruct (_ !! name) as [t|] eqn:Ht; [|done].
    pose proof (topic_append_count r t). destruct (Topic.append r t) as [t' res]. simpl in *.
    intros name' t0 Ht0. simpl. destruct (decide (name' = name)) as [->|Hne].
    + exists t'. rewrite lookup_insert_eq. split; [done|]. by simplify_eq.
    + exists t0. by rewrite lookup_insert_ne.
  - by act_simpl.
Qed.

Definition group_exec (op : Partition.t * Z) (g : ConsumerGroup.t) : ConsumerGroup.t :=
  state_of (ConsumerGroup.commit op.1 op.2) g.

(** The whole [commit], branch by branch. *)
Lemma commit_cases g p o :
  let held := ConsumerGroup.position g (Partition.number p) in
  match ConsumerGroup.commit p o g with
  | (g', Ok _) =>
      held <= o <= Partition.high_watermark p ∧
      ConsumerGroup.committed g' = <[Partition.number p := o]> (ConsumerGroup.committed g) ∧
      zlen (ConsumerGroup.skips_logged g') =
        zlen (ConsumerGroup.skips_logged g) + (if 1 <? o - held then 1 else 0)
  | (g', Err e) => e = Invalid ∧ g' = g ∧ (o < held ∨ Partition.high_watermark p < o)
  end.
Proof.
  unfold ConsumerGroup.commit. act_simpl.
  repeat (bool_split; act_simpl); bool_prop; auto; rewrite ?zlen_app; auto with lia.
Qed.

(** ** Properties *)

(** Also (functional): in a topic just made by [TopicRegistry.create], however
    many records are appended to it, every append succeeds, every record is
    read back from the partition and offset it was answered with, records with
    the same key all land in one partition, the one [_key_slot] computes, and
    their offsets there follow the order of the appends. *)
Theorem topic_per_key_order reg reg' name n topic rs :
  TopicRegistry.create name n reg = (reg', Ok topic) →
  ∃ t' addrs, produce rs topic = (t', Ok addrs) ∧
    Forall2 (λ r addr, ∃ p, Topic.partitions t' !! Z.to_nat addr.1 = Some p ∧
                            SegmentLog.read (Partition.log p) addr.2 = Ok r) rs addrs ∧
    (∀ (i j : nat) ri rj k, (i < j)%nat → rs !! i = Some ri → rs !! j = Some rj →
       Record.key ri = Some k → Record.key rj = Some k →
       ∃ s oi oj, _key_slot k n = Ok s ∧ addrs !! i = Some (s, oi) ∧
                  addrs !! j = Some (s, oj) ∧ oi < oj).
Proof.
  intros Hc. unfold TopicRegistry.create in Hc. act_simpl in Hc.
  repeat (bool_split_in Hc; [done|act_simpl in Hc]). bool_prop. simplify_eq.
  destruct (produce_wf _ rs (created_topic_wf name n ltac:(lia)))
    as (t' & addrs & Hp & Hwf & _ & Hloc & Hkey & _ & Hord).
  exists t', addrs. split; [done|]. split.
  - eapply Forall2_impl; [exact Hloc|]. intros r a Hl. pose proof Hl as (_ & _ & p & Hpa & _).
    exists p. split; [done|]. by eapply located_read.
  - intros i j ri rj k Hij Hi Hj Hki Hkj.
    destruct (Forall2_lookup_l _ _ _ _ _ Hkey Hi) as ([si oi] & Hai & Hsi).
    destruct (Forall2_lookup_l _ _ _ _ _ Hkey Hj) as ([sj oj] & Haj & Hsj).
    specialize (Hsi _ Hki). specialize (Hsj _ Hkj). simpl in *.
    assert (si = sj) as -> by congruence.
    assert (zlen (Partition.new <$> (Z.of_nat <$> seq 0 (Z.to_nat n))) = n) as Hlen.
    { unfold zlen. rewrite !length_fmap, length_seq. lia. }
    rewrite Hlen in Hsi. exists sj, oi, oj. split; [done|]. split; [done|]. split; [done|].
    by apply (Hord i j (sj, oi) (sj, oj)).
Qed.

Lemma topic_per_key_order_witness :
  let topic := Topic.mk "orders" (Partition.new <$> [0; 1; 2; 3]) 0 in
  let reg' := TopicRegistry.mk {["orders"%string := topic]} in
  let rs := [Record.mk [x61] (Some [x6b]) [] ""; sample_record x62;
             Record.mk [x63] (Some [x6b]) [] ""] in
  TopicRegistry.create "orders" 4 (TopicRegistry.mk ∅) = (reg', Ok topic) ∧
  ∃ t' addrs, produce rs topic = (t', Ok addrs) ∧ length addrs = 3%nat ∧
    ∃ s oi oj, addrs !! 0%nat = Some (s, oi) ∧ addrs !! 2%nat = Some (s, oj) ∧ oi < oj.
Proof.
  intros topic reg' rs.
  assert (TopicRegistry.create "orders" 4 (TopicRegistry.mk ∅) = (reg', Ok topic)) as Hc
    by reflexivity.
  split; [exact Hc|].
  destruct (topic_per_key_order _ _ _ _ _ rs Hc) as (t' & addrs & Hp & Hf & Hord).
  exists t', addrs. split; [exact Hp|]. split; [symmetry; by eapply Forall2_length in Hf|].
  destruct (Hord 0%nat 2%nat _ _ [x6b] ltac:(lia) eq_refl eq_refl eq_refl eq_refl)
    as (s & oi & oj & _ & H).
  by exists s, oi, oj.
Defined.

(** Also (invariant): the partition count of a topic is immutable: along any
    sequence of topic creations, appends and resize requests, a topic that the
    registry holds stays there with the same number of partitions, so
    [audit_key] keeps giving the same answer for every key; and [resize] never
    succeeds. *)
Theorem topic_count_immutable ops reg name t :
  TopicRegistry.topics reg !! name = Some t →
  let reg' := run registry_exec ops reg in
  (∃ t', TopicRegistry.topics reg' !! name = Some t' ∧
     zlen (Topic.partitions t') = zlen (Topic.partitions t)) ∧
  (∀ key, TopicRegistry.audit_key reg' name key = TopicRegistry.audit_key reg name key) ∧
  (∀ n, TopicRegistry.resize reg' name n = Err Invalid).
Proof.
  intros Ht reg'.
  assert (counts_kept reg reg') as Hk.
  { apply (run_monotone registry_exec (λ _, True) counts_kept); [|done].
    intros; split; [done|apply registry_exec_counts]. }
  destruct (Hk name t Ht) as (t' & Ht' & Hlen). split; [by exists t'|].
  unfold TopicRegistry.audit_key, TopicRegistry.resize, TopicRegistry.get.
  rewrite Ht, Ht'. simpl. rewrite Hlen. done.
Qed.

Lemma topic_count_immutable_witness :
  let reg := state_of (TopicRegistry.create "orders" 3) (TopicRegistry.mk ∅) in
  let ops := [RAppend "orders" (sample_record x61); RResize "orders" 8; RCreate "orders" 5] in
  is_Some (TopicRegistry.topics reg !! "orders"%string) ∧
  ∃ t', TopicRegistry.topics (run registry_exec ops reg) !! "orders"%string = Some t' ∧
    zlen (Topic.partitions t') = 3.
Proof.
  split; [by eexists; reflexivity|].
  refine (proj1 (topic_count_immutable
    [RAppend "orders" (sample_record x61); RResize "orders" 8; RCreate "orders" 5]
    (state_of (TopicRegistry.create "orders" 3) (TopicRegistry.mk ∅)) "orders"
    (Topic.mk "orders" (Partition.new <$> [0; 1; 2]) 0) _)).
  reflexivity.
Defined.

(** Also (functional): [ConsumerGroup.commit] succeeds exactly when the offset is
    neither behind the held position nor past the partition's watermark; then
    the position of that partition, and of no other, becomes the offset, the
    group's lag there is the distance to the watermark, and a skip line is
    logged exactly when more than one record was jumped; otherwise it raises
    [Invalid] and leaves the group as it was.  Along any sequence of commits no
    position goes back. *)
Theorem group_commit_spec g p offset :
  let held := ConsumerGroup.position g (Partition.number p) in
  match ConsumerGroup.commit p offset g with
  | (g', Ok _) =>
      held <= offset <= Partition.high_watermark p ∧
      (∀ m, ConsumerGroup.position g' m =
              if bool_decide (m = Partition.number p) then offset
              else ConsumerGroup.position g m) ∧
      ConsumerGroup.lag g' p = Ok (Partition.high_watermark p - offset) ∧
      zlen (ConsumerGroup.skips_logged g') =
        zlen (ConsumerGroup.skips_logged g) + (if 1 <? offset - held then 1 else 0)
  | (g', Err e) =>
      e = Invalid ∧ g' = g ∧ (offset < held ∨ Partition.high_watermark p < offset)
  end ∧
  ∀ commits m, ConsumerGroup.position g m <=
               ConsumerGroup.position (run group_exec commits g) m.
Proof.
  assert (∀ g p o m, match ConsumerGroup.commit p o g with
    | (g', Ok _) => ConsumerGroup.position g' m =
        if bool_decide (m = Partition.number p) then o else ConsumerGroup.position g m
    | _ => True end) as Hpos.
  { intros g0 p0 o m. pose proof (commit_cases g0 p0 o) as Hc. simpl in Hc.
    destruct (ConsumerGroup.commit p0 o g0) as [g' [v|e]]; [|done].
    destruct Hc as (_ & Hc & _). unfold ConsumerGroup.position. rewrite Hc.
    case_bool_decide; by simplify_map_eq. }
  split.
  - pose proof (commit_cases g p offset) as Hc. simpl in Hc.
    pose proof (λ m, Hpos g p offset m) as Hp.
    destruct (ConsumerGroup.commit p offset g) as [g' [v|e]]; [|done].
    destruct Hc as (Hle & _ & Hs). split; [done|]. split; [done|]. split; [|done].
    unfold ConsumerGroup.lag, Partition.lag_of. rewrite Hp, bool_decide_eq_true_2 by done.
    rewrite Z.min_l by lia. by rewrite (proj2 (Z.ltb_ge _ _)) by lia.
  - intros commits m. revert g. clear p offset.
    induction commits as [|[p o] commits IH]; intros g; simpl; [lia|].
    etrans; [|apply IH]. unfold group_exec, state_of. simpl.
    pose proof (commit_cases g p o) as Hc. simpl in Hc. specialize (Hpos g p o m).
    destruct (ConsumerGroup.commit p o g) as [g' [v|e]]; simpl; [|destruct Hc as (_ & -> & _); lia].
    rewrite Hpos. case_bool_decide; subst; lia.
Qed.
