(* ===== verification/Retention.v ===== *)
(** * Retention and compaction

    [relay/retention.py], [relay/compaction.py], [relay/deleterecords.py] and
    [relay/logstartoffset.py]: the ways a log forgets.  [RetentionRun.apply]
    mutates the segment log it is given, so its state is the pair of the two. *)

From S2P Require Import Prelude PyDict PyBytes PyFloat Log.
Import records segmentlog.

Module retention.
Module RetentionPolicy.
(** [relay/retention.py] class RetentionPolicy *)
Record t := mk {
  max_age_ticks : option Z;
  max_bytes : option Z;
}.

(** [relay/retention.py] RetentionPolicy.__post_init__ *)
Definition make (max_age_ticks max_bytes : option Z) : result t :=
  match max_age_ticks, max_bytes with
  | None, None => Err Invalid
  | _, _ =>
      if match max_age_ticks with Some n => n <? 1 | None => false end then Err Invalid
      else if match max_bytes with Some n => n <? 1 | None => false end then Err Invalid
      else Ok (mk max_age_ticks max_bytes)
  end.
End RetentionPolicy.

Module RetentionRun.
(** [relay/retention.py] class RetentionRun *)
Record t := mk {
  policy : RetentionPolicy.t;
  reclaimed_segments : Z;
  reclaimed_bytes : Z;
}.
Definition new (policy : RetentionPolicy.t) : t := mk policy 0 0.

(** [relay/retention.py] RetentionRun._age_condemns *)
Definition _age_condemns (self : t) (segment_last_tick now : Z) : bool :=
  match RetentionPolicy.max_age_ticks (policy self) with
  | None => false
  | Some limit => limit <? now - segment_last_tick
  end.

(** [relay/retention.py:86-89] RetentionRun.apply *)
Definition _size_condemns (self : t) (total_bytes : Z) : bool :=
  match RetentionPolicy.max_bytes (policy self) with
  | None => false
  | Some limit => limit <? total_bytes
  end.

Definition reclaim (bytes : Z) (self : t) : t :=
  mk (policy self) (reclaimed_segments self + 1) (reclaimed_bytes self + bytes).

(** [relay/retention.py:67-98] RetentionRun.apply *)
Fixpoint apply_loop (self : t) (segs : list Segment.t) (segment_last_tick : gmap Z Z)
    (now committed_floor : Z) : t * list Segment.t * option string :=
  match segs with
  | oldest :: ((_ :: _) as rest) =>
      if negb (Segment.sealed oldest)
      then (self, segs, Some "the oldest segment is still active")
      else if committed_floor <? Segment.next_offset oldest
      then (self, segs,
            Some ("kept: segment holds records above the committed floor "
                  +:+ zs committed_floor
                  +:+ ", and dropping unread data is loss with a schedule"))
      else
        let last_tick := default now (segment_last_tick !! Segment.base_offset oldest) in
        let total_bytes := zsum Segment.size_bytes segs in
        let age_out := _age_condemns self last_tick now in
        let size_out := _size_condemns self total_bytes in
        if negb age_out && negb size_out
        then (self, segs, Some "kept: within both the age window and the size cap")
        else apply_loop (reclaim (Segment.size_bytes oldest) self) rest
                        segment_last_tick now committed_floor
  | _ => (self, segs, None)
  end.

(** [relay/retention.py] RetentionRun.apply *)
Definition apply (segment_last_tick : gmap Z Z) (now committed_floor : Z) :
    act (t * SegmentLog.t) string :=
  '(self, log) ← get;
  let '(self, segs, spared_reason) :=
    apply_loop self (SegmentLog.segments log) segment_last_tick now committed_floor in
  put (self, SegmentLog.mk segs (SegmentLog.rolls log));;
  let head := "reclaimed " +:+ zs (reclaimed_segments self) +:+ " segment(s), "
              +:+ zs (reclaimed_bytes self) +:+ " byte(s)" in
  mret (match spared_reason with
        | Some reason => head +:+ "; stopped: " +:+ reason
        | None => head
        end).
End RetentionRun.
End retention.
Import retention.

Module compaction.
Module KeyedEntry.
(** [relay/compaction.py] class KeyedEntry *)
Record t := mk {
  offset : Z;
  key : bytes;
  value : option bytes;
}.
End KeyedEntry.

Module Compactor.
(** [relay/compaction.py] class Compactor *)
Record t := mk {
  tombstone_retention_ticks : Z;
  removed_superseded : Z;
  tombstones_reaped : Z;
  kept : list KeyedEntry.t;
}.
Definition new (ticks : Z) : t := mk ticks 0 0 [].

Definition count_superseded (self : t) : t :=
  mk (tombstone_retention_ticks self) (removed_superseded self + 1)
     (tombstones_reaped self) (kept self).
Definition count_reaped (self : t) : t :=
  mk (tombstone_retention_ticks self) (removed_superseded self)
     (tombstones_reaped self + 1) (kept self).
Definition set_kept (k : list KeyedEntry.t) (self : t) : t :=
  mk (tombstone_retention_ticks self) (removed_superseded self) (tombstones_reaped self) k.

(** [relay/compaction.py:50-52] Compactor.compact *)
Definition last_offset_for_key (entries : list KeyedEntry.t) : pydict bytes Z :=
  foldl (λ d e, d_set d (KeyedEntry.key e) (KeyedEntry.offset e)) [] entries.

(** [relay/compaction.py:54-72] Compactor.compact *)
Fixpoint compact_loop (last : pydict bytes Z) (now : Z) (tombstone_ticks : gmap Z Z)
    (min_consumer_offset : Z) (entries result : list KeyedEntry.t) :
    act t (list KeyedEntry.t) :=
  match entries with
  | [] => mret result
  | entry :: entries' =>
      let continue_with := compact_loop last now tombstone_ticks min_consumer_offset entries' in
      let is_latest :=
        bool_decide (d_get last (KeyedEntry.key entry) = Some (KeyedEntry.offset entry)) in
      if negb is_latest then modify count_superseded;; continue_with result
      else
        self ← get;
        match KeyedEntry.value entry with
        | None =>
            let born := default now (tombstone_ticks !! KeyedEntry.offset entry) in
            let observed_by_all := KeyedEntry.offset entry <? min_consumer_offset in
            let aged_out := tombstone_retention_ticks self <? now - born in
            if observed_by_all && aged_out then modify count_reaped;; continue_with result
            else continue_with (result ++ [entry])
        | Some _ => continue_with (result ++ [entry])
        end
  end.

(** [relay/compaction.py] Compactor.compact *)
Definition compact (entries : list KeyedEntry.t) (now : Z) (tombstone_ticks : gmap Z Z)
    (min_consumer_offset : Z) : act t (list KeyedEntry.t) :=
  raise_if (bool_decide (length entries = 0%nat)) Invalid;;
  result ← compact_loop (last_offset_for_key entries) now tombstone_ticks
             min_consumer_offset entries [];
  modify (set_kept result);;
  mret result.

(** [relay/compaction.py] Compactor.preserves_offsets *)
Definition preserves_offsets (kept : list KeyedEntry.t) : bool :=
  let offsets := KeyedEntry.offset <$> kept in
  bool_decide (offsets = py_sorted Z.le offsets)
  && (zlen (remove_dups offsets) =? zlen offsets).

(** [relay/compaction.py] Compactor.report *)
Definition report (self : t) (original_count : Z) : result string :=
  ratio ← match kept self with [] => Ok f_inf | _ => z_truediv original_count (zlen (kept self)) end;
  Ok (zs original_count +:+ " records compact to " +:+ zs (zlen (kept self)) +:+ " (" +:+ fmt_fixed 1 ratio +:+ "x), "
      +:+ zs (removed_superseded self) +:+ " superseded removed, " +:+ zs (tombstones_reaped self)
      +:+ " tombstone(s) reaped after every consumer observed the delete").
End Compactor.
End compaction.
Import compaction.

Module deleterecords.
Module LogHead.
(** [relay/deleterecords.py] class LogHead *)
Record t := mk {
  log_start : Z;
  high_watermark : Z;
}.

(** [relay/deleterecords.py] LogHead.__post_init__ *)
Definition make (log_start high_watermark : Z) : result t :=
  if high_watermark <? log_start then Err Invalid else Ok (mk log_start high_watermark).

(** [relay/deleterecords.py] LogHead.delete_before *)
Definition delete_before (target : Z) (committed_offsets : option (pydict string Z)) :
    act t string :=
  self ← get;
  raise_if (high_watermark self <? target) Invalid;;
  if target <=? log_start self then
    mret ("no-op: " +:+ zs target +:+ " is already at or below the log start "
          +:+ zs (log_start self) +:+ "; a retry after a timeout succeeds, not errors")
  else
    let removed := target - log_start self in
    let old_start := log_start self in
    put (mk target (high_watermark self));;
    let unread := py_sorted String.le
      (fst <$> filter (λ p, p.2 < target) (default [] committed_offsets)) in
    let warning :=
      if bool_decide (unread = []) then ""
      else "; WARNING: " +:+ repr_list repr_str unread +:+ " have not read past " +:+ zs target
           +:+ ", deleting data they never consumed, made deliberate not accidental" in
    mret ("deleted " +:+ zs removed +:+ " record(s) from " +:+ zs old_start +:+ " to "
          +:+ zs target +:+ warning).
End LogHead.
End deleterecords.
Import deleterecords.

Module logstartoffset.
Module LogStartOffset.
(** [relay/logstartoffset.py] class LogStartOffset *)
Record t := mk {
  log_start : Z;
  high_watermark : Z;
  log_end : Z;
}.

(** [relay/logstartoffset.py] LogStartOffset.__post_init__ *)
Definition make (log_start high_watermark log_end : Z) : result t :=
  if negb ((0 <=? log_start) && (log_start <=? high_watermark) && (high_watermark <=? log_end))
  then Err Invalid
  else Ok (mk log_start high_watermark log_end).

(** [relay/logstartoffset.py] LogStartOffset.advance_start *)
Definition advance_start (new_start : Z) : act t Z :=
  self ← get;
  raise_if (new_start <? log_start self) Invalid;;
  raise_if (high_watermark self <? new_start) Invalid;;
  let deleted := new_start - log_start self in
  put (mk new_start (high_watermark self) (log_end self));;
  mret deleted.

(** [relay/logstartoffset.py] LogStartOffset.is_fetchable *)
Definition is_fetchable (self : t) (offset : Z) : bool :=
  (log_start self <=? offset) && (offset <=? log_end self).

(** [relay/logstartoffset.py] LogStartOffset.check_fetch *)
Definition check_fetch (self : t) (offset : Z) : result string :=
  if offset <? log_start self then Err Invalid
  else if log_end self <? offset then Err Invalid
  else Ok ("offset " +:+ zs offset +:+ " is fetchable").

(** [relay/logstartoffset.py] LogStartOffset.deleted_below_start *)
Definition deleted_below_start (self : t) : Z := log_start self.

(** [relay/logstartoffset.py] LogStartOffset.note *)
Definition note (self : t) : string :=
  "log start " +:+ zs (log_start self) +:+ ", high watermark " +:+ zs (high_watermark self)
  +:+ ", end " +:+ zs (log_end self) +:+ "; " +:+ zs (deleted_below_start self)
  +:+ " record(s) aged out below the start, data a consumer can never get back".
End LogStartOffset.
End logstartoffset.
Import logstartoffset.

(** ** Facts about retention *)

Section retention_facts.
Context (ticks : gmap Z Z) (now floor : Z).
Implicit Types (run : RetentionRun.t) (s : Segment.t) (segs : list Segment.t).

(** The condition under which [apply] drops the oldest of [segs], [s]. *)
Definition droppable run s segs : Prop :=
  Segment.sealed s = true ∧ Segment.next_offset s <= floor ∧
  (RetentionRun._age_condemns run (default now (ticks !! Segment.base_offset s)) now = true ∨
   RetentionRun._size_condemns run (zsum Segment.size_bytes segs) = true).

Lemma droppable_reclaim run n s segs :
  droppable (RetentionRun.reclaim n run) s segs ↔ droppable run s segs.
Proof. done. Qed.

Lemma apply_loop_cons run s rest :
  rest ≠ [] →
  ∃ reason, RetentionRun.apply_loop run (s :: rest) ticks now floor =
    if negb (Segment.sealed s) || (floor <? Segment.next_offset s)
       || (negb (RetentionRun._age_condemns run (default now (ticks !! Segment.base_offset s)) now)
           && negb (RetentionRun._size_condemns run (zsum Segment.size_bytes (s :: rest))))
    then (run, s :: rest, Some reason)
    else RetentionRun.apply_loop (RetentionRun.reclaim (Segment.size_bytes s) run) rest
           ticks now floor.
Proof.
  destruct rest as [|s' rest]; [done|intros _].
  destruct (Segment.sealed s) eqn:E1; [|eexists; simpl; rewrite E1; reflexivity].
  destruct (floor <? Segment.next_offset s) eqn:E2;
    [eexists; simpl; rewrite E1, E2; reflexivity|].
  eexists. simpl. rewrite E1, E2. simpl. bool_split; reflexivity.
Qed.

Lemma apply_loop_spec run segs :
  segs ≠ [] →
  ∃ gone kept run' reason,
    RetentionRun.apply_loop run segs ticks now floor = (run', kept, reason) ∧
    segs = gone ++ kept ∧ kept ≠ [] ∧
    RetentionRun.reclaimed_segments run' = RetentionRun.reclaimed_segments run + zlen gone ∧
    RetentionRun.reclaimed_bytes run' =
      RetentionRun.reclaimed_bytes run + zsum Segment.size_bytes gone ∧
    (∀ g1 s g2, gone = g1 ++ s :: g2 → droppable run s (s :: g2 ++ kept)) ∧
    (∀ s rest, kept = s :: rest → rest ≠ [] → ¬ droppable run s kept).
Proof.
  assert (∀ segs run reason, segs ≠ [] →
    (∀ s rest, segs = s :: rest → rest ≠ [] → ¬ droppable run s segs) →
    ∃ gone kept run' reason', (run, segs, reason) = (run', kept, reason' : option string) ∧
    segs = gone ++ kept ∧ kept ≠ [] ∧
    RetentionRun.reclaimed_segments run' = RetentionRun.reclaimed_segments run + zlen gone ∧
    RetentionRun.reclaimed_bytes run' =
      RetentionRun.reclaimed_bytes run + zsum Segment.size_bytes gone ∧
    (∀ g1 s g2, gone = g1 ++ s :: g2 → droppable run s (s :: g2 ++ kept)) ∧
    (∀ s rest, kept = s :: rest → rest ≠ [] → ¬ droppable run s kept)) as Hstop.
  { intros segs0 run0 reason Hne Hnd. exists [], segs0, run0, reason.
    rewrite zlen_nil. simpl. rewrite !Z.add_0_r. split_and!; try done.
    by intros [|??] ???. }
  revert run. induction segs as [|s segs IH]; intros run Hne; [done|].
  destruct (decide (segs = [])) as [->|Hrest].
  { apply Hstop; [done|]. by intros ? ? [= -> <-]. }
  destruct (apply_loop_cons run s segs Hrest) as [reason ->]. bool_split.
  - apply Hstop; [done|]. intros ?? [= <- <-] _ (Hs & Hf & E). rewrite Hs in *.
    bool_prop. destruct Heqb as [Hb|Hb]; bool_prop.
    + destruct Hb as [Hb|Hb]; bool_prop; [done|lia].
    + destruct E; congruence.
  - bool_prop. destruct (IH (RetentionRun.reclaim (Segment.size_bytes s) run) Hrest)
      as (gone & kept & run' & reason' & -> & -> & Hk & Hn & Hb & Hg & Hst).
    exists (s :: gone), kept, run', reason'. simpl in Hn, Hb. rewrite Hn, Hb, zlen_cons.
    simpl. split_and!; try done; [lia..|].
    intros [|s1 g1] s2 g2 Heq; simplify_eq/=; [|by eapply Hg].
    split; [done|]. split; [lia|].
    match goal with H : _ ∨ _ |- _ => destruct H; bool_prop; [by left|by right] end.
Qed.
End retention_facts.

(** ** Facts about compaction *)

Section compaction_facts.
Context (ticks : gmap Z Z) (now min_offset : Z).
Implicit Types (e : KeyedEntry.t) (l entries : list KeyedEntry.t) (k : bytes)
  (c : Compactor.t).

(** The last entry for a key, and the value a reader of the log ends with:
    [None] for a key that was deleted or never written. *)
Definition last_with k l : option KeyedEntry.t := last (filter (λ e, KeyedEntry.key e = k) l).
Definition view l k : option bytes := last_with k l ≫= KeyedEntry.value.

(** A tombstone old enough that every consumer has seen it. *)
Definition reapable retention e : bool :=
  match KeyedEntry.value e with
  | None => (KeyedEntry.offset e <? min_offset)
            && (retention <? now - default now (ticks !! KeyedEntry.offset e))
  | Some _ => false
  end.

Definition latest last e : bool :=
  bool_decide (d_get last (KeyedEntry.key e) = Some (KeyedEntry.offset e)).
Definition keeps last retention e : bool := latest last e && negb (reapable retention e).

Definition count_with (f : KeyedEntry.t → bool) l : Z := zsum (λ e, if f e then 1 else 0) l.

Lemma compact_loop_eq last entries result c :
  ∃ c', Compactor.compact_loop last now ticks min_offset entries result c =
    (c', Ok (result ++ filter (λ e, keeps last (Compactor.tombstone_retention_ticks c) e = true) entries)) ∧
    Compactor.tombstone_retention_ticks c' = Compactor.tombstone_retention_ticks c ∧
    Compactor.removed_superseded c' =
      Compactor.removed_superseded c + count_with (λ e, negb (latest last e)) entries ∧
    Compactor.tombstones_reaped c' = Compactor.tombstones_reaped c
      + count_with (λ e, latest last e
                         && reapable (Compactor.tombstone_retention_ticks c) e) entries.
Proof.
  revert result c. induction entries as [|e entries IH]; intros result c.
  - eexists. simpl. rewrite app_nil_r. split; [reflexivity|]. unfold count_with. simpl.
    split_and!; lia.
  - cbn [Compactor.compact_loop]. unfold count_with. simpl. rewrite filter_cons_bool.
    fold (latest last e). unfold keeps at 1. destruct (latest last e) eqn:Hl; simpl negb; cbn iota.
    + act_simpl. unfold reapable at 1 2.
      destruct (KeyedEntry.value e) as [v|] eqn:Hv; act_simpl.
      * destruct (IH (result ++ [e]) c) as (c' & -> & ? & ? & ?). exists c'.
        rewrite <-app_assoc. by split_and!.
      * bool_split; act_simpl; simpl.
        -- destruct (IH result (Compactor.count_reaped c)) as (c' & -> & Ht & Hs & Hr).
           exists c'. simpl in *. unfold count_with in *. split_and!; try done; lia.
        -- destruct (IH (result ++ [e]) c) as (c' & -> & ? & ? & ?). exists c'.
           rewrite <-app_assoc. by split_and!.
    + act_simpl.
      destruct (IH result (Compactor.count_superseded c)) as (c' & -> & Ht & Hs & Hr).
      exists c'. simpl in *. unfold count_with in *. split_and!; try done; lia.
Qed.

Lemma last_offset_spec entries k :
  d_get (Compactor.last_offset_for_key entries) k =
    KeyedEntry.offset <$> last_with k entries.
Proof.
  unfold Compactor.last_offset_for_key, last_with.
  induction entries as [|e entries IH] using rev_ind; [done|].
  rewrite foldl_snoc, d_get_set, filter_app, filter_cons, filter_nil.
  case_bool_decide as Hk.
  - subst k. rewrite decide_True by done. by rewrite last_snoc.
  - rewrite decide_False by done. by rewrite app_nil_r.
Qed.

Section distinct.
Context entries (Hnd : NoDup (KeyedEntry.offset <$> entries)).
Let last_offsets := Compactor.last_offset_for_key entries.

Lemma offset_inj e1 e2 :
  e1 ∈ entries → e2 ∈ entries → KeyedEntry.offset e1 = KeyedEntry.offset e2 → e1 = e2.
Proof.
  intros [i Hi]%list_elem_of_lookup [j Hj]%list_elem_of_lookup Ho.
  enough (i = j) as -> by congruence.
  eapply NoDup_lookup; [exact Hnd| |].
  - by rewrite list_lookup_fmap, Hi.
  - by rewrite list_lookup_fmap, Hj, Ho.
Qed.

Lemma last_with_elem_of k e :
  last_with k entries = Some e → e ∈ entries ∧ KeyedEntry.key e = k.
Proof.
  unfold last_with. intros [l' Hl']%last_Some.
  assert (e ∈ filter (λ e, KeyedEntry.key e = k) entries) as He
    by (rewrite Hl'; apply elem_of_app; right; left).
  by apply list_elem_of_filter in He as [? ?].
Qed.

Lemma latest_spec e :
  e ∈ entries → latest last_offsets e = true ↔ last_with (KeyedEntry.key e) entries = Some e.
Proof.
  intros He. unfold latest. rewrite bool_decide_eq_true.
  unfold last_offsets. rewrite last_offset_spec. split; [|by intros ->].
  intros (e' & Hl & Heq)%fmap_Some. rewrite Hl. f_equal.
  apply last_with_elem_of in Hl as [? _]. by apply offset_inj.
Qed.

(** Compaction leaves at most one entry for a key: the latest. *)
Lemma filter_key_kept retention k :
  filter (λ e, KeyedEntry.key e = k) (filter (λ e, keeps last_offsets retention e = true) entries) =
    match last_with k entries with
    | Some e => if reapable retention e then [] else [e]
    | None => []
    end.
Proof.
  assert (NoDup (filter (λ e, KeyedEntry.key e = k)
    (filter (λ e, keeps last_offsets retention e = true) entries))) as Hn.
  { do 2 apply NoDup_filter. by eapply NoDup_fmap_1. }
  assert (∀ x, x ∈ filter (λ e, KeyedEntry.key e = k)
      (filter (λ e, keeps last_offsets retention e = true) entries) ↔
    last_with k entries = Some x ∧ reapable retention x = false) as Hx.
  { intros x. rewrite !list_elem_of_filter. unfold keeps. rewrite andb_true_iff.
    split.
    - intros (<- & (Hl & Hr) & Hin). apply latest_spec in Hl; [|done].
      by apply negb_true_iff in Hr.
    - intros [Hl Hr]. destruct (last_with_elem_of _ _ Hl) as [Hin Hk]. split; [done|].
      split; [|done]. rewrite latest_spec, Hk by done. by rewrite Hr. }
  destruct (filter _ (filter _ _)) as [|x [|y l]] eqn:Hf.
  - destruct (last_with k entries) as [e|] eqn:Hl; [|done].
    destruct (reapable retention e) eqn:Hr; [done|].
    exfalso. apply (not_elem_of_nil e). by apply Hx.
  - destruct (proj1 (Hx x) ltac:(left)) as [-> ->]. done.
  - destruct (proj1 (Hx x) ltac:(left)) as [H1 _].
    destruct (proj1 (Hx y) ltac:(right; left)) as [H2 _].
    apply NoDup_cons in Hn as [Hn _]. rewrite H1 in H2. simplify_eq. destruct Hn. left.
Qed.

Lemma view_kept retention k :
  view (filter (λ e, keeps last_offsets retention e = true) entries) k = view entries k.
Proof.
  unfold view at 1, last_with. rewrite filter_key_kept. unfold view.
  destruct (last_with k entries) as [e|]; [|done]. unfold reapable.
  destruct (KeyedEntry.value e) as [v|] eqn:Hv; simpl; [by rewrite Hv|].
  bool_split; simpl; by rewrite ?Hv.
Qed.

Lemma keys_kept_NoDup retention :
  NoDup (KeyedEntry.key <$> filter (λ e, keeps last_offsets retention e = true) entries).
Proof.
  apply NoDup_alt. intros i j k. rewrite !list_lookup_fmap.
  intros (e1 & H1 & ->)%fmap_Some_1 (e2 & H2 & Hk)%fmap_Some_1.
  eapply (NoDup_lookup (filter _ entries)); [|exact H1|].
  { apply NoDup_filter. by eapply NoDup_fmap_1. }
  rewrite H2. f_equal.
  apply list_elem_of_lookup_2, list_elem_of_filter in H1 as [Hp1 Hi1].
  apply list_elem_of_lookup_2, list_elem_of_filter in H2 as [Hp2 Hi2].
  unfold keeps in *. rewrite andb_true_iff in Hp1, Hp2.
  destruct Hp1 as [Hl1 _], Hp2 as [Hl2 _].
  apply latest_spec in Hl1, Hl2; [|done..]. rewrite Hk in Hl1. congruence.
Qed.
End distinct.

Lemma Sorted_lt_filter (P : KeyedEntry.t → Prop) `{!∀ e, Decision (P e)} l :
  StronglySorted Z.lt (KeyedEntry.offset <$> l) →
  StronglySorted Z.lt (KeyedEntry.offset <$> filter P l).
Proof.
  induction l as [|e l IH]; simpl; [done|]. intros [Hs Hall]%StronglySorted_inv.
  rewrite filter_cons. case_decide; simpl; [|auto]. constructor; [auto|].
  rewrite Forall_fmap, Forall_forall in *. intros x [_ Hx]%list_elem_of_filter. by apply Hall.
Qed.

Lemma StronglySorted_lt_NoDup (l : list Z) : StronglySorted Z.lt l → NoDup l.
Proof.
  induction 1 as [|x l Hs IH Hall]; constructor; [|done].
  intros Hx. eapply Forall_forall in Hall; [|exact Hx]. lia.
Qed.

Lemma preserves_offsets_sorted l :
  StronglySorted Z.lt (KeyedEntry.offset <$> l) → Compactor.preserves_offsets l = true.
Proof.
  intros Hs. unfold Compactor.preserves_offsets. apply andb_true_iff. split.
  - apply bool_decide_eq_true_2. symmetry. apply py_sorted_id.
    apply StronglySorted_Sorted. clear -Hs.
    induction Hs; constructor; [done|]. eapply Forall_impl; [done|]. simpl. lia.
  - apply Z.eqb_eq. f_equal. apply StronglySorted_lt_NoDup in Hs. clear -Hs.
    induction Hs as [|x l' Hx Hn IH]; [done|]. simpl.
    destruct (decide_rel _ _ _) as [Hin|]; [|by rewrite IH].
    done.
Qed.

Lemma count_with_split last retention l :
  zlen l = zlen (filter (λ e, keeps last retention e = true) l)
    + count_with (λ e, negb (latest last e)) l
    + count_with (λ e, latest last e && reapable retention e) l.
Proof.
  unfold count_with. induction l as [|e l IH]; [done|].
  rewrite zlen_cons, filter_cons_bool. simpl. unfold keeps at 1.
  destruct (latest last e), (reapable retention e); simpl; rewrite ?zlen_cons; lia.
Qed.
End compaction_facts.

(** ** Properties *)

(** Also (safety): one [RetentionRun.apply] on any reachable segment log succeeds
    and pops a prefix of the segments, leaving at least one and a well-formed
    log; every segment it pops was sealed, held only records below the committed
    floor and was condemned, when it was the oldest, by the age window or by the
    size cap; the first segment it leaves was not (unless it is the last one);
    the counters grow by the popped segments and their bytes; and every read at
    or above the floor answers as before. *)
Theorem retention_apply_safe run ops ticks now floor :
  let l := log_run ops in
  ∃ gone kept run' msg,
    let l' := SegmentLog.mk kept (SegmentLog.rolls l) in
    RetentionRun.apply ticks now floor (run, l) = ((run', l'), Ok msg) ∧
    SegmentLog.segments l = gone ++ kept ∧ log_wf l' ∧
    (∀ g1 s g2, gone = g1 ++ s :: g2 → droppable ticks now floor run s (s :: g2 ++ kept)) ∧
    (∀ s rest, kept = s :: rest → rest ≠ [] → ¬ droppable ticks now floor run s kept) ∧
    RetentionRun.reclaimed_segments run' = RetentionRun.reclaimed_segments run + zlen gone ∧
    RetentionRun.reclaimed_bytes run' =
      RetentionRun.reclaimed_bytes run + zsum Segment.size_bytes gone ∧
    (∀ o, floor <= o → SegmentLog.read l' o = SegmentLog.read l o).
Proof.
  intros l. pose proof (log_run_wf ops) as Hwf. fold l in Hwf.
  pose proof Hwf as [(pre & active & Hl & _ & _) Hc _].
  destruct (apply_loop_spec ticks now floor run (SegmentLog.segments l))
    as (gone & kept & run' & reason & Ha & Hgk & Hk & Hn & Hb & Hg & Hst);
    [rewrite Hl; by destruct pre|].
  destruct (exists_last Hk) as (kept0 & act' & ->).
  rewrite app_assoc in Hgk.
  destruct (drop_segments_wf l gone kept0 act' Hwf Hgk) as (Hwf' & Hst' & Hct').
  eexists gone, (kept0 ++ [act']), run', _. cbn zeta. split.
  { unfold RetentionRun.apply. act_simpl. rewrite Ha. act_simpl. reflexivity. }
  split; [by rewrite app_assoc|]. split; [done|]. split; [done|]. split; [done|].
  split; [done|]. split; [done|].
  intros o Ho. rewrite !read_wf by done. simpl. rewrite Hst', Hct'.
  destruct (decide (gone = [])) as [->|Hne].
  { simpl. change (zlen (contents [])) with 0. by rewrite Z.add_0_r, drop_0. }
  assert (start (SegmentLog.segments l) + zlen (contents gone) <= floor) as Hf.
  { destruct (exists_last Hne) as (gone' & s & ->).
    destruct (Hg gone' s [] eq_refl) as (_ & Hnext & _).
    rewrite Hgk in Hc. rewrite <-!app_assoc, app_assoc in Hc.
    apply chain_app in Hc as [Hc _]. apply next_offset_last in Hc.
    rewrite <-!app_assoc, app_assoc in Hgk. rewrite Hgk. lia. }
  pose proof (zlen_nonneg (contents gone)).
  assert (length (contents gone) <= length (contents (SegmentLog.segments l)))%nat.
  { rewrite Hgk. unfold contents. rewrite !bind_app, !length_app. lia. }
  assert (∀ r : list Record.t, zlen (drop (length (contents gone)) r) =
    Z.max 0 (zlen r - zlen (contents gone))) as Hd.
  { intros r. unfold zlen. rewrite length_drop. lia. }
  rewrite Hd. unfold zlen in *. rewrite !(proj2 (Z.ltb_ge _ _)) by lia.
  rewrite lookup_drop.
  replace (length (contents gone) + _)%nat
    with (Z.to_nat (o - start (SegmentLog.segments l))) by lia.
  repeat bool_split; bool_prop; try done; lia.
Qed.

(** C36 (functional): on entries in offset order, [Compactor.compact] succeeds,
    keeps a subsequence with at most one entry per key, in offset order
    ([preserves_offsets] holds), preserves the key-value view (for each key the
    latest value, or its absence), removes the latest entry of a key only if it
    is a tombstone below every consumer's offset and older than the retention,
    and its two counters grow by exactly the entries removed. *)
Theorem compact_preserves_view c entries now ticks min_offset :
  StronglySorted Z.lt (KeyedEntry.offset <$> entries) → entries ≠ [] →
  ∃ c' result, Compactor.compact entries now ticks min_offset c = (c', Ok result) ∧
    Compactor.kept c' = result ∧ result `sublist_of` entries ∧
    Compactor.preserves_offsets result = true ∧
    NoDup (KeyedEntry.key <$> result) ∧
    (∀ k, view result k = view entries k) ∧
    (∀ e, last_with (KeyedEntry.key e) entries = Some e → e ∉ result →
       KeyedEntry.value e = None ∧ KeyedEntry.offset e < min_offset ∧
       Compactor.tombstone_retention_ticks c
         < now - default now (ticks !! KeyedEntry.offset e)) ∧
    zlen entries = zlen result
      + (Compactor.removed_superseded c' - Compactor.removed_superseded c)
      + (Compactor.tombstones_reaped c' - Compactor.tombstones_reaped c).
Proof.
  intros Hs Hne. pose proof (StronglySorted_lt_NoDup _ Hs) as Hnd.
  unfold Compactor.compact. act_simpl. rewrite bool_decide_eq_false_2 by (by destruct entries).
  destruct (compact_loop_eq ticks now min_offset (Compactor.last_offset_for_key entries)
    entries [] c) as (c1 & Hl & Ht & Hsup & Hreap).
  rewrite bind_run, Hl. act_simpl.
  set (result := filter _ entries) in *. exists (Compactor.set_kept result c1), result. simpl.
  split; [done|]. split; [done|]. split; [apply sublist_filter|].
  split; [apply preserves_offsets_sorted; by apply Sorted_lt_filter|].
  split; [by apply keys_kept_NoDup|]. split; [intros k; by apply view_kept|]. split.
  - intros e He Hin. destruct (last_with_elem_of _ _ _ He) as [Hee _].
    assert (reapable ticks now min_offset (Compactor.tombstone_retention_ticks c) e = true) as Hr.
    { apply not_false_iff_true. intros Hr. apply Hin. apply list_elem_of_filter. split; [|done].
      unfold keeps. rewrite (proj2 (latest_spec _ Hnd e Hee)) by done. by rewrite Hr. }
    unfold reapable in Hr. destruct (KeyedEntry.value e); [done|]. by bool_prop.
  - rewrite Hsup, Hreap, (count_with_split ticks now min_offset
      (Compactor.last_offset_for_key entries) (Compactor.tombstone_retention_ticks c)).
    fold result. lia.
Qed.

Lemma compact_preserves_view_witness :
  let entry o k v := KeyedEntry.mk o [k] v in
  let entries := [entry 0 Byte.x61 (Some [Byte.x01]); entry 1 Byte.x62 (Some [Byte.x02]);
                  entry 2 Byte.x61 None; entry 3 Byte.x62 (Some [Byte.x03])] in
  StronglySorted Z.lt (KeyedEntry.offset <$> entries) ∧ entries ≠ [] ∧
  ∃ c' result,
    Compactor.compact entries 100 {[2 := 10]} 3 (Compactor.new 50) = (c', Ok result) ∧
    result = [entry 3 Byte.x62 (Some [Byte.x03])] ∧
    ∀ k, view result k = view entries k.
Proof.
  intros entry entries.
  assert (StronglySorted Z.lt (KeyedEntry.offset <$> entries)) as Hs
    by (repeat constructor).
  assert (entries ≠ []) as Hne by done.
  split; [exact Hs|]. split; [exact Hne|].
  destruct (compact_preserves_view (Compactor.new 50) entries 100 {[2 := 10]} 3 Hs Hne)
    as (c' & result & Hc & _ & _ & _ & _ & Hv & _).
  exists c', result. split; [exact Hc|]. split; [|exact Hv].
  vm_compute in Hc. by injection Hc.
Defined.

(** Also (functional): deleting records moves only the log start.
    [LogHead.delete_before] refuses a target past the watermark and leaves the
    state unchanged; below or at the log start it is a no-op that succeeds;
    otherwise the start becomes the target, so that a retry succeeds and changes
    nothing; the start never retreats and never passes the watermark.
    [LogStartOffset.advance_start] refuses to move back or past the watermark,
    answers with the number of records deleted, and the offsets that become
    unfetchable are exactly those between the old start and the new one. *)
Theorem log_start_advances head offsets target groups :
  LogHead.log_start head <= LogHead.high_watermark head →
  LogStartOffset.log_start offsets <= LogStartOffset.high_watermark offsets
    <= LogStartOffset.log_end offsets →
  (let '(head', r) := LogHead.delete_before target groups head in
   (r = Err Invalid ↔ LogHead.high_watermark head < target) ∧
   LogHead.log_start head <= LogHead.log_start head' <= LogHead.high_watermark head' ∧
   LogHead.high_watermark head' = LogHead.high_watermark head ∧
   (is_ok r = true → LogHead.log_start head' = Z.max (LogHead.log_start head) target ∧
      ∃ msg, LogHead.delete_before target groups head' = (head', Ok msg)) ∧
   (is_ok r = false → head' = head)) ∧
  (let '(offsets', r) := LogStartOffset.advance_start target offsets in
   match r with
   | Ok deleted =>
       deleted = target - LogStartOffset.log_start offsets ∧ 0 <= deleted ∧
       LogStartOffset.log_start offsets' <= LogStartOffset.high_watermark offsets' ∧
       (∀ o, LogStartOffset.is_fetchable offsets o = true →
          LogStartOffset.is_fetchable offsets' o = bool_decide (target <= o)) ∧
       (∀ o, is_ok (LogStartOffset.check_fetch offsets' o) = LogStartOffset.is_fetchable offsets' o)
   | Err e => e = Invalid ∧ offsets' = offsets ∧
       (target < LogStartOffset.log_start offsets ∨ LogStartOffset.high_watermark offsets < target)
   end).
Proof.
  intros Hh Ho. split.
  - unfold LogHead.delete_before. act_simpl.
    repeat (bool_split; act_simpl); bool_prop; split_and!; simpl; try done; try lia.
    all: try (split; [lia|]; act_simpl; repeat (bool_split; act_simpl); bool_prop; try lia; eauto).
    all: split; [intros [=]|lia].
  - unfold LogStartOffset.advance_start. act_simpl.
    repeat (bool_split; act_simpl); bool_prop; split_and!; try done; try lia; auto.
    + intros o. unfold LogStartOffset.is_fetchable. simpl. intros Hf. bool_prop.
      case_bool_decide; [apply andb_true_iff|apply andb_false_iff]; rewrite ?Z.leb_le, ?Z.leb_gt; lia.
    + intros o. unfold LogStartOffset.check_fetch, LogStartOffset.is_fetchable. simpl.
      repeat bool_split; bool_prop; simpl; symmetry;
        [apply andb_false_iff|apply andb_false_iff|apply andb_true_iff];
        rewrite ?Z.leb_le, ?Z.leb_gt; lia.
Qed.

Lemma log_start_advances_witness :
  let head := LogHead.mk 3 10 in let offsets := LogStartOffset.mk 3 10 12 in
  LogHead.log_start head <= LogHead.high_watermark head ∧
  (LogStartOffset.log_start offsets <= LogStartOffset.high_watermark offsets
    <= LogStartOffset.log_end offsets) ∧
  LogHead.log_start (LogHead.delete_before 7 None head).1 = 7 ∧
  LogStartOffset.advance_start 7 offsets = (LogStartOffset.mk 7 10 12, Ok 4).
Proof.
  intros head offsets.
  assert (LogHead.log_start head <= LogHead.high_watermark head) as Hh by (simpl; lia).
  assert (LogStartOffset.log_start offsets <= LogStartOffset.high_watermark offsets
    <= LogStartOffset.log_end offsets) as Ho by (simpl; lia).
  split; [exact Hh|]. split; [exact Ho|].
  destruct (log_start_advances head offsets 7 None Hh Ho) as [(_ & _ & _ & H & _) _].
  split; [|reflexivity]. apply H. reflexivity.
Defined.
