(* ===== verification/Replication.v ===== *)
(** * Replication: in-sync sets, election, truncation, recovery

    [relay/replication.py], [relay/election.py], [relay/acks.py],
    [relay/minisr.py], [relay/epochfetch.py], [relay/leaderepochcache.py],
    [relay/recovery.py] and [relay/logtruncation.py]. *)

From S2P Require Import Prelude PyDict PyBytes.

Module replication.
Module ReplicaState.
(** [relay/replication.py] class ReplicaState *)
Record t := mk {
  name : string;
  fetched_offset : Z;
  in_sync : bool;
}.
Definition set_in_sync (b : bool) (self : t) : t := mk (name self) (fetched_offset self) b.
End ReplicaState.

Module ReplicationSet.
(** [relay/replication.py] class ReplicationSet *)
Record t := mk {
  leader : string;
  followers : pydict string ReplicaState.t;
  min_in_sync : Z;
  max_lag : Z;
  leader_end_offset : Z;
}.
Definition set_followers (fs : pydict string ReplicaState.t) (self : t) : t :=
  mk (leader self) fs (min_in_sync self) (max_lag self) (leader_end_offset self).

(** [relay/replication.py] ReplicationSet.__post_init__ *)
Definition make (leader : string) (followers : pydict string ReplicaState.t)
    (min_in_sync max_lag leader_end_offset : Z) : result t :=
  if min_in_sync <? 1 then Err Invalid
  else Ok (mk leader followers min_in_sync max_lag leader_end_offset).

(** [relay/replication.py] ReplicationSet._in_sync_offsets *)
Definition _in_sync_offsets (self : t) : list Z :=
  leader_end_offset self
  :: (ReplicaState.fetched_offset <$>
       filter (λ s, ReplicaState.in_sync s = true) (d_values (followers self))).

(** [relay/replication.py] ReplicationSet.in_sync_count *)
Definition in_sync_count (self : t) : Z :=
  1 + zsum (λ s, if ReplicaState.in_sync s then 1 else 0) (d_values (followers self)).

Definition lags (self : t) (state : ReplicaState.t) : bool :=
  ReplicaState.in_sync state
  && (max_lag self <? leader_end_offset self - ReplicaState.fetched_offset state).

(** [relay/replication.py] ReplicationSet.evict_laggards *)
Fixpoint evict_loop (self : t) (states : pydict string ReplicaState.t)
    (evicted : list string) : pydict string ReplicaState.t * list string :=
  match states with
  | [] => ([], evicted)
  | (k, state) :: states' =>
      if lags self state then
        let '(rest, evicted) := evict_loop self states' (evicted ++ [ReplicaState.name state]) in
        ((k, ReplicaState.set_in_sync false state) :: rest, evicted)
      else
        let '(rest, evicted) := evict_loop self states' evicted in
        ((k, state) :: rest, evicted)
  end.
(** [relay/replication.py] ReplicationSet.evict_laggards *)
Definition evict_laggards : act t (list string) :=
  self ← get;
  let '(fs, evicted) := evict_loop self (followers self) [] in
  put (set_followers fs self);;
  mret evicted.

(** [relay/replication.py] ReplicationSet.committable_watermark *)
Definition committable_watermark (self : t) : result Z :=
  if in_sync_count self <? min_in_sync self then Err Invalid
  else match _in_sync_offsets self with
       | [] => Err ValueError
       | x :: l => Ok (py_min x l)
       end.

(** [relay/replication.py] ReplicationSet.pace_report *)
Definition pace_report (self : t) : string :=
  let '(slowest_name, slowest_offset) :=
    foldl (λ '(slowest_name, slowest_offset) state,
      if ReplicaState.in_sync state && (ReplicaState.fetched_offset state <? slowest_offset)
      then (ReplicaState.name state, ReplicaState.fetched_offset state)
      else (slowest_name, slowest_offset))
      (leader self, leader_end_offset self) (d_values (followers self)) in
  let lag := leader_end_offset self - slowest_offset in
  "in-sync " +:+ zs (in_sync_count self) +:+ ", pace-setter " +:+ slowest_name +:+ " at "
  +:+ zs slowest_offset +:+ " (" +:+ zs lag +:+ " behind the leader)".
End ReplicationSet.
End replication.
Import replication.

Module election.
Module Candidate.
(** [relay/election.py] class Candidate *)
Record t := mk {
  name : string;
  log_end_offset : Z;
  in_sync : bool;
}.

(** [relay/election.py:77-79] PartitionElector.elect *)
Definition le (c1 c2 : t) : Prop :=
  log_end_offset c2 < log_end_offset c1
  ∨ log_end_offset c1 = log_end_offset c2 ∧ String.le (name c1) (name c2).
#[global] Instance le_dec : RelDecision le.
Proof. unfold RelDecision, le. intros c1 c2. apply _. Defined.
#[global] Instance le_trans : Transitive le.
Proof.
  unfold le. intros c1 c2 c3 [H1|[H1 H1']] [H2|[H2 H2']]; [lia..|].
  right. split; [lia|]. by etrans.
Qed.
#[global] Instance le_total : Total le.
Proof.
  unfold le. intros c1 c2.
  destruct (total String.le (name c1) (name c2)); 
    destruct (Z.lt_trichotomy (log_end_offset c1) (log_end_offset c2)) as [|[|]]; auto.
Qed.
End Candidate.

Module ElectionResult.
(** [relay/election.py] class ElectionResult *)
Record t := mk {
  leader : string;
  epoch : Z;
  truncation_note : string;
  unclean : bool;
}.
End ElectionResult.

Module PartitionElector.
(** [relay/election.py] class PartitionElector *)
Record t := mk {
  epoch : Z;
  committed_offset : Z;
}.

Definition eligible (self : t) (c : Candidate.t) : bool :=
  Candidate.in_sync c && (committed_offset self <=? Candidate.log_end_offset c).

(** [relay/election.py] PartitionElector.elect *)
Definition elect (candidates : list Candidate.t) (allow_unclean : bool) : act t ElectionResult.t :=
  self ← get;
  match candidates with
  | [] => raise Invalid
  | c0 :: others =>
      let clean := filter (λ c, eligible self c = true) candidates in
      let unclean := bool_decide (length clean = 0%nat) in
      raise_if (unclean && negb allow_unclean) Invalid;;
      let pool := if unclean then py_sorted Candidate.le candidates else clean in
      winner ← pure_of (py_index (py_sorted Candidate.le pool) 0);
      put (mk (epoch self + 1) (committed_offset self));;
      let max_end := py_max (Candidate.log_end_offset c0) (Candidate.log_end_offset <$> others) in
      let note := "followers truncate to " +:+ zs (Candidate.log_end_offset winner) +:+ "; "
                  +:+ zs (max_end - Candidate.log_end_offset winner)
                  +:+ " record(s) beyond the new leader are discarded" in
      self ← get;
      mret (ElectionResult.mk (Candidate.name winner) (epoch self) note unclean)
  end.

(** [relay/election.py] PartitionElector.accept_from *)
Definition accept_from (self : t) (e : Z) : result unit :=
  if e <? epoch self then Err Fenced else Ok ().
End PartitionElector.
End election.
Import election.

Module acks.
(** [relay/acks.py] NONE *)
Definition NONE : string := "none".
(** [relay/acks.py] LEADER *)
Definition LEADER : string := "leader".
(** [relay/acks.py] ALL *)
Definition ALL : string := "all".
(** [relay/acks.py] MODES *)
Definition MODES : list string := [NONE; LEADER; ALL].

Module Acknowledgement.
(** [relay/acks.py] class Acknowledgement *)
Record t := mk {
  mode : string;
  durable : bool;
  survives : string;
  accepts : string;
}.
(** [relay/acks.py] Acknowledgement.line *)
Definition line (self : t) : string :=
  "acks=" +:+ mode self +:+ ": survives " +:+ survives self +:+ ", accepts loss on "
  +:+ accepts self.
End Acknowledgement.

(** [relay/acks.py] resolve_ack *)
Definition resolve_ack (mode : string) (in_sync_count min_in_sync : Z) :
    result Acknowledgement.t :=
  if bool_decide (mode ∉ MODES) then Err Invalid
  else if bool_decide (mode = NONE) then
    Ok (Acknowledgement.mk NONE false "nothing" "a leader crash the producer never hears about")
  else if bool_decide (mode = LEADER) then
    Ok (Acknowledgement.mk LEADER true "a follower's death" "a leader crash before replication")
  else if in_sync_count <? min_in_sync then Err Invalid
  else
    Ok (Acknowledgement.mk ALL true
          ("any single failure the " +:+ zs in_sync_count +:+ "-replica set covers")
          "unavailability if the set drops below the floor").
End acks.
Import acks.

Module minisr.
Module MinInSyncReplicas.
(** [relay/minisr.py] class MinInSyncReplicas *)
Record t := mk {
  floor : Z;
  replication_factor : Z;
}.

(** [relay/minisr.py] MinInSyncReplicas.__post_init__ *)
Definition make (floor replication_factor : Z) : result t :=
  if floor <? 1 then Err Invalid
  else if replication_factor <? floor then Err Invalid
  else Ok (mk floor replication_factor).

(** [relay/minisr.py] MinInSyncReplicas.admit *)
Definition admit_write (self : t) (in_sync_count : Z) (acks : string) : result string :=
  if negb (bool_decide (acks = "all")) then
    Ok ("admitted (acks=" +:+ acks +:+ " does not require the floor)")
  else if in_sync_count <? floor self then Err Invalid
  else Ok ("admitted (acks=all, " +:+ zs in_sync_count +:+ " in sync meets floor "
           +:+ zs (floor self) +:+ ")").

(** [relay/minisr.py] MinInSyncReplicas.margin *)
Definition margin (self : t) (in_sync_count : Z) : Z := in_sync_count - floor self.

(** [relay/minisr.py] MinInSyncReplicas.note *)
Definition note (self : t) (in_sync_count : Z) : string :=
  let m := margin self in_sync_count in
  let edge := if m =? 0 then " (at the floor, one replica from rejecting writes)" else "" in
  zs in_sync_count +:+ " in sync, floor " +:+ zs (floor self) +:+ ", margin " +:+ zs m +:+ edge
  +:+ "; a partition at the floor is the moment to look before producers see errors".
End MinInSyncReplicas.
End minisr.
Import minisr.

Module epochfetch.
(** [relay/epochfetch.py] truncation_point *)
Definition truncation_point (follower_epoch follower_end leader_epoch_end : Z) : Z * string :=
  if follower_end <=? leader_epoch_end then
    (follower_end, "no truncation: the follower's log is already a prefix of the leader's, "
                   +:+ "nothing diverged")
  else
    let truncated := follower_end - leader_epoch_end in
    (leader_epoch_end,
     "truncate " +:+ zs truncated +:+ " record(s) to offset " +:+ zs leader_epoch_end
     +:+ ": divergent history from epoch " +:+ zs follower_epoch
     +:+ ", never committed so nothing promised is lost, but a large truncation means the "
     +:+ "old leader was lagging before it failed").

Module DivergenceGuard.
(** [relay/epochfetch.py] class DivergenceGuard *)
Record t := mk { diverged_past : option Z }.

(** [relay/epochfetch.py] DivergenceGuard.require_truncation *)
Definition require_truncation (follower_end leader_epoch_end : Z) : act t unit :=
  if leader_epoch_end <? follower_end then
    put (mk (Some leader_epoch_end));;
    raise Invalid
  else mret ().

(** [relay/epochfetch.py] DivergenceGuard.resolve *)
Definition resolve (truncated_to : Z) : act t string :=
  self ← get;
  match diverged_past self with
  | None => mret "no divergence to resolve"
  | Some past =>
      raise_if (negb (truncated_to =? past)) Invalid;;
      put (mk None);;
      mret ("divergence resolved: the log is now a strict prefix of the leader's and may "
            +:+ "append again")
  end.
End DivergenceGuard.
End epochfetch.
Import epochfetch.

Module leaderepochcache.
Module LeaderEpochCache.
(** [relay/leaderepochcache.py] class LeaderEpochCache *)
Record t := mk {
  log_end : Z;
  entries : list (Z * Z);
}.

(** [relay/leaderepochcache.py] LeaderEpochCache.assign *)
Definition assign (epoch start_offset : Z) : act t unit :=
  self ← get;
  raise_if match last (entries self) with Some (e, _) => epoch <=? e | None => false end Invalid;;
  put (mk (log_end self) (entries self ++ [(epoch, start_offset)])).

(** [relay/leaderepochcache.py:56-63] LeaderEpochCache.end_offset_for *)
Fixpoint end_offset_loop (log_end epoch : Z) (entries : list (Z * Z)) : Z :=
  match entries with
  | [] => log_end
  | (ep, start) :: entries' =>
      if ep =? epoch then
        match entries' with (_, next) :: _ => next | [] => log_end end
      else if epoch <? ep then start
      else end_offset_loop log_end epoch entries'
  end.
(** [relay/leaderepochcache.py] LeaderEpochCache.end_offset_for *)
Definition end_offset_for (self : t) (epoch : Z) : result Z :=
  match entries self with
  | [] => Err Missing
  | (first, _) :: _ =>
      if epoch <? first then Err Missing
      else Ok (end_offset_loop (log_end self) epoch (entries self))
  end.

(** [relay/leaderepochcache.py] LeaderEpochCache.truncate_from *)
Definition truncate_from (offset : Z) : act t Z :=
  self ← get;
  let before := zlen (entries self) in
  put (mk (Z.min (log_end self) offset) (filter (λ e, e.2 < offset) (entries self)));;
  self ← get;
  mret (before - zlen (entries self)).

(** [relay/leaderepochcache.py] LeaderEpochCache.drop_below *)
Definition drop_below (log_start : Z) : act t Z :=
  self ← get;
  let before := zlen (entries self) in
  let kept := filter (λ e, log_start <= e.2) (entries self) in
  let kept := match kept, last (entries self) with
              | [], Some e => [e]
              | _, _ => kept
              end in
  put (mk (log_end self) kept);;
  mret (before - zlen kept).

(** [relay/leaderepochcache.py] LeaderEpochCache.span *)
Definition span (self : t) : string :=
  match head (entries self), last (entries self) with
  | Some (e1, _), Some (e2, _) =>
      "epochs " +:+ zs e1 +:+ ".." +:+ zs e2
      +:+ " retained; an older epoch falls back to the log start"
  | _, _ => "no epochs retained; recovery truncates to the log start"
  end.
End LeaderEpochCache.
End leaderepochcache.
Import leaderepochcache.

Module recovery.
Module EpochMarker.
(** [relay/recovery.py] class EpochMarker *)
Record t := mk {
  epoch : Z;
  start_offset : Z;
}.
(** [relay/recovery.py:49-51] RecoveryPlan.diverge_point *)
Definition le (m1 m2 : t) : Prop := epoch m1 <= epoch m2.
#[global] Instance le_dec : RelDecision le.
Proof. unfold RelDecision, le. intros m1 m2. apply _. Defined.
#[global] Instance le_trans : Transitive le.
Proof. unfold le. intros m1 m2 m3. lia. Qed.
#[global] Instance le_total : Total le.
Proof. unfold le. intros m1 m2. lia. Qed.
End EpochMarker.

Module RecoveryPlan.
(** [relay/recovery.py] class RecoveryPlan *)
Record t := mk {
  local_end : Z;
  local_epochs : list EpochMarker.t;
  truncated_to : Z;
  discarded : Z;
  index_rebuilt : bool;
}.
Definition new (local_end : Z) (local_epochs : list EpochMarker.t) : t :=
  mk local_end local_epochs (-1) 0 false.

(** [relay/recovery.py:66-71] RecoveryPlan._epoch_end *)
Fixpoint epoch_end_loop (local_end epoch : Z) (ordered : list EpochMarker.t) : Z :=
  match ordered with
  | [] => 0
  | marker :: ordered' =>
      if EpochMarker.epoch marker =? epoch then
        match ordered' with next :: _ => EpochMarker.start_offset next | [] => local_end end
      else epoch_end_loop local_end epoch ordered'
  end.
(** [relay/recovery.py] RecoveryPlan._epoch_end *)
Definition _epoch_end (self : t) (epoch : Z) (leader_epochs : list EpochMarker.t) : Z :=
  epoch_end_loop (local_end self) epoch (py_sorted EpochMarker.le leader_epochs).

(** [relay/recovery.py:49-60] RecoveryPlan.diverge_point *)
Fixpoint diverge_loop (self : t) (leader_epochs : list EpochMarker.t)
    (leader_by_epoch : gmap Z Z) (locals : list EpochMarker.t) (agree_offset : Z) : Z :=
  match locals with
  | [] => agree_offset
  | marker :: locals' =>
      match leader_by_epoch !! EpochMarker.epoch marker with
      | None => agree_offset
      | Some leader_start =>
          if negb (leader_start =? EpochMarker.start_offset marker) then agree_offset
          else diverge_loop self leader_epochs leader_by_epoch locals'
                 (_epoch_end self (EpochMarker.epoch marker) leader_epochs)
      end
  end.
(** [relay/recovery.py] RecoveryPlan.diverge_point *)
Definition diverge_point (self : t) (leader_epochs : list EpochMarker.t) : Z :=
  let leader_by_epoch :=
    foldl (λ m marker, <[EpochMarker.epoch marker := EpochMarker.start_offset marker]> m)
          ∅ leader_epochs in
  diverge_loop self leader_epochs leader_by_epoch
    (py_sorted EpochMarker.le (local_epochs self)) 0.

(** [relay/recovery.py] RecoveryPlan.recover *)
Definition recover (leader_epochs : list EpochMarker.t) (leader_end : Z) : act t string :=
  self ← get;
  let safe := Z.min (diverge_point self leader_epochs) leader_end in
  let safe := Z.min safe (local_end self) in
  put (mk (local_end self) (local_epochs self) safe (Z.max 0 (local_end self - safe)) true);;
  self ← get;
  if discarded self =? 0 then
    mret ("recovered: log agrees through " +:+ zs safe
          +:+ ", nothing truncated, index rebuilt before serving")
  else
    mret ("recovered: truncated to " +:+ zs safe +:+ ", discarded " +:+ zs (discarded self)
          +:+ " unpromised record(s), index rebuilt; the count is logged so a healthy "
          +:+ "truncation is not mistaken for a bug eating data").

(** [relay/recovery.py] RecoveryPlan.may_serve *)
Definition may_serve (self : t) : bool := (0 <=? truncated_to self) && index_rebuilt self.
End RecoveryPlan.
End recovery.
Import recovery.

Module logtruncation.
Module LogTruncation.
(** [relay/logtruncation.py] class LogTruncation *)
Record t := mk {
  log_start : Z;
  high_watermark : Z;
  log_end : Z;
}.

(** [relay/logtruncation.py] LogTruncation.__post_init__ *)
Definition make (log_start high_watermark log_end : Z) : result t :=
  if negb ((log_start <=? high_watermark) && (high_watermark <=? log_end)) then Err Invalid
  else Ok (mk log_start high_watermark log_end).

(** [relay/logtruncation.py] LogTruncation.truncate_to *)
Definition truncate_to (target : Z) : act t Z :=
  self ← get;
  raise_if (target <? high_watermark self) Invalid;;
  raise_if (target <? log_start self) Invalid;;
  if log_end self <=? target then mret 0
  else
    let dropped := log_end self - target in
    put (mk (log_start self) (high_watermark self) target);;
    mret dropped.

(** [relay/logtruncation.py] LogTruncation.uncommitted_tail *)
Definition uncommitted_tail (self : t) : Z := log_end self - high_watermark self.

(** [relay/logtruncation.py] LogTruncation.note *)
Definition note (self : t) : string :=
  "log end " +:+ zs (log_end self) +:+ ", high watermark " +:+ zs (high_watermark self)
  +:+ ", uncommitted tail " +:+ zs (uncommitted_tail self)
  +:+ "; that gap is the tail a follower may still lose on the next leadership change".
End LogTruncation.
End logtruncation.
Import logtruncation.


(** ** The in-sync set and the commit watermark *)

Section replication_proofs.
Import ReplicationSet.
Implicit Types (s : ReplicationSet.t).

Definition demote s (st : ReplicaState.t) : ReplicaState.t :=
  if lags s st then ReplicaState.set_in_sync false st else st.

Lemma evict_loop_spec s states evicted :
  evict_loop s states evicted =
    (prod_map id (demote s) <$> states,
     evicted ++ (ReplicaState.name <$> filter (λ st, lags s st = true) (d_values states))).
Proof.
  revert evicted. induction states as [|[k st] states IH]; intros evicted; simpl.
  - by rewrite app_nil_r.
  - rewrite filter_cons_bool. unfold demote at 1. simpl.
    destruct (lags s st); rewrite IH; [|done]. by rewrite <-app_assoc.
Qed.

Lemma in_sync_offsets_elem s w :
  w ∈ _in_sync_offsets s ↔
  w = leader_end_offset s
  ∨ ∃ st, st ∈ d_values (followers s) ∧ ReplicaState.in_sync st = true
          ∧ w = ReplicaState.fetched_offset st.
Proof.
  unfold _in_sync_offsets. rewrite elem_of_cons, list_elem_of_fmap.
  setoid_rewrite list_elem_of_filter. naive_solver.
Qed.

Lemma committable_watermark_spec s :
  match committable_watermark s with
  | Ok w => min_in_sync s <= in_sync_count s
            ∧ w ∈ _in_sync_offsets s ∧ ∀ o, o ∈ _in_sync_offsets s → w <= o
  | Err e => e = Invalid ∧ in_sync_count s < min_in_sync s
  end.
Proof.
  unfold committable_watermark. destruct (Z.ltb_spec (in_sync_count s) (min_in_sync s)).
  - done.
  - unfold _in_sync_offsets. split_and!; [done|apply py_min_elem|apply py_min_le].
Qed.

Lemma demoted_within_lag s st :
  ReplicaState.in_sync (demote s st) = true →
  demote s st = st ∧ leader_end_offset s - max_lag s <= ReplicaState.fetched_offset st.
Proof.
  unfold demote. destruct (lags s st) eqn:E; [done|]. intros Hin. split; [done|].
  unfold lags in E. rewrite Hin in E. simpl in E. lia.
Qed.

(** Also (safety): evicting laggards and then committing keeps the watermark within the allowed lag:
    [evict_laggards] takes out of the in-sync set exactly the in-sync followers more than [max_lag]
    behind the leader and reports their names in dictionary order, changing no fetched offset; the
    watermark then committable exists exactly when the remaining set (the leader counts) meets
    [min_in_sync], is the smallest in-sync offset (the leader's own end or an in-sync follower's,
    and below none of them), and lies within [max_lag] of the leader's end. *)
Theorem evict_then_commit s (Hlag : 0 <= max_lag s) :
  let '(s', r) := evict_laggards s in
  r = Ok (ReplicaState.name <$> filter (λ st, lags s st = true) (d_values (followers s)))
  ∧ s' = set_followers (prod_map id (demote s) <$> followers s) s
  ∧ match committable_watermark s' with
    | Ok w => min_in_sync s <= in_sync_count s'
              ∧ w ∈ _in_sync_offsets s' ∧ (∀ o, o ∈ _in_sync_offsets s' → w <= o)
              ∧ leader_end_offset s - max_lag s <= w <= leader_end_offset s
    | Err e => e = Invalid ∧ in_sync_count s' < min_in_sync s
    end.
Proof.
  unfold evict_laggards. rewrite bind_get, evict_loop_spec. act_simpl. split_and!; [done..|].
  set (s' := set_followers _ s).
  pose proof (committable_watermark_spec s') as Hw.
  destruct (committable_watermark s') as [w|e]; [|done].
  destruct Hw as (Hn & Hin & Hmin). split_and!; [done..| |].
  - apply in_sync_offsets_elem in Hin as [->|(st & Hst & Hsync & ->)]; [simpl; lia|].
    unfold d_values, s' in Hst. simpl in Hst.
    apply list_elem_of_fmap in Hst as ([k st'] & -> & Hst).
    apply list_elem_of_fmap in Hst as ([k0 st0] & Heq & _). simplify_eq/=.
    by apply demoted_within_lag in Hsync as [-> ?].
  - apply (Hmin (leader_end_offset s)). apply in_sync_offsets_elem. by left.
Qed.

Definition sample_set : ReplicationSet.t :=
  ReplicationSet.mk "a"
    [("b", ReplicaState.mk "b" 95 true); ("c", ReplicaState.mk "c" 40 true)] 2 10 100.

Lemma evict_then_commit_witness :
  (evict_laggards sample_set).2 = Ok ["c"]
  ∧ committable_watermark (evict_laggards sample_set).1 = Ok 95
  ∧ (evict_laggards sample_set).1
    = set_followers (prod_map id (demote sample_set) <$> followers sample_set) sample_set.
Proof.
  assert (0 <= max_lag sample_set) as H by (vm_compute; discriminate).
  pose proof (evict_then_commit sample_set H) as Ht.
  split; [vm_compute; reflexivity|]. split; [vm_compute; reflexivity|].
  destruct (evict_laggards sample_set) as [s' r]. exact (proj1 (proj2 Ht)).
Defined.

(** Also (equivalence): the three gates on [acks=all] agree: over the same in-sync count and the same
    floor, [ReplicationSet.committable_watermark] yields a watermark, [acks.resolve_ack] grants the
    [all] acknowledgement and [MinInSyncReplicas.admit] takes the write exactly when the count
    reaches the floor, and all three refuse with [Invalid] otherwise; below [all], [resolve_ack]
    and [admit] never refuse for the floor. *)
Theorem ack_gates_agree s rf (acks : string) :
  let n := in_sync_count s in
  let gate := if min_in_sync s <=? n then true else false in
  is_ok (committable_watermark s) = gate
  ∧ is_ok (resolve_ack ALL n (min_in_sync s)) = gate
  ∧ is_ok (MinInSyncReplicas.admit_write (MinInSyncReplicas.mk (min_in_sync s) rf) n ALL) = gate
  ∧ (gate = false → resolve_ack ALL n (min_in_sync s) = Err Invalid
                    ∧ committable_watermark s = Err Invalid)
  ∧ is_ok (resolve_ack acks n (min_in_sync s))
    = bool_decide (acks ∈ MODES) && (negb (bool_decide (acks = ALL)) || gate).
Proof.
  assert (resolve_ack ALL (in_sync_count s) (min_in_sync s)
          = if in_sync_count s <? min_in_sync s then Err Invalid else
              Ok (Acknowledgement.mk ALL true
                    ("any single failure the " +:+ zs (in_sync_count s)
                     +:+ "-replica set covers")
                    "unavailability if the set drops below the floor")) as Hall by done.
  simpl. rewrite Hall. unfold committable_watermark, MinInSyncReplicas.admit_write. simpl.
  destruct (Z.ltb_spec (in_sync_count s) (min_in_sync s)), (Z.leb_spec (min_in_sync s) (in_sync_count s));
    try lia; split_and!; try done.
  all: unfold resolve_ack; repeat case_bool_decide; subst; simpl; try done.
  all: try (by exfalso; set_solver).
  all: repeat case_bool_decide; try done.
  all: try (destruct (Z.ltb_spec (in_sync_count s) (min_in_sync s)); try lia; try done).
  all: exfalso; unfold MODES in *; set_solver.
Qed.
End replication_proofs.

(** ** Elections *)

Section election_proofs.
Implicit Types (self : PartitionElector.t) (cs : list Candidate.t).

Lemma py_index_head {A} (x : A) l : py_index (x :: l) 0 = Ok x.
Proof. by apply py_index_nonneg. Qed.

Definition eligible_of self cs : list Candidate.t :=
  filter (λ c, PartitionElector.eligible self c = true) cs.

Lemma eligible_of_elem self cs c :
  c ∈ eligible_of self cs ↔ c ∈ cs ∧ PartitionElector.eligible self c = true.
Proof. unfold eligible_of. rewrite list_elem_of_filter. tauto. Qed.

Lemma eligible_of_nil self cs :
  eligible_of self cs = [] ↔ ∀ c, c ∈ cs → PartitionElector.eligible self c = false.
Proof.
  split.
  - intros Hnil c Hc. destruct (PartitionElector.eligible self c) eqn:E; [|done].
    assert (c ∈ eligible_of self cs) as Hin by (by apply eligible_of_elem).
    rewrite Hnil in Hin. by apply elem_of_nil in Hin.
  - intros Hall. destruct (eligible_of self cs) as [|c l] eqn:E; [done|].
    assert (c ∈ eligible_of self cs) as Hin by (rewrite E; left).
    apply eligible_of_elem in Hin as [Hc Hel]. by rewrite (Hall c Hc) in Hel.
Qed.

(** The pool the winner is taken from. *)
Definition pool self cs : list Candidate.t :=
  match eligible_of self cs with [] => py_sorted Candidate.le cs | _ => eligible_of self cs end.

Lemma elect_run self cs allow :
  PartitionElector.elect cs allow self =
    match cs with
    | [] => (self, Err Invalid)
    | c0 :: others =>
        if bool_decide (eligible_of self cs = []) && negb allow then (self, Err Invalid)
        else match py_sorted Candidate.le (pool self cs) with
             | [] => (self, Err IndexError)
             | winner :: _ =>
                 let self' := PartitionElector.mk (PartitionElector.epoch self + 1)
                                (PartitionElector.committed_offset self) in
                 let max_end := py_max (Candidate.log_end_offset c0)
                                       (Candidate.log_end_offset <$> others) in
                 (self', Ok (ElectionResult.mk (Candidate.name winner)
                    (PartitionElector.epoch self + 1)
                    ("followers truncate to " +:+ zs (Candidate.log_end_offset winner) +:+ "; "
                     +:+ zs (max_end - Candidate.log_end_offset winner)
                     +:+ " record(s) beyond the new leader are discarded")
                    (bool_decide (eligible_of self cs = []))))
             end
    end.
Proof.
  unfold PartitionElector.elect. rewrite bind_get. destruct cs as [|c0 others]; [done|].
  fold (eligible_of self (c0 :: others)).
  replace (bool_decide (length (eligible_of self (c0 :: others)) = 0%nat))
    with (bool_decide (eligible_of self (c0 :: others) = [])).
  2: { apply bool_decide_ext. split; [by intros ->|apply nil_length_inv]. }
  rewrite bind_raise_if. destruct (_ && _); [done|]. rewrite bind_pure_of.
  replace (if bool_decide (eligible_of self (c0 :: others) = [])
           then py_sorted Candidate.le (c0 :: others) else eligible_of self (c0 :: others))
    with (pool self (c0 :: others)).
  2: { unfold pool. by destruct (eligible_of self (c0 :: others)). }
  destruct (py_sorted Candidate.le (pool self (c0 :: others))); [done|].
  by rewrite py_index_head.
Qed.

(** Also (functional): an election fences and loses nothing it can avoid losing. [elect] promotes
    only a candidate of the list, raises the epoch by exactly one and leaves the committed offset
    alone; a clean result is an in-sync candidate that reaches the committed offset, with the
    largest log end among the eligible ones (the smallest name on ties); an unclean result arises
    only when it was allowed and no candidate was eligible, and is then a candidate with the
    largest log end of all; afterwards [accept_from] refuses exactly the epochs before the new one
    with [Fenced]. It fails only with [Invalid], changing nothing, when there is no candidate or
    when none is eligible and an unclean election was not allowed. *)
Theorem elect_spec self cs allow :
  match PartitionElector.elect cs allow self with
  | (self', Ok r) =>
      PartitionElector.committed_offset self' = PartitionElector.committed_offset self
      ∧ PartitionElector.epoch self' = PartitionElector.epoch self + 1
      ∧ ElectionResult.epoch r = PartitionElector.epoch self'
      ∧ (∃ w, w ∈ cs ∧ ElectionResult.leader r = Candidate.name w ∧
          if ElectionResult.unclean r
          then allow = true ∧ (∀ c, c ∈ cs → PartitionElector.eligible self c = false)
               ∧ ∀ c, c ∈ cs → Candidate.le w c
          else PartitionElector.eligible self w = true
               ∧ ∀ c, c ∈ cs → PartitionElector.eligible self c = true → Candidate.le w c)
      ∧ ∀ e, PartitionElector.accept_from self' e
             = if e <? ElectionResult.epoch r then Err Fenced else Ok ()
  | (self', Err e) =>
      self' = self ∧ e = Invalid ∧
      (cs = [] ∨ allow = false ∧ ∀ c, c ∈ cs → PartitionElector.eligible self c = false)
  end.
Proof.
  rewrite elect_run. destruct cs as [|c0 others]; [by split_and!; [..|left]|].
  set (cs := c0 :: others). case_bool_decide as Hnil.
  - destruct allow; simpl.
    2: { split_and!; [done..|]. right. split; [done|]. by apply eligible_of_nil. }
    assert (pool self cs = py_sorted Candidate.le cs) as -> by (unfold pool; by rewrite Hnil).
    destruct (py_sorted Candidate.le (py_sorted Candidate.le cs)) as [|w l] eqn:Hs.
    { by apply py_sorted_nil, py_sorted_nil in Hs. }
    apply py_sorted_head in Hs as [Hw Hmin]; [|apply _..].
    rewrite py_sorted_elem_of in Hw. setoid_rewrite py_sorted_elem_of in Hmin.
    simpl. split_and!; try done. exists w. split_and!; try done. by apply eligible_of_nil.
  - simpl. assert (pool self cs = eligible_of self cs) as ->.
    { unfold pool. by destruct (eligible_of self cs). }
    destruct (py_sorted Candidate.le (eligible_of self cs)) as [|w l] eqn:Hs.
    { by apply py_sorted_nil in Hs. }
    apply py_sorted_head in Hs as [Hw Hmin]; [|apply _..].
    apply eligible_of_elem in Hw as [Hw Hel].
    simpl. split_and!; try done. exists w. split_and!; try done.
    intros c Hc Hce. apply Hmin. by apply eligible_of_elem.
Qed.

Definition candidate_of (st : ReplicaState.t) : Candidate.t :=
  Candidate.mk (ReplicaState.name st) (ReplicaState.fetched_offset st) (ReplicaState.in_sync st).

(** C4 (safety): failing over inside the in-sync set loses no committed record. When the elector's
    committed offset is a watermark the replication set could commit and the candidates are that
    set's followers, a clean election succeeds as soon as one follower is in sync, without being
    told to allow an unclean one, and the new leader's log reaches the committed offset. *)
Theorem failover_keeps_committed self (s : ReplicationSet.t) w
    (Hw : ReplicationSet.committable_watermark s = Ok w)
    (Hcommit : PartitionElector.committed_offset self = w)
    (Hsync : ∃ st, st ∈ d_values (ReplicationSet.followers s) ∧ ReplicaState.in_sync st = true) :
  let cs := candidate_of <$> d_values (ReplicationSet.followers s) in
  ∃ self' r c,
    PartitionElector.elect cs false self = (self', Ok r)
    ∧ ElectionResult.unclean r = false
    ∧ c ∈ cs ∧ ElectionResult.leader r = Candidate.name c ∧ w <= Candidate.log_end_offset c.
Proof.
  intros cs. pose proof (committable_watermark_spec s) as Hs. rewrite Hw in Hs.
  destruct Hs as (_ & _ & Hmin), Hsync as (st & Hst & Hin).
  assert (candidate_of st ∈ cs) as Hc by (by apply list_elem_of_fmap_2).
  assert (PartitionElector.eligible self (candidate_of st) = true) as Hel.
  { unfold PartitionElector.eligible. simpl. rewrite Hin, Hcommit. simpl. apply Z.leb_le.
    apply Hmin, in_sync_offsets_elem. right. by exists st. }
  rewrite elect_run. destruct cs as [|c0 others] eqn:Hcs; [by apply elem_of_nil in Hc|].
  rewrite <-Hcs in *.
  assert (eligible_of self cs ≠ []) as Hne.
  { rewrite eligible_of_nil. intros Hall. by rewrite (Hall _ Hc) in Hel. }
  rewrite bool_decide_eq_false_2 by done. simpl.
  assert (pool self cs = eligible_of self cs) as ->.
  { unfold pool. by destruct (eligible_of self cs). }
  destruct (py_sorted Candidate.le (eligible_of self cs)) as [|c l] eqn:Hsort.
  { by apply py_sorted_nil in Hsort. }
  apply py_sorted_head in Hsort as [Hcin _]; [|apply _..].
  apply eligible_of_elem in Hcin as [Hcin Hce]. eexists _, _, c. split_and!; try done.
  unfold PartitionElector.eligible in Hce. bool_prop. lia.
Qed.

Lemma failover_keeps_committed_witness :
  let s := (ReplicationSet.evict_laggards sample_set).1 in
  ∃ self' r c,
    PartitionElector.elect (candidate_of <$> d_values (ReplicationSet.followers s)) false
      (PartitionElector.mk 4 95) = (self', Ok r)
    ∧ ElectionResult.unclean r = false
    ∧ c ∈ candidate_of <$> d_values (ReplicationSet.followers s)
    ∧ ElectionResult.leader r = Candidate.name c ∧ 95 <= Candidate.log_end_offset c.
Proof.
  intros s. apply (failover_keeps_committed (PartitionElector.mk 4 95) s 95);
    [vm_compute; reflexivity|reflexivity|].
  exists (ReplicaState.mk "b" 95 true). split; [|reflexivity]. vm_compute. left.
Defined.
End election_proofs.

(** ** Leader epochs: the cache, truncation and recovery *)

Section epoch_cache_proofs.
Import LeaderEpochCache.
Implicit Types (c : LeaderEpochCache.t).

Inductive epoch_op :=
  | Assign (epoch start_offset : Z)
  | TruncateFrom (offset : Z)
  | DropBelow (log_start : Z).

Definition epoch_step (o : epoch_op) : t → t :=
  match o with
  | Assign epoch start_offset => state_of (assign epoch start_offset)
  | TruncateFrom offset => state_of (truncate_from offset)
  | DropBelow log_start => state_of (drop_below log_start)
  end.

Definition epochs_increase c : Prop := StronglySorted Z.lt (entries c).*1.

Lemma StronglySorted_snoc {A} (R : relation A) l x :
  StronglySorted R l → Forall (λ y, R y x) l → StronglySorted R (l ++ [x]).
Proof.
  induction 1 as [|y l Hl IH Hy]; intros Hx; simpl; [repeat constructor|].
  apply Forall_cons in Hx as [Hyx Hx]. constructor; [auto|].
  apply Forall_app. by split; [|constructor].
Qed.

Lemma StronglySorted_last {A} (R : relation A) l x :
  Transitive R → StronglySorted R l → last l = Some x → Forall (λ y, y = x ∨ R y x) l.
Proof.
  intros Htr. induction 1 as [|y l Hl IH Hy]; intros Hlast; [constructor|].
  destruct l as [|z l]; simpl in Hlast; [simplify_eq; by repeat constructor; left|].
  specialize (IH Hlast). constructor; [|done]. right.
  pose proof (Forall_inv Hy) as Hyz. apply Forall_inv in IH as [->|IH]; [done|by etrans].
Qed.

Lemma StronglySorted_fmap_filter {A B} (R : relation B) (f : A → B) (P : A → Prop)
    `{∀ x, Decision (P x)} l :
  StronglySorted R (f <$> l) → StronglySorted R (f <$> filter P l).
Proof.
  induction l as [|x l IH]; simpl; intros Hs; [done|].
  apply StronglySorted_inv in Hs as [Hs Hx]. rewrite filter_cons.
  case_decide; [|auto]. simpl. constructor; [auto|].
  rewrite Forall_fmap in *. apply Forall_forall. intros y Hy.
  apply list_elem_of_filter in Hy as [_ Hy]. by eapply Forall_forall in Hx.
Qed.

Lemma epoch_step_increase o c : epochs_increase c → epochs_increase (epoch_step o c).
Proof.
  unfold epochs_increase. intros Hc. destruct o as [epoch start|offset|start]; unfold epoch_step, state_of.
  - unfold assign. rewrite bind_get, bind_raise_if. 
    destruct (last (entries c)) as [[e st]|] eqn:Hlast; simpl.
    + destruct (Z.leb_spec epoch e); [done|]. simpl. rewrite fmap_app.
      apply StronglySorted_snoc; [done|]. simpl.
      eapply Forall_impl; [apply (StronglySorted_last Z.lt _ e _ Hc)|].
      { by rewrite fmap_last, Hlast. }
      simpl. lia.
    + apply last_None in Hlast as ->. by repeat constructor.
  - unfold truncate_from. act_simpl. by apply StronglySorted_fmap_filter.
  - unfold drop_below. act_simpl.
    pose proof (StronglySorted_fmap_filter Z.lt fst (λ e, start <= e.2) _ Hc) as Hf.
    destruct (filter _ _); [|done]. destruct (last _); [by repeat constructor|done].
Qed.

(** Where an epoch ends: at the start of the first later epoch, or at the log end. *)
Definition epoch_end_spec c (epoch : Z) : Z :=
  match filter (λ e, epoch < e.1) (entries c) with
  | (_, start) :: _ => start
  | [] => log_end c
  end.

Lemma end_offset_loop_spec le epoch es :
  StronglySorted Z.lt es.*1 →
  end_offset_loop le epoch es =
    match filter (λ e, epoch < e.1) es with (_, start) :: _ => start | [] => le end.
Proof.
  induction es as [|[ep st] es IH]; [done|].
  intros Hs. cbn [end_offset_loop]. rewrite filter_cons. simpl in *.
  apply StronglySorted_inv in Hs as [Hs Hx].
  destruct (Z.eqb_spec ep epoch) as [->|Hne].
  - rewrite decide_False by lia. destruct es as [|[ep' st'] es]; [done|].
    apply Forall_inv in Hx. simpl in Hx. rewrite filter_cons, decide_True by done. done.
  - destruct (Z.ltb_spec epoch ep); [by rewrite decide_True|].
    rewrite decide_False by lia. by apply IH.
Qed.

(** Also (functional): a leader's answer about an epoch is exact in every reachable cache. After any
    sequence of [assign], [truncate_from] and [drop_below] calls on a fresh cache the recorded
    epochs strictly increase, [assign] refuses with [Invalid] exactly an epoch that does not exceed
    the last one, and [end_offset_for] returns where the asked epoch ended: the start of the first
    recorded epoch after it, or the log end when there is none; it raises [Missing] exactly when
    the cache is empty or the epoch precedes the first one recorded. *)
Theorem epoch_cache_end_exact le (ops : list epoch_op) :
  let c := run epoch_step ops (LeaderEpochCache.mk le []) in
  epochs_increase c
  ∧ (∀ e st, (assign e st c).2
             = if bool_decide (Exists (λ p, e <= p.1) (entries c)) then Err Invalid else Ok ())
  ∧ ∀ e, end_offset_for c e
         = if bool_decide (Exists (λ p, p.1 <= e) (entries c)) then Ok (epoch_end_spec c e)
           else Err Missing.
Proof.
  intros c. assert (epochs_increase c) as Hc.
  { apply (run_invariant epoch_step epochs_increase); [apply epoch_step_increase|constructor]. }
  split_and!; [done| |].
  - intros e st. unfold assign. rewrite bind_get, bind_raise_if.
    destruct (last (entries c)) as [[e' st']|] eqn:Hlast.
    2: { apply last_None in Hlast. by rewrite Hlast. }
    pose proof (StronglySorted_last Z.lt _ e' _ Hc) as Hall.
    rewrite fmap_last, Hlast in Hall. specialize (Hall eq_refl). rewrite Forall_fmap in Hall.
    destruct (Z.leb_spec e e').
    + rewrite bool_decide_eq_true_2; [done|]. apply Exists_exists. exists (e', st').
      split; [by apply last_Some_elem_of|done].
    + rewrite bool_decide_eq_false_2; [done|]. rewrite Exists_exists. intros (p & Hp & Hle).
      eapply Forall_forall in Hall; [|done]. simpl in Hall. lia.
  - intros e. unfold end_offset_for, epoch_end_spec.
    rewrite <-end_offset_loop_spec by done. unfold epochs_increase in Hc.
    destruct (entries c) as [|[first st] es]; [by rewrite bool_decide_eq_false_2 by (by intros ?%Exists_nil)|].
    destruct (Z.ltb_spec e first).
    + rewrite bool_decide_eq_false_2; [done|].
      simpl in Hc. apply StronglySorted_inv in Hc as [_ Hx]. rewrite Forall_fmap in Hx.
      rewrite Exists_cons, Exists_exists. simpl. intros [?|(p & Hp & ?)]; [lia|].
      eapply Forall_forall in Hx; [|done]. simpl in Hx. lia.
    + rewrite bool_decide_eq_true_2; [done|]. rewrite Exists_cons. by left.
Qed.
End epoch_cache_proofs.

Section recovery_proofs.
Import RecoveryPlan.
Implicit Types (p : RecoveryPlan.t) (ms : list EpochMarker.t).

Lemma epoch_end_loop_at le pre m post :
  EpochMarker.epoch m ∉ EpochMarker.epoch <$> pre →
  epoch_end_loop le (EpochMarker.epoch m) (pre ++ m :: post)
  = match post with next :: _ => EpochMarker.start_offset next | [] => le end.
Proof.
  induction pre as [|m' pre IH]; simpl; intros Hpre.
  - by rewrite Z.eqb_refl.
  - apply not_elem_of_cons in Hpre as [Hne Hpre].
    destruct (Z.eqb_spec (EpochMarker.epoch m') (EpochMarker.epoch m)); [congruence|]. by apply IH.
Qed.

Lemma by_epoch_lookup ms m (acc : gmap Z Z) :
  NoDup (EpochMarker.epoch <$> ms) → m ∈ ms →
  foldl (λ d x, <[EpochMarker.epoch x := EpochMarker.start_offset x]> d) acc ms
    !! EpochMarker.epoch m = Some (EpochMarker.start_offset m).
Proof.
  revert acc. induction ms as [|x ms IH] using rev_ind; intros acc Hnd Hm.
  { by apply elem_of_nil in Hm. }
  rewrite foldl_app. simpl. rewrite fmap_app in Hnd.
  apply NoDup_app in Hnd as (Hnd & Hdisj & _).
  apply elem_of_app in Hm as [Hm|Hm%list_elem_of_singleton].
  - rewrite lookup_insert_ne; [by apply IH|]. intros Heq.
    apply (Hdisj (EpochMarker.epoch m)); [by apply list_elem_of_fmap_2|].
    rewrite <-Heq. left.
  - subst. by rewrite lookup_insert_eq.
Qed.

Lemma diverge_loop_shared p ms rest done_ todo agree :
  NoDup (EpochMarker.epoch <$> ms) →
  py_sorted EpochMarker.le ms = done_ ++ todo ++ rest →
  diverge_loop p ms
    (foldl (λ d x, <[EpochMarker.epoch x := EpochMarker.start_offset x]> d) ∅ ms) todo agree
  = match todo with
    | [] => agree
    | _ => match rest with next :: _ => EpochMarker.start_offset next | [] => local_end p end
    end.
Proof.
  intros Hnd. revert done_ agree. induction todo as [|m todo IH]; [done|].
  intros done_ agree Hs. cbn [diverge_loop].
  assert (m ∈ ms) as Hm.
  { apply (py_sorted_elem_of EpochMarker.le). rewrite Hs. apply elem_of_app. right. left. }
  rewrite by_epoch_lookup by done. rewrite Z.eqb_refl. simpl negb. cbv iota.
  rewrite (IH (done_ ++ [m])) by (by rewrite <-app_assoc).
  destruct todo as [|m' todo]; [|done].
  unfold _epoch_end. rewrite Hs. simpl. apply epoch_end_loop_at.
  rewrite <-(py_sorted_Permutation EpochMarker.le ms), Hs in Hnd.
  rewrite fmap_app in Hnd. apply NoDup_app in Hnd as (_ & Hdisj & _).
  intros Hin. apply (Hdisj _ Hin). simpl. left.
Qed.

(** Also (functional): a restarting replica whose epochs are the first epochs of the leader's history
    is truncated exactly to the shared history. [recover] then sets [truncated_to] to the smallest
    of its own end, the leader's end and the start of the leader's next epoch (if there is one),
    reports as discarded exactly the records between that offset and its own end, and never a
    negative number; the replica may serve exactly when the offset is not negative. *)
Theorem recover_shared_history p (leader_epochs : list EpochMarker.t) leader_end rest
    (Hdistinct : NoDup (EpochMarker.epoch <$> leader_epochs))
    (Hprefix : py_sorted EpochMarker.le leader_epochs
               = py_sorted EpochMarker.le (local_epochs p) ++ rest)
    (Hsome : local_epochs p ≠ []) :
  let p' := (recover leader_epochs leader_end p).1 in
  let next_start := match rest with
                    | next :: _ => EpochMarker.start_offset next
                    | [] => local_end p
                    end in
  truncated_to p' = Z.min (local_end p) (Z.min leader_end next_start)
  ∧ discarded p' = local_end p - truncated_to p' ∧ 0 <= discarded p'
  ∧ may_serve p' = (0 <=? truncated_to p')
  ∧ is_ok (recover leader_epochs leader_end p).2 = true.
Proof.
  unfold recover. rewrite bind_get, bind_put, bind_get, run_if. simpl.
  assert (diverge_point p leader_epochs
          = match rest with next :: _ => EpochMarker.start_offset next | [] => local_end p end)
    as ->.
  { unfold diverge_point. rewrite (diverge_loop_shared _ _ rest []) by done.
    destruct (py_sorted EpochMarker.le (local_epochs p)) eqn:E; [|done].
    by apply py_sorted_nil in E. }
  bool_split; simpl; unfold may_serve; simpl; rewrite andb_true_r; split_and!; lia || done.
Qed.

Lemma recover_shared_history_witness :
  let local := [EpochMarker.mk 0 0; EpochMarker.mk 2 30] in
  let leader := [EpochMarker.mk 5 50; EpochMarker.mk 2 30; EpochMarker.mk 0 0] in
  let p' := (recover leader 80 (new 60 local)).1 in
  truncated_to p' = 50 ∧ discarded p' = 10.
Proof.
  intros local leader p'.
  assert (NoDup (EpochMarker.epoch <$> leader)) as Hnd
    by (apply (bool_decide_unpack _); vm_compute; exact I).
  assert (py_sorted EpochMarker.le leader
          = py_sorted EpochMarker.le (local_epochs (new 60 local)) ++ [EpochMarker.mk 5 50]) as Hp
    by (vm_compute; reflexivity).
  assert (local_epochs (new 60 local) ≠ []) as Hn by discriminate.
  destruct (recover_shared_history (new 60 local) leader 80 [EpochMarker.mk 5 50] Hnd Hp Hn)
    as (Ht & Hd & _).
  split; [exact Ht|refine (eq_trans Hd _); vm_compute; reflexivity].
Defined.

(** When the local log left the agreed epoch before the leader did, the divergent records are
    kept: the local log's epoch 1 starts at 30, the leader never had an epoch 1, and recovery
    still keeps the whole of a log that ends at 45. *)
Lemma recover_keeps_divergence :
  let local := [EpochMarker.mk 0 0; EpochMarker.mk 1 30] in
  let leader := [EpochMarker.mk 0 0; EpochMarker.mk 2 50] in
  truncated_to (recover leader 90 (new 45 local)).1 = 45
  ∧ discarded (recover leader 90 (new 45 local)).1 = 0.
Proof. vm_compute. done. Qed.
End recovery_proofs.

Section truncation_proofs.
Import LogTruncation.

(** Also (safety): the high watermark survives truncation. On a log accepted by the constructor, any
    sequence of [truncate_to] calls leaves the log start and the high watermark where they were,
    never extends the log and never cuts it below the high watermark; a single call either refuses
    with [Invalid], changing nothing, exactly for a target below the high watermark, or removes
    exactly the records from the target to the end (none when the target is past the end) and
    returns their number. *)
Theorem truncation_respects_watermark start hw e l (targets : list Z) target
    (Hmake : make start hw e = Ok l) :
  let l' := run (λ o, state_of (truncate_to o)) targets l in
  log_start l' = start ∧ high_watermark l' = hw ∧ hw <= log_end l' <= e
  ∧ 0 <= uncommitted_tail l'
  ∧ truncate_to target l' =
      if target <? hw then (l', Err Invalid)
      else (LogTruncation.mk start hw (Z.min target (log_end l')),
            Ok (log_end l' - Z.min target (log_end l'))).
Proof.
  intros l'. unfold make in Hmake.
  destruct (Z.leb_spec start hw), (Z.leb_spec hw e); simplify_eq/=.
  assert (∀ o s, log_start s = start ∧ high_watermark s = hw ∧ hw <= log_end s <= e →
    truncate_to o s =
      if o <? hw then (s, Err Invalid)
      else (LogTruncation.mk start hw (Z.min o (log_end s)),
            Ok (log_end s - Z.min o (log_end s)))) as Hrun.
  { intros o [s1 s2 s3] Hs. simpl in Hs. destruct Hs as (-> & -> & ?).
    unfold truncate_to. act_simpl.
    destruct (Z.ltb_spec o hw); act_simpl; [done|].
    destruct (Z.ltb_spec o start); act_simpl; [lia|].
    destruct (Z.leb_spec s3 o); act_simpl; repeat f_equal; lia. }
  assert (log_start l' = start ∧ high_watermark l' = hw ∧ hw <= log_end l' <= e) as Hl'.
  { apply (run_invariant _ (λ s, log_start s = start ∧ high_watermark s = hw
                                 ∧ hw <= log_end s <= e)); [|simpl; lia].
    intros o s Hs. unfold state_of. rewrite Hrun by done.
    destruct (Z.ltb_spec o hw); simpl; [done|]. lia. }
  destruct Hl' as (? & ? & ?). unfold uncommitted_tail. split_and!; [lia..|]. by apply Hrun.
Qed.

Lemma truncation_respects_watermark_witness :
  let l' := run (λ o, state_of (truncate_to o)) [95; 80; 200; 92] (LogTruncation.mk 10 90 100) in
  log_end l' = 92 ∧ high_watermark l' = 90 ∧ 0 <= uncommitted_tail l'.
Proof.
  pose proof (truncation_respects_watermark 10 90 100 (LogTruncation.mk 10 90 100)
                [95; 80; 200; 92] 0 eq_refl) as (_ & Hhw & _ & Hu & _).
  split; [vm_compute; reflexivity|]. split; [exact Hhw|exact Hu].
Defined.

(** Also (safety): a diverged follower cannot resume until it truncated to the point it agrees with
    the leader. [truncation_point] is the smaller of the two ends and names a truncation exactly
    when the follower is ahead; [require_truncation] raises [Invalid] exactly in that case and
    then remembers the leader's end of the epoch, and from a guard that remembers a point
    [resolve] succeeds, clearing it, only for the truncation to that same point, which is the
    [truncation_point]; any other target raises [Invalid] and the guard keeps standing. *)
Theorem divergence_guard_protocol g epoch follower_end leader_epoch_end target :
  let point := (truncation_point epoch follower_end leader_epoch_end).1 in
  let '(g', r) := DivergenceGuard.require_truncation follower_end leader_epoch_end g in
  point = Z.min follower_end leader_epoch_end
  ∧ if follower_end <=? leader_epoch_end then r = Ok () ∧ g' = g ∧ point = follower_end
    else r = Err Invalid
         ∧ DivergenceGuard.diverged_past g' = Some point
         ∧ (DivergenceGuard.resolve target g').1
           = DivergenceGuard.mk (if target =? point then None else Some point)
         ∧ is_ok (DivergenceGuard.resolve target g').2 = (target =? point).
Proof.
  unfold truncation_point, DivergenceGuard.require_truncation.
  destruct (Z.leb_spec follower_end leader_epoch_end), (Z.ltb_spec leader_epoch_end follower_end);
    act_simpl; try lia.
  - split_and!; try done; lia.
  - split_and!; try done; try lia; unfold DivergenceGuard.resolve; act_simpl;
      by destruct (Z.eqb_spec target leader_epoch_end).
Qed.
End truncation_proofs.
