(* ===== verification/Idempotence.v ===== *)
(** * Producers: idempotence, fencing and snapshots

    [relay/idempotent.py], [relay/produceridempotence.py], [relay/zombiefence.py],
    [relay/txncoordinator.py] and [relay/producersnapshot.py].  The session a
    dictionary holds is the only reference to it the gate's methods use, so the
    in-place update of a session is an update of the dictionary. *)

From S2P Require Import Prelude PyDict PyBytes Replication.

(** ** Epoch fences

    What the components that fence by epoch promise to their callers: an epoch
    is current per identity, no call lowers it, and a call that carries a lower
    epoch is refused with [Fenced]. *)

Class EpochFence (S O : Type) := {
  fence_step : O → S → S;
  fence_epoch : string → S → option Z;
  (** the answer to a request of an identity at an epoch *)
  fence_check : string → Z → S → option exn;
}.
Class EpochFenceLaws (S O : Type) `{!EpochFence S O} : Prop := {
  fence_mono o k e s :
    fence_epoch k s = Some e → ∃ e', fence_epoch k (fence_step o s) = Some e' ∧ e <= e';
  fence_refuses k e cur s :
    fence_epoch k s = Some cur → (fence_check k e s = Some Fenced ↔ e < cur);
}.

Section fence.
Context {S O : Type} `{EpochFenceLaws S O}.

Lemma fence_run_mono (ops : list O) k e s :
  fence_epoch k s = Some e → ∃ e', fence_epoch k (run fence_step ops s) = Some e' ∧ e <= e'.
Proof.
  revert e s. induction ops as [|o ops IH]; simpl; intros e s He; [by exists e|].
  destruct (fence_mono o k e s He) as (e1 & He1 & ?).
  destruct (IH e1 _ He1) as (e2 & ? & ?). exists e2. split; [done|lia].
Qed.

(** A request that is fenced once is fenced for ever. *)
Lemma fence_stays (ops : list O) k e cur s :
  fence_epoch k s = Some cur → e < cur →
  fence_check k e (run fence_step ops s) = Some Fenced.
Proof.
  intros Hcur He. destruct (fence_run_mono ops k cur s Hcur) as (cur' & Hcur' & ?).
  apply (fence_refuses k e cur' _ Hcur'). lia.
Qed.
End fence.

Definition exn_of {A} (r : result A) : option exn :=
  match r with Ok _ => None | Err e => Some e end.

Module idempotent.
Module ProducerSession.
(** [relay/idempotent.py] class ProducerSession *)
Record t := mk {
  producer_id : string;
  epoch : Z;
  last_sequence : Z;
  accepted_offsets : gmap Z Z;
}.
End ProducerSession.

Module IdempotencyGate.
(** [relay/idempotent.py] class IdempotencyGate *)
Record t := mk {
  sessions : gmap string ProducerSession.t;
  duplicates_absorbed : Z;
}.
Definition new : t := mk ∅ 0.

(** [relay/idempotent.py] IdempotencyGate.open_session *)
Definition open_session (producer_id : string) (epoch : Z) : act t ProducerSession.t :=
  self ← get;
  let held := sessions self !! producer_id in
  raise_if match held with Some h => epoch <? ProducerSession.epoch h | None => false end Fenced;;
  let session := ProducerSession.mk producer_id epoch (-1) ∅ in
  put (mk (<[producer_id := session]> (sessions self)) (duplicates_absorbed self));;
  mret session.

(** [relay/idempotent.py] IdempotencyGate.admit *)
Definition admit_batch (producer_id : string) (epoch sequence assign_offset : Z) : act t string :=
  self ← get;
  match sessions self !! producer_id with
  | None => raise Invalid
  | Some session =>
      raise_if (epoch <? ProducerSession.epoch session) Fenced;;
      if sequence <=? ProducerSession.last_sequence session then
        match ProducerSession.accepted_offsets session !! sequence with
        | Some landed =>
            put (mk (sessions self) (duplicates_absorbed self + 1));;
            mret ("duplicate: sequence " +:+ zs sequence +:+ " already landed at offset "
                  +:+ zs landed +:+ ", answered with the original, not appended again")
        | None => raise Invalid
        end
      else
        raise_if (negb (sequence =? ProducerSession.last_sequence session + 1)) Invalid;;
        let session' :=
          ProducerSession.mk (ProducerSession.producer_id session)
            (ProducerSession.epoch session) sequence
            (<[sequence := assign_offset]> (ProducerSession.accepted_offsets session)) in
        put (mk (<[producer_id := session']> (sessions self)) (duplicates_absorbed self));;
        mret ("accepted sequence " +:+ zs sequence +:+ " at offset " +:+ zs assign_offset)
  end.

(** [relay/idempotent.py] IdempotencyGate.ledger *)
Definition ledger (self : t) : string :=
  zs (Z.of_nat (size (sessions self))) +:+ " session(s), " +:+ zs (duplicates_absorbed self)
  +:+ " duplicate(s) absorbed before they reached a consumer".
End IdempotencyGate.
End idempotent.
Import idempotent.

Module produceridempotence.
(** [relay/produceridempotence.py] class _State *)
Record _State := mk_state {
  epoch : Z;
  last_sequence : Z;
}.

Module ProducerIdempotence.
(** [relay/produceridempotence.py] class ProducerIdempotence *)
Record t := mk { _seen : gmap (string * Z) _State }.
Definition new : t := mk ∅.

(** [relay/produceridempotence.py] ProducerIdempotence.accept *)
Definition accept (producer_id : string) (partition e sequence : Z) : act t string :=
  self ← get;
  let key := (producer_id, partition) in
  match _seen self !! key with
  | None =>
      raise_if (negb (sequence =? 0)) Invalid;;
      put (mk (<[key := mk_state e 0]> (_seen self)));;
      mret "accepted (first batch)"
  | Some state =>
      raise_if (e <? epoch state) Fenced;;
      if epoch state <? e then
        put (mk (<[key := mk_state e sequence]> (_seen self)));;
        mret "accepted (new epoch)"
      else
        let expected := last_sequence state + 1 in
        if sequence =? expected then
          put (mk (<[key := mk_state (epoch state) sequence]> (_seen self)));;
          mret "accepted"
        else if sequence <=? last_sequence state then
          mret "duplicate (already written; the retry is harmless)"
        else raise Invalid
  end.

(** [relay/produceridempotence.py] ProducerIdempotence.high_sequence *)
Definition high_sequence (self : t) (producer_id : string) (partition : Z) : result Z :=
  match _seen self !! (producer_id, partition) with
  | None => Err Invalid
  | Some state => Ok (last_sequence state)
  end.

(** [relay/produceridempotence.py] ProducerIdempotence.note *)
Definition note (self : t) : string :=
  "tracking " +:+ zs (Z.of_nat (size (_seen self))) +:+ " producer/partition pair(s); this state "
  +:+ "is what the broker keeps in memory per active producer, a producer "
  +:+ "that never expires is state that never frees".
End ProducerIdempotence.
End produceridempotence.
Import produceridempotence.

Module producersnapshot.
Module ProducerEntry.
(** [relay/producersnapshot.py] class ProducerEntry *)
Record t := mk {
  producer_id : Z;
  last_seq : Z;
  open_txn_first_offset : Z;
}.
End ProducerEntry.

Module ProducerSnapshot.
(** [relay/producersnapshot.py] class ProducerSnapshot *)
Record t := mk {
  offset : Z;
  entries : list ProducerEntry.t;
}.
(** [relay/producersnapshot.py] ProducerSnapshot.__post_init__ *)
Definition make (offset : Z) (entries : list ProducerEntry.t) : result t :=
  if offset <? 0 then Err Invalid else Ok (mk offset entries).
End ProducerSnapshot.

Module SnapshotLoader.
(** [relay/producersnapshot.py] class SnapshotLoader *)
Record t := mk {
  recovered_log_end : Z;
  state : pydict Z ProducerEntry.t;
  loaded_from : Z;
}.
Definition new (recovered_log_end : Z) : t := mk recovered_log_end [] (-1).

Definition load_entries (entries : list ProducerEntry.t) (d : pydict Z ProducerEntry.t) :
    pydict Z ProducerEntry.t :=
  foldl (λ d entry, d_set d (ProducerEntry.producer_id entry) entry) d entries.

(** [relay/producersnapshot.py] SnapshotLoader.load *)
Definition load (snapshot : ProducerSnapshot.t) : act t string :=
  self ← get;
  raise_if (recovered_log_end self <? ProducerSnapshot.offset snapshot) Invalid;;
  raise_if (ProducerSnapshot.offset snapshot <? loaded_from self) Invalid;;
  put (mk (recovered_log_end self) (load_entries (ProducerSnapshot.entries snapshot) (state self))
          (ProducerSnapshot.offset snapshot));;
  mret ("loaded " +:+ zs (zlen (ProducerSnapshot.entries snapshot)) +:+ " producer(s) at "
        +:+ zs (ProducerSnapshot.offset snapshot)).

(** [relay/producersnapshot.py] SnapshotLoader.tail_to_replay *)
Definition tail_to_replay (self : t) : Z :=
  if loaded_from self <? 0 then recovered_log_end self
  else recovered_log_end self - loaded_from self.

(** [relay/producersnapshot.py] SnapshotLoader.open_transactions *)
Definition open_transactions (self : t) : list Z :=
  ProducerEntry.producer_id <$>
    filter (λ e, 0 <= ProducerEntry.open_txn_first_offset e) (d_values (state self)).

(** [relay/producersnapshot.py] SnapshotLoader.savings *)
Definition savings (self : t) : string :=
  "replaying a tail of " +:+ zs (tail_to_replay self) +:+ " record(s) instead of the whole "
  +:+ zs (recovered_log_end self) +:+ "; a snapshot taken too rarely leaves a long tail and "
  +:+ "recovery is slow again".
End SnapshotLoader.
End producersnapshot.
Import producersnapshot.

Module zombiefence.
Module TransactionalIdFencer.
(** [relay/zombiefence.py] class TransactionalIdFencer *)
Record t := mk {
  epochs : gmap string Z;
  fenced_writes : Z;
  fenced_commits : Z;
}.
Definition new : t := mk ∅ 0 0.

(** [relay/zombiefence.py] TransactionalIdFencer.initialize *)
Definition initialize (txn_id : string) : act t Z :=
  self ← get;
  let current := default 0 (epochs self !! txn_id) in
  let new_epoch := current + 1 in
  put (mk (<[txn_id := new_epoch]> (epochs self)) (fenced_writes self) (fenced_commits self));;
  mret new_epoch.

(** [relay/zombiefence.py] TransactionalIdFencer._check *)
Definition _check (self : t) (txn_id : string) (epoch : Z) : result unit :=
  match epochs self !! txn_id with
  | None => Err Invalid
  | Some current => if epoch <? current then Err Fenced else Ok ()
  end.

(** [relay/zombiefence.py] TransactionalIdFencer.guard_write *)
Definition guard_write (txn_id : string) (epoch : Z) : act t string :=
  self ← get;
  match _check self txn_id epoch with
  | Err Fenced =>
      put (mk (epochs self) (fenced_writes self + 1) (fenced_commits self));;
      raise Fenced
  | Err e => raise e
  | Ok _ => mret ("write accepted for " +:+ txn_id +:+ " at epoch " +:+ zs epoch)
  end.

(** [relay/zombiefence.py] TransactionalIdFencer.guard_commit *)
Definition guard_commit (txn_id : string) (epoch : Z) : act t string :=
  self ← get;
  match _check self txn_id epoch with
  | Err Fenced =>
      put (mk (epochs self) (fenced_writes self) (fenced_commits self + 1));;
      raise Fenced
  | Err e => raise e
  | Ok _ => mret ("commit accepted for " +:+ txn_id +:+ " at epoch " +:+ zs epoch)
  end.

(** [relay/zombiefence.py] TransactionalIdFencer.report *)
Definition report (self : t) : string :=
  zs (fenced_writes self) +:+ " write(s) and " +:+ zs (fenced_commits self)
  +:+ " commit(s) fenced; the commit guard matters because a superseded producer's commit "
  +:+ "would make durable the records the fence rejects".
End TransactionalIdFencer.
End zombiefence.
Import zombiefence.

Module txncoordinator.
Module ProducerTxnState.
(** [relay/txncoordinator.py] class ProducerTxnState *)
Record t := mk {
  transactional_id : string;
  epoch : Z;
  open_txn : bool;
}.
Definition set_open (b : bool) (self : t) : t := mk (transactional_id self) (epoch self) b.
End ProducerTxnState.

Module TransactionCoordinator.
(** [relay/txncoordinator.py] class TransactionCoordinator *)
Record t := mk {
  producers : gmap string ProducerTxnState.t;
  zombies_fenced : Z;
}.
Definition new : t := mk ∅ 0.
Definition set_producer (id : string) (p : ProducerTxnState.t) (self : t) : t :=
  mk (<[id := p]> (producers self)) (zombies_fenced self).

(** [relay/txncoordinator.py] TransactionCoordinator.register *)
Definition register (transactional_id : string) : act t Z :=
  self ← get;
  match producers self !! transactional_id with
  | None =>
      modify (set_producer transactional_id (ProducerTxnState.mk transactional_id 0 false));;
      mret 0
  | Some held =>
      let held := ProducerTxnState.mk (ProducerTxnState.transactional_id held)
                    (ProducerTxnState.epoch held + 1) false in
      modify (set_producer transactional_id held);;
      mret (ProducerTxnState.epoch held)
  end.

(** [relay/txncoordinator.py] TransactionCoordinator._live *)
Definition _live (transactional_id : string) (epoch : Z) : act t ProducerTxnState.t :=
  self ← get;
  match producers self !! transactional_id with
  | None => raise Invalid
  | Some state =>
      if epoch <? ProducerTxnState.epoch state then
        put (mk (producers self) (zombies_fenced self + 1));;
        raise Fenced
      else mret state
  end.

(** [relay/txncoordinator.py] TransactionCoordinator.begin *)
Definition begin (transactional_id : string) (epoch : Z) : act t string :=
  state ← _live transactional_id epoch;
  raise_if (ProducerTxnState.open_txn state) Invalid;;
  modify (set_producer transactional_id (ProducerTxnState.set_open true state));;
  mret (transactional_id +:+ " began a transaction at epoch " +:+ zs epoch).

(** [relay/txncoordinator.py] TransactionCoordinator.complete *)
Definition complete (transactional_id : string) (epoch : Z) (commit : bool) : act t string :=
  state ← _live transactional_id epoch;
  raise_if (negb (ProducerTxnState.open_txn state)) Invalid;;
  modify (set_producer transactional_id (ProducerTxnState.set_open false state));;
  let verb := if commit then "committed" else "aborted" in
  mret (transactional_id +:+ " " +:+ verb +:+ " at epoch " +:+ zs epoch).

(** [relay/txncoordinator.py] TransactionCoordinator.timeout_abort *)
Definition timeout_abort (transactional_id : string) : act t string :=
  self ← get;
  match producers self !! transactional_id with
  | None => raise Invalid
  | Some state =>
      raise_if (negb (ProducerTxnState.open_txn state)) Invalid;;
      let state := ProducerTxnState.mk (ProducerTxnState.transactional_id state)
                     (ProducerTxnState.epoch state + 1) false in
      modify (set_producer transactional_id state);;
      mret (transactional_id +:+ " timed out, aborted, epoch bumped to "
            +:+ zs (ProducerTxnState.epoch state)
            +:+ "; the next attempt starts clean and the timed-out records never resurrect")
  end.
End TransactionCoordinator.
End txncoordinator.
Import txncoordinator.

(** ** The idempotency gate: every sequence lands once *)

Section gate_proofs.
Import IdempotencyGate.
Implicit Types (g : IdempotencyGate.t).

Inductive gate_op :=
  | Open (producer_id : string) (epoch : Z)
  | Admit (producer_id : string) (epoch sequence assign_offset : Z).

Definition gate_step (o : gate_op) : t → t :=
  match o with
  | Open pid e => state_of (open_session pid e)
  | Admit pid e q off => state_of (admit_batch pid e q off)
  end.

Definition accepted_msg (q off : Z) : string :=
  "accepted sequence " +:+ zs q +:+ " at offset " +:+ zs off.
Definition duplicate_msg (q off : Z) : string :=
  "duplicate: sequence " +:+ zs q +:+ " already landed at offset " +:+ zs off
  +:+ ", answered with the original, not appended again".

(** The (sequence, offset) pairs a producer was told were accepted. *)
Definition newly_accepted (pid : string) (o : gate_op) g : list (Z * Z) :=
  match o with
  | Admit pid' e q off =>
      if bool_decide (pid' = pid)
         && bool_decide (value_of (admit_batch pid' e q off) g = Ok (accepted_msg q off))
      then [(q, off)] else []
  | Open _ _ => []
  end.
Fixpoint accepted (pid : string) (ops : list gate_op) g : list (Z * Z) :=
  match ops with
  | [] => []
  | o :: ops' => newly_accepted pid o g ++ accepted pid ops' (gate_step o g)
  end.

Lemma admit_batch_run pid e q off g :
  admit_batch pid e q off g =
    match sessions g !! pid with
    | None => (g, Err Invalid)
    | Some s =>
        if e <? ProducerSession.epoch s then (g, Err Fenced)
        else if q <=? ProducerSession.last_sequence s then
          match ProducerSession.accepted_offsets s !! q with
          | Some landed => (mk (sessions g) (duplicates_absorbed g + 1), Ok (duplicate_msg q landed))
          | None => (g, Err Invalid)
          end
        else if q =? ProducerSession.last_sequence s + 1 then
          (mk (<[pid := ProducerSession.mk (ProducerSession.producer_id s)
                          (ProducerSession.epoch s) q
                          (<[q := off]> (ProducerSession.accepted_offsets s))]> (sessions g))
              (duplicates_absorbed g), Ok (accepted_msg q off))
        else (g, Err Invalid)
    end.
Proof.
  unfold admit_batch. rewrite bind_get. destruct (sessions g !! pid) as [s|]; [|done].
  rewrite bind_raise_if. destruct (e <? _); [done|].
  destruct (q <=? _); [by destruct (ProducerSession.accepted_offsets s !! q)|].
  rewrite bind_raise_if. by destruct (q =? _).
Qed.

(** What a session remembers of its accepted batches. *)
Definition remembers (pid : string) (e : Z) (acc : list (Z * Z)) g : Prop :=
  ∃ s, sessions g !! pid = Some s
       ∧ ProducerSession.epoch s = e
       ∧ ProducerSession.last_sequence s = zlen acc - 1
       ∧ acc.*1 = seqZ 0 (zlen acc)
       ∧ ∀ q off, ProducerSession.accepted_offsets s !! q = Some off ↔ (q, off) ∈ acc.

Definition keeps_session (pid : string) (o : gate_op) : Prop :=
  match o with Open pid' _ => pid' ≠ pid | Admit _ _ _ _ => True end.

Lemma duplicate_not_accepted q off q' off' :
  @Ok string (duplicate_msg q off) ≠ Ok (accepted_msg q' off').
Proof. intros [= Heq]. Qed.

Lemma seqZ_bounds (acc : list (Z * Z)) q off :
  acc.*1 = seqZ 0 (zlen acc) → (q, off) ∈ acc → 0 <= q < zlen acc.
Proof.
  intros Hseq Hin. assert (q ∈ seqZ 0 (zlen acc)) as Hq.
  { rewrite <-Hseq. by apply (list_elem_of_fmap_2 fst _ (q, off)). }
  apply elem_of_seqZ in Hq. lia.
Qed.

Lemma remembers_snoc pid e acc g s off :
  sessions g !! pid = Some s → remembers pid e acc g →
  remembers pid e (acc ++ [(ProducerSession.last_sequence s + 1, off)])
    (mk (<[pid := ProducerSession.mk (ProducerSession.producer_id s) (ProducerSession.epoch s)
                    (ProducerSession.last_sequence s + 1)
                    (<[ProducerSession.last_sequence s + 1 := off]>
                       (ProducerSession.accepted_offsets s))]> (sessions g))
        (duplicates_absorbed g)).
Proof.
  intros Hs (s' & Hs' & He & Hlast & Hseq & Hoffs). rewrite Hs in Hs'. injection Hs' as <-.
  eexists. split; [apply lookup_insert_eq|]. simpl.
  rewrite zlen_app, Hlast. split_and!; [done|unfold zlen; simpl; lia| |].
  - rewrite fmap_app, Hseq. change (zlen [(zlen acc - 1 + 1, off)]) with 1.
    rewrite seqZ_app by (pose proof (zlen_nonneg acc); lia). f_equal.
    rewrite seqZ_cons by lia. cbn [fmap list_fmap fst]. f_equal. lia.
  - intros q off'. rewrite elem_of_app, list_elem_of_singleton.
    destruct (decide (q = zlen acc - 1 + 1)) as [->|Hne].
    + rewrite lookup_insert_eq. split; [intros [= ->]; by right|].
      intros [Hin|[= ->]]; [|done]. apply (seqZ_bounds _ _ _ Hseq) in Hin. lia.
    + rewrite lookup_insert_ne by done. rewrite Hoffs. split; [by left|].
      intros [?|[= ? ?]]; [done|lia].
Qed.

Lemma remembers_step pid e acc o g :
  keeps_session pid o → remembers pid e acc g →
  remembers pid e (acc ++ newly_accepted pid o g) (gate_step o g).
Proof.
  intros Hkeep Hr. assert (Hr' := Hr). destruct Hr' as (s & Hs & He & Hrest).
  destruct o as [pid' e'|pid' e' q off]; cbn [newly_accepted gate_step].
  - rewrite app_nil_r. unfold state_of, open_session. rewrite bind_get, bind_raise_if.
    destruct (match sessions g !! pid' with Some _ => _ | None => _ end); [done|]. act_simpl.
    exists s. simpl. by rewrite lookup_insert_ne.
  - unfold value_of, state_of. rewrite admit_batch_run.
    destruct (decide (pid' = pid)) as [->|Hne].
    + rewrite Hs, bool_decide_eq_true_2 by done.
      destruct (e' <? _); [by rewrite bool_decide_eq_false_2, app_nil_r|]. destruct (Z.leb_spec q (ProducerSession.last_sequence s)).
      * destruct (ProducerSession.accepted_offsets s !! q) as [landed|]; cbn [fst snd andb];
          rewrite bool_decide_eq_false_2, app_nil_r; [exact Hr| |exact Hr|done].
        apply duplicate_not_accepted.
      * destruct (Z.eqb_spec q (ProducerSession.last_sequence s + 1)) as [->|];
          cbn [fst snd andb]; [|rewrite bool_decide_eq_false_2, app_nil_r; done].
        cbn [fst snd andb]. rewrite bool_decide_eq_true_2 by done. by apply remembers_snoc.
    + rewrite (bool_decide_eq_false_2 (pid' = pid)), app_nil_r by done.
      exists s. split; [|done].
      destruct (sessions g !! pid') as [s'|]; [|done].
      destruct (e' <? _); [done|]. destruct (q <=? _);
        [by destruct (ProducerSession.accepted_offsets s' !! q)|].
      destruct (q =? _); [|done]. cbn [fst sessions]. by rewrite lookup_insert_ne.
Qed.

Lemma remembers_run pid e ops acc g :
  Forall (keeps_session pid) ops → remembers pid e acc g →
  remembers pid e (acc ++ accepted pid ops g) (run gate_step ops g).
Proof.
  intros Hops. revert acc g. induction Hops as [|o ops Ho Hops IH]; simpl; intros acc g Hr.
  - by rewrite app_nil_r.
  - rewrite app_assoc. by apply IH, remembers_step.
Qed.

(** C3 (safety): within a session every sequence lands exactly once and in order. After a
    successful [open_session], whatever any producers send and however often they retry, the
    batches of this producer the gate accepts carry the sequences 0, 1, 2, ... with no gap and no
    repetition; a retry of any accepted sequence (at the session's epoch or above) is answered
    with the offset it first landed at and only counted; the next sequence is accepted; a later
    one, or a negative one, is refused with [Invalid] and a lower epoch with [Fenced], leaving the
    gate unchanged. *)
Theorem gate_lands_once pid e g g0 session (ops : list gate_op)
    (Hopen : open_session pid e g = (g0, Ok session))
    (Hops : Forall (keeps_session pid) ops) :
  let g' := run gate_step ops g0 in
  let acc := accepted pid ops g0 in
  acc.*1 = seqZ 0 (zlen acc)
  ∧ (∀ e' q off, e <= e' →
       (∀ landed, (q, landed) ∈ acc →
          admit_batch pid e' q off g'
          = (mk (sessions g') (duplicates_absorbed g' + 1), Ok (duplicate_msg q landed)))
       ∧ (q = zlen acc → value_of (admit_batch pid e' q off) g' = Ok (accepted_msg q off))
       ∧ (q < 0 ∨ zlen acc < q → admit_batch pid e' q off g' = (g', Err Invalid)))
  ∧ ∀ e' q off, e' < e → admit_batch pid e' q off g' = (g', Err Fenced).
Proof.
  assert (remembers pid e [] g0) as Hr0.
  { unfold open_session in Hopen. rewrite bind_get, bind_raise_if in Hopen.
    destruct (match sessions g !! pid with Some _ => _ | None => _ end); [done|].
    act_simpl in Hopen. injection Hopen as <- <-. eexists.
    split; [apply lookup_insert_eq|]. split_and!; [done..|].
    intros q off. simpl. rewrite lookup_empty. split; [done|by intros ?%elem_of_nil]. }
  pose proof (remembers_run pid e ops [] g0 Hops Hr0) as (s & Hs & <- & Hlast & Hseq & Hoffs).
  rewrite app_nil_l in Hlast, Hseq, Hoffs. intros g' acc. fold g' in Hs. fold acc in Hlast, Hseq, Hoffs.
  split; [done|]. split.
  - intros e' q off He'. rewrite !admit_batch_run. unfold value_of.
    setoid_rewrite admit_batch_run. rewrite Hs. 
    destruct (Z.ltb_spec e' (ProducerSession.epoch s)); [lia|]. rewrite Hlast. split_and!.
    + intros landed Hin. pose proof (seqZ_bounds _ _ _ Hseq Hin).
      destruct (Z.leb_spec q (zlen acc - 1)); [|lia].
      by rewrite (proj2 (Hoffs q landed) Hin).
    + intros ->. destruct (Z.leb_spec (zlen acc) (zlen acc - 1)); [lia|].
      destruct (Z.eqb_spec (zlen acc) (zlen acc - 1 + 1)); [done|lia].
    + intros Hq. pose proof (zlen_nonneg acc). destruct (Z.leb_spec q (zlen acc - 1)).
      * destruct (ProducerSession.accepted_offsets s !! q) as [landed|] eqn:Hl; [|done].
        apply Hoffs, (seqZ_bounds _ _ _ Hseq) in Hl. lia.
      * destruct (Z.eqb_spec q (zlen acc - 1 + 1)); [lia|done].
  - intros e' q off He'. rewrite admit_batch_run, Hs.
    by destruct (Z.ltb_spec e' (ProducerSession.epoch s)); [|lia].
Qed.

Lemma gate_lands_once_witness :
  let ops := [Admit "p" 1 0 100; Admit "p" 1 0 101; Open "q" 3; Admit "p" 1 2 102;
              Admit "p" 2 1 103; Admit "q" 3 0 104] in
  let g0 := state_of (open_session "p" 1) new in
  (accepted "p" ops g0).*1 = [0; 1]
  ∧ admit_batch "p" 0 2 200 (run gate_step ops g0) = (run gate_step ops g0, Err Fenced).
Proof.
  intros ops g0.
  assert (open_session "p" 1 new = (g0, Ok (ProducerSession.mk "p" 1 (-1) ∅))) as Hopen
    by reflexivity.
  assert (Forall (keeps_session "p") ops) as Hops by (repeat constructor; discriminate).
  destruct (gate_lands_once "p" 1 new g0 _ ops Hopen Hops) as (Hseq & _ & Hfence).
  split; [refine (eq_trans Hseq _); vm_compute; reflexivity|apply Hfence; reflexivity].
Defined.

(** Opening the same epoch again forgets what the session accepted, so a retry then lands twice. *)
Lemma reopen_forgets :
  let g := run gate_step [Open "p" 1; Admit "p" 1 0 100; Open "p" 1] new in
  value_of (admit_batch "p" 1 0 101) g = Ok (accepted_msg 0 101).
Proof. vm_compute. reflexivity. Qed.
End gate_proofs.

(** ** Sequences per producer, partition and epoch *)

Section accept_proofs.
Import ProducerIdempotence.
Implicit Types (p : ProducerIdempotence.t).

Record accept_op := AcceptOp {
  op_producer : string;
  op_partition : Z;
  op_epoch : Z;
  op_sequence : Z;
}.
Definition op_run (o : accept_op) : act t string :=
  accept (op_producer o) (op_partition o) (op_epoch o) (op_sequence o).
Definition accept_step (o : accept_op) : t → t := state_of (op_run o).

(** the answers that acknowledge a new batch *)
Definition accept_answers : list string :=
  ["accepted (first batch)"; "accepted (new epoch)"; "accepted"].
Definition is_new (r : result string) : bool :=
  match r with Ok m => bool_decide (m ∈ accept_answers) | Err _ => false end.

(** The (epoch, sequence) pairs newly accepted for one producer and partition. *)
Fixpoint written (key : string * Z) (ops : list accept_op) p : list (Z * Z) :=
  match ops with
  | [] => []
  | o :: ops' =>
      (if bool_decide ((op_producer o, op_partition o) = key) && is_new (value_of (op_run o) p)
       then [(op_epoch o, op_sequence o)] else [])
      ++ written key ops' (accept_step o p)
  end.

(** The successor relation of accepted batches. *)
Definition follows (b1 b2 : Z * Z) : Prop :=
  b1.1 < b2.1 ∨ b1.1 = b2.1 ∧ b2.2 = b1.2 + 1.
Definition lex_lt (b1 b2 : Z * Z) : Prop := b1.1 < b2.1 ∨ b1.1 = b2.1 ∧ b1.2 < b2.2.

Definition last_written (acc : list (Z * Z)) : option _State :=
  match last acc with Some (e, q) => Some (mk_state e q) | None => None end.

Definition tracks (key : string * Z) (acc : list (Z * Z)) p : Prop :=
  _seen p !! key = last_written acc
  ∧ Sorted follows acc
  ∧ match head acc with Some (_, q) => q = 0 | None => True end.

Lemma accept_run pid part e q p :
  accept pid part e q p =
    match _seen p !! (pid, part) with
    | None => if q =? 0 then (mk (<[(pid, part) := mk_state e 0]> (_seen p)),
                              Ok "accepted (first batch)")
              else (p, Err Invalid)
    | Some st =>
        if e <? epoch st then (p, Err Fenced)
        else if epoch st <? e then
          (mk (<[(pid, part) := mk_state e q]> (_seen p)), Ok "accepted (new epoch)")
        else if q =? last_sequence st + 1 then
          (mk (<[(pid, part) := mk_state (epoch st) q]> (_seen p)), Ok "accepted")
        else if q <=? last_sequence st then
          (p, Ok "duplicate (already written; the retry is harmless)")
        else (p, Err Invalid)
    end.
Proof.
  unfold accept. rewrite bind_get. destruct (_seen p !! (pid, part)) as [st|].
  - rewrite bind_raise_if. repeat (bool_split; act_simpl); done.
  - rewrite bind_raise_if. by destruct (q =? 0).
Qed.

Lemma Sorted_snoc {A} (R : relation A) l x :
  Sorted R l → match last l with Some y => R y x | None => True end → Sorted R (l ++ [x]).
Proof.
  induction 1 as [|y l Hl IH Hd]; intros Hx; simpl; [repeat constructor|].
  destruct l as [|z l]; [repeat constructor; exact Hx|].
  constructor; [by apply IH|]. inversion Hd; subst. by constructor.
Qed.

Lemma tracks_snoc pid part e q acc p :
  tracks (pid, part) acc p →
  match last acc with Some b => follows b (e, q) | None => q = 0 end →
  tracks (pid, part) (acc ++ [(e, q)]) (mk (<[(pid, part) := mk_state e q]> (_seen p))).
Proof.
  intros (_ & Hsort & Hhead) Hb. unfold tracks, last_written. rewrite last_snoc. simpl.
  split_and!; [apply lookup_insert_eq| |].
  - apply Sorted_snoc; [done|]. by destruct (last acc).
  - destruct acc as [|[e0 q0] acc]; [done|]. exact Hhead.
Qed.

Lemma tracks_step key acc o p :
  tracks key acc p →
  tracks key
    (acc ++ if bool_decide ((op_producer o, op_partition o) = key)
               && is_new (value_of (op_run o) p)
            then [(op_epoch o, op_sequence o)] else [])
    (accept_step o p).
Proof.
  destruct o as [pid part e q]. unfold accept_step, state_of, value_of, op_run. simpl.
  rewrite accept_run. intros Hp. destruct (decide ((pid, part) = key)) as [<-|Hne].
  - rewrite bool_decide_eq_true_2 by done. assert (Hp' := Hp). destruct Hp' as (Hseen & _ & _).
    rewrite Hseen. unfold last_written. destruct (last acc) as [[e0 q0]|] eqn:Hlast; simpl.
    + destruct (Z.ltb_spec e e0); [by rewrite app_nil_r|].
      destruct (Z.ltb_spec e0 e); [apply tracks_snoc; [done|]; rewrite Hlast; by left|].
      assert (e = e0) as -> by lia.
      destruct (Z.eqb_spec q (q0 + 1)) as [->|]; simpl.
      { apply tracks_snoc; [done|]. rewrite Hlast. by right. }
      destruct (q <=? q0); by rewrite app_nil_r.
    + destruct (Z.eqb_spec q 0) as [->|]; simpl; [|by rewrite app_nil_r].
      apply tracks_snoc; [done|]. by rewrite Hlast.
  - rewrite bool_decide_eq_false_2, app_nil_r by done. destruct Hp as (Hseen & ? & ?).
    split; [|done]. rewrite <-Hseen. destruct (_seen p !! (pid, part)) as [st|];
      repeat (bool_split; simpl); try done; by rewrite lookup_insert_ne.
Qed.

Lemma tracks_run key ops acc p :
  tracks key acc p → tracks key (acc ++ written key ops p) (run accept_step ops p).
Proof.
  revert acc p. induction ops as [|o ops IH]; simpl; intros acc p Hp.
  - by rewrite app_nil_r.
  - rewrite app_assoc. by apply IH, tracks_step.
Qed.

#[local] Instance lex_lt_trans : Transitive lex_lt.
Proof. intros [] [] []. unfold lex_lt. simpl. lia. Qed.

Lemma follows_sorted acc : Sorted follows acc → StronglySorted lex_lt acc.
Proof.
  intros Hs. apply Sorted_StronglySorted; [apply _|].
  induction Hs as [|x l Hl IH Hd]; constructor; [done|].
  destruct Hd as [|y l Hxy]; constructor. unfold follows, lex_lt in *. lia.
Qed.

(** Also (safety): no producer writes a batch twice or loses one within an epoch. Over any sequence
    of [accept] calls from any producers on any partitions, the batches newly accepted for one
    (producer, partition) are strictly increasing in (epoch, sequence), so none is accepted twice;
    the first has sequence 0 and each next one of the same epoch is the successor of the last;
    then [high_sequence] is the last accepted sequence, any sequence of the current epoch up to it
    is answered as a duplicate without a change of state, one past its successor is refused with
    [Invalid] and an older epoch with [Fenced]. *)
Theorem accept_no_duplicate_no_gap pid part (ops : list accept_op) :
  let p := run accept_step ops new in
  let acc := written (pid, part) ops new in
  StronglySorted lex_lt acc
  ∧ Sorted follows acc
  ∧ match head acc with Some (_, q) => q = 0 | None => True end
  ∧ match last acc with
    | None => high_sequence p pid part = Err Invalid
    | Some (e, q) =>
        high_sequence p pid part = Ok q
        ∧ (∀ q', q' <= q →
             accept pid part e q' p = (p, Ok "duplicate (already written; the retry is harmless)"))
        ∧ (∀ q', q + 1 < q' → accept pid part e q' p = (p, Err Invalid))
        ∧ ∀ e' q', e' < e → accept pid part e' q' p = (p, Err Fenced)
    end.
Proof.
  intros p acc. assert (tracks (pid, part) ([] ++ acc) p) as (Hseen & Hsort & Hhead).
  { apply tracks_run. split_and!; [reflexivity|constructor|done]. }
  simpl in *. split_and!; [by apply follows_sorted|done..|].
  unfold last_written in Hseen. unfold high_sequence. rewrite Hseen.
  destruct (last acc) as [[e q]|]; simpl; [|done]. split_and!; [done| | |].
  - intros q' Hq. rewrite accept_run, Hseen. simpl. rewrite Z.ltb_irrefl.
    destruct (Z.eqb_spec q' (q + 1)); [lia|]. by destruct (Z.leb_spec q' q); [|lia].
  - intros q' Hq. rewrite accept_run, Hseen. simpl. rewrite Z.ltb_irrefl.
    destruct (Z.eqb_spec q' (q + 1)); [lia|]. by destruct (Z.leb_spec q' q); [lia|].
  - intros e' q' He. rewrite accept_run, Hseen. simpl. by destruct (Z.ltb_spec e' e); [|lia].
Qed.

(** The first batch of a new epoch may carry any sequence: a restarted producer whose first batches
    were lost is not told so. *)
Lemma new_epoch_accepts_gap :
  value_of (accept "p" 0 2 7) (run accept_step [AcceptOp "p" 0 1 0] new) = Ok "accepted (new epoch)".
Proof. vm_compute. reflexivity. Qed.
End accept_proofs.

(** ** Fencing *)

Section fence_proofs.

Inductive fencer_op :=
  | Initialize (id : string)
  | GuardWrite (id : string) (epoch : Z)
  | GuardCommit (id : string) (epoch : Z).

Definition fencer_step (o : fencer_op) : TransactionalIdFencer.t → TransactionalIdFencer.t :=
  match o with
  | Initialize id => state_of (TransactionalIdFencer.initialize id)
  | GuardWrite id e => state_of (TransactionalIdFencer.guard_write id e)
  | GuardCommit id e => state_of (TransactionalIdFencer.guard_commit id e)
  end.

#[export] Instance fencer_fence : EpochFence TransactionalIdFencer.t fencer_op := {
  fence_step := fencer_step;
  fence_epoch id f := TransactionalIdFencer.epochs f !! id;
  fence_check id e f := exn_of (TransactionalIdFencer._check f id e);
}.
#[export] Instance fencer_fence_laws : EpochFenceLaws TransactionalIdFencer.t fencer_op.
Proof.
  split.
  - intros [id|id e|id e] k e0 f He; simpl in *; unfold state_of.
    + unfold TransactionalIdFencer.initialize. act_simpl.
      destruct (decide (k = id)) as [->|].
      * rewrite lookup_insert_eq, He. eexists. split; [done|]. simpl. lia.
      * rewrite lookup_insert_ne by done. by eexists.
    + unfold TransactionalIdFencer.guard_write. rewrite bind_get.
      destruct (TransactionalIdFencer._check f id e) as [|[]]; simpl; by eexists.
    + unfold TransactionalIdFencer.guard_commit. rewrite bind_get.
      destruct (TransactionalIdFencer._check f id e) as [|[]]; simpl; by eexists.
  - intros k e cur f Hcur. simpl in *. unfold TransactionalIdFencer._check. rewrite Hcur.
    destruct (Z.ltb_spec e cur); simpl; split; (done || lia).
Qed.

Inductive coordinator_op :=
  | Register (id : string)
  | Begin (id : string) (epoch : Z)
  | Complete (id : string) (epoch : Z) (commit : bool)
  | TimeoutAbort (id : string).

Definition coordinator_step (o : coordinator_op) :
    TransactionCoordinator.t → TransactionCoordinator.t :=
  match o with
  | Register id => state_of (TransactionCoordinator.register id)
  | Begin id e => state_of (TransactionCoordinator.begin id e)
  | Complete id e c => state_of (TransactionCoordinator.complete id e c)
  | TimeoutAbort id => state_of (TransactionCoordinator.timeout_abort id)
  end.

Definition coordinator_epoch (id : string) (c : TransactionCoordinator.t) : option Z :=
  ProducerTxnState.epoch <$> TransactionCoordinator.producers c !! id.

Lemma live_run id e c :
  TransactionCoordinator._live id e c =
    match TransactionCoordinator.producers c !! id with
    | None => (c, Err Invalid)
    | Some st =>
        if e <? ProducerTxnState.epoch st
        then (TransactionCoordinator.mk (TransactionCoordinator.producers c)
                (TransactionCoordinator.zombies_fenced c + 1), Err Fenced)
        else (c, Ok st)
    end.
Proof.
  unfold TransactionCoordinator._live. rewrite bind_get.
  destruct (_ !! id); [|done]. act_simpl. by bool_split.
Qed.

(** A request that passed the fence and then sets the open flag keeps every epoch. *)
Lemma set_open_epoch id b st c k :
  TransactionCoordinator.producers c !! id = Some st →
  coordinator_epoch k (TransactionCoordinator.set_producer id (ProducerTxnState.set_open b st) c)
  = coordinator_epoch k c.
Proof.
  intros Hst. unfold coordinator_epoch. simpl. destruct (decide (k = id)) as [->|].
  - by rewrite lookup_insert_eq, Hst.
  - by rewrite lookup_insert_ne.
Qed.

Lemma bump_epoch id st c k e0 :
  TransactionCoordinator.producers c !! id = Some st →
  coordinator_epoch k c = Some e0 →
  ∃ e', coordinator_epoch k
          (TransactionCoordinator.set_producer id
             (ProducerTxnState.mk (ProducerTxnState.transactional_id st)
                (ProducerTxnState.epoch st + 1) false) c) = Some e' ∧ e0 <= e'.
Proof.
  unfold coordinator_epoch. intros Hst He. simpl. destruct (decide (k = id)) as [->|].
  - rewrite Hst in He. simpl in He. injection He as <-.
    rewrite lookup_insert_eq. eexists. split; [done|]. simpl. lia.
  - rewrite lookup_insert_ne by done. by exists e0.
Qed.

#[export] Instance coordinator_fence : EpochFence TransactionCoordinator.t coordinator_op := {
  fence_step := coordinator_step;
  fence_epoch := coordinator_epoch;
  fence_check id e c := exn_of (value_of (TransactionCoordinator._live id e) c);
}.
#[export] Instance coordinator_fence_laws :
  EpochFenceLaws TransactionCoordinator.t coordinator_op.
Proof.
  split.
  - intros o k e0 c He. cbn [fence_epoch coordinator_fence fence_step] in *.
    destruct o as [id|id e|id e cm|id]; cbn [coordinator_step]; unfold state_of.
    + unfold TransactionCoordinator.register. rewrite bind_get.
      destruct (TransactionCoordinator.producers c !! id) as [st|] eqn:Hst; act_simpl.
      * by eapply bump_epoch.
      * exists e0. split; [|done]. revert He. unfold coordinator_epoch. simpl.
        destruct (decide (k = id)) as [->|]; [by rewrite Hst|by rewrite lookup_insert_ne].
    + unfold TransactionCoordinator.begin. rewrite bind_run, live_run.
      destruct (TransactionCoordinator.producers c !! id) as [st|] eqn:Hst; [|by exists e0].
      destruct (e <? _); [by exists e0|]. act_simpl. destruct (ProducerTxnState.open_txn st);
        act_simpl; exists e0; [done|]. by rewrite set_open_epoch.
    + unfold TransactionCoordinator.complete. rewrite bind_run, live_run.
      destruct (TransactionCoordinator.producers c !! id) as [st|] eqn:Hst; [|by exists e0].
      destruct (e <? _); [by exists e0|]. act_simpl. destruct (ProducerTxnState.open_txn st);
        act_simpl; exists e0; [|done]. by rewrite set_open_epoch.
    + unfold TransactionCoordinator.timeout_abort. rewrite bind_get.
      destruct (TransactionCoordinator.producers c !! id) as [st|] eqn:Hst; [|by exists e0].
      rewrite bind_raise_if. destruct (ProducerTxnState.open_txn st); act_simpl; [|by exists e0].
      by eapply bump_epoch.
  - intros k e cur c Hcur. simpl in *. unfold value_of, coordinator_epoch in *. rewrite live_run.
    destruct (TransactionCoordinator.producers c !! k) as [st|]; [|done]. simpl in *.
    injection Hcur as <-. destruct (Z.ltb_spec e (ProducerTxnState.epoch st)); simpl;
      split; (done || lia).
Qed.

Lemma exn_of_Fenced {A} (r : result A) : exn_of r = Some Fenced → r = Err Fenced.
Proof. destruct r; simpl; [done|congruence]. Qed.

(** The answer to a zombie: [Fenced], the zombie counted and every epoch as it was. *)
Definition zombie_answer (c : TransactionCoordinator.t) : TransactionCoordinator.t * result string :=
  (TransactionCoordinator.mk (TransactionCoordinator.producers c)
     (TransactionCoordinator.zombies_fenced c + 1), Err Fenced).
Definition refuses_zombie (id : string) (e : Z) (c : TransactionCoordinator.t) : Prop :=
  TransactionCoordinator.begin id e c = zombie_answer c
  ∧ ∀ commit, TransactionCoordinator.complete id e commit c = zombie_answer c.

Lemma epoch_refuses id ops e cur c :
  coordinator_epoch id c = Some cur → e < cur → refuses_zombie id e (run coordinator_step ops c).
Proof.
  intros Hcur He. set (c' := run coordinator_step ops c).
  pose proof (fence_stays (S:=TransactionCoordinator.t) ops id e cur c Hcur He) as Hf.
  apply exn_of_Fenced in Hf. unfold value_of in Hf.
  change (run fence_step ops c) with c' in Hf.
  assert (TransactionCoordinator._live id e c' = ((zombie_answer c').1, Err Fenced)) as Hl.
  { rewrite live_run in Hf |- *. destruct (_ !! id); [|done]. by destruct (e <? _). }
  split; [unfold TransactionCoordinator.begin|intros commit; unfold TransactionCoordinator.complete];
    by rewrite bind_run, Hl.
Qed.

Lemma register_epoch id c e :
  value_of (TransactionCoordinator.register id) c = Ok e →
  coordinator_epoch id (coordinator_step (Register id) c) = Some e.
Proof.
  unfold coordinator_epoch, coordinator_step, state_of, value_of, TransactionCoordinator.register.
  rewrite bind_get. destruct (TransactionCoordinator.producers c !! id); act_simpl;
    intros [= <-]; by rewrite lookup_insert_eq.
Qed.

Lemma timeout_epoch id c :
  is_ok (value_of (TransactionCoordinator.timeout_abort id) c) = true →
  ∃ old, coordinator_epoch id c = Some old
       ∧ coordinator_epoch id (coordinator_step (TimeoutAbort id) c) = Some (old + 1).
Proof.
  unfold coordinator_epoch, coordinator_step, state_of, value_of, TransactionCoordinator.timeout_abort.
  rewrite bind_get. destruct (TransactionCoordinator.producers c !! id) as [st|]; [|done].
  rewrite bind_raise_if. destruct (ProducerTxnState.open_txn st); [|done]. act_simpl. intros _.
  exists (ProducerTxnState.epoch st). by rewrite lookup_insert_eq.
Qed.

Lemma fencer_refuses id ops e cur f :
  TransactionalIdFencer.epochs f !! id = Some cur → e < cur →
  TransactionalIdFencer._check (run fencer_step ops f) id e = Err Fenced.
Proof.
  intros Hcur He. apply exn_of_Fenced.
  exact (fence_stays (S:=TransactionalIdFencer.t) ops id e cur f Hcur He).
Qed.

(** C5 (error): a zombie stays fenced. Once [TransactionalIdFencer.initialize] has handed out an
    epoch for a transactional id, whatever calls follow, a write and a commit at any lower epoch
    raise [Fenced], counting one fenced write or commit and changing no epoch; likewise once
    [TransactionCoordinator.register] has returned an epoch, [begin] and [complete] at any lower
    one raise [Fenced] and only count the zombie.  And once [timeout_abort] has aborted a transaction,
    they do so at every epoch up to the one then in force: a producer that uses the epoch its
    registration returned can never complete a transaction that timed out, nor begin another. *)
Theorem zombie_stays_fenced id :
  (∀ f ops e cur, value_of (TransactionalIdFencer.initialize id) f = Ok cur → e < cur →
     let f' := run fencer_step ops (state_of (TransactionalIdFencer.initialize id) f) in
     TransactionalIdFencer.guard_write id e f'
     = (TransactionalIdFencer.mk (TransactionalIdFencer.epochs f')
          (TransactionalIdFencer.fenced_writes f' + 1) (TransactionalIdFencer.fenced_commits f'),
        Err Fenced)
     ∧ TransactionalIdFencer.guard_commit id e f'
       = (TransactionalIdFencer.mk (TransactionalIdFencer.epochs f')
            (TransactionalIdFencer.fenced_writes f') (TransactionalIdFencer.fenced_commits f' + 1),
          Err Fenced))
  ∧ (∀ c ops e cur, value_of (TransactionCoordinator.register id) c = Ok cur → e < cur →
       refuses_zombie id e (run coordinator_step ops (coordinator_step (Register id) c)))
  ∧ (∀ c ops e old, is_ok (value_of (TransactionCoordinator.timeout_abort id) c) = true →
       coordinator_epoch id c = Some old → e <= old →
       refuses_zombie id e (run coordinator_step ops (coordinator_step (TimeoutAbort id) c)))
  ∧ (∀ c0 before after e, value_of (TransactionCoordinator.register id) c0 = Ok e →
       let c := run coordinator_step before (coordinator_step (Register id) c0) in
       is_ok (value_of (TransactionCoordinator.timeout_abort id) c) = true →
       refuses_zombie id e (run coordinator_step after (coordinator_step (TimeoutAbort id) c))).
Proof.
  split_and!.
  - intros f ops e cur Hcur He f'.
    assert (TransactionalIdFencer._check f' id e = Err Fenced) as Hf.
    { apply (fencer_refuses id ops e cur _); [|done].
      unfold value_of, state_of, TransactionalIdFencer.initialize in *. act_simpl.
      act_simpl in Hcur. injection Hcur as <-. apply lookup_insert_eq. }
    split; [unfold TransactionalIdFencer.guard_write|unfold TransactionalIdFencer.guard_commit];
      rewrite bind_get, Hf; done.
  - intros c ops e cur Hcur He. by eapply epoch_refuses; [apply register_epoch|].
  - intros c ops e old (old' & Hold & Hnew)%timeout_epoch Hcur He. simplify_eq.
    eapply epoch_refuses; [exact Hnew|lia].
  - intros c0 before after e He%register_epoch c (old & Hold & Hnew)%timeout_epoch.
    assert (∃ old', coordinator_epoch id c = Some old' ∧ e <= old') as (old' & Hold' & Hle)
      by exact (fence_run_mono (S:=TransactionCoordinator.t) before id e _ He).
    simplify_eq.
    eapply epoch_refuses; [exact Hnew|lia].
Qed.

(** The fence looks down only: an epoch that was never handed out passes it, and survives the bump of a
    timeout. *)
Lemma unissued_epoch_survives_timeout :
  value_of (TransactionCoordinator.complete "t" 7 true)
    (run coordinator_step [Register "t"; Begin "t" 7; TimeoutAbort "t"; Begin "t" 7] TransactionCoordinator.new)
  = Ok "t committed at epoch 7".
Proof. vm_compute. reflexivity. Qed.
End fence_proofs.

(** ** Producer snapshots *)

Section snapshot_proofs.
Import SnapshotLoader.

Lemma load_entries_get es d k :
  d_get (load_entries es d) k
  = match last (filter (λ e, ProducerEntry.producer_id e = k) es) with
    | Some e => Some e
    | None => d_get d k
    end.
Proof.
  revert d. induction es as [|e es IH] using rev_ind; intros d; [done|].
  unfold load_entries in *. rewrite foldl_app. simpl. rewrite filter_app, filter_cons, filter_nil.
  rewrite d_get_set. case_decide as Hk; simpl.
  - rewrite last_snoc. by rewrite bool_decide_eq_true_2.
  - rewrite app_nil_r, bool_decide_eq_false_2 by done. apply IH.
Qed.

Lemma load_run s l :
  load s l =
    if (recovered_log_end l <? ProducerSnapshot.offset s)
       || (ProducerSnapshot.offset s <? loaded_from l) then (l, Err Invalid)
    else (mk (recovered_log_end l) (load_entries (ProducerSnapshot.entries s) (state l))
            (ProducerSnapshot.offset s),
          Ok ("loaded " +:+ zs (zlen (ProducerSnapshot.entries s)) +:+ " producer(s) at "
              +:+ zs (ProducerSnapshot.offset s))).
Proof.
  unfold load. rewrite bind_get, !bind_raise_if.
  destruct (recovered_log_end l <? _); [done|]. by destruct (_ <? loaded_from l).
Qed.

Definition load_step (s : ProducerSnapshot.t) : t → t := state_of (load s).

(** Every snapshot offered is past the log end or not newer than the one loaded. *)
Definition settled (s : ProducerSnapshot.t) (l : t) : Prop :=
  recovered_log_end l < ProducerSnapshot.offset s ∨ ProducerSnapshot.offset s <= loaded_from l.

Lemma load_step_bounds s l :
  -1 <= loaded_from l <= recovered_log_end l →
  recovered_log_end (load_step s l) = recovered_log_end l
  ∧ loaded_from l <= loaded_from (load_step s l) <= recovered_log_end l
  ∧ settled s (load_step s l).
Proof.
  intros Hl. unfold load_step, state_of, settled. rewrite load_run.
  destruct (Z.ltb_spec (recovered_log_end l) (ProducerSnapshot.offset s)),
    (Z.ltb_spec (ProducerSnapshot.offset s) (loaded_from l)); simpl; lia.
Qed.

Lemma load_run_bounds ops l :
  -1 <= loaded_from l <= recovered_log_end l →
  let l' := run load_step ops l in
  recovered_log_end l' = recovered_log_end l
  ∧ loaded_from l <= loaded_from l' <= recovered_log_end l
  ∧ Forall (λ s, settled s l') ops.
Proof.
  revert l. induction ops as [|s ops IH]; simpl; intros l Hl; [split_and!; (lia || constructor)|].
  pose proof (load_step_bounds s l Hl) as (Hend & Hle & Hset).
  destruct (IH (load_step s l)) as (Hend' & Hle' & Hall); [lia|].
  split_and!; [congruence|lia|lia|]. constructor; [|done]. unfold settled in *. lia.
Qed.

(** Also (functional): restoring producer state from snapshots never goes back and never describes
    records the log lost. Over any sequence of [load] calls on a fresh loader the recovered log end
    is fixed, the offset loaded from never passes it, every snapshot offered was past the log end
    or is not newer than the one loaded, and the tail to replay lies between 0 and the whole log; a
    further [load] is refused with [Invalid], changing nothing, exactly when the snapshot is past
    the recovered end or older than the one loaded, and otherwise makes every producer's state its
    last entry in the snapshot, keeps the others and leaves the rest of the log to replay. *)
Theorem snapshot_load_spec log_end (ops : list ProducerSnapshot.t) offset entries snapshot
    (Hend : 0 <= log_end)
    (Hmake : ProducerSnapshot.make offset entries = Ok snapshot) :
  let l := run load_step ops (new log_end) in
  recovered_log_end l = log_end
  ∧ loaded_from l <= log_end ∧ Forall (λ s, settled s l) ops
  ∧ 0 <= tail_to_replay l <= log_end
  ∧ let '(l', r) := load snapshot l in
    if (log_end <? offset) || (offset <? loaded_from l) then l' = l ∧ r = Err Invalid
    else is_ok r = true ∧ loaded_from l' = offset ∧ tail_to_replay l' = log_end - offset
         ∧ ∀ k, d_get (state l') k
                = match last (filter (λ e, ProducerEntry.producer_id e = k) entries) with
                  | Some e => Some e
                  | None => d_get (state l) k
                  end.
Proof.
  intros l. unfold ProducerSnapshot.make in Hmake.
  destruct (Z.ltb_spec offset 0); [done|]. injection Hmake as <-.
  destruct (load_run_bounds ops (new log_end)) as (Hl & Hle & Hall); [simpl; lia|].
  fold l in Hl, Hle, Hall. simpl in Hl, Hle. split_and!; [done|lia|done| | |];
    try (unfold tail_to_replay; bool_split; lia).
  rewrite load_run, Hl. simpl. destruct ((log_end <? offset) || (offset <? loaded_from l)); [done|].
  split_and!; [done..| |].
  - unfold tail_to_replay. simpl. destruct (Z.ltb_spec offset 0); lia.
  - intros k. apply load_entries_get.
Qed.

Lemma snapshot_load_spec_witness :
  let e := ProducerEntry.mk 7 41 (-1) in
  let l := run load_step [ProducerSnapshot.mk 40 [e]; ProducerSnapshot.mk 200 []] (new 100) in
  loaded_from l <= 100
  ∧ 0 <= tail_to_replay l <= 100 ∧ tail_to_replay l = 60
  ∧ is_ok (load (ProducerSnapshot.mk 30 []) l).2 = false.
Proof.
  intros e l.
  destruct (snapshot_load_spec 100 [ProducerSnapshot.mk 40 [e]; ProducerSnapshot.mk 200 []] 30 []
              (ProducerSnapshot.mk 30 []) ltac:(lia) eq_refl) as (_ & Hle & _ & Htail & _).
  split; [exact Hle|]. split; [exact Htail|]. split; vm_compute; reflexivity.
Defined.
End snapshot_proofs.

Definition sample_fencer : TransactionalIdFencer.t :=
  state_of (TransactionalIdFencer.initialize "t") TransactionalIdFencer.new.

Lemma zombie_stays_fenced_witness :
  let f' := run fencer_step [GuardWrite "t" 1; Initialize "u"]
              (state_of (TransactionalIdFencer.initialize "t") sample_fencer) in
  let c := run coordinator_step [Begin "t" 0] (coordinator_step (Register "t") TransactionCoordinator.new) in
  let c' := run coordinator_step [Register "u"; Begin "t" 1] (coordinator_step (TimeoutAbort "t") c) in
  snd (TransactionalIdFencer.guard_commit "t" 1 f') = Err Fenced
  ∧ TransactionalIdFencer.fenced_writes f' = 1
  ∧ snd (TransactionCoordinator.complete "t" 0 true c') = Err Fenced
  ∧ snd (TransactionCoordinator.complete "t" 1 true c') = Ok "t committed at epoch 1".
Proof.
  intros f' c c'.
  assert (value_of (TransactionalIdFencer.initialize "t") sample_fencer = Ok 2) as Hinit
    by (vm_compute; reflexivity).
  assert (value_of (TransactionCoordinator.register "t") TransactionCoordinator.new = Ok 0) as Hreg
    by (vm_compute; reflexivity).
  assert (is_ok (value_of (TransactionCoordinator.timeout_abort "t") c) = true) as Hto
    by (vm_compute; reflexivity).
  destruct (zombie_stays_fenced "t") as (Hf & _ & _ & Ht).
  destruct (Hf sample_fencer [GuardWrite "t" 1; Initialize "u"] 1 2 Hinit eq_refl) as [_ Hc].
  destruct (Ht _ [Begin "t" 0] [Register "u"; Begin "t" 1] 0 Hreg Hto) as [_ Hz].
  split; [exact (f_equal snd Hc)|]. split; [vm_compute; reflexivity|].
  split; [exact (f_equal snd (Hz true))|vm_compute; reflexivity].
Defined.
