(* ===== verification/Transactions.v ===== *)
(** * Transactions and what a read-committed consumer sees

    [relay/transactions.py], [relay/laststableoffset.py], [relay/isolation.py],
    [relay/commitmarkers.py] and [relay/abortedindex.py]. *)

From S2P Require Import Prelude PyDict PyBytes PyFloat.

Module transactions.
(** [relay/transactions.py] OPEN *)
Definition OPEN : string := "open".
(** [relay/transactions.py] COMMITTING *)
Definition COMMITTING : string := "committing".
(** [relay/transactions.py] COMMITTED *)
Definition COMMITTED : string := "committed".
(** [relay/transactions.py] ABORTING *)
Definition ABORTING : string := "aborting".
(** [relay/transactions.py] ABORTED *)
Definition ABORTED : string := "aborted".

(** [relay/transactions.py] ALLOWED *)
Definition ALLOWED : pydict string (list string) :=
  [(OPEN, [COMMITTING; ABORTING]); (COMMITTING, [COMMITTED]); (ABORTING, [ABORTED]);
   (COMMITTED, []); (ABORTED, [])].

Module Transaction.
(** [relay/transactions.py] class Transaction *)
Record t := mk {
  txn_id : string;
  opened_at : Z;
  timeout : Z;
  state : string;
  partitions_touched : gset Z;
  records : list (Z * Z);
}.
Definition new (txn_id : string) (opened_at timeout : Z) : t :=
  mk txn_id opened_at timeout OPEN ∅ [].
Definition set_state (st : string) (self : t) : t :=
  mk (txn_id self) (opened_at self) (timeout self) st (partitions_touched self) (records self).

(** [relay/transactions.py] Transaction.append *)
Definition append (partition offset : Z) : act t unit :=
  self ← get;
  raise_if (negb (bool_decide (state self = OPEN))) Invalid;;
  put (mk (txn_id self) (opened_at self) (timeout self) (state self)
          ({[partition]} ∪ partitions_touched self) (records self ++ [(partition, offset)])).

(** [relay/transactions.py] Transaction._transition *)
Definition _transition (target : string) : act t unit :=
  self ← get;
  match d_get ALLOWED (state self) with
  | None => raise KeyError
  | Some targets =>
      raise_if (negb (bool_decide (target ∈ targets))) Invalid;;
      modify (set_state target)
  end.

(** [relay/transactions.py] Transaction.commit *)
Definition commit : act t string :=
  _transition COMMITTING;;
  _transition COMMITTED;;
  self ← get;
  mret (txn_id self +:+ " committed across "
        +:+ zs (Z.of_nat (size (partitions_touched self)))
        +:+ " partition(s); markers make the records visible together").

(** [relay/transactions.py] Transaction.abort *)
Definition abort : act t string :=
  _transition ABORTING;;
  _transition ABORTED;;
  self ← get;
  mret (txn_id self
        +:+ " aborted; its records stay durable but invisible to read-committed consumers").

(** [relay/transactions.py] Transaction.force_abort_if_expired *)
Definition force_abort_if_expired (now : Z) : act t (option string) :=
  self ← get;
  if bool_decide (state self = OPEN) && (timeout self <? now - opened_at self) then
    _ ← abort;
    self ← get;
    mret (Some (txn_id self +:+ " force-aborted after " +:+ zs (now - opened_at self)
                +:+ " ticks open; a zombie's records will not block read-committed consumers "
                +:+ "forever"))
  else mret None.
End Transaction.

(** [relay/transactions.py] visible_to_read_committed *)
Definition visible_to_read_committed (records : list (Z * Z * string)) : list (Z * Z) :=
  fst <$> filter (λ r, r.2 = COMMITTED) records.
End transactions.
Import transactions.

Module laststableoffset.
Module LastStableOffset.
(** [relay/laststableoffset.py] class LastStableOffset *)
Record t := mk {
  high_watermark : Z;
  open_transactions : pydict string Z;
}.

(** [relay/laststableoffset.py] LastStableOffset.begin *)
Definition begin (txn_id : string) (first_offset : Z) : act t unit :=
  self ← get;
  raise_if (high_watermark self <? first_offset) Invalid;;
  put (mk (high_watermark self) (d_set (open_transactions self) txn_id first_offset)).

(** [relay/laststableoffset.py] LastStableOffset.resolve *)
Definition resolve (txn_id : string) : act t unit :=
  self ← get;
  raise_if (negb (d_mem (open_transactions self) txn_id)) Missing;;
  put (mk (high_watermark self) (d_del (open_transactions self) txn_id)).

(** [relay/laststableoffset.py] LastStableOffset.last_stable_offset *)
Definition last_stable_offset (self : t) : Z :=
  if bool_decide (open_transactions self = []) then high_watermark self
  else py_min (high_watermark self) (d_values (open_transactions self)).

(** [relay/laststableoffset.py] LastStableOffset.is_visible_to_read_committed *)
Definition is_visible_to_read_committed (self : t) (offset : Z) : bool :=
  offset <? last_stable_offset self.

(** [relay/laststableoffset.py] LastStableOffset.withheld_gap *)
Definition withheld_gap (self : t) : Z := high_watermark self - last_stable_offset self.

(** [relay/laststableoffset.py] LastStableOffset.note *)
Definition note (self : t) : string :=
  "last stable offset " +:+ zs (last_stable_offset self) +:+ ", high watermark "
  +:+ zs (high_watermark self) +:+ ", " +:+ zs (withheld_gap self) +:+ " record(s) withheld; "
  +:+ "that gap is committed data a read-committed consumer cannot yet see, the lag a stuck "
  +:+ "transaction imposes on everyone".
End LastStableOffset.
End laststableoffset.
Import laststableoffset.

Module isolation.
(** [relay/isolation.py] READ_UNCOMMITTED *)
Definition READ_UNCOMMITTED : string := "read-uncommitted".
(** [relay/isolation.py] READ_COMMITTED *)
Definition READ_COMMITTED : string := "read-committed".
(** [relay/isolation.py] LEVELS *)
Definition LEVELS : list string := [READ_UNCOMMITTED; READ_COMMITTED].

Module PartitionOffsets.
(** [relay/isolation.py] class PartitionOffsets *)
Record t := mk {
  high_watermark : Z;
  last_stable_offset : Z;
}.
(** [relay/isolation.py] PartitionOffsets.__post_init__ *)
Definition make (high_watermark last_stable_offset : Z) : result t :=
  if high_watermark <? last_stable_offset then Err Invalid
  else Ok (mk high_watermark last_stable_offset).
End PartitionOffsets.

(** [relay/isolation.py] readable_ceiling *)
Definition readable_ceiling (level : string) (offsets : PartitionOffsets.t) : result (Z * string) :=
  if bool_decide (level ∉ LEVELS) then Err Invalid
  else if bool_decide (level = READ_UNCOMMITTED) then
    Ok (PartitionOffsets.high_watermark offsets,
        "up to the high watermark; fast, but a record inside "
        +:+ "a transaction that later aborts is one the consumer "
        +:+ "acted on that un-happened")
  else
    Ok (PartitionOffsets.last_stable_offset offsets,
        "up to the last stable offset; never sees a record whose "
        +:+ "transaction might abort, at the cost of blocking behind "
        +:+ "a long-running open transaction").

(** [relay/isolation.py] uncommitted_gap *)
Definition uncommitted_gap (offsets : PartitionOffsets.t) : string :=
  let gap := PartitionOffsets.high_watermark offsets
             - PartitionOffsets.last_stable_offset offsets in
  if gap =? 0 then "no open transactions; both levels read the same"
  else zs gap +:+ " record(s) are replicated but not stable; a "
       +:+ "read-committed consumer stalled here is the guarantee "
       +:+ "working, not a bug, which is why the transaction timeout "
       +:+ "bounds the stall".
End isolation.
Import isolation.

Module commitmarkers.
Module CommitMarkers.
(** [relay/commitmarkers.py] class CommitMarkers *)
Record t := mk {
  partitions : gset string;
  written : gset string;
}.
(** [relay/commitmarkers.py] CommitMarkers.__post_init__ *)
Definition make (partitions : gset string) : result t :=
  if bool_decide (partitions = ∅) then Err Invalid else Ok (mk partitions ∅).

(** [relay/commitmarkers.py] CommitMarkers.write_marker *)
Definition write_marker (partition : string) : act t string :=
  self ← get;
  raise_if (bool_decide (partition ∉ partitions self)) Invalid;;
  put (mk (partitions self) ({[partition]} ∪ written self));;
  self ← get;
  mret ("marker written to '" +:+ partition +:+ "' (" +:+ zs (Z.of_nat (size (written self)))
        +:+ "/" +:+ zs (Z.of_nat (size (partitions self))) +:+ ")").

(** [relay/commitmarkers.py] CommitMarkers.outstanding *)
Definition outstanding (self : t) : gset string := partitions self ∖ written self.

(** [relay/commitmarkers.py] CommitMarkers.is_committed *)
Definition is_committed (self : t) : bool := bool_decide (outstanding self = ∅).

(** [relay/commitmarkers.py] CommitMarkers.declare_committed *)
Definition declare_committed (self : t) : result string :=
  if negb (is_committed self) then Err Invalid
  else Ok ("committed across all " +:+ zs (Z.of_nat (size (partitions self))) +:+ " partition(s)").

(** [relay/commitmarkers.py] CommitMarkers.recover *)
Definition recover (self : t) : string :=
  let remaining := outstanding self in
  if bool_decide (remaining = ∅) then "all markers written; nothing to recover"
  else "re-driving " +:+ zs (Z.of_nat (size remaining)) +:+ " outstanding marker(s) "
       +:+ repr_list repr_str (py_sorted String.le (elements remaining))
       +:+ "; a coordinator crashed mid-commit".
End CommitMarkers.
End commitmarkers.
Import commitmarkers.

Module abortedindex.
Module AbortedTxn.
(** [relay/abortedindex.py] class AbortedTxn *)
Record t := mk {
  producer_id : Z;
  first_offset : Z;
  last_offset : Z;
}.
(** [relay/abortedindex.py] AbortedTxn.covers *)
Definition covers (self : t) (offset : Z) : bool :=
  (first_offset self <=? offset) && (offset <=? last_offset self).
End AbortedTxn.

Module AbortedIndex.
(** [relay/abortedindex.py] class AbortedIndex *)
Record t := mk { entries : list AbortedTxn.t }.
Definition new : t := mk [].

(** [relay/abortedindex.py] AbortedIndex.record *)
Definition record (txn : AbortedTxn.t) : act t unit :=
  modify (λ self, mk (entries self ++ [txn])).

(** [relay/abortedindex.py] AbortedIndex.is_aborted *)
Definition is_aborted (self : t) (producer_id offset : Z) : bool :=
  existsb (λ e, (AbortedTxn.producer_id e =? producer_id) && AbortedTxn.covers e offset)
          (entries self).

(** [relay/abortedindex.py] AbortedIndex.prune_below *)
Definition prune_below (log_start : Z) : act t Z :=
  self ← get;
  let before := zlen (entries self) in
  put (mk (filter (λ e, log_start <= AbortedTxn.last_offset e) (entries self)));;
  self ← get;
  mret (before - zlen (entries self)).

(** [relay/abortedindex.py] AbortedIndex.filter_ratio *)
Definition filter_ratio (self : t) (fetched : list (Z * Z)) : result string :=
  match fetched with
  | [] => Ok "nothing fetched; no aborted records to skip"
  | _ =>
      let dropped := zsum (λ p : Z * Z, if is_aborted self p.1 p.2 then 1 else 0) fetched in
      share ← z_truediv dropped (zlen fetched);
      let pct := f_mul share (of_Z 100) in
      Ok (zs dropped +:+ "/" +:+ zs (zlen fetched) +:+ " fetched record(s) aborted (" +:+ fmt_fixed 0 pct
          +:+ "%); read-committed reads and ships them then drops them, so a high ratio is throughput spent on records destined for the floor")
  end.
End AbortedIndex.
End abortedindex.
Import abortedindex.

(** ** A transaction is visible as a whole or not at all *)

Section transaction_proofs.
Import Transaction.
Implicit Types (x : Transaction.t).

Inductive txn_op :=
  | Append (partition offset : Z)
  | Commit
  | Abort_
  | Expire (now : Z).

Definition txn_run (o : txn_op) : act t unit :=
  match o with
  | Append p off => append p off
  | Commit => _ ← commit; mret ()
  | Abort_ => _ ← abort; mret ()
  | Expire now => _ ← force_abort_if_expired now; mret ()
  end.
Definition txn_step (o : txn_op) : t → t := state_of (txn_run o).

Definition expired (now : Z) x : bool := timeout x <? now - opened_at x.

(** What a call does to an open transaction. *)
Definition txn_effect (o : txn_op) x : t :=
  match o with
  | Append p off =>
      mk (txn_id x) (opened_at x) (timeout x) (state x)
         ({[p]} ∪ partitions_touched x) (records x ++ [(p, off)])
  | Commit => set_state COMMITTED x
  | Abort_ => set_state ABORTED x
  | Expire now => if expired now x then set_state ABORTED x else x
  end.

Lemma txn_run_open o x : state x = OPEN → txn_run o x = (txn_effect o x, Ok ()).
Proof.
  destruct x as [id op to st ps rs]. simpl. intros ->. destruct o as [p off| | |now]; try reflexivity.
  unfold txn_run, force_abort_if_expired. rewrite bind_assoc, bind_get. simpl.
  unfold expired. simpl. by destruct (to <? now - op).
Qed.

Lemma txn_run_closed o x :
  state x = COMMITTED ∨ state x = ABORTED →
  txn_run o x = (x, match o with Expire _ => Ok () | _ => Err Invalid end).
Proof. destruct x as [id op to st ps rs]. simpl. by intros [->| ->]; destruct o. Qed.

Definition txn_inv x : Prop :=
  (state x = OPEN ∨ state x = COMMITTED ∨ state x = ABORTED)
  ∧ partitions_touched x = list_to_set (records x).*1.

Lemma txn_step_inv o x : txn_inv x → txn_inv (txn_step o x).
Proof.
  unfold txn_step, state_of. intros ([Hst|Hst] & Hps).
  - rewrite txn_run_open by done. destruct o as [p off| | |now]; unfold txn_inv; simpl.
    + split; [by left|]. rewrite fmap_app, list_to_set_app_L, Hps. set_solver.
    + split; [auto|done].
    + split; [auto|done].
    + destruct (expired now x); simpl; split; auto.
  - rewrite txn_run_closed by done. split; auto.
Qed.

(** The records of the transaction as the log holds them: tagged with the state of the transaction. *)
Definition tagged x : list (Z * Z * string) := (λ r, (r, state x)) <$> records x.

Lemma visible_tagged x :
  visible_to_read_committed (tagged x) = if bool_decide (state x = COMMITTED) then records x else [].
Proof.
  unfold visible_to_read_committed, tagged. case_bool_decide as Hst.
  - induction (records x) as [|r rs IH]; [done|]. simpl.
    rewrite filter_cons_True by done. simpl. by f_equal.
  - induction (records x) as [|r rs IH]; [done|]. simpl. by rewrite filter_cons_False.
Qed.

(** C10 (safety): a transaction is all or nothing and is decided once. After any sequence of [append],
    [commit], [abort] and [force_abort_if_expired] calls it is open, committed or aborted, never
    seen half way, and the touched partitions are those of its records. While it is open an
    [append] adds its record, [commit] and [abort] decide it, and expiry aborts it exactly when it
    has been open longer than its timeout. Once decided, no call changes it and [append], [commit]
    and [abort] raise [Invalid]. A read-committed reader sees all of its records if it is
    committed and none otherwise, so further calls on a decided transaction never change that. *)
Theorem transaction_all_or_nothing id opened tmo (ops more : list txn_op) o :
  let x := run txn_step ops (new id opened tmo) in
  state x ∈ [OPEN; COMMITTED; ABORTED]
  ∧ partitions_touched x = list_to_set (records x).*1
  ∧ visible_to_read_committed (tagged x)
    = (if bool_decide (state x = COMMITTED) then records x else [])
  ∧ if bool_decide (state x = OPEN) then txn_run o x = (txn_effect o x, Ok ())
    else txn_run o x = (x, match o with Expire _ => Ok () | _ => Err Invalid end)
         ∧ run txn_step more x = x.
Proof.
  intros x. assert (txn_inv x) as [Hst Hps].
  { apply (run_invariant txn_step txn_inv); [apply txn_step_inv|]. split; [by left|done]. }
  split_and!; [set_solver|done|apply visible_tagged|]. case_bool_decide as Hopen.
  - by apply txn_run_open.
  - assert (state x = COMMITTED ∨ state x = ABORTED) as Hclosed by tauto.
    split; [by apply txn_run_closed|].
    apply (run_invariant txn_step (λ y, y = x)); [|done]. intros o' y ->.
    unfold txn_step, state_of. by rewrite txn_run_closed.
Qed.
End transaction_proofs.

(** ** The last stable offset *)

Section stable_proofs.
Import LastStableOffset.
Implicit Types (l : LastStableOffset.t).

Inductive stable_op := Begin (txn_id : string) (first_offset : Z) | Resolve (txn_id : string).
Definition stable_step (o : stable_op) : t → t :=
  match o with
  | Begin id first => state_of (begin id first)
  | Resolve id => state_of (resolve id)
  end.

Lemma last_stable_offset_spec l :
  last_stable_offset l = py_min (high_watermark l) (d_values (open_transactions l)).
Proof.
  unfold last_stable_offset. case_bool_decide as H; [by rewrite H|done].
Qed.

Lemma last_stable_le l o :
  o <= last_stable_offset l ↔
  o <= high_watermark l ∧ ∀ id first, (id, first) ∈ open_transactions l → o <= first.
Proof.
  rewrite last_stable_offset_spec. split.
  - intros Ho. split.
    + pose proof (py_min_le (high_watermark l) (d_values (open_transactions l)) (high_watermark l)
                    ltac:(left)). lia.
    + intros id first Hin.
      assert (first ∈ d_values (open_transactions l)) as Hv.
      { apply list_elem_of_fmap. by exists (id, first). }
      assert (first ∈ high_watermark l :: d_values (open_transactions l)) as Hv' by (by right).
      apply py_min_le in Hv'. lia.
  - intros [Hhw Hall].
    pose proof (py_min_elem (high_watermark l) (d_values (open_transactions l))) as Hm.
    apply elem_of_cons in Hm as [->|Hm]; [done|].
    apply list_elem_of_fmap in Hm as ([id first] & -> & Hin). eauto.
Qed.

Lemma stable_step_wf o l :
  d_wf (open_transactions l) →
  d_wf (open_transactions (stable_step o l)) ∧ high_watermark (stable_step o l) = high_watermark l.
Proof.
  intros Hwf. destruct o as [id first|id]; unfold stable_step, state_of, begin, resolve;
    act_simpl; bool_split; simpl; auto with relay.
Qed.

(** [tx] was begun at [first] and nothing has resolved it since: its fate is not decided. *)
Definition undecided (hw : Z) (ops : list stable_op) (tx : string) (first : Z) : Prop :=
  ∃ pre post, ops = pre ++ Begin tx first :: post ∧ first <= hw ∧ Resolve tx ∉ post.
(** No transaction is begun again before it is resolved (refused calls do not count). *)
Definition begun_once (hw : Z) (ops : list stable_op) : Prop :=
  ∀ pre tx f1 mid f2 post, ops = pre ++ Begin tx f1 :: mid ++ Begin tx f2 :: post →
    f1 <= hw → f2 <= hw → Resolve tx ∈ mid.

Lemma undecided_snoc hw ops o tx first :
  undecided hw (ops ++ [o]) tx first ↔
  o = Begin tx first ∧ first <= hw ∨ o ≠ Resolve tx ∧ undecided hw ops tx first.
Proof.
  split.
  - intros (pre & post & Heq & Hle & Hpost). destruct post as [|o' post _] using rev_ind.
    + apply app_inj_tail in Heq as [_ ->]. by left.
    + rewrite app_comm_cons, app_assoc in Heq. apply app_inj_tail in Heq as [-> ->].
      right. split; [intros ->; set_solver|]. exists pre, post. split_and!; [done..|set_solver].
  - intros [[-> Hle]|[Ho (pre & post & -> & Hle & Hpost)]].
    + exists ops, []. split_and!; [done..|set_solver].
    + exists pre, (post ++ [o]). rewrite <-app_assoc. split_and!; [done..|set_solver].
Qed.

Lemma begun_once_prefix hw ops o : begun_once hw (ops ++ [o]) → begun_once hw ops.
Proof.
  intros Hb pre tx f1 mid f2 post ->. apply (Hb pre tx f1 mid f2 (post ++ [o])).
  by rewrite <-app_assoc, app_comm_cons, <-app_assoc.
Qed.

Lemma stable_run_wf hw ops :
  let l := run stable_step ops (mk hw []) in d_wf (open_transactions l) ∧ high_watermark l = hw.
Proof.
  apply (run_invariant stable_step (λ l, d_wf (open_transactions l) ∧ high_watermark l = hw)).
  - intros o y [Hy <-]. by apply stable_step_wf.
  - split; [apply d_wf_nil|done].
Qed.

Lemma open_undecided hw ops tx first :
  begun_once hw ops →
  d_get (open_transactions (run stable_step ops (mk hw []))) tx = Some first ↔ undecided hw ops tx first.
Proof.
  intros Hb. revert tx first. induction ops as [|o ops IH] using rev_ind; intros tx first.
  { split; [done|]. intros (pre & ? & Heq & _). by destruct pre. }
  specialize (IH (begun_once_prefix _ _ _ Hb)). rewrite undecided_snoc, run_app. cbn [run foldl].
  set (l := run stable_step ops (mk hw [])) in *.
  destruct (stable_run_wf hw ops) as [Hwf Hhw]. fold l in Hwf, Hhw.
  unfold stable_step, state_of. destruct o as [id f|id]; unfold begin, resolve; act_simpl.
  - rewrite Hhw. destruct (Z.ltb_spec hw f); act_simpl; [rewrite IH; naive_solver lia|].
    rewrite d_get_set. case_bool_decide as Heq; [subst id|rewrite IH; naive_solver].
    split; [intros [= ->]; by left|]. intros [[[= ->] _]|[_ (pre & post & -> & Hle & Hpost)]]; [done|].
    destruct Hpost. apply (Hb pre tx first post f []); [|done..]. by rewrite <-app_assoc.
  - rewrite d_mem_get. destruct (decide (id = tx)) as [->|Hne].
    + transitivity False; [|naive_solver]. split; [|done].
      destruct (d_get (open_transactions l) tx) eqn:Hget; act_simpl; [by rewrite d_get_del_eq|by rewrite Hget].
    + rewrite <-(IH tx first). transitivity (d_get (open_transactions l) tx = Some first); [|naive_solver].
      destruct (d_get (open_transactions l) id); act_simpl; [by rewrite d_get_del_ne by done|done].
Qed.

Lemma stable_visible hw ops o :
  let l := run stable_step ops (mk hw []) in
  is_visible_to_read_committed l o = true ↔
  o < hw ∧ ∀ tx first, d_get (open_transactions l) tx = Some first → o < first.
Proof.
  intros l. destruct (stable_run_wf hw ops) as [Hwf Hhw]. fold l in Hwf, Hhw.
  unfold is_visible_to_read_committed. rewrite Z.ltb_lt, <-Z.le_succ_l, last_stable_le, Hhw.
  split; intros [Ho Hall]; (split; [lia|]); intros tx first Hin.
  - apply Z.le_succ_l, (Hall tx). by apply d_get_elem_of.
  - apply Z.le_succ_l, (Hall tx). by apply d_elem_of_get.
Qed.

Lemma resolve_raises_stable l id :
  last_stable_offset l <= last_stable_offset (stable_step (Resolve id) l).
Proof.
  unfold stable_step, state_of, resolve. act_simpl. bool_split; simpl; [done|].
  apply last_stable_le. simpl.
  pose proof (proj1 (last_stable_le l (last_stable_offset l)) (Z.le_refl _)) as [? Hall].
  split; [done|]. intros tx first Hin. apply (Hall tx). by apply list_elem_of_filter in Hin as [_ Hin].
Qed.

Lemma readable_ceiling_run level hw lso :
  fst <$> (match readable_ceiling level (PartitionOffsets.mk hw lso) with
           | Ok a => Some a | Err _ => None end)
  = (if bool_decide (level = READ_UNCOMMITTED) then Some hw
     else if bool_decide (level = READ_COMMITTED) then Some lso else None).
Proof.
  unfold readable_ceiling.
  destruct (decide (level = READ_UNCOMMITTED)) as [->|Hu]; [done|].
  destruct (decide (level = READ_COMMITTED)) as [->|Hc]; [done|].
  rewrite (bool_decide_eq_false_2 (level = READ_UNCOMMITTED)),
    (bool_decide_eq_false_2 (level = READ_COMMITTED)), bool_decide_eq_true_2; [done| |done..].
  unfold LEVELS. rewrite !not_elem_of_cons. split_and!; [done..|]. by intros ?%elem_of_nil.
Qed.

(** C9 (safety): a read-committed consumer reads only what is decided, and all of it.  After any
    sequence of [begin] and [resolve] calls in which no transaction is begun again while it is open,
    an offset is visible to read-committed exactly if it is below the high watermark and below the
    first offset of every transaction that was begun and not resolved since; so each record it sees
    belongs to a transaction already resolved.  The high watermark and the last stable offset are a pair
    [PartitionOffsets] accepts, and the ceilings [readable_ceiling] gives for the two levels, any other
    level raising [Invalid]; their difference is the withheld gap, never negative; a [begin] past the
    high watermark raises [Invalid] and changes nothing, one at or below it is accepted; and resolving a
    transaction never lowers the last stable offset, and raises [Missing] exactly when it is not open. *)
Theorem read_committed_boundary hw (ops : list stable_op) (Honce : begun_once hw ops) id level at_offset :
  let l := run stable_step ops (mk hw []) in
  let lso := last_stable_offset l in
  (∀ o, is_visible_to_read_committed l o = true ↔
        o < hw ∧ ∀ tx first, undecided hw ops tx first → o < first)
  ∧ PartitionOffsets.make (high_watermark l) lso = Ok (PartitionOffsets.mk hw lso)
  ∧ fst <$> (match readable_ceiling level (PartitionOffsets.mk hw lso) with
             | Ok a => Some a | Err _ => None end)
    = (if bool_decide (level = READ_UNCOMMITTED) then Some hw
       else if bool_decide (level = READ_COMMITTED) then Some lso else None)
  ∧ (∀ x, readable_ceiling level (PartitionOffsets.mk hw lso) = Err x → x = Invalid)
  ∧ withheld_gap l = hw - lso ∧ 0 <= withheld_gap l
  ∧ (if hw <? at_offset then begin id at_offset l = (l, Err Invalid)
     else (begin id at_offset l).2 = Ok ())
  ∧ lso <= last_stable_offset (stable_step (Resolve id) l)
  ∧ ((∃ first, undecided hw ops id first) → (resolve id l).2 = Ok ())
  ∧ ((∀ first, ¬ undecided hw ops id first) → resolve id l = (l, Err Missing)).
Proof.
  intros l lso. destruct (stable_run_wf hw ops) as [Hwf Hhw]. fold l in Hwf, Hhw.
  assert (lso <= hw) as Hle.
  { pose proof (proj1 (last_stable_le l lso) (Z.le_refl _)) as [? _]. lia. }
  assert (resolve id l = match d_get (open_transactions l) id with
    | Some _ => (mk hw (d_del (open_transactions l) id), Ok ()) | None => (l, Err Missing) end) as Hres.
  { unfold resolve. act_simpl. rewrite d_mem_get, Hhw. by destruct (d_get _ id). }
  split_and!.
  - intros o. unfold l. rewrite stable_visible. by setoid_rewrite (open_undecided hw ops _ _ Honce).
  - unfold PartitionOffsets.make. rewrite Hhw. by destruct (Z.ltb_spec hw lso); [lia|].
  - apply readable_ceiling_run.
  - unfold readable_ceiling. intros x. repeat case_bool_decide; simpl; congruence.
  - unfold withheld_gap. by rewrite Hhw.
  - unfold withheld_gap, lso in *. rewrite Hhw. lia.
  - unfold begin. act_simpl. rewrite Hhw. by destruct (hw <? at_offset).
  - apply resolve_raises_stable.
  - intros (first & Hun%(open_undecided hw ops _ _ Honce)). fold l in Hun. by rewrite Hres, Hun.
  - intros Hno. rewrite Hres. destruct (d_get (open_transactions l) id) as [first|] eqn:Hget; [|done].
    by destruct (Hno first); apply (open_undecided hw ops _ _ Honce).
Qed.

Lemma read_committed_boundary_witness :
  let ops := [Begin "a" 3; Begin "b" 5; Begin "z" 50; Resolve "a"; Begin "a" 8] in
  let l := run stable_step ops (mk 10 []) in
  begun_once 10 ops ∧ is_visible_to_read_committed l 4 = true ∧ is_visible_to_read_committed l 5 = false
  ∧ 0 <= withheld_gap l.
Proof.
  intros ops l.
  assert (begun_once 10 ops) as Honce.
  { intros pre tx f1 mid f2 post Heq Hf1 Hf2. unfold ops in Heq.
    repeat match goal with
      | H : _ = ?l ++ _ |- _ => destruct l; cbn in H; simplify_eq
      end; first [lia|set_solver]. }
  destruct (read_committed_boundary 10 ops Honce "a" READ_COMMITTED 5) as (Hv & _ & _ & _ & _ & Hgap & _).
  split; [exact Honce|]. split; [vm_compute; reflexivity|]. split; [|exact Hgap].
  vm_compute. reflexivity.
Defined.

(** Beginning a transaction that is open again overwrites its first offset, and the stable offset
    moves past the records it already wrote. *)
Lemma begin_again_exposes :
  let l := run stable_step [Begin "t" 5; Begin "t" 90] (mk 100 []) in
  last_stable_offset l = 90.
Proof. reflexivity. Qed.
End stable_proofs.

(** ** Commit markers and the aborted index *)

Section marker_proofs.
Import CommitMarkers.

Definition marker_step (p : string) : t → t := state_of (write_marker p).

Lemma write_marker_run p m :
  marker_step p m = if bool_decide (p ∈ partitions m)
                    then mk (partitions m) ({[p]} ∪ written m) else m.
Proof.
  unfold marker_step, state_of, write_marker. act_simpl.
  repeat case_bool_decide; try done; simpl; tauto.
Qed.

Lemma marker_run_written (ps : list string) m :
  let m' := run marker_step ps m in
  partitions m' = partitions m
  ∧ written m' = written m ∪ (list_to_set ps ∩ partitions m).
Proof.
  revert m. induction ps as [|p ps IH]; simpl; intros m; [split; [done|set_solver]|].
  destruct (IH (marker_step p m)) as [IH1 IH2]. rewrite IH1, IH2, write_marker_run.
  case_bool_decide; simpl; (split; [done|]); set_solver.
Qed.

(** C37 (liveness): a commit is declared exactly when every partition carries its marker, and a crash
    half way can always be recovered from. After any markers are written for a transaction's
    partitions, the markers held are those of its own partitions (a foreign one raises [Invalid]
    and writes nothing), [declare_committed] succeeds exactly when every partition's marker was
    written and otherwise raises [Invalid]; and re-driving the outstanding markers, in any order
    and whatever is written besides, makes the declaration succeed. *)
Theorem commit_markers_recover ps m (before after : list string)
    (Hmake : make ps = Ok m) :
  let m1 := run marker_step before m in
  let m2 := run marker_step after m1 in
  written m1 = list_to_set before ∩ ps
  ∧ outstanding m1 = ps ∖ list_to_set before
  ∧ declare_committed m1
    = (if bool_decide (ps ⊆ list_to_set before)
       then Ok ("committed across all " +:+ zs (Z.of_nat (size ps)) +:+ " partition(s)")
       else Err Invalid)
  ∧ (∀ p, p ∉ ps → write_marker p m1 = (m1, Err Invalid))
  ∧ (outstanding m1 ⊆ list_to_set after →
     declare_committed m2
     = Ok ("committed across all " +:+ zs (Z.of_nat (size ps)) +:+ " partition(s)")).
Proof.
  intros m1 m2. unfold make in Hmake. case_bool_decide; [done|]. injection Hmake as <-.
  destruct (marker_run_written before (mk ps ∅)) as [Hp1 Hw1]. fold m1 in Hp1, Hw1. simpl in Hp1, Hw1.
  destruct (marker_run_written after m1) as [Hp2 Hw2]. fold m2 in Hp2, Hw2. rewrite Hp1 in Hp2, Hw2.
  unfold declare_committed, is_committed, outstanding. rewrite Hp1, Hp2, Hw2, Hw1. split_and!.
  - set_solver.
  - set_solver.
  - rewrite <-(bool_decide_ext (ps ∖ (∅ ∪ list_to_set before ∩ ps) = ∅) (ps ⊆ list_to_set before)).
    + by destruct (bool_decide _).
    + clear. rewrite union_empty_l_L. split.
      * intros Hnil%empty_difference_subseteq_L. set_solver.
      * intros Hsub. apply subseteq_empty_difference_L. set_solver.
  - intros p Hp. unfold write_marker. rewrite bind_get, bind_raise_if, Hp1.
    by rewrite bool_decide_eq_true_2.
  - intros Hafter. rewrite bool_decide_eq_true_2; [done|].
    clear -Hafter. apply set_eq. intros q. specialize (Hafter q).
    rewrite !elem_of_difference, !elem_of_union, !elem_of_intersection, elem_of_empty in *.
    destruct (decide (q ∈@{gset string} list_to_set before)); tauto.
Qed.

Lemma commit_markers_recover_witness :
  let m := mk {["a"; "b"; "c"]} ∅ in
  let m1 := run marker_step ["b"; "z"] m in
  declare_committed m1 = Err Invalid
  ∧ declare_committed (run marker_step ["c"; "a"] m1) = Ok "committed across all 3 partition(s)".
Proof.
  intros m m1.
  assert (make {["a"; "b"; "c"]} = Ok m) as Hmake by (vm_compute; reflexivity).
  destruct (commit_markers_recover {["a"; "b"; "c"]} m ["b"; "z"] ["c"; "a"] Hmake)
    as (_ & Hout & Hd & _ & Hre).
  split; [refine (eq_trans Hd _); vm_compute; reflexivity|].
  refine (eq_trans (Hre _) _); [|vm_compute; reflexivity].
  apply (bool_decide_unpack _). vm_compute. exact I.
Defined.
End marker_proofs.

Section aborted_proofs.
Import AbortedIndex.

Inductive aborted_op := Record_ (txn : AbortedTxn.t) | PruneBelow (log_start : Z).
Definition aborted_step (o : aborted_op) : t → t :=
  match o with
  | Record_ txn => state_of (record txn)
  | PruneBelow start => state_of (prune_below start)
  end.

(** The offset below which nothing is known any more. *)
Definition pruned_to (ops : list aborted_op) : option Z :=
  foldl (λ m o, match o, m with
                | PruneBelow s, Some m => Some (Z.max m s)
                | PruneBelow s, None => Some s
                | Record_ _, _ => m
                end) None ops.
Definition recorded (ops : list aborted_op) : list AbortedTxn.t :=
  omap (λ o, match o with Record_ x => Some x | PruneBelow _ => None end) ops.

Lemma is_aborted_true i pid off :
  is_aborted i pid off = true ↔
  ∃ x, x ∈ entries i ∧ AbortedTxn.producer_id x = pid
       ∧ AbortedTxn.first_offset x <= off <= AbortedTxn.last_offset x.
Proof.
  unfold is_aborted. rewrite existsb_exists. unfold AbortedTxn.covers.
  setoid_rewrite list_elem_of_In. setoid_rewrite andb_true_iff. setoid_rewrite andb_true_iff.
  setoid_rewrite Z.eqb_eq. setoid_rewrite Z.leb_le. naive_solver.
Qed.

Definition above (off : Z) (m : option Z) : Prop := match m with Some s => s <= off | None => True end.

(** Also (functional): pruning the aborted index never makes an aborted record readable. After any
    sequence of [record] and [prune_below] calls, for an offset that no pruning has passed,
    [is_aborted] says exactly whether some recorded aborted transaction of that producer covers
    it; below a pruned offset it never names a transaction that was not recorded. *)
Theorem aborted_index_exact (ops : list aborted_op) pid off :
  let i := run aborted_step ops new in
  let covered := Exists (λ x, AbortedTxn.producer_id x = pid
                              ∧ AbortedTxn.first_offset x <= off <= AbortedTxn.last_offset x)
                        (recorded ops) in
  (is_aborted i pid off = true → covered)
  ∧ (above off (pruned_to ops) → covered → is_aborted i pid off = true).
Proof.
  intros i covered.
  assert (∀ x, x ∈ entries i → x ∈ recorded ops) as Hsub.
  { unfold i. clear. induction ops as [|o ops IH] using rev_ind; [done|].
    rewrite run_app. unfold recorded in *. rewrite omap_app. simpl. intros x Hx.
    destruct o as [y|s]; simpl in *.
    - rewrite elem_of_app in *. destruct Hx as [Hx|Hx]; [left; by apply IH|by right].
    - unfold state_of, prune_below in Hx. act_simpl in Hx. apply list_elem_of_filter in Hx as [_ Hx].
      rewrite app_nil_r. by apply IH. }
  assert (∀ x, x ∈ recorded ops → above (AbortedTxn.last_offset x) (pruned_to ops) → x ∈ entries i)
    as Hsup.
  { unfold i. clear. induction ops as [|o ops IH] using rev_ind; [done|].
    rewrite run_app. unfold recorded, pruned_to in *. rewrite omap_app, foldl_app.
    intros x Hx Hab. apply elem_of_app in Hx. destruct o as [y|s]; simpl in *.
    - apply elem_of_app. destruct Hx as [Hx|Hx]; [left; by apply IH|by right].
    - unfold state_of, prune_below. act_simpl. destruct Hx as [Hx|Hx%elem_of_nil]; [|done].
      apply list_elem_of_filter.
      destruct (foldl _ None ops) as [m|]; simpl in *; (split; [lia|]); apply IH; simpl; (done || lia). }
  split.
  - intros (x & Hx & Hpid & Hoff)%is_aborted_true. apply Exists_exists. eauto.
  - intros Hab (x & Hx & Hpid & Hoff)%Exists_exists. apply is_aborted_true. exists x.
    split; [|done]. apply Hsup; [done|]. unfold above in *. destruct (pruned_to ops); lia.
Qed.
End aborted_proofs.

Lemma aborted_index_exact_witness :
  let ops := [Record_ (AbortedTxn.mk 1 10 20); Record_ (AbortedTxn.mk 2 15 40);
              PruneBelow 30] in
  AbortedIndex.is_aborted (run aborted_step ops AbortedIndex.new) 2 35 = true.
Proof.
  intros ops. destruct (aborted_index_exact ops 2 35) as [_ H].
  apply H; [vm_compute; discriminate|]. vm_compute. apply Exists_cons_tl, Exists_cons_hd. done.
Defined.
