(* ===== verification/Index.v ===== *)
(** * Finding a record: offset, time and segment lookups, and fetch planning

    [relay/offsetindex.py], [relay/timeindex.py], [relay/segmentlookup.py] and
    [relay/fetching.py].  The two binary searches of the source are the same loop
    over different lists; it is written once, with fuel, and [floor_search_spec]
    shows that the length of the list is fuel enough. *)

From S2P Require Import Prelude PyDict PyBytes Log.
Import segmentlog.

(** ** Binary searches *)

(** [while low <= high: mid = (low + high) // 2; if key(l[mid]) <= target: found = val(l[mid]);
    low = mid + 1; else: high = mid - 1]; [None] when the fuel runs out *)
Fixpoint floor_search {A} (key val : A → Z) (fuel : nat) (l : list A) (target low high found : Z) :
    option (result Z) :=
  if low <=? high then
    match fuel with
    | O => None
    | S fuel =>
        let mid := (low + high) / 2 in
        match py_index l mid with
        | Err e => Some (Err e)
        | Ok x =>
            if key x <=? target
            then floor_search key val fuel l target (mid + 1) high (val x)
            else floor_search key val fuel l target low (mid - 1) found
        end
    end
  else Some (Ok found).

(** [bisect.bisect_left] of the standard library *)
Fixpoint bisect_loop (fuel : nat) (l : list Z) (x lo hi : Z) : option (result Z) :=
  if lo <? hi then
    match fuel with
    | O => None
    | S fuel =>
        let mid := (lo + hi) / 2 in
        match py_index l mid with
        | Err e => Some (Err e)
        | Ok y => if y <? x then bisect_loop fuel l x (mid + 1) hi
                  else bisect_loop fuel l x lo mid
        end
    end
  else Some (Ok lo).
Definition bisect_left (l : list Z) (x : Z) : option (result Z) :=
  bisect_loop (length l) l x 0 (zlen l).

(** A search that ran out of fuel has no counterpart in the source. *)
Definition search_result {A} (r : option (result A)) : result A :=
  match r with Some r => r | None => Err IndexError end.

Module offsetindex.
Module OffsetIndex.
(** [relay/offsetindex.py] class OffsetIndex *)
Record t := mk {
  base_offset : Z;
  interval_bytes : Z;
  entries : list (Z * Z);
}.

(** [relay/offsetindex.py] OffsetIndex.__post_init__ *)
Definition make (base_offset interval_bytes : Z) : result t :=
  if interval_bytes <? 1 then Err Invalid else Ok (mk base_offset interval_bytes []).

(** [relay/offsetindex.py] OffsetIndex.add *)
Definition add (offset position : Z) : act t unit :=
  self ← get;
  raise_if (offset <? base_offset self) Invalid;;
  raise_if match last (entries self) with Some (o, _) => offset <=? o | None => false end Invalid;;
  put (mk (base_offset self) (interval_bytes self) (entries self ++ [(offset, position)])).

(** [relay/offsetindex.py] OffsetIndex.floor_position *)
Definition floor_position (self : t) (target : Z) : result Z :=
  if target <? base_offset self then Err Missing
  else search_result
         (floor_search fst snd (length (entries self)) (entries self) target
            0 (zlen (entries self) - 1) 0).

(** [relay/offsetindex.py] OffsetIndex.average_scan *)
Definition average_scan (self : t) (record_bytes : Z) : result string :=
  if record_bytes <? 1 then Err Invalid
  else
    let records_per_entry := Z.max 1 (interval_bytes self / record_bytes) in
    Ok ("an index entry every " +:+ zs (interval_bytes self) +:+ " byte(s) "
        +:+ "means a fetch scans forward ~" +:+ zs records_per_entry +:+ " "
        +:+ "record(s) on average; too wide an interval turns the "
        +:+ "fetch into the long scan the index was to prevent").
End OffsetIndex.
End offsetindex.
Import offsetindex.

Module timeindex.
Module TimeIndex.
(** [relay/timeindex.py] class TimeIndex *)
Record t := mk {
  interval : Z;
  entries : list (Z * Z);
  records_seen : Z;
  log_start : Z;
  log_end : Z;
}.

(** [relay/timeindex.py] TimeIndex.__post_init__ *)
Definition make (interval : Z) : result t :=
  if interval <? 1 then Err Invalid else Ok (mk interval [] 0 0 0).

(** [relay/timeindex.py] TimeIndex.on_append *)
Definition on_append (receive_time offset : Z) : act t unit :=
  self ← get;
  let log_start := if records_seen self =? 0 then offset else log_start self in
  slot ← pure_of (py_mod (records_seen self) (interval self));
  let indexed :=
    (slot =? 0)
    && match last (entries self) with Some (tm, _) => tm <? receive_time | None => true end in
  put (mk (interval self)
          (if indexed then entries self ++ [(receive_time, offset)] else entries self)
          (records_seen self + 1) log_start (offset + 1)).

(** [relay/timeindex.py] TimeIndex.offset_for_time *)
Definition offset_for_time (self : t) (target_time : Z) : result (Z * string) :=
  match head (entries self), last (entries self) with
  | Some (t0, _), Some (t1, _) =>
      if target_time <=? t0 then
        Ok (log_start self,
            "seek before the first indexed time; returning the log start")
      else if t1 <? target_time then
        Ok (log_end self, "seek after the last indexed time; returning the log end")
      else
        let times := fst <$> entries self in
        slot ← search_result (bisect_left times target_time);
        '(_, offset) ← py_index (entries self) slot;
        Ok (offset,
            "nearest ingest time at or after " +:+ zs target_time +:+ " is "
            +:+ "offset " +:+ zs offset +:+ "; this is broker receive time, not "
            +:+ "producer event time, off by the ingest delay")
  | _, _ => Err Invalid
  end.
End TimeIndex.
End timeindex.
Import timeindex.

Module segmentlookup.
Module SegmentSet.
(** [relay/segmentlookup.py] class SegmentSet *)
Record t := mk {
  base_offsets : list Z;
  log_end : Z;
}.

(** [relay/segmentlookup.py] SegmentSet.log_start *)
Definition log_start (self : t) : Z := default 0 (head (base_offsets self)).

(** [relay/segmentlookup.py] SegmentSet.segment_for *)
Definition segment_for (self : t) (target : Z) : result Z :=
  match base_offsets self with
  | [] => Err Missing
  | first :: _ =>
      if target <? first then Err Missing
      else if log_end self <=? target then Err Missing
      else search_result
             (floor_search id id (length (base_offsets self)) (base_offsets self) target
                0 (zlen (base_offsets self) - 1) first)
  end.

(** [relay/segmentlookup.py] SegmentSet.is_active *)
Definition is_active (self : t) (base : Z) : bool :=
  match last (base_offsets self) with Some b => base =? b | None => false end.

Fixpoint index_of (l : list Z) (x : Z) : result Z :=
  match l with
  | [] => Err ValueError
  | y :: l' => if y =? x then Ok 0 else i ← index_of l' x; Ok (1 + i)
  end.

(** [relay/segmentlookup.py] SegmentSet.read_locality *)
Definition read_locality (self : t) (target : Z) : result string :=
  base ← segment_for self target;
  idx ← index_of (base_offsets self) base;
  let skipped := idx in
  if is_active self base then
    Ok ("offset " +:+ zs target +:+ " lands in the active segment (base " +:+ zs base
        +:+ "); this partition is being tailed")
  else
    Ok ("offset " +:+ zs target +:+ " lands in an old segment (base " +:+ zs base +:+ ", "
        +:+ zs skipped +:+ " segment(s) before it); a historical replay "
        +:+ "keeps old segments hot and un-deletable").
End SegmentSet.
End segmentlookup.
Import segmentlookup.

Module fetching.
Module FetchRequest.
(** [relay/fetching.py] class FetchRequest *)
Record t := mk {
  min_bytes : Z;
  max_bytes : Z;
  max_wait_ticks : Z;
}.
(** [relay/fetching.py] FetchRequest.__post_init__ *)
Definition make (min_bytes max_bytes max_wait_ticks : Z) : result t :=
  if (min_bytes <? 0) || (max_bytes <? 1) then Err Invalid
  else if max_bytes <? min_bytes then Err Invalid
  else if max_wait_ticks <? 0 then Err Invalid
  else Ok (mk min_bytes max_bytes max_wait_ticks).
End FetchRequest.

Module FetchResult.
(** [relay/fetching.py] class FetchResult *)
Record t := mk {
  records_returned : Z;
  bytes_returned : Z;
  reason : string;
}.
End FetchResult.

(** [relay/fetching.py:59-81] plan_fetch: the loop; a result is an early return *)
Fixpoint fetch_loop (request : FetchRequest.t) (sizes batch : list Z) (total : Z) :
    FetchResult.t + list Z * Z :=
  match sizes with
  | [] => inr (batch, total)
  | size :: sizes' =>
      if negb (bool_decide (batch = [])) && (FetchRequest.max_bytes request <? total + size)
      then inr (batch, total)
      else
        let batch := batch ++ [size] in
        let total := total + size in
        if FetchRequest.max_bytes request <? size then
          inl (FetchResult.mk 1 size
                 ("single record exceeds max-bytes, returned "
                  +:+ "alone because progress on an awkward record "
                  +:+ "beats deadlock on principle"))
        else if FetchRequest.min_bytes request <=? total then
          inl (FetchResult.mk (zlen batch) total "min-bytes reached, sent immediately")
        else fetch_loop request sizes' batch total
  end.

(** [relay/fetching.py] plan_fetch *)
Definition plan_fetch (request : FetchRequest.t) (available_sizes : list Z) (now_wait : Z) :
    FetchResult.t :=
  match fetch_loop request available_sizes [] 0 with
  | inl result => result
  | inr (batch, total) =>
      if FetchRequest.max_wait_ticks request <=? now_wait then
        FetchResult.mk (zlen batch) total
          ("max-wait of " +:+ zs (FetchRequest.max_wait_ticks request) +:+ " expired "
           +:+ "with a partial batch, sent so a quiet partition never hangs")
      else
        FetchResult.mk 0 0
          ("holding: " +:+ zs total +:+ " of " +:+ zs (FetchRequest.min_bytes request)
           +:+ " bytes, " +:+ zs (FetchRequest.max_wait_ticks request - now_wait)
           +:+ " tick(s) of patience left")
  end.
End fetching.
Import fetching.

(** ** Correctness of the searches *)

Section search_proofs.
Context {A : Type} (key val : A → Z).
Implicit Types (l : list A).

(** A list cut where the keys pass the target. *)
Lemma filter_cut l target n :
  (∀ i x, l !! i = Some x → (i < n)%nat → key x <= target) →
  (∀ i x, l !! i = Some x → (n <= i)%nat → target < key x) →
  filter (λ x, key x <= target) l = take n l.
Proof.
  revert n. induction l as [|x l IH]; intros n Hlo Hhi; [by rewrite take_nil|].
  destruct n as [|n].
  - rewrite filter_cons_False by (pose proof (Hhi 0%nat x eq_refl ltac:(lia)); lia).
    rewrite (IH 0%nat); [done|lia|]. intros i y Hy _. apply (Hhi (S i)); [done|lia].
  - rewrite filter_cons_True by (apply (Hlo 0%nat x); [done|lia]). simpl. f_equal. apply IH.
    + intros i y Hy Hi. apply (Hlo (S i)); [done|lia].
    + intros i y Hy Hi. apply (Hhi (S i)); [done|lia].
Qed.

Lemma sorted_keys_le l i j x y :
  StronglySorted Z.le (key <$> l) → l !! i = Some x → l !! j = Some y → (i <= j)%nat →
  key x <= key y.
Proof.
  revert i j. induction l as [|z l IH]; intros i j Hs Hx Hy Hij; [done|].
  rewrite fmap_cons in Hs. apply StronglySorted_inv in Hs as [Hs Hall].
  rewrite Forall_fmap in Hall. destruct i as [|i], j as [|j]; simpl in *.
  - simplify_eq. lia.
  - simplify_eq. eapply Forall_lookup in Hall; [|done]. done.
  - lia.
  - eapply IH; eauto with lia.
Qed.

(** What the loop knows: everything before [low] is at most the target, everything from
    [high + 1] on is above it, and [found] belongs to the entry before [low]. *)
Lemma floor_search_inv fuel l target low high found d :
  StronglySorted Z.le (key <$> l) →
  0 <= low → low <= high + 1 → high < zlen l → high - low < Z.of_nat fuel →
  (∀ i x, l !! i = Some x → Z.of_nat i < low → key x <= target) →
  (∀ i x, l !! i = Some x → high < Z.of_nat i → target < key x) →
  found = from_option val d (last (take (Z.to_nat low) l)) →
  floor_search key val fuel l target low high found
  = Some (Ok (from_option val d (last (filter (λ x, key x <= target) l)))).
Proof.
  intros Hs. revert low high found. induction fuel as [|fuel IH];
    intros low high found Hl Hlh Hh Hfuel Hlo Hhi Hfound; cbn [floor_search].
  all: destruct (Z.leb_spec low high) as [Hle|Hgt].
  1: lia.
  1,3: rewrite (filter_cut l target (Z.to_nat low));
    [by rewrite Hfound|intros i x Hx Hi; apply (Hlo i x Hx); lia
    |intros i x Hx Hi; apply (Hhi i x Hx); lia].
  assert (low <= (low + high) / 2 <= high) as Hmid.
  { split; [apply Z.div_le_lower_bound; lia|apply Z.div_le_upper_bound; lia]. }
  set (mid := (low + high) / 2) in *.
  destruct (lookup_lt_is_Some_2 l (Z.to_nat mid)) as [x Hx]; [unfold zlen in Hh; lia|].
  rewrite (py_index_nonneg l mid x) by (done || lia).
  destruct (Z.leb_spec (key x) target).
  - apply IH; [lia..| | |].
    + intros i y Hy Hi. pose proof (sorted_keys_le l i (Z.to_nat mid) y x Hs Hy Hx). lia.
    + done.
    + replace (Z.to_nat (mid + 1)) with (S (Z.to_nat mid)) by lia.
      rewrite (take_S_r _ _ x) by done. by rewrite last_snoc.
  - apply IH; [lia..|done| |done].
    intros i y Hy Hi. pose proof (sorted_keys_le l (Z.to_nat mid) i x y Hs Hx Hy). lia.
Qed.

(** The search finds the last entry whose key is at most the target; the length is fuel enough. *)
Lemma floor_search_spec l target d :
  StronglySorted Z.le (key <$> l) →
  search_result (floor_search key val (length l) l target 0 (zlen l - 1) d)
  = Ok (from_option val d (last (filter (λ x, key x <= target) l))).
Proof.
  intros Hs. rewrite (floor_search_inv _ _ _ _ _ _ d); [done|done|unfold zlen; lia..| | |done].
  - intros i x Hx Hi. lia.
  - intros i x Hx Hi. apply lookup_lt_Some in Hx. unfold zlen in *. lia.
Qed.
End search_proofs.

Lemma bisect_loop_inv fuel (l : list Z) x lo hi :
  StronglySorted Z.le l →
  0 <= lo → lo <= hi → hi <= zlen l → hi - lo <= Z.of_nat fuel →
  (∀ i y, l !! i = Some y → Z.of_nat i < lo → y < x) →
  (∀ i y, l !! i = Some y → hi <= Z.of_nat i → x <= y) →
  bisect_loop fuel l x lo hi = Some (Ok (zlen (filter (λ y, y < x) l))).
Proof.
  intros Hs. revert lo hi. induction fuel as [|fuel IH];
    intros lo hi Hl Hlh Hh Hfuel Hlo Hhi; cbn [bisect_loop].
  all: destruct (Z.ltb_spec lo hi) as [Hlt|Hge].
  1: lia.
  1,3: assert (filter (λ y, y < x) l = take (Z.to_nat lo) l) as ->;
    [|unfold zlen in *; rewrite length_take_le by lia; do 2 f_equal; lia].
  1,2: rewrite <-(filter_cut id l (x - 1) (Z.to_nat lo));
    [apply list_filter_iff; intros y; simpl; lia
    |intros i y Hy Hi; pose proof (Hlo i y Hy); simpl; lia
    |intros i y Hy Hi; pose proof (Hhi i y Hy); simpl; lia].
  assert (lo <= (lo + hi) / 2 < hi) as Hmid.
  { split; [apply Z.div_le_lower_bound; lia|apply Z.div_lt_upper_bound; lia]. }
  set (mid := (lo + hi) / 2) in *.
  destruct (lookup_lt_is_Some_2 l (Z.to_nat mid)) as [y Hy]; [unfold zlen in Hh; lia|].
  rewrite (py_index_nonneg l mid y) by (done || lia).
  assert (StronglySorted Z.le (id <$> l)) as Hs' by (by rewrite list_fmap_id).
  destruct (Z.ltb_spec y x); (apply IH; [lia..| |]); try done.
  - intros i z Hz Hi. pose proof (sorted_keys_le id l i (Z.to_nat mid) z y Hs' Hz Hy). simpl in *. lia.
  - intros i z Hz Hi. pose proof (sorted_keys_le id l (Z.to_nat mid) i y z Hs' Hy Hz). simpl in *. lia.
Qed.

Lemma bisect_left_spec l x :
  StronglySorted Z.le l → search_result (bisect_left l x) = Ok (zlen (filter (λ y, y < x) l)).
Proof.
  intros Hs. unfold bisect_left. rewrite bisect_loop_inv; [done|done|unfold zlen; lia..| |].
  - intros i y Hy Hi. lia.
  - intros i y Hy Hi. apply lookup_lt_Some in Hy. unfold zlen in *. lia.
Qed.

Lemma StronglySorted_app_snoc {A} (R : relation A) l x :
  StronglySorted R l → Forall (λ y, R y x) l → StronglySorted R (l ++ [x]).
Proof.
  induction 1 as [|y l Hl IH Hy]; simpl; intros Hx; [repeat constructor|].
  apply Forall_cons in Hx as [Hyx Hx]. constructor; [auto|].
  apply Forall_app. split; [done|by constructor].
Qed.

Lemma StronglySorted_last_max (l : list Z) x :
  StronglySorted Z.lt l → last l = Some x → Forall (λ y, y <= x) l.
Proof.
  induction 1 as [|y l Hl IH Hy]; intros Hx; [constructor|].
  destruct l as [|z l]; simpl in Hx; [simplify_eq; by constructor|].
  specialize (IH Hx). constructor; [|done].
  apply Forall_inv in Hy. apply Forall_inv in IH. lia.
Qed.

(** ** The offset index *)

Section offset_index_proofs.
Import OffsetIndex.

Definition add_step (e : Z * Z) : t → t := state_of (add e.1 e.2).

Definition index_inv base (i : t) : Prop :=
  base_offset i = base ∧ StronglySorted Z.lt (entries i).*1 ∧ Forall (λ o, base <= o) (entries i).*1.

Lemma add_run offset position i :
  add offset position i =
    if (offset <? base_offset i)
       || match last (entries i) with Some (o, _) => offset <=? o | None => false end
    then (i, Err Invalid)
    else (mk (base_offset i) (interval_bytes i) (entries i ++ [(offset, position)]), Ok ()).
Proof.
  unfold add. rewrite bind_get, !bind_raise_if.
  destruct (offset <? base_offset i); [done|]. by destruct (match last _ with _ => _ end).
Qed.

Lemma add_step_inv base e i : index_inv base i → index_inv base (add_step e i).
Proof.
  intros (Hb & Hs & Hf). unfold add_step, state_of. rewrite add_run.
  destruct e as [o p]. simpl. destruct (Z.ltb_spec o (base_offset i)); [done|]. simpl.
  destruct (last (entries i)) as [[o' p']|] eqn:Hlast.
  - destruct (Z.leb_spec o o'); [done|]. unfold index_inv. simpl. rewrite fmap_app.
    split_and!; [done| |].
    + apply StronglySorted_app_snoc; [done|]. eapply Forall_impl.
      * apply (StronglySorted_last_max _ o' Hs). by rewrite fmap_last, Hlast.
      * simpl. lia.
    + apply Forall_app. split; [done|]. constructor; [simpl; lia|done].
  - apply last_None in Hlast. unfold index_inv. simpl. rewrite Hlast. simpl.
    split_and!; [done|repeat constructor|]. constructor; [simpl; lia|done].
Qed.

(** Also (functional): the offset index takes a reader to the right place. After any sequence of [add]
    calls the indexed offsets strictly increase and are never below the segment base, and
    [floor_position] returns, for every target at or above the base, the position of the last
    indexed offset at or before the target (0 when there is none), so the reader scans forward and
    never past the target; its binary search always terminates. A target below the base raises
    [Missing]. *)
Theorem offset_index_floor base interval (adds : list (Z * Z)) target :
  let i := run add_step adds (mk base interval []) in
  StronglySorted Z.lt (entries i).*1 ∧ Forall (λ o, base <= o) (entries i).*1
  ∧ floor_position i target
    = if target <? base then Err Missing
      else Ok (from_option snd 0 (last (filter (λ e, e.1 <= target) (entries i)))).
Proof.
  intros i. assert (index_inv base i) as (Hb & Hs & Hf).
  { apply run_invariant; [apply add_step_inv|]. split_and!; [done|constructor..]. }
  split_and!; [done..|]. unfold floor_position. rewrite Hb. bool_split; [done|].
  apply floor_search_spec. eapply StronglySorted_weaken; [|exact Hs]. simpl. lia.
Qed.
End offset_index_proofs.

(** ** Segment lookup over the segments of a log *)

Section segment_lookup_proofs.
Import SegmentSet.

(** The segment set of a log, as its caller builds it. *)
Definition set_of (l : SegmentLog.t) : t :=
  mk (Segment.base_offset <$> SegmentLog.segments l)
     (start (SegmentLog.segments l) + zlen (contents (SegmentLog.segments l))).

Lemma chain_bases_sorted b segs :
  chain b segs →
  StronglySorted Z.le (Segment.base_offset <$> segs)
  ∧ Forall (λ o, b <= o) (Segment.base_offset <$> segs).
Proof.
  revert b. induction segs as [|s segs IH]; intros b; [repeat constructor|].
  simpl. intros [<- Hc]. destruct (IH _ Hc) as [Hs Hf].
  assert (Forall (λ o, Segment.base_offset s <= o) (Segment.base_offset <$> segs)) as Hf'.
  { eapply Forall_impl; [exact Hf|]. unfold Segment.next_offset. simpl.
    pose proof (zlen_nonneg (Segment.records s)). lia. }
  split; constructor; (done || lia).
Qed.

Lemma chain_floor b segs target :
  chain b segs → b <= target < b + zlen (contents segs) →
  ∃ s, s ∈ segs ∧ Segment.holds s target = true
       ∧ last (filter (λ o, o <= target) (Segment.base_offset <$> segs))
         = Some (Segment.base_offset s).
Proof.
  revert b. induction segs as [|s segs IH]; intros b.
  { unfold zlen. simpl. lia. }
  intros [Hb Hc] Ht. rewrite fmap_cons, filter_cons_True by lia.
  replace (zlen (contents (s :: segs))) with (zlen (Segment.records s) + zlen (contents segs)) in Ht
    by (unfold contents; simpl; by rewrite zlen_app).
  destruct (Z.lt_ge_cases target (Segment.next_offset s)) as [Hlt|Hge].
  - exists s. split_and!; [left| |].
    + unfold Segment.holds. apply andb_true_iff. split; [apply Z.leb_le; lia|by apply Z.ltb_lt].
    + destruct (chain_bases_sorted _ _ Hc) as [_ Hf].
      assert (filter (λ o, o <= target) (Segment.base_offset <$> segs) = []) as ->; [|done].
      clear -Hf Hlt. induction Hf as [|o os Ho _ IH]; [done|]. by rewrite filter_cons_False by lia.
  - destruct (IH _ Hc) as (s' & Hs' & Hh & Hlast).
    { unfold Segment.next_offset in *. lia. }
    exists s'. split_and!; [by right|done|]. by rewrite last_cons, Hlast.
Qed.

(** Also (refinement): segment lookup finds the segment that holds the record. For the segment set of
    every log reachable by appends, rolls and retention, [segment_for] of an offset the log holds
    returns the base offset of a segment of the log that holds that very offset, where
    [Segment.read] finds its record, and it raises [Missing] exactly for the offsets below the
    start or at and past the end of the log; its binary search always terminates. *)
Theorem segment_for_holds (ops : list log_op) target :
  let l := log_run ops in
  let segs := SegmentLog.segments l in
  match segment_for (set_of l) target with
  | Ok base => ∃ s, s ∈ segs ∧ Segment.base_offset s = base ∧ Segment.holds s target = true
                    ∧ start segs <= target < start segs + zlen (contents segs)
  | Err e => e = Missing ∧ (target < start segs ∨ start segs + zlen (contents segs) <= target)
  end.
Proof.
  intros l segs. pose proof (log_run_wf ops) as Hwf. fold l in Hwf.
  pose proof (log_wf_chain _ Hwf) as Hchain. fold segs in Hchain.
  unfold segment_for, set_of. simpl. fold segs.
  destruct segs as [|s0 segs'] eqn:Hsegs.
  { exfalso. destruct (log_wf_shape _ Hwf) as (pre & act & Hs & _). fold segs in Hs.
    rewrite Hsegs in Hs. by destruct pre. }
  rewrite <-Hsegs in *. replace (Segment.base_offset <$> segs)
    with (Segment.base_offset s0 :: (Segment.base_offset <$> segs')) by (by rewrite Hsegs).
  cbv iota. assert (start segs = Segment.base_offset s0) as Hstart by (by rewrite Hsegs).
  rewrite <-Hstart. destruct (Z.ltb_spec target (start segs)); [by split; [|left]|].
  destruct (Z.leb_spec (start segs + zlen (contents segs)) target); [by split; [|right]|].
  replace (start segs :: (Segment.base_offset <$> segs')) with (Segment.base_offset <$> segs)
    by (by rewrite Hstart, Hsegs).
  destruct (chain_bases_sorted _ _ Hchain) as [Hsorted _].
  rewrite floor_search_spec by (by rewrite list_fmap_id).
  destruct (chain_floor _ _ target Hchain) as (s & Hs & Hh & Hlast); [done|].
  simpl in *. unfold id in *. rewrite Hlast. simpl. by exists s.
Qed.
End segment_lookup_proofs.

(** ** Time seeks *)

Section time_index_proofs.
Import TimeIndex.
Implicit Types (es rs : list (Z * Z)).

Definition append_step (r : Z * Z) : t → t := state_of (on_append r.1 r.2).

(** The offset of the first record at or after a time, or the log end. *)
Definition seek rs (log_end target : Z) : Z :=
  match filter (λ r, target <= r.1) rs with (_, o) :: _ => o | [] => log_end end.

Lemma filter_lt_ge es target :
  StronglySorted Z.lt es.*1 →
  es = filter (λ e, e.1 < target) es ++ filter (λ e, target <= e.1) es.
Proof.
  induction es as [|e es IH]; [done|]. rewrite fmap_cons. intros [Hs Hall]%StronglySorted_inv.
  rewrite !filter_cons. destruct (decide (e.1 < target)).
  - rewrite decide_False by lia. simpl. f_equal. by apply IH.
  - rewrite decide_True by lia.
    assert (filter (λ e, e.1 < target) es = []) as Hnil.
    { clear -Hall n. rewrite Forall_fmap in Hall. induction Hall as [|x es Hx _ IH]; [done|].
      simpl in Hx. by rewrite filter_cons_False by lia. }
    rewrite Hnil. simpl. f_equal. rewrite Hnil in IH. by apply IH.
Qed.

Lemma filter_fst_length es target :
  zlen (filter (λ y, y < target) es.*1) = zlen (filter (λ e, e.1 < target) es).
Proof.
  unfold zlen. f_equal. induction es as [|e es IH]; [done|]. rewrite fmap_cons, !filter_cons.
  destruct (decide (e.1 < target)); simpl; by rewrite IH.
Qed.

Record time_inv (n : Z) rs (x : t) : Prop := {
  time_interval : interval x = n;
  time_seen : records_seen x = zlen rs;
  time_start : log_start x = from_option snd 0 (head rs);
  time_end : log_end x = from_option (λ r, r.2 + 1) 0 (last rs);
  time_head : head (entries x) = head rs;
  time_sorted : StronglySorted Z.lt (entries x).*1;
  time_sub : entries x `sublist_of` rs;
  (* with every record offered to the index, only records no later than an earlier one are left out *)
  time_all : n = 1 →
    Forall (λ r, match last (entries x) with Some e => r.1 <= e.1 | None => False end) rs
    ∧ ∀ target le, seek rs le target = seek (entries x) le target;
}.

Lemma seek_app rs r le target :
  seek (rs ++ [r]) le target = seek rs (if target <=? r.1 then r.2 else le) target.
Proof.
  unfold seek. rewrite filter_app, filter_cons, filter_nil.
  destruct (filter (λ r, target <= r.1) rs) as [|[tm o] l]; [|done].
  destruct (Z.leb_spec target r.1); [rewrite decide_True by done|rewrite decide_False by lia]; [|done].
  by destruct r.
Qed.

Lemma seek_irrelevant rs le1 le2 target :
  Exists (λ r, target <= r.1) rs → seek rs le1 target = seek rs le2 target.
Proof.
  intros (r & Hr & Ht)%Exists_exists. unfold seek.
  destruct (filter (λ r, target <= r.1) rs) as [|[] ?] eqn:E; [|done].
  exfalso. assert (r ∈ filter (λ r, target <= r.1) rs) as Hin by (by apply list_elem_of_filter).
  rewrite E in Hin. by apply elem_of_nil in Hin.
Qed.

Lemma append_step_inv n rs x r :
  1 <= n → time_inv n rs x → time_inv n (rs ++ [r]) (append_step r x).
Proof.
  intros Hn [Hi Hseen Hstart Hend Hhead Hsort Hsub Hall].
  unfold append_step, state_of, on_append. rewrite bind_get, bind_pure_of.
  unfold py_mod. rewrite Hi. destruct (Z.eqb_spec n 0); [lia|]. cbv beta iota. unfold put.
  destruct r as [tm o]. simpl.
  set (indexed := (records_seen x mod n =? 0) && match last (entries x) with
         Some (tm', _) => tm' <? tm | None => true end).
  assert (rs = [] → indexed = true ∧ entries x = []) as Hfirst.
  { intros ->. apply sublist_nil_r in Hsub. unfold indexed. rewrite Hseen, Hsub, (zlen_nil (A:=Z * Z)).
    by rewrite Z.mod_0_l. }
  split; simpl.
  - done.
  - rewrite zlen_app, Hseen. done.
  - rewrite Hseen. destruct rs as [|r0 rs]; [done|].
    destruct (Z.eqb_spec (zlen (r0 :: rs)) 0) as [Hz|]; [by apply zlen_zero in Hz|]. done.
  - by rewrite last_snoc.
  - destruct rs as [|r0 rs].
    + destruct (Hfirst eq_refl) as [-> ->]. done.
    + destruct (entries x) as [|e es]; [done|]. destruct indexed; done.
  - destruct indexed eqn:Hix; [|done]. rewrite fmap_app.
    apply StronglySorted_app_snoc; [done|]. unfold indexed in Hix. apply andb_true_iff in Hix as [_ Hix].
    destruct (last (entries x)) as [[tm' o']|] eqn:Hlast.
    + eapply Forall_impl; [apply (StronglySorted_last_max _ tm' Hsort); by rewrite fmap_last, Hlast|].
      simpl. lia.
    + apply last_None in Hlast. rewrite Hlast. constructor.
  - destruct indexed; [by apply sublist_app|]. by apply sublist_inserts_r.
  - intros Hn1. destruct (Hall Hn1) as [Hmax Hseek]. subst n.
    assert (indexed = match last (entries x) with Some (tm', _) => tm' <? tm | None => true end) as Hix.
    { unfold indexed. by rewrite Hn1, Z.mod_1_r. }
    clearbody indexed. split.
    + destruct (last (entries x)) as [[tm' o']|] eqn:Hlast.
      * rewrite Hix. destruct (Z.ltb_spec tm' tm); [rewrite last_snoc|rewrite Hlast];
          apply Forall_app; (split; [|constructor; [simpl; lia|done]]);
          (eapply Forall_impl; [exact Hmax|]); simpl; lia.
      * rewrite Hix, last_snoc. destruct rs as [|r0 rs]; [simpl; by constructor|].
        by apply Forall_inv in Hmax.
    + intros target le. rewrite seek_app, Hseek. destruct indexed; [by rewrite seek_app|].
      simpl. destruct (Z.leb_spec target tm); [|done]. apply seek_irrelevant.
      destruct (last (entries x)) as [[tm' o']|] eqn:Hlast; [|done].
      symmetry in Hix. apply Z.ltb_ge in Hix. apply Exists_exists. exists (tm', o').
      split; [by apply last_Some_elem_of|]. simpl. lia.
Qed.

Lemma time_run_inv n rs :
  1 <= n → time_inv n rs (run append_step rs (mk n [] 0 0 0)).
Proof.
  intros Hn. induction rs as [|r rs IH] using rev_ind.
  - split; try done; by constructor.
  - rewrite run_app. by apply append_step_inv.
Qed.

Lemma offset_for_time_entries n rs x target :
  time_inv n rs x → rs ≠ [] →
  fst <$> (match offset_for_time x target with Ok a => Some a | Err _ => None end)
  = Some (seek (entries x) (log_end x) target).
Proof.
  intros [_ _ Hstart _ Hhead Hsort _ _] Hne. unfold offset_for_time.
  destruct (entries x) as [|[t0 o0] es] eqn:Hes; [by destruct rs|].
  cbn [head]. destruct (last ((t0, o0) :: es)) as [[t1 o1]|] eqn:Hlast;
    [|by apply last_None in Hlast].
  destruct rs as [|r rs]; [done|]. simpl in Hhead. injection Hhead as <-. simpl in Hstart.
  destruct (Z.leb_spec target t0).
  { unfold seek. rewrite filter_cons_True by done. simpl. by rewrite Hstart. }
  rewrite <-Hes in *. pose proof (StronglySorted_last_max _ t1 Hsort) as Hmax.
  rewrite fmap_last, Hlast in Hmax. specialize (Hmax eq_refl). rewrite Forall_fmap in Hmax.
  pose proof (filter_lt_ge (entries x) target Hsort) as Hsplit.
  unfold seek. destruct (Z.ltb_spec t1 target).
  - assert (filter (λ r, target <= r.1) (entries x) = []) as ->; [|done].
    clear -Hmax H0. induction Hmax as [|e es He _ IH]; [done|]. simpl in He.
    by rewrite filter_cons_False by lia.
  - rewrite bisect_left_spec.
    2: { eapply StronglySorted_weaken; [|exact Hsort]. simpl. lia. }
    simpl. rewrite filter_fst_length.
    destruct (filter (λ r, target <= r.1) (entries x)) as [|[tm o] l] eqn:Hge.
    { assert ((t1, o1) ∈ filter (λ r, target <= r.1) (entries x)) as Hin.
      { apply list_elem_of_filter. split; [done|]. by apply last_Some_elem_of. }
      rewrite Hge in Hin. by apply elem_of_nil in Hin. }
    rewrite (py_index_nonneg _ _ (tm, o)); [done|apply zlen_nonneg|].
    unfold zlen. rewrite Nat2Z.id.
    pose proof (list_lookup_middle (filter (λ e, e.1 < target) (entries x)) l (tm, o) _ eq_refl)
      as Hidx. by rewrite <-Hsplit in Hidx.
Qed.

(** Also (functional): a seek by time lands on the first record indexed at or after it. After any
    records are appended to a fresh index, its entries are some of those records in order, with
    strictly increasing receive times, and [offset_for_time] returns the offset of the first entry
    at or after the target (the log end when there is none, [Invalid] when nothing was appended);
    with interval 1 that is exactly the first record received at or after the target, even when
    receive times repeat or go back. *)
Theorem time_seek n x0 (rs : list (Z * Z)) target (Hmake : make n = Ok x0) :
  let x := run append_step rs x0 in
  entries x `sublist_of` rs ∧ StronglySorted Z.lt (entries x).*1
  ∧ match offset_for_time x target with
    | Err e => e = Invalid ∧ rs = []
    | Ok (offset, _) =>
        let log_end := from_option (λ r, r.2 + 1) 0 (last rs) in
        rs ≠ [] ∧ offset = seek (entries x) log_end target
        ∧ (n = 1 → offset = seek rs log_end target)
    end.
Proof.
  unfold make in Hmake. destruct (Z.ltb_spec n 1); [done|]. injection Hmake as <-.
  intros x. pose proof (time_run_inv n rs ltac:(lia)) as Hinv. fold x in Hinv.
  split_and!; [apply (time_sub _ _ _ Hinv)|apply (time_sorted _ _ _ Hinv)|].
  destruct rs as [|r rs]; [done|].
  pose proof (offset_for_time_entries n (r :: rs) x target Hinv ltac:(done)) as Hseek.
  rewrite <-(time_end _ _ _ Hinv).
  destruct (offset_for_time x target) as [[offset msg]|e]; [|done]. simpl in Hseek.
  injection Hseek as ->. split_and!; [done..|]. intros Hn.
  symmetry. by apply (time_all _ _ _ Hinv).
Qed.

Lemma time_seek_witness :
  let x := run append_step [(10, 0); (30, 1); (20, 2); (40, 3)] (mk 1 [] 0 0 0) in
  entries x `sublist_of` [(10, 0); (30, 1); (20, 2); (40, 3)]
  ∧ (fst <$> (match offset_for_time x 25 with Ok a => Some a | Err _ => None end)) = Some 1.
Proof.
  intros x.
  destruct (time_seek 1 (mk 1 [] 0 0 0) [(10, 0); (30, 1); (20, 2); (40, 3)] 25 eq_refl) as (Hsub & _).
  split; [exact Hsub|vm_compute; reflexivity].
Defined.

(** With a sparser index the seek skips records at or after the target that were not indexed. *)
Lemma sparse_seek_skips :
  let rs := [(10, 0); (20, 1); (30, 2)] in
  let x := run append_step rs (mk 2 [] 0 0 0) in
  (fst <$> (match offset_for_time x 15 with Ok a => Some a | Err _ => None end)) = Some 2
  ∧ seek rs 3 15 = 1.
Proof. vm_compute. done. Qed.
End time_index_proofs.

(** ** Fetch planning *)

Section fetch_proofs.
Import FetchRequest FetchResult.

Definition total (sizes : list Z) : Z := zsum id sizes.

(** What the loop does to a batch that still fits: it takes a prefix [taken] of the sizes. *)
Lemma fetch_loop_spec (req : FetchRequest.t) batch sizes :
  Forall (λ s, 0 <= s) sizes → 0 <= total batch <= max_bytes req →
  match fetch_loop req sizes batch (total batch) with
  | inl r =>
      (∃ size rest, batch = [] ∧ sizes = size :: rest ∧ max_bytes req < size
         ∧ records_returned r = 1 ∧ bytes_returned r = size)
      ∨ ∃ taken rest, sizes = taken ++ rest ∧ taken ≠ []
          ∧ records_returned r = zlen (batch ++ taken) ∧ bytes_returned r = total (batch ++ taken)
          ∧ min_bytes req <= total (batch ++ taken) <= max_bytes req
  | inr (batch', n) =>
      ∃ taken rest, sizes = taken ++ rest ∧ batch' = batch ++ taken ∧ n = total batch'
        ∧ n <= max_bytes req
        ∧ (taken = [] ∨ n < min_bytes req)
        ∧ match rest with [] => True | s :: _ => batch' ≠ [] ∧ max_bytes req < n + s end
  end.
Proof.
  revert batch. induction sizes as [|s sizes IH]; intros batch Hpos Hfit; cbn [fetch_loop].
  - exists [], []. rewrite (app_nil_r batch). split_and!; solve [done|lia|by left].
  - apply Forall_cons in Hpos as [Hs Hpos].
    assert (total (batch ++ [s]) = total batch + s) as Htot.
    { unfold total. rewrite zsum_app. simpl. unfold id. lia. }
    destruct (negb (bool_decide (batch = [])) && (max_bytes req <? total batch + s)) eqn:Hstop;
      bool_prop.
    { exists [], (s :: sizes). rewrite (app_nil_r batch). split_and!; solve [done|lia|by left]. }
    destruct (Z.ltb_spec (max_bytes req) s).
    { left. exists s, sizes. destruct Hstop as [Hnil|Hle]; bool_prop; [|lia]. by subst. }
    assert (total batch + s <= max_bytes req) as Hfit'.
    { destruct Hstop as [Hnil|Hle]; bool_prop; [|lia]. subst. simpl in *. lia. }
    destruct (Z.leb_spec (min_bytes req) (total batch + s)).
    { right. exists [s], sizes. simpl. rewrite Htot. split_and!; solve [done|lia]. }
    rewrite <-Htot. specialize (IH (batch ++ [s]) Hpos ltac:(lia)).
    destruct (fetch_loop req sizes (batch ++ [s]) (total (batch ++ [s]))) as [r|[batch' n]].
    + destruct IH as [(size & rest & Hb & _)|(taken & rest & -> & Hne & Hr)].
      { by apply app_eq_nil in Hb as [_ Hb]. }
      right. exists (s :: taken), rest. by rewrite <-app_assoc in Hr.
    + destruct IH as (taken & rest & -> & -> & -> & Hle & Hmin & Hrest).
      exists (s :: taken), rest. rewrite <-app_assoc in *. simpl in *.
      split_and!; try done. right. destruct Hmin as [->|?]; [|done]. lia.
Qed.

(** Also (bounds): a fetch is bounded, honest and makes progress. For a request the constructor
    accepts and record sizes that are not negative, [plan_fetch] returns a prefix of the available
    records, reporting its exact count and byte sum: either one oversized record alone, when the
    very first one exceeds max-bytes, or a batch within max-bytes. It returns fewer than min-bytes
    only after max-wait has expired or by holding with nothing; once max-wait has expired it
    returns at least one record whenever one is available. *)
Theorem plan_fetch_spec mn mx wait req (sizes : list Z) now_wait
    (Hmake : FetchRequest.make mn mx wait = Ok req)
    (Hsizes : Forall (λ s, 0 <= s) sizes) :
  let r := plan_fetch req sizes now_wait in
  ∃ taken rest, sizes = taken ++ rest
    ∧ records_returned r = zlen taken ∧ bytes_returned r = total taken
    ∧ (bytes_returned r <= mx ∨ ∃ size, taken = [size] ∧ mx < size)
    ∧ (bytes_returned r < mn → wait <= now_wait ∨ taken = [])
    ∧ (wait <= now_wait → sizes ≠ [] → taken ≠ []).
Proof.
  unfold FetchRequest.make in Hmake. repeat bool_split_in Hmake; simplify_eq/=. bool_prop.
  set (req := FetchRequest.mk mn mx wait).
  pose proof (fetch_loop_spec req [] sizes Hsizes ltac:(simpl; lia)) as Hloop.
  unfold plan_fetch. change (total []) with 0 in Hloop.
  destruct (fetch_loop req sizes [] 0) as [r|[batch n]].
  - destruct Hloop as [(size & rest & _ & -> & Hbig & -> & ->)|(taken & rest & -> & Hne & -> & -> & Hb)].
    + exists [size], rest. unfold total, id. simpl in *. split_and!; try solve [done|lia]; eauto.
    + exists taken, rest. simpl in *. split_and!; solve [done|lia|left; lia].
  - destruct Hloop as (taken & rest & -> & -> & -> & Hle & Hmin & Hrest). simpl.
    destruct (Z.leb_spec wait now_wait); simpl.
    + exists taken, rest. simpl in *. split_and!; try solve [done|lia|left; lia].
      intros _ Hsome ->. destruct rest as [|s rest]; [done|]. by destruct Hrest.
    + exists [], (taken ++ rest). split_and!; solve [done|lia|by right|left; simpl; lia].
Qed.

Lemma plan_fetch_spec_witness :
  let req := FetchRequest.mk 100 150 5 in
  records_returned (plan_fetch req [60; 70; 80] 0) = 2
  ∧ ∃ taken rest, [60; 200] = taken ++ rest
      ∧ records_returned (plan_fetch req [60; 200] 9) = zlen taken
      ∧ (5 <= 9 → [60; 200] ≠ [] → taken ≠ []).
Proof.
  intros req. split; [vm_compute; reflexivity|].
  assert (Forall (λ s, 0 <= s) [60; 200]) as Hs by (repeat constructor; lia).
  destruct (plan_fetch_spec 100 150 5 req [60; 200] 9 eq_refl Hs)
    as (taken & rest & H1 & H2 & _ & _ & _ & H6).
  exists taken, rest. split; [exact H1|]. split; [exact H2|exact H6].
Defined.
End fetch_proofs.
