(* ===== verification/Rebalance.v ===== *)
(** * Group membership and partition assignment

    [relay/rebalance.py], [relay/rangeassign.py], [relay/cooperative.py],
    [relay/liveness.py] and [relay/staticmembership.py]. *)

From S2P Require Import Prelude PyDict PyBytes.

(** [min(l, key=...)] of a non-empty list: the first of the least elements *)
Definition py_argmin {A} (lt : A → A → bool) (x : A) (l : list A) : A :=
  foldl (λ best y, if lt y best then y else best) x l.

(** [l.remove(x)] for an [x] of the list *)
Fixpoint list_remove1 (x : Z) (l : list Z) : list Z :=
  match l with
  | [] => []
  | y :: l' => if y =? x then l' else y :: list_remove1 x l'
  end.

Module rebalance.
(** [relay/rebalance.py] _balanced_counts *)
Definition _balanced_counts (partitions members : Z) : list Z :=
  let base := partitions / members in
  let extra := partitions mod members in
  (λ index, base + if index <? extra then 1 else 0) <$> seqZ 0 members.

(** [relay/rebalance.py] _no_members: the exception *)
Definition _no_members : exn := Invalid.

Module Assignment.
(** [relay/rebalance.py] class Assignment *)
Record t := mk { by_member : pydict string (list Z) }.

(** [relay/rebalance.py] Assignment.balanced *)
Definition balanced (self : t) : result bool :=
  let counts := py_sorted Z.le (zlen <$> d_values (by_member self)) in
  widest ← py_index counts (-1);
  narrowest ← py_index counts 0;
  Ok (widest - narrowest <=? 1).

(** [relay/rebalance.py] Assignment.owner_of *)
Definition owner_of (self : t) (partition : Z) : option string :=
  head (fst <$> filter (λ p, partition ∈ p.2) (by_member self)).
End Assignment.

(** the entry of a member, which is always a key of [targets] and of [result] *)
Definition count_of (targets : pydict string Z) (m : string) : Z := d_getd targets m 0.
Definition parts_of (result : pydict string (list Z)) (m : string) : list Z := d_getd result m [].

(** [result[m].append(part)] *)
Definition give (result : pydict string (list Z)) (m : string) (part : Z) :
    pydict string (list Z) := d_set result m (parts_of result m ++ [part]).

(** [relay/rebalance.py:75-81] sticky_assign *)
Fixpoint keep_parts (targets : pydict string Z) (member : string) (parts : list Z)
    (result : pydict string (list Z)) (unassigned : list Z) :
    pydict string (list Z) * list Z :=
  match parts with
  | [] => (result, unassigned)
  | part :: parts' =>
      if bool_decide (part ∈ unassigned)
         && (zlen (parts_of result member) <? count_of targets member)
      then keep_parts targets member parts' (give result member part)
             (list_remove1 part unassigned)
      else keep_parts targets member parts' result unassigned
  end.

(** [relay/rebalance.py:73-81] sticky_assign *)
Fixpoint keep_all (targets : pydict string Z) (previous : pydict string (list Z))
    (members : list string) (result : pydict string (list Z)) (unassigned : list Z) :
    pydict string (list Z) * list Z :=
  match members with
  | [] => (result, unassigned)
  | member :: members' =>
      let '(result, unassigned) :=
        keep_parts targets member (d_getd previous member []) result unassigned in
      keep_all targets previous members' result unassigned
  end.

(** [(len(result[m]) - targets[m], m)] compared as a tuple *)
Definition needier (targets : pydict string Z) (result : pydict string (list Z)) (m1 m2 : string) :
    bool :=
  let k m := zlen (parts_of result m) - count_of targets m in
  (k m1 <? k m2) || ((k m1 =? k m2) && bool_decide (String.le m1 m2) && negb (bool_decide (m1 = m2))).

(** [relay/rebalance.py:88-102] sticky_assign *)
Fixpoint place (targets : pydict string Z) (member0 : string) (others : list string)
    (has_previous : bool) (kept_owner : Z → option string) (parts : list Z)
    (result : pydict string (list Z)) (moved : Z) : pydict string (list Z) * Z :=
  match parts with
  | [] => (result, moved)
  | part :: parts' =>
      let target_member := py_argmin (needier targets result) member0 (member0 :: others) in
      let result := give result target_member part in
      let relocated :=
        match kept_owner part with None => false | Some o => negb (bool_decide (o = target_member)) end in
      let newly_placed :=
        match kept_owner part with None => has_previous | Some _ => false end in
      place targets member0 others has_previous kept_owner parts' result
            (if relocated || newly_placed then moved + 1 else moved)
  end.

(** [relay/rebalance.py] sticky_assign *)
Definition sticky_assign (partitions : list Z) (members : list string)
    (previous : option Assignment.t) : result (Assignment.t * Z) :=
  match py_sorted String.le members with
  | [] => Err _no_members
  | member0 :: others =>
      let members := member0 :: others in
      let targets := foldl (λ d p, d_set d p.1 p.2) []
                       (zip members (_balanced_counts (zlen partitions) (zlen members))) in
      let empty := foldl (λ d m, d_set d m []) [] members in
      let '(result, unassigned) :=
        match previous with
        | Some prev => keep_all targets (Assignment.by_member prev) members empty partitions
        | None => (empty, partitions)
        end in
      let kept_owner part :=
        match previous with Some prev => Assignment.owner_of prev part | None => None end in
      let '(result, moved) :=
        place targets member0 others (bool_decide (is_Some previous)) kept_owner
              (py_sorted Z.le unassigned) result 0 in
      Ok (Assignment.mk (prod_map id (py_sorted Z.le) <$> result), moved)
  end.

(** [relay/rebalance.py:119-120] naive_moved *)
Fixpoint deal (members : list string) (index : Z) (parts : list Z)
    (fresh : pydict string (list Z)) : result (pydict string (list Z)) :=
  match parts with
  | [] => Ok fresh
  | part :: parts' =>
      slot ← py_mod index (zlen members);
      member ← py_index members slot;
      deal members (index + 1) parts' (give fresh member part)
  end.

(** [relay/rebalance.py] naive_moved *)
Definition naive_moved (partitions : list Z) (members : list string) (previous : Assignment.t) :
    result Z :=
  let members := py_sorted String.le members in
  fresh ← deal members 0 (py_sorted Z.le partitions) (foldl (λ d m, d_set d m []) [] members);
  Ok (zsum (λ p : string * list Z, zlen (filter (λ part,
              Assignment.owner_of previous part ≠ None
              ∧ Assignment.owner_of previous part ≠ Some p.1) p.2)) fresh).

Example naive_moves_more :
  naive_moved [0; 1; 2; 3] ["a"; "b"; "c"]%string
    (Assignment.mk [("a", [0; 1]); ("b", [2; 3])]%string) = Ok 3.
Proof. reflexivity. Qed.
End rebalance.
Import rebalance.

Module rangeassign.
(** [relay/rangeassign.py:38-42] range_assign *)
Fixpoint range_loop (per extra index offset : Z) (consumers : list string)
    (result : pydict string (list Z)) : pydict string (list Z) :=
  match consumers with
  | [] => result
  | consumer :: consumers' =>
      let count := per + (if index <? extra then 1 else 0) in
      range_loop per extra (index + 1) (offset + count) consumers'
                 (d_set result consumer (py_range offset (offset + count)))
  end.
(** [relay/rangeassign.py] range_assign *)
Definition range_assign (partitions : Z) (consumers : list string) :
    result (pydict string (list Z)) :=
  if bool_decide (consumers = []) then Err Invalid
  else
    let consumers := py_sorted String.le consumers in
    let per := partitions / zlen consumers in
    let extra := partitions mod zlen consumers in
    let empty := foldl (λ d c, d_set d c []) [] consumers in
    Ok (range_loop per extra 0 0 consumers empty).

Module MultiTopicAssignment.
(** [relay/rangeassign.py] class MultiTopicAssignment *)
Record t := mk {
  topic_partitions : pydict string Z;
  consumers : list string;
}.

(** [relay/rangeassign.py:55-58] MultiTopicAssignment.assign *)
Fixpoint assign_loop (consumers : list string) (topics : pydict string Z)
    (result : pydict string (pydict string (list Z))) :
    Prelude.result (pydict string (pydict string (list Z))) :=
  match topics with
  | [] => Ok result
  | (topic, count) :: topics' =>
      per_topic ← range_assign count consumers;
      assign_loop consumers topics'
        (foldl (λ r p, d_set r p.1 (d_set (d_getd r p.1 []) topic p.2)) result per_topic)
  end.
(** [relay/rangeassign.py] MultiTopicAssignment.assign *)
Definition assign (self : t) : result (pydict string (pydict string (list Z))) :=
  assign_loop (consumers self) (topic_partitions self)
    (foldl (λ d c, d_set d c []) [] (py_sorted String.le (consumers self))).

(** [relay/rangeassign.py] MultiTopicAssignment.co_partitioned *)
Definition co_partitioned (self : t) (consumer topic_a topic_b : string) : result bool :=
  assignments ← assign self;
  match d_get assignments consumer with
  | None => Err KeyError
  | Some assignment => Ok (bool_decide (d_get assignment topic_a = d_get assignment topic_b))
  end.

(** [relay/rangeassign.py] MultiTopicAssignment.imbalance_report *)
Definition imbalance_report (self : t) : result string :=
  assignment ← assign self;
  let totals := (λ p, zsum zlen (d_values p.2)) <$> assignment in
  match totals with
  | [] => Err ValueError
  | x :: l =>
      let widest := py_max x l in
      let narrowest := py_min x l in
      let gap := widest - narrowest in
      if gap =? 0 then
        Ok ("range assignment is perfectly balanced here; "
            +:+ "co-partitioning cost nothing this time")
      else
        Ok ("range assignment spread " +:+ zs narrowest +:+ ".." +:+ zs widest +:+ " "
            +:+ "partitions per consumer (gap " +:+ zs gap +:+ "); the price of "
            +:+ "co-partitioning, stated so a team sees what it paid "
            +:+ "or is overpaying for")
  end.
End MultiTopicAssignment.
End rangeassign.
Import rangeassign.

Module cooperative.
Module CooperativeRebalance.
(** [relay/cooperative.py] class CooperativeRebalance *)
Record t := mk {
  current : pydict string (gset Z);
  target : pydict string (gset Z);
  revoked : pydict string (gset Z);
  phase : string;
}.
Definition new (current target : pydict string (gset Z)) : t := mk current target [] "start".
Definition set_current (c : pydict string (gset Z)) (self : t) : t :=
  mk c (target self) (revoked self) (phase self).

Definition held_by (d : pydict string (gset Z)) (member : string) : gset Z := d_getd d member ∅.

(** [relay/cooperative.py] CooperativeRebalance.to_revoke *)
Definition to_revoke (self : t) : pydict string (gset Z) :=
  foldl (λ result p,
    let losing := p.2 ∖ held_by (target self) p.1 in
    if bool_decide (losing = ∅) then result else d_set result p.1 losing) [] (current self).

(** [relay/cooperative.py] CooperativeRebalance.revoke_phase *)
Definition revoke_phase : act t string :=
  self ← get;
  raise_if (negb (bool_decide (phase self = "start"))) Invalid;;
  let revoked := to_revoke self in
  let current := foldl (λ d p, d_set d p.1 (held_by d p.1 ∖ p.2)) (current self) revoked in
  put (mk current (target self) revoked "revoked");;
  let moved := zsum (λ losing : gset Z, Z.of_nat (size losing)) (d_values revoked) in
  mret ("revoked " +:+ zs moved +:+ " partition(s); the ones staying put never paused").

(** [relay/cooperative.py] CooperativeRebalance._owned_now *)
Definition _owned_now (self : t) : gset Z := ⋃ (d_values (current self)).

(** [relay/cooperative.py:67-76] CooperativeRebalance.assign_phase *)
Definition assign_member (freed : gset Z) (p : string * gset Z) : act t unit :=
  let '(member, wanted) := p in
  self ← get;
  let gaining := wanted ∖ held_by (current self) member in
  raise_if (negb (bool_decide ((gaining ∖ freed) ∩ _owned_now self = ∅))) Invalid;;
  put (set_current (d_set (current self) member wanted) self).

(** [relay/cooperative.py] CooperativeRebalance.assign_phase *)
Definition assign_phase : act t string :=
  self ← get;
  raise_if (negb (bool_decide (phase self = "revoked"))) Invalid;;
  let freed := ⋃ (d_values (revoked self)) in
  for_each (target self) (assign_member freed);;
  modify (λ self, mk (current self) (target self) (revoked self) "done");;
  mret "assigned; no partition was ever owned by two".

(** [relay/cooperative.py] CooperativeRebalance.never_double_owned *)
Fixpoint double_loop (seen : gset Z) (values : list (gset Z)) : bool :=
  match values with
  | [] => true
  | held :: values' =>
      if negb (bool_decide (held ∩ seen = ∅)) then false else double_loop (seen ∪ held) values'
  end.
(** [relay/cooperative.py] CooperativeRebalance.never_double_owned *)
Definition never_double_owned (self : t) : bool := double_loop ∅ (d_values (current self)).
End CooperativeRebalance.
End cooperative.
Import cooperative.

Module staticmembership.
Module StaticMember.
(** [relay/staticmembership.py] class StaticMember *)
Record t := mk {
  instance_id : string;
  partitions : gset Z;
  last_seen : Z;
  connected : bool;
}.
End StaticMember.

Module StaticGroup.
(** [relay/staticmembership.py] class StaticGroup *)
Record t := mk {
  session_timeout : Z;
  members : gmap string StaticMember.t;
  rebalances_avoided : Z;
  rebalances_forced : Z;
}.
Definition set_member (id : string) (m : StaticMember.t) (self : t) : t :=
  mk (session_timeout self) (<[id := m]> (members self)) (rebalances_avoided self)
     (rebalances_forced self).

(** [relay/staticmembership.py] StaticGroup.__post_init__ *)
Definition make (session_timeout : Z) : result t :=
  if session_timeout <? 1 then Err Invalid else Ok (mk session_timeout ∅ 0 0).

Definition sorted_repr (s : gset Z) : string := repr_list zs (py_sorted Z.le (elements s)).

(** [relay/staticmembership.py] StaticGroup.join *)
Definition join (instance_id : string) (partitions : gset Z) (now : Z) : act t string :=
  modify (set_member instance_id (StaticMember.mk instance_id partitions now true));;
  mret (instance_id +:+ " joined with " +:+ sorted_repr partitions).

(** [relay/staticmembership.py] StaticGroup.disconnect *)
Definition disconnect (instance_id : string) (now : Z) : act t unit :=
  self ← get;
  match members self !! instance_id with
  | None => raise Invalid
  | Some member =>
      modify (set_member instance_id
        (StaticMember.mk (StaticMember.instance_id member) (StaticMember.partitions member)
           now false))
  end.

(** [relay/staticmembership.py] StaticGroup.reconnect *)
Definition reconnect (instance_id : string) (now : Z) : act t string :=
  self ← get;
  match members self !! instance_id with
  | None => raise Invalid
  | Some member =>
      if session_timeout self <? now - StaticMember.last_seen member then
        put (mk (session_timeout self) (members self) (rebalances_avoided self)
                (rebalances_forced self + 1));;
        raise Invalid
      else
        put (mk (session_timeout self)
                (<[instance_id := StaticMember.mk (StaticMember.instance_id member)
                                    (StaticMember.partitions member) now true]> (members self))
                (rebalances_avoided self + 1) (rebalances_forced self));;
        mret (instance_id +:+ " reclaimed " +:+ sorted_repr (StaticMember.partitions member)
              +:+ " with no rebalance")
  end.

(** [relay/staticmembership.py] StaticGroup.report *)
Definition report (self : t) : string :=
  zs (rebalances_avoided self) +:+ " rebalance(s) avoided, " +:+ zs (rebalances_forced self)
  +:+ " forced; the avoided count is the whole value of static membership and it only "
  +:+ "shows up during a deploy".
End StaticGroup.
End staticmembership.
Import staticmembership.

Module liveness.
Module Member.
(** [relay/liveness.py] class Member *)
Record t := mk {
  name : string;
  last_heartbeat : Z;
  generation : Z;
  evicted : bool;
}.
Definition evict (self : t) : t := mk (name self) (last_heartbeat self) (generation self) true.
End Member.

Module LivenessTracker.
(** [relay/liveness.py] class LivenessTracker *)
Record t := mk {
  session_timeout : Z;
  members : pydict string Member.t;
  generation : Z;
  evictions : Z;
}.

(** [relay/liveness.py] LivenessTracker.__post_init__ *)
Definition make (session_timeout : Z) : result t :=
  if session_timeout <? 1 then Err Invalid else Ok (mk session_timeout [] 0 0).

(** [relay/liveness.py] LivenessTracker.join *)
Definition join (name : string) (now : Z) : act t string :=
  self ← get;
  let gen := generation self + 1 in
  put (mk (session_timeout self) (d_set (members self) name (Member.mk name now gen false)) gen
          (evictions self));;
  mret (name +:+ " joined at generation " +:+ zs gen).

(** [relay/liveness.py] LivenessTracker.heartbeat *)
Definition heartbeat (name : string) (now : Z) : act t string :=
  self ← get;
  match d_get (members self) name with
  | None => raise Invalid
  | Some member =>
      raise_if (Member.evicted member) Fenced;;
      put (mk (session_timeout self)
              (d_set (members self) name
                 (Member.mk (Member.name member) now (Member.generation member)
                            (Member.evicted member)))
              (generation self) (evictions self));;
      mret (name +:+ " renewed at " +:+ zs now)
  end.

Definition silent (self : t) (now : Z) (member : Member.t) : bool :=
  negb (Member.evicted member) && (session_timeout self <? now - Member.last_heartbeat member).

(** [relay/liveness.py] LivenessTracker.sweep *)
Definition sweep (now : Z) : act t (list string) :=
  self ← get;
  let newly_dead := Member.name <$> filter (λ m, silent self now m = true) (d_values (members self)) in
  put (mk (session_timeout self)
          (prod_map id (λ m, if silent self now m then Member.evict m else m) <$> members self)
          (if bool_decide (newly_dead = []) then generation self else generation self + 1)
          (evictions self + zlen newly_dead));;
  mret (py_sorted String.le newly_dead).

(** [relay/liveness.py] LivenessTracker.live_members *)
Definition live_members (self : t) : list string :=
  py_sorted String.le (fst <$> filter (λ p, Member.evicted p.2 = false) (members self)).

(** [relay/liveness.py] LivenessTracker.status *)
Definition status (self : t) (now : Z) : string :=
  let suspected :=
    Member.name <$> filter (λ m, negb (Member.evicted m)
                                 && (session_timeout self / 2 <? now - Member.last_heartbeat m) = true)
                      (d_values (members self)) in
  zs (zlen (live_members self)) +:+ " live, " +:+ zs (zlen suspected)
  +:+ " suspected (silent past half the timeout), " +:+ zs (evictions self)
  +:+ " evicted; a broker that treats every hiccup as death rebalances to a standstill".
End LivenessTracker.
End liveness.
Import liveness.

(** ** Sticky assignment *)

Lemma py_argmin_spec {A} (lt : A → A → bool) (k : A → Z) x l :
  (∀ y b, lt y b = true → k y <= k b) → (∀ y b, lt y b = false → k b <= k y) →
  py_argmin lt x l ∈ x :: l ∧ ∀ y, y ∈ x :: l → k (py_argmin lt x l) <= k y.
Proof.
  intros Hlt Hge. unfold py_argmin. revert x. induction l as [|z l IH]; intros x; simpl.
  - split; [left|]. by intros y ->%list_elem_of_singleton.
  - specialize (IH (if lt z x then z else x)) as [Hin Hmin]. split.
    + destruct (lt z x); set_solver.
    + intros y Hy.
      assert (k (if lt z x then z else x) <= k x ∧ k (if lt z x then z else x) <= k z) as [H1 H2].
      { destruct (lt z x) eqn:E; [apply Hlt in E|apply Hge in E]; lia. }
      pose proof (Hmin _ ltac:(left)). apply elem_of_cons in Hy as [->|Hy]; [lia|].
      apply elem_of_cons in Hy as [->|Hy]; [lia|]. apply Hmin. by right.
Qed.

Lemma needier_true targets r m1 m2 :
  needier targets r m1 m2 = true →
  zlen (parts_of r m1) - count_of targets m1 <= zlen (parts_of r m2) - count_of targets m2.
Proof. unfold needier. intros H. bool_prop. destruct H; bool_prop; lia. Qed.

Lemma needier_false targets r m1 m2 :
  needier targets r m1 m2 = false →
  zlen (parts_of r m2) - count_of targets m2 <= zlen (parts_of r m1) - count_of targets m1.
Proof. unfold needier. intros H. bool_prop. lia. Qed.

Lemma parts_of_give r m p m' :
  parts_of (give r m p) m' = if bool_decide (m' = m) then parts_of r m ++ [p] else parts_of r m'.
Proof. unfold parts_of, give, d_getd. rewrite d_get_set. by case_bool_decide. Qed.

Lemma keys_give r m p : m ∈ d_keys r → d_keys (give r m p) = d_keys r.
Proof. apply d_keys_set_mem. Qed.

Lemma concat_give r m p :
  m ∈ d_keys r → concat (d_values (give r m p)) ≡ₚ p :: concat (d_values r).
Proof.
  unfold give, parts_of, d_getd. induction r as [|[k v] r IH]; simpl; intros Hm.
  { by apply elem_of_nil in Hm. }
  case_bool_decide as Hk; simpl.
  - rewrite <-app_assoc. simpl. by rewrite <-Permutation_middle.
  - apply elem_of_cons in Hm as [|Hm]; [done|]. rewrite IH by done.
    by rewrite <-Permutation_middle.
Qed.

Lemma list_remove1_perm x l : x ∈ l → l ≡ₚ x :: list_remove1 x l.
Proof.
  induction l as [|y l IH]; simpl; intros Hx; [by apply elem_of_nil in Hx|].
  destruct (Z.eqb_spec y x) as [->|Hne]; [done|].
  apply elem_of_cons in Hx as [|Hx]; [done|]. rewrite (IH Hx) at 1. constructor.
Qed.

(** The state of an assignment in progress: nobody is above its target, and what is given out
    and what is left make up the partitions. *)
Record in_progress (members : list string) (targets : pydict string Z) (partitions : list Z)
    (r : pydict string (list Z)) (rest : list Z) : Prop := {
  ip_keys : d_keys r = members;
  ip_target m : m ∈ members → zlen (parts_of r m) <= count_of targets m;
  ip_perm : concat (d_values r) ++ rest ≡ₚ partitions;
}.

Lemma in_progress_give members targets partitions r rest rest' m p :
  in_progress members targets partitions r rest → m ∈ members →
  zlen (parts_of r m) < count_of targets m → rest ≡ₚ p :: rest' →
  in_progress members targets partitions (give r m p) rest'.
Proof.
  intros [Hk Ht Hp] Hm Hlt Hrest. split.
  - by rewrite keys_give by (by rewrite Hk).
  - intros m' Hm'. rewrite parts_of_give. case_bool_decide as Heq; [|by apply Ht].
    subst. rewrite zlen_app. change (zlen [p]) with 1. lia.
  - rewrite concat_give by (by rewrite Hk). rewrite <-Hp, Hrest.
    by rewrite <-Permutation_middle.
Qed.

Lemma keep_parts_progress members targets partitions m parts r rest :
  m ∈ members → in_progress members targets partitions r rest →
  let '(r', rest') := keep_parts targets m parts r rest in
  in_progress members targets partitions r' rest'.
Proof.
  intros Hm. revert r rest. induction parts as [|p parts IH]; intros r rest Hr; simpl; [done|].
  destruct (bool_decide (p ∈ rest) && _) eqn:E; [|by apply IH].
  bool_prop. apply IH. eapply in_progress_give; [done..|]. by apply list_remove1_perm.
Qed.

Lemma keep_all_progress members targets partitions previous ms r rest :
  (∀ m, m ∈ ms → m ∈ members) → in_progress members targets partitions r rest →
  let '(r', rest') := keep_all targets previous ms r rest in
  in_progress members targets partitions r' rest'.
Proof.
  revert r rest. induction ms as [|m ms IH]; intros r rest Hms Hr; simpl; [done|].
  pose proof (keep_parts_progress _ _ _ m (d_getd previous m []) r rest (Hms m ltac:(left)) Hr).
  destruct (keep_parts _ _ _ _ _) as [r' rest']. apply IH; [|done]. intros m' Hm'. apply Hms. by right.
Qed.

Lemma zsum_eq_pointwise {A} (f g : A → Z) l :
  (∀ x, x ∈ l → f x <= g x) → zsum f l = zsum g l → ∀ x, x ∈ l → f x = g x.
Proof.
  induction l as [|x l IH]; simpl; intros H Heq y Hy; [by apply elem_of_nil in Hy|].
  pose proof (H x ltac:(left)). assert (zsum f l <= zsum g l) by (apply zsum_le; intros; apply H; by right).
  apply elem_of_cons in Hy as [->|Hy]; [lia|]. apply IH; [intros; apply H; by right|lia|done].
Qed.

Lemma zlen_concat {A} (ls : list (list A)) : zlen (concat ls) = zsum zlen ls.
Proof. induction ls as [|l ls IH]; [done|]. simpl. by rewrite zlen_app, IH. Qed.

Lemma in_progress_load members targets partitions r rest :
  NoDup members → in_progress members targets partitions r rest →
  zsum (λ m, zlen (parts_of r m)) members + zlen rest = zlen partitions.
Proof.
  intros Hnd [Hk _ Hp]. rewrite <-Hk in Hnd |- *.
  pose proof (zsum_lookup zlen [] r Hnd) as Hsum. unfold parts_of. rewrite Hsum, <-zlen_concat.
  rewrite <-zlen_app. unfold zlen. by rewrite Hp.
Qed.

Lemma place_progress members targets partitions m0 others hp ko parts r moved :
  members = m0 :: others → NoDup members →
  zsum (count_of targets) members = zlen partitions →
  in_progress members targets partitions r parts →
  in_progress members targets partitions (place targets m0 others hp ko parts r moved).1 []
  ∧ (∀ m, ∃ extra, parts_of (place targets m0 others hp ko parts r moved).1 m
                   = parts_of r m ++ extra)
  ∧ moved <= (place targets m0 others hp ko parts r moved).2 <= moved + zlen parts.
Proof.
  intros Hms Hnd Hsum. revert r moved. induction parts as [|p parts IH]; intros r moved Hr; cbn [place].
  - split_and!; [done| |unfold zlen; simpl; lia..]. intros m. exists []. by rewrite app_nil_r.
  - set (tm := py_argmin (needier targets r) m0 (m0 :: others)).
    destruct (py_argmin_spec (needier targets r)
                (λ m, zlen (parts_of r m) - count_of targets m) m0 (m0 :: others)
                (needier_true targets r)) as [Hin Hmin].
    { intros y b. apply needier_false. }
    fold tm in Hin, Hmin.
    assert (tm ∈ members) as Htm by (rewrite Hms; set_solver). clear Hin.
    assert (zlen (parts_of r tm) < count_of targets tm) as Hlt.
    { destruct (Z.lt_ge_cases (zlen (parts_of r tm)) (count_of targets tm)) as [|Hge]; [done|].
      exfalso. pose proof (in_progress_load _ _ _ _ _ Hnd Hr) as Hload.
      assert (zsum (count_of targets) members <= zsum (λ m, zlen (parts_of r m)) members).
      { apply zsum_le. intros m Hm. specialize (Hmin m). rewrite Hms in Hm. 
        assert (m ∈ m0 :: m0 :: others) as Hm' by (by right). specialize (Hmin Hm'). lia. }
      rewrite zlen_cons in Hload. pose proof (zlen_nonneg parts). lia. }
    assert (in_progress members targets partitions (give r tm p) parts) as Hr'
      by (by eapply in_progress_give).
    match goal with |- context [place _ _ _ _ _ _ (give r tm p) ?mv] =>
      destruct (IH (give r tm p) mv Hr') as (H1 & H2 & H3); split_and!; [exact H1| | |] end.
    + intros m. destruct (H2 m) as [extra Hx]. rewrite Hx, parts_of_give.
      case_bool_decide; [|by exists extra]. subst m. exists ([p] ++ extra). by rewrite <-app_assoc.
    + destruct (_ || _) in H3 |- *; lia.
    + rewrite zlen_cons. destruct (_ || _) in H3 |- *; lia.
Qed.

(** ** Targets *)

Lemma balanced_counts_sum n k :
  0 <= n → 0 < k → zsum id (_balanced_counts n k) = n.
Proof.
  intros Hn Hk. unfold _balanced_counts.
  assert (∀ j, 0 <= j → zsum id ((λ i, n / k + (if i <? n mod k then 1 else 0)) <$> seqZ 0 j)
    = j * (n / k) + Z.min j (n mod k)) as Hsum.
  { apply (natlike_ind (λ j, zsum id ((λ i, n / k + (if i <? n mod k then 1 else 0)) <$> seqZ 0 j)
      = j * (n / k) + Z.min j (n mod k))).
    { pose proof (Z.mod_pos_bound n k Hk). simpl. lia. }
    intros i Hi IH. replace (Z.succ i) with (i + 1) by lia.
    rewrite seqZ_app, fmap_app, zsum_app, IH by lia.
    assert (seqZ (0 + i) 1 = [i]) as -> by (rewrite seqZ_cons by lia; simpl; f_equal; lia).
    simpl. unfold id. destruct (Z.ltb_spec i (n mod k)); lia. }
  rewrite Hsum by lia. pose proof (Z.mod_pos_bound n k Hk). rewrite Z.min_r by lia.
  pose proof (Z.div_mod n k ltac:(lia)). lia.
Qed.

Lemma balanced_counts_length n k : length (_balanced_counts n k) = Z.to_nat k.
Proof. unfold _balanced_counts. by rewrite length_fmap, length_seqZ. Qed.

Lemma foldl_set_fresh {V} (l : list (string * V)) (d : pydict string V) :
  NoDup (d_keys d ++ l.*1) → foldl (λ d p, d_set d p.1 p.2) d l = d ++ l.
Proof.
  revert d. induction l as [|[k v] l IH]; intros d; simpl; [intros _; by rewrite app_nil_r|]. intros Hnd.
  assert (k ∉ d_keys d) as Hk.
  { apply NoDup_app in Hnd as (_ & Hdisj & _). intros Hin. apply (Hdisj k Hin). left. }
  rewrite d_set_fresh by done. rewrite IH.
  - by rewrite <-app_assoc.
  - unfold d_keys in *. rewrite fmap_app. simpl. by rewrite <-app_assoc.
Qed.

Definition targets_of (members : list string) (counts : list Z) : pydict string Z :=
  foldl (λ d p, d_set d p.1 p.2) [] (zip members counts).

Lemma targets_of_spec members n :
  NoDup members → members ≠ [] → 0 <= n →
  let targets := targets_of members (_balanced_counts n (zlen members)) in
  zsum (count_of targets) members = n
  ∧ ∀ m, m ∈ members → n / zlen members <= count_of targets m <= n / zlen members + 1.
Proof.
  intros Hnd Hne Hn targets. pose proof (balanced_counts_length n (zlen members)) as Hlen.
  assert (0 < zlen members) as Hpos by (destruct members; [done|rewrite zlen_cons; pose proof (zlen_nonneg members); lia]).
  assert (length members = length (_balanced_counts n (zlen members))) as Hlen'
    by (rewrite Hlen; unfold zlen; lia).
  assert (targets = zip members (_balanced_counts n (zlen members))) as Ht.
  { unfold targets, targets_of. rewrite foldl_set_fresh; [done|]. simpl.
    by rewrite fst_zip by lia. }
  assert (d_keys targets = members) as Hk by (unfold d_keys; rewrite Ht; by apply fst_zip; lia).
  assert (d_values targets = _balanced_counts n (zlen members)) as Hv
    by (unfold d_values; rewrite Ht; apply snd_zip; lia).
  split.
  - assert (d_wf targets) as Hwf by (unfold d_wf; by rewrite Hk).
    pose proof (zsum_lookup id 0 targets Hwf) as Hs. rewrite Hk, Hv in Hs.
    etrans; [exact Hs|by apply balanced_counts_sum].
  - intros m Hm. rewrite <-Hk in Hm. apply d_get_is_Some in Hm as [c Hc].
    unfold count_of, d_getd. rewrite Hc. simpl.
    apply d_get_elem_of in Hc. assert (c ∈ d_values targets) as Hcv.
    { unfold d_values. apply list_elem_of_fmap. by exists (m, c). }
    rewrite Hv in Hcv. unfold _balanced_counts in Hcv.
    apply list_elem_of_fmap in Hcv as (i & -> & _). destruct (_ <? _); lia.
Qed.

(** ** What the previous assignment keeps *)

Lemma list_remove1_elem x l q : q ≠ x → q ∈ list_remove1 x l ↔ q ∈ l.
Proof.
  intros Hq. induction l as [|y l IH]; simpl; [done|].
  destruct (Z.eqb_spec y x) as [->|]; set_solver.
Qed.

Lemma keep_parts_spec targets m ps r rest :
  NoDup ps → (∀ p, p ∈ ps → p ∈ rest) →
  let '(r', rest') := keep_parts targets m ps r rest in
  parts_of r' m
  = parts_of r m ++ take (Z.to_nat (count_of targets m - zlen (parts_of r m))) ps
  ∧ (∀ m', m' ≠ m → parts_of r' m' = parts_of r m')
  ∧ ∀ q, q ∉ ps → q ∈ rest' ↔ q ∈ rest.
Proof.
  revert r rest. induction ps as [|p ps IH]; intros r rest Hnd Hps; cbn [keep_parts].
  - rewrite take_nil, app_nil_r. done.
  - apply NoDup_cons in Hnd as [Hp Hnd]. rewrite bool_decide_eq_true_2 by (apply Hps; left).
    simpl. destruct (Z.ltb_spec (zlen (parts_of r m)) (count_of targets m)) as [Hlt|Hge].
    + specialize (IH (give r m p) (list_remove1 p rest) Hnd).
      destruct (keep_parts targets m ps (give r m p) (list_remove1 p rest)) as [r' rest'].
      destruct IH as (H1 & H2 & H3).
      { intros q Hq. apply list_remove1_elem; [by intros ->|]. apply Hps. by right. }
      rewrite parts_of_give, bool_decide_eq_true_2 in H1 by done. split_and!.
      * rewrite H1, <-app_assoc, zlen_app. change (zlen [p]) with 1.
        replace (Z.to_nat (count_of targets m - zlen (parts_of r m)))
          with (S (Z.to_nat (count_of targets m - (zlen (parts_of r m) + 1)))) by lia. done.
      * intros m' Hm'. rewrite H2, parts_of_give by done. by rewrite bool_decide_eq_false_2.
      * intros q [Hq Hqs]%not_elem_of_cons. rewrite H3 by done. by apply list_remove1_elem.
    + specialize (IH r rest Hnd). destruct (keep_parts targets m ps r rest) as [r' rest'].
      destruct IH as (H1 & H2 & H3); [intros; apply Hps; by right|].
      replace (Z.to_nat (count_of targets m - zlen (parts_of r m))) with 0%nat in * by lia.
      split_and!; [done|done|]. intros q [_ Hqs]%not_elem_of_cons. by apply H3.
Qed.

(** An earlier assignment of distinct known partitions, none owned twice by the members at hand. *)
Definition valid_previous (members : list string) (partitions : list Z)
    (previous : pydict string (list Z)) : Prop :=
  (∀ m, m ∈ members → NoDup (parts_of previous m))
  ∧ (∀ m p, m ∈ members → p ∈ parts_of previous m → p ∈ partitions)
  ∧ ∀ m1 m2 p, m1 ∈ members → m2 ∈ members → m1 ≠ m2 →
      p ∈ parts_of previous m1 → p ∉ parts_of previous m2.

Lemma keep_all_spec targets previous ms r rest :
  NoDup ms → valid_previous ms rest previous → (∀ m, m ∈ ms → parts_of r m = []) →
  let '(r', rest') := keep_all targets previous ms r rest in
  (∀ m, m ∈ ms → parts_of r' m = take (Z.to_nat (count_of targets m)) (parts_of previous m))
  ∧ ∀ m, m ∉ ms → parts_of r' m = parts_of r m.
Proof.
  revert r rest. induction ms as [|m ms IH]; intros r rest Hnd (Hv1 & Hv2 & Hv3) Hempty;
    cbn [keep_all]; [split; [by intros ? ?%elem_of_nil|done]|].
  apply NoDup_cons in Hnd as [Hm Hnd].
  pose proof (keep_parts_spec targets m (parts_of previous m) r rest (Hv1 m ltac:(left))
                (λ p, Hv2 m p ltac:(left))) as Hkeep.
  change (d_getd previous m []) with (parts_of previous m).
  destruct (keep_parts targets m (parts_of previous m) r rest) as [r1 rest1].
  destruct Hkeep as (H1 & H2 & H3). rewrite (Hempty m ltac:(left)) in H1. simpl in H1.
  rewrite Z.sub_0_r in H1.
  specialize (IH r1 rest1 Hnd). destruct (keep_all targets previous ms r1 rest1) as [r' rest'].
  destruct IH as [IH1 IH2].
  - split_and!.
    + intros m' Hm'. apply Hv1. by right.
    + intros m' p Hm' Hp. apply H3; [|apply (Hv2 m'); [by right|done]].
      apply (Hv3 m' m); [by right|left|by intros ->|done].
    + intros m1 m2 p Hm1 Hm2. apply Hv3; by right.
  - intros m' Hm'. rewrite H2 by (by intros ->). apply Hempty. by right.
  - split.
    + intros m' [->|Hm']%elem_of_cons; [by rewrite IH2|by apply IH1].
    + intros m' [Hne Hms]%not_elem_of_cons. rewrite IH2 by done. by apply H2.
Qed.

Lemma const_dict {V} (v : V) (members : list string) :
  NoDup members →
  foldl (λ (d : pydict string V) m, d_set d m v) [] members = (λ m, (m, v)) <$> members.
Proof.
  intros Hnd. transitivity (foldl (λ (d : pydict string V) p, d_set d p.1 p.2) []
                              ((λ m, (m, v)) <$> members)).
  - generalize (@nil (string * V)). clear. induction members; intros d; simpl; [done|auto].
  - rewrite foldl_set_fresh; [done|]. simpl. rewrite <-list_fmap_compose. simpl.
    by rewrite list_fmap_id.
Qed.

Lemma const_dict_get {V} (v : V) (members : list string) m :
  m ∈ members → d_get ((λ m, (m, v)) <$> members) m = Some v.
Proof.
  induction members as [|k ms IH]; simpl; intros Hm; [by apply elem_of_nil in Hm|].
  case_bool_decide; [done|]. apply IH. set_solver.
Qed.

Lemma empty_spec members :
  NoDup members →
  let empty : pydict string (list Z) := foldl (λ d m, d_set d m []) [] members in
  d_keys empty = members ∧ concat (d_values empty) = [] ∧ ∀ m, parts_of empty m = [].
Proof.
  intros Hnd. rewrite const_dict by done.
  unfold d_keys, d_values. rewrite <-!list_fmap_compose. split_and!.
  - simpl. apply list_fmap_id.
  - clear. induction members; simpl; done.
  - intros m. unfold parts_of, d_getd. clear. induction members as [|k ms IH]; simpl; [done|].
    by case_bool_decide.
Qed.

(** The run of [sticky_assign]: keep, then place, then sort every list. *)
Lemma sticky_assign_run partitions members previous :
  NoDup members → members ≠ [] →
  ∃ r moved r0 rest,
    let ms := py_sorted String.le members in
    let targets := targets_of ms (_balanced_counts (zlen partitions) (zlen ms)) in
    let empty := foldl (λ d m, d_set d m []) [] ms in
    sticky_assign partitions members previous
    = Ok (Assignment.mk (prod_map id (py_sorted Z.le) <$> r), moved)
    ∧ (r0, rest) = match previous with
                   | Some prev => keep_all targets (Assignment.by_member prev) ms empty partitions
                   | None => (empty, partitions)
                   end
    ∧ in_progress ms targets partitions r0 rest
    ∧ in_progress ms targets partitions r []
    ∧ (∀ m, ∃ extra, parts_of r m = parts_of r0 m ++ extra)
    ∧ 0 <= moved <= zlen rest.
Proof.
  intros Hnd Hne. assert (NoDup (py_sorted String.le members)) as Hnd'
    by (by rewrite py_sorted_Permutation).
  unfold sticky_assign. destruct (py_sorted String.le members) as [|m0 others] eqn:Hs;
    [by apply py_sorted_nil in Hs|].
  set (ms := m0 :: others) in *. fold (targets_of ms (_balanced_counts (zlen partitions) (zlen ms))).
  set (targets := targets_of ms _). set (empty := foldl (λ d m, d_set d m []) [] ms).
  destruct (targets_of_spec ms (zlen partitions) Hnd' ltac:(done) (zlen_nonneg _)) as [Hsum Htgt].
  fold targets in Hsum, Htgt. destruct (empty_spec ms Hnd') as (Hek & Hec & Hep).
  fold empty in Hek, Hec, Hep.
  assert (in_progress ms targets partitions empty partitions) as Hinit.
  { split; [done| |by rewrite Hec]. intros m Hm. rewrite Hep. apply Htgt in Hm.
    pose proof (Z.div_pos (zlen partitions) (zlen ms)). pose proof (zlen_nonneg partitions).
    assert (0 < zlen ms) by (unfold ms; rewrite zlen_cons; pose proof (zlen_nonneg others); lia).
    unfold zlen at 1. simpl. lia. }
  set (kept := match previous with Some prev => _ | None => _ end).
  assert (in_progress ms targets partitions kept.1 kept.2) as Hkept.
  { unfold kept. destruct previous as [prev|]; [|done].
    pose proof (keep_all_progress ms targets partitions (Assignment.by_member prev) ms empty
                  partitions ltac:(done) Hinit) as H.
    by destruct (keep_all _ _ _ _ _). }
  destruct kept as [r0 rest] eqn:Hkeq. simpl in Hkept.
  match goal with |- context [place targets m0 others ?hp ?ko ?ps r0 0] =>
    pose proof (place_progress ms targets partitions m0 others hp ko ps r0 0 eq_refl Hnd' Hsum)
      as Hplace;
    destruct (place targets m0 others hp ko ps r0 0) as [r moved] end.
  destruct Hplace as (H1 & H2 & H3).
  { destruct Hkept as [? ? Hp]. split; [done..|]. by rewrite py_sorted_Permutation. }
  exists r, moved, r0, rest. simpl in *. unfold zlen in H3. rewrite py_sorted_length in H3.
  split_and!; try done; unfold zlen; lia.
Qed.

Lemma parts_of_sorted (r : pydict string (list Z)) m :
  parts_of (prod_map id (py_sorted Z.le) <$> r) m = py_sorted Z.le (parts_of r m).
Proof.
  unfold parts_of, d_getd. induction r as [|[k v] r IH]; simpl; [done|]. by case_bool_decide.
Qed.

Lemma keys_sorted (r : pydict string (list Z)) : d_keys (prod_map id (py_sorted Z.le) <$> r) = d_keys r.
Proof. unfold d_keys. rewrite <-list_fmap_compose. by apply list_fmap_ext. Qed.

Lemma concat_sorted (r : pydict string (list Z)) :
  concat (d_values (prod_map id (py_sorted Z.le) <$> r)) ≡ₚ concat (d_values r).
Proof.
  induction r as [|[k v] r IH]; simpl; [done|]. f_equiv; [apply py_sorted_Permutation|exact IH].
Qed.

Lemma counts_exact members targets partitions r :
  NoDup members → zsum (count_of targets) members = zlen partitions →
  in_progress members targets partitions r [] →
  ∀ m, m ∈ members → zlen (parts_of r m) = count_of targets m.
Proof.
  intros Hnd Hsum Hr. apply zsum_eq_pointwise; [apply (ip_target _ _ _ _ _ Hr)|].
  pose proof (in_progress_load _ _ _ _ _ Hnd Hr) as Hl. rewrite zlen_nil in Hl. lia.
Qed.

Lemma balanced_between (a : Assignment.t) q :
  Assignment.by_member a ≠ [] →
  (∀ l, l ∈ d_values (Assignment.by_member a) → q <= zlen l <= q + 1) →
  Assignment.balanced a = Ok true.
Proof.
  intros Hne Hq. unfold Assignment.balanced.
  set (counts := py_sorted Z.le (zlen <$> d_values (Assignment.by_member a))).
  assert (∀ c, c ∈ counts → q <= c <= q + 1) as Hc.
  { intros c Hc. unfold counts in Hc. rewrite py_sorted_elem_of in Hc.
    apply list_elem_of_fmap in Hc as (l & -> & Hl). by apply Hq. }
  destruct (exists_last (l := counts)) as (l & w & Hl).
  { unfold counts. rewrite py_sorted_nil. destruct a as [[|p d]]; [done|]. discriminate. }
  rewrite Hl in Hc |- *. rewrite py_index_last.
  assert (∃ n, n ∈ l ++ [w] ∧ py_index (l ++ [w]) 0 = Ok n) as (n & Hn & ->).
  { destruct l as [|n l].
    - exists w. split; [left|by apply py_index_nonneg].
    - exists n. split; [left|by apply py_index_nonneg]. }
  simpl. f_equal. apply Z.leb_le. pose proof (Hc n Hn).
  pose proof (Hc w ltac:(apply elem_of_app; right; left)). lia.
Qed.

(** C6 (functional): a sticky assignment gives every partition to exactly one member and is
    balanced, whatever the previous assignment was. For distinct members, at least one,
    [sticky_assign] succeeds: its members are exactly those given, in order; the lists together
    hold every partition as often as it was asked for and nothing else; every member holds the
    floor of the fair share or one more; [Assignment.balanced] says so; each list is sorted; and
    the number of moves is between 0 and the number of partitions. *)
Theorem sticky_assign_balanced partitions members previous
    (Hdistinct : NoDup members) (Hsome : members ≠ []) :
  ∃ a moved,
    sticky_assign partitions members previous = Ok (a, moved)
    ∧ d_keys (Assignment.by_member a) = py_sorted String.le members
    ∧ concat (d_values (Assignment.by_member a)) ≡ₚ partitions
    ∧ (∀ m, m ∈ members →
         zlen partitions / zlen members <= zlen (parts_of (Assignment.by_member a) m)
         <= zlen partitions / zlen members + 1
         ∧ Sorted Z.le (parts_of (Assignment.by_member a) m))
    ∧ Assignment.balanced a = Ok true
    ∧ 0 <= moved <= zlen partitions.
Proof.
  destruct (sticky_assign_run partitions members previous Hdistinct Hsome)
    as (r & moved & r0 & rest & Hrun & _ & Hr0 & Hr & _ & Hmoved).
  assert (NoDup (py_sorted String.le members)) as Hnd by (by rewrite py_sorted_Permutation).
  assert (zlen (py_sorted String.le members) = zlen members) as Hlen
    by (unfold zlen; by rewrite py_sorted_length).
  destruct (targets_of_spec _ (zlen partitions) Hnd
              ltac:(by rewrite py_sorted_nil) (zlen_nonneg _)) as [Hsum Htgt].
  pose proof (counts_exact _ _ _ _ Hnd Hsum Hr) as Hcount.
  rewrite Hlen in Htgt, Hcount. rewrite Hlen in Hr, Hr0.
  eexists _, moved. split; [exact Hrun|]. simpl.
  assert (∀ m, m ∈ members →
    zlen partitions / zlen members
    <= zlen (parts_of (prod_map id (py_sorted Z.le) <$> r) m)
    <= zlen partitions / zlen members + 1) as Hshare.
  { intros m Hm. rewrite parts_of_sorted.
    assert (zlen (py_sorted Z.le (parts_of r m)) = zlen (parts_of r m)) as ->
      by (unfold zlen; by rewrite py_sorted_length).
    rewrite <-(py_sorted_elem_of String.le) in Hm. rewrite Hcount by done. by apply Htgt. }
  split_and!.
  - rewrite keys_sorted. apply (ip_keys _ _ _ _ _ Hr).
  - rewrite concat_sorted. pose proof (ip_perm _ _ _ _ _ Hr) as Hp. by rewrite app_nil_r in Hp.
  - intros m Hm. split; [by apply Hshare|]. rewrite parts_of_sorted.
    apply py_sorted_Sorted. apply _.
  - apply (balanced_between _ (zlen partitions / zlen members)); simpl.
    + intros Hnil%fmap_nil_inv. pose proof (ip_keys _ _ _ _ _ Hr) as Hk.
      rewrite Hnil in Hk. simpl in Hk. symmetry in Hk. by rewrite py_sorted_nil in Hk.
    + intros l Hl. apply list_elem_of_fmap in Hl as ([m l'] & -> & Hin).
      assert (m ∈ members) as Hm.
      { rewrite <-(py_sorted_elem_of String.le), <-(ip_keys _ _ _ _ _ Hr), <-keys_sorted.
        apply list_elem_of_fmap. by exists (m, l'). }
      specialize (Hshare m Hm). apply d_elem_of_get in Hin.
      * unfold parts_of, d_getd in Hshare. by rewrite Hin in Hshare.
      * unfold d_wf. by rewrite keys_sorted, (ip_keys _ _ _ _ _ Hr).
  - lia.
  - pose proof (ip_perm _ _ _ _ _ Hr0) as Hp. unfold zlen in *. rewrite <-Hp, length_app. lia.
Qed.

Lemma sticky_assign_balanced_witness :
  let prev := Assignment.mk [("a", [0; 1; 2; 3]); ("b", [4])] in
  ∃ a moved, sticky_assign [0; 1; 2; 3; 4] ["c"; "a"; "b"] (Some prev) = Ok (a, moved)
    ∧ d_keys (Assignment.by_member a) = ["a"; "b"; "c"]
    ∧ concat (d_values (Assignment.by_member a)) ≡ₚ [0; 1; 2; 3; 4]
    ∧ Assignment.balanced a = Ok true.
Proof.
  intros prev.
  assert (NoDup ["c"; "a"; "b"]) as Hnd by (apply (bool_decide_unpack _); vm_compute; exact I).
  destruct (sticky_assign_balanced [0; 1; 2; 3; 4] ["c"; "a"; "b"] (Some prev) Hnd ltac:(discriminate))
    as (a & moved & H1 & H2 & H3 & _ & H5 & _).
  exists a, moved. split; [exact H1|]. split; [rewrite H2; vm_compute; reflexivity|].
  split; [exact H3|exact H5].
Defined.

(** Also (functional): stickiness: a member loses a partition only when it held more than its share.
    For distinct members and an earlier assignment of distinct partitions owned once each, every
    member keeps the first partitions of its earlier list up to its new share (all of them when it
    held no more than the smallest share), so nothing moves from a member that is not above it. *)
Theorem sticky_assign_keeps partitions members prev
    (Hdistinct : NoDup members) (Hsome : members ≠ [])
    (Hvalid : valid_previous members partitions (Assignment.by_member prev)) :
  ∃ a moved,
    sticky_assign partitions members (Some prev) = Ok (a, moved)
    ∧ ∀ m, m ∈ members →
        take (length (parts_of (Assignment.by_member a) m)) (parts_of (Assignment.by_member prev) m)
          ⊆ parts_of (Assignment.by_member a) m
        ∧ (zlen (parts_of (Assignment.by_member prev) m) <= zlen partitions / zlen members →
           parts_of (Assignment.by_member prev) m ⊆ parts_of (Assignment.by_member a) m).
Proof.
  destruct (sticky_assign_run partitions members (Some prev) Hdistinct Hsome)
    as (r & moved & r0 & rest & Hrun & Hkeep & Hr0 & Hr & Hext & _).
  assert (NoDup (py_sorted String.le members)) as Hnd by (by rewrite py_sorted_Permutation).
  destruct (targets_of_spec _ (zlen partitions) Hnd
              ltac:(by rewrite py_sorted_nil) (zlen_nonneg _)) as [Hsum Htgt].
  pose proof (counts_exact _ _ _ _ Hnd Hsum Hr) as Hcount.
  set (ms := py_sorted String.le members) in *. set (targets := targets_of ms _) in *.
  destruct (empty_spec ms Hnd) as (_ & _ & Hep).
  destruct Hvalid as (Hv1 & Hv2 & Hv3).
  assert (∀ m, m ∈ ms ↔ m ∈ members) as Hms by (intros m; apply py_sorted_elem_of).
  pose proof (keep_all_spec targets (Assignment.by_member prev) ms
                (foldl (λ d m, d_set d m []) [] ms) partitions Hnd) as Hall.
  rewrite <-Hkeep in Hall. destruct Hall as [Hall _].
  { split_and!; setoid_rewrite Hms; done. }
  { intros m _. apply Hep. }
  eexists _, moved. split; [exact Hrun|]. intros m Hm. apply Hms in Hm. simpl.
  rewrite parts_of_sorted, py_sorted_length.
  destruct (Hext m) as [extra Hx].
  assert (take (length (parts_of r m)) (parts_of (Assignment.by_member prev) m)
            ⊆ py_sorted Z.le (parts_of r m)) as Hsub.
  { intros p Hp. apply py_sorted_elem_of. rewrite Hx. apply elem_of_app. left.
    rewrite Hall by done. rewrite <-Hcount by done. unfold zlen. by rewrite Nat2Z.id. }
  split; [done|]. intros Hle. rewrite take_ge in Hsub; [done|].
  assert (zlen ms = zlen members) as Hlen by (unfold ms, zlen; by rewrite py_sorted_length).
  specialize (Htgt m Hm). rewrite <-Hcount in Htgt by done. rewrite Hlen in Htgt.
  unfold zlen in *. lia.
Qed.

Lemma sticky_assign_keeps_witness :
  let prev := Assignment.mk [("a", [0; 1; 2; 3]); ("b", [4])] in
  ∃ a moved, sticky_assign [0; 1; 2; 3; 4] ["c"; "a"; "b"] (Some prev) = Ok (a, moved)
    ∧ take (length (parts_of (Assignment.by_member a) "a")) [0; 1; 2; 3]
      ⊆ parts_of (Assignment.by_member a) "a"
    ∧ [4] ⊆ parts_of (Assignment.by_member a) "b".
Proof.
  intros prev.
  assert (NoDup ["c"; "a"; "b"]) as Hnd by (apply (bool_decide_unpack _); vm_compute; exact I).
  assert (valid_previous ["c"; "a"; "b"] [0; 1; 2; 3; 4] (Assignment.by_member prev)) as Hv.
  { split; [|split].
    - intros m Hm. apply (bool_decide_unpack _).
      repeat (apply elem_of_cons in Hm as [->|Hm]; [vm_compute; exact I|]).
      destruct (not_elem_of_nil _ Hm).
    - intros m p Hm Hp. repeat (apply elem_of_cons in Hm as [->|Hm]; [vm_compute in Hp; set_solver|]).
      destruct (not_elem_of_nil _ Hm).
    - intros m1 m2 p Hm1 Hm2 Hne.
      repeat (apply elem_of_cons in Hm1 as [->|Hm1];
        [repeat (apply elem_of_cons in Hm2 as [->|Hm2];
           [first [by destruct Hne|vm_compute; set_solver]|]);
         destruct (not_elem_of_nil _ Hm2)|]).
      destruct (not_elem_of_nil _ Hm1). }
  destruct (sticky_assign_keeps [0; 1; 2; 3; 4] ["c"; "a"; "b"] prev Hnd ltac:(discriminate) Hv)
    as (a & moved & H1 & H2).
  exists a, moved. split; [exact H1|]. split.
  - refine (proj1 (H2 "a" _)). right. left.
  - refine (proj2 (H2 "b" _) _); [right; right; left|]. vm_compute. discriminate.
Defined.

(** ** Range assignment *)

Definition share (per extra index : Z) : Z := per + if index <? extra then 1 else 0.

Fixpoint ranges (per extra index offset : Z) (consumers : list string) :
    pydict string (list Z) :=
  match consumers with
  | [] => []
  | c :: cs =>
      (c, py_range offset (offset + share per extra index))
      :: ranges per extra (index + 1) (offset + share per extra index) cs
  end.

Lemma d_set_middle {V} (pre post : pydict string V) k v0 v :
  k ∉ d_keys pre → d_set (pre ++ (k, v0) :: post) k v = pre ++ (k, v) :: post.
Proof.
  induction pre as [|[k' v'] pre IH]; simpl; intros Hk.
  - by rewrite bool_decide_eq_true_2.
  - apply not_elem_of_cons in Hk as [Hne Hk]. rewrite bool_decide_eq_false_2 by done. by rewrite IH.
Qed.

Lemma range_loop_ranges per extra i off cs pre :
  NoDup (d_keys pre ++ cs) →
  range_loop per extra i off cs (pre ++ ((λ c, (c, [])) <$> cs)) = pre ++ ranges per extra i off cs.
Proof.
  revert i off pre. induction cs as [|c cs IH]; intros i off pre Hnd; [done|].
  cbn [range_loop fmap list_fmap ranges]. rewrite d_set_middle.
  - fold (share per extra i). rewrite (cons_middle _ pre), app_assoc, IH.
    + by rewrite <-app_assoc.
    + unfold d_keys in *. rewrite fmap_app, <-app_assoc. exact Hnd.
  - apply NoDup_app in Hnd as (_ & Hdisj & _). intros Hin. apply (Hdisj _ Hin). left.
Qed.

Lemma ranges_keys per extra i off cs : d_keys (ranges per extra i off cs) = cs.
Proof.
  revert i off. induction cs as [|c cs IH]; intros i off; [done|].
  unfold d_keys in *. simpl. by rewrite IH.
Qed.

Lemma py_range_app a b c : a <= b → b <= c → py_range a b ++ py_range b c = py_range a c.
Proof.
  intros. unfold py_range. replace (c - a) with ((b - a) + (c - b)) by lia.
  rewrite seqZ_app by lia. do 2 f_equal. lia.
Qed.

Lemma ranges_concat per extra i off cs :
  0 <= per →
  concat (d_values (ranges per extra i off cs))
  = py_range off (off + zsum id (share per extra <$> seqZ i (zlen cs)))
  ∧ 0 <= zsum id (share per extra <$> seqZ i (zlen cs)).
Proof.
  intros Hper. revert i off. induction cs as [|c cs IH]; intros i off.
  - simpl. unfold py_range. rewrite Z.add_0_r, Z.sub_diag. done.
  - rewrite zlen_cons, seqZ_cons by (pose proof (zlen_nonneg cs); lia).
    replace (Z.pred (1 + zlen cs)) with (zlen cs) by lia. replace (Z.succ i) with (i + 1) by lia.
    assert (0 <= share per extra i) by (unfold share; destruct (_ <? _); lia).
    destruct (IH (i + 1) (off + share per extra i)) as [Hc Hpos]. cbn [ranges d_values fmap list_fmap].
    simpl. unfold d_values in Hc. rewrite Hc. unfold id in *. simpl. split; [|lia].
    rewrite py_range_app by lia. f_equal. lia.
Qed.

Lemma share_balanced n k i : share (n / k) (n mod k) i = n / k ∨ share (n / k) (n mod k) i = n / k + 1.
Proof. unfold share. destruct (_ <? _); lia. Qed.

Lemma ranges_sizes per extra i off cs c ps :
  0 <= per → (c, ps) ∈ ranges per extra i off cs → per <= zlen ps <= per + 1.
Proof.
  intros Hper. revert i off. induction cs as [|c' cs IH]; intros i off Hin;
    [by apply elem_of_nil in Hin|].
  apply elem_of_cons in Hin as [[= -> ->]|Hin]; [|by eapply IH].
  unfold zlen, py_range, share. rewrite length_seqZ. destruct (_ <? _); lia.
Qed.

Lemma range_assign_run n cs :
  NoDup cs → cs ≠ [] →
  range_assign n cs
  = Ok (ranges (n / zlen cs) (n mod zlen cs) 0 0 (py_sorted String.le cs)).
Proof.
  intros Hnd Hne. unfold range_assign. rewrite bool_decide_eq_false_2 by done.
  assert (zlen (py_sorted String.le cs) = zlen cs) as -> by (unfold zlen; by rewrite py_sorted_length).
  assert (NoDup (py_sorted String.le cs)) as Hnd' by (by rewrite py_sorted_Permutation).
  f_equal.
  rewrite const_dict by done.
  apply (range_loop_ranges _ _ 0 0 _ []). done.
Qed.

(** Setting one topic for every consumer of a range assignment. *)
Lemma set_topic_get topic (per_topic : pydict string (list Z))
    (r : pydict string (pydict string (list Z))) c tp :
  d_wf per_topic →
  d_get (d_getd (foldl (λ r p, d_set r p.1 (d_set (d_getd r p.1 []) topic p.2)) r per_topic) c []) tp
  = if bool_decide (tp = topic)
    then match d_get per_topic c with Some ps => Some ps | None => d_get (d_getd r c []) tp end
    else d_get (d_getd r c []) tp.
Proof.
  unfold d_wf, d_keys. revert r. induction per_topic as [|[c' ps] d IH]; intros r Hwf; simpl.
  - by case_bool_decide.
  - apply NoDup_cons in Hwf as [Hc' Hwf]. rewrite IH by done.
    rewrite d_getd_set. destruct (decide (c = c')) as [->|Hne].
    + rewrite !(bool_decide_eq_true_2 (c' = c')) by done. rewrite d_get_set.
      assert (d_get d c' = None) as -> by (by apply d_get_None). by case_bool_decide.
    + by rewrite !(bool_decide_eq_false_2 (c = c')) by done.
Qed.

Lemma set_topic_is_Some topic (per_topic : pydict string (list Z))
    (r : pydict string (pydict string (list Z))) c :
  is_Some (d_get r c) →
  is_Some (d_get (foldl (λ r p, d_set r p.1 (d_set (d_getd r p.1 []) topic p.2)) r per_topic) c).
Proof.
  revert r. induction per_topic as [|[c' ps] d IH]; intros r Hr; simpl; [done|].
  apply IH. rewrite d_get_set. by case_bool_decide.
Qed.

Lemma assign_loop_get cs topics r :
  NoDup cs → cs ≠ [] → d_wf topics →
  ∃ a, MultiTopicAssignment.assign_loop cs topics r = Ok a ∧
    (∀ c, is_Some (d_get r c) → is_Some (d_get a c)) ∧
    ∀ c tp, c ∈ cs →
      d_get (d_getd a c []) tp
      = match d_get topics tp with
        | Some n => d_get (ranges (n / zlen cs) (n mod zlen cs) 0 0 (py_sorted String.le cs)) c
        | None => d_get (d_getd r c []) tp
        end.
Proof.
  intros Hnd Hne. revert r. unfold d_wf, d_keys.
  induction topics as [|[tp n] topics IH]; intros r Hwf; [by exists r|].
  simpl in Hwf. apply NoDup_cons in Hwf as [Htp Hwf]. cbn [MultiTopicAssignment.assign_loop].
  rewrite range_assign_run by done. cbn [mbind result_bind].
  set (rng := ranges (n / zlen cs) (n mod zlen cs) 0 0 (py_sorted String.le cs)).
  assert (d_wf rng) as Hrng by (unfold d_wf, rng; rewrite ranges_keys; by rewrite py_sorted_Permutation).
  match goal with |- context [MultiTopicAssignment.assign_loop cs topics ?r'] =>
    destruct (IH r' Hwf) as (a & Ha & Hsome & Hget) end.
  exists a. split; [exact Ha|]. split; [intros c Hc; by apply Hsome, set_topic_is_Some|].
  intros c tp' Hc. rewrite Hget by done. cbn [d_get].
  rewrite set_topic_get by done. case_bool_decide as Heq; [|done]. subst tp'.
  assert (d_get topics tp = None) as -> by (by apply d_get_None).
  assert (is_Some (d_get rng c)) as [ps Hps]; [|rewrite Hps; exact (eq_sym Hps)].
  apply d_get_is_Some. unfold rng. rewrite ranges_keys. by apply py_sorted_elem_of.
Qed.

(** One topic: the members in name order, with ranges that put together are the topic. *)
Lemma range_assign_covers n cs :
  NoDup cs → cs ≠ [] → 0 <= n →
  ∃ d, range_assign n cs = Ok d
    ∧ d_keys d = py_sorted String.le cs
    ∧ concat (d_values d) = seqZ 0 n
    ∧ ∀ c ps, (c, ps) ∈ d → n / zlen cs <= zlen ps <= n / zlen cs + 1.
Proof.
  intros Hdistinct Hsome Hn.
  assert (0 < zlen cs) as Hpos.
  { destruct cs as [|c cs]; [done|]. rewrite zlen_cons. pose proof (zlen_nonneg cs). lia. }
  eexists. split; [by apply range_assign_run|].
  assert (0 <= n / zlen cs) by (apply Z.div_pos; lia).
  destruct (ranges_concat (n / zlen cs) (n mod zlen cs) 0 0 (py_sorted String.le cs)) as [Hc _];
    [done|].
  assert (zlen (py_sorted String.le cs) = zlen cs) as Hlen
    by (unfold zlen; by rewrite py_sorted_length).
  split_and!; [apply ranges_keys| |].
  + rewrite Hc, Hlen. pose proof (balanced_counts_sum n (zlen cs) Hn Hpos) as Hsum.
    unfold _balanced_counts in Hsum. unfold share. rewrite Hsum. unfold py_range. f_equal. lia.
  + intros c ps. by apply ranges_sizes.
Qed.

(** Also (functional): range assignment covers the topic with contiguous, balanced ranges and keeps
    topics co-partitioned. For distinct consumers, at least one, and a count that is not negative,
    [range_assign] gives the consumers, in name order, consecutive ranges that put together are
    exactly partitions 0 to n-1, each of the floor of the fair share or one more; in
    [MultiTopicAssignment] every consumer gets, for each topic, that topic's range, so two topics
    with the same partition count are co-partitioned for every consumer. No consumer: [Invalid]. *)
Theorem range_assign_contiguous n cs (topics : pydict string Z)
    (Hdistinct : NoDup cs) (Hsome : cs ≠ []) (Hn : 0 <= n) (Htopics : d_wf topics) :
  (∃ d, range_assign n cs = Ok d
        ∧ d_keys d = py_sorted String.le cs
        ∧ concat (d_values d) = seqZ 0 n
        ∧ ∀ c ps, (c, ps) ∈ d → n / zlen cs <= zlen ps <= n / zlen cs + 1)
  ∧ (∀ c ta tb, c ∈ cs → d_get topics ta = d_get topics tb →
       MultiTopicAssignment.co_partitioned (MultiTopicAssignment.mk topics cs) c ta tb = Ok true)
  ∧ range_assign n [] = Err Invalid.
Proof.
  assert (NoDup (py_sorted String.le cs)) as Hnd by (by rewrite py_sorted_Permutation).
  split_and!; [by apply range_assign_covers| |done].
  - intros c ta tb Hc Heq. unfold MultiTopicAssignment.co_partitioned, MultiTopicAssignment.assign.
    simpl. rewrite const_dict by done. set (init := _ <$> py_sorted String.le cs).
    assert (d_get init c = Some []) as Hinit by (by apply const_dict_get, py_sorted_elem_of).
    destruct (assign_loop_get cs topics init Hdistinct Hsome Htopics) as (a & Ha & His & Hget).
    rewrite Ha. cbn [mbind result_bind]. destruct (His c) as [m Hm]; [by eexists|]. rewrite Hm.
    pose proof (Hget c ta Hc) as Hta. pose proof (Hget c tb Hc) as Htb.
    unfold d_getd in Hta, Htb. rewrite Hm, Hinit in Hta, Htb. simpl in Hta, Htb.
    f_equal. apply bool_decide_eq_true_2. rewrite Hta, Htb, Heq. by destruct (d_get topics tb).
Qed.

Lemma range_assign_contiguous_witness :
  MultiTopicAssignment.co_partitioned
    (MultiTopicAssignment.mk [("orders", 7); ("payments", 7)] ["c"; "a"; "b"]) "b" "orders" "payments"
  = Ok true
  ∧ range_assign 7 ["c"; "a"; "b"] = Ok [("a", [0; 1; 2]); ("b", [3; 4]); ("c", [5; 6])].
Proof.
  assert (NoDup ["c"; "a"; "b"]) as Hnd by (apply (bool_decide_unpack _); vm_compute; exact I).
  assert (d_wf [("orders", 7); ("payments", 7)]) as Hwf
    by (apply (bool_decide_unpack _); vm_compute; exact I).
  destruct (range_assign_contiguous 7 ["c"; "a"; "b"] [("orders", 7); ("payments", 7)] Hnd
              ltac:(discriminate) ltac:(lia) Hwf) as (_ & Hco & _).
  split; [|vm_compute; reflexivity].
  apply Hco; [right; right; left|vm_compute; reflexivity].
Defined.

(** ** Cooperative rebalancing *)

Section cooperative_proofs.
Import CooperativeRebalance.
Notation holdings := (pydict string (gset Z)).
Implicit Types (d : holdings).

Definition disjoint_owners d : Prop := ∀ m1 m2, m1 ≠ m2 → held_by d m1 ## held_by d m2.

Lemma held_by_set d m v m' :
  held_by (d_set d m v) m' = if bool_decide (m' = m) then v else held_by d m'.
Proof. apply d_getd_set. Qed.

Lemma held_by_None d m : m ∉ d_keys d → held_by d m = ∅.
Proof. intros Hm. unfold held_by, d_getd. by rewrite (proj2 (d_get_None d m) Hm). Qed.

Lemma held_by_elem d m v : d_wf d → (m, v) ∈ d → held_by d m = v.
Proof. intros Hwf Hin. unfold held_by, d_getd. by rewrite (d_elem_of_get _ _ _ Hwf Hin). Qed.

Lemma d_wf_cons d m v : d_wf ((m, v) :: d) ↔ m ∉ d_keys d ∧ d_wf d.
Proof. unfold d_wf. simpl. apply NoDup_cons. Qed.

Lemma held_by_cons d k v m :
  held_by ((k, v) :: d) m = if bool_decide (m = k) then v else held_by d m.
Proof. unfold held_by, d_getd. simpl. by case_bool_decide. Qed.

Definition revoke_step (target : holdings) (result : holdings) (p : string * gset Z) : holdings :=
  let losing := p.2 ∖ held_by target p.1 in
  if bool_decide (losing = ∅) then result else d_set result p.1 losing.

Lemma to_revoke_spec target l result m :
  d_wf l → d_wf result → (∀ m, m ∈ d_keys l → held_by result m = ∅) →
  let r := foldl (revoke_step target) result l in
  d_wf r ∧ held_by r m
           = if bool_decide (m ∈ d_keys l) then held_by l m ∖ held_by target m else held_by result m.
Proof.
  revert result. induction l as [|[k v] l IH]; intros result Hwf Hres Hempty; [done|].
  apply d_wf_cons in Hwf as [Hk Hwf]. simpl.
  assert (d_wf (revoke_step target result (k, v))
          ∧ ∀ m', held_by (revoke_step target result (k, v)) m'
                  = if bool_decide (m' = k) then v ∖ held_by target k else held_by result m')
    as [Hwf' Hheld].
  { clear IH. unfold revoke_step. simpl. destruct (decide (v ∖ held_by target k = ∅)) as [Hl|Hl].
    - rewrite bool_decide_eq_true_2 by done. split; [done|]. intros m'.
      case_bool_decide; [|done]. subst. rewrite Hl. apply Hempty. left.
    - rewrite bool_decide_eq_false_2 by done.
      split; [by apply d_wf_set|]. intros m'. apply held_by_set. }
  destruct (IH (revoke_step target result (k, v)) Hwf Hwf') as [H1 H2].
  { intros m' Hm'. rewrite Hheld. rewrite bool_decide_eq_false_2 by (by intros ->).
    apply Hempty. by right. }
  split; [done|]. rewrite H2, Hheld, held_by_cons.
  destruct (decide (m = k)) as [->|Hne].
  - rewrite (bool_decide_eq_false_2 (k ∈ d_keys l)), !bool_decide_eq_true_2 by (set_solver || done).
    done.
  - rewrite !(bool_decide_eq_false_2 (m = k)) by done.
    rewrite (bool_decide_ext (m ∈ k :: d_keys l) (m ∈ d_keys l)) by set_solver. done.
Qed.

Lemma revoke_all_spec (revoked d : holdings) m :
  d_wf revoked → d_wf d →
  let r := foldl (λ d p, d_set d p.1 (held_by d p.1 ∖ p.2)) d revoked in
  d_wf r ∧ held_by r m = held_by d m ∖ held_by revoked m.
Proof.
  revert d. induction revoked as [|[k v] l IH]; intros d Hwf Hd; simpl.
  - split; [done|]. unfold held_by at 3. simpl. set_solver.
  - apply d_wf_cons in Hwf as [Hk Hwf].
    destruct (IH (d_set d k (held_by d k ∖ v)) Hwf) as [H1 H2]; [by apply d_wf_set|].
    split; [done|]. rewrite H2, held_by_set, held_by_cons.
    destruct (decide (m = k)) as [->|Hne].
    + rewrite !bool_decide_eq_true_2 by done. rewrite (held_by_None l k) by done. set_solver.
    + by rewrite !bool_decide_eq_false_2.
Qed.

Lemma double_loop_true d seen :
  d_wf d → disjoint_owners d → (∀ m, held_by d m ## seen) → double_loop seen (d_values d) = true.
Proof.
  revert seen. induction d as [|[k v] d IH]; intros seen Hwf Hdis Hseen; [done|].
  apply d_wf_cons in Hwf as [Hk Hwf]. simpl.
  assert (v ## seen) as Hv.
  { specialize (Hseen k). by rewrite held_by_cons, bool_decide_eq_true_2 in Hseen. }
  rewrite bool_decide_eq_true_2 by set_solver. simpl.
  assert (∀ m, m ≠ k → held_by ((k, v) :: d) m = held_by d m) as Hcons.
  { intros m Hm. by rewrite held_by_cons, bool_decide_eq_false_2. }
  assert (∀ m, held_by d m ## v) as Hdv.
  { intros m. destruct (decide (m = k)) as [->|Hne]; [rewrite held_by_None by done; set_solver|].
    specialize (Hdis m k Hne). rewrite Hcons, held_by_cons, bool_decide_eq_true_2 in Hdis; done. }
  apply IH; [done| |].
  - intros m1 m2 Hne. destruct (decide (m1 = k)) as [->|H1];
      [rewrite held_by_None by done; set_solver|].
    destruct (decide (m2 = k)) as [->|H2]; [rewrite (held_by_None d k) by done; set_solver|].
    rewrite <-!Hcons by done. by apply Hdis.
  - intros m. specialize (Hseen m). destruct (decide (m = k)) as [->|Hne].
    + rewrite held_by_None by done. set_solver.
    + rewrite Hcons in Hseen by done. specialize (Hdv m). set_solver.
Qed.

Lemma within_disjoint target d :
  disjoint_owners target → (∀ m, held_by d m ⊆ held_by target m) → disjoint_owners d.
Proof. intros Ht Hd m1 m2 Hne. specialize (Ht m1 m2 Hne). pose proof (Hd m1). pose proof (Hd m2). set_solver. Qed.

(** Assigning one member never raises when everybody holds only what the target gives them. *)
Lemma assign_member_run freed self member wanted :
  disjoint_owners (target self) → d_wf (current self) →
  (∀ m, held_by (current self) m ⊆ held_by (target self) m) →
  wanted = held_by (target self) member →
  assign_member freed (member, wanted) self
  = (set_current (d_set (current self) member wanted) self, Ok ()).
Proof.
  intros Hdis Hwf Hsub ->. unfold assign_member. rewrite bind_get, bind_raise_if.
  rewrite bool_decide_eq_true_2; [done|]. apply set_eq. intros part.
  split; [|set_solver]. rewrite !elem_of_intersection, !elem_of_difference. unfold _owned_now.
  rewrite elem_of_union_list. intros [[[Hw Hnot] _] (v & Hv & Hpart)]. exfalso.
  apply list_elem_of_fmap in Hv as ([m v'] & -> & Hin). simpl in Hpart.
  rewrite <-(held_by_elem _ _ _ Hwf Hin) in Hpart.
  destruct (decide (m = member)) as [->|Hne]; [done|].
  apply Hsub in Hpart. by apply (Hdis m member Hne part).
Qed.

Lemma assign_all_run freed l self :
  disjoint_owners (target self) → d_wf (target self) → d_wf (current self) →
  (∀ m, held_by (current self) m ⊆ held_by (target self) m) →
  (∀ p, p ∈ l → p ∈ target self) →
  ∃ c, for_each l (assign_member freed) self = (set_current c self, Ok ())
    ∧ d_wf c ∧ (∀ m, held_by c m ⊆ held_by (target self) m)
    ∧ ∀ m, held_by c m = if bool_decide (m ∈ l.*1) then held_by (target self) m
                         else held_by (current self) m.
Proof.
  intros Hdis Hwt. revert self Hdis Hwt. induction l as [|[member wanted] l IH];
    intros self Hdis Hwt Hwf Hsub Hl.
  - exists (current self). split_and!; try done. by destruct self.
  - assert (wanted = held_by (target self) member) as Hw.
    { symmetry. apply held_by_elem; [done|]. apply Hl. left. }
    cbn [for_each]. rewrite bind_run, assign_member_run by done.
    destruct (IH (set_current (d_set (current self) member wanted) self)) as (c & Hc & H1 & H2 & H3);
      [done..|by apply d_wf_set| |intros p Hp; apply Hl; by right|].
    + intros m. simpl. rewrite held_by_set. case_bool_decide as Hm; [by subst|apply Hsub].
    + exists c. split; [exact Hc|]. split_and!; [done|done|]. intros m. rewrite H3, fmap_cons.
      cbn [current set_current target fst]. rewrite held_by_set. destruct (decide (m = member)) as [->|Hne].
      * rewrite (bool_decide_eq_true_2 (member = member)) by done.
        rewrite (bool_decide_eq_true_2 (member ∈ member :: l.*1)) by set_solver.
        rewrite Hw. by destruct (bool_decide _).
      * rewrite (bool_decide_eq_false_2 (m = member)) by done.
        by rewrite (bool_decide_ext (m ∈ member :: l.*1) (m ∈ l.*1)) by set_solver.
Qed.

(** C7 (invariant): a cooperative rebalance pauses only what moves and never lets two members own a
    partition. From any current holdings towards a target that gives no partition twice, the revoke
    phase succeeds and leaves every member exactly the partitions it holds and keeps; the assign
    phase then succeeds, and at every point of it, for every prefix of the target already handed
    out, no partition has two owners; at the end every member holds exactly its target and members
    without one hold nothing. Either phase out of turn raises [Invalid], changing nothing. *)
Theorem cooperative_never_double (cur tgt : holdings)
    (Hcur : d_wf cur) (Htgt : d_wf tgt) (Hdisjoint : disjoint_owners tgt) :
  let g := CooperativeRebalance.new cur tgt in
  let '(g1, r1) := revoke_phase g in
  let '(g2, r2) := assign_phase g1 in
  is_ok r1 = true
  ∧ (∀ m, held_by (current g1) m = held_by cur m ∩ held_by tgt m)
  ∧ never_double_owned g1 = true
  ∧ (∀ pre post, tgt = pre ++ post →
       never_double_owned (for_each pre (assign_member (⋃ (d_values (revoked g1)))) g1).1 = true)
  ∧ r2 = Ok "assigned; no partition was ever owned by two"
  ∧ (∀ m, held_by (current g2) m = held_by tgt m)
  ∧ never_double_owned g2 = true
  ∧ assign_phase g = (g, Err Invalid) ∧ revoke_phase g1 = (g1, Err Invalid)
  ∧ revoke_phase g2 = (g2, Err Invalid) ∧ assign_phase g2 = (g2, Err Invalid).
Proof.
  intros g.
  set (rv := to_revoke g).
  assert (d_wf rv ∧ ∀ m, held_by rv m = held_by cur m ∖ held_by tgt m) as [Hrwf Hrv].
  { split.
    - apply (to_revoke_spec tgt cur [] ""); [done|apply d_wf_nil|done].
    - intros m. destruct (to_revoke_spec tgt cur [] m Hcur d_wf_nil ltac:(done)) as [_ H].
      etrans; [exact H|]. clear H.
      case_bool_decide as Hm; [done|]. rewrite (held_by_None cur m Hm).
      unfold held_by at 1. simpl. set_solver. }
  set (c1 := foldl (λ d p, d_set d p.1 (held_by d p.1 ∖ p.2)) cur rv).
  assert (d_wf c1) as Hc1wf by (by apply (revoke_all_spec rv cur "")).
  assert (∀ m, held_by c1 m = held_by cur m ∩ held_by tgt m) as Hc1.
  { intros m. destruct (revoke_all_spec rv cur m Hrwf Hcur) as [_ H]. etrans; [exact H|].
    rewrite Hrv. apply set_eq. intros x. rewrite !elem_of_difference, elem_of_intersection.
    destruct (decide (x ∈ held_by tgt m)); tauto. }
  assert (∀ m, held_by c1 m ⊆ held_by tgt m) as Hsub by (intros m; rewrite Hc1; set_solver).
  set (g1 := mk c1 tgt rv "revoked").
  assert (∃ msg, revoke_phase g = (g1, Ok msg)) as (msg & Hrun).
  { eexists. unfold revoke_phase. rewrite bind_get, bind_raise_if. reflexivity. }
  assert (∀ c, d_wf c → (∀ m, held_by c m ⊆ held_by tgt m) → ∀ p ph, never_double_owned (mk c tgt p ph) = true)
    as Hnd.
  { intros c Hc Hs p ph. apply double_loop_true; [done|by eapply within_disjoint|]. set_solver. }
  rewrite Hrun.
  destruct (assign_all_run (⋃ (d_values rv)) tgt g1) as (c2 & Hall & Hc2wf & Hc2sub & Hc2);
    [done..|].
  assert (assign_phase g1 = (mk c2 tgt rv "done", Ok "assigned; no partition was ever owned by two")) as ->.
  { unfold assign_phase. rewrite bind_get. simpl. rewrite bind_run. simpl.
    rewrite bind_run. change (revoked g1) with rv. by rewrite Hall. }
  split_and!; try done.
  - by apply Hnd.
  - intros pre post Hpre. change (revoked g1) with rv.
    destruct (assign_all_run (⋃ (d_values rv)) pre g1) as (c & -> & Hcwf & Hcsub & _); [done..| |].
    { intros p Hp. simpl. rewrite Hpre. apply elem_of_app. by left. }
    by apply Hnd.
  - intros m. simpl. rewrite Hc2. simpl. case_bool_decide as Hm; [done|].
    rewrite Hc1, (held_by_None tgt) by done. set_solver.
  - by apply Hnd.
Qed.
End cooperative_proofs.

Section cooperative_examples.
Import CooperativeRebalance.

Lemma cooperative_never_double_witness :
  let cur : pydict string (gset Z) := [("a", {[0; 1; 2]}); ("b", {[3]})] in
  let tgt : pydict string (gset Z) := [("a", {[0; 1]}); ("c", {[2]}); ("b", {[3]})] in
  let g2 := (assign_phase (revoke_phase (CooperativeRebalance.new cur tgt)).1).1 in
  never_double_owned g2 = true ∧ held_by (current g2) "c" = held_by tgt "c".
Proof.
  intros cur tgt g2.
  assert (d_wf cur) as Hcur by (apply (bool_decide_unpack _); vm_compute; exact I).
  assert (d_wf tgt) as Htgt by (apply (bool_decide_unpack _); vm_compute; exact I).
  assert (disjoint_owners tgt) as Hdis.
  { intros m1 m2 Hne x. unfold tgt. rewrite !held_by_cons, !(held_by_None []) by apply not_elem_of_nil.
    repeat case_bool_decide; subst; try done;
      rewrite ?elem_of_union, ?elem_of_singleton, ?elem_of_empty; lia. }
  pose proof (cooperative_never_double cur tgt Hcur Htgt Hdis) as Ht. cbn zeta in Ht. subst g2.
  destruct (revoke_phase (CooperativeRebalance.new cur tgt)) as [g1 r1]. simpl.
  destruct (assign_phase g1) as [g2 r2]. simpl.
  destruct Ht as (_ & _ & _ & _ & _ & Hheld & Hnd & _).
  split; [exact Hnd|exact (Hheld "c")].
Defined.

(** A target that gives a freed partition to two members is not refused: both end up owning it
    behind the answer that no partition was ever owned by two. *)
Lemma freed_partition_double_owned :
  let g := CooperativeRebalance.new [("a", {[1]}); ("b", ∅); ("c", ∅)]
             [("a", ∅); ("b", {[1]}); ("c", {[1]})] in
  let '(g2, r) := assign_phase (revoke_phase g).1 in
  r = Ok "assigned; no partition was ever owned by two" ∧ never_double_owned g2 = false.
Proof. vm_compute. done. Qed.
End cooperative_examples.

(** ** Liveness and static membership *)

Section liveness_proofs.
Import LivenessTracker.
Implicit Types (s : LivenessTracker.t).

Inductive liveness_op :=
  | Join (name : string) (now : Z)
  | Heartbeat (name : string) (now : Z)
  | Sweep (now : Z).

Definition liveness_step (o : liveness_op) : t → t :=
  match o with
  | Join name now => state_of (join name now)
  | Heartbeat name now => state_of (heartbeat name now)
  | Sweep now => state_of (sweep now)
  end.

(** The members are filed under their own names. *)
Definition tracker_wf s : Prop :=
  d_wf (members s) ∧ ∀ n m, d_get (members s) n = Some m → Member.name m = n.

Lemma d_get_prod_map {V W} (f : V → W) (d : pydict string V) k :
  d_get (prod_map id f <$> d) k = f <$> d_get d k.
Proof. induction d as [|[k' v] d IH]; simpl; [done|]. by case_bool_decide. Qed.

Lemma d_keys_prod_map {V W} (f : V → W) (d : pydict string V) :
  d_keys (prod_map id f <$> d) = d_keys d.
Proof. unfold d_keys. rewrite <-list_fmap_compose. by apply list_fmap_ext. Qed.

Lemma sweep_get s now n :
  d_get (members (sweep now s).1) n
  = (λ m, if silent s now m then Member.evict m else m) <$> d_get (members s) n.
Proof. unfold sweep. act_simpl. apply d_get_prod_map. Qed.

Lemma liveness_step_wf o s : tracker_wf s → tracker_wf (liveness_step o s).
Proof.
  intros [Hwf Hname]. destruct o as [name now|name now|now]; unfold liveness_step, state_of.
  - unfold join. act_simpl. split; [by apply d_wf_set|]. simpl. intros n m. rewrite d_get_set.
    case_bool_decide; [by intros [= <-]|apply Hname].
  - unfold heartbeat. rewrite bind_get. destruct (d_get (members s) name) as [m0|] eqn:Hm; [|done].
    rewrite bind_raise_if. destruct (Member.evicted m0); [done|]. act_simpl.
    split; [by apply d_wf_set|]. simpl. intros n m. rewrite d_get_set.
    case_bool_decide; [intros [= <-]; simpl; subst; by apply Hname|apply Hname].
  - split.
    + unfold sweep. act_simpl. unfold d_wf. by rewrite d_keys_prod_map.
    + intros n m. rewrite sweep_get. intros (m0 & Hm0 & ->)%fmap_Some.
      destruct (silent s now m0); exact (Hname n m0 Hm0).
Qed.

(** Once evicted, only a new join brings a member back. *)
Definition is_evicted n s : Prop := ∃ m, d_get (members s) n = Some m ∧ Member.evicted m = true.

Definition not_join (n : string) (o : liveness_op) : Prop :=
  match o with Join n' _ => n' ≠ n | _ => True end.

Lemma evicted_step o n s : not_join n o → is_evicted n s → is_evicted n (liveness_step o s).
Proof.
  intros Ho (m & Hm & Hev). destruct o as [name now|name now|now]; unfold liveness_step, state_of.
  - unfold join. act_simpl. exists m. split; [|done]. simpl. by rewrite d_get_set_ne by (by intros ->).
  - unfold heartbeat. rewrite bind_get.
    destruct (d_get (members s) name) as [m0|] eqn:Hm0; [|by exists m].
    rewrite bind_raise_if. destruct (Member.evicted m0) eqn:Hev0; [by exists m|]. act_simpl.
    exists m. split; [|done]. simpl. rewrite d_get_set_ne; [done|]. intros <-. congruence.
  - exists m. split; [|done]. rewrite sweep_get, Hm. simpl. unfold silent. by rewrite Hev.
Qed.

Lemma live_members_elem s n :
  d_wf (members s) →
  n ∈ live_members s ↔ ∃ m, d_get (members s) n = Some m ∧ Member.evicted m = false.
Proof.
  intros Hwf. unfold live_members. rewrite py_sorted_elem_of, list_elem_of_fmap.
  setoid_rewrite list_elem_of_filter. split.
  - intros ([n' m] & -> & Hev & Hin). exists m. split; [by apply d_elem_of_get|done].
  - intros (m & Hm & Hev). exists (n, m). split_and!; [done..|]. by apply d_get_elem_of.
Qed.

(** Also (safety): a consumer declared dead cannot come back as a zombie. In every reachable tracker a
    [sweep] reports, sorted, exactly the live members silent for longer than the session timeout,
    the others stay live, and the generation moves by one exactly when somebody died; from then
    on, whatever joins of other members, heartbeats and sweeps follow, a dead member is not among
    the live ones and its heartbeats raise [Fenced] and change nothing, until it joins again. *)
Theorem evicted_member_fenced tmo (ops more : list liveness_op) now name later
    (Hmore : Forall (not_join name) more) :
  let s := run liveness_step ops (mk tmo [] 0 0) in
  let s1 := (sweep now s).1 in
  let s2 := run liveness_step more s1 in
  ∃ dead, (sweep now s).2 = Ok dead
    ∧ (∀ n, n ∈ dead ↔ ∃ m, d_get (members s) n = Some m ∧ silent s now m = true)
    ∧ (∀ n, n ∈ live_members s1 ↔ n ∈ live_members s ∧ n ∉ dead)
    ∧ generation s1 = generation s + (if bool_decide (dead = []) then 0 else 1)
    ∧ (name ∈ dead → heartbeat name later s2 = (s2, Err Fenced) ∧ name ∉ live_members s2).
Proof.
  intros s s1 s2. assert (tracker_wf s) as [Hwf Hname].
  { apply run_invariant; [apply liveness_step_wf|]. split; [apply d_wf_nil|done]. }
  assert (tracker_wf s1) as Hwf1 by (by apply (liveness_step_wf (Sweep now))).
  set (newly := Member.name <$> filter (λ m, silent s now m = true) (d_values (members s))).
  assert (∀ n, n ∈ newly ↔ ∃ m, d_get (members s) n = Some m ∧ silent s now m = true) as Hnewly.
  { intros n. unfold newly. rewrite list_elem_of_fmap. setoid_rewrite list_elem_of_filter. split.
    - intros (m & -> & Hsil & Hin). apply list_elem_of_fmap in Hin as ([n' m'] & -> & Hin).
      apply d_elem_of_get in Hin; [|done]. exists m'. simpl. by rewrite (Hname _ _ Hin).
    - intros (m & Hm & Hsil). exists m. split_and!; [by rewrite (Hname _ _ Hm)|done|].
      apply list_elem_of_fmap. exists (n, m). split; [done|]. by apply d_get_elem_of. }
  exists (py_sorted String.le newly). split_and!; [done| | | |].
  - intros n. by rewrite py_sorted_elem_of.
  - intros n. rewrite !live_members_elem by (done || apply Hwf1). rewrite py_sorted_elem_of, Hnewly.
    unfold s1. setoid_rewrite sweep_get. destruct (d_get (members s) n) as [m|] eqn:Hm; simpl.
    + unfold silent. destruct (Member.evicted m) eqn:Hev; simpl.
      * split; [intros (? & [= <-] & ?); congruence|intros [(? & [= <-] & ?) _]; congruence].
      * destruct (_ <? _) eqn:Hs; simpl.
        -- split; [intros (? & [= <-] & ?); simpl in *; congruence|]. intros [_ Hno]. exfalso. apply Hno. exists m.
           by rewrite Hev, Hs.
        -- split; [|eauto]. intros _. split; [eauto|]. intros (? & [= <-] & Hsil).
           by rewrite Hev, Hs in Hsil.
    + split; [by intros (? & ? & ?)|by intros [(? & ? & ?) _]].
  - unfold s1, sweep. act_simpl. fold newly.
    rewrite (bool_decide_ext (py_sorted String.le newly = []) (newly = [])) by apply py_sorted_nil.
    case_bool_decide; lia.
  - rewrite py_sorted_elem_of, Hnewly. intros (m & Hm & Hsil).
    assert (is_evicted name s1) as Hev.
    { exists (Member.evict m). unfold s1. rewrite sweep_get, Hm. simpl. by rewrite Hsil. }
    assert (is_evicted name s2) as (m2 & Hm2 & Hev2).
    { unfold s2. clearbody s1. clear -Hmore Hev. revert s1 Hev.
      induction Hmore as [|o more Ho _ IH]; intros s1 Hev; [done|]. simpl.
      by apply IH, evicted_step. }
    split.
    + unfold heartbeat. by rewrite bind_get, Hm2, bind_raise_if, Hev2.
    + rewrite live_members_elem; [|by apply (run_invariant _ tracker_wf); [apply liveness_step_wf|]].
      intros (m' & Hm' & ?). congruence.
Qed.

Lemma evicted_member_fenced_witness :
  let s := run liveness_step [Join "a" 0; Join "b" 0; Heartbeat "b" 8] (mk 5 [] 0 0) in
  let s1 := (sweep 10 s).1 in
  let s2 := run liveness_step [Heartbeat "a" 11; Join "c" 12; Sweep 13] s1 in
  (sweep 10 s).2 = Ok ["a"] ∧ heartbeat "a" 14 s2 = (s2, Err Fenced).
Proof.
  intros s s1 s2.
  assert (Forall (not_join "a") [Heartbeat "a" 11; Join "c" 12; Sweep 13]) as Hmore
    by (repeat constructor; discriminate).
  destruct (evicted_member_fenced 5 [Join "a" 0; Join "b" 0; Heartbeat "b" 8]
              [Heartbeat "a" 11; Join "c" 12; Sweep 13] 10 "a" 14 Hmore)
    as (dead & Hdead & _ & _ & _ & Hf).
  assert ((sweep 10 s).2 = Ok ["a"]) as Ha by (vm_compute; reflexivity).
  split; [exact Ha|]. apply Hf.
  assert (Ok dead = Ok ["a"]) as Heq by (refine (eq_trans (eq_sym Hdead) _); exact Ha).
  injection Heq as ->. left.
Defined.
End liveness_proofs.

Section static_proofs.
Import StaticGroup.
Implicit Types (g : StaticGroup.t).

Inductive static_op :=
  | SJoin (id : string) (partitions : gset Z) (now : Z)
  | SDisconnect (id : string) (now : Z)
  | SReconnect (id : string) (now : Z).
Definition static_step (o : static_op) : t → t :=
  match o with
  | SJoin id ps now => state_of (join id ps now)
  | SDisconnect id now => state_of (disconnect id now)
  | SReconnect id now => state_of (reconnect id now)
  end.
Definition not_sjoin (id : string) (o : static_op) : Prop :=
  match o with SJoin id' _ _ => id' ≠ id | _ => True end.

Lemma static_step_keeps o id ps g :
  not_sjoin id o → (∃ m, members g !! id = Some m ∧ StaticMember.partitions m = ps) →
  session_timeout (static_step o g) = session_timeout g ∧
  ∃ m, members (static_step o g) !! id = Some m ∧ StaticMember.partitions m = ps.
Proof.
  intros Ho (m & Hm & Hps). destruct o as [id' ps' now|id' now|id' now];
    unfold static_step, state_of.
  - unfold join. act_simpl. split; [done|]. exists m. by rewrite lookup_insert_ne.
  - unfold disconnect. rewrite bind_get. destruct (members g !! id') as [m'|] eqn:Hm'; [|eauto].
    act_simpl. split; [done|]. destruct (decide (id' = id)) as [->|Hne].
    + rewrite lookup_insert_eq. eexists. split; [done|]. simpl. congruence.
    + rewrite lookup_insert_ne by done. eauto.
  - unfold reconnect. rewrite bind_get. destruct (members g !! id') as [m'|] eqn:Hm'; [|eauto].
    destruct (_ <? _); act_simpl; (split; [done|]); [eauto|]. destruct (decide (id' = id)) as [->|Hne].
    + rewrite lookup_insert_eq. eexists. split; [done|]. simpl. congruence.
    + rewrite lookup_insert_ne by done. eauto.
Qed.

(** Also (functional): a static member that returns in time gets back exactly the partitions it joined
    with. Whatever disconnects and reconnects of any member and joins of other members follow a
    [join], the instance still holds the partitions of its join; [reconnect] then succeeds,
    counting one rebalance avoided, exactly when it was last seen no longer ago than the session
    timeout, and otherwise raises [Invalid], counting one rebalance forced and leaving the members
    as they were. An identity that never joined is refused with [Invalid]. *)
Theorem static_member_reclaims g id ps t0 (ops : list static_op) now
    (Hops : Forall (not_sjoin id) ops) :
  let g' := run static_step ops (static_step (SJoin id ps t0) g) in
  ∃ m, members g' !! id = Some m ∧ StaticMember.partitions m = ps
    ∧ (let '(g'', r) := reconnect id now g' in
       if now - StaticMember.last_seen m <=? session_timeout g then
         is_ok r = true ∧ rebalances_avoided g'' = rebalances_avoided g' + 1
         ∧ rebalances_forced g'' = rebalances_forced g'
         ∧ members g'' = <[id := StaticMember.mk (StaticMember.instance_id m) ps now true]> (members g')
       else
         r = Err Invalid ∧ members g'' = members g'
         ∧ rebalances_forced g'' = rebalances_forced g' + 1)
    ∧ ∀ other, members g' !! other = None → reconnect other now g' = (g', Err Invalid).
Proof.
  intros g'.
  assert (session_timeout g' = session_timeout g
          ∧ ∃ m, members g' !! id = Some m ∧ StaticMember.partitions m = ps) as (Ht & m & Hm & Hps).
  { unfold g'. assert (∃ m, members (static_step (SJoin id ps t0) g) !! id = Some m
                            ∧ StaticMember.partitions m = ps) as Hj.
    { unfold static_step, state_of, join. act_simpl. rewrite lookup_insert_eq. by eexists. }
    change (session_timeout g) with (session_timeout (static_step (SJoin id ps t0) g)).
    clearbody g'. revert Hj. generalize (static_step (SJoin id ps t0) g). clear -Hops.
    induction Hops as [|o ops Ho _ IH]; intros g Hj; [done|]. simpl.
    destruct (static_step_keeps o id ps g Ho Hj) as [<- Hj']. by apply IH. }
  exists m. split_and!; [done..| |].
  - unfold reconnect. rewrite bind_get, Hm, Ht.
    destruct (Z.ltb_spec (session_timeout g) (now - StaticMember.last_seen m)),
      (Z.leb_spec (now - StaticMember.last_seen m) (session_timeout g)); try lia; act_simpl; 
      by rewrite ?Hps.
  - intros other Hother. unfold reconnect. by rewrite bind_get, Hother.
Qed.

Lemma static_member_reclaims_witness :
  let g' := run static_step [SDisconnect "a" 10; SJoin "b" ∅ 11]
              (static_step (SJoin "a" {[1; 2]} 0) (mk 30 ∅ 0 0)) in
  ∃ m, members g' !! "a" = Some m ∧ StaticMember.partitions m = {[1; 2]}
       ∧ is_ok (reconnect "a" 20 g').2 = true.
Proof.
  intros g'.
  assert (Forall (not_sjoin "a") [SDisconnect "a" 10; SJoin "b" ∅ 11]) as Hops
    by (repeat constructor; discriminate).
  destruct (static_member_reclaims (mk 30 ∅ 0 0) "a" {[1; 2]} 0 _ 20 Hops) as (m & Hm & Hps & _).
  exists m. split; [exact Hm|]. split; [exact Hps|vm_compute; reflexivity].
Defined.
End static_proofs.
