(* ===== verification/Codec.v ===== *)
(** * The wire: varints, checksums and frames

    [relay/varint.py], [relay/crc32c.py] and [relay/framing.py], on bytes. *)

From S2P Require Import Prelude PyDict PyBytes.
From Stdlib Require Import Strings.Byte.

Module varint.
(** [relay/varint.py] _CONTINUE *)
Definition _CONTINUE : Z := 0x80.
(** [relay/varint.py] _MASK *)
Definition _MASK : Z := 0x7F.
(** [relay/varint.py] _MAX_BYTES *)
Definition _MAX_BYTES : Z := 10.

(** [relay/varint.py] zigzag_encode *)
Definition zigzag_encode (value : Z) : Z :=
  if value <? 0 then Z.lxor (Z.shiftl value 1) (Z.shiftr value 63) else Z.shiftl value 1.

(** [relay/varint.py] zigzag_decode *)
Definition zigzag_decode (value : Z) : Z := Z.lxor (Z.shiftr value 1) (- Z.land value 1).

(** [relay/varint.py:49-56] encode_varint: the [while True] loop, at most [fuel] continuations *)
Fixpoint encode_loop (fuel : nat) (n : Z) : bytes :=
  let byte := Z.land n _MASK in
  let n := Z.shiftr n 7 in
  if n =? 0 then [z2b byte]
  else match fuel with
       | O => []
       | S fuel => z2b (Z.lor byte _CONTINUE) :: encode_loop fuel n
       end.
(** [relay/varint.py] encode_varint *)
Definition encode_varint (value : Z) : bytes :=
  let n := zigzag_encode value in
  encode_loop (Z.to_nat (Z.log2 n / 7)) n.

(** [relay/varint.py:62-76] decode_varint *)
Fixpoint decode_loop (data : bytes) (i result shift : Z) : Prelude.result (Z * Z) :=
  match data with
  | [] => Err Invalid
  | byte :: data' =>
      if _MAX_BYTES <=? i then Err Invalid
      else
        let result := Z.lor result (Z.shiftl (Z.land (b2z byte) _MASK) shift) in
        if Z.land (b2z byte) _CONTINUE =? 0 then Ok (zigzag_decode result, i + 1)
        else decode_loop data' (i + 1) result (shift + 7)
  end.
(** [relay/varint.py] decode_varint *)
Definition decode_varint (data : bytes) : result (Z * Z) := decode_loop data 0 0 0.
End varint.
Import varint.

Module crc32c.
(** [relay/crc32c.py] _POLY *)
Definition _POLY : Z := 2197175160.
(** [relay/crc32c.py] _MASK *)
Definition _MASK : Z := 0xFFFFFFFF.

(** [relay/crc32c.py:42-42] _build_table *)
Definition table_bit (crc : Z) : Z :=
  if negb (Z.land crc 1 =? 0) then Z.lxor (Z.shiftr crc 1) _POLY else Z.shiftr crc 1.
(** [relay/crc32c.py] _build_table *)
Definition _build_table : list Z :=
  (λ n, Z.land (Nat.iter 8 table_bit n) _MASK) <$> seqZ 0 256.
(** [relay/crc32c.py] _TABLE *)
Definition _TABLE : list Z := Eval vm_compute in _build_table.

(** [relay/crc32c.py:53-53] crc32c *)
Definition crc_step (crc : Z) (byte : byte) : Z :=
  Z.lxor (default 0 (_TABLE !! Z.to_nat (Z.land (Z.lxor crc (b2z byte)) 0xFF)))
         (Z.shiftr crc 8).
(** [relay/crc32c.py] crc32c *)
Definition crc32c (data : bytes) : Z := Z.lxor (foldl crc_step _MASK data) _MASK.

(** [relay/crc32c.py] verify *)
Definition verify (data : bytes) (stored : Z) : result bool :=
  if negb ((0 <=? stored) && (stored <=? _MASK)) then Err Invalid
  else Ok (crc32c data =? stored).

(** [relay/crc32c.py] check_batch *)
Definition check_batch (data : bytes) (stored : Z) : result string :=
  ok ← verify data stored;
  if ok : bool then Ok ("batch verified, crc 0x" +:+ hex08 stored) else Err Invalid.
End crc32c.
Import crc32c.

Module framing.
(** [relay/framing.py] _HEADER *)
Definition _HEADER : Z := 4.

(** [int.from_bytes(bs, "big", signed=True)] *)
Definition from_bytes_signed (bs : bytes) : Z :=
  let n := be_combine bs in
  let w := 2 ^ (8 * zlen bs) in
  if w / 2 <=? n then n - w else n.

Module FrameReader.
(** [relay/framing.py] class FrameReader *)
Record t := mk {
  max_size : Z;
  buffer : bytes;
}.

(** [relay/framing.py] FrameReader.__post_init__ *)
Definition make (max_size : Z) : result t :=
  if max_size <? 1 then Err Invalid else Ok (mk max_size []).

(** [relay/framing.py:52-71] FrameReader.feed: every turn of the loop removes a header at least *)
Fixpoint frame_loop (fuel : nat) (frames : list bytes) : act t (list bytes) :=
  match fuel with
  | O => mret frames
  | S fuel =>
      self ← get;
      if zlen (buffer self) <? _HEADER then mret frames
      else
        let length := from_bytes_signed (take (Z.to_nat _HEADER) (buffer self)) in
        raise_if (length <? 0) Invalid;;
        raise_if (max_size self <? length) Invalid;;
        if zlen (buffer self) - _HEADER <? length then mret frames
        else
          let frame := take (Z.to_nat length) (drop (Z.to_nat _HEADER) (buffer self)) in
          put (mk (max_size self) (drop (Z.to_nat (_HEADER + length)) (buffer self)));;
          frame_loop fuel (frames ++ [frame])
  end.

(** [relay/framing.py] FrameReader.feed *)
Definition feed (chunk : bytes) : act t (list bytes) :=
  modify (λ self, mk (max_size self) (buffer self ++ chunk));;
  self ← get;
  frame_loop (S (length (buffer self))) [].

(** [relay/framing.py] FrameReader.pending *)
Definition pending (self : t) : string :=
  let held := zlen (buffer self) in
  zs held +:+ " byte(s) buffered without a full frame; a stall "
  +:+ "here is a slow client or a length larger than the data "
  +:+ "that followed it".
End FrameReader.
End framing.
Import framing.

(** ** Bit arithmetic *)

Lemma lor_shiftl_add a b s : 0 <= s → 0 <= a < 2 ^ s → 0 <= b → Z.lor a (Z.shiftl b s) = a + b * 2 ^ s.
Proof.
  intros Hs Ha Hb. rewrite <-Z.shiftl_mul_pow2 by lia.
  assert (Z.land a (Z.shiftl b s) = 0) as Hland.
  { apply Z.bits_inj'. intros i Hi. rewrite Z.land_spec, Z.bits_0.
    destruct (Z.lt_ge_cases i s).
    - by rewrite Z.shiftl_spec_low, andb_false_r.
    - rewrite <-(Z.mod_small a (2 ^ s)) by done. by rewrite Z.mod_pow2_bits_high by lia. }
  pose proof (Z.add_lor_land a (Z.shiftl b s)). lia.
Qed.

Lemma land_mask n : Z.land n 127 = n mod 128.
Proof. change 127 with (Z.ones 7). by rewrite Z.land_ones. Qed.

Lemma lor_continue b : 0 <= b < 128 → Z.lor b 128 = b + 128.
Proof.
  intros Hb. change 128 with (Z.shiftl 1 7) at 1. by rewrite lor_shiftl_add.
Qed.

Lemma b2z_z2b_small x : 0 <= x < 256 → b2z (z2b x) = x.
Proof. intros Hx. rewrite b2z_z2b. by apply Z.mod_small. Qed.

(** ** Varints *)

Section varint_proofs.

Lemma continue_clear x : 0 <= x < 128 → Z.land x 128 = 0.
Proof.
  intros Hx. change 128 with (2 ^ 7). apply Z.bits_inj'. intros i Hi.
  rewrite Z.land_spec, Z.bits_0, Z.pow2_bits_eqb by lia.
  destruct (Z.eqb_spec 7 i) as [<-|]; [|apply andb_false_r].
  rewrite andb_true_r. rewrite <-(Z.mod_small x (2 ^ 7)) by done.
  by apply Z.mod_pow2_bits_high.
Qed.

Lemma continue_set x : 0 <= x < 128 → Z.land (x + 128) 128 = 128.
Proof.
  intros Hx. rewrite <-lor_continue by done. rewrite Z.land_lor_distr_l, continue_clear by done.
  done.
Qed.

Lemma mask_set x : 0 <= x < 128 → Z.land (x + 128) 127 = x.
Proof.
  intros Hx. rewrite land_mask. replace (x + 128) with (x + 1 * 128) by lia.
  rewrite Z.mod_add by lia. by apply Z.mod_small.
Qed.

Lemma zigzag_encode_spec v :
  - 2 ^ 63 <= v → zigzag_encode v = if v <? 0 then - 2 * v - 1 else 2 * v.
Proof.
  intros Hv. unfold zigzag_encode. rewrite Z.shiftl_mul_pow2 by lia. destruct (Z.ltb_spec v 0); [|lia].
  assert (Z.shiftr v 63 = -1) as ->.
  { rewrite Z.shiftr_div_pow2 by lia. symmetry.
    apply (Z.div_unique v (2 ^ 63) (-1) (v + 2 ^ 63)); lia. }
  rewrite Z.lxor_m1_r. unfold Z.lnot. lia.
Qed.

Lemma zigzag_decode_encode v : - 2 ^ 63 <= v → zigzag_decode (zigzag_encode v) = v.
Proof.
  intros Hv. rewrite zigzag_encode_spec by done. unfold zigzag_decode.
  assert (∀ x, Z.land x 1 = x mod 2) as -> by (intros x; apply (Z.land_ones x 1); lia).
  rewrite Z.shiftr_div_pow2 by lia. change (2 ^ 1) with 2.
  destruct (Z.ltb_spec v 0).
  - replace (- 2 * v - 1) with (1 + (- v - 1) * 2) by lia.
    rewrite Z.mod_add, Z.div_add by lia. change (- (1 mod 2)) with (-1). rewrite Z.lxor_m1_r.
    change (1 / 2) with 0. unfold Z.lnot. lia.
  - rewrite Z.mul_comm, Z.mod_mul, Z.div_mul by lia. by rewrite Z.lxor_0_r.
Qed.

(** One turn of the encoder, as arithmetic. *)
Lemma encode_loop_eq fuel n :
  0 <= n →
  encode_loop fuel n =
    if n <? 128 then [z2b n]
    else match fuel with
         | O => []
         | S fuel => z2b (n mod 128 + 128) :: encode_loop fuel (n / 128)
         end.
Proof.
  intros Hn. pose proof (Z.mod_pos_bound n 128 ltac:(lia)).
  destruct fuel; cbn [encode_loop]; unfold varint._MASK, _CONTINUE;
    rewrite land_mask, ?lor_continue, Z.shiftr_div_pow2 by lia; change (2 ^ 7) with 128;
    (destruct (Z.ltb_spec n 128);
     [rewrite Z.div_small by lia; simpl; by rewrite Z.mod_small|]);
    (destruct (Z.eqb_spec (n / 128) 0) as [Hz|]; [apply Z.div_small_iff in Hz; lia|done]).
Qed.

(** Decoding an encoded number from the middle of a decode, and any truncation of it. *)
Lemma decode_encode_loop fuel n rest i result :
  0 <= n < 2 ^ (7 * (Z.of_nat fuel + 1)) → n < 2 ^ (7 * (_MAX_BYTES - i)) →
  0 <= i < _MAX_BYTES → 0 <= result < 2 ^ (7 * i) →
  decode_loop (encode_loop fuel n ++ rest) i result (7 * i)
    = Ok (zigzag_decode (result + n * 2 ^ (7 * i)), i + zlen (encode_loop fuel n))
  ∧ i + zlen (encode_loop fuel n) <= _MAX_BYTES
  ∧ ∀ k, (k < length (encode_loop fuel n))%nat →
      decode_loop (take k (encode_loop fuel n)) i result (7 * i) = Err Invalid.
Proof.
  revert n i result. induction fuel as [|fuel IH]; intros n i result Hn Hmax Hi Hres;
    rewrite encode_loop_eq by lia; unfold _MAX_BYTES in *;
    (destruct (Z.ltb_spec n 128) as [Hsmall|Hbig];
     [split_and!;
       [cbn [app decode_loop]; unfold _MAX_BYTES;
        destruct (Z.leb_spec 10 i); [lia|]; rewrite b2z_z2b_small by lia;
        unfold varint._MASK, _CONTINUE; rewrite land_mask, continue_clear, Z.mod_small by lia;
        rewrite lor_shiftl_add by lia; done
       |unfold zlen; simpl; lia
       |intros [|k] Hk; simpl in Hk; [done|lia]]
     |]).
  { simpl in Hn. lia. }
  pose proof (Z.mod_pos_bound n 128 ltac:(lia)). pose proof (Z.div_mod n 128 ltac:(lia)).
  assert (2 ^ (7 * (Z.of_nat (S fuel) + 1)) = 128 * 2 ^ (7 * (Z.of_nat fuel + 1))) as Hpow.
  { change 128 with (2 ^ 7). rewrite <-Z.pow_add_r by lia. f_equal. lia. }
  assert (2 ^ (7 * (i + 1)) = 128 * 2 ^ (7 * i)) as Hpow1.
  { change 128 with (2 ^ 7). rewrite <-Z.pow_add_r by lia. f_equal. lia. }
  destruct (Z.eq_dec i 9) as [->|Hi9]; [simpl in Hmax; lia|].
  assert (2 ^ (7 * (10 - i)) = 128 * 2 ^ (7 * (10 - (i + 1)))) as Hpow2.
  { change 128 with (2 ^ 7). rewrite <-Z.pow_add_r by lia. f_equal. lia. }
  destruct (IH (n / 128) (i + 1) (result + n mod 128 * 2 ^ (7 * i))) as (IH1 & IH2 & IH3).
  - split; [apply Z.div_pos; lia|apply Z.div_lt_upper_bound; lia].
  - apply Z.div_lt_upper_bound; lia.
  - lia.
  - rewrite Hpow1. nia.
  - assert (∀ l, decode_loop (z2b (n mod 128 + 128) :: l) i result (7 * i)
                 = decode_loop l (i + 1) (result + n mod 128 * 2 ^ (7 * i)) (7 * (i + 1))) as Hstep.
    { intros l. cbn [decode_loop]. unfold _MAX_BYTES.
      destruct (Z.leb_spec 10 i); [lia|]. rewrite b2z_z2b_small by lia.
      unfold varint._MASK, _CONTINUE. rewrite mask_set, continue_set by lia. simpl.
      rewrite lor_shiftl_add by lia. f_equal. lia. }
    split_and!.
    + cbn [app]. rewrite Hstep, IH1, zlen_cons. do 2 f_equal; [|lia]. f_equal.
      rewrite Hpow1. nia.
    + rewrite zlen_cons. lia.
    + intros [|k] Hk; [done|]. cbn [take]. rewrite Hstep. apply IH3. simpl in Hk. lia.
Qed.

(** C38 (roundtrip): varints round-trip and never read past their end. For every value of a signed
    64-bit integer (and on to 2^69), decoding the encoding followed by any other bytes returns the
    value and exactly the number of bytes the encoding took, at most ten; every proper prefix of an
    encoding is refused with [Invalid] as truncated. *)
Theorem varint_roundtrip v rest (Hv : - 2 ^ 63 <= v < 2 ^ 69) :
  decode_varint (encode_varint v ++ rest) = Ok (v, zlen (encode_varint v))
  ∧ 1 <= zlen (encode_varint v) <= _MAX_BYTES
  ∧ ∀ k, (k < length (encode_varint v))%nat → decode_varint (take k (encode_varint v)) = Err Invalid.
Proof.
  unfold decode_varint, encode_varint. set (n := zigzag_encode v).
  assert (0 <= n < 2 ^ 70) as Hn.
  { unfold n. rewrite zigzag_encode_spec by lia. destruct (Z.ltb_spec v 0); lia. }
  set (fuel := Z.to_nat (Z.log2 n / 7)).
  assert (n < 2 ^ (7 * (Z.of_nat fuel + 1))) as Hfuel.
  { unfold fuel. rewrite Z2Nat.id by (apply Z.div_pos; [apply Z.log2_nonneg|lia]).
    destruct (Z.eq_dec n 0) as [->|]; [done|].
    pose proof (Z.log2_spec n ltac:(lia)) as [_ Hlog].
    eapply Z.lt_le_trans; [exact Hlog|]. apply Z.pow_le_mono_r; [lia|].
    pose proof (Z.div_mod (Z.log2 n) 7 ltac:(lia)).
    pose proof (Z.mod_pos_bound (Z.log2 n) 7 ltac:(lia)). lia. }
  destruct (decode_encode_loop fuel n rest 0 0) as (H1 & H2 & H3); [lia|exact (proj2 Hn)|done|done|].
  change (7 * 0) with 0 in *. rewrite Z.mul_1_r, Z.add_0_l in H1. split_and!.
  - rewrite H1, Z.add_0_l. unfold n. by rewrite zigzag_decode_encode by lia.
  - rewrite encode_loop_eq by lia. destruct (Z.ltb_spec n 128); [done|].
    destruct fuel as [|f]; [simpl in Hfuel; lia|]. rewrite zlen_cons.
    pose proof (zlen_nonneg (encode_loop f (n / 128))). lia.
  - lia.
  - done.
Qed.

Lemma varint_roundtrip_witness :
  decode_varint (encode_varint (-300) ++ [x01]) = Ok (-300, 2)
  ∧ decode_varint (take 1 (encode_varint (-300))) = Err Invalid.
Proof.
  destruct (varint_roundtrip (-300) [x01] ltac:(lia)) as (H1 & _ & H3).
  split; [exact H1|]. apply H3. vm_compute. lia.
Defined.

(** Below the 64-bit range the sign is lost: zigzag shifts by a fixed 63 bits. *)
Lemma zigzag_out_of_range : zigzag_decode (zigzag_encode (- 2 ^ 64 - 2)) ≠ - 2 ^ 64 - 2.
Proof. vm_compute. discriminate. Qed.
End varint_proofs.

(** ** Checksums *)

Section crc_proofs.

(** The reference: the polynomial applied bit by bit. *)
Definition crc_bits (crc : Z) (b : byte) : Z := Nat.iter 8 table_bit (Z.lxor crc (b2z b)).

Lemma table_is_built : _TABLE = _build_table.
Proof. vm_compute. reflexivity. Qed.

Definition table_at (i : Z) : Z := default 0 (_TABLE !! Z.to_nat i).

Lemma table_bit_lxor a b : table_bit (Z.lxor a b) = Z.lxor (table_bit a) (table_bit b).
Proof.
  unfold table_bit. assert (∀ x, Z.land x 1 = x mod 2) as Hl by (intros x; apply (Z.land_ones x 1); lia).
  rewrite !Hl, !Z.shiftr_lxor.
  assert (∀ x, negb (x mod 2 =? 0) = Z.odd x) as Hodd.
  { intros x. rewrite Zmod_odd. by destruct (Z.odd x). }
  rewrite !Hodd, <-!Z.bit0_odd, Z.lxor_spec.
  destruct (Z.testbit a 0), (Z.testbit b 0); simpl; apply Z.bits_inj'; intros i Hi;
    rewrite ?Z.lxor_spec; repeat (destruct (Z.testbit _ i); simpl; try done).
Qed.

Lemma iter_table_bit_lxor n a b :
  Nat.iter n table_bit (Z.lxor a b) = Z.lxor (Nat.iter n table_bit a) (Nat.iter n table_bit b).
Proof. induction n as [|n IH]; simpl; [done|]. by rewrite IH, table_bit_lxor. Qed.

(** Bits above the lowest only shift. *)
Lemma iter_table_bit_shift n a :
  Nat.iter n table_bit (Z.shiftl a (Z.of_nat n)) = a.
Proof.
  induction n as [|n IH]; [by rewrite Z.shiftl_0_r|]. rewrite Nat.iter_succ_r.
  assert (table_bit (Z.shiftl a (Z.of_nat (S n))) = Z.shiftl a (Z.of_nat n)) as ->; [|done].
  unfold table_bit. rewrite (Z.land_ones _ 1), Z.shiftl_mul_pow2, Z.shiftr_div_pow2 by lia.
  replace (2 ^ Z.of_nat (S n)) with (2 ^ Z.of_nat n * 2 ^ 1)
    by (rewrite <-Z.pow_add_r by lia; f_equal; lia).
  rewrite Z.mul_assoc, Z.mod_mul, Z.div_mul by lia. simpl. by rewrite Z.shiftl_mul_pow2 by lia.
Qed.

Lemma land_255 x : Z.land x 255 = x mod 256.
Proof. by apply (Z.land_ones x 8). Qed.

Lemma shiftr_8 x : Z.shiftr x 8 = x / 256.
Proof. by rewrite Z.shiftr_div_pow2. Qed.

Lemma split_byte x : 0 <= x → Z.lxor (x mod 256) (Z.shiftl (x / 256) 8) = x.
Proof.
  intros Hx. pose proof (Z.mod_pos_bound x 256 ltac:(lia)). pose proof (Z.div_pos x 256 Hx ltac:(lia)).
  rewrite Z.lxor_lor.
  - rewrite lor_shiftl_add by lia. pose proof (Z.div_mod x 256 ltac:(lia)). lia.
  - pose proof (lor_shiftl_add (x mod 256) (x / 256) 8 ltac:(lia) ltac:(lia) ltac:(lia)).
    pose proof (Z.add_lor_land (x mod 256) (Z.shiftl (x / 256) 8)).
    rewrite Z.shiftl_mul_pow2 in * by lia. lia.
Qed.

Lemma forall_range (P : Z → bool) n :
  forallb P (seqZ 0 n) = true → ∀ i, 0 <= i < n → P i = true.
Proof.
  intros Hall i Hi. rewrite forallb_forall in Hall. apply Hall. apply list_elem_of_In, elem_of_seqZ. lia.
Qed.

Lemma table_at_iter i : 0 <= i < 256 → table_at i = Nat.iter 8 table_bit i.
Proof.
  intros Hi. apply Z.eqb_eq.
  apply (forall_range (λ i, table_at i =? Nat.iter 8 table_bit i) 256); [vm_compute; reflexivity|done].
Qed.

(** One byte through the table is eight bits through the polynomial. *)
Lemma crc_step_bits crc b : 0 <= crc → crc_step crc b = crc_bits crc b.
Proof.
  intros Hc. unfold crc_step, crc_bits. pose proof (b2z_range b). set (x := Z.lxor crc (b2z b)).
  assert (0 <= x) as Hx by (by apply Z.lxor_nonneg; lia).
  assert (Z.shiftr crc 8 = x / 256) as ->.
  { rewrite <-shiftr_8. unfold x. rewrite Z.shiftr_lxor, (shiftr_8 (b2z b)), Z.div_small by lia.
    by rewrite Z.lxor_0_r. }
  rewrite land_255. fold (table_at (x mod 256)).
  rewrite table_at_iter by (apply Z.mod_pos_bound; lia).
  rewrite <-(split_byte x) at 3 by done.
  rewrite iter_table_bit_lxor. f_equal. symmetry. apply (iter_table_bit_shift 8).
Qed.

Lemma lxor_range a b n : 0 <= n → 0 <= a < 2 ^ n → 0 <= b < 2 ^ n → 0 <= Z.lxor a b < 2 ^ n.
Proof.
  intros Hn Ha Hb. split; [by apply Z.lxor_nonneg; lia|].
  destruct (Z.eq_dec (Z.lxor a b) 0) as [->|Hne]; [lia|].
  apply Z.log2_lt_pow2; [pose proof (proj2 (Z.lxor_nonneg a b)); lia|].
  eapply Z.le_lt_trans; [apply Z.log2_lxor; lia|].
  destruct (Z.eq_dec n 0) as [->|]; [simpl in *; assert (a = 0) by lia; assert (b = 0) by lia; by subst|].
  apply Z.max_lub_lt; [destruct (Z.eq_dec a 0) as [->|]; [simpl; lia|apply Z.log2_lt_pow2; lia]
                      |destruct (Z.eq_dec b 0) as [->|]; [simpl; lia|apply Z.log2_lt_pow2; lia]].
Qed.

Lemma table_at_range i : 0 <= i < 256 → 0 <= table_at i < 2 ^ 32.
Proof.
  intros Hi.
  pose proof (forall_range (λ i, (0 <=? table_at i) && (table_at i <? 2 ^ 32)) 256
                ltac:(vm_compute; reflexivity) i Hi) as H.
  cbv beta in H. bool_prop. done.
Qed.

Lemma crc_step_range crc b : 0 <= crc < 2 ^ 32 → 0 <= crc_step crc b < 2 ^ 32.
Proof.
  intros Hc. apply lxor_range; [lia| |].
  - apply table_at_range. rewrite land_255. apply Z.mod_pos_bound. lia.
  - rewrite shiftr_8. split; [apply Z.div_pos; lia|apply Z.div_lt_upper_bound; lia].
Qed.

Lemma crc_run_range data crc : 0 <= crc < 2 ^ 32 → 0 <= foldl crc_step crc data < 2 ^ 32.
Proof.
  revert crc. induction data as [|b data IH]; simpl; intros crc Hc; [done|].
  by apply IH, crc_step_range.
Qed.

(** The top byte of an entry names the entry. *)
Lemma table_top_inj i j :
  0 <= i < 256 → 0 <= j < 256 → table_at i / 2 ^ 24 = table_at j / 2 ^ 24 → i = j.
Proof.
  intros Hi Hj Heq.
  assert (∀ i j, 0 <= i < 256 → 0 <= j < 256 →
    (negb (table_at i / 2 ^ 24 =? table_at j / 2 ^ 24) || (i =? j)) = true) as Hall.
  { clear. intros i j Hi Hj.
    pose proof (forall_range (λ i, forallb (λ j, negb (table_at i / 2 ^ 24 =? table_at j / 2 ^ 24)
                  || (i =? j)) (seqZ 0 256)) 256 ltac:(vm_compute; reflexivity) i Hi) as H1.
    by apply (forall_range _ _ H1 j). }
  specialize (Hall i j Hi Hj). rewrite Heq, Z.eqb_refl in Hall. simpl in Hall. by apply Z.eqb_eq.
Qed.

Lemma crc_step_top crc b :
  0 <= crc < 2 ^ 32 → crc_step crc b / 2 ^ 24 = table_at (Z.land (Z.lxor crc (b2z b)) 255) / 2 ^ 24.
Proof.
  intros Hc. unfold crc_step. fold (table_at (Z.land (Z.lxor crc (b2z b)) 255)).
  rewrite <-!Z.shiftr_div_pow2, Z.shiftr_lxor, Z.shiftr_shiftr by lia.
  rewrite (Z.shiftr_div_pow2 crc), Z.div_small by lia. by rewrite Z.lxor_0_r.
Qed.

(** A step loses nothing: the state after a byte determines the one before and the byte. *)
Lemma crc_step_inj crc1 crc2 b1 b2 :
  0 <= crc1 < 2 ^ 32 → 0 <= crc2 < 2 ^ 32 → crc_step crc1 b1 = crc_step crc2 b2 →
  Z.lxor crc1 (b2z b1) = Z.lxor crc2 (b2z b2).
Proof.
  intros H1 H2 Heq. pose proof (b2z_range b1). pose proof (b2z_range b2).
  set (x1 := Z.lxor crc1 (b2z b1)). set (x2 := Z.lxor crc2 (b2z b2)).
  assert (0 <= x1 ∧ 0 <= x2) as [Hx1 Hx2] by (split; by apply Z.lxor_nonneg; lia).
  assert (x1 mod 256 = x2 mod 256) as Hlow.
  { apply table_top_inj; [apply Z.mod_pos_bound; lia..|].
    rewrite <-!land_255. unfold x1, x2. rewrite <-!crc_step_top by done. by rewrite Heq. }
  assert (∀ crc b, 0 <= b2z b < 256 → Z.lxor crc (b2z b) / 256 = crc / 256) as Hhigh.
  { intros crc b Hb. rewrite <-!shiftr_8, Z.shiftr_lxor, (shiftr_8 (b2z b)), Z.div_small by lia.
    by rewrite Z.lxor_0_r. }
  assert (x1 / 256 = x2 / 256) as Htop.
  { unfold x1, x2. rewrite !Hhigh by done. unfold crc_step in Heq. rewrite !land_255 in Heq.
    fold x1 x2 in Heq. rewrite Hlow in Heq.
    rewrite <-!shiftr_8. apply (f_equal (Z.lxor (default 0 (_TABLE !! Z.to_nat (x2 mod 256))))) in Heq.
    by rewrite <-!Z.lxor_assoc, !Z.lxor_nilpotent, !Z.lxor_0_l in Heq. }
  rewrite <-(split_byte x1), <-(split_byte x2) by done. by rewrite Hlow, Htop.
Qed.

Lemma crc_run_inj data crc1 crc2 :
  0 <= crc1 < 2 ^ 32 → 0 <= crc2 < 2 ^ 32 →
  foldl crc_step crc1 data = foldl crc_step crc2 data → crc1 = crc2.
Proof.
  revert crc1 crc2. induction data as [|b data IH]; simpl; intros crc1 crc2 H1 H2 Heq; [done|].
  apply IH in Heq; [|by apply crc_step_range..]. apply crc_step_inj in Heq; [|done..].
  apply (f_equal (λ x, Z.lxor x (b2z b))) in Heq.
  by rewrite !Z.lxor_assoc, Z.lxor_nilpotent, !Z.lxor_0_r in Heq.
Qed.

Lemma crc_run_bits data crc :
  0 <= crc < 2 ^ 32 → foldl crc_step crc data = foldl crc_bits crc data.
Proof.
  revert crc. induction data as [|b data IH]; simpl; intros crc Hc; [done|].
  rewrite IH by (by apply crc_step_range). by rewrite crc_step_bits by lia.
Qed.

Lemma crc32c_one_byte data1 data2 b b' : b ≠ b' → crc32c (data1 ++ b' :: data2) ≠ crc32c (data1 ++ b :: data2).
Proof.
  intros Hb. assert (0 <= crc32c._MASK < 2 ^ 32) as Hm by (vm_compute; split; congruence).
  unfold crc32c. intros Heq. apply (f_equal (λ x, Z.lxor x crc32c._MASK)) in Heq.
  rewrite !Z.lxor_assoc, Z.lxor_nilpotent, !Z.lxor_0_r in Heq.
  rewrite !foldl_app in Heq. cbn [foldl] in Heq. set (crc := foldl crc_step _ data1) in Heq.
  assert (0 <= crc < 2 ^ 32) as Hcrc by (by apply crc_run_range).
  apply crc_run_inj in Heq; [|by apply crc_step_range..].
  apply crc_step_inj in Heq; [|done..]. apply (f_equal (Z.lxor crc)) in Heq.
  rewrite <-!Z.lxor_assoc, !Z.lxor_nilpotent, !Z.lxor_0_l in Heq. apply Hb. by apply b2z_inj.
Qed.

(** Also (equivalence): the checksum is CRC-32C and misses no corrupted byte. The table-driven
    [crc32c] equals the reference that shifts the reflected Castagnoli polynomial bit by bit; it
    is a 32-bit number, so [verify] of it never refuses and accepts exactly it; and changing any
    single byte of a batch to any other value changes the checksum, so [check_batch] refuses the
    batch with the stored checksum of the original. A stored value outside 32 bits raises
    [Invalid]. *)
Theorem crc32c_detects data1 data2 b b' stored (Hb : b ≠ b') :
  let data := data1 ++ b :: data2 in
  let corrupt := data1 ++ b' :: data2 in
  crc32c data = Z.lxor (foldl crc_bits crc32c._MASK data) crc32c._MASK
  ∧ 0 <= crc32c data < 2 ^ 32
  ∧ verify data (crc32c data) = Ok true
  ∧ crc32c corrupt ≠ crc32c data
  ∧ check_batch corrupt (crc32c data) = Err Invalid
  ∧ (stored < 0 ∨ 2 ^ 32 <= stored → verify data stored = Err Invalid).
Proof.
  intros data corrupt. assert (0 <= crc32c._MASK < 2 ^ 32) as Hm by (vm_compute; split; congruence).
  assert (∀ d, 0 <= crc32c d < 2 ^ 32) as Hrange.
  { intros d. apply lxor_range; [lia|by apply crc_run_range|done]. }
  assert (crc32c corrupt ≠ crc32c data) as Hne.
  { by apply crc32c_one_byte. }
  assert (verify data (crc32c data) = Ok true ∧ verify corrupt (crc32c data) = Ok false) as [Hv1 Hv2].
  { unfold verify. pose proof (Hrange data). change crc32c._MASK with (2 ^ 32 - 1).
    destruct (Z.leb_spec 0 (crc32c data)), (Z.leb_spec (crc32c data) (2 ^ 32 - 1)); try lia. simpl.
    rewrite Z.eqb_refl. split; [done|]. f_equal. by apply Z.eqb_neq. }
  split_and!; [unfold crc32c; by rewrite crc_run_bits|apply Hrange..|done|done| |].
  - unfold check_batch. by rewrite Hv2.
  - intros Hs. unfold verify. change crc32c._MASK with (2 ^ 32 - 1).
    destruct (Z.leb_spec 0 stored), (Z.leb_spec stored (2 ^ 32 - 1)); try done; lia.
Qed.

Lemma crc32c_detects_witness :
  let check := [x31; x32; x33; x34; x35; x36; x37; x38; x39] in
  crc32c check = 0xE3069283
  ∧ check_batch [x31; x32; x33; x34; x00; x36; x37; x38; x39] 0xE3069283 = Err Invalid.
Proof.
  intros check. split; [vm_compute; reflexivity|].
  destruct (crc32c_detects [x31; x32; x33; x34] [x36; x37; x38; x39] x35 x00 0 ltac:(discriminate))
    as (_ & _ & _ & _ & H & _).
  exact H.
Defined.
End crc_proofs.

(** ** Frames *)

Section framing_proofs.
Import FrameReader.
Implicit Types (r : FrameReader.t) (f : bytes) (frames : list bytes).

(** The writer's side: a length header and the payload. *)
Definition enc_frame f : bytes := be_split 4 (zlen f) ++ f.
Definition enc_frames frames : bytes := concat (enc_frame <$> frames).
Lemma enc_frames_cons f frames : enc_frames (f :: frames) = enc_frame f ++ enc_frames frames.
Proof. reflexivity. Qed.
Definition sendable (max : Z) f : Prop := zlen f <= max ∧ zlen f < 2 ^ 31.

Lemma header_length f : length (be_split 4 (zlen f)) = 4%nat.
Proof. apply be_split_length. Qed.

Lemma enc_frame_length f : zlen (enc_frame f) = 4 + zlen f.
Proof. unfold enc_frame. rewrite zlen_app. unfold zlen at 1. by rewrite header_length. Qed.

Lemma header_value max f : sendable max f → from_bytes_signed (be_split 4 (zlen f)) = zlen f.
Proof.
  intros [_ Hf]. pose proof (zlen_nonneg f). unfold from_bytes_signed.
  rewrite be_combine_split by (simpl; lia).
  assert (zlen (be_split 4 (zlen f)) = 4) as -> by (unfold zlen at 1; by rewrite header_length).
  change (2 ^ (8 * 4)) with (2 ^ 32). change (2 ^ 32 / 2) with (2 ^ 31).
  by destruct (Z.leb_spec (2 ^ 31) (zlen f)); [lia|].
Qed.

(** The loop takes a whole frame off the front of the buffer. *)
Lemma frame_loop_cons fuel max f buf frames :
  sendable max f →
  frame_loop (S fuel) frames (mk max (enc_frame f ++ buf)) = frame_loop fuel (frames ++ [f]) (mk max buf).
Proof.
  intros Hs. pose proof (zlen_nonneg f). pose proof (zlen_nonneg buf).
  cbn [frame_loop]. rewrite bind_get. cbn [buffer max_size].
  rewrite zlen_app, enc_frame_length. destruct (Z.ltb_spec (4 + zlen f + zlen buf) _HEADER);
    [unfold _HEADER in *; lia|].
  assert (take (Z.to_nat _HEADER) (enc_frame f ++ buf) = be_split 4 (zlen f)) as ->.
  { unfold enc_frame. rewrite <-app_assoc, take_app_le by (rewrite header_length; done).
    by rewrite take_ge by (rewrite header_length; done). }
  rewrite (header_value max f Hs), bind_raise_if. destruct (Z.ltb_spec (zlen f) 0); [lia|].
  rewrite bind_raise_if. destruct (Z.ltb_spec max (zlen f)); [destruct Hs; lia|].
  destruct (Z.ltb_spec (4 + zlen f + zlen buf - _HEADER) (zlen f)); [unfold _HEADER in *; lia|].
  rewrite bind_put. f_equal.
  - f_equal. unfold enc_frame. rewrite <-app_assoc, drop_app_length' by (by rewrite header_length).
    f_equal. unfold zlen. rewrite Nat2Z.id. by rewrite take_app_length.
  - f_equal. rewrite drop_app_length'; [done|]. pose proof (enc_frame_length f) as Hl.
    unfold zlen, _HEADER in *. lia.
Qed.

(** A buffer that ends inside a frame is kept. *)
Definition inside max buf : Prop :=
  buf = [] ∨ ∃ f rest, sendable max f ∧ enc_frame f = buf ++ rest ∧ rest ≠ [].

Lemma frame_loop_inside fuel max buf frames :
  inside max buf → frame_loop fuel frames (mk max buf) = (mk max buf, Ok frames).
Proof.
  intros Hin. destruct fuel as [|fuel]; [done|]. cbn [frame_loop]. rewrite bind_get.
  cbn [buffer max_size]. destruct (Z.ltb_spec (zlen buf) _HEADER) as [|Hlong]; [done|].
  destruct Hin as [->|(f & rest & Hs & Henc & Hne)]; [done|].
  assert (take (Z.to_nat _HEADER) buf = be_split 4 (zlen f)) as ->.
  { apply (f_equal (take (Z.to_nat _HEADER))) in Henc. unfold enc_frame in Henc.
    rewrite take_app_le, take_ge in Henc by (rewrite header_length; done).
    rewrite Henc. rewrite take_app_le; [done|]. unfold zlen in *. lia. }
  pose proof (zlen_nonneg f). pose proof (enc_frame_length f) as Hl. rewrite Henc, zlen_app in Hl.
  rewrite (header_value max f Hs), bind_raise_if. destruct (Z.ltb_spec (zlen f) 0); [lia|].
  rewrite bind_raise_if. destruct (Z.ltb_spec max (zlen f)); [destruct Hs; lia|].
  destruct (Z.ltb_spec (zlen buf - _HEADER) (zlen f)) as [|Hfull]; [done|].
  unfold _HEADER in *. assert (0 < zlen rest).
  { destruct rest; [done|]. rewrite zlen_cons. pose proof (zlen_nonneg rest). lia. }
  lia.
Qed.

(** Reading any prefix [p] of a stream of frames returns the frames it completes. *)
Lemma frame_loop_prefix max frames fuel p q acc :
  Forall (sendable max) frames → p ++ q = enc_frames frames → (length p < fuel)%nat →
  ∃ done_ left_ p',
    frames = done_ ++ left_ ∧ p' ++ q = enc_frames left_ ∧ inside max p'
    ∧ frame_loop fuel acc (mk max p) = (mk max p', Ok (acc ++ done_)).
Proof.
  intros Hs. revert fuel p acc. induction Hs as [|f frames Hf Hs IH]; intros fuel p acc Hpq Hfuel.
  - apply app_eq_nil in Hpq as [-> ->]. exists [], [], []. split_and!; [done..|by left|].
    rewrite frame_loop_inside by (by left). by rewrite app_nil_r.
  - rewrite enc_frames_cons in Hpq.
    destruct (decide (length (enc_frame f) <= length p)%nat) as [Hle|Hgt].
    + assert (∃ p1, p = enc_frame f ++ p1 ∧ p1 ++ q = enc_frames frames) as (p1 & -> & Hq).
      { exists (drop (length (enc_frame f)) p).
        assert (take (length (enc_frame f)) p = enc_frame f) as Ht.
        { apply (f_equal (take (length (enc_frame f)))) in Hpq.
          rewrite (take_app_le p) in Hpq by done. by rewrite take_app_length in Hpq. }
        split; [by rewrite <-Ht at 1; rewrite take_drop|].
        apply (f_equal (drop (length (enc_frame f)))) in Hpq.
        rewrite (drop_app_le p) in Hpq by done. by rewrite drop_app_length in Hpq. }
      destruct fuel as [|fuel]; [lia|]. rewrite length_app in Hfuel.
      assert (4 <= length (enc_frame f))%nat.
      { pose proof (enc_frame_length f) as Hl. pose proof (zlen_nonneg f). unfold zlen in *. lia. }
      destruct (IH fuel p1 (acc ++ [f]) Hq ltac:(lia)) as (dn & lf & p' & -> & Hp' & Hin & Hrun).
      exists (f :: dn), lf, p'. split_and!; [done..|]. rewrite frame_loop_cons by done.
      rewrite Hrun. by rewrite <-app_assoc.
    + exists [], (f :: frames), p.
      assert (inside max p) as Hin.
      { right. exists f, (drop (length p) (enc_frame f)). split_and!; [done| |].
        - apply (f_equal (take (length p))) in Hpq. rewrite take_app_length, (take_app_le (enc_frame f)) in Hpq by lia.
          rewrite Hpq at 1. by rewrite take_drop.
        - intros Hnil. apply (f_equal length) in Hnil. rewrite length_drop in Hnil.
          cbn [length] in Hnil. lia. }
      split_and!; [done..|]. rewrite frame_loop_inside by done. by rewrite app_nil_r.
Qed.

(** Feeding chunks one after the other, collecting the frames. *)
Fixpoint feed_all (chunks : list bytes) : act t (list bytes) :=
  match chunks with
  | [] => mret []
  | c :: chunks' => fs ← feed c; rest ← feed_all chunks'; mret (fs ++ rest)
  end.

Lemma feed_all_inside max frames chunks buf q :
  Forall (sendable max) frames → (buf ++ concat chunks) ++ q = enc_frames frames → inside max buf →
  ∃ done_ left_ p',
    frames = done_ ++ left_ ∧ p' ++ q = enc_frames left_ ∧ inside max p'
    ∧ feed_all chunks (mk max buf) = (mk max p', Ok done_).
Proof.
  revert frames buf. induction chunks as [|c chunks IH]; intros frames buf Hs Hpq Hin.
  - rewrite app_nil_r in Hpq. by exists [], frames, buf.
  - cbn [concat] in Hpq. rewrite app_assoc, <-app_assoc in Hpq.
    destruct (frame_loop_prefix max frames (S (length (buf ++ c))) (buf ++ c) (concat chunks ++ q) []
                Hs Hpq ltac:(lia)) as (dn1 & lf1 & p1 & -> & Hp1 & Hin1 & Hrun1).
    apply Forall_app in Hs as [_ Hs]. rewrite app_assoc in Hp1.
    destruct (IH lf1 p1 Hs Hp1 Hin1) as (dn2 & lf2 & p2 & -> & Hp2 & Hin2 & Hrun2).
    exists (dn1 ++ dn2), lf2, p2. split_and!; [by rewrite app_assoc|done..|].
    cbn [feed_all]. rewrite bind_run. unfold feed. rewrite bind_modify, bind_get.
    cbn [buffer max_size]. rewrite Hrun1. rewrite bind_run, Hrun2. done.
Qed.

(** C39 (roundtrip): framing survives any chunking of the stream. When a writer sends frames no larger
    than the reader's limit (and the 31-bit header), then however the bytes are cut into chunks, and
    wherever reading stops, feeding the chunks never raises and returns, in order and unaltered,
    exactly the frames received whole, keeping only the bytes of the one cut short; once the whole
    stream is fed, all the frames have been returned and nothing is buffered. *)
Theorem framing_any_chunks max r frames chunks tail
    (Hmake : make max = Ok r)
    (Hsend : Forall (sendable max) frames)
    (Hstream : concat chunks ++ tail = enc_frames frames) :
  ∃ whole unread kept,
    feed_all chunks r = (mk max kept, Ok whole)
    ∧ frames = whole ++ unread ∧ kept ++ tail = enc_frames unread
    ∧ (kept = [] ∨ ∃ f rest, enc_frame f = kept ++ rest ∧ rest ≠ [])
    ∧ (tail = [] → whole = frames ∧ kept = []).
Proof.
  unfold make in Hmake. destruct (max <? 1); [done|]. injection Hmake as <-.
  destruct (feed_all_inside max frames chunks [] tail Hsend Hstream ltac:(by left))
    as (dn & lf & p & -> & Hp & Hin & Hrun).
  exists dn, lf, p. split_and!; [done..| |].
  - destruct Hin as [->|(f & rest & _ & Henc & Hne)]; [by left|right]. by exists f, rest.
  - intros ->. rewrite app_nil_r in Hp. destruct lf as [|f lf]; [by rewrite app_nil_r|].
    exfalso. rewrite enc_frames_cons in Hp. apply Forall_app in Hsend as [_ Hsend].
    apply Forall_cons in Hsend as [Hf _].
    assert (inside max p) as Hin' by done.
    pose proof (frame_loop_inside 1 max p [] Hin') as Hstop. rewrite Hp in Hstop.
    rewrite frame_loop_cons in Hstop by done. discriminate.
Qed.

Lemma framing_any_chunks_witness :
  let chunks := [[x00; x00]; [x00; x02; x61]; []; [x62; x00; x00; x00; x00; x00]] in
  ∃ whole unread kept,
    feed_all chunks (mk 10 []) = (mk 10 kept, Ok whole)
    ∧ [[x61; x62]; []; [x63]] = whole ++ unread
    ∧ kept ++ [x00; x00; x01; x63] = enc_frames unread.
Proof.
  intros chunks.
  assert (Forall (sendable 10) [[x61; x62]; []; [x63]]) as Hs
    by (repeat constructor; vm_compute; discriminate || reflexivity).
  destruct (framing_any_chunks 10 (mk 10 []) [[x61; x62]; []; [x63]] chunks [x00; x00; x01; x63]
              eq_refl Hs ltac:(vm_compute; reflexivity)) as (whole & unread & kept & H1 & H2 & H3 & _).
  exists whole, unread, kept. split; [exact H1|]. split; [exact H2|exact H3].
Defined.

(** Frames completed in a chunk that also carries a bad header are dropped with the exception. *)
Lemma bad_header_drops_frames :
  (feed [x00; x00; x00; x01; x61; xff; xff; xff; xff] (mk 10 [])) = (mk 10 [xff; xff; xff; xff], Err Invalid).
Proof. vm_compute. reflexivity. Qed.
End framing_proofs.
