(* ===== verification/Raft.v ===== *)
(** * Quorums: votes, log matching, commits and reads

    [relay/quorumvote.py], [relay/prevote.py], [relay/logmatching.py],
    [relay/commitindex.py], [relay/readindex.py], [relay/membershipchange.py],
    [relay/quorumread.py] and [relay/flexiblequorum.py]. *)

From S2P Require Import Prelude PyDict PyBytes.

Definition gsize (s : gset string) : Z := Z.of_nat (size s).

Module quorumvote.
Module LogEnd.
(** [relay/quorumvote.py] class LogEnd *)
Record t := mk {
  last_term : Z;
  length : Z;
}.
(** [relay/quorumvote.py] LogEnd.at_least_as_current_as *)
Definition at_least_as_current_as (self other : t) : bool :=
  if negb (last_term self =? last_term other) then last_term other <? last_term self
  else length other <=? length self.
End LogEnd.

Module Election.
(** [relay/quorumvote.py] class Election *)
Record t := mk {
  term : Z;
  voters : Z;
  granted : gset string;
  voted_terms : gmap string Z;
}.

(** [relay/quorumvote.py] Election.__post_init__ *)
Definition make (term voters : Z) : result t :=
  if voters <? 1 then Err Invalid else Ok (mk term voters ∅ ∅).

(** [relay/quorumvote.py] Election.majority *)
Definition majority (self : t) : Z := voters self / 2 + 1.

(** [relay/quorumvote.py] Election.request_vote *)
Definition request_vote (voter : string) (candidate_log voter_log : LogEnd.t) : act t bool :=
  self ← get;
  raise_if (bool_decide (voted_terms self !! voter = Some (term self))) Fenced;;
  put (mk (term self) (voters self) (granted self) (<[voter := term self]> (voted_terms self)));;
  if negb (LogEnd.at_least_as_current_as candidate_log voter_log) then mret false
  else
    modify (λ self, mk (term self) (voters self) ({[voter]} ∪ granted self) (voted_terms self));;
    mret true.

(** [relay/quorumvote.py] Election.won *)
Definition won (self : t) : bool := majority self <=? gsize (granted self).

(** [relay/quorumvote.py] Election.tally *)
Definition tally (self : t) : string :=
  let need := majority self in
  let have := gsize (granted self) in
  if need <=? have then
    "won term " +:+ zs (term self) +:+ ": " +:+ zs have +:+ "/" +:+ zs (voters self)
    +:+ ", majority " +:+ zs need
  else
    "lost term " +:+ zs (term self) +:+ ": " +:+ zs have +:+ "/" +:+ zs (voters self)
    +:+ ", needed " +:+ zs need +:+ ", short by " +:+ zs (need - have).
End Election.
End quorumvote.
Import quorumvote.

Module prevote.
Module PreVote.
(** [relay/prevote.py] class PreVote *)
Record t := mk {
  voters : Z;
  grants : gset string;
}.
(** [relay/prevote.py] PreVote.__post_init__ *)
Definition make (voters : Z) : result t := if voters <? 1 then Err Invalid else Ok (mk voters ∅).
(** [relay/prevote.py] PreVote.majority *)
Definition majority (self : t) : Z := voters self / 2 + 1.
(** [relay/prevote.py] PreVote.request *)
Definition request (peer : string) (heard_leader_recently log_current : bool) : act t bool :=
  if heard_leader_recently || negb log_current then mret false
  else
    modify (λ self, mk (voters self) ({[peer]} ∪ grants self));;
    mret true.
(** [relay/prevote.py] PreVote.warranted *)
Definition warranted (self : t) : bool := majority self <=? gsize (grants self).
(** [relay/prevote.py] PreVote.campaign *)
Definition campaign (self : t) : result string :=
  if negb (warranted self) then Err Invalid
  else Ok "pre-vote passed; increment the term and run the real election".
(** [relay/prevote.py] PreVote.report *)
Definition report (self : t) : string :=
  if warranted self then
    "campaign warranted, " +:+ zs (gsize (grants self)) +:+ " pre-vote(s); a real leader may be gone"
  else
    "only " +:+ zs (gsize (grants self)) +:+ " pre-vote(s); stand down, the node is "
    +:+ "likely partitioned and bumping its term would disrupt a healthy cluster on rejoin".
End PreVote.
End prevote.
Import prevote.

Module logmatching.
Module FollowerLog.
(** [relay/logmatching.py] class FollowerLog *)
Record t := mk { entries : gmap Z Z }.

(** [relay/logmatching.py] FollowerLog.append *)
Definition append (prev_index prev_term : Z) (new : gmap Z Z) : act t string :=
  self ← get;
  raise_if ((0 <? prev_index) && negb (bool_decide (entries self !! prev_index = Some prev_term)))
           Invalid;;
  put (mk (filter (λ p, p.1 <= prev_index) (entries self)));;
  modify (λ self, mk (new ∪ entries self));;
  mret ("appended after index " +:+ zs prev_index +:+ "; divergent tail truncated").

(** [sorted(leader)] *)
Definition sorted_keys (m : gmap Z Z) : list Z := py_sorted Z.le (map_to_list m).*1.

(** [relay/logmatching.py:58-62] FollowerLog.agreement_point *)
Fixpoint agreement_loop (entries leader : gmap Z Z) (indexes : list Z) (point : Z) : Z :=
  match indexes with
  | [] => point
  | index :: indexes' =>
      if bool_decide (entries !! index = leader !! index)
      then agreement_loop entries leader indexes' index
      else point
  end.
(** [relay/logmatching.py] FollowerLog.agreement_point *)
Definition agreement_point (self : t) (leader : gmap Z Z) : Z :=
  agreement_loop (entries self) leader (sorted_keys leader) 0.

(** [relay/logmatching.py] FollowerLog.report *)
Definition report (self : t) (leader : gmap Z Z) : string :=
  let point := agreement_point self leader in
  let behind := match (map_to_list leader).*1 with [] => 0 | x :: l => py_max x l end - point in
  "logs agree through index " +:+ zs point +:+ ", " +:+ zs behind +:+ " entry(ies) to "
  +:+ "reconcile; a far-back agreement is a divergence the size of a "
  +:+ "failover the follower lived through".
End FollowerLog.
End logmatching.
Import logmatching.

Module commitindex.
Module CommitIndex.
(** [relay/commitindex.py] class CommitIndex *)
Record t := mk {
  current_term : Z;
  entry_terms : gmap Z Z;
  voters : Z;
  commit_index : Z;
}.
(** [relay/commitindex.py] CommitIndex.majority *)
Definition majority (self : t) : Z := voters self / 2 + 1.

Definition advance_to (index : Z) (self : t) : t :=
  mk (current_term self) (entry_terms self) (voters self) (Z.max (commit_index self) index).

(** [relay/commitindex.py] CommitIndex.try_advance *)
Definition try_advance (index replica_count : Z) : act t string :=
  self ← get;
  match entry_terms self !! index with
  | None => raise Invalid
  | Some entry_term =>
      raise_if (replica_count <? majority self) Invalid;;
      raise_if (entry_term <? current_term self) Invalid;;
      modify (advance_to index);;
      mret ("committed to index " +:+ zs index +:+ " (current-term entry, majority holds it)")
  end.

(** [relay/commitindex.py] CommitIndex.commit_prior_via_current *)
Definition commit_prior_via_current (prior_index current_index : Z) : act t string :=
  self ← get;
  raise_if (negb (bool_decide (entry_terms self !! current_index = Some (current_term self)))) Invalid;;
  raise_if (current_index <? prior_index) Invalid;;
  modify (advance_to current_index);;
  mret ("committed through " +:+ zs current_index +:+ "; the prior-term entry at "
        +:+ zs prior_index +:+ " is now safely committed by log matching").
End CommitIndex.
End commitindex.
Import commitindex.

Module readindex.
Module ReadIndex.
(** [relay/readindex.py] class ReadIndex *)
Record t := mk {
  commit_index : Z;
  voters : Z;
  applied_index : Z;
  confirmations : Z;
  read_index : Z;
}.
(** [relay/readindex.py] ReadIndex.__post_init__ *)
Definition make (commit_index voters applied_index confirmations read_index : Z) : result t :=
  if voters <? 1 then Err Invalid
  else Ok (mk commit_index voters applied_index confirmations read_index).
(** [relay/readindex.py] ReadIndex.majority *)
Definition majority (self : t) : Z := voters self / 2 + 1.
(** [relay/readindex.py] ReadIndex.begin_read *)
Definition begin_read : act t Z :=
  modify (λ self, mk (commit_index self) (voters self) (applied_index self) 1 (commit_index self));;
  self ← get;
  mret (read_index self).
(** [relay/readindex.py] ReadIndex.confirm *)
Definition confirm : act t unit :=
  modify (λ self, mk (commit_index self) (voters self) (applied_index self)
                     (confirmations self + 1) (read_index self)).
(** [relay/readindex.py] ReadIndex.quorum_confirmed *)
Definition quorum_confirmed (self : t) : bool := majority self <=? confirmations self.
(** [relay/readindex.py] ReadIndex.apply_to *)
Definition apply_to (index : Z) : act t unit :=
  modify (λ self, mk (commit_index self) (voters self) (Z.max (applied_index self) index)
                     (confirmations self) (read_index self)).
(** [relay/readindex.py] ReadIndex.serve *)
Definition serve (self : t) : result string :=
  if read_index self <? 0 then Err Invalid
  else if negb (quorum_confirmed self) then Err Invalid
  else if applied_index self <? read_index self then Err Invalid
  else Ok ("linearizable read served as of index " +:+ zs (read_index self)).
End ReadIndex.
End readindex.
Import readindex.

Module membershipchange.
Module Membership.
(** [relay/membershipchange.py] class Membership *)
Record t := mk { voters : gset string }.
(** [relay/membershipchange.py] Membership.__post_init__ *)
Definition make (voters : gset string) : result t :=
  if bool_decide (voters = ∅) then Err Invalid else Ok (mk voters).
(** [relay/membershipchange.py] Membership.majority *)
Definition majority (self : t) : Z := gsize (voters self) / 2 + 1.
(** [relay/membershipchange.py] Membership.change_to *)
Definition change_to (proposed : gset string) : act t string :=
  self ← get;
  raise_if (bool_decide (proposed = ∅)) Invalid;;
  let diff := gsize ((voters self ∖ proposed) ∪ (proposed ∖ voters self)) in
  if diff =? 0 then mret "no change"
  else
    raise_if (1 <? diff) Invalid;;
    let old_majority := majority self in
    put (mk proposed);;
    self ← get;
    mret ("changed by one voter; majority " +:+ zs old_majority +:+ " -> " +:+ zs (majority self)
          +:+ ", every old and new majority still overlapping, safe").
(** [relay/membershipchange.py] Membership.failures_tolerated *)
Definition failures_tolerated (self : t) : Z := gsize (voters self) - majority self.
End Membership.
End membershipchange.
Import membershipchange.

Module quorumread.
Module QuorumConfig.
(** [relay/quorumread.py] class QuorumConfig *)
Record t := mk {
  replicas : Z;
  read_quorum : Z;
  write_quorum : Z;
}.
(** [relay/quorumread.py] QuorumConfig.__post_init__ *)
Definition make (replicas read_quorum write_quorum : Z) : result t :=
  if replicas <? 1 then Err Invalid
  else if existsb (λ q, negb ((1 <=? q) && (q <=? replicas))) [read_quorum; write_quorum]
  then Err Invalid
  else Ok (mk replicas read_quorum write_quorum).
(** [relay/quorumread.py] QuorumConfig.is_consistent *)
Definition is_consistent (self : t) : bool := replicas self <? read_quorum self + write_quorum self.
(** [relay/quorumread.py] QuorumConfig.write_failures_tolerated *)
Definition write_failures_tolerated (self : t) : Z := replicas self - write_quorum self.
(** [relay/quorumread.py] QuorumConfig.read_failures_tolerated *)
Definition read_failures_tolerated (self : t) : Z := replicas self - read_quorum self.
(** [relay/quorumread.py] QuorumConfig.report *)
Definition report (self : t) : string :=
  let state := if is_consistent self then "consistent" else "STALE-POSSIBLE" in
  "R=" +:+ zs (read_quorum self) +:+ " W=" +:+ zs (write_quorum self) +:+ " N="
  +:+ zs (replicas self) +:+ ": " +:+ state +:+ " (R+W "
  +:+ (if is_consistent self then ">" else "<=") +:+ " N); a write tolerates "
  +:+ zs (write_failures_tolerated self) +:+ " failure(s), a read "
  +:+ zs (read_failures_tolerated self)
  +:+ ", a durability-availability position, not a single best".
End QuorumConfig.
End quorumread.
Import quorumread.

Module flexiblequorum.
Module FlexibleQuorum.
(** [relay/flexiblequorum.py] class FlexibleQuorum *)
Record t := mk {
  nodes : Z;
  election_quorum : Z;
  replication_quorum : Z;
}.
(** [relay/flexiblequorum.py] FlexibleQuorum.__post_init__ *)
Definition make (nodes election_quorum replication_quorum : Z) : result t :=
  if nodes <? 1 then Err Invalid
  else if existsb (λ q, negb ((1 <=? q) && (q <=? nodes))) [election_quorum; replication_quorum]
  then Err Invalid
  else Ok (mk nodes election_quorum replication_quorum).
(** [relay/flexiblequorum.py] FlexibleQuorum.intersects *)
Definition intersects (self : t) : bool :=
  nodes self <? election_quorum self + replication_quorum self.
(** [relay/flexiblequorum.py] FlexibleQuorum.commit_failures_tolerated *)
Definition commit_failures_tolerated (self : t) : Z := nodes self - replication_quorum self.
(** [relay/flexiblequorum.py] FlexibleQuorum.election_failures_tolerated *)
Definition election_failures_tolerated (self : t) : Z := nodes self - election_quorum self.
(** [relay/flexiblequorum.py] FlexibleQuorum.validate *)
Definition validate (self : t) : result string :=
  if negb (intersects self) then Err Invalid
  else Ok ("safe: Q1 " +:+ zs (election_quorum self) +:+ " + Q2 " +:+ zs (replication_quorum self)
           +:+ " > N " +:+ zs (nodes self) +:+ "; commits tolerate "
           +:+ zs (commit_failures_tolerated self) +:+ " failure(s), elections "
           +:+ zs (election_failures_tolerated self)
           +:+ ", the speed-for-availability trade the majority rule hides").
End FlexibleQuorum.
End flexiblequorum.
Import flexiblequorum.

(** ** Quorums that intersect *)

Section quorum_proofs.
Implicit Types (V A B : gset string).

Lemma gsize_subseteq A V : A ⊆ V → gsize A <= gsize V.
Proof. intros H. unfold gsize. apply Nat2Z.inj_le. by apply subseteq_size. Qed.

Lemma gsize_union A B : A ## B → gsize (A ∪ B) = gsize A + gsize B.
Proof. intros H. unfold gsize. rewrite size_union by done. lia. Qed.

Lemma gsize_difference A V : A ⊆ V → gsize (V ∖ A) = gsize V - gsize A.
Proof.
  intros H. unfold gsize. rewrite size_difference by done.
  pose proof (subseteq_size _ _ H). lia.
Qed.

(** Two sets too large to be apart meet. *)
Lemma quorums_meet V A B :
  A ⊆ V → B ⊆ V → gsize V < gsize A + gsize B → ∃ x, x ∈ A ∧ x ∈ B.
Proof.
  intros HA HB Hlt. destruct (decide (A ## B)) as [Hdis|Hmeet].
  - exfalso. pose proof (gsize_subseteq (A ∪ B) V ltac:(set_solver)) as H.
    rewrite gsize_union in H by done. lia.
  - destruct (set_choose_or_empty (A ∩ B)) as [[x Hx]|Hempty]; [set_solver|].
    exfalso. apply Hmeet. set_solver.
Qed.

Lemma subset_of_size V k : 0 <= k <= gsize V → ∃ A, A ⊆ V ∧ gsize A = k.
Proof.
  intros Hk. exists (list_to_set (take (Z.to_nat k) (elements V))). split.
  - intros x Hx. apply elem_of_list_to_set, elem_of_take in Hx as (i & Hx & _).
    apply elem_of_elements. by eapply list_elem_of_lookup_2.
  - unfold gsize in *. rewrite size_list_to_set.
    + rewrite length_take. change (length (elements V)) with (size V). lia.
    + apply (sublist_NoDup _ (elements V)); [apply NoDup_elements|apply sublist_take].
Qed.

Lemma quorums_meet_iff V q1 q2 :
  0 <= q1 <= gsize V → 0 <= q2 <= gsize V →
  (gsize V <? q1 + q2) = true ↔
  ∀ A B, A ⊆ V → B ⊆ V → q1 <= gsize A → q2 <= gsize B → ∃ x, x ∈ A ∧ x ∈ B.
Proof.
  intros H1 H2. rewrite Z.ltb_lt. split.
  - intros Hlt A B HA HB HqA HqB. apply (quorums_meet V); [done..|lia].
  - intros Hmeet. destruct (Z.lt_ge_cases (gsize V) (q1 + q2)) as [|Hge]; [done|exfalso].
    destruct (subset_of_size V q1 H1) as (A & HA & HsA).
    destruct (subset_of_size (V ∖ A) q2) as (B & HB & HsB).
    { rewrite gsize_difference by done. lia. }
    destruct (Hmeet A B) as (x & HxA & HxB); [done|set_solver|lia|lia|set_solver].
Qed.

(** Also (equivalence): the quorum checks are exact. For a set of replicas, [QuorumConfig.is_consistent]
    holds if and only if every read quorum shares a replica with every write quorum, so a consistent
    configuration always reads the last write and one it calls stale-possible really can miss it;
    likewise [FlexibleQuorum.validate] succeeds if and only if every election quorum shares a node
    with every replication quorum, and otherwise raises [Invalid]. *)
Theorem quorum_checks_exact V r w c e p f
    (Hc : QuorumConfig.make (gsize V) r w = Ok c)
    (Hf : FlexibleQuorum.make (gsize V) e p = Ok f) :
  (QuorumConfig.is_consistent c = true ↔
   ∀ A B, A ⊆ V → B ⊆ V → r <= gsize A → w <= gsize B → ∃ x, x ∈ A ∧ x ∈ B)
  ∧ (is_ok (FlexibleQuorum.validate f) = true ↔
     ∀ A B, A ⊆ V → B ⊆ V → e <= gsize A → p <= gsize B → ∃ x, x ∈ A ∧ x ∈ B)
  ∧ (is_ok (FlexibleQuorum.validate f) = false → FlexibleQuorum.validate f = Err Invalid).
Proof.
  unfold QuorumConfig.make, FlexibleQuorum.make in *. simpl in Hc, Hf.
  repeat bool_split_in Hc; simplify_eq. repeat bool_split_in Hf; simplify_eq. bool_prop.
  split_and!.
  - unfold QuorumConfig.is_consistent. simpl. apply quorums_meet_iff; lia.
  - rewrite <-quorums_meet_iff by lia. unfold FlexibleQuorum.validate, FlexibleQuorum.intersects.
    simpl. by destruct (gsize V <? e + p).
  - unfold FlexibleQuorum.validate. by destruct (negb _).
Qed.

Lemma quorum_checks_exact_witness :
  let V : gset string := {["a"; "b"; "c"]} in
  ∃ x, x ∈ ({["a"; "b"]} : gset string) ∧ x ∈ ({["b"; "c"]} : gset string).
Proof.
  intros V.
  assert (QuorumConfig.make (gsize V) 2 2 = Ok (QuorumConfig.mk 3 2 2)) as Hc by (vm_compute; reflexivity).
  assert (FlexibleQuorum.make (gsize V) 3 1 = Ok (FlexibleQuorum.mk 3 3 1)) as Hf
    by (vm_compute; reflexivity).
  destruct (quorum_checks_exact V 2 2 _ 3 1 _ Hc Hf) as (H & _).
  apply H; [reflexivity|..]; apply (bool_decide_unpack _); vm_compute; exact I.
Defined.

(** Also (safety): changing one voter at a time never allows two leaders. Whenever [change_to]
    succeeds, every majority of the old voter set shares a voter with every majority of the new
    one, so no two disjoint majorities can elect leaders during the change. It refuses with
    [Invalid], keeping the voters, exactly an empty set or one that differs by more than one
    voter, and the voter set it leaves is the proposed one. *)
Theorem membership_change_safe m proposed :
  let diff := gsize ((Membership.voters m ∖ proposed) ∪ (proposed ∖ Membership.voters m)) in
  match Membership.change_to proposed m with
  | (m', Ok _) =>
      Membership.voters m' = proposed ∧ proposed ≠ ∅ ∧ diff <= 1
      ∧ ∀ A B, A ⊆ Membership.voters m → B ⊆ Membership.voters m' →
          Membership.majority m <= gsize A → Membership.majority m' <= gsize B →
          ∃ x, x ∈ A ∧ x ∈ B
  | (m', Err err) => m' = m ∧ err = Invalid ∧ (proposed = ∅ ∨ 1 < diff)
  end.
Proof.
  intros diff. destruct m as [V]. unfold Membership.change_to.
  rewrite bind_get, bind_raise_if. cbn [Membership.voters] in *.
  case_bool_decide as Hempty; [by split_and!; [..|left]|]. fold diff. rewrite run_if.
  assert (diff = gsize (V ∖ proposed) + gsize (proposed ∖ V)) as Hdiff
    by (unfold diff; rewrite gsize_union by set_solver; done).
  assert (0 <= gsize (V ∖ proposed) ∧ 0 <= gsize (proposed ∖ V)) as [H1 H2]
    by (unfold gsize; lia).
  assert (∀ A B, diff <= 1 → A ⊆ V → B ⊆ proposed →
            gsize V / 2 + 1 <= gsize A → gsize proposed / 2 + 1 <= gsize B → ∃ x, x ∈ A ∧ x ∈ B)
    as Hmeet.
  { intros A B Hd HA HB HqA HqB. apply (quorums_meet (V ∪ proposed)); [set_solver..|].
    pose proof (gsize_union V (proposed ∖ V) ltac:(set_solver)) as Hu1.
    pose proof (gsize_union proposed (V ∖ proposed) ltac:(set_solver)) as Hu2.
    replace (V ∪ proposed ∖ V) with (V ∪ proposed) in Hu1
      by (apply set_eq; intros x; destruct (decide (x ∈ V)); set_solver).
    replace (proposed ∪ V ∖ proposed) with (V ∪ proposed) in Hu2
      by (apply set_eq; intros x; destruct (decide (x ∈ proposed)); set_solver).
    pose proof (Z.div_mod (gsize V) 2 ltac:(lia)). pose proof (Z.mod_pos_bound (gsize V) 2 ltac:(lia)).
    pose proof (Z.div_mod (gsize proposed) 2 ltac:(lia)).
    pose proof (Z.mod_pos_bound (gsize proposed) 2 ltac:(lia)). lia. }
  destruct (Z.eqb_spec diff 0) as [Hzero|Hnz].
  - simpl. assert (V = proposed) as <-.
    { assert (size (V ∖ proposed) = 0%nat ∧ size (proposed ∖ V) = 0%nat) as [Hs1 Hs2]
        by (unfold gsize in *; lia).
      apply size_empty_inv, empty_difference_subseteq in Hs1, Hs2.
      apply set_eq. intros x. split; auto. }
    split_and!; [done|done|lia|]. intros A B. apply Hmeet. lia.
  - rewrite bind_raise_if. destruct (Z.ltb_spec 1 diff); [by split_and!; [..|right]|].
    act_simpl. split_and!; [done..|]. intros A B. unfold Membership.majority. simpl. by apply Hmeet.
Qed.
End quorum_proofs.

(** ** Elections *)

Section vote_proofs.
Import Election.

Lemma current_trans a b c :
  LogEnd.at_least_as_current_as a b = true → LogEnd.at_least_as_current_as b c = true →
  LogEnd.at_least_as_current_as a c = true.
Proof.
  unfold LogEnd.at_least_as_current_as. intros H1 H2.
  repeat bool_split_in H1; repeat bool_split_in H2; bool_split; bool_prop; lia.
Qed.

(** A round of vote requests of one candidate; [logs] is each voter's log. *)
Definition vote_step (c : LogEnd.t) (logs : string → LogEnd.t) (v : string) : t → t :=
  state_of (request_vote v c (logs v)).

Definition vote_inv (c : LogEnd.t) (logs : string → LogEnd.t) (asked : list string) (e0 e : t) : Prop :=
  term e = term e0 ∧ voters e = voters e0
  ∧ (∀ v, v ∈ granted e ↔ v ∈ asked ∧ LogEnd.at_least_as_current_as c (logs v) = true)
  ∧ ∀ v, voted_terms e !! v = if bool_decide (v ∈ asked) then Some (term e0) else None.

Lemma vote_run c logs vs e0 :
  granted e0 = ∅ → voted_terms e0 = ∅ → vote_inv c logs vs e0 (run (vote_step c logs) vs e0).
Proof.
  intros Hg Hv. induction vs as [|v vs IH] using rev_ind.
  - split_and!; [done..| |].
    + intros v. simpl. rewrite Hg. split; [by intros ?%elem_of_empty|by intros [?%elem_of_nil _]].
    + intros v. simpl. rewrite Hv, lookup_empty. done.
  - rewrite run_app. set (e := run (vote_step c logs) vs e0) in *.
    destruct IH as (Ht & Hvo & Hgr & Hvt). simpl. unfold vote_step, state_of, request_vote.
    rewrite bind_get, bind_raise_if, Hvt, Ht. destruct (decide (v ∈ vs)) as [Hin|Hnin].
    + rewrite (bool_decide_eq_true_2 (v ∈ vs)), bool_decide_eq_true_2 by done.
      split_and!; [done..| |].
      * intros x. simpl. rewrite Hgr. set_solver.
      * intros x. simpl. rewrite Hvt. rewrite (bool_decide_ext (x ∈ vs) (x ∈ vs ++ [v])); [done|].
        rewrite elem_of_app, list_elem_of_singleton. naive_solver.
    + rewrite (bool_decide_eq_false_2 (v ∈ vs)), bool_decide_eq_false_2 by done.
      assert (∀ x, <[v:=term e0]> (voted_terms e) !! x
                   = if bool_decide (x ∈ vs ++ [v]) then Some (term e0) else None) as Hvt'.
      { intros x. destruct (decide (x = v)) as [->|Hne].
        - rewrite lookup_insert_eq, bool_decide_eq_true_2; [done|].
          apply elem_of_app. right. left.
        - rewrite lookup_insert_ne, Hvt by done.
          rewrite (bool_decide_ext (x ∈ vs) (x ∈ vs ++ [v])); [done|].
          rewrite elem_of_app, list_elem_of_singleton. naive_solver. }
      rewrite bind_put, run_if. destruct (LogEnd.at_least_as_current_as c (logs v)) eqn:Hc; act_simpl;
        (split_and!; [done|exact Hvo| |exact Hvt']); intros x; simpl; rewrite ?elem_of_union, Hgr, elem_of_app,
          ?elem_of_singleton, list_elem_of_singleton; naive_solver congruence.
Qed.

(** C13 (safety): an election winner holds every entry a majority holds. When a candidate asks voters of
    the electorate, in any order and as often as it likes, the votes granted are exactly those of
    the voters asked whose log is not more current than its own, each counted once, and asking one
    again raises [Fenced] and changes nothing; if it has won, then for every majority of the
    electorate whose logs all reach some entry, its own log reaches that entry, so a committed
    record is never missing from a new leader. *)
Theorem election_completeness term (V : gset string) e0 c logs (vs : list string)
    (Hmake : make term (gsize V) = Ok e0)
    (Hvs : ∀ v, v ∈ vs → v ∈ V) :
  let e := run (vote_step c logs) vs e0 in
  granted e = filter (λ v, LogEnd.at_least_as_current_as c (logs v) = true) (list_to_set vs)
  ∧ (∀ v lg, v ∈ vs → request_vote v c lg e = (e, Err Fenced))
  ∧ (won e = true → ∀ Q entry, Q ⊆ V → majority e <= gsize Q →
       (∀ v, v ∈ Q → LogEnd.at_least_as_current_as (logs v) entry = true) →
       LogEnd.at_least_as_current_as c entry = true).
Proof.
  unfold make in Hmake. destruct (gsize V <? 1); [done|]. injection Hmake as <-.
  intros e.
  assert (vote_inv c logs vs (mk term (gsize V) ∅ ∅) e) as (Ht & Hvo & Hgr & Hvt) by (by apply vote_run).
  simpl in Ht, Hvo, Hvt. clearbody e. split_and!.
  - apply set_eq. intros v. rewrite Hgr, elem_of_filter, elem_of_list_to_set. tauto.
  - intros v lg Hv. unfold request_vote. rewrite bind_get, bind_raise_if, Hvt, Ht.
    by rewrite (bool_decide_eq_true_2 (v ∈ vs)), bool_decide_eq_true_2.
  - intros Hwon Q entry HQ Hmaj Hall. unfold won in Hwon. apply Z.leb_le in Hwon.
    destruct (quorums_meet V Q (granted e)) as (v & HvQ & Hvg); [done| | |].
    + intros v Hv. apply Hvs. by apply Hgr in Hv as [? _].
    + unfold majority in *. rewrite Hvo in *.
      pose proof (Z.div_mod (gsize V) 2 ltac:(lia)). pose proof (Z.mod_pos_bound (gsize V) 2 ltac:(lia)).
      lia.
    + eapply current_trans; [by apply Hgr|by apply Hall].
Qed.

Lemma election_completeness_witness :
  let V : gset string := {["a"; "b"; "c"]} in
  let logs v := if String.eqb v "c" then LogEnd.mk 3 9 else LogEnd.mk 2 5 in
  let e := run (vote_step (LogEnd.mk 2 6) logs) ["a"; "c"; "b"; "a"] (mk 7 3 ∅ ∅) in
  won e = true ∧ request_vote "c" (LogEnd.mk 2 6) (LogEnd.mk 0 0) e = (e, Err Fenced).
Proof.
  intros V logs e.
  assert (make 7 (gsize V) = Ok (mk 7 3 ∅ ∅)) as Hmake by (vm_compute; reflexivity).
  assert (∀ v, v ∈ ["a"; "c"; "b"; "a"] → v ∈ V) as Hvs by (intros v Hv; unfold V; set_solver).
  destruct (election_completeness 7 V (mk 7 3 ∅ ∅) (LogEnd.mk 2 6) logs ["a"; "c"; "b"; "a"] Hmake Hvs)
    as (_ & Hf & _).
  split; [vm_compute; reflexivity|]. apply Hf. right. left.
Defined.
End vote_proofs.

(** ** Log matching *)

Section log_matching_proofs.
Import FollowerLog.
Implicit Types (l : gmap Z Z) (f : FollowerLog.t).

Definition upto (n : Z) l : gmap Z Z := filter (λ p, p.1 <= n) l.
Definition after (n : Z) l : gmap Z Z := filter (λ p, n < p.1) l.

Lemma upto_lookup n l i : upto n l !! i = if bool_decide (i <= n) then l !! i else None.
Proof.
  unfold upto. case_bool_decide.
  - destruct (l !! i) eqn:Hl; [by apply map_lookup_filter_Some|].
    apply map_lookup_filter_None. by left.
  - apply map_lookup_filter_None. right. intros x _. simpl. lia.
Qed.

Lemma after_lookup n l i : after n l !! i = if bool_decide (n < i) then l !! i else None.
Proof.
  unfold after. case_bool_decide.
  - destruct (l !! i) eqn:Hl; [by apply map_lookup_filter_Some|].
    apply map_lookup_filter_None. by left.
  - apply map_lookup_filter_None. right. intros x _. simpl. lia.
Qed.

Lemma append_run prev_index prev_term new f :
  append prev_index prev_term new f =
    if (0 <? prev_index) && negb (bool_decide (entries f !! prev_index = Some prev_term))
    then (f, Err Invalid)
    else (mk (new ∪ upto prev_index (entries f)),
          Ok ("appended after index " +:+ zs prev_index +:+ "; divergent tail truncated")).
Proof. unfold append. rewrite bind_get, bind_raise_if. by destruct (_ && _). Qed.

(** A follower that agrees with the leader up to the preceding entry ends with the leader's log. *)
Lemma append_agreeing leader f n :
  (∀ i, i <= n → entries f !! i = leader !! i) →
  after n leader ∪ upto n (entries f) = leader.
Proof.
  intros Hagree. apply map_eq. intros i. rewrite lookup_union, after_lookup, upto_lookup.
  destruct (decide (i <= n)).
  - rewrite (bool_decide_eq_false_2 (n < i)), bool_decide_eq_true_2 by lia. simpl.
    rewrite Hagree by done. by destruct (leader !! i).
  - rewrite (bool_decide_eq_true_2 (n < i)), bool_decide_eq_false_2 by lia. by destruct (leader !! i).
Qed.

(** The leader's walk: try the entry before [n], and step back on a rejection. *)
Fixpoint reconcile (leader : gmap Z Z) (n : nat) f : FollowerLog.t :=
  let attempt := append (Z.of_nat n) (default 0 (leader !! Z.of_nat n)) (after (Z.of_nat n) leader) f in
  match attempt.2, n with
  | Err _, S n => reconcile leader n attempt.1
  | _, _ => attempt.1
  end.

(** A log that holds the indexes 1 to [n]. *)
Definition log_of_length (n : nat) l : Prop := ∀ i, is_Some (l !! i) ↔ 1 <= i <= Z.of_nat n.

(** The property the protocol maintains: equal terms at an index mean equal logs up to it. *)
Definition log_matching l1 l2 : Prop :=
  ∀ i t, l1 !! i = Some t → l2 !! i = Some t → ∀ j, j <= i → l1 !! j = l2 !! j.

Lemma reconcile_converges leader len n m f :
  log_of_length len leader → log_of_length m (entries f) → log_matching (entries f) leader →
  (n <= len)%nat →
  entries (reconcile leader n f) = leader.
Proof.
  intros Hl Hm Hmatch. induction n as [|n IH]; intros Hn; cbn [reconcile]; rewrite append_run.
  - simpl. apply append_agreeing. intros i Hi.
    assert (leader !! i = None) as ->.
    { apply eq_None_not_Some. intros ?%Hl. lia. }
    apply eq_None_not_Some. intros ?%Hm. lia.
  - assert (is_Some (leader !! Z.of_nat (S n))) as [t Ht] by (apply Hl; lia).
    rewrite Ht. simpl default. replace (0 <? Z.of_nat (S n)) with true by (symmetry; apply Z.ltb_lt; lia).
    case_bool_decide as Hf.
    + cbn [andb negb fst snd]. apply append_agreeing. intros i Hi. by apply (Hmatch (Z.of_nat (S n)) t).
    + cbn [andb negb fst snd]. apply IH. lia.
Qed.

Lemma agreement_loop_spec ents leader ks point :
  (∀ k, k ∈ ks → is_Some (leader !! k)) → StronglySorted Z.le ks →
  Forall (λ k, point <= k) ks →
  let p := agreement_loop ents leader ks point in
  point <= p ∧ (p = point ∨ p ∈ ks)
  ∧ ∀ k, k ∈ ks → (k < p → ents !! k = leader !! k)
                  ∧ (p < k → ∃ k', k' ∈ ks ∧ k' <= k ∧ p <= k' ∧ ents !! k' ≠ leader !! k').
Proof.
  revert point. induction ks as [|k ks IH]; intros point Hdom Hs Hge; cbn [agreement_loop].
  - split_and!; [lia|by left|by intros k ?%elem_of_nil].
  - apply StronglySorted_inv in Hs as [Hs Hk]. apply Forall_cons in Hge as [Hpk Hge].
    case_bool_decide as Heq.
    + destruct (IH k) as (H1 & H2 & H3); [intros; apply Hdom; by right|done|done|].
      split_and!; [lia|right; destruct H2 as [->|]; [left|by right]|].
      intros k' [->|Hk']%elem_of_cons.
      * split; [done|lia].
      * destruct (H3 k' Hk') as [H4 H5]. split; [done|]. intros Hlt.
        destruct (H5 Hlt) as (k'' & ? & ? & ? & ?). exists k''. split_and!; [by right|done..].
    + split_and!; [lia|by left|]. intros k' Hk'. assert (k <= k').
      { apply elem_of_cons in Hk' as [->|Hk']; [lia|]. by eapply Forall_forall in Hk. }
      split; [lia|]. intros _. exists k. split_and!; [left|done|done|done].
Qed.

(** C11 (safety): a follower's log converges to its leader's. [append] refuses with [Invalid], keeping
    the log, exactly when the preceding entry is missing or of another term; otherwise it keeps
    exactly the entries up to the preceding index and adds the batch, so a follower that agrees
    with the leader up to there ends with the leader's log. For logs that satisfy log matching, the
    leader's walk back from its last entry ends after at most that many rejections, with the
    follower's log equal to the leader's. *)
Theorem log_matching_converges leader f len m prev_index prev_term new
    (Hleader : log_of_length len leader) (Hfollower : log_of_length m (entries f))
    (Hmatch : log_matching (entries f) leader) :
  (let '(f', r) := append prev_index prev_term new f in
   if (0 <? prev_index) && negb (bool_decide (entries f !! prev_index = Some prev_term))
   then f' = f ∧ r = Err Invalid
   else is_ok r = true
        ∧ ∀ i, entries f' !! i = match new !! i with
                                 | Some t => Some t
                                 | None => if bool_decide (i <= prev_index) then entries f !! i else None
                                 end)
  ∧ ((∀ i, i <= prev_index → entries f !! i = leader !! i) →
     leader !! prev_index = Some prev_term →
     entries (append prev_index prev_term (after prev_index leader) f).1 = leader)
  ∧ entries (reconcile leader len f) = leader.
Proof.
  rewrite !append_run. split_and!.
  - destruct (_ && _); [done|]. split; [done|]. intros i. simpl.
    rewrite lookup_union, upto_lookup. case_bool_decide; destruct (new !! i); simpl; try done;
      by destruct (entries f !! i).
  - intros Hagree Hprev. rewrite Hagree, Hprev by lia. rewrite bool_decide_eq_true_2 by done.
    rewrite andb_false_r. simpl. by apply append_agreeing.
  - by eapply reconcile_converges.
Qed.

Definition sample_leader : gmap Z Z := {[1 := 1; 2 := 2; 3 := 2]}.
Definition sample_follower : gmap Z Z := {[1 := 1; 2 := 1; 3 := 1; 4 := 1]}.

Lemma decide_log_of_length (n : nat) l :
  elements (dom l) ≡ₚ seqZ 1 (Z.of_nat n) → log_of_length n l.
Proof.
  intros Hdom i. rewrite <-elem_of_dom, <-elem_of_elements, Hdom, elem_of_seqZ. lia.
Qed.

Lemma log_matching_converges_witness :
  entries (reconcile sample_leader 3 (mk sample_follower)) = sample_leader
  ∧ append 2 2 (after 2 sample_leader) (mk sample_follower) = (mk sample_follower, Err Invalid).
Proof.
  assert (log_of_length 3 sample_leader) as Hl
    by (apply decide_log_of_length, (bool_decide_unpack _); vm_compute; exact I).
  assert (log_of_length 4 sample_follower) as Hf
    by (apply decide_log_of_length, (bool_decide_unpack _); vm_compute; exact I).
  assert (log_matching sample_follower sample_leader) as Hm.
  { intros i t H1 H2 j Hj.
    assert (1 <= i <= 3) as Hi by (apply (Hl i); eauto).
    assert (i = 1) as ->.
    { assert (i = 1 ∨ i = 2 ∨ i = 3) as [->|[->| ->]] by lia; [done|..];
        vm_compute in H1, H2; congruence. }
    destruct (decide (j = 1)) as [->|]; [vm_compute; reflexivity|].
    transitivity (@None Z); [|symmetry]; apply eq_None_not_Some; intros Hs;
      [apply Hf in Hs|apply Hl in Hs]; lia. }
  destruct (log_matching_converges sample_leader (mk sample_follower) 3 4 0 0 ∅ Hl Hf Hm)
    as (_ & _ & H). split; [exact H|vm_compute; reflexivity].
Defined.

(** An append that arrives late truncates entries that agree with the leader: after index 1, 2 and 3
    were appended, a retransmitted append of entry 2 alone removes entry 3. *)
Lemma stale_append_drops :
  entries (append 1 1 {[2 := 2]} (mk sample_leader)).1 !! 3 = None.
Proof. vm_compute. reflexivity. Qed.
End log_matching_proofs.

(** ** Commits and reads *)

Section commit_proofs.
Import CommitIndex.

(** The calls of a leader, each with the number of voters that hold the entry it wants committed; the
    code is told that number on the direct path only. *)
Inductive commit_op := TryAdvance (index replicas : Z) | CommitPrior (prior_index current_index replicas : Z).
Definition commit_exec (o : commit_op) : act t string :=
  match o with
  | TryAdvance i n => try_advance i n
  | CommitPrior p i _ => commit_prior_via_current p i
  end.
Definition commit_step (o : commit_op) : t → t := state_of (commit_exec o).
Definition commit_target (o : commit_op) : Z :=
  match o with TryAdvance i _ => i | CommitPrior _ i _ => i end.
Definition commit_replicas (o : commit_op) : Z :=
  match o with TryAdvance _ n => n | CommitPrior _ _ n => n end.

(** The leader offers to carry a prior entry only an entry that a majority of the voters holds. *)
Definition carried (n : Z) (o : commit_op) : Prop :=
  match o with TryAdvance _ _ => True | CommitPrior _ _ replicas => n / 2 + 1 <= replicas end.

(** The calls that are to succeed. *)
Definition commit_allowed (o : commit_op) (c : t) : bool :=
  (majority c <=? commit_replicas o) &&
  match o with
  | TryAdvance i _ =>
      match entry_terms c !! i with Some term => current_term c <=? term | None => false end
  | CommitPrior p i _ => bool_decide (entry_terms c !! i = Some (current_term c)) && (p <=? i)
  end.

Lemma commit_exec_run o c :
  carried (voters c) o →
  (commit_exec o c).1 = (if commit_allowed o c then advance_to (commit_target o) c else c)
  ∧ is_ok (commit_exec o c).2 = commit_allowed o c
  ∧ (commit_allowed o c = false → (commit_exec o c).2 = Err Invalid).
Proof.
  unfold commit_allowed. destruct o as [i n|p i n]; simpl; intros Hn.
  - unfold try_advance. rewrite bind_get. destruct (entry_terms c !! i) as [tm|]; [|by rewrite andb_false_r].
    rewrite bind_raise_if. rewrite (Z.leb_antisym n), (Z.leb_antisym tm).
    destruct (n <? majority c); [done|]. rewrite bind_raise_if. by destruct (tm <? current_term c).
  - replace (majority c <=? n) with true by (symmetry; by apply Z.leb_le).
    unfold commit_prior_via_current. rewrite bind_get, bind_raise_if.
    destruct (bool_decide _); [|done]. simpl. rewrite bind_raise_if, (Z.leb_antisym i).
    by destruct (i <? p).
Qed.

(** What the committed frontier rests on: an entry of the current term, counted on a majority. *)
Definition commit_rests (term : Z) (terms : gmap Z Z) (n : Z) (ops : list commit_op) (index : Z) : Prop :=
  ∃ o entry_term, o ∈ ops ∧ commit_target o = index ∧ n / 2 + 1 <= commit_replicas o
    ∧ terms !! index = Some entry_term ∧ term <= entry_term.

Lemma commit_rests_app term terms n ops1 ops2 index :
  commit_rests term terms n ops1 index → commit_rests term terms n (ops1 ++ ops2) index.
Proof. intros (o & tm & ? & ?). exists o, tm. split; [set_solver|done]. Qed.

Lemma commit_run_rests term terms n start ops :
  Forall (carried n) ops →
  let c := run commit_step ops (mk term terms n start) in
  current_term c = term ∧ entry_terms c = terms ∧ voters c = n ∧ start <= commit_index c
  ∧ (commit_index c = start ∨ commit_rests term terms n ops (commit_index c)).
Proof.
  induction ops as [|o ops IH] using rev_ind; intros Hops; [simpl; split_and!; [done..|by left]|].
  apply Forall_app in Hops as [Hops [Ho _]%Forall_cons]. rewrite run_app. cbn [run foldl].
  destruct (IH Hops) as (Ht & He & Hv & Hge & Hor). set (c := run commit_step ops _) in *.
  rewrite <-Hv in Ho. destruct (commit_exec_run o c Ho) as (Hrun & _ & _).
  unfold commit_step, state_of. rewrite Hrun. destruct (commit_allowed o c) eqn:Hok.
  2: { split_and!; [done..|]. destruct Hor; [by left|right; by apply commit_rests_app]. }
  simpl. split_and!; [done..|lia|].
  destruct (Z.max_spec (commit_index c) (commit_target o)) as [[_ ->]|[_ ->]].
  - right. unfold commit_allowed in Hok. apply andb_true_iff in Hok as [Hn%Z.leb_le Hok].
    unfold majority in Hn. rewrite Hv in Hn. rewrite Ht, He in Hok.
    destruct o as [i m|p i m]; simpl in *.
    + destruct (terms !! i) as [tm|] eqn:Hi; [|done]. bool_prop.
      exists (TryAdvance i m), tm. split; [set_solver|]. done.
    + bool_prop. exists (CommitPrior p i m), term. split; [set_solver|]. done.
  - destruct Hor; [by left|right; by apply commit_rests_app].
Qed.

(** C12 (safety): a leader never commits an old-term entry directly and never takes a commit back.  Over
    any sequence of [try_advance] and [commit_prior_via_current] calls in which the entry offered to
    carry a prior one is held by a majority, the commit index never decreases, and every index
    committed since the start, of an older term or not, is at or below one that a majority of the voters
    held and whose entry is not older than the current term.  Such a call succeeds exactly for
    a held entry on a majority whose term is not older than the current one, or, to carry a
    prior entry, is the current one and at or beyond it; every other raises [Invalid] and changes nothing. *)
Theorem commit_index_safe term terms n start (ops : list commit_op) o
    (Hops : Forall (carried n) ops) (Ho : carried n o) :
  let c := run commit_step ops (mk term terms n start) in
  start <= commit_index c <= commit_index (commit_step o c)
  ∧ (∀ j, start < j <= commit_index c → ∃ i, j <= i ∧ commit_rests term terms n ops i)
  ∧ (commit_index c = start ∨ commit_rests term terms n ops (commit_index c))
  ∧ commit_exec o c
    = (if commit_allowed o c then advance_to (commit_target o) c else c, (commit_exec o c).2)
  ∧ is_ok (commit_exec o c).2 = commit_allowed o c
  ∧ (commit_allowed o c = false → (commit_exec o c).2 = Err Invalid).
Proof.
  intros c. destruct (commit_run_rests term terms n start ops Hops) as (_ & _ & Hv & Hge & Hor).
  fold c in Hv, Hge, Hor. rewrite <-Hv in Ho. destruct (commit_exec_run o c Ho) as (H3 & H4 & H5).
  split_and!; try done.
  - unfold commit_step, state_of. rewrite H3. destruct (commit_allowed o c); simpl; lia.
  - intros j Hj. exists (commit_index c). split; [lia|]. destruct Hor; [lia|done].
  - rewrite <-H3. by destruct (commit_exec o c).
Qed.

Lemma commit_index_safe_witness :
  let terms := {[1 := 3; 2 := 3; 3 := 5; 4 := 5]} : gmap Z Z in
  let ops := [TryAdvance 2 3; TryAdvance 3 2; CommitPrior 2 3 2] in
  let c := run commit_step ops (mk 5 terms 3 0) in
  commit_index c = 3 ∧ 0 <= commit_index c <= commit_index (commit_step (TryAdvance 4 1) c)
  ∧ commit_exec (TryAdvance 2 3) c = (c, Err Invalid).
Proof.
  intros terms ops c.
  assert (Forall (carried 3) ops) as Hops by (repeat constructor; vm_compute; discriminate).
  destruct (commit_index_safe 5 terms 3 0 ops (TryAdvance 4 1) Hops I) as (Hle & _).
  split; [vm_compute; reflexivity|]. split; [exact Hle|vm_compute; reflexivity].
Defined.

(** No replica is counted on the indirect path: an entry that no other node holds is committed. *)
Lemma prior_path_skips_majority :
  commit_index (commit_prior_via_current 1 2 (mk 5 {[1 := 4; 2 := 5]} 3 0)).1 = 2.
Proof. vm_compute. reflexivity. Qed.
End commit_proofs.

Section gate_proofs.

Inductive read_op := Begin_ | Confirm_ | Apply_ (index : Z).
Definition read_step (o : read_op) : ReadIndex.t → ReadIndex.t :=
  match o with
  | Begin_ => state_of ReadIndex.begin_read
  | Confirm_ => state_of ReadIndex.confirm
  | Apply_ i => state_of (ReadIndex.apply_to i)
  end.

(** The confirmations since the last read began, the leader's own included. *)
Definition confirmed (ops : list read_op) : option Z :=
  foldl (λ n o, match o, n with
                | Begin_, _ => Some 1
                | Confirm_, Some n => Some (n + 1)
                | _, n => n
                end) None ops.
Definition applied (ops : list read_op) : Z :=
  foldl (λ n o, match o with Apply_ i => Z.max n i | _ => n end) 0 ops.

Definition ask (p : string * bool * bool) : PreVote.t → PreVote.t :=
  state_of (PreVote.request p.1.1 p.1.2 p.2).

(** Also (safety): linearizable reads and campaigns are gated by a majority. A read is served exactly
    when one has begun, a majority of the voters (the leader among them) confirmed since it began,
    and everything up to the commit index at that moment is applied, and then as of that index;
    otherwise [serve] raises [Invalid]. A candidate may campaign exactly when a majority of distinct
    peers, each seeing no recent leader and finding its log current, granted the pre-vote, however
    often they were asked; otherwise [campaign] raises [Invalid]. *)
Theorem majority_gates commit voters (ops : list read_op) (asked : list (string * bool * bool))
    (Hcommit : 0 <= commit) :
  let r := run read_step ops (ReadIndex.mk commit voters 0 0 (-1)) in
  let p := run ask asked (PreVote.mk voters ∅) in
  let grants : gset string :=
    list_to_set ((λ q, q.1.1) <$> filter (λ q, q.1.2 = false ∧ q.2 = true) asked) in
  ReadIndex.serve r
  = (match confirmed ops with
     | Some n =>
         if (voters / 2 + 1 <=? n) && (commit <=? applied ops)
         then Ok ("linearizable read served as of index " +:+ zs commit)
         else Err Invalid
     | None => Err Invalid
     end)
  ∧ PreVote.grants p = grants
  ∧ PreVote.campaign p
    = (if voters / 2 + 1 <=? gsize grants
       then Ok "pre-vote passed; increment the term and run the real election" else Err Invalid).
Proof.
  intros r p grants.
  assert (ReadIndex.commit_index r = commit ∧ ReadIndex.voters r = voters
          ∧ ReadIndex.applied_index r = applied ops
          ∧ match confirmed ops with
            | Some n => ReadIndex.confirmations r = n ∧ ReadIndex.read_index r = commit
            | None => ReadIndex.read_index r = -1
            end) as (Hc & Hv & Ha & Hn).
  { unfold r. clear. induction ops as [|o ops IH] using rev_ind; [done|].
    unfold confirmed, applied in *. rewrite run_app, !foldl_app. simpl.
    destruct IH as (Hc & Hv & Ha & Hn). destruct (foldl _ None ops) as [n|].
    - destruct Hn as [Hn1 Hn2]. destruct o; simpl; rewrite ?Hc, ?Hv, ?Ha; split_and!; lia || done.
    - destruct o; simpl; rewrite ?Hc, ?Hv, ?Ha; split_and!; lia || done. }
  assert (PreVote.voters p = voters ∧ PreVote.grants p = grants) as [Hpv Hpg].
  { unfold p, grants. clear. induction asked as [|q asked IH] using rev_ind; [done|].
    rewrite run_app, filter_app, fmap_app, list_to_set_app_L. destruct IH as [IHv <-]. simpl.
    rewrite filter_cons, filter_nil. unfold ask, state_of, PreVote.request.
    destruct q as [[v heard] current]. simpl. rewrite run_if.
    destruct heard, current; simpl; (split; [done|]); set_solver. }
  split_and!; [|done|].
  - unfold ReadIndex.serve, ReadIndex.quorum_confirmed, ReadIndex.majority. rewrite Hv, Ha.
    destruct (confirmed ops) as [n|]; [|by rewrite Hn]. destruct Hn as [-> ->].
    destruct (Z.ltb_spec commit 0); [lia|]. destruct (voters / 2 + 1 <=? n); [|done]. simpl.
    rewrite (Z.leb_antisym (applied ops)). by destruct (applied ops <? commit).
  - unfold PreVote.campaign, PreVote.warranted, PreVote.majority. rewrite Hpv, Hpg.
    by destruct (_ <=? _).
Qed.

Lemma majority_gates_witness :
  ReadIndex.serve (run read_step [Begin_; Confirm_; Apply_ 9] (ReadIndex.mk 7 3 0 0 (-1)))
  = Ok "linearizable read served as of index 7"
  ∧ PreVote.grants (run ask [("b", false, true); ("b", false, true); ("c", true, true)] (PreVote.mk 3 ∅))
    = {["b"]}.
Proof.
  destruct (majority_gates 7 3 [Begin_; Confirm_; Apply_ 9]
              [("b", false, true); ("b", false, true); ("c", true, true)] ltac:(lia)) as (H1 & H2 & _).
  split; [refine (eq_trans H1 _); vm_compute; reflexivity|refine (eq_trans H2 _); vm_compute; reflexivity].
Defined.
End gate_proofs.
