(* ===== verification/Encoding.v ===== *)
(** * Compact encodings of sequences

    [relay/runlength.py], [relay/deltaencoding.py] and [relay/prefixcompression.py]. *)

From S2P Require Import Prelude PyDict PyBytes.
From Stdlib Require Import Strings.Ascii.

Module runlength.
(** [relay/runlength.py:39-46] encode *)
Fixpoint encode_loop (values : list Z) (current count : Z) (out : list (Z * Z)) : list (Z * Z) :=
  match values with
  | [] => out ++ [(current, count)]
  | v :: values' =>
      if v =? current then encode_loop values' current (count + 1) out
      else encode_loop values' v 1 (out ++ [(current, count)])
  end.
(** [relay/runlength.py] encode *)
Definition encode (values : list Z) : list (Z * Z) :=
  match values with
  | [] => []
  | current :: rest => encode_loop rest current 1 []
  end.

(** [relay/runlength.py:52-59] decode *)
Fixpoint decode_loop (runs : list (Z * Z)) (out : list Z) : result (list Z) :=
  match runs with
  | [] => Ok out
  | (value, count) :: runs' =>
      if count <? 1 then Err Invalid
      else decode_loop runs' (out ++ replicate (Z.to_nat count) value)
  end.
(** [relay/runlength.py] decode *)
Definition decode (runs : list (Z * Z)) : result (list Z) := decode_loop runs [].

(** [relay/runlength.py] compression_note *)
Definition compression_note (values : list Z) : string :=
  if bool_decide (values = []) then "empty sequence; nothing to encode"
  else
    let runs := encode values in
    let saved := zlen values - zlen runs in
    if saved <=? 0 then
      zs (zlen values) +:+ " value(s) encoded to " +:+ zs (zlen runs) +:+ " run(s); no saving, "
      +:+ "the data was not runny and run-length encoding should not have "
      +:+ "been applied here"
    else
      zs (zlen values) +:+ " value(s) compressed to " +:+ zs (zlen runs) +:+ " run(s), saved "
      +:+ zs saved +:+ "; runny data, the encoding earns its place".
End runlength.

Module deltaencoding.
(** [relay/deltaencoding.py:37-43] encode *)
Fixpoint check_sorted (prev : Z) (values : list Z) : bool :=
  match values with
  | [] => true
  | v :: values' => if v <? prev then false else check_sorted v values'
  end.
(** [relay/deltaencoding.py:45-46] encode *)
Fixpoint deltas (prev : Z) (values : list Z) : list Z :=
  match values with
  | [] => []
  | v :: values' => (v - prev) :: deltas v values'
  end.
(** [relay/deltaencoding.py] encode *)
Definition encode (values : list Z) : result (list Z) :=
  match values with
  | [] => Ok []
  | first :: rest => if negb (check_sorted first rest) then Err Invalid
                     else Ok (first :: deltas first rest)
  end.

(** [relay/deltaencoding.py:54-55] decode *)
Fixpoint sums (prev : Z) (ds : list Z) : list Z :=
  match ds with
  | [] => []
  | d :: ds' => (prev + d) :: sums (prev + d) ds'
  end.
(** [relay/deltaencoding.py] decode *)
Definition decode (ds : list Z) : list Z :=
  match ds with
  | [] => []
  | first :: rest => first :: sums first rest
  end.

(** [relay/deltaencoding.py] compression_note *)
Definition compression_note (values : list Z) : result string :=
  if bool_decide (values = []) then Ok "empty sequence; nothing to encode"
  else
    ds ← encode values;
    let raw := zsum (λ v, slen (zs v)) values in
    let encoded := zsum (λ d, slen (zs d)) ds in
    let saved := raw - encoded in
    Ok ("raw ~" +:+ zs raw +:+ " digit(s), delta-encoded ~" +:+ zs encoded +:+ ", saved ~"
        +:+ zs saved +:+ "; values far apart give large deltas and little saving, the ratio "
        +:+ "says whether delta encoding buys anything here").
End deltaencoding.

(** [s[:n]] and [s[n:]] of a string: a negative [n] counts from the end *)
Fixpoint str_take (n : nat) (s : string) : string :=
  match n, s with
  | S n, String c s => String c (str_take n s)
  | _, _ => ""
  end.
Fixpoint str_drop (n : nat) (s : string) : string :=
  match n, s with
  | S n, String c s => str_drop n s
  | _, _ => s
  end.
Definition slice_end (n : Z) (s : string) : nat :=
  Z.to_nat (if n <? 0 then slen s + n else n).

Module prefixcompression.
(** [relay/prefixcompression.py] _shared_len *)
Fixpoint _shared_len (a b : string) : Z :=
  match a, b with
  | String ca a', String cb b' => if negb (bool_decide (ca = cb)) then 0 else 1 + _shared_len a' b'
  | _, _ => 0
  end.

(** [keys[i] < keys[i - 1]] somewhere *)
Fixpoint unsorted (prev : string) (keys : list string) : bool :=
  match keys with
  | [] => false
  | key :: keys' => negb (bool_decide (String.le prev key)) || unsorted key keys'
  end.

(** [relay/prefixcompression.py:52-55] encode *)
Fixpoint encode_loop (prev : string) (keys : list string) : list (Z * string) :=
  match keys with
  | [] => []
  | key :: keys' =>
      let shared := _shared_len prev key in
      (shared, str_drop (slice_end shared key) key) :: encode_loop key keys'
  end.
(** [relay/prefixcompression.py] encode *)
Definition encode (keys : list string) : result (list (Z * string)) :=
  match keys with
  | [] => Ok []
  | key :: keys' =>
      if unsorted key keys' then Err Invalid else Ok ((0, key) :: encode_loop key keys')
  end.

(** [relay/prefixcompression.py:62-70] decode *)
Fixpoint decode_loop (prev : string) (entries : list (Z * string)) (out : list string) :
    result (list string) :=
  match entries with
  | [] => Ok out
  | (shared, suffix) :: entries' =>
      if slen prev <? shared then Err Invalid
      else
        let key := str_take (slice_end shared prev) prev +:+ suffix in
        decode_loop key entries' (out ++ [key])
  end.
(** [relay/prefixcompression.py] decode *)
Definition decode (entries : list (Z * string)) : result (list string) := decode_loop "" entries [].

(** [relay/prefixcompression.py] compression_note *)
Definition compression_note (keys : list string) : result string :=
  if bool_decide (keys = []) then Ok "no keys; nothing to encode"
  else
    let raw := zsum slen keys in
    es ← encode keys;
    let encoded := zsum (λ e, slen e.2) es in
    let saved := raw - encoded in
    Ok ("raw " +:+ zs raw +:+ " char(s), suffixes " +:+ zs encoded +:+ ", saved " +:+ zs saved
        +:+ "; keys with little in common share short prefixes and save little, the ratio "
        +:+ "says whether prefix compression helps this key set").
End prefixcompression.

(** ** Round trips *)

Lemma runs_decode_app runs1 runs2 out :
  runlength.decode_loop (runs1 ++ runs2) out
  = (out' ← runlength.decode_loop runs1 out; runlength.decode_loop runs2 out').
Proof.
  revert out. induction runs1 as [|[v n] runs1 IH]; intros out; simpl; [done|].
  destruct (n <? 1); [done|]. by rewrite IH.
Qed.

(** Neighbouring runs have different values, and no run is empty. *)
Definition maximal_runs (runs : list (Z * Z)) : Prop :=
  Forall (λ r, 1 <= r.2) runs ∧ ∀ i r1 r2, runs !! i = Some r1 → runs !! S i = Some r2 → r1.1 ≠ r2.1.

Lemma maximal_runs_snoc runs v n :
  maximal_runs runs → 1 <= n → match last runs with Some (v', _) => v' ≠ v | None => True end →
  maximal_runs (runs ++ [(v, n)]).
Proof.
  intros [Hf Hd] Hn Hlast. split; [apply Forall_app; split; [done|by constructor]|].
  intros i r1 r2 H1 H2. destruct (decide (S i < length runs)%nat).
  - rewrite lookup_app_l in H1, H2 by lia. by eapply Hd.
  - pose proof (lookup_lt_Some _ _ _ H2) as Hlt. rewrite length_app in Hlt. simpl in Hlt.
    rewrite lookup_app_l in H1 by lia. rewrite lookup_app_r in H2 by lia.
    replace (S i - length runs)%nat with 0%nat in H2 by lia. injection H2 as <-. simpl.
    rewrite last_lookup in Hlast. replace (pred (length runs)) with i in Hlast by lia.
    rewrite H1 in Hlast. by destruct r1.
Qed.

Lemma encode_loop_spec values cur n out d :
  maximal_runs out → 1 <= n → match last out with Some (v', _) => v' ≠ cur | None => True end →
  runlength.decode_loop out [] = Ok d →
  maximal_runs (runlength.encode_loop values cur n out)
  ∧ runlength.decode_loop (runlength.encode_loop values cur n out) []
    = Ok (d ++ replicate (Z.to_nat n) cur ++ values).
Proof.
  revert cur n out d. induction values as [|v values IH]; intros cur n out d Hmax Hn Hlast Hd; simpl.
  - split; [by apply maximal_runs_snoc|].
    rewrite runs_decode_app, Hd. simpl. destruct (Z.ltb_spec n 1); [lia|]. by rewrite app_nil_r.
  - destruct (Z.eqb_spec v cur) as [->|Hne].
    + destruct (IH cur (n + 1) out d) as [H1 H2]; [done|lia|done|done|]. split; [done|].
      rewrite H2. replace (Z.to_nat (n + 1)) with (Z.to_nat n + 1)%nat by lia.
      rewrite replicate_add. simpl. by rewrite <-app_assoc.
    + destruct (IH v 1 (out ++ [(cur, n)]) (d ++ replicate (Z.to_nat n) cur)) as [H1 H2].
      * by apply maximal_runs_snoc.
      * lia.
      * rewrite last_snoc. congruence.
      * rewrite runs_decode_app, Hd. simpl. by destruct (Z.ltb_spec n 1); [lia|].
      * split; [done|]. rewrite H2. by rewrite <-app_assoc.
Qed.

Lemma runlength_roundtrip values :
  runlength.decode (runlength.encode values) = Ok values ∧ maximal_runs (runlength.encode values).
Proof.
  destruct values as [|v values]; simpl.
  - split; [done|]. by split.
  - destruct (encode_loop_spec values v 1 [] []) as [H1 H2]; [by split|done..|]. done.
Qed.

Lemma sums_deltas prev values : deltaencoding.sums prev (deltaencoding.deltas prev values) = values.
Proof.
  revert prev. induction values as [|v values IH]; intros prev; simpl; [done|].
  replace (prev + (v - prev)) with v by lia. by rewrite IH.
Qed.

Lemma check_sorted_spec prev values :
  deltaencoding.check_sorted prev values = true ↔ Sorted Z.le (prev :: values).
Proof.
  revert prev. induction values as [|v values IH]; intros prev; simpl.
  - split; [repeat constructor|done].
  - destruct (Z.ltb_spec v prev).
    + split; [done|]. intros Hs. apply Sorted_inv in Hs as [_ Hd]. inversion Hd; subst. lia.
    + rewrite IH. split; [intros; constructor; [done|by constructor]|by intros []%Sorted_inv].
Qed.

Lemma deltas_nonneg prev values :
  Sorted Z.le (prev :: values) → Forall (λ d, 0 <= d) (deltaencoding.deltas prev values).
Proof.
  revert prev. induction values as [|v values IH]; intros prev Hs; simpl; [constructor|].
  apply Sorted_inv in Hs as [Hs Hd]. inversion Hd; subst. constructor; [lia|by apply IH].
Qed.

Lemma slen_cons c s : slen (String c s) = 1 + slen s.
Proof. unfold slen. simpl. lia. Qed.

Lemma shared_len_bounds a b :
  0 <= prefixcompression._shared_len a b
  ∧ prefixcompression._shared_len a b <= slen a.
Proof.
  revert b. induction a as [|ca a IH]; intros [|cb b]; simpl; rewrite ?slen_cons.
  1-3: unfold slen; simpl; lia.
  pose proof (IH b). case_bool_decide; simpl; lia.
Qed.

Lemma shared_prefix a b :
  let n := Z.to_nat (prefixcompression._shared_len a b) in
  str_take n a +:+ str_drop n b = b.
Proof.
  revert b. induction a as [|ca a IH]; intros [|cb b]; simpl; [done..|].
  case_bool_decide as Heq; simpl; [|done]. subst. pose proof (shared_len_bounds a b) as [H _].
  replace (Z.to_nat (1 + prefixcompression._shared_len a b))
    with (S (Z.to_nat (prefixcompression._shared_len a b))) by lia.
  simpl. change (String cb (str_take (Z.to_nat (prefixcompression._shared_len a b)) a
                   +:+ str_drop (Z.to_nat (prefixcompression._shared_len a b)) b) = String cb b).
  by rewrite IH.
Qed.

Lemma prefix_decode_encode prev keys out :
  prefixcompression.decode_loop prev (prefixcompression.encode_loop prev keys) out = Ok (out ++ keys).
Proof.
  revert prev out. induction keys as [|key keys IH]; intros prev out; simpl.
  - by rewrite app_nil_r.
  - pose proof (shared_len_bounds prev key) as [H1 H2].
    destruct (Z.ltb_spec (slen prev) (prefixcompression._shared_len prev key)); [lia|].
    unfold slice_end. destruct (Z.ltb_spec (prefixcompression._shared_len prev key) 0); [lia|].
    rewrite shared_prefix, IH. by rewrite <-app_assoc.
Qed.

Lemma unsorted_spec prev keys :
  prefixcompression.unsorted prev keys = false ↔ Sorted String.le (prev :: keys).
Proof.
  revert prev. induction keys as [|key keys IH]; intros prev; simpl.
  - split; [repeat constructor|done].
  - rewrite orb_false_iff, negb_false_iff, bool_decide_eq_true, IH. split.
    + intros [? ?]. constructor; [done|by constructor].
    + intros [Hs Hd]%Sorted_inv. inversion Hd; subst. done.
Qed.

(** Also (roundtrip): the compact encodings lose nothing. Run-length encoding decodes to the sequence it
    was given, into runs that are never empty and never split a repetition in two. Delta encoding
    succeeds exactly on sorted input, gives gaps that are never negative and decodes to its
    input; prefix compression succeeds exactly on sorted keys and decodes to them; unsorted input
    raises [Invalid]. Decoding runs fails, with [Invalid], exactly on a count below one, and a
    shared prefix longer than the previous key is refused with [Invalid]. *)
Theorem encodings_lossless (values : list Z) (keys : list string) (runs : list (Z * Z)) n suffix rest :
  (runlength.decode (runlength.encode values) = Ok values ∧ maximal_runs (runlength.encode values))
  ∧ (match deltaencoding.encode values with
     | Ok ds => Sorted Z.le values ∧ deltaencoding.decode ds = values ∧ Forall (λ d, 0 <= d) (tail ds)
     | Err e => e = Invalid ∧ ¬ Sorted Z.le values
     end)
  ∧ (match prefixcompression.encode keys with
     | Ok es => Sorted String.le keys ∧ prefixcompression.decode es = Ok keys
     | Err e => e = Invalid ∧ ¬ Sorted String.le keys
     end)
  ∧ (match runlength.decode runs with
     | Ok _ => Forall (λ r, 1 <= r.2) runs
     | Err e => e = Invalid ∧ Exists (λ r, r.2 < 1) runs
     end)
  ∧ prefixcompression.decode ((Z.max 1 n, suffix) :: rest) = Err Invalid.
Proof.
  split_and!.
  - apply runlength_roundtrip.
  - apply runlength_roundtrip.
  - destruct values as [|v values]; simpl; [by split_and!; [constructor..|]|].
    destruct (deltaencoding.check_sorted v values) eqn:Hs; simpl.
    + apply check_sorted_spec in Hs. split_and!; [done|by rewrite sums_deltas|by apply deltas_nonneg].
    + split; [done|]. intros Hsort%check_sorted_spec. congruence.
  - destruct keys as [|k keys]; simpl; [by split; [constructor|]|].
    destruct (prefixcompression.unsorted k keys) eqn:Hs.
    + split; [done|]. intros Hsort%unsorted_spec. congruence.
    + apply unsorted_spec in Hs. split; [done|]. unfold prefixcompression.decode. simpl.
      by rewrite prefix_decode_encode.
  - unfold runlength.decode. generalize (@nil Z). induction runs as [|[v c] runs IH]; intros out; simpl;
      [constructor|]. destruct (Z.ltb_spec c 1); [by split; [|left]|].
    specialize (IH (out ++ replicate (Z.to_nat c) v)). destruct (runlength.decode_loop runs _).
    + by constructor.
    + destruct IH as [? ?]. split; [done|by right].
  - unfold prefixcompression.decode. simpl. change (slen "") with 0.
    destruct (Z.ltb_spec 0 (Z.max 1 n)); [done|lia].
Qed.
