(* ===== verification/Crdt.v ===== *)
(** * Causality and conflict-free replicated data

    [relay/vectorclock.py], [relay/gcounter.py], [relay/orset.py] and
    [relay/lwwregister.py]: one module each, then [Section]s that put the objects in
    a network of processes or replicas, whose messages may be lost, repeated or
    delivered late, and prove what the modules promise there. *)

From S2P Require Import Prelude PyDict.

(** The merge loop of the vector clock and of the counter:
    [for node, count in other.items(): d[node] = max(d.get(node, 0), count)]. *)
(** [relay/gcounter.py:54-55] GCounter.merge: the loop, which VectorClock.merge repeats *)
Definition merge_max (d other : pydict string Z) : pydict string Z :=
  foldl (λ d p, d_set d p.1 (Z.max (d_getd d p.1 0) p.2)) d other.

Module VectorClock.
(** [relay/vectorclock.py] BEFORE *)
Definition BEFORE : string := "before".
(** [relay/vectorclock.py] AFTER *)
Definition AFTER : string := "after".
(** [relay/vectorclock.py] EQUAL *)
Definition EQUAL : string := "equal".
(** [relay/vectorclock.py] CONCURRENT *)
Definition CONCURRENT : string := "concurrent".

(** [relay/vectorclock.py] class VectorClock *)
Record t := mk { node_id : string; vector : pydict string Z }.

(** [self.vector[self.node_id] = self.vector.get(self.node_id, 0) + 1] *)
(** [relay/vectorclock.py:48-48] VectorClock.tick: the increment, which merge repeats *)
Definition bump (c : t) : t :=
  mk (node_id c) (d_set (vector c) (node_id c) (d_getd (vector c) (node_id c) 0 + 1)).

(** [relay/vectorclock.py] VectorClock.tick *)
Definition tick : act t (pydict string Z) :=
  modify bump;; c ← get; mret (vector c).

(** [relay/vectorclock.py] VectorClock.merge *)
Definition merge (other : pydict string Z) : act t (pydict string Z) :=
  modify (λ c, mk (node_id c) (merge_max (vector c) other));;
  modify bump;; c ← get; mret (vector c).

(** [relay/vectorclock.py:59-66] VectorClock.compare: the loop and its two flags *)
Definition compare_loop (a b : pydict string Z) (nodes : list string) : bool * bool :=
  foldl (λ flags n,
    let av := d_getd a n 0 in
    let bv := d_getd b n 0 in
    if av <? bv then (true, flags.2)
    else if bv <? av then (flags.1, true) else flags) (false, false) nodes.

(** [relay/vectorclock.py] VectorClock.compare *)
Definition compare (a b : pydict string Z) : string :=
  let nodes : gset string := list_to_set (d_keys a) ∪ list_to_set (d_keys b) in
  let '(a_less, a_greater) := compare_loop a b (elements nodes) in
  if a_less && a_greater then CONCURRENT
  else if a_less then BEFORE
  else if a_greater then AFTER
  else EQUAL.

(** [relay/vectorclock.py] VectorClock.conflict *)
Definition conflict (a b : pydict string Z) : bool := bool_decide (compare a b = CONCURRENT).
End VectorClock.

Module GCounter.
(** [relay/gcounter.py] class GCounter *)
Record t := mk { node_id : string; entries : pydict string Z }.

(** [relay/gcounter.py] GCounter.value *)
Definition value (c : t) : Z := zsum id (d_values (entries c)).

(** [relay/gcounter.py] GCounter.increment *)
Definition increment (amount : Z) : act t Z :=
  raise_if (amount <? 1) Invalid;;
  modify (λ c, mk (node_id c)
    (d_set (entries c) (node_id c) (d_getd (entries c) (node_id c) 0 + amount)));;
  c ← get; mret (value c).

(** [relay/gcounter.py] GCounter.merge *)
Definition merge (other : pydict string Z) : act t Z :=
  modify (λ c, mk (node_id c) (merge_max (entries c) other));;
  c ← get; mret (value c).

(** [relay/gcounter.py] GCounter.report *)
Definition report (c : t) : string :=
  "value " +:+ zs (value c) +:+ " across " +:+ zs (zlen (entries c)) +:+ " node entry(ies); "
  +:+ "merges by max, so replicas converge regardless of order or "
  +:+ "duplicate delivery, a CRDT's promise".
End GCounter.

Module ORSet.
Notation tag := (string * Z)%type (only parsing).

(** [relay/orset.py] class ORSet *)
Record t := mk {
  node_id : string;
  adds : gmap string (gset tag);
  removes : gset tag;
  next_tag : Z }.

Definition init (node : string) : t := mk node ∅ ∅ 0.

(** [self.adds.get(element, set())] *)
(** [relay/orset.py:61-61] ORSet.contains: the tags of an element, empty when it was never added *)
Definition tags (s : t) (element : string) : gset tag := default ∅ (adds s !! element).

(** [relay/orset.py] ORSet.contains *)
Definition contains (s : t) (element : string) : bool :=
  bool_decide (tags s element ∖ removes s ≠ ∅).

(** [relay/orset.py] ORSet.add *)
Definition add (element : string) : act t tag :=
  s ← get;
  let tag := (node_id s, next_tag s) in
  modify (λ s, mk (node_id s) (adds s) (removes s) (next_tag s + 1));;
  modify (λ s, mk (node_id s) (<[element := tags s element ∪ {[tag]}]> (adds s)) (removes s)
                  (next_tag s));;
  mret tag.

(** [relay/orset.py] ORSet.remove *)
Definition remove (element : string) : act t unit :=
  s ← get;
  raise_if (negb (contains s element)) Invalid;;
  modify (λ s, mk (node_id s) (adds s) (removes s ∪ tags s element) (next_tag s)).

(** [relay/orset.py:66-66] ORSet.merge: the body of the loop over the other set's tags *)
Definition merge_tags (p : string * gset tag) : act t unit :=
  modify (λ s, mk (node_id s) (<[p.1 := tags s p.1 ∪ p.2]> (adds s)) (removes s) (next_tag s)).

(** [relay/orset.py] ORSet.merge *)
Definition merge (other : t) : act t unit :=
  for_each (map_to_list (adds other)) merge_tags;;
  modify (λ s, mk (node_id s) (adds s) (removes s ∪ removes other) (next_tag s));;
  modify (λ s, mk (node_id s) (adds s) (removes s) (Z.max (next_tag s) (next_tag other))).

(** [relay/orset.py] ORSet.elements *)
Definition elements (s : t) : gset string := filter (λ e, contains s e = true) (dom (adds s)).

(** [relay/orset.py] ORSet.tag_overhead *)
Definition tag_overhead (s : t) : string :=
  let tags := zsum (λ p, Z.of_nat (size p.2)) (map_to_list (adds s)) in
  let live := Z.of_nat (size (elements s)) in
  zs tags +:+ " add-tag(s) for " +:+ zs live +:+ " live element(s); a tag count "
  +:+ "dwarfing the elements needs compaction, the metadata cost of "
  +:+ "correct removal".
End ORSet.

Module LwwRegister.
(** [relay/lwwregister.py] class LwwRegister *)
Record t := mk { value : string; timestamp : Z; node_id : Z }.

Definition init : t := mk "" 0 0.

(** [relay/lwwregister.py] LwwRegister.write *)
Definition write (value' : string) (timestamp' node_id' : Z) : act t unit :=
  r ← get;
  raise_if (timestamp' <? timestamp r) Invalid;;
  put (mk value' timestamp' node_id').

(** the order of Python's tuples *)
(** [relay/lwwregister.py:52-54] LwwRegister.merge: the comparison of the two stamps *)
Definition newer (other self : t) : bool :=
  (timestamp self <? timestamp other)
  || ((timestamp self =? timestamp other) && (node_id self <? node_id other)).

(** [relay/lwwregister.py] LwwRegister.merge *)
Definition merge (other : t) : act t bool :=
  self ← get;
  if newer other self then
    put (mk (value other) (timestamp other) (node_id other));; mret true
  else mret false.

(** [relay/lwwregister.py] LwwRegister.would_drop_concurrent *)
Definition would_drop_concurrent (self other : t) : bool :=
  (timestamp self =? timestamp other)
  && bool_decide (value self ≠ value other)
  && negb (node_id self =? node_id other).

(** [relay/lwwregister.py] LwwRegister.report *)
Definition report (self other : t) : string :=
  if would_drop_concurrent self other then
    "concurrent writes at the same timestamp; LWW keeps one by "
    +:+ "node-id and silently drops the other, a data-loss risk a "
    +:+ "conflict-preserving type would avoid"
  else "value '" +:+ value self +:+ "' at ts " +:+ zs (timestamp self) +:+ "; a clean supersede".
End LwwRegister.

(** ** Proofs *)

(** Entries are read with the default 0, which every entry is above. *)
Abbreviation at_ d n := (d_getd d n 0) (only parsing).
Definition counts (d : pydict string Z) : Prop := d_wf d ∧ ∀ n, 0 <= at_ d n.

Lemma counts_nil : counts [].
Proof. split; [apply d_wf_nil|done]. Qed.

Lemma counts_set d n c : counts d → 0 <= c → counts (d_set d n c).
Proof.
  intros [Hwf Hp] Hc. split; [by apply d_wf_set|].
  intros n'. rewrite d_getd_set. by case_bool_decide.
Qed.

Lemma merge_max_spec d other :
  counts d → counts other →
  counts (merge_max d other) ∧ ∀ n, at_ (merge_max d other) n = Z.max (at_ d n) (at_ other n).
Proof.
  intros Hd [Hwf Hp]. revert d Hd. unfold merge_max.
  induction other as [|[k c] o IH]; cbn [foldl fst snd]; intros d Hd.
  { split; [done|]. intros n. destruct Hd as [_ Hd]. specialize (Hd n).
    change (at_ [] n) with 0. lia. }
  apply NoDup_cons in Hwf as [Hk Hwf].
  assert (Hget : ∀ n, at_ ((k, c) :: o) n = if bool_decide (n = k) then c else at_ o n)
    by (intros n; unfold d_getd; simpl; by case_bool_decide).
  assert (Hk0 : at_ o k = 0) by (unfold d_getd; by rewrite (proj2 (d_get_None o k) Hk)).
  pose proof (Hp k) as Hc. rewrite Hget, bool_decide_eq_true_2 in Hc by done.
  destruct (IH Hwf) with (d := d_set d k (Z.max (at_ d k) c)) as [H1 H2].
  - intros n. specialize (Hp n). rewrite Hget in Hp. case_bool_decide; [by subst; rewrite Hk0|done].
  - apply counts_set; [done|]. lia.
  - split; [done|]. intros n. rewrite H2, d_getd_set, Hget.
    case_bool_decide; [subst; rewrite Hk0; lia|done].
Qed.

Section vector_clock.
Import VectorClock.

Lemma compare_loop_spec a b nodes :
  compare_loop a b nodes
  = (existsb (λ n, at_ a n <? at_ b n) nodes, existsb (λ n, at_ b n <? at_ a n) nodes).
Proof.
  unfold compare_loop. induction nodes as [|n nodes IH] using rev_ind; [done|].
  rewrite foldl_app, !existsb_app, IH. cbn [foldl fst snd existsb].
  rewrite !orb_false_r.
  destruct (Z.ltb_spec (at_ a n) (at_ b n)), (Z.ltb_spec (at_ b n) (at_ a n)); try lia;
    by rewrite ?orb_false_r, ?orb_true_r.
Qed.

Lemma existsb_nodes a b :
  existsb (λ n, at_ a n <? at_ b n)
    (elements (list_to_set (d_keys a) ∪ list_to_set (d_keys b) : gset string)) = true
  ↔ ∃ n, at_ a n < at_ b n.
Proof.
  rewrite existsb_exists. split.
  - intros (n & _ & H%Z.ltb_lt). eauto.
  - intros (n & H). exists n. split; [|by apply Z.ltb_lt].
    apply list_elem_of_In, elem_of_elements, elem_of_union.
    rewrite !elem_of_list_to_set, <-!d_get_is_Some.
    unfold d_getd in H. destruct (d_get a n), (d_get b n); simpl in H; eauto. lia.
Qed.

(** The four answers of [compare], as the pointwise order of the vectors. *)
Lemma compare_spec a b (less := ∃ n, at_ a n < at_ b n) (greater := ∃ n, at_ b n < at_ a n) :
  (less ∧ greater → compare a b = CONCURRENT)
  ∧ (less ∧ ¬ greater → compare a b = BEFORE)
  ∧ (¬ less ∧ greater → compare a b = AFTER)
  ∧ (¬ less ∧ ¬ greater → compare a b = EQUAL).
Proof.
  pose proof (existsb_nodes a b) as Hl. pose proof (existsb_nodes b a) as Hg.
  rewrite (union_comm_L (list_to_set (d_keys b))) in Hg. fold less in Hl. fold greater in Hg.
  unfold compare. rewrite compare_loop_spec. clearbody less greater.
  destruct (existsb _ _), (existsb _ _); simpl; naive_solver.
Qed.

Lemma less_dec (a b : pydict string Z) : Decision (∃ n, at_ a n < at_ b n).
Proof.
  destruct (existsb (λ n, at_ a n <? at_ b n)
    (elements (list_to_set (d_keys a) ∪ list_to_set (d_keys b) : gset string))) eqn:E.
  - left. by apply existsb_nodes.
  - right. intros H%existsb_nodes. congruence.
Defined.

(** The processes of a system: each event is local or the receipt of the stamp of
    an earlier event, and its stamp is what the clock returns. *)
Inductive vc_op := Local_ (p : string) | Receive (p : string) (k : nat).

(** process, the event whose stamp was received, stamp *)
Abbreviation entry := (string * option nat * pydict string Z)%type (only parsing).
Record processes := mk_processes { clock : string → VectorClock.t; events : list entry }.
Definition processes0 : processes := mk_processes (λ p, VectorClock.mk p []) [].

Definition record_event (p : string) (m : option nat)
    (r : VectorClock.t * result (pydict string Z)) (w : processes) : processes :=
  mk_processes (λ q, if bool_decide (q = p) then r.1 else clock w q)
    (events w ++ match r.2 with Ok v => [(p, m, v)] | Err _ => [] end).

Definition vc_step (o : vc_op) (w : processes) : processes :=
  match o with
  | Local_ p => record_event p None (tick (clock w p)) w
  | Receive p k =>
      match events w !! k with
      | Some (_, _, v) => record_event p (Some k) (merge v (clock w p)) w
      | None => w
      end
  end.

(** Lamport's happened-before, on positions in the history. *)
Inductive happened_before (h : list entry) : nat → nat → Prop :=
  | hb_process j k p mj vj mk vk :
      (j < k)%nat → h !! j = Some (p, mj, vj) → h !! k = Some (p, mk, vk) → happened_before h j k
  | hb_message j k p v x :
      h !! k = Some (p, Some j, v) → h !! j = Some x → happened_before h j k
  | hb_trans i j k : happened_before h i j → happened_before h j k → happened_before h i k.

(** The facts about the history that decide every comparison. *)
Record vc_inv (w : processes) : Prop := {
  inv_clock p : node_id (clock w p) = p ∧ counts (vector (clock w p));
  inv_entry k p m v : events w !! k = Some (p, m, v) →
    counts v ∧ ∀ n, at_ v n <= at_ (vector (clock w n)) n;
  inv_own k p m v : events w !! k = Some (p, m, v) → 0 < at_ v p;
  inv_strict j k pj mj vj pk mk vk : (j < k)%nat →
    events w !! j = Some (pj, mj, vj) → events w !! k = Some (pk, mk, vk) → at_ vj pk < at_ vk pk;
  inv_message j k p v : events w !! k = Some (p, Some j, v) →
    (j < k)%nat ∧ ∀ pj mj vj, events w !! j = Some (pj, mj, vj) → ∀ n, at_ vj n <= at_ v n;
  inv_process j k p mj vj mk vk : (j < k)%nat →
    events w !! j = Some (p, mj, vj) → events w !! k = Some (p, mk, vk) →
    ∀ n, at_ vj n <= at_ vk n;
  inv_cause k p m v n : events w !! k = Some (p, m, v) → 0 < at_ v n →
    ∃ j mj vj, events w !! j = Some (n, mj, vj) ∧ at_ vj n = at_ v n
               ∧ (j = k ∨ happened_before (events w) j k);
  inv_last p : (∀ n, at_ (vector (clock w p)) n = 0) ∧ (∀ k m v, events w !! k ≠ Some (p, m, v))
    ∨ ∃ k m, events w !! k = Some (p, m, vector (clock w p))
             ∧ ∀ k' m' v', events w !! k' = Some (p, m', v') → (k' <= k)%nat }.

Lemma hb_mono h x j k : happened_before h j k → happened_before (h ++ [x]) j k.
Proof.
  induction 1 as [j k p mj vj mk vk Hjk Hj Hk|j k p v y Hk Hj|]; [| |by eapply hb_trans].
  - eapply hb_process; [done|by apply lookup_app_l_Some..].
  - eapply hb_message; by apply lookup_app_l_Some.
Qed.

Lemma vc_inv_init : vc_inv processes0.
Proof.
  split; try done.
  - intros p. split; [done|apply counts_nil].
  - intros p. by left.
Qed.

(** What the vector of a new event is, from the clock and the message. *)
Record new_stamp (w : processes) (p : string) (m : option nat) (v : pydict string Z) : Prop := {
  new_counts : counts v;
  new_clock n : at_ (vector (clock w p)) n <= at_ v n;
  new_own : at_ v p = at_ (vector (clock w p)) p + 1;
  new_message j : m = Some j → ∃ q mj vj, events w !! j = Some (q, mj, vj) ∧ ∀ n, at_ vj n <= at_ v n;
  new_other n : n ≠ p → at_ v n = at_ (vector (clock w p)) n
    ∨ ∃ j q mj vj, m = Some j ∧ events w !! j = Some (q, mj, vj) ∧ at_ v n = at_ vj n }.

Lemma clock_le_own w p n : vc_inv w → at_ (vector (clock w p)) n <= at_ (vector (clock w n)) n.
Proof.
  intros Hw. destruct (inv_last _ Hw p) as [[H _]|(k & m & Hk & _)].
  - rewrite H. apply (inv_clock _ Hw n).
  - by apply (inv_entry _ Hw _ _ _ _ Hk).
Qed.

Lemma vc_inv_append w p m v :
  vc_inv w → new_stamp w p m v → vc_inv (record_event p m (VectorClock.mk p v, Ok v) w).
Proof.
  intros Hw Hs. unfold record_event. simpl.
  assert (Hown : ∀ n, at_ (vector (clock w n)) n
      <= at_ (vector (if bool_decide (n = p) then VectorClock.mk p v else clock w n)) n).
  { intros n. case_bool_decide; [|done]. subst n. simpl. rewrite (new_own _ _ _ _ Hs). lia. }
  assert (Hle : ∀ n, n ≠ p → at_ v n <= at_ (vector (clock w n)) n).
  { intros n Hn. destruct (new_other _ _ _ _ Hs n Hn) as [->|(j & q & mj & vj & _ & Hj & ->)].
    - by apply clock_le_own.
    - by apply (inv_entry _ Hw _ _ _ _ Hj). }
  split; simpl.
  - intros q. case_bool_decide; [subst; split; [done|apply Hs]|apply Hw].
  - intros k q mk0 vk [[Hk _]|[-> ?]]%lookup_snoc_inv; simplify_eq.
    + destruct (inv_entry _ Hw _ _ _ _ Hk) as [Hc Hb]. split; [done|].
      intros n. etrans; [apply Hb|apply Hown].
    + split; [apply Hs|]. intros n. case_bool_decide; [done|]. by apply Hle.
  - intros k q mk0 vk [[Hk _]|[-> ?]]%lookup_snoc_inv; simplify_eq; [by eapply (inv_own _ Hw)|].
    rewrite (new_own _ _ _ _ Hs). pose proof (proj2 (proj2 (inv_clock _ Hw p)) p). lia.
  - intros j k pj mj vj pk mk0 vk Hjk [[Hj _]|[-> ?]]%lookup_snoc_inv
      [[Hk Hlt]|[-> ?]]%lookup_snoc_inv; simplify_eq; try lia.
    + by eapply (inv_strict _ Hw j k).
    + rewrite (new_own _ _ _ _ Hs). pose proof (proj2 (inv_entry _ Hw _ _ _ _ Hj) p). lia.
  - intros j k q vk [[Hk Hlt]|[-> ?]]%lookup_snoc_inv; simplify_eq.
    + destruct (inv_message _ Hw _ _ _ _ Hk) as [Hjk H]. split; [done|].
      intros pj mj vj [[Hj _]|[-> _]]%lookup_snoc_inv; [by eapply H|lia].
    + destruct (new_message _ _ _ _ Hs j eq_refl) as (q' & mj & vj & Hj & H).
      pose proof (lookup_lt_Some _ _ _ Hj). split; [done|].
      intros ??? [[Hj' _]|[-> _]]%lookup_snoc_inv; [|lia]. by simplify_eq.
  - intros j k q mj vj mk0 vk Hjk [[Hj _]|[-> ?]]%lookup_snoc_inv
      [[Hk Hlt]|[-> ?]]%lookup_snoc_inv; simplify_eq; try lia.
    + by eapply (inv_process _ Hw j k).
    + intros n. etrans; [|apply (new_clock _ _ _ _ Hs)].
      destruct (inv_last _ Hw p) as [[_ H]|(k & mk0 & Hk & Hlast)]; [by destruct (H _ _ _ Hj)|].
      specialize (Hlast _ _ _ Hj). destruct (decide (j = k)) as [->|]; [by simplify_eq|].
      eapply (inv_process _ Hw j k); [lia|done..].
  - intros k q mk0 vk n [[Hk Hlt]|[-> ?]]%lookup_snoc_inv Hpos; simplify_eq.
    + destruct (inv_cause _ Hw _ _ _ _ n Hk Hpos) as (j & mj & vj & Hj & Heq & Hor).
      exists j, mj, vj. split; [by apply lookup_app_l_Some|]. split; [done|].
      destruct Hor; [by left|right; by apply hb_mono].
    + destruct (decide (n = p)) as [->|Hn].
      { exists (length (events w)), m, v. split_and!; [by apply list_lookup_middle|done|by left]. }
      assert (∃ j q mj vj, events w !! j = Some (q, mj, vj) ∧ at_ v n = at_ vj n
        ∧ happened_before (events w ++ [(p, m, v)]) j (length (events w)))
        as (j & q & mj & vj & Hj & Heq & Hhb).
      { destruct (new_other _ _ _ _ Hs n Hn) as [He|(j & q & mj & vj & -> & Hj & He)].
        - destruct (inv_last _ Hw p) as [[H0 _]|(k & mk0 & Hk & Hlast)]; [rewrite H0 in He; lia|].
          exists k, p, mk0, (vector (clock w p)). split_and!; [done..|].
          eapply hb_process; [by eapply lookup_lt_Some|by apply lookup_app_l_Some|by apply list_lookup_middle].
        - exists j, q, mj, vj. split_and!; [done..|].
          eapply hb_message; [by apply list_lookup_middle|by apply lookup_app_l_Some]. }
      rewrite Heq in Hpos |- *.
      destruct (inv_cause _ Hw _ _ _ _ n Hj Hpos) as (i & mi & vi & Hi & He & Hor).
      exists i, mi, vi. split; [by apply lookup_app_l_Some|]. split; [done|]. right.
      destruct Hor as [->|Hor]; [done|]. eapply hb_trans; [by apply hb_mono|done].
  - intros q. case_bool_decide as Hq; [subst q|].
    + right. exists (length (events w)), m. split; [by apply list_lookup_middle|].
      intros k' ?? [[_ ?]|[-> _]]%lookup_snoc_inv; lia.
    + destruct (inv_last _ Hw q) as [[H0 Hno]|(k & mk0 & Hk & Hlast)]; [left|right].
      * split; [done|]. intros k mk0 vk [[Hk _]|[_ ?]]%lookup_snoc_inv; [by eapply Hno|simplify_eq].
      * exists k, mk0. split; [by apply lookup_app_l_Some|].
        intros k' ?? [[H _]|[_ ?]]%lookup_snoc_inv; [by eapply Hlast|simplify_eq].
Qed.

Lemma tick_run c : tick c = (bump c, Ok (vector (bump c))).
Proof. reflexivity. Qed.
Lemma vc_merge_run v c (c' := bump (VectorClock.mk (node_id c) (merge_max (vector c) v))) :
  merge v c = (c', Ok (vector c')).
Proof. reflexivity. Qed.

Lemma vc_step_inv o w : vc_inv w → vc_inv (vc_step o w).
Proof.
  intros Hw. destruct o as [p|p k]; simpl.
  - rewrite tick_run. unfold bump. cbn [vector].
    destruct (inv_clock _ Hw p) as [-> [Hwf Hp]].
    apply vc_inv_append; [done|]. split.
    + apply counts_set; [done|]. specialize (Hp p). lia.
    + intros n. rewrite d_getd_set. case_bool_decide; [subst; lia|done].
    + by rewrite d_getd_set, bool_decide_eq_true_2.
    + done.
    + intros n Hn. left. by rewrite d_getd_set, bool_decide_eq_false_2.
  - destruct (events w !! k) as [[[q mk0] v]|] eqn:Hk; [|done].
    rewrite vc_merge_run. unfold bump. cbn [node_id vector].
    destruct (inv_clock _ Hw p) as [-> Hc]. destruct (inv_entry _ Hw _ _ _ _ Hk) as [Hv Hb].
    destruct (merge_max_spec _ _ Hc Hv) as [Hm Hmax].
    assert (Hp : at_ (merge_max (vector (clock w p)) v) p = at_ (vector (clock w p)) p)
      by (rewrite Hmax; specialize (Hb p); lia).
    apply vc_inv_append; [done|]. split.
    + apply counts_set; [done|]. pose proof (proj2 Hm p). lia.
    + intros n. rewrite d_getd_set. case_bool_decide; [subst; lia|]. rewrite Hmax. lia.
    + rewrite d_getd_set, bool_decide_eq_true_2 by done. by rewrite Hp.
    + intros j [= <-]. exists q, mk0, v. split; [done|]. intros n. rewrite d_getd_set.
      case_bool_decide; [subst; specialize (Hb p); lia|]. rewrite Hmax. lia.
    + intros n Hn. rewrite d_getd_set, bool_decide_eq_false_2 by done. rewrite Hmax.
      destruct (Z.max_spec (at_ (vector (clock w p)) n) (at_ v n)) as [[_ ->]|[_ ->]]; [right|by left].
      by exists k, q, mk0, v.
Qed.

Lemma hb_le w j k : vc_inv w → happened_before (events w) j k →
  (j < k)%nat ∧ ∃ pj mj vj pk mk vk, events w !! j = Some (pj, mj, vj)
    ∧ events w !! k = Some (pk, mk, vk) ∧ ∀ n, at_ vj n <= at_ vk n.
Proof.
  intros Hw. induction 1 as [j k p mj vj mk vk Hjk Hj Hk|j k p v [[pj mj] vj] Hk Hj|
                             i j k _ [Hij IH1] _ [Hjk IH2]].
  - split; [done|]. exists p, mj, vj, p, mk, vk. split_and!; [done..|].
    by eapply (inv_process _ Hw j k).
  - destruct (inv_message _ Hw _ _ _ _ Hk) as [Hjk H]. split; [done|].
    exists pj, mj, vj, p, (Some j), v. split_and!; [done..|]. exact (H _ _ _ Hj).
  - split; [lia|]. destruct IH1 as (p1 & m1 & v1 & p2 & m2 & v2 & H1 & H2 & H12).
    destruct IH2 as (? & ? & ? & p3 & m3 & v3 & H2' & H3 & H23). simplify_eq.
    exists p1, m1, v1, p3, m3, v3. split_and!; [done..|]. intros n. etrans; [apply H12|apply H23].
Qed.

(** An event whose own entry another stamp has reached is in that stamp's past. *)
Lemma known_is_past w j k pj mj vj pk mk vk :
  vc_inv w → events w !! j = Some (pj, mj, vj) → events w !! k = Some (pk, mk, vk) →
  at_ vj pj <= at_ vk pj → j = k ∨ happened_before (events w) j k.
Proof.
  intros Hw Hj Hk Hle. pose proof (inv_own _ Hw _ _ _ _ Hj) as Hpos.
  destruct (inv_cause _ Hw _ _ _ _ pj Hk) as (i & mi & vi & Hi & He & Hor); [lia|].
  destruct (Nat.lt_trichotomy i j) as [Hij|[->|Hji]]; [|done|].
  - pose proof (inv_strict _ Hw _ _ _ _ _ _ _ _ Hij Hi Hj). lia.
  - right. assert (happened_before (events w) j i) by by eapply hb_process.
    destruct Hor as [->|]; [done|by eapply hb_trans].
Qed.

(** C18 (functional): Vector clocks decide causality exactly. Take any run of any number of
    processes, each event a [tick] or the [merge] of the stamp of any earlier event, however late or
    often it is delivered. For any two distinct events, [compare] of their stamps answers "before"
    exactly when the first happened before the second (in Lamport's sense: the same process, a
    message received, or a chain of these), "after" exactly in the converse case, "concurrent"
    exactly when neither happened before the other, and never "equal"; so [conflict] reports
    exactly the concurrent pairs, and a late write is never taken for a conflict. *)
Theorem vector_clock_causality ops j k pj mj vj pk mk vk
    (h := events (run vc_step ops processes0))
    (Hj : h !! j = Some (pj, mj, vj)) (Hk : h !! k = Some (pk, mk, vk)) (Hjk : j ≠ k) :
  (compare vj vk = BEFORE ↔ happened_before h j k)
  ∧ (compare vj vk = AFTER ↔ happened_before h k j)
  ∧ compare vj vk ≠ EQUAL
  ∧ (conflict vj vk = true ↔ ¬ happened_before h j k ∧ ¬ happened_before h k j).
Proof.
  assert (Hw : vc_inv (run vc_step ops processes0))
    by (apply run_invariant; [apply vc_step_inv|apply vc_inv_init]).
  assert (Hbefore : ∀ j k pj mj vj pk mk vk, j ≠ k → h !! j = Some (pj, mj, vj) →
    h !! k = Some (pk, mk, vk) → happened_before h j k ↔ ¬ ∃ n, at_ vk n < at_ vj n).
  { clear -Hw. intros j k pj mj vj pk mk vk Hne Hj Hk. split.
    - intros Hhb. destruct (hb_le _ _ _ Hw Hhb) as (_ & ? & ? & ? & ? & ? & ? & H1 & H2 & Hle).
      fold h in H1, H2. simplify_eq. intros [n Hn]. specialize (Hle n). lia.
    - intros Hno. destruct (known_is_past _ _ _ _ _ _ _ _ _ Hw Hj Hk) as [->|]; [|done..].
      apply Z.nlt_ge. intros ?. apply Hno. eauto. }
  pose proof (Hbefore _ _ _ _ _ _ _ _ Hjk Hj Hk) as H1.
  pose proof (Hbefore _ _ _ _ _ _ _ _ (not_eq_sym Hjk) Hk Hj) as H2.
  assert (Hirr : ¬ (happened_before h j k ∧ happened_before h k j)).
  { intros [Ha Hb]. apply (hb_le _ _ _ Hw) in Ha as [Ha _]. apply (hb_le _ _ _ Hw) in Hb as [Hb _]. lia. }
  destruct (compare_spec vj vk) as (S1 & S2 & S3 & S4). unfold conflict.
  rewrite bool_decide_eq_true.
  destruct (less_dec vj vk) as [L|L], (less_dec vk vj) as [G|G].
  - rewrite S1 by done. rewrite H1, H2. naive_solver.
  - rewrite S2 by done. rewrite H1, H2. naive_solver.
  - rewrite S3 by done. rewrite H1, H2. naive_solver.
  - destruct Hirr. by rewrite H1, H2.
Qed.

Lemma vector_clock_causality_witness :
  let h := events (run vc_step [Local_ "a"; Local_ "b"; Receive "b" 0; Local_ "a"] processes0) in
  (∃ va vb, h !! 0%nat = Some ("a", None, va) ∧ h !! 2%nat = Some ("b", Some 0%nat, vb)
            ∧ compare va vb = BEFORE)
  ∧ happened_before h 0 2
  ∧ (∃ vb va, h !! 2%nat = Some ("b", Some 0%nat, vb) ∧ h !! 3%nat = Some ("a", None, va)
              ∧ conflict vb va = true).
Proof.
  intros h. split_and!.
  - exists [("a", 1)], [("b", 2); ("a", 1)]. split_and!; vm_compute; reflexivity.
  - apply (vector_clock_causality [Local_ "a"; Local_ "b"; Receive "b" 0; Local_ "a"] 0 2
             "a" None [("a", 1)] "b" (Some 0%nat) [("b", 2); ("a", 1)]);
      [vm_compute; reflexivity..|lia|vm_compute; reflexivity].
  - exists [("b", 2); ("a", 1)], [("a", 2)]. split_and!; vm_compute; reflexivity.
Defined.
End vector_clock.

Section gcounter.
Import GCounter.

Lemma zsum_filter_nonzero {A} (f : A → Z) l : zsum f (filter (λ x, f x ≠ 0) l) = zsum f l.
Proof.
  induction l as [|x l IH]; [done|]. rewrite filter_cons. simpl. case_decide; simpl; lia.
Qed.

Lemma zsum_support {A} (f : A → Z) l1 l2 :
  NoDup l1 → NoDup l2 → (∀ x, f x ≠ 0 → x ∈ l1 ↔ x ∈ l2) → zsum f l1 = zsum f l2.
Proof.
  intros H1 H2 H. rewrite <-(zsum_filter_nonzero f l1), <-(zsum_filter_nonzero f l2).
  apply zsum_Permutation, NoDup_Permutation; [by apply NoDup_filter..|].
  intros x. rewrite !list_elem_of_filter. naive_solver.
Qed.

Lemma zsum_elem_le {A} (f : A → Z) l x : (∀ y, 0 <= f y) → x ∈ l → f x <= zsum f l.
Proof.
  intros Hf. induction l as [|y l IH]; simpl; intros Hx; [by apply elem_of_nil in Hx|].
  pose proof (Hf y). pose proof (zsum_nonneg f l (λ z _, Hf z)).
  apply elem_of_cons in Hx as [->|Hx]; [lia|]. specialize (IH Hx). lia.
Qed.

(** The value, as the sum of the entries of any list of nodes that has every counting one. *)
Lemma value_spec c ps : counts (entries c) → NoDup ps →
  (∀ n, at_ (entries c) n ≠ 0 → n ∈ ps) → value c = zsum (λ n, at_ (entries c) n) ps.
Proof.
  intros [Hwf Hp] Hnd Hps. unfold value. rewrite <-(zsum_lookup id 0) by done.
  apply zsum_support; [done..|]. intros n Hn. unfold id in Hn. split; [by intros _; apply Hps|].
  intros _. apply d_get_is_Some. unfold d_getd in Hn. destruct (d_get _ n); [eauto|done].
Qed.

(** Replicas that count, take snapshots of their entries, and merge any snapshot taken so far. *)
Inductive gc_op := Increment (p : string) (amount : Z) | Snapshot (p : string) | Deliver (p : string) (k : nat).
Record cluster := mk_cluster { replica : string → GCounter.t; sent : list (pydict string Z) }.
Definition cluster0 : cluster := mk_cluster (λ p, GCounter.mk p []) [].

Definition update_replica (p : string) (m : act GCounter.t Z) (w : cluster) : cluster :=
  mk_cluster (λ q, if bool_decide (q = p) then state_of m (replica w p) else replica w q) (sent w).

Definition gc_step (o : gc_op) (w : cluster) : cluster :=
  match o with
  | Increment p amount => update_replica p (increment amount) w
  | Snapshot p => mk_cluster (replica w) (sent w ++ [entries (replica w p)])
  | Deliver p k =>
      match sent w !! k with Some m => update_replica p (merge m) w | None => w end
  end.

(** What the accepted increments of a node add up to. *)
Definition accepted (p : string) (o : gc_op) : Z :=
  match o with
  | Increment q amount => if bool_decide (q = p) && (1 <=? amount) then amount else 0
  | _ => 0
  end.
Definition issued (ops : list gc_op) (p : string) : Z := zsum (accepted p) ops.

Record gc_inv (f : string → Z) (w : cluster) : Prop := {
  gc_replica p : node_id (replica w p) = p ∧ counts (entries (replica w p))
    ∧ at_ (entries (replica w p)) p = f p;
  gc_entry p n : at_ (entries (replica w p)) n <= f n;
  gc_sent k m : sent w !! k = Some m → counts m ∧ ∀ n, at_ m n <= f n }.

Lemma increment_entries amount c : state_of (increment amount) c
  = if amount <? 1 then c else
      GCounter.mk (node_id c) (d_set (entries c) (node_id c) (at_ (entries c) (node_id c) + amount)).
Proof. unfold state_of, increment. by act_cases. Qed.

Lemma gc_inv_ext f g w : (∀ n, g n = f n) → gc_inv f w → gc_inv g w.
Proof.
  intros Heq [H1 H2 H3]. split; intros *; rewrite ?Heq; [apply H1|apply H2|].
  intros Hk. split; [by eapply H3|]. intros n. rewrite Heq. by eapply H3.
Qed.

(** Replacing a replica by one that knows no more than has been issued. *)
Lemma gc_inv_replace f w p c : gc_inv f w →
  node_id c = p → counts (entries c) → at_ (entries c) p = f p → (∀ n, at_ (entries c) n <= f n) →
  gc_inv f (mk_cluster (λ q, if bool_decide (q = p) then c else replica w q) (sent w)).
Proof.
  intros Hw H1 H2 H3 H4. split; simpl; [| |apply Hw].
  - intros q. case_bool_decide; [by subst|apply Hw].
  - intros q n. case_bool_decide; [by subst|apply Hw].
Qed.

Lemma gc_step_inv o f g w :
  (∀ n, g n = f n + accepted n o) → gc_inv f w → gc_inv g (gc_step o w).
Proof.
  intros Hg Hw. destruct o as [p amount|p|p k]; cbn [gc_step accepted] in *.
  - unfold update_replica. rewrite increment_entries.
    destruct (gc_replica _ _ Hw p) as (Hid & Hc & Hown). rewrite Hid.
    assert (0 <= at_ (entries (replica w p)) p) by apply Hc.
    destruct (Z.ltb_spec amount 1) as [Ha|Ha].
    + apply (gc_inv_ext f); [intros n; rewrite Hg, (proj2 (Z.leb_gt 1 amount)), andb_false_r by lia; lia|].
      apply gc_inv_replace; try done. apply Hw.
    + assert (Hgn : ∀ n, g n = if bool_decide (n = p) then f p + amount else f n).
      { intros n. rewrite Hg, (proj2 (Z.leb_le 1 amount)), andb_true_r by lia.
        destruct (decide (n = p)) as [->|]; [by rewrite !bool_decide_eq_true_2|].
        rewrite !bool_decide_eq_false_2 by done. lia. }
      split; simpl.
      * intros q. rewrite Hgn. destruct (decide (q = p)) as [->|Hq].
        { rewrite !bool_decide_eq_true_2 by done. simpl.
          rewrite d_getd_set, bool_decide_eq_true_2 by done.
          split; [done|]. split; [apply counts_set; [done|lia]|lia]. }
        rewrite !bool_decide_eq_false_2 by done. apply Hw.
      * intros q n. rewrite Hgn. pose proof (gc_entry _ _ Hw q n). pose proof (gc_entry _ _ Hw p n).
        destruct (bool_decide (q = p)); simpl; [rewrite d_getd_set|]; case_bool_decide; subst; lia.
      * intros k m Hk. destruct (gc_sent _ _ Hw _ _ Hk) as [H1 H2]. split; [done|].
        intros n. rewrite Hgn. specialize (H2 n). case_bool_decide; subst; lia.
  - apply (gc_inv_ext f); [intros; rewrite Hg; lia|]. split; simpl; [apply Hw|apply Hw|].
    intros k m [[Hk _]|[_ ->]]%lookup_snoc_inv; [by eapply gc_sent|]. split; apply Hw.
  - apply (gc_inv_ext f); [intros; rewrite Hg; lia|].
    destruct (sent w !! k) as [m|] eqn:Hk; [|done].
    destruct (gc_sent _ _ Hw _ _ Hk) as [Hm Hb].
    destruct (gc_replica _ _ Hw p) as (Hid & Hc & Hown).
    destruct (merge_max_spec _ _ Hc Hm) as [Hcm Hmax].
    apply gc_inv_replace; simpl; try done.
    + rewrite Hmax. specialize (Hb p). lia.
    + intros n. rewrite Hmax. pose proof (gc_entry _ _ Hw p n). specialize (Hb n). lia.
Qed.

Lemma gc_inv_run ops : gc_inv (issued ops) (run gc_step ops cluster0).
Proof.
  induction ops as [|o ops IH] using rev_ind.
  - split; simpl; [|done|done]. intros p. split_and!; [done|apply counts_nil|done].
  - rewrite run_app. eapply gc_step_inv; [|exact IH].
    intros n. unfold issued. rewrite zsum_app. simpl. lia.
Qed.

Lemma gc_inv_deliveries f p ks w : gc_inv f w → gc_inv f (run gc_step (Deliver p <$> ks) w).
Proof.
  revert w. induction ks as [|k ks IH]; intros w Hw; [done|]. apply IH.
  apply (gc_step_inv (Deliver p k) f); [intros; simpl; lia|done].
Qed.

(** Deliveries only raise a replica's entries, and to what was delivered. *)
Lemma deliver_all p ks w f : gc_inv f w →
  let w' := run gc_step (Deliver p <$> ks) w in
  sent w' = sent w ∧ (∀ n, at_ (entries (replica w p)) n <= at_ (entries (replica w' p)) n)
  ∧ ∀ k m n, k ∈ ks → sent w !! k = Some m → at_ m n <= at_ (entries (replica w' p)) n.
Proof.
  revert w. induction ks as [|k ks IH]; intros w Hw; simpl.
  { split_and!; [done|done|]. by intros ??? ?%elem_of_nil. }
  assert (Hw1 : gc_inv f (gc_step (Deliver p k) w))
    by (eapply gc_step_inv; [|exact Hw]; intros; simpl; lia).
  destruct (IH _ Hw1) as (Hs & Hle & Hk). fold (run gc_step (Deliver p <$> ks)) in *.
  cbn [gc_step] in *. destruct (sent w !! k) as [m|] eqn:Hm.
  2: { split_and!; [done..|]. intros k' m' n [->|Hin]%elem_of_cons Hm'; [congruence|by eapply Hk]. }
  destruct (gc_sent _ _ Hw _ _ Hm) as [Hcm _].
  destruct (merge_max_spec _ _ (proj1 (proj2 (gc_replica _ _ Hw p))) Hcm) as [_ Hmax].
  simpl in Hle. setoid_rewrite bool_decide_eq_true_2 in Hle; [|done]. simpl in Hle.
  split_and!; [done| |].
  - intros n. etrans; [|apply Hle]. simpl. rewrite Hmax. lia.
  - intros k' m' n [->|Hin]%elem_of_cons Hm'; [|by eapply Hk].
    simplify_eq. etrans; [|apply Hle]. simpl. rewrite Hmax. lia.
Qed.

(** Also (functional): The grow-only counter never counts an increment twice and loses none. Take any
    run of replicas that increment, take snapshots of their entries and merge any earlier snapshot,
    in any order, with messages lost, repeated or stale. Each replica's value is between its own
    accepted increments and the total accepted anywhere (the increments below 1, which raise
    [Invalid], count nothing). Once a replica has merged, directly or relayed, in any order and
    however often, snapshots that carry every other node's latest count, its value is exactly that
    total. *)
Theorem gcounter_converges ops p ks ps (w := run gc_step ops cluster0)
    (w' := run gc_step (Deliver p <$> ks) w)
    (Hps : NoDup ps) (Hall : ∀ n, issued ops n ≠ 0 → n ∈ ps)
    (Hks : ∀ n, n ∈ ps → n = p ∨ ∃ k m, k ∈ ks ∧ sent w !! k = Some m ∧ d_getd m n 0 = issued ops n) :
  (∀ q, issued ops q <= value (replica w q) <= zsum (issued ops) ps)
  ∧ value (replica w' p) = zsum (issued ops) ps.
Proof.
  pose proof (gc_inv_run ops) as Hw. fold w in Hw.
  assert (Hpos : ∀ n, 0 <= issued ops n)
    by (intros n; rewrite <-(proj2 (proj2 (gc_replica _ _ Hw n))); apply Hw).
  assert (Hval : ∀ w0 q, gc_inv (issued ops) w0 →
    value (replica w0 q) = zsum (λ n, at_ (entries (replica w0 q)) n) ps).
  { intros w0 q Hw0. apply value_spec; [apply Hw0|done|]. intros n Hn. apply Hall.
    pose proof (gc_entry _ _ Hw0 q n). pose proof (proj2 (proj1 (proj2 (gc_replica _ _ Hw0 q))) n). lia. }
  split.
  - intros q. rewrite Hval by done. split.
    + rewrite <-(proj2 (proj2 (gc_replica _ _ Hw q))).
      destruct (decide (q ∈ ps)) as [Hin|Hni].
      * apply (zsum_elem_le (λ n, at_ (entries (replica w q)) n)); [|done]. intros. apply Hw.
      * rewrite (proj2 (proj2 (gc_replica _ _ Hw q))).
        replace (issued ops q) with 0 by (destruct (decide (issued ops q = 0)); naive_solver).
        apply zsum_nonneg. intros. apply Hw.
    + apply zsum_le. intros. apply Hw.
  - assert (Hw' : gc_inv (issued ops) w') by by apply gc_inv_deliveries.
    rewrite Hval by done. apply zsum_ext. intros n Hn. apply Z.le_antisymm; [apply Hw'|].
    destruct (deliver_all p ks w _ Hw) as (_ & Hle & Hd).
    destruct (Hks n Hn) as [->|(k & m & Hk & Hm & <-)]; [|by eapply Hd].
    rewrite <-(proj2 (proj2 (gc_replica _ _ Hw' p))). done.
Qed.

Lemma gcounter_converges_witness :
  let ops := [Increment "a" 5; Snapshot "a"; Increment "b" 3; Deliver "b" 0; Snapshot "b"; Increment "c" 0] in
  value (replica (run gc_step (Deliver "c" <$> [1%nat; 1%nat; 0%nat]) (run gc_step ops cluster0)) "c") = 8.
Proof.
  intros ops.
  refine (eq_trans (proj2 (gcounter_converges ops "c" [1%nat; 1%nat; 0%nat] ["a"; "b"] _ _ _)) _).
  - apply (bool_decide_unpack _). vm_compute. exact I.
  - intros n. unfold issued. simpl. rewrite !andb_false_r, !andb_true_r.
    destruct (decide ("a" = n)) as [<-|]; [left|]. destruct (decide ("b" = n)) as [<-|]; [right; left|].
    rewrite !bool_decide_eq_false_2 by done. done.
  - intros n Hn. right. exists 1%nat, [("b", 3); ("a", 5)].
    apply elem_of_cons in Hn as [->|[->|Hn%elem_of_nil]%elem_of_cons]; [| |done];
      (split; [left|split; vm_compute; reflexivity]).
  - vm_compute. reflexivity.
Defined.
End gcounter.

Section orset.
Import ORSet.

Lemma tags_insert s e e' ts nid rm nt :
  tags (ORSet.mk nid (<[e := ts]> (adds s)) rm nt) e' = if decide (e' = e) then ts else tags s e'.
Proof. unfold tags. simpl. case_decide; [subst; by rewrite lookup_insert_eq|by rewrite lookup_insert_ne]. Qed.

Lemma orset_add_run e s : ORSet.add e s =
  (ORSet.mk (node_id s) (<[e := tags s e ∪ {[(node_id s, next_tag s)]}]> (adds s)) (removes s)
     (next_tag s + 1), Ok (node_id s, next_tag s)).
Proof. reflexivity. Qed.

Lemma orset_remove_run e s : ORSet.remove e s =
  if contains s e then (ORSet.mk (node_id s) (adds s) (removes s ∪ tags s e) (next_tag s), Ok ())
  else (s, Err Invalid).
Proof. unfold ORSet.remove. rewrite bind_get, bind_raise_if. by destruct (contains s e). Qed.

Lemma merge_tags_spec l s : ∃ s1, for_each l merge_tags s = (s1, Ok ())
  ∧ node_id s1 = node_id s ∧ removes s1 = removes s ∧ next_tag s1 = next_tag s
  ∧ ∀ e t, t ∈ tags s1 e ↔ t ∈ tags s e ∨ ∃ ts, (e, ts) ∈ l ∧ t ∈ ts.
Proof.
  revert s. induction l as [|[e ts] l IH]; intros s.
  { exists s. split_and!; [done..|]. intros e t. split; [by left|].
    intros [?|(ts & []%elem_of_nil & _)]. done. }
  change (for_each ((e, ts) :: l) merge_tags s) with (for_each l merge_tags
    (ORSet.mk (node_id s) (<[e := tags s e ∪ ts]> (adds s)) (removes s) (next_tag s))).
  destruct (IH (ORSet.mk (node_id s) (<[e := tags s e ∪ ts]> (adds s))
        (removes s) (next_tag s))) as (s1 & Hs1 & H1 & H2 & H3 & H4).
  exists s1. split_and!; [done..|]. intros e' t. rewrite H4, tags_insert. case_decide.
  - subst e'. rewrite elem_of_union. split.
    + intros [[?|?]|(ts' & Hin & ?)]; [by left|right; exists ts; split; [left|done]|].
      right. exists ts'. split; [by right|done].
    + intros [?|(ts' & [Heq|Hin]%elem_of_cons & ?)]; [by left; left| |right; eauto].
      simplify_eq. by left; right.
  - split; [intros [?|(ts' & Hin & ?)]; [by left|right; exists ts'; split; [by right|done]]|].
    intros [?|(ts' & [Heq|Hin]%elem_of_cons & ?)]; [by left|simplify_eq|right; eauto].
Qed.

Lemma merge_spec o s (s' := state_of (ORSet.merge o) s) :
  value_of (ORSet.merge o) s = Ok () ∧ node_id s' = node_id s
  ∧ (∀ e, tags s' e = tags s e ∪ tags o e)
  ∧ removes s' = removes s ∪ removes o ∧ next_tag s' = Z.max (next_tag s) (next_tag o).
Proof.
  destruct (merge_tags_spec (map_to_list (adds o)) s) as (s1 & Hrun & H1 & H2 & H3 & H4).
  subst s'. unfold state_of, value_of, ORSet.merge.
  rewrite bind_run, Hrun, bind_modify, run_modify. simpl. rewrite H1, H2, H3.
  split_and!; try done. intros e. apply set_eq. intros t.
  unfold tags at 1. simpl. fold (tags s1 e). rewrite H4, elem_of_union. f_equiv.
  unfold tags. split.
  - intros (ts & Hin%elem_of_map_to_list & Ht). by rewrite Hin.
  - destruct (adds o !! e) as [ts|] eqn:He; simpl; [|by intros []%not_elem_of_empty].
    intros Ht. exists ts. split; [by apply elem_of_map_to_list|done].
Qed.

Lemma contains_spec s e : contains s e = true ↔ ∃ t, t ∈ tags s e ∧ t ∉ removes s.
Proof.
  unfold contains. rewrite bool_decide_eq_true. split.
  - intros H%set_choose_L. destruct H as [t [H1 H2]%elem_of_difference]. eauto.
  - intros (t & H1 & H2) Hemp. apply (not_elem_of_empty (C:=gset _) t). rewrite <-Hemp.
    by apply elem_of_difference.
Qed.

(** Replicas that add, remove and merge any snapshot of a replica taken so far. *)
Inductive or_op := Add (p e : string) | Remove (p e : string) | SnapshotSet (p : string)
  | DeliverSet (p : string) (k : nat).
Record sets := mk_sets { set_of : string → ORSet.t; sent_sets : list ORSet.t }.
Definition sets0 : sets := mk_sets ORSet.init [].

Definition update_set {A} (p : string) (m : act ORSet.t A) (w : sets) : sets :=
  mk_sets (λ q, if bool_decide (q = p) then state_of m (set_of w p) else set_of w q) (sent_sets w).

Definition or_step (o : or_op) (w : sets) : sets :=
  match o with
  | Add p e => update_set p (ORSet.add e) w
  | Remove p e => update_set p (ORSet.remove e) w
  | SnapshotSet p => mk_sets (set_of w) (sent_sets w ++ [set_of w p])
  | DeliverSet p k =>
      match sent_sets w !! k with Some s => update_set p (ORSet.merge s) w | None => w end
  end.

(** The states anyone can read: the replicas and the snapshots. *)
Definition known (w : sets) (s : ORSet.t) : Prop := (∃ p, s = set_of w p) ∨ s ∈ sent_sets w.

Record or_inv (w : sets) : Prop := {
  or_node p : node_id (set_of w p) = p;
  or_fresh s e n k : known w s → (n, k) ∈ tags s e → k < next_tag (set_of w n);
  or_fresh_removed s n k : known w s → (n, k) ∈ removes s → k < next_tag (set_of w n);
  or_unique s s' e e' t : known w s → known w s' → t ∈ tags s e → t ∈ tags s' e' → e = e' }.

Lemma known_update {A} p (m : act ORSet.t A) w s :
  known (update_set p m w) s → s = state_of m (set_of w p) ∨ known w s.
Proof.
  intros [[q ->]|Hs]; [|by right; right]. simpl.
  case_bool_decide; [by left|right; left; eauto].
Qed.

Lemma known_replica w p : known w (set_of w p).
Proof. left. eauto. Qed.
#[local] Hint Resolve known_replica : core.

(** A change that learns only what is known somewhere, and keeps the counter from falling. *)
Lemma or_inv_update {A} p (m : act ORSet.t A) w (s' := state_of m (set_of w p)) :
  or_inv w → node_id s' = p → next_tag (set_of w p) <= next_tag s' →
  (∀ e t, t ∈ tags s' e → ∃ s, known w s ∧ t ∈ tags s e) →
  (∀ t, t ∈ removes s' → ∃ s, known w s ∧ (t ∈ removes s ∨ ∃ e, t ∈ tags s e)) →
  or_inv (update_set p m w).
Proof.
  intros Hw Hid Hnext Ht Hr.
  assert (Hup : ∀ n k, k < next_tag (set_of w n) → k < next_tag (set_of (update_set p m w) n)).
  { intros n k H. simpl. case_bool_decide; [subst n; fold s'; lia|done]. }
  assert (Hknown : ∀ s e t, known (update_set p m w) s → t ∈ tags s e → ∃ s0, known w s0 ∧ t ∈ tags s0 e).
  { intros s e t [->|Hs]%known_update Hin; [by apply Ht|eauto]. }
  split.
  - intros q. simpl. case_bool_decide; [subst q; exact Hid|apply Hw].
  - intros s e n k Hs Hin. destruct (Hknown _ _ _ Hs Hin) as (s0 & H0 & Hin0).
    apply Hup. by eapply or_fresh.
  - intros s n k [->|Hs]%known_update Hin; apply Hup; [|by eapply or_fresh_removed].
    destruct (Hr _ Hin) as (s0 & H0 & [Hin0|[e Hin0]]); [by eapply or_fresh_removed|by eapply or_fresh].
  - intros s1 s2 e1 e2 t Hs1 Hs2 H1 H2.
    destruct (Hknown _ _ _ Hs1 H1) as (s3 & K1 & T1). destruct (Hknown _ _ _ Hs2 H2) as (s4 & K2 & T2).
    exact (or_unique _ Hw _ _ _ _ _ K1 K2 T1 T2).
Qed.

Lemma or_step_add p e w : or_inv w → or_inv (or_step (Add p e) w).
Proof.
  intros Hw. cbn [or_step]. set (t := (p, next_tag (set_of w p))).
  assert (Hs' : ∀ q, set_of (update_set p (ORSet.add e) w) q = if bool_decide (q = p) then
     ORSet.mk p (<[e := tags (set_of w p) e ∪ {[t]}]> (adds (set_of w p))) (removes (set_of w p))
       (next_tag (set_of w p) + 1) else set_of w q).
  { intros q. simpl. unfold state_of. rewrite orset_add_run. simpl. by rewrite (or_node _ Hw p). }
  assert (Hup : ∀ n k, k < next_tag (set_of w n) → k < next_tag (set_of (update_set p (ORSet.add e) w) n)).
  { intros n k H. rewrite Hs'. case_bool_decide; [subst n; simpl; lia|done]. }
  assert (Hin : ∀ s e' t', known (update_set p (ORSet.add e) w) s → t' ∈ tags s e' →
    (e' = e ∧ t' = t) ∨ ∃ s0, known w s0 ∧ t' ∈ tags s0 e').
  { intros s e' t' Hk Ht'.
    assert (s = set_of (update_set p (ORSet.add e) w) p ∨ known w s) as [->|]; [|rewrite Hs' in Ht'|eauto].
    { apply known_update in Hk as [->|]; [left|by right]. simpl. by rewrite bool_decide_eq_true_2. }
    rewrite bool_decide_eq_true_2, tags_insert in Ht' by done. case_decide; [|by right; eauto].
    subst e'. apply elem_of_union in Ht' as [?|Hsing%elem_of_singleton]; [right; eauto|left; by split]. }
  assert (Hfresh : ∀ s e', known w s → t ∉ tags s e').
  { intros s e' Hk Hin'. pose proof (or_fresh _ Hw _ _ _ _ Hk Hin'). lia. }
  split.
  - intros q. rewrite Hs'. case_bool_decide; [by subst|apply Hw].
  - intros s e' n k Hk Ht'. destruct (Hin _ _ _ Hk Ht') as [[-> Heq]|(s0 & H0 & H1)].
    + unfold t in Heq. simplify_eq. rewrite Hs', bool_decide_eq_true_2 by done. simpl. lia.
    + apply Hup. by eapply or_fresh.
  - intros s n k Hk Hr. apply Hup. apply known_update in Hk as [->|]; [|by eapply or_fresh_removed].
    unfold state_of in Hr. rewrite orset_add_run in Hr. simpl in Hr. by eapply (or_fresh_removed _ Hw); [|exact Hr].
  - intros s1 s2 e1 e2 t' Hk1 Hk2 H1 H2.
    destruct (Hin _ _ _ Hk1 H1) as [[-> ->]|(s3 & K1 & T1)], (Hin _ _ _ Hk2 H2) as [[-> Ht]|(s4 & K2 & T2)].
    + done.
    + by destruct (Hfresh _ _ K2 T2).
    + rewrite Ht in T1. by destruct (Hfresh _ _ K1 T1).
    + exact (or_unique _ Hw _ _ _ _ _ K1 K2 T1 T2).
Qed.

Lemma or_step_inv o w : or_inv w → or_inv (or_step o w).
Proof.
  intros Hw. destruct o as [p e|p e|p|p k]; [by apply or_step_add| | |]; cbn [or_step].
  - apply or_inv_update; try done; unfold state_of; rewrite orset_remove_run; destruct (contains _ e); simpl;
      try apply Hw; try lia.
    + intros e' t Ht. exists (set_of w p). by split.
    + intros e' t Ht. exists (set_of w p). by split.
    + intros t [Ht|Ht]%elem_of_union; exists (set_of w p); eauto.
    + intros t Ht. exists (set_of w p). eauto.
  - assert (Hk : ∀ s, known (mk_sets (set_of w) (sent_sets w ++ [set_of w p])) s → known w s).
    { intros s [[q ->]|[Hs| ->%list_elem_of_singleton]%elem_of_app]; [left; eauto|by right|left; eauto]. }
    destruct Hw as [H1 H2 H3 H4]. split; simpl; eauto.
  - destruct (sent_sets w !! k) as [o|] eqn:Ho; [|done].
    assert (Hk : known w o) by (right; by eapply list_elem_of_lookup_2).
    destruct (merge_spec o (set_of w p)) as (_ & M1 & M2 & M3 & M4).
    apply or_inv_update; try done.
    + rewrite M1. apply Hw.
    + rewrite M4. lia.
    + intros e t. rewrite M2. intros [Ht|Ht]%elem_of_union; eauto.
    + intros t. rewrite M3. intros [Ht|Ht]%elem_of_union; eauto.
Qed.

Lemma or_inv_init : or_inv sets0.
Proof.
  split; simpl; [done|..].
  - intros s e n k [[p ->]|[]%elem_of_nil] []%not_elem_of_empty.
  - intros s n k [[p ->]|[]%elem_of_nil] []%not_elem_of_empty.
  - intros s s' e e' t [[p ->]|[]%elem_of_nil] _ []%not_elem_of_empty.
Qed.

(** A remove of the element by a replica that has seen the tag. *)
Definition observes (t : string * Z) (e : string) (o : or_op) (w : sets) : bool :=
  match o with
  | Remove q e' => bool_decide (e' = e) && bool_decide (t ∈ tags (set_of w q) e)
  | _ => false
  end.

Fixpoint never_observed (t : string * Z) (e : string) (ops : list or_op) (w : sets) : bool :=
  match ops with
  | [] => true
  | o :: ops' => negb (observes t e o w) && never_observed t e ops' (or_step o w)
  end.

(** The tag is out for the element and no remove has reached it. *)
Record tag_live (t : string * Z) (e : string) (w : sets) : Prop := {
  live_inv : or_inv w;
  live_tag : ∃ s, known w s ∧ t ∈ tags s e;
  live_removes s : known w s → t ∉ removes s }.

Lemma tags_grow o w p e : tags (set_of w p) e ⊆ tags (set_of (or_step o w) p) e.
Proof.
  destruct o as [q e'|q e'|q|q k]; simpl; [| |done|].
  - unfold state_of. case_bool_decide; [subst q|done]. rewrite orset_add_run. cbn [fst].
    rewrite tags_insert. case_decide; [subst; apply union_subseteq_l|done].
  - unfold state_of. case_bool_decide; [subst q|done]. rewrite orset_remove_run.
    by destruct (contains (set_of w p) e').
  - destruct (sent_sets w !! k) as [s|]; [|done]. simpl. case_bool_decide; [subst q|done].
    destruct (merge_spec s (set_of w p)) as (_ & _ & -> & _). apply union_subseteq_l.
Qed.

Lemma removes_grow o w p : removes (set_of w p) ⊆ removes (set_of (or_step o w) p).
Proof.
  destruct o as [q e'|q e'|q|q k]; simpl; [| |done|].
  - unfold state_of. case_bool_decide; [subst q|done]. by rewrite orset_add_run.
  - unfold state_of. case_bool_decide; [subst q|done]. rewrite orset_remove_run.
    destruct (contains (set_of w p) e'); [apply union_subseteq_l|done].
  - destruct (sent_sets w !! k) as [s|]; [|done]. simpl. case_bool_decide; [subst q|done].
    destruct (merge_spec s (set_of w p)) as (_ & _ & _ & -> & _). apply union_subseteq_l.
Qed.

Lemma tags_grow_run ops w p e : tags (set_of w p) e ⊆ tags (set_of (run or_step ops w) p) e.
Proof.
  revert w. induction ops as [|o ops IH]; intros w; [done|].
  etrans; [apply (tags_grow o)|apply IH].
Qed.
Lemma removes_grow_run ops w p : removes (set_of w p) ⊆ removes (set_of (run or_step ops w) p).
Proof.
  revert w. induction ops as [|o ops IH]; intros w; [done|].
  etrans; [apply (removes_grow o)|apply IH].
Qed.

Lemma tag_live_step t e o w :
  tag_live t e w → observes t e o w = false → tag_live t e (or_step o w).
Proof.
  intros [Hw (s0 & Hs0 & Ht0) Hr] Hobs. split; [by apply or_step_inv| |].
  - destruct Hs0 as [[p ->]|Hs0].
    + exists (set_of (or_step o w) p). split; [apply known_replica|]. by apply tags_grow.
    + exists s0. split; [right|done]. destruct o as [| |p|p k]; simpl; try done.
      * apply elem_of_app. by left.
      * by destruct (sent_sets w !! k).
  - assert (Hrep : ∀ p, t ∉ removes (set_of w p)) by (intros; apply Hr; auto).
    destruct o as [p e'|p e'|p|p k]; cbn [or_step].
    + intros s [->|Hs]%known_update; [|by apply Hr]. unfold state_of. rewrite orset_add_run. apply Hrep.
    + intros s [->|Hs]%known_update; [|by apply Hr]. unfold state_of. rewrite orset_remove_run.
      destruct (contains (set_of w p) e'); [|apply Hrep]. simpl. intros [Ht|Ht]%elem_of_union; [by eapply Hrep|].
      assert (e' = e) as -> by (eapply (or_unique _ Hw _ _ _ _ t (known_replica w p) Hs0 Ht Ht0)).
      simpl in Hobs. rewrite !bool_decide_eq_true_2 in Hobs by done. done.
    + intros s [[q ->]|[Hs| ->%list_elem_of_singleton]%elem_of_app]; [apply Hrep|by apply Hr; right|apply Hrep].
    + destruct (sent_sets w !! k) as [o|] eqn:Ho; [|done].
      intros s [->|Hs]%known_update; [|by apply Hr].
      destruct (merge_spec o (set_of w p)) as (_ & _ & _ & -> & _).
      intros [?|Ht]%elem_of_union; [by eapply Hrep|]. eapply Hr, Ht. right. by eapply list_elem_of_lookup_2.
Qed.

Lemma tag_live_run t e ops w :
  tag_live t e w → never_observed t e ops w = true → tag_live t e (run or_step ops w).
Proof.
  revert w. induction ops as [|o ops IH]; intros w Hw; [done|]. cbn [never_observed].
  rewrite andb_true_iff, negb_true_iff. intros [H1 H2]. apply IH; [by apply tag_live_step|done].
Qed.

Lemma tag_live_add p e w (t := (p, next_tag (set_of w p))) :
  or_inv w → tag_live t e (or_step (Add p e) w) ∧ t ∈ tags (set_of (or_step (Add p e) w) p) e.
Proof.
  intros Hw. pose proof (or_step_inv (Add p e) w Hw) as Hw'.
  assert (Hin : t ∈ tags (set_of (or_step (Add p e) w) p) e).
  { simpl. unfold state_of. rewrite bool_decide_eq_true_2, orset_add_run by done. cbn [fst].
    rewrite tags_insert, decide_True by done. rewrite (or_node _ Hw p).
    apply elem_of_union_r, elem_of_singleton. done. }
  split; [|done]. split; [done|eauto|]. cbn [or_step].
  assert (Hfresh : ∀ s, known w s → t ∉ removes s).
  { intros s Hs Ht. pose proof (or_fresh_removed _ Hw _ _ _ Hs Ht). lia. }
  intros s [->|Hs]%known_update; [|by apply Hfresh].
  unfold state_of. rewrite orset_add_run. exact (Hfresh _ (known_replica w p)).
Qed.

(** C19 (safety): The observed-remove set: adds win over concurrent removes. Take any reachable state
    of replicas (distinct node ids) that add, remove and merge any earlier snapshot, lost, repeated
    or stale. (1) After a replica adds an element, and after any further operations among which no
    remove of the element runs at a replica that has received this add, every replica that has
    received it, the adding one included, contains the element: a concurrent remove takes nothing
    away. (2) A [remove] of an element that is present makes it absent, and whatever happens later,
    that replica contains it again only by an add that the remove had not observed; [remove] of an
    absent element raises [Invalid] and changes nothing. (3) Two replicas that merge each other, in
    either order, hold the same elements. *)
Theorem orset_add_wins ops p e ops'
    (w := run or_step ops sets0) (w1 := or_step (Add p e) w) (w2 := run or_step ops' w1)
    (t := (p, next_tag (set_of w p))) (s := set_of w p)
    (w3 := run or_step ops' (or_step (Remove p e) w)) (a b : ORSet.t) :
  (never_observed t e ops' w1 = true →
    contains (set_of w2 p) e = true
    ∧ ∀ q, t ∈ tags (set_of w2 q) e → contains (set_of w2 q) e = true)
  ∧ (contains s e = true → contains (state_of (ORSet.remove e) s) e = false
      ∧ (contains (set_of w3 p) e = true → ∃ t', t' ∈ tags (set_of w3 p) e ∧ t' ∉ tags s e))
  ∧ (contains s e = false → ORSet.remove e s = (s, Err Invalid))
  ∧ (∀ e', contains (state_of (ORSet.merge b) a) e' = contains (state_of (ORSet.merge a) b) e').
Proof.
  assert (Hw : or_inv w) by (apply run_invariant; [apply or_step_inv|apply or_inv_init]).
  split_and!.
  - intros Hno. destruct (tag_live_add p e w Hw) as [Hlive Hin]. fold t w1 in Hlive, Hin.
    apply (tag_live_run _ _ _ _ Hlive) in Hno as [_ _ Hr]. fold w2 in Hr.
    assert (Hall : ∀ q, t ∈ tags (set_of w2 q) e → contains (set_of w2 q) e = true).
    { intros q Hq. apply contains_spec. exists t. split; [done|apply Hr, known_replica]. }
    split; [|exact Hall]. apply Hall. by apply (tags_grow_run ops' w1 p e).
  - intros Hc. split.
    + unfold state_of. rewrite orset_remove_run, Hc. apply not_true_iff_false.
      intros (t' & H1 & H2)%contains_spec. apply H2. simpl. by apply elem_of_union_r.
    + intros (t' & H1 & H2)%contains_spec. exists t'. split; [done|]. intros Hin. apply H2.
      apply removes_grow_run. simpl. rewrite bool_decide_eq_true_2 by done.
      unfold state_of. rewrite orset_remove_run. fold s. rewrite Hc. by apply elem_of_union_r.
  - intros Hc. by rewrite orset_remove_run, Hc.
  - intros e'. destruct (merge_spec a b) as (_ & _ & Ha1 & Ha2 & _).
    destruct (merge_spec b a) as (_ & _ & Hb1 & Hb2 & _).
    unfold contains. rewrite Ha1, Ha2, Hb1, Hb2.
    rewrite (union_comm_L (tags a e')), (union_comm_L (removes a)). done.
Qed.

Lemma orset_add_wins_witness :
  let ops := [Add "a" "x"; SnapshotSet "a"; DeliverSet "b" 0] in
  let ops' := [Remove "b" "x"; SnapshotSet "b"; DeliverSet "a" 1; SnapshotSet "a"; DeliverSet "b" 2] in
  let w2 := run or_step ops' (or_step (Add "a" "x") (run or_step ops sets0)) in
  contains (set_of w2 "a") "x" = true ∧ contains (set_of w2 "b") "x" = true.
Proof.
  intros ops ops' w2.
  destruct (orset_add_wins ops "a" "x" ops' (ORSet.init "a") (ORSet.init "b")) as (H & _).
  destruct H as [H1 H2]; [vm_compute; reflexivity|].
  split; [exact H1|apply H2]. apply (bool_decide_unpack _). vm_compute. exact I.
Defined.
End orset.

Section lww.
Import LwwRegister.

Definition stamp (r : LwwRegister.t) : Z * Z := (timestamp r, node_id r).
(** A set of registers in which a stamp determines the value. *)
Definition one_value_per_stamp (l : list LwwRegister.t) : Prop :=
  ∀ r r', r ∈ l → r' ∈ l → stamp r = stamp r' → r = r'.

Definition merge_all (l : list LwwRegister.t) (r : LwwRegister.t) : LwwRegister.t :=
  foldl (λ r o, state_of (LwwRegister.merge o) r) r l.

Lemma lww_merge_run o r : LwwRegister.merge o r = if newer o r then (o, Ok true) else (r, Ok false).
Proof. unfold LwwRegister.merge. rewrite bind_get. destruct o. by destruct (newer _ r). Qed.

Lemma newer_trans a b c : newer a b = true → newer c b = false → newer a c = true.
Proof.
  unfold newer. rewrite !orb_true_iff, !andb_true_iff, !orb_false_iff, !andb_false_iff,
    !Z.ltb_lt, !Z.ltb_ge, !Z.eqb_eq, !Z.eqb_neq. lia.
Qed.
Lemma newer_irrefl a : newer a a = false.
Proof. unfold newer. rewrite !Z.ltb_irrefl. by rewrite andb_false_r. Qed.
Lemma newer_neither a b : newer a b = false → newer b a = false → stamp a = stamp b.
Proof.
  unfold newer, stamp. rewrite !orb_false_iff, !andb_false_iff, !Z.ltb_ge, !Z.eqb_neq.
  intros H1 H2. f_equal; lia.
Qed.

(** The register ends at one of the states it saw, which none of them is newer than. *)
Lemma merge_all_max l r :
  merge_all l r ∈ r :: l ∧ ∀ o, o ∈ r :: l → newer o (merge_all l r) = false.
Proof.
  unfold merge_all. induction l as [|x l IH] using rev_ind.
  - split; [left|]. intros o [->|[]%elem_of_nil]%elem_of_cons. apply newer_irrefl.
  - rewrite foldl_app. cbn [foldl]. set (m := foldl _ r l) in *. destruct IH as [Hin Hmax].
    unfold state_of. rewrite lww_merge_run. destruct (newer x m) eqn:Hn; cbn [fst].
    + split; [right; apply elem_of_app; right; left|].
      intros o Ho. rewrite app_comm_cons in Ho.
      apply elem_of_app in Ho as [Ho| ->%list_elem_of_singleton]; [|apply newer_irrefl].
      apply not_true_iff_false. intros H. specialize (Hmax _ Ho).
      pose proof (newer_trans _ _ _ Hn Hmax) as H'. 
      revert H H'. unfold newer. rewrite !orb_true_iff, !andb_true_iff, !Z.ltb_lt, !Z.eqb_eq. lia.
    + split; [rewrite app_comm_cons; apply elem_of_app; by left|].
      intros o Ho. rewrite app_comm_cons in Ho.
      by apply elem_of_app in Ho as [Ho| ->%list_elem_of_singleton]; [apply Hmax|].
Qed.

(** Also (functional): Last-writer-wins registers converge to the newest write. A [write] is refused
    with [Invalid], and changes nothing, exactly when it is older than the register. When no two of
    the written states carry the same (timestamp, node) pair with different values, a replica that
    merges them, in any order and with any repetition, holds exactly the one with the greatest
    (timestamp, node) pair, so any two replicas that have seen the same states agree; [merge] answers
    whether it changed the register. Without that condition they need not converge: a node may
    [write] two values at one timestamp, and of two registers with equal pairs neither takes the
    other's value, which [would_drop_concurrent] does not report. *)
Theorem lww_converges l1 l2 r1 r2 (Hl : ∀ r, r ∈ r1 :: l1 ↔ r ∈ r2 :: l2)
    (Hone : one_value_per_stamp (r1 :: l1)) v ts n (r r' : LwwRegister.t) :
  merge_all l1 r1 = merge_all l2 r2
  ∧ merge_all l1 r1 ∈ r1 :: l1
  ∧ (∀ o, o ∈ r1 :: l1 → newer o (merge_all l1 r1) = false)
  ∧ LwwRegister.merge r' r = (if newer r' r then (r', Ok true) else (r, Ok false))
  ∧ LwwRegister.write v ts n r
    = (if ts <? timestamp r then (r, Err Invalid) else (LwwRegister.mk v ts n, Ok ()))
  ∧ (stamp r = stamp r' → state_of (LwwRegister.merge r') r = r ∧ would_drop_concurrent r r' = false).
Proof.
  destruct (merge_all_max l1 r1) as [H1 M1]. destruct (merge_all_max l2 r2) as [H2 M2].
  split_and!; [|done..|by rewrite lww_merge_run| |].
  - apply Hone; [done|by apply Hl|]. apply newer_neither; [by apply M2, Hl|by apply M1, Hl].
  - unfold LwwRegister.write. rewrite bind_get, bind_raise_if, run_put. done.
  - intros [= Ht Hn]. unfold state_of. rewrite lww_merge_run. unfold newer, would_drop_concurrent.
    rewrite Ht, Hn, !Z.ltb_irrefl, !Z.eqb_refl. simpl. split; [done|]. by rewrite andb_false_r.
Qed.

Lemma lww_converges_witness :
  let a := LwwRegister.mk "x" 4 1 in
  let b := LwwRegister.mk "y" 4 2 in
  merge_all [b; b; a] a = merge_all [a] b.
Proof.
  intros a b. refine (proj1 (lww_converges [b; b; a] [a] a b _ _ "" 0 0 a b)).
  - intros r. rewrite !elem_of_cons, elem_of_nil. clear. tauto.
  - subst a b. intros r r' Hr Hr'. rewrite !elem_of_cons, elem_of_nil in Hr, Hr'.
    destruct Hr as [->|[->|[->|[->|[]]]]], Hr' as [->|[->|[->|[->|[]]]]];
      first [done|intros H; vm_compute in H; congruence].
Defined.

(** Two values at one (timestamp, node) pair: both writes are accepted, and the two
    registers keep different values however often they merge each other. *)
Lemma equal_stamps_diverge :
  let a := state_of (LwwRegister.write "x" 5 1) LwwRegister.init in
  let b := state_of (LwwRegister.write "y" 5 1) a in
  value_of (LwwRegister.write "y" 5 1) a = Ok ()
  ∧ state_of (LwwRegister.merge b) a = a ∧ state_of (LwwRegister.merge a) b = b ∧ value a ≠ value b.
Proof. vm_compute. done. Qed.
End lww.
