(* ===== verification/Requests.v ===== *)
(** * Requests and records that wait

    [relay/purgatory.py] parks requests until progress or a deadline frees them,
    [relay/causaldelivery.py] holds messages until their causes are delivered,
    [relay/dedupstore.py] remembers what was processed, [relay/deadletter.py] sets
    aside what keeps failing and [relay/outbox.py] publishes rows in order. *)

From S2P Require Import Prelude PyDict.

Module Purgatory.
Module DelayedRequest.
(** [relay/purgatory.py] class DelayedRequest *)
Record t := mk {
  request_id : string;
  threshold : Z;
  deadline : Z;
  completed : bool;
  outcome : string }.
End DelayedRequest.
Import DelayedRequest.

(** [relay/purgatory.py] class Purgatory *)
Record t := mk {
  requests : pydict string (list DelayedRequest.t);
  completed_by_event : Z;
  completed_by_timeout : Z }.

Definition init : t := mk [] 0 0.

(** [relay/purgatory.py] Purgatory.park *)
Definition park (key request_id : string) (threshold deadline : Z) : act t string :=
  raise_if (deadline <? 1) Invalid;;
  modify (λ p, mk (d_set (requests p) key
    (d_getd (requests p) key [] ++ [DelayedRequest.mk request_id threshold deadline false ""]))
    (completed_by_event p) (completed_by_timeout p));;
  mret (request_id +:+ " parked on " +:+ key +:+ " at threshold " +:+ zs threshold).

(** One pass of a loop over requests: those the condition frees are completed in
    place with the outcome, and their ids collected.  Both loops have this body. *)
(** [relay/purgatory.py:69-74] Purgatory.on_progress: the loop, which on_tick repeats per key *)
Fixpoint sweep (ready : DelayedRequest.t → bool) (result : string) (l : list DelayedRequest.t)
    : list DelayedRequest.t * list string :=
  match l with
  | [] => ([], [])
  | r :: l' =>
      let '(l'', ids) := sweep ready result l' in
      if negb (completed r) && ready r then
        (DelayedRequest.mk (request_id r) (threshold r) (deadline r) true result :: l'',
         request_id r :: ids)
      else (r :: l'', ids)
  end.

(** [relay/purgatory.py] Purgatory._reap *)
Definition reap (key : string) : act t unit :=
  modify (λ p, mk (d_set (requests p) key
    (filter (λ r, completed r = false) (d_getd (requests p) key [])))
    (completed_by_event p) (completed_by_timeout p));;
  modify (λ p, mk
    (if bool_decide (d_getd (requests p) key [] = []) then d_del (requests p) key else requests p)
    (completed_by_event p) (completed_by_timeout p)).

(** [relay/purgatory.py] Purgatory.on_progress *)
Definition on_progress (key : string) (value : Z) : act t (list string) :=
  p ← get;
  let '(l, completed) := sweep (λ r, threshold r <=? value) "satisfied" (d_getd (requests p) key []) in
  put (mk (if d_mem (requests p) key then d_set (requests p) key l else requests p)
          (completed_by_event p + zlen completed) (completed_by_timeout p));;
  reap key;;
  mret (py_sorted String.le completed).

(** [relay/purgatory.py] Purgatory.on_tick *)
Definition on_tick (now : Z) : act t (list string) :=
  p ← get;
  let swept := (λ kl, (kl.1, sweep (λ r, deadline r <=? now) "timeout" kl.2)) <$> requests p in
  let timed_out := concat ((λ s, s.2.2) <$> swept) in
  put (mk ((λ s, (s.1, s.2.1)) <$> swept)
          (completed_by_event p) (completed_by_timeout p + zlen timed_out));;
  for_each (d_keys (requests p)) reap;;
  mret (py_sorted String.le timed_out).

(** [relay/purgatory.py] Purgatory.pending *)
Definition pending (p : t) : Z := zsum zlen (d_values (requests p)).

(** [relay/purgatory.py] Purgatory.report *)
Definition report (p : t) : string :=
  zs (completed_by_event p) +:+ " completed by event, "
  +:+ zs (completed_by_timeout p) +:+ " by timeout, "
  +:+ zs (pending p) +:+ " pending; a purgatory that mostly "
  +:+ "times out has unmet conditions, not slow ones".
End Purgatory.

Module CausalDelivery.
(** The buffer is a dictionary in insertion order, which the cascade follows. *)
(** [relay/causaldelivery.py] class CausalDelivery *)
Record t := mk { delivered : gset string; buffer : pydict string (gset string) }.

Definition init : t := mk ∅ [].

(** [relay/causaldelivery.py] CausalDelivery._deliverable *)
Definition deliverable (self : t) (deps : gset string) : bool := bool_decide (deps ⊆ delivered self).

(** [for msg, deps in list(self.buffer.items())]: one pass over a snapshot of the
    buffer, returning what it released *)
(** [relay/causaldelivery.py:59-64] CausalDelivery._deliver: one pass of the inner loop *)
Fixpoint release_pass (items : pydict string (gset string)) (self : t) : t * list string :=
  match items with
  | [] => (self, [])
  | (msg, deps) :: items' =>
      if deliverable self deps then
        let '(self', released) :=
          release_pass items' (mk (delivered self ∪ {[msg]}) (d_del (buffer self) msg)) in
        (self', msg :: released)
      else release_pass items' self
  end.

(** [while changed]: until a pass releases nothing; [None] when the fuel runs out *)
(** [relay/causaldelivery.py:57-64] CausalDelivery._deliver: the outer loop *)
Fixpoint release_all (fuel : nat) (self : t) (released : list string) : option (t * list string) :=
  match fuel with
  | O => None
  | S fuel =>
      let '(self', more) := release_pass (buffer self) self in
      match more with
      | [] => Some (self', released)
      | _ => release_all fuel self' (released ++ more)
      end
  end.

(** [relay/causaldelivery.py] CausalDelivery._deliver *)
Definition deliver (fuel : nat) (message : string) (self : t) : option (t * list string) :=
  release_all fuel (mk (delivered self ∪ {[message]}) (buffer self)) [message].

(** [relay/causaldelivery.py] CausalDelivery.accept *)
Definition accept (fuel : nat) (message : string) (deps : gset string) (self : t)
    : option (t * list string) :=
  if deliverable self deps then deliver fuel message self
  else Some (mk (delivered self) (d_set (buffer self) message deps), []).

(** [relay/causaldelivery.py] CausalDelivery.force_deliver *)
Definition force_deliver (message : string) (deps : gset string) : act t unit :=
  self ← get; raise_if (negb (deliverable self deps)) Invalid.

(** [relay/causaldelivery.py] CausalDelivery.buffered_note *)
Definition buffered_note (self : t) : string :=
  zs (zlen (buffer self)) +:+ " message(s) buffered awaiting dependencies; a growing buffer "
  +:+ "is a receiver waiting on a lost dependency, a stuck causal chain "
  +:+ "not a transient reorder".
End CausalDelivery.

Module DedupStore.
(** [relay/dedupstore.py] class DedupStore *)
Record t := mk { window : Z; seen : gmap string Z; processed_again : Z }.

(** [relay/dedupstore.py] DedupStore.__post_init__ *)
Definition make (window : Z) : result t :=
  if window <? 1 then Err Invalid else Ok (mk window ∅ 0).

(** [relay/dedupstore.py] DedupStore._expire *)
Definition expire (now : Z) : act t unit :=
  modify (λ s, mk (window s) (filter (λ kt, now - kt.2 < window s) (seen s)) (processed_again s)).

(** [relay/dedupstore.py] DedupStore.process *)
Definition process (key : string) (now : Z) : act t string :=
  expire now;;
  s ← get;
  match seen s !! key with
  | Some t => mret ("duplicate '" +:+ key +:+ "' dropped, seen at " +:+ zs t)
  | None =>
      put (mk (window s) (<[key := now]> (seen s)) (processed_again s));;
      mret ("processed '" +:+ key +:+ "' for the first time")
  end.

(** [relay/dedupstore.py] DedupStore.note_missed_duplicate *)
Definition note_missed_duplicate : act t unit :=
  modify (λ s, mk (window s) (seen s) (processed_again s + 1)).

(** [relay/dedupstore.py] DedupStore.report *)
Definition report (now : Z) : act t string :=
  expire now;;
  s ← get;
  mret (zs (Z.of_nat (size (seen s))) +:+ " key(s) remembered over a window of "
    +:+ zs (window s) +:+ "; " +:+ zs (processed_again s) +:+ " duplicate(s) arrived "
    +:+ "after their key expired and were processed again, a rising "
    +:+ "count meaning the window is shorter than the duplicate delay").
End DedupStore.

Module DeadLetters.
Notation key := (string * Z * Z)%type (only parsing).

Module DeadLetter.
(** [relay/deadletter.py] class DeadLetter *)
Record t := mk {
  source_topic : string;
  source_partition : Z;
  source_offset : Z;
  attempts : Z;
  reason : string }.
End DeadLetter.

(** [relay/deadletter.py] class RetryTracker *)
Record t := mk { max_attempts : Z; attempts : gmap key Z; dead_letters : list DeadLetter.t }.

(** [relay/deadletter.py] RetryTracker.__post_init__ *)
Definition make (max_attempts : Z) : result t :=
  if max_attempts <? 1 then Err Invalid else Ok (mk max_attempts ∅ []).

(** [relay/deadletter.py] RetryTracker.record_failure *)
Definition record_failure (topic : string) (partition offset : Z) (reason : string) : act t string :=
  s ← get;
  let key := (topic, partition, offset) in
  let count := default 0 (attempts s !! key) + 1 in
  modify (λ s, mk (max_attempts s) (<[key := count]> (attempts s)) (dead_letters s));;
  if max_attempts s <=? count then
    modify (λ s, mk (max_attempts s) (attempts s)
      (dead_letters s ++ [DeadLetter.mk topic partition offset count reason]));;
    modify (λ s, mk (max_attempts s) (delete key (attempts s)) (dead_letters s));;
    mret ("offset " +:+ zs offset +:+ " dead-lettered after " +:+ zs count +:+ " "
      +:+ "attempt(s): " +:+ reason +:+ "; the partition advances "
      +:+ "and the failure is a ticket, not an outage")
  else
    mret ("offset " +:+ zs offset +:+ " failed attempt " +:+ zs count +:+ " of "
      +:+ zs (max_attempts s) +:+ ": " +:+ reason +:+ "; will retry").

(** [relay/deadletter.py] RetryTracker.record_success *)
Definition record_success (topic : string) (partition offset : Z) : act t unit :=
  modify (λ s, mk (max_attempts s) (delete (topic, partition, offset) (attempts s)) (dead_letters s)).

(** [self.dead_letters.pop(index)] *)
(** [relay/deadletter.py] RetryTracker.replay *)
Definition replay (index : Z) : act t DeadLetter.t :=
  s ← get;
  raise_if (negb ((0 <=? index) && (index <? zlen (dead_letters s)))) Invalid;;
  letter ← pure_of (py_index (dead_letters s) index);
  put (mk (max_attempts s) (attempts s) (delete (Z.to_nat index) (dead_letters s)));;
  mret letter.

(** [relay/deadletter.py:98-102] RetryTracker.report: the count of each reason *)
Definition by_reason (letters : list DeadLetter.t) : pydict string Z :=
  foldl (λ d l, d_set d (DeadLetter.reason l) (d_getd d (DeadLetter.reason l) 0 + 1)) [] letters.

(** [relay/deadletter.py:108-108] RetryTracker.report: the sort key *)
Definition more_frequent (a b : string * Z) : Prop := - a.2 <= - b.2.
#[export] Instance more_frequent_dec : RelDecision more_frequent := λ a b, Z_le_dec (- a.2) (- b.2).

(** [relay/deadletter.py:103-111] RetryTracker.report: the lines, most frequent reason first *)
Definition report (s : t) : string :=
  if bool_decide (dead_letters s = []) then "no dead letters; every record found a home"
  else
    let by_reason := by_reason (dead_letters s) in
    let ordered := py_sorted more_frequent by_reason in
    zs (zlen (dead_letters s)) +:+ " dead letter(s), a work "
    +:+ "queue because each carries its provenance:"
    +:+ foldr (λ p rest, String (Ascii.ascii_of_nat 10) ("  " +:+ zs p.2 +:+ "x " +:+ p.1) +:+ rest) "" ordered.
End DeadLetters.

Module OutboxRelay.
(** [relay/outbox.py] class OutboxRelay *)
Record t := mk { rows : list (Z * string); published : gset Z }.

Definition init : t := mk [] ∅.

(** [relay/outbox.py] OutboxRelay.enqueue *)
Definition enqueue (row_id : Z) (payload : string) : act t unit :=
  modify (λ o, mk (rows o ++ [(row_id, payload)]) (published o)).

(** [relay/outbox.py] OutboxRelay.unpublished *)
Definition unpublished (o : t) : list (Z * string) := filter (λ r, r.1 ∉ published o) (rows o).

(** [relay/outbox.py] OutboxRelay.publish_next *)
Definition publish_next (broker_acked : bool) : act t string :=
  o ← get;
  match unpublished o with
  | [] => mret "nothing to publish; the outbox is drained"
  | (row_id, payload) :: _ =>
      raise_if (negb broker_acked) Invalid;;
      put (mk (rows o) (published o ∪ {[row_id]}));;
      mret ("published row " +:+ zs row_id +:+ " ('" +:+ payload +:+ "') in order, then marked it")
  end.

(** [relay/outbox.py] OutboxRelay.mark_published *)
Definition mark_published (row_id : Z) : act t unit :=
  o ← get;
  raise_if (bool_decide (row_id ∈ published o)) Invalid;;
  put (mk (rows o) (published o ∪ {[row_id]})).

(** [relay/outbox.py] OutboxRelay.backlog *)
Definition backlog (o : t) : string :=
  zs (zlen (unpublished o)) +:+ " unpublished outbox row(s); a growing backlog is a stalled "
  +:+ "relay while the business kept writing, an invisible event lag".
End OutboxRelay.

(** ** Proofs *)

Section purgatory.
Import Purgatory DelayedRequest.

Abbreviation waiting p k := (d_getd (requests p) k []) (only parsing).
Definition ids (l : list DelayedRequest.t) : list string := request_id <$> l.
Definition pending_ids (p : Purgatory.t) : list string := d_values (requests p) ≫= ids.

(** Nothing completed stays in the table. *)
Record pg_ok (p : Purgatory.t) : Prop := {
  ok_wf : d_wf (requests p);
  ok_open k r : r ∈ waiting p k → completed r = false }.

Lemma sweep_spec ready out l :
  (∀ r, r ∈ l → completed r = false) →
  (sweep ready out l).2 = ids (filter (λ r, ready r = true) l)
  ∧ filter (λ r, completed r = false) (sweep ready out l).1 = filter (λ r, ready r = false) l.
Proof.
  induction l as [|r l IH]; intros Hopen; [done|]. cbn [sweep].
  destruct IH as [IH1 IH2]; [intros; apply Hopen; by right|].
  destruct (sweep ready out l) as [l'' done_ids]. rewrite (Hopen r) by left. simpl in *.
  rewrite !filter_cons. destruct (ready r) eqn:Hr; simpl; rewrite ?filter_cons; simpl;
    rewrite ?(Hopen r) by left; simpl; split; congruence.
Qed.

(** [reap] keeps what is not completed, and no empty list. *)
Lemma reap_spec key p : d_wf (requests p) →
  value_of (reap key) p = Ok ()
  ∧ d_wf (requests (state_of (reap key) p))
  ∧ completed_by_event (state_of (reap key) p) = completed_by_event p
  ∧ completed_by_timeout (state_of (reap key) p) = completed_by_timeout p
  ∧ ∀ k, waiting (state_of (reap key) p) k
         = if bool_decide (k = key) then filter (λ r, completed r = false) (waiting p key)
           else waiting p k.
Proof.
  intros Hwf. unfold reap, value_of, state_of. rewrite bind_modify, run_modify.
  cbn [fst snd requests completed_by_event completed_by_timeout].
  rewrite d_getd_set, (bool_decide_eq_true_2 (key = key)) by done.
  set (l := filter _ _). split_and!; [done| |done|done|].
  - case_bool_decide; [apply d_wf_del|]; by apply d_wf_set.
  - intros k. unfold d_getd at 1. destruct (bool_decide (l = [])) eqn:Hl.
    + rewrite d_get_del, d_get_set. apply bool_decide_eq_true in Hl.
      case_bool_decide; [by rewrite Hl|done].
    + rewrite d_get_set. clear Hl. by case_bool_decide.
Qed.

Lemma reap_all_spec keys p : d_wf (requests p) →
  value_of (for_each keys reap) p = Ok ()
  ∧ d_wf (requests (state_of (for_each keys reap) p))
  ∧ completed_by_event (state_of (for_each keys reap) p) = completed_by_event p
  ∧ completed_by_timeout (state_of (for_each keys reap) p) = completed_by_timeout p
  ∧ ∀ k, waiting (state_of (for_each keys reap) p) k
         = if bool_decide (k ∈ keys) then filter (λ r, completed r = false) (waiting p k)
           else waiting p k.
Proof.
  revert p. induction keys as [|key keys IH]; intros p Hwf.
  { split_and!; try done. }
  destruct (reap_spec key p Hwf) as (Hv & Hwf1 & He1 & Ht1 & Hw1).
  destruct (IH _ Hwf1) as (Hv2 & Hwf2 & He2 & Ht2 & Hw2).
  assert (Hrun : for_each (key :: keys) reap p = for_each keys reap (state_of (reap key) p)).
  { cbn [for_each]. rewrite bind_run. unfold state_of, value_of in *.
    destruct (reap key p) as [p1 [[]|]]; [done|]. discriminate Hv. }
  unfold value_of, state_of in *. rewrite Hrun. split_and!; try congruence.
  intros k. rewrite Hw2, Hw1. destruct (decide (k = key)) as [->|Hne].
  - rewrite !(bool_decide_eq_true_2 (key = key)), (bool_decide_eq_true_2 (key ∈ key :: keys)) by (done || left).
    case_bool_decide; [|done]. rewrite list_filter_filter. apply list_filter_iff. naive_solver.
  - rewrite (bool_decide_eq_false_2 (k = key)) by done.
    rewrite (bool_decide_ext (k ∈ key :: keys) (k ∈ keys)); [done|]. rewrite elem_of_cons. naive_solver.
Qed.

Lemma bind_filter_nonempty {A B} (f : A → list B) l :
  (filter (λ x, length (f x) ≠ 0%nat) l) ≫= f = l ≫= f.
Proof.
  induction l as [|x l IH]; [done|]. rewrite filter_cons.
  case_decide as H; rewrite ?bind_cons, IH; [done|]. by destruct (f x).
Qed.

Lemma bind_support {A B} (f : A → list B) l1 l2 :
  NoDup l1 → NoDup l2 → (∀ x, f x ≠ [] → x ∈ l1 ↔ x ∈ l2) → l1 ≫= f ≡ₚ l2 ≫= f.
Proof.
  intros H1 H2 H. rewrite <-(bind_filter_nonempty f l1), <-(bind_filter_nonempty f l2).
  assert (filter (λ x, length (f x) ≠ 0%nat) l1 ≡ₚ filter (λ x, length (f x) ≠ 0%nat) l2) as ->; [|done].
  apply NoDup_Permutation; [by apply NoDup_filter..|].
  intros x. rewrite !list_elem_of_filter. specialize (H x). destruct (f x); simpl; naive_solver.
Qed.

Lemma bind_perm_app {A B} (f g h : A → list B) l :
  (∀ x, f x ≡ₚ g x ++ h x) → l ≫= f ≡ₚ (l ≫= g) ++ (l ≫= h).
Proof.
  intros H. induction l as [|x l IH]; [done|]. rewrite !bind_cons, H, IH. solve_Permutation.
Qed.

Lemma values_by_key (h : list DelayedRequest.t → list string) (g : string → list DelayedRequest.t)
    (d : pydict string (list DelayedRequest.t)) :
  (∀ k v, (k, v) ∈ d → g k = v) → d_values d ≫= h = d_keys d ≫= λ k, h (g k).
Proof.
  intros Hsub. induction d as [|[k v] d IH]; [done|].
  change (d_values ((k, v) :: d) ≫= h) with (h v ++ (d_values d ≫= h)).
  rewrite IH by (intros; apply Hsub; by right). rewrite <-(Hsub k v) by left. done.
Qed.

Lemma pending_ids_keys (d : pydict string (list DelayedRequest.t)) ks : d_wf d → NoDup ks → (∀ k, d_getd d k [] ≠ [] → k ∈ ks) →
  d_values d ≫= ids ≡ₚ ks ≫= λ k, ids (d_getd d k []).
Proof.
  intros Hwf Hnd Hks.
  assert (d_values d ≫= ids = d_keys d ≫= λ k, ids (d_getd d k [])) as ->.
  { apply values_by_key. intros k v Hin. unfold d_getd. by rewrite (d_elem_of_get _ _ _ Hwf Hin). }
  apply bind_support; [done..|]. intros k Hk. split; intros _.
  - apply Hks. intros E. apply Hk. by rewrite E.
  - apply d_get_is_Some. unfold d_getd in Hk. destruct (d_get d k); [eauto|done].
Qed.

(** What a step takes out of each queue is what leaves the table. *)
Lemma pending_split p p' (ans : string → list string) :
  d_wf (requests p) → d_wf (requests p') →
  (∀ k, ids (waiting p k) ≡ₚ ans k ++ ids (waiting p' k)) →
  pending_ids p ≡ₚ (d_keys (requests p) ≫= ans) ++ pending_ids p'.
Proof.
  intros H1 H2 Hans. unfold pending_ids.
  assert (Hks : ∀ k, waiting p k ≠ [] → k ∈ d_keys (requests p)).
  { intros k Hk. apply d_get_is_Some. unfold d_getd in Hk. destruct (d_get _ k); [eauto|done]. }
  rewrite (pending_ids_keys (requests p) (d_keys (requests p))) by done.
  rewrite (pending_ids_keys (requests p') (d_keys (requests p))) by
    (try done; intros k Hk; apply Hks; intros E; specialize (Hans k); rewrite E in Hans;
     apply Permutation_nil_l, eq_sym, app_nil in Hans as [_ Hans]; by destruct (waiting p' k)).
  by apply bind_perm_app.
Qed.

Lemma filter_split_ids (f : DelayedRequest.t → bool) l :
  ids l ≡ₚ ids (filter (λ r, f r = true) l) ++ ids (filter (λ r, f r = false) l).
Proof.
  induction l as [|r l IH]; [done|]. rewrite !filter_cons. destruct (f r); simpl; rewrite IH; [done|].
  apply Permutation_middle.
Qed.

Lemma open_after p p' ready :
  pg_ok p → d_wf (requests p') →
  (∀ k, ∃ f : DelayedRequest.t → bool, waiting p' k = filter (λ r, f r = ready) (waiting p k)) →
  pg_ok p'.
Proof.
  intros Hp Hwf Hk. split; [done|]. intros k r Hr. destruct (Hk k) as [f Hf]. rewrite Hf in Hr.
  apply list_elem_of_filter in Hr as [_ Hr]. by eapply ok_open.
Qed.

Lemma on_progress_spec key v p (freed := filter (λ r, (threshold r <=? v) = true) (waiting p key))
    (p' := state_of (on_progress key v) p) : pg_ok p →
  value_of (on_progress key v) p = Ok (py_sorted String.le (ids freed))
  ∧ pg_ok p'
  ∧ completed_by_event p' = completed_by_event p + zlen freed
  ∧ completed_by_timeout p' = completed_by_timeout p
  ∧ (∀ k, waiting p' k = if bool_decide (k = key) then
            filter (λ r, (threshold r <=? v) = false) (waiting p key) else waiting p k)
  ∧ pending_ids p ≡ₚ ids freed ++ pending_ids p'.
Proof.
  intros Hp. destruct (sweep_spec (λ r, threshold r <=? v) "satisfied" (waiting p key)) as [S1 S2];
    [intros; by eapply ok_open|]. fold freed in S1.
  unfold value_of, p', state_of, on_progress. rewrite bind_get.
  destruct (sweep _ _ (waiting p key)) as [l done_ids]. cbn [fst snd] in S1, S2. subst done_ids.
  rewrite bind_put.
  set (d := if d_mem (requests p) key then d_set (requests p) key l else requests p).
  assert (Hd : d_wf d) by (unfold d; destruct (d_mem _ _); [apply d_wf_set|]; apply Hp).
  assert (Hget : ∀ k, filter (λ r, completed r = false) (d_getd d k [])
      = if bool_decide (k = key) then filter (λ r, (threshold r <=? v) = false) (waiting p key)
        else waiting p k).
  { intros k. unfold d. rewrite d_mem_get.
    assert (filter (λ r, completed r = false) (waiting p k) = waiting p k) as Hid
      by (apply list_filter_all; intros; by eapply ok_open).
    destruct (d_get (requests p) key) eqn:E; [rewrite d_getd_set|]; case_bool_decide; subst; try done.
    unfold d_getd at 1. rewrite E. simpl. unfold d_getd. by rewrite E. }
  destruct (reap_spec key (Purgatory.mk d (completed_by_event p + zlen (ids freed)) (completed_by_timeout p)) Hd)
    as (R1 & R2 & R3 & R4 & R5).
  rewrite bind_run. unfold value_of, state_of in *.
  destruct (reap key _) as [p1 [[]|]]; [|done]. cbn [fst snd requests completed_by_event completed_by_timeout] in *.
  assert (Hw : ∀ k, waiting p1 k = if bool_decide (k = key) then
            filter (λ r, (threshold r <=? v) = false) (waiting p key) else waiting p k).
  { intros k. rewrite R5. destruct (decide (k = key)) as [->|].
    - rewrite <-(Hget key). by rewrite bool_decide_eq_true_2.
    - rewrite bool_decide_eq_false_2 by done. unfold d. rewrite d_mem_get.
      destruct (d_get (requests p) key); [|done]. by rewrite d_getd_set, bool_decide_eq_false_2. }
  rewrite run_ret. cbn [fst snd]. split_and!; [done| | |done|done|].
  - apply (open_after p p1 false Hp R2). intros k. rewrite Hw. case_bool_decide; [subst; eauto|].
    exists (λ _, false). symmetry. apply list_filter_all. done.
  - rewrite R3. unfold ids, zlen. by rewrite length_fmap.
  - rewrite (pending_split p p1 (λ k, if bool_decide (k = key) then ids freed else [])) by
      (apply Hp || done || (intros k; rewrite Hw; case_bool_decide; [subst k; apply filter_split_ids|done])).
    f_equiv. rewrite (bind_support _ (d_keys (requests p)) [key]).
    + rewrite bind_singleton. by rewrite bool_decide_eq_true_2.
    + apply Hp.
    + apply NoDup_singleton.
    + intros k Hk. case_bool_decide; [subst k|done]. split; [intros; left|]. intros _.
      apply d_get_is_Some. unfold freed, d_getd in Hk. destruct (d_get (requests p) key); [eauto|done].
Qed.

Lemma d_getd_fmap_value {V W} (f : V → W) (d : pydict string V) (k : string) v :
  d_getd ((λ p, (p.1, f p.2)) <$> d) k (f v) = f (d_getd d k v).
Proof.
  unfold d_getd. induction d as [|[k' v'] d IH]; [done|]. simpl. by case_bool_decide.
Qed.

Lemma on_tick_spec now p (p' := state_of (on_tick now) p) : pg_ok p →
  ∃ expired, value_of (on_tick now) p = Ok (py_sorted String.le expired)
  ∧ pg_ok p'
  ∧ completed_by_event p' = completed_by_event p
  ∧ completed_by_timeout p' = completed_by_timeout p + zlen expired
  ∧ (∀ k, waiting p' k = filter (λ r, (deadline r <=? now) = false) (waiting p k))
  ∧ pending_ids p ≡ₚ expired ++ pending_ids p'.
Proof.
  intros Hp. set (sw := sweep (λ r, deadline r <=? now) "timeout").
  assert (Hsw : ∀ k, (sw (waiting p k)).2 = ids (filter (λ r, (deadline r <=? now) = true) (waiting p k))
      ∧ filter (λ r, completed r = false) (sw (waiting p k)).1
        = filter (λ r, (deadline r <=? now) = false) (waiting p k))
    by (intros k; apply sweep_spec; intros; by eapply ok_open).
  set (swept := (λ kl : string * list DelayedRequest.t, (kl.1, sw kl.2)) <$> requests p).
  set (d := (λ s : string * (list DelayedRequest.t * list string), (s.1, s.2.1)) <$> swept).
  set (expired := concat ((λ s : string * (list DelayedRequest.t * list string), s.2.2) <$> swept)).
  assert (Hkeys : d_keys d = d_keys (requests p)).
  { unfold d, swept, d_keys. rewrite <-!list_fmap_compose. by apply list_fmap_ext. }
  assert (Hd : d_wf d) by (unfold d_wf; rewrite Hkeys; apply Hp).
  assert (Hget : ∀ k, d_getd d k [] = (sw (waiting p k)).1).
  { intros k. etrans; [apply (d_getd_fmap_value fst swept k ([], []))|]. f_equal.
    apply (d_getd_fmap_value sw (requests p) k []). }
  assert (Hexp : expired = d_keys (requests p) ≫= λ k, (sw (waiting p k)).2).
  { pose proof (ok_wf _ Hp) as Hwf. rewrite <-(values_by_key (λ l, (sw l).2)).
    - unfold expired, swept. clear. induction (requests p) as [|[k v] r IH]; [done|].
      rewrite !fmap_cons. cbn [concat fst snd d_values]. by rewrite IH.
    - intros k v Hin. unfold d_getd. by rewrite (d_elem_of_get _ _ _ Hwf Hin). }
  assert (Hrun : on_tick now p = (state_of (for_each (d_keys (requests p)) reap)
      (Purgatory.mk d (completed_by_event p) (completed_by_timeout p + zlen expired)),
      Ok (py_sorted String.le expired))).
  { unfold on_tick. rewrite bind_get. fold sw. cbv zeta. fold swept. fold d. fold expired.
    rewrite bind_put, bind_run. unfold state_of.
    destruct (reap_all_spec (d_keys (requests p)) (Purgatory.mk d (completed_by_event p)
      (completed_by_timeout p + zlen expired)) Hd) as (R1 & _). unfold value_of in R1.
    by destruct (for_each _ _ _) as [p1 [[]|]]. }
  destruct (reap_all_spec (d_keys (requests p)) (Purgatory.mk d (completed_by_event p)
      (completed_by_timeout p + zlen expired)) Hd) as (_ & R2 & R3 & R4 & R5).
  cbn [requests completed_by_event completed_by_timeout] in R3, R4, R5.
  set (p1 := state_of (for_each _ _) _) in *. clearbody p1.
  assert (p' = p1) as -> by (unfold p', state_of; by rewrite Hrun).
  assert (Hw : ∀ k, waiting p1 k = filter (λ r, (deadline r <=? now) = false) (waiting p k)).
  { intros k. rewrite R5.
    destruct (decide (k ∈ d_keys (requests p))) as [Hin|Hni].
    - rewrite bool_decide_eq_true_2 by done. rewrite Hget. apply Hsw.
    - rewrite bool_decide_eq_false_2 by done. rewrite Hget.
      assert (waiting p k = []) as -> by (unfold d_getd; by rewrite (proj2 (d_get_None _ _) Hni)). done. }
  exists expired. unfold value_of. rewrite Hrun. split_and!; [done| |done|done|done|].
  - apply (open_after p _ false Hp R2). intros k. exists (λ r, deadline r <=? now). apply Hw.
  - etrans; [apply (pending_split p p1 (λ k, (sw (waiting p k)).2)); [apply Hp|exact R2|]|by rewrite <-Hexp].
    intros k. rewrite Hw, (proj1 (Hsw k)). apply filter_split_ids.
Qed.

Lemma park_spec key id thr dl p (p' := state_of (park key id thr dl) p) : pg_ok p →
  if dl <? 1 then park key id thr dl p = (p, Err Invalid)
  else is_ok (value_of (park key id thr dl) p) = true ∧ pg_ok p'
    ∧ completed_by_event p' = completed_by_event p ∧ completed_by_timeout p' = completed_by_timeout p
    ∧ (∀ k, waiting p' k = waiting p k
              ++ if bool_decide (k = key) then [DelayedRequest.mk id thr dl false ""] else [])
    ∧ pending_ids p' ≡ₚ id :: pending_ids p.
Proof.
  intros Hp. unfold p', state_of, value_of, park. rewrite bind_raise_if.
  destruct (dl <? 1); [done|]. rewrite bind_modify, run_ret.
  cbn [fst snd requests completed_by_event completed_by_timeout].
  set (d := d_set _ _ _). assert (Hd : d_wf d) by (apply d_wf_set, Hp).
  assert (Hw : ∀ k, d_getd d k [] = waiting p k
              ++ if bool_decide (k = key) then [DelayedRequest.mk id thr dl false ""] else []).
  { intros k. unfold d. rewrite d_getd_set. case_bool_decide; [by subst|by rewrite app_nil_r]. }
  split_and!; [done| |done|done|done|].
  - split; [done|]. cbn [requests]. intros k r. rewrite Hw. intros [Hr|Hr]%elem_of_app; [by eapply ok_open|].
    case_bool_decide; [by apply list_elem_of_singleton in Hr as ->|by apply elem_of_nil in Hr].
  - rewrite (pending_split (Purgatory.mk d (completed_by_event p) (completed_by_timeout p)) p
      (λ k, if bool_decide (k = key) then [id] else [])) by
      (done || apply Hp || (intros k; cbn [requests]; rewrite Hw; unfold ids; rewrite fmap_app;
       case_bool_decide; simpl; [solve_Permutation|by rewrite app_nil_r])).
    cbn [requests]. rewrite (bind_support _ (d_keys d) [key]).
    + rewrite bind_singleton. by rewrite bool_decide_eq_true_2.
    + done.
    + apply NoDup_singleton.
    + intros k Hk. case_bool_decide; [subst k|done]. split; [intros; left|]. intros _.
      apply d_get_is_Some. unfold d. rewrite d_get_set_eq. eauto.
Qed.

Inductive pg_op := Park (key id : string) (threshold deadline : Z) | Progress (key : string) (value : Z)
  | Tick (now : Z).

(** The purgatory with the ids answered by an event, by the clock, and accepted so far. *)
Record pg_history := mk_history {
  table : Purgatory.t; by_event : list string; by_clock : list string; accepted : list string }.
Definition history0 : pg_history := mk_history Purgatory.init [] [] [].

Definition answers (r : result (list string)) : list string :=
  match r with Ok l => l | Err _ => [] end.
Definition pg_step (o : pg_op) (h : pg_history) : pg_history :=
  let p := table h in
  match o with
  | Park key id thr dl =>
      mk_history (state_of (park key id thr dl) p) (by_event h) (by_clock h)
        (accepted h ++ if is_ok (value_of (park key id thr dl) p) then [id] else [])
  | Progress key v =>
      mk_history (state_of (on_progress key v) p)
        (by_event h ++ answers (value_of (on_progress key v) p)) (by_clock h) (accepted h)
  | Tick now =>
      mk_history (state_of (on_tick now) p) (by_event h)
        (by_clock h ++ answers (value_of (on_tick now) p)) (accepted h)
  end.

Record pg_inv (h : pg_history) : Prop := {
  inv_ok : pg_ok (table h);
  inv_conserved : accepted h ≡ₚ by_event h ++ by_clock h ++ pending_ids (table h);
  inv_event : completed_by_event (table h) = zlen (by_event h);
  inv_clock_ : completed_by_timeout (table h) = zlen (by_clock h) }.

Lemma zlen_sorted l : zlen (py_sorted String.le l) = zlen l.
Proof. unfold zlen. by rewrite py_sorted_length. Qed.
Lemma zlen_ids l : zlen (ids l) = zlen l.
Proof. unfold zlen, ids. by rewrite length_fmap. Qed.

Lemma pg_step_inv o h : pg_inv h → pg_inv (pg_step o h).
Proof.
  intros [Hp Hc He Ht]. destruct o as [key id thr dl|key v|now]; cbn [pg_step].
  - pose proof (park_spec key id thr dl _ Hp) as Hs. destruct (dl <? 1).
    + unfold state_of, value_of. rewrite Hs. by split; simpl; rewrite ?app_nil_r.
    + destruct Hs as (-> & H1 & H2 & H3 & _ & H5). split; simpl; [done| |congruence..].
      rewrite H5, Hc. solve_Permutation.
  - destruct (on_progress_spec key v _ Hp) as (H1 & H2 & H3 & H4 & _ & H6). rewrite H1.
    split; cbn [table by_event by_clock accepted answers]; [done| | |congruence].
    + rewrite Hc, H6, py_sorted_Permutation. solve_Permutation.
    + by rewrite H3, He, zlen_app, zlen_sorted, zlen_ids.
  - destruct (on_tick_spec now _ Hp) as (expired & H1 & H2 & H3 & H4 & _ & H6). rewrite H1.
    split; cbn [table by_event by_clock accepted answers]; [done| |congruence|].
    + rewrite Hc, H6, py_sorted_Permutation. solve_Permutation.
    + by rewrite H4, Ht, zlen_app, zlen_sorted.
Qed.

(** Also (invariant): Every parked request is answered exactly once, by its event or by its deadline,
    and none is lost or waits without end. After any run of [park], [on_progress] and [on_tick]: the
    ids accepted are exactly those answered by events, those answered by timeouts, and those still
    pending (as multisets), the two counters are the numbers of answers, and [pending] is the
    rest. The next progress of a key to a value answers, sorted, exactly that key's requests whose
    threshold it reaches and leaves every other request waiting; the next tick leaves waiting, under
    every key, exactly the requests whose deadline has not come. [park] without a deadline of at
    least 1 raises [Invalid] and parks nothing. *)
Theorem purgatory_exactly_once ops key v now id thr dl
    (h := run pg_step ops history0) (p := table h) :
  accepted h ≡ₚ by_event h ++ by_clock h ++ pending_ids p
  ∧ completed_by_event p = zlen (by_event h) ∧ completed_by_timeout p = zlen (by_clock h)
  ∧ pending p = zlen (accepted h) - zlen (by_event h) - zlen (by_clock h)
  ∧ value_of (on_progress key v) p
    = Ok (py_sorted String.le (ids (filter (λ r, (threshold r <=? v) = true) (waiting p key))))
  ∧ (∀ k, waiting (state_of (on_progress key v) p) k
          = if bool_decide (k = key) then filter (λ r, (threshold r <=? v) = false) (waiting p key)
            else waiting p k)
  ∧ (∀ k, waiting (state_of (on_tick now) p) k = filter (λ r, (deadline r <=? now) = false) (waiting p k))
  ∧ (dl < 1 → park key id thr dl p = (p, Err Invalid)).
Proof.
  assert (Hh : pg_inv h).
  { apply run_invariant; [apply pg_step_inv|]. split; simpl; [|done..]. split; [apply d_wf_nil|].
    intros k r []%elem_of_nil. }
  destruct Hh as [Hp Hc He Ht]. fold p in Hp, Hc, He, Ht.
  destruct (on_progress_spec key v _ Hp) as (H1 & _ & _ & _ & H5 & _).
  destruct (on_tick_spec now _ Hp) as (_ & _ & _ & _ & _ & H6 & _).
  split_and!; try done.
  - rewrite Hc, !zlen_app. unfold pending, pending_ids. clear.
    assert (zlen (d_values (requests p) ≫= ids) = zsum zlen (d_values (requests p))); [|lia].
    induction (d_values (requests p)) as [|l ls IH]; [done|].
    rewrite bind_cons, zlen_app, zlen_ids, IH. done.
  - intros Hdl. pose proof (park_spec key id thr dl _ Hp) as Hs. by rewrite (proj2 (Z.ltb_lt _ _) Hdl) in Hs.
Qed.

Lemma purgatory_exactly_once_witness :
  let h := run pg_step [Park "p0" "r1" 5 10; Park "p0" "r2" 9 10; Park "p1" "r3" 1 3; Progress "p0" 7; Tick 3]
             history0 in
  pending (table h) = 1 ∧ park "p0" "r4" 1 0 (table h) = (table h, Err Invalid).
Proof.
  intros h.
  destruct (purgatory_exactly_once
    [Park "p0" "r1" 5 10; Park "p0" "r2" 9 10; Park "p1" "r3" 1 3; Progress "p0" 7; Tick 3]
    "p0" 0 0 "r4" 1 0) as (_ & _ & _ & H & _ & _ & _ & Hpark).
  split; [refine (eq_trans H _); vm_compute; reflexivity|apply Hpark; reflexivity].
Defined.
End purgatory.

Section causal_delivery.
Import CausalDelivery.

Abbreviation message := (string * gset string)%type (only parsing).

(** The messages received so far, the receiver, and the order it delivered in. *)
Record causal (received : list message) (s : CausalDelivery.t) (log : list string) : Prop := {
  causal_delivered : delivered s = list_to_set log;
  causal_wf : d_wf (buffer s);
  causal_buffer m d : (m, d) ∈ buffer s → (m, d) ∈ received;
  causal_log i m : log !! i = Some m →
    ∃ d, (m, d) ∈ received ∧ d ⊆ (list_to_set (take i log) : gset string);
  causal_once : log ++ d_keys (buffer s) ≡ₚ received.*1 }.

Definition stuck (s : CausalDelivery.t) : Prop := ∀ m d, (m, d) ∈ buffer s → ¬ d ⊆ delivered s.

(** Delivering one more message whose causes are in the log. *)
Lemma causal_deliver received received' s log m d b :
  causal received s log → (m, d) ∈ received' → d ⊆ delivered s →
  (∀ x, x ∈ received → x ∈ received') → d_wf b → (∀ x e, (x, e) ∈ b → (x, e) ∈ received') →
  (log ++ [m]) ++ d_keys b ≡ₚ received'.*1 →
  causal received' (CausalDelivery.mk (delivered s ∪ {[m]}) b) (log ++ [m]).
Proof.
  intros [Hd Hwf Hb Hl Ho] Hm Hdeps Hsub Hwfb Hbb Hob. split; simpl; [|done|done| |done].
  - rewrite Hd, list_to_set_app_L. simpl. by rewrite union_empty_r_L.
  - intros i x [[Hi Hlt]|[-> ->]]%lookup_snoc_inv.
    + destruct (Hl _ _ Hi) as (e & He & Hsube). exists e. rewrite take_app_le by lia. auto.
    + exists d. rewrite take_app_length. rewrite <-Hd. done.
Qed.

Lemma release_pass_spec received items s log :
  causal received s log → NoDup (d_keys items) → (∀ x, x ∈ items → x ∈ buffer s) →
  let '(s', more) := release_pass items s in
  causal received s' (log ++ more)
  ∧ (length (buffer s') + length more = length (buffer s))%nat
  ∧ (more = [] → s' = s ∧ ∀ m d, (m, d) ∈ items → ¬ d ⊆ delivered s).
Proof.
  revert s log. induction items as [|[m d] items IH]; intros s log Hs Hnd Hin; cbn [release_pass].
  { rewrite app_nil_r. split_and!; [done|simpl; lia|]. intros _. split; [done|]. by intros ?? ?%elem_of_nil. }
  apply NoDup_cons in Hnd as [Hm Hnd]. unfold deliverable.
  destruct (decide (d ⊆ delivered s)) as [Hd|Hd].
  - rewrite bool_decide_eq_true_2 by done.
    assert (Hmb : (m, d) ∈ buffer s) by (apply Hin; left).
    assert (Hmk : m ∈ d_keys (buffer s)) by (apply list_elem_of_fmap; by exists (m, d)).
    pose proof (d_del_Permutation (buffer s) m (causal_wf _ _ _ Hs) Hmk) as Hperm.
    assert (Hs1 : causal received (CausalDelivery.mk (delivered s ∪ {[m]}) (d_del (buffer s) m)) (log ++ [m])).
    { apply (causal_deliver received received s log m d); try done.
      - by apply (causal_buffer _ _ _ Hs).
      - apply d_wf_del, Hs.
      - intros x e [_ Hx]%d_del_elem_of. by apply (causal_buffer _ _ _ Hs).
      - rewrite <-(causal_once _ _ _ Hs), Hperm. solve_Permutation. }
    specialize (IH _ _ Hs1 Hnd). simpl in IH.
    destruct (release_pass items _) as [s' more]. destruct IH as (H1 & H2 & H3).
    { intros [x e] Hx. apply d_del_elem_of. split; [|by apply Hin; right].
      intros ->. apply Hm. apply list_elem_of_fmap. by exists (m, e). }
    split_and!; [by rewrite <-app_assoc in H1| |done].
    apply Permutation_length in Hperm. simpl in *. rewrite !d_keys_length in Hperm. lia.
  - rewrite bool_decide_eq_false_2 by done. specialize (IH _ _ Hs Hnd).
    destruct (release_pass items s) as [s' more]. destruct IH as (H1 & H2 & H3).
    { intros x Hx. apply Hin. by right. }
    split_and!; [done..|]. intros Hmore. destruct (H3 Hmore) as [-> Hno]. split; [done|].
    intros x e [Heq|Hx]%elem_of_cons; [by simplify_eq|by apply (Hno x)].
Qed.

Lemma release_all_spec fuel received s log released :
  causal received s log → (length (buffer s) < fuel)%nat →
  ∃ s' more, release_all fuel s released = Some (s', released ++ more)
             ∧ causal received s' (log ++ more) ∧ stuck s'.
Proof.
  revert s log released. induction fuel as [|fuel IH]; intros s log released Hs Hf; [lia|].
  cbn [release_all].
  pose proof (release_pass_spec received (buffer s) s log Hs (causal_wf _ _ _ Hs) (λ _ H, H)) as Hp.
  destruct (release_pass (buffer s) s) as [s1 more]. destruct Hp as (H1 & H2 & H3).
  destruct more as [|m more].
  - destruct (H3 eq_refl) as [-> Hno]. exists s, []. rewrite !app_nil_r. done.
  - simpl in H2. destruct (IH s1 (log ++ m :: more) (released ++ m :: more) H1) as (s' & rest & -> & H4 & H5);
      [lia|].
    exists s', ((m :: more) ++ rest). rewrite !app_assoc. done.
Qed.

(** Receiving messages one after the other; the fuel is one more than the buffer. *)
Fixpoint accept_all (ms : list message) (s : CausalDelivery.t) (log : list string)
    : option (CausalDelivery.t * list string) :=
  match ms with
  | [] => Some (s, log)
  | (m, deps) :: ms' =>
      match accept (S (length (buffer s))) m deps s with
      | Some (s', released) => accept_all ms' s' (log ++ released)
      | None => None
      end
  end.

Lemma accept_spec received s log m deps :
  causal received s log → stuck s → m ∉ received.*1 →
  ∃ s' released, accept (S (length (buffer s))) m deps s = Some (s', released)
    ∧ causal (received ++ [(m, deps)]) s' (log ++ released) ∧ stuck s'.
Proof.
  intros Hs Hst Hm. unfold accept, deliverable.
  assert (Hsub : ∀ x, x ∈ received → x ∈ received ++ [(m, deps)]) by (intros; apply elem_of_app; by left).
  assert (Hlast : (m, deps) ∈ received ++ [(m, deps)]) by (apply elem_of_app; right; left).
  destruct (decide (deps ⊆ delivered s)) as [Hd|Hd].
  - rewrite bool_decide_eq_true_2 by done. unfold deliver.
    assert (Hs1 : causal (received ++ [(m, deps)]) (CausalDelivery.mk (delivered s ∪ {[m]}) (buffer s)) (log ++ [m])).
    { apply (causal_deliver received _ s log m deps); try done; [apply Hs| |].
      - intros. by apply Hsub, (causal_buffer _ _ _ Hs).
      - rewrite fmap_app, <-(causal_once _ _ _ Hs). simpl. solve_Permutation. }
    destruct (release_all_spec (S (length (buffer s))) _ _ _ [m] Hs1) as (s' & more & -> & H1 & H2);
      [simpl; lia|].
    exists s', ([m] ++ more). rewrite app_assoc. done.
  - rewrite bool_decide_eq_false_2 by done.
    assert (Hmb : m ∉ d_keys (buffer s)).
    { intros Hin. apply Hm. rewrite <-(causal_once _ _ _ Hs). apply elem_of_app. by right. }
    eexists _, []. split; [done|]. rewrite app_nil_r.
    split; [|intros x e; simpl; rewrite d_set_elem_of by apply Hs; intros [[-> ->]|[_ ?]]; [done|by eapply Hst]].
    destruct Hs as [H1 H2 H3 H4 H5]. split; simpl; [done|by apply d_wf_set| | |].
    + intros x e. rewrite d_set_elem_of by done. intros [[-> ->]|[_ ?]]; auto.
    + intros i x Hi. destruct (H4 _ _ Hi) as (e & ? & ?). eauto.
    + rewrite d_keys_set_fresh by done. rewrite fmap_app, <-H5, app_assoc. done.
Qed.

(** C20 (safety): Causal delivery. Take any sequence of distinct messages, each with the set of the
    messages it depends on, received in any order. [accept] always returns: the cascade that each
    delivery starts needs at most one more pass than there are buffered messages. Every delivered
    message comes after all of its dependencies; every received message is, exactly once, either
    delivered or in the buffer; the delivered set is what was delivered; and nothing is held without
    cause: each buffered message still misses a dependency. [force_deliver] raises [Invalid] exactly
    when a dependency has not been delivered. *)
Theorem causal_delivery_order ms (Hms : NoDup ms.*1) m deps :
  ∃ s log, accept_all ms CausalDelivery.init [] = Some (s, log)
  ∧ (∀ i x, log !! i = Some x →
       ∃ d, (x, d) ∈ ms ∧ ∀ c, c ∈ d → ∃ j, (j < i)%nat ∧ log !! j = Some c)
  ∧ log ++ d_keys (buffer s) ≡ₚ ms.*1
  ∧ delivered s = list_to_set log
  ∧ (∀ x d, (x, d) ∈ buffer s → (x, d) ∈ ms ∧ ∃ c, c ∈ d ∧ c ∉ log)
  ∧ (deps ⊆ delivered s → force_deliver m deps s = (s, Ok ()))
  ∧ (∀ c, c ∈ deps → c ∉ delivered s → force_deliver m deps s = (s, Err Invalid)).
Proof.
  assert (Hall : ∀ received s log, causal received s log → stuck s → NoDup (received ++ ms).*1 →
    ∃ s' log', accept_all ms s log = Some (s', log') ∧ causal (received ++ ms) s' log' ∧ stuck s').
  { clear. induction ms as [|[x d] ms IH]; intros received s log Hs Hst Hnd; cbn [accept_all].
    { exists s, log. by rewrite app_nil_r. }
    destruct (accept_spec received s log x d Hs Hst) as (s1 & more & -> & H1 & H2).
    { rewrite fmap_app in Hnd. apply NoDup_app in Hnd as (_ & Hdis & _). intros Hin. apply (Hdis _ Hin). left. }
    replace (received ++ (x, d) :: ms) with ((received ++ [(x, d)]) ++ ms) in Hnd |- *
      by by rewrite <-app_assoc.
    by apply IH. }
  destruct (Hall [] CausalDelivery.init []) as (s & log & Hrun & [H1 H2 H3 H4 H5] & Hst).
  { split; simpl; [done|apply d_wf_nil| | |done].
    - by intros ?? ?%elem_of_nil.
    - intros i x Hi. by rewrite lookup_nil in Hi. }
  { by intros ?? ?%elem_of_nil. }
  { done. }
  exists s, log. split_and!; try done.
  - intros i x Hi. destruct (H4 _ _ Hi) as (d & Hd & Hsub). exists d. split; [done|].
    intros c Hc%Hsub. apply elem_of_list_to_set, list_elem_of_lookup in Hc as [j Hj].
    apply lookup_take_Some in Hj as [Hj Hlt]. eauto.
  - intros x d Hin. split; [by apply H3|]. pose proof (Hst _ _ Hin) as Hno.
    destruct (set_choose_or_empty (d ∖ delivered s)) as [[c [Hc1 Hc2]%elem_of_difference]|Hemp].
    + exists c. split; [done|]. by rewrite H1, elem_of_list_to_set in Hc2.
    + destruct Hno. intros c Hc. destruct (decide (c ∈ delivered s)); [done|].
      destruct (not_elem_of_empty (C:=gset string) c). rewrite <-Hemp. by apply elem_of_difference.
  - intros Hd. unfold force_deliver. rewrite bind_get, run_raise_if. unfold deliverable.
    by rewrite bool_decide_eq_true_2.
  - intros c Hc Hni. unfold force_deliver. rewrite bind_get, run_raise_if. unfold deliverable.
    rewrite bool_decide_eq_false_2; [done|]. intros Hd. by apply Hni, Hd.
Qed.

Lemma causal_delivery_order_witness :
  ∃ s log, accept_all [("reply", {["post"]}); ("like", {["reply"; "post"]}); ("post", ∅)]
             CausalDelivery.init [] = Some (s, log)
  ∧ log ++ d_keys (buffer s) ≡ₚ ["reply"; "like"; "post"].
Proof.
  destruct (causal_delivery_order [("reply", {["post"]}); ("like", {["reply"; "post"]}); ("post", ∅)])
    with (m := "x") (deps := (∅ : gset string)) as (s & log & H1 & _ & H2 & _).
  - apply (bool_decide_unpack _). vm_compute. exact I.
  - by exists s, log.
Defined.
End causal_delivery.

Section dedup.
Import DedupStore.

Definition dropped (key : string) (t : Z) : string :=
  "duplicate '" +:+ key +:+ "' dropped, seen at " +:+ zs t.
Definition processed (key : string) : string := "processed '" +:+ key +:+ "' for the first time".

(** A store that never forgets: it drops a key processed less than [w] ago. *)
Fixpoint reference (w : Z) (calls : list (string * Z)) (hist : list (string * Z))
    : list string * list (string * Z) :=
  match calls with
  | [] => ([], hist)
  | (key, now) :: calls' =>
      match filter (λ kt, kt.1 = key ∧ now - kt.2 < w) hist with
      | (_, t) :: _ => let '(out, h) := reference w calls' hist in (dropped key t :: out, h)
      | [] => let '(out, h) := reference w calls' ((key, now) :: hist) in (processed key :: out, h)
      end
  end.

Fixpoint process_all (calls : list (string * Z)) (s : DedupStore.t) : list (result string) * DedupStore.t :=
  match calls with
  | [] => ([], s)
  | (key, now) :: calls' =>
      let '(out, s') := process_all calls' (state_of (process key now) s) in
      (value_of (process key now) s :: out, s')
  end.

(** Repeats of a key are a window apart. *)
Definition spaced (w : Z) (hist : list (string * Z)) : Prop :=
  ∀ k t t', (k, t) ∈ hist → (k, t') ∈ hist → t < t' → w <= t' - t.

(** What the bounded memory holds of the history. *)
Record remembers (w : Z) (hist : list (string * Z)) (last : Z) (s : DedupStore.t) : Prop := {
  rem_window : window s = w;
  rem_seen k t : seen s !! k = Some t → (k, t) ∈ hist;
  rem_recent k t : (k, t) ∈ hist → last - t < w → seen s !! k = Some t;
  rem_past k t : (k, t) ∈ hist → t <= last;
  rem_spaced : spaced w hist }.

Lemma process_run key now s :
  process key now s =
  let seen' := filter (λ kt, now - kt.2 < window s) (seen s) in
  match seen' !! key with
  | Some t => (DedupStore.mk (window s) seen' (processed_again s), Ok (dropped key t))
  | None => (DedupStore.mk (window s) (<[key := now]> seen') (processed_again s), Ok (processed key))
  end.
Proof.
  unfold process, expire. rewrite bind_modify, bind_get. cbn [seen window processed_again].
  by destruct (filter _ (seen s) !! key).
Qed.

Lemma remembers_expire w hist last now s key : remembers w hist last s → last <= now →
  let seen' := filter (λ kt, now - kt.2 < window s) (seen s) in
  remembers w hist now (DedupStore.mk (window s) seen' (processed_again s))
  ∧ match filter (λ kt, kt.1 = key ∧ now - kt.2 < w) hist with
    | (_, t) :: _ => seen' !! key = Some t
    | [] => seen' !! key = None
    end.
Proof.
  intros [H1 H2 H3 H4 H5] Hnow seen'.
  assert (Hs : ∀ k t, seen' !! k = Some t ↔ (k, t) ∈ hist ∧ now - t < w).
  { intros k t. unfold seen'. rewrite map_lookup_filter_Some, H1. simpl. split.
    - intros [? ?]. auto.
    - intros [? ?]. split; [|done]. apply H3; [done|lia]. }
  split.
  - split; simpl; [done| | | |done].
    + intros k t Hk. by apply Hs.
    + intros k t Hk Hlt. by apply Hs.
    + intros k t Hk. specialize (H4 _ _ Hk). lia.
  - destruct (filter _ hist) as [|[k t] l] eqn:E.
    + apply eq_None_not_Some. intros [t Ht]. apply Hs in Ht as [Ht ?].
      apply (not_elem_of_nil (key, t)). rewrite <-E. by apply list_elem_of_filter.
    + assert ((k, t) ∈ (k, t) :: l) as Hin by left. rewrite <-E in Hin.
      apply list_elem_of_filter in Hin as [[Hk Hlt] Hin]. simpl in *. subst k. by apply Hs.
Qed.

Lemma process_all_reference w calls last hist s :
  1 <= w → StronglySorted Z.le (last :: calls.*2) → remembers w hist last s →
  let '(out, h) := reference w calls hist in
  (process_all calls s).1 = Ok <$> out ∧ spaced w h
  ∧ remembers w h (List.last calls.*2 last) (process_all calls s).2.
Proof.
  intros Hw. revert last hist s. induction calls as [|[key now] calls IH]; intros last hist s Hsort Hrem.
  { split_and!; [done|apply Hrem|done]. }
  apply StronglySorted_inv in Hsort as [Hsort Hall]. cbn [fmap list_fmap snd] in Hall.
  assert (last <= now) as Hnow by (eapply Forall_forall in Hall; [exact Hall|left]).
  destruct (remembers_expire _ _ _ _ _ key Hrem Hnow) as [Hexp Hkey].
  cbn [reference process_all]. unfold state_of, value_of. rewrite process_run. cbv zeta in *.
  assert (Hlast : ∀ d, List.last ((key, now) :: calls).*2 d = List.last calls.*2 now)
    by (intros d; apply list_last_cons).
  rewrite Hlast.
  destruct (filter _ hist) as [|[k t] rest] eqn:E; rewrite Hkey; cbn [fst snd].
  - assert (Hnew : remembers w ((key, now) :: hist) now (DedupStore.mk (window s)
      (<[key := now]> (filter (λ kt, now - kt.2 < window s) (seen s))) (processed_again s))).
    { destruct Hexp as [H1 H2 H3 H4 H5]. cbn [window seen] in *. split; cbn [window seen]; [done| | | |].
      - intros k t. rewrite lookup_insert_Some. intros [[-> ->]|[_ Hk]]; [left|right; by apply H2].
      - intros k t Hk Hlt. apply elem_of_cons in Hk as [Heq|Hk]; [simplify_eq; by rewrite lookup_insert_eq|].
        specialize (H3 _ _ Hk Hlt). rewrite lookup_insert_ne; [done|]. intros <-. congruence.
      - intros k t [Heq|Hk]%elem_of_cons; [simplify_eq; lia|by apply (H4 k)].
      - intros k t t' [Heq|Hk]%elem_of_cons [Heq'|Hk']%elem_of_cons Hlt; simplify_eq.
        + lia.
        + specialize (H4 _ _ Hk'). lia.
        + apply Z.le_ngt. intros Hlt'. specialize (H3 _ _ Hk Hlt'). congruence.
        + by apply (H5 k). }
    specialize (IH _ _ _ Hsort Hnew). destruct (reference w calls _) as [out h].
    destruct (process_all calls _) as [out' s']. cbn [fst snd] in *.
    destruct IH as (-> & H). done.
  - specialize (IH _ _ _ Hsort Hexp). destruct (reference w calls _) as [out h].
    destruct (process_all calls _) as [out' s']. cbn [fst snd] in *.
    destruct IH as (-> & H). done.
Qed.

(** Also (equivalence): The bounded memory of the dedup store answers exactly as an unbounded one. For
    any positive window and any calls of [process] whose times do not go back, each answer, message
    included, is that of a reference store that never forgets and drops a key exactly when it was
    processed less than a window ago; so two processings of one key are always at least a window
    apart. At the end the store remembers exactly the keys processed less than a window before the
    last call, however long the history. A window below 1 is refused with [Invalid]. *)
Theorem dedup_as_unbounded w calls t0 (Hsort : StronglySorted Z.le (t0 :: calls.*2)) (Hw : 1 <= w) :
  ∃ s0, DedupStore.make w = Ok s0
  ∧ let '(out, h) := reference w calls [] in
    let s := (process_all calls s0).2 in
    (process_all calls s0).1 = Ok <$> out
    ∧ spaced w h
    ∧ (∀ k now, k ∈ dom (seen (state_of (report now) s)) →
         ∃ t', (k, t') ∈ h ∧ now - t' < w)
    ∧ (∀ k t, (k, t) ∈ h → List.last calls.*2 t0 - t < w → seen s !! k = Some t)
    ∧ DedupStore.make 0 = Err Invalid.
Proof.
  exists (DedupStore.mk w ∅ 0). split.
  { unfold make. by rewrite (proj2 (Z.ltb_ge _ _)). }
  assert (H0 : remembers w [] t0 (DedupStore.mk w ∅ 0)).
  { split; simpl; [done|by intros ?? ?%lookup_empty_Some
      |by intros ?? ?%elem_of_nil|by intros ?? ?%elem_of_nil|by intros ??? ?%elem_of_nil]. }
  pose proof (process_all_reference w calls t0 [] _ Hw Hsort H0) as Hp.
  destruct (reference w calls []) as [out h]. destruct Hp as (H1 & H2 & H3).
  split_and!; [done..| |apply H3|done].
  intros k now Hk. apply elem_of_dom in Hk as [t' Hk].
  assert (seen (state_of (report now) (process_all calls (DedupStore.mk w ∅ 0)).2)
    = filter (λ kt, now - kt.2 < window (process_all calls (DedupStore.mk w ∅ 0)).2)
        (seen (process_all calls (DedupStore.mk w ∅ 0)).2)) as Hs by reflexivity.
  rewrite Hs in Hk. apply map_lookup_filter_Some in Hk as [Hk Hlt]. rewrite (rem_window _ _ _ _ H3) in Hlt.
  exists t'. split; [by apply (rem_seen _ _ _ _ H3)|done].
Qed.

Lemma dedup_as_unbounded_witness :
  let calls := [("a", 1); ("b", 2); ("a", 5); ("a", 12)] in
  (process_all calls (DedupStore.mk 10 ∅ 0)).1
  = [Ok (processed "a"); Ok (processed "b"); Ok (dropped "a" 1); Ok (processed "a")].
Proof.
  intros calls.
  assert (Hs : StronglySorted Z.le (0 :: calls.*2)) by (repeat constructor; vm_compute; discriminate).
  destruct (dedup_as_unbounded 10 calls 0 Hs ltac:(lia)) as (s0 & Hmake & H).
  change (DedupStore.make 10) with (Ok (DedupStore.mk 10 ∅ 0)) in Hmake. injection Hmake as <-.
  refine (eq_trans (proj1 H) _). vm_compute. reflexivity.
Defined.
End dedup.

Section dead_letters.
Import DeadLetters.

Inductive dl_op := Failure (topic : string) (partition offset : Z) (reason : string)
  | Success (topic : string) (partition offset : Z) | Replay (index : Z).
Definition dl_step (o : dl_op) (s : DeadLetters.t) : DeadLetters.t :=
  match o with
  | Failure topic p off reason => state_of (record_failure topic p off reason) s
  | Success topic p off => state_of (record_success topic p off) s
  | Replay i => state_of (replay i) s
  end.

Record dl_inv (limit : Z) (s : DeadLetters.t) : Prop := {
  dl_limit : max_attempts s = limit;
  dl_attempts key n : attempts s !! key = Some n → 1 <= n < limit;
  dl_letters l : l ∈ dead_letters s → DeadLetter.attempts l = limit }.

Lemma record_failure_state topic p off reason s (count := default 0 (attempts s !! (topic, p, off)) + 1) :
  state_of (record_failure topic p off reason) s =
    if max_attempts s <=? count then
      DeadLetters.mk (max_attempts s) (delete (topic, p, off) (attempts s))
        (dead_letters s ++ [DeadLetter.mk topic p off count reason])
    else DeadLetters.mk (max_attempts s) (<[(topic, p, off) := count]> (attempts s)) (dead_letters s).
Proof.
  unfold state_of, record_failure. rewrite bind_get, bind_modify, run_if. fold count.
  destruct (max_attempts s <=? count); [|done].
  rewrite !bind_modify, run_ret. cbn [fst max_attempts attempts dead_letters].
  by rewrite delete_insert_eq.
Qed.

Lemma replay_run i s : replay i s =
  if (0 <=? i) && (i <? zlen (dead_letters s)) then
    match dead_letters s !! Z.to_nat i with
    | Some l => (DeadLetters.mk (max_attempts s) (attempts s) (delete (Z.to_nat i) (dead_letters s)), Ok l)
    | None => (s, Err IndexError)
    end
  else (s, Err Invalid).
Proof.
  unfold replay. rewrite bind_get, bind_raise_if.
  destruct ((0 <=? i) && (i <? zlen (dead_letters s))) eqn:E; simpl; [|done].
  rewrite bind_pure_of. unfold py_index, py_pos. rewrite E.
  by destruct (dead_letters s !! Z.to_nat i).
Qed.

Lemma dl_step_inv limit o s : 1 <= limit → dl_inv limit s → dl_inv limit (dl_step o s).
Proof.
  intros Hl [H1 H2 H3]. destruct o as [topic p off reason|topic p off|i]; cbn [dl_step].
  - rewrite record_failure_state, H1.
    assert (Hc : 0 <= default 0 (attempts s !! (topic, p, off)) < limit).
    { destruct (attempts s !! (topic, p, off)) as [n|] eqn:E; simpl; [apply H2 in E|]; lia. }
    destruct (Z.leb_spec limit (default 0 (attempts s !! (topic, p, off)) + 1));
      split; cbn [max_attempts attempts dead_letters]; try done.
    + intros key n [_ Hn]%lookup_delete_Some. by eapply H2.
    + intros l [Hl'| ->%list_elem_of_singleton]%elem_of_app; [by apply H3|]. simpl. lia.
    + intros key n [[_ <-]|[_ Hn]]%lookup_insert_Some; [lia|by eapply H2].
  - split; cbn; [done| |done]. intros key n [_ Hn]%lookup_delete_Some. by eapply H2.
  - unfold state_of. rewrite replay_run. destruct (_ && _); [|by split].
    destruct (dead_letters s !! Z.to_nat i); [|by split].
    split; cbn; [done..|]. intros l' Hl'. apply H3. eapply elem_of_submseteq; [exact Hl'|].
    apply sublist_submseteq, sublist_delete.
Qed.

(** Also (functional): The retry budget is spent exactly, and success restores it. In any reachable
    state of the tracker, with c failures standing against a record: further failures that do not
    reach [max_attempts] only raise its count; the failure that reaches it appends exactly one dead
    letter, with the record's topic, partition and offset, the number of attempts and that last
    reason, and clears the count, so the next failure starts a new budget; no other record's count
    is touched. Every dead letter carries exactly [max_attempts] attempts. [record_success] clears
    the count; [replay] returns and removes the letter at a position, or raises [Invalid]. *)
Theorem dead_letter_after_budget limit ops topic p off reasons reason (Hlimit : 1 <= limit)
    (s := run dl_step ops (DeadLetters.mk limit ∅ []))
    (c := default 0 (attempts s !! (topic, p, off)))
    (after := λ rs, run dl_step ((λ r, Failure topic p off r) <$> rs) s)
    (Hreasons : zlen reasons < limit - c) :
  attempts (after reasons) = (if bool_decide (reasons = []) then attempts s
                              else <[(topic, p, off) := c + zlen reasons]> (attempts s))
  ∧ dead_letters (after reasons) = dead_letters s
  ∧ (zlen reasons + 1 = limit - c →
      after (reasons ++ [reason])
      = DeadLetters.mk limit (delete (topic, p, off) (attempts s))
          (dead_letters s ++ [DeadLetter.mk topic p off limit reason]))
  ∧ (∀ l, l ∈ dead_letters s → DeadLetter.attempts l = limit)
  ∧ attempts (state_of (record_success topic p off) s) = delete (topic, p, off) (attempts s)
  ∧ ∀ i, replay i s = match (if 0 <=? i then dead_letters s !! Z.to_nat i else None) with
         | Some l => (DeadLetters.mk limit (attempts s) (delete (Z.to_nat i) (dead_letters s)), Ok l)
         | None => (s, Err Invalid)
         end.
Proof.
  assert (Hs : dl_inv limit s).
  { apply run_invariant; [intros; by apply dl_step_inv|]. split; simpl; [done|..].
    - by intros ?? ?%lookup_empty_Some.
    - by intros ? ?%elem_of_nil. }
  assert (Hafter : after reasons = DeadLetters.mk limit (if bool_decide (reasons = []) then attempts s
      else <[(topic, p, off) := c + zlen reasons]> (attempts s)) (dead_letters s)).
  { clear reason. destruct Hs as [Hl _ _]. unfold after. induction reasons as [|r rs IH] using rev_ind.
    - simpl. rewrite <-Hl. by destruct s.
    - rewrite zlen_app in Hreasons. change (zlen [r]) with 1 in Hreasons.
      rewrite fmap_app, run_app, IH by lia. simpl. rewrite record_failure_state.
      cbn [max_attempts attempts dead_letters].
      assert (default 0 ((if bool_decide (rs = []) then attempts s
        else <[(topic, p, off) := c + zlen rs]> (attempts s)) !! (topic, p, off)) = c + zlen rs) as ->.
      { destruct (decide (rs = [])) as [->|]; [rewrite bool_decide_eq_true_2 by done; change (zlen []) with 0; unfold c; lia|].
        rewrite bool_decide_eq_false_2 by done. by rewrite lookup_insert_eq. }
      rewrite (proj2 (Z.leb_gt _ _)) by lia. rewrite (bool_decide_eq_false_2 (rs ++ [r] = [])) by by destruct rs.
      f_equal. rewrite zlen_app. change (zlen [r]) with 1. rewrite Z.add_assoc.
      destruct (bool_decide (rs = [])); [done|apply insert_insert_eq]. }
  split_and!; [by rewrite Hafter|by rewrite Hafter| |apply Hs|done|].
  - intros Heq. unfold after in *. rewrite fmap_app, run_app, Hafter. simpl. rewrite record_failure_state.
    cbn [max_attempts attempts dead_letters].
    assert (default 0 ((if bool_decide (reasons = []) then attempts s
        else <[(topic, p, off) := c + zlen reasons]> (attempts s)) !! (topic, p, off)) = c + zlen reasons) as ->.
    { destruct (decide (reasons = [])) as [->|]; [rewrite bool_decide_eq_true_2 by done; change (zlen []) with 0; unfold c; lia|].
      rewrite bool_decide_eq_false_2 by done. by rewrite lookup_insert_eq. }
    rewrite (proj2 (Z.leb_le _ _)) by lia. f_equal; [|repeat f_equal; lia].
    destruct (bool_decide (reasons = [])); [done|apply delete_insert_eq].
  - intros i. rewrite replay_run, (dl_limit _ _ Hs). destruct (Z.leb_spec 0 i); [|done]. simpl.
    destruct (dead_letters s !! Z.to_nat i) as [l|] eqn:E.
    + apply lookup_lt_Some in E. rewrite (proj2 (Z.ltb_lt _ _)); [done|]. unfold zlen. lia.
    + apply lookup_ge_None in E. rewrite (proj2 (Z.ltb_ge _ _)); [done|]. unfold zlen. lia.
Qed.

Lemma dead_letter_after_budget_witness :
  let s := run dl_step [Failure "t" 0 7 "io"; Success "t" 0 7] (DeadLetters.mk 2 ∅ []) in
  dead_letters (run dl_step [Failure "t" 0 7 "parse"; Failure "t" 0 7 "schema"] s)
  = [DeadLetter.mk "t" 0 7 2 "schema"].
Proof.
  intros s.
  destruct (dead_letter_after_budget 2 [Failure "t" 0 7 "io"; Success "t" 0 7] "t" 0 7 ["parse"] "schema")
    as (_ & _ & H & _); [lia|vm_compute; reflexivity|].
  refine (eq_trans (f_equal dead_letters (H _)) _); vm_compute; reflexivity.
Defined.
End dead_letters.

Section outbox.
Import OutboxRelay.

Inductive ob_op := Enqueue (id : Z) (payload : string) | Publish (acked : bool).
Definition ob_step (o : ob_op) (s : OutboxRelay.t) : OutboxRelay.t :=
  match o with
  | Enqueue id payload => state_of (enqueue id payload) s
  | Publish acked => state_of (publish_next acked) s
  end.
Definition enqueued (ops : list ob_op) : list (Z * string) :=
  omap (λ o, match o with Enqueue id payload => Some (id, payload) | Publish _ => None end) ops.

(** The first [n] rows are published. *)
Definition prefix_published (n : nat) (s : OutboxRelay.t) : Prop :=
  (n <= length (rows s))%nat ∧ published s = list_to_set (take n (rows s).*1).

Lemma unpublished_prefix n s : NoDup (rows s).*1 → prefix_published n s → unpublished s = drop n (rows s).
Proof.
  intros Hnd [Hn Hp]. unfold unpublished. rewrite Hp.
  rewrite <-(take_drop n (rows s)) at 1. rewrite filter_app.
  assert (Hdis : ∀ r, r ∈ drop n (rows s) → r.1 ∉ take n (rows s).*1).
  { intros r Hr Hin. rewrite <-(take_drop n (rows s).*1) in Hnd. apply NoDup_app in Hnd as (_ & Hd & _).
    apply (Hd _ Hin). rewrite <-fmap_drop. by apply list_elem_of_fmap_2. }
  rewrite (list_filter_all _ (drop n (rows s))) by (intros r Hr; rewrite elem_of_list_to_set; by apply Hdis).
  assert (filter (λ r : Z * string, r.1 ∉ (list_to_set (take n (rows s).*1) : gset Z)) (take n (rows s)) = []) as ->;
    [|done].
  apply elem_of_nil_inv. intros r [Hni Hr]%list_elem_of_filter. apply Hni, elem_of_list_to_set.
  rewrite <-fmap_take. by apply list_elem_of_fmap_2.
Qed.

Lemma publish_next_run acked s : publish_next acked s =
  match unpublished s with
  | [] => (s, Ok "nothing to publish; the outbox is drained")
  | (id, payload) :: _ =>
      if acked then (OutboxRelay.mk (rows s) (published s ∪ {[id]}),
        Ok ("published row " +:+ zs id +:+ " ('" +:+ payload +:+ "') in order, then marked it"))
      else (s, Err Invalid)
  end.
Proof.
  unfold publish_next. rewrite bind_get. destruct (unpublished s) as [|[id payload] l]; [done|].
  rewrite bind_raise_if. by destruct acked.
Qed.

(** Also (functional): The outbox publishes every row once, in insertion order, and marks none the
    broker has not acknowledged. After any run of [enqueue] and [publish_next] (row ids distinct, the
    broker acknowledging or not), the published ids are exactly those of the first n rows inserted,
    and [unpublished] is the rest in order; the next [publish_next] marks exactly the oldest
    unpublished row when the broker acknowledges, raises [Invalid] and marks nothing when it does
    not, and reports a drained outbox when nothing is left. [mark_published] keeps none of this: it
    marks any id, out of order and with no acknowledgement, unless it is already marked. *)
Theorem outbox_in_order ops (s := run ob_step ops OutboxRelay.init) (Hids : NoDup (enqueued ops).*1) :
  rows s = enqueued ops
  ∧ ∃ n, (n <= length (rows s))%nat
    ∧ published s = list_to_set (take n (rows s).*1)
    ∧ unpublished s = drop n (rows s)
    ∧ (∀ acked, publish_next acked s =
        match rows s !! n with
        | Some (id, payload) =>
            if acked then (OutboxRelay.mk (rows s) (list_to_set (take (S n) (rows s).*1)),
              Ok ("published row " +:+ zs id +:+ " ('" +:+ payload +:+ "') in order, then marked it"))
            else (s, Err Invalid)
        | None => (s, Ok "nothing to publish; the outbox is drained")
        end)
    ∧ (∀ id, mark_published id s = if bool_decide (id ∈ published s) then (s, Err Invalid)
                                   else (OutboxRelay.mk (rows s) (published s ∪ {[id]}), Ok ())).
Proof.
  assert (Hpub : ∀ s n, NoDup (rows s).*1 → prefix_published n s →
    ∀ acked, publish_next acked s =
        match rows s !! n with
        | Some (id, payload) =>
            if acked then (OutboxRelay.mk (rows s) (list_to_set (take (S n) (rows s).*1)),
              Ok ("published row " +:+ zs id +:+ " ('" +:+ payload +:+ "') in order, then marked it"))
            else (s, Err Invalid)
        | None => (s, Ok "nothing to publish; the outbox is drained")
        end).
  { clear. intros s n Hnd Hp acked. rewrite publish_next_run, (unpublished_prefix n) by done.
    destruct (rows s !! n) as [[id payload]|] eqn:E.
    - rewrite (drop_S _ _ _ E). destruct acked; [|done]. destruct Hp as [_ ->]. do 2 f_equal.
      rewrite (take_S_r _ _ id) by by rewrite list_lookup_fmap, E.
      rewrite list_to_set_app_L. simpl. by rewrite union_empty_r_L.
    - apply lookup_ge_None in E. by rewrite drop_ge. }
  assert (Hrun : rows s = enqueued ops ∧ ∃ n, prefix_published n s).
  { unfold s. clear s. induction ops as [|o ops IH] using rev_ind.
    { split; [done|]. exists 0%nat. done. }
    unfold enqueued in *. rewrite omap_app, fmap_app in Hids. rewrite run_app, omap_app.
    apply NoDup_app in Hids as (Hids & _ & _). destruct (IH Hids) as (Hrows & n & Hn).
    destruct o as [id payload|acked]; simpl.
    - rewrite Hrows. split; [done|]. exists n. destruct Hn as [Hle Hp]. split; simpl.
      + rewrite length_app. lia.
      + rewrite Hp, fmap_app, take_app_le by (rewrite length_fmap; lia). done.
    - rewrite app_nil_r. unfold state_of. rewrite (Hpub _ n) by (rewrite ?Hrows; done).
      destruct (rows _ !! n) as [[id payload]|] eqn:E; [|by split; [|exists n]].
      destruct acked; cbn [fst rows]; [|by split; [|exists n]]. split; [done|]. exists (S n).
      split; cbn [rows published]; [|done]. by apply lookup_lt_Some in E. }
  destruct Hrun as (Hrows & n & Hn). split; [done|]. rewrite <-Hrows in Hids.
  exists n. split_and!; [apply Hn|apply Hn|by apply unpublished_prefix|by apply Hpub|].
  intros id. unfold mark_published. by rewrite bind_get, bind_raise_if.
Qed.

Lemma outbox_in_order_witness :
  rows (run ob_step [Enqueue 4 "a"; Publish false; Enqueue 9 "b"; Publish true] OutboxRelay.init)
  = [(4, "a"); (9, "b")].
Proof.
  refine (eq_trans (proj1 (outbox_in_order [Enqueue 4 "a"; Publish false; Enqueue 9 "b"; Publish true] _)) _).
  - apply (bool_decide_unpack _). vm_compute. exact I.
  - reflexivity.
Defined.

(** A row marked with no acknowledgement, ahead of the rows before it, is never published. *)
Lemma mark_published_skips :
  let s := run ob_step [Enqueue 4 "a"; Enqueue 9 "b"] OutboxRelay.init in
  mark_published 9 s = (OutboxRelay.mk (rows s) (published s ∪ {[9]}), Ok ())
  ∧ unpublished (state_of (mark_published 9) s) = [(4, "a")].
Proof. split; vm_compute; reflexivity. Qed.
End outbox.
