(* ===== verification/Structures.v ===== *)
(** * Data structures

    The containers the broker's schedulers and windows are built on:
    [relay/priorityqueue.py] (a binary heap in a list), [relay/topologicalsort.py],
    [relay/slidingmax.py], [relay/ringbuffer.py] and [relay/mergeiterator.py]. *)

From S2P Require Import Prelude PyDict.

Module PriorityQueue.
Notation item := (Z * string)%type (only parsing).

(** The order of Python's tuples, and its strict part. *)
Definition le (a b : item) : Prop := a.1 < b.1 ∨ (a.1 = b.1 ∧ String.le a.2 b.2).
#[export] Instance le_dec : RelDecision le.
Proof. intros a b. unfold le. apply _. Defined.
Definition ltb (a b : item) : bool := negb (bool_decide (le b a)).

(** [relay/priorityqueue.py] class PriorityQueue *)
Definition t : Type := list item.

(** [heap[i] < heap[j]], for positions of the heap *)
Definition lt_at (h : list item) (i j : nat) : bool :=
  match h !! i, h !! j with Some a, Some b => ltb a b | _, _ => false end.

(** [relay/priorityqueue.py:47-47] PriorityQueue.push: the exchange, which _sift_down repeats *)
Definition swap (h : list item) (i j : nat) : list item :=
  match h !! i, h !! j with Some a, Some b => <[i := b]> (<[j := a]> h) | _, _ => h end.

(** The loop ends when [i] is 0, and [i] falls at each turn: the fuel is [i]. *)
(** [relay/priorityqueue.py:44-50] PriorityQueue.push: the loop *)
Fixpoint sift_up (fuel : nat) (h : list item) (i : nat) : list item :=
  match fuel with
  | O => h
  | S fuel =>
      if bool_decide (i = 0)%nat then h
      else
        let parent := ((i - 1) / 2)%nat in
        if lt_at h i parent then sift_up fuel (swap h i parent) parent else h
  end.

(** [relay/priorityqueue.py] PriorityQueue.push *)
Definition push (priority : Z) (x : string) : act (list item) unit :=
  modify (λ h, h ++ [(priority, x)]);;
  modify (λ h, sift_up (length h - 1) h (length h - 1)).

(** [relay/priorityqueue.py] PriorityQueue.peek *)
Definition peek : act (list item) item :=
  h ← get; match h with [] => raise Invalid | top :: _ => mret top end.

(** [relay/priorityqueue.py:70-75] PriorityQueue._sift_down: the choice of the smallest *)
Definition smallest_of (h : list item) (i : nat) : nat :=
  let n := length h in
  let left := (2 * i + 1)%nat in
  let right := (2 * i + 2)%nat in
  let smallest := if bool_decide (left < n)%nat && lt_at h left i then left else i in
  if bool_decide (right < n)%nat && lt_at h right smallest then right else smallest.

(** [i] rises at each turn and stays in the heap: its length is fuel enough. *)
(** [relay/priorityqueue.py] PriorityQueue._sift_down *)
Fixpoint sift_down (fuel : nat) (h : list item) (i : nat) : list item :=
  match fuel with
  | O => h
  | S fuel =>
      let smallest := smallest_of h i in
      if bool_decide (smallest = i) then h else sift_down fuel (swap h i smallest) smallest
  end.

(** [relay/priorityqueue.py] PriorityQueue.pop *)
Definition pop : act (list item) item :=
  h ← get;
  match h with
  | [] => raise Invalid
  | top :: _ =>
      match last h with
      | None => raise IndexError
      | Some last =>
          let h := take (length h - 1) h in
          (if bool_decide (h = []) then put h
           else put (sift_down (length h) (<[0%nat := last]> h) 0));;
          mret top
      end
  end.

(** [relay/priorityqueue.py] PriorityQueue.size *)
Definition size (h : list item) : string :=
  zs (zlen h) +:+ " item(s) queued; a queue that only grows is work "
  +:+ "arriving faster than it is popped, a scheduler's backlog".
End PriorityQueue.

Module TopologicalSort.
(** [relay/topologicalsort.py] class TopologicalSort *)
Record t := mk { nodes : gset string; deps : pydict string (gset string) }.

Definition init : t := mk ∅ [].

(** [relay/topologicalsort.py] TopologicalSort.add_node *)
Definition add_node (name : string) : act t unit :=
  modify (λ g, mk (nodes g ∪ {[name]}) (deps g));;
  modify (λ g, mk (nodes g) (if d_mem (deps g) name then deps g else d_set (deps g) name ∅)).

(** [relay/topologicalsort.py] TopologicalSort.add_dependency *)
Definition add_dependency (node depends_on : string) : act t unit :=
  g ← get;
  raise_if (negb (bool_decide (node ∈ nodes g)) || negb (bool_decide (depends_on ∈ nodes g))) Invalid;;
  match d_get (deps g) node with
  | Some d => put (mk (nodes g) (d_set (deps g) node (d ∪ {[depends_on]})))
  | None => raise KeyError
  end.

(** [relay/topologicalsort.py:64-65] TopologicalSort.order: discarding a placed node from the dependencies *)
Definition without (n : string) (p : string * gset string) : string * gset string :=
  (p.1, p.2 ∖ {[n]}).

(** [relay/topologicalsort.py:61-65] TopologicalSort.order: the loop over the ready nodes *)
Definition discharge (remaining : pydict string (gset string)) (ready : list string)
    : pydict string (gset string) :=
  foldl (λ r n, without n <$> d_del r n) remaining ready.

(** [relay/topologicalsort.py:55-55] TopologicalSort.order: the ready nodes *)
Definition ready (remaining : pydict string (gset string)) : list string :=
  py_sorted String.le (filter (λ p : string * gset string, p.2 = ∅) remaining).*1.

(** Each turn removes a node: the number of nodes is fuel enough. *)
(** [relay/topologicalsort.py:54-66] TopologicalSort.order: the outer loop *)
Fixpoint order_loop (fuel : nat) (remaining : pydict string (gset string)) (out : list string)
    : result (list string) :=
  match remaining, fuel with
  | [], _ => Ok out
  | _, O => Err OutOfFuel
  | _, S fuel =>
      match ready remaining with
      | [] => Err Invalid
      | l => order_loop fuel (discharge remaining l) (out ++ l)
      end
  end.

(** [relay/topologicalsort.py] TopologicalSort.order *)
Definition order (g : t) : result (list string) := order_loop (length (deps g)) (deps g) [].

(** [relay/topologicalsort.py] TopologicalSort.initial_frontier *)
Definition initial_frontier (g : t) : Z :=
  zlen (filter (λ p : string * gset string, p.2 = ∅) (deps g)).

(** [relay/topologicalsort.py] TopologicalSort.report *)
Definition report (g : t) : string :=
  let width := initial_frontier g in
  if width <=? 1 then zs width +:+ " node(s) start first; a pipeline that serializes"
  else zs width +:+ " node(s) start first; parallelizable across them".
End TopologicalSort.

Module SlidingMax.
(** [relay/slidingmax.py] class SlidingMax *)
Record t := mk { window : Z; deque : list (Z * Z); index : Z }.

(** [relay/slidingmax.py] SlidingMax.__post_init__ *)
Definition make (window : Z) : result t :=
  if window <? 1 then Err Invalid else Ok (mk window [] (-1)).

(** the deque is written front first; the loop pops its back *)
(** [relay/slidingmax.py:51-52] SlidingMax.push: the loop *)
Definition drop_smaller (value : Z) (d : list (Z * Z)) : list (Z * Z) :=
  foldr (λ p kept, match kept with [] => if p.2 <=? value then [] else [p] | _ => p :: kept end) [] d.

(** [relay/slidingmax.py] SlidingMax.push *)
Definition push (value : Z) : act t unit :=
  modify (λ s, mk (window s) (deque s) (index s + 1));;
  modify (λ s, mk (window s) (drop_smaller value (deque s)) (index s));;
  modify (λ s, mk (window s) (deque s ++ [(index s, value)]) (index s));;
  modify (λ s, mk (window s)
    (match deque s with
     | p :: d => if p.1 <=? index s - window s then d else p :: d
     | [] => []
     end) (index s)).

(** [relay/slidingmax.py] SlidingMax.maximum *)
Definition maximum (s : t) : result Z :=
  match deque s with [] => Err Invalid | p :: _ => Ok p.2 end.

(** [relay/slidingmax.py] SlidingMax.report *)
Definition report (s : t) : string :=
  let held := zlen (deque s) in
  if window s <=? held then
    "deque holds " +:+ zs held +:+ "/" +:+ zs (window s) +:+ "; an increasing window where "
    +:+ "nothing can be discarded, the worst case saving nothing"
  else
    "deque holds " +:+ zs held +:+ "/" +:+ zs (window s) +:+ "; a few peaks dominate, the "
    +:+ "common case the monotonic deque is built for".
End SlidingMax.

Module RingBuffer.
(** [relay/ringbuffer.py] class RingBuffer *)
Record t := mk { capacity : Z; data : list Z; pos : Z; wrapped : bool }.

(** [relay/ringbuffer.py] RingBuffer.__post_init__ *)
Definition make (capacity : Z) : result t :=
  if capacity <? 1 then Err Invalid else Ok (mk capacity [] 0 false).

(** [relay/ringbuffer.py] RingBuffer.append *)
Definition append (value : Z) : act t unit :=
  b ← get;
  (if zlen (data b) <? capacity b then
     modify (λ b, mk (capacity b) (data b ++ [value]) (pos b) (wrapped b))
   else
     data' ← pure_of (py_setitem (data b) (pos b) value);
     modify (λ b, mk (capacity b) data' (pos b) true));;
  modify (λ b, mk (capacity b) (data b) ((pos b + 1) mod capacity b) (wrapped b)).

(** [relay/ringbuffer.py] RingBuffer.contents *)
Definition contents (b : t) : list Z :=
  if negb (wrapped b) then data b
  else drop (Z.to_nat (pos b)) (data b) ++ take (Z.to_nat (pos b)) (data b).

(** [relay/ringbuffer.py] RingBuffer.size *)
Definition size (b : t) : Z := zlen (data b).
(** [relay/ringbuffer.py] RingBuffer.has_wrapped *)
Definition has_wrapped (b : t) : bool := wrapped b.

(** [relay/ringbuffer.py] RingBuffer.fill_note *)
Definition fill_note (b : t) : string :=
  if negb (wrapped b) then
    zs (size b) +:+ "/" +:+ zs (capacity b) +:+ " filled, not yet wrapped; a "
    +:+ "statistic over this is fewer samples than the window "
    +:+ "implies, understating variance"
  else "full at " +:+ zs (capacity b) +:+ ", overwriting the oldest on each append".
End RingBuffer.

Module mergeiterator.
(** [relay/mergeiterator.py] _check_sorted *)
Fixpoint check_sorted (prev : Z) (stream : list Z) : bool :=
  match stream with
  | [] => true
  | x :: stream' => if x <? prev then false else check_sorted x stream'
  end.
(** [relay/mergeiterator.py:45-46] merge: the check of one input *)
Definition input_ok (s : list Z) : bool :=
  match s with [] => true | x :: s' => check_sorted x s' end.

(** A stream and its cursor are what the cursor has not passed.  The scan keeps the
    first stream with the smallest head. *)
(** [relay/mergeiterator.py:52-57] merge: the scan of the heads *)
Fixpoint scan (i : Z) (streams : list (list Z)) (best : option (Z * Z)) : option (Z * Z) :=
  match streams with
  | [] => best
  | s :: streams' =>
      let best :=
        match s with
        | [] => best
        | head :: _ =>
            match best with
            | None => Some (head, i)
            | Some (smallest, _) => if head <? smallest then Some (head, i) else best
            end
        end in
      scan (i + 1) streams' best
  end.

(** Each turn passes one element: their number is fuel enough. *)
(** [relay/mergeiterator.py:49-64] merge: the loop *)
Fixpoint merge_loop (fuel : nat) (dedupe : bool) (streams : list (list Z)) (out : list Z) : list Z :=
  match fuel with
  | O => out
  | S fuel =>
      match scan 0 streams None with
      | None => out
      | Some (smallest, chosen) =>
          let streams := alter tail (Z.to_nat chosen) streams in
          if dedupe && bool_decide (last out = Some smallest) then merge_loop fuel dedupe streams out
          else merge_loop fuel dedupe streams (out ++ [smallest])
      end
  end.

(** [relay/mergeiterator.py] merge *)
Definition merge (streams : list (list Z)) (dedupe : bool) : result (list Z) :=
  if forallb input_ok streams then
    Ok (merge_loop (S (length (concat streams))) dedupe streams [])
  else Err Invalid.

(** [relay/mergeiterator.py] merge_report *)
Definition merge_report (streams : list (list Z)) (dedupe : bool) : result string :=
  match merge streams dedupe with
  | Err e => Err e
  | Ok merged =>
      let total_in := zsum zlen streams in
      Ok ("merged " +:+ zs total_in +:+ " element(s) from " +:+ zs (zlen streams) +:+ " stream(s) into "
        +:+ zs (zlen merged) +:+ "; " +:+ zs (total_in - zlen merged) +:+ " collapsed by dedupe, the compaction the "
        +:+ "merge was doing")
  end.
End mergeiterator.

(** ** Proofs *)

Section priority_queue.
Import PriorityQueue.
Implicit Types (h : list (Z * string)) (a b x y : Z * string).

#[local] Instance le_trans : Transitive le.
Proof.
  intros a b c [H1|[H1 H1']] [H2|[H2 H2']]; unfold le; [left; lia..|].
  right. split; [lia|by etrans].
Qed.
#[local] Instance le_total : Total le.
Proof.
  intros a b. unfold le. destruct (Z.lt_trichotomy a.1 b.1) as [|[E|]]; [by left; left| |by right; left].
  destruct (total String.le a.2 b.2); [by left; right|by right; right].
Qed.
#[local] Instance le_antisym : AntiSymm (=) le.
Proof.
  intros [p s] [p' s'] [H1|[H1 H1']] [H2|[H2 H2']]; simpl in *; try lia.
  f_equal; [done|]. by apply (anti_symm String.le).
Qed.
Lemma le_refl a : le a a.
Proof. by destruct (total le a a). Qed.

Lemma ltb_true a b : ltb a b = true → le a b.
Proof.
  unfold ltb. rewrite negb_true_iff, bool_decide_eq_false. intros H.
  by destruct (total le a b).
Qed.
Lemma ltb_false a b : ltb a b = false → le b a.
Proof. unfold ltb. by rewrite negb_false_iff, bool_decide_eq_true. Qed.

Lemma swap_Permutation h i j : swap h i j ≡ₚ h.
Proof.
  unfold swap. destruct (h !! i) as [a|] eqn:Hi; [|done]. destruct (h !! j) as [b|] eqn:Hj; [|done].
  apply Permutation_inj. split; [by rewrite !length_insert|].
  exists (λ k, if decide (k = i) then j else if decide (k = j) then i else k). split.
  - intros k k'. repeat case_decide; congruence.
  - intros k. pose proof (lookup_lt_Some _ _ _ Hi). pose proof (lookup_lt_Some _ _ _ Hj).
    destruct (decide (k = i)) as [->|].
    + rewrite list_lookup_insert_eq by (by rewrite length_insert). done.
    + rewrite list_lookup_insert_ne by done. case_decide as Hk.
      * subst k. by rewrite list_lookup_insert_eq.
      * by rewrite list_lookup_insert_ne.
Qed.

Lemma swap_length h i j : length (swap h i j) = length h.
Proof. apply Permutation_length, swap_Permutation. Qed.

Lemma swap_lookup h i j k a b : h !! i = Some a → h !! j = Some b →
  swap h i j !! k = if decide (k = i) then Some b else if decide (k = j) then Some a else h !! k.
Proof.
  intros Hi Hj. unfold swap. rewrite Hi, Hj.
  pose proof (lookup_lt_Some _ _ _ Hi). pose proof (lookup_lt_Some _ _ _ Hj).
  case_decide; [subst; apply list_lookup_insert_eq; by rewrite length_insert|].
  rewrite list_lookup_insert_ne by done.
  case_decide; [subst; by apply list_lookup_insert_eq|by rewrite list_lookup_insert_ne].
Qed.

Definition parent (i : nat) : nat := ((i - 1) / 2)%nat.

Lemma parent_lt i : (0 < i)%nat → (parent i < i)%nat.
Proof. intros. unfold parent. apply Nat.Div0.div_lt_upper_bound. lia. Qed.
Lemma parent_child i j : (0 < j)%nat → parent j = i ↔ (j = 2 * i + 1 ∨ j = 2 * i + 2)%nat.
Proof.
  intros Hj. unfold parent. pose proof (Nat.div_mod (j - 1) 2 ltac:(lia)).
  pose proof (Nat.mod_upper_bound (j - 1) 2 ltac:(lia)). lia.
Qed.

(** Every node but those of [except] is above its parent. *)
Definition heap_but (except : nat → Prop) (h : list (Z * string)) : Prop :=
  ∀ j x y, (0 < j)%nat → ¬ except j → h !! j = Some x → h !! parent j = Some y → le y x.
Definition heap (h : list (Z * string)) : Prop := heap_but (λ _, False) h.

(** The children of [i] are above its parent. *)
Definition bridged (h : list (Z * string)) (i : nat) : Prop :=
  ∀ j x y, (0 < j)%nat → (0 < i)%nat → parent j = i → h !! j = Some x → h !! parent i = Some y → le y x.

Lemma sift_up_spec fuel h i :
  (i <= fuel)%nat → (i < length h)%nat → heap_but (.= i) h → bridged h i →
  heap (sift_up fuel h i) ∧ sift_up fuel h i ≡ₚ h.
Proof.
  revert h i. induction fuel as [|fuel IH]; intros h i Hf Hi Hh Hb; cbn [sift_up].
  { split; [|done]. intros j x y Hj _. apply Hh; lia. }
  case_bool_decide as Hi0.
  { split; [|done]. intros j x y Hj _. apply Hh; lia. }
  change ((i - 1) / 2)%nat with (parent i). pose proof (parent_lt i ltac:(lia)) as Hp.
  destruct (lookup_lt_is_Some_2 h i Hi) as [a Ha].
  destruct (lookup_lt_is_Some_2 h (parent i) ltac:(lia)) as [b Hb'].
  unfold lt_at. rewrite Ha, Hb'. destruct (ltb a b) eqn:Hlt.
  - apply ltb_true in Hlt. destruct (IH (swap h i (parent i)) (parent i)) as [H1 H2].
    + lia.
    + rewrite swap_length. lia.
    + intros j x y Hj Hne. rewrite !(swap_lookup _ _ _ _ _ _ Ha Hb').
      pose proof (parent_lt j Hj).
      destruct (decide (j = i)) as [->|].
      { rewrite decide_False by lia. rewrite decide_True by done. intros [= <-] [= <-]. done. }
      rewrite (decide_False (P:=j = parent i)) by done. intros Hx.
      destruct (decide (parent j = i)) as [Hpj|].
      { intros [= <-]. apply (Hb j); [done|lia|done..]. }
      destruct (decide (parent j = parent i)) as [Hpj|]; [|by apply Hh].
      intros [= <-]. trans b; [done|]. apply (Hh j); [done|done|done|by rewrite Hpj].
    + intros j x y Hj Hpi Hpj. rewrite !(swap_lookup _ _ _ _ _ _ Ha Hb').
      pose proof (parent_lt (parent i) Hpi).
      rewrite (decide_False (P:=parent (parent i) = i)), (decide_False (P:=parent (parent i) = parent i)) by lia.
      intros Hx Hy. assert (le y b) by (apply (Hh (parent i)); try done; lia).
      destruct (decide (j = i)); [by simplify_eq|].
      pose proof (parent_lt j Hj). rewrite decide_False in Hx by lia.
      trans b; [done|]. apply (Hh j); [done|done|done|by rewrite Hpj].
    + split; [done|]. rewrite H2. apply swap_Permutation.
  - apply ltb_false in Hlt. split; [|done]. intros j x y Hj _ Hx Hy.
    destruct (decide (j = i)) as [->|]; [by simplify_eq|by apply (Hh j)].
Qed.

Lemma push_spec p s h : heap h →
  ∃ h', push p s h = (h', Ok ()) ∧ heap h' ∧ h' ≡ₚ (p, s) :: h.
Proof.
  intros Hh. unfold push. rewrite bind_modify, run_modify.
  rewrite length_app. simpl. replace (length h + 1 - 1)%nat with (length h) by lia.
  destruct (sift_up_spec (length h) (h ++ [(p, s)]) (length h)) as [H1 H2].
  - lia.
  - rewrite length_app. simpl. lia.
  - intros j x y Hj Hne Hx Hy. pose proof (lookup_lt_Some _ _ _ Hx) as Hlt. rewrite length_app in Hlt.
    simpl in Hlt. pose proof (parent_lt j Hj). rewrite lookup_app_l in Hx, Hy by lia. eapply (Hh j); eauto.
  - intros j x y Hj Hi Hpj Hx. pose proof (lookup_lt_Some _ _ _ Hx) as Hlt. rewrite length_app in Hlt.
    simpl in Hlt. pose proof (parent_lt j Hj). lia.
  - eexists. split; [done|]. split; [done|]. rewrite H2. symmetry. apply Permutation_cons_append.
Qed.

(** What [smallest_of] picks: the least of a node and its children. *)
Lemma smallest_of_spec h i a : h !! i = Some a →
  ∃ m, h !! smallest_of h i = Some m ∧ le m a
  ∧ (smallest_of h i = i ∨ ((0 < smallest_of h i)%nat ∧ parent (smallest_of h i) = i))
  ∧ ∀ j x, (0 < j)%nat → parent j = i → h !! j = Some x → le m x.
Proof.
  intros Ha. unfold smallest_of, lt_at. rewrite Ha.
  set (l := (2 * i + 1)%nat). set (r := (2 * i + 2)%nat).
  assert (Hl : (0 < l)%nat ∧ parent l = i) by (split; [lia|apply parent_child; lia]).
  assert (Hr : (0 < r)%nat ∧ parent r = i) by (split; [lia|apply parent_child; lia]).
  assert (Hkids : ∀ j x, (0 < j)%nat → parent j = i → h !! j = Some x →
    (j = l ∧ h !! l = Some x) ∨ (j = r ∧ h !! r = Some x)).
  { intros j x Hj Hp Hx. apply parent_child in Hp; [|done]. destruct Hp; subst; [left|right]; done. }
  assert (Hlen : ∀ j, h !! j = None ↔ ¬ (j < length h)%nat) by (intros j; rewrite lookup_ge_None; lia).
  assert (Hlen' : ∀ j x, h !! j = Some x → (j < length h)%nat) by (intros j x; apply lookup_lt_Some).
  set (s := if bool_decide (l < length h)%nat && _ then l else i).
  assert (∃ m, h !! s = Some m ∧ le m a ∧ (s = i ∨ s = l) ∧ ∀ x, h !! l = Some x → le m x)
    as (m & Hm & Hma & Hs & Hml).
  { unfold s. destruct (h !! l) as [x|] eqn:Hx.
    - rewrite bool_decide_eq_true_2 by eauto. simpl. destruct (ltb x a) eqn:Hlt.
      + exists x. split_and!; [done|by apply ltb_true|by right|]. intros ? [= <-]. apply le_refl.
      + exists a. split_and!; [done|apply le_refl|by left|]. intros ? [= <-]. by apply ltb_false.
    - rewrite bool_decide_eq_false_2 by (by apply Hlen). exists a. split_and!; [done|apply le_refl|by left|done]. }
  clearbody s. rewrite Hm. destruct (h !! r) as [x|] eqn:Hx.
  - rewrite bool_decide_eq_true_2 by eauto. simpl. destruct (ltb x m) eqn:Hlt.
    + apply ltb_true in Hlt. exists x. split_and!; [done|by trans m|by right|].
      intros j y Hj Hp Hy. destruct (Hkids _ _ Hj Hp Hy) as [[_ Hy']|[_ Hy']]; [trans m; auto|].
      replace y with x by congruence. apply le_refl.
    + apply ltb_false in Hlt. exists m. split_and!; [done|done|destruct Hs as [->| ->]; [by left|by right]|].
      intros j y Hj Hp Hy. destruct (Hkids _ _ Hj Hp Hy) as [[_ Hy']|[_ Hy']]; [auto|].
      by replace y with x by congruence.
  - rewrite bool_decide_eq_false_2 by (by apply Hlen). simpl. exists m.
    split_and!; [done|done|destruct Hs as [->| ->]; [by left|by right]|].
    intros j y Hj Hp Hy. destruct (Hkids _ _ Hj Hp Hy) as [[_ Hy']|[_ Hy']]; [auto|congruence].
Qed.

Lemma sift_down_spec fuel h i :
  (length h <= fuel + i)%nat → (i < length h)%nat →
  heap_but (λ j, parent j = i) h → bridged h i →
  heap (sift_down fuel h i) ∧ sift_down fuel h i ≡ₚ h.
Proof.
  revert h i. induction fuel as [|fuel IH]; intros h i Hf Hi Hh Hb; [lia|]. cbn [sift_down].
  destruct (lookup_lt_is_Some_2 h i Hi) as [a Ha].
  destruct (smallest_of_spec h i a Ha) as (m & Hm & Hma & Hs & Hle).
  set (s := smallest_of h i) in *. clearbody s. case_bool_decide as Hsi.
  - subst s. rewrite Ha in Hm. simplify_eq. split; [|done]. intros j x y Hj _ Hx Hy.
    destruct (decide (parent j = i)) as [Hp|]; [|by apply (Hh j)].
    rewrite Hp, Ha in Hy. simplify_eq. by eapply Hle.
  - destruct Hs as [|[Hs0 Hps]]; [done|]. pose proof (parent_lt s Hs0) as Hlt. rewrite Hps in Hlt.
    pose proof (lookup_lt_Some _ _ _ Hm).
    destruct (IH (swap h i s) s) as [H1 H2].
    + rewrite swap_length. lia.
    + rewrite swap_length. lia.
    + intros j x y Hj Hne. rewrite !(swap_lookup _ _ _ _ _ _ Ha Hm).
      rewrite (decide_False (P:=parent j = s)) by done.
      destruct (decide (parent j = i)) as [Hp|Hp].
      { intros Hx [= <-]. pose proof (parent_lt j Hj). rewrite decide_False in Hx by lia.
        destruct (decide (j = s)); [simplify_eq; done|by eapply Hle]. }
      destruct (decide (j = i)) as [->|].
      { intros [= <-] Hy. by apply (Hb s m y). }
      rewrite decide_False by congruence. intros Hx Hy. by apply (Hh j).
    + intros j x y Hj _ Hpj. rewrite !(swap_lookup _ _ _ _ _ _ Ha Hm), Hps.
      rewrite (decide_True (P:=i = i)) by done. pose proof (parent_lt j Hj).
      rewrite !decide_False by lia. intros Hx [= <-].
      apply (Hh j); [done|lia|done|by rewrite Hpj].
    + split; [done|]. rewrite H2. apply swap_Permutation.
Qed.

Lemma heap_top h top : heap h → h !! 0%nat = Some top → ∀ x, x ∈ h → le top x.
Proof.
  intros Hh Htop x [i Hi]%list_elem_of_lookup. revert x Hi. induction i as [i IH] using lt_wf_ind.
  intros x Hi. destruct (decide (i = 0)%nat) as [->|]; [simplify_eq; apply le_refl|].
  pose proof (parent_lt i ltac:(lia)) as Hp. pose proof (lookup_lt_Some _ _ _ Hi).
  destruct (lookup_lt_is_Some_2 h (parent i) ltac:(lia)) as [y Hy].
  trans y; [by apply (IH (parent i))|]. apply (Hh i); [lia|tauto|done|done].
Qed.

Lemma pop_spec h top rest : heap h → h = top :: rest →
  ∃ h', pop h = (h', Ok top) ∧ heap h' ∧ top :: h' ≡ₚ h.
Proof.
  intros Hh ->. unfold pop. rewrite bind_get.
  destruct rest as [|x mid _] using rev_ind.
  { exists []. split; [done|]. split; [|done]. intros j x y _ _ Hx. by rewrite lookup_nil in Hx. }
  rewrite app_comm_cons, last_snoc.
  assert (take (length ((top :: mid) ++ [x]) - 1) ((top :: mid) ++ [x]) = top :: mid) as ->.
  { rewrite length_app, Nat.add_sub. apply take_app_length. }
  rewrite bool_decide_eq_false_2, bind_put, run_ret by done. cbn [insert list_insert].
  assert (Hsame : ∀ j y, (0 < j)%nat → (x :: mid) !! j = Some y → ((top :: mid) ++ [x]) !! j = Some y).
  { intros [|j] y Hj Hy; [lia|]. simpl in *. rewrite lookup_app_l; [done|]. by eapply lookup_lt_Some. }
  destruct (sift_down_spec (length (top :: mid)) (x :: mid) 0) as [H1 H2].
  - simpl. lia.
  - simpl. lia.
  - intros j a b Hj Hp Ha Hb. apply (Hh j); [done|tauto|by apply Hsame|].
    apply Hsame; [|done]. destruct (parent j); [done|lia].
  - intros j a b _ Hi. lia.
  - eexists. split; [done|]. split; [done|]. rewrite H2. simpl. f_equiv. apply Permutation_cons_append.
Qed.

(** Emptying the queue, one [pop] after the other. *)
Fixpoint drain (n : nat) h : list (Z * string) :=
  match n with
  | O => []
  | S n => match pop h with (h', Ok top) => top :: drain n h' | (_, Err _) => [] end
  end.

Lemma drain_spec n h : heap h → length h = n → drain n h ≡ₚ h ∧ StronglySorted le (drain n h).
Proof.
  revert h. induction n as [|n IH]; intros h Hh Hn.
  { apply nil_length_inv in Hn as ->. split; [done|constructor]. }
  destruct h as [|top rest] eqn:E; [done|]. rewrite <-E in *. cbn [drain].
  destruct (pop_spec h top rest Hh E) as (h' & -> & Hh' & Hp).
  destruct (IH h' Hh') as [H1 H2].
  { apply Permutation_length in Hp. simpl in Hp. lia. }
  split; [by rewrite H1|]. constructor; [done|]. apply Forall_forall. intros x Hx.
  rewrite H1 in Hx. apply (heap_top h); [done|by rewrite E|]. rewrite <-Hp. by right.
Qed.

Inductive pq_op := Push (priority : Z) (item : string) | Pop.
(** The queue, with what was pushed and what was popped so far. *)
Definition pq_step (o : pq_op) (s : list (Z * string) * list (Z * string) * list (Z * string)) :=
  let '(h, pushed, popped) := s in
  match o with
  | Push p x => (state_of (push p x) h, pushed ++ [(p, x)], popped)
  | Pop => (state_of pop h, pushed,
            popped ++ match value_of pop h with Ok top => [top] | Err _ => [] end)
  end.

(** Also (functional): The priority queue is a queue by priority. After any run of [push] and [pop]:
    every node of the heap is at least its parent; the items pushed are exactly those popped and
    those still in the queue (as multisets); on a non-empty queue [peek] and [pop] both answer a
    smallest item by (priority, name), and on an empty one both raise [Invalid]; and popping until
    the queue is empty yields its items in sorted order, whatever the order they were pushed in. *)
Theorem priority_queue_order ops :
  let '(h, pushed, popped) := run pq_step ops ([], [], []) in
  (∀ i x y, (0 < i)%nat → h !! i = Some x → h !! ((i - 1) / 2)%nat = Some y → le y x)
  ∧ pushed ≡ₚ popped ++ h
  ∧ match h with
    | [] => peek h = (h, Err Invalid) ∧ pop h = (h, Err Invalid)
    | _ => ∃ top, peek h = (h, Ok top) ∧ value_of pop h = Ok top ∧ top ∈ h ∧ ∀ x, x ∈ h → le top x
    end
  ∧ drain (length h) h = py_sorted le h.
Proof.
  assert (Hinv : let '(h, pushed, popped) := run pq_step ops ([], [], []) in heap h ∧ pushed ≡ₚ popped ++ h).
  { apply (run_invariant pq_step (λ s, let '(h, pushed, popped) := s in heap h ∧ pushed ≡ₚ popped ++ h)).
    - intros o [[h pushed] popped] [Hh Hp]. destruct o as [p x|]; cbn [pq_step]; unfold state_of, value_of.
      + destruct (push_spec p x h Hh) as (h' & -> & H1 & H2). cbn [fst]. split; [done|].
        rewrite Hp, H2. solve_Permutation.
      + destruct h as [|top rest] eqn:E; [by rewrite app_nil_r|]. rewrite <-E in *.
        destruct (pop_spec h top rest Hh E) as (h' & -> & H1 & H2). cbn [fst snd]. split; [done|].
        rewrite Hp, <-H2. solve_Permutation.
    - split; [|done]. intros j x y _ _ Hx. by rewrite lookup_nil in Hx. }
  destruct (run pq_step ops ([], [], [])) as [[h pushed] popped]. destruct Hinv as [Hh Hp].
  split_and!; [|done| |].
  - intros i x y Hi. apply Hh; [done|tauto].
  - destruct h as [|top rest] eqn:E; [done|]. rewrite <-E in *. exists top.
    destruct (pop_spec h top rest Hh E) as (h' & Hpop & _ & _). unfold value_of. rewrite Hpop.
    split_and!; [by rewrite E|done|rewrite E; left|]. apply heap_top; [done|by rewrite E].
  - destruct (drain_spec (length h) h Hh eq_refl) as [H1 H2]. apply (StronglySorted_unique le); [done| |].
    + apply Sorted_StronglySorted; [apply _|]. apply py_sorted_Sorted, _.
    + rewrite H1. symmetry. apply py_sorted_Permutation.
Qed.
End priority_queue.

Section topological_sort.
Import TopologicalSort.

Abbreviation graph := (pydict string (gset string)) (only parsing).

(** [out] lists the nodes once each, after everything they depend on. *)
Definition valid_order (d : graph) (out : list string) : Prop :=
  out ≡ₚ d_keys d
  ∧ ∀ i n s, out !! i = Some n → d_get d n = Some s → s ⊆ (list_to_set (take i out) : gset string).

Record graph_ok (d : graph) : Prop := {
  graph_wf : d_wf d;
  graph_closed n s m : d_get d n = Some s → m ∈ s → m ∈ d_keys d }.

(** The nodes already placed, and what is left of the others' dependencies. *)
Record placed (d remaining : graph) (out : list string) : Prop := {
  placed_wf : d_wf remaining;
  placed_all : out ++ d_keys remaining ≡ₚ d_keys d;
  placed_left n s : d_get remaining n = Some s →
    ∃ s0, d_get d n = Some s0 ∧ s = s0 ∖ list_to_set out;
  placed_after i n s : out !! i = Some n → d_get d n = Some s → s ⊆ (list_to_set (take i out) : gset string) }.

Lemma without_get n (r : graph) m : d_get (without n <$> r) m = (λ s, s ∖ {[n]}) <$> d_get r m.
Proof.
  induction r as [|[k s] r IH]; [done|]. simpl. by case_bool_decide.
Qed.
Lemma without_keys n (r : graph) : d_keys (without n <$> r) = d_keys r.
Proof. unfold d_keys. rewrite <-list_fmap_compose. by apply list_fmap_ext. Qed.

Lemma placed_one d r out n s : graph_ok d →
  placed d r out → d_get r n = Some s → (∀ s0, d_get d n = Some s0 → s0 ⊆ list_to_set out) →
  placed d (without n <$> d_del r n) (out ++ [n]).
Proof.
  intros Hd [H1 H2 H3 H4] Hn Hdeps.
  assert (Hin : n ∈ d_keys r) by (apply d_get_is_Some; eauto).
  split.
  - unfold d_wf. rewrite without_keys. by apply d_wf_del.
  - rewrite without_keys, <-app_assoc, <-H2. simpl. f_equiv. symmetry. by apply d_del_Permutation.
  - intros m s'. rewrite without_get, fmap_Some, d_get_del. intros (s1 & Hm & ->).
    case_bool_decide; [done|]. destruct (H3 _ _ Hm) as (s0 & Hs0 & ->). exists s0. split; [done|].
    rewrite list_to_set_app_L. apply set_eq. intros x. rewrite !elem_of_difference, elem_of_union. simpl.
    rewrite elem_of_union, elem_of_empty. tauto.
  - intros i m s' [[Hi Hlt]|[-> ->]]%lookup_snoc_inv Hm.
    + rewrite take_app_le by lia. by eapply H4.
    + rewrite take_app_length. by apply Hdeps.
Qed.

Lemma placed_all_ready d r out l : graph_ok d →
  placed d r out → NoDup l → (∀ n, n ∈ l → n ∈ d_keys r) →
  (∀ n s0, n ∈ l → d_get d n = Some s0 → s0 ⊆ list_to_set out) →
  placed d (discharge r l) (out ++ l).
Proof.
  intros Hd. revert r out. induction l as [|n l IH]; intros r out Hp Hnd Hk Hdeps.
  { by rewrite app_nil_r. }
  apply NoDup_cons in Hnd as [Hn Hnd].
  destruct (proj2 (d_get_is_Some r n)) as [s Hs]; [apply Hk; left|].
  unfold discharge in *. cbn [foldl]. replace (out ++ n :: l) with ((out ++ [n]) ++ l) by by rewrite <-app_assoc.
  apply IH; [|done| |].
  - apply (placed_one d r out n s); [done..|]. intros s0. apply Hdeps. left.
  - intros m Hm. rewrite without_keys, d_keys_del, list_elem_of_filter.
    split; [by intros ->|apply Hk; by right].
  - intros m s0 Hm Hs0. rewrite list_to_set_app_L. etrans; [|apply union_subseteq_l].
    apply (Hdeps m); [by right|done].
Qed.

Lemma ready_spec (r : graph) n : d_wf r → n ∈ ready r ↔ d_get r n = Some ∅.
Proof.
  intros Hwf. unfold ready. rewrite py_sorted_elem_of, list_elem_of_fmap. split.
  - intros ([m s] & -> & [Hs Hin]%list_elem_of_filter). simpl in *. subst s. by apply d_elem_of_get.
  - intros H%d_get_elem_of. exists (n, ∅). split; [done|]. by apply list_elem_of_filter.
Qed.

Lemma ready_NoDup (r : graph) : d_wf r → NoDup (ready r).
Proof.
  unfold d_wf, d_keys, ready. intros Hwf. rewrite py_sorted_Permutation.
  eapply sublist_NoDup; [exact Hwf|]. apply fmap_sublist, sublist_filter.
Qed.

(** With nothing ready, every remaining node waits for another one: no order exists. *)
Lemma blocked_no_order d r out : graph_ok d → placed d r out → r ≠ [] → ready r = [] →
  ¬ ∃ o, valid_order d o.
Proof.
  intros Hd Hp Hne Hready (o & Ho & Hafter).
  assert (Hwait : ∀ n, n ∈ d_keys r → ∃ s m, d_get d n = Some s ∧ m ∈ s ∧ m ∈ d_keys r).
  { intros n [s Hs]%d_get_is_Some. destruct (placed_left _ _ _ Hp _ _ Hs) as (s0 & Hs0 & ->).
    destruct (set_choose_or_empty (s0 ∖ list_to_set out)) as [[m [Hm Hni]%elem_of_difference]|Hemp].
    - exists s0, m. split_and!; [done..|]. rewrite elem_of_list_to_set in Hni.
      pose proof (graph_closed _ Hd _ _ _ Hs0 Hm) as Hk. rewrite <-(placed_all _ _ _ Hp) in Hk.
      by apply elem_of_app in Hk as [?|?].
    - exfalso. apply (not_elem_of_nil n). rewrite <-Hready. apply ready_spec; [apply Hp|].
      rewrite Hs. f_equal. by apply leibniz_equiv. }
  assert (Hno : ∀ i n, o !! i = Some n → n ∉ d_keys r).
  { induction i as [i IH] using lt_wf_ind. intros n Hi Hn.
    destruct (Hwait n Hn) as (s & m & Hs & Hm & Hmr). pose proof (Hafter _ _ _ Hi Hs m Hm) as Hin.
    apply elem_of_list_to_set, list_elem_of_lookup in Hin as [j Hj].
    apply lookup_take_Some in Hj as [Hj Hlt]. by apply (IH j Hlt m). }
  destruct r as [|[n s] r]; [done|]. assert (Hn : n ∈ o).
  { rewrite Ho, <-(placed_all _ _ _ Hp). apply elem_of_app. right. left. }
  apply list_elem_of_lookup in Hn as [i Hi]. apply (Hno i n Hi). left.
Qed.

Lemma order_loop_spec fuel d r out : graph_ok d → placed d r out → (length r <= fuel)%nat →
  (∃ o, order_loop fuel r out = Ok o ∧ valid_order d o)
  ∨ (order_loop fuel r out = Err Invalid ∧ ¬ ∃ o, valid_order d o).
Proof.
  intros Hd. revert r out. induction fuel as [|fuel IH]; intros r out Hp Hf.
  { destruct r; [|simpl in Hf; lia]. left. exists out. split; [done|]. destruct Hp as [_ H2 _ H4].
    split; [by rewrite app_nil_r in H2|done]. }
  cbn [order_loop]. destruct r as [|p r'] eqn:Hr.
  { left. exists out. split; [done|]. destruct Hp as [_ H2 _ H4]. split; [by rewrite app_nil_r in H2|done]. }
  rewrite <-Hr in *. destruct (ready r) as [|n l] eqn:Hready.
  { right. split; [done|]. by eapply blocked_no_order; [..|subst r|]. }
  assert (Hp' : placed d (discharge r (ready r)) (out ++ ready r)).
  { apply placed_all_ready; [done..|apply ready_NoDup, Hp| |].
    - intros m Hm%ready_spec; [|apply Hp]. apply d_get_is_Some. eauto.
    - intros m s0 Hm%ready_spec Hs0; [|apply Hp]. destruct (placed_left _ _ _ Hp _ _ Hm) as (s1 & Hs1 & He).
      assert (s1 = s0) as -> by congruence. intros x Hx. destruct (decide (x ∈ list_to_set (C:=gset string) out)); [done|].
      destruct (not_elem_of_empty (C:=gset string) x). rewrite He. by apply elem_of_difference. }
  rewrite Hready in Hp'. apply (IH _ _ Hp').
  pose proof (placed_all _ _ _ Hp) as H1. pose proof (placed_all _ _ _ Hp') as H2. rewrite <-H1 in H2.
  apply Permutation_length in H2. rewrite !length_app, !d_keys_length in H2. simpl in H2. subst r. simpl in *. lia.
Qed.

Inductive ts_op := AddNode (name : string) | AddDependency (node depends_on : string).
Definition ts_step (o : ts_op) (g : TopologicalSort.t) : TopologicalSort.t :=
  match o with
  | AddNode n => state_of (add_node n) g
  | AddDependency n m => state_of (add_dependency n m) g
  end.

Definition ts_ok (g : TopologicalSort.t) : Prop :=
  graph_ok (deps g) ∧ ∀ n, n ∈ nodes g ↔ n ∈ d_keys (deps g).

Lemma ts_step_ok o g : ts_ok g → ts_ok (ts_step o g).
Proof.
  intros [[Hwf Hcl] Hn]. destruct o as [n|n m]; cbn [ts_step].
  - unfold state_of, add_node. rewrite bind_modify, run_modify. cbn [fst nodes deps].
    unfold d_mem. case_bool_decide as Hk.
    { split; [done|]. intros m. cbn [deps nodes]. rewrite elem_of_union, elem_of_singleton, Hn. naive_solver. }
    split; cbn [deps nodes].
    + split; [by apply d_wf_set|]. intros m s x. rewrite d_get_set, d_keys_set_fresh by done.
      case_bool_decide; [intros [= <-] []%not_elem_of_empty|]. intros. apply elem_of_app. left. by eapply Hcl.
    + intros m. rewrite d_keys_set_fresh, elem_of_app, elem_of_union, elem_of_singleton, list_elem_of_singleton, Hn by done.
      tauto.
  - unfold state_of, add_dependency. rewrite bind_get, bind_raise_if.
    destruct (negb _ || negb _) eqn:E; [by split|]. bool_prop.
    destruct (d_get (deps g) n) as [d|] eqn:Hd; [|by split].
    assert (Hk : n ∈ d_keys (deps g)) by (apply d_get_is_Some; eauto).
    rewrite run_put. cbn [fst]. split; cbn [deps nodes].
    + split; [by apply d_wf_set|]. intros k s x. rewrite d_get_set, d_keys_set_mem by done.
      case_bool_decide; [|by apply Hcl]. intros [= <-] [Hx|Hx]%elem_of_union; [by eapply Hcl|].
      apply elem_of_singleton in Hx as ->. by apply Hn.
    + intros k. by rewrite d_keys_set_mem.
Qed.

(** C40 (functional): [order] schedules exactly the graphs that can be scheduled. For any graph built by
    [add_node] and [add_dependency]: if some order places every node once, after everything it
    depends on, then [order] returns such an order; if none exists, because of a cycle, it raises
    [Invalid]; so its loop always ends. [add_node] adds a node that depends on nothing, and changes nothing
    when it is there already; [add_dependency] raises [Invalid] and changes nothing when an
    end of the edge was never added, and otherwise the node depends on the other too. *)
Theorem topological_order ops n m (g := run ts_step ops TopologicalSort.init) :
  match order g with
  | Ok out => valid_order (deps g) out
  | Err e => e = Invalid ∧ ¬ ∃ out, valid_order (deps g) out
  end
  ∧ deps (state_of (add_node n) g)
    = match d_get (deps g) n with Some _ => deps g | None => d_set (deps g) n ∅ end
  ∧ add_dependency n m g =
    match d_get (deps g) n with
    | Some d => if bool_decide (m ∈ d_keys (deps g)) then
                  (TopologicalSort.mk (nodes g) (d_set (deps g) n (d ∪ {[m]})), Ok ())
                else (g, Err Invalid)
    | None => (g, Err Invalid)
    end.
Proof.
  assert (Hg : ts_ok g).
  { apply run_invariant; [apply ts_step_ok|]. split; [split; [apply d_wf_nil|done]|]. intros x.
    simpl. split; [by intros []%not_elem_of_empty|by intros []%elem_of_nil]. }
  destruct Hg as [Hg Hn]. split_and!.
  - unfold order. destruct (order_loop_spec (length (deps g)) (deps g) (deps g) [] Hg) as [(o & -> & Ho)|[-> Hno]];
      [|done|done|done].
    split; [apply Hg|done| |].
    + intros k s Hk. exists s. split; [done|]. simpl. by rewrite difference_empty_L.
    + intros i k s Hi. by rewrite lookup_nil in Hi.
  - unfold state_of, add_node. rewrite bind_modify, run_modify. cbn [fst deps]. rewrite d_mem_get.
    by destruct (d_get (deps g) n).
  - unfold add_dependency. rewrite bind_get, bind_raise_if.
    rewrite (bool_decide_ext _ _ (Hn n)), (bool_decide_ext _ _ (Hn m)).
    destruct (d_get (deps g) n) as [d|] eqn:Hd.
    + rewrite (bool_decide_eq_true_2 (n ∈ _)) by (apply d_get_is_Some; eauto). by case_bool_decide.
    + by rewrite (bool_decide_eq_false_2 (n ∈ _)) by (by apply d_get_None).
Qed.
End topological_sort.

Section windows.

(** The last [w] values of a stream, oldest first. *)
Definition last_values (w : Z) (vs : list Z) : list Z := drop (length vs - Z.to_nat w) vs.

Definition slide (w : Z) (vs : list Z) : SlidingMax.t :=
  foldl (λ s v, state_of (SlidingMax.push v) s) (SlidingMax.mk w [] (-1)) vs.
Definition ring (w : Z) (vs : list Z) : RingBuffer.t :=
  foldl (λ b v, state_of (RingBuffer.append v) b) (RingBuffer.mk w [] 0 false) vs.

Import SlidingMax.

Definition decreasing (p q : Z * Z) : Prop := p.1 < q.1 ∧ q.2 < p.2.
#[local] Instance decreasing_trans : Transitive decreasing.
Proof. unfold decreasing. intros ???. lia. Qed.

(** The deque holds positions of the window, rising, with falling values, and every value
    of the window is dominated by one at or after it. *)
Record peaks (w : Z) (vs : list Z) (s : SlidingMax.t) : Prop := {
  peaks_window : window s = w;
  peaks_index : index s = zlen vs - 1;
  peaks_sorted : StronglySorted decreasing (deque s);
  peaks_values i v : (i, v) ∈ deque s → zlen vs - w <= i ∧ 0 <= i ∧ vs !! Z.to_nat i = Some v;
  peaks_dominate i v : zlen vs - w <= i → 0 <= i → vs !! Z.to_nat i = Some v →
    ∃ j v', (j, v') ∈ deque s ∧ i <= j ∧ v <= v' }.

Lemma drop_smaller_filter v d : StronglySorted decreasing d →
  drop_smaller v d = filter (λ p, v < p.2) d.
Proof.
  unfold drop_smaller. induction 1 as [|p d Hd IH Hall]; [done|]. cbn [foldr]. rewrite IH, filter_cons.
  destruct (filter (λ q, v < q.2) d) as [|q l] eqn:E.
  - destruct (Z.leb_spec p.2 v); case_decide; done || lia.
  - rewrite decide_True; [done|]. assert (Hq : q ∈ q :: l) by left. rewrite <-E in Hq.
    apply list_elem_of_filter in Hq as [Hv Hq]. eapply Forall_forall in Hall as [_ Hlt]; [|exact Hq]. lia.
Qed.

Lemma push_peaks w vs v s : 1 <= w → peaks w vs s → peaks w (vs ++ [v]) (state_of (push v) s).
Proof.
  intros Hw [H1 H2 H3 H4 H5]. unfold state_of, push. rewrite !bind_modify, run_modify.
  cbn [fst window index deque]. rewrite H1, H2, drop_smaller_filter by done.
  set (n := zlen vs) in *. replace (n - 1 + 1) with n by lia.
  assert (Hn : zlen (vs ++ [v]) = n + 1) by (rewrite zlen_app; done).
  assert (Hold : ∀ i, 0 <= i → i < n → (vs ++ [v]) !! Z.to_nat i = vs !! Z.to_nat i)
    by (intros; apply lookup_app_l; unfold n, zlen in *; lia).
  assert (Hnew : (vs ++ [v]) !! Z.to_nat n = Some v)
    by (unfold n, zlen; rewrite Nat2Z.id; by apply list_lookup_middle).
  set (d := filter (λ p, v < p.2) (deque s) ++ [(n, v)]).
  assert (Hd1 : StronglySorted decreasing d).
  { apply StronglySorted_app_2; [|by apply StronglySorted_filter|repeat constructor].
    intros [i x] q [Hlt Hin]%list_elem_of_filter ->%list_elem_of_singleton. simpl in *.
    destruct (H4 _ _ Hin) as (_ & Hi & Hl). apply lookup_lt_Some in Hl. unfold decreasing, n, zlen. simpl. lia. }
  assert (Hd2 : ∀ i x, (i, x) ∈ d → n - w <= i ∧ 0 <= i ∧ (vs ++ [v]) !! Z.to_nat i = Some x).
  { intros i x [[_ Hin]%list_elem_of_filter|Heq%list_elem_of_singleton]%elem_of_app.
    - destruct (H4 _ _ Hin) as (? & ? & Hl). split_and!; [done..|]. rewrite Hold; [done..|].
      apply lookup_lt_Some in Hl. unfold n, zlen. lia.
    - simplify_eq. split_and!; [lia|apply zlen_nonneg|done]. }
  assert (Hd3 : ∀ i x, n - w <= i → 0 <= i → (vs ++ [v]) !! Z.to_nat i = Some x →
    ∃ j x', (j, x') ∈ d ∧ i <= j ∧ x <= x').
  { intros i x Hi Hi0 Hl. destruct (decide (i = n)) as [->|].
    { exists n, v. split; [apply elem_of_app; right; left|]. rewrite Hnew in Hl. simplify_eq. done. }
    pose proof (lookup_lt_Some _ _ _ Hl) as Hlt. rewrite length_app in Hlt. simpl in Hlt.
    rewrite Hold in Hl by (unfold n, zlen in *; lia).
    destruct (H5 _ _ Hi Hi0 Hl) as (j & x' & Hin & Hij & Hx).
    destruct (decide (v < x')).
    - exists j, x'. split; [|done]. apply elem_of_app. left. by apply list_elem_of_filter.
    - exists n, v. split; [apply elem_of_app; right; left|]. unfold n, zlen in *. lia. }
  clearbody d. split; cbn [window index deque]; [done|lia|..].
  - destruct d as [|p d]; [done|]. apply StronglySorted_inv in Hd1 as [? ?]. destruct (_ <=? _); [done|by constructor].
  - intros i x. rewrite Hn. destruct d as [|p d]; [by intros []%elem_of_nil|].
    apply StronglySorted_inv in Hd1 as [_ Hall]. destruct (Hd2 p.1 p.2) as (Hp1 & _); [destruct p; left|].
    destruct (Z.leb_spec p.1 (n - w)).
    + intros Hin. destruct (Hd2 i x) as (? & ? & ?); [by right|]. split_and!; [|done..].
      eapply Forall_forall in Hall as [Hlt _]; [|exact Hin]. simpl in Hlt. lia.
    + intros Hin. destruct (Hd2 i x Hin) as (? & ? & ?). split_and!; [|done..].
      apply elem_of_cons in Hin as [<-|Hin]; [simpl in *; lia|].
      eapply Forall_forall in Hall as [Hlt _]; [|exact Hin]. simpl in Hlt. lia.
  - rewrite Hn. intros i x Hi Hi0 Hl. destruct (Hd3 i x) as (j & x' & Hin & Hij & Hx); [lia|done..|].
    exists j, x'. split; [|done]. destruct d as [|p d]; [done|]. destruct (Z.leb_spec p.1 (n - w)); [|done].
    apply elem_of_cons in Hin as [<-|]; [simpl in *; lia|done].
Qed.

Lemma slide_peaks w vs : 1 <= w → peaks w vs (slide w vs).
Proof.
  intros Hw. unfold slide. induction vs as [|v vs IH] using rev_ind.
  - split; simpl; try done. + constructor. + by intros ?? ?%elem_of_nil.
  - rewrite foldl_app. by apply push_peaks.
Qed.

(** Overwriting the oldest slot and moving past it rotates the oldest value out. *)
Lemma rotate_insert (l1 l2 : list Z) x v (p := length l1) (d := l1 ++ x :: l2)
    (p' := if bool_decide (l2 = []) then 0%nat else S p) :
  drop p d ++ take p d = x :: l2 ++ l1
  ∧ drop p' (<[p := v]> d) ++ take p' (<[p := v]> d) = (l2 ++ l1) ++ [v].
Proof.
  unfold d, p in *. rewrite drop_app_length, take_app_length. split; [done|].
  replace (<[length l1 := v]> (l1 ++ x :: l2)) with (l1 ++ v :: l2)
    by (rewrite <-(Nat.add_0_r (length l1)); by rewrite insert_app_r).
  unfold p'. case_bool_decide; [subst l2; rewrite drop_0, take_0, app_nil_r; done|].
  replace (l1 ++ v :: l2) with ((l1 ++ [v]) ++ l2) by by rewrite <-app_assoc.
  replace (S (length l1)) with (length (l1 ++ [v])) by (rewrite length_app; simpl; lia).
  by rewrite drop_app_length, take_app_length, app_assoc.
Qed.

Lemma drop_S_tail (k : nat) (l : list Z) : drop (S k) l = tail (drop k l).
Proof. revert l. induction k as [|k IH]; intros [|x l]; try done. apply IH. Qed.

Lemma last_values_snoc w vs v : 1 <= w → w <= zlen vs →
  last_values w (vs ++ [v]) = tail (last_values w vs) ++ [v].
Proof.
  unfold last_values, zlen. intros Hw Hn. rewrite length_app. simpl.
  rewrite drop_app_le by lia. f_equal.
  replace (length vs + 1 - Z.to_nat w)%nat with (S (length vs - Z.to_nat w)) by lia.
  apply drop_S_tail.
Qed.

Record ring_ok (w : Z) (vs : list Z) (b : RingBuffer.t) : Prop := {
  ring_capacity : RingBuffer.capacity b = w;
  ring_pos : RingBuffer.pos b = zlen vs mod w;
  ring_wrapped : RingBuffer.wrapped b = (w <? zlen vs);
  ring_length : zlen (RingBuffer.data b) = Z.min (zlen vs) w;
  ring_filling : zlen vs <= w → RingBuffer.data b = vs;
  ring_contents : RingBuffer.contents b = last_values w vs }.

Lemma append_ring w vs v b : 1 <= w → ring_ok w vs b → ring_ok w (vs ++ [v]) (state_of (RingBuffer.append v) b).
Proof.
  intros Hw [H1 H2 H3 H4 H5 H6]. unfold state_of, RingBuffer.append. rewrite bind_get, H1, H4.
  pose proof (zlen_nonneg vs) as Hn. set (n := zlen vs) in *.
  assert (Hpos : (n mod w + 1) mod w = (n + 1) mod w) by (rewrite Z.add_mod_idemp_l; lia).
  assert (Hlen : zlen (vs ++ [v]) = n + 1) by (rewrite zlen_app; done).
  destruct (Z.ltb_spec (Z.min n w) w) as [Hlt|Hge].
  - rewrite bind_run. unfold modify. cbn [fst RingBuffer.pos RingBuffer.capacity RingBuffer.data RingBuffer.wrapped].
    rewrite H1, H2, H3, H5, Hpos by lia. rewrite !(proj2 (Z.ltb_ge _ _)) by lia.
    split; cbn [RingBuffer.pos RingBuffer.capacity RingBuffer.data RingBuffer.wrapped]; rewrite ?Hlen.
    + done.
    + done.
    + symmetry. apply Z.ltb_ge. lia.
    + lia.
    + done.
    + unfold RingBuffer.contents, last_values. cbn [RingBuffer.wrapped RingBuffer.data negb].
      replace (length (vs ++ [v]) - Z.to_nat w)%nat with 0%nat; [done|]. unfold zlen in Hlen. lia.
  - assert (Hwn : w <= n) by lia. pose proof (Z.mod_pos_bound n w ltac:(lia)) as Hm.
    set (p := Z.to_nat (n mod w)) in *.
    assert (Hlen' : zlen (RingBuffer.data b) = w) by lia.
    assert (is_Some (RingBuffer.data b !! p)) as [x Hx] by (apply lookup_lt_is_Some; unfold zlen in *; lia).
    unfold py_setitem. rewrite H2, (py_pos_nonneg _ _ x) by (done || lia). fold p.
    pose proof (take_drop_middle _ _ _ Hx) as Hsplit.
    set (l1 := take p (RingBuffer.data b)) in *. set (l2 := drop (S p) (RingBuffer.data b)) in *.
    assert (Hl1 : length l1 = p) by (unfold l1; rewrite length_take; apply lookup_lt_Some in Hx; lia).
    destruct (rotate_insert l1 l2 x v) as [R1 R2]. rewrite Hl1, Hsplit in R1, R2.
    assert (Hold : last_values w vs = x :: l2 ++ l1).
    { rewrite <-H6, <-R1. unfold RingBuffer.contents. rewrite H3, H2. fold p.
      destruct (Z.ltb_spec w n); simpl; [done|]. assert (p = 0%nat) as ->.
      { unfold p. replace n with w by lia. by rewrite Z.mod_same by lia. }
      by rewrite drop_0, take_0, app_nil_r. }
    assert (Hp' : Z.to_nat ((n + 1) mod w) = if bool_decide (l2 = []) then 0%nat else S p).
    { rewrite <-Hpos. assert (length l2 = length (RingBuffer.data b) - S p)%nat as Hl2 by apply length_drop.
      unfold zlen in Hlen'. destruct (decide (n mod w = w - 1)) as [He|Hne].
      - rewrite He. replace (w - 1 + 1) with w by lia. rewrite Z.mod_same by lia.
        rewrite bool_decide_eq_true_2; [done|]. apply nil_length_inv. unfold p in *. lia.
      - rewrite Z.mod_small by lia. rewrite bool_decide_eq_false_2; [unfold p; lia|].
        intros E. rewrite E in Hl2. simpl in Hl2. unfold p in *. lia. }
    rewrite bind_assoc, bind_pure_of, bind_modify. unfold modify.
    cbn [fst RingBuffer.pos RingBuffer.capacity RingBuffer.data RingBuffer.wrapped]. rewrite H1, H2, Hpos.
    split; cbn [RingBuffer.pos RingBuffer.capacity RingBuffer.data RingBuffer.wrapped]; rewrite ?Hlen; try done.
    + symmetry. apply Z.ltb_lt. lia.
    + unfold zlen in *. rewrite length_insert. lia.
    + lia.
    + unfold RingBuffer.contents. cbn [RingBuffer.pos RingBuffer.data RingBuffer.wrapped negb].
      rewrite Hp', R2, last_values_snoc, Hold by done. done.
Qed.

Lemma ring_all w vs : 1 <= w → ring_ok w vs (ring w vs).
Proof.
  intros Hw. unfold ring. induction vs as [|v vs IH] using rev_ind; [|rewrite foldl_app; by apply append_ring].
  cbn [foldl]. split; cbn [RingBuffer.pos RingBuffer.capacity RingBuffer.data RingBuffer.wrapped];
    change (zlen (@nil Z)) with 0.
  - done.
  - by rewrite Z.mod_0_l by lia.
  - symmetry. apply Z.ltb_ge. lia.
  - lia.
  - done.
  - done.
Qed.

(** Also (equivalence): The two sliding windows agree with each other and with the stream. For any
    positive window and any values pushed: the ring buffer's [contents] are exactly the last [w]
    values, oldest first, wrapped or not, its [size] is their number and it has wrapped exactly when
    a value was overwritten; and [SlidingMax.maximum], which keeps only the candidates, is exactly
    the largest of them, raising [Invalid] only before the first value. A window below 1 is refused
    with [Invalid] by both. *)
Theorem sliding_windows_exact w vs (Hw : 1 <= w) (last_w := last_values w vs) :
  RingBuffer.contents (ring w vs) = last_w
  ∧ RingBuffer.size (ring w vs) = zlen last_w
  ∧ RingBuffer.has_wrapped (ring w vs) = (w <? zlen vs)
  ∧ SlidingMax.maximum (slide w vs)
    = match last_w with [] => Err Invalid | v :: l => Ok (py_max v l) end
  ∧ RingBuffer.make 0 = Err Invalid ∧ SlidingMax.make 0 = Err Invalid
  ∧ RingBuffer.make w = Ok (ring w []) ∧ SlidingMax.make w = Ok (slide w []).
Proof.
  destruct (ring_all w vs Hw) as [_ _ H3 H4 _ H6]. split_and!; [done| |done| |done|done| |].
  - unfold RingBuffer.size. rewrite H4. unfold last_w, last_values, zlen. rewrite length_drop. lia.
  - destruct (slide_peaks w vs Hw) as [_ _ P3 P4 P5]. unfold maximum.
    assert (Hlook : ∀ k, last_w !! k = vs !! (length vs - Z.to_nat w + k)%nat) by (intros; apply lookup_drop).
    destruct (deque (slide w vs)) as [|[i m] d].
    + assert (last_w = []) as ->; [|done]. destruct last_w as [|v l] eqn:E; [done|].
      specialize (Hlook 0%nat). simpl in Hlook. symmetry in Hlook.
      destruct (P5 (Z.of_nat (length vs - Z.to_nat w)) v) as (j & v' & []%elem_of_nil & _).
      * unfold zlen. lia.
      * lia.
      * rewrite Nat2Z.id. by rewrite Nat.add_0_r in Hlook.
    + destruct (P4 i m) as (Hi & Hi0 & Hm); [left|].
      apply StronglySorted_inv in P3 as [_ Hall].
      assert (Hmax : ∀ x, x ∈ last_w → x <= m).
      { intros x [k Hk]%list_elem_of_lookup. rewrite Hlook in Hk.
        destruct (P5 (Z.of_nat (length vs - Z.to_nat w + k)) x) as (j & v' & Hin & _ & Hx);
          [unfold zlen; lia|lia|by rewrite Nat2Z.id|].
        apply elem_of_cons in Hin as [Heq|Hin]; [simplify_eq; done|].
        eapply Forall_forall in Hall as [_ Hlt]; [|exact Hin]. simpl in Hlt. lia. }
      assert (Hin : m ∈ last_w).
      { apply list_elem_of_lookup. exists (Z.to_nat i - (length vs - Z.to_nat w))%nat. rewrite Hlook.
        unfold zlen in Hi. replace (length vs - Z.to_nat w + _)%nat with (Z.to_nat i) by lia. done. }
      destruct last_w as [|v l]; [by apply elem_of_nil in Hin|]. simpl. f_equal. apply Z.le_antisymm.
      * by apply py_max_ge.
      * apply Hmax, py_max_elem.
  - unfold RingBuffer.make. by rewrite (proj2 (Z.ltb_ge _ _)).
  - unfold SlidingMax.make. by rewrite (proj2 (Z.ltb_ge _ _)).
Qed.

Lemma sliding_windows_exact_witness :
  RingBuffer.contents (ring 3 [5; 1; 4; 2; 3]) = [4; 2; 3]
  ∧ SlidingMax.maximum (slide 3 [5; 1; 4; 2; 3]) = Ok 4.
Proof.
  destruct (sliding_windows_exact 3 [5; 1; 4; 2; 3]) as (H1 & _ & _ & H2 & _); [lia|].
  split; [exact H1|exact H2].
Defined.
End windows.

Section merge.
Import mergeiterator.

Lemma sorted_input_spec x s : check_sorted x s = true ↔ StronglySorted Z.le (x :: s).
Proof.
  revert x. induction s as [|y s IH]; intros x; cbn [check_sorted].
  { split; [repeat constructor|done]. }
  destruct (Z.ltb_spec y x) as [Hlt|Hge].
  - split; [done|]. intros [_ Hall]%StronglySorted_inv. apply Forall_cons in Hall as [? _]. lia.
  - rewrite IH. split.
    + intros Hs. constructor; [done|]. apply StronglySorted_inv in Hs as [_ Hall].
      constructor; [lia|]. eapply Forall_impl; [exact Hall|]. simpl. lia.
    + by intros [? _]%StronglySorted_inv.
Qed.

Lemma input_ok_spec s : input_ok s = true ↔ StronglySorted Z.le s.
Proof. destruct s; [split; [constructor|done]|apply sorted_input_spec]. Qed.

Lemma scan_spec streams i best :
  match scan i streams best with
  | None => best = None ∧ ∀ s, s ∈ streams → s = []
  | Some (m, k) =>
      ((best = Some (m, k)) ∨ (i <= k ∧ ∃ s, streams !! Z.to_nat (k - i) = Some (m :: s)))
      ∧ (∀ b j, best = Some (b, j) → m <= b)
      ∧ ∀ h s, h :: s ∈ streams → m <= h
  end.
Proof.
  revert i best. induction streams as [|s streams IH]; intros i best; cbn [scan].
  { destruct best as [[m k]|]; [|by split; [|intros ? ?%elem_of_nil]].
    split_and!; [by left|by intros ?? [= -> _]|by intros ?? ?%elem_of_nil]. }
  set (best' := match s with [] => best | _ => _ end). specialize (IH (i + 1) best').
  assert (Hnext : ∀ k s0, i + 1 <= k → streams !! Z.to_nat (k - (i + 1)) = Some s0 →
    i <= k ∧ (s :: streams) !! Z.to_nat (k - i) = Some s0).
  { intros k s0 Hk H. split; [lia|]. replace (Z.to_nat (k - i)) with (S (Z.to_nat (k - (i + 1)))) by lia. done. }
  destruct (scan (i + 1) streams best') as [[m k]|].
  - destruct IH as (H1 & H2 & H3).
    assert (Hb : (∀ b j, best = Some (b, j) → m <= b) ∧ (∀ h s0, s = h :: s0 → m <= h)).
    { destruct s as [|h s0]; [split; [exact H2|done]|].
      destruct best as [[b j]|]; simpl in best'.
      - destruct (Z.ltb_spec h b); specialize (H2 _ _ eq_refl); split; intros; simplify_eq; lia.
      - specialize (H2 _ _ eq_refl). split; intros; by simplify_eq. }
    split_and!.
    + destruct H1 as [Hbest|(Hk & s0 & Hs0)].
      * destruct s as [|h s0]; [by left|]. assert (Hhead : Some (h, i) = Some (m, k) →
          i <= k ∧ ∃ s, ((h :: s0) :: streams) !! Z.to_nat (k - i) = Some (m :: s)).
        { intros [= -> ->]. split; [lia|]. exists s0. by rewrite Z.sub_diag. }
        destruct best as [[b j]|]; simpl in best'; [|right; by apply Hhead].
        unfold best' in Hbest. destruct (h <? b); [right; by apply Hhead|by left].
      * right. destruct (Hnext _ _ Hk Hs0). eauto.
    + apply Hb.
    + intros h s0 [Heq|Hin]%elem_of_cons; [by eapply Hb|by eapply H3].
  - destruct IH as [Hb Hall]. destruct s as [|h s0].
    + split; [done|]. intros s [->|Hs]%elem_of_cons; [done|by apply Hall].
    + destruct best as [[b j]|]; simpl in best'; [unfold best' in Hb; by destruct (h <? b)|done].
Qed.

Lemma concat_alter_tail streams n m (s : list Z) : streams !! n = Some (m :: s) →
  concat streams ≡ₚ m :: concat (alter tail n streams).
Proof.
  revert n. induction streams as [|s0 streams IH]; intros [|n] Hn; [done..| |]; simpl in *.
  - by simplify_eq.
  - rewrite (IH _ Hn). apply Permutation_sym, Permutation_middle.
Qed.

(** What has been emitted and what the cursors have not passed. *)
Record merged (dedupe : bool) (input out : list Z) (streams : list (list Z)) : Prop := {
  merged_streams s : s ∈ streams → StronglySorted Z.le s;
  merged_out : StronglySorted (if dedupe then Z.lt else Z.le) out;
  merged_below x y : x ∈ out → y ∈ concat streams → x <= y;
  merged_elements x : (x ∈ out ∨ x ∈ concat streams) ↔ x ∈ input;
  merged_all : dedupe = false → out ++ concat streams ≡ₚ input }.

Lemma concat_below streams m : (∀ s, s ∈ streams → StronglySorted Z.le s) →
  (∀ h s, h :: s ∈ streams → m <= h) → ∀ y, y ∈ concat streams → m <= y.
Proof.
  intros Hs Hm y (s & Hin & Hy)%list_elem_of_In%in_concat.
  apply list_elem_of_In in Hin, Hy. specialize (Hs _ Hin). destruct s as [|h s]; [by apply elem_of_nil in Hy|].
  specialize (Hm _ _ Hin). apply StronglySorted_inv in Hs as [_ Hall].
  apply elem_of_cons in Hy as [->|Hy]; [done|]. eapply Forall_forall in Hall; [|exact Hy]. lia.
Qed.

Lemma alter_tail_sorted (streams : list (list Z)) n : (∀ s, s ∈ streams → StronglySorted Z.le s) →
  ∀ s, s ∈ alter tail n streams → StronglySorted Z.le s.
Proof.
  intros Hs s [k Hk]%list_elem_of_lookup. rewrite list_lookup_alter in Hk. case_decide.
  - apply fmap_Some in Hk as (s0 & E & ->).
    apply list_elem_of_lookup_2, Hs in E. destruct s0; [constructor|]. by apply StronglySorted_inv in E as [? _].
  - apply Hs. by eapply list_elem_of_lookup_2.
Qed.

(** A strictly rising list whose last element is not [m] stays below [m] when it is at most [m]. *)
Lemma last_strict (out : list Z) m : StronglySorted Z.lt out → (∀ x, x ∈ out → x <= m) →
  last out ≠ Some m → ∀ x, x ∈ out → x < m.
Proof.
  induction out as [|y out IH] using rev_ind; intros Hs Hle Hl x Hx; [by apply elem_of_nil in Hx|].
  rewrite last_snoc in Hl. assert (y ≠ m) by congruence.
  assert (y <= m) by (apply Hle, elem_of_app; right; left).
  apply elem_of_app in Hx as [Hx| ->%list_elem_of_singleton]; [|lia].
  pose proof (StronglySorted_app_1_elem_of _ _ _ x y Hs Hx ltac:(left)). lia.
Qed.

Lemma merged_step dedupe input out streams m k s :
  merged dedupe input out streams → streams !! k = Some (m :: s) →
  (∀ h s, h :: s ∈ streams → m <= h) →
  merged dedupe input
    (if dedupe && bool_decide (last out = Some m) then out else out ++ [m]) (alter tail k streams).
Proof.
  intros [H1 H2 H3 H4 H5] Hk Hmin. pose proof (concat_alter_tail _ _ _ _ Hk) as Hperm.
  pose proof (concat_below _ _ H1 Hmin) as Hall.
  assert (Hle : ∀ x, x ∈ out → x <= m) by (intros x Hx; apply H3; [done|rewrite Hperm; left]).
  setoid_rewrite Hperm in H3. setoid_rewrite Hperm in H4. setoid_rewrite Hperm in Hall.
  destruct (dedupe && bool_decide (last out = Some m)) eqn:E.
  - apply andb_true_iff in E as [-> Hl%bool_decide_eq_true].
    split; [by apply alter_tail_sorted|done| | |done].
    + intros x y Hx Hy. apply H3; [done|by right].
    + intros x. rewrite <-H4, elem_of_cons. split; [tauto|]. intros [?|[->|?]]; [by left| |by right].
      left. apply last_Some in Hl as [l ->]. apply elem_of_app. right. left.
  - split; [by apply alter_tail_sorted| | | |].
    + apply StronglySorted_app_2; [|done|repeat constructor]. intros x y Hx ->%list_elem_of_singleton.
      destruct dedupe; [|by apply Hle]. apply (last_strict out); [done..| |done].
      simpl in E. by apply bool_decide_eq_false in E.
    + intros x y [Hx| ->%list_elem_of_singleton]%elem_of_app Hy; [apply H3; [done|]|apply Hall]; by right.
    + intros x. rewrite <-H4, elem_of_app, list_elem_of_singleton, elem_of_cons. tauto.
    + intros Hd. rewrite <-(H5 Hd), Hperm, <-app_assoc. done.
Qed.

Lemma merge_loop_spec fuel dedupe input out streams :
  merged dedupe input out streams → (length (concat streams) < fuel)%nat →
  ∃ rest, concat rest = [] ∧ merged dedupe input (merge_loop fuel dedupe streams out) rest.
Proof.
  revert out streams. induction fuel as [|fuel IH]; intros out streams Hm Hf; [lia|]. cbn [merge_loop].
  pose proof (scan_spec streams 0 None) as Hscan. destruct (scan 0 streams None) as [[m k]|].
  - destruct Hscan as ([?|(Hk & s & Hs)] & _ & Hmin); [done|]. rewrite Z.sub_0_r in Hs.
    pose proof (merged_step _ _ _ _ _ _ _ Hm Hs Hmin) as Hm'.
    pose proof (concat_alter_tail _ _ _ _ Hs) as Hlen. apply Permutation_length in Hlen. simpl in Hlen.
    destruct (dedupe && bool_decide (last out = Some m)); apply IH; (done || lia).
  - destruct Hscan as [_ Hnil]. exists streams. split; [|done].
    clear Hm Hf IH. induction streams as [|s streams IH]; [done|]. simpl. rewrite (Hnil s) by left.
    apply IH. intros. apply Hnil. by right.
Qed.

(** Also (functional): The k-way merge of segments is exact. For any inputs: one that is not sorted makes
    [merge] raise [Invalid]; otherwise its loop ends and, without dedupe, the output is exactly all
    the elements of all the inputs in sorted order, with repetitions; with dedupe it is strictly
    increasing and has exactly the elements that occur in some input, each once. So the number the
    report calls collapsed is the number of repeated occurrences, and 0 without dedupe. *)
Theorem merge_exact streams :
  match forallb input_ok streams with
  | false => ∀ dedupe, merge streams dedupe = Err Invalid
             ∧ ∃ s, s ∈ streams ∧ ¬ StronglySorted Z.le s
  | true => (∀ s, s ∈ streams → StronglySorted Z.le s)
      ∧ merge streams false = Ok (py_sorted Z.le (concat streams))
      ∧ ∃ out, merge streams true = Ok out ∧ StronglySorted Z.lt out
               ∧ ∀ x, x ∈ out ↔ x ∈ concat streams
  end.
Proof.
  unfold merge. destruct (forallb input_ok streams) eqn:E.
  - assert (Hs : ∀ s, s ∈ streams → StronglySorted Z.le s).
    { intros s Hin. apply input_ok_spec. rewrite forallb_forall in E. by apply E, list_elem_of_In. }
    assert (Hm : ∀ dedupe, merged dedupe (concat streams) [] streams).
    { intros dedupe. split; [done|constructor|by intros ?? ?%elem_of_nil| |done].
      intros x. rewrite elem_of_nil. tauto. }
    split; [done|]. split.
    + destruct (merge_loop_spec (S (length (concat streams))) false _ _ _ (Hm false)) as (rest & Hrest & Hr); [lia|].
      f_equal. apply (StronglySorted_unique Z.le); [exact (merged_out _ _ _ _ Hr)| |].
      * apply Sorted_StronglySorted; [apply _|]. apply py_sorted_Sorted, _.
      * rewrite py_sorted_Permutation. pose proof (merged_all _ _ _ _ Hr eq_refl) as Hp.
        by rewrite Hrest, app_nil_r in Hp.
    + destruct (merge_loop_spec (S (length (concat streams))) true _ _ _ (Hm true)) as (rest & Hrest & Hr); [lia|].
      eexists. split; [done|]. split; [exact (merged_out _ _ _ _ Hr)|].
      intros x. rewrite <-(merged_elements _ _ _ _ Hr), Hrest, elem_of_nil.
      tauto.
  - intros dedupe. split; [done|].
    induction streams as [|s streams IH]; [done|]. cbn [forallb] in E. destruct (input_ok s) eqn:Hs.
    + destruct (IH E) as (s0 & Hin & Hn). exists s0. split; [by right|done].
    + exists s. split; [left|]. intros H%input_ok_spec. congruence.
Qed.
End merge.
