(* ===== verification/Coordination.v ===== *)
(** * Coordination between nodes

    Locks, votes, snapshots and role changes: [relay/leaselock.py],
    [relay/twophasecommit.py], [relay/snapshotisolation.py],
    [relay/checkpointbarrier.py], [relay/saga.py], [relay/becomeleader.py],
    [relay/becomefollower.py] and [relay/snapshotinstall.py]. *)

From S2P Require Import Prelude PyDict.

Module LeaseLock.
(** [relay/leaselock.py] class LeaseLock *)
Record t := mk { lease_duration : Z; holder : string; expires_at : Z; fencing_token : Z }.

(** [relay/leaselock.py] LeaseLock.__post_init__ *)
Definition make (lease_duration : Z) : result t :=
  if lease_duration <? 1 then Err Invalid else Ok (mk lease_duration "" (-1) 0).

(** [relay/leaselock.py] LeaseLock._held *)
Definition held (self : t) (now : Z) : bool :=
  negb (bool_decide (holder self = "")) && (now <? expires_at self).

(** [relay/leaselock.py] LeaseLock.acquire *)
Definition acquire (who : string) (now : Z) : act t Z :=
  self ← get;
  raise_if (held self now && negb (bool_decide (holder self = who))) Invalid;;
  modify (λ s, mk (lease_duration s) who (expires_at s) (fencing_token s));;
  modify (λ s, mk (lease_duration s) (holder s) (now + lease_duration s) (fencing_token s));;
  modify (λ s, mk (lease_duration s) (holder s) (expires_at s) (fencing_token s + 1));;
  self ← get;
  mret (fencing_token self).

(** [relay/leaselock.py] LeaseLock.renew *)
Definition renew (who : string) (now : Z) : act t string :=
  self ← get;
  raise_if (negb (held self now) || negb (bool_decide (holder self = who))) Invalid;;
  modify (λ s, mk (lease_duration s) (holder s) (now + lease_duration s) (fencing_token s));;
  self ← get;
  mret ("renewed by '" +:+ who +:+ "' until " +:+ zs (expires_at self)).

(** [relay/leaselock.py] LeaseLock.guard *)
Definition guard (self : t) (token : Z) : result string :=
  if token <? fencing_token self then Err Invalid
  else Ok ("operation with token " +:+ zs token +:+ " allowed").

(** [relay/leaselock.py] LeaseLock.status *)
Definition status (self : t) (now : Z) : string :=
  if negb (held self now) then "lock free or lease expired; acquirable"
  else "held by '" +:+ holder self +:+ "', expires in " +:+ zs (expires_at self - now) +:+ "; the "
       +:+ "fencing token, not the lease, prevents a paused holder from acting".
End LeaseLock.

Module TwoPhaseCommit.
(** [relay/twophasecommit.py] YES *)
Definition YES : string := "yes".
(** [relay/twophasecommit.py] NO *)
Definition NO : string := "no".
(** [relay/twophasecommit.py] COMMIT *)
Definition COMMIT : string := "commit".
(** [relay/twophasecommit.py] ABORT *)
Definition ABORT : string := "abort".

(** [relay/twophasecommit.py] class TwoPhaseCommit *)
Record t := mk { participants : gset string; votes : gmap string string; decision : string }.

(** [relay/twophasecommit.py] TwoPhaseCommit.__post_init__ *)
Definition make (participants : gset string) : result t :=
  if bool_decide (participants = ∅) then Err Invalid else Ok (mk participants ∅ "").

(** [relay/twophasecommit.py] TwoPhaseCommit.vote *)
Definition vote (participant vote : string) : act t string :=
  self ← get;
  raise_if (negb (bool_decide (participant ∈ participants self))) Invalid;;
  raise_if (negb (bool_decide (vote ∈ [YES; NO]))) Invalid;;
  raise_if (bool_decide (participant ∈ dom (votes self))) Invalid;;
  put (mk (participants self) (<[participant := vote]> (votes self)) (decision self));;
  mret ("'" +:+ participant +:+ "' voted " +:+ vote).

(** [relay/twophasecommit.py] TwoPhaseCommit.all_voted *)
Definition all_voted (self : t) : bool := bool_decide (dom (votes self) = participants self).

(** [relay/twophasecommit.py] TwoPhaseCommit.decide *)
Definition decide_ : act t string :=
  self ← get;
  raise_if (negb (all_voted self)) Invalid;;
  put (mk (participants self) (votes self)
    (if forallb (λ p, bool_decide (p.2 = YES)) (map_to_list (votes self)) then COMMIT else ABORT));;
  self ← get;
  mret ("decided " +:+ decision self).

(** [relay/twophasecommit.py] TwoPhaseCommit.participant_state *)
Definition participant_state (self : t) (participant : string) (heard_decision : bool) : string :=
  if negb (bool_decide (votes self !! participant = Some YES)) then
    "'" +:+ participant +:+ "' has not promised to commit"
  else if heard_decision && negb (bool_decide (decision self = "")) then
    "'" +:+ participant +:+ "' applies the " +:+ decision self
  else
    "'" +:+ participant +:+ "' voted yes and is BLOCKED: it cannot abort "
    +:+ "(promised) nor commit (verdict unknown), holding resources until "
    +:+ "the coordinator is heard from, the 2PC weakness".
End TwoPhaseCommit.

Module SnapshotIsolation.
(** [relay/snapshotisolation.py] class SnapshotIsolation *)
Record t := mk { version : Z; committed_at : gmap string Z }.

Definition init : t := mk 0 ∅.

(** [relay/snapshotisolation.py] SnapshotIsolation.begin *)
Definition begin (self : t) : Z := version self.

(** [relay/snapshotisolation.py] SnapshotIsolation.read *)
Definition read (self : t) (key : string) (start_version : Z) : string :=
  let last := default (-1) (committed_at self !! key) in
  if last <=? start_version then "'" +:+ key +:+ "' as of version " +:+ zs start_version
  else "'" +:+ key +:+ "' as of version " +:+ zs start_version +:+ " (ignoring later commits)".

(** [relay/snapshotisolation.py:57-59] SnapshotIsolation.commit: the conflicting keys *)
Definition conflicts (self : t) (start_version : Z) (write_set : gset string) : gset string :=
  filter (λ k, start_version < default (-1) (committed_at self !! k)) write_set.

(** [relay/snapshotisolation.py] SnapshotIsolation.commit *)
Definition commit (start_version : Z) (write_set : gset string) : act t string :=
  self ← get;
  raise_if (negb (bool_decide (conflicts self start_version write_set = ∅))) Invalid;;
  modify (λ s, mk (version s + 1) (committed_at s));;
  for_each (elements write_set) (λ k,
    modify (λ s, mk (version s) (<[k := version s]> (committed_at s))));;
  self ← get;
  mret ("committed at version " +:+ zs (version self)).

(** [relay/snapshotisolation.py] SnapshotIsolation.write_skew_note *)
Definition write_skew_note : string :=
  "snapshot isolation prevents lost updates but allows write skew: two transactions writing disjoint keys off an overlapping read clash on no key, so a cross-key invariant needs extra care".
End SnapshotIsolation.

Module BarrierAligner.
(** [relay/checkpointbarrier.py] class BarrierAligner *)
Record t := mk {
  inputs : gset string;
  last_checkpoint : Z;
  current : Z;
  arrived : gset string;
  buffered : pydict string Z }.

(** [relay/checkpointbarrier.py] BarrierAligner.__post_init__ *)
Definition make (inputs : gset string) : result t :=
  if bool_decide (inputs = ∅) then Err Invalid else Ok (mk inputs (-1) (-1) ∅ []).

(** [relay/checkpointbarrier.py] BarrierAligner.awaiting *)
Definition awaiting (self : t) : Z := Z.of_nat (size (inputs self)) - Z.of_nat (size (arrived self)).

(** [relay/checkpointbarrier.py] BarrierAligner.receive_barrier *)
Definition receive_barrier (channel : string) (checkpoint_id : Z) : act t string :=
  self ← get;
  raise_if (negb (bool_decide (channel ∈ inputs self))) Invalid;;
  (if current self <? 0 then
     raise_if (checkpoint_id <=? last_checkpoint self) Invalid;;
     modify (λ s, mk (inputs s) (last_checkpoint s) checkpoint_id (arrived s) (buffered s))
   else mret ());;
  modify (λ s, mk (inputs s) (last_checkpoint s) (current s) (arrived s ∪ {[channel]}) (buffered s));;
  self ← get;
  mret ("barrier " +:+ zs checkpoint_id +:+ " on '" +:+ channel +:+ "', " +:+ zs (awaiting self)
        +:+ " awaited").

(** [relay/checkpointbarrier.py] BarrierAligner.buffer_record *)
Definition buffer_record (channel : string) : act t unit :=
  modify (λ s, if bool_decide (channel ∈ arrived s) then
    mk (inputs s) (last_checkpoint s) (current s) (arrived s)
       (d_set (buffered s) channel (d_getd (buffered s) channel 0 + 1))
    else s).

(** [relay/checkpointbarrier.py] BarrierAligner.aligned *)
Definition aligned (self : t) : bool := bool_decide (arrived self = inputs self).

(** [relay/checkpointbarrier.py] BarrierAligner.snapshot *)
Definition snapshot : act t string :=
  self ← get;
  raise_if (negb (aligned self)) Invalid;;
  let cid := current self in
  modify (λ s, mk (inputs s) cid (current s) (arrived s) (buffered s));;
  modify (λ s, mk (inputs s) (last_checkpoint s) (-1) (arrived s) (buffered s));;
  modify (λ s, mk (inputs s) (last_checkpoint s) (current s) ∅ (buffered s));;
  let released := zsum id (d_values (buffered self)) in
  modify (λ s, mk (inputs s) (last_checkpoint s) (current s) (arrived s) []);;
  mret ("checkpoint " +:+ zs cid +:+ " snapshotted after alignment; " +:+ zs released +:+ " "
        +:+ "buffered record(s) released to the correct side of the cut").
End BarrierAligner.

Module Saga.
(** [relay/saga.py] RUNNING *)
Definition RUNNING : string := "running".
(** [relay/saga.py] COMPENSATING *)
Definition COMPENSATING : string := "compensating".
(** [relay/saga.py] COMMITTED *)
Definition COMMITTED : string := "committed".
(** [relay/saga.py] COMPENSATED *)
Definition COMPENSATED : string := "compensated".

(** [relay/saga.py] class Saga *)
Record t := mk { steps : list string; completed : list string; compensated : list string; state : string }.

(** [relay/saga.py] Saga.__post_init__ *)
Definition make (steps : list string) : result t :=
  if bool_decide (steps = []) then Err Invalid else Ok (mk steps [] [] RUNNING).

(** [relay/saga.py] Saga.complete_step *)
Definition complete_step (step : string) : act t string :=
  self ← get;
  raise_if (negb (bool_decide (state self = RUNNING))) Invalid;;
  raise_if (negb (bool_decide (step ∈ steps self))) Invalid;;
  modify (λ s, mk (steps s) (completed s ++ [step]) (compensated s) (state s));;
  self ← get;
  if bool_decide (completed self = steps self) then
    modify (λ s, mk (steps s) (completed s) (compensated s) COMMITTED);;
    mret "all steps completed; saga committed"
  else mret ("'" +:+ step +:+ "' completed").

(** [relay/saga.py] Saga.fail *)
Definition fail : act t (list string) :=
  modify (λ s, mk (steps s) (completed s) (compensated s) COMPENSATING);;
  self ← get;
  let order := rev (completed self) in
  modify (λ s, mk (steps s) (completed s) order (state s));;
  modify (λ s, mk (steps s) (completed s) (compensated s) COMPENSATED);;
  mret order.

(** [relay/saga.py] Saga.compensate_step *)
Definition compensate_step (self : t) (step : string) : result string :=
  if negb (bool_decide (step ∈ completed self)) then Err Invalid
  else Ok ("compensated '" +:+ step +:+ "'").

(** [relay/saga.py] Saga.report *)
Definition report (self : t) : string :=
  if bool_decide (state self = COMMITTED) then "committed; every step applied"
  else if bool_decide (state self = COMPENSATED) then
    "compensated " +:+ zs (zlen (compensated self)) +:+ " step(s) in reverse; the "
    +:+ "system ends as if the operation never happened, eventually"
  else state self +:+ "; a compensation that itself fails needs a human".
End Saga.

Module LeaderTransition.
(** [relay/becomeleader.py] class LeaderTransition *)
Record t := mk { hosts : bool; fetching : bool; epoch : Z; serving : bool }.

Definition init (hosts : bool) : t := mk hosts true 0 false.

(** [relay/becomeleader.py] LeaderTransition.become_leader *)
Definition become_leader (new_epoch : Z) (isr_end_offsets : list Z) : act t string :=
  self ← get;
  raise_if (negb (hosts self)) Missing;;
  raise_if (new_epoch <=? epoch self) Invalid;;
  modify (λ s, mk (hosts s) false (epoch s) (serving s));;
  modify (λ s, mk (hosts s) (fetching s) new_epoch (serving s));;
  let watermark := match isr_end_offsets with [] => 0 | x :: l => py_min x l end in
  modify (λ s, mk (hosts s) (fetching s) (epoch s) true);;
  mret ("became leader at epoch " +:+ zs new_epoch +:+ ": fetcher stopped, then "
        +:+ "watermark set to " +:+ zs watermark +:+ ", then produce enabled").

(** [relay/becomeleader.py] LeaderTransition.accept_produce *)
Definition accept_produce (self : t) (record : string) : result string :=
  if negb (serving self) then Err Invalid
  else if fetching self then Err Invalid
  else Ok ("produced '" +:+ record +:+ "' at epoch " +:+ zs (epoch self)).
End LeaderTransition.

Module FollowerTransition.
(** [relay/becomefollower.py] class FollowerTransition *)
Record t := mk {
  log_end : Z; high_watermark : Z; serving : bool; truncated_to : Z; fetching : bool }.

Definition init (log_end high_watermark : Z) : t := mk log_end high_watermark true (-1) false.

(** [relay/becomefollower.py] FollowerTransition.stop_serving *)
Definition stop_serving : act t string :=
  modify (λ s, mk (log_end s) (high_watermark s) false (truncated_to s) (fetching s));;
  mret "stopped accepting produce; a demoted leader takes no writes".

(** [relay/becomefollower.py] FollowerTransition.truncate *)
Definition truncate (divergence_offset : Z) : act t string :=
  self ← get;
  raise_if (serving self) Invalid;;
  raise_if (log_end self <? divergence_offset) Invalid;;
  let discarded := log_end self - divergence_offset in
  put (mk divergence_offset (high_watermark self) (serving self) divergence_offset (fetching self));;
  mret ("truncated to " +:+ zs divergence_offset +:+ ", discarded " +:+ zs discarded +:+ " "
        +:+ "uncommitted record(s) from the tail").

(** [relay/becomefollower.py] FollowerTransition.start_fetching *)
Definition start_fetching : act t string :=
  self ← get;
  raise_if (truncated_to self <? 0) Invalid;;
  put (mk (log_end self) (high_watermark self) (serving self) (truncated_to self) true);;
  mret ("fetching from the new leader, resuming at " +:+ zs (truncated_to self)).
End FollowerTransition.

Module SnapshotInstaller.
(** [relay/snapshotinstall.py] REPLAY *)
Definition REPLAY : string := "replay".
(** [relay/snapshotinstall.py] SNAPSHOT *)
Definition SNAPSHOT : string := "snapshot".

(** [relay/snapshotinstall.py] class SnapshotInstaller *)
Record t := mk { log_start : Z; log_end : Z; follower_position : Z }.

(** [relay/snapshotinstall.py] SnapshotInstaller.__post_init__ *)
Definition make (log_start log_end follower_position : Z) : result t :=
  if log_end <? log_start then Err Invalid else Ok (mk log_start log_end follower_position).

(** [relay/snapshotinstall.py] SnapshotInstaller.mechanism *)
Definition mechanism (self : t) : string :=
  if follower_position self <? log_start self then SNAPSHOT else REPLAY.

(** [relay/snapshotinstall.py] SnapshotInstaller.install *)
Definition install (snapshot_offset : Z) : act t string :=
  self ← get;
  raise_if (log_end self <? snapshot_offset) Invalid;;
  raise_if (snapshot_offset <=? follower_position self) Invalid;;
  put (mk (log_start self) (log_end self) snapshot_offset);;
  mret ("snapshot installed at " +:+ zs snapshot_offset +:+ "; resume fetching from there").

(** [relay/snapshotinstall.py] SnapshotInstaller.report *)
Definition report (self : t) : string :=
  if bool_decide (mechanism self = SNAPSHOT) then
    let behind := log_start self - follower_position self in
    "follower " +:+ zs behind +:+ " before the log start; the entries it needs "
    +:+ "are compacted away, so a snapshot, not replay; always needing "
    +:+ "one means retention is too short or the follower too slow"
  else
    let missing := log_end self - follower_position self in
    "follower within the retained log; replay the " +:+ zs missing +:+ " missing "
    +:+ "entry(ies), cheaper than a snapshot".
End SnapshotInstaller.

(** ** Proofs *)

Section lease.
Import LeaseLock.

Lemma acquire_run who now l : acquire who now l =
  if held l now && negb (bool_decide (holder l = who)) then (l, Err Invalid)
  else (LeaseLock.mk (lease_duration l) who (now + lease_duration l) (fencing_token l + 1),
        Ok (fencing_token l + 1)).
Proof. unfold acquire. rewrite bind_get, bind_raise_if. by destruct (_ && _). Qed.

Lemma renew_run who now l : renew who now l =
  if held l now && bool_decide (holder l = who) then
    (LeaseLock.mk (lease_duration l) (holder l) (now + lease_duration l) (fencing_token l),
     Ok ("renewed by '" +:+ who +:+ "' until " +:+ zs (now + lease_duration l)))
  else (l, Err Invalid).
Proof.
  unfold renew. rewrite bind_get, bind_raise_if. destruct (held l now), (bool_decide (holder l = who)); done.
Qed.

Inductive lease_op := Acquire (who : string) (now : Z) | Renew (who : string) (now : Z).
Definition by_whom (o : lease_op) : string := match o with Acquire w _ | Renew w _ => w end.
Definition when (o : lease_op) : Z := match o with Acquire _ t | Renew _ t => t end.

(** The lock, and the grants so far: who was given which token. *)
Definition lease_step (o : lease_op) (s : LeaseLock.t * list (string * Z)) :=
  match o with
  | Acquire who now =>
      (state_of (acquire who now) s.1,
       s.2 ++ match value_of (acquire who now) s.1 with Ok token => [(who, token)] | Err _ => [] end)
  | Renew who now => (state_of (renew who now) s.1, s.2)
  end.

(** Also (safety): The lease excludes and the token fences. In any reachable state of the lock: tokens
    are issued as 1, 2, 3, ... in order, so each is larger than all before it, and [guard] lets
    through only the newest token issued: a holder that paused past its lease while another acquired
    is refused. [acquire] is granted exactly when the lease is free, expired, or already its own, and
    [renew] exactly to the unexpired holder; both raise [Invalid] and change nothing otherwise. While
    a lease has not expired, no sequence of attempts by others, at any earlier times than its
    expiry, changes anything; from its expiry on, anyone is granted it. *)
Theorem lease_fencing duration ops who now (s := run lease_step ops (LeaseLock.mk duration "" (-1) 0, []))
    (l := s.1) (grants := s.2) others
    (Hothers : Forall (λ o, by_whom o ≠ holder l ∧ when o < expires_at l) others) :
  (∀ i w k, grants !! i = Some (w, k) → k = Z.of_nat i + 1)
  ∧ (∀ i w k, grants !! i = Some (w, k) →
       is_ok (guard l k) = bool_decide (S i = length grants))
  ∧ (held l now = false ∨ holder l = who →
       value_of (acquire who now) l = Ok (zlen grants + 1)
       ∧ holder (state_of (acquire who now) l) = who
       ∧ expires_at (state_of (acquire who now) l) = now + duration)
  ∧ (held l now = true → holder l ≠ who →
       acquire who now l = (l, Err Invalid) ∧ renew who now l = (l, Err Invalid))
  ∧ (holder l ≠ "" → run lease_step others s = s)
  ∧ (expires_at l <= now → is_ok (value_of (acquire who now) l) = true).
Proof.
  assert (Hinv : ∀ ops, let s := run lease_step ops (LeaseLock.mk duration "" (-1) 0, []) in
    lease_duration s.1 = duration ∧ fencing_token s.1 = zlen s.2
    ∧ ∀ i w k, s.2 !! i = Some (w, k) → k = Z.of_nat i + 1).
  { clear. induction ops as [|o ops IH] using rev_ind; [done|]. rewrite run_app.
    destruct (run lease_step ops _) as [l g]. destruct IH as (H1 & H2 & H3). simpl in H1, H2, H3.
    destruct o as [who now|who now]; cbn [run foldl lease_step fst snd]; unfold state_of, value_of.
    - rewrite acquire_run. destruct (_ && _); cbn [fst snd]; [by rewrite app_nil_r|].
      split_and!; [done|rewrite zlen_app; cbn [fencing_token]; by rewrite H2|].
      intros i w k [[Hi _]|[-> Heq]]%lookup_snoc_inv; [by eapply H3|]. simplify_eq. rewrite H2. done.
    - rewrite renew_run. by destruct (_ && _). }
  destruct (Hinv ops) as (H1 & H2 & H3). fold s in H1, H2, H3. fold l grants in H1, H2, H3. split_and!.
  - exact H3.
  - intros i w k Hi. rewrite (H3 _ _ _ Hi). unfold guard. rewrite H2.
    apply lookup_lt_Some in Hi. unfold zlen. destruct (Z.ltb_spec (Z.of_nat i + 1) (Z.of_nat (length grants)));
      simpl; symmetry; [apply bool_decide_eq_false_2|apply bool_decide_eq_true_2]; lia.
  - intros Hfree. unfold value_of, state_of. rewrite acquire_run, <-H2, <-H1.
    assert (held l now && negb (bool_decide (holder l = who)) = false) as ->; [|done].
    destruct Hfree as [-> |Hw]; [done|]. rewrite bool_decide_eq_true_2 by done. apply andb_false_r.
  - intros Hh Hw. rewrite acquire_run, renew_run, Hh, bool_decide_eq_false_2 by done. done.
  - intros Hne. assert (Hs : s = (l, grants)) by apply surjective_pairing. rewrite Hs. clear Hs Hinv.
    induction Hothers as [|o others [Hwho Hwhen] _ IH]; [done|]. cbn [run foldl].
    assert (lease_step o (l, grants) = (l, grants)) as ->; [|exact IH].
    assert (Hheld : held l (when o) = true).
    { unfold held. rewrite bool_decide_eq_false_2, (proj2 (Z.ltb_lt _ _)) by done. done. }
    destruct o as [w t|w t]; cbn [by_whom when lease_step fst snd] in *; unfold state_of, value_of.
    + rewrite acquire_run, Hheld, bool_decide_eq_false_2 by done. cbn. by rewrite app_nil_r.
    + rewrite renew_run, Hheld, bool_decide_eq_false_2 by done. done.
  - intros Hexp. unfold value_of. rewrite acquire_run. unfold held.
    rewrite (proj2 (Z.ltb_ge _ _)), andb_false_r by done. done.
Qed.

Lemma lease_fencing_witness :
  let s := run lease_step [Acquire "a" 0; Acquire "b" 5; Acquire "b" 12] (LeaseLock.mk 10 "" (-1) 0, []) in
  holder s.1 = "b" ∧ is_ok (guard s.1 1) = false ∧ run lease_step [Acquire "a" 15; Renew "a" 20] s = s.
Proof.
  intros s.
  destruct (lease_fencing 10 [Acquire "a" 0; Acquire "b" 5; Acquire "b" 12] "c" 15 [Acquire "a" 15; Renew "a" 20])
    as (_ & Hg & _ & _ & Ho & _).
  - apply (bool_decide_unpack _). vm_compute. exact I.
  - split; [vm_compute; reflexivity|]. split.
    + refine (eq_trans (Hg 0%nat "a" 1 _) _); vm_compute; reflexivity.
    + apply Ho. vm_compute. discriminate.
Defined.
End lease.

Section two_phase.
Import TwoPhaseCommit.

Inductive tpc_op := Vote (participant vote : string) | Decide.
Definition tpc_step (o : tpc_op) (s : TwoPhaseCommit.t) : TwoPhaseCommit.t :=
  match o with
  | Vote p v => state_of (vote p v) s
  | Decide => state_of decide_ s
  end.

Definition unanimous (s : TwoPhaseCommit.t) : bool :=
  forallb (λ p, bool_decide (p.2 = YES)) (map_to_list (votes s)).

Lemma cast_vote_run p v s : vote p v s =
  if bool_decide (p ∈ participants s) && bool_decide (v ∈ [YES; NO]) && negb (bool_decide (p ∈ dom (votes s))) then
    (TwoPhaseCommit.mk (participants s) (<[p := v]> (votes s)) (decision s), Ok ("'" +:+ p +:+ "' voted " +:+ v))
  else (s, Err Invalid).
Proof.
  unfold vote. rewrite bind_get, bind_raise_if.
  destruct (bool_decide (p ∈ participants s)); [|done]. cbn [negb andb]. rewrite bind_raise_if.
  destruct (bool_decide (v ∈ [YES; NO])); [|done]. cbn [negb andb]. rewrite bind_raise_if.
  by destruct (bool_decide (p ∈ dom (votes s))).
Qed.

Lemma decide_run s : decide_ s =
  if all_voted s then
    (TwoPhaseCommit.mk (participants s) (votes s) (if unanimous s then COMMIT else ABORT),
     Ok ("decided " +:+ if unanimous s then COMMIT else ABORT))
  else (s, Err Invalid).
Proof. unfold decide_. rewrite bind_get, bind_raise_if. by destruct (all_voted s). Qed.

Lemma unanimous_spec s : unanimous s = true ↔ ∀ p v, votes s !! p = Some v → v = YES.
Proof.
  unfold unanimous. rewrite forallb_forall. split.
  - intros H p v Hp. specialize (H (p, v)). apply (bool_decide_unpack _), Is_true_true, H, list_elem_of_In.
    by apply elem_of_map_to_list.
  - intros H [p v] Hin%list_elem_of_In%elem_of_map_to_list. apply bool_decide_eq_true_2. by eapply H.
Qed.

Record tpc_ok (ps : gset string) (s : TwoPhaseCommit.t) : Prop := {
  tpc_participants : participants s = ps;
  tpc_voters : dom (votes s) ⊆ ps;
  tpc_votes p v : votes s !! p = Some v → v = YES ∨ v = NO;
  tpc_decided : decision s = "" ∨ (dom (votes s) = ps ∧ decision s = if unanimous s then COMMIT else ABORT) }.

Lemma tpc_step_ok ps o s : tpc_ok ps s → tpc_ok ps (tpc_step o s).
Proof.
  intros [H1 H2 H3 H4]. destruct o as [p v|]; cbn [tpc_step]; unfold state_of.
  - rewrite cast_vote_run. destruct (_ && _) eqn:E; [|by split]. bool_prop. cbn [fst].
    split; cbn [participants votes decision]; [done| | |].
    + rewrite dom_insert. apply union_subseteq. split; [|done]. apply singleton_subseteq_l. by rewrite <-H1.
    + intros q w [[_ <-]|[_ Hq]]%lookup_insert_Some; [|by eapply H3].
      rewrite !elem_of_cons, elem_of_nil in *. tauto.
    + destruct H4 as [H4|[H4 _]]; [by left|]. exfalso. rewrite H4, <-H1 in *. done.
  - rewrite decide_run. unfold all_voted. case_bool_decide as Hall; [|by split]. cbn [fst].
    split; [done..|]. right. cbn. by rewrite Hall.
Qed.

Lemma decided_stays more s : dom (votes s) = participants s →
  decision s = (if unanimous s then COMMIT else ABORT) → run tpc_step more s = s.
Proof.
  intros Hall Hd. induction more as [|o more IH]; [done|]. cbn [run foldl].
  assert (tpc_step o s = s) as ->; [|exact IH]. destruct o as [p v|]; cbn [tpc_step]; unfold state_of.
  - rewrite cast_vote_run, Hall. by destruct (bool_decide (p ∈ participants s)), (bool_decide (v ∈ [YES; NO])).
  - rewrite decide_run. destruct (all_voted s); [|done]. cbn [fst]. rewrite <-Hd. by destruct s.
Qed.

(** Also (safety): Two-phase commit decides atomically. In any reachable state of the coordinator, with any
    participants: a decision exists only once every participant has voted, it is "commit" exactly
    when every vote is yes, and no later vote or [decide] can change it or any vote: everyone who
    hears it hears the same verdict. [decide] raises [Invalid] exactly while a vote is missing. A
    vote is accepted exactly from a participant that has not voted, and only yes or no; otherwise it
    raises [Invalid] and changes nothing. *)
Theorem two_phase_atomic ps ops more p v (s := run tpc_step ops (TwoPhaseCommit.mk ps ∅ ""))
    (later := run tpc_step more s) :
  (decision s ≠ "" → dom (votes s) = ps
     ∧ (decision s = COMMIT ↔ ∀ q, q ∈ ps → votes s !! q = Some YES)
     ∧ (decision s = COMMIT ∨ decision s = ABORT)
     ∧ decision later = decision s ∧ votes later = votes s)
  ∧ (∀ q w, votes s !! q = Some w → votes later !! q = Some w)
  ∧ value_of decide_ s = (if bool_decide (dom (votes s) = ps)
       then Ok ("decided " +:+ if unanimous s then COMMIT else ABORT) else Err Invalid)
  ∧ vote p v s = (if bool_decide (p ∈ ps) && bool_decide (v ∈ [YES; NO]) && negb (bool_decide (p ∈ dom (votes s)))
       then (TwoPhaseCommit.mk ps (<[p := v]> (votes s)) (decision s), Ok ("'" +:+ p +:+ "' voted " +:+ v))
       else (s, Err Invalid)).
Proof.
  assert (Hs : tpc_ok ps s).
  { apply run_invariant; [intros; by apply tpc_step_ok|]. split; cbn; [done|by rewrite dom_empty_L| |by left].
    by intros ?? ?%lookup_empty_Some. }
  assert (Hgrow : ∀ s' q w, votes s' !! q = Some w → votes (run tpc_step more s') !! q = Some w).
  { clear. intros s'. revert s'. induction more as [|o more IH]; intros s' q w Hq; [done|]. apply IH.
    destruct o as [p v|]; cbn [tpc_step]; unfold state_of; [rewrite cast_vote_run|rewrite decide_run; by destruct (all_voted s')].
    destruct (_ && _) eqn:E; [|done]. bool_prop. cbn. rewrite lookup_insert_ne; [done|].
    intros ->. apply H0. apply elem_of_dom. eauto. }
  split_and!; [|by apply Hgrow| |].
  - intros Hd. destruct Hs as [H1 H2 H3 [H4|[H4 H5]]]; [done|]. split_and!; [done| | | |].
    + rewrite H5. destruct (unanimous s) eqn:Hu.
      * split; [|done]. intros _ q Hq. rewrite <-H4 in Hq. apply elem_of_dom in Hq as [w Hw].
        by rewrite Hw, (proj1 (unanimous_spec s) Hu _ _ Hw).
      * split; [done|]. intros Hall. exfalso. apply not_true_iff_false in Hu. apply Hu, unanimous_spec.
        intros q w Hq. assert (q ∈ ps) as Hin by (rewrite <-H4; apply elem_of_dom; eauto).
        specialize (Hall _ Hin). congruence.
    + rewrite H5. destruct (unanimous s); auto.
    + unfold later. by rewrite (decided_stays more s (eq_trans H4 (eq_sym H1)) H5).
    + unfold later. by rewrite (decided_stays more s (eq_trans H4 (eq_sym H1)) H5).
  - unfold value_of. rewrite decide_run. unfold all_voted. rewrite (tpc_participants _ _ Hs).
    by case_bool_decide.
  - by rewrite cast_vote_run, (tpc_participants _ _ Hs).
Qed.

Lemma two_phase_atomic_witness :
  let ps : gset string := {["a"; "b"]} in
  let s := run tpc_step [Vote "a" YES; Vote "b" YES; Decide] (TwoPhaseCommit.mk ps ∅ "") in
  decision s = COMMIT
  ∧ decision (run tpc_step [Vote "b" NO; Decide] s) = decision s.
Proof.
  intros ps s.
  destruct (two_phase_atomic ps [Vote "a" YES; Vote "b" YES; Decide] [Vote "b" NO; Decide] "a" NO) as (H & _).
  destruct H as (_ & _ & _ & H & _); [vm_compute; discriminate|].
  split; [vm_compute; reflexivity|exact H].
Defined.
End two_phase.

Section snapshot_isolation.
Import SnapshotIsolation.

(** start version, write set, version committed at *)
Abbreviation tx := (Z * gset string * Z)%type (only parsing).

Lemma stamp_spec v ks s : version s = v →
  ∃ s', for_each ks (λ k, modify (λ s, SnapshotIsolation.mk (version s) (<[k := version s]> (committed_at s)))) s
        = (s', Ok ())
  ∧ version s' = v
  ∧ ∀ k, committed_at s' !! k = if bool_decide (k ∈ ks) then Some v else committed_at s !! k.
Proof.
  revert s. induction ks as [|x ks IH]; intros s Hv.
  { exists s. split_and!; [done..|]. intros k. by rewrite bool_decide_eq_false_2 by apply not_elem_of_nil. }
  destruct (IH (SnapshotIsolation.mk (version s) (<[x := version s]> (committed_at s))) Hv) as (s' & Hrun & H1 & H2).
  exists s'. split_and!; [exact Hrun|done|]. intros k. rewrite H2. cbn [committed_at].
  destruct (decide (k ∈ ks)) as [Hin|Hni].
  - rewrite !bool_decide_eq_true_2; [done|by right|done].
  - rewrite (bool_decide_eq_false_2 (k ∈ ks)) by done. destruct (decide (k = x)) as [->|].
    + rewrite lookup_insert_eq, bool_decide_eq_true_2 by left. by rewrite Hv.
    + rewrite lookup_insert_ne, bool_decide_eq_false_2 by (rewrite ?elem_of_cons; naive_solver). done.
Qed.

Definition committed_message (v : Z) : string := "committed at version " +:+ zs v.

Lemma commit_run start ws s :
  if bool_decide (conflicts s start ws = ∅) then
    ∃ s', commit start ws s = (s', Ok (committed_message (version s + 1)))
    ∧ version s' = version s + 1
    ∧ ∀ k, committed_at s' !! k = if bool_decide (k ∈ ws) then Some (version s + 1) else committed_at s !! k
  else commit start ws s = (s, Err Invalid).
Proof.
  unfold commit. rewrite bind_get, bind_raise_if. case_bool_decide; [|done]. cbn [negb].
  rewrite bind_modify. destruct (stamp_spec (version s + 1) (elements ws)
    (SnapshotIsolation.mk (version s + 1) (committed_at s)) eq_refl) as (s' & Hrun & H1 & H2).
  exists s'. rewrite bind_run. cbn [version committed_at] in *. rewrite Hrun, bind_get, run_ret, H1.
  split_and!; [done..|]. intros k. rewrite H2. by rewrite (bool_decide_ext (k ∈ elements ws) (k ∈ ws))
    by apply elem_of_elements.
Qed.

(** The store and the transactions committed so far. *)
Definition si_step (o : Z * gset string) (s : SnapshotIsolation.t * list tx) :=
  let '(start, ws) := o in
  (state_of (commit start ws) s.1,
   s.2 ++ match value_of (commit start ws) s.1 with
          | Ok _ => [(start, ws, version s.1 + 1)]
          | Err _ => []
          end).

Record si_ok (s : SnapshotIsolation.t * list tx) : Prop := {
  si_version : version s.1 = zlen s.2;
  si_numbers i t : s.2 !! i = Some t → t.2 = Z.of_nat i + 1;
  si_stamps k v : committed_at s.1 !! k = Some v → ∃ start ws, (start, ws, v) ∈ s.2 ∧ k ∈ ws;
  si_latest k start ws v : (start, ws, v) ∈ s.2 → k ∈ ws → ∃ v', committed_at s.1 !! k = Some v' ∧ v <= v';
  si_isolated k s1 w1 v1 s2 w2 v2 : (s1, w1, v1) ∈ s.2 → (s2, w2, v2) ∈ s.2 →
    k ∈ w1 → k ∈ w2 → v1 < v2 → v1 <= s2 }.

(** A commit conflicts exactly with a later commit of one of its keys. *)
Lemma conflicts_spec s start ws : si_ok s →
  conflicts s.1 start ws ≠ ∅ ↔ -1 <= start ∧ (∃ k s' ws' v, (s', ws', v) ∈ s.2 ∧ k ∈ ws ∧ k ∈ ws' ∧ start < v)
                             ∨ start < -1 ∧ ws ≠ ∅.
Proof.
  intros Hs. split.
  - intros [k [Hlt Hk]%elem_of_filter]%set_choose_L.
    destruct (Z.le_gt_cases (-1) start); [left|right; split; [done|intros ->; by apply not_elem_of_empty in Hk]].
    split; [done|]. destruct (committed_at s.1 !! k) as [v|] eqn:E; simpl in Hlt; [|lia].
    destruct (si_stamps _ Hs _ _ E) as (s' & ws' & Hin & Hk'). by exists k, s', ws', v.
  - assert (Hne : ∀ k, k ∈ ws → start < default (-1) (committed_at s.1 !! k) → conflicts s.1 start ws ≠ ∅).
    { intros k Hk Hlt E. apply (not_elem_of_empty (C:=gset string) k). rewrite <-E. by apply elem_of_filter. }
    intros [(_ & k & s' & ws' & v & Hin & Hk & Hk' & Hlt)|[Hlt [k Hk]%set_choose_L]].
    + destruct (si_latest _ Hs _ _ _ _ Hin Hk') as (v' & Hv' & Hle). apply (Hne k Hk). rewrite Hv'. simpl. lia.
    + apply (Hne k Hk). destruct (committed_at s.1 !! k) as [v|] eqn:E; simpl; [|lia].
      destruct (si_stamps _ Hs _ _ E) as (s' & ws' & Hin & _).
      apply list_elem_of_lookup in Hin as [i Hi]. apply (si_numbers _ Hs) in Hi. simpl in Hi. lia.
Qed.

Lemma si_step_ok o s : si_ok s → si_ok (si_step o s).
Proof.
  intros Hs. destruct o as [start ws]. cbn [si_step]. unfold state_of, value_of.
  pose proof (commit_run start ws s.1) as Hc. pose proof (conflicts_spec s start ws Hs) as Hconf.
  case_bool_decide as Hemp; [destruct Hc as (s' & -> & Hv & Hat)|rewrite Hc; by destruct Hs; split; simpl; rewrite ?app_nil_r].
  assert (Hno : ∀ k s1 w1 v1, (s1, w1, v1) ∈ s.2 → k ∈ w1 → k ∈ ws → v1 <= start).
  { intros k s1 w1 v1 Hin Hk1 Hk. apply Z.nlt_ge. intros Hlt. apply (proj2 Hconf); [|done].
    destruct (Z.le_gt_cases (-1) start); [left; split; [done|]; by exists k, s1, w1, v1|].
    right. split; [lia|]. intros ->. by apply not_elem_of_empty in Hk. }
  assert (Hbound : ∀ t, t ∈ s.2 → t.2 <= version s.1).
  { intros t [i Hi]%list_elem_of_lookup. rewrite (si_numbers _ Hs _ _ Hi), (si_version _ Hs).
    apply lookup_lt_Some in Hi. unfold zlen. lia. }
  destruct Hs as [H1 H2 H3 H4 H5]. split; cbn [fst snd].
  - rewrite Hv, H1, zlen_app. done.
  - intros i t [[Hi _]|[-> ->]]%lookup_snoc_inv; [by apply H2|]. cbn. rewrite H1. done.
  - intros k v. rewrite Hat. case_bool_decide as Hk.
    + intros [= <-]. exists start, ws. split; [apply elem_of_app; right; left|done].
    + intros Hk'. destruct (H3 _ _ Hk') as (s0 & w0 & Hin & ?). exists s0, w0.
      split; [apply elem_of_app; by left|done].
  - intros k s1 w1 v1 [Hin|Heq%list_elem_of_singleton]%elem_of_app Hk.
    + rewrite Hat. destruct (H4 _ _ _ _ Hin Hk) as (v' & ? & ?). case_bool_decide; [|eauto].
      exists (version s.1 + 1). split; [done|]. specialize (Hbound _ Hin). simpl in Hbound. lia.
    + simplify_eq. rewrite Hat, bool_decide_eq_true_2 by done. by exists (version s.1 + 1).
  - intros k s1 w1 v1 s2 w2 v2 [Hin1|He1%list_elem_of_singleton]%elem_of_app
      [Hin2|He2%list_elem_of_singleton]%elem_of_app Hk1 Hk2 Hlt; simplify_eq.
    + by eapply H5.
    + by eapply (Hno k).
    + specialize (Hbound _ Hin2). simpl in Hbound. lia.
    + lia.
Qed.

(** Also (safety): Snapshot isolation loses no update: first committer wins. In any reachable history of
    commits, with any start versions and write sets, versions are 1, 2, 3, ... in commit order, and of
    two committed transactions that wrote a common key the later one started at or after the version
    the earlier one committed: it saw that write. [commit] raises [Invalid], and changes nothing,
    exactly when some transaction committed one of its keys after its start (for any start that
    [begin] can give); otherwise it takes the next version. Disjoint write sets never conflict. *)
Theorem no_lost_update ops start ws (s := run si_step ops (SnapshotIsolation.init, [])) (Hstart : 0 <= start)
    k s1 w1 v1 s2 w2 v2 (H1 : (s1, w1, v1) ∈ s.2) (H2 : (s2, w2, v2) ∈ s.2)
    (Hk1 : k ∈ w1) (Hk2 : k ∈ w2) (Hv : v1 < v2) :
  v1 <= s2
  ∧ (∀ i t, s.2 !! i = Some t → t.2 = Z.of_nat i + 1)
  ∧ begin s.1 = zlen s.2
  ∧ ((∃ x s' ws' v, (s', ws', v) ∈ s.2 ∧ x ∈ ws ∧ x ∈ ws' ∧ start < v) →
       commit start ws s.1 = (s.1, Err Invalid))
  ∧ ((∀ x s' ws' v, (s', ws', v) ∈ s.2 → x ∈ ws → x ∈ ws' → v <= start) →
       value_of (commit start ws) s.1 = Ok (committed_message (version s.1 + 1))).
Proof.
  assert (Hs : si_ok s).
  { apply run_invariant; [apply si_step_ok|]. split; simpl; try done.
    - by intros ???? ?%elem_of_nil.
    - by intros ??????? ?%elem_of_nil. }
  pose proof (commit_run start ws s.1) as Hc. pose proof (conflicts_spec s start ws Hs) as Hconf.
  split_and!.
  - by eapply (si_isolated _ Hs k).
  - apply Hs.
  - apply Hs.
  - intros Hex. rewrite bool_decide_eq_false_2 in Hc; [done|]. intros He. apply (proj2 Hconf); [|done].
    left. split; [lia|done].
  - intros Hall. case_bool_decide as He.
    + destruct Hc as (s' & Hc & _). unfold value_of. by rewrite Hc.
    + exfalso. apply Hconf in He as [(_ & x & s' & ws' & v & Hin & Hx & Hx' & Hlt)|[? _]]; [|lia].
      specialize (Hall _ _ _ _ Hin Hx Hx'). lia.
Qed.

Lemma no_lost_update_witness :
  let ops := [(0, {["x"]}); (0, {["x"]}); (0, {["y"]}); (1, {["x"; "z"]})] in
  let s := run si_step ops (SnapshotIsolation.init, []) in
  zlen s.2 = 3 ∧ value_of (commit 2 {["x"]}) s.1 = Err Invalid.
Proof.
  intros ops s.
  destruct (no_lost_update ops 2 {["x"]} ltac:(lia) "x" 0 {["x"]} 1 1 {["x"; "z"]} 3) as (_ & _ & _ & H & _).
  - apply (bool_decide_unpack _). vm_compute. exact I.
  - apply (bool_decide_unpack _). vm_compute. exact I.
  - apply (bool_decide_unpack _). vm_compute. exact I.
  - apply (bool_decide_unpack _). vm_compute. exact I.
  - lia.
  - split; [vm_compute; reflexivity|]. refine (f_equal snd (H _)).
    exists "x", 1, {["x"; "z"]}, 3. split_and!; [| | |lia]; apply (bool_decide_unpack _); vm_compute; exact I.
Defined.
End snapshot_isolation.

Section barrier.
Import BarrierAligner.

Inductive ba_op := Barrier (channel : string) (id : Z) | Record_ (channel : string) | Snapshot_.

(** The aligner and the ids of the snapshots taken. *)
Definition ba_step (o : ba_op) (s : BarrierAligner.t * list Z) : BarrierAligner.t * list Z :=
  match o with
  | Barrier c id => (state_of (receive_barrier c id) s.1, s.2)
  | Record_ c => (state_of (buffer_record c) s.1, s.2)
  | Snapshot_ => (state_of snapshot s.1,
                  s.2 ++ match value_of snapshot s.1 with Ok _ => [current s.1] | Err _ => [] end)
  end.

Lemma receive_run c id s : receive_barrier c id s =
  let s' := BarrierAligner.mk (inputs s) (last_checkpoint s)
              (if current s <? 0 then id else current s) (arrived s ∪ {[c]}) (buffered s) in
  if bool_decide (c ∈ inputs s) && negb ((current s <? 0) && (id <=? last_checkpoint s)) then
    (s', Ok ("barrier " +:+ zs id +:+ " on '" +:+ c +:+ "', " +:+ zs (awaiting s') +:+ " awaited"))
  else (s, Err Invalid).
Proof.
  unfold receive_barrier. rewrite bind_get, bind_raise_if. destruct (bool_decide (c ∈ inputs s)); [|done].
  cbn [negb andb]. rewrite bind_if. destruct (current s <? 0); [|done].
  rewrite bind_assoc, bind_raise_if. by destruct (id <=? last_checkpoint s).
Qed.

Lemma snapshot_run s : snapshot s =
  if aligned s then
    (BarrierAligner.mk (inputs s) (current s) (-1) ∅ [],
     Ok ("checkpoint " +:+ zs (current s) +:+ " snapshotted after alignment; "
         +:+ zs (zsum id (d_values (buffered s))) +:+ " "
         +:+ "buffered record(s) released to the correct side of the cut"))
  else (s, Err Invalid).
Proof. unfold snapshot. rewrite bind_get, bind_raise_if. by destruct (aligned s). Qed.

Record ba_ok (ins : gset string) (s : BarrierAligner.t * list Z) : Prop := {
  ba_inputs : inputs s.1 = ins;
  ba_arrived : arrived s.1 ⊆ ins;
  ba_current : current s.1 < 0 ∧ arrived s.1 = ∅ ∧ buffered s.1 = []
               ∨ last_checkpoint s.1 < current s.1 ∧ arrived s.1 ≠ ∅;
  ba_held c : c ∈ d_keys (buffered s.1) → c ∈ arrived s.1;
  ba_last : -1 <= last_checkpoint s.1;
  ba_below i : i ∈ s.2 → i <= last_checkpoint s.1;
  ba_ids : StronglySorted Z.lt s.2 }.

Lemma ba_step_ok ins o s : ins ≠ ∅ → ba_ok ins s → ba_ok ins (ba_step o s).
Proof.
  intros Hins [H1 H2 H3 H4 H5 H6 H7]. destruct s as [s ids]. cbn [fst snd] in *.
  destruct o as [c id|c|]; cbn [ba_step]; unfold state_of, value_of; cbn [fst snd].
  - rewrite receive_run. destruct (_ && _) eqn:E; cbn [fst]; [|by split].
    apply andb_true_iff in E as [Hc%bool_decide_eq_true Hid].
    split; cbn [fst snd inputs last_checkpoint current arrived buffered]; [done| | | |done..].
    + apply union_subseteq. split; [done|]. apply singleton_subseteq_l. by rewrite <-H1.
    + right. split.
      * destruct (Z.ltb_spec (current s) 0); [|lia]. apply negb_true_iff, Z.leb_gt in Hid. lia.
      * intros He. apply (not_elem_of_empty (C:=gset string) c). rewrite <-He. apply elem_of_union_r, elem_of_singleton. done.
    + intros x Hx. apply elem_of_union_l. by apply H4.
  - unfold buffer_record. rewrite run_modify. cbn [fst]. case_bool_decide as Hc; [|by split].
    split; cbn [fst snd inputs last_checkpoint current arrived buffered]; [done|done| | |done..].
    + destruct H3 as [(_ & He & _)|H3]; [|by right]. rewrite He in Hc. by apply not_elem_of_empty in Hc.
    + intros x. destruct (decide (c ∈ d_keys (buffered s))).
      * rewrite d_keys_set_mem by done. apply H4.
      * rewrite d_keys_set_fresh by done. intros [Hx| ->%list_elem_of_singleton]%elem_of_app; [by apply H4|done].
  - rewrite snapshot_run. unfold aligned. case_bool_decide as Ha; cbn [fst snd]; [|by split; rewrite ?app_nil_r].
    destruct H3 as [(_ & He & _)|[Hcur Hne]]; [exfalso; congruence|].
    split; cbn [fst snd inputs last_checkpoint current arrived buffered]; [done|apply empty_subseteq|left; split; [lia|done]|by intros ? ?%elem_of_nil|lia| |].
    + intros i [Hi%H6| ->%list_elem_of_singleton]%elem_of_app; lia.
    + apply StronglySorted_app_2; [|done|repeat constructor].
      intros i j Hi%H6 ->%list_elem_of_singleton. lia.
Qed.

(** Also (safety): A checkpoint is taken only at a consistent cut. In any reachable state of the aligner,
    with any non-empty set of inputs: [snapshot] succeeds exactly when the barrier has arrived on
    every input, and otherwise raises [Invalid] and changes nothing; the ids of the snapshots taken
    strictly increase; records are held back exactly on inputs that have already sent the barrier,
    and the snapshot releases all of them and starts over with nothing arrived or held. A barrier on
    an unknown input, or one that starts a checkpoint not beyond the last, raises [Invalid] and
    changes nothing. *)
Theorem barrier_alignment ins ops c cid (Hins : ins ≠ ∅)
    (s := run ba_step ops (BarrierAligner.mk ins (-1) (-1) ∅ [], [])) (b := s.1) :
  value_of snapshot b
    = (if bool_decide (arrived b = ins) then
         Ok ("checkpoint " +:+ zs (current b) +:+ " snapshotted after alignment; "
             +:+ zs (zsum id (d_values (buffered b))) +:+ " "
             +:+ "buffered record(s) released to the correct side of the cut")
       else Err Invalid)
  ∧ (arrived b ≠ ins → state_of snapshot b = b)
  ∧ (arrived b = ins → last_checkpoint b < current b
      ∧ state_of snapshot b = BarrierAligner.mk ins (current b) (-1) ∅ [])
  ∧ StronglySorted Z.lt s.2
  ∧ (∀ x, x ∈ d_keys (buffered b) → x ∈ arrived b)
  ∧ (∀ x, d_getd (buffered (state_of (buffer_record c) b)) x 0
          = d_getd (buffered b) x 0 + if bool_decide (x = c ∧ c ∈ arrived b) then 1 else 0)
  ∧ (c ∉ ins ∨ (arrived b = ∅ ∧ cid <= last_checkpoint b) →
       receive_barrier c cid b = (b, Err Invalid)).
Proof.
  assert (Hs : ba_ok ins s).
  { apply run_invariant; [intros; by apply ba_step_ok|].
    split; cbn; [done|apply empty_subseteq|by left|by intros ? ?%elem_of_nil|done|by intros ? ?%elem_of_nil|constructor]. }
  destruct Hs as [H1 H2 H3 H4 H5 H6 H7]. fold b in H1, H2, H3, H4, H5, H6.
  unfold value_of, state_of. rewrite snapshot_run. unfold aligned. rewrite H1. split_and!.
  - by case_bool_decide.
  - intros Hne. by rewrite bool_decide_eq_false_2.
  - intros Ha. rewrite bool_decide_eq_true_2 by done. split; [|done].
    destruct H3 as [(_ & He & _)|[? _]]; [congruence|done].
  - done.
  - done.
  - intros x. unfold buffer_record. rewrite run_modify. cbn [fst].
    destruct (decide (c ∈ arrived b)) as [Hc|Hc].
    + rewrite (bool_decide_eq_true_2 (c ∈ arrived b)) by done. cbn [buffered]. rewrite d_getd_set.
      destruct (decide (x = c)) as [->|]; [rewrite !bool_decide_eq_true_2 by done; lia|].
      rewrite !bool_decide_eq_false_2 by tauto. lia.
    + rewrite !bool_decide_eq_false_2 by tauto. lia.
  - intros Hbad. rewrite receive_run, H1. destruct Hbad as [Hc|[Ha Hid]].
    + by rewrite bool_decide_eq_false_2.
    + destruct H3 as [(Hcur & _ & _)|[_ Hne]]; [|done].
      rewrite (proj2 (Z.ltb_lt _ _) Hcur), (proj2 (Z.leb_le _ _) Hid), andb_false_r. done.
Qed.

Lemma barrier_alignment_witness :
  let ins : gset string := {["l"; "r"]} in
  let b := (run ba_step [Barrier "l" 3; Record_ "l"; Barrier "r" 3; Snapshot_; Barrier "l" 5]
              (BarrierAligner.mk ins (-1) (-1) ∅ [], [])).1 in
  state_of snapshot b = b.
Proof.
  intros ins b.
  apply (barrier_alignment ins [Barrier "l" 3; Record_ "l"; Barrier "r" 3; Snapshot_; Barrier "l" 5] "l" 0).
  - vm_compute. discriminate.
  - vm_compute. discriminate.
Defined.

(** Once a checkpoint is in progress, a barrier of any other id counts as its arrival. *)
Lemma barrier_id_ignored :
  let ins : gset string := {["l"; "r"]} in
  let b := (run ba_step [Barrier "l" 3; Barrier "r" 1] (BarrierAligner.mk ins (-1) (-1) ∅ [], [])).1 in
  aligned b = true ∧ current b = 3.
Proof. vm_compute. done. Qed.
End barrier.

Section saga.
Import Saga.

Inductive sg_op := Complete (step : string) | Fail_.
Definition sg_step (o : sg_op) (s : Saga.t) : Saga.t :=
  match o with
  | Complete x => state_of (complete_step x) s
  | Fail_ => state_of fail s
  end.

Lemma states_differ : RUNNING ≠ COMMITTED ∧ RUNNING ≠ COMPENSATED ∧ COMMITTED ≠ COMPENSATED.
Proof. done. Qed.

Lemma complete_run x s : complete_step x s =
  if bool_decide (state s = RUNNING) && bool_decide (x ∈ steps s) then
    if bool_decide (completed s ++ [x] = steps s) then
      (Saga.mk (steps s) (completed s ++ [x]) (compensated s) COMMITTED, Ok "all steps completed; saga committed")
    else (Saga.mk (steps s) (completed s ++ [x]) (compensated s) (state s), Ok ("'" +:+ x +:+ "' completed"))
  else (s, Err Invalid).
Proof.
  unfold complete_step. rewrite bind_get, bind_raise_if. destruct (bool_decide (state s = RUNNING)); [|done].
  cbn [negb andb]. rewrite bind_raise_if. destruct (bool_decide (x ∈ steps s)); [|done]. cbn [negb].
  rewrite bind_modify, bind_get, run_if. cbn [completed steps]. by case_bool_decide.
Qed.

Lemma fail_run s : fail s =
  (Saga.mk (steps s) (completed s) (rev (completed s)) COMPENSATED, Ok (rev (completed s))).
Proof. reflexivity. Qed.

(** What a saga is in each of its states. *)
Definition sg_ok (plan : list string) (s : Saga.t) : Prop :=
  steps s = plan ∧ (∀ x, x ∈ completed s → x ∈ plan)
  ∧ (state s = RUNNING ∧ compensated s = [] ∧ completed s ≠ plan
     ∨ state s = COMMITTED ∧ compensated s = [] ∧ completed s = plan
     ∨ state s = COMPENSATED ∧ compensated s = rev (completed s)).

Lemma sg_step_ok plan o s : sg_ok plan s → sg_ok plan (sg_step o s).
Proof.
  intros (H1 & H2 & H3). pose proof states_differ as (D1 & D2 & D3).
  destruct o as [x|]; cbn [sg_step]; unfold state_of.
  - rewrite complete_run. destruct (_ && _) eqn:E; [|done]. bool_prop.
    assert (∀ y, y ∈ completed s ++ [x] → y ∈ plan)
      by (intros y [?| ->%list_elem_of_singleton]%elem_of_app; [auto|congruence]).
    destruct H3 as [(Hr & Hc & _)|[(Hr & _)|(Hr & _)]]; [|congruence..].
    case_bool_decide; split_and!; cbn; try done; [right; left|left]; split_and!; congruence.
  - rewrite fail_run. split_and!; cbn; [done|done|]. by right; right.
Qed.

(** Also (safety): A saga ends committed with every step done in order, or compensated in reverse. In any
    reachable state of a saga with any non-empty plan: only steps of the plan are ever recorded; it
    is committed exactly when it has not failed and the steps recorded are the plan, in order; a
    failure answers the steps recorded so far, last first, which are what it compensates, and from
    then on no step runs forward: [complete_step] raises [Invalid] and changes nothing unless the
    saga is running and the step is of the plan. [compensate_step] raises [Invalid] exactly for a
    step that was never recorded. *)
Theorem saga_commits_or_unwinds plan ops x (Hplan : plan ≠ []) (s := run sg_step ops (Saga.mk plan [] [] RUNNING)) :
  Saga.make plan = Ok (Saga.mk plan [] [] RUNNING)
  ∧ (∀ y, y ∈ completed s → y ∈ plan)
  ∧ (state s = COMMITTED ↔ state s ≠ COMPENSATED ∧ completed s = plan)
  ∧ (state s = COMPENSATED → compensated s = rev (completed s))
  ∧ value_of fail s = Ok (rev (completed s)) ∧ state (state_of fail s) = COMPENSATED
  ∧ (state s ≠ RUNNING ∨ x ∉ plan → complete_step x s = (s, Err Invalid))
  ∧ is_ok (compensate_step s x) = bool_decide (x ∈ completed s).
Proof.
  assert (Hs : sg_ok plan s).
  { apply run_invariant; [intros; by apply sg_step_ok|]. split_and!; cbn; [done|by intros ? ?%elem_of_nil|].
    left. done. }
  destruct Hs as (H1 & H2 & H3). pose proof states_differ as (D1 & D2 & D3). split_and!; try done.
  - unfold make. by rewrite bool_decide_eq_false_2.
  - destruct H3 as [(Hr & _ & Hn)|[(Hr & _ & Hn)|(Hr & _)]]; rewrite Hr; split; (congruence || intros [? ?] || done).
    all: try congruence. all: try (split; congruence).
  - destruct H3 as [(Hr & _)|[(Hr & _)|(_ & Hr)]]; [congruence..|done].
  - intros Hbad. rewrite complete_run, H1. destruct Hbad; [rewrite bool_decide_eq_false_2 by done; done|].
    rewrite (bool_decide_eq_false_2 (x ∈ plan)), andb_false_r by done. done.
  - unfold compensate_step. by case_bool_decide.
Qed.

Lemma saga_commits_or_unwinds_witness :
  let s := run sg_step [Complete "reserve"; Complete "charge"; Fail_]
             (Saga.mk ["reserve"; "charge"; "ship"] [] [] RUNNING) in
  compensated s = ["charge"; "reserve"] ∧ complete_step "ship" s = (s, Err Invalid).
Proof.
  intros s. destruct (saga_commits_or_unwinds ["reserve"; "charge"; "ship"]
    [Complete "reserve"; Complete "charge"; Fail_] "ship" ltac:(discriminate)) as (_ & _ & _ & H & _ & _ & Hno & _).
  split; [exact (H eq_refl)|apply Hno; left; discriminate].
Defined.

(** A saga that has committed is compensated by a later [fail]. *)
Lemma committed_saga_unwinds :
  let s := run sg_step [Complete "a"; Complete "b"; Fail_] (Saga.mk ["a"; "b"] [] [] RUNNING) in
  state s = COMPENSATED ∧ compensated s = ["b"; "a"].
Proof. done. Qed.
End saga.

Section role_changes.

Inductive leader_op := BecomeLeader (epoch : Z) (offsets : list Z).
Definition leader_step (o : leader_op) (s : LeaderTransition.t) : LeaderTransition.t :=
  match o with BecomeLeader e offs => state_of (LeaderTransition.become_leader e offs) s end.

Lemma become_leader_run e offs s : LeaderTransition.become_leader e offs s =
  if negb (LeaderTransition.hosts s) then (s, Err Missing)
  else if e <=? LeaderTransition.epoch s then (s, Err Invalid)
  else (LeaderTransition.mk true false e true,
    Ok ("became leader at epoch " +:+ zs e +:+ ": fetcher stopped, then watermark set to "
        +:+ zs (match offs with [] => 0 | x :: l => py_min x l end) +:+ ", then produce enabled")).
Proof.
  unfold LeaderTransition.become_leader. rewrite bind_get, bind_raise_if.
  destruct (LeaderTransition.hosts s) eqn:Hh; [|done]. cbn [negb]. rewrite bind_raise_if.
  destruct (e <=? _); [done|]. rewrite !bind_modify, run_ret. cbn. by rewrite Hh.
Qed.

Inductive follower_op := StopServing | Truncate (offset : Z) | StartFetching.
Definition follower_step (o : follower_op) (s : FollowerTransition.t) : FollowerTransition.t :=
  match o with
  | StopServing => state_of FollowerTransition.stop_serving s
  | Truncate off => state_of (FollowerTransition.truncate off) s
  | StartFetching => state_of FollowerTransition.start_fetching s
  end.

Import FollowerTransition.

Lemma truncate_run off s : truncate off s =
  if serving s then (s, Err Invalid)
  else if log_end s <? off then (s, Err Invalid)
  else (FollowerTransition.mk off (high_watermark s) (serving s) off (fetching s),
    Ok ("truncated to " +:+ zs off +:+ ", discarded " +:+ zs (log_end s - off) +:+ " "
        +:+ "uncommitted record(s) from the tail")).
Proof.
  unfold truncate. rewrite bind_get, bind_raise_if. destruct (serving s) eqn:Hs; [done|]. rewrite bind_raise_if.
  destruct (log_end s <? off); [done|]. done.
Qed.

Lemma start_fetching_run s : start_fetching s =
  if truncated_to s <? 0 then (s, Err Invalid)
  else (FollowerTransition.mk (log_end s) (high_watermark s) (serving s) (truncated_to s) true,
        Ok ("fetching from the new leader, resuming at " +:+ zs (truncated_to s))).
Proof. unfold start_fetching. rewrite bind_get, bind_raise_if. by destruct (truncated_to s <? 0). Qed.

(** [truncated_to] is -1 until the first truncation and the log end from then on. *)
Definition follower_ok (end0 : Z) (s : FollowerTransition.t) : Prop :=
  log_end s <= end0
  ∧ (truncated_to s = -1 ∧ fetching s = false ∨ truncated_to s = log_end s ∧ serving s = false).

Lemma follower_step_ok end0 o s : follower_ok end0 s → follower_ok end0 (follower_step o s).
Proof.
  intros H. pose proof H as [H1 H2]. destruct o as [|off|]; cbn [follower_step]; unfold state_of.
  - split; cbn; [done|]. destruct H2 as [?|[? ?]]; [by left|by right].
  - rewrite truncate_run. destruct (serving s) eqn:Hs; [exact H|].
    destruct (Z.ltb_spec (log_end s) off); [exact H|]. split; cbn; [lia|by right].
  - rewrite start_fetching_run. destruct (Z.ltb_spec (truncated_to s) 0); [exact H|].
    split; cbn; [done|]. destruct H2 as [[? _]|H2]; [lia|by right].
Qed.

(** Also (safety): A broker never plays two roles on one partition. On promotion: [become_leader] raises
    [Missing] when the partition is not hosted and [Invalid] when the epoch does not advance,
    changing nothing; in any run the epoch only grows, and produce is accepted exactly after a
    successful promotion, when the fetcher is stopped, never before. On demotion, in any run of
    [stop_serving], [truncate] and [start_fetching]: fetching implies that produce has stopped and
    the log was truncated, to the offset where it now ends; truncation is refused with [Invalid] while
    serving or past the log end, so the log never grows; and fetching is refused before it. *)
Theorem role_changes_exclusive hosted lops e offs rec end0 hw fops off
    (l := run leader_step lops (LeaderTransition.init hosted))
    (f := run follower_step fops (FollowerTransition.init end0 hw)) :
  is_ok (LeaderTransition.accept_produce l rec) = LeaderTransition.serving l
  ∧ (LeaderTransition.serving l = true → LeaderTransition.hosts l = true
       ∧ LeaderTransition.fetching l = false ∧ 0 < LeaderTransition.epoch l)
  ∧ LeaderTransition.epoch l <= LeaderTransition.epoch (leader_step (BecomeLeader e offs) l)
  ∧ value_of (LeaderTransition.become_leader e offs) l
    = (if negb hosted then Err Missing else if e <=? LeaderTransition.epoch l then Err Invalid
       else Ok ("became leader at epoch " +:+ zs e +:+ ": fetcher stopped, then watermark set to "
             +:+ zs (match offs with [] => 0 | x :: l => py_min x l end) +:+ ", then produce enabled"))
  ∧ (fetching f = true → serving f = false ∧ truncated_to f = log_end f)
  ∧ log_end f <= end0
  ∧ (serving f = true ∨ log_end f < off → truncate off f = (f, Err Invalid))
  ∧ (truncated_to f = -1 → start_fetching f = (f, Err Invalid)).
Proof.
  assert (Hl : LeaderTransition.hosts l = hosted ∧ 0 <= LeaderTransition.epoch l
    ∧ (LeaderTransition.serving l = true → hosted = true ∧ LeaderTransition.fetching l = false
        ∧ 0 < LeaderTransition.epoch l)).
  { apply (run_invariant leader_step (λ l, LeaderTransition.hosts l = hosted ∧ 0 <= LeaderTransition.epoch l
      ∧ (LeaderTransition.serving l = true → hosted = true ∧ LeaderTransition.fetching l = false
        ∧ 0 < LeaderTransition.epoch l))); [|done].
    intros [e' offs'] s H. pose proof H as (H1 & H2 & H3). cbn [leader_step]. unfold state_of.
    rewrite become_leader_run, H1. destruct hosted; [|exact H]. cbn [negb].
    destruct (Z.leb_spec e' (LeaderTransition.epoch s)); [exact H|]. split_and!; cbn; [done|lia|]. intros _. split_and!; [done..|lia]. }
  destruct Hl as (H1 & H2 & H3).
  assert (Hf : follower_ok end0 f).
  { apply run_invariant; [intros; by apply follower_step_ok|]. split; cbn; [lia|by left]. }
  destruct Hf as [F1 F2]. split_and!.
  - unfold LeaderTransition.accept_produce. destruct (LeaderTransition.serving l) eqn:Hs; [|done].
    destruct (H3 eq_refl) as (_ & -> & _). done.
  - intros Hs. rewrite H1. by apply H3.
  - cbn [leader_step]. unfold state_of. rewrite become_leader_run.
    destruct (negb _); [done|]. destruct (Z.leb_spec e (LeaderTransition.epoch l)); cbn; lia.
  - unfold value_of. rewrite become_leader_run, H1. destruct (negb hosted); [done|]. by destruct (e <=? _).
  - intros Hfe. destruct F2 as [[_ F2]|[? ?]]; [congruence|done].
  - done.
  - intros Hbad. rewrite truncate_run. destruct (serving f) eqn:Hs; [done|].
    destruct Hbad; [done|]. by rewrite (proj2 (Z.ltb_lt _ _)).
  - intros Ht. by rewrite start_fetching_run, Ht.
Qed.

(** The truncation point may be below the high watermark: committed records go. *)
Lemma truncate_below_watermark :
  let f := run follower_step [StopServing; Truncate 2] (FollowerTransition.init 10 8) in
  log_end f = 2 ∧ high_watermark f = 8.
Proof. done. Qed.

Lemma install_run off s : SnapshotInstaller.install off s =
  if (SnapshotInstaller.log_end s <? off) || (off <=? SnapshotInstaller.follower_position s) then (s, Err Invalid)
  else (SnapshotInstaller.mk (SnapshotInstaller.log_start s) (SnapshotInstaller.log_end s) off,
        Ok ("snapshot installed at " +:+ zs off +:+ "; resume fetching from there")).
Proof.
  unfold SnapshotInstaller.install. rewrite bind_get, bind_raise_if. destruct (_ <? off); [done|].
  rewrite bind_raise_if. by destruct (off <=? _).
Qed.

(** Installing moves a follower strictly forward, within the log, and lets it replay exactly when
    the snapshot reaches the log start. *)
Lemma install_forward off s (s' := state_of (SnapshotInstaller.install off) s) :
  SnapshotInstaller.follower_position s <= SnapshotInstaller.follower_position s'
  ∧ (is_ok (value_of (SnapshotInstaller.install off) s) = true →
      SnapshotInstaller.follower_position s < SnapshotInstaller.follower_position s' <= SnapshotInstaller.log_end s
      ∧ (SnapshotInstaller.mechanism s' = SnapshotInstaller.REPLAY ↔ SnapshotInstaller.log_start s <= off)).
Proof.
  unfold s', state_of, value_of. rewrite install_run.
  destruct (Z.ltb_spec (SnapshotInstaller.log_end s) off), (Z.leb_spec off (SnapshotInstaller.follower_position s));
    cbn; try (split; [lia|done]). split; [lia|]. intros _. split; [lia|].
  unfold SnapshotInstaller.mechanism. cbn. destruct (Z.ltb_spec off (SnapshotInstaller.log_start s)); split; (done || lia).
Qed.

(** A snapshot from before the log start installs, and leaves the follower unable to replay. *)
Lemma stale_snapshot_installs :
  let s := state_of (SnapshotInstaller.install 5) (SnapshotInstaller.mk 10 20 0) in
  value_of (SnapshotInstaller.install 5) (SnapshotInstaller.mk 10 20 0)
    = Ok ("snapshot installed at " +:+ zs 5 +:+ "; resume fetching from there")
  ∧ SnapshotInstaller.mechanism s = SnapshotInstaller.SNAPSHOT.
Proof. split; reflexivity. Qed.
End role_changes.
