(* ===== verification/Trees.v ===== *)
(** * Trees kept in flat tables

    [relay/disjointset.py]: a forest of parent pointers in a dictionary, with path
    compression and union by rank; [relay/fenwicktree.py]: prefix sums in an array
    indexed by the lowest set bit.  Their loops climb a tree that is only implicit in
    the table, so each part proves that the loops end before it says what they return. *)

From S2P Require Import Prelude PyDict PyBytes.

Module disjointset.
Module DisjointSet.
(** [relay/disjointset.py] class DisjointSet *)
Record t := mk { parent : pydict string string; rank : pydict string Z }.

Definition make : t := mk [] [].

(** [relay/disjointset.py] DisjointSet.add *)
Definition add (element : string) : act t unit :=
  self ← get;
  if d_mem (parent self) element then mret ()
  else put (mk (d_set (parent self) element element) (d_set (rank self) element 0)).

(** [relay/disjointset.py:50-51] DisjointSet.find *)
Definition climb (parent : pydict string string) (root : string) : result (string + string) :=
  p ← d_item parent root;
  Ok (if bool_decide (p = root) then inr root else inl p).

(** [relay/disjointset.py:53-54] DisjointSet.find *)
Definition compress (root element : string) : act t (string + unit) :=
  self ← get;
  p ← pure_of (d_item (parent self) element);
  if bool_decide (p = root) then mret (inr ())
  else put (mk (d_set (parent self) element root) (rank self));; mret (inl p).

(** [relay/disjointset.py] DisjointSet.find *)
Definition find (element : string) : act t string :=
  self ← get;
  raise_if (negb (d_mem (parent self) element)) Invalid;;
  let fuel := S (length (parent self)) in
  root ← pure_of (loop (climb (parent self)) fuel element);
  act_loop (compress root) fuel element;;
  mret root.

(** [relay/disjointset.py:62-66] DisjointSet.union *)
Definition link (ra rb : string) : act t unit :=
  self ← get;
  rank_a ← pure_of (d_item (rank self) ra);
  rank_b ← pure_of (d_item (rank self) rb);
  let '(ra, rb, rank_a, rank_b) :=
    if rank_a <? rank_b then (rb, ra, rank_b, rank_a) else (ra, rb, rank_a, rank_b) in
  put (mk (d_set (parent self) rb ra)
          (if rank_a =? rank_b then d_set (rank self) ra (rank_a + 1) else rank self)).

(** [relay/disjointset.py] DisjointSet.union *)
Definition union (a b : string) : act t unit :=
  ra ← find a;
  rb ← find b;
  if bool_decide (ra = rb) then mret () else link ra rb.

(** [relay/disjointset.py] DisjointSet.same_group *)
Definition same_group (a b : string) : act t bool :=
  ra ← find a;
  rb ← find b;
  mret (bool_decide (ra = rb)).

Fixpoint find_all (elements : list string) (found : gset string) : act t (gset string) :=
  match elements with
  | [] => mret found
  | e :: elements' => r ← find e; find_all elements' ({[ r ]} ∪ found)
  end.

(** [relay/disjointset.py] DisjointSet.group_count: the number the message starts with *)
Definition group_count : act t Z :=
  self ← get;
  groups ← find_all (d_keys (parent self)) ∅;
  mret (Z.of_nat (size groups)).
End DisjointSet.
End disjointset.
Import disjointset.

Module fenwicktree.
Module FenwickTree.
(** [relay/fenwicktree.py] class FenwickTree *)
Record t := mk { size : Z; _tree : list Z }.

(** [relay/fenwicktree.py] FenwickTree.__post_init__ *)
Definition make (size : Z) (_tree : list Z) : result t :=
  if size <? 1 then Err Invalid
  else Ok (mk size (match _tree with [] => replicate (Z.to_nat (size + 1)) 0 | _ => _tree end)).

(** [relay/fenwicktree.py:51-53] FenwickTree.update *)
Definition update_round (delta i : Z) : act t (Z + unit) :=
  self ← get;
  if i <=? size self then
    old ← pure_of (py_index (_tree self) i);
    tree' ← pure_of (py_setitem (_tree self) i (old + delta));
    put (mk (size self) tree');;
    mret (inl (i + Z.land i (- i)))
  else mret (inr ()).

(** [relay/fenwicktree.py] FenwickTree.update *)
Definition update (index delta : Z) : act t unit :=
  self ← get;
  raise_if (negb ((1 <=? index) && (index <=? size self))) Invalid;;
  act_loop (update_round delta) (S (Z.to_nat (size self))) index.

(** [relay/fenwicktree.py:60-62] FenwickTree.prefix_sum *)
Definition prefix_round (tree : list Z) (s : Z * Z) : result (Z * Z + Z) :=
  let '(total, i) := s in
  if 0 <? i then
    x ← py_index tree i;
    Ok (inl (total + x, i - Z.land i (- i)))
  else Ok (inr total).

(** [relay/fenwicktree.py] FenwickTree.prefix_sum *)
Definition prefix_sum (self : t) (index : Z) : result Z :=
  if negb ((0 <=? index) && (index <=? size self)) then Err Invalid
  else loop (prefix_round (_tree self)) (S (Z.to_nat index)) (0, index).

(** [relay/fenwicktree.py] FenwickTree.range_sum *)
Definition range_sum (self : t) (low high : Z) : result Z :=
  if high <? low then Err Invalid
  else
    above ← prefix_sum self high;
    below ← prefix_sum self (low - 1);
    Ok (above - below).

(** [relay/fenwicktree.py] FenwickTree.total: the number in the message *)
Definition total (self : t) : result Z := prefix_sum self (size self).
End FenwickTree.
End fenwicktree.
Import fenwicktree.

Example ds_groups :
  let m := (DisjointSet.add "a";; DisjointSet.add "b";; DisjointSet.add "c";;
            DisjointSet.union "a" "b";; DisjointSet.same_group "b" "a")%string in
  value_of m DisjointSet.make = Ok true ∧
  value_of (DisjointSet.same_group "a" "c"%string) (state_of m DisjointSet.make) = Ok false ∧
  value_of DisjointSet.group_count (state_of m DisjointSet.make) = Ok 2.
Proof. by vm_compute. Qed.

Example fenwick_sums :
  let m := (FenwickTree.update 3 5;; FenwickTree.update 7 2;; FenwickTree.update 4 (-1)) in
  match FenwickTree.make 10 [] with
  | Ok s => FenwickTree.range_sum (state_of m s) 3 6
  | Err e => Err e
  end = Ok 4.
Proof. by vm_compute. Qed.

(** ** The forest of a disjoint set *)

Section forest.
Implicit Types (s : DisjointSet.t) (x y r : string).
Import DisjointSet.

Definition up s x y : Prop := d_get (parent s) x = Some y ∧ y ≠ x.
Definition is_root s r : Prop := d_get (parent s) r = Some r.
Definition root_of s x r : Prop := rtc (up s) x r ∧ is_root s r.
Definition rk s x : Z := d_getd (rank s) x 0.

(** Parents are elements, ranks rise towards the root, and a root of rank [k] stands
    for at least [2^k] elements. *)
Record ds_inv s : Prop := {
  ds_wf : d_wf (parent s);
  ds_ranked : d_keys (rank s) = d_keys (parent s);
  ds_closed : ∀ x y, d_get (parent s) x = Some y → y ∈ d_keys (parent s);
  ds_rank_nonneg : ∀ x, 0 <= rk s x;
  ds_rising : ∀ x y, up s x y → rk s x < rk s y;
  ds_weight : ∀ r, is_root s r →
    ∃ l, NoDup l ∧ (∀ x, x ∈ l → root_of s x r) ∧ 2 ^ rk s r <= zlen l;
}.

(** [s'] has the elements, ranks and roots of [s], with other paths to them. *)
Definition shortcut s s' : Prop :=
  ds_inv s' ∧ d_keys (parent s') = d_keys (parent s) ∧ rank s' = rank s ∧
  ∀ y q, root_of s y q → root_of s' y q.

Lemma root_of_det s x r r' : root_of s x r → root_of s x r' → r = r'.
Proof.
  intros [Hx Hr] [Hx' Hr']. revert r' Hx' Hr'.
  induction Hx as [x|x y z [Hy Hne] Hx IH]; intros r' Hx' Hr'.
  - inversion Hx' as [|? y ? [Hy Hne]]; [done|]. unfold is_root in Hr. congruence.
  - inversion Hx' as [|? y' ? [Hy' Hne']]; subst; [unfold is_root in Hr'; congruence|].
    apply IH; [done| |done]. by assert (y = y') as -> by congruence.
Qed.

Lemma rk_path s x y : ds_inv s → rtc (up s) x y → x = y ∨ rk s x < rk s y.
Proof.
  intros Hs. induction 1 as [x|x y z Hy _ IH]; [by left|right].
  pose proof (ds_rising s Hs x y Hy). destruct IH as [->|]; lia.
Qed.

Lemma root_of_elem s x r : root_of s x r → x ∈ d_keys (parent s).
Proof.
  intros [Hx Hr]. apply d_get_is_Some. inversion Hx as [|? y ? [Hy _]]; subst; eauto.
Qed.
Lemma root_of_root s x r : root_of s x r → root_of s r r.
Proof. intros [_ Hr]. by split. Qed.
Lemma is_root_of s r : is_root s r → root_of s r r.
Proof. by split. Qed.

Lemma root_of_exists s x : ds_inv s → x ∈ d_keys (parent s) → ∃ r, root_of s x r.
Proof.
  intros Hs.
  assert (∃ B, ∀ y, y ∈ d_keys (parent s) → rk s y <= B) as [B HB].
  { generalize (d_keys (parent s)). induction l as [|y l [B HB]].
    - exists 0. by intros y ?%elem_of_nil.
    - exists (Z.max B (rk s y)). intros z [->|Hz]%elem_of_cons; [lia|]. specialize (HB z Hz). lia. }
  remember (Z.to_nat (B - rk s x)) as n eqn:Hn. revert x Hn.
  induction n as [n IH] using lt_wf_ind. intros x -> Hx.
  destruct (proj2 (d_get_is_Some (parent s) x) Hx) as [p Hp].
  destruct (decide (p = x)) as [->|Hne]; [by exists x|].
  pose proof (ds_rising s Hs x p (conj Hp Hne)). pose proof (HB x Hx).
  pose proof (ds_closed s Hs x p Hp) as Hpk. pose proof (HB p Hpk).
  destruct (IH (Z.to_nat (B - rk s p)) ltac:(lia) p eq_refl Hpk) as [r [Hr1 Hr2]].
  exists r. split; [by eapply rtc_l|done].
Qed.

(** A rank is at most the logarithm of the number of elements. *)
Lemma rank_log s r : ds_inv s → is_root s r → rk s r <= Z.log2 (zlen (parent s)).
Proof.
  intros Hs Hr. destruct (ds_weight s Hs r Hr) as (l & Hnd & Hl & Hw).
  assert (l ⊆+ d_keys (parent s)) as Hsub.
  { apply NoDup_submseteq; [done|]. intros x Hx. by eapply root_of_elem, Hl. }
  apply submseteq_length in Hsub. rewrite d_keys_length in Hsub.
  pose proof (ds_rank_nonneg s Hs r). unfold zlen in *.
  apply Z.log2_le_pow2; [|lia]. pose proof (Z.pow_pos_nonneg 2 (rk s r)). lia.
Qed.

Lemma climb_spec s x r fuel :
  ds_inv s → root_of s x r → rk s r < Z.of_nat fuel → loop (climb (parent s)) fuel x = Ok r.
Proof.
  intros Hs Hx Hfuel.
  apply (loop_rule (climb (parent s)) (λ x, root_of s x r) (λ x, Z.to_nat (rk s r - rk s x))
           (λ res, res = Ok r)); [|done|].
  - clear x Hx. intros x [Hx Hr]. unfold climb, d_item.
    inversion Hx as [|? y ? Hy Hyr]; subst.
    + rewrite Hr. cbn. by rewrite bool_decide_eq_true_2.
    + pose proof (ds_rising s Hs x y Hy). pose proof (rk_path s y r Hs Hyr) as Hle.
      destruct Hy as [Hy Hne]. rewrite Hy. cbn. rewrite bool_decide_eq_false_2 by done.
      split; [done|]. destruct Hle as [->|]; lia.
  - pose proof (ds_rank_nonneg s Hs x). pose proof (ds_rank_nonneg s Hs r). lia.
Qed.

Lemma shortcut_refl s : ds_inv s → shortcut s s.
Proof. done. Qed.

Lemma shortcut_trans s1 s2 s3 : shortcut s1 s2 → shortcut s2 s3 → shortcut s1 s3.
Proof.
  intros (H1 & H2 & H3 & H4) (H1' & H2' & H3' & H4'). split_and!; [done|congruence..|auto].
Qed.

Lemma redirect_shortcut s x r :
  ds_inv s → root_of s x r → shortcut s (mk (d_set (parent s) x r) (rank s)).
Proof.
  intros Hs Hx. set (s' := mk _ _).
  pose proof (root_of_elem s x r Hx) as Hxk. pose proof (root_of_root s x r Hx) as Hr.
  assert (Hget : ∀ y, d_get (parent s') y = if decide (y = x) then Some r else d_get (parent s) y).
  { intros y. unfold s'; cbn [parent]. rewrite d_get_set. by destruct (decide (y = x)) as [->|]; [rewrite bool_decide_eq_true_2|rewrite bool_decide_eq_false_2]. }
  assert (Hkeys : d_keys (parent s') = d_keys (parent s)) by (by apply d_keys_set_mem).
  assert (Hroot' : is_root s' r).
  { unfold is_root. rewrite Hget. case_decide; [done|apply Hr]. }
  assert (Hroots : ∀ y q, root_of s y q → root_of s' y q).
  { intros y q [Hy Hq]. induction Hy as [q|y z q [Hz Hne] Hzq IH].
    - split; [done|]. unfold is_root. rewrite Hget. case_decide; [|done]. subst q.
      by rewrite (root_of_det s x x r (is_root_of s x Hq) Hx) at 1.
    - destruct (decide (y = x)) as [->|Hyx].
      + assert (q = r) as ->.
        { apply (root_of_det s x); [split; [by eapply rtc_l|done]|done]. }
        split; [|done]. destruct (decide (x = r)) as [->|Hxr]; [done|].
        apply rtc_once. split; [rewrite Hget; by rewrite decide_True|done].
      + destruct (IH Hq) as [Hp Hq']. split; [|done]. eapply rtc_l; [|exact Hp].
        split; [rewrite Hget; by rewrite decide_False|done]. }
  split_and!; [|done..]. split; [by apply d_wf_set, Hs| | |apply Hs| |].
  - rewrite Hkeys. apply Hs.
  - intros y z. rewrite Hget, Hkeys. case_decide; [intros [= <-]|apply Hs].
    by eapply root_of_elem.
  - intros y z [Hz Hne]. change (rk s y < rk s z). rewrite Hget in Hz. case_decide; [|by apply Hs].
    simplify_eq. destruct (rk_path s x z Hs (proj1 Hx)) as [->|]; done.
  - intros q Hq. assert (is_root s q) as Hq'.
    { unfold is_root in *. rewrite Hget in Hq. case_decide; [|done]. simplify_eq. apply Hr. }
    destruct (ds_weight s Hs q Hq') as (l & Hnd & Hl & Hw). exists l. split_and!; [done| |done].
    auto.
Qed.

(** One round of the compression keeps the roots and moves one step up the path. *)
Lemma compress_round s r : ds_inv s → ∀ y s', shortcut s s' ∧ root_of s' y r →
  match compress r y s' with
  | (s'', Ok (inl p)) =>
      (shortcut s s'' ∧ root_of s'' p r) ∧ (Z.to_nat (rk s r - rk s p) < Z.to_nat (rk s r - rk s y))%nat
  | (s'', Ok (inr a)) => shortcut s s'' ∧ (Ok a : result unit) = Ok ()
  | (s'', Err e) => shortcut s s'' ∧ (Err e : result unit) = Ok ()
  end.
Proof.
  intros Hs y s' [Hsc Hy]. unfold compress. rewrite bind_get, bind_pure_of. unfold d_item.
  destruct (proj2 (d_get_is_Some (parent s') y) (root_of_elem s' y r Hy)) as [p Hp].
  rewrite Hp. case_bool_decide as Hpr; [done|].
  rewrite bind_put, run_ret.
  assert (up s' y p) as Hup.
  { split; [done|]. intros ->. apply Hpr. by eapply root_of_det; [apply is_root_of|]. }
  pose proof Hsc as (Hs' & Hk & Hrk & Hroots).
  assert (root_of s' p r) as Hpr'.
  { destruct (root_of_exists s' p Hs' (ds_closed s' Hs' y p Hp)) as [q Hq].
    by rewrite (root_of_det s' y r q Hy (conj (rtc_l _ _ _ _ Hup (proj1 Hq)) (proj2 Hq))). }
  pose proof (redirect_shortcut s' y r Hs' Hy) as Hsc'. split; [split|].
  - by eapply shortcut_trans.
  - by apply Hsc'.
  - assert (∀ z, rk s z = rk s' z) as Heq by (intros z; unfold rk; by rewrite Hrk).
    rewrite !Heq. pose proof (ds_rising s' Hs' y p Hup).
    destruct (rk_path s' p r Hs' (proj1 Hpr')) as [->|]; lia.
Qed.

Lemma find_run s x r :
  ds_inv s → root_of s x r → ∃ s', find x s = (s', Ok r) ∧ shortcut s s'.
Proof.
  intros Hs Hx. pose proof (root_of_elem s x r Hx) as Hxk.
  unfold find. rewrite bind_get, bind_raise_if. unfold d_mem. rewrite bool_decide_eq_true_2 by done.
  cbn [negb]. rewrite bind_pure_of.
  assert (rk s r < Z.of_nat (S (length (parent s)))) as Hfuel.
  { pose proof (rank_log s r Hs (proj2 Hx)). unfold zlen in *.
    destruct (parent s) as [|p l]; [by apply elem_of_nil in Hxk|].
    pose proof (Z.log2_lt_lin (Z.of_nat (length (p :: l))) ltac:(simpl; lia)). lia. }
  rewrite (climb_spec s x r) by done.
  set (fuel := S (length (parent s))) in *.
  assert (Hrun : shortcut s (act_loop (compress r) fuel x s).1
                 ∧ (act_loop (compress r) fuel x s).2 = Ok ()).
  { apply (act_loop_rule (compress r) (λ y s', shortcut s s' ∧ root_of s' y r)
      (λ y, Z.to_nat (rk s r - rk s y)) (λ s' res, shortcut s s' ∧ res = Ok ()));
      [|by split; [apply shortcut_refl|]|pose proof (ds_rank_nonneg s Hs x); lia].
    apply compress_round; done. }
  rewrite bind_run. destruct (act_loop (compress r) fuel x s) as [s' res].
  destruct Hrun as [Hsc Hres]. cbn in Hsc, Hres. subst res. by exists s'.
Qed.

(** [low], a root, hangs under the root [top]. *)
Definition attach s (top low : string) : t :=
  mk (d_set (parent s) low top)
     (if rk s top =? rk s low then d_set (rank s) top (rk s top + 1) else rank s).

Lemma rk_attach s top low x :
  rk (attach s top low) x = if bool_decide (x = top) && (rk s top =? rk s low) then rk s x + 1 else rk s x.
Proof.
  unfold rk at 1, attach. cbn [rank]. destruct (rk s top =? rk s low); rewrite ?andb_false_r; [|done].
  rewrite andb_true_r, d_getd_set. case_bool_decide; by subst.
Qed.

Lemma attach_get s top low x :
  d_get (parent (attach s top low)) x = if bool_decide (x = low) then Some top else d_get (parent s) x.
Proof. apply d_get_set. Qed.

Lemma attach_root s top low :
  is_root s top → is_root s low → top ≠ low →
  ∀ y q, root_of s y q → root_of (attach s top low) y (if bool_decide (q = low) then top else q).
Proof.
  intros Ht Hl Hne.
  assert (is_root (attach s top low) top) as Ht'.
  { unfold is_root. rewrite attach_get, bool_decide_eq_false_2 by done. done. }
  intros y q [Hy Hq]. induction Hy as [q|y z q [Hz Hzy] Hzq IH].
  - case_bool_decide as Hql.
    + subst q. split; [|done]. apply rtc_once. split; [|done].
      by rewrite attach_get, bool_decide_eq_true_2.
    + split; [done|]. unfold is_root. by rewrite attach_get, bool_decide_eq_false_2.
  - destruct (IH Hq) as [Hp Hr]. split; [|done]. eapply rtc_l; [|exact Hp].
    split; [|done]. rewrite attach_get, bool_decide_eq_false_2; [done|].
    intros ->. unfold is_root in Hl. congruence.
Qed.

Lemma attach_inv s top low :
  ds_inv s → is_root s top → is_root s low → top ≠ low → rk s low <= rk s top →
  ds_inv (attach s top low) ∧ d_keys (parent (attach s top low)) = d_keys (parent s).
Proof.
  intros Hs Ht Hl Hne Hle.
  pose proof (root_of_elem s low low (is_root_of s low Hl)) as Hlk.
  pose proof (root_of_elem s top top (is_root_of s top Ht)) as Htk.
  assert (Hkeys : d_keys (parent (attach s top low)) = d_keys (parent s))
    by (by apply d_keys_set_mem).
  split; [|done]. split; [by apply d_wf_set, Hs| | | | |].
  - rewrite Hkeys. unfold attach; cbn [rank]. destruct (rk s top =? rk s low); [|by apply Hs].
    rewrite d_keys_set_mem; [by apply Hs|]. by rewrite (ds_ranked s Hs).
  - intros x y. rewrite attach_get, Hkeys. case_bool_decide; [by intros [= <-]|by apply Hs].
  - intros x. rewrite rk_attach. pose proof (ds_rank_nonneg s Hs x). destruct (_ && _); lia.
  - intros x y [Hxy Hyx]. rewrite attach_get in Hxy. rewrite !rk_attach.
    case_bool_decide as Hxl.
    + simplify_eq. rewrite bool_decide_eq_false_2, bool_decide_eq_true_2 by done. cbn [andb].
      destruct (Z.eqb_spec (rk s y) (rk s low)); lia.
    + pose proof (ds_rising s Hs x y (conj Hxy Hyx)).
      rewrite (bool_decide_eq_false_2 (x = top)); cbn [andb].
      * destruct (_ && _); lia.
      * intros ->. unfold is_root in Ht. congruence.
  - intros r Hr. assert (is_root s r ∧ r ≠ low) as [Hr' Hrl].
    { unfold is_root in Hr. rewrite attach_get in Hr. case_bool_decide; [congruence|done]. }
    pose proof (attach_root s top low Ht Hl Hne) as Hroots.
    destruct (ds_weight s Hs r Hr') as (l & Hnd & Hin & Hw).
    assert (Hin' : ∀ x, x ∈ l → root_of (attach s top low) x r).
    { intros x Hx. specialize (Hroots x r (Hin x Hx)). by rewrite bool_decide_eq_false_2 in Hroots. }
    rewrite rk_attach. case_bool_decide as Hrt; cbn [andb]; [|by exists l].
    destruct (Z.eqb_spec (rk s top) (rk s low)) as [Heq|]; [|by exists l]. subst r.
    destruct (ds_weight s Hs low Hl) as (l' & Hnd' & Hinl & Hwl). exists (l ++ l'). split_and!.
    + apply NoDup_app. split_and!; [done| |done]. intros x Hx Hx'.
      apply Hne. by eapply root_of_det; [apply Hin|apply Hinl].
    + intros x [Hx|Hx]%elem_of_app; [by apply Hin'|].
      specialize (Hroots x low (Hinl x Hx)). by rewrite bool_decide_eq_true_2 in Hroots.
    + rewrite zlen_app, Z.pow_add_r by (try lia; apply (ds_rank_nonneg s Hs)).
      rewrite <- Heq in Hwl. change (2 ^ 1) with 2. lia.
Qed.

Lemma link_run s ra rb :
  ds_inv s → is_root s ra → is_root s rb → ra ≠ rb →
  ∃ top low, link ra rb s = (attach s top low, Ok ())
    ∧ rk s low <= rk s top ∧ (top = ra ∧ low = rb ∨ top = rb ∧ low = ra).
Proof.
  intros Hs Ha Hb Hne.
  assert (Hitem : ∀ r, is_root s r → d_item (rank s) r = Ok (rk s r)).
  { intros r Hr. pose proof (root_of_elem s r r (is_root_of s r Hr)) as Hk.
    rewrite <- (ds_ranked s Hs) in Hk. apply d_get_is_Some in Hk as [k Hk].
    unfold d_item, rk, d_getd. by rewrite Hk. }
  unfold link. rewrite bind_get, bind_pure_of, Hitem, bind_pure_of, Hitem by done.
  destruct (Z.ltb_spec (rk s ra) (rk s rb)) as [Hlt|Hle].
  - exists rb, ra. split_and!; [done|lia|by right].
  - exists ra, rb. split_and!; [done|lia|by left].
Qed.
End forest.

(** ** What a disjoint set promises: connectivity

    The abstract state is the set of elements added and the list of the pairs joined;
    two elements are connected when a path of joined pairs leads from one to the other. *)

Record groups := { members : gset string; bonds : list (string * string) }.

Definition connected (bonds : list (string * string)) : string → string → Prop :=
  rtsc (λ x y, (x, y) ∈ bonds).

Inductive ds_op :=
  | Add (x : string) | Find (x : string) | Union (a b : string) | Same (a b : string) | Count.

Definition ds_step (op : ds_op) (s : DisjointSet.t) : DisjointSet.t :=
  match op with
  | Add x => state_of (DisjointSet.add x) s
  | Find x => state_of (DisjointSet.find x) s
  | Union a b => state_of (DisjointSet.union a b) s
  | Same a b => state_of (DisjointSet.same_group a b) s
  | Count => state_of DisjointSet.group_count s
  end.

Definition group_step (op : ds_op) (g : groups) : groups :=
  match op with
  | Add x => {| members := {[ x ]} ∪ members g; bonds := bonds g |}
  | Union a b =>
      if bool_decide (a ∈ members g ∧ b ∈ members g)
      then {| members := members g; bonds := (a, b) :: bonds g |} else g
  | Find _ | Same _ _ | Count => g
  end.

Definition no_groups : groups := {| members := ∅; bonds := [] |}.

#[global] Instance connected_equiv E : Equivalence (connected E).
Proof. apply _. Qed.

Lemma connected_cons E a b x y :
  connected ((a, b) :: E) x y ↔
  connected E x y ∨ (connected E x a ∧ connected E b y) ∨ (connected E x b ∧ connected E a y).
Proof.
  assert (Hmono : ∀ u v, connected E u v → connected ((a, b) :: E) u v).
  { intros u v. unfold connected, rtsc. apply rtc_subrel. intros u' v'.
    unfold sc. rewrite !elem_of_cons. naive_solver. }
  assert (connected ((a, b) :: E) a b) as Hab by (apply rtsc_lr; by left).
  split.
  - induction 1 as [x|x z y Hxz _ IH]; [left; reflexivity|].
    assert (connected E x z ∨ (x, z) = (a, b) ∨ (z, x) = (a, b)) as Hstep.
    { destruct Hxz as [[|]%elem_of_cons|[|]%elem_of_cons]; [by right; left| |by right; right|];
        left; [by apply rtsc_lr|by apply rtsc_rl]. }
    destruct Hstep as [Hxz'|[[= -> ->]|[= -> ->]]].
    + destruct IH as [IH|[[IH1 IH2]|[IH1 IH2]]]; [left|right; left|right; right];
        try split; try done; by etrans.
    + destruct IH as [IH|[[IH1 IH2]|[IH1 IH2]]];
        [right; left|right; left|left; done]; (split; [reflexivity|done]).
    + destruct IH as [IH|[[IH1 IH2]|[IH1 IH2]]];
        [right; right|left; done|right; right]; (split; [reflexivity|done]).
  - intros [H|[[H1 H2]|[H1 H2]]]; [by apply Hmono| |].
    + etrans; [by apply Hmono|]. etrans; [exact Hab|]. by apply Hmono.
    + etrans; [by apply Hmono|]. etrans; [symmetry; exact Hab|]. by apply Hmono.
Qed.

(** The bonds join elements only. *)
Definition bonds_ok (g : groups) : Prop :=
  ∀ x y, (x, y) ∈ bonds g → x ∈ members g ∧ y ∈ members g.

Lemma connected_member g x y : bonds_ok g → connected (bonds g) x y → x = y ∨ x ∈ members g.
Proof.
  intros Hg. destruct 1 as [x|x z y [Hz|Hz] _]; [by left|right..]; apply Hg in Hz; tauto.
Qed.

(** The forest stands for the abstract state: its elements are the members, and two of
    them have one root exactly when they are connected. *)
Record ds_rep (s : DisjointSet.t) (g : groups) : Prop := {
  rep_inv : ds_inv s;
  rep_members : ∀ x, x ∈ d_keys (DisjointSet.parent s) ↔ x ∈ members g;
  rep_bonds : bonds_ok g;
  rep_roots : ∀ x y q q', root_of s x q → root_of s y q' → (q = q' ↔ connected (bonds g) x y);
}.

Lemma rep_root s g x : ds_rep s g → x ∈ members g → ∃ r, root_of s x r.
Proof. intros Hs Hx. apply root_of_exists; [apply Hs|]. by apply (rep_members s g). Qed.

Lemma rep_shortcut s s' g : ds_rep s g → shortcut s s' → ds_rep s' g.
Proof.
  intros Hs (Hinv & Hk & Hr & Hroots). split; [done| |apply Hs|].
  - intros x. rewrite Hk. apply Hs.
  - intros x y q q' Hx Hy.
    assert (∀ z p, root_of s' z p → root_of s z p) as Hback.
    { intros z p Hz. pose proof (root_of_elem s' z p Hz) as Hzk. rewrite Hk in Hzk.
      destruct (root_of_exists s z (rep_inv s g Hs) Hzk) as [p' Hp'].
      by rewrite (root_of_det s' z p p' Hz (Hroots z p' Hp')). }
    apply (rep_roots s g); auto.
Qed.

(** [find] raises [Invalid] for an element that was never added, and otherwise returns
    its root; either way the groups are what they were. *)
Lemma find_rep s g x :
  ds_rep s g →
  ∃ s', ds_rep s' g ∧
    (x ∉ members g ∧ DisjointSet.find x s = (s', Err Invalid) ∨
     x ∈ members g ∧ ∃ r, DisjointSet.find x s = (s', Ok r) ∧ root_of s x r ∧ shortcut s s').
Proof.
  intros Hs. destruct (decide (x ∈ members g)) as [Hx|Hx].
  - destruct (rep_root s g x Hs Hx) as [r Hr].
    destruct (find_run s x r (rep_inv s g Hs) Hr) as (s' & Hrun & Hsc).
    exists s'. split; [by eapply rep_shortcut|]. right. split; [done|]. by exists r.
  - exists s. split; [done|]. left. split; [done|]. unfold DisjointSet.find.
    rewrite bind_get, bind_raise_if. unfold d_mem.
    rewrite bool_decide_eq_false_2; [done|]. by rewrite (rep_members s g).
Qed.

Lemma find2_rep s g a b :
  ds_rep s g →
  ∃ s', ds_rep s' g ∧ ∀ A (k : string → string → act DisjointSet.t A),
    (¬ (a ∈ members g ∧ b ∈ members g) ∧
       (ra ← DisjointSet.find a; rb ← DisjointSet.find b; k ra rb) s = (s', Err Invalid)
     ∨ (a ∈ members g ∧ b ∈ members g) ∧ ∃ ra rb, root_of s' a ra ∧ root_of s' b rb ∧
       (ra ← DisjointSet.find a; rb ← DisjointSet.find b; k ra rb) s = k ra rb s').
Proof.
  intros Hs. destruct (find_rep s g a Hs) as (s1 & H1 & [[Ha Hf]|(Ha & ra & Hf & Hra & Hsc)]).
  { exists s1. split; [done|]. intros A k. left. rewrite bind_run, Hf. tauto. }
  destruct (find_rep s1 g b H1) as (s2 & H2 & [[Hb Hf2]|(Hb & rb & Hf2 & Hrb & Hsc2)]).
  { exists s2. split; [done|]. intros A k. left. rewrite bind_run, Hf, bind_run, Hf2. tauto. }
  exists s2. split; [done|]. intros A k. right. split; [done|]. exists ra, rb.
  rewrite bind_run, Hf, bind_run, Hf2. split_and!; [|by apply Hsc2|done]. apply Hsc2, Hsc, Hra.
Qed.

(** A new element is a tree of its own. *)
Section fresh.
Context (s : DisjointSet.t) (x : string) (Hx : x ∉ d_keys (DisjointSet.parent s)) (Hs : ds_inv s).
Definition fresh : DisjointSet.t :=
  DisjointSet.mk (d_set (DisjointSet.parent s) x x) (d_set (DisjointSet.rank s) x 0).

Lemma fresh_get y : d_get (DisjointSet.parent fresh) y
  = if bool_decide (y = x) then Some x else d_get (DisjointSet.parent s) y.
Proof. apply d_get_set. Qed.
Lemma fresh_rk y : rk fresh y = if bool_decide (y = x) then 0 else rk s y.
Proof. apply d_getd_set. Qed.
Lemma fresh_keys : d_keys (DisjointSet.parent fresh) = d_keys (DisjointSet.parent s) ++ [x].
Proof using Hx. by apply d_keys_set_fresh. Qed.
Lemma old_ne y : y ∈ d_keys (DisjointSet.parent s) → y ≠ x.
Proof using Hx. by intros Hy ->. Qed.
Lemma fresh_new : root_of fresh x x.
Proof. apply is_root_of. unfold is_root. by rewrite fresh_get, bool_decide_eq_true_2. Qed.

Lemma fresh_root y q : root_of s y q → root_of fresh y q.
Proof using Hx.
  intros [Hy Hq]. induction Hy as [q|y z q [Hz Hzy] Hzq IH].
  - split; [done|]. unfold is_root in *. rewrite fresh_get. case_bool_decide; by subst.
  - destruct (IH Hq) as [Hp Hr]. split; [|done]. eapply rtc_l; [|exact Hp]. split; [|done].
    rewrite fresh_get, bool_decide_eq_false_2; [done|]. apply old_ne, d_get_is_Some. eauto.
Qed.

Lemma fresh_root_inv w p :
  root_of fresh w p → (w = x ∧ p = x) ∨ (w ≠ x ∧ p ≠ x ∧ root_of s w p).
Proof using Hx Hs.
  intros Hw. destruct (decide (w = x)) as [->|Hwx].
  - left. split; [done|]. by eapply root_of_det, fresh_new.
  - right. pose proof (root_of_elem fresh w p Hw) as Hwk.
    rewrite fresh_keys, elem_of_app, list_elem_of_singleton in Hwk. destruct Hwk as [Hwk|]; [|done].
    destruct (root_of_exists s w Hs Hwk) as [p' Hp'].
    rewrite (root_of_det fresh w p p' Hw (fresh_root w p' Hp')).
    split_and!; [done| |done]. by eapply old_ne, root_of_elem, root_of_root.
Qed.

Lemma fresh_inv : ds_inv fresh.
Proof using Hx Hs.
  split; [by apply d_wf_set, Hs| | | | |].
  - rewrite fresh_keys. cbn [DisjointSet.rank fresh].
    rewrite d_keys_set_fresh; by rewrite (ds_ranked s Hs).
  - intros y z. rewrite fresh_get, fresh_keys, elem_of_app, list_elem_of_singleton.
    case_bool_decide; [intros [= <-]; by right|]. intros Hz. left. by apply (ds_closed s Hs y).
  - intros y. rewrite fresh_rk. case_bool_decide; [done|]. apply Hs.
  - intros y z [Hz Hzy]. rewrite fresh_get in Hz. rewrite !fresh_rk. case_bool_decide; [congruence|].
    rewrite bool_decide_eq_false_2; [by apply Hs|]. by apply old_ne, (ds_closed s Hs y).
  - intros r Hr. rewrite fresh_rk. unfold is_root in Hr. rewrite fresh_get in Hr.
    case_bool_decide as Hrx.
    + subst r. exists [x]. split_and!; [apply NoDup_singleton| |done].
      intros y ->%list_elem_of_singleton. apply fresh_new.
    + destruct (ds_weight s Hs r Hr) as (l & ? & Hl & ?). exists l. split_and!; [done| |done].
      intros y Hy. by apply fresh_root, Hl.
Qed.
End fresh.

Lemma add_rep s g x :
  ds_rep s g → ds_rep (state_of (DisjointSet.add x) s) (group_step (Add x) g).
Proof.
  intros Hs. unfold state_of, DisjointSet.add. rewrite bind_get. unfold d_mem.
  case_bool_decide as Hx; cbn [fst mret act_ret group_step].
  - assert ({[x]} ∪ members g = members g) as Heq.
    { apply subseteq_union_1_L, singleton_subseteq_l. by apply (rep_members s g). }
    destruct g as [ms E]. cbn in *. by rewrite Heq.
  - pose proof (rep_inv s g Hs) as Hinv. change (ds_rep (fresh s x) (group_step (Add x) g)).
    split; [by apply fresh_inv| | |]; cbn [group_step members bonds].
    + intros y. rewrite fresh_keys, elem_of_app, list_elem_of_singleton, (rep_members s g Hs) by done.
      set_solver.
    + intros y z Hyz. apply (rep_bonds s g Hs) in Hyz. cbn. set_solver.
    + intros y z q q' Hq Hq'.
      assert (x ∉ members g) as Hxg by (by rewrite <- (rep_members s g Hs)).
      pose proof (connected_member g) as Hmem. pose proof (rep_bonds s g Hs) as Hb.
      destruct (fresh_root_inv s x Hx Hinv y q Hq) as [[-> ->]|(Hyx & Hqx & Hyq)];
        destruct (fresh_root_inv s x Hx Hinv z q' Hq') as [[-> ->]|(Hzx & Hqx' & Hzq)].
      * split; intros; reflexivity.
      * split; [done|]. intros [->|]%Hmem; done.
      * split; [done|]. intros [->|]%symmetry%Hmem; done.
      * by apply (rep_roots s g Hs).
Qed.

Lemma union_rep s g a b :
  ds_rep s g → ds_rep (state_of (DisjointSet.union a b) s) (group_step (Union a b) g).
Proof.
  intros Hs. destruct (find2_rep s g a b Hs) as (s' & Hs' & Hrun). unfold state_of, DisjointSet.union.
  destruct (Hrun _ (λ ra rb, if bool_decide (ra = rb) then mret () else DisjointSet.link ra rb))
    as [[Hno ->]|(Hab & ra & rb & Hra & Hrb & ->)]; cbn [fst group_step].
  { by rewrite bool_decide_eq_false_2. }
  rewrite (bool_decide_eq_true_2 (a ∈ members g ∧ b ∈ members g)) by done. pose proof (rep_roots s' g Hs') as Hroots.
  assert (Hbonds : bonds_ok {| members := members g; bonds := (a, b) :: bonds g |}).
  { intros x y [[= -> ->]|Hxy]%elem_of_cons; [done|]. by apply (rep_bonds s' g Hs'). }
  case_bool_decide as Heq; cbn [fst mret act_ret].
  - subst rb. split; [by apply Hs'..|done|]. intros x y q q' Hx Hy. rewrite (Hroots x y q q') by done.
    cbn [bonds]. rewrite connected_cons.
    assert (connected (bonds g) a b) as Hcab by (by apply (Hroots a b ra ra)).
    split; [by left|]. intros [H|[[H1 H2]|[H1 H2]]]; [done|..].
    + etrans; [exact H1|]. by etrans.
    + etrans; [exact H1|]. etrans; [symmetry; exact Hcab|done].
  - pose proof (rep_inv s' g Hs') as Hinv.
    destruct (link_run s' ra rb Hinv (proj2 Hra) (proj2 Hrb) Heq) as (top & low & -> & Hle & Hor).
    cbn [fst].
    assert (is_root s' top ∧ is_root s' low ∧ top ≠ low) as (Ht & Hl & Hne).
    { destruct Hor as [[-> ->]|[-> ->]]; split_and!; by (apply Hra || apply Hrb || idtac). }
    destruct (attach_inv s' top low Hinv Ht Hl Hne Hle) as [Hinv' Hk].
    split; [done| |done|]. { intros x. rewrite Hk. apply Hs'. }
    intros x y q q' Hx Hy. cbn [bonds].
    assert (∀ w p, root_of (attach s' top low) w p →
              ∃ p', root_of s' w p' ∧ p = if bool_decide (p' = low) then top else p') as Hback.
    { intros w p Hw. pose proof (root_of_elem _ w p Hw) as Hwk. rewrite Hk in Hwk.
      destruct (root_of_exists s' w Hinv Hwk) as [p' Hp']. exists p'. split; [done|].
      eapply root_of_det; [exact Hw|]. by apply attach_root. }
    destruct (Hback x q Hx) as (p & Hp & ->). destruct (Hback y q' Hy) as (p' & Hp' & ->).
    rewrite connected_cons, <- (Hroots x y p p'), <- (Hroots x a p ra), <- (Hroots b y rb p'),
      <- (Hroots x b p rb), <- (Hroots a y ra p') by done.
    repeat case_bool_decide; destruct Hor as [[-> ->]|[-> ->]]; naive_solver congruence.
Qed.

Lemma find_all_run s elements found :
  ds_inv s → (∀ x, x ∈ elements → x ∈ d_keys (DisjointSet.parent s)) →
  ∃ s' found', DisjointSet.find_all elements found s = (s', Ok found') ∧ shortcut s s'
    ∧ ∀ r, r ∈ found' ↔ r ∈ found ∨ ∃ x, x ∈ elements ∧ root_of s x r.
Proof.
  revert s found. induction elements as [|x elements IH]; intros s found Hs Hel; cbn [DisjointSet.find_all].
  { exists s, found. split_and!; [done|done|]. intros r. split; [by left|].
    intros [|(x & []%elem_of_nil & _)]; done. }
  destruct (root_of_exists s x Hs) as [r Hr]; [apply Hel; by left|].
  destruct (find_run s x r Hs Hr) as (s1 & Hrun & Hsc). rewrite bind_run, Hrun.
  pose proof Hsc as (Hs1 & Hk & _ & Hroots).
  destruct (IH s1 ({[r]} ∪ found) Hs1) as (s' & found' & -> & Hsc' & Hfound).
  { intros y Hy. rewrite Hk. apply Hel. by right. }
  exists s', found'. split_and!; [done|by eapply shortcut_trans|].
  intros q. rewrite Hfound, elem_of_union, elem_of_singleton. split.
  - intros [[->|Hq]|(y & Hy & Hyq)]; [right|by left|right].
    + exists x. split; [by left|done].
    + exists y. split; [by right|].
      destruct (root_of_exists s y Hs) as [q' Hq']; [apply Hel; by right|].
      by rewrite (root_of_det s1 y q q' Hyq (Hroots y q' Hq')).
  - intros [Hq|(y & [->|Hy]%elem_of_cons & Hyq)]; [by left; right|left; left|right].
    + by eapply root_of_det.
    + exists y. split; [done|]. by apply Hroots.
Qed.

Lemma group_count_rep s g :
  ds_rep s g →
  ∃ s' reps, DisjointSet.group_count s = (s', Ok (zlen reps)) ∧ ds_rep s' g
    ∧ NoDup reps ∧ (∀ r, r ∈ reps → r ∈ members g)
    ∧ (∀ x, x ∈ members g → ∃ r, r ∈ reps ∧ connected (bonds g) x r)
    ∧ (∀ r r', r ∈ reps → r' ∈ reps → connected (bonds g) r r' → r = r').
Proof.
  intros Hs. unfold DisjointSet.group_count. rewrite bind_get, bind_run.
  destruct (find_all_run s (d_keys (DisjointSet.parent s)) ∅ (rep_inv s g Hs)) as
    (s' & found & -> & Hsc & Hfound); [done|].
  assert (Hin : ∀ r, r ∈ elements found ↔ ∃ x, x ∈ members g ∧ root_of s x r).
  { intros r. rewrite elem_of_elements, Hfound. setoid_rewrite (rep_members s g Hs). set_solver. }
  exists s', (elements found). split_and!; [done|by eapply rep_shortcut|apply NoDup_elements|..].
  - intros r (x & _ & Hr)%Hin. by eapply rep_members, root_of_elem, root_of_root.
  - intros x Hx. destruct (rep_root s g x Hs Hx) as [r Hr]. exists r.
    split; [by apply Hin; exists x|].
    by apply (rep_roots s g Hs x r r r); [|eapply root_of_root|].
  - intros r r' (x & _ & Hr)%Hin (x' & _ & Hr')%Hin.
    by apply (rep_roots s g Hs r r' r r'); eapply root_of_root.
Qed.

Lemma same_group_rep s g a b :
  ds_rep s g →
  ds_rep (state_of (DisjointSet.same_group a b) s) g ∧
  match value_of (DisjointSet.same_group a b) s with
  | Ok same => (a ∈ members g ∧ b ∈ members g) ∧ (same = true ↔ connected (bonds g) a b)
  | Err e => e = Invalid ∧ ¬ (a ∈ members g ∧ b ∈ members g)
  end.
Proof.
  intros Hs. destruct (find2_rep s g a b Hs) as (s' & Hs' & Hrun).
  unfold state_of, value_of, DisjointSet.same_group.
  destruct (Hrun _ (λ ra rb, mret (bool_decide (ra = rb)))) as
    [[Hno ->]|(Hab & ra & rb & Hra & Hrb & ->)]; cbn; [done|].
  split_and!; [done|apply Hab|apply Hab|]. rewrite bool_decide_eq_true.
  by apply (rep_roots s' g Hs').
Qed.

Lemma ds_run_rep ops : ds_rep (run ds_step ops DisjointSet.make) (run group_step ops no_groups).
Proof.
  unfold run.
  assert (Hgo : ∀ s g, ds_rep s g → ds_rep (foldl (λ s o, ds_step o s) s ops)
                                      (foldl (λ g o, group_step o g) g ops)).
  { induction ops as [|op ops IH]; intros s g Hs; [done|]. cbn [foldl]. apply IH.
    destruct op as [x|x|a b|a b|]; cbn [ds_step].
    - by apply add_rep.
    - destruct (find_rep s g x Hs) as (s' & Hs' & [[_ Hf]|(_ & r & Hf & _)]);
        unfold state_of; by rewrite Hf.
    - by apply union_rep.
    - by apply same_group_rep.
    - destruct (group_count_rep s g Hs) as (s' & reps & Hf & Hs' & _). unfold state_of. by rewrite Hf. }
  apply Hgo. split; [split; try done| | |].
  - apply NoDup_nil_2.
  - intros x y [Hxy _]. done.
  - intros x. cbn [members no_groups run foldl]. split; [by intros ?%elem_of_nil|set_solver].
  - by intros x y ?%elem_of_nil.
  - intros x y q q' [_ Hq]. done.
Qed.

(** C15 (refinement): after any sequence of additions, unions and queries the disjoint set
    answers connectivity exactly: [same_group a b] refuses with Invalid precisely when one of
    the two was never added, and otherwise is true precisely when a path of the unions made so
    far leads from a to b; [group_count] is the number of connected components (one
    representative each, every element connected to one, no two connected). Path compression
    and union by rank change neither answer, and no loop runs forever. *)
Theorem disjoint_set_connectivity ops a b :
  let s := run ds_step ops DisjointSet.make in
  let g := run group_step ops no_groups in
  match value_of (DisjointSet.same_group a b) s with
  | Ok same => (a ∈ members g ∧ b ∈ members g) ∧ (same = true ↔ connected (bonds g) a b)
  | Err e => e = Invalid ∧ ¬ (a ∈ members g ∧ b ∈ members g)
  end ∧
  ∃ reps, value_of DisjointSet.group_count s = Ok (zlen reps)
    ∧ NoDup reps ∧ (∀ r, r ∈ reps → r ∈ members g)
    ∧ (∀ x, x ∈ members g → ∃ r, r ∈ reps ∧ connected (bonds g) x r)
    ∧ (∀ r r', r ∈ reps → r' ∈ reps → connected (bonds g) r r' → r = r').
Proof.
  intros s g. pose proof (ds_run_rep ops) as Hs. split; [by apply same_group_rep|].
  destruct (group_count_rep s g Hs) as (s' & reps & Hf & _ & Hreps).
  exists reps. split; [unfold value_of; by rewrite Hf|exact Hreps].
Qed.

(** C34 (termination): in every forest the operations can build, following parents from any
    element reaches its root within [1 + log2 n] tests for [n] elements, because a root of rank
    [k] has at least [2^k] elements under it and ranks rise along every path: the loop of
    [find] ends without an exception, at an element that is its own parent. *)
Theorem disjoint_set_depth ops x :
  let s := run ds_step ops DisjointSet.make in
  x ∈ members (run group_step ops no_groups) →
  ∃ r, d_get (DisjointSet.parent s) r = Some r
    ∧ loop (DisjointSet.climb (DisjointSet.parent s))
           (S (Z.to_nat (Z.log2 (zlen (DisjointSet.parent s))))) x = Ok r
    ∧ value_of (DisjointSet.find x) s = Ok r.
Proof.
  intros s Hx. pose proof (ds_run_rep ops) as Hs. pose proof (rep_inv _ _ Hs) as Hinv.
  destruct (rep_root s _ x Hs Hx) as [r Hr]. exists r. split_and!; [apply Hr| |].
  - apply (climb_spec s); [done..|]. pose proof (rank_log s r Hinv (proj2 Hr)).
    pose proof (ds_rank_nonneg s Hinv r). lia.
  - destruct (find_run s x r Hinv Hr) as (s' & Hf & _). unfold value_of. by rewrite Hf.
Qed.

Lemma disjoint_set_depth_witness :
  let s := run ds_step [Add "a"; Add "b"; Add "c"; Union "a" "b"; Union "b" "c"]%string
             DisjointSet.make in
  ∃ r, d_get (DisjointSet.parent s) r = Some r
    ∧ loop (DisjointSet.climb (DisjointSet.parent s))
           (S (Z.to_nat (Z.log2 (zlen (DisjointSet.parent s))))) "c"%string = Ok r
    ∧ value_of (DisjointSet.find "c"%string) s = Ok r.
Proof.
  apply (disjoint_set_depth
           [Add "a"; Add "b"; Add "c"; Union "a" "b"; Union "b" "c"]%string "c"%string).
  apply (bool_decide_unpack _). vm_compute. exact I.
Defined.

(** ** The lowest set bit *)

Lemma odd_part i : 0 < i → ∃ k m, 0 <= k ∧ 0 <= m ∧ i = 2 ^ k * (2 * m + 1).
Proof.
  remember (Z.to_nat i) as n eqn:Hn. revert i Hn.
  induction n as [n IH] using lt_wf_ind. intros i -> Hi.
  destruct (Z.Even_or_Odd i) as [[j ->]|[m ->]].
  - destruct (IH (Z.to_nat j) ltac:(lia) j eq_refl ltac:(lia)) as (k & m & Hk & Hm & Hj).
    exists (k + 1), m. split_and!; [lia..|]. rewrite Z.pow_add_r by lia. lia.
  - exists 0, m. lia.
Qed.

Lemma land_opp k m : 0 <= k → 0 <= m → let i := 2 ^ k * (2 * m + 1) in Z.land i (- i) = 2 ^ k.
Proof.
  intros Hk Hm i. apply Z.bits_inj'. intros n Hn.
  rewrite Z.land_spec, Z.pow2_bits_eqb by done.
  assert (- i = Z.lnot (i - 1)) as -> by (unfold Z.lnot; lia). rewrite Z.lnot_spec by done.
  assert (Hi : i = Z.shiftl (2 * m + 1) k) by (rewrite Z.shiftl_mul_pow2; unfold i; lia).
  assert (Hi1 : i - 1 = Z.shiftl (2 * m) k + (2 ^ k - 1)).
  { rewrite Z.shiftl_mul_pow2 by done. unfold i. lia. }
  pose proof (Z.pow_pos_nonneg 2 k ltac:(lia) Hk) as Hpow.
  destruct (Z.lt_trichotomy n k) as [Hlt|[->|Hgt]].
  - rewrite Hi, Z.shiftl_spec_low by done. cbn [andb]. symmetry. apply Z.eqb_neq. lia.
  - rewrite Z.eqb_refl. rewrite Hi at 1. rewrite Z.shiftl_spec, Z.sub_diag, Z.testbit_odd_0 by done.
    cbn [andb]. rewrite Hi1, Z.shiftl_mul_pow2 by done.
    rewrite Z.testbit_eqb by done. replace (2 * m * 2 ^ k + (2 ^ k - 1)) with ((2 * m) * 2 ^ k + (2 ^ k - 1)) by lia.
    rewrite Z.div_add_l, (Z.div_small (2 ^ k - 1)) by lia.
    rewrite Z.add_0_r, Z.mul_comm, Z.mod_mul by lia. done.
  - rewrite (proj2 (Z.eqb_neq k n)) by lia.
    assert (Z.testbit i n = Z.testbit (i - 1) n) as ->; [|by rewrite andb_negb_r].
    rewrite !Z.testbit_eqb by done. f_equal. f_equal.
    rewrite Hi1. unfold i. rewrite Z.shiftl_mul_pow2 by done.
    assert (2 ^ n = 2 ^ k * (2 * 2 ^ (n - k - 1))) as Hsplit.
    { rewrite <- Z.pow_succ_r, <- Z.pow_add_r by lia. f_equal. lia. }
    pose proof (Z.pow_pos_nonneg 2 (n - k - 1) ltac:(lia) ltac:(lia)).
    rewrite Hsplit, <- !Z.div_div by lia.
    rewrite (Z.mul_comm (2 ^ k)), Z.div_mul, Z.div_add_l, (Z.div_small (2 ^ k - 1)) by lia.
    rewrite Z.mul_comm, Z.add_0_r, Z.div_mul, Z.add_comm, Z.div_add, Z.add_0_l by lia. done.
Qed.

(** [i - lowbit i < j <= i]: the cell [i] of a Fenwick tree covers the index [j]. *)
Definition lowbit (i : Z) : Z := Z.land i (- i).
Definition covers (i j : Z) : Prop := i - lowbit i < j <= i.

Lemma lowbit_bounds i : 0 < i → 0 < lowbit i <= i.
Proof.
  intros (k & m & Hk & Hm & ->)%odd_part. unfold lowbit. rewrite land_opp by done.
  pose proof (Z.pow_pos_nonneg 2 k). nia.
Qed.

Lemma pow2_multiple k k' : 0 <= k → k < k' → ∃ c, 2 ^ k' = 2 * 2 ^ k * c ∧ 0 < c.
Proof.
  intros Hk Hlt. exists (2 ^ (k' - k - 1)). split; [|apply Z.pow_pos_nonneg; lia].
  rewrite <- Z.pow_succ_r, <- Z.pow_add_r by lia. f_equal. lia.
Qed.

(** Adding the lowest bit goes to a cell that covers as much and more, *)
Lemma covers_next i j : 0 < i → covers i j → covers (i + lowbit i) j.
Proof.
  intros Hi. pose proof (lowbit_bounds i Hi). unfold covers.
  destruct (odd_part i Hi) as (k & m & Hk & Hm & Heq).
  destruct (odd_part (i + lowbit i) ltac:(lia)) as (k' & m' & Hk' & Hm' & Heq').
  assert (lowbit i = 2 ^ k) as Hl by (rewrite Heq at 1; by apply land_opp).
  assert (lowbit (i + lowbit i) = 2 ^ k') as Hl' by (rewrite Heq' at 1; by apply land_opp).
  rewrite Hl'. rewrite Hl in *.
  assert (k < k') as Hlt.
  { destruct (Z.lt_trichotomy k' k) as [Hlt|[->|]]; [exfalso|exfalso|done].
    - destruct (pow2_multiple k' k Hk' Hlt) as (c & Hc & _).
      pose proof (Z.pow_pos_nonneg 2 k' ltac:(lia) Hk'). rewrite Hc in Heq, Heq'.
      assert (2 * c * (2 * m + 2) = 2 * m' + 1); [apply (Z.mul_reg_l _ _ (2 ^ k')); lia|lia].
    - pose proof (Z.pow_pos_nonneg 2 k ltac:(lia) Hk).
      assert (2 * m + 2 = 2 * m' + 1); [apply (Z.mul_reg_l _ _ (2 ^ k)); lia|lia]. }
  destruct (pow2_multiple k k' Hk Hlt) as (c & Hc & Hc0).
  pose proof (Z.pow_pos_nonneg 2 k ltac:(lia) Hk).
  assert (2 ^ k <= 2 ^ k * c) by nia. lia.
Qed.

(** and no cell in between covers what [i] covers. *)
Lemma covers_gap i i' j : 0 < i → j <= i → i < i' → covers i' j → i + lowbit i <= i'.
Proof.
  intros Hi Hji Hii' [Hc _]. destruct (Z.le_gt_cases (i + lowbit i) i') as [|Hlt]; [done|exfalso].
  destruct (odd_part i Hi) as (k & m & Hk & Hm & Heq).
  destruct (odd_part i' ltac:(lia)) as (k' & m' & Hk' & Hm' & Heq').
  assert (lowbit i = 2 ^ k) as Hl by (rewrite Heq; by apply land_opp).
  assert (lowbit i' = 2 ^ k') as Hl' by (rewrite Heq'; by apply land_opp).
  rewrite Hl in *. rewrite Hl' in *.
  pose proof (Z.pow_pos_nonneg 2 k). pose proof (Z.pow_pos_nonneg 2 k').
  destruct (Z.lt_trichotomy k' k) as [Hkk|[->|Hkk]].
  - destruct (pow2_multiple k' k Hk' Hkk) as (c & Hpc & Hc0). rewrite Hpc in Heq.
    assert (2 * c * (2 * m + 1) < 2 * m' + 1) by (apply (Z.mul_lt_mono_pos_l (2 ^ k')); lia).
    assert (2 ^ k' * (2 * c * (2 * m + 1)) <= 2 ^ k' * (2 * m')) by (apply Z.mul_le_mono_nonneg_l; lia).
    lia.
  - assert (2 * m + 1 < 2 * m' + 1) by (apply (Z.mul_lt_mono_pos_l (2 ^ k)); lia).
    assert (2 * m' + 1 < 2 * m + 2) by (apply (Z.mul_lt_mono_pos_l (2 ^ k)); lia). lia.
  - destruct (pow2_multiple k k' Hk Hkk) as (c & Hpc & Hc0). rewrite Hpc in Heq'.
    assert (2 * m + 1 < 2 * c * (2 * m' + 1)) by (apply (Z.mul_lt_mono_pos_l (2 ^ k)); lia).
    assert (2 * c * (2 * m' + 1) < 2 * m + 2) by (apply (Z.mul_lt_mono_pos_l (2 ^ k)); lia). lia.
Qed.

(** ** Prefix sums *)

Section fenwick.
Implicit Types (s : FenwickTree.t) (l : list (Z * Z)).
Import FenwickTree.

(** The sum of the updates at the indices up to [b]: the array the tree stands for. *)
Definition added l (b : Z) : Z := zsum (λ u : Z * Z, if u.1 <=? b then u.2 else 0) l.

Definition fits (n : Z) (u : Z * Z) : Prop := 1 <= u.1 <= n.

Record fenwick_rep (n : Z) s l : Prop := {
  fr_size : size s = n;
  fr_pos : 1 <= n;
  fr_len : zlen (_tree s) = n + 1;
  fr_fits : Forall (fits n) l;
  fr_cells : ∀ p, 1 <= p <= n →
    _tree s !! Z.to_nat p = Some (added l p - added l (p - lowbit p));
}.

Lemma added_cons u l b : added (u :: l) b = (if u.1 <=? b then u.2 else 0) + added l b.
Proof. reflexivity. Qed.

Lemma added_nonpos n l b : Forall (fits n) l → b <= 0 → added l b = 0.
Proof.
  intros Hl Hb. induction Hl as [|u l Hu Hl IH]; [done|]. rewrite added_cons, IH.
  unfold fits in Hu. destruct (Z.leb_spec u.1 b); lia.
Qed.

Lemma prefix_sum_spec n s l i :
  fenwick_rep n s l → prefix_sum s i = if (0 <=? i) && (i <=? n) then Ok (added l i) else Err Invalid.
Proof.
  intros Hs. unfold prefix_sum. rewrite (fr_size n s l Hs).
  destruct ((0 <=? i) && (i <=? n)) eqn:Hi; cbn [negb]; [|done].
  apply andb_true_iff in Hi as [H0%Z.leb_le Hn%Z.leb_le].
  apply (loop_rule (prefix_round (_tree s)) (λ '(total, p), 0 <= p <= n ∧ total + added l p = added l i)
           (λ st, Z.to_nat st.2) (λ r, r = Ok (added l i))); [|cbn; lia..].
  intros [total p] [Hp Ht]. unfold prefix_round. destruct (Z.ltb_spec 0 p) as [Hlt|Hge].
  - rewrite (py_index_nonneg _ p (added l p - added l (p - lowbit p)));
      [|lia|apply (fr_cells n s l Hs); lia].
    cbn [mbind result_bind]. pose proof (lowbit_bounds p Hlt). fold (lowbit p). cbn. lia.
  - f_equal. rewrite (added_nonpos n l p) in Ht; [lia|apply Hs|lia].
Qed.

(** One round of [update]: the cells that cover the index, up to the current one, have
    the change already. *)
Definition updating n l (index delta i : Z) s : Prop :=
  size s = n ∧ zlen (_tree s) = n + 1 ∧ 1 <= index ∧ covers i index ∧
  ∀ p, 1 <= p <= n → ∃ c, _tree s !! Z.to_nat p = Some (added l p - added l (p - lowbit p) + c)
    ∧ (covers p index ∧ p < i → c = delta) ∧ (¬ (covers p index ∧ p < i) → c = 0).

Lemma update_round_spec n l index delta i s :
  updating n l index delta i s →
  match update_round delta i s with
  | (s', Ok (inl i')) =>
      updating n l index delta i' s' ∧ (Z.to_nat (n + 1 - i') < Z.to_nat (n + 1 - i))%nat
  | (s', Ok (inr tt)) => i > n ∧ s' = s
  | (s', Err e) => False
  end.
Proof.
  intros (Hsz & Hlen & Hix & Hcov & Hcells). unfold update_round. rewrite bind_get, Hsz.
  pose proof Hcov as [Hc1 Hc2].
  destruct (Z.leb_spec i n) as [Hin|Hin]; [|cbn; split; [lia|done]].
  pose proof (lowbit_bounds i ltac:(lia)) as Hlb.
  destruct (Hcells i ltac:(lia)) as (c & Hc & _ & Hc0).
  rewrite (Hc0 ltac:(lia)), Z.add_0_r in Hc. clear c Hc0.
  rewrite bind_pure_of, (py_index_nonneg _ i _ ltac:(lia) Hc), bind_pure_of.
  unfold py_setitem. rewrite (py_pos_nonneg _ i _ ltac:(lia) Hc), bind_put, run_ret.
  fold (lowbit i). split; [split_and!; cbn [size _tree]; [done| |done| |]|lia].
  - unfold zlen in *. by rewrite length_insert.
  - apply covers_next; [lia|done].
  - intros p Hp. destruct (decide (p = i)) as [->|Hne].
    + exists delta. split_and!; [|done|intros Hno; exfalso; apply Hno; split; [done|lia]].
      rewrite list_lookup_insert_eq; [done|]. by eapply lookup_lt_Some.
    + rewrite list_lookup_insert_ne by lia. destruct (Hcells p Hp) as (c & Hcp & H1 & H0).
      exists c. split_and!; [done| |].
      * intros [Hpc Hpi]. apply H1. split; [done|].
        destruct (Z.lt_ge_cases p i) as [|Hge]; [done|].
        pose proof (covers_gap i p index ltac:(lia) Hc2 ltac:(lia) Hpc). lia.
      * intros Hno. apply H0. intros [Hpc Hpi]. apply Hno. split; [done|lia].
Qed.

Lemma update_spec n s l index delta :
  fenwick_rep n s l →
  if (1 <=? index) && (index <=? n)
  then ∃ s', update index delta s = (s', Ok ()) ∧ fenwick_rep n s' ((index, delta) :: l)
  else update index delta s = (s, Err Invalid).
Proof.
  intros Hs. unfold update. rewrite bind_get, bind_raise_if, (fr_size n s l Hs).
  destruct ((1 <=? index) && (index <=? n)) eqn:Hi; cbn [negb]; [|done].
  apply andb_true_iff in Hi as [H1%Z.leb_le Hn%Z.leb_le].
  set (fuel := S _).
  assert (Hrun : (∃ i, i > n ∧ updating n l index delta i (act_loop (update_round delta) fuel index s).1)
     ∧ (act_loop (update_round delta) fuel index s).2 = Ok ()).
  { apply (act_loop_rule (update_round delta) (updating n l index delta)
      (λ i, Z.to_nat (n + 1 - i)) (λ s' r, (∃ i, i > n ∧ updating n l index delta i s') ∧ r = Ok ()));
      [| |lia].
    - intros i s' Hup. pose proof (update_round_spec n l index delta i s' Hup) as Hr.
      destruct (update_round delta i s') as [s'' [[i'|[]]|e]]; [done| |done].
      destruct Hr as [Hi ->]. split; [by exists i|done].
    - split_and!; [apply Hs|apply Hs|done| |].
      + pose proof (lowbit_bounds index ltac:(lia)). split; lia.
      + intros p Hp. exists 0. rewrite Z.add_0_r. split_and!; [by apply (fr_cells n s l Hs)| |done].
        intros [[? ?] ?]. lia. }
  destruct (act_loop (update_round delta) fuel index s) as [s' r]. cbn [fst snd] in Hrun.
  destruct Hrun as [(i & Hi & Hsz & Hlen & _ & Hcov & Hcells) ->]. exists s'. split; [done|].
  split; [done|apply Hs|done|constructor; [done|apply Hs]|].
  intros p Hp. destruct (Hcells p Hp) as (c & -> & Hc1 & Hc0). f_equal. rewrite !added_cons. cbn [fst snd].
  pose proof (lowbit_bounds p ltac:(lia)).
  destruct (Z.leb_spec index p), (Z.leb_spec index (p - lowbit p)); try lia.
  - rewrite Hc0; [lia|]. unfold covers. lia.
  - rewrite Hc1; [lia|]. unfold covers. lia.
  - rewrite Hc0; [lia|]. unfold covers. lia.
Qed.

Lemma make_spec n : 1 <= n → ∃ s, make n [] = Ok s ∧ fenwick_rep n s [].
Proof.
  intros Hn. unfold make. destruct (Z.ltb_spec n 1); [lia|]. eexists. split; [done|].
  split; cbn; [done|done| |constructor|].
  - unfold zlen. rewrite length_replicate. lia.
  - intros p Hp. rewrite Z.sub_diag. apply lookup_replicate. lia.
Qed.
End fenwick.

Definition fenwick_step (u : Z * Z) (s : FenwickTree.t) : FenwickTree.t :=
  state_of (FenwickTree.update u.1 u.2) s.

(** Also (equivalence): a Fenwick tree of any size answers every query as the plain array of
    counters it replaces. After any sequence of updates from the empty tree (an update outside
    1..n raises Invalid and changes nothing) the prefix sum up to [i] is the sum of the accepted
    changes at indices up to [i], the range sum from [low] to [high] the sum of those in the
    range, the total that of all of them; the queries refuse with Invalid exactly the indices
    out of range and inverted ranges. The climbing loops over the lowest set bits end on every
    input. *)
Theorem fenwick_sums_exact n updates :
  1 <= n →
  ∃ s0, FenwickTree.make n [] = Ok s0 ∧
  let s := run fenwick_step updates s0 in
  let kept := filter (fits n) updates in
  let sum (P : Z → bool) := zsum (λ u : Z * Z, if P u.1 then u.2 else 0) kept in
  (∀ i, FenwickTree.prefix_sum s i
        = if (0 <=? i) && (i <=? n) then Ok (sum (λ j, j <=? i)) else Err Invalid) ∧
  (∀ low high, FenwickTree.range_sum s low high
        = if high <? low then Err Invalid
          else if (1 <=? low) && (high <=? n)
               then Ok (sum (λ j, (low <=? j) && (j <=? high))) else Err Invalid) ∧
  FenwickTree.total s = Ok (sum (λ _, true)).
Proof.
  intros Hn. destruct (make_spec n Hn) as (s0 & Hmk & H0). exists s0. split; [done|].
  intros s kept sum.
  assert (Hrep : ∃ l, fenwick_rep n s l ∧ l ≡ₚ kept).
  { subst s kept sum. clear Hmk. unfold run.
    assert (Hgo : ∀ l s, fenwick_rep n s l →
      ∃ l', fenwick_rep n (foldl (λ s o, fenwick_step o s) s updates) l'
        ∧ l' ≡ₚ l ++ filter (fits n) updates).
    { clear s0 H0. induction updates as [|[j d] us IH]; intros l s Hs.
      { exists l. by rewrite app_nil_r. }
      cbn [foldl]. pose proof (update_spec n s l j d Hs) as Hup.
      rewrite filter_cons.
      destruct ((1 <=? j) && (j <=? n)) eqn:Hj.
      - destruct Hup as (s' & Hrun & Hs'). unfold fenwick_step at 2, state_of. cbn [fst snd].
        rewrite Hrun. destruct (IH _ _ Hs') as (l' & Hl' & Hp). exists l'. split; [done|].
        rewrite decide_True by (unfold fits; cbn; lia). rewrite Hp. by rewrite <- Permutation_middle.
      - unfold fenwick_step at 2, state_of. cbn [fst snd]. rewrite Hup.
        rewrite decide_False by (unfold fits; cbn; lia). by apply IH. }
    apply Hgo in H0 as (l' & ? & ?). by exists l'. }
  destruct Hrep as (l & Hs & Hl).
  assert (Hadd : ∀ i, added l i = sum (λ j, j <=? i))
    by (intros i; unfold added, sum; by apply zsum_Permutation).
  assert (Hprefix : ∀ i, FenwickTree.prefix_sum s i
        = if (0 <=? i) && (i <=? n) then Ok (sum (λ j, j <=? i)) else Err Invalid).
  { intros i. by rewrite (prefix_sum_spec n s l i Hs), Hadd. }
  split_and!; [done| |].
  - intros low high. unfold FenwickTree.range_sum. rewrite !Hprefix.
    destruct (Z.ltb_spec high low) as [|Hle]; [done|].
    destruct (Z.leb_spec 0 high), (Z.leb_spec high n), (Z.leb_spec 1 low), (Z.leb_spec 0 (low - 1)),
      (Z.leb_spec (low - 1) n); cbn; try done; try lia.
    f_equal. unfold sum. clear -Hle. induction kept as [|[j d] us IH]; [done|].
    unfold zsum in *. cbn in *.
    destruct (Z.leb_spec j high), (Z.leb_spec j (low - 1)), (Z.leb_spec low j); cbn; lia.
  - unfold FenwickTree.total. rewrite (fr_size n s l Hs), Hprefix.
    destruct (Z.leb_spec 0 n), (Z.leb_spec n n); cbn; try lia. f_equal. unfold sum.
    apply zsum_ext. intros [j d] [Hj _]%list_elem_of_filter. unfold fits in Hj. cbn in *.
    destruct (Z.leb_spec j n); [done|lia].
Qed.

Lemma fenwick_sums_exact_witness :
  ∃ s0, FenwickTree.make 10 [] = Ok s0 ∧
  FenwickTree.range_sum (run fenwick_step [(3, 5); (11, 1); (7, 2); (4, -1)] s0) 3 6 = Ok 4.
Proof.
  destruct (fenwick_sums_exact 10 [(3, 5); (11, 1); (7, 2); (4, -1)] ltac:(done)) as
    (s0 & H0 & _ & Hr & _). exists s0. split; [exact H0|].
  refine (eq_trans (Hr 3 6) _). vm_compute. reflexivity.
Defined.
