(* ===== verification/SkipList.v ===== *)
(** * The skip list

    [relay/skiplist.py]: a sorted linked list with express lanes.  Nodes are shared
    mutable objects, so the model has a heap: a list of nodes addressed by position,
    the head first, a new node at the end. *)

From S2P Require Import Prelude PyDict PyBytes.

Module skiplist.
(** [relay/skiplist.py] _MAX_LEVEL *)
Definition _MAX_LEVEL : nat := 16.

Module _Node.
(** [relay/skiplist.py] class _Node *)
Record t := mk { value : Z; forward : list (option nat) }.
End _Node.

(** [o[i]] of a list, for an index that is never negative *)
Definition item {A} (l : list A) (i : nat) : result A :=
  match l !! i with Some x => Ok x | None => Err IndexError end.

(** [node.forward[i]] of the node at an address *)
Definition forward_at (heap : list _Node.t) (node i : nat) : result (option nat) :=
  n ← item heap node;
  item (_Node.forward n) i.

(** [node.forward[i] = target] *)
Definition set_forward (heap : list _Node.t) (node i : nat) (target : option nat) : list _Node.t :=
  alter (λ n, _Node.mk (_Node.value n) (<[i := target]> (_Node.forward n))) node heap.

Module SkipList.
(** [relay/skiplist.py] class SkipList: [coin k] is the outcome of the [k]-th toss, [flips]
    the tosses so far, and the head is the node at address 0 *)
Record t := mk { coin : nat → bool; flips : nat; level : nat; heap : list _Node.t }.

(** [relay/skiplist.py] SkipList.__post_init__ *)
Definition make (coin : nat → bool) : t :=
  mk coin 0 0 [_Node.mk (-1) (replicate (_MAX_LEVEL + 1) None)].

(** [self.coin()] *)
Definition toss : act t bool :=
  self ← get;
  put (mk (coin self) (S (flips self)) (level self) (heap self));;
  mret (coin self (flips self)).

(** [relay/skiplist.py:59-60] SkipList._height *)
Definition height_round (lvl : nat) : act t (nat + nat) :=
  heads ← toss;
  mret (if heads && (lvl <? _MAX_LEVEL)%nat then inl (S lvl) else inr lvl).

(** [relay/skiplist.py] SkipList._height *)
Definition _height : act t nat := act_loop height_round (S _MAX_LEVEL) 0%nat.

(** [relay/skiplist.py:67-70] SkipList.insert *)
Definition right_round (heap : list _Node.t) (i : nat) (value : Z) (node : nat) : result (nat + nat) :=
  nxt ← forward_at heap node i;
  match nxt with
  | None => Ok (inr node)
  | Some m => n ← item heap m; Ok (if _Node.value n <? value then inl m else inr node)
  end.

(** [relay/skiplist.py:66-71] SkipList.insert: levels [i - 1] down to 0 *)
Fixpoint descend (heap : list _Node.t) (value : Z) (i node : nat) (update : list nat) :
    result (nat * list nat) :=
  match i with
  | O => Ok (node, update)
  | S i =>
      node ← loop (right_round heap i value) (S (length heap)) node;
      descend heap value i node (<[i := node]> update)
  end.

(** [relay/skiplist.py:78-80] SkipList.insert: [levels] in order *)
Fixpoint splice (new : nat) (update : list nat) (levels : list nat) (heap : list _Node.t) :
    result (list _Node.t) :=
  match levels with
  | [] => Ok heap
  | i :: levels =>
      before ← item update i;
      after ← forward_at heap before i;
      let heap := set_forward heap new i after in
      let heap := set_forward heap before i (Some new) in
      splice new update levels heap
  end.

(** [after is not None and after.value == value], [after] being [node.forward[0]] *)
Definition found_after (heap : list _Node.t) (node : nat) (value : Z) : result bool :=
  after ← forward_at heap node 0;
  match after with
  | None => Ok false
  | Some m => n ← item heap m; Ok (_Node.value n =? value)
  end.

(** [relay/skiplist.py] SkipList.insert *)
Definition insert (value : Z) : act t unit :=
  self ← get;
  path ← pure_of (descend (heap self) value (S (level self)) 0 (replicate (_MAX_LEVEL + 1) 0%nat));
  let '(node, update) := path in
  duplicate ← pure_of (found_after (heap self) node value);
  if duplicate : bool then mret () else
  lvl ← _height;
  self ← get;
  let new := length (heap self) in
  heap' ← pure_of (splice new update (seq 0 (S lvl))
                     (heap self ++ [_Node.mk value (replicate (S lvl) None)]));
  put (mk (coin self) (flips self) (level self `max` lvl)%nat heap').

(** [relay/skiplist.py] SkipList.search: the same descent as [insert], which keeps no
    [update] list (assigning to the empty list is nothing here) *)
Definition search (self : t) (value : Z) : result bool :=
  path ← descend (heap self) value (S (level self)) 0 [];
  found_after (heap self) path.1 value.

(** [relay/skiplist.py:95-97] SkipList.in_order *)
Definition walk_round (heap : list _Node.t) (s : option nat * list _Node.t) :
    result (option nat * list _Node.t + list _Node.t) :=
  match s with
  | (None, out) => Ok (inr out)
  | (Some node, out) =>
      n ← item heap node;
      nxt ← item (_Node.forward n) 0;
      Ok (inl (nxt, out ++ [n]))
  end.

(** the nodes from [self._head.forward[0]] on *)
Definition walk (self : t) : result (list _Node.t) :=
  first ← forward_at (heap self) 0 0;
  loop (walk_round (heap self)) (S (length (heap self))) (first, []).

(** [relay/skiplist.py] SkipList.in_order *)
Definition in_order (self : t) : result (list Z) :=
  nodes ← (walk self : result (list _Node.t));
  Ok (_Node.value <$> (nodes : list _Node.t)).

(** [counts[len(node.forward) - 1] += 1] *)
Fixpoint count_levels (nodes : list _Node.t) (counts : list Z) : result (list Z) :=
  match nodes with
  | [] => Ok counts
  | n :: nodes =>
      let slot := zlen (_Node.forward n) - 1 in
      c ← py_index counts slot;
      counts' ← py_setitem counts slot (c + 1);
      count_levels nodes counts'
  end.

(** [relay/skiplist.py] SkipList.level_counts: the list in the message *)
Definition level_counts (self : t) : result (list Z) :=
  nodes ← walk self;
  counts ← count_levels nodes (replicate (S (level self)) 0);
  if existsb (λ c, negb (c =? 0)) counts then Ok counts else Err Invalid.
End SkipList.
End skiplist.
Import skiplist.

(** A coin that shows heads twice out of three tosses. *)
Definition biased (k : nat) : bool := negb (k mod 3 =? 2)%nat.

Definition sl_step (v : Z) (s : SkipList.t) : SkipList.t := state_of (SkipList.insert v) s.

Example sl_sorts :
  let s := run sl_step [5; -3; 9; 5; 0; 7] (SkipList.make biased) in
  SkipList.in_order s = Ok [-3; 0; 5; 7; 9] ∧ SkipList.search s 7 = Ok true
  ∧ SkipList.search s 6 = Ok false ∧ SkipList.level_counts s = Ok [0; 0; 5].
Proof. by vm_compute. Qed.

(** ** Lanes

    The list at level [i] is a chain of [forward[i]] pointers. *)

Section lanes.
Implicit Types (h : list _Node.t) (a b i : nat) (l : list nat) (e : option nat).

Definition fwd h a i : option (option nat) := n ← h !! a; _Node.forward n !! i.
Definition val h a : Z := from_option _Node.value 0 (h !! a).
Definition height h a : nat := from_option (λ n, length (_Node.forward n)) O (h !! a).

(** From [a], the pointers of level [i] lead through [l] and then to [e]. *)
Fixpoint lane h i a l e : Prop :=
  match l with
  | [] => fwd h a i = Some e
  | b :: l => fwd h a i = Some (Some b) ∧ lane h i b l e
  end.

Definition lane_tail h i l : Prop :=
  match l with [] => True | b :: l => lane h i b l None end.

Lemma lane_app h i a l1 l2 :
  lane h i a (l1 ++ l2) None ↔ lane h i a l1 (head l2) ∧ lane_tail h i l2.
Proof.
  revert a. induction l1 as [|b l1 IH]; intros a; cbn [app lane].
  - destruct l2; cbn; tauto.
  - rewrite IH. tauto.
Qed.

Lemma forward_at_fwd h a i p : forward_at h a i = Ok p ↔ fwd h a i = Some p.
Proof.
  unfold forward_at, fwd, item. destruct (h !! a) as [n|]; cbn; [|done].
  destruct (_Node.forward n !! i); naive_solver.
Qed.

Lemma lane_head h i a l e : lane h i a l e → fwd h a i = Some (match l with [] => e | b :: _ => Some b end).
Proof. destruct l; cbn; tauto. Qed.

(** Setting a pointer. *)
Lemma fwd_set h a i e b j :
  fwd (set_forward h a i e) b j
  = if bool_decide (b = a ∧ j = i) then (_ ← fwd h a i; Some e) else fwd h b j.
Proof.
  unfold fwd, set_forward. rewrite list_lookup_alter.
  destruct (decide (a = b)) as [<-|Hab].
  - destruct (h !! a) as [n|]; cbn; [|by case_bool_decide].
    destruct (decide (j = i)) as [->|Hji].
    + rewrite bool_decide_eq_true_2 by done. destruct (_Node.forward n !! i) eqn:Hn; cbn.
      * apply list_lookup_insert_eq. by eapply lookup_lt_Some.
      * apply lookup_ge_None in Hn. apply lookup_ge_None. by rewrite length_insert.
    + rewrite bool_decide_eq_false_2 by tauto. by rewrite list_lookup_insert_ne by congruence.
  - rewrite bool_decide_eq_false_2 by naive_solver. done.
Qed.

Lemma val_set h a i e b : val (set_forward h a i e) b = val h b.
Proof.
  unfold val, set_forward. rewrite list_lookup_alter.
  case_decide; [subst b|done]. by destruct (h !! a).
Qed.
Lemma height_set h a i e b : height (set_forward h a i e) b = height h b.
Proof.
  unfold height, set_forward. rewrite list_lookup_alter. case_decide; [subst b|done].
  destruct (h !! a); cbn; [|done]. apply length_insert.
Qed.
Lemma length_set h a i e : length (set_forward h a i e) = length h.
Proof. apply length_alter. Qed.

Lemma lane_frame h a j e' i b l e :
  i ≠ j ∨ a ∉ b :: l → lane h i b l e → lane (set_forward h a j e') i b l e.
Proof.
  revert b. induction l as [|c l IH]; intros b Hne; cbn [lane]; rewrite fwd_set.
  - rewrite bool_decide_eq_false_2; [done|]. intros [-> ->]. destruct Hne as [|Hn]; [done|].
    apply Hn. by left.
  - rewrite bool_decide_eq_false_2.
    + intros [H1 H2]. split; [done|]. apply IH; [|done]. destruct Hne as [|Hn]; [by left|right].
      intros Hin. apply Hn. by right.
    + intros [-> ->]. destruct Hne as [|Hn]; [done|]. apply Hn. by left.
Qed.

Lemma lane_tail_frame h a j e' i l :
  i ≠ j ∨ a ∉ l → lane_tail h i l → lane_tail (set_forward h a j e') i l.
Proof. destruct l; [done|]. apply lane_frame. Qed.

Fixpoint end_of a l : nat := match l with [] => a | b :: l => end_of b l end.

Lemma end_of_in a l : end_of a l ∈ a :: l.
Proof.
  revert a. induction l as [|b l IH]; intros a; [by left|]. cbn [end_of]. right. apply IH.
Qed.

Lemma lane_end h i a l e : lane h i a l e → fwd h (end_of a l) i = Some e.
Proof.
  revert a. induction l as [|b l IH]; intros a; [done|]. cbn [end_of]. intros [_ H]. by apply IH.
Qed.

Lemma lane_set_end h i a l e e' :
  NoDup (a :: l) → lane h i a l e → lane (set_forward h (end_of a l) i e') i a l e'.
Proof.
  revert a. induction l as [|b l IH]; intros a Hnd.
  - cbn [lane end_of]. intros H. by rewrite fwd_set, bool_decide_eq_true_2, H.
  - intros [H1 H2]. cbn [end_of]. inversion Hnd as [|? ? Ha Hnd']; subst. split; [|by apply IH].
    rewrite fwd_set, bool_decide_eq_false_2; [done|]. intros [-> _]. apply Ha, end_of_in.
Qed.

(** Appending a node to the heap changes no lane. *)
Lemma fwd_snoc h n a i p : fwd h a i = Some p → fwd (h ++ [n]) a i = Some p.
Proof.
  unfold fwd. destruct (h !! a) eqn:Ha; [|done]. by rewrite (lookup_app_l_Some _ _ _ _ Ha).
Qed.
Lemma lane_snoc h n i a l e : lane h i a l e → lane (h ++ [n]) i a l e.
Proof.
  revert a. induction l as [|b l IH]; intros a; cbn [lane]; [apply fwd_snoc|].
  intros [H1 H2]. split; [by apply fwd_snoc|by apply IH].
Qed.

(** ** Following a lane *)

Lemma right_run h i v a l1 l2 fuel :
  lane h i a (l1 ++ l2) None →
  (∀ b, b ∈ l1 → val h b < v) → (∀ b, head l2 = Some b → v <= val h b) →
  (∀ b, b ∈ l1 ++ l2 → (b < length h)%nat) → (length l1 < fuel)%nat →
  loop (SkipList.right_round h i v) fuel a = Ok (end_of a l1).
Proof.
  revert a fuel. induction l1 as [|b l1 IH]; intros a fuel Hlane Hlt Hge Hin Hfuel;
    (destruct fuel as [|fuel]; [cbn in Hfuel; lia|]); cbn [loop].
  - assert (SkipList.right_round h i v a = Ok (inr a)) as ->; [|done]. unfold SkipList.right_round.
    pose proof (lane_head _ _ _ _ _ Hlane) as Hf. cbn in Hf.
    apply forward_at_fwd in Hf. rewrite Hf. cbn.
    destruct l2 as [|b l2]; [done|]. unfold item.
    destruct (h !! b) as [n|] eqn:Hn; [|apply lookup_ge_None in Hn; specialize (Hin b ltac:(by left)); lia].
    cbn. specialize (Hge b eq_refl). unfold val in Hge. rewrite Hn in Hge. cbn in Hge.
    by destruct (Z.ltb_spec (_Node.value n) v); [lia|].
  - destruct Hlane as [Hf Hlane]. assert (SkipList.right_round h i v a = Ok (inl b)) as ->.
    { unfold SkipList.right_round. apply forward_at_fwd in Hf. rewrite Hf. cbn. unfold item.
      destruct (h !! b) as [n|] eqn:Hn; [|apply lookup_ge_None in Hn; specialize (Hin b ltac:(by left)); lia].
      cbn. specialize (Hlt b ltac:(by left)). unfold val in Hlt. rewrite Hn in Hlt. cbn in Hlt.
      by destruct (Z.ltb_spec (_Node.value n) v); [|lia]. }
    cbn [end_of]. apply IH; [done| |done| |cbn in Hfuel; lia].
    + intros c Hc. apply Hlt. by right.
    + intros c Hc. apply Hin. by right.
Qed.

Lemma lane_suffix h i a l1 l2 e : lane h i a (l1 ++ l2) e → lane h i (end_of a l1) l2 e.
Proof.
  revert a. induction l1 as [|b l1 IH]; intros a; cbn [app lane end_of]; [done|].
  intros [_ H]. by apply IH.
Qed.

Lemma end_of_app a l1 l2 : end_of a (l1 ++ l2) = end_of (end_of a l1) l2.
Proof. revert a. induction l1 as [|b l1 IH]; intros a; [done|]. apply IH. Qed.

(** Linking a node into one level. *)
Lemma lane_link h i a (new : nat) l1 l2 :
  lane h i a (l1 ++ l2) None → NoDup (a :: l1 ++ l2) → new ∉ a :: l1 ++ l2 →
  is_Some (fwd h new i) →
  forward_at h (end_of a l1) i = Ok (head l2)
  ∧ lane (set_forward (set_forward h new i (head l2)) (end_of a l1) i (Some new)) i a
      (l1 ++ new :: l2) None.
Proof.
  intros Hlane Hnd Hnew [f Hf]. apply lane_app in Hlane as [H1 H2].
  pose proof (end_of_in a l1) as Hend.
  assert (Hnd1 : NoDup (a :: l1)) by (apply (NoDup_app (a :: l1) l2) in Hnd; tauto).
  assert (Hdisj : end_of a l1 ∉ l2) by (apply (NoDup_app (a :: l1) l2) in Hnd; apply Hnd, Hend).
  assert (Hnew1 : new ∉ a :: l1) by (intros Hin; apply Hnew; apply (elem_of_app (a :: l1) l2); by left).
  assert (Hnew2 : new ∉ l2) by (intros Hin; apply Hnew; apply (elem_of_app (a :: l1) l2); by right).
  split; [apply forward_at_fwd; by eapply lane_end|].
  apply lane_app. split; cbn [head lane_tail].
  - eapply lane_set_end; [done|]. apply lane_frame; [by right|exact H1].
  - apply (lane_app _ i new [] l2). split; cbn [lane].
    + rewrite fwd_set, bool_decide_eq_false_2 by (intros [-> _]; done).
      by rewrite fwd_set, bool_decide_eq_true_2, Hf.
    + apply lane_tail_frame; [by right|]. apply lane_tail_frame; [by right|done].
Qed.
End lanes.

(** ** The invariant

    The nodes, in order, are [L]: their values increase, and the lane of every level goes
    through the nodes tall enough for it. *)

Definition tall (h : list _Node.t) (i a : nat) : Prop := (i < height h a)%nat.
#[global] Instance tall_dec h i a : Decision (tall h i a) := lt_dec _ _.

Record sl_inv (s : SkipList.t) (L : list nat) : Prop := {
  sl_head : height (SkipList.heap s) 0 = S _MAX_LEVEL;
  sl_nodup : NoDup (0%nat :: L);
  sl_count : length (SkipList.heap s) = S (length L);
  sl_dom : ∀ a, a ∈ L → (a < length (SkipList.heap s))%nat;
  sl_height : ∀ a, a ∈ L → (1 <= height (SkipList.heap s) a <= S (SkipList.level s))%nat;
  sl_level : (SkipList.level s <= _MAX_LEVEL)%nat;
  sl_sorted : StronglySorted (λ a b, val (SkipList.heap s) a < val (SkipList.heap s) b) L;
  sl_lanes : ∀ i, (i <= _MAX_LEVEL)%nat →
    lane (SkipList.heap s) i 0 (filter (tall (SkipList.heap s) i) L) None;
}.

Lemma sorted_split (f : nat → Z) v L :
  StronglySorted (λ a b, f a < f b) L →
  ∃ P Q, L = P ++ Q ∧ (∀ a, a ∈ P → f a < v) ∧ (∀ a, a ∈ Q → v <= f a).
Proof.
  induction 1 as [|a L HL (P & Q & -> & HP & HQ) Ha].
  - exists [], []. split_and!; [done|by intros ? ?%elem_of_nil..].
  - rewrite Forall_forall in Ha. destruct (Z.lt_ge_cases (f a) v).
    + exists (a :: P), Q. split_and!; [done| |done]. intros b [->|Hb]%elem_of_cons; auto.
    + exists [], (a :: P ++ Q). split_and!; [done|by intros ? ?%elem_of_nil|].
      intros b [->|Hb]%elem_of_cons; [lia|]. specialize (Ha b Hb). lia.
Qed.

Section descend.
Context (s : SkipList.t) (L P Q : list nat) (v : Z).
Context (Hs : sl_inv s L) (HL : L = P ++ Q).
Context (HP : ∀ a, a ∈ P → val (SkipList.heap s) a < v).
Context (HQ : ∀ a, a ∈ Q → v <= val (SkipList.heap s) a).
Let h := SkipList.heap s.

(** the node of level [i] after which a node of value [v] belongs *)
Definition before (i : nat) : nat := end_of 0 (filter (tall h i) P).

Lemma before_lower i i' :
  (i' <= i)%nat → ∃ l1 l2, filter (tall h i') P = l1 ++ l2 ∧ before i = end_of 0 l1.
Proof using.
  intros Hi. unfold before.
  assert (before i = 0%nat ∨ before i ∈ P ∧ tall h i (before i)) as Hb.
  { unfold before. pose proof (end_of_in 0 (filter (tall h i) P)) as [->|Hin]%elem_of_cons; [by left|right].
    apply list_elem_of_filter in Hin. tauto. }
  unfold before in Hb. destruct Hb as [->|[Hin Ht]].
  - by exists [], (filter (tall h i') P).
  - set (b := end_of 0 _) in *. apply list_elem_of_split in Hin as (P1 & P2 & HPP).
    exists (filter (tall h i') P1 ++ [b]), (filter (tall h i') P2). split.
    + rewrite HPP, filter_app, filter_cons_True by (unfold tall in *; lia). by rewrite <- app_assoc.
    + by rewrite end_of_app.
Qed.

Lemma right_before i a :
  (i <= _MAX_LEVEL)%nat →
  (∃ l1 l2, filter (tall h i) P = l1 ++ l2 ∧ a = end_of 0 l1) →
  loop (SkipList.right_round h i v) (S (length h)) a = Ok (before i).
Proof using Hs HL HP HQ.
  intros Hi (l1 & l2 & Heq & ->). unfold before. rewrite Heq, end_of_app.
  pose proof (sl_lanes s L Hs i Hi) as Hlane. fold h in Hlane.
  rewrite HL, filter_app, Heq, <- app_assoc in Hlane. apply lane_suffix in Hlane.
  assert (Hin2 : ∀ b, b ∈ l2 → b ∈ P).
  { intros b Hb. assert (b ∈ filter (tall h i) P) as [_ Hb']%list_elem_of_filter; [|done].
    rewrite Heq. apply elem_of_app. by right. }
  assert (HinQ : ∀ b, b ∈ filter (tall h i) Q → b ∈ Q) by (by intros b [_ ?]%list_elem_of_filter).
  eapply right_run; [exact Hlane| | | |].
  - intros b Hb. by apply HP, Hin2.
  - intros b Hb. apply HQ, HinQ. destruct (filter _ Q); simplify_eq/=. by left.
  - intros b Hb. apply (sl_dom s L Hs). rewrite HL.
    apply elem_of_app in Hb as [Hb|Hb]; apply elem_of_app; auto.
  - pose proof (sl_count s L Hs) as Hc. fold h in Hc. rewrite Hc, HL, length_app.
    assert (length l2 <= length (filter (tall h i) P))%nat by (rewrite Heq, length_app; lia).
    pose proof (length_filter (tall h i) P). lia.
Qed.

Lemma descend_run j a update :
  (j <= S _MAX_LEVEL)%nat →
  (∀ i, (i < j)%nat → ∃ l1 l2, filter (tall h i) P = l1 ++ l2 ∧ a = end_of 0 l1) →
  ∃ update', SkipList.descend h v j a update
             = Ok (if decide (j = 0%nat) then a else before 0, update')
    ∧ length update' = length update
    ∧ ∀ i, (i < length update)%nat →
        update' !! i = if decide (i < j)%nat then Some (before i) else update !! i.
Proof using Hs HL HP HQ.
  revert a update. induction j as [|j IH]; intros a update Hj Ha; cbn [SkipList.descend].
  { exists update. split_and!; [done|done|]. intros i Hi. by rewrite decide_False by lia. }
  rewrite (right_before j a) by (try lia; apply Ha; lia). cbn [mbind result_bind].
  destruct (IH (before j) (<[j:=before j]> update)) as (upd' & Hrun & Hlen & Hupd); [lia| |].
  { intros i Hi. apply before_lower. lia. }
  exists upd'. rewrite Hrun. split_and!.
  - rewrite (decide_False (P := S j = 0%nat)) by lia. case_decide as Hj0; [by subst j|done].
  - by rewrite Hlen, length_insert.
  - intros i Hi. rewrite Hupd by (by rewrite length_insert).
    destruct (decide (i < j)%nat); [by rewrite decide_True by lia|].
    destruct (decide (i = j)) as [->|]; [rewrite decide_True by lia; by apply list_lookup_insert_eq|].
    rewrite decide_False by lia. by rewrite list_lookup_insert_ne by lia.
Qed.

(** The node after the position on the lowest level is the first of [Q]. *)
Lemma found_after_run : SkipList.found_after h (before 0) v = Ok (bool_decide (v ∈ val h <$> L)).
Proof using Hs HL HP HQ.
  assert (Hall : ∀ l : list nat, (∀ a, a ∈ l → a ∈ L) → filter (tall h 0) l = l).
  { intros l Hl. apply list_filter_all. intros a Ha. pose proof (sl_height s L Hs a (Hl a Ha)).
    unfold tall, h. lia. }
  pose proof (sl_lanes s L Hs 0 ltac:(unfold _MAX_LEVEL; lia)) as Hlane. fold h in Hlane.
  rewrite Hall, HL in Hlane by done. unfold before.
  rewrite Hall by (intros a Ha; rewrite HL; apply elem_of_app; by left).
  apply lane_suffix, lane_head in Hlane. unfold SkipList.found_after.
  apply forward_at_fwd in Hlane. rewrite Hlane. cbn [mbind result_bind].
  assert (HnotP : v ∉ val h <$> P).
  { intros (a & -> & Ha)%list_elem_of_fmap. specialize (HP a Ha). unfold h in HP. lia. }
  destruct Q as [|b Q'] eqn:HQe.
  - rewrite bool_decide_eq_false_2; [done|]. by rewrite HL, app_nil_r.
  - assert (b ∈ L) as HbL by (rewrite HL; apply elem_of_app; right; by left).
    unfold item. pose proof (sl_dom s L Hs b HbL) as Hb. fold h in Hb.
    destruct (h !! b) as [n|] eqn:Hn; [|apply lookup_ge_None in Hn; lia]. cbn. f_equal.
    assert (val h b = _Node.value n) as Hv by (unfold val; by rewrite Hn). rewrite <- Hv.
    rewrite HL, fmap_app. case_bool_decide as Hin.
    + apply elem_of_app in Hin as [|[->|Hin]%elem_of_cons]; [done|apply Z.eqb_refl|].
      apply list_elem_of_fmap in Hin as (a & -> & Ha).
      pose proof (HQ b ltac:(by left)) as Hge.
      pose proof (sl_sorted s L Hs) as Hsort. rewrite HL in Hsort.
      apply StronglySorted_app_1_r in Hsort. inversion Hsort as [|? ? _ Hfa]; subst.
      rewrite Forall_forall in Hfa. specialize (Hfa a Ha). unfold h in *. lia.
    + apply Z.eqb_neq. intros Heq. apply Hin, elem_of_app. right. cbn. rewrite Heq. by left.
Qed.
End descend.

(** ** Inserting *)

Lemma height_round_run lvl s :
  SkipList.height_round lvl s
  = (SkipList.mk (SkipList.coin s) (S (SkipList.flips s)) (SkipList.level s) (SkipList.heap s),
     Ok (if SkipList.coin s (SkipList.flips s) && (lvl <? _MAX_LEVEL)%nat then inl (S lvl) else inr lvl)).
Proof. reflexivity. Qed.

Lemma height_run s : ∃ k lvl,
  SkipList._height s
  = (SkipList.mk (SkipList.coin s) (SkipList.flips s + k) (SkipList.level s) (SkipList.heap s), Ok lvl)
  ∧ (lvl <= _MAX_LEVEL)%nat.
Proof.
  unfold SkipList._height.
  set (Q := λ (s' : SkipList.t) (r : result nat), ∃ k lvl,
    s' = SkipList.mk (SkipList.coin s) (SkipList.flips s + k) (SkipList.level s) (SkipList.heap s)
    ∧ r = Ok lvl ∧ (lvl <= _MAX_LEVEL)%nat).
  assert (Hrun : Q (act_loop SkipList.height_round (S _MAX_LEVEL) 0%nat s).1
                   (act_loop SkipList.height_round (S _MAX_LEVEL) 0%nat s).2).
  { apply (act_loop_rule SkipList.height_round
      (λ lvl s', (lvl <= _MAX_LEVEL)%nat ∧ ∃ k, s' = SkipList.mk (SkipList.coin s)
         (SkipList.flips s + k) (SkipList.level s) (SkipList.heap s))
      (λ lvl, _MAX_LEVEL - lvl)%nat Q); [| |lia].
    - intros lvl s' [Hl [k ->]]. rewrite height_round_run.
      cbn [SkipList.coin SkipList.flips SkipList.level SkipList.heap].
      destruct (SkipList.coin s (SkipList.flips s + k)); cbn [andb];
        [destruct (Nat.ltb_spec lvl _MAX_LEVEL)|].
      + split; [split|]; [lia| |lia]. exists (S k). f_equal. lia.
      + exists (S k), lvl. split_and!; [f_equal; lia|done|done].
      + exists (S k), lvl. split_and!; [f_equal; lia|done|done].
    - split; [lia|]. exists 0%nat. destruct s. cbn. f_equal. lia. }
  destruct (act_loop _ _ _ s) as [s' r]. destruct Hrun as (k & lvl & H1 & H2 & Hle).
  cbn in H1, H2. subst. by exists k, lvl.
Qed.

Section insert.
Context (s : SkipList.t) (L P Q : list nat) (v : Z) (lvl : nat).
Context (Hs : sl_inv s L) (HL : L = P ++ Q) (Hlvl : (lvl <= _MAX_LEVEL)%nat).
Let new := length (SkipList.heap s).
Let h0 := SkipList.heap s ++ [_Node.mk v (replicate (S lvl) None)].

Lemma h0_old a : (a < new)%nat → h0 !! a = SkipList.heap s !! a.
Proof. intros Ha. by apply lookup_app_l. Qed.
Lemma h0_new : h0 !! new = Some (_Node.mk v (replicate (S lvl) None)).
Proof. by apply list_lookup_middle. Qed.
Lemma height_old a : (a < new)%nat → height h0 a = height (SkipList.heap s) a.
Proof. intros Ha. unfold height. by rewrite h0_old. Qed.
Lemma height_new : height h0 new = S lvl.
Proof. unfold height. rewrite h0_new. cbn. by rewrite length_replicate. Qed.
Lemma new_fresh : new ∉ 0%nat :: L.
Proof.
  intros [Hin|Hin]%elem_of_cons.
  - pose proof (sl_count s L Hs). unfold new in Hin. lia.
  - pose proof (sl_dom s L Hs _ Hin). unfold new in *. lia.
Qed.
Lemma tall_old i (l : list nat) : (∀ a, a ∈ l → a ∈ L) →
  filter (tall h0 i) l = filter (tall (SkipList.heap s) i) l.
Proof.
  intros Hl. apply filter_ext_in. intros a Ha. unfold tall.
  by rewrite (height_old a (sl_dom s L Hs a (Hl a Ha))).
Qed.

(** The lanes below [k] go through the new node, the others do not yet. *)
Definition spliced (k : nat) (h : list _Node.t) : Prop :=
  length h = S new ∧ (∀ a, val h a = val h0 a) ∧ (∀ a, height h a = height h0 a)
  ∧ ∀ i, (i <= _MAX_LEVEL)%nat →
      lane h i 0 (filter (tall h0 i) P ++ (if decide (i < k)%nat then [new] else [])
                    ++ filter (tall h0 i) Q) None.

Lemma is_Some_fwd h a i : is_Some (fwd h a i) ↔ (i < height h a)%nat.
Proof.
  unfold fwd, height. destruct (h !! a); cbn; [apply lookup_lt_is_Some|].
  split; [by intros []|lia].
Qed.

Lemma splice_run update n k h :
  (∀ i, (i <= lvl)%nat → update !! i = Some (end_of 0 (filter (tall h0 i) P))) →
  spliced k h → (k + n = S lvl)%nat →
  ∃ h', SkipList.splice new update (seq k n) h = Ok h' ∧ spliced (S lvl) h'.
Proof.
  intros Hupd. revert k h. induction n as [|n IH]; intros k h Hsp Hk; cbn [seq SkipList.splice].
  { exists h. split; [done|]. by replace (S lvl) with k by lia. }
  pose proof Hsp as (Hlen & Hval & Hht & Hlanes).
  assert (Hsub : ∀ a, a ∈ filter (tall h0 k) P ++ filter (tall h0 k) Q → a ∈ L).
  { intros a. rewrite HL, !elem_of_app, !list_elem_of_filter. tauto. }
  pose proof (Hlanes k ltac:(lia)) as Hlane. rewrite decide_False in Hlane by lia. cbn [app] in Hlane.
  pose proof (sl_nodup s L Hs) as Hnd.
  destruct (lane_link h k 0 new _ _ Hlane) as [Hafter Hlink].
  - rewrite <- filter_app, <- HL. inversion Hnd as [|? ? H0 HndL]; subst. constructor.
    + intros [_ Hin]%list_elem_of_filter. done.
    + by apply NoDup_filter.
  - intros [Heq|Hin]%elem_of_cons; apply new_fresh; [rewrite Heq; by left|right; by apply Hsub].
  - apply is_Some_fwd. rewrite Hht, height_new. lia.
  - unfold item. rewrite Hupd by lia. cbn [mbind result_bind]. rewrite Hafter.
    apply IH; [|lia]. split_and!.
    + by rewrite !length_set.
    + intros a. by rewrite !val_set.
    + intros a. by rewrite !height_set.
    + intros i Hi. destruct (decide (i = k)) as [->|Hne].
      * rewrite decide_True by lia. exact Hlink.
      * apply lane_frame; [by left|]. apply lane_frame; [by left|].
        specialize (Hlanes i Hi). destruct (decide (i < k)%nat);
          [rewrite decide_True by lia|rewrite decide_False by lia]; done.
Qed.
End insert.

Lemma splice_inv s L P Q v lvl update :
  sl_inv s L → L = P ++ Q → (lvl <= _MAX_LEVEL)%nat →
  (∀ a, a ∈ P → val (SkipList.heap s) a < v) → (∀ a, a ∈ Q → v < val (SkipList.heap s) a) →
  (∀ i, (i <= lvl)%nat → update !! i = Some (before s P i)) →
  ∃ heap', SkipList.splice (length (SkipList.heap s)) update (seq 0 (S lvl))
             (SkipList.heap s ++ [_Node.mk v (replicate (S lvl) None)]) = Ok heap'
    ∧ ∀ c k, sl_inv (SkipList.mk c k (SkipList.level s `max` lvl)%nat heap')
               (P ++ length (SkipList.heap s) :: Q)
    ∧ val heap' <$> P ++ length (SkipList.heap s) :: Q
      = (val (SkipList.heap s) <$> P) ++ v :: (val (SkipList.heap s) <$> Q).
Proof.
  intros Hs HL Hlvl HP HQ Hupd.
  pose proof (λ a Ha, sl_dom s L Hs a Ha) as Hdom. pose proof (sl_nodup s L Hs) as Hnd.
  pose proof (new_fresh s L lvl Hs Hlvl) as Hnew.
  assert (HinP : ∀ a, a ∈ P → a ∈ L) by (intros; rewrite HL; apply elem_of_app; by left).
  assert (HinQ : ∀ a, a ∈ Q → a ∈ L) by (intros; rewrite HL; apply elem_of_app; by right).
  set (new := length (SkipList.heap s)) in *.
  set (h0 := SkipList.heap s ++ [_Node.mk v (replicate (S lvl) None)]).
  assert (HtP : ∀ i, filter (tall h0 i) P = filter (tall (SkipList.heap s) i) P)
    by (intros i; by apply (tall_old s L v lvl Hs)).
  assert (HtQ : ∀ i, filter (tall h0 i) Q = filter (tall (SkipList.heap s) i) Q)
    by (intros i; by apply (tall_old s L v lvl Hs)).
  destruct (splice_run s L P Q v lvl Hs HL Hlvl update (S lvl) 0 h0) as (h' & Hrun & Hlen & Hval & Hht & Hlanes).
  - intros i Hi. fold h0. rewrite HtP. by apply Hupd.
  - split_and!; [|done|done|].
    + unfold h0. rewrite length_app. cbn. unfold new. lia.
    + intros i Hi. fold h0. rewrite decide_False by lia. cbn [app]. rewrite HtP, HtQ, <- filter_app, <- HL.
      apply lane_snoc. by apply (sl_lanes s L Hs).
  - lia.
  - exists h'. fold new h0 in Hrun, Hlen, Hval, Hht, Hlanes. split; [exact Hrun|].
    assert (Hv : ∀ a, a ∈ L → val h' a = val (SkipList.heap s) a).
    { intros a Ha. rewrite Hval. unfold val, h0. by rewrite lookup_app_l by (by apply Hdom). }
    assert (Hvn : val h' new = v).
    { rewrite Hval. unfold val. pose proof (h0_new s v lvl) as Hn. fold new h0 in Hn. by rewrite Hn. }
    assert (Hh : ∀ a, a ∈ L → height h' a = height (SkipList.heap s) a).
    { intros a Ha. rewrite Hht. by apply (height_old s v lvl), Hdom. }
    assert (Hhn : height h' new = S lvl) by (rewrite Hht; apply (height_new s v lvl)).
    assert (Hin : ∀ a, a ∈ P ++ new :: Q → a = new ∨ a ∈ L).
    { intros a. rewrite HL, !elem_of_app, elem_of_cons. tauto. }
    intros c k. split.
    + split; cbn [SkipList.heap SkipList.level].
      * rewrite Hht. unfold h0. rewrite (height_old s v lvl); [apply (sl_head s L Hs)|].
        rewrite (sl_count s L Hs). lia.
      * rewrite <- (Permutation_middle P Q new : _ ≡ₚ P ++ new :: Q), <- HL.
        rewrite (Permutation_swap new 0%nat L). by constructor.
      * rewrite Hlen. unfold new. rewrite (sl_count s L Hs), HL, !length_app. cbn. lia.
      * intros a [->|Ha]%Hin; rewrite Hlen; [lia|]. specialize (Hdom a Ha). unfold new. lia.
      * intros a [->|Ha]%Hin; [rewrite Hhn; lia|]. rewrite Hh by done.
        pose proof (sl_height s L Hs a Ha). lia.
      * pose proof (sl_level s L Hs). lia.
      * pose proof (sl_sorted s L Hs) as Hsort. rewrite HL in Hsort.
        assert (Hmono : ∀ l, (∀ a, a ∈ l → a ∈ L) →
          StronglySorted (λ a b, val (SkipList.heap s) a < val (SkipList.heap s) b) l →
          StronglySorted (λ a b, val h' a < val h' b) l).
        { intros l Hl. induction 1 as [|a l Hsl IH Ha]; constructor.
          - apply IH. intros b Hb. apply Hl. by right.
          - rewrite Forall_forall in *. intros b Hb. rewrite !Hv by (apply Hl; by (left || right)).
            by apply Ha. }
        apply StronglySorted_app_2.
        -- intros a b Ha [->|Hb]%elem_of_cons.
           ++ rewrite Hvn, Hv by auto. by apply HP.
           ++ rewrite !Hv by auto. specialize (HP a Ha). specialize (HQ b Hb). lia.
        -- apply Hmono; [done|]. by apply StronglySorted_app_1_l in Hsort.
        -- constructor.
           ++ apply Hmono; [done|]. by apply StronglySorted_app_1_r in Hsort.
           ++ rewrite Forall_forall. intros b Hb. rewrite Hvn, Hv by auto. by apply HQ.
      * intros i Hi. specialize (Hlanes i Hi).
        assert (∀ l : list nat, filter (tall h' i) l = filter (tall h0 i) l) as Hft.
        { intros l. apply filter_ext_in. intros a _. unfold tall. by rewrite Hht. }
        rewrite Hft, filter_app. destruct (decide (i < S lvl)%nat) as [Hil|Hil].
        -- rewrite filter_cons_True by (unfold tall; rewrite <- Hht, Hhn; done). exact Hlanes.
        -- rewrite filter_cons_False by (unfold tall; rewrite <- Hht, Hhn; done). exact Hlanes.
    + rewrite fmap_app, fmap_cons, Hvn. f_equal; [|f_equal];
        apply list_fmap_ext; intros ? a Ha%list_elem_of_lookup_2; by apply Hv; auto.
Qed.

Lemma sl_inv_make coin : sl_inv (SkipList.make coin) [].
Proof.
  split; cbn [SkipList.make SkipList.heap SkipList.level]; [done| |done|..].
  - apply NoDup_singleton.
  - by intros a ?%elem_of_nil.
  - by intros a ?%elem_of_nil.
  - lia.
  - constructor.
  - intros i Hi. change (replicate (_MAX_LEVEL + 1) (@None nat) !! i = Some None).
    apply lookup_replicate_2. lia.
Qed.

(** the values of the list, in order *)
Definition sl_values (s : SkipList.t) (L : list nat) : list Z := val (SkipList.heap s) <$> L.

Lemma descend_start s L P Q v update :
  sl_inv s L → L = P ++ Q →
  (∀ a, a ∈ P → val (SkipList.heap s) a < v) → (∀ a, a ∈ Q → v <= val (SkipList.heap s) a) →
  ∃ update', SkipList.descend (SkipList.heap s) v (S (SkipList.level s)) 0 update
             = Ok (before s P 0, update')
    ∧ ∀ i, (i < length update)%nat →
        update' !! i = if decide (i < S (SkipList.level s))%nat then Some (before s P i) else update !! i.
Proof.
  intros Hs HL HP HQ. pose proof (sl_level s L Hs).
  destruct (descend_run s L P Q v Hs HL HP HQ (S (SkipList.level s)) 0 update)
    as (update' & Hrun & _ & Hupd); [lia| |by exists update'].
  intros i Hi. by exists [], (filter (tall (SkipList.heap s) i) P).
Qed.

Lemma insert_run s L v :
  sl_inv s L →
  ∃ s' L', SkipList.insert v s = (s', Ok ()) ∧ sl_inv s' L'
    ∧ ∀ x, x ∈ sl_values s' L' ↔ x = v ∨ x ∈ sl_values s L.
Proof.
  intros Hs. destruct (sorted_split (val (SkipList.heap s)) v L (sl_sorted s L Hs)) as (P & Q & HL & HP & HQ).
  unfold SkipList.insert. rewrite bind_get.
  destruct (descend_start s L P Q v (replicate (_MAX_LEVEL + 1) 0%nat) Hs HL HP HQ)
    as (update & -> & Hupd).
  rewrite bind_pure_of, (found_after_run s L P Q v Hs HL HP HQ), bind_pure_of.
  case_bool_decide as Hin.
  { exists s, L. split_and!; [done|done|]. intros x. split; [by right|by intros [->|]]. }
  destruct (height_run s) as (k & lvl & Hh & Hlvl). rewrite bind_run, Hh, bind_get.
  cbn [SkipList.coin SkipList.flips SkipList.level SkipList.heap].
  destruct (splice_inv s L P Q v lvl update Hs HL Hlvl HP) as (h' & Hsp & Hinv).
  - intros a Ha. specialize (HQ a Ha). assert (val (SkipList.heap s) a ≠ v); [|lia].
    intros <-. apply Hin, list_elem_of_fmap_2. rewrite HL. apply elem_of_app. by right.
  - intros i Hi. rewrite Hupd by (rewrite length_replicate; lia). case_decide as Hd; [done|].
    rewrite lookup_replicate_2 by lia. f_equal. unfold before.
    replace (filter (tall (SkipList.heap s) i) P) with (@nil nat); [done|].
    symmetry. apply elem_of_nil_inv. intros a [Ht Ha]%list_elem_of_filter.
    pose proof (sl_height s L Hs a) as Hht. unfold tall in Ht.
    specialize (Hht ltac:(rewrite HL; apply elem_of_app; by left)). lia.
  - rewrite bind_pure_of, Hsp. eexists _, _. split; [reflexivity|].
    destruct (Hinv (SkipList.coin s) (SkipList.flips s + k)%nat) as [Hinv' Hvals].
    split; [exact Hinv'|]. intros x. unfold sl_values. cbn [SkipList.heap]. rewrite Hvals, HL, fmap_app.
    rewrite !elem_of_app, elem_of_cons. tauto.
Qed.

(** ** Walking the lowest lane *)

Abbreviation nodes_of h := (Forall2 (λ a n, h !! a = Some n)).

Lemma walk_loop h l nodes out fuel :
  lane_tail h 0 l → nodes_of h l nodes → (length l < fuel)%nat →
  loop (SkipList.walk_round h) fuel (head l, out) = Ok (out ++ nodes).
Proof.
  intros Hlane Hn. revert out fuel Hlane.
  induction Hn as [|a n l nodes Ha Hn IH]; intros out [|fuel] Hlane Hfuel;
    [cbn in Hfuel; lia|cbn; by rewrite app_nil_r|cbn in Hfuel; lia|].
  cbn [loop head SkipList.walk_round]. unfold item. rewrite Ha. cbn [mbind result_bind].
  apply (lane_app h 0 a [] l) in Hlane as [Hf Hlane]. cbn [lane] in Hf.
  unfold fwd in Hf. rewrite Ha in Hf. cbn in Hf. rewrite Hf. cbn [mbind result_bind].
  rewrite IH; [by rewrite <- app_assoc|done|cbn in Hfuel; lia].
Qed.

Lemma walk_run s L :
  sl_inv s L → ∃ nodes, nodes_of (SkipList.heap s) L nodes ∧ SkipList.walk s = Ok nodes.
Proof.
  intros Hs.
  assert (∃ nodes, nodes_of (SkipList.heap s) L nodes) as [nodes Hn].
  { pose proof (sl_dom s L Hs) as Hdom. clear Hs. induction L as [|a L IH]; [by exists []|].
    destruct IH as [nodes Hn]; [intros b Hb; apply Hdom; by right|].
    destruct (lookup_lt_is_Some_2 (SkipList.heap s) a) as [n Ha]; [apply Hdom; by left|].
    exists (n :: nodes). by constructor. }
  exists nodes. split; [done|]. unfold SkipList.walk.
  pose proof (sl_lanes s L Hs 0 ltac:(unfold _MAX_LEVEL; lia)) as Hlane.
  rewrite list_filter_all in Hlane.
  2:{ intros a Ha. pose proof (sl_height s L Hs a Ha). unfold tall. lia. }
  apply (lane_app _ 0 0 [] L) in Hlane as [Hf Hlane]. cbn [lane] in Hf.
  apply forward_at_fwd in Hf. rewrite Hf. cbn [mbind result_bind].
  rewrite (walk_loop _ _ nodes) by (try done; rewrite (sl_count s L Hs); lia). done.
Qed.

Lemma nodes_values h l nodes : nodes_of h l nodes → _Node.value <$> nodes = val h <$> l.
Proof.
  induction 1 as [|a n l nodes Ha _ IH]; [done|]. rewrite !fmap_cons, IH. f_equal.
  unfold val. by rewrite Ha.
Qed.

Lemma count_levels_run nodes counts :
  Forall (λ n, 1 <= zlen (_Node.forward n) <= zlen counts) nodes →
  ∃ counts', SkipList.count_levels nodes counts = Ok counts' ∧ zlen counts' = zlen counts
    ∧ zsum id counts' = zsum id counts + zlen nodes
    ∧ (Forall (λ c, 0 <= c) counts → Forall (λ c, 0 <= c) counts').
Proof.
  revert counts. induction nodes as [|n nodes IH]; intros counts Hall; cbn [SkipList.count_levels].
  { exists counts. split_and!; [done|done|rewrite zlen_nil; lia|done]. }
  inversion Hall as [|? ? Hn Hall']; subst.
  destruct (lookup_lt_is_Some_2 counts (Z.to_nat (zlen (_Node.forward n) - 1))) as [c Hc].
  { unfold zlen in *. lia. }
  rewrite (py_index_nonneg _ _ c) by (done || lia). cbn [mbind result_bind].
  unfold py_setitem. rewrite (py_pos_nonneg _ _ c) by (done || lia). cbn [mbind result_bind].
  set (k := Z.to_nat _) in *.
  assert (Hlen : zlen (<[k:=c + 1]> counts) = zlen counts) by (unfold zlen; by rewrite length_insert).
  destruct (IH (<[k:=c + 1]> counts)) as (counts' & Hrun & Hlen' & Hsum & Hpos).
  { by rewrite Hlen. }
  exists counts'. split_and!; [done|lia| |].
  - rewrite Hsum, zlen_cons. rewrite <- (take_drop_middle counts k c Hc) at 2.
    rewrite (insert_take_drop counts k) by (by eapply lookup_lt_Some).
    rewrite !zsum_app. unfold zsum. cbn. lia.
  - intros H0. apply Hpos. apply Forall_insert; [done|]. rewrite Forall_lookup in H0.
    specialize (H0 k c Hc). lia.
Qed.

Lemma any_count (counts : list Z) :
  Forall (λ c, 0 <= c) counts → existsb (λ c, negb (c =? 0)) counts = negb (zsum id counts =? 0).
Proof.
  induction 1 as [|c counts Hc Hpos IH]; [done|].
  assert (Hsum : zsum id (c :: counts) = c + zsum id counts) by done. cbn [existsb].
  rewrite IH, Hsum. pose proof (zsum_nonneg id counts ltac:(by rewrite <- Forall_forall)) as Hn.
  destruct (Z.eqb_spec c 0), (Z.eqb_spec (zsum id counts) 0), (Z.eqb_spec (c + zsum id counts) 0);
    cbn; lia || done.
Qed.

Lemma level_counts_run s L :
  sl_inv s L →
  match SkipList.level_counts s with
  | Ok counts => L ≠ [] ∧ zlen counts = Z.of_nat (SkipList.level s) + 1 ∧ zsum id counts = zlen L
  | Err e => e = Invalid ∧ L = []
  end.
Proof.
  intros Hs. destruct (walk_run s L Hs) as (nodes & Hn & Hw). unfold SkipList.level_counts.
  rewrite Hw. cbn [mbind result_bind].
  destruct (count_levels_run nodes (replicate (S (SkipList.level s)) 0)) as (counts & -> & Hlen & Hsum & Hpos).
  { rewrite Forall_forall. intros n Hin. apply list_elem_of_lookup in Hin as [j Hj].
    destruct (Forall2_lookup_r _ _ _ _ _ Hn Hj) as (a & Ha & Hha).
    pose proof (sl_height s L Hs a (list_elem_of_lookup_2 _ _ _ Ha)) as Hh.
    unfold height in Hh. rewrite Hha in Hh. cbn [from_option] in Hh.
    unfold zlen. rewrite length_replicate. lia. }
  cbn [mbind result_bind].
  assert (Hz : zsum id (replicate (S (SkipList.level s)) 0) = 0).
  { generalize (S (SkipList.level s)). intros m. unfold zsum. induction m as [|m IH]; [done|exact IH]. }
  assert (zlen nodes = zlen L) as Hnl by (unfold zlen; by rewrite (Forall2_length _ _ _ Hn)).
  specialize (Hpos ltac:(apply Forall_replicate; done)).
  rewrite (any_count counts Hpos), Hsum, Hz, Hnl. pose proof (zlen_zero L).
  destruct (Z.eqb_spec (0 + zlen L) 0) as [Hl|Hl]; cbn [negb]; [split; [done|apply H; lia]|].
  split_and!; [|rewrite Hlen; unfold zlen; rewrite length_replicate; lia|lia].
  by intros ->.
Qed.

(** C16 (refinement): whatever the coin shows, a skip list is the sorted set of the integers
    inserted: after any sequence of insertions (each of which succeeds, duplicates included)
    [in_order] walks the values in strictly increasing order and lists exactly those inserted,
    and [search] finds a value exactly when it was inserted. [level_counts] counts every value
    once, over as many levels as the list has, and refuses only the empty list. No descent,
    walk or sequence of coin tosses runs forever. *)
Theorem skip_list_sorted_set (coin : nat → bool) (vs : list Z) :
  let s := run sl_step vs (SkipList.make coin) in
  ∃ out, SkipList.in_order s = Ok out
    ∧ StronglySorted Z.lt out ∧ (∀ x, x ∈ out ↔ x ∈ vs)
    ∧ (∀ x, SkipList.search s x = Ok (bool_decide (x ∈ vs)))
    ∧ (∀ x, value_of (SkipList.insert x) s = Ok ())
    ∧ match SkipList.level_counts s with
      | Ok counts => zlen counts = Z.of_nat (SkipList.level s) + 1 ∧ zsum id counts = zlen out
      | Err e => e = Invalid ∧ vs = []
      end.
Proof.
  intros s.
  assert (∃ L, sl_inv s L ∧ ∀ x, x ∈ sl_values s L ↔ x ∈ vs) as (L & Hs & Hvals).
  { subst s. unfold run. induction vs as [|v vs IH] using rev_ind.
    - exists []. split; [apply sl_inv_make|done].
    - destruct IH as (L & Hs & Hvals). rewrite foldl_app. cbn [foldl].
      set (t := foldl _ _ vs) in *.
      destruct (insert_run t L v Hs) as (s' & L' & Hrun & Hs' & Hvals').
      exists L'. unfold sl_step, state_of. rewrite Hrun. split; [done|]. intros x.
      rewrite Hvals', Hvals, elem_of_app, list_elem_of_singleton. tauto. }
  destruct (walk_run s L Hs) as (nodes & Hn & Hw). exists (sl_values s L). split_and!.
  - unfold SkipList.in_order. rewrite Hw. cbn [mbind result_bind]. by rewrite (nodes_values _ _ _ Hn).
  - pose proof (sl_sorted s L Hs) as Hsort. unfold sl_values. clear - Hsort.
    induction Hsort as [|a L Hsl IH Ha]; cbn; constructor; [done|].
    rewrite Forall_fmap. exact Ha.
  - done.
  - intros x. destruct (sorted_split (val (SkipList.heap s)) x L (sl_sorted s L Hs)) as (P & Q & HL & HP & HQ).
    unfold SkipList.search. destruct (descend_start s L P Q x [] Hs HL HP HQ) as (u & -> & _).
    cbn [mbind result_bind fst]. rewrite (found_after_run s L P Q x Hs HL HP HQ). f_equal.
    apply bool_decide_ext. apply Hvals.
  - intros x. destruct (insert_run s L x Hs) as (s' & L' & Hrun & _). unfold value_of. by rewrite Hrun.
  - pose proof (level_counts_run s L Hs) as Hc. destruct (SkipList.level_counts s) as [counts|e].
    + destruct Hc as (_ & H1 & H2). split; [done|]. unfold sl_values, zlen in *. by rewrite length_fmap.
    + destruct Hc as [-> ->]. split; [done|]. apply elem_of_nil_inv. intros x Hx%Hvals.
      by apply elem_of_nil in Hx.
Qed.
