(* ===== verification/Stores.v ===== *)
(** * Storage engines beside the segment log

    [relay/lsmtree.py] and [relay/bitcask.py] keep a dictionary on append-only files;
    both implement the interface [KVStore], against which their clients are verified.
    [relay/lrucache.py] keeps the most recently used part of one. *)

From S2P Require Import Prelude PyDict PyBytes.

Module lsmtree.
(** [relay/lsmtree.py:36] _TOMBSTONE: a stored object is a string or the tombstone *)
Inductive stored := Live (value : string) | _TOMBSTONE.
#[export] Instance stored_eq_dec : EqDecision stored.
Proof. solve_decision. Defined.

Module LSMTree.
(** [relay/lsmtree.py] class LSMTree *)
Record t := mk {
  memtable_limit : Z;
  memtable : pydict string stored;
  runs : list (pydict string stored);
}.

(** [relay/lsmtree.py] LSMTree.__post_init__ *)
Definition make (memtable_limit : Z) : result t :=
  if memtable_limit <? 1 then Err Invalid else Ok (mk memtable_limit [] []).

(** [relay/lsmtree.py] LSMTree.flush: the number of runs in the message *)
Definition flush : act t Z :=
  self ← get;
  raise_if (bool_decide (memtable self = [])) Invalid;;
  put (mk (memtable_limit self) [] (runs self ++ [memtable self]));;
  mret (zlen (runs self) + 1).

(** [relay/lsmtree.py] LSMTree.put *)
Definition put (key value : string) : act t unit :=
  modify (λ self, mk (memtable_limit self) (d_set (memtable self) key (Live value)) (runs self));;
  self ← get;
  if memtable_limit self <=? zlen (memtable self) then flush;; mret () else mret ().

(** [relay/lsmtree.py] LSMTree.delete *)
Definition delete (key : string) : act t unit :=
  modify (λ self, mk (memtable_limit self) (d_set (memtable self) key _TOMBSTONE) (runs self)).

(** [relay/lsmtree.py:69-72] LSMTree.get *)
Fixpoint search_runs (key : string) (runs : list (pydict string stored)) : option stored :=
  match runs with
  | [] => None
  | run :: runs => match d_get run key with Some v => Some v | None => search_runs key runs end
  end.

(** [relay/lsmtree.py] LSMTree.get *)
Definition get (self : t) (key : string) : result string :=
  let value :=
    match d_get (memtable self) key with
    | Some v => Some v
    | None => search_runs key (rev (runs self))
    end in
  match value with
  | Some (Live v) => Ok v
  | Some _TOMBSTONE | None => Err Missing
  end.

(** [relay/lsmtree.py] LSMTree.compact: the two counts in the message *)
Definition compact : act t (Z * Z) :=
  self ← Prelude.get;
  let merged := foldl d_update [] (runs self) in
  let merged := filter (λ p, p.2 ≠ _TOMBSTONE) merged in
  let after := match merged with [] => [] | _ => [merged] end in
  Prelude.put (mk (memtable_limit self) (memtable self) after);;
  mret (zlen (runs self), zlen after).

(** [relay/lsmtree.py] LSMTree.read_fanout: the number of runs in the message *)
Definition read_fanout (self : t) : Z := zlen (runs self).
End LSMTree.
End lsmtree.
Import lsmtree.

Module bitcask.
Module Bitcask.
(** [relay/bitcask.py] class Bitcask *)
Record t := mk { log : list (string * stored); index : pydict string Z }.

Definition make : t := mk [] [].

(** [relay/bitcask.py] Bitcask.put *)
Definition put (key value : string) : act t Z :=
  self ← get;
  let offset := zlen (log self) in
  Prelude.put (mk (log self ++ [(key, Live value)]) (d_set (index self) key offset));;
  mret offset.

(** [relay/bitcask.py] Bitcask.get *)
Definition get (self : t) (key : string) : result string :=
  match d_get (index self) key with
  | None => Err Missing
  | Some offset =>
      match py_index (log self) offset with
      | Err e => Err e
      | Ok (_, Live value) => Ok value
      | Ok (_, _TOMBSTONE) => Err Missing
      end
  end.

(** [relay/bitcask.py] Bitcask.delete *)
Definition delete (key : string) : act t unit :=
  self ← Prelude.get;
  raise_if (negb (d_mem (index self) key)) Missing;;
  Prelude.put (mk (log self ++ [(key, _TOMBSTONE)]) (d_del (index self) key)).

(** [relay/bitcask.py:67-69] Bitcask.compact *)
Fixpoint rewrite_live (log : list (string * stored)) (entries : pydict string Z)
    (new_log : list (string * stored)) (new_index : pydict string Z) :
    result (list (string * stored) * pydict string Z) :=
  match entries with
  | [] => Ok (new_log, new_index)
  | (key, offset) :: entries =>
      e ← py_index log offset;
      rewrite_live log entries (new_log ++ [e]) (d_set new_index key (zlen new_log))
  end.

(** [relay/bitcask.py] Bitcask.compact: the two counts in the message *)
Definition compact : act t (Z * Z) :=
  self ← Prelude.get;
  new ← pure_of (rewrite_live (log self) (index self) [] []);
  let '(new_log, new_index) := new in
  Prelude.put (mk new_log new_index);;
  mret (zlen (log self), zlen new_log).

(** [relay/bitcask.py] Bitcask.dead_ratio: the dead and total counts in the message; no pair
    for the empty log *)
Definition dead_ratio (self : t) : option (Z * Z) :=
  let total := zlen (log self) in
  if total =? 0 then None
  else let live := zlen (index self) in Some (total - live, total).
End Bitcask.
End bitcask.
Import bitcask.

(** ** The interface

    A key-value store keeps a finite map from keys to values.  Writing inserts, deleting
    deletes (or raises when the store refuses to delete an absent key), and the store's own
    maintenance changes nothing of the map. *)

Class KVStore (S : Type) := {
  kv_ok : S → Prop;
  kv_map : S → gmap string string;
  kv_put : string → string → act S unit;
  kv_delete : string → act S unit;
  kv_maintain : bool → act S unit;
  kv_get : S → string → result string;
  kv_put_spec s k v : kv_ok s → ∃ s', kv_put k v s = (s', Ok ()) ∧ kv_ok s'
    ∧ kv_map s' = <[k := v]> (kv_map s);
  kv_delete_spec s k : kv_ok s → ∃ s' r, kv_delete k s = (s', r) ∧ kv_ok s'
    ∧ kv_map s' = delete k (kv_map s)
    ∧ (r = Ok () ∨ r = Err Missing ∧ kv_map s !! k = None);
  kv_maintain_spec s b : kv_ok s → ∃ s' r, kv_maintain b s = (s', r) ∧ kv_ok s' ∧ kv_map s' = kv_map s;
  kv_get_spec s k : kv_ok s →
    kv_get s k = match kv_map s !! k with Some v => Ok v | None => Err Missing end;
}.

(** ** The log-structured merge tree *)

Definition live (v : stored) : option string :=
  match v with Live v => Some v | _TOMBSTONE => None end.

(** oldest to newest, the memtable last *)
Definition layers (s : LSMTree.t) : list (pydict string stored) := LSMTree.runs s ++ [LSMTree.memtable s].

Definition lsm_ok (s : LSMTree.t) : Prop := 1 <= LSMTree.memtable_limit s ∧ Forall d_wf (layers s).
Definition lsm_map (s : LSMTree.t) : gmap string string := omap live (d_map (foldl d_update [] (layers s))).

Lemma d_get_layers ds k : Forall d_wf ds →
  d_get (foldl d_update [] ds) k = LSMTree.search_runs k (rev ds).
Proof.
  intros Hds. induction ds as [|d ds IH] using rev_ind; [done|].
  apply Forall_app in Hds as [Hds Hd]. inversion Hd; subst.
  rewrite foldl_app, rev_app_distr. cbn [foldl rev app LSMTree.search_runs].
  rewrite d_get_update by done. by rewrite IH.
Qed.

Lemma layers_wf ds : d_wf (foldl d_update ([] : pydict string stored) ds).
Proof.
  assert (Hgo : ∀ d : pydict string stored, d_wf d → d_wf (foldl d_update d ds)).
  { induction ds as [|d' ds IH]; intros d Hd; [done|]. by apply IH, d_wf_update. }
  apply Hgo, d_wf_nil.
Qed.

Lemma lsm_map_lookup s k : lsm_ok s →
  lsm_map s !! k = (match d_get (LSMTree.memtable s) k with
                    | Some v => Some v
                    | None => LSMTree.search_runs k (rev (LSMTree.runs s))
                    end) ≫= live.
Proof.
  intros [_ Hs]. unfold lsm_map. rewrite lookup_omap, d_map_lookup, d_get_layers by done.
  unfold layers. by rewrite rev_app_distr.
Qed.

(** Writing to the memtable. *)
Lemma lsm_write s k v limit : lsm_ok s → limit = LSMTree.memtable_limit s →
  let s' := LSMTree.mk limit (d_set (LSMTree.memtable s) k v) (LSMTree.runs s) in
  lsm_ok s' ∧ ∀ k', lsm_map s' !! k' = if decide (k' = k) then live v else lsm_map s !! k'.
Proof.
  intros Hs -> s'. assert (lsm_ok s') as Hs'.
  { destruct Hs as [Hl Hs]. split; [done|]. unfold layers in *. apply Forall_app in Hs as [H1 H2].
    inversion H2; subst. apply Forall_app. split; [done|]. constructor; [by apply d_wf_set|done]. }
  split; [done|]. intros k'. rewrite !lsm_map_lookup by done. cbn [s' LSMTree.memtable LSMTree.runs].
  rewrite d_get_set. case_decide; case_bool_decide; done.
Qed.

(** A flush moves the memtable on top of the runs. *)
Lemma lsm_flush s : lsm_ok s →
  let s' := LSMTree.mk (LSMTree.memtable_limit s) [] (layers s) in lsm_ok s' ∧ lsm_map s' = lsm_map s.
Proof.
  intros Hs s'. assert (lsm_ok s') as Hs'.
  { destruct Hs as [Hl Hs]. split; [done|]. unfold layers at 1. cbn. apply Forall_app. split; [done|].
    constructor; [apply d_wf_nil|done]. }
  split; [done|]. apply map_eq. intros k. rewrite !lsm_map_lookup by done.
  cbn [s' LSMTree.memtable LSMTree.runs d_get]. unfold layers. by rewrite rev_app_distr.
Qed.

Lemma lsm_compact s : lsm_ok s →
  let s' := state_of LSMTree.compact s in lsm_ok s' ∧ lsm_map s' = lsm_map s.
Proof.
  intros Hs s'. pose proof (layers_wf (LSMTree.runs s)) as Hwf.
  set (merged := filter (λ p : string * stored, p.2 ≠ _TOMBSTONE) (foldl d_update [] (LSMTree.runs s))).
  assert (Hmem : d_wf (LSMTree.memtable s) ∧ Forall d_wf (LSMTree.runs s)).
  { destruct Hs as [_ Hs]. apply Forall_app in Hs as [H1 H2]. by inversion H2. }
  assert (Hmwf : d_wf merged).
  { unfold d_wf, d_keys in *. eapply sublist_NoDup; [exact Hwf|]. apply fmap_sublist, sublist_filter. }
  assert (Hsearch : ∀ k, LSMTree.search_runs k (rev (LSMTree.runs s')) = d_get merged k).
  { intros k. change (LSMTree.runs s') with (match merged with [] => [] | _ => [merged] end).
    destruct merged; [done|]. cbn [rev app LSMTree.search_runs]. by destruct (d_get _ k). }
  assert (lsm_ok s') as Hs'.
  { split; [apply Hs|]. unfold layers. apply Forall_app. split.
    - change (LSMTree.runs s') with (match merged with [] => [] | _ => [merged] end).
      destruct merged; [done|]. by constructor.
    - constructor; [apply Hmem|done]. }
  split; [done|]. apply map_eq. intros k. rewrite !lsm_map_lookup by done.
  change (LSMTree.memtable s') with (LSMTree.memtable s). rewrite Hsearch.
  destruct (d_get (LSMTree.memtable s) k); [done|].
  pose proof (d_get_filter (λ v, v ≠ _TOMBSTONE) (foldl d_update [] (LSMTree.runs s)) k Hwf) as Hf.
  cbn beta in Hf. fold merged in Hf. rewrite Hf, d_get_layers by apply Hmem.
  destruct (LSMTree.search_runs k _) as [[v|]|]; [|by case_decide|done].
  by rewrite decide_True.
Qed.

#[global] Program Instance lsm_store : KVStore LSMTree.t := {|
  kv_ok := lsm_ok;
  kv_map := lsm_map;
  kv_put := LSMTree.put;
  kv_delete := LSMTree.delete;
  kv_maintain b := if b then LSMTree.flush;; mret () else LSMTree.compact;; mret ();
  kv_get := LSMTree.get;
|}.
Next Obligation.
  intros s k v Hs. destruct (lsm_write s k (Live v) _ Hs eq_refl) as [Hs' Hmap].
  set (s' := LSMTree.mk _ _ _) in *. unfold LSMTree.put. rewrite bind_modify, bind_get. fold s'.
  assert (Heq : lsm_map s' = <[k := v]> (lsm_map s)).
  { apply map_eq. intros k'. rewrite Hmap, lookup_insert. repeat case_decide; subst; done. }
  destruct (_ <=? _); [|by exists s'].
  destruct (lsm_flush s' Hs') as [Hs'' Hmap'].
  exists (LSMTree.mk (LSMTree.memtable_limit s') [] (layers s')). split_and!; [|done|congruence].
  unfold LSMTree.flush. rewrite bind_assoc, bind_get, bind_assoc, bind_raise_if.
  rewrite bool_decide_eq_false_2; [done|]. cbn. destruct (LSMTree.memtable s) as [|[k' v'] d]; cbn; [done|].
  by case_bool_decide.
Qed.
Next Obligation.
  intros s k Hs. destruct (lsm_write s k _TOMBSTONE _ Hs eq_refl) as [Hs' Hmap].
  eexists _, _. split_and!; [reflexivity|done| |by left].
  apply map_eq. intros k'. rewrite Hmap, lookup_delete. repeat case_decide; subst; done.
Qed.
Next Obligation.
  intros s [] Hs.
  - unfold LSMTree.flush. rewrite bind_assoc, bind_get, bind_assoc, bind_raise_if.
    case_bool_decide; [by eexists _, _|]. destruct (lsm_flush s Hs) as [? ?].
    eexists _, _. by split_and!; [reflexivity|..].
  - destruct (lsm_compact s Hs) as [? ?]. eexists _, _. by split_and!; [reflexivity|..].
Qed.
Next Obligation.
  intros s k Hs. rewrite lsm_map_lookup by done. unfold LSMTree.get.
  destruct (d_get (LSMTree.memtable s) k) as [[|]|]; [done|done|].
  by destruct (LSMTree.search_runs k _) as [[|]|].
Qed.

(** ** Bitcask *)

Definition bc_valid (log : list (string * stored)) (index : pydict string Z) : Prop :=
  ∀ k off, d_get index k = Some off → 0 <= off ∧ ∃ v, log !! Z.to_nat off = Some (k, Live v).

Definition bc_value (log : list (string * stored)) (off : Z) : option string :=
  match log !! Z.to_nat off with Some (_, v) => live v | None => None end.

Definition bc_ok (s : Bitcask.t) : Prop := d_wf (Bitcask.index s) ∧ bc_valid (Bitcask.log s) (Bitcask.index s).
Definition bc_map (s : Bitcask.t) : gmap string string :=
  omap (bc_value (Bitcask.log s)) (d_map (Bitcask.index s)).

Lemma bc_map_lookup s k : bc_map s !! k = d_get (Bitcask.index s) k ≫= bc_value (Bitcask.log s).
Proof. unfold bc_map. by rewrite lookup_omap, d_map_lookup. Qed.

(** What the index points at does not move when entries are appended. *)
Lemma bc_valid_app log index l : bc_valid log index →
  bc_valid (log ++ l) index
  ∧ ∀ k, d_get index k ≫= bc_value (log ++ l) = d_get index k ≫= bc_value log.
Proof.
  intros Hv. split.
  - intros k off Hk. destruct (Hv k off Hk) as [H0 [v Hl]]. split; [done|]. exists v.
    by apply lookup_app_l_Some.
  - intros k. destruct (d_get index k) as [off|] eqn:Hk; [|done]. cbn.
    destruct (Hv k off Hk) as [H0 [v Hl]]. unfold bc_value. by rewrite (lookup_app_l_Some _ _ _ _ Hl), Hl.
Qed.

(** Appending a live entry and pointing its key at it. *)
Lemma bc_append log index k v : d_wf index → bc_valid log index →
  let log' := log ++ [(k, Live v)] in let index' := d_set index k (zlen log) in
  d_wf index' ∧ bc_valid log' index'
  ∧ ∀ k', d_get index' k' ≫= bc_value log'
          = if bool_decide (k' = k) then Some v else d_get index k' ≫= bc_value log.
Proof.
  intros Hwf Hv log' index'. destruct (bc_valid_app log index [(k, Live v)] Hv) as [Hv' Hval].
  assert (Hnew : log' !! Z.to_nat (zlen log) = Some (k, Live v)).
  { unfold log', zlen. rewrite Nat2Z.id. by apply list_lookup_middle. }
  split_and!; [by apply d_wf_set| |].
  - intros k' off. unfold index'. rewrite d_get_set. case_bool_decide; [|apply Hv'].
    intros [= <-]. subst k'. split; [apply zlen_nonneg|]. by exists v.
  - intros k'. unfold index'. rewrite d_get_set. case_bool_decide; [|apply Hval].
    cbn. unfold bc_value. by rewrite Hnew.
Qed.

Lemma rewrite_live_spec log entries new_log new_index :
  d_wf entries → bc_valid log entries → d_wf new_index → bc_valid new_log new_index →
  ∃ log' index', Bitcask.rewrite_live log entries new_log new_index = Ok (log', index')
    ∧ d_wf index' ∧ bc_valid log' index' ∧ zlen log' = zlen new_log + zlen entries
    ∧ ∀ k, d_get index' k ≫= bc_value log'
           = match d_get entries k with Some off => bc_value log off
             | None => d_get new_index k ≫= bc_value new_log end.
Proof.
  revert new_log new_index. induction entries as [|[k off] entries IH];
    intros new_log new_index Hwf Hv Hwf' Hv'; cbn [Bitcask.rewrite_live].
  { exists new_log, new_index. split_and!; [done..|rewrite zlen_nil; lia|done]. }
  inversion Hwf as [|? ? Hk Hwf0]; subst.
  destruct (Hv k off) as [H0 [v Hl]]; [cbn; by rewrite bool_decide_eq_true_2|].
  rewrite (py_index_nonneg _ off _ H0 Hl). cbn [mbind result_bind].
  destruct (bc_append new_log new_index k v Hwf' Hv') as (Hwf1 & Hv1 & Hval1).
  destruct (IH (new_log ++ [(k, Live v)]) (d_set new_index k (zlen new_log)) Hwf0) as
    (log' & index' & -> & Hwf2 & Hv2 & Hlen & Hval); [|done|done|].
  { intros k' off' Hk'. apply Hv. cbn. rewrite bool_decide_eq_false_2; [done|].
    intros ->. apply Hk, d_get_is_Some. by exists off'. }
  exists log', index'. split_and!; [done..|rewrite Hlen, zlen_app, !zlen_cons, zlen_nil; lia|].
  intros k'. rewrite Hval, Hval1. cbn [d_get]. case_bool_decide as Hkk; [|done]. subst k'.
  rewrite (proj2 (d_get_None entries k) Hk). unfold bc_value. by rewrite Hl.
Qed.

#[global] Program Instance bitcask_store : KVStore Bitcask.t := {|
  kv_ok := bc_ok;
  kv_map := bc_map;
  kv_put k v := Bitcask.put k v;; mret ();
  kv_delete := Bitcask.delete;
  kv_maintain _ := Bitcask.compact;; mret ();
  kv_get := Bitcask.get;
|}.
Next Obligation.
  intros s k v [Hwf Hv]. destruct (bc_append _ _ k v Hwf Hv) as (Hwf' & Hv' & Hval).
  eexists. split_and!; [reflexivity|done|]. apply map_eq. intros k'.
  rewrite lookup_insert, !bc_map_lookup. cbn [Bitcask.log Bitcask.index].
  change (Bitcask.index s) with (Bitcask.index s). rewrite Hval.
  case_bool_decide; case_decide; subst; done.
Qed.
Next Obligation.
  intros s k [Hwf Hv]. unfold Bitcask.delete. rewrite bind_get, bind_raise_if, d_mem_get.
  destruct (d_get (Bitcask.index s) k) as [off|] eqn:Hk; cbn [negb].
  - eexists _, _. split_and!; [reflexivity| | |by left].
    + destruct (bc_valid_app _ _ [(k, _TOMBSTONE)] Hv) as [Hv' _]. split; [by apply d_wf_del|].
      intros k' off'. cbn [Bitcask.index Bitcask.log]. rewrite d_get_del.
      case_bool_decide; [done|]. apply Hv'.
    + apply map_eq. intros k'. rewrite lookup_delete, !bc_map_lookup. cbn [Bitcask.log Bitcask.index].
      rewrite d_get_del. case_decide.
      { by rewrite bool_decide_eq_true_2. }
      rewrite bool_decide_eq_false_2 by congruence. apply (bc_valid_app _ _ [(k, _TOMBSTONE)] Hv).
  - eexists _, _. split_and!; [reflexivity|done| |right].
    + apply map_eq. intros k'. rewrite lookup_delete, bc_map_lookup. case_decide; [subst k'|done].
      by rewrite Hk.
    + split; [done|]. by rewrite bc_map_lookup, Hk.
Qed.
Next Obligation.
  intros s _ [Hwf Hv]. unfold Bitcask.compact. rewrite bind_assoc, bind_get, bind_assoc, bind_pure_of.
  destruct (rewrite_live_spec _ _ [] [] Hwf Hv d_wf_nil) as (log' & index' & -> & Hwf' & Hv' & _ & Hval).
  { by intros k off. }
  eexists _, _. split_and!; [reflexivity|done|]. apply map_eq. intros k. rewrite !bc_map_lookup.
  cbn [Bitcask.log Bitcask.index]. rewrite Hval. by destruct (d_get (Bitcask.index s) k).
Qed.
Next Obligation.
  intros s k [Hwf Hv]. rewrite bc_map_lookup. unfold Bitcask.get.
  destruct (d_get (Bitcask.index s) k) as [off|] eqn:Hk; [|done]. cbn.
  destruct (Hv k off Hk) as [H0 [v Hl]]. rewrite (py_index_nonneg _ off _ H0 Hl).
  unfold bc_value. by rewrite Hl.
Qed.

(** ** Clients of a store *)

Inductive kv_op := Put (k v : string) | Delete (k : string) | Maintain (b : bool).

Definition kv_step {S : Type} `{!KVStore S} (op : kv_op) (s : S) : S :=
  match op with
  | Put k v => state_of (kv_put k v) s
  | Delete k => state_of (kv_delete k) s
  | Maintain b => state_of (kv_maintain b) s
  end.

(** the dictionary the operations describe *)
Definition dict_step (op : kv_op) (m : gmap string string) : gmap string string :=
  match op with Put k v => <[k := v]> m | Delete k => delete k m | Maintain _ => m end.

Lemma kv_run_map {S : Type} `{!KVStore S} ops s :
  kv_ok s → kv_ok (run kv_step ops s) ∧ kv_map (run kv_step ops s) = run dict_step ops (kv_map s).
Proof.
  unfold run. revert s. induction ops as [|op ops IH]; intros s Hs; [done|]. cbn [foldl].
  assert (kv_ok (kv_step op s) ∧ kv_map (kv_step op s) = dict_step op (kv_map s)) as [Hs' <-].
  { destruct op as [k v|k|b]; cbn [kv_step dict_step]; unfold state_of.
    - destruct (kv_put_spec s k v Hs) as (s' & -> & ? & ?). done.
    - destruct (kv_delete_spec s k Hs) as (s' & r & -> & ? & ? & _). done.
    - destruct (kv_maintain_spec s b Hs) as (s' & r & -> & ? & ?). done. }
  by apply IH.
Qed.

(** C14 (refinement): the LSM tree (with any positive memtable limit) and Bitcask both
    implement the interface of a key-value store, and so both are dictionaries: after any
    sequence of puts, deletes, flushes and compactions, in any order, [get] returns the value
    last put for a key that was not deleted since and raises Missing for every other key. No
    tombstone is ever returned, and no compaction brings a deleted value back or loses a live
    one. *)
Theorem key_value_stores_refine limit ops k :
  1 <= limit →
  let dict := run dict_step ops ∅ in
  let answer := match dict !! k with Some v => Ok v | None => Err Missing end in
  LSMTree.get (run kv_step ops (LSMTree.mk limit [] [])) k = answer
  ∧ Bitcask.get (run kv_step ops Bitcask.make) k = answer.
Proof.
  intros Hlimit dict answer. split.
  - destruct (kv_run_map ops (LSMTree.mk limit [] [])) as [Hok Hmap].
    { split; [done|]. repeat constructor. }
    change (kv_get (run kv_step ops (LSMTree.mk limit [] [])) k = answer).
    by rewrite kv_get_spec, Hmap.
  - destruct (kv_run_map ops Bitcask.make) as [Hok Hmap].
    { split; [apply d_wf_nil|]. by intros k' off. }
    change (kv_get (run kv_step ops Bitcask.make) k = answer). by rewrite kv_get_spec, Hmap.
Qed.

Lemma key_value_stores_refine_witness :
  let ops := [Put "a" "1"; Put "b" "2"; Delete "a"; Maintain true; Put "b" "3"; Maintain false]%string in
  LSMTree.get (run kv_step ops (LSMTree.mk 2 [] [])) "b"%string = Ok "3"%string
  ∧ Bitcask.get (run kv_step ops Bitcask.make) "b"%string = Ok "3"%string.
Proof.
  destruct (key_value_stores_refine 2
    [Put "a" "1"; Put "b" "2"; Delete "a"; Maintain true; Put "b" "3"; Maintain false]%string
    "b"%string ltac:(done)) as [H1 H2].
  split; [refine (eq_trans H1 _)|refine (eq_trans H2 _)]; vm_compute; reflexivity.
Defined.

(** ** The LRU cache *)

Module lrucache.
Module LruCache.
(** [relay/lrucache.py] class LruCache: the ordered dictionary, least recent first *)
Record t := mk { capacity : Z; _store : pydict string Z; hits : Z; misses : Z }.

(** [relay/lrucache.py] LruCache.__post_init__ *)
Definition make (capacity : Z) : result t :=
  if capacity <? 1 then Err Invalid else Ok (mk capacity [] 0 0).

(** [OrderedDict.move_to_end] of a present key *)
Definition move_to_end (d : pydict string Z) (key : string) : pydict string Z :=
  match d_get d key with Some v => d_del d key ++ [(key, v)] | None => d end.

(** [relay/lrucache.py] LruCache.get *)
Definition get (key : string) : act t (option Z) :=
  self ← Prelude.get;
  if negb (d_mem (_store self) key) then
    Prelude.put (mk (capacity self) (_store self) (hits self) (misses self + 1));;
    mret None
  else
    let store := move_to_end (_store self) key in
    Prelude.put (mk (capacity self) store (hits self + 1) (misses self));;
    v ← pure_of (d_item store key);
    mret (Some v).

(** what [put]'s message says *)
Inductive outcome := Updated | Stored (evicted : option string).

(** [relay/lrucache.py] LruCache.put *)
Definition put (key : string) (value : Z) : act t outcome :=
  self ← Prelude.get;
  if d_mem (_store self) key then
    let store := d_set (move_to_end (_store self) key) key value in
    Prelude.put (mk (capacity self) store (hits self) (misses self));;
    mret Updated
  else
    let store := d_set (_store self) key value in
    if capacity self <? zlen store then
      match store with
      | [] => raise KeyError
      | (evicted, _) :: store =>
          Prelude.put (mk (capacity self) store (hits self) (misses self));;
          mret (Stored (Some evicted))
      end
    else
      Prelude.put (mk (capacity self) store (hits self) (misses self));;
      mret (Stored None).

(** [relay/lrucache.py] LruCache.keys_mru_first *)
Definition keys_mru_first (self : t) : list string := reverse (d_keys (_store self)).

(** [relay/lrucache.py] LruCache.hit_rate: hits and accesses in the message *)
Definition hit_rate (self : t) : option (Z * Z) :=
  let total := hits self + misses self in
  if total =? 0 then None else Some (hits self, total).
End LruCache.
End lrucache.
Import lrucache.

Inductive lru_op := LGet (k : string) | LPut (k : string) (v : Z).

Definition lru_step (op : lru_op) (s : LruCache.t) : LruCache.t :=
  match op with
  | LGet k => state_of (LruCache.get k) s
  | LPut k v => state_of (LruCache.put k v) s
  end.

(** The reference: a list of entries, most recent first, cut to the capacity. *)
Definition touch (k : string) (v : Z) (l : list (string * Z)) : list (string * Z) := (k, v) :: d_del l k.
Definition recent_step (cap : nat) (op : lru_op) (l : list (string * Z)) : list (string * Z) :=
  match op with
  | LGet k => match d_get l k with Some v => touch k v l | None => l end
  | LPut k v => take cap (touch k v l)
  end.

Lemma d_del_reverse {V} (d : pydict string V) k : reverse (d_del d k) = d_del (reverse d) k.
Proof.
  unfold d_del. induction d as [|p d IH]; [done|].
  rewrite reverse_cons, filter_app, !filter_cons. case_decide; rewrite ?reverse_cons, IH; [done|].
  by rewrite app_nil_r.
Qed.

Lemma d_wf_reverse {V} (d : pydict string V) : d_wf d → d_wf (reverse d).
Proof. unfold d_wf, d_keys. rewrite fmap_reverse. by rewrite reverse_Permutation. Qed.

Lemma d_get_reverse {V} (d : pydict string V) k : d_wf d → d_get (reverse d) k = d_get d k.
Proof.
  intros Hd. destruct (d_get d k) as [v|] eqn:Hk.
  - apply d_elem_of_get; [by apply d_wf_reverse|]. apply elem_of_reverse. by apply d_get_elem_of.
  - apply d_get_None. apply d_get_None in Hk. unfold d_keys in *. by rewrite fmap_reverse, elem_of_reverse.
Qed.

Lemma d_del_fresh {V} (d : pydict string V) k : k ∉ d_keys d → d_del d k = d.
Proof.
  intros Hk. apply list_filter_all. intros [k' v] Hin Heq. apply Hk. cbn in Heq. subst k'.
  apply list_elem_of_fmap. by exists (k, v).
Qed.

Lemma d_del_notin {V} (d : pydict string V) k : k ∉ d_keys (d_del d k).
Proof. rewrite d_keys_del. intros [? _]%list_elem_of_filter. done. Qed.

Lemma move_to_end_spec d k v : d_get d k = Some v →
  LruCache.move_to_end d k = d_del d k ++ [(k, v)].
Proof. intros Hk. unfold LruCache.move_to_end. by rewrite Hk. Qed.

Lemma d_set_last {V} (d : pydict string V) k v v' : k ∉ d_keys d →
  d_set (d ++ [(k, v)]) k v' = d ++ [(k, v')].
Proof.
  intros Hk. induction d as [|[k0 v0] d IH]; cbn; [by rewrite bool_decide_eq_true_2|].
  apply not_elem_of_cons in Hk as [Hne Hk]. rewrite bool_decide_eq_false_2 by done. by rewrite IH.
Qed.

(** The cache and the reference list hold the same entries in opposite orders. *)
Record lru_rep (cap : nat) (s : LruCache.t) (l : list (string * Z)) : Prop := {
  lr_cap : LruCache.capacity s = Z.of_nat cap;
  lr_pos : (1 <= cap)%nat;
  lr_wf : d_wf (LruCache._store s);
  lr_len : (length (LruCache._store s) <= cap)%nat;
  lr_rev : reverse (LruCache._store s) = l;
}.

Lemma lru_get_rep cap s l k : lru_rep cap s l →
  ∃ s', LruCache.get k s = (s', Ok (d_get l k)) ∧ lru_rep cap s' (recent_step cap (LGet k) l)
    ∧ LruCache.hits s' + LruCache.misses s' = LruCache.hits s + LruCache.misses s + 1.
Proof.
  intros [Hcap Hpos Hwf Hlen <-]. unfold LruCache.get. rewrite bind_get, d_mem_get. cbn [recent_step].
  rewrite d_get_reverse by done.
  destruct (d_get (LruCache._store s) k) as [v|] eqn:Hk; cbn [negb].
  - rewrite bind_put. rewrite (move_to_end_spec _ _ v Hk). set (d := d_del _ k).
    assert (Hnew : d ++ [(k, v)] = d_set d k v) by (symmetry; apply d_set_fresh, d_del_notin).
    assert (Hperm : d_keys (LruCache._store s) ≡ₚ k :: d_keys d).
    { apply d_del_Permutation; [done|]. apply d_get_is_Some. by exists v. }
    apply Permutation_length in Hperm. cbn in Hperm. rewrite !d_keys_length in Hperm.
    exists (LruCache.mk (LruCache.capacity s) (d ++ [(k, v)]) (LruCache.hits s + 1) (LruCache.misses s)).
    split_and!; [|split; cbn [LruCache.capacity LruCache._store]|cbn; lia].
    + rewrite bind_pure_of. unfold d_item. by rewrite Hnew, d_get_set_eq.
    + done.
    + done.
    + rewrite Hnew. by apply d_wf_set, d_wf_del.
    + rewrite length_app. cbn. lia.
    + rewrite reverse_app. unfold touch, d. by rewrite d_del_reverse.
  - exists (LruCache.mk (LruCache.capacity s) (LruCache._store s) (LruCache.hits s) (LruCache.misses s + 1)).
    split_and!; [reflexivity|by split|cbn; lia].
Qed.

Lemma lru_put_rep cap s l k v : lru_rep cap s l →
  ∃ s' o, LruCache.put k v s = (s', Ok o) ∧ lru_rep cap s' (recent_step cap (LPut k v) l).
Proof.
  intros [Hcap Hpos Hwf Hlen <-]. unfold LruCache.put. rewrite bind_get, d_mem_get. cbn [recent_step].
  destruct (d_get (LruCache._store s) k) as [v0|] eqn:Hk.
  - rewrite (move_to_end_spec _ _ v0 Hk), d_set_last by apply d_del_notin. set (d := d_del _ k).
    assert (Hperm : d_keys (LruCache._store s) ≡ₚ k :: d_keys d).
    { apply d_del_Permutation; [done|]. apply d_get_is_Some. by exists v0. }
    apply Permutation_length in Hperm. cbn in Hperm. rewrite !d_keys_length in Hperm.
    eexists _, _. split; [reflexivity|]. split; cbn [LruCache.capacity LruCache._store].
    + done.
    + done.
    + rewrite <- d_set_fresh by apply d_del_notin. by apply d_wf_set, d_wf_del.
    + rewrite length_app. cbn. lia.
    + rewrite reverse_app. unfold touch. rewrite <- d_del_reverse. fold d. cbn [reverse rev_append app].
      rewrite take_ge; [done|]. cbn. rewrite length_reverse. lia.
  - assert (Hfresh : k ∉ d_keys (LruCache._store s)) by (by apply d_get_None).
    assert (Htouch : touch k v (reverse (LruCache._store s)) = reverse (LruCache._store s ++ [(k, v)])).
    { unfold touch. rewrite <- d_del_reverse, d_del_fresh by done. by rewrite reverse_app. }
    assert (Hwf' : d_wf (LruCache._store s ++ [(k, v)])).
    { rewrite <- d_set_fresh by done. by apply d_wf_set. }
    rewrite d_set_fresh by done. rewrite Htouch. unfold zlen. rewrite length_app, Hcap. cbn [length].
    destruct (Z.ltb_spec (Z.of_nat cap) (Z.of_nat (length (LruCache._store s) + 1))) as [Hlt|Hge].
    + destruct (LruCache._store s) as [|[k0 v0] d] eqn:Hd; [cbn in Hlt; lia|]. cbn [app].
      eexists _, _. split; [reflexivity|]. cbn in Hlen, Hlt. split; cbn [LruCache.capacity LruCache._store].
      * done.
      * done.
      * by inversion Hwf'.
      * rewrite length_app. cbn. lia.
      * rewrite reverse_cons, take_app_length'; [done|]. rewrite length_reverse, length_app. cbn. lia.
    + eexists _, _. split; [reflexivity|]. split; cbn [LruCache.capacity LruCache._store]; [done|done|done|rewrite length_app; cbn; lia|].
      rewrite take_ge; [done|]. rewrite length_reverse, length_app. cbn. lia.
Qed.

(** Also (equivalence): the LRU cache of any positive capacity behaves as a list of entries kept
    most recent first and cut to the capacity. After any sequence of gets and puts its keys,
    most recent first, are those of the list, never more than the capacity; the next [get]
    returns what the list holds for the key (and None, a miss, exactly when the list does not
    hold it) and every get counted as exactly one hit or one miss. *)
Theorem lru_cache_exact cap ops k :
  (1 <= cap)%nat →
  let s := run lru_step ops (LruCache.mk (Z.of_nat cap) [] 0 0) in
  let l := run (recent_step cap) ops [] in
  LruCache.keys_mru_first s = d_keys l ∧ zlen (LruCache.keys_mru_first s) <= Z.of_nat cap
  ∧ value_of (LruCache.get k) s = Ok (d_get l k)
  ∧ LruCache.hits s + LruCache.misses s = zsum (λ o, match o with LGet _ => 1 | LPut _ _ => 0 end) ops.
Proof.
  intros Hcap s l.
  assert (lru_rep cap s l ∧ LruCache.hits s + LruCache.misses s
    = zsum (λ o, match o with LGet _ => 1 | LPut _ _ => 0 end) ops) as [Hs Hcount].
  { subst s l. unfold run. induction ops as [|op ops IH] using rev_ind.
    - split; [|done]. split; cbn; [done|done|apply d_wf_nil|lia|done].
    - destruct IH as [Hs Hc]. rewrite !foldl_app, zsum_app, <- Hc. cbn [foldl].
      set (s := foldl (λ s o, lru_step o s) _ ops) in *. set (l := foldl (λ s o, recent_step cap o s) [] ops) in *.
      destruct op as [k'|k' v]; unfold lru_step at 1 2 3, state_of.
      + destruct (lru_get_rep cap s l k' Hs) as (s' & -> & Hs' & Hc'). split; [done|]. exact Hc'.
      + destruct (lru_put_rep cap s l k' v Hs) as (s' & o & Hp & Hs').
        rewrite Hp. split; [done|]. cbn. rewrite Z.add_0_r. revert Hp. unfold LruCache.put. rewrite bind_get.
        repeat case_match; cbn; intros [=]; by subst. }
  destruct (lru_get_rep cap s l k Hs) as (s' & Hg & _). split_and!.
  - unfold LruCache.keys_mru_first, d_keys. rewrite <- (lr_rev cap s l Hs). by rewrite fmap_reverse.
  - unfold LruCache.keys_mru_first, zlen. rewrite length_reverse, d_keys_length.
    pose proof (lr_len cap s l Hs). lia.
  - unfold value_of. by rewrite Hg.
  - done.
Qed.

Lemma lru_cache_exact_witness :
  let s := run lru_step [LPut "a" 1; LPut "b" 2; LGet "a"; LPut "c" 3]%string
             (LruCache.mk (Z.of_nat 2) [] 0 0) in
  LruCache.keys_mru_first s = ["c"; "a"]%string ∧ value_of (LruCache.get "b"%string) s = Ok None.
Proof.
  destruct (lru_cache_exact 2 [LPut "a" 1; LPut "b" 2; LGet "a"; LPut "c" 3]%string "b"%string
    ltac:(lia)) as (H1 & _ & H2 & _).
  split; [refine (eq_trans H1 _)|refine (eq_trans H2 _)]; vm_compute; reflexivity.
Defined.
