(* ===== verification/Storage.v ===== *)
(** * Timers, tiers and the write-ahead log

    [relay/timerwheel.py] buckets timeouts by their expiry; [relay/tieredstorage.py] moves
    old segments to an object store; [relay/wal.py] orders durability before application;
    [relay/merkletree.py] compares replicas by a tree of hashes. *)

From S2P Require Import Prelude PyDict PyBytes PyFloat.

Module timerwheel.
Module TimerWheel.
(** [relay/timerwheel.py] class TimerWheel *)
Record t := mk { slots : Z; now : Z; buckets : pydict Z (list string) }.

(** [relay/timerwheel.py] TimerWheel.__post_init__ *)
Definition make (slots now : Z) : result t :=
  if slots <? 1 then Err Invalid else Ok (mk slots now []).

(** [relay/timerwheel.py] TimerWheel.schedule: the slot in the message *)
Definition schedule (name : string) (expiry : Z) : act t Z :=
  self ← get;
  raise_if (expiry <=? now self) Invalid;;
  raise_if (slots self <? expiry - now self) Invalid;;
  slot ← pure_of (py_mod expiry (slots self));
  put (mk (slots self) (now self)
          (d_set (buckets self) slot (d_getd (buckets self) slot [] ++ [name])));;
  mret slot.

(** [relay/timerwheel.py:68-70] TimerWheel.advance *)
Fixpoint sweep (ticks : list Z) (fired : list string) : act t (list string) :=
  match ticks with
  | [] => mret fired
  | tick :: ticks =>
      self ← get;
      slot ← pure_of (py_mod tick (slots self));
      put (mk (slots self) (now self) (d_del (buckets self) slot));;
      sweep ticks (fired ++ d_getd (buckets self) slot [])
  end.

(** [relay/timerwheel.py] TimerWheel.advance *)
Definition advance (to : Z) : act t (list string) :=
  self ← get;
  raise_if (to <? now self) Invalid;;
  fired ← sweep (seqZ (now self + 1) (to - now self)) [];
  modify (λ self, mk (slots self) to (buckets self));;
  mret fired.

(** [relay/timerwheel.py] TimerWheel.pending: the number in the message *)
Definition pending (self : t) : Z := zsum zlen (d_values (buckets self)).
End TimerWheel.
End timerwheel.
Import timerwheel.

Module tieredstorage.
Module TieredSegment.
(** [relay/tieredstorage.py:34] TieredSegment.tier *)
Inductive tier_name := local | cold.
#[global] Instance tier_eq_dec : EqDecision tier_name.
Proof. solve_decision. Defined.

(** [relay/tieredstorage.py] class TieredSegment *)
Record t := mk { base_offset : Z; end_offset : Z; digest : string; tier : tier_name }.
End TieredSegment.

Module TieredLog.
(** [relay/tieredstorage.py] class TieredLog *)
Record t := mk {
  local_window : Z;
  segments : list TieredSegment.t;
  object_store : gmap string string;
  uploads_verified : Z;
  failed_deletes_prevented : Z;
}.

Definition make (local_window : Z) : t := mk local_window [] ∅ 0 0.

(** [relay/tieredstorage.py] TieredLog.add_local *)
Definition add_local (base end_ : Z) (digest : string) : act t unit :=
  modify (λ self, mk (local_window self)
    (segments self ++ [TieredSegment.mk base end_ digest TieredSegment.local])
    (object_store self) (uploads_verified self) (failed_deletes_prevented self)).

(** [relay/tieredstorage.py:54-69] TieredLog.tier_out: the segments from position [index] on *)
Fixpoint tier_loop (now_end : Z) (index : nat) (rest : list TieredSegment.t) (moved : Z) : act t Z :=
  match rest with
  | [] => mret moved
  | seg :: rest =>
      self ← get;
      if bool_decide (TieredSegment.tier seg ≠ TieredSegment.local) then
        tier_loop now_end (S index) rest moved
      else if now_end - TieredSegment.end_offset seg <=? local_window self then
        tier_loop now_end (S index) rest moved
      else
        let key := zs (TieredSegment.base_offset seg) in
        let store := <[key := TieredSegment.digest seg]> (object_store self) in
        if bool_decide (store !! key ≠ Some (TieredSegment.digest seg)) then
          put (mk (local_window self) (segments self) store (uploads_verified self)
                  (failed_deletes_prevented self + 1));;
          tier_loop now_end (S index) rest moved
        else
          put (mk (local_window self)
                  (<[index := TieredSegment.mk (TieredSegment.base_offset seg)
                      (TieredSegment.end_offset seg) (TieredSegment.digest seg) TieredSegment.cold]>
                     (segments self))
                  store (uploads_verified self + 1) (failed_deletes_prevented self));;
          tier_loop now_end (S index) rest (moved + 1)
  end.

(** [relay/tieredstorage.py] TieredLog.tier_out: the number moved in the message *)
Definition tier_out (now_end : Z) : act t Z :=
  self ← get;
  tier_loop now_end 0 (segments self) 0.

(** [relay/tieredstorage.py] TieredLog.tier_of *)
Definition tier_of (self : t) (offset : Z) : result TieredSegment.tier_name :=
  match find (λ seg, (TieredSegment.base_offset seg <=? offset)
                     && (offset <? TieredSegment.end_offset seg)) (segments self) with
  | Some seg => Ok (TieredSegment.tier seg)
  | None => Err Missing
  end.

Definition by_base (s1 s2 : TieredSegment.t) : Prop :=
  TieredSegment.base_offset s1 <= TieredSegment.base_offset s2.
#[global] Instance by_base_dec : RelDecision by_base := λ s1 s2, Z.le_dec _ _.

(** [relay/tieredstorage.py:87-90] TieredLog.continuous *)
Fixpoint pairwise_meet (l : list TieredSegment.t) : bool :=
  match l with
  | earlier :: (later :: _) as l' =>
      if TieredSegment.end_offset earlier =? TieredSegment.base_offset later
      then pairwise_meet l' else false
  | _ => true
  end.

(** [relay/tieredstorage.py] TieredLog.continuous *)
Definition continuous (self : t) : bool := pairwise_meet (py_sorted by_base (segments self)).

(** [relay/tieredstorage.py] TieredLog.cold_ratio: the two counts in the message *)
Definition cold_ratio (self : t) : result (Z * Z) :=
  if bool_decide (segments self = []) then Err Invalid
  else Ok (zlen (filter (λ s, TieredSegment.tier s = TieredSegment.cold) (segments self)),
           zlen (segments self)).
End TieredLog.
End tieredstorage.
Import tieredstorage.

Module wal.
Module WriteAheadLog.
(** [relay/wal.py] class WriteAheadLog *)
Record t := mk { entries : list string; durable_to : Z; applied_to : Z; checkpoint : Z }.

Definition make : t := mk [] 0 0 0.

(** [relay/wal.py] WriteAheadLog.append *)
Definition append (intent : string) : act t Z :=
  self ← get;
  put (mk (entries self ++ [intent]) (durable_to self) (applied_to self) (checkpoint self));;
  mret (zlen (entries self)).

(** [relay/wal.py] WriteAheadLog.mark_durable *)
Definition mark_durable (offset : Z) : act t unit :=
  modify (λ self, mk (entries self) (Z.max (durable_to self) (offset + 1)) (applied_to self)
                     (checkpoint self)).

(** [relay/wal.py] WriteAheadLog.apply *)
Definition apply (offset : Z) : act t unit :=
  self ← get;
  raise_if (durable_to self <=? offset) Invalid;;
  raise_if (negb (offset =? applied_to self)) Invalid;;
  put (mk (entries self) (durable_to self) (offset + 1) (checkpoint self)).

(** [relay/wal.py] WriteAheadLog.take_checkpoint: the checkpoint in the message *)
Definition take_checkpoint : act t Z :=
  modify (λ self, mk (entries self) (durable_to self) (applied_to self) (applied_to self));;
  self ← get;
  mret (checkpoint self).

(** [relay/wal.py] WriteAheadLog.truncate: the checkpoint in the message *)
Definition truncate : act t Z := self ← get; mret (checkpoint self).

(** [relay/wal.py] WriteAheadLog.replay_length: the number in the message *)
Definition replay_length (self : t) : Z := zlen (entries self) - checkpoint self.
End WriteAheadLog.
End wal.
Import wal.

Module merkletree.
(** [relay/merkletree.py] _h *)
Definition _h (data : string) : string := String.substring 0 16 (Sha256.hexdigest (encode data)).

Module MerkleTree.
(** [relay/merkletree.py] class MerkleTree *)
Record t := mk { leaves : list string }.

(** [relay/merkletree.py] MerkleTree.leaf_hashes *)
Definition leaf_hashes (self : t) : list string := _h <$> leaves self.

(** [relay/merkletree.py:54-57] MerkleTree.root *)
Fixpoint next_level (level : list string) : list string :=
  match level with
  | [] => []
  | [x] => [_h (x +:+ x)]
  | x :: y :: level => _h (x +:+ y) :: next_level level
  end.

(** [relay/merkletree.py:53-58] MerkleTree.root *)
Definition root_round (level : list string) : result (list string + string) :=
  if 1 <? zlen level then Ok (inl (next_level level))
  else x ← py_index level 0; Ok (inr x).

(** [relay/merkletree.py] MerkleTree.root *)
Definition root (self : t) : result string :=
  let level := leaf_hashes self in
  match level with
  | [] => Ok (_h "")
  | _ => loop root_round (S (length level)) level
  end.

(** [relay/merkletree.py] MerkleTree.diff *)
Definition diff (self other : t) : result (list Z) :=
  if negb (zlen (leaves self) =? zlen (leaves other)) then Err Invalid
  else
    r1 ← root self;
    r2 ← root other;
    if bool_decide (r1 = r2) then Ok []
    else
      let a := leaf_hashes self in
      let b := leaf_hashes other in
      Ok (filter (λ i, a !! Z.to_nat i ≠ b !! Z.to_nat i) (seqZ 0 (zlen a))).

(** [relay/merkletree.py] MerkleTree.divergence *)
Definition divergence (self other : t) : result string :=
  differing ← diff self other;
  let total := zlen (leaves self) in
  match differing with
  | [] => Ok "roots match; replicas agree, one hash compared"
  | _ =>
      share ← z_truediv (zlen differing) total;
      let pct := f_mul share (of_Z 100) in
      let note := zs (zlen differing) +:+ "/" +:+ zs total +:+ " leaves differ (" +:+ fmt_fixed 0 pct +:+ "%)" in
      Ok (if zf_lt 50 pct then note +:+ "; widely diverged, a full transfer beats the tree here"
          else note +:+ "; localized, send only the differing records")
  end.
End MerkleTree.
End merkletree.
Import merkletree.

Example wheel_fires :
  let m := (TimerWheel.schedule "a" 3;; TimerWheel.schedule "b" 7;; TimerWheel.advance 5)%string in
  value_of m (TimerWheel.mk 8 0 []) = Ok ["a"]%string
  ∧ value_of (TimerWheel.advance 20) (state_of m (TimerWheel.mk 8 0 [])) = Ok ["b"]%string.
Proof. by vm_compute. Qed.

Example tiers_move :
  let m := (TieredLog.add_local 0 10 "x";; TieredLog.add_local 10 20 "y";; TieredLog.tier_out 25)%string in
  value_of m (TieredLog.make 8) = Ok 1
  ∧ TieredLog.tier_of (state_of m (TieredLog.make 8)) 3 = Ok TieredSegment.cold
  ∧ TieredLog.continuous (state_of m (TieredLog.make 8)) = true.
Proof. by vm_compute. Qed.

Example merkle_diffs :
  MerkleTree.diff (MerkleTree.mk ["a"; "b"; "c"]) (MerkleTree.mk ["a"; "x"; "c"])%string = Ok [1].
Proof. by vm_compute. Qed.

(** ** Timers *)

(** The reference scheduler keeps the timers in the order they were scheduled and, when the
    clock advances, fires tick by tick those that expire at the tick. *)
Record timers := { clock : Z; waiting : list (string * Z) }.

Definition due (w : list (string * Z)) (tick : Z) : list string := (filter (λ p, p.2 = tick) w).*1.

Inductive timer_op := Schedule (name : string) (expiry : Z) | Advance (to : Z).

Definition wheel_step (op : timer_op) (s : TimerWheel.t) : TimerWheel.t * result (list string) :=
  match op with
  | Schedule name expiry =>
      let '(s', r) := TimerWheel.schedule name expiry s in
      (s', match r with Ok _ => Ok [] | Err e => Err e end)
  | Advance to => TimerWheel.advance to s
  end.

Definition timers_step (slots : Z) (op : timer_op) (s : timers) : timers * result (list string) :=
  match op with
  | Schedule name expiry =>
      if (clock s <? expiry) && (expiry <=? clock s + slots)
      then ({| clock := clock s; waiting := waiting s ++ [(name, expiry)] |}, Ok [])
      else (s, Err Invalid)
  | Advance to =>
      if clock s <=? to
      then ({| clock := to; waiting := filter (λ p, to < p.2) (waiting s) |},
            Ok (mjoin (due (waiting s) <$> seqZ (clock s + 1) (to - clock s))))
      else (s, Err Invalid)
  end.

(** the answers to a sequence of operations *)
Fixpoint answers {S O A} (step : O → S → S * A) (ops : list O) (s : S) : list A :=
  match ops with
  | [] => []
  | op :: ops => let '(s', a) := step op s in a :: answers step ops s'
  end.

(** Every bucket holds the names of the waiting timers whose expiry falls in its slot, and
    every waiting timer expires within one turn of the wheel. *)
Definition in_slot (slots slot : Z) (w : list (string * Z)) : list string :=
  (filter (λ p, p.2 mod slots = slot) w).*1.

Record wheel_rep (s : TimerWheel.t) (g : timers) : Prop := {
  wr_slots : 1 <= TimerWheel.slots s;
  wr_now : TimerWheel.now s = clock g;
  wr_wf : d_wf (TimerWheel.buckets s);
  wr_turn : ∀ p, p ∈ waiting g → clock g < p.2 <= clock g + TimerWheel.slots s;
  wr_buckets : ∀ slot, d_getd (TimerWheel.buckets s) slot [] = in_slot (TimerWheel.slots s) slot (waiting g);
}.

Lemma py_mod_ok a b : b ≠ 0 → py_mod a b = Ok (a mod b).
Proof. intros Hb. unfold py_mod. by destruct (Z.eqb_spec b 0). Qed.

Lemma mod_window m a b : 0 < m → a <= b < a + m → b mod m = a mod m → b = a.
Proof.
  intros Hm Hab Heq. pose proof (Z.div_mod a m). pose proof (Z.div_mod b m).
  assert (m * (b / m - a / m) = b - a) as Hd by lia.
  assert (b / m - a / m = 0) by nia. lia.
Qed.

(** Passing one slot fires exactly the timers of the tick. *)
Lemma bucket_due slots now tick w : 1 <= slots → now < tick →
  (∀ p, p ∈ w → tick <= p.2 <= now + slots) → in_slot slots (tick mod slots) w = due w tick.
Proof.
  intros Hs Ht Hw. unfold in_slot, due. f_equal. apply filter_ext_in. intros p Hp.
  specialize (Hw p Hp). split; [|by intros ->]. apply mod_window; lia.
Qed.

Lemma in_slot_pass slots slot tick w :
  in_slot slots slot (filter (λ p, p.2 ≠ tick) w)
  = (filter (λ p, p.2 ≠ tick) (filter (λ p, p.2 mod slots = slot) w)).*1.
Proof.
  unfold in_slot. f_equal. rewrite !list_filter_filter. apply list_filter_iff. naive_solver.
Qed.

Lemma sweep_run ticks s fired now w :
  1 <= TimerWheel.slots s → d_wf (TimerWheel.buckets s) →
  (∀ slot, d_getd (TimerWheel.buckets s) slot [] = in_slot (TimerWheel.slots s) slot w) →
  (∃ first len, ticks = seqZ first len ∧ now < first ∧ ∀ p, p ∈ w → first <= p.2 <= now + TimerWheel.slots s) →
  ∃ buckets,
    TimerWheel.sweep ticks fired s
    = (TimerWheel.mk (TimerWheel.slots s) (TimerWheel.now s) buckets,
       Ok (fired ++ mjoin (due w <$> ticks)))
    ∧ d_wf buckets
    ∧ ∀ slot, d_getd buckets slot [] = in_slot (TimerWheel.slots s) slot (filter (λ p, p.2 ∉ ticks) w).
Proof.
  revert s fired w. induction ticks as [|tick ticks IH]; intros s fired w Hs Hwf Hb Hturn.
  { exists (TimerWheel.buckets s). split_and!; [destruct s; cbn; by rewrite app_nil_r|done|].
    intros slot. rewrite Hb, (list_filter_all (λ p : string * Z, p.2 ∉ [])); [done|].
    intros p _. apply not_elem_of_nil. }
  destruct Hturn as (first & len & Heq & Hnow & Hturn). cbn [TimerWheel.sweep].
  assert (0 < len) as Hlen.
  { destruct (Z.lt_ge_cases 0 len); [done|]. rewrite seqZ_nil in Heq by done. done. }
  rewrite seqZ_cons in Heq by done. injection Heq as -> Heq.
  rewrite bind_get, py_mod_ok, bind_pure_of, bind_put by lia.
  set (s' := TimerWheel.mk _ _ _).
  destruct (IH s' (fired ++ d_getd (TimerWheel.buckets s) (first mod TimerWheel.slots s) [])
              (filter (λ p, p.2 ≠ first) w)) as (buckets & Hrun & Hwf' & Hb'); [done|by apply d_wf_del| | |].
  - intros slot. cbn [s' TimerWheel.slots TimerWheel.buckets]. unfold d_getd. rewrite d_get_del.
    rewrite in_slot_pass. specialize (Hb slot). unfold d_getd in Hb.
    case_bool_decide as Hslot; cbn [default].
    + subst slot. symmetry.
      assert (filter (λ p : string * Z, p.2 ≠ first) (filter (λ p : string * Z,
        p.2 mod TimerWheel.slots s = first mod TimerWheel.slots s) w) = []) as ->; [|done].
      apply elem_of_nil_inv. intros p [Hne [Hm Hp]%list_elem_of_filter]%list_elem_of_filter.
      apply Hne. specialize (Hturn p Hp). apply mod_window in Hm; lia.
    + rewrite Hb. unfold in_slot. f_equal. symmetry. apply list_filter_all.
      intros p [Hm Hp]%list_elem_of_filter Hf. apply Hslot. by rewrite <- Hm, Hf.
  - exists (first + 1), (len - 1). split_and!; [by rewrite Heq|lia|].
    intros p [Hne Hp]%list_elem_of_filter. specialize (Hturn p Hp). cbn. lia.
  - exists buckets. rewrite Hrun. split_and!; [|done|].
    + f_equal. f_equal. rewrite fmap_cons. cbn [mjoin list_join]. rewrite app_assoc. f_equal.
      * f_equal. rewrite Hb. by apply (bucket_due _ now).
      * f_equal. apply list_fmap_ext. intros i t Ht%list_elem_of_lookup_2. unfold due. f_equal.
        rewrite Heq in Ht. apply elem_of_seqZ in Ht. assert (t ≠ first) by lia.
        rewrite list_filter_filter. apply list_filter_iff. naive_solver.
    + intros slot. rewrite Hb'. f_equal. rewrite list_filter_filter. apply list_filter_iff.
      intros p. rewrite elem_of_cons. naive_solver.
Qed.

Lemma wheel_step_rep op s g : wheel_rep s g →
  wheel_rep (wheel_step op s).1 (timers_step (TimerWheel.slots s) op g).1
  ∧ (wheel_step op s).2 = (timers_step (TimerWheel.slots s) op g).2
  ∧ TimerWheel.slots (wheel_step op s).1 = TimerWheel.slots s.
Proof.
  intros Hs. pose proof Hs as [Hslots Hnow Hwf Hturn Hb].
  destruct op as [name expiry|to]; cbn [wheel_step timers_step].
  - unfold TimerWheel.schedule. rewrite bind_get, bind_raise_if, Hnow.
    destruct (Z.leb_spec expiry (clock g)), (Z.ltb_spec (clock g) expiry); try lia; [by cbn|].
    rewrite bind_raise_if.
    destruct (Z.ltb_spec (TimerWheel.slots s) (expiry - clock g)), (Z.leb_spec expiry (clock g + TimerWheel.slots s));
      try lia; [by cbn|].
    rewrite py_mod_ok, bind_pure_of, bind_put by lia. cbn. split_and!; [|done|done].
    split; cbn [TimerWheel.slots TimerWheel.now TimerWheel.buckets clock waiting]; [done|done|by apply d_wf_set| |].
    + intros p [Hp| ->%list_elem_of_singleton]%elem_of_app; [by apply Hturn|cbn; lia].
    + intros slot. rewrite d_getd_set. unfold in_slot. rewrite filter_app, fmap_app.
      fold (in_slot (TimerWheel.slots s) slot (waiting g)). rewrite <- Hb, filter_cons. cbn [snd].
      case_bool_decide as Hsl; [subst slot; by rewrite decide_True|].
      rewrite decide_False by done. by rewrite app_nil_r.
  - unfold TimerWheel.advance. rewrite bind_get, bind_raise_if, Hnow.
    destruct (Z.ltb_spec to (clock g)), (Z.leb_spec (clock g) to); try lia; [by cbn|].
    rewrite bind_run.
    destruct (sweep_run (seqZ (clock g + 1) (to - clock g)) s [] (clock g) (waiting g))
      as (buckets & -> & Hwf' & Hb'); [done|done|done| |].
    { eexists _, _. split_and!; [done|lia|]. intros p Hp. specialize (Hturn p Hp). lia. }
    rewrite bind_modify, run_ret. cbn [fst snd TimerWheel.slots app]. split_and!; [|done|done].
    split; cbn [TimerWheel.slots TimerWheel.now TimerWheel.buckets clock waiting]; [done|done|done| |].
    + intros p [Hto Hp]%list_elem_of_filter. specialize (Hturn p Hp). cbn beta in Hto. lia.
    + intros slot. rewrite Hb'. f_equal. apply filter_ext_in. intros p Hp. specialize (Hturn p Hp).
      rewrite elem_of_seqZ. lia.
Qed.

(** The names in the buckets are the waiting timers, each once. *)
Lemma buckets_total (keys : list Z) slots w : NoDup keys →
  (∀ p, p ∈ w → p.2 mod slots ∈ keys) →
  zsum (λ k, zlen (in_slot slots k w)) keys = zlen w.
Proof.
  intros Hnd. induction w as [|p w IH]; intros Hw.
  - rewrite zlen_nil. induction keys as [|k keys IHk]; [done|]. inversion Hnd; subst.
    unfold zsum in *. cbn. apply IHk; [done|]. by intros ? ?%elem_of_nil.
  - specialize (IH ltac:(intros q Hq; apply Hw; by right)). rewrite zlen_cons, <- IH.
    specialize (Hw p ltac:(by left)). clear IH.
    assert (Hcons : ∀ k, zlen (in_slot slots k (p :: w))
              = (if decide (p.2 mod slots = k) then 1 else 0) + zlen (in_slot slots k w)).
    { intros k. unfold in_slot. rewrite filter_cons. case_decide; [|done].
      by rewrite fmap_cons, zlen_cons. }
    rewrite (zsum_ext _ _ keys (λ k _, Hcons k)).
    induction keys as [|k keys IHk]; [by apply elem_of_nil in Hw|].
    inversion Hnd as [|? ? Hk Hnd']; subst. unfold zsum in *. cbn [foldr].
    destruct (decide (p.2 mod slots = k)) as [Hpk|Hpk].
    + assert (∀ l, k ∉ l → foldr (λ x n, (if decide (p.2 mod slots = x) then 1 else 0)
         + zlen (in_slot slots x w) + n) 0 l = foldr (λ x n, zlen (in_slot slots x w) + n) 0 l) as Hnone.
      { intros l Hl. induction l as [|x l IHl]; [done|]. cbn. apply not_elem_of_cons in Hl as [Hx Hl].
        rewrite decide_False by congruence. rewrite IHl by done. lia. }
      rewrite Hnone by done. lia.
    + apply elem_of_cons in Hw as [|Hw]; [done|]. rewrite IHk by done. lia.
Qed.

(** C17 (equivalence): a timer wheel of any number of slots fires as the plain scheduler that
    keeps every timer with its expiry and compares it with each tick: for any sequence of
    schedules and advances, however far the clock jumps, both give the same answers. A timer
    fires exactly once, by the advance that reaches its expiry, never a turn of the wheel early
    or late, and timers fire in the order of their expiry, those of one tick in the order they
    were scheduled; scheduling in the past or beyond the span and advancing backwards are
    refused and lose nothing. The pending count is the number of timers not yet fired. *)
Theorem timer_wheel_exact slots ops :
  1 <= slots →
  let s0 := TimerWheel.mk slots 0 [] in
  let g0 := {| clock := 0; waiting := [] |} in
  answers wheel_step ops s0 = answers (timers_step slots) ops g0
  ∧ TimerWheel.pending (run (λ o s, (wheel_step o s).1) ops s0)
    = zlen (waiting (run (λ o g, (timers_step slots o g).1) ops g0)).
Proof.
  intros Hslots s0 g0.
  assert (H0 : wheel_rep s0 g0).
  { split; [done|done|apply d_wf_nil|by intros p ?%elem_of_nil|done]. }
  assert (Hsl : TimerWheel.slots s0 = slots) by done.
  clearbody s0 g0. unfold run. revert s0 g0 H0 Hsl. induction ops as [|op ops IH]; intros s g Hs Hsl.
  - split; [done|]. cbn [foldl]. pose proof Hs as [_ _ Hwf Hturn Hb]. unfold TimerWheel.pending.
    rewrite <- (zsum_lookup zlen []) by done.
    rewrite <- (buckets_total (d_keys (TimerWheel.buckets s)) (TimerWheel.slots s));
      [|done|].
    + apply zsum_ext. intros k _. unfold d_getd in Hb. by rewrite <- Hb.
    + intros p Hp. apply d_get_is_Some. specialize (Hb (p.2 mod TimerWheel.slots s)).
      unfold d_getd in Hb. destruct (d_get _ _) eqn:Hg; [by eexists|exfalso].
      cbn in Hb. assert (p.1 ∈ in_slot (TimerWheel.slots s) (p.2 mod TimerWheel.slots s) (waiting g)) as Hin.
      { apply list_elem_of_fmap. exists p. split; [done|]. by apply list_elem_of_filter. }
      rewrite <- Hb in Hin. by apply elem_of_nil in Hin.
  - cbn [answers foldl]. destruct (wheel_step_rep op s g Hs) as (Hs' & Hr & Hsl').
    rewrite Hsl in Hs', Hr. destruct (wheel_step op s) as [s' r], (timers_step slots op g) as [g' r'].
    cbn [fst snd] in *. subst r'. destruct (IH s' g' Hs') as [H1 H2]; [congruence|].
    split; [by f_equal|done].
Qed.

Lemma timer_wheel_exact_witness :
  answers wheel_step [Schedule "a" 3; Schedule "b" 8; Advance 2; Schedule "c" 10; Advance 9]%string
    (TimerWheel.mk 8 0 []) = [Ok []; Ok []; Ok []; Ok []; Ok ["a"; "b"]]%string.
Proof.
  refine (eq_trans (proj1 (timer_wheel_exact 8
    [Schedule "a" 3; Schedule "b" 8; Advance 2; Schedule "c" 10; Advance 9]%string ltac:(done))) _).
  vm_compute. reflexivity.
Defined.

(** ** Tiers *)

Section tiers.
Import TieredSegment TieredLog.
Implicit Types (s : TieredLog.t) (seg : TieredSegment.t) (l : list TieredSegment.t).

(** what [tier_out] makes of a segment *)
Definition moves (now_end window : Z) seg : bool :=
  bool_decide (tier seg = local) && (window <? now_end - end_offset seg).
Definition cool (now_end window : Z) seg : TieredSegment.t :=
  if moves now_end window seg then TieredSegment.mk (base_offset seg) (end_offset seg) (digest seg) cold
  else seg.

Definition upload (store : gmap string string) l : gmap string string :=
  foldl (λ m seg, <[zs (base_offset seg) := digest seg]> m) store l.

Lemma tier_loop_run now_end rest pre moved s :
  segments s = pre ++ rest →
  let w := local_window s in
  let gone := filter (λ seg, moves now_end w seg = true) rest in
  tier_loop now_end (length pre) rest moved s
  = (TieredLog.mk w (pre ++ (cool now_end w <$> rest)) (upload (object_store s) gone)
       (uploads_verified s + zlen gone) (failed_deletes_prevented s),
     Ok (moved + zlen gone)).
Proof.
  revert pre moved s. induction rest as [|seg rest IH]; intros pre moved s Hs; cbn zeta.
  { cbn. rewrite !Z.add_0_r, <- Hs. by destruct s. }
  cbn [tier_loop]. rewrite bind_get. rewrite filter_cons, fmap_cons. unfold cool at 1.
  assert (Hskip : moves now_end (local_window s) seg = false →
    tier_loop now_end (S (length pre)) rest moved s
    = (TieredLog.mk (local_window s) (pre ++ seg :: (cool now_end (local_window s) <$> rest))
         (upload (object_store s) (filter (λ seg, moves now_end (local_window s) seg = true) rest))
         (uploads_verified s + zlen (filter (λ seg, moves now_end (local_window s) seg = true) rest))
         (failed_deletes_prevented s),
       Ok (moved + zlen (filter (λ seg, moves now_end (local_window s) seg = true) rest)))).
  { intros _. specialize (IH (pre ++ [seg]) moved s). cbn zeta in IH.
    rewrite <- !app_assoc in IH. cbn [app] in IH. rewrite length_app, Nat.add_1_r in IH. by apply IH. }
  destruct (moves now_end (local_window s) seg) eqn:Hm.
  - pose proof Hm as Hm'. unfold moves in Hm'. apply andb_true_iff in Hm' as [Ht%bool_decide_eq_true Hw%Z.ltb_lt].
    rewrite bool_decide_eq_false_2 by naive_solver.
    destruct (Z.leb_spec (now_end - end_offset seg) (local_window s)); [lia|].
    rewrite bool_decide_eq_false_2 by (intros Hne; apply Hne, lookup_insert_eq). rewrite bind_put, decide_True by done.
    set (seg' := TieredSegment.mk _ _ _ _). set (s' := TieredLog.mk _ _ _ _ _).
    specialize (IH (pre ++ [seg']) (moved + 1) s'). cbn zeta in IH.
    rewrite length_app, Nat.add_1_r in IH. rewrite IH.
    + cbn [s' local_window object_store uploads_verified failed_deletes_prevented].
      rewrite <- app_assoc, zlen_cons, !Z.add_assoc. cbn [app]. done.
    + cbn [s' segments]. rewrite Hs, insert_app_r_alt, Nat.sub_diag by lia. by rewrite <- app_assoc.
  - rewrite decide_False by done. unfold moves in Hm.
    destruct (decide (tier seg = local)) as [Ht|Ht].
    + rewrite bool_decide_eq_true_2 in Hm by done. cbn [andb] in Hm. apply Z.ltb_ge in Hm.
      rewrite bool_decide_eq_false_2 by naive_solver.
      destruct (Z.leb_spec (now_end - end_offset seg) (local_window s)); [by apply Hskip|lia].
    + rewrite bool_decide_eq_true_2 by done. by apply Hskip.
Qed.

Lemma tier_out_run now_end s :
  let w := local_window s in
  let gone := filter (λ seg, moves now_end w seg = true) (segments s) in
  tier_out now_end s
  = (TieredLog.mk w (cool now_end w <$> segments s) (upload (object_store s) gone)
       (uploads_verified s + zlen gone) (failed_deletes_prevented s), Ok (zlen gone)).
Proof.
  cbn zeta. unfold tier_out. rewrite bind_get.
  exact (tier_loop_run now_end (segments s) [] 0 s eq_refl).
Qed.

(** Cooling keeps everything about a segment but its tier. *)
Definition extent seg : Z * Z * string := (base_offset seg, end_offset seg, digest seg).

Lemma extent_cool now_end w seg : extent (cool now_end w seg) = extent seg.
Proof. unfold cool. by destruct (moves _ _ _). Qed.
Lemma base_cool now_end w seg : base_offset (cool now_end w seg) = base_offset seg.
Proof. unfold cool. by destruct (moves _ _ _). Qed.
Lemma end_cool now_end w seg : end_offset (cool now_end w seg) = end_offset seg.
Proof. unfold cool. by destruct (moves _ _ _). Qed.

Lemma sort_insert_cool now_end w seg l :
  sort_insert by_base (cool now_end w seg) (cool now_end w <$> l)
  = cool now_end w <$> sort_insert by_base seg l.
Proof.
  induction l as [|seg' l IH]; [done|]. rewrite fmap_cons. cbn [sort_insert].
  assert (by_base (cool now_end w seg) (cool now_end w seg') ↔ by_base seg seg') as Hiff
    by (unfold by_base; by rewrite !base_cool).
  rewrite (bool_decide_ext _ _ Hiff). case_bool_decide; [done|]. by rewrite fmap_cons, IH.
Qed.

Lemma continuous_cool now_end w s :
  continuous (TieredLog.mk w (cool now_end w <$> segments s) (object_store s) (uploads_verified s)
                (failed_deletes_prevented s)) = continuous s.
Proof.
  unfold continuous. cbn [segments].
  assert (py_sorted by_base (cool now_end w <$> segments s)
          = cool now_end w <$> py_sorted by_base (segments s)) as ->.
  { unfold py_sorted. induction (segments s) as [|seg l IH]; [done|]. rewrite fmap_cons. cbn [foldr].
    by rewrite IH, sort_insert_cool. }
  generalize (py_sorted by_base (segments s)). intros l.
  induction l as [|seg [|seg' l] IH]; [done..|]. rewrite !fmap_cons in *. cbn [pairwise_meet] in *.
  rewrite end_cool, base_cool. by rewrite IH.
Qed.

Lemma tier_of_cool now_end w l offset :
  find (λ seg, (base_offset seg <=? offset) && (offset <? end_offset seg)) (cool now_end w <$> l)
  = cool now_end w <$> find (λ seg, (base_offset seg <=? offset) && (offset <? end_offset seg)) l.
Proof.
  induction l as [|seg l IH]; [done|]. rewrite fmap_cons. cbn [find]. rewrite base_cool, end_cool.
  by destruct (_ && _).
Qed.

Lemma upload_lookup store l b : NoDup (base_offset <$> l) →
  upload store l !! zs b
  = match find (λ seg, base_offset seg =? b) l with Some seg => Some (digest seg) | None => store !! zs b end.
Proof.
  revert store. induction l as [|seg l IH]; intros store Hnd; [done|].
  inversion Hnd as [|? ? Hb Hnd']; subst. unfold upload. cbn [foldl find]. fold (upload (<[zs (base_offset seg) := digest seg]> store) l).
  rewrite IH by done. destruct (Z.eqb_spec (base_offset seg) b) as [Heq|Hne].
  - destruct (find _ l) as [seg'|] eqn:Hf.
    + apply find_some in Hf as [Hin Hb'%Z.eqb_eq]. exfalso. apply Hb.
      apply list_elem_of_fmap. exists seg'. split; [congruence|]. by apply list_elem_of_In.
    + rewrite <- Heq. apply lookup_insert_eq.
  - destruct (find _ l); [done|]. apply lookup_insert_ne. intros Heq%(inj pretty). done.
Qed.

Inductive tier_op := AddLocal (base end_ : Z) (digest : string) | TierOut (now_end : Z).
Definition tier_step (op : tier_op) s : TieredLog.t :=
  match op with
  | AddLocal base end_ digest => state_of (add_local base end_ digest) s
  | TierOut now_end => state_of (tier_out now_end) s
  end.
Definition added_extent (op : tier_op) : list (Z * Z * string) :=
  match op with AddLocal base end_ digest => [(base, end_, digest)] | TierOut _ => [] end.

(** The digest of every cold segment is in the object store, when no two segments share a base. *)
Definition cold_stored s : Prop :=
  NoDup (base_offset <$> segments s) → ∀ seg, seg ∈ segments s → tier seg = cold →
  object_store s !! zs (base_offset seg) = Some (digest seg).

Lemma tier_out_cold_stored now_end s : cold_stored s → cold_stored (state_of (tier_out now_end) s).
Proof.
  intros Hs. unfold state_of. rewrite tier_out_run. cbn [fst]. intros Hnd seg' Hin Hcold.
  cbn [segments object_store] in *.
  assert (base_offset <$> (cool now_end (local_window s) <$> segments s) = base_offset <$> segments s) as Hb.
  { rewrite <- list_fmap_compose. apply list_fmap_ext. intros i seg _. apply base_cool. }
  rewrite Hb in Hnd. apply list_elem_of_fmap in Hin as (seg & -> & Hin).
  rewrite base_cool. set (gone := filter _ (segments s)).
  assert (Hgnd : NoDup (base_offset <$> gone)).
  { eapply sublist_NoDup; [exact Hnd|]. apply fmap_sublist, sublist_filter. }
  assert (Hsame : ∀ seg1, seg1 ∈ segments s → base_offset seg1 = base_offset seg → seg1 = seg).
  { intros seg1 Hin1 Heq. apply list_elem_of_lookup in Hin as [i Hi]. apply list_elem_of_lookup in Hin1 as [j Hj].
    assert (i = j) as ->; [|congruence]. apply (NoDup_lookup (base_offset <$> segments s) i j (base_offset seg)); [done|..];
      rewrite list_lookup_fmap, ?Hi, ?Hj; cbn; congruence. }
  rewrite upload_lookup by done. destruct (find _ gone) as [seg1|] eqn:Hf.
  - apply find_some in Hf as [Hg%list_elem_of_In Heq%Z.eqb_eq].
    apply list_elem_of_filter in Hg as [_ Hin1]. rewrite (Hsame seg1 Hin1 Heq). f_equal.
    unfold cool. by destruct (moves _ _ _).
  - unfold cool in *. destruct (moves now_end (local_window s) seg) eqn:Hm; [exfalso|by apply Hs].
    assert (seg ∈ gone) as Hg by (by apply list_elem_of_filter).
    apply list_elem_of_In in Hg. pose proof (find_none _ _ Hf seg Hg) as Hne.
    cbn in Hne. by rewrite Z.eqb_refl in Hne.
Qed.

(** Also (invariant): tiering loses nothing of the log. After any sequence of segments added and
    tierings the log holds exactly the segments added, in order, with their offsets and digests;
    a tiering changes neither the continuity of the offset space nor which offsets are found, it
    moves to the cold tier exactly the local segments further behind the end than the local
    window, and, as long as no two segments share a base offset, every cold segment's digest is
    in the object store under its base: no local copy is given up before its upload is verified. *)
Theorem tiering_keeps_log window ops now_end :
  let s := run tier_step ops (TieredLog.make window) in
  let s' := state_of (tier_out now_end) s in
  extent <$> segments s = mjoin (added_extent <$> ops)
  ∧ segments s' = cool now_end window <$> segments s
  ∧ extent <$> segments s' = extent <$> segments s
  ∧ continuous s' = continuous s
  ∧ (∀ offset, is_ok (tier_of s' offset) = is_ok (tier_of s offset))
  ∧ cold_stored s'.
Proof.
  intros s s'.
  assert (extent <$> segments s = mjoin (added_extent <$> ops) ∧ local_window s = window ∧ cold_stored s)
    as (Hext & Hwin & Hcold).
  { subst s s'. unfold run. induction ops as [|op ops IH] using rev_ind.
    { split_and!; [done|done|]. by intros _ seg ?%elem_of_nil. }
    rewrite foldl_app, fmap_app, join_app. cbn [foldl].
    set (t := foldl _ _ ops) in *. destruct IH as (IH & Hw & Hc). destruct op as [b e d|n]; cbn [tier_step].
    - unfold add_local, state_of. rewrite run_modify. cbn [fst segments local_window].
      split_and!; [by rewrite fmap_app, IH|done|].
      intros Hnd seg. cbn [segments object_store] in *. rewrite fmap_app in Hnd.
      apply NoDup_app in Hnd as (Hnd & _). intros [Hin| ->%list_elem_of_singleton]%elem_of_app; [by apply Hc|done].
    - split_and!; [|unfold state_of; by rewrite tier_out_run|by apply tier_out_cold_stored].
      unfold state_of. rewrite tier_out_run. cbn [fst segments]. rewrite app_nil_r, <- IH.
      rewrite <- list_fmap_compose. apply list_fmap_ext. intros i seg _. apply extent_cool. }
  assert (Hseg : segments s' = cool now_end window <$> segments s).
  { unfold s', state_of. rewrite tier_out_run. cbn [fst segments]. by rewrite Hwin. }
  split_and!; [done|done| | | |by apply tier_out_cold_stored].
  - rewrite Hseg, <- list_fmap_compose. apply list_fmap_ext. intros i seg _. apply extent_cool.
  - rewrite <- (continuous_cool now_end window s). unfold continuous. by rewrite Hseg.
  - intros offset. unfold tier_of. rewrite Hseg, tier_of_cool. by destruct (find _ _).
Qed.
End tiers.

(** ** The write-ahead log *)

Inductive wal_op := WAppend (intent : string) | WDurable (offset : Z) | WApply (offset : Z)
  | WCheckpoint | WTruncate.

Definition wal_step (op : wal_op) (s : WriteAheadLog.t) : WriteAheadLog.t * result unit :=
  match op with
  | WAppend intent => (state_of (WriteAheadLog.append intent) s, Ok ())
  | WDurable offset => WriteAheadLog.mark_durable offset s
  | WApply offset => WriteAheadLog.apply offset s
  | WCheckpoint => (state_of WriteAheadLog.take_checkpoint s, Ok ())
  | WTruncate => (state_of WriteAheadLog.truncate s, Ok ())
  end.

(** the offsets whose application succeeded, in order *)
Fixpoint applied (ops : list wal_op) (s : WriteAheadLog.t) : list Z :=
  match ops with
  | [] => []
  | op :: ops =>
      let '(s', r) := wal_step op s in
      match op, r with WApply offset, Ok _ => [offset] | _, _ => [] end ++ applied ops s'
  end.

Definition wal_ok (s : WriteAheadLog.t) : Prop :=
  0 <= WriteAheadLog.checkpoint s <= WriteAheadLog.applied_to s
  ∧ WriteAheadLog.applied_to s <= WriteAheadLog.durable_to s.

Lemma wal_apply_run offset s :
  WriteAheadLog.apply offset s
  = if (offset =? WriteAheadLog.applied_to s) && (offset <? WriteAheadLog.durable_to s)
    then (WriteAheadLog.mk (WriteAheadLog.entries s) (WriteAheadLog.durable_to s) (offset + 1)
            (WriteAheadLog.checkpoint s), Ok ())
    else (s, Err Invalid).
Proof.
  unfold WriteAheadLog.apply. rewrite bind_get, bind_raise_if, bind_raise_if.
  destruct (Z.leb_spec (WriteAheadLog.durable_to s) offset), (Z.ltb_spec offset (WriteAheadLog.durable_to s)),
    (Z.eqb_spec offset (WriteAheadLog.applied_to s)); try lia; done.
Qed.

Lemma wal_step_ok op s : wal_ok s →
  let '(s', r) := wal_step op s in
  wal_ok s' ∧ (∃ l, WriteAheadLog.entries s' = WriteAheadLog.entries s ++ l)
  ∧ match op, r with WApply offset, Ok _ => [offset] | _, _ => [] end
    = seqZ (WriteAheadLog.applied_to s) (WriteAheadLog.applied_to s' - WriteAheadLog.applied_to s)
  ∧ WriteAheadLog.applied_to s <= WriteAheadLog.applied_to s'.
Proof.
  intros [Hc Hd].
  assert (Hsame : ∀ x y, x = y → [] = seqZ x (y - x)) by (intros x y ->; by rewrite Z.sub_diag).
  destruct op as [intent|offset|offset| |]; cbn [wal_step].
  - split; [by split|]. split; [by exists [intent]|]. split; [by apply Hsame|done].
  - split; [split; cbn; lia|]. split; [by exists []; rewrite app_nil_r|]. split; [by apply Hsame|done].
  - rewrite wal_apply_run. destruct (_ && _) eqn:Ho.
    + apply andb_true_iff in Ho as [->%Z.eqb_eq Ho%Z.ltb_lt].
      split; [split; cbn; lia|]. split; [by exists []; rewrite app_nil_r|]. split; [|cbn; lia].
      cbn [WriteAheadLog.applied_to]. rewrite seqZ_cons by lia. f_equal. by rewrite seqZ_nil by lia.
    + split; [by split|]. split; [by exists []; rewrite app_nil_r|]. split; [by apply Hsame|done].
  - change (state_of WriteAheadLog.take_checkpoint s) with
      (WriteAheadLog.mk (WriteAheadLog.entries s) (WriteAheadLog.durable_to s)
         (WriteAheadLog.applied_to s) (WriteAheadLog.applied_to s)).
    split; [split; cbn; lia|]. split; [by exists []; rewrite app_nil_r|]. split; [by apply Hsame|done].
  - split; [by split|]. split; [by exists []; rewrite app_nil_r|]. split; [by apply Hsame|done].
Qed.

(** Also (invariant): the write-ahead log applies each offset once, in order and never before it
    is durable: over any sequence of operations the applications that succeed are exactly the
    offsets from the first unapplied one up to the final mark, the checkpoint stays at or below
    what is applied and what is applied at or below what is durable, no entry appended is lost,
    and every other application is refused with Invalid and changes nothing. *)
Theorem wal_applies_in_order ops s :
  wal_ok s →
  let s' := foldl (λ s op, (wal_step op s).1) s ops in
  wal_ok s'
  ∧ applied ops s = seqZ (WriteAheadLog.applied_to s)
                      (WriteAheadLog.applied_to s' - WriteAheadLog.applied_to s)
  ∧ WriteAheadLog.applied_to s <= WriteAheadLog.applied_to s'
  ∧ (∃ l, WriteAheadLog.entries s' = WriteAheadLog.entries s ++ l)
  ∧ ∀ offset, (offset ≠ WriteAheadLog.applied_to s' ∨ WriteAheadLog.durable_to s' <= offset) →
      WriteAheadLog.apply offset s' = (s', Err Invalid).
Proof.
  intros Hs s'.
  assert (wal_ok s' ∧ applied ops s = seqZ (WriteAheadLog.applied_to s)
            (WriteAheadLog.applied_to s' - WriteAheadLog.applied_to s)
    ∧ WriteAheadLog.applied_to s <= WriteAheadLog.applied_to s'
    ∧ ∃ l, WriteAheadLog.entries s' = WriteAheadLog.entries s ++ l) as (H1 & H2 & H3 & H4).
  { subst s'. revert s Hs. induction ops as [|op ops IH]; intros s Hs.
    { split; [done|]. split; [by rewrite Z.sub_diag|]. split; [done|]. exists []. by rewrite app_nil_r. }
    cbn [foldl applied]. pose proof (wal_step_ok op s Hs) as Hstep.
    destruct (wal_step op s) as [s1 r]. destruct Hstep as (Hs1 & [l1 Hl1] & -> & Hle). cbn [fst].
    destruct (IH s1 Hs1) as (Hs' & -> & Hle' & [l Hl]). split; [done|]. split; [|split; [lia|]].
    - set (s' := foldl _ s1 ops) in *.
      replace (WriteAheadLog.applied_to s' - WriteAheadLog.applied_to s) with
        ((WriteAheadLog.applied_to s1 - WriteAheadLog.applied_to s)
         + (WriteAheadLog.applied_to s' - WriteAheadLog.applied_to s1)) by lia.
      rewrite seqZ_app by lia. f_equal. f_equal. lia.
    - exists (l1 ++ l). by rewrite Hl, Hl1, app_assoc. }
  do 4 (split; [done|]).
  intros offset Ho. rewrite wal_apply_run.
  destruct (Z.eqb_spec offset (WriteAheadLog.applied_to s')),
    (Z.ltb_spec offset (WriteAheadLog.durable_to s')); try lia; done.
Qed.

Lemma wal_applies_in_order_witness :
  applied [WAppend "a"; WApply 0; WAppend "b"; WDurable 1; WApply 1; WApply 0; WCheckpoint; WApply 1]%string
    WriteAheadLog.make = [0; 1].
Proof.
  destruct (wal_applies_in_order
    [WAppend "a"; WApply 0; WAppend "b"; WDurable 1; WApply 1; WApply 0; WCheckpoint; WApply 1]%string
    WriteAheadLog.make ltac:(vm_compute; split; [split|]; intros [=])) as (_ & H & _).
  refine (eq_trans H _). vm_compute. reflexivity.
Defined.

(** [mark_durable] does not compare the offset with the entries: an entry that was never
    appended is applied. *)
Theorem wal_applies_unwritten :
  applied [WDurable 3; WApply 0; WApply 1] WriteAheadLog.make = [0; 1]
  ∧ WriteAheadLog.entries (foldl (λ s op, (wal_step op s).1) WriteAheadLog.make
      [WDurable 3; WApply 0; WApply 1]) = [].
Proof. by vm_compute. Qed.

(** [truncate] discards nothing. *)
Theorem wal_truncate_keeps s : state_of WriteAheadLog.truncate s = s.
Proof. reflexivity. Qed.

(** ** Merkle trees *)

Lemma hex_of_length bs : String.length (hex_of bs) = (2 * length bs)%nat.
Proof. induction bs as [|b bs IH]; [done|]. cbn [hex_of String.length length]. rewrite IH. lia. Qed.

Lemma round_length st kw : length st = 8%nat → length (Sha256.round st kw) = 8%nat.
Proof. intros H. by do 9 (destruct st as [|? st]; try done). Qed.

Lemma compress_length st block : length st = 8%nat → length (Sha256.compress st block) = 8%nat.
Proof.
  intros H. unfold Sha256.compress. rewrite length_zip_with_l; [done|].
  generalize (zip Sha256.round_constants (reverse (Sha256.extend 48 (reverse (Sha256.words 16 block))))).
  intros kws. assert (∀ st', length st' = 8%nat → length (foldl Sha256.round st' kws) = 8%nat) as Hgo.
  { induction kws as [|kw kws IH]; intros st' Hst; [done|]. by apply IH, round_length. }
  rewrite Hgo by done. lia.
Qed.

Lemma digest_length bs : length (Sha256.digest bs) = 32%nat.
Proof.
  unfold Sha256.digest.
  assert (∀ fuel bs st, length st = 8%nat → length (Sha256.blocks fuel bs st) = 8%nat) as Hgo.
  { induction fuel as [|fuel IH]; intros bs' st Hst; [done|]. cbn. destruct bs'; [done|].
    apply IH, compress_length, Hst. }
  specialize (Hgo (length (Sha256.pad bs)) (Sha256.pad bs) Sha256.initial_state eq_refl).
  revert Hgo. generalize (Sha256.blocks (length (Sha256.pad bs)) (Sha256.pad bs) Sha256.initial_state).
  intros l Hl. assert (∀ l, length (mjoin (be_split 4 <$> l)) = (4 * length l)%nat) as ->; [|lia].
  clear. induction l as [|x l IH]; [done|]. rewrite fmap_cons.
  change (mjoin (be_split 4 x :: (be_split 4 <$> l))) with (be_split 4 x ++ mjoin (be_split 4 <$> l)).
  rewrite length_app, be_split_length, IH. cbn [length]. lia.
Qed.

Lemma h_length data : String.length (_h data) = 16%nat.
Proof.
  unfold _h. assert (∀ n s, (n <= String.length s)%nat → String.length (String.substring 0 n s) = n) as Hsub.
  { induction n as [|n IH]; intros [|c s]; cbn; try done; [lia|]. intros Hn. rewrite IH; lia. }
  apply Hsub. unfold Sha256.hexdigest. rewrite hex_of_length, digest_length. lia.
Qed.

(** Two different strings with one digest. *)
Definition collision : Prop := ∃ x y, x ≠ y ∧ _h x = _h y.

Lemma h_inj x y : _h x = _h y → x = y ∨ collision.
Proof. intros H. destruct (decide (x = y)); [by left|right]. by exists x, y. Qed.

Lemma append_inj_len (a b c d : string) : String.length a = String.length c → a +:+ b = c +:+ d → a = c ∧ b = d.
Proof.
  revert c. induction a as [|x a IH]; intros [|y c]; cbn; try done.
  intros [= Hlen] [= -> Heq]. by destruct (IH c Hlen Heq) as [-> ->].
Qed.

Definition hashes (l : list string) : Prop := Forall (λ x, String.length x = 16%nat) l.

Lemma pairs_ind {A} (P : list A → list A → Prop) :
  P [] [] → (∀ a b, P [a] [b]) → (∀ a1 a2 l b1 b2 l', P l l' → P (a1 :: a2 :: l) (b1 :: b2 :: l')) →
  ∀ l l', length l = length l' → P l l'.
Proof.
  intros H0 H1 H2 l. remember (length l) as n eqn:Hn. revert l Hn.
  induction n as [n IH] using lt_wf_ind. intros [|a1 [|a2 l]] -> [|b1 [|b2 l']]; cbn; try done.
  intros [= Hlen]. apply H2. by apply (IH (length l) ltac:(cbn; lia)).
Qed.

Lemma next_level_inj l l' : length l = length l' → hashes l → hashes l' →
  MerkleTree.next_level l = MerkleTree.next_level l' → l = l' ∨ collision.
Proof.
  revert l l'. apply (pairs_ind (λ l l', hashes l → hashes l' →
    MerkleTree.next_level l = MerkleTree.next_level l' → l = l' ∨ collision)).
  - by left.
  - intros a b Ha Hb [= Heq]. inversion Ha; inversion Hb; subst.
    destruct (h_inj _ _ Heq) as [H|]; [|by right]. left. f_equal.
    by destruct (append_inj_len a a b b ltac:(congruence) H).
  - intros a1 a2 l b1 b2 l' IH Ha Hb [= Heq Hrest].
    inversion Ha as [|? ? Ha1 Ha']; inversion Ha' as [|? ? Ha2 Hl];
      inversion Hb as [|? ? Hb1 Hb']; inversion Hb' as [|? ? Hb2 Hl']; subst.
    destruct (h_inj _ _ Heq) as [H|]; [|by right].
    destruct (append_inj_len a1 a2 b1 b2 ltac:(congruence) H) as [-> ->].
    destruct (IH Hl Hl' Hrest) as [->|]; [by left|by right].
Qed.

Lemma next_level_length l : (2 * length (MerkleTree.next_level l) <= length l + 1)%nat.
Proof.
  refine (pairs_ind (λ l _, (2 * length (MerkleTree.next_level l) <= length l + 1)%nat) _ _ _ l l eq_refl);
    cbn; intros; lia.
Qed.

Lemma next_level_length_eq l l' : length l = length l' →
  length (MerkleTree.next_level l) = length (MerkleTree.next_level l').
Proof.
  revert l l'. refine (pairs_ind (λ l l', length (MerkleTree.next_level l) = length (MerkleTree.next_level l')) _ _ _);
    cbn; intros; lia.
Qed.

Lemma next_level_hashes l : hashes (MerkleTree.next_level l).
Proof.
  refine (pairs_ind (λ l _, hashes (MerkleTree.next_level l)) _ _ _ l l eq_refl).
  - constructor.
  - intros a b. constructor; [apply h_length|constructor].
  - intros. constructor; [apply h_length|done].
Qed.

(** The loop of [root] ends, and on levels of one length it tells them apart or exhibits a
    collision. *)
Lemma root_loop_ends fuel l : l ≠ [] → (length l < fuel)%nat →
  ∃ x, loop MerkleTree.root_round fuel l = Ok x.
Proof.
  revert l. induction fuel as [|fuel IH]; intros l Hne Hf; [lia|]. cbn [loop]. unfold MerkleTree.root_round at 1.
  destruct (Z.ltb_spec 1 (zlen l)) as [Hl|Hl].
  - pose proof (next_level_length l). unfold zlen in Hl. apply IH; [|lia].
    destruct l as [|a [|b l]]; [done|cbn in Hl; lia|done].
  - destruct l as [|a l]; [done|]. by exists a.
Qed.

Lemma root_loop_inj fuel l l' x : length l = length l' → hashes l → hashes l' →
  loop MerkleTree.root_round fuel l = Ok x → loop MerkleTree.root_round fuel l' = Ok x →
  l = l' ∨ collision.
Proof.
  revert l l'. induction fuel as [|fuel IH]; intros l l' Hlen Hl Hl'; [done|]. cbn [loop].
  unfold MerkleTree.root_round at 1 3.
  assert (zlen l' = zlen l) as -> by (unfold zlen; by rewrite Hlen).
  destruct (Z.ltb_spec 1 (zlen l)) as [Hlt|Hle].
  - intros H1 H2.
    destruct (IH (MerkleTree.next_level l) (MerkleTree.next_level l')) as [Heq|]; [..|by right];
      [by apply next_level_length_eq|apply next_level_hashes..|done|done|].
    by apply next_level_inj.
  - destruct l as [|a [|? ?]], l' as [|b [|? ?]]; unfold zlen in *; cbn in *; try lia; [by left|].
    intros [= ->] [= ->]. by left.
Qed.

Lemma leaf_hashes_ok s : hashes (MerkleTree.leaf_hashes s).
Proof. unfold hashes, MerkleTree.leaf_hashes. rewrite Forall_fmap, Forall_forall. intros x _. apply h_length. Qed.

Lemma root_total s : ∃ x, MerkleTree.root s = Ok x.
Proof.
  unfold MerkleTree.root. destruct (MerkleTree.leaf_hashes s) eqn:Hl; [by eexists|].
  apply root_loop_ends; [done|lia].
Qed.

Lemma root_inj s s' x :
  length (MerkleTree.leaves s) = length (MerkleTree.leaves s') →
  MerkleTree.root s = Ok x → MerkleTree.root s' = Ok x →
  MerkleTree.leaf_hashes s = MerkleTree.leaf_hashes s' ∨ collision.
Proof.
  intros Hlen H1 H2.
  assert (length (MerkleTree.leaf_hashes s) = length (MerkleTree.leaf_hashes s')) as Hl.
  { unfold MerkleTree.leaf_hashes. by rewrite !length_fmap. }
  pose proof (leaf_hashes_ok s) as Ho. pose proof (leaf_hashes_ok s') as Ho'.
  unfold MerkleTree.root in *.
  destruct (MerkleTree.leaf_hashes s) as [|a l], (MerkleTree.leaf_hashes s') as [|b l'];
    [by left|cbn in Hl; lia|cbn in Hl; lia|].
  rewrite <- Hl in H2. exact (root_loop_inj _ (a :: l) (b :: l') x Hl Ho Ho' H1 H2).
Qed.

(** Also (functional): comparing two replicas by their Merkle trees finds what differs. Replicas
    with different numbers of leaves are refused with Invalid; otherwise [diff] always answers,
    every position it names holds different leaves, and it names every position whose leaves
    differ unless two different strings with the same digest exist (which is the only way equal
    roots or equal leaf hashes can hide a difference). In particular the odd leaf paired with
    itself hides nothing. *)
Theorem merkle_diff_exact s s' :
  match MerkleTree.diff s s' with
  | Err e => e = Invalid ∧ length (MerkleTree.leaves s) ≠ length (MerkleTree.leaves s')
  | Ok l =>
      length (MerkleTree.leaves s) = length (MerkleTree.leaves s')
      ∧ (∀ i, i ∈ l → 0 <= i < zlen (MerkleTree.leaves s)
           ∧ MerkleTree.leaves s !! Z.to_nat i ≠ MerkleTree.leaves s' !! Z.to_nat i)
      ∧ (∀ i, 0 <= i → MerkleTree.leaves s !! Z.to_nat i ≠ MerkleTree.leaves s' !! Z.to_nat i →
           i ∈ l ∨ collision)
  end.
Proof.
  unfold MerkleTree.diff.
  destruct (Z.eqb_spec (zlen (MerkleTree.leaves s)) (zlen (MerkleTree.leaves s'))) as [Hz|Hz]; cbn [negb];
    [|split; [done|]; unfold zlen in Hz; lia].
  assert (Hlen : length (MerkleTree.leaves s) = length (MerkleTree.leaves s')) by (unfold zlen in Hz; lia).
  destruct (root_total s) as [r1 Hr1], (root_total s') as [r2 Hr2]. rewrite Hr1, Hr2. cbn [mbind result_bind].
  assert (Hhash : ∀ i, MerkleTree.leaf_hashes s !! i = MerkleTree.leaf_hashes s' !! i →
            MerkleTree.leaves s !! i = MerkleTree.leaves s' !! i ∨ collision).
  { intros i. unfold MerkleTree.leaf_hashes. rewrite !list_lookup_fmap.
    destruct (MerkleTree.leaves s !! i) as [x|], (MerkleTree.leaves s' !! i) as [y|]; cbn; try done; [|by left].
    intros [= Heq]. destruct (h_inj x y Heq) as [->|]; [by left|by right]. }
  case_bool_decide as Hr.
  - subst r2. split; [done|]. split; [by intros i ?%elem_of_nil|]. intros i Hi Hne.
    destruct (root_inj s s' r1 Hlen Hr1 Hr2) as [Heq|]; [|by right].
    destruct (Hhash (Z.to_nat i)) as [|]; [by rewrite Heq|done|by right].
  - split; [done|].
    assert (zlen (MerkleTree.leaf_hashes s) = zlen (MerkleTree.leaves s)) as Hzl.
    { unfold MerkleTree.leaf_hashes, zlen. by rewrite length_fmap. }
    split.
    + intros i [Hne Hin%elem_of_seqZ]%list_elem_of_filter. split; [lia|]. intros Heq. apply Hne.
      unfold MerkleTree.leaf_hashes. by rewrite !list_lookup_fmap, Heq.
    + intros i Hi Hne.
      destruct (decide (MerkleTree.leaf_hashes s !! Z.to_nat i = MerkleTree.leaf_hashes s' !! Z.to_nat i)) as [Heq|Hd].
      * destruct (Hhash (Z.to_nat i) Heq); [done|by right].
      * left. apply list_elem_of_filter. split; [done|]. apply elem_of_seqZ. rewrite Hzl. split; [lia|].
        destruct (Z.lt_ge_cases i (zlen (MerkleTree.leaves s))); [lia|]. exfalso. apply Hne.
        unfold zlen in *. rewrite !lookup_ge_None_2 by lia. done.
Qed.
