(* ===== verification/Access.v ===== *)
(** * Access control and schemas

    [relay/authz.py]: an ordered list of rules, deny overriding allow and no rule meaning
    no; [relay/aclpatterns.py]: the most specific matching rule decides.
    [relay/schemas.py]: a registry that admits compatible schema versions only;
    [relay/schemaresolution.py]: reading a record with another schema than it was written
    with; [relay/wireschema.py]: the schema id in front of a record on the wire. *)

From Stdlib Require Import Strings.Byte Strings.Ascii.
From S2P Require Import Prelude PyDict PyBytes.

(** [s.endswith("*")], [s[:-1]] and [s.startswith(p)] *)
Definition ends_star (s : string) : bool :=
  bool_decide (String.get (String.length s - 1) s = Some "*"%char).
Definition drop_last_char (s : string) : string := String.substring 0 (String.length s - 1) s.
Fixpoint startswith (s p : string) : bool :=
  match p, s with
  | EmptyString, _ => true
  | String _ _, EmptyString => false
  | String c p, String c' s => bool_decide (c = c') && startswith s p
  end.

Module authz.
(** [relay/authz.py] OPERATIONS *)
Definition OPERATIONS : list string := ["read"; "write"; "create"; "delete"; "describe"].

Module Rule.
(** [relay/authz.py] class Rule *)
Record t := mk { principal : string; operation : string; resource : string; allow : bool }.

(** [relay/authz.py] Rule._match *)
Definition _match (pattern value : string) : bool := bool_decide (pattern ∈ [value; "*"]).

(** [relay/authz.py] Rule._resource_match *)
Definition _resource_match (self : t) (resource : string) : bool :=
  if ends_star (Rule.resource self) then startswith resource (drop_last_char (Rule.resource self))
  else bool_decide (Rule.resource self = resource).

(** [relay/authz.py] Rule.matches *)
Definition matches (self : t) (principal operation resource : string) : bool :=
  _match (Rule.principal self) principal
  && bool_decide (Rule.operation self ∈ [operation; "*"])
  && _resource_match self resource.
End Rule.

Module Authorizer.
(** [relay/authz.py] class Authorizer *)
Record t := mk { rules : list Rule.t; denials_logged : list string }.

Definition make : t := mk [] [].

(** [relay/authz.py] Authorizer._add *)
Definition _add (principal operation resource : string) (allow : bool) : act t unit :=
  raise_if (negb (bool_decide (operation ∈ OPERATIONS ++ ["*"]))) Invalid;;
  modify (λ self, mk (rules self ++ [Rule.mk principal operation resource allow]) (denials_logged self)).

(** [relay/authz.py] Authorizer.grant *)
Definition grant (principal operation resource : string) : act t unit :=
  _add principal operation resource true.

(** [relay/authz.py] Authorizer.deny *)
Definition deny (principal operation resource : string) : act t unit :=
  _add principal operation resource false.

(** [relay/authz.py] Authorizer._log_denial *)
Definition _log_denial (principal operation resource : string) : act t unit :=
  modify (λ self, mk (rules self)
    (denials_logged self ++ [principal +:+ " denied " +:+ operation +:+ " on " +:+ resource])).

(** [relay/authz.py] Authorizer.allowed *)
Definition allowed (principal operation resource : string) : act t bool :=
  self ← get;
  let matching := List.filter (λ rule, Rule.matches rule principal operation resource) (rules self) in
  if existsb (λ rule, negb (Rule.allow rule)) matching then
    _log_denial principal operation resource;; mret false
  else if existsb Rule.allow matching then mret true
  else _log_denial principal operation resource;; mret false.

(** [relay/authz.py] Authorizer.authorize *)
Definition authorize (principal operation resource : string) : act t string :=
  ok ← allowed principal operation resource;
  if ok : bool then mret (principal +:+ " may " +:+ operation +:+ " " +:+ resource)
  else raise Invalid.
End Authorizer.
End authz.
Import authz.

Module aclpatterns.
(** [relay/aclpatterns.py:32-34] LITERAL *)
Definition LITERAL : string := "literal".
Definition PREFIX : string := "prefix".
Definition WILDCARD : string := "wildcard".
(** [relay/aclpatterns.py] SPECIFICITY *)
Definition SPECIFICITY : pydict string Z := [(LITERAL, 2); (PREFIX, 1); (WILDCARD, 0)].

Module AclRule.
(** [relay/aclpatterns.py] class AclRule *)
Record t := mk { pattern_type : string; pattern : string; allow : bool }.

(** [relay/aclpatterns.py] AclRule.__post_init__ *)
Definition make (pattern_type pattern : string) (allow : bool) : result t :=
  if negb (d_mem SPECIFICITY pattern_type) then Err Invalid else Ok (mk pattern_type pattern allow).

(** [relay/aclpatterns.py] AclRule.matches *)
Definition matches (self : t) (resource : string) : bool :=
  if bool_decide (pattern_type self = WILDCARD) then true
  else if bool_decide (pattern_type self = LITERAL) then bool_decide (resource = pattern self)
  else startswith resource (pattern self).

(** [SPECIFICITY[r.pattern_type]], of a rule that [make] built *)
Definition specificity (self : t) : Z := d_getd SPECIFICITY (pattern_type self) 0.
End AclRule.

(** the verdict, the deciding rule and whether a deny broke a tie *)
Inductive decision :=
  | no_rule
  | decided (verb : bool) (by_ : AclRule.t) (tie_broken : bool).

(** [relay/aclpatterns.py] evaluate *)
Definition evaluate (rules : list AclRule.t) (resource : string) : decision :=
  match List.filter (λ r, AclRule.matches r resource) rules with
  | [] => no_rule
  | r0 :: matching =>
      let matching := r0 :: matching in
      let best_spec := py_max (AclRule.specificity r0) (AclRule.specificity <$> matching) in
      let contenders := List.filter (λ r, AclRule.specificity r =? best_spec) matching in
      match List.filter (λ r, negb (AclRule.allow r)) contenders with
      | deny :: _ => decided false deny (existsb AclRule.allow contenders)
      | [] => match contenders with
              | allow :: _ => decided (AclRule.allow allow) allow false
              | [] => no_rule
              end
      end
  end.
End aclpatterns.
Import aclpatterns.

Module schemas.
(** [relay/schemas.py:27-30] BACKWARD *)
Definition BACKWARD : string := "backward".
Definition FORWARD : string := "forward".
Definition FULL : string := "full".
Definition NONE : string := "none".
(** [relay/schemas.py] MODES *)
Definition MODES : list string := [BACKWARD; FORWARD; FULL; NONE].

Module Field.
(** [relay/schemas.py] class Field *)
Record t := mk { name : string; required : bool }.
End Field.

Module Schema.
(** [relay/schemas.py] class Schema *)
Record t := mk { version : Z; fields : list Field.t }.

(** [relay/schemas.py] Schema.field_names *)
Definition field_names (self : t) : gset string := list_to_set (Field.name <$> fields self).

(** [relay/schemas.py] Schema.required_names *)
Definition required_names (self : t) : gset string :=
  list_to_set (Field.name <$> List.filter Field.required (fields self)).
End Schema.

(** why an evolution is refused: the required fields removed, or added *)
Inductive problem := removed (names : gset string) | added (names : gset string).

(** [relay/schemas.py] _backward_ok *)
Definition _backward_ok (old new : Schema.t) : option problem :=
  let dropped_required := Schema.required_names old ∖ Schema.field_names new in
  if bool_decide (dropped_required ≠ ∅) then Some (removed dropped_required)
  else
    let added_required : gset string :=
      list_to_set (Field.name <$> List.filter
        (λ f, Field.required f && negb (bool_decide (Field.name f ∈ Schema.field_names old)))
        (Schema.fields new)) in
    if bool_decide (added_required ≠ ∅) then Some (added added_required) else None.

(** [relay/schemas.py] _forward_ok *)
Definition _forward_ok (old new : Schema.t) : option problem := _backward_ok new old.

Module SchemaRegistry.
(** [relay/schemas.py] class SchemaRegistry *)
Record t := mk { modes : pydict string string; schemas : pydict string (list Schema.t) }.

Definition make : t := mk [] [].

(** [relay/schemas.py] SchemaRegistry.set_mode *)
Definition set_mode (topic mode : string) : act t unit :=
  raise_if (negb (bool_decide (mode ∈ MODES))) Invalid;;
  modify (λ self, mk (d_set (modes self) topic mode) (schemas self)).

(** [relay/schemas.py:94-105] SchemaRegistry.register: the problem found with the latest version *)
Definition check_latest (mode : string) (latest schema : Schema.t) : option problem :=
  let problem := if bool_decide (mode ∈ [BACKWARD; FULL]) then _backward_ok latest schema else None in
  match problem with
  | None => if bool_decide (mode ∈ [FORWARD; FULL]) then _forward_ok latest schema else None
  | Some p => Some p
  end.

(** [relay/schemas.py] SchemaRegistry.register *)
Definition register (topic : string) (schema : Schema.t) : act t unit :=
  self ← get;
  let mode := d_getd (modes self) topic BACKWARD in
  let history := d_getd (schemas self) topic [] in
  put (mk (modes self) (d_set (schemas self) topic history));;
  raise_if match last history with
           | Some latest => bool_decide (is_Some (check_latest mode latest schema))
           | None => false
           end Invalid;;
  modify (λ self, mk (modes self) (d_set (schemas self) topic (history ++ [schema]))).
End SchemaRegistry.
End schemas.
Import schemas.

Module schemaresolution.
Section values.
(** the values records hold *)
Context {V : Type}.

(** [relay/schemaresolution.py] class ReaderField *)
Record ReaderField := {
  name : string; type_name : string; default_ : V; has_default : bool }.

(** [relay/schemaresolution.py:54-69] SchemaResolver.resolve *)
Fixpoint resolve_fields (record : pydict string V) (writer_types : pydict string string)
    (fields : list ReaderField) (out : pydict string V) : result (pydict string V) :=
  match fields with
  | [] => Ok out
  | rf :: fields =>
      match d_get record (name rf) with
      | Some v =>
          if bool_decide (d_get writer_types (name rf) ≠ Some (type_name rf)) then Err Invalid
          else resolve_fields record writer_types fields (d_set out (name rf) v)
      | None =>
          if has_default rf
          then resolve_fields record writer_types fields (d_set out (name rf) (default_ rf))
          else Err Invalid
      end
  end.

(** [relay/schemaresolution.py] SchemaResolver.resolve *)
Definition resolve (reader_fields : list ReaderField) (record : pydict string V)
    (writer_types : pydict string string) : result (pydict string V) :=
  resolve_fields record writer_types reader_fields [].

(** [relay/schemaresolution.py] SchemaResolver.dropped_fields *)
Definition dropped_fields (reader_fields : list ReaderField) (record : pydict string V) : list string :=
  py_sorted String.le (List.filter (λ k, negb (bool_decide (k ∈ name <$> reader_fields))) (d_keys record)).

(** [relay/schemaresolution.py] SchemaResolver.report: the three counts in the message *)
Definition report (reader_fields : list ReaderField) (record : pydict string V)
    (writer_types : pydict string string) : result (Z * Z * Z) :=
  resolved ← resolve reader_fields record writer_types;
  Ok (zlen resolved,
      zlen (List.filter (λ rf, negb (d_mem record (name rf))) reader_fields),
      zlen (dropped_fields reader_fields record)).
End values.
Arguments ReaderField V : clear implicits.
End schemaresolution.
Import schemaresolution.

Module wireschema.
(** [relay/wireschema.py] _MAGIC *)
Definition _MAGIC : Z := 0.
(** [relay/wireschema.py] _PREFIX *)
Definition _PREFIX : Z := 5.

Module SchemaEnvelope.
(** [relay/wireschema.py] class SchemaEnvelope *)
Record t := mk { known_ids : gset Z }.

(** [relay/wireschema.py] SchemaEnvelope.encode *)
Definition encode (schema_id : Z) (payload : bytes) : result bytes :=
  if (schema_id <? 0) || (0xffffffff <? schema_id) then Err Invalid
  else Ok ([z2b _MAGIC] ++ be_split 4 schema_id ++ payload).

(** [relay/wireschema.py] SchemaEnvelope.decode *)
Definition decode (self : t) (data : bytes) : result (Z * bytes) :=
  if zlen data <? _PREFIX then Err Invalid
  else
    magic ← py_index data 0;
    if negb (b2z magic =? _MAGIC) then Err Invalid
    else
      let schema_id := be_combine (take 4 (drop 1 data)) in
      if bool_decide (schema_id ∉ known_ids self) then Err Invalid
      else Ok (schema_id, drop 5 data).

(** [relay/wireschema.py] SchemaEnvelope.describe: the id and the length in the message *)
Definition describe (self : t) (data : bytes) : result (Z * Z) :=
  d ← decode self data; Ok (d.1, zlen d.2).
End SchemaEnvelope.
End wireschema.
Import wireschema.

(** ** Patterns *)

Lemma startswith_spec s p : startswith s p = true ↔ ∃ q, s = p +:+ q.
Proof.
  revert s. induction p as [|c p IH]; intros s.
  - destruct s; cbn; (split; [intros _; by eexists|done]).
  - destruct s as [|c' s]; cbn [startswith]; [split; [done|by intros [q [=]]]|].
    rewrite andb_true_iff, bool_decide_eq_true, IH. split.
    + intros [-> [q ->]]. by exists q.
    + intros [q [= -> ->]]. split; [done|by exists q].
Qed.

Lemma slength_app (a b : string) : String.length (a +:+ b) = (String.length a + String.length b)%nat.
Proof. induction a as [|c a IH]; [done|]. exact (f_equal S IH). Qed.

Lemma ends_star_app p : ends_star (p +:+ "*") = true ∧ drop_last_char (p +:+ "*") = p.
Proof.
  unfold ends_star, drop_last_char. rewrite slength_app. cbn [String.length].
  replace (String.length p + 1 - 1)%nat with (String.length p) by lia. split.
  - apply bool_decide_eq_true. induction p as [|c p IH]; [by vm_compute|exact IH].
  - induction p as [|c p IH]; [by vm_compute|]. exact (f_equal (String c) IH).
Qed.

(** a resource pattern: a name, or a prefix followed by a star *)
Lemma resource_match_prefix r p resource :
  Rule.resource r = p +:+ "*" →
  Rule._resource_match r resource = true ↔ ∃ q, resource = p +:+ q.
Proof.
  intros Hr. unfold Rule._resource_match. rewrite Hr. destruct (ends_star_app p) as [-> ->].
  apply startswith_spec.
Qed.

Lemma resource_match_exact r resource :
  ends_star (Rule.resource r) = false →
  Rule._resource_match r resource = true ↔ resource = Rule.resource r.
Proof.
  intros Hr. unfold Rule._resource_match. rewrite Hr, bool_decide_eq_true. naive_solver.
Qed.

(** ** Authorization *)

(** Some rule of the list decides the request this way. *)
Definition decides (rules : list Rule.t) (principal operation resource : string) (way : bool) : Prop :=
  ∃ r, r ∈ rules ∧ Rule.matches r principal operation resource = true ∧ Rule.allow r = way.

Definition permitted (rules : list Rule.t) (p o r : string) : Prop :=
  decides rules p o r true ∧ ¬ decides rules p o r false.

Lemma decides_existsb rules p o res way :
  existsb (λ r, bool_decide (Rule.allow r = way)) (List.filter (λ r, Rule.matches r p o res) rules) = true
  ↔ decides rules p o res way.
Proof.
  rewrite existsb_exists. unfold decides. split.
  - intros (r & [Hin Hm]%filter_In & Ha%bool_decide_eq_true). exists r. by rewrite list_elem_of_In.
  - intros (r & Hin%list_elem_of_In & Hm & Ha). exists r. rewrite filter_In, bool_decide_eq_true. done.
Qed.

(** the entry of the audit log *)
Definition denial (p o r : string) : string := p +:+ " denied " +:+ o +:+ " on " +:+ r.

Lemma allowed_run s p o res :
  (permitted (Authorizer.rules s) p o res ∧ Authorizer.allowed p o res s = (s, Ok true))
  ∨ (¬ permitted (Authorizer.rules s) p o res ∧ Authorizer.allowed p o res s
     = (Authorizer.mk (Authorizer.rules s) (Authorizer.denials_logged s ++ [denial p o res]), Ok false)).
Proof.
  pose proof (decides_existsb (Authorizer.rules s) p o res false) as Hf.
  pose proof (decides_existsb (Authorizer.rules s) p o res true) as Ht.
  unfold Authorizer.allowed. rewrite bind_get. set (l := List.filter _ _) in *.
  assert (Hnot : existsb (λ r, negb (Rule.allow r)) l = existsb (λ r, bool_decide (Rule.allow r = false)) l).
  { clear. induction l as [|r l IH]; [done|]. cbn. rewrite IH. by destruct (Rule.allow r). }
  assert (Hyes : existsb Rule.allow l = existsb (λ r, bool_decide (Rule.allow r = true)) l).
  { clear. induction l as [|r l IH]; [done|]. cbn. rewrite IH. by destruct (Rule.allow r). }
  rewrite Hnot, Hyes. unfold permitted.
  destruct (existsb (λ r, bool_decide (Rule.allow r = false)) l).
  - right. split; [intros [_ Hn]; by apply Hn, Hf|done].
  - destruct (existsb (λ r, bool_decide (Rule.allow r = true)) l).
    + left. split; [|done]. split; [by apply Ht|]. intros Hd%Hf. done.
    + right. split; [|done]. intros [Hd%Ht _]. done.
Qed.

(** Also (safety): authorization fails closed. A request is permitted exactly when some rule that
    matches it allows and none that matches it denies, whatever the order of the rules; with no
    matching rule it is refused. A permitted request changes nothing; a refused one raises
    Invalid and appends exactly one entry to the audit log. A grant or a denial of an operation
    that does not exist raises Invalid and adds no rule. *)
Theorem authorize_fails_closed s p o res :
  (is_ok (value_of (Authorizer.authorize p o res) s) = true ↔ permitted (Authorizer.rules s) p o res)
  ∧ (permitted (Authorizer.rules s) p o res → state_of (Authorizer.authorize p o res) s = s)
  ∧ (¬ permitted (Authorizer.rules s) p o res →
       Authorizer.authorize p o res s
       = (Authorizer.mk (Authorizer.rules s) (Authorizer.denials_logged s ++ [denial p o res]), Err Invalid))
  ∧ (∀ rules', rules' ≡ₚ Authorizer.rules s → permitted rules' p o res ↔ permitted (Authorizer.rules s) p o res)
  ∧ (∀ way, o ∉ OPERATIONS → o ≠ "*"%string → Authorizer._add p o res way s = (s, Err Invalid)).
Proof.
  assert (Hrun : Authorizer.authorize p o res s
    = match Authorizer.allowed p o res s with
      | (s', Ok true) => (s', Ok (p +:+ " may " +:+ o +:+ " " +:+ res))
      | (s', Ok false) => (s', Err Invalid)
      | (s', Err e) => (s', Err e)
      end).
  { unfold Authorizer.authorize. rewrite bind_run. by destruct (Authorizer.allowed p o res s) as [? [[|]|]]. }
  assert (Hperm : ∀ rules', rules' ≡ₚ Authorizer.rules s →
            permitted rules' p o res ↔ permitted (Authorizer.rules s) p o res).
  { intros rules' Heq. unfold permitted, decides. by setoid_rewrite Heq. }
  assert (Hadd : ∀ way, o ∉ OPERATIONS → o ≠ "*"%string → Authorizer._add p o res way s = (s, Err Invalid)).
  { intros way Ho Hs. unfold Authorizer._add. rewrite bind_raise_if, bool_decide_eq_false_2; [done|].
    rewrite elem_of_app, list_elem_of_singleton. tauto. }
  unfold value_of, state_of. rewrite Hrun.
  destruct (allowed_run s p o res) as [[Hp ->]|[Hp ->]]; cbn [fst snd is_ok].
  - split_and!; [done|done|done|done|done].
  - split_and!; [by split|done|done|done|done].
Qed.

Lemma authorize_fails_closed_witness :
  let s := state_of (Authorizer.grant "ann" "*" "orders-*";; Authorizer.deny "ann" "delete" "*")%string
             Authorizer.make in
  state_of (Authorizer.authorize "ann" "read" "orders-eu"%string) s = s
  ∧ value_of (Authorizer.authorize "ann" "delete" "orders-eu"%string) s = Err Invalid.
Proof.
  set (s := state_of _ _). split.
  - apply (authorize_fails_closed s "ann" "read" "orders-eu"%string).
    apply (proj1 (authorize_fails_closed s "ann" "read" "orders-eu"%string)). vm_compute. reflexivity.
  - destruct (authorize_fails_closed s "ann" "delete" "orders-eu"%string) as (_ & _ & H & _).
    unfold value_of. rewrite H; [reflexivity|]. intros [_ Hn]. apply Hn.
    exists (Rule.mk "ann" "delete" "*" false). split; [|split; reflexivity].
    vm_compute. repeat constructor.
Defined.

(** ** The most specific rule *)

(** Also (functional): among the matching rules only those of the highest specificity count
    (literal over prefix over wildcard); one deny among them denies, and no match denies. *)
Theorem acl_most_specific rules resource :
  let matching r := r ∈ rules ∧ AclRule.matches r resource = true in
  let best r := matching r ∧ ∀ r', matching r' → AclRule.specificity r' <= AclRule.specificity r in
  match evaluate rules resource with
  | no_rule => ∀ r, ¬ matching r
  | decided true r _ => best r ∧ AclRule.allow r = true ∧ ∀ r', best r' → AclRule.allow r' = true
  | decided false r tie => best r ∧ AclRule.allow r = false
      ∧ (tie = true ↔ ∃ r', best r' ∧ AclRule.allow r' = true)
  end.
Proof.
  intros matching best. unfold evaluate.
  assert (Hm : ∀ r, r ∈ List.filter (λ r, AclRule.matches r resource) rules ↔ matching r).
  { intros r. rewrite list_elem_of_In, filter_In, <- list_elem_of_In. done. }
  destruct (List.filter (λ r, AclRule.matches r resource) rules) as [|r0 l0].
  { intros r Hr%Hm. by apply elem_of_nil in Hr. }
  set (l := r0 :: l0) in *. set (top := py_max _ _).
  assert (Hattained : ∃ r', matching r' ∧ AclRule.specificity r' = top).
  { pose proof (py_max_elem (AclRule.specificity r0) (AclRule.specificity <$> l)) as [Ht|Ht]%elem_of_cons.
    - exists r0. split; [apply Hm; by left|done].
    - apply list_elem_of_fmap in Ht as (r' & Heq & Hr'). exists r'. by rewrite <- Hm. }
  assert (Hc : ∀ r, r ∈ List.filter (λ r, AclRule.specificity r =? top) l ↔ best r).
  { intros r. rewrite list_elem_of_In, filter_In, <- list_elem_of_In, Hm, Z.eqb_eq. unfold best.
    assert (Hge : ∀ r', matching r' → AclRule.specificity r' <= top).
    { intros r' Hr'%Hm. apply py_max_ge. right. apply list_elem_of_fmap_2, Hr'. }
    split; [intros [Hr <-]; done|]. intros [Hr Hbest]. split; [done|].
    destruct Hattained as (r' & Hr' & Htop).
    specialize (Hge r Hr). specialize (Hbest r' Hr'). lia. }
  set (cs := List.filter (λ r, AclRule.specificity r =? top) l) in *.
  assert (Hd : ∀ r, r ∈ List.filter (λ r, negb (AclRule.allow r)) cs ↔ best r ∧ AclRule.allow r = false).
  { intros r. rewrite list_elem_of_In, filter_In, <- list_elem_of_In, Hc, negb_true_iff. done. }
  destruct (List.filter (λ r, negb (AclRule.allow r)) cs) as [|d ds].
  - assert (Hallow : ∀ r, best r → AclRule.allow r = true).
    { intros r Hr. destruct (AclRule.allow r) eqn:Ha; [done|].
      exfalso. by apply (elem_of_nil r), Hd. }
    destruct cs as [|c cs'].
    + exfalso. destruct Hattained as (r' & Hr' & Htop).
      apply (elem_of_nil r'), Hc. split; [done|]. intros r'' Hr''%Hm. rewrite Htop.
      apply py_max_ge. right. apply list_elem_of_fmap_2, Hr''.
    + assert (best c) as Hbc by (apply Hc; by left). by rewrite (Hallow c Hbc).
  - assert (best d ∧ AclRule.allow d = false) as [Hbd Had] by (apply Hd; by left).
    split_and!; [done|done|]. rewrite existsb_exists. split.
    + intros (r' & Hr' & Ha). exists r'. split; [|done]. apply Hc. by apply list_elem_of_In.
    + intros (r' & Hr' & Ha). exists r'. split; [|done]. by apply list_elem_of_In, Hc.
Qed.

(** ** Schema versions *)

(** Both schemas have every field the other one requires. *)
Definition compatible (s1 s2 : Schema.t) : Prop :=
  Schema.required_names s1 ⊆ Schema.field_names s2 ∧ Schema.required_names s2 ⊆ Schema.field_names s1.

Lemma compatible_sym s1 s2 : compatible s1 s2 ↔ compatible s2 s1.
Proof. unfold compatible. tauto. Qed.

Lemma added_required_spec (old new : Schema.t) :
  (list_to_set (Field.name <$> List.filter
     (λ f, Field.required f && negb (bool_decide (Field.name f ∈ Schema.field_names old)))
     (Schema.fields new)) : gset string)
  = Schema.required_names new ∖ Schema.field_names old.
Proof.
  apply set_eq. intros x. unfold Schema.required_names.
  rewrite elem_of_difference, !elem_of_list_to_set, !list_elem_of_fmap.
  setoid_rewrite list_elem_of_In. setoid_rewrite filter_In. split.
  - intros (f & -> & Hin & [Hr Hn%negb_true_iff%bool_decide_eq_false]%andb_true_iff).
    split; [by exists f|done].
  - intros [(f & -> & Hin & Hr) Hn]. exists f. split_and!; [done..|].
    apply andb_true_iff. split; [done|]. by apply negb_true_iff, bool_decide_eq_false.
Qed.

Lemma backward_ok_spec old new : _backward_ok old new = None ↔ compatible old new.
Proof.
  unfold _backward_ok, compatible. rewrite added_required_spec.
  assert (Hsub : ∀ X Y : gset string, X ∖ Y = ∅ ↔ X ⊆ Y).
  { intros X Y. split; [apply empty_difference_subseteq_L|apply subseteq_empty_difference_L]. }
  rewrite <- !Hsub. case_bool_decide; [split; [done|tauto]|].
  case_bool_decide; [split; [done|tauto]|]. done.
Qed.

Lemma check_latest_spec mode latest schema :
  mode ∈ MODES →
  SchemaRegistry.check_latest mode latest schema = None ↔ mode = NONE ∨ compatible latest schema.
Proof.
  intros Hmode. unfold SchemaRegistry.check_latest, _forward_ok.
  pose proof (backward_ok_spec latest schema) as Hb. pose proof (backward_ok_spec schema latest) as Hf.
  rewrite (compatible_sym schema latest) in Hf. unfold MODES in Hmode.
  rewrite !elem_of_cons in Hmode.
  destruct Hmode as [->|[->|[->|[->|[]%elem_of_nil]]]]; cbn.
  all: destruct (_backward_ok latest schema); destruct (_backward_ok schema latest).
  all: naive_solver.
Qed.

Inductive registry_op := SetMode (topic mode : string) | Register (topic : string) (schema : Schema.t).

Definition registry_step (op : registry_op) (s : SchemaRegistry.t) : SchemaRegistry.t :=
  match op with
  | SetMode topic mode => state_of (SchemaRegistry.set_mode topic mode) s
  | Register topic schema => state_of (SchemaRegistry.register topic schema) s
  end.

Definition mode_of (s : SchemaRegistry.t) (topic : string) : string :=
  d_getd (SchemaRegistry.modes s) topic BACKWARD.
Definition history (s : SchemaRegistry.t) (topic : string) : list Schema.t :=
  d_getd (SchemaRegistry.schemas s) topic [].

Lemma modes_ok ops topic : mode_of (run registry_step ops SchemaRegistry.make) topic ∈ MODES.
Proof.
  revert topic. apply (run_invariant registry_step (λ s, ∀ topic, mode_of s topic ∈ MODES)).
  - intros [topic' mode|topic' schema] s Hs topic; cbn [registry_step]; unfold state_of.
    + unfold SchemaRegistry.set_mode. rewrite bind_raise_if.
      case_bool_decide as Hm; cbn [negb fst]; [|apply Hs]. rewrite run_modify. cbn [fst].
      unfold mode_of. cbn [SchemaRegistry.modes]. rewrite d_getd_set. case_bool_decide; [done|apply Hs].
    + unfold SchemaRegistry.register. rewrite bind_get, bind_put, bind_raise_if.
      case_match; cbn [fst]; [apply Hs|]. rewrite run_modify. apply Hs.
  - intros topic. left.
Qed.

Lemma register_run s topic schema :
  mode_of s topic ∈ MODES →
  let ok := ∀ latest, last (history s topic) = Some latest → mode_of s topic = NONE ∨ compatible latest schema in
  (ok ∧ ∃ s', SchemaRegistry.register topic schema s = (s', Ok ())
     ∧ (∀ t, history s' t = if bool_decide (t = topic) then history s topic ++ [schema] else history s t)
     ∧ ∀ t, mode_of s' t = mode_of s t)
  ∨ (¬ ok ∧ ∃ s', SchemaRegistry.register topic schema s = (s', Err Invalid)
     ∧ ∀ t, history s' t = history s t ∧ mode_of s' t = mode_of s t).
Proof.
  intros Hm ok. unfold SchemaRegistry.register. rewrite bind_get, bind_put, bind_raise_if.
  fold (mode_of s topic) (history s topic).
  assert (Hput : ∀ t l, d_getd (d_set (SchemaRegistry.schemas s) topic l) t [] =
            if bool_decide (t = topic) then l else history s t).
  { intros t l. by rewrite d_getd_set. }
  destruct (match last (history s topic) with Some _ => _ | None => _ end) eqn:Hb.
  - right. split.
    + intros Hok. destruct (last (history s topic)) as [latest|]; [|done].
      apply bool_decide_eq_true in Hb as [p Hp]. specialize (Hok latest eq_refl).
      apply check_latest_spec in Hok; [congruence|done].
    + eexists. split; [reflexivity|]. intros t. split; [|done]. unfold history at 1.
      cbn [SchemaRegistry.schemas]. rewrite Hput. case_bool_decide; by subst.
  - left. split.
    + intros latest Hl. rewrite Hl in Hb. apply bool_decide_eq_false in Hb.
      apply check_latest_spec; [done|]. destruct (SchemaRegistry.check_latest _ _ _); [|done].
      exfalso. apply Hb. eauto.
    + rewrite run_modify. eexists. split; [reflexivity|]. split; [|done]. intros t.
      unfold history at 1. cbn [SchemaRegistry.schemas]. rewrite !d_getd_set.
      case_bool_decide; by rewrite ?Hput.
Qed.

(** Also (invariant): a registry admits only compatible versions. From the empty registry, after
    any sequence of mode changes and registrations (a mode that does not exist is refused), a
    registration is accepted exactly when the topic has no version yet, its mode is none, or the
    latest version and the new one each have every field the other requires; it is then appended
    to the topic's history and touches no other topic; otherwise it raises Invalid and no history
    or mode changes. *)
Theorem schema_registry_admits ops topic schema :
  let s := run registry_step ops SchemaRegistry.make in
  let ok := ∀ latest, last (history s topic) = Some latest → mode_of s topic = NONE ∨ compatible latest schema in
  let s' := state_of (SchemaRegistry.register topic schema) s in
  (value_of (SchemaRegistry.register topic schema) s = Ok () ↔ ok)
  ∧ (¬ ok → value_of (SchemaRegistry.register topic schema) s = Err Invalid)
  ∧ (ok → ∀ t, history s' t = if bool_decide (t = topic) then history s topic ++ [schema] else history s t)
  ∧ (¬ ok → ∀ t, history s' t = history s t)
  ∧ (∀ t, mode_of s' t = mode_of s t).
Proof.
  intros s ok s'. subst s'. unfold value_of, state_of.
  destruct (register_run s topic schema (modes_ok ops topic)) as
    [(Hok & s' & -> & Hh & Hmd)|(Hok & s' & -> & Hboth)]; cbn [fst snd]; fold ok in Hok.
  - split_and!; [done|done|done|done|done].
  - split_and!; [by split|done|done|intros _ t; apply Hboth|intros t; apply Hboth].
Qed.

Lemma schema_registry_admits_witness :
  let id := Field.mk "id" true in let note := Field.mk "note" in
  value_of (SchemaRegistry.register "t"%string (Schema.mk 2 [id; note true]))
    (run registry_step [Register "t"%string (Schema.mk 1 [id])] SchemaRegistry.make) = Err Invalid.
Proof.
  intros id note.
  destruct (schema_registry_admits [Register "t"%string (Schema.mk 1 [id])] "t"
    (Schema.mk 2 [id; note true])) as (_ & H & _).
  apply H. intros Hok. specialize (Hok (Schema.mk 1 [id]) eq_refl).
  destruct Hok as [Hm|[_ Hsub]]; [revert Hm; vm_compute; intros [=]|].
  revert Hsub. apply (bool_decide_unpack (¬ (_ ⊆ _))). vm_compute. exact I.
Defined.

(** The three modes refuse the same evolutions: full demands no more than either half. *)
Theorem schema_modes_agree latest schema :
  (SchemaRegistry.check_latest BACKWARD latest schema = None
   ↔ SchemaRegistry.check_latest FULL latest schema = None)
  ∧ (SchemaRegistry.check_latest FORWARD latest schema = None
     ↔ SchemaRegistry.check_latest FULL latest schema = None).
Proof.
  assert (Hin : ∀ m, m ∈ MODES → m ≠ NONE →
    SchemaRegistry.check_latest m latest schema = None ↔ compatible latest schema).
  { intros m Hm Hn. rewrite check_latest_spec by done. tauto. }
  rewrite !Hin; [done|..]; by (apply (bool_decide_unpack _); vm_compute; exact I).
Qed.

(** ** Reading with another schema *)

Section resolution.
Context {V : Type} (has_type : V → string → Prop).
Implicit Types (record out : pydict string V) (types : pydict string string) (rf : ReaderField V).

(** what the reader sees for a field *)
Definition resolved record types rf : option V :=
  match d_get record (name rf) with
  | Some v => if bool_decide (d_get types (name rf) = Some (type_name rf)) then Some v else None
  | None => if has_default rf then Some (default_ rf) else None
  end.

Lemma resolve_fields_run record types fields out :
  NoDup (name <$> fields) → (∀ rf, rf ∈ fields → name rf ∉ d_keys out) →
  match resolve_fields record types fields out with
  | Ok out' => d_keys out' = d_keys out ++ (name <$> fields)
      ∧ (∀ rf, rf ∈ fields → is_Some (resolved record types rf) ∧ d_get out' (name rf) = resolved record types rf)
      ∧ (∀ k, k ∉ name <$> fields → d_get out' k = d_get out k)
  | Err e => e = Invalid ∧ ∃ rf, rf ∈ fields ∧ resolved record types rf = None
  end.
Proof.
  revert out. induction fields as [|rf fields IH]; intros out Hnd Hfresh; cbn [resolve_fields].
  { rewrite app_nil_r. split_and!; [done|by intros ? ?%elem_of_nil|done]. }
  rewrite fmap_cons in Hnd. inversion Hnd as [|? ? Hrf Hnd']; subst.
  assert (Hstep : ∀ v, resolved record types rf = Some v →
    match resolve_fields record types fields (d_set out (name rf) v) with
    | Ok out' => d_keys out' = d_keys out ++ (name <$> rf :: fields)
        ∧ (∀ rf', rf' ∈ rf :: fields → is_Some (resolved record types rf')
             ∧ d_get out' (name rf') = resolved record types rf')
        ∧ (∀ k, k ∉ name <$> rf :: fields → d_get out' k = d_get out k)
    | Err e => e = Invalid ∧ ∃ rf', rf' ∈ rf :: fields ∧ resolved record types rf' = None
    end).
  { intros v Hv. assert (Hk : name rf ∉ d_keys out) by (apply Hfresh; by left).
    specialize (IH (d_set out (name rf) v) Hnd').
    destruct (resolve_fields record types fields _) as [out'|e].
    - destruct IH as (H1 & H2 & H3).
      { intros rf' Hin. rewrite d_keys_set_fresh, elem_of_app, list_elem_of_singleton by done.
        intros [Hi|Hi]; [by eapply Hfresh; [right|]|]. apply Hrf. rewrite <- Hi. by apply list_elem_of_fmap_2. }
      split_and!.
      + by rewrite H1, d_keys_set_fresh, <- app_assoc.
      + intros rf' [->|Hin]%elem_of_cons; [|by apply H2]. rewrite H3 by done.
        rewrite d_get_set_eq, Hv. split; [by eexists|done].
      + intros k Hk'. rewrite fmap_cons in Hk'. apply not_elem_of_cons in Hk' as [Hne Hk'].
        rewrite H3 by done. by apply d_get_set_ne.
    - destruct IH as [-> (rf' & Hin & Hn)].
      { intros rf' Hin. rewrite d_keys_set_fresh, elem_of_app, list_elem_of_singleton by done.
        intros [Hi|Hi]; [by eapply Hfresh; [right|]|]. apply Hrf. rewrite <- Hi. by apply list_elem_of_fmap_2. }
      split; [done|]. exists rf'. split; [by right|done]. }
  unfold resolved in Hstep at 1. destruct (d_get record (name rf)) as [v|] eqn:Hr.
  - destruct (decide (d_get types (name rf) = Some (type_name rf))) as [Ht|Ht].
    + rewrite bool_decide_eq_false_2 by naive_solver. apply Hstep. by rewrite bool_decide_eq_true_2.
    + rewrite bool_decide_eq_true_2 by done. split; [done|]. exists rf. split; [by left|].
      unfold resolved. rewrite Hr. by rewrite bool_decide_eq_false_2.
  - destruct (has_default rf) eqn:Hd; [by apply Hstep|]. split; [done|]. exists rf.
    split; [by left|]. unfold resolved. by rewrite Hr, Hd.
Qed.

(** C35 (type): schema resolution is type sound. When every value of the record has the type its
    writer declared and every default the type of its field, a record that resolves has exactly
    the reader's fields, in the reader's order, each with a value of the reader's type: the
    record's own where the writer had the field, the default elsewhere. Resolution raises Invalid
    exactly when some reader field was written with another type, or is absent and has no
    default; nothing of the writer that the reader did not ask for is kept. *)
Theorem schema_resolution_sound (fields : list (ReaderField V)) record types :
  NoDup (name <$> fields) →
  (∀ k v, d_get record k = Some v → ∃ t, d_get types k = Some t ∧ has_type v t) →
  (∀ rf, rf ∈ fields → has_default rf = true → has_type (default_ rf) (type_name rf)) →
  match resolve fields record types with
  | Ok out =>
      d_keys out = name <$> fields
      ∧ ∀ rf, rf ∈ fields → ∃ v, d_get out (name rf) = Some v ∧ has_type v (type_name rf)
          ∧ v = default (default_ rf) (d_get record (name rf))
  | Err e => e = Invalid ∧ ∃ rf, rf ∈ fields ∧
      ((∃ v t, d_get record (name rf) = Some v ∧ d_get types (name rf) = Some t ∧ t ≠ type_name rf)
       ∨ (d_get record (name rf) = None ∧ has_default rf = false))
  end.
Proof.
  intros Hnd Hw Hdef. unfold resolve.
  pose proof (resolve_fields_run record types fields [] Hnd) as Hrun.
  destruct (resolve_fields record types fields []) as [out|e].
  - destruct Hrun as (H1 & H2 & _); [by intros rf _ ?%elem_of_nil|]. split; [exact H1|].
    intros rf Hin. destruct (H2 rf Hin) as [[v Hv] ->]. exists v. split; [done|].
    unfold resolved in Hv. destruct (d_get record (name rf)) as [v'|] eqn:Hr; cbn [default].
    + case_bool_decide as Ht; [|done]. simplify_eq. destruct (Hw _ _ Hr) as (t & Ht' & Hty).
      split; [|done]. by simplify_eq.
    + destruct (has_default rf) eqn:Hd; simplify_eq. split; [by apply Hdef|done].
  - destruct Hrun as (-> & rf & Hin & Hn); [by intros rf _ ?%elem_of_nil|]. split; [done|]. exists rf.
    split; [done|]. unfold resolved in Hn. destruct (d_get record (name rf)) as [v'|] eqn:Hr.
    + case_bool_decide as Ht; [done|]. destruct (Hw _ _ Hr) as (t & Ht' & Hty). left. exists v', t.
      split_and!; [done|done|]. intros ->. done.
    + right. by destruct (has_default rf).
Qed.
End resolution.

Definition int_or_str (v : Z + string) (t : string) : Prop :=
  match v with inl _ => t = "int"%string | inr _ => t = "str"%string end.

Lemma schema_resolution_sound_witness :
  let fields : list (ReaderField (Z + string)) :=
    [{| name := "id"; type_name := "int"; default_ := inl 0; has_default := false |};
     {| name := "lang"; type_name := "str"; default_ := inr "en"; has_default := true |}]%string in
  match resolve fields [("id", inl 7); ("old", inl 1)]%string [("id", "int"); ("old", "int")]%string with
  | Ok out => d_keys out = ["id"; "lang"]%string
  | Err _ => False
  end.
Proof.
  intros fields.
  pose proof (schema_resolution_sound int_or_str fields
    [("id", inl 7); ("old", inl 1)]%string [("id", "int"); ("old", "int")]%string) as H.
  refine (proj1 (H _ _ _)).
  - apply (bool_decide_unpack _). vm_compute. exact I.
  - intros k v. cbn. repeat case_bool_decide; intros [= <-]; by eexists.
  - intros rf Hin Hd. apply elem_of_cons in Hin as [->|Hin]; [done|].
    apply elem_of_cons in Hin as [->|Hin]; [done|]. by apply elem_of_nil in Hin.
Defined.

(** ** The schema id on the wire *)

Lemma be_split_combine bs : be_split (length bs) (be_combine bs) = bs.
Proof.
  induction bs as [|b bs IH] using rev_ind; [done|]. unfold be_combine in *.
  rewrite length_app, Nat.add_1_r, foldl_snoc. cbn [be_split].
  rewrite Z.div_add_l, (Z.div_small (b2z b)), Z.add_0_r by (pose proof (b2z_range b); lia).
  rewrite IH. f_equal. f_equal. apply b2z_inj. rewrite b2z_z2b.
  pose proof (b2z_range b). rewrite Z.add_comm, Z.mod_add by lia. by apply Z.mod_small.
Qed.

Lemma be_combine_range bs : 0 <= be_combine bs < 256 ^ zlen bs.
Proof.
  unfold be_combine. induction bs as [|b bs IH] using rev_ind; [done|].
  pose proof (zlen_nonneg bs). pose proof (b2z_range b).
  rewrite foldl_snoc, zlen_app. change (zlen [b]) with 1. rewrite Z.pow_add_r by lia.
  change (256 ^ 1) with 256. lia.
Qed.

(** Also (roundtrip): the schema envelope is a faithful framing. Every id of four bytes with any
    payload encodes to its five-byte prefix followed by the payload, and decodes to what was
    encoded exactly when the id is registered; whatever decodes is the encoding of the id and
    payload it decodes to; an id outside four bytes, a buffer shorter than the prefix, another
    magic byte and an id not registered are refused with Invalid, and nothing else is. *)
Theorem schema_envelope_roundtrip (self : SchemaEnvelope.t) :
  (∀ id payload,
     match SchemaEnvelope.encode id payload with
     | Ok data => 0 <= id < 2 ^ 32 ∧ zlen data = _PREFIX + zlen payload
         ∧ SchemaEnvelope.decode self data
           = if bool_decide (id ∈ SchemaEnvelope.known_ids self) then Ok (id, payload) else Err Invalid
     | Err e => e = Invalid ∧ ¬ (0 <= id < 2 ^ 32)
     end)
  ∧ (∀ data,
     match SchemaEnvelope.decode self data with
     | Ok (id, payload) => SchemaEnvelope.encode id payload = Ok data ∧ id ∈ SchemaEnvelope.known_ids self
     | Err e => e = Invalid ∧ (zlen data < _PREFIX ∨ (∃ b, head data = Some b ∧ b2z b ≠ _MAGIC)
         ∨ ∃ id payload, SchemaEnvelope.encode id payload = Ok data ∧ id ∉ SchemaEnvelope.known_ids self)
     end).
Proof.
  split.
  - intros id payload. unfold SchemaEnvelope.encode.
    destruct (Z.ltb_spec id 0), (Z.ltb_spec 0xffffffff id); cbn [orb]; try (split; [done|lia]).
    assert (Hid : 0 <= id < 256 ^ Z.of_nat 4) by (cbn; lia).
    assert (Hlen : zlen ([z2b _MAGIC] ++ be_split 4 id ++ payload) = _PREFIX + zlen payload).
    { unfold zlen. rewrite !length_app, be_split_length. unfold _PREFIX. cbn [length]. lia. }
    split_and!; [lia|lia|exact Hlen|]. unfold SchemaEnvelope.decode. rewrite Hlen.
    pose proof (zlen_nonneg payload). destruct (Z.ltb_spec (_PREFIX + zlen payload) _PREFIX); [lia|].
    rewrite (py_index_nonneg _ 0 (z2b _MAGIC)) by done. cbn [mbind result_bind].
    assert (b2z (z2b _MAGIC) =? _MAGIC = true) as -> by done. cbn [negb].
    assert (Htake : take 4 (drop 1 ([z2b _MAGIC] ++ be_split 4 id ++ payload)) = be_split 4 id).
    { cbn [app drop]. apply take_app_length'. by rewrite be_split_length. }
    assert (Hdrop : drop 5 ([z2b _MAGIC] ++ be_split 4 id ++ payload) = payload).
    { cbn [app drop]. apply drop_app_length'. by rewrite be_split_length. }
    rewrite Htake, Hdrop, be_combine_split by done. by repeat case_bool_decide.
  - intros data. unfold SchemaEnvelope.decode.
    destruct (Z.ltb_spec (zlen data) _PREFIX) as [Hs|Hs]; [split; [done|by left]|].
    destruct data as [|b data]; [by cbn in Hs|].
    rewrite (py_index_nonneg _ 0 b) by done. cbn [mbind result_bind].
    destruct (Z.eqb_spec (b2z b) _MAGIC) as [Hb|Hb]; cbn [negb];
      [|split; [done|right; left; by exists b]].
    assert (Hb' : b = z2b _MAGIC) by (rewrite <- Hb; by rewrite z2b_b2z).
    cbn [drop]. rewrite zlen_cons in Hs. unfold _PREFIX, zlen in Hs.
    set (hd := take 4 data). assert (Hhd : length hd = 4%nat) by (unfold hd; rewrite length_take; lia).
    pose proof (be_combine_range hd) as Hr. unfold zlen in Hr. rewrite Hhd in Hr. cbn in Hr.
    assert (Henc : SchemaEnvelope.encode (be_combine hd) (drop 4 data) = Ok (b :: data)).
    { unfold SchemaEnvelope.encode.
      destruct (Z.ltb_spec (be_combine hd) 0), (Z.ltb_spec 0xffffffff (be_combine hd)); cbn [orb]; try lia.
      rewrite <- Hhd at 1. rewrite be_split_combine. unfold hd. rewrite take_drop. by rewrite Hb'. }
    case_bool_decide as Hk.
    + split; [done|]. right; right. by eexists _, _.
    + split; [exact Henc|]. done.
Qed.
