(* ===== verification/Streams.v ===== *)
(** * The stream layer

    [relay/sessionwindow.py] groups records by gaps of inactivity; [relay/streamjoin.py]
    joins two streams within a window of time and [relay/tablejoin.py] two tables by key;
    [relay/suppression.py] holds a window's result back until it is final;
    [relay/windowstore.py] and [relay/statestore.py] keep the state of the operators;
    [relay/watermarkgen.py] says how far event time has come. *)

From S2P Require Import Prelude PyDict PyBytes.

Module sessionwindow.
Module SessionWindows.
(** [relay/sessionwindow.py] class SessionWindows *)
Record t := mk { gap : Z; sessions : list (list Z) }.

(** [relay/sessionwindow.py] SessionWindows.__post_init__ *)
Definition make (gap : Z) : result t := if gap <? 1 then Err Invalid else Ok (mk gap []).

(** [relay/sessionwindow.py] SessionWindows._within *)
Definition _within (self : t) (session : list Z) (time : Z) : result bool :=
  first ← py_index session 0;
  last ← py_index session (-1);
  Ok ((first - gap self <=? time) && (time <=? last + gap self)).

(** [relay/sessionwindow.py:53-54] SessionWindows.add *)
Fixpoint divide (self : t) (time : Z) (sessions : list (list Z)) : result (list (list Z) * list (list Z)) :=
  match sessions with
  | [] => Ok ([], [])
  | s :: sessions =>
      w ← _within self s time;
      rest ← divide self time sessions;
      Ok (if w : bool then (s :: rest.1, rest.2) else (rest.1, s :: rest.2))
  end.

(** [key=lambda s: s[0]], of sessions that are not empty *)
Definition by_first (s1 s2 : list Z) : Prop := hd 0 s1 <= hd 0 s2.
#[global] Instance by_first_dec : RelDecision by_first := λ s1 s2, Z.le_dec _ _.

#[global] Instance by_first_total : Total by_first.
Proof. intros s1 s2. unfold by_first. lia. Qed.
#[global] Instance by_first_trans : Transitive by_first.
Proof. intros s1 s2 s3. unfold by_first. lia. Qed.

(** [relay/sessionwindow.py] SessionWindows.add *)
Definition add (time : Z) : act t unit :=
  self ← get;
  parts ← pure_of (divide self time (sessions self));
  let '(touching, others) := parts in
  let merged := py_sorted Z.le (mjoin touching ++ [time]) in
  put (mk (gap self) (py_sorted by_first (others ++ [merged]))).

(** [relay/sessionwindow.py] SessionWindows.session_bounds *)
Definition session_bounds (self : t) : list (Z * Z) :=
  (λ s, (hd 0 s, List.last s 0)) <$> sessions self.

(** [relay/sessionwindow.py] SessionWindows.report: the number of sessions in the message *)
Definition report (self : t) : Z := zlen (sessions self).
End SessionWindows.
End sessionwindow.
Import sessionwindow.

Module streamjoin.
Module StreamJoin.
(** [relay/streamjoin.py] class StreamJoin *)
Record t := mk {
  window : Z;
  left_state : list (string * Z);
  right_state : list (string * Z);
}.

(** [relay/streamjoin.py] StreamJoin.__post_init__ *)
Definition make (window left_partitions right_partitions : Z) : result t :=
  if negb (left_partitions =? right_partitions) then Err Invalid
  else if window <? 0 then Err Invalid
  else Ok (mk window [] []).

(** [relay/streamjoin.py] StreamJoin._expire *)
Definition _expire (self : t) (state : list (string * Z)) (now : Z) : list (string * Z) :=
  List.filter (λ p, now - p.2 <=? window self) state.

(** [k == key and abs(time - t) <= self.window] *)
Definition meets (self : t) (key : string) (time : Z) (p : string * Z) : bool :=
  bool_decide (p.1 = key) && (Z.abs (time - p.2) <=? window self).

(** [relay/streamjoin.py] StreamJoin.arrive_left *)
Definition arrive_left (key : string) (time : Z) : act t (list (string * Z * Z)) :=
  self ← get;
  let right := _expire self (right_state self) time in
  put (mk (window self) (left_state self ++ [(key, time)]) right);;
  mret ((λ p, (key, time, p.2)) <$> List.filter (meets self key time) right).

(** [relay/streamjoin.py] StreamJoin.arrive_right *)
Definition arrive_right (key : string) (time : Z) : act t (list (string * Z * Z)) :=
  self ← get;
  let left := _expire self (left_state self) time in
  put (mk (window self) left (right_state self ++ [(key, time)]));;
  mret ((λ p, (key, p.2, time)) <$> List.filter (meets self key time) left).

(** [relay/streamjoin.py] StreamJoin.state_note: the number in the message *)
Definition state_note (self : t) : Z := zlen (left_state self) + zlen (right_state self).
End StreamJoin.
End streamjoin.
Import streamjoin.

Module tablejoin.
Module TableJoin.
(** [relay/tablejoin.py] class TableJoin *)
Record t := mk { left : gmap string Z; right : gmap string Z }.

(** [relay/tablejoin.py] TableJoin.__post_init__ *)
Definition make (left_partitions right_partitions : Z) : result t :=
  if negb (left_partitions =? right_partitions) then Err Invalid else Ok (mk ∅ ∅).

(** [relay/tablejoin.py] TableJoin._joined *)
Definition _joined (self : t) (key : string) : option Z :=
  match left self !! key, right self !! key with
  | Some l, Some r => Some (l + r)
  | _, _ => None
  end.

(** the three messages of [_emit] *)
Inductive emitted := Joined (key : string) (value : Z) | Tombstone (key : string) | Nothing (key : string).

(** [relay/tablejoin.py] TableJoin._emit *)
Definition _emit (key : string) (had now : option Z) : emitted :=
  match now with
  | Some v => Joined key v
  | None => match had with Some _ => Tombstone key | None => Nothing key end
  end.

(** [table.pop(key, None)] or [table[key] = value] *)
Definition set_row (table : gmap string Z) (key : string) (value : option Z) : gmap string Z :=
  match value with None => delete key table | Some v => <[key := v]> table end.

(** [relay/tablejoin.py] TableJoin.update_left *)
Definition update_left (key : string) (value : option Z) : act t emitted :=
  self ← get;
  let had := _joined self key in
  put (mk (set_row (left self) key value) (right self));;
  self ← get;
  mret (_emit key had (_joined self key)).

(** [relay/tablejoin.py] TableJoin.update_right *)
Definition update_right (key : string) (value : option Z) : act t emitted :=
  self ← get;
  let had := _joined self key in
  put (mk (left self) (set_row (right self) key value));;
  self ← get;
  mret (_emit key had (_joined self key)).

(** [relay/tablejoin.py] TableJoin.joinable: the two counts in the message *)
Definition joinable (self : t) : Z * Z :=
  let l : gset string := dom (left self) in
  let r : gset string := dom (right self) in
  (Z.of_nat (size (l ∩ r)), Z.of_nat (size ((l ∖ r) ∪ (r ∖ l)))).
End TableJoin.
End tablejoin.
Import tablejoin.

Module suppression.
Module Suppressor.
(** [relay/suppression.py] class Suppressor *)
Record t := mk { grace : Z; pending : pydict Z Z; absorbed : Z; emitted : Z }.

(** [relay/suppression.py] Suppressor.__post_init__ *)
Definition make (grace : Z) : result t := if grace <? 0 then Err Invalid else Ok (mk grace [] 0 0).

(** [relay/suppression.py] Suppressor.update *)
Definition update (window_end value : Z) : act t unit :=
  modify (λ self, mk (grace self) (d_set (pending self) window_end value)
    (absorbed self + if d_mem (pending self) window_end then 1 else 0) (emitted self)).

(** pairs of integers in the order of tuples *)
Definition pair_le (p q : Z * Z) : Prop := p.1 < q.1 ∨ (p.1 = q.1 ∧ p.2 <= q.2).
#[global] Instance pair_le_dec : RelDecision pair_le.
Proof. intros p q. unfold pair_le. apply _. Defined.

(** [relay/suppression.py] Suppressor.advance *)
Definition advance (stream_time : Z) : act t (list (Z * Z)) :=
  self ← get;
  let ready := List.filter (λ p, p.1 + grace self <=? stream_time) (pending self) in
  put (foldl (λ s p, mk (grace s) (d_del (pending s) p.1) (absorbed s) (emitted s + 1)) self ready);;
  mret (py_sorted pair_le ready).

(** [relay/suppression.py] Suppressor.force_emit *)
Definition force_emit (window_end stream_time : Z) : act t Z :=
  self ← get;
  raise_if (stream_time <? window_end + grace self) Invalid;;
  value ← pure_of (d_item (pending self) window_end);
  put (mk (grace self) (d_del (pending self) window_end) (absorbed self) (emitted self + 1));;
  mret value.

(** [relay/suppression.py] Suppressor.savings: the two counts in the message *)
Definition savings (self : t) : Z * Z := (absorbed self, emitted self).
End Suppressor.
End suppression.
Import suppression.

Module windowstore.
Module WindowStore.
(** [relay/windowstore.py] class WindowStore *)
Record t := mk { window_size : Z; retention : Z; _data : pydict (string * Z) Z; _now : Z }.

(** [relay/windowstore.py] WindowStore.__post_init__ *)
Definition make (window_size retention : Z) : result t :=
  if retention <? window_size then Err Invalid else Ok (mk window_size retention [] 0).

(** [relay/windowstore.py] WindowStore._expire *)
Definition _expire : act t unit :=
  modify (λ self, mk (window_size self) (retention self)
    (List.filter (λ p, _now self - retention self <=? p.1.2) (_data self)) (_now self)).

(** [relay/windowstore.py] WindowStore.put *)
Definition put (key : string) (window value now : Z) : act t unit :=
  modify (λ self, mk (window_size self) (retention self) (_data self) (Z.max (_now self) now));;
  self ← get;
  raise_if (window <? _now self - retention self) Invalid;;
  Prelude.put (mk (window_size self) (retention self) (d_set (_data self) (key, window) value) (_now self));;
  _expire.

(** [relay/windowstore.py] WindowStore.get *)
Definition get (self : t) (key : string) (window : Z) : result Z :=
  match d_get (_data self) (key, window) with Some v => Ok v | None => Err Missing end.

(** [relay/windowstore.py] WindowStore.fetch_range *)
Definition fetch_range (self : t) (key : string) (low high : Z) : list (Z * Z) :=
  py_sorted Suppressor.pair_le
    ((λ p : string * Z * Z, (p.1.2, p.2)) <$>
       List.filter (λ p : string * Z * Z, bool_decide (p.1.1 = key) && (low <=? p.1.2) && (p.1.2 <=? high))
         (_data self)).

(** [relay/windowstore.py] WindowStore.live_span: the two bounds in the message *)
Definition live_span (self : t) : option (Z * Z) :=
  match (λ p : string * Z * Z, p.1.2) <$> _data self with
  | [] => None
  | w :: ws => Some (py_min w ws, py_max w ws)
  end.
End WindowStore.
End windowstore.
Import windowstore.

Module statestore.
Module StateStore.
(** [relay/statestore.py] class StateStore *)
Record t := mk { changelog_end : Z; restored_to : Z; ready : bool; data : gmap string Z }.

Definition make (changelog_end : Z) : t := mk changelog_end 0 false ∅.

(** [relay/statestore.py] StateStore.apply_changelog *)
Definition apply_changelog (offset : Z) (key : string) (value : Z) : act t unit :=
  self ← get;
  raise_if (offset <? restored_to self) Invalid;;
  put (mk (changelog_end self) (offset + 1)
          (if changelog_end self <=? offset + 1 then true else ready self) (<[key := value]> (data self))).

(** [relay/statestore.py] StateStore.read *)
Definition read (self : t) (key : string) : result Z :=
  if negb (ready self) then Err Invalid else Ok (default 0 (data self !! key)).

(** [relay/statestore.py] StateStore.write *)
Definition write (key : string) (value : Z) (changelog_acked : bool) : act t unit :=
  self ← get;
  raise_if (negb changelog_acked) Invalid;;
  put (mk (changelog_end self + 1) (changelog_end self + 1) (ready self) (<[key := value]> (data self))).

(** [relay/statestore.py] StateStore.restore_progress: the two offsets in the message *)
Definition restore_progress (self : t) : Z * Z := (restored_to self, changelog_end self).
End StateStore.
End statestore.
Import statestore.

Module watermarkgen.
Module WatermarkGenerator.
(** [relay/watermarkgen.py] class WatermarkGenerator *)
Record t := mk { lateness_bound : Z; max_event_time : Z; watermark : Z; _seen : bool }.

(** [relay/watermarkgen.py] WatermarkGenerator.__post_init__ *)
Definition make (lateness_bound : Z) : result t :=
  if lateness_bound <? 0 then Err Invalid else Ok (mk lateness_bound 0 0 false).

(** [relay/watermarkgen.py] WatermarkGenerator.observe *)
Definition observe (event_time : Z) : act t Z :=
  modify (λ self, mk (lateness_bound self)
    (if negb (_seen self) then event_time else Z.max (max_event_time self) event_time)
    (watermark self) true);;
  modify (λ self, mk (lateness_bound self) (max_event_time self)
    (Z.max (watermark self) (max_event_time self - lateness_bound self)) (_seen self));;
  self ← get;
  mret (watermark self).

(** [relay/watermarkgen.py] WatermarkGenerator.is_late *)
Definition is_late (self : t) (event_time : Z) : bool := _seen self && (event_time <? watermark self).

(** [relay/watermarkgen.py] WatermarkGenerator.advance_on_idle *)
Definition advance_on_idle (wall_now : Z) : act t Z :=
  modify (λ self, mk (lateness_bound self) (max_event_time self)
    (Z.max (watermark self) (wall_now - lateness_bound self)) (_seen self));;
  self ← get;
  mret (watermark self).

(** [relay/watermarkgen.py] WatermarkGenerator.tolerance: the gap in the message *)
Definition tolerance (self : t) : Z := max_event_time self - watermark self.
End WatermarkGenerator.
End watermarkgen.
Import watermarkgen.

(** ** Sessions *)

Section sessions.
Context (g : Z) (Hg : 1 <= g).
Implicit Types (s : list Z) (ss : list (list Z)).
Import SessionWindows.

Definition first_of s : Z := hd 0 s.
Definition last_of s : Z := List.last s 0.

(** records each within the gap of the next, in order *)
Fixpoint chained s : Prop :=
  match s with
  | [] => False
  | x :: s => match s with [] => True | y :: _ => x <= y <= x + g ∧ chained s end
  end.

Definition apart s1 s2 : Prop := last_of s1 + g < first_of s2.
Definition canonical ss : Prop := Forall chained ss ∧ StronglySorted apart ss.

(** The reference: cut a sorted list of times wherever the gap is exceeded. *)
Fixpoint sessionize (l : list Z) : list (list Z) :=
  match l with
  | [] => []
  | x :: l =>
      match sessionize l with
      | (y :: s) :: ss => if y <=? x + g then (x :: y :: s) :: ss else [x] :: (y :: s) :: ss
      | ss => [x] :: ss
      end
  end.

Lemma chained_ne s : chained s → s ≠ [].
Proof. by destruct s. Qed.

Lemma chained_cons x y s : chained (x :: y :: s) ↔ x <= y <= x + g ∧ chained (y :: s).
Proof. done. Qed.

Lemma last_of_cons x y s : last_of (x :: y :: s) = last_of (y :: s).
Proof. done. Qed.

Lemma chained_first_last s : chained s → first_of s <= last_of s.
Proof.
  induction s as [|x [|y s] IH]; [done|cbn; lia|]. rewrite chained_cons, last_of_cons.
  intros [Hxy Hc]. specialize (IH Hc). cbn [first_of hd] in *. lia.
Qed.

Lemma chained_bounds s x : chained s → x ∈ s → first_of s <= x <= last_of s.
Proof.
  induction s as [|y [|z s] IH]; [done|intros _ ->%list_elem_of_singleton; cbn; lia|].
  rewrite chained_cons, last_of_cons. intros [Hyz Hc] Hx.
  pose proof (chained_first_last _ Hc). cbn [first_of hd] in *.
  apply elem_of_cons in Hx as [->|Hx]; [lia|]. specialize (IH Hc Hx). lia.
Qed.

Lemma chained_sorted s : chained s → StronglySorted Z.le s.
Proof.
  induction s as [|x [|y s] IH]; [done|intros _; repeat constructor|].
  rewrite chained_cons. intros [Hxy Hc]. constructor; [by apply IH|].
  rewrite Forall_forall. intros z Hz. pose proof (chained_bounds _ z Hc Hz). cbn [first_of hd] in *. lia.
Qed.

Lemma first_of_app s1 s2 : s1 ≠ [] → first_of (s1 ++ s2) = first_of s1.
Proof. by destruct s1. Qed.
Lemma last_of_app s1 s2 : s2 ≠ [] → last_of (s1 ++ s2) = last_of s2.
Proof.
  intros H2. induction s1 as [|x s1 IH]; [done|]. cbn [app].
  destruct (s1 ++ s2) as [|y s] eqn:Hs; [by apply app_eq_nil in Hs as [_ ->]|].
  by rewrite last_of_cons.
Qed.

Lemma chained_app s1 s2 : chained s1 → chained s2 →
  last_of s1 <= first_of s2 <= last_of s1 + g → chained (s1 ++ s2).
Proof.
  intros H1 H2 Hb. induction s1 as [|x [|y s1] IH]; [done| |].
  - destruct s2 as [|y s2]; [done|]. exact (conj Hb H2).
  - rewrite chained_cons in H1. destruct H1 as [Hxy H1]. rewrite last_of_cons in Hb.
    cbn [app] in *. rewrite chained_cons. split; [done|]. by apply IH.
Qed.

Lemma chained_insert s t : chained s → first_of s - g <= t <= last_of s + g →
  ∃ s', chained s' ∧ s' ≡ₚ t :: s ∧ first_of s' = Z.min t (first_of s) ∧ last_of s' = Z.max t (last_of s).
Proof.
  induction s as [|x [|y s] IH]; [done| |].
  - cbn. intros _ Ht. destruct (Z.le_gt_cases t x).
    + exists [t; x]. cbn. split_and!; [lia..|done|done|lia|lia].
    + exists [x; t]. cbn. split_and!; [lia..|done|apply perm_swap|lia|lia].
  - rewrite chained_cons, last_of_cons. intros [Hxy Hc] Ht.
    destruct (Z.le_gt_cases t x) as [Htx|Htx].
    + exists (t :: x :: y :: s). rewrite !chained_cons, !last_of_cons.
      pose proof (chained_first_last _ Hc). cbn [first_of hd] in *. split_and!; [lia|lia|lia|lia|done|done|lia|lia].
    + destruct (IH Hc) as (s' & Hc' & Hp & Hf & Hl); [cbn [first_of hd] in *; lia|].
      cbn [first_of hd] in *. destruct s' as [|z s']; [done|].
      exists (x :: z :: s'). rewrite chained_cons, last_of_cons. cbn [first_of hd] in *.
      split_and!; [lia|lia|done| |lia|lia]. rewrite Hp. apply perm_swap.
Qed.

Lemma canonical_cons s ss : canonical (s :: ss) →
  chained s ∧ canonical ss ∧ ∀ s', s' ∈ ss → apart s s'.
Proof.
  intros [Hc Hs]. inversion Hc; inversion Hs as [|? ? Hs' Ha]; subst. rewrite Forall_forall in Ha.
  split_and!; [done|by split|done].
Qed.

Lemma canonical_sorted ss : canonical ss → StronglySorted Z.le (mjoin ss).
Proof.
  induction ss as [|s ss IH]; intros Hc; [constructor|]. apply canonical_cons in Hc as (Hs & Hc & Ha).
  change (mjoin (s :: ss)) with (s ++ mjoin ss). apply StronglySorted_app_2.
  - intros x y Hx (s' & Hy & Hs')%list_elem_of_join. specialize (Ha s' Hs'). unfold apart in Ha.
    pose proof (chained_bounds s x Hs Hx).
    destruct Hc as [Hc _]. rewrite Forall_forall in Hc. pose proof (chained_bounds s' y (Hc s' Hs') Hy). lia.
  - by apply chained_sorted.
  - by apply IH.
Qed.

(** Cutting a concatenation of sessions gives the sessions back. *)
Lemma sessionize_canonical ss : canonical ss → sessionize (mjoin ss) = ss.
Proof.
  induction ss as [|s ss IH]; intros Hc; [done|]. apply canonical_cons in Hc as (Hs & Hc & Ha).
  change (mjoin (s :: ss)) with (s ++ mjoin ss). specialize (IH Hc).
  induction s as [|x [|y s] IHs]; [done| |].
  - cbn [app sessionize]. rewrite IH. destruct ss as [|s' ss]; [done|].
    specialize (Ha s' ltac:(by left)). unfold apart in Ha. destruct s' as [|y s']; [|cbn in Ha].
    { destruct Hc as [Hc _]. by inversion Hc. }
    by destruct (Z.leb_spec y (x + g)); [lia|].
  - rewrite chained_cons in Hs. destruct Hs as [Hxy Hs]. cbn [app] in *.
    cbn [sessionize] in IHs |- *. rewrite IHs; [|done|].
    + destruct (Z.leb_spec y (x + g)); [done|lia].
    + intros s' Hs'. specialize (Ha s' Hs'). unfold apart in *. by rewrite last_of_cons in Ha.
Qed.

(** ** Adding a record *)

Definition touches t s : Prop := first_of s - g <= t <= last_of s + g.

Lemma partition_at ss t : canonical ss →
  ∃ A B C, ss = A ++ B ++ C ∧ (∀ s, s ∈ A → last_of s + g < t) ∧ (∀ s, s ∈ C → t < first_of s - g)
    ∧ (B = [] ∨ (∃ s, B = [s] ∧ touches t s) ∨ (∃ s s', B = [s; s'] ∧ touches t s ∧ touches t s')).
Proof.
  induction ss as [|s ss IH]; intros Hc.
  { exists [], [], []. split_and!; [done|by intros ? ?%elem_of_nil..|by left]. }
  apply canonical_cons in Hc as (Hs & Hc & Ha). pose proof (chained_first_last s Hs) as Hfl.
  destruct (Z.lt_ge_cases (last_of s + g) t) as [Hlt|Hge].
  { destruct (IH Hc) as (A & B & C & -> & HA & HC & HB). exists (s :: A), B, C.
    split_and!; [done| |done|done]. intros s' [->|Hs']%elem_of_cons; auto. }
  clear IH. destruct (Z.lt_ge_cases t (first_of s - g)) as [Hlt|Hge'].
  { exists [], [], (s :: ss). split_and!; [done|by intros ? ?%elem_of_nil| |by left].
    intros s' [->|Hs']%elem_of_cons; [done|]. specialize (Ha s' Hs'). unfold apart in Ha. lia. }
  destruct ss as [|s' ss].
  { exists [], [s], []. split_and!; [done|by intros ? ?%elem_of_nil..|]. right; left. by exists s. }
  pose proof (Ha s' ltac:(by left)) as Ha'. unfold apart in Ha'.
  apply canonical_cons in Hc as (Hs' & Hc & Hn). pose proof (chained_first_last s' Hs') as Hfl'.
  assert (Hrest : ∀ s'', s'' ∈ ss → t < first_of s'' - g).
  { intros s'' Hin. specialize (Hn s'' Hin). unfold apart in Hn. lia. }
  destruct (Z.lt_ge_cases t (first_of s' - g)) as [Hlt|Hge''].
  - exists [], [s], (s' :: ss). split_and!; [done|by intros ? ?%elem_of_nil| |right; left; by exists s].
    intros s'' [->|Hin]%elem_of_cons; auto.
  - exists [], [s; s'], ss. split_and!; [done|by intros ? ?%elem_of_nil|done|right; right; exists s, s'].
    split_and!; [done|done|]. unfold touches. lia.
Qed.

Lemma within_run self s t : gap self = g → s ≠ [] →
  _within self s t = Ok (bool_decide (touches t s)).
Proof.
  intros Hgap Hne. unfold _within.
  assert (Hlast : py_index s (-1) = Ok (last_of s)).
  { destruct (exists_last Hne) as (s0 & y & Hs). rewrite Hs. unfold last_of.
    by rewrite py_index_last, List.last_last. }
  assert (Hfirst : py_index s 0 = Ok (first_of s)) by (by destruct s).
  rewrite Hlast, Hfirst. cbn [mbind result_bind]. f_equal. unfold touches. rewrite Hgap.
  apply eq_iff_eq_true. rewrite andb_true_iff, !Z.leb_le, bool_decide_eq_true. done.
Qed.

Lemma divide_run self t ss : gap self = g → Forall chained ss →
  divide self t ss = Ok (filter (touches t) ss, filter (λ s, ¬ touches t s) ss).
Proof.
  intros Hgap Hall. induction Hall as [|s ss Hs Hall IH]; [done|]. cbn [divide].
  rewrite within_run by (done || by apply chained_ne). cbn [mbind result_bind]. rewrite IH. cbn [mbind result_bind].
  rewrite !filter_cons. repeat case_decide; case_bool_decide; tauto || done.
Qed.

Lemma chained_merge B t : Forall chained B → StronglySorted apart B →
  B = [] ∨ (∃ s, B = [s] ∧ touches t s) ∨ (∃ s s', B = [s; s'] ∧ touches t s ∧ touches t s') →
  ∃ M, chained M ∧ M ≡ₚ mjoin B ++ [t].
Proof.
  intros HB Hap [->|[(s & -> & Ht)|(s & s' & -> & Ht & Ht')]].
  - by exists [t].
  - inversion HB as [|? ? Hs _]; subst. destruct (chained_insert s t Hs Ht) as (M & HM & Hp & _).
    exists M. split; [done|]. rewrite Hp. change (mjoin [s]) with (s ++ []). rewrite app_nil_r.
    apply Permutation_cons_append.
  - inversion HB as [|? ? Hs HB']; inversion HB' as [|? ? Hs' _]; subst.
    inversion Hap as [|? ? _ Ha]; subst. inversion Ha as [|? ? Hss _]; subst.
    unfold apart, touches in *. exists ((s ++ [t]) ++ s'). split.
    + assert (chained (s ++ [t])) as Hst by (apply chained_app; [done|done|cbn; lia]).
      apply chained_app; [done|done|]. rewrite last_of_app by done. cbn. lia.
    + change (mjoin [s; s']) with (s ++ s' ++ []). rewrite app_nil_r, <- !app_assoc.
      apply Permutation_app_head, Permutation_app_comm.
Qed.

Lemma chained_first_in s : chained s → first_of s ∈ s.
Proof. destruct s; [done|by left]. Qed.
Lemma chained_last_in s : chained s → last_of s ∈ s.
Proof.
  intros Hs%chained_ne. destruct (exists_last Hs) as (s0 & y & ->). unfold last_of.
  rewrite List.last_last. apply elem_of_app. right. by left.
Qed.

Lemma session_add_run self t :
  gap self = g → canonical (sessions self) →
  ∃ ss, add t self = (mk g ss, Ok ()) ∧ canonical ss ∧ mjoin ss ≡ₚ t :: mjoin (sessions self).
Proof.
  intros Hgap Hc. unfold add. rewrite bind_get, divide_run, bind_pure_of by (done || apply Hc).
  destruct (partition_at _ t Hc) as (A & B & C & Hss & HA & HC & HB). rewrite Hss.
  pose proof Hc as [Hch Hap]. rewrite Hss in Hch, Hap.
  apply Forall_app in Hch as [HchA Hch]. apply Forall_app in Hch as [HchB HchC].
  apply StronglySorted_app in Hap as (HapAB & HapA & Hap).
  apply StronglySorted_app in Hap as (HapBC & HapB & HapC).
  assert (HtB : ∀ s, s ∈ B → touches t s) by (intros s Hs; destruct HB as [->|[(s0 & -> & ?)|(s0 & s1 & -> & ? & ?)]]; set_solver).
  assert (Htouch : filter (touches t) (A ++ B ++ C) = B ∧ filter (λ s, ¬ touches t s) (A ++ B ++ C) = A ++ C).
  { assert (∀ s, s ∈ A → ¬ touches t s) as HnA by (intros s Hs; specialize (HA s Hs); unfold touches; lia).
    assert (∀ s, s ∈ C → ¬ touches t s) as HnC by (intros s Hs; specialize (HC s Hs); unfold touches; lia).
    rewrite !filter_app. split.
    - rewrite (list_filter_none _ A), (list_filter_none _ C), app_nil_r by done.
      by apply list_filter_all.
    - rewrite (list_filter_none _ B) by (intros s Hs Hn; by apply Hn, HtB).
      by rewrite !list_filter_all. }
  destruct Htouch as [-> ->].
  destruct (chained_merge B t HchB HapB HB) as (M & HM & HMp).
  assert (Hsort : py_sorted Z.le (mjoin B ++ [t]) = M).
  { apply (StronglySorted_unique Z.le); [|by apply chained_sorted|by rewrite py_sorted_Permutation].
    apply Sorted_StronglySorted; [apply _|]. apply py_sorted_Sorted, _. }
  rewrite Hsort.
  assert (HMin : ∀ x, x ∈ M → x = t ∨ ∃ s, s ∈ B ∧ x ∈ s).
  { intros x Hx. rewrite HMp, elem_of_app, list_elem_of_singleton, list_elem_of_join in Hx. naive_solver. }
  pose proof (chained_first_in M HM) as Hf%HMin. pose proof (chained_last_in M HM) as Hl%HMin.
  rewrite Forall_forall in HchB. 
  assert (HAM : ∀ s, s ∈ A → apart s M).
  { intros s Hs. unfold apart. specialize (HA s Hs). destruct Hf as [->|(s' & Hs' & Hin)]; [done|].
    pose proof (chained_bounds s' _ (HchB s' Hs') Hin).
    specialize (HapAB s s' Hs ltac:(apply elem_of_app; by left)). unfold apart in HapAB. lia. }
  assert (HMC : ∀ s, s ∈ C → apart M s).
  { intros s Hs. unfold apart. specialize (HC s Hs). destruct Hl as [->|(s' & Hs' & Hin)]; [lia|].
    pose proof (chained_bounds s' _ (HchB s' Hs') Hin).
    specialize (HapBC s' s Hs' Hs). unfold apart in HapBC. lia. }
  assert (Hcanon : canonical (A ++ M :: C)).
  { split; [apply Forall_app; split; [done|by constructor]|].
    apply StronglySorted_app_2; [|done|constructor; [done|by apply Forall_forall]].
    intros s s' Hs [->|Hs']%elem_of_cons; [by apply HAM|].
    apply HapAB; [done|]. apply elem_of_app. by right. }
  exists (A ++ M :: C). split_and!; [|done|].
  - rewrite Hgap. unfold put. f_equal. f_equal. apply py_sorted_strict; [apply _..| |].
    + destruct Hcanon as [Hch2 Hap2]. clear - Hch2 Hap2 Hg. induction Hap2 as [|s ss Hap2 IH Ha]; constructor.
      * apply IH. by inversion Hch2.
      * rewrite Forall_forall in *. intros s' Hs'. specialize (Ha s' Hs').
        pose proof (chained_first_last s (Hch2 s ltac:(by left))). unfold apart, by_first, first_of in *. lia.
    + rewrite <- Permutation_middle, (Permutation_app_comm (A ++ C) [M]). done.
  - rewrite !join_app. change (mjoin (M :: C)) with (M ++ mjoin C). rewrite HMp.
    rewrite <- !app_assoc. cbn [app]. rewrite <- !Permutation_middle. by rewrite !app_assoc.
Qed.
End sessions.

Definition session_step (time : Z) (s : SessionWindows.t) : SessionWindows.t :=
  state_of (SessionWindows.add time) s.

(** Also (equivalence): session windows do not depend on the order in which records arrive. For
    any positive gap and any sequence of record times, however late or duplicated, every [add]
    succeeds and the sessions are exactly those of the sorted times cut wherever two neighbours
    are more than the gap apart, in order of time; the bounds are the first and last record of
    each. So a record between two sessions merges them exactly when it bridges them, and no
    record is lost or in two sessions. *)
Theorem sessions_order_independent gap times time :
  1 <= gap →
  let s := run session_step times (SessionWindows.mk gap []) in
  SessionWindows.sessions s = sessionize gap (py_sorted Z.le times)
  ∧ mjoin (SessionWindows.sessions s) ≡ₚ times
  ∧ SessionWindows.session_bounds s
    = (λ l, (hd 0 l, List.last l 0)) <$> sessionize gap (py_sorted Z.le times)
  ∧ value_of (SessionWindows.add time) s = Ok ().
Proof.
  intros Hgap s.
  assert (SessionWindows.gap s = gap ∧ canonical gap (SessionWindows.sessions s)
          ∧ mjoin (SessionWindows.sessions s) ≡ₚ times) as (Hg & Hc & Hp).
  { subst s. unfold run. induction times as [|t times IH] using rev_ind.
    - split_and!; [done|split; constructor|done].
    - rewrite foldl_app. cbn [foldl]. set (s := foldl _ _ times) in *. destruct IH as (Hg & Hc & Hp).
      destruct (session_add_run gap Hgap s t Hg Hc) as (ss & Hrun & Hc' & Hp').
      unfold session_step, state_of. rewrite Hrun. cbn [fst SessionWindows.gap SessionWindows.sessions].
      split_and!; [done|done|]. rewrite Hp', Hp. apply Permutation_cons_append. }
  assert (Heq : SessionWindows.sessions s = sessionize gap (py_sorted Z.le times)).
  { rewrite <- (sessionize_canonical gap _ Hc) at 1. f_equal.
    apply (StronglySorted_unique Z.le); [by eapply canonical_sorted| |by rewrite Hp, py_sorted_Permutation].
    apply Sorted_StronglySorted; [apply _|]. apply py_sorted_Sorted, _. }
  split_and!; [done|done| |].
  - unfold SessionWindows.session_bounds. by rewrite Heq.
  - destruct (session_add_run gap Hgap s time Hg Hc) as (ss & Hrun & _). unfold value_of. by rewrite Hrun.
Qed.

Lemma sessions_order_independent_witness :
  SessionWindows.sessions (run session_step [10; 1; 3; 20; 12; 7; 30] (SessionWindows.mk 4 []))
  = [[1; 3; 7; 10; 12]; [20]; [30]].
Proof.
  refine (eq_trans (proj1 (sessions_order_independent 4 [10; 1; 3; 20; 12; 7; 30] 0 ltac:(done))) _).
  vm_compute. reflexivity.
Defined.

(** ** Dictionaries filtered by their keys *)

Lemma d_get_filter_key {K V} `{EqDecision K} (f : K → bool) (d : pydict K V) k :
  f k = true → d_get (List.filter (λ p, f p.1) d) k = d_get d k.
Proof.
  intros Hf. induction d as [|[k' v] d IH]; [done|]. cbn [List.filter fst].
  destruct (f k') eqn:Hk'; cbn [d_get]; case_bool_decide; [done|done|congruence|done].
Qed.

Lemma wf_filter_key {K V} `{EqDecision K} (f : K * V → bool) (d : pydict K V) :
  d_wf d → d_wf (List.filter f d).
Proof.
  unfold d_wf, d_keys. intros Hd. eapply sublist_NoDup; [exact Hd|]. apply fmap_sublist. clear Hd.
  induction d as [|p d IH]; [done|]. cbn [List.filter]. destruct (f p); by constructor.
Qed.

(** ** Joins *)

Section joins.
Import StreamJoin.

(** one arrival: on the left or not, a key and a time *)
Record arrival := mk_arrival { on_left : bool; a_key : string; a_time : Z }.

Definition arrive (a : arrival) : act t (list (string * Z * Z)) :=
  if on_left a then arrive_left (a_key a) (a_time a) else arrive_right (a_key a) (a_time a).

Definition join_step (a : arrival) (s : t) : t := state_of (arrive a) s.

(** the reference: every earlier arrival of the other side with the same key within the window *)
Definition side (left : bool) (history : list arrival) : list (string * Z) :=
  (λ a, (a_key a, a_time a)) <$> filter (λ a, on_left a = left) history.

Definition pair_with (a : arrival) (p : string * Z) : string * Z * Z :=
  if on_left a then (a_key a, a_time a, p.2) else (a_key a, p.2, a_time a).

Definition naive_join (w : Z) (history : list arrival) (a : arrival) : list (string * Z * Z) :=
  pair_with a <$> filter (λ p, p.1 = a_key a ∧ Z.abs (a_time a - p.2) <= w) (side (negb (on_left a)) history).

Lemma side_snoc left h a :
  side left (h ++ [a]) = side left h ++ (if bool_decide (on_left a = left) then [(a_key a, a_time a)] else []).
Proof.
  unfold side. rewrite filter_app, fmap_app, filter_cons. by case_decide; case_bool_decide.
Qed.

Definition of_side (left : bool) (s : t) : list (string * Z) := if left then left_state s else right_state s.

Lemma arrive_run s a :
  arrive a s
  = (let other := _expire s (of_side (negb (on_left a)) s) (a_time a) in
     let own := of_side (on_left a) s ++ [(a_key a, a_time a)] in
     (if on_left a then mk (window s) own other else mk (window s) other own,
      Ok (pair_with a <$> List.filter (meets s (a_key a) (a_time a)) other))).
Proof. unfold arrive, pair_with. by destruct (on_left a). Qed.

Lemma list_filter_List {A} (f : A → bool) (P : A → Prop) `{!∀ x, Decision (P x)} l :
  (∀ x, f x = true ↔ P x) → List.filter f l = filter P l.
Proof.
  intros HfP. induction l as [|x l IH]; [done|]. rewrite filter_cons. cbn [List.filter].
  rewrite IH. specialize (HfP x). destruct (f x); case_decide; naive_solver.
Qed.

Definition fresh (w now : Z) (p : string * Z) : Prop := now - p.2 <= w.
#[local] Instance fresh_dec w now p : Decision (fresh w now p) := Z.le_dec _ _.

Lemma expire_filter s l now : _expire s l now = filter (fresh (window s) now) l.
Proof. apply list_filter_List. intros p. by rewrite Z.leb_le. Qed.

Lemma expire_meets s l key time : 
  List.filter (meets s key time) (_expire s l time)
  = filter (λ p, p.1 = key ∧ Z.abs (time - p.2) <= window s) l.
Proof.
  rewrite expire_filter, (list_filter_List _ (λ p, p.1 = key ∧ Z.abs (time - p.2) <= window s)).
  - rewrite list_filter_filter. apply list_filter_iff. intros p. unfold fresh. naive_solver lia.
  - intros p. unfold meets. by rewrite andb_true_iff, bool_decide_eq_true, Z.leb_le.
Qed.

Lemma meets_fresh (w : Z) (key : string) (now : Z) (l : list (string * Z)) :
  filter (λ p, p.1 = key ∧ Z.abs (now - p.2) <= w) l
  = filter (λ p, p.1 = key ∧ Z.abs (now - p.2) <= w) (filter (fresh w now) l).
Proof. rewrite list_filter_filter. apply list_filter_iff. intros p. unfold fresh. naive_solver lia. Qed.

(** What the state has dropped is out of reach of every later arrival, and it holds nothing else. *)
Record join_inv (w : Z) (h : list arrival) (s : t) : Prop := {
  ji_window : window s = w;
  ji_sub : ∀ left, of_side left s `sublist_of` side left h;
  ji_fresh : ∀ left now, (∀ a, a ∈ h → a_time a <= now) →
    filter (fresh w now) (of_side left s) = filter (fresh w now) (side left h);
}.

Lemma join_inv_step w h s a :
  join_inv w h s → (∀ b, b ∈ h → a_time b <= a_time a) → join_inv w (h ++ [a]) (join_step a s).
Proof.
  intros [<- Hsub Hfresh] Ha. unfold join_step, state_of. rewrite arrive_run. cbn [fst].
  split.
  - by destruct (on_left a).
  - intros left. rewrite side_snoc. destruct (on_left a), left; cbn [of_side left_state right_state negb]; case_bool_decide; try done;
      rewrite ?app_nil_r, ?expire_filter.
    + apply sublist_app; [apply (Hsub true)|reflexivity].
    + etrans; [apply sublist_filter|apply (Hsub false)].
    + etrans; [apply sublist_filter|apply (Hsub true)].
    + apply sublist_app; [apply (Hsub false)|reflexivity].
  - intros left now Hnow. rewrite side_snoc.
    assert (Hh : ∀ b, b ∈ h → a_time b <= now) by (intros b Hb; apply Hnow; set_solver).
    assert (Hle : a_time a <= now) by (apply Hnow; set_solver).
    assert (Hexp : ∀ l, filter (fresh (window s) now) (_expire s (of_side l s) (a_time a))
                        = filter (fresh (window s) now) (side l h)).
    { intros l. rewrite expire_filter, list_filter_filter, <- Hfresh by done.
      apply list_filter_iff. intros p. unfold fresh. lia. }
    specialize (Hfresh left now Hh).
    destruct (on_left a), left; cbn [of_side left_state right_state negb] in *; case_bool_decide; try done;
      rewrite ?app_nil_r, ?filter_app, ?Hfresh; try done; [apply (Hexp false)|apply (Hexp true)].
Qed.
End joins.

(** C24 (equivalence): the windowed join emits what a join over the whole history would. Over any
    sequence of arrivals in order of time, each arrival emits exactly one pair per earlier arrival
    of the other side with its key within the window, in their order of arrival, although the state
    has been expired all along: what expired could no longer match. What either side holds after the
    arrival are arrivals of that side, in order, none twice. *)
Theorem stream_join_complete w history a :
  StronglySorted (λ b b', a_time b <= a_time b') (history ++ [a]) →
  let s := run join_step history (StreamJoin.mk w [] []) in
  value_of (arrive a) s = Ok (naive_join w history a)
  ∧ ∀ left, of_side left (join_step a s) `sublist_of` side left (history ++ [a]).
Proof.
  intros Hsorted s.
  assert (join_inv w history s) as Hinv.
  { apply StronglySorted_app in Hsorted as (_ & Hs & _).
    subst s. unfold run. induction history as [|b h IH] using rev_ind.
    - split; [done|intros []; apply sublist_nil_l|by intros []].
    - rewrite foldl_app. apply StronglySorted_app in Hs as (Hb & Hs & _).
      apply join_inv_step; [by apply IH|]. intros b' Hb'. apply Hb; set_solver. }
  assert (Ha : ∀ b, b ∈ history → a_time b <= a_time a).
  { apply StronglySorted_app in Hsorted as (Ha & _ & _). intros b Hb. apply Ha; set_solver. }
  split; [|by apply (ji_sub w), join_inv_step].
  unfold value_of. rewrite arrive_run. cbn [snd]. f_equal. unfold naive_join. f_equal.
  rewrite expire_meets. clearbody s. destruct Hinv as [<- _ Hfresh].
  specialize (Hfresh (negb (on_left a)) (a_time a) Ha).
  by rewrite meets_fresh, (meets_fresh _ _ _ (side _ _)), Hfresh.
Qed.

Lemma stream_join_complete_witness :
  value_of (arrive (mk_arrival false "k" 12))
    (run join_step [mk_arrival true "k" 1; mk_arrival true "j" 9; mk_arrival true "k" 9; mk_arrival false "k" 10]
       (StreamJoin.mk 4 [] []))
  = Ok [("k"%string, 9, 12)].
Proof.
  refine (eq_trans (proj1 (stream_join_complete 4 [mk_arrival true "k" 1; mk_arrival true "j" 9;
    mk_arrival true "k" 9; mk_arrival false "k" 10] (mk_arrival false "k" 12) _)) _).
  - cbn [app]. repeat constructor; cbn; lia.
  - vm_compute. reflexivity.
Defined.

Section tables.
Import TableJoin.

(** one update: of the left table or not, a key and its new row or its deletion *)
Record table_update := mk_update { of_left : bool; u_key : string; u_value : option Z }.

Definition table_step (u : table_update) : act t emitted :=
  if of_left u then update_left (u_key u) (u_value u) else update_right (u_key u) (u_value u).

(** what a consumer of the emitted results keeps *)
Definition consume (view : gmap string Z) (e : emitted) : gmap string Z :=
  match e with
  | Joined k v => <[k := v]> view
  | Tombstone k => delete k view
  | Nothing _ => view
  end.

Definition downstream (u : table_update) (sv : t * gmap string Z) : t * gmap string Z :=
  let '(s, r) := table_step u sv.1 in
  (s, match r with Ok e => consume sv.2 e | Err _ => sv.2 end).

(** the rows of the inner join *)
Definition inner_join (l r : gmap string Z) : gmap string Z :=
  merge (λ x y, match x, y with Some a, Some b => Some (a + b) | _, _ => None end) l r.

Lemma inner_join_lookup s k : inner_join (left s) (right s) !! k = _joined s k.
Proof. unfold inner_join, _joined. rewrite lookup_merge. by destruct (left s !! k), (right s !! k). Qed.

Lemma set_row_lookup m k v k' : set_row m k v !! k' = if decide (k' = k) then v else m !! k'.
Proof.
  destruct v; cbn; case_decide; subst; rewrite ?lookup_insert_eq, ?lookup_delete_eq,
    ?lookup_insert_ne, ?lookup_delete_ne by congruence; done.
Qed.
End tables.

(** Also (refinement): the join's output, replayed, is the join. For any sequence of updates and
    deletions of either table, a consumer that stores every joined value it is sent and deletes on
    every tombstone holds exactly the inner join of the two tables, with no stale row left by a side
    that went away; and every update succeeds and answers with the message its two states call for:
    the value when both sides are present, a tombstone exactly when the row existed before and no
    longer does. *)
Theorem table_join_replays updates u :
  let s := (run downstream updates (TableJoin.mk ∅ ∅, ∅)).1 in
  (run downstream updates (TableJoin.mk ∅ ∅, ∅)).2 = inner_join (TableJoin.left s) (TableJoin.right s)
  ∧ value_of (table_step u) s
    = Ok (TableJoin._emit (u_key u) (TableJoin._joined s (u_key u))
            (TableJoin._joined (state_of (table_step u) s) (u_key u))).
Proof.
  cbn zeta. split; [|by unfold table_step; destruct (of_left u)].
  apply (run_invariant downstream (λ sv, sv.2 = inner_join (TableJoin.left sv.1) (TableJoin.right sv.1)));
    [|by apply map_eq; intros k; rewrite inner_join_lookup].
  intros v [s view] Hinv. cbn [fst snd] in *. subst view. apply map_eq. intros k. rewrite inner_join_lookup.
  unfold downstream, table_step. cbn [fst snd].
  assert (Hv : ∀ k, inner_join (TableJoin.left s) (TableJoin.right s) !! k = TableJoin._joined s k)
    by apply inner_join_lookup.
  set (V := inner_join _ _) in *. clearbody V.
  destruct v as [l k' v]. cbn [of_left u_key u_value].
  unfold TableJoin.update_left, TableJoin.update_right, TableJoin._emit, TableJoin._joined, consume in *.
  destruct l; rewrite bind_get, bind_put, bind_get, run_ret; cbn [fst snd TableJoin.left TableJoin.right];
    rewrite !set_row_lookup, decide_True by done; specialize (Hv k);
    destruct (decide (k = k')) as [->|Hne]; repeat case_match; simplify_eq/=;
    rewrite ?lookup_insert_eq, ?lookup_delete_eq, ?lookup_insert_ne, ?lookup_delete_ne by congruence; congruence.
Qed.

(** ** The state store and its changelog *)

Section changelog.
Import StateStore.
Implicit Types (entries : list (string * Z)).

Definition write_all entries : act t unit := for_each entries (λ e, write e.1 e.2 true).

Fixpoint replay (offset : Z) entries : act t unit :=
  match entries with
  | [] => mret ()
  | e :: entries => apply_changelog offset e.1 e.2;; replay (offset + 1) entries
  end.

Definition table_of (m : gmap string Z) entries : gmap string Z := foldl (λ m e, <[e.1 := e.2]> m) m entries.

Lemma write_all_run entries s :
  write_all entries s
  = (mk (changelog_end s + zlen entries) (if bool_decide (entries = []) then restored_to s else changelog_end s + zlen entries)
        (ready s) (table_of (data s) entries), Ok ()).
Proof.
  revert s. induction entries as [|[k v] entries IH]; intros [e r rd d]; cbn -[zlen].
  - by rewrite zlen_nil, Z.add_0_r.
  - unfold write_all in *. cbn [for_each]. rewrite bind_run. cbn [fst snd].
    change (write k v true (mk e r rd d)) with (mk (e + 1) (e + 1) rd (<[k := v]> d), @Ok unit ()). cbn iota beta.
    rewrite IH. cbn -[zlen]. rewrite zlen_cons. do 2 f_equal; [lia|]. case_bool_decide; [subst; rewrite zlen_nil; lia|lia].
Qed.

Lemma changelog_replay_run entries s :
  replay (restored_to s) entries s
  = (mk (changelog_end s) (restored_to s + zlen entries)
        (ready s || bool_decide (entries ≠ [] ∧ changelog_end s <= restored_to s + zlen entries))
        (table_of (data s) entries), Ok ()).
Proof.
  revert s. induction entries as [|[k v] entries IH]; intros [e r rd d].
  - cbn [replay table_of foldl changelog_end restored_to ready data].
    by rewrite run_ret, zlen_nil, Z.add_0_r, bool_decide_false, orb_false_r by naive_solver.
  - cbn [replay restored_to fst snd]. rewrite bind_run.
    assert (Hrun : apply_changelog r k v (mk e r rd d)
      = (mk e (r + 1) (if e <=? r + 1 then true else rd) (<[k := v]> d), Ok ())).
    { unfold apply_changelog. rewrite bind_get, bind_raise_if. cbn [restored_to]. by rewrite Z.ltb_irrefl. }
    rewrite Hrun. cbn iota beta.
    etrans; [apply (IH (mk _ (r + 1) _ _))|]. cbn [fst snd changelog_end restored_to ready data].
    rewrite zlen_cons. pose proof (zlen_nonneg entries). do 2 f_equal; [lia|].
    destruct (Z.leb_spec e (r + 1)), rd; cbn [orb]; try done.
    + symmetry. apply bool_decide_true. split; [done|lia].
    + apply bool_decide_ext. split; intros [? ?]; split; [done|lia| |lia].
      intros ->. rewrite zlen_nil in *. lia.
Qed.
End changelog.

(** Also (roundtrip): a store rebuilt from its changelog is the store that wrote it, and no sooner.
    After any sequence of acknowledged writes to an empty store, the changelog ends at the number of
    writes; a new store made for that end, replaying any prefix of the changelog in order, accepts every
    entry, holds exactly the table those writes built, and refuses every read until the last entry is
    in, whereupon reads answer with the table that was written. An entry behind what it has restored
    is refused and leaves the store as it was. *)
Theorem state_store_restores writes n key (offset : Z) value :
  writes ≠ [] → (n <= length writes)%nat → offset < Z.of_nat n →
  let writer := state_of (write_all writes) (StateStore.make 0) in
  let restored := state_of (replay 0 (take n writes)) (StateStore.make (StateStore.changelog_end writer)) in
  StateStore.changelog_end writer = zlen writes
  ∧ StateStore.restored_to restored = Z.of_nat n
  ∧ StateStore.data restored = table_of ∅ (take n writes)
  ∧ StateStore.read restored key
    = (if bool_decide (n = length writes) then Ok (default 0 (StateStore.data writer !! key)) else Err Invalid)
  ∧ StateStore.apply_changelog offset key value restored = (restored, Err Invalid).
Proof.
  intros Hne Hn Ho writer restored.
  assert (Hw : writer = StateStore.mk (zlen writes) (zlen writes) false (table_of ∅ writes)).
  { unfold writer, state_of. rewrite write_all_run. cbn [fst]. by rewrite bool_decide_false. }
  assert (Hlen : zlen (take n writes) = Z.of_nat n) by (unfold zlen; rewrite length_take; lia).
  assert (Hr : restored = StateStore.mk (zlen writes) (Z.of_nat n) (bool_decide (n = length writes))
                            (table_of ∅ (take n writes))).
  { unfold restored, state_of. rewrite Hw.
    rewrite (changelog_replay_run (take n writes) (StateStore.make _)). cbn [fst StateStore.make StateStore.ready
      StateStore.changelog_end StateStore.restored_to StateStore.data orb]. rewrite Hlen. f_equal.
    apply bool_decide_ext. unfold zlen. destruct writes; [done|]. destruct n; cbn [take length]; naive_solver lia. }
  rewrite Hr, Hw. cbn [StateStore.changelog_end StateStore.restored_to StateStore.data].
  split_and!; [done|done|done| |].
  - unfold StateStore.read. cbn [StateStore.ready StateStore.data]. case_bool_decide; [|done].
    cbn [negb]. by rewrite take_ge by lia.
  - unfold StateStore.apply_changelog. rewrite bind_get, bind_raise_if. cbn [StateStore.restored_to].
    by destruct (Z.ltb_spec offset (Z.of_nat n)); [|lia].
Qed.

Lemma state_store_restores_witness :
  StateStore.read (state_of (replay 0 (take 2 [("a"%string, 1); ("b"%string, 2); ("a"%string, 3)])) (StateStore.make 3)) "a"
  = Err Invalid.
Proof.
  refine (proj1 (proj2 (proj2 (proj2 (state_store_restores
    [("a"%string, 1); ("b"%string, 2); ("a"%string, 3)] 2 "a" 0 5 _ _ _))))); [done|cbn; lia|lia].
Defined.

(** ** A store that starts with nothing to restore *)

(** A store whose changelog is empty never becomes readable: writes do not set [ready], and only
    replaying an entry does. *)
Theorem empty_changelog_unready writes key :
  StateStore.read (state_of (write_all writes) (StateStore.make 0)) key = Err Invalid.
Proof. unfold state_of. by rewrite write_all_run. Qed.

(** ** The window store *)

Section windows.
Import WindowStore.

Definition store_put (p : string * Z * Z * Z) (s : t) : t :=
  let '(key, window, value, now) := p in state_of (put key window value now) s.

Definition put_now (p : string * Z * Z * Z) : Z := p.2.

(** the last value put for a key and a window *)
Definition last_put (puts : list (string * Z * Z * Z)) (key : string) (window : Z) : option Z :=
  foldl (λ v p, if bool_decide (p.1.1 = (key, window)) then Some p.1.2 else v) None puts.

Definition clock (puts : list (string * Z * Z * Z)) : Z := foldl (λ n p, Z.max n (put_now p)) 0 puts.

Record windows_inv (size keep : Z) (puts : list (string * Z * Z * Z)) (s : t) : Prop := {
  wi_size : window_size s = size;
  wi_keep : retention s = keep;
  wi_now : _now s = clock puts;
  wi_wf : d_wf (_data s);
  wi_live : ∀ key window, clock puts - keep <= window → d_get (_data s) (key, window) = last_put puts key window;
}.

Lemma last_put_snoc puts p key window :
  last_put (puts ++ [p]) key window
  = if bool_decide (p.1.1 = (key, window)) then Some p.1.2 else last_put puts key window.
Proof. unfold last_put. by rewrite foldl_app. Qed.

Lemma clock_snoc puts p : clock (puts ++ [p]) = Z.max (clock puts) (put_now p).
Proof. unfold clock. by rewrite foldl_app. Qed.

Lemma put_run s key window value now :
  let now' := Z.max (_now s) now in
  put key window value now s
  = if window <? now' - retention s then (mk (window_size s) (retention s) (_data s) now', Err Invalid)
    else (mk (window_size s) (retention s)
            (List.filter (λ p, now' - retention s <=? p.1.2) (d_set (_data s) (key, window) value)) now', Ok ()).
Proof.
  cbn zeta. unfold put. rewrite bind_modify, bind_get, bind_raise_if. cbn [_now retention _data window_size].
  destruct (Z.ltb_spec window (Z.max (_now s) now - retention s)); [done|].
  by rewrite bind_put.
Qed.

Lemma windows_inv_step size keep puts s p :
  windows_inv size keep puts s → windows_inv size keep (puts ++ [p]) (store_put p s).
Proof.
  intros [Hsize Hkeep Hnow Hwf Hlive]. destruct p as [[[k w] v] now]. unfold store_put, state_of.
  rewrite put_run, Hsize, Hkeep, Hnow.
  destruct (Z.ltb_spec w (Z.max (clock puts) now - keep)) as [Hold|Hnew]; cbn [fst];
    split; cbn [window_size retention _now _data]; try done; rewrite ?clock_snoc; cbn [put_now snd]; try done.
  - intros key window Hw. rewrite last_put_snoc. cbn [fst snd].
    case_bool_decide as Heq; [simplify_eq; lia|]. apply Hlive. lia.
  - by apply wf_filter_key, d_wf_set.
  - intros key window Hw. rewrite last_put_snoc. cbn [fst snd].
    etrans; [apply (d_get_filter_key (λ q, Z.max (clock puts) now - keep <=? q.2)), Z.leb_le, Hw|]. rewrite d_get_set.
    repeat case_bool_decide; simplify_eq; try done. apply Hlive. lia.
Qed.
End windows.

(** Also (invariant): the window store loses no window that is still live. After any sequence of
    puts, accepted and refused, in and out of order, a window no older than the retention behind the
    latest time seen reads as the last value put for it, and as [Missing] only when none was; a put is
    refused exactly when its window is older than that, changes no data, and no put of a live window
    is refused. *)
Theorem window_store_keeps_live size keep puts key window value now :
  let s := run store_put puts (WindowStore.mk size keep [] 0) in
  (clock puts - keep <= window →
     WindowStore.get s key window = match last_put puts key window with Some v => Ok v | None => Err Missing end)
  ∧ value_of (WindowStore.put key window value now) s
    = (if window <? Z.max (clock puts) now - keep then Err Invalid else Ok ())
  ∧ (window < Z.max (clock puts) now - keep →
     WindowStore._data (state_of (WindowStore.put key window value now) s) = WindowStore._data s).
Proof.
  intros s. assert (windows_inv size keep puts s) as [Hsize Hkeep Hnow Hwf Hlive].
  { subst s. unfold run. induction puts as [|p puts IH] using rev_ind.
    - split; try done. constructor.
    - rewrite foldl_app. by apply windows_inv_step. }
  unfold value_of, state_of. rewrite put_run, Hkeep, Hnow. split_and!.
  - intros Hw. unfold WindowStore.get. by rewrite Hlive.
  - by case_match.
  - intros Hw. by destruct (Z.ltb_spec window (Z.max (clock puts) now - keep)); [|lia].
Qed.

Lemma window_store_keeps_live_witness :
  WindowStore.get (run store_put [("a"%string, 10, 1, 12); ("a"%string, 10, 2, 13); ("b"%string, 0, 7, 30)]
    (WindowStore.mk 10 20 [] 0)) "a" 10 = Ok 2.
Proof.
  refine (proj1 (window_store_keeps_live 10 20 [("a"%string, 10, 1, 12); ("a"%string, 10, 2, 13); ("b"%string, 0, 7, 30)]
    "a" 10 0 0) _). apply (bool_decide_unpack _). vm_compute. exact I.
Defined.

(** ** Suppression *)

Section suppressed.
Import Suppressor.

Inductive sup_op := Update (window value : Z) | Advance (now : Z) | Force (window now : Z).

(** the suppressor with what it has emitted, the latest result per window *)
Definition sup_step (o : sup_op) (sv : t * gmap Z Z) : t * gmap Z Z :=
  match o with
  | Update w v => (state_of (update w v) sv.1, sv.2)
  | Advance now =>
      (state_of (advance now) sv.1,
       match value_of (advance now) sv.1 with Ok l => d_map l ∪ sv.2 | Err _ => sv.2 end)
  | Force w now =>
      (state_of (force_emit w now) sv.1,
       match value_of (force_emit w now) sv.1 with Ok v => <[w := v]> sv.2 | Err _ => sv.2 end)
  end.

Definition last_update (ops : list sup_op) (w : Z) : option Z :=
  foldl (λ v o, match o with Update w' v' => if bool_decide (w = w') then Some v' else v | _ => v end) None ops.

Definition updates_in (ops : list sup_op) : Z :=
  zsum (λ o, match o with Update _ _ => 1 | _ => 0 end) ops.

Definition is_ready (s : t) (now : Z) (w : Z) : bool := w + grace s <=? now.

Lemma d_mem_cons {V} w (v : V) (l : pydict Z V) w' :
  d_mem ((w, v) :: l) w' = bool_decide (w' = w) || d_mem l w'.
Proof. rewrite !d_mem_get. cbn [d_get]. by case_bool_decide. Qed.

Lemma emit_all s l :
  foldl (λ s (p : Z * Z), mk (grace s) (d_del (pending s) p.1) (absorbed s) (emitted s + 1)) s l
  = mk (grace s) (List.filter (λ p, negb (d_mem l p.1)) (pending s)) (absorbed s) (emitted s + zlen l).
Proof.
  revert s. induction l as [|[w v] l IH]; intros [g d a e]; cbn [foldl fst grace pending absorbed emitted].
  - rewrite zlen_nil, Z.add_0_r. f_equal. induction d as [|p d IHd]; [done|]. cbn. by rewrite <- IHd.
  - rewrite IH. cbn [grace pending absorbed emitted]. rewrite zlen_cons. f_equal; [|lia].
    unfold d_del. induction d as [|[w' v'] d IHd]; [done|].
    rewrite filter_cons. cbn [fst List.filter]. rewrite d_mem_cons. case_decide as Hw; cbn [List.filter fst] in *.
    + rewrite IHd, bool_decide_false by done. done.
    + rewrite IHd, bool_decide_true by lia. done.
Qed.

Lemma advance_run s now :
  advance now s
  = (let ready := List.filter (λ p, is_ready s now p.1) (pending s) in
     (mk (grace s) (List.filter (λ p, negb (is_ready s now p.1)) (pending s)) (absorbed s) (emitted s + zlen ready),
      Ok (py_sorted pair_le ready))).
Proof.
  unfold advance. rewrite bind_get, bind_put, run_ret, emit_all. cbn zeta. f_equal. f_equal.
  apply List.filter_ext_in. intros p Hp. f_equal. unfold is_ready. rewrite d_mem_get.
  destruct (Z.leb_spec (p.1 + grace s) now) as [Hle|Hlt].
  - case_match eqn:Hget; [done|]. apply d_get_None in Hget. destruct Hget. apply list_elem_of_fmap. exists p.
    split; [done|]. apply list_elem_of_In, filter_In. split; [done|]. by apply Z.leb_le.
  - case_match eqn:Hget; [|done]. apply d_get_elem_of, list_elem_of_In, filter_In in Hget as [_ Hget].
    apply Z.leb_le in Hget. cbn in Hget. lia.
Qed.

Record sup_inv (ops : list sup_op) (sv : t * gmap Z Z) : Prop := {
  su_wf : d_wf (pending sv.1);
  su_count : updates_in ops = absorbed sv.1 + emitted sv.1 + zlen (pending sv.1);
  su_last : ∀ w, match d_get (pending sv.1) w with Some v => Some v | None => sv.2 !! w end = last_update ops w;
}.

Lemma d_get_filter_out (f : Z → bool) (d : pydict Z Z) w : d_wf d →
  d_get (List.filter (λ p, f p.1) d) w = if f w then d_get d w else None.
Proof.
  intros Hd. destruct (f w) eqn:Hf; [by apply d_get_filter_key|]. apply d_get_None. intros Hin.
  apply list_elem_of_fmap in Hin as (p & -> & Hp). apply list_elem_of_In, filter_In in Hp as [_ Hp]. congruence.
Qed.

Lemma d_map_sorted (d : pydict Z Z) : d_wf d → d_map (py_sorted pair_le d) = d_map d.
Proof.
  intros Hd. apply list_to_map_proper; [|apply py_sorted_Permutation].
  by rewrite (py_sorted_Permutation pair_le d).
Qed.

Lemma force_run s w now :
  force_emit w now s
  = if now <? w + grace s then (s, Err Invalid)
    else match d_item (pending s) w with
         | Ok v => (mk (grace s) (d_del (pending s) w) (absorbed s) (emitted s + 1), Ok v)
         | Err e => (s, Err e)
         end.
Proof.
  unfold force_emit. rewrite bind_get, bind_raise_if. destruct (_ <? _); [done|]. rewrite bind_pure_of.
  by destruct (d_item _ _).
Qed.

Lemma d_item_get {K V} `{EqDecision K} (d : pydict K V) k v : d_item d k = Ok v ↔ d_get d k = Some v.
Proof. unfold d_item. destruct (d_get d k); naive_solver. Qed.

Lemma sup_inv_step ops o sv : sup_inv ops sv → sup_inv (ops ++ [o]) (sup_step o sv).
Proof.
  intros [Hwf Hcount Hlast]. destruct sv as [s view]. cbn [fst snd] in *.
  assert (Hupd : ∀ w, last_update (ops ++ [o]) w
    = match o with Update w' v' => if bool_decide (w = w') then Some v' else last_update ops w | _ => last_update ops w end).
  { intros w. unfold last_update. by rewrite foldl_app. }
  assert (Hcnt : updates_in (ops ++ [o]) = updates_in ops + match o with Update _ _ => 1 | _ => 0 end).
  { unfold updates_in. rewrite zsum_app. cbn. destruct o; lia. }
  destruct o as [w v|now|w now]; cbn [sup_step fst snd].
  - unfold update, state_of. rewrite run_modify. split; cbn [fst snd pending absorbed emitted].
    + by apply d_wf_set.
    + rewrite Hcnt, Hcount. destruct (d_mem (pending s) w) eqn:Hm; unfold d_mem in Hm.
      * apply bool_decide_eq_true in Hm. unfold zlen. rewrite <- !d_keys_length, d_keys_set_mem by done. lia.
      * apply bool_decide_eq_false in Hm. rewrite d_set_fresh by done. rewrite zlen_app. change (zlen [(w, v)]) with 1. lia.
    + intros w'. rewrite Hupd, d_get_set. case_bool_decide; [done|apply Hlast].
  - unfold state_of, value_of. rewrite advance_run. cbn [fst snd]. split; cbn [fst snd pending absorbed emitted].
    + by apply (wf_filter_key (λ p, negb (is_ready s now p.1))).
    + rewrite Hcnt, Hcount. unfold zlen.
      rewrite <- (filter_length (λ p, is_ready s now p.1) (pending s)) at 1. lia.
    + intros w. rewrite Hupd, (d_get_filter_out (λ w, negb (is_ready s now w))) by done.
      rewrite lookup_union, d_map_sorted, d_map_lookup by (by apply (wf_filter_key (λ p, is_ready s now p.1))).
      rewrite (d_get_filter_out (is_ready s now)) by done. specialize (Hlast w).
      destruct (is_ready s now w), (d_get (pending s) w), (view !! w); cbn; congruence.
  - unfold state_of, value_of. rewrite force_run. destruct (now <? _).
    { split; cbn [fst snd]; [done|lia|]. intros w'. by rewrite Hupd. }
    destruct (d_item (pending s) w) as [v|e] eqn:Hv; cbn [fst snd].
    + apply d_item_get in Hv. split; cbn [fst snd pending absorbed emitted].
      * by apply d_wf_del.
      * assert (Hk : w ∈ d_keys (pending s)) by (apply d_get_is_Some; eauto).
        pose proof (d_del_Permutation _ _ Hwf Hk) as Hlen%Permutation_length. cbn [length] in Hlen.
        rewrite !d_keys_length in Hlen. unfold zlen in *. lia.
      * intros w'. rewrite Hupd, d_get_del. specialize (Hlast w').
        case_bool_decide; subst; [rewrite lookup_insert_eq; by rewrite Hv in Hlast|by rewrite lookup_insert_ne].
    + split; cbn [fst snd]; [done|lia|]. intros w'. by rewrite Hupd.
Qed.
End suppressed.

(** Also (safety): suppression changes how often results go downstream, never which. For any sequence of
    updates, advances of stream time and forced emissions, every update is accounted for once, as
    absorbed, emitted or still pending; for every window, the pending value if there is one and
    otherwise the last result sent is the value of the window's last update; an advance emits, in
    order of window, exactly the pending windows whose grace has passed, and keeps exactly the others;
    and emitting a window within its grace is refused with nothing changed. *)
Theorem suppression_final_results grace ops now w :
  let sv := run sup_step ops (Suppressor.mk grace [] 0 0, ∅) in
  let s := sv.1 in
  updates_in ops = Suppressor.absorbed s + Suppressor.emitted s + zlen (Suppressor.pending s)
  ∧ match d_get (Suppressor.pending s) w with Some v => Some v | None => sv.2 !! w end = last_update ops w
  ∧ (∀ v, (∃ l, value_of (Suppressor.advance now) s = Ok l ∧ (w, v) ∈ l)
       ↔ d_get (Suppressor.pending s) w = Some v ∧ w + grace <= now)
  ∧ d_get (Suppressor.pending (state_of (Suppressor.advance now) s)) w
    = (if w + grace <=? now then None else d_get (Suppressor.pending s) w)
  ∧ (now < w + grace → Suppressor.force_emit w now s = (s, Err Invalid)).
Proof.
  intros sv s. assert (sup_inv ops sv ∧ Suppressor.grace s = grace) as [[Hwf Hcount Hlast] Hg].
  { subst s sv. unfold run. induction ops as [|o ops [IH IHg]] using rev_ind.
    - split; [|done]. by split; [constructor| |].
    - rewrite foldl_app. split; [by apply sup_inv_step|]. cbn [foldl].
      destruct (foldl _ _ ops) as [s view]. cbn [fst] in *. destruct o; cbn [sup_step fst]; unfold state_of;
        rewrite ?advance_run, ?force_run; cbn [fst Suppressor.grace]; [done|done|]. by repeat case_match. }
  unfold value_of, state_of. rewrite advance_run. cbn [fst snd Suppressor.pending]. split_and!; [done|apply Hlast| | |].
  - intros v. rewrite <- Hg. split.
    + intros (l & [= <-] & Hin). apply py_sorted_elem_of, list_elem_of_In, filter_In in Hin as [Hin Hr].
      split; [by apply d_elem_of_get; [|apply list_elem_of_In]|]. by apply Z.leb_le in Hr.
    + intros [Hv Hr]. eexists; split; [done|]. apply py_sorted_elem_of, list_elem_of_In, filter_In.
      split; [by apply list_elem_of_In, d_get_elem_of|]. by apply Z.leb_le.
  - rewrite (d_get_filter_out (λ w, negb (is_ready s now w))) by done. unfold is_ready. rewrite Hg. by destruct (_ <=? _).
  - intros Hw. rewrite force_run, Hg. by destruct (Z.ltb_spec now (w + grace)); [|lia].
Qed.

Lemma suppression_final_results_witness :
  Suppressor.force_emit 10 12 (run sup_step [Update 10 1; Update 20 5; Update 10 2; Advance 11] (Suppressor.mk 3 [] 0 0, ∅)).1
  = ((run sup_step [Update 10 1; Update 20 5; Update 10 2; Advance 11] (Suppressor.mk 3 [] 0 0, ∅)).1, Err Invalid).
Proof.
  refine (proj2 (proj2 (proj2 (proj2 (suppression_final_results 3 [Update 10 1; Update 20 5; Update 10 2; Advance 11] 12 10)))) _).
  lia.
Defined.

(** ** The watermark *)

Inductive tick := Observe (time : Z) | Idle (wall : Z).

Definition tick_step (o : tick) (s : WatermarkGenerator.t) : WatermarkGenerator.t :=
  match o with
  | Observe time => state_of (WatermarkGenerator.observe time) s
  | Idle wall => state_of (WatermarkGenerator.advance_on_idle wall) s
  end.

(** The watermark never goes back, and a record once late is behind every later watermark. *)
Theorem watermark_monotone ops s time :
  WatermarkGenerator.watermark s <= WatermarkGenerator.watermark (run tick_step ops s)
  ∧ (WatermarkGenerator.is_late s time = true →
     WatermarkGenerator._seen s = true ∧ time < WatermarkGenerator.watermark (run tick_step ops s)).
Proof.
  assert (Hmono : WatermarkGenerator.watermark s <= WatermarkGenerator.watermark (run tick_step ops s)).
  { revert s. induction ops as [|o ops IH]; intros s; [done|]. etrans; [|apply IH].
    destruct o; unfold tick_step, state_of, WatermarkGenerator.observe, WatermarkGenerator.advance_on_idle;
      rewrite !bind_modify, bind_get, run_ret; cbn; lia. }
  split; [done|]. unfold WatermarkGenerator.is_late. rewrite andb_true_iff, Z.ltb_lt.
  intros [? ?]. split; [done|lia].
Qed.
