(* ===== verification/Selection.v ===== *)
(** * Selection and search structures

    [relay/segmenttree.py]: range maxima over an array; [relay/quickselect.py]: the k-th
    smallest of a batch; [relay/runningmedian.py]: the median of a stream; [relay/trie.py]:
    the longest rule that is a prefix of a name; [relay/countingbloom.py] and
    [relay/bloomfilter.py]: approximate membership; [relay/bitset.py]: marks on a range of
    offsets.

    The code keeps floats in the first two and only ever compares them: they are modelled over
    any type with a total order, which floats other than NaN have. [hash] of a string is salted
    per process, so the filters are modelled over any hash function. *)

From Stdlib Require Import Strings.Ascii.
From S2P Require Import Prelude PyDict PyFloat.

Module segmenttree.
Module SegmentTree.
Section segment_tree.
Context {V : Type} (le : relation V) `{!RelDecision le} (zero _NEG_INF : V).

(** [relay/segmenttree.py] class SegmentTree *)
Record t := mk { size : Z; _tree : list V }.

(** [max(a, b)]: the first unless the second is greater *)
Definition max2 (a b : V) : V := if decide (le b a) then a else b.

(** [relay/segmenttree.py] SegmentTree.__post_init__ *)
Definition make (size : Z) : result t :=
  if size <? 1 then Err Invalid else Ok (mk size (replicate (Z.to_nat (2 * size)) zero)).

(** [relay/segmenttree.py:57-60] SegmentTree.update *)
Definition update_round (pos : Z) : act t (Z + unit) :=
  self ← get;
  if 1 <=? pos then
    l ← pure_of (py_index (_tree self) (2 * pos));
    r ← pure_of (py_index (_tree self) (2 * pos + 1));
    tree ← pure_of (py_setitem (_tree self) pos (max2 l r));
    put (mk (size self) tree);;
    mret (inl (pos / 2))
  else mret (inr ()).

(** [relay/segmenttree.py] SegmentTree.update *)
Definition update (index : Z) (value : V) : act t unit :=
  self ← get;
  raise_if (negb ((0 <=? index) && (index <? size self))) Invalid;;
  let pos := index + size self in
  tree ← pure_of (py_setitem (_tree self) pos value);
  put (mk (size self) tree);;
  act_loop update_round (S (Z.to_nat (2 * size self))) (pos / 2).

(** [relay/segmenttree.py:73-81] SegmentTree.range_max *)
Definition max_round (tree : list V) (s : V * Z * Z) : result (V * Z * Z + V) :=
  let '(result, lo, hi) := s in
  if lo <? hi then
    s1 ← (if Z.land lo 1 =? 0 then Ok (result, lo)
          else x ← py_index tree lo; Ok (max2 result x, lo + 1));
    let '(result, lo) := s1 in
    s2 ← (if Z.land hi 1 =? 0 then Ok (result, hi)
          else let hi := hi - 1 in x ← py_index tree hi; Ok (max2 result x, hi));
    let '(result, hi) := s2 in
    Ok (inl (result, lo / 2, hi / 2))
  else Ok (inr result).

(** [relay/segmenttree.py] SegmentTree.range_max *)
Definition range_max (self : t) (low high : Z) : result V :=
  if high <? low then Err Invalid
  else if negb ((0 <=? low) && (low <? size self) && (0 <=? high) && (high <? size self)) then Err Invalid
  else loop (max_round (_tree self)) (S (Z.to_nat (2 * size self))) (_NEG_INF, low + size self, high + size self + 1).

(** [relay/segmenttree.py] SegmentTree.overall_max *)
Definition overall_max (self : t) : result V := py_index (_tree self) 1.

(** [relay/segmenttree.py] SegmentTree.note: [text] prints a value *)
Definition note (text : V → string) (self : t) : result string :=
  root ← py_index (_tree self) 1;
  Ok ("root max " +:+ text root +:+ " over " +:+ zs (size self)
      +:+ " element(s); the root is the one value a running scalar could track, the rest of the tree is what lets a decrease be handled and any subrange be queried").
End segment_tree.
Arguments t : clear implicits.
Arguments mk {V} _ _.
End SegmentTree.
End segmenttree.
Import segmenttree.

Module quickselect.
Section quickselect.
Context {A : Type} (le : relation A) `{!RelDecision le}.

(** [x < y] of a total order *)
Definition lt (x y : A) : bool := negb (bool_decide (le y x)).

(** [relay/quickselect.py] _median_of_three *)
Definition _median_of_three (values : list A) (lo hi : Z) : result A :=
  let mid := (lo + hi) / 2 in
  x ← py_index values lo;
  y ← py_index values mid;
  z ← py_index values hi;
  py_index (py_sorted le [x; y; z]) 1.

(** [relay/quickselect.py:52-53] kth_smallest *)
Definition scan_up (data : list A) (pivot : A) (l : Z) : result (Z + Z) :=
  x ← py_index data l;
  Ok (if lt x pivot then inl (l + 1) else inr l).

(** [relay/quickselect.py:54-55] kth_smallest *)
Definition scan_down (data : list A) (pivot : A) (r : Z) : result (Z + Z) :=
  x ← py_index data r;
  Ok (if lt pivot x then inl (r - 1) else inr r).

(** [relay/quickselect.py:51-59] kth_smallest *)
Definition partition_round (fuel : nat) (pivot : A) (s : list A * Z * Z) : result (list A * Z * Z + list A * Z * Z) :=
  let '(data, l, r) := s in
  if l <=? r then
    l ← loop (scan_up data pivot) fuel l;
    r ← loop (scan_down data pivot) fuel r;
    if l <=? r then
      x ← py_index data r;
      y ← py_index data l;
      data ← py_setitem data l x;
      data ← py_setitem data r y;
      Ok (inl (data, l + 1, r - 1))
    else Ok (inl (data, l, r))
  else Ok (inr (data, l, r)).

(** [relay/quickselect.py:47-67] kth_smallest *)
Definition select_round (fuel : nat) (k : Z) (s : list A * Z * Z) : result (list A * Z * Z + A) :=
  let '(data, lo, hi) := s in
  if lo <? hi then
    pivot ← _median_of_three data lo hi;
    p ← loop (partition_round fuel pivot) fuel (data, lo, hi);
    let '(data, l, r) := p in
    if k <=? r then Ok (inl (data, lo, r))
    else if l <=? k then Ok (inl (data, l, hi))
    else x ← py_index data k; Ok (inr x)
  else x ← py_index data lo; Ok (inr x).

(** [relay/quickselect.py] kth_smallest *)
Definition kth_smallest (values : list A) (k : Z) : result A :=
  match values with
  | [] => Err Invalid
  | _ =>
      if negb ((0 <=? k) && (k <? zlen values)) then Err Invalid
      else let fuel := S (S (length values)) in
           loop (select_round fuel k) fuel (values, 0, zlen values - 1)
  end.

(** [relay/quickselect.py] percentile *)
Definition percentile (values : list A) (p : float) : result A :=
  if negb (zf_le 0 p && fz_le p 100) then Err Invalid
  else match values with
       | [] => Err Invalid
       | _ =>
           share ← f_div p (of_Z 100);
           i ← f_int (f_mul share (of_Z (zlen values)));
           kth_smallest values (Z.min (zlen values - 1) i)
       end.
(** [relay/quickselect.py] note *)
Definition note (values : list A) : string :=
  "selecting over " +:+ zs (zlen values)
  +:+ " value(s) in linear time on average; a full sort would pay the logarithm on values the percentile never needs".
End quickselect.
End quickselect.
Import quickselect.

Module runningmedian.
Module RunningMedian.
(** the two heaps; of a heap the code uses only the least element and the length *)
(** [relay/runningmedian.py] class RunningMedian *)
Record t := mk { _lower : list Z; _upper : list Z }.

Definition make : t := mk [] [].

(** [heapq.heappush(heap, x)], of a heap kept as a sorted list *)
Definition heappush (heap : list Z) (x : Z) : list Z := sort_insert Z.le x heap.
(** [heapq.heappop(heap)] *)
Definition heappop (heap : list Z) : result (Z * list Z) :=
  match heap with x :: heap => Ok (x, heap) | [] => Err IndexError end.

(** [relay/runningmedian.py] RunningMedian._rebalance *)
Definition _rebalance : act t unit :=
  self ← get;
  if zlen (_upper self) + 1 <? zlen (_lower self) then
    p ← pure_of (heappop (_lower self));
    put (mk p.2 (heappush (_upper self) (- p.1)))
  else if zlen (_lower self) <? zlen (_upper self) then
    p ← pure_of (heappop (_upper self));
    put (mk (heappush (_lower self) (- p.1)) p.2)
  else mret ().

(** [relay/runningmedian.py] RunningMedian.add *)
Definition add (value : Z) : act t unit :=
  modify (λ self,
    if match _lower self with [] => true | x :: _ => value <=? - x end
    then mk (heappush (_lower self) (- value)) (_upper self)
    else mk (_lower self) (heappush (_upper self) value));;
  _rebalance.

(** [relay/runningmedian.py] RunningMedian.median: a numerator and a denominator *)
Definition median (self : t) : result (Z * Z) :=
  match _lower self with
  | [] => Err Invalid
  | x :: _ =>
      if zlen (_upper self) <? zlen (_lower self) then Ok (- x, 1)
      else y ← py_index (_upper self) 0; Ok (- x + y, 2)
  end.

(** [relay/runningmedian.py] RunningMedian.balance: the two lengths in the message *)
Definition balance (self : t) : Z * Z := (zlen (_lower self), zlen (_upper self)).
End RunningMedian.
End runningmedian.
Import runningmedian.

Module trie.
(** [relay/trie.py] class _TrieNode *)
Inductive _TrieNode := Node (children : list (ascii * _TrieNode)) (is_end : bool).

Definition children (n : _TrieNode) : pydict ascii _TrieNode := let 'Node c _ := n in c.
Definition is_end (n : _TrieNode) : bool := let 'Node _ e := n in e.
Definition empty_node : _TrieNode := Node [] false.

Module PrefixTrie.
(** [relay/trie.py] class PrefixTrie *)
Record t := mk { _root : _TrieNode; _count : Z }.

Definition make : t := mk empty_node 0.

(** The walk from a node along a prefix, making the nodes that are missing; with it whether
    the node at the end was not marked before. *)
(** [relay/trie.py:50-55] PrefixTrie.insert *)
Fixpoint insert_below (node : _TrieNode) (prefix : string) : _TrieNode * bool :=
  match prefix with
  | EmptyString => (Node (children node) true, negb (is_end node))
  | String ch prefix =>
      let r := insert_below (default empty_node (d_get (children node) ch)) prefix in
      (Node (d_set (children node) ch r.1) (is_end node), r.2)
  end.

(** [relay/trie.py] PrefixTrie.insert *)
Definition insert (prefix : string) : act t unit :=
  raise_if (bool_decide (prefix = ""%string)) Invalid;;
  modify (λ self, let r := insert_below (_root self) prefix in
    mk r.1 (_count self + if r.2 then 1 else 0)).

(** [relay/trie.py:61-67] PrefixTrie.longest_prefix_of *)
Fixpoint follow (node : _TrieNode) (name path : string) (best : option string) : option string :=
  match name with
  | EmptyString => best
  | String ch name =>
      match d_get (children node) ch with
      | None => best
      | Some node =>
          let path := (path +:+ String ch "")%string in
          follow node name path (if is_end node then Some path else best)
      end
  end.

(** [relay/trie.py] PrefixTrie.longest_prefix_of *)
Definition longest_prefix_of (self : t) (name : string) : option string := follow (_root self) name "" None.

(** [relay/trie.py] PrefixTrie.matches *)
Definition matches (self : t) (name : string) : bool :=
  match longest_prefix_of self name with Some _ => true | None => false end.

(** the number of nodes of a tree, which bounds the walk below *)
Fixpoint node_size (n : _TrieNode) : nat :=
  let 'Node c _ := n in S (foldr (λ p n, (node_size p.2 + n)%nat) O c).

(** [relay/trie.py:76-79] PrefixTrie._node_count *)
Definition count_round (s : Z * list _TrieNode) : result (Z * list _TrieNode + Z) :=
  let '(total, stack) := s in
  match reverse stack with
  | [] => Ok (inr total)
  | n :: rest => Ok (inl (total + 1, reverse rest ++ d_values (children n)))
  end.

(** [relay/trie.py] PrefixTrie._node_count *)
Definition _node_count (self : t) : result Z :=
  total ← loop count_round (S (node_size (_root self))) (0, [_root self]);
  Ok (total - 1).

(** [relay/trie.py] PrefixTrie.report: the two counts in the message *)
Definition report (self : t) : result (Z * Z) := n ← _node_count self; Ok (_count self, n).
End PrefixTrie.
End trie.
Import trie.

Module bloomfilter.
Module BloomFilter.
Section bloom_filter.
Context (hash : string → Z).

(** [relay/bloomfilter.py] class BloomFilter *)
Record t := mk { size_bits : Z; hash_count : Z; bits : gset Z; added : Z }.

(** [relay/bloomfilter.py] BloomFilter.__post_init__ *)
Definition make (size_bits hash_count : Z) : result t :=
  if (size_bits <? 1) || (hash_count <? 1) then Err Invalid else Ok (mk size_bits hash_count ∅ 0).

(** [relay/bloomfilter.py] BloomFilter._positions *)
Definition _positions (self : t) (key : string) : list Z :=
  (λ i, Z.land (hash (zs i +:+ ":" +:+ key)%string) 0x7FFFFFFF mod size_bits self) <$> seqZ 0 (hash_count self).

(** [relay/bloomfilter.py] BloomFilter.add *)
Definition add (key : string) : act t unit :=
  modify (λ self, mk (size_bits self) (hash_count self)
    (bits self ∪ list_to_set (_positions self key)) (added self + 1)).

(** [relay/bloomfilter.py] BloomFilter.might_contain *)
Definition might_contain (self : t) (key : string) : bool :=
  forallb (λ pos, bool_decide (pos ∈ bits self)) (_positions self key).

(** [relay/bloomfilter.py] BloomFilter.definitely_absent *)
Definition definitely_absent (self : t) (key : string) : bool := negb (might_contain self key).
End bloom_filter.

(** [relay/bloomfilter.py] BloomFilter.estimated_false_positive_rate: [pow] is [**] of a float, computed by the C library *)
Definition estimated_false_positive_rate (pow : float → Z → float) (self : t) : result float :=
  fraction_set ← z_truediv (Z.of_nat (size (bits self))) (size_bits self);
  Ok (pow fraction_set (hash_count self)).
(** [relay/bloomfilter.py] BloomFilter.report *)
Definition report (pow : float → Z → float) (self : t) : result string :=
  rate ← estimated_false_positive_rate pow self;
  Ok (zs (added self) +:+ " key(s) in " +:+ zs (size_bits self) +:+ " bit(s), " +:+ zs (Z.of_nat (size (bits self)))
      +:+ " set; estimated false-positive rate " +:+ fmt_fixed 3 rate +:+ "; a maybe needs the real lookup, a no never lies").
End BloomFilter.
End bloomfilter.
Import bloomfilter.

Module countingbloom.
Module CountingBloom.
Section counting_bloom.
Context (hash : string → Z).

(** [relay/countingbloom.py] class CountingBloom *)
Record t := mk { size : Z; hash_count : Z; max_count : Z; counters : list Z }.

(** [relay/countingbloom.py] CountingBloom.__post_init__ *)
Definition make (size hash_count max_count : Z) (counters : list Z) : result t :=
  if (size <? 1) || (hash_count <? 1) then Err Invalid
  else Ok (mk size hash_count max_count
             (match counters with [] => replicate (Z.to_nat size) 0 | _ => counters end)).

(** [relay/countingbloom.py] CountingBloom._positions *)
Definition _positions (self : t) (key : string) : list Z :=
  (λ i, Z.land (hash (zs i +:+ ":" +:+ key)%string) 0x7FFFFFFF mod size self) <$> seqZ 0 (hash_count self).

(** [self.counters[pos] += delta] *)
Definition shift_counter (pos delta : Z) : act t unit :=
  self ← get;
  c ← pure_of (py_index (counters self) pos);
  counters ← pure_of (py_setitem (counters self) pos (c + delta));
  put (mk (size self) (hash_count self) (max_count self) counters).

(** [relay/countingbloom.py:55-56] CountingBloom.add *)
Definition raise_counter (pos : Z) : act t unit :=
  self ← get;
  c ← pure_of (py_index (counters self) pos);
  if c <? max_count self then shift_counter pos 1 else mret ().

(** [relay/countingbloom.py] CountingBloom.add *)
Definition add (key : string) : act t unit :=
  self ← get;
  for_each (_positions self key) raise_counter.

(** [relay/countingbloom.py:68-69] CountingBloom.remove *)
Definition lower_counter (pos : Z) : act t unit :=
  self ← get;
  c ← pure_of (py_index (counters self) pos);
  if (0 <? c) && (c <? max_count self) then shift_counter pos (-1) else mret ().

(** [all(self.counters[pos] > 0 for pos in positions)] *)
Fixpoint all_positive (counters : list Z) (positions : list Z) : result bool :=
  match positions with
  | [] => Ok true
  | pos :: positions => c ← py_index counters pos; if 0 <? c then all_positive counters positions else Ok false
  end.

(** [relay/countingbloom.py] CountingBloom.might_contain *)
Definition might_contain (self : t) (key : string) : result bool :=
  all_positive (counters self) (_positions self key).

(** [relay/countingbloom.py] CountingBloom.remove *)
Definition remove (key : string) : act t unit :=
  self ← get;
  present ← pure_of (might_contain self key);
  raise_if (negb present) Invalid;;
  for_each (_positions self key) lower_counter.

(** [relay/countingbloom.py] CountingBloom.saturation: the count in the message *)
Definition saturation (self : t) : Z := zlen (List.filter (λ c, max_count self <=? c) (counters self)).
End counting_bloom.
End CountingBloom.
End countingbloom.
Import countingbloom.

Module bitset.
Module Bitset.
(** [relay/bitset.py] class Bitset *)
Record t := mk { base : Z; size : Z; _bits : gset Z }.

(** [relay/bitset.py] Bitset.__post_init__ *)
Definition make (base size : Z) : result t := if size <? 1 then Err Invalid else Ok (mk base size ∅).

(** [relay/bitset.py] Bitset._index *)
Definition _index (self : t) (offset : Z) : result Z :=
  let idx := offset - base self in
  if negb ((0 <=? idx) && (idx <? size self)) then Err Invalid else Ok idx.

(** [relay/bitset.py] Bitset.set *)
Definition set (offset : Z) : act t unit :=
  self ← get;
  i ← pure_of (_index self offset);
  put (mk (base self) (size self) (_bits self ∪ {[i]})).

(** [relay/bitset.py] Bitset.clear *)
Definition clear (offset : Z) : act t unit :=
  self ← get;
  i ← pure_of (_index self offset);
  put (mk (base self) (size self) (_bits self ∖ {[i]})).

(** [relay/bitset.py] Bitset.test *)
Definition test (self : t) (offset : Z) : result bool :=
  i ← _index self offset; Ok (bool_decide (i ∈ _bits self)).

(** [relay/bitset.py] Bitset.count *)
Definition count (self : t) : Z := Z.of_nat (base.size (_bits self)).

(** [relay/bitset.py] Bitset.density *)
Definition density (self : t) : result string :=
  frac ← z_truediv (count self) (size self);
  Ok (if f_lt (f_dec 5 (-1)) frac
      then fmt_percent 0 frac +:+ " of the range set; nearly full, the range itself is the memory and a denser structure might pack it"
      else fmt_percent 0 frac +:+ " of the range set; sparse, what a bitset is for").
End Bitset.
End bitset.
Import bitset.

#[global] Instance N_le_total_order : TotalOrder N.le.
Proof. split; [apply _|]. intros x y. unfold strict. lia. Qed.
#[global] Instance Z_le_total_order : TotalOrder Z.le.
Proof. split; [apply _|]. intros x y. unfold strict. lia. Qed.

(** ** Range maxima *)

Section maxima.
Context {V : Type} (le : relation V) `{!RelDecision le, !TotalOrder le} (zero neg_inf : V).
Context (Hbottom : ∀ x, le neg_inf x).
Import SegmentTree.
Implicit Types (s : SegmentTree.t V) (tree : list V).

Lemma max2_le a b x : le (max2 le a b) x ↔ le a x ∧ le b x.
Proof.
  unfold max2. case_decide as Hba; [split; [intros Ha; split; [done|by trans a]|tauto]|].
  destruct (total le a b); [|done]. split; [intros Hb; split; [by trans b|done]|tauto].
Qed.

(** the greatest of a list, from the bottom up *)
Definition maximum (l : list V) : V := foldr (λ x m, max2 le m x) neg_inf l.

Lemma maximum_le l x : le (maximum l) x ↔ ∀ y, y ∈ l → le y x.
Proof.
  induction l as [|z l IH]; cbn [maximum foldr].
  - split; [intros _ y Hy; by apply elem_of_nil in Hy|intros _; apply Hbottom].
  - rewrite max2_le. fold (maximum l). rewrite IH. set_solver.
Qed.

Lemma max_unique a b : (∀ x, le a x ↔ le b x) → a = b.
Proof. intros Hab. apply (anti_symm le); apply Hab; reflexivity. Qed.

(** the cell [j] of the tree; the parents hold the maximum of their two children *)
Definition cell tree (j : Z) : V := default zero (tree !! Z.to_nat j).
Definition parent_ok tree (p : Z) : Prop := cell tree p = max2 le (cell tree (2 * p)) (cell tree (2 * p + 1)).

Record tree_ok (n : Z) (values : list V) s : Prop := {
  to_pos : 1 <= n;
  to_size : size s = n;
  to_len : zlen (_tree s) = 2 * n;
  to_leaves : drop (Z.to_nat n) (_tree s) = values;
  to_parents : ∀ p, 1 <= p < n → parent_ok (_tree s) p;
}.

Lemma cell_index tree j : 0 <= j < zlen tree → py_index tree j = Ok (cell tree j).
Proof.
  intros Hj. unfold zlen in Hj. destruct (lookup_lt_is_Some_2 tree (Z.to_nat j)) as [x Hx]; [lia|].
  unfold cell. rewrite Hx. apply py_index_nonneg; [lia|done].
Qed.

Lemma cell_set tree j x : 0 <= j < zlen tree → py_setitem tree j x = Ok (<[Z.to_nat j := x]> tree).
Proof.
  intros Hj. unfold zlen in Hj. destruct (lookup_lt_is_Some_2 tree (Z.to_nat j)) as [y Hy]; [lia|].
  unfold py_setitem. rewrite (py_pos_nonneg _ j y); [done|lia|done].
Qed.

Lemma cell_insert tree j x i : 0 <= j < zlen tree → 0 <= i →
  cell (<[Z.to_nat j := x]> tree) i = if bool_decide (i = j) then x else cell tree i.
Proof.
  intros Hj Hi. unfold cell, zlen in *. case_bool_decide; subst.
  - rewrite list_lookup_insert_eq; [done|lia].
  - rewrite list_lookup_insert_ne; [done|lia].
Qed.

(** ** Updates *)

(** every parent is right but for the one about to be computed *)
Definition climbing (n : Z) (values : list V) (pos : Z) s : Prop :=
  size s = n ∧ zlen (_tree s) = 2 * n ∧ drop (Z.to_nat n) (_tree s) = values ∧ 0 <= pos < n ∧
  ∀ p, 1 <= p < n → p ≠ pos → parent_ok (_tree s) p.

Lemma update_round_run n values pos s :
  1 <= n → climbing n values pos s →
  match update_round le pos s with
  | (s', Ok (inl pos')) => climbing n values pos' s' ∧ (Z.to_nat pos' < Z.to_nat pos)%nat
  | (s', Ok (inr tt)) => tree_ok n values s'
  | (_, Err _) => False
  end.
Proof.
  intros Hn (Hsz & Hlen & Hdrop & Hpos & Hp). unfold update_round. rewrite bind_get.
  destruct (Z.leb_spec 1 pos) as [H1|H1].
  2: { rewrite run_ret. split; try done. intros p Hb. apply Hp; lia. }
  rewrite bind_pure_of, cell_index, bind_pure_of, cell_index, bind_pure_of, cell_set, bind_put, run_ret by lia.
  pose proof (Z.div_pos pos 2 ltac:(lia) ltac:(lia)).
  pose proof (Z.mul_div_le pos 2 ltac:(lia)). pose proof (Z.mod_pos_bound pos 2 ltac:(lia)).
  pose proof (Z.div_mod pos 2 ltac:(lia)).
  split; [|lia]. split_and!; cbn [size _tree]; [done|unfold zlen in *; rewrite length_insert; lia| |lia|lia|].
  { by rewrite drop_insert_lt by lia. }
  intros p Hb Hne. unfold parent_ok. rewrite !cell_insert by lia.
  rewrite (bool_decide_false (2 * p = pos)), (bool_decide_false (2 * p + 1 = pos)) by lia.
  case_bool_decide; [by subst|]. by apply Hp.
Qed.

Lemma update_run n values s index value :
  tree_ok n values s →
  if (0 <=? index) && (index <? n)
  then ∃ s', update le index value s = (s', Ok ()) ∧ tree_ok n (<[Z.to_nat index := value]> values) s'
  else update le index value s = (s, Err Invalid).
Proof.
  intros [Hn Hsz Hlen Hdrop Hp]. unfold update. rewrite bind_get, bind_raise_if, Hsz.
  destruct ((0 <=? index) && (index <? n)) eqn:Hi; cbn [negb]; [|done].
  apply andb_true_iff in Hi as [H0%Z.leb_le H1%Z.ltb_lt].
  rewrite bind_pure_of, cell_set, bind_put by lia.
  set (fuel := S _). set (s1 := mk _ _). set (values' := <[_ := _]> values).
  assert (Hrun : tree_ok n values' (act_loop (update_round le) fuel ((index + n) / 2) s1).1
     ∧ (act_loop (update_round le) fuel ((index + n) / 2) s1).2 = Ok ()).
  { apply (act_loop_rule (update_round le) (climbing n values') Z.to_nat (λ s' r, tree_ok n values' s' ∧ r = Ok ())).
    - intros p s' Hs'. pose proof (update_round_run n values' p s' Hn Hs') as Hr.
      destruct (update_round le p s') as [s'' [[p'|[]]|e]]; by auto.
    - subst s1 values'. split_and!; cbn [size _tree]; [done|unfold zlen in *; rewrite length_insert; lia| | | |].
      + rewrite drop_insert_ge, Hdrop by lia. f_equal. lia.
      + apply Z.div_pos; lia.
      + apply Z.div_lt_upper_bound; lia.
      + intros p Hb Hne. unfold parent_ok. rewrite !cell_insert by lia.
        pose proof (Z.div_mod (index + n) 2 ltac:(lia)). pose proof (Z.mod_pos_bound (index + n) 2 ltac:(lia)).
        rewrite !bool_decide_false by lia. by apply Hp.
    - pose proof (Z.div_lt_upper_bound (index + n) 2 n ltac:(lia) ltac:(lia)). subst fuel. lia. }
  destruct (act_loop (update_round le) fuel _ s1) as [s' r]. destruct Hrun as [Hok Hr]. cbn in Hr. subst r.
  by exists s'.
Qed.

(** ** Queries *)

Lemma land_one z : Z.land z 1 = z mod 2.
Proof. exact (Z.land_ones z 1 ltac:(lia)). Qed.

(** [r] and the cells from [lo] up to [hi] have the upper bounds of the range *)
Definition gathering (n : Z) tree (P : V → Prop) (st : V * Z * Z) : Prop :=
  let '(r, lo, hi) := st in
  1 <= lo ∧ lo <= hi <= 2 * n ∧ ∀ x, (le r x ∧ ∀ j, lo <= j < hi → le (cell tree j) x) ↔ P x.

Lemma halve_range n tree (lo hi : Z) x :
  zlen tree = 2 * n → (∀ p, 1 <= p < n → parent_ok tree p) →
  2 <= lo → hi <= 2 * n → lo mod 2 = 0 → hi mod 2 = 0 →
  (∀ j, lo <= j < hi → le (cell tree j) x) ↔ (∀ j, lo / 2 <= j < hi / 2 → le (cell tree j) x).
Proof.
  intros Hlen Hp Hlo Hhi Hl Hh.
  pose proof (Z.div_mod lo 2 ltac:(lia)). pose proof (Z.div_mod hi 2 ltac:(lia)). split; intros Hall j Hj.
  - rewrite (Hp j ltac:(lia)), max2_le. split; apply Hall; lia.
  - pose proof (Z.div_mod j 2 ltac:(lia)). pose proof (Z.mod_pos_bound j 2 ltac:(lia)).
    specialize (Hall (j / 2) ltac:(lia)). rewrite (Hp (j / 2) ltac:(lia)), max2_le in Hall.
    destruct (decide (j mod 2 = 0)); [replace j with (2 * (j / 2)) by lia|replace j with (2 * (j / 2) + 1) by lia];
      apply Hall.
Qed.

Lemma max_round_run n tree P st :
  zlen tree = 2 * n → (∀ p, 1 <= p < n → parent_ok tree p) → gathering n tree P st →
  match max_round le tree st with
  | Ok (inl st') => gathering n tree P st' ∧ (Z.to_nat st'.2 < Z.to_nat st.2)%nat
  | Ok (inr r) => ∀ x, le r x ↔ P x
  | Err _ => False
  end.
Proof.
  intros Hlen Hp. destruct st as [[r lo] hi]. intros (Hlo & Hhi & HP). unfold max_round.
  destruct (Z.ltb_spec lo hi) as [Hlt|Hge].
  2: { intros x. rewrite <- HP. split; [intros Hr; split; [done|lia]|by intros [? _]]. }
  rewrite !land_one. pose proof (Z.mod_pos_bound lo 2 ltac:(lia)). pose proof (Z.mod_pos_bound hi 2 ltac:(lia)).
  pose proof (Z.div_mod lo 2 ltac:(lia)). pose proof (Z.div_mod hi 2 ltac:(lia)).
  assert (Hlower : ∃ r1 lo1, (if lo mod 2 =? 0 then Ok (r, lo) else x ← py_index tree lo; Ok (max2 le r x, lo + 1)) = Ok (r1, lo1)
    ∧ 2 <= lo1 <= hi ∧ lo1 mod 2 = 0 ∧ (lo1 < hi ∨ hi mod 2 = 0)
    ∧ ∀ x, (le r1 x ∧ ∀ j, lo1 <= j < hi → le (cell tree j) x) ↔ P x).
  { destruct (Z.eqb_spec (lo mod 2) 0) as [He|Ho].
    - exists r, lo. split_and!; [done|lia|lia|lia|lia|done].
    - exists (max2 le r (cell tree lo)), (lo + 1). rewrite cell_index by lia.
      assert (Hev : (lo + 1) mod 2 = 0) by (symmetry; apply (Z.mod_unique _ _ (lo / 2 + 1)); lia).
      split_and!; [done|lia|lia|lia|lia|]. intros x. rewrite <- HP, max2_le. split.
      + intros [[Hr Hl] Hj]. split; [done|]. intros j Hb. destruct (decide (j = lo)) as [->|]; [done|apply Hj; lia].
      + intros [Hr Hj]. split_and!; [done|apply Hj; lia|intros j Hb; apply Hj; lia]. }
  destruct Hlower as (r1 & lo1 & -> & Hb1 & He1 & Hor & HP1). cbn [mbind result_bind].
  assert (Hupper : ∃ r2 hi2, (if hi mod 2 =? 0 then Ok (r1, hi) else x ← py_index tree (hi - 1); Ok (max2 le r1 x, hi - 1)) = Ok (r2, hi2)
    ∧ lo1 <= hi2 <= hi ∧ hi2 mod 2 = 0 ∧ ∀ x, (le r2 x ∧ ∀ j, lo1 <= j < hi2 → le (cell tree j) x) ↔ P x).
  { destruct (Z.eqb_spec (hi mod 2) 0) as [He|Ho].
    - exists r1, hi. split_and!; [done|lia|lia|lia|done].
    - exists (max2 le r1 (cell tree (hi - 1))), (hi - 1). rewrite cell_index by lia.
      assert (Hev : (hi - 1) mod 2 = 0) by (symmetry; apply (Z.mod_unique _ _ (hi / 2)); lia).
      split_and!; [done|lia|lia|lia|]. intros x. rewrite <- HP1, max2_le. split.
      + intros [[Hr Hl] Hj]. split; [done|]. intros j Hb. destruct (decide (j = hi - 1)) as [->|]; [done|apply Hj; lia].
      + intros [Hr Hj]. split_and!; [done|apply Hj; lia|intros j Hb; apply Hj; lia]. }
  destruct Hupper as (r2 & hi2 & -> & Hb2 & He2 & HP2). cbn [mbind result_bind].
  pose proof (Z.div_mod lo1 2 ltac:(lia)). pose proof (Z.div_mod hi2 2 ltac:(lia)).
  split; [|cbn [snd]; lia]. split_and!; [lia|lia|lia|]. intros x.
  rewrite <- HP2, (halve_range n tree lo1 hi2 x) by (done || lia). done.
Qed.

Lemma leaf_cell n values s i : tree_ok n values s → 0 <= i →
  cell (_tree s) (n + i) = default zero (values !! Z.to_nat i).
Proof.
  intros Hs Hi. rewrite <- (to_leaves n values s Hs), lookup_drop. pose proof (to_pos n values s Hs).
  unfold cell. do 2 f_equal. lia.
Qed.

Lemma tree_ok_length n values s : tree_ok n values s → zlen values = n.
Proof.
  intros Hs. rewrite <- (to_leaves n values s Hs). pose proof (to_len n values s Hs). pose proof (to_pos n values s Hs).
  unfold zlen in *. rewrite length_drop. lia.
Qed.

(** the values from index [low] to [high] *)
Definition slice (low high : Z) (values : list V) : list V :=
  take (Z.to_nat (high - low + 1)) (drop (Z.to_nat low) values).

Lemma slice_elem n values s low high y : tree_ok n values s → 0 <= low → high < n →
  y ∈ slice low high values ↔ ∃ i, low <= i <= high ∧ y = cell (_tree s) (n + i).
Proof.
  intros Hs Hl Hh. pose proof (tree_ok_length n values s Hs) as Hlen. unfold zlen in Hlen.
  unfold slice. rewrite list_elem_of_lookup. split.
  - intros (k & Hk). apply lookup_take_Some in Hk as [Hk Hlt]. rewrite lookup_drop in Hk.
    exists (low + Z.of_nat k). split; [lia|]. rewrite (leaf_cell n values s) by (done || lia).
    replace (Z.to_nat (low + Z.of_nat k)) with (Z.to_nat low + k)%nat by lia. by rewrite Hk.
  - intros (i & Hi & ->). exists (Z.to_nat (i - low)). rewrite (leaf_cell n values s) by (done || lia).
    rewrite lookup_take_Some, lookup_drop. split; [|lia].
    replace (Z.to_nat low + Z.to_nat (i - low))%nat with (Z.to_nat i) by lia.
    destruct (lookup_lt_is_Some_2 values (Z.to_nat i)) as [v ->]; [lia|done].
Qed.

Lemma range_max_run n values s low high :
  tree_ok n values s →
  range_max le neg_inf s low high
  = if high <? low then Err Invalid
    else if (0 <=? low) && (low <? n) && (0 <=? high) && (high <? n) then Ok (maximum (slice low high values))
    else Err Invalid.
Proof.
  intros Hs. pose proof Hs as [Hn Hsz Hlen _ Hp]. unfold range_max. rewrite Hsz.
  destruct (Z.ltb_spec high low) as [|Hle]; [done|]. destruct (_ && _ && _ && _) eqn:Hr; cbn [negb]; [|done].
  rewrite !andb_true_iff, !Z.leb_le, !Z.ltb_lt in Hr.
  apply (loop_rule (max_round le (_tree s)) (gathering n (_tree s) (λ x, ∀ y, y ∈ slice low high values → le y x))
    (λ st, Z.to_nat st.2)); [| |cbn [snd]; lia].
  - intros st Hst. pose proof (max_round_run n _ _ st Hlen Hp Hst) as Hrun.
    destruct (max_round le (_tree s) st) as [[st'|r]|e]; [done| |done].
    f_equal. apply max_unique. intros x. by rewrite Hrun, maximum_le.
  - split_and!; [lia|lia|lia|]. intros x. split.
    + intros [_ Hj] y Hy. apply (slice_elem n values s) in Hy as (i & Hi & ->); [|done|lia|lia]. apply Hj. lia.
    + intros Hy. split; [apply Hbottom|]. intros j Hj. apply Hy, (slice_elem n values s); [done|lia|lia|].
      exists (j - n). split; [lia|]. f_equal. lia.
Qed.

Lemma overall_max_run n values s : tree_ok n values s → overall_max s = Ok (maximum values).
Proof.
  intros Hs. pose proof Hs as [Hn Hsz Hlen _ Hp]. unfold overall_max. rewrite cell_index by lia. f_equal.
  apply max_unique. intros x. rewrite maximum_le.
  assert (Hin : ∀ y, y ∈ values ↔ ∃ i, 0 <= i < n ∧ y = cell (_tree s) (n + i)).
  { intros y. pose proof (tree_ok_length n values s Hs) as Hl. rewrite <- (take_ge values (Z.to_nat n)) by (unfold zlen in Hl; lia).
    pose proof (slice_elem n values s 0 (n - 1) y Hs ltac:(lia) ltac:(lia)) as Hsl. unfold slice in Hsl.
    replace (n - 1 - 0 + 1) with n in Hsl by lia. rewrite drop_0 in Hsl. rewrite Hsl.
    split; intros (i & Hi & ->); exists i; (split; [lia|done]). }
  split.
  - intros H1 y (i & Hi & ->)%Hin.
    assert (Hdown : ∀ k j, (Z.to_nat j < k)%nat → 1 <= j < 2 * n → le (cell (_tree s) j) x); [|apply (Hdown (S (Z.to_nat (n + i)))); lia].
    induction k as [|k IH]; intros j Hk Hj; [lia|]. destruct (decide (j = 1)) as [->|]; [done|].
    pose proof (Z.div_mod j 2 ltac:(lia)). pose proof (Z.mod_pos_bound j 2 ltac:(lia)).
    specialize (IH (j / 2) ltac:(lia) ltac:(lia)). rewrite (Hp (j / 2) ltac:(lia)), max2_le in IH.
    destruct (decide (j mod 2 = 0)); [replace j with (2 * (j / 2)) by lia|replace j with (2 * (j / 2) + 1) by lia]; apply IH.
  - intros Hall.
    assert (Hup : ∀ k j, (Z.to_nat (2 * n - j) < k)%nat → 1 <= j < 2 * n → le (cell (_tree s) j) x); [|apply (Hup (S (Z.to_nat (2 * n)))); lia].
    induction k as [|k IH]; intros j Hk Hj; [lia|]. destruct (decide (j < n)) as [Hlt|Hge].
    + rewrite (Hp j ltac:(lia)), max2_le. split; apply IH; lia.
    + apply Hall, Hin. exists (j - n). split; [lia|]. f_equal. lia.
Qed.

Lemma make_tree_run n : 1 <= n →
  ∃ s, make zero n = Ok s ∧ tree_ok n (replicate (Z.to_nat n) zero) s.
Proof.
  intros Hn. unfold make. destruct (Z.ltb_spec n 1); [lia|]. eexists. split; [done|].
  split; cbn [size _tree]; [done|done|unfold zlen; rewrite length_replicate; lia| |].
  - rewrite drop_replicate. f_equal. lia.
  - intros p Hb. unfold parent_ok, cell. rewrite !lookup_replicate_2 by lia. cbn. unfold max2. by case_decide.
Qed.
End maxima.

Definition st_step {V} (le : relation V) `{!RelDecision le} (o : Z * V) (s : SegmentTree.t V) : SegmentTree.t V :=
  state_of (SegmentTree.update le o.1 o.2) s.

(** the array the tree stands for: a write outside it is dropped *)
Definition assign {V} (o : Z * V) (values : list V) : list V :=
  if (0 <=? o.1) && (o.1 <? zlen values) then <[Z.to_nat o.1 := o.2]> values else values.

(** C33 (equivalence): the segment tree answers as the array it stands for. For any size, a power of
    two or not, any values under a total order and any sequence of updates, raising or lowering a value
    (one inside the array is accepted, one outside it raises [Invalid] and changes nothing), the maximum of a range is the maximum of
    those elements of the plain array, the root is the maximum of the whole array, and an inverted range or
    one that leaves the array is refused; the climb to the root and the walk of the two borders end on
    every input. *)
Theorem segment_tree_exact {V} (le : relation V) `{!RelDecision le, !TotalOrder le} (zero neg_inf : V) n updates low high :
  (∀ x, le neg_inf x) → 1 <= n →
  ∃ s0, SegmentTree.make zero n = Ok s0 ∧
  let s := run (st_step le) updates s0 in
  let values := run assign updates (replicate (Z.to_nat n) zero) in
  (∀ i v, if (0 <=? i) && (i <? n) then (SegmentTree.update le i v s).2 = Ok ()
          else SegmentTree.update le i v s = (s, Err Invalid))
  ∧ SegmentTree.range_max le neg_inf s low high
  = (if high <? low then Err Invalid
     else if (0 <=? low) && (low <? n) && (0 <=? high) && (high <? n)
          then Ok (maximum le neg_inf (slice low high values)) else Err Invalid)
  ∧ SegmentTree.overall_max s = Ok (maximum le neg_inf values)
  ∧ ∀ x, le (maximum le neg_inf (slice low high values)) x ↔ ∀ y, y ∈ slice low high values → le y x.
Proof.
  intros Hb Hn. destruct (make_tree_run le zero n Hn) as (s0 & Hmk & H0). exists s0. split; [done|]. cbn zeta.
  assert (Hok : tree_ok le zero n (run assign updates (replicate (Z.to_nat n) zero)) (run (st_step le) updates s0)).
  { clear Hmk. revert s0 H0. generalize (replicate (Z.to_nat n) zero). induction updates as [|[i v] us IH]; [done|].
    intros values s0 H0. unfold run. cbn [foldl]. apply IH.
    pose proof (update_run le zero n values s0 i v H0) as Hup. unfold assign, st_step, state_of. cbn [fst snd].
    rewrite (tree_ok_length le zero n values s0 H0).
    destruct (_ && _); [destruct Hup as (s' & -> & Hs'); done|by rewrite Hup]. }
  split_and!.
  - intros i v. pose proof (update_run le zero n _ _ i v Hok) as Hup. destruct (_ && _); [|done].
    by destruct Hup as (s' & -> & _).
  - by apply (range_max_run le zero).
  - by apply (overall_max_run le zero neg_inf Hb n).
  - intros x. by apply maximum_le.
Qed.

Lemma segment_tree_exact_witness :
  ∃ s0, SegmentTree.make 0%N 3 = Ok s0 ∧
  SegmentTree.range_max N.le 0%N (run (st_step N.le) [(0, 5%N); (1, 7%N); (2, 6%N); (1, 2%N)] s0) 0 1 = Ok 5%N.
Proof.
  destruct (segment_tree_exact N.le 0%N 0%N 3 [(0, 5%N); (1, 7%N); (2, 6%N); (1, 2%N)] 0 1 N.le_0_l ltac:(lia))
    as (s0 & Hmk & _ & Hr & _).
  exists s0. split; [exact Hmk|]. refine (eq_trans Hr _). vm_compute. reflexivity.
Defined.

(** ** The k-th smallest *)

Section selection.
Context {A : Type} (le : relation A) `{!RelDecision le, !TotalOrder le}.
Implicit Types (data values : list A) (p x y : A).

(** the element at an index that is not negative *)
Definition at_ data (i : Z) x : Prop := 0 <= i ∧ data !! Z.to_nat i = Some x.
Definition small data p (i : Z) : Prop := ∀ x, at_ data i x → le x p.
Definition large data p (i : Z) : Prop := ∀ x, at_ data i x → le p x.

(** everything left of [i] and at most at [i'] is below everything from [j'] on *)
Definition split_at data (i j : Z) : Prop := ∀ a b x y, a < i → j <= b → at_ data a x → at_ data b y → le x y.

Lemma at_index data i x : at_ data i x → py_index data i = Ok x.
Proof. intros [Hi Hx]. by apply py_index_nonneg. Qed.

Lemma at_ex data i : 0 <= i < zlen data → ∃ x, at_ data i x.
Proof.
  intros Hi. unfold zlen in Hi. destruct (lookup_lt_is_Some_2 data (Z.to_nat i)) as [x Hx]; [lia|].
  exists x. split; [lia|done].
Qed.

Lemma at_bound data i x : at_ data i x → 0 <= i < zlen data.
Proof. intros [Hi Hx%lookup_lt_Some]. unfold zlen. lia. Qed.

Lemma at_fun data i x y : at_ data i x → at_ data i y → x = y.
Proof. intros [_ Hx] [_ Hy]. congruence. Qed.

Lemma lt_spec x y : lt le x y = true ↔ ¬ le y x.
Proof. unfold lt. by rewrite negb_true_iff, bool_decide_eq_false. Qed.

Lemma le_of_not x y : ¬ le y x → le x y.
Proof. by destruct (total le x y). Qed.

Lemma scan_up_run data p l0 m fuel :
  0 <= l0 <= m → m < zlen data → large data p m → (Z.to_nat (m - l0) < fuel)%nat →
  ∃ l, loop (scan_up le data p) fuel l0 = Ok l ∧ l0 <= l <= m ∧ large data p l ∧ ∀ i, l0 <= i < l → small data p i.
Proof.
  intros Hl0 Hm Hlarge Hfuel.
  apply (loop_rule (scan_up le data p) (λ l, l0 <= l <= m ∧ ∀ i, l0 <= i < l → small data p i) (λ l, Z.to_nat (m - l))
    (λ r, ∃ l, r = Ok l ∧ l0 <= l <= m ∧ large data p l ∧ ∀ i, l0 <= i < l → small data p i)); [|split; lia|done].
  intros l [Hl Hs]. destruct (at_ex data l ltac:(lia)) as [x Hx]. unfold scan_up. rewrite (at_index _ _ _ Hx).
  cbn [mbind result_bind]. destruct (lt le x p) eqn:Hlt.
  - apply lt_spec in Hlt. assert (l ≠ m) as Hne by (intros ->; by apply Hlt, Hlarge). split; [|lia]. split; [lia|].
    intros i Hi. destruct (decide (i = l)) as [->|]; [|apply Hs; lia].
    intros x' Hx'. rewrite (at_fun _ _ _ _ Hx' Hx). by apply le_of_not.
  - exists l. split_and!; [done|lia|lia| |done]. intros x' Hx'. rewrite (at_fun _ _ _ _ Hx' Hx).
    apply not_true_iff_false in Hlt. rewrite lt_spec in Hlt. by apply dec_stable.
Qed.

Lemma scan_down_run data p r0 m fuel :
  0 <= m <= r0 → r0 < zlen data → small data p m → (Z.to_nat (r0 - m) < fuel)%nat →
  ∃ r, loop (scan_down le data p) fuel r0 = Ok r ∧ m <= r <= r0 ∧ small data p r ∧ ∀ i, r < i <= r0 → large data p i.
Proof.
  intros Hr0 Hm Hsmall Hfuel.
  apply (loop_rule (scan_down le data p) (λ r, m <= r <= r0 ∧ ∀ i, r < i <= r0 → large data p i) (λ r, Z.to_nat (r - m))
    (λ q, ∃ r, q = Ok r ∧ m <= r <= r0 ∧ small data p r ∧ ∀ i, r < i <= r0 → large data p i)); [|split; lia|done].
  intros r [Hr Hs]. destruct (at_ex data r ltac:(lia)) as [x Hx]. unfold scan_down. rewrite (at_index _ _ _ Hx).
  cbn [mbind result_bind]. destruct (lt le p x) eqn:Hlt.
  - apply lt_spec in Hlt. assert (r ≠ m) as Hne by (intros ->; by apply Hlt, Hsmall). split; [|lia]. split; [lia|].
    intros i Hi. destruct (decide (i = r)) as [->|]; [|apply Hs; lia].
    intros x' Hx'. rewrite (at_fun _ _ _ _ Hx' Hx). by apply le_of_not.
  - exists r. split_and!; [done|lia|lia| |done]. intros x' Hx'. rewrite (at_fun _ _ _ _ Hx' Hx).
    apply not_true_iff_false in Hlt. rewrite lt_spec in Hlt. by apply dec_stable.
Qed.

(** exchanging two elements *)
Lemma exchange_run data l r x y :
  at_ data l y → at_ data r x →
  ∃ d data', py_setitem data l x = Ok d ∧ py_setitem d r y = Ok data' ∧ data' ≡ₚ data
    ∧ at_ data' l x ∧ at_ data' r y ∧ ∀ i z, i ≠ l → i ≠ r → at_ data' i z ↔ at_ data i z.
Proof.
  intros Hl Hr. pose proof (at_bound _ _ _ Hl) as Hlb. pose proof (at_bound _ _ _ Hr) as Hrb. unfold zlen in *.
  exists (<[Z.to_nat l := x]> data), (<[Z.to_nat r := y]> (<[Z.to_nat l := x]> data)).
  assert (Hset : ∀ (d : list A) i z, length d = length data → 0 <= i < Z.of_nat (length data) →
    py_setitem d i z = Ok (<[Z.to_nat i := z]> d)).
  { intros d i z Hd Hi. destruct (lookup_lt_is_Some_2 d (Z.to_nat i)) as [w Hw]; [lia|].
    unfold py_setitem. rewrite (py_pos_nonneg _ i w); [done|lia|done]. }
  split_and!; [apply Hset; [done|lia]|apply Hset; rewrite ?length_insert; lia|by apply Permutation_insert_swap; [apply Hl|apply Hr]| | |].
  - split; [lia|]. destruct (decide (l = r)) as [->|Hne].
    + rewrite list_lookup_insert_eq by (rewrite length_insert; lia). by rewrite (at_fun _ _ _ _ Hl Hr).
    + rewrite list_lookup_insert_ne by lia. apply list_lookup_insert_eq. lia.
  - split; [lia|]. apply list_lookup_insert_eq. rewrite length_insert. lia.
  - intros i z Hil Hir. unfold at_. split; intros [Hi Hz]; (split; [done|]); revert Hz;
      rewrite !list_lookup_insert_ne by lia; done.
Qed.

(** ** One partition *)

Record parted (lo hi : Z) data0 p (st : list A * Z * Z) : Prop := {
  pa_perm : st.1.1 ≡ₚ data0;
  pa_bounds : lo <= st.1.2 <= hi + 1 ∧ lo - 1 <= st.2 <= hi;
  pa_small : ∀ i, lo <= i < st.1.2 → small st.1.1 p i;
  pa_large : ∀ i, st.2 < i <= hi → large st.1.1 p i;
  pa_below : split_at st.1.1 lo lo;
  pa_above : split_at st.1.1 (hi + 1) (hi + 1);
  pa_stop : (st.1.2 = lo ∧ st.2 = hi ∧ ∃ m, lo <= m <= hi ∧ at_ st.1.1 m p) ∨ (lo < st.1.2 ∧ st.2 < hi);
}.

Lemma split_exchange data data' l r x y lo hi c :
  (∀ i z, i ≠ l → i ≠ r → at_ data' i z ↔ at_ data i z) →
  at_ data l y → at_ data r x → at_ data' l x → at_ data' r y →
  lo <= l <= hi → lo <= r <= hi → c <= lo ∨ hi < c →
  split_at data c c → split_at data' c c.
Proof.
  intros Hother Hl Hr Hl' Hr' Hlb Hrb Hc Hsplit a b v w Ha Hb Hv Hw.
  assert (Hback : ∀ i z, at_ data' i z → ∃ j, at_ data j z ∧ (i < c → j < c) ∧ (c <= i → c <= j)).
  { intros i z Hz. destruct (decide (i = l)) as [->|].
    { exists r. rewrite (at_fun _ _ _ _ Hz Hl'). split_and!; [done|lia|lia]. }
    destruct (decide (i = r)) as [->|].
    { exists l. rewrite (at_fun _ _ _ _ Hz Hr'). split_and!; [done|lia|lia]. }
    exists i. split_and!; [by apply Hother|done|done]. }
  destruct (Hback a v Hv) as (a' & Ha' & Hac & _). destruct (Hback b w Hw) as (b' & Hb' & _ & Hbc).
  apply (Hsplit a' b'); auto.
Qed.

Lemma partition_round_run lo hi data0 p st fuel :
  0 <= lo → hi < zlen data0 → (length data0 < fuel)%nat → parted lo hi data0 p st →
  match partition_round le fuel p st with
  | Ok (inl st') => parted lo hi data0 p st' ∧ (Z.to_nat (st'.2 - st'.1.2 + 1) < Z.to_nat (st.2 - st.1.2 + 1))%nat
  | Ok (inr st') => st' = st ∧ st.2 < st.1.2
  | Err _ => False
  end.
Proof.
  intros Hlo Hhi Hfuel Hst. destruct st as [[data l] r].
  destruct Hst as [Hperm [Hl Hr] Hsmall Hlarge Hbelow Habove Hstop]. cbn [fst snd] in *.
  unfold partition_round. destruct (Z.leb_spec l r) as [Hlr|Hlr]; [|done].
  assert (Hlen : zlen data = zlen data0) by (unfold zlen; by rewrite Hperm).
  assert (Hm : ∃ m m', (l <= m <= hi ∧ large data p m) ∧ (lo <= m' <= r ∧ small data p m') ∧ (m = m' ∨ lo < l ∧ r < hi)).
  { destruct Hstop as [(-> & -> & m & Hm & Hat)|[? ?]].
    - exists m, m. split_and!; [lia|lia| |lia|lia| |by left]; intros x Hx; by rewrite (at_fun _ _ _ _ Hx Hat).
    - exists (r + 1), (l - 1). split_and!; [lia|lia|apply Hlarge; lia|lia|lia|apply Hsmall; lia|right; lia]. }
  destruct Hm as (m & m' & [Hm Hml] & [Hm' Hms] & Hor).
  destruct (scan_up_run data p l m fuel) as (l' & -> & Hl' & Hll & Hls); [lia|lia|done|unfold zlen in *; lia|].
  destruct (scan_down_run data p r m' fuel) as (r' & -> & Hr' & Hrs & Hrl); [lia|lia|done|unfold zlen in *; lia|].
  cbn [mbind result_bind].
  assert (Hsmall' : ∀ i, lo <= i < l' → small data p i).
  { intros i Hi. destruct (decide (i < l)); [apply Hsmall|apply Hls]; lia. }
  assert (Hlarge' : ∀ i, r' < i <= hi → large data p i).
  { intros i Hi. destruct (decide (r < i)); [apply Hlarge|apply Hrl]; lia. }
  destruct (Z.leb_spec l' r') as [Hle|Hgt].
  2: { cbn [fst snd]. split; [|lia]. split; cbn [fst snd]; try done; [lia|right; lia]. }
  destruct (at_ex data l' ltac:(lia)) as [y Hy]. destruct (at_ex data r' ltac:(lia)) as [x Hx].
  rewrite (at_index _ _ _ Hx), (at_index _ _ _ Hy). cbn [mbind result_bind].
  destruct (exchange_run data l' r' x y Hy Hx) as (d & data' & -> & Hset & Hp' & Hl'' & Hr'' & Hother).
  cbn [mbind result_bind]. rewrite Hset. cbn [mbind result_bind fst snd]. split; [|lia].
  split; cbn [fst snd]; [by rewrite Hp'|lia| | | | |right; lia].
  - intros i Hi z Hz. destruct (decide (i = l')) as [->|].
    + rewrite (at_fun _ _ _ _ Hz Hl''). by apply Hrs.
    + apply (Hsmall' i); [lia|]. apply Hother in Hz; [done|done|lia].
  - intros i Hi z Hz. destruct (decide (i = r')) as [->|].
    + rewrite (at_fun _ _ _ _ Hz Hr''). by apply Hll.
    + apply (Hlarge' i); [lia|]. apply Hother in Hz; [done|lia|done].
  - eapply (split_exchange data data' l' r' x y lo hi); eauto; lia.
  - eapply (split_exchange data data' l' r' x y lo hi); eauto; lia.
Qed.

(** ** The whole selection *)

Lemma median_of_three_run data lo hi : 0 <= lo <= hi → hi < zlen data →
  ∃ p m, _median_of_three le data lo hi = Ok p ∧ lo <= m <= hi ∧ at_ data m p.
Proof.
  intros Hlo Hhi. unfold _median_of_three.
  pose proof (Z.div_mod (lo + hi) 2 ltac:(lia)). pose proof (Z.mod_pos_bound (lo + hi) 2 ltac:(lia)).
  destruct (at_ex data lo ltac:(lia)) as [x Hx]. destruct (at_ex data ((lo + hi) / 2) ltac:(lia)) as [y Hy].
  destruct (at_ex data hi ltac:(lia)) as [z Hz].
  rewrite (at_index _ _ _ Hx), (at_index _ _ _ Hy), (at_index _ _ _ Hz). cbn [mbind result_bind].
  pose proof (py_sorted_Permutation le [x; y; z]) as Hp. pose proof (Permutation_length Hp) as Hlen.
  destruct (py_sorted le [x; y; z]) as [|a [|b [|c [|]]]]; try done.
  exists b. assert (b ∈ [x; y; z]) as Hb by (rewrite <- Hp; set_solver).
  set_unfold in Hb. destruct Hb as [->|[->|[->|[]]]]; eexists; (split; [done|]); (split; [|eassumption]); lia.
Qed.

(** [x] is in its place at [k] *)
Definition placed data (k : Z) x : Prop :=
  at_ data k x ∧ (∀ i, i < k → small data x i) ∧ (∀ i, k < i → large data x i).

Lemma placed_sorted data k x : placed data k x → py_sorted le data !! Z.to_nat k = Some x.
Proof.
  intros ([Hk Hx] & Hs & Hl). rewrite <- (take_drop_middle _ _ _ Hx) at 1.
  set (l1 := take (Z.to_nat k) data). set (l2 := drop (S (Z.to_nat k)) data).
  assert (Hl1 : length l1 = Z.to_nat k) by (apply length_take_le; apply lookup_lt_Some in Hx; lia).
  assert (H1 : ∀ y, y ∈ l1 → le y x).
  { intros y (j & Hj)%list_elem_of_lookup. apply lookup_take_Some in Hj as [Hj Hjk].
    apply (Hs (Z.of_nat j)); [lia|]. split; [lia|]. by rewrite Nat2Z.id. }
  assert (H2 : ∀ y, y ∈ l2 → le x y).
  { intros y (j & Hj)%list_elem_of_lookup. unfold l2 in Hj. rewrite lookup_drop in Hj.
    apply (Hl (Z.of_nat (S (Z.to_nat k) + j))); [lia|]. split; [lia|]. by rewrite Nat2Z.id. }
  assert (Hsorted : ∀ l, StronglySorted le (py_sorted le l)).
  { intros l. apply Sorted_StronglySorted; [apply _|]. apply py_sorted_Sorted, _. }
  assert (Heq : py_sorted le (l1 ++ x :: l2) = py_sorted le l1 ++ x :: py_sorted le l2).
  { apply (StronglySorted_unique le); [apply Hsorted| |].
    - apply StronglySorted_app_2; [|apply Hsorted|].
      + intros a b Ha%py_sorted_elem_of Hb. apply elem_of_cons in Hb as [->|Hb%py_sorted_elem_of]; [by apply H1|].
        trans x; [by apply H1|by apply H2].
      + constructor; [apply Hsorted|]. rewrite Forall_forall. intros b Hb%py_sorted_elem_of. by apply H2.
    - rewrite py_sorted_Permutation. by rewrite (py_sorted_Permutation le l1), (py_sorted_Permutation le l2). }
  rewrite Heq, list_lookup_middle; [done|]. by rewrite py_sorted_length.
Qed.

Definition selecting (k : Z) values (st : list A * Z * Z) : Prop :=
  st.1.1 ≡ₚ values ∧ 0 <= st.1.2 <= k ∧ k <= st.2 < zlen values
  ∧ split_at st.1.1 st.1.2 st.1.2 ∧ split_at st.1.1 (st.2 + 1) (st.2 + 1).

Lemma select_round_run k values st fuel :
  (length values < fuel)%nat → selecting k values st →
  match select_round le fuel k st with
  | Ok (inl st') => selecting k values st' ∧ (Z.to_nat (st'.2 - st'.1.2) < Z.to_nat (st.2 - st.1.2))%nat
  | Ok (inr x) => py_sorted le values !! Z.to_nat k = Some x
  | Err _ => False
  end.
Proof.
  intros Hfuel. destruct st as [[data lo] hi]. intros (Hperm & Hlo & Hhi & Hbelow & Habove). cbn [fst snd] in *.
  assert (Hlen : zlen data = zlen values) by (unfold zlen; by rewrite Hperm).
  assert (Hsame : ∀ d, d ≡ₚ values → py_sorted le d = py_sorted le values).
  { intros d Hd. apply (StronglySorted_unique le); [..|by rewrite !py_sorted_Permutation];
      (apply Sorted_StronglySorted; [apply _|]; apply py_sorted_Sorted, _). }
  unfold select_round. destruct (Z.ltb_spec lo hi) as [Hlt|Hge].
  2: { destruct (at_ex data lo ltac:(lia)) as [x Hx]. rewrite (at_index _ _ _ Hx). cbn [mbind result_bind].
       assert (lo = k) as -> by lia. assert (hi = k) as -> by lia. rewrite <- (Hsame data Hperm). apply placed_sorted.
       split_and!; [done| |].
       - intros i Hi y Hy. by apply (Hbelow i k y x Hi ltac:(lia)).
       - intros i Hi y Hy. by apply (Habove k i x y ltac:(lia) ltac:(lia)). }
  destruct (median_of_three_run data lo hi) as (p & m & -> & Hm & Hp); [lia|lia|]. cbn [mbind result_bind].
  assert (Hloop : ∃ data' l r, loop (partition_round le fuel p) fuel (data, lo, hi) = Ok (data', l, r)
    ∧ parted lo hi data p (data', l, r) ∧ r < l).
  { apply (loop_rule (partition_round le fuel p) (parted lo hi data p) (λ st, Z.to_nat (st.2 - st.1.2 + 1))
      (λ q, ∃ data' l r, q = Ok (data', l, r) ∧ parted lo hi data p (data', l, r) ∧ r < l)).
    - intros st Hst. pose proof (partition_round_run lo hi data p st fuel ltac:(lia) ltac:(lia)) as Hr.
      specialize (Hr ltac:(unfold zlen in *; lia) Hst). destruct (partition_round le fuel p st) as [[st'|st']|e]; [done| |done].
      destruct Hr as [-> Hrl]. destruct st as [[data' l] r]. exists data', l, r. done.
    - split; cbn [fst snd]; [done|lia|lia|lia|done|done|]. left. split_and!; [done|done|]. by exists m.
    - cbn [fst snd]. unfold zlen in *. lia. }
  destruct Hloop as (data' & l & r & -> & [Hperm' [Hlb Hrb] Hsmall Hlarge Hbelow' Habove' Hstop] & Hrl).
  cbn [mbind result_bind fst snd] in *.
  assert (Hstop' : lo < l ∧ r < hi) by (destruct Hstop as [(-> & -> & _)|?]; [lia|done]). clear Hstop.
  assert (Hpv : data' ≡ₚ values) by (by rewrite Hperm').
  assert (Hcut : ∀ c, r + 1 <= c <= l → split_at data' c c).
  { intros c Hc a b x y Ha Hb Hx Hy.
    destruct (decide (a < lo)) as [|Ha']; [destruct (decide (lo <= b)); [by apply (Hbelow' a b)|lia]|].
    destruct (decide (hi < b)) as [|Hb']; [apply (Habove' a b); (lia || done)|].
    trans p; [apply (Hsmall a); (lia || done)|apply (Hlarge b); (lia || done)]. }
  destruct (Z.leb_spec k r) as [Hkr|Hkr].
  { cbn [fst snd]. split; [|lia]. split_and!; cbn [fst snd]; [done|lia|lia|lia|lia|done|]. apply Hcut. lia. }
  destruct (Z.leb_spec l k) as [Hlk|Hlk].
  { cbn [fst snd]. split; [|lia]. split_and!; cbn [fst snd]; [done|lia|lia|lia|lia| |done]. apply Hcut. lia. }
  assert (Hlen' : zlen data' = zlen values) by (unfold zlen; by rewrite Hpv).
  destruct (at_ex data' k ltac:(lia)) as [x Hx]. rewrite (at_index _ _ _ Hx). cbn [mbind result_bind].
  rewrite <- (Hsame data' Hpv). apply placed_sorted. split_and!; [done| |].
  - intros i Hi y Hy. by apply (Hcut k ltac:(lia) i k y x Hi ltac:(lia)).
  - intros i Hi y Hy. by apply (Hcut (k + 1) ltac:(lia) k i x y ltac:(lia) ltac:(lia)).
Qed.
End selection.

(** Also (functional): quickselect finds the k-th smallest without sorting. For any values under a total
    order, duplicates included, [kth_smallest] answers, for every rank in range, the element at that rank
    of the sorted values, and refuses with [Invalid] an empty batch and a rank out of range; neither scan ever
    leaves the batch, the partition always shrinks the side it keeps, and every loop ends. *)
Theorem quickselect_exact {A} (le : relation A) `{!RelDecision le, !TotalOrder le} (values : list A) k :
  kth_smallest le values k
  = match (if 0 <=? k then py_sorted le values !! Z.to_nat k else None) with Some x => Ok x | None => Err Invalid end.
Proof.
  unfold kth_smallest. destruct values as [|v values]; [by destruct (0 <=? k)|].
  set (vs := v :: values). destruct (Z.leb_spec 0 k) as [Hk|Hk]; [|done]. cbn [andb negb].
  destruct (Z.ltb_spec k (zlen vs)) as [Hlt|Hge]; cbn [negb].
  2: { rewrite lookup_ge_None_2; [done|]. rewrite py_sorted_length. unfold zlen in Hge. lia. }
  apply (loop_rule (select_round le (S (S (length vs))) k) (selecting le k vs) (λ st, Z.to_nat (st.2 - st.1.2))
    (λ q, q = match py_sorted le vs !! Z.to_nat k with Some x => Ok x | None => Err Invalid end)).
  - intros st Hst. pose proof (select_round_run le k vs st (S (S (length vs))) ltac:(lia) Hst) as Hr.
    destruct (select_round _ _ k st) as [[st'|x]|e]; [done|by rewrite Hr|done].
  - assert (Hout : ∀ (b : Z) x, at_ vs b x → 0 <= b < zlen vs) by apply at_bound.
    split_and!; cbn [fst snd]; [done|lia|lia|lia|lia| |].
    + intros a b x y Ha Hb Hx Hy. specialize (Hout a x Hx). lia.
    + intros a b x y Ha Hb Hx Hy. specialize (Hout b y Hy). lia.
  - cbn [fst snd]. unfold zlen. lia.
Qed.

Lemma quickselect_exact_witness : kth_smallest Z.le [5; 1; 4; 1; 5; 9; 2; 6] 4 = Ok 5.
Proof.
  refine (eq_trans (quickselect_exact Z.le [5; 1; 4; 1; 5; 9; 2; 6] 4) _). vm_compute. reflexivity.
Defined.

Example quickselect_example :
  kth_smallest Z.le [5; 1; 4; 1; 5; 9; 2; 6; 5; 3; 5] 6 = Ok 5 ∧ kth_smallest Z.le [2; 1] 2 = Err Invalid.
Proof. by vm_compute. Qed.

(** ** The running median *)

Section medians.
Import RunningMedian.
Implicit Types (s : RunningMedian.t) (values : list Z).

Record median_inv values s : Prop := {
  mi_lower : Sorted Z.le (_lower s);
  mi_upper : Sorted Z.le (_upper s);
  mi_cross : ∀ x y, x ∈ _lower s → y ∈ _upper s → - x <= y;
  mi_perm : (Z.opp <$> _lower s) ++ _upper s ≡ₚ values;
}.

Definition balanced s : Prop := zlen (_upper s) <= zlen (_lower s) <= zlen (_upper s) + 1.

Lemma heappush_elem heap x y : y ∈ heappush heap x ↔ y = x ∨ y ∈ heap.
Proof. unfold heappush. rewrite sort_insert_Permutation. apply elem_of_cons. Qed.

Lemma heappush_zlen heap x : zlen (heappush heap x) = 1 + zlen heap.
Proof. unfold zlen, heappush. rewrite sort_insert_Permutation. cbn. lia. Qed.

Lemma heappush_sorted heap x : Sorted Z.le heap → Sorted Z.le (heappush heap x).
Proof. apply sort_insert_Sorted, _. Qed.

Lemma heap_least heap x y : Sorted Z.le (x :: heap) → y ∈ x :: heap → x <= y.
Proof.
  intros Hs%Sorted_StronglySorted Hy; [|apply _]. apply StronglySorted_inv in Hs as [_ Hs].
  rewrite Forall_forall in Hs. apply elem_of_cons in Hy as [->|Hy]; [lia|by apply Hs].
Qed.

(** pushing a value on the side it belongs to *)
Lemma push_inv values s value :
  median_inv values s →
  median_inv (value :: values)
    (if match _lower s with [] => true | x :: _ => value <=? - x end
     then mk (heappush (_lower s) (- value)) (_upper s)
     else mk (_lower s) (heappush (_upper s) value)) ∨ (_lower s = [] ∧ _upper s ≠ []).
Proof.
  intros [Hl Hu Hc Hp]. destruct s as [[|x lower] upper]; cbn [_lower _upper] in *.
  - destruct upper as [|u upper]; [left|by right]. split; cbn [_lower _upper].
    + by apply heappush_sorted.
    + constructor.
    + intros a b _ Hb. by apply elem_of_nil in Hb.
    + cbn in *. apply Permutation_nil_l in Hp. subst values. cbn. by rewrite Z.opp_involutive.
  - left. destruct (Z.leb_spec value (- x)) as [Hle|Hgt]; split; cbn [_lower _upper].
    + by apply heappush_sorted.
    + done.
    + intros a b [->|Ha]%heappush_elem Hb; [|by apply Hc]. specialize (Hc x b ltac:(by left) Hb). lia.
    + unfold heappush. rewrite sort_insert_Permutation. cbn. rewrite Z.opp_involutive. by rewrite Hp.
    + done.
    + by apply heappush_sorted.
    + intros a b Ha [->|Hb]%heappush_elem; [|by apply Hc]. pose proof (heap_least _ _ _ Hl Ha). lia.
    + unfold heappush. rewrite sort_insert_Permutation. rewrite <- Permutation_middle. by rewrite Hp.
Qed.

Lemma rebalance_run values s :
  median_inv values s → zlen (_upper s) - 1 <= zlen (_lower s) <= zlen (_upper s) + 2 →
  ∃ s', _rebalance s = (s', Ok ()) ∧ median_inv values s' ∧ balanced s'.
Proof.
  intros Hinv Hb. unfold _rebalance. rewrite bind_get.
  destruct Hinv as [Hl Hu Hc Hp]. destruct s as [lower upper]; cbn [_lower _upper] in *.
  destruct (Z.ltb_spec (zlen upper + 1) (zlen lower)) as [Hlt|Hge].
  - destruct lower as [|x lower]; [rewrite zlen_nil in Hlt; pose proof (zlen_nonneg upper); lia|].
    cbn [heappop]. rewrite bind_pure_of. rewrite run_put. cbn [fst snd]. eexists; split; [done|]. rewrite zlen_cons in *.
    split; [split; cbn [_lower _upper]|unfold balanced; cbn [_lower _upper]; rewrite heappush_zlen; lia].
    + by apply Sorted_inv in Hl as [Hl _].
    + by apply heappush_sorted.
    + intros a b Ha [->|Hb']%heappush_elem; [|apply Hc; [by right|done]].
      pose proof (heap_least _ _ a Hl ltac:(by right)). lia.
    + unfold heappush. rewrite sort_insert_Permutation, <- Hp. cbn [fmap list_fmap]. by rewrite <- Permutation_middle.
  - destruct (Z.ltb_spec (zlen lower) (zlen upper)) as [Hlt2|Hge2]; [|eexists; split; [done|]; split; [done|unfold balanced; cbn; lia]].
    destruct upper as [|y upper]; [rewrite zlen_nil in Hlt2; pose proof (zlen_nonneg lower); lia|].
    cbn [heappop]. rewrite bind_pure_of, run_put. cbn [fst snd]. eexists; split; [done|]. rewrite zlen_cons in *.
    split; [split; cbn [_lower _upper]|unfold balanced; cbn [_lower _upper]; rewrite heappush_zlen; lia].
    + by apply heappush_sorted.
    + by apply Sorted_inv in Hu as [Hu _].
    + intros a b [->|Ha]%heappush_elem Hb'; [|apply Hc; [done|by right]].
      pose proof (heap_least _ _ b Hu ltac:(by right)). lia.
    + unfold heappush. rewrite sort_insert_Permutation. cbn [fmap list_fmap]. rewrite Z.opp_involutive, <- Hp.
      cbn [app]. by rewrite Permutation_middle.
Qed.

Lemma median_add_run values s value :
  median_inv values s → balanced s →
  ∃ s', add value s = (s', Ok ()) ∧ median_inv (value :: values) s' ∧ balanced s'.
Proof.
  intros Hinv Hb. unfold add. rewrite bind_modify. unfold balanced in Hb.
  apply rebalance_run.
  - destruct (push_inv values s value Hinv) as [?|[Hl Hu]]; [done|]. exfalso.
    rewrite Hl in Hb. rewrite zlen_nil in Hb. apply Hu, zlen_zero. pose proof (zlen_nonneg (_upper s)). lia.
  - destruct (match _lower s with [] => true | _ => _ end); cbn [_lower _upper]; rewrite heappush_zlen; lia.
Qed.

Lemma halves_sorted values s : median_inv values s → py_sorted Z.le values = reverse (Z.opp <$> _lower s) ++ _upper s.
Proof.
  intros [Hl Hu Hc Hp]. apply (StronglySorted_unique Z.le).
  - apply Sorted_StronglySorted; [apply _|]. apply py_sorted_Sorted, _.
  - apply StronglySorted_app_2.
    + intros a b Ha Hb. apply elem_of_reverse, list_elem_of_fmap in Ha as (x & -> & Hx). by apply Hc.
    + apply Sorted_StronglySorted in Hl; [|apply _]. clear - Hl. induction Hl as [|x l Hl IH Hx]; [constructor|].
      cbn [fmap list_fmap]. rewrite reverse_cons. apply StronglySorted_app_2; [|done|repeat constructor].
      intros a b Ha ->%list_elem_of_singleton. apply elem_of_reverse, list_elem_of_fmap in Ha as (y & -> & Hy).
      rewrite Forall_forall in Hx. specialize (Hx y Hy). lia.
    + apply Sorted_StronglySorted; [apply _|done].
  - rewrite py_sorted_Permutation, <- Hp. by rewrite reverse_Permutation.
Qed.
End medians.

Definition median_step (value : Z) (s : RunningMedian.t) : RunningMedian.t := state_of (RunningMedian.add value) s.

(** the median of a batch by sorting it: a numerator and a denominator *)
Definition sorted_median (values : list Z) : result (Z * Z) :=
  let s := py_sorted Z.le values in
  let n := length values in
  match values with
  | [] => Err Invalid
  | _ => if Nat.odd n then Ok (nth (n / 2) s 0, 1) else Ok (nth (n / 2 - 1) s 0 + nth (n / 2) s 0, 2)
  end.

(** Also (equivalence): the two heaps keep the exact median. After any sequence of values, duplicates and
    negatives included, every [add] succeeds and [median] answers what sorting the whole stream would: the
    middle element of an odd number of values, half the sum of the two middle ones of an even number, and
    [Invalid] when there is none; the two halves never differ by more than one in length, the lower one
    having the extra. *)
Theorem running_median_exact values value :
  let s := run median_step values RunningMedian.make in
  RunningMedian.median s = sorted_median values
  ∧ value_of (RunningMedian.add value) s = Ok ()
  ∧ balanced s.
Proof.
  intros s. assert (median_inv (reverse values) s ∧ balanced s) as [Hinv Hb].
  { subst s. unfold run. induction values as [|v values [IH IHb]] using rev_ind.
    - split; [|unfold balanced; cbn; lia]. split; cbn; try constructor. intros x y Hx. by apply elem_of_nil in Hx.
    - rewrite foldl_app, reverse_snoc. cbn [foldl].
      destruct (median_add_run _ _ v IH IHb) as (s' & Hrun & Hi' & Hb').
      unfold median_step at 1 3, state_of. rewrite Hrun. done. }
  split_and!; [|by destruct (median_add_run _ _ value Hinv Hb) as (s' & Hrun & _); unfold value_of; rewrite Hrun|done].
  pose proof (halves_sorted _ _ Hinv) as Hs.
  assert (Hsame : py_sorted Z.le (reverse values) = py_sorted Z.le values).
  { apply (StronglySorted_unique Z.le); [..|by rewrite !py_sorted_Permutation, reverse_Permutation];
      (apply Sorted_StronglySorted; [apply _|]; apply py_sorted_Sorted, _). }
  rewrite Hsame in Hs. pose proof (mi_perm _ _ Hinv) as Hp. rewrite reverse_Permutation in Hp.
  apply Permutation_length in Hp. rewrite length_app, length_fmap in Hp.
  unfold balanced, zlen in Hb. unfold RunningMedian.median, sorted_median, zlen. rewrite Hs.
  destruct (RunningMedian._lower s) as [|x lower].
  { destruct (RunningMedian._upper s); [by destruct values|cbn in Hb; lia]. }
  destruct values as [|v values]; [done|]. set (n := length (v :: values)) in *. clearbody n. cbn [fmap list_fmap length] in *.
  assert (Hn : n = (S (length lower) + length (RunningMedian._upper s))%nat) by lia.
  rewrite reverse_cons, <- app_assoc. cbn [app].
  assert (Hlen : length (reverse (Z.opp <$> lower)) = length lower) by (by rewrite length_reverse, length_fmap).
  destruct (Z.ltb_spec (Z.of_nat (length (RunningMedian._upper s))) (Z.of_nat (S (length lower)))).
  - assert (Hodd : n = (2 * length lower + 1)%nat) by lia. subst n. rewrite Hodd.
    rewrite (proj2 (Nat.odd_spec _)) by (by eexists).
    replace ((2 * length lower + 1) / 2)%nat with (length lower) by (apply (Nat.div_unique _ _ _ 1); lia).
    by rewrite app_nth2, Hlen, Nat.sub_diag by lia.
  - assert (Heven : n = (2 * S (length lower))%nat) by lia. subst n. rewrite Heven.
    rewrite <- Nat.negb_even, (proj2 (Nat.even_spec _)) by (by eexists). cbn [negb].
    replace (2 * S (length lower) / 2)%nat with (S (length lower)) by (apply (Nat.div_unique _ _ _ 0); lia).
    replace (S (length lower) - 1)%nat with (length lower) by lia.
    rewrite !app_nth2, Hlen, Nat.sub_diag by lia. replace (S (length lower) - length lower)%nat with 1%nat by lia.
    cbn [nth]. destruct (RunningMedian._upper s) as [|u upper]; [cbn in *; lia|]. done.
Qed.

(** ** The trie *)

Section tries.
Import PrefixTrie.
Implicit Types (n : _TrieNode) (p q name path : string).

Fixpoint contains n q : bool :=
  match q with
  | EmptyString => is_end n
  | String ch q => match d_get (children n) ch with Some n => contains n q | None => false end
  end.

Definition prefix_of p name : Prop := ∃ rest, name = (p +:+ rest)%string.

Lemma contains_empty q : contains empty_node q = false.
Proof. by destruct q. Qed.

Lemma insert_below_contains n p q :
  contains (insert_below n p).1 q = bool_decide (q = p) || contains n q.
Proof.
  revert n q. induction p as [|ch p IH]; intros n q; cbn [insert_below fst].
  - destruct q; [by cbn; rewrite orb_true_l|]. by rewrite bool_decide_false.
  - destruct q as [|ch' q]; [by rewrite bool_decide_false|]. cbn [contains children].
    destruct (decide (ch' = ch)) as [->|Hch].
    + rewrite d_get_set_eq, IH, (bool_decide_ext (String ch q = String ch p) (q = p)) by naive_solver.
      f_equal. destruct (d_get (children n) ch); [done|]. apply contains_empty.
    + rewrite d_get_set_ne by done. by rewrite bool_decide_false by congruence.
Qed.

Lemma insert_below_fresh n p : (insert_below n p).2 = negb (contains n p).
Proof.
  revert n. induction p as [|ch p IH]; intros n; cbn [insert_below snd contains]; [done|].
  rewrite IH. destruct (d_get (children n) ch); cbn; [done|]. by rewrite contains_empty.
Qed.

(** the prefixes of a name that are marked below a node *)
Definition marked n name q : Prop := contains n q = true ∧ q ≠ ""%string ∧ prefix_of q name.

Lemma marked_cons n name ch q : marked n name (String ch q) →
  ∃ name' n', name = String ch name' ∧ d_get (children n) ch = Some n'
    ∧ (q = ""%string ∧ is_end n' = true ∨ marked n' name' q).
Proof.
  intros (Hc & _ & rest & ->). cbn [contains String.append] in *. destruct (d_get (children n) ch) as [n'|]; [|done].
  exists (q +:+ rest)%string, n'. split_and!; [done|done|].
  destruct q as [|c q]; [by left|right]. split_and!; [done|done|by exists rest].
Qed.

Lemma string_app_assoc p q r : ((p +:+ q) +:+ r)%string = (p +:+ (q +:+ r))%string.
Proof. induction p as [|c p IH]; [done|]. exact (f_equal (String c) IH). Qed.

Lemma follow_spec n name path best :
  (∃ q, follow n name path best = Some (path +:+ q)%string ∧ marked n name q
     ∧ ∀ q', marked n name q' → (String.length q' <= String.length q)%nat)
  ∨ (follow n name path best = best ∧ ∀ q, ¬ marked n name q).
Proof.
  revert n path best. induction name as [|ch name IH]; intros n path best; cbn [follow].
  - right. split; [done|]. intros [|c q] Hq; [by destruct Hq as (_ & Hne & _)|].
    apply marked_cons in Hq as (? & ? & [=] & _).
  - destruct (d_get (children n) ch) as [n'|] eqn:Hget.
    2: { right. split; [done|]. intros [|c q] Hq; [by destruct Hq as (_ & Hne & _)|].
         apply marked_cons in Hq as (? & ? & [= <- <-] & ? & _). congruence. }
    destruct (IH n' (path +:+ String ch "")%string (if is_end n' then Some (path +:+ String ch "")%string else best))
      as [(q & -> & Hq & Hmax)|[-> Hnone]].
    + left. exists (String ch q). rewrite string_app_assoc. cbn [String.append]. split_and!; [done| |].
      * destruct Hq as (Hc & Hne & rest & ->). split_and!; [by cbn; rewrite Hget|done|by exists rest].
      * intros [|c q'] Hq'; [cbn; lia|].
        apply marked_cons in Hq' as (? & ? & [= <- <-] & Hget' & Hq'). simplify_eq. cbn [String.length].
        destruct Hq' as [[-> _]|Hq']; [cbn; lia|]. specialize (Hmax q' Hq'). lia.
    + assert (Hdeep : ∀ c q, marked n (String ch name) (String c q) → c = ch ∧ q = ""%string ∧ is_end n' = true).
      { intros c q Hq. apply marked_cons in Hq as (? & ? & [= <- <-] & Hget' & Hq). simplify_eq.
        destruct Hq as [[-> ?]|Hq]; [done|]. by destruct (Hnone q). }
      destruct (is_end n') eqn:He; [left|right].
      * exists (String ch ""). split_and!; [done| |].
        -- split_and!; [by cbn; rewrite Hget|done|by exists name].
        -- intros [|c q'] Hq'; [cbn; lia|]. destruct (Hdeep c q' Hq') as (-> & -> & _). done.
      * split; [done|]. intros [|c q] Hq; [by destruct Hq as (_ & Hne & _)|]. by destruct (Hdeep c q Hq) as (_ & _ & ?).
Qed.

Definition forest_size (l : list _TrieNode) : nat := foldr (λ n k, (node_size n + k)%nat) O l.

Lemma node_size_pos n : (1 <= node_size n)%nat.
Proof. destruct n. cbn. lia. Qed.

Lemma forest_size_app l1 l2 : forest_size (l1 ++ l2) = (forest_size l1 + forest_size l2)%nat.
Proof. unfold forest_size. induction l1 as [|n l1 IH]; cbn; [done|]. rewrite IH. lia. Qed.

Lemma node_size_children n : node_size n = S (forest_size (d_values (children n))).
Proof.
  destruct n as [c e]. unfold forest_size. cbn. f_equal. induction c as [|[ch n] c IH]; cbn; [done|]. by rewrite IH.
Qed.

Lemma count_run total stack fuel : (forest_size stack < fuel)%nat →
  loop count_round fuel (total, stack) = Ok (total + Z.of_nat (forest_size stack)).
Proof.
  intros Hfuel.
  apply (loop_rule count_round (λ st, st.1 + Z.of_nat (forest_size st.2) = total + Z.of_nat (forest_size stack))
    (λ st, forest_size st.2) (λ r, r = Ok (total + Z.of_nat (forest_size stack)))); [|done|done].
  intros [t st] Hst. cbn [fst snd] in Hst. unfold count_round.
  destruct (reverse st) as [|n rest] eqn:Hrev.
  - assert (st = []) as -> by (rewrite <- (reverse_involutive st), Hrev; done). cbn in Hst. f_equal. lia.
  - assert (st = reverse rest ++ [n]) as -> by (rewrite <- (reverse_involutive st), Hrev, reverse_cons; done).
    cbn [fst snd]. rewrite !forest_size_app in *. cbn [forest_size foldr] in *.
    rewrite (node_size_children n) in *. unfold forest_size in *. lia.
Qed.
End tries.

Definition trie_step (p : string) (s : PrefixTrie.t) : PrefixTrie.t := state_of (PrefixTrie.insert p) s.

(** Also (functional): the trie finds the most specific rule. After any sequence of insertions (the empty
    prefix is refused with nothing changed), [longest_prefix_of] answers a prefix of the name that was inserted
    and is at least as long as every other such, and [None] exactly when no inserted prefix fits; the count is
    the number of distinct prefixes, and the walk of the nodes visits each once. *)
Theorem trie_longest_prefix prefixes name :
  let s := run trie_step prefixes PrefixTrie.make in
  let fits q := q ∈ prefixes ∧ q ≠ ""%string ∧ prefix_of q name in
  match PrefixTrie.longest_prefix_of s name with
  | Some p => fits p ∧ ∀ q, fits q → (String.length q <= String.length p)%nat
  | None => ∀ q, ¬ fits q
  end
  ∧ PrefixTrie._count s = Z.of_nat (size (list_to_set (filter (.≠ ""%string) prefixes) : gset string))
  ∧ PrefixTrie._node_count s = Ok (Z.of_nat (PrefixTrie.node_size (PrefixTrie._root s)) - 1)
  ∧ value_of (PrefixTrie.insert "") s = Err Invalid ∧ state_of (PrefixTrie.insert "") s = s.
Proof.
  intros s fits.
  assert ((∀ q, contains (PrefixTrie._root s) q = true ↔ q ∈ prefixes ∧ q ≠ ""%string)
    ∧ PrefixTrie._count s = Z.of_nat (size (list_to_set (filter (.≠ ""%string) prefixes) : gset string))) as [Hc Hcount].
  { subst s fits. unfold run. induction prefixes as [|p ps [IH IHc]] using rev_ind.
    - split; [|done]. intros q. cbn [foldl PrefixTrie.make PrefixTrie._root]. rewrite contains_empty. set_solver.
    - rewrite foldl_app. cbn [foldl]. set (s := foldl _ _ ps) in *. unfold trie_step, state_of, PrefixTrie.insert.
      rewrite bind_raise_if. rewrite filter_app, list_to_set_app_L, filter_cons, filter_nil. case_bool_decide as Hp.
      + cbn [fst]. rewrite decide_False by tauto. split; [|by rewrite list_to_set_nil, union_empty_r_L].
        intros q. rewrite IH, elem_of_app, list_elem_of_singleton. naive_solver.
      + rewrite run_modify. cbn [fst PrefixTrie._root PrefixTrie._count]. rewrite decide_True by done. split.
        * intros q. rewrite insert_below_contains, orb_true_iff, bool_decide_eq_true, IH, elem_of_app, list_elem_of_singleton.
          naive_solver.
        * rewrite insert_below_fresh, IHc. cbn [list_to_set]. rewrite union_empty_r_L.
          destruct (contains (PrefixTrie._root s) p) eqn:Hin; cbn [negb].
          -- apply IH in Hin. rewrite (union_comm_L _ {[p]}), subseteq_union_1_L; [lia|].
             apply singleton_subseteq_l, elem_of_list_to_set, list_elem_of_filter. tauto.
          -- rewrite size_union, size_singleton; [lia|]. apply disjoint_singleton_r. intros Hp'.
             apply elem_of_list_to_set, list_elem_of_filter in Hp' as [_ Hp']. rewrite (proj2 (IH p)) in Hin; [done|done]. }
  split_and!; [|done| |done|done].
  - assert (Hfit : ∀ q, marked (PrefixTrie._root s) name q ↔ fits q) by (intros q; unfold marked, fits; rewrite Hc; tauto).
    unfold PrefixTrie.longest_prefix_of.
    destruct (follow_spec (PrefixTrie._root s) name "" None) as [(q & -> & Hq & Hmax)|[-> Hnone]].
    + cbn [String.append]. split; [by apply Hfit|]. intros q' Hq'. by apply Hmax, Hfit.
    + intros q Hq. by apply (Hnone q), Hfit.
  - unfold PrefixTrie._node_count. rewrite count_run by (cbn; lia). cbn [mbind result_bind]. f_equal. cbn. lia.
Qed.

(** ** Approximate membership *)

Section filters.
Context (hash : string → Z).

Lemma bloom_add_run s key :
  BloomFilter.add hash key s
  = (BloomFilter.mk (BloomFilter.size_bits s) (BloomFilter.hash_count s)
       (BloomFilter.bits s ∪ list_to_set (BloomFilter._positions hash s key)) (BloomFilter.added s + 1), Ok ()).
Proof. done. Qed.

Import CountingBloom.
Implicit Types (s : CountingBloom.t) (M positions : list Z).

(** how often a position was set *)
Definition occurrences (pos : Z) M : Z := zsum (λ p, if decide (p = pos) then 1 else 0) M.

Record counting (n k max : Z) M s : Prop := {
  cb_size : size s = n;
  cb_hashes : hash_count s = k;
  cb_max : max_count s = max;
  cb_counters : ∀ pos, 0 <= pos < n →
    ∃ c, counters s !! Z.to_nat pos = Some c ∧ (c = max ∨ c = occurrences pos M ∧ c < max);
}.

Lemma occurrences_cons pos p M : occurrences pos (p :: M) = (if decide (p = pos) then 1 else 0) + occurrences pos M.
Proof. done. Qed.

Lemma occurrences_nonneg pos M : 0 <= occurrences pos M.
Proof. apply zsum_nonneg. intros x _. case_decide; lia. Qed.

Lemma occurrences_elem pos M : pos ∈ M → 1 <= occurrences pos M.
Proof.
  induction M as [|p M IH]; intros Hin; [by apply elem_of_nil in Hin|]. rewrite occurrences_cons.
  pose proof (occurrences_nonneg pos M). apply elem_of_cons in Hin as [->|Hin].
  - rewrite decide_True by done. lia.
  - specialize (IH Hin). case_decide; lia.
Qed.

Lemma counting_perm n k max M M' s : M ≡ₚ M' → counting n k max M s → counting n k max M' s.
Proof.
  intros HM [H1 H2 H3 Hc]. split; [done..|]. intros pos Hpos. unfold occurrences. rewrite <- (zsum_Permutation _ _ _ HM).
  by apply Hc.
Qed.

Lemma shift_run s pos delta c : 0 <= pos → counters s !! Z.to_nat pos = Some c →
  shift_counter pos delta s
  = (mk (size s) (hash_count s) (max_count s) (<[Z.to_nat pos := c + delta]> (counters s)), Ok ()).
Proof.
  intros Hpos Hc. unfold shift_counter. rewrite bind_get, bind_pure_of, (py_index_nonneg _ _ c), bind_pure_of by done.
  unfold py_setitem. by rewrite (py_pos_nonneg _ _ c).
Qed.

Lemma shift_lookup s pos delta c p : counters s !! Z.to_nat pos = Some c → 0 <= pos → 0 <= p →
  <[Z.to_nat pos := c + delta]> (counters s) !! Z.to_nat p
  = if decide (p = pos) then Some (c + delta) else counters s !! Z.to_nat p.
Proof.
  intros Hc Hpos Hp. case_decide as Heq.
  - subst p. apply list_lookup_insert_eq. by eapply lookup_lt_Some.
  - apply list_lookup_insert_ne. lia.
Qed.

Lemma raise_run n k max M s pos : 0 <= pos < n → counting n k max M s →
  ∃ s', raise_counter pos s = (s', Ok ()) ∧ counting n k max (pos :: M) s'.
Proof.
  intros Hpos [H1 H2 H3 Hc]. destruct (Hc pos Hpos) as (c & Hget & Hval). unfold raise_counter.
  rewrite bind_get, bind_pure_of, (py_index_nonneg _ _ c), H3 by (done || lia).
  destruct (Z.ltb_spec c max) as [Hlt|Hge].
  - rewrite (shift_run s pos 1 c) by (done || lia). eexists. split; [done|]. split; cbn [size hash_count max_count counters]; [done..|].
    intros p Hp. rewrite (shift_lookup s pos 1 c p), occurrences_cons by (done || lia). case_decide as Heq.
    + subst p. exists (c + 1). rewrite decide_True by done. split; [done|]. lia.
    + rewrite decide_False by done. destruct (Hc p Hp) as (c' & ? & ?). exists c'. split; [done|lia].
  - exists s. split; [done|]. split; [done..|]. intros p Hp. destruct (Hc p Hp) as (c' & Hget' & Hval').
    exists c'. split; [done|]. rewrite occurrences_cons. case_decide; [|lia]. subst p. simplify_eq. left. lia.
Qed.

Lemma lower_run n k max M s pos : 0 <= pos < n → counting n k max (pos :: M) s →
  ∃ s', lower_counter pos s = (s', Ok ()) ∧ counting n k max M s'.
Proof.
  intros Hpos [H1 H2 H3 Hc]. destruct (Hc pos Hpos) as (c & Hget & Hval). unfold lower_counter.
  rewrite bind_get, bind_pure_of, (py_index_nonneg _ _ c), H3 by (done || lia).
  rewrite occurrences_cons, decide_True in Hval by done. pose proof (occurrences_nonneg pos M).
  destruct ((0 <? c) && (c <? max)) eqn:Hb.
  - apply andb_true_iff in Hb as [Hp0%Z.ltb_lt Hpm%Z.ltb_lt].
    rewrite (shift_run s pos (-1) c) by (done || lia). eexists. split; [done|]. split; cbn [size hash_count max_count counters]; [done..|].
    intros p Hp. rewrite (shift_lookup s pos (-1) c p) by (done || lia). case_decide as Heq.
    + subst p. exists (c + -1). split; [done|]. lia.
    + destruct (Hc p Hp) as (c' & ? & Hv). rewrite occurrences_cons, decide_False in Hv by done. exists c'. split; [done|lia].
  - exists s. split; [done|]. split; [done..|]. intros p Hp. destruct (Hc p Hp) as (c' & Hget' & Hval').
    exists c'. split; [done|]. rewrite occurrences_cons in Hval'. case_decide; [|lia]. subst p. simplify_eq.
    apply andb_false_iff in Hb as [Hb%Z.ltb_ge|Hb%Z.ltb_ge]; lia.
Qed.

Lemma raise_all_run n k max M positions s : (∀ pos, pos ∈ positions → 0 <= pos < n) → counting n k max M s →
  ∃ s', for_each positions raise_counter s = (s', Ok ()) ∧ counting n k max (positions ++ M) s'.
Proof.
  revert M s. induction positions as [|pos positions IH]; intros M s Hpos Hs; [by exists s|].
  destruct (raise_run n k max M s pos) as (s1 & Hrun & Hs1); [apply Hpos; by left|done|].
  destruct (IH (pos :: M) s1) as (s2 & Hrun2 & Hs2); [intros p Hp; apply Hpos; by right|done|].
  exists s2. cbn [for_each]. rewrite bind_run, Hrun. split; [done|].
  eapply counting_perm; [|exact Hs2]. by rewrite <- Permutation_middle.
Qed.

Lemma lower_all_run n k max M positions s : (∀ pos, pos ∈ positions → 0 <= pos < n) → counting n k max (positions ++ M) s →
  ∃ s', for_each positions lower_counter s = (s', Ok ()) ∧ counting n k max M s'.
Proof.
  revert s. induction positions as [|pos positions IH]; intros s Hpos Hs; [by exists s|].
  destruct (lower_run n k max (positions ++ M) s pos) as (s1 & Hrun & Hs1); [apply Hpos; by left|done|].
  destruct (IH s1) as (s2 & Hrun2 & Hs2); [intros p Hp; apply Hpos; by right|done|].
  exists s2. cbn [for_each]. by rewrite bind_run, Hrun.
Qed.

Lemma all_positive_run n k max M positions s :
  1 <= max → (∀ pos, pos ∈ positions → 0 <= pos < n ∧ pos ∈ M) → counting n k max M s →
  all_positive (counters s) positions = Ok true.
Proof.
  intros Hmax Hpos [_ _ _ Hc]. induction positions as [|pos positions IH]; [done|]. cbn [all_positive].
  destruct (Hpos pos ltac:(by left)) as [Hb Hin]. destruct (Hc pos Hb) as (c & Hget & Hval).
  rewrite (py_index_nonneg _ _ c) by (done || lia). cbn [mbind result_bind].
  pose proof (occurrences_elem pos M Hin). destruct (Z.ltb_spec 0 c); [|lia].
  apply IH. intros p Hp. apply Hpos. by right.
Qed.

(** the positions of a key depend only on the size and the number of hashes *)
Definition positions_of (n k : Z) (key : string) : list Z := _positions hash (mk n k 0 []) key.

Lemma positions_bound n k key pos : 1 <= n → pos ∈ positions_of n k key → 0 <= pos < n.
Proof. intros Hn (i & -> & _)%list_elem_of_fmap. cbn. apply Z.mod_pos_bound. lia. Qed.

Lemma positions_of_eq n k max M s key : counting n k max M s → _positions hash s key = positions_of n k key.
Proof. intros [H1 H2 _ _]. unfold positions_of, _positions. cbn. by rewrite H1, H2. Qed.

Inductive filter_op := FAdd (key : string) | FRemove (key : string).

Definition filter_step (o : filter_op) : act t unit :=
  match o with FAdd key => add hash key | FRemove key => remove hash key end.

(** the keys added and not yet removed; a removal is legal when its key is one of them *)
Fixpoint remove_one (key : string) (l : list string) : list string :=
  match l with [] => [] | x :: l => if bool_decide (x = key) then l else x :: remove_one key l end.

Definition present_after (o : filter_op) (l : list string) : list string :=
  match o with FAdd key => key :: l | FRemove key => remove_one key l end.

Fixpoint legal (ops : list filter_op) (l : list string) : bool :=
  match ops with
  | [] => true
  | o :: ops =>
      (match o with FAdd _ => true | FRemove key => bool_decide (key ∈ l) end) && legal ops (present_after o l)
  end.

Lemma remove_one_perm key l : key ∈ l → l ≡ₚ key :: remove_one key l.
Proof.
  induction l as [|x l IH]; intros Hin; [by apply elem_of_nil in Hin|]. cbn. case_bool_decide as Hx; [by subst|].
  apply elem_of_cons in Hin as [->|Hin]; [done|]. rewrite (IH Hin) at 1. apply perm_swap.
Qed.

Definition all_positions (n k : Z) (l : list string) : list Z := mjoin (positions_of n k <$> l).

Lemma filter_step_run n k max l o s :
  1 <= n → 1 <= max → (match o with FAdd _ => True | FRemove key => key ∈ l end) →
  counting n k max (all_positions n k l) s →
  ∃ s', filter_step o s = (s', Ok ()) ∧ counting n k max (all_positions n k (present_after o l)) s'.
Proof.
  intros Hn Hmax Hlegal Hs. destruct o as [key|key]; cbn [filter_step present_after].
  - unfold add. rewrite bind_get, (positions_of_eq n k max _ s key Hs).
    destruct (raise_all_run n k max (all_positions n k l) (positions_of n k key) s) as (s' & Hrun & Hs'); [|done|by exists s'].
    intros pos. by apply positions_bound.
  - assert (Hp : all_positions n k l ≡ₚ positions_of n k key ++ all_positions n k (remove_one key l)).
    { unfold all_positions. by rewrite (remove_one_perm key l Hlegal) at 1. }
    unfold remove. rewrite bind_get, bind_pure_of. unfold might_contain. rewrite (positions_of_eq n k max _ s key Hs).
    rewrite (all_positive_run n k max (all_positions n k l)); [|done| |done].
    2: { intros pos Hpos. split; [by eapply positions_bound|]. rewrite Hp. apply elem_of_app. by left. }
    rewrite bind_raise_if. cbn [negb].
    destruct (lower_all_run n k max (all_positions n k (remove_one key l)) (positions_of n k key) s) as (s' & Hrun & Hs').
    + intros pos. by apply positions_bound.
    + by eapply counting_perm.
    + by exists s'.
Qed.
End filters.

(** Also (safety): a membership filter never forgets a key. For any hash function, any size and number of
    hashes and counters that saturate at any positive limit, after any sequence of additions and of removals
    of keys that are present (counted with multiplicity), every operation has succeeded and every key that is
    still present is reported as possibly contained, colliding positions and saturated counters
    included; removing a key the filter does not report is refused and changes nothing. The plain filter
    reports every key added, so what it calls absent never was. *)
Theorem filters_no_false_negative hash n k max ops keys key :
  1 <= n → 1 <= k → 1 <= max → legal ops [] = true →
  ∃ s0 b0, CountingBloom.make n k max [] = Ok s0 ∧ BloomFilter.make n k = Ok b0 ∧
  let s := run (λ o s, state_of (filter_step hash o) s) ops s0 in
  let b := run (λ key s, state_of (BloomFilter.add hash key) s) keys b0 in
  (key ∈ run present_after ops [] → CountingBloom.might_contain hash s key = Ok true)
  ∧ (CountingBloom.might_contain hash s key = Ok false → CountingBloom.remove hash key s = (s, Err Invalid))
  ∧ (BloomFilter.definitely_absent hash b key = true → key ∉ keys).
Proof.
  intros Hn Hk Hmax Hlegal. unfold CountingBloom.make, BloomFilter.make.
  destruct (Z.ltb_spec n 1); [lia|]. destruct (Z.ltb_spec k 1); [lia|]. cbn [orb].
  do 2 eexists. split; [done|]. split; [done|]. set (s0 := CountingBloom.mk _ _ _ _). set (b0 := BloomFilter.mk _ _ _ _).
  cbn zeta. split_and!.
  - assert (Hs0 : counting n k max (all_positions hash n k []) s0).
    { split; [done..|]. intros pos Hpos. exists 0. cbn. rewrite lookup_replicate_2 by lia. split; [done|]. right. cbn. lia. }
    clearbody s0. revert s0 Hs0 Hlegal. generalize (@nil string). induction ops as [|o ops IH]; intros l s0 Hs0 Hlegal.
    + cbn [run foldl]. intros Hkey. unfold run, CountingBloom.might_contain. cbn [foldl].
      rewrite (positions_of_eq hash n k max _ s0 key Hs0).
      apply (all_positive_run n k max (all_positions hash n k l)); [done| |done]. intros pos Hpos.
      split; [by eapply positions_bound|]. unfold all_positions. apply list_elem_of_join. eexists. split; [done|].
      by apply list_elem_of_fmap_2.
    + cbn [legal] in Hlegal. apply andb_true_iff in Hlegal as [Ho Hlegal]. unfold run. cbn [foldl].
      destruct (filter_step_run hash n k max l o s0) as (s' & Hrun & Hs'); [done|done| |done|].
      { destruct o; [done|]. by apply bool_decide_eq_true in Ho. }
      apply IH; [|done]. unfold state_of. by rewrite Hrun.
  - intros Habs. unfold CountingBloom.remove. by rewrite bind_get, bind_pure_of, Habs, bind_raise_if.
  - intros Habs Hin. unfold BloomFilter.definitely_absent in Habs. apply negb_true_iff, not_true_iff_false in Habs.
    apply Habs. apply forallb_forall. intros pos Hpos%list_elem_of_In. apply bool_decide_eq_true.
    set (b := run _ keys b0) in *.
    assert (BloomFilter.size_bits b = n ∧ BloomFilter.hash_count b = k ∧
      ∀ pos, pos ∈ BloomFilter._positions hash b0 key → pos ∈ BloomFilter.bits b) as (Hbn & Hbk & Hbits).
    { subst b. clear - Hin. unfold run. induction keys as [|x keys IH] using rev_ind; [by apply elem_of_nil in Hin|].
      rewrite foldl_app. cbn [foldl]. set (b := foldl _ b0 keys) in *. unfold state_of. rewrite bloom_add_run. cbn [fst BloomFilter.size_bits BloomFilter.hash_count BloomFilter.bits].
      assert (Hsame : BloomFilter.size_bits b = n ∧ BloomFilter.hash_count b = k).
      { subst b. clear. induction keys as [|y keys IH] using rev_ind; [done|]. by rewrite foldl_app. }
      destruct Hsame as [Hbn Hbk]. split_and!; [done|done|]. intros pos Hpos.
      apply elem_of_union. destruct (decide (key ∈ keys)) as [Hk|Hk]; [left; by apply IH|right].
      apply elem_of_app in Hin as [|Hin]; [done|]. apply list_elem_of_singleton in Hin as <-.
      apply elem_of_list_to_set. unfold BloomFilter._positions in *. by rewrite Hbn, Hbk. }
    apply Hbits. unfold BloomFilter._positions in *. by rewrite Hbn, Hbk in Hpos.
Qed.

Lemma filters_no_false_negative_witness :
  let h := Z.of_nat ∘ String.length in
  ∃ s0, CountingBloom.make 4 2 1 [] = Ok s0 ∧
  CountingBloom.might_contain h
    (run (λ o s, state_of (filter_step h o) s) [FAdd "a"; FAdd "bb"; FRemove "a"] s0) "bb" = Ok true.
Proof.
  intros h.
  destruct (filters_no_false_negative h 4 2 1 [FAdd "a"; FAdd "bb"; FRemove "a"] [] "bb" ltac:(lia) ltac:(lia) ltac:(lia) eq_refl)
    as (s0 & b0 & Hmk & _ & Hin & _).
  exists s0. split; [exact Hmk|]. apply Hin. apply (bool_decide_unpack _). vm_compute. exact I.
Defined.

(** ** The bitset *)

Definition bit_step (o : bool * Z) (s : Bitset.t) : Bitset.t :=
  state_of (if o.1 then Bitset.set o.2 else Bitset.clear o.2) s.

(** the last mark or unmark of an offset inside the range *)
Definition last_mark (ops : list (bool * Z)) (offset : Z) : bool :=
  foldl (λ b o, if bool_decide (o.2 = offset) then o.1 else b) false ops.

(** Each offset of the range reads as its last mark left it; outside, every operation is refused. *)
Theorem bitset_exact base size ops offset :
  let s := run bit_step ops (Bitset.mk base size ∅) in
  Bitset.test s offset
  = if (base <=? offset) && (offset <? base + size) then Ok (last_mark ops offset) else Err Invalid.
Proof.
  intros s.
  assert (Bitset.base s = base ∧ Bitset.size s = size ∧ ∀ off, 0 <= off - base < size →
    bool_decide (off - base ∈ Bitset._bits s) = last_mark ops off) as (Hb & Hs & Hbits).
  { subst s. unfold run. induction ops as [|[m o] ops IH] using rev_ind; [done|].
    rewrite foldl_app. cbn [foldl]. destruct IH as (Hb & Hs & Hbits). set (s := foldl _ _ ops) in *. clearbody s.
    unfold bit_step, state_of, last_mark. cbn [fst snd].
    assert (Hrun : (if m then Bitset.set o else Bitset.clear o) s
      = match Bitset._index s o with
        | Ok i => (Bitset.mk (Bitset.base s) (Bitset.size s)
                     (if m then Bitset._bits s ∪ {[i]} else Bitset._bits s ∖ {[i]}), Ok ())
        | Err e => (s, Err e)
        end).
    { destruct m; unfold Bitset.set, Bitset.clear; rewrite bind_get, bind_pure_of; by destruct (Bitset._index s o). }
    rewrite Hrun. unfold Bitset._index. rewrite Hb, Hs. clear Hrun.
    destruct ((0 <=? o - base) && (o - base <? size)) eqn:Hin; cbn [negb fst Bitset.base Bitset.size Bitset._bits].
    - split_and!; [done|done|]. intros off Hoff. rewrite foldl_app. cbn [foldl fst snd]. fold (last_mark ops off).
      rewrite <- Hbits by done. case_bool_decide as Ho; cbn [fst snd] in Ho; subst; destruct m;
        case_bool_decide as Hm; try case_bool_decide; set_solver by lia.
    - split_and!; [done|done|]. intros off Hoff. rewrite foldl_app. cbn [foldl fst snd]. rewrite (bool_decide_false (o = off)); [by apply Hbits|].
      intros <-. rewrite andb_false_iff, Z.leb_gt, Z.ltb_ge in Hin. lia. }
  unfold Bitset.test, Bitset._index. rewrite Hb, Hs.
  destruct (Z.leb_spec base offset), (Z.ltb_spec offset (base + size));
    destruct (Z.leb_spec 0 (offset - base)), (Z.ltb_spec (offset - base) size); try lia; cbn [andb negb mbind result_bind]; try done.
  by rewrite Hbits by lia.
Qed.
