(* ===== verification/Distributed.v ===== *)
(** * Distributed primitives

    Logical clocks ([relay/lamportclock.py], [relay/hlc.py]) behind one interface, total-order
    delivery ([relay/atomicbroadcast.py]), hints kept for a replica that is down
    ([relay/hintedhandoff.py]), the chain ([relay/chainreplication.py]), the hash ring
    ([relay/consistenthash.py]), optimistic writes ([relay/optimisticlock.py]), read repair
    ([relay/readrepair.py]), and the small quorum calculators ([relay/sloppyquorum.py],
    [relay/describequorum.py]). [hash] of a string is salted per process: the ring is modelled
    over any hash function. *)

From S2P Require Import Prelude PyDict PyBytes PyFloat.

Module lamportclock.
Module LamportClock.
(** [relay/lamportclock.py] class LamportClock *)
Record t := mk { node_id : Z; counter : Z }.

(** [relay/lamportclock.py] LamportClock.__post_init__ *)
Definition make (node_id counter : Z) : result t := if node_id <? 0 then Err Invalid else Ok (mk node_id counter).

(** [relay/lamportclock.py] LamportClock.tick *)
Definition tick : act t Z :=
  modify (λ self, mk (node_id self) (counter self + 1));;
  self ← get;
  mret (counter self).

(** [relay/lamportclock.py] LamportClock.on_receive *)
Definition on_receive (message_timestamp : Z) : act t Z :=
  raise_if (message_timestamp <? 0) Invalid;;
  modify (λ self, mk (node_id self) (Z.max (counter self) message_timestamp + 1));;
  self ← get;
  mret (counter self).

(** [relay/lamportclock.py] LamportClock.stamp *)
Definition stamp (self : t) : Z * Z := (counter self, node_id self).

(** [a < b] on pairs *)
Definition pair_lt (a b : Z * Z) : bool := (a.1 <? b.1) || ((a.1 =? b.1) && (a.2 <? b.2)).

(** [relay/lamportclock.py] LamportClock.happens_before *)
Definition happens_before (a b : Z * Z) : bool := pair_lt a b.
End LamportClock.
End lamportclock.
Import lamportclock.

Module hlc.
Module HybridLogicalClock.
(** [relay/hlc.py] class HybridLogicalClock *)
Record t := mk { physical : Z; counter : Z }.

Definition make : t := mk 0 0.

(** [relay/hlc.py] HybridLogicalClock.tick *)
Definition tick (wall_now : Z) : act t (Z * Z) :=
  modify (λ self, if physical self <? wall_now then mk wall_now 0 else mk (physical self) (counter self + 1));;
  self ← get;
  mret (physical self, counter self).

(** [relay/hlc.py] HybridLogicalClock.on_receive *)
Definition on_receive (wall_now : Z) (msg : Z * Z) : act t (Z * Z) :=
  let '(msg_physical, msg_counter) := msg in
  modify (λ self,
    let new_physical := Z.max (Z.max (physical self) msg_physical) wall_now in
    mk new_physical
      (if (new_physical =? physical self) && (physical self =? msg_physical)
       then Z.max (counter self) msg_counter + 1
       else if new_physical =? physical self then counter self + 1
       else if new_physical =? msg_physical then msg_counter + 1
       else 0));;
  self ← get;
  mret (physical self, counter self).

(** [relay/hlc.py] HybridLogicalClock.drift_note: whether the note warns, and the counter *)
Definition drift_note (self : t) (wall_now : Z) : bool * Z :=
  ((0 <? counter self) && (wall_now <=? physical self), counter self).

(** [relay/hlc.py] HybridLogicalClock.compare *)
Definition compare (a b : Z * Z) : Z :=
  if LamportClock.pair_lt a b then -1 else if LamportClock.pair_lt b a then 1 else 0.
End HybridLogicalClock.
End hlc.
Import hlc.

Module atomicbroadcast.
Module AtomicBroadcast.
(** [relay/atomicbroadcast.py] class AtomicBroadcast *)
Record t := mk { next_expected : Z; buffer : pydict Z string; delivered : list string }.

Definition make : t := mk 0 [] [].

(** [relay/atomicbroadcast.py:50-53] AtomicBroadcast.receive *)
Definition deliver_round (just_delivered : list string) : act t (list string + list string) :=
  self ← get;
  match d_get (buffer self) (next_expected self) with
  | Some m =>
      put (mk (next_expected self + 1) (d_del (buffer self) (next_expected self)) (delivered self ++ [m]));;
      mret (inl (just_delivered ++ [m]))
  | None => mret (inr just_delivered)
  end.

(** [relay/atomicbroadcast.py] AtomicBroadcast.receive *)
Definition receive (sequence : Z) (message : string) : act t (list string) :=
  self ← get;
  if sequence <? next_expected self then mret []
  else
    put (mk (next_expected self) (d_set (buffer self) sequence message) (delivered self));;
    self ← get;
    act_loop deliver_round (S (length (buffer self))) [].

(** [relay/atomicbroadcast.py] AtomicBroadcast.deliver_in_order *)
Definition deliver_in_order (sequence : Z) (message : string) : act t unit :=
  self ← get;
  raise_if (negb (sequence =? next_expected self)) Invalid;;
  put (mk (next_expected self + 1) (buffer self) (delivered self ++ [message])).

(** [relay/atomicbroadcast.py] AtomicBroadcast.report: the two numbers in the message *)
Definition report (self : t) : Z * Z := (next_expected self - 1, zlen (buffer self)).
End AtomicBroadcast.
End atomicbroadcast.
Import atomicbroadcast.

Module hintedhandoff.
Module HintedHandoff.
(** [relay/hintedhandoff.py] class HintedHandoff *)
Record t := mk { hint_window : Z; hints : pydict string (list (Z * string)) }.

(** [relay/hintedhandoff.py] HintedHandoff.__post_init__ *)
Definition make (hint_window : Z) : result t := if hint_window <? 1 then Err Invalid else Ok (mk hint_window []).

(** [relay/hintedhandoff.py] HintedHandoff.store_hint *)
Definition store_hint (replica : string) (now : Z) (write : string) (replica_up : bool) : act t unit :=
  raise_if replica_up Invalid;;
  modify (λ self, mk (hint_window self)
    (d_set (hints self) replica (d_getd (hints self) replica [] ++ [(now, write)]))).

(** [relay/hintedhandoff.py] HintedHandoff._expire *)
Definition _expire (replica : string) (now : Z) : act t unit :=
  modify (λ self, mk (hint_window self)
    (d_set (hints self) replica
       (List.filter (λ p, now - p.1 <? hint_window self) (d_getd (hints self) replica [])))).

(** [relay/hintedhandoff.py] HintedHandoff.replay *)
Definition replay (replica : string) (now : Z) : act t (list string) :=
  _expire replica now;;
  self ← get;
  let writes := (d_getd (hints self) replica []).*2 in
  put (mk (hint_window self) (d_set (hints self) replica []));;
  mret writes.

(** [relay/hintedhandoff.py] HintedHandoff.pending: the number in the message *)
Definition pending (replica : string) (now : Z) : act t Z :=
  _expire replica now;;
  self ← get;
  mret (zlen (d_getd (hints self) replica [])).
End HintedHandoff.
End hintedhandoff.
Import hintedhandoff.

Module chainreplication.
Module ChainReplication.
(** [relay/chainreplication.py] class ChainReplication *)
Record t := mk { chain : list string }.

(** [relay/chainreplication.py] ChainReplication.__post_init__ *)
Definition make (chain : list string) : result t := match chain with [] => Err Invalid | _ => Ok (mk chain) end.

(** [relay/chainreplication.py] ChainReplication.head *)
Definition head (self : t) : result string := py_index (chain self) 0.

(** [relay/chainreplication.py] ChainReplication.tail *)
Definition tail (self : t) : result string := py_index (chain self) (-1).

(** [relay/chainreplication.py] ChainReplication.write: the head and the tail in the message *)
Definition write (self : t) (node : string) : result (string * string) :=
  h ← head self;
  if negb (bool_decide (node = h)) then Err Invalid else t ← tail self; Ok (node, t).

(** [relay/chainreplication.py] ChainReplication.read *)
Definition read (self : t) (node : string) : result string :=
  t ← tail self;
  if negb (bool_decide (node = t)) then Err Invalid else Ok node.

(** [self.chain.remove(node)], of a node that is there *)
Fixpoint remove_first (node : string) (l : list string) : list string :=
  match l with [] => [] | x :: l => if bool_decide (x = node) then l else x :: remove_first node l end.

(** the three repairs of [fail] *)
Inductive repair := NewHead (node : string) | NewTail (node : string) | Relinked.

(** [relay/chainreplication.py] ChainReplication.fail *)
Definition fail (node : string) : act t repair :=
  self ← get;
  raise_if (negb (bool_decide (node ∈ chain self))) Invalid;;
  h ← pure_of (head self);
  t ← pure_of (tail self);
  put (mk (remove_first node (chain self)));;
  self ← get;
  raise_if (bool_decide (chain self = [])) Invalid;;
  if bool_decide (node = h) then h ← pure_of (head self); mret (NewHead h)
  else if bool_decide (node = t) then t ← pure_of (tail self); mret (NewTail t)
  else mret Relinked.

(** [relay/chainreplication.py] ChainReplication.report *)
Definition report (self : t) : result string :=
  h ← head self;
  t ← tail self;
  Ok ("chain " +:+ join_str " -> " (chain self) +:+ "; head '" +:+ h +:+ "' takes writes, tail '" +:+ t
      +:+ "' serves reads, a wrong order after repair would serve uncommitted writes").
End ChainReplication.
End chainreplication.
Import chainreplication.

Module consistenthash.
Module HashRing.
Section hash_ring.
Context (hash : string → Z).

(** [relay/consistenthash.py] class HashRing *)
Record t := mk { vnodes : Z; ring : gmap Z string; nodes : gset string }.

(** [relay/consistenthash.py] HashRing.__post_init__ *)
Definition make (vnodes : Z) : result t := if vnodes <? 1 then Err Invalid else Ok (mk vnodes ∅ ∅).

(** [relay/consistenthash.py] HashRing._points *)
Definition _points (self : t) (node : string) : list Z :=
  (λ i, Z.land (hash (node +:+ "#" +:+ zs i)%string) 0x7FFFFFFF) <$> seqZ 0 (vnodes self).

(** [relay/consistenthash.py] HashRing.add *)
Definition add (node : string) : act t unit :=
  self ← get;
  raise_if (bool_decide (node ∈ nodes self)) Invalid;;
  put (mk (vnodes self) (foldl (λ r p, <[p := node]> r) (ring self) (_points self node)) (nodes self ∪ {[node]})).

(** [relay/consistenthash.py] HashRing.remove *)
Definition remove (node : string) : act t unit :=
  modify (λ self, mk (vnodes self) (filter (λ p, p.2 ≠ node) (ring self)) (nodes self ∖ {[node]})).

(** [sorted(self.ring)] *)
Definition points_of (r : gmap Z string) : list Z := py_sorted Z.le (map_to_list r).*1.

(** [relay/consistenthash.py] HashRing.node_for *)
Definition node_for (self : t) (key : string) : result string :=
  let h := Z.land (hash key) 0x7FFFFFFF in
  match points_of (ring self) with
  | [] => Err Invalid
  | p0 :: ps =>
      let p := default p0 (List.find (λ p, h <=? p) (p0 :: ps)) in
      match ring self !! p with Some n => Ok n | None => Err (KeyError) end
  end.

(** [relay/consistenthash.py] HashRing.churn *)
Definition churn (keys : list string) (new_node : string) : act t string :=
  self ← get;
  before ← pure_of (r_fold keys ([] : pydict string string) (λ before k, n ← node_for self k; Ok (d_set before k n)));
  add new_node;;
  self ← get;
  moved ← pure_of (r_fold keys 0 (λ moved k,
    n ← node_for self k;
    b ← d_item before k;
    Ok (if bool_decide (n = b) then moved else moved + 1)));
  pct ← pure_of (match keys with
                 | [] => Ok f0
                 | _ => share ← z_truediv moved (zlen keys); Ok (f_mul share (of_Z 100))
                 end);
  mret ("adding '" +:+ new_node +:+ "' moved " +:+ zs moved +:+ "/" +:+ zs (zlen keys) +:+ " key(s) (" +:+ fmt_fixed 0 pct
        +:+ "%); modulo would move nearly all, this moves about one over the node count").
End hash_ring.
End HashRing.
End consistenthash.
Import consistenthash.

Module optimisticlock.
Module OptimisticValue.
(** [relay/optimisticlock.py] class OptimisticValue *)
Record t := mk { value : Z; version : Z; conflicts : Z; commits : Z }.

Definition make : t := mk 0 0 0 0.

(** [relay/optimisticlock.py] OptimisticValue.read *)
Definition read (self : t) : Z * Z := (value self, version self).

(** [relay/optimisticlock.py] OptimisticValue.compare_and_set *)
Definition compare_and_set (expected_version new_value : Z) : act t unit :=
  self ← get;
  if negb (expected_version =? version self)
  then put (mk (value self) (version self) (conflicts self + 1) (commits self));; raise Invalid
  else put (mk new_value (version self + 1) (conflicts self) (commits self + 1)).

(** [relay/optimisticlock.py] OptimisticValue.conflict_rate: the fraction in the message *)
Definition conflict_rate (self : t) : option (Z * Z) :=
  let total := conflicts self + commits self in
  if total =? 0 then None else Some (conflicts self, total).
End OptimisticValue.
End optimisticlock.
Import optimisticlock.

Module readrepair.
(** [relay/readrepair.py] class ReplicaValue *)
Record ReplicaValue := mk_value { replica : string; value : string; version : Z }.

(** [max(replicas, key=lambda r: r.version)]: the first of the greatest *)
Definition newest_of (r : ReplicaValue) (rs : list ReplicaValue) : ReplicaValue :=
  foldl (λ best r, if version best <? version r then r else best) r rs.

(** [relay/readrepair.py] ReadRepair.resolve *)
Definition resolve (replicas : list ReplicaValue) : result (string * list string) :=
  match replicas with
  | [] => Err Invalid
  | r :: rs =>
      let newest := newest_of r rs in
      Ok (value newest, replica <$> List.filter (λ r, version r <? version newest) replicas)
  end.

(** [relay/readrepair.py:68-72] ReadRepair.concurrent_conflict *)
Definition concurrent (vi vj : Z * Z) : bool :=
  ((vj.1 <? vi.1) || (vj.2 <? vi.2)) && ((vi.1 <? vj.1) || (vi.2 <? vj.2)).

(** [relay/readrepair.py] ReadRepair.concurrent_conflict *)
Fixpoint concurrent_conflict (versions : list (Z * Z)) : bool :=
  match versions with
  | [] => false
  | vi :: versions => existsb (concurrent vi) versions || concurrent_conflict versions
  end.

(** [relay/readrepair.py] ReadRepair.report *)
Definition report (replicas : list ReplicaValue) : result string :=
  p ← resolve replicas;
  let '(_, behind) := p in
  match behind with
  | [] => Ok "all replicas agree; nothing to repair"
  | _ =>
      share ← z_truediv (zlen behind) (zlen replicas);
      let pct := f_mul share (of_Z 100) in
      Ok ("repaired " +:+ zs (zlen behind) +:+ "/" +:+ zs (zlen replicas) +:+ " replica(s) (" +:+ fmt_fixed 0 pct
          +:+ "%); a read routinely repairing most replicas is a write path failing to reach them, the real problem read repair masks one read at a time")
  end.
End readrepair.

Module sloppyquorum.
(** [relay/sloppyquorum.py] class SloppyQuorum *)
Record SloppyQuorum := mk { write_quorum : Z; natural_up : Z; substitutes_available : Z }.

(** [relay/sloppyquorum.py] CLEAN *)
Definition CLEAN : string := "clean".
(** [relay/sloppyquorum.py] SLOPPY *)
Definition SLOPPY : string := "sloppy".
(** [relay/sloppyquorum.py] FAILED *)
Definition FAILED : string := "failed".

(** [relay/sloppyquorum.py] SloppyQuorum.__post_init__ *)
Definition make (w n s : Z) : result SloppyQuorum :=
  if w <? 1 then Err Invalid else if (n <? 0) || (s <? 0) then Err Invalid else Ok (mk w n s).

(** [relay/sloppyquorum.py] SloppyQuorum.outcome *)
Definition outcome (self : SloppyQuorum) : string :=
  if write_quorum self <=? natural_up self then CLEAN
  else if write_quorum self <=? natural_up self + substitutes_available self then SLOPPY
  else FAILED.

(** [relay/sloppyquorum.py] SloppyQuorum.substitutes_used *)
Definition substitutes_used (self : SloppyQuorum) : Z :=
  if negb (bool_decide (outcome self = SLOPPY)) then 0 else write_quorum self - natural_up self.

(** [relay/sloppyquorum.py] SloppyQuorum.resolve: the replicas and substitutes in the message *)
Definition resolve (self : SloppyQuorum) : result (Z * Z) :=
  let result := outcome self in
  if bool_decide (result = CLEAN) then Ok (write_quorum self, 0)
  else if bool_decide (result = FAILED) then Err Invalid
  else Ok (natural_up self, substitutes_used self).
End sloppyquorum.

Module describequorum.
Module QuorumStatus.
(** [relay/describequorum.py] class QuorumStatus *)
Record t := mk { leader_offset : Z; voter_offsets : pydict string Z; max_lag : Z }.

(** [relay/describequorum.py] QuorumStatus.__post_init__ *)
Definition make (leader_offset : Z) (voter_offsets : pydict string Z) (max_lag : Z) : result t :=
  match voter_offsets with [] => Err Invalid | _ => Ok (mk leader_offset voter_offsets max_lag) end.

(** [relay/describequorum.py] QuorumStatus.majority *)
Definition majority (self : t) : Z := zlen (voter_offsets self) / 2 + 1.

(** [relay/describequorum.py] QuorumStatus.caught_up *)
Definition caught_up (self : t) : list string :=
  (List.filter (λ p, leader_offset self - p.2 <=? max_lag self) (voter_offsets self)).*1.

(** [relay/describequorum.py] QuorumStatus.can_commit *)
Definition can_commit (self : t) : bool := majority self <=? zlen (caught_up self).

(** [relay/describequorum.py] QuorumStatus.at_risk *)
Definition at_risk (self : t) : bool := zlen (caught_up self) =? majority self.

(** [relay/describequorum.py] QuorumStatus.most_lagged: the first of the least *)
Definition most_lagged (self : t) : result string :=
  match voter_offsets self with
  | [] => Err ValueError
  | p :: ps => Ok (foldl (λ best p, if p.2 <? best.2 then p else best) p ps).1
  end.

(** [relay/describequorum.py] QuorumStatus.margin *)
Definition margin (self : t) : Z := zlen (caught_up self) - majority self.

(** [relay/describequorum.py] QuorumStatus.report *)
Definition report (self : t) : result string :=
  if negb (can_commit self) then
    Ok ("UNHEALTHY: only " +:+ zs (zlen (caught_up self)) +:+ " of " +:+ zs (zlen (voter_offsets self))
        +:+ " voters caught up, below the majority " +:+ zs (majority self)
        +:+ "; the quorum cannot commit and metadata is frozen, an outage in progress")
  else
    let state := if at_risk self then "AT RISK" else "healthy" in
    lagged ← most_lagged self;
    Ok (state +:+ ": " +:+ zs (zlen (caught_up self)) +:+ " caught up, majority " +:+ zs (majority self) +:+ ", margin "
        +:+ zs (margin self) +:+ " voter(s); most lagged '" +:+ lagged +:+ "', the one to bring back").
End QuorumStatus.
End describequorum.
Import describequorum.

(** ** Logical clocks

    What a clock promises to the protocols that use it: each event's stamp is after the
    process's previous stamp and after the stamp of the message it received. *)

Class CausalClock (C W T : Type) := {
  clock_start : string → C;
  clock_local : W → act C T;
  clock_receive : W → T → act C T;
  clock_now : C → T;
  clock_before : relation T;
  clock_valid : C → Prop;
}.

Class CausalClockLaws (C W T : Type) `{!CausalClock C W T} : Prop := {
  before_trans :: Transitive (clock_before (C := C) (W := W));
  start_valid p : clock_valid (clock_start p);
  local_law w (c : C) : clock_valid c → ∃ c', clock_local w c = (c', Ok (clock_now c'))
    ∧ clock_valid c' ∧ clock_before (clock_now c) (clock_now c');
  receive_law w (c d : C) : clock_valid c → clock_valid d → ∃ c', clock_receive w (clock_now d) c = (c', Ok (clock_now c'))
    ∧ clock_valid c' ∧ clock_before (clock_now c) (clock_now c') ∧ clock_before (clock_now d) (clock_now c');
}.

(** A system of processes with one clock each: an event is local, or the receipt of the stamp of
    an earlier event, however late or often. *)
Inductive clock_op (W : Type) := CLocal (p : string) (w : W) | CReceive (p : string) (k : nat) (w : W).
Arguments CLocal {W} p w.
Arguments CReceive {W} p k w.

Record event (W T : Type) := mk_event { ev_process : string; ev_message : option nat; ev_reading : W; ev_stamp : T }.
Arguments mk_event {W T}.
Arguments ev_process {W T}.
Arguments ev_message {W T}.
Arguments ev_reading {W T}.
Arguments ev_stamp {W T}.

(** Lamport's happened-before, on positions in the history *)
Inductive precedes {W T} (h : list (event W T)) : nat → nat → Prop :=
  | precedes_process j k ej ek : (j < k)%nat → h !! j = Some ej → h !! k = Some ek →
      ev_process ej = ev_process ek → precedes h j k
  | precedes_message j k ej ek : h !! j = Some ej → h !! k = Some ek → ev_message ek = Some j → precedes h j k
  | precedes_trans i j k : precedes h i j → precedes h j k → precedes h i k.

Section clocks.
Context {C W T : Type} `{!CausalClock C W T, !CausalClockLaws C W T}.
Local Abbreviation before := (clock_before (C := C) (W := W)).

Record system := mk_system { sys_clock : string → C; sys_events : list (event W T) }.

Definition sys_start : system := mk_system (λ p, clock_start p) [].

Definition record (p : string) (m : option nat) (w : W) (r : C * result T) (s : system) : system :=
  mk_system (λ q, if bool_decide (q = p) then r.1 else sys_clock s q)
    (sys_events s ++ match r.2 with Ok v => [mk_event p m w v] | Err _ => [] end).

Definition sys_step (o : clock_op W) (s : system) : system :=
  match o with
  | CLocal p w => record p None w (clock_local w (sys_clock s p)) s
  | CReceive p k w =>
      match sys_events s !! k with
      | Some e => record p (Some k) w (clock_receive w (ev_stamp e) (sys_clock s p)) s
      | None => s
      end
  end.

Record sys_inv (s : system) : Prop := {
  si_clock p : clock_valid (sys_clock s p);
  si_stamp k e : sys_events s !! k = Some e → ∃ c, clock_valid c ∧ ev_stamp e = clock_now c;
  si_now k e : sys_events s !! k = Some e →
    ev_stamp e = clock_now (sys_clock s (ev_process e)) ∨ before (ev_stamp e) (clock_now (sys_clock s (ev_process e)));
  si_process j k ej ek : (j < k)%nat → sys_events s !! j = Some ej → sys_events s !! k = Some ek →
    ev_process ej = ev_process ek → before (ev_stamp ej) (ev_stamp ek);
  si_message j k ej ek : sys_events s !! j = Some ej → sys_events s !! k = Some ek → ev_message ek = Some j →
    before (ev_stamp ej) (ev_stamp ek);
  si_earlier k e j : sys_events s !! k = Some e → ev_message e = Some j → (j < k)%nat;
}.

Lemma sys_inv_record p m w c' s :
  sys_inv s → clock_valid c' → before (clock_now (sys_clock s p)) (clock_now c') →
  (∀ j, m = Some j → ∃ e, sys_events s !! j = Some e ∧ before (ev_stamp e) (clock_now c')) →
  sys_inv (record p m w (c', Ok (clock_now c')) s).
Proof.
  intros [Hc Hst Hnow Hproc Hmsg Hearl] Hv Hb Hm. split; cbn [record sys_clock sys_events fst snd].
  - intros q. by case_bool_decide.
  - intros k e [[Hk _]|[_ ->]]%lookup_snoc_inv; [by eapply Hst|]. by exists c'.
  - intros k e [[Hk _]|[_ ->]]%lookup_snoc_inv; cbn [ev_process ev_stamp].
    + destruct (Hnow k e Hk) as [Heq|Hlt]; case_bool_decide as Hp; [right|by left|right|by right].
      * rewrite Heq, Hp. done.
      * trans (clock_now (sys_clock s p)); [by rewrite <- Hp|done].
    + rewrite bool_decide_true by done. by left.
  - intros j k ej ek Hjk [[Hj Hlj]|[-> ->]]%lookup_snoc_inv [[Hk Hlk]|[-> ->]]%lookup_snoc_inv Hp; try lia;
      [by eapply (Hproc j k)|]. cbn [ev_process ev_stamp] in *.
    destruct (Hnow j ej Hj) as [->|Hlt]; rewrite Hp in *; [done|by trans (clock_now (sys_clock s p))].
  - intros j k ej ek [[Hj Hlj]|[-> ->]]%lookup_snoc_inv [[Hk Hlk]|[-> ->]]%lookup_snoc_inv Hmk; cbn [ev_message ev_stamp] in *.
    + by eapply (Hmsg j k).
    + destruct (Hm j Hmk) as (e & He & Hbe). by simplify_eq.
    + specialize (Hearl k ek _ Hk Hmk). lia.
    + destruct (Hm _ Hmk) as (e & He & Hbe). apply lookup_lt_Some in He. lia.
  - intros k e j [[Hk Hlk]|[-> ->]]%lookup_snoc_inv Hmk; [by eapply Hearl|]. cbn in Hmk.
    destruct (Hm j Hmk) as (e & He & _). by apply lookup_lt_Some in He.
Qed.

Lemma sys_inv_step o s : sys_inv s → sys_inv (sys_step o s).
Proof.
  intros Hs. destruct o as [p w|p k w]; cbn [sys_step].
  - destruct (local_law w (sys_clock s p)) as (c' & -> & Hv & Hb); [apply Hs|]. by apply sys_inv_record.
  - destruct (sys_events s !! k) as [e|] eqn:Hk; [|done].
    destruct (si_stamp s Hs k e Hk) as (d & Hd & Heq). rewrite Heq.
    destruct (receive_law w (sys_clock s p) d) as (c' & -> & Hv & Hb & Hbd); [apply Hs|done|].
    apply sys_inv_record; [done..|]. intros j [= <-]. exists e. split; [done|]. by rewrite Heq.
Qed.

Lemma sys_inv_run ops : sys_inv (run sys_step ops sys_start).
Proof. apply run_invariant; [apply sys_inv_step|]. split; cbn; intros; try done. apply start_valid. Qed.

(** The clock condition, of any clock that keeps the two promises. *)
Lemma precedes_before s j k : sys_inv s → precedes (sys_events s) j k →
  ∃ ej ek, sys_events s !! j = Some ej ∧ sys_events s !! k = Some ek ∧ before (ev_stamp ej) (ev_stamp ek).
Proof.
  intros Hs. induction 1 as [j k ej ek Hjk Hj Hk Hp|j k ej ek Hj Hk Hm|i j k _ IH1 _ IH2].
  - exists ej, ek. split_and!; [done..|]. by eapply (si_process s Hs j k).
  - exists ej, ek. split_and!; [done..|]. by eapply (si_message s Hs j k).
  - destruct IH1 as (ei & ej & ? & ? & ?). destruct IH2 as (ej' & ek & ? & ? & ?). simplify_eq.
    exists ei, ek. split_and!; [done..|]. by trans (ev_stamp ej).
Qed.
End clocks.
Arguments system : clear implicits.

#[global] Instance lamport_clock : CausalClock LamportClock.t unit Z := {
  clock_start _ := LamportClock.mk 0 0;
  clock_local _ := LamportClock.tick;
  clock_receive _ m := LamportClock.on_receive m;
  clock_now := LamportClock.counter;
  clock_before := Z.lt;
  clock_valid c := 0 <= LamportClock.counter c;
}.

#[global] Instance lamport_clock_laws : CausalClockLaws LamportClock.t unit Z.
Proof.
  split; [apply _|done| |].
  - intros [] c Hc. exists (LamportClock.mk (LamportClock.node_id c) (LamportClock.counter c + 1)). cbn in *.
    split_and!; [done|lia|lia].
  - intros [] c d Hc Hd.
    exists (LamportClock.mk (LamportClock.node_id c) (Z.max (LamportClock.counter c) (LamportClock.counter d) + 1)).
    cbn in *. unfold LamportClock.on_receive. rewrite bind_raise_if, (proj2 (Z.ltb_ge _ _)) by done.
    split_and!; [done|lia|lia|lia].
Qed.

Definition stamp_lt (a b : Z * Z) : Prop := LamportClock.pair_lt a b = true.

Lemma stamp_lt_spec a b : stamp_lt a b ↔ a.1 < b.1 ∨ (a.1 = b.1 ∧ a.2 < b.2).
Proof.
  unfold stamp_lt, LamportClock.pair_lt. rewrite orb_true_iff, andb_true_iff, !Z.ltb_lt, Z.eqb_eq. done.
Qed.

#[global] Instance hybrid_clock : CausalClock HybridLogicalClock.t Z (Z * Z) := {
  clock_start _ := HybridLogicalClock.make;
  clock_local := HybridLogicalClock.tick;
  clock_receive := HybridLogicalClock.on_receive;
  clock_now c := (HybridLogicalClock.physical c, HybridLogicalClock.counter c);
  clock_before := stamp_lt;
  clock_valid _ := True;
}.

#[global] Instance hybrid_clock_laws : CausalClockLaws HybridLogicalClock.t Z (Z * Z).
Proof.
  split; [|done| |].
  - intros a b c. cbn. rewrite !stamp_lt_spec. lia.
  - intros w c _. eexists. split; [done|]. split; [done|]. cbn. rewrite stamp_lt_spec.
    destruct (Z.ltb_spec (HybridLogicalClock.physical c) w); cbn; lia.
  - intros w c d _ _. eexists. split; [done|]. cbn. rewrite !stamp_lt_spec. cbn.
    destruct c as [p1 n1], d as [p2 n2]; cbn.
    destruct (Z.eqb_spec (Z.max (Z.max p1 p2) w) p1), (Z.eqb_spec p1 p2), (Z.eqb_spec (Z.max (Z.max p1 p2) w) p2);
      cbn; lia.
Qed.

(** the greatest wall-clock reading of a history, and 0 *)
Definition greatest_reading (h : list (event Z (Z * Z))) : Z := foldr Z.max 0 (ev_reading <$> h).

Lemma greatest_reading_app h1 h2 : greatest_reading (h1 ++ h2) = Z.max (greatest_reading h1) (greatest_reading h2).
Proof.
  unfold greatest_reading. rewrite fmap_app. induction (ev_reading <$> h1) as [|x l IH]; cbn; [|lia].
  induction (ev_reading <$> h2); cbn; lia.
Qed.

(** Also (functional): logical clocks never contradict causality. Take any run of any number of processes,
    each event local or the receipt of the stamp of an earlier event, however late or often. Whenever one
    event happened before another (the same process, a message, or a chain of these), the first one's Lamport
    timestamp is smaller, and so is its stamp whatever the node ids; its hybrid stamp compares smaller too,
    whatever the wall clocks read, stalled, skewed or going back; and a hybrid stamp stays near the wall: its
    physical part is at least the reading at the event and at most the greatest reading so far. *)
Theorem logical_clocks_causal lops hops :
  (∀ j k, precedes (sys_events (run sys_step lops (sys_start (C := LamportClock.t) (W := unit) (T := Z)))) j k →
     ∃ ej ek, sys_events (run sys_step lops sys_start) !! j = Some ej
       ∧ sys_events (run sys_step lops sys_start) !! k = Some ek
       ∧ ev_stamp ej < ev_stamp ek
       ∧ ∀ nj nk, LamportClock.happens_before (ev_stamp ej, nj) (ev_stamp ek, nk) = true)
  ∧ (∀ j k, precedes (sys_events (run sys_step hops (sys_start (C := HybridLogicalClock.t) (W := Z) (T := Z * Z)))) j k →
     ∃ ej ek, sys_events (run sys_step hops sys_start) !! j = Some ej
       ∧ sys_events (run sys_step hops sys_start) !! k = Some ek
       ∧ HybridLogicalClock.compare (ev_stamp ej) (ev_stamp ek) = -1
       ∧ HybridLogicalClock.compare (ev_stamp ek) (ev_stamp ej) = 1)
  ∧ ∀ k (e : event Z (Z * Z)),
     sys_events (run sys_step hops (sys_start (C := HybridLogicalClock.t))) !! k = Some e →
     ev_reading e <= (ev_stamp e).1
     <= greatest_reading (take (S k) (sys_events (run sys_step hops (sys_start (C := HybridLogicalClock.t))))).
Proof.
  split_and!.
  - intros j k Hjk. apply precedes_before in Hjk as (ej & ek & Hj & Hk & Hb); [|apply sys_inv_run]. cbn in Hb.
    exists ej, ek. split_and!; [done..|]. intros nj nk. apply stamp_lt_spec. cbn. lia.
  - intros j k Hjk. apply precedes_before in Hjk as (ej & ek & Hj & Hk & Hb); [|apply sys_inv_run]. cbn in Hb.
    exists ej, ek. split_and!; [done..| |]; unfold HybridLogicalClock.compare; [by rewrite Hb|]. rewrite Hb.
    destruct (LamportClock.pair_lt (ev_stamp ek) (ev_stamp ej)) eqn:Hba; [|done].
    apply stamp_lt_spec in Hb, Hba. lia.
  - set (s := run sys_step hops sys_start).
    assert (Hinv : (∀ p, HybridLogicalClock.physical (sys_clock s p) <= greatest_reading (sys_events s))
      ∧ ∀ k e, sys_events s !! k = Some e → ev_reading e <= (ev_stamp e).1 <= greatest_reading (take (S k) (sys_events s)));
      [|intros k e Hk; by apply Hinv].
    subst s. apply run_invariant; [|by split].
    assert (Htake : ∀ (h : list (event Z (Z * Z))) k, greatest_reading (take k h) <= greatest_reading h).
    { intros h k. rewrite <- (take_drop k h) at 2. rewrite greatest_reading_app. lia. }
    assert (Hrec : ∀ s p m w (c : HybridLogicalClock.t) v, (∀ p, HybridLogicalClock.physical (sys_clock s p) <= greatest_reading (sys_events s)) →
      (∀ k e, sys_events s !! k = Some e → ev_reading e <= (ev_stamp e).1 <= greatest_reading (take (S k) (sys_events s))) →
      w <= v.1 <= Z.max (greatest_reading (sys_events s)) w → HybridLogicalClock.physical c = v.1 →
      (∀ q, HybridLogicalClock.physical (sys_clock (record p m w (c, Ok v) s) q) <= greatest_reading (sys_events (record p m w (c, Ok v) s)))
      ∧ (∀ k e, sys_events (record p m w (c, Ok v) s) !! k = Some e →
          ev_reading e <= (ev_stamp e).1 <= greatest_reading (take (S k) (sys_events (record p m w (c, Ok v) s))))).
    { clear - Htake. intros s p m w c v Hc Hev Hv Hcv. cbn [record sys_clock sys_events fst snd]. split.
      - intros q. rewrite greatest_reading_app. specialize (Hc q). unfold greatest_reading at 2. cbn.
        case_bool_decide; [rewrite Hcv|]; lia.
      - intros k e [[Hk Hlt]|[-> ->]]%lookup_snoc_inv.
        + rewrite take_app_le by lia. by apply Hev.
        + cbn [ev_reading ev_stamp]. rewrite take_ge by (rewrite length_app; cbn; lia). rewrite greatest_reading_app.
          unfold greatest_reading at 2. cbn. lia. }
    intros [p w|p k w] s [Hc Hev]; cbn [sys_step].
    + apply Hrec; [done|done| |done]. specialize (Hc p). cbn.
      destruct (Z.ltb_spec (HybridLogicalClock.physical (sys_clock s p)) w); cbn; lia.
    + destruct (sys_events s !! k) as [e|] eqn:Hk; [|done]. specialize (Hev k e Hk) as He.
      pose proof (Htake (sys_events s) (S k)). destruct e as [q m' r [pm nm]]. cbn [ev_stamp fst] in *.
      specialize (Hc p) as Hcp. apply Hrec; [done|done| |done]. cbn. lia.
Qed.

Lemma logical_clocks_causal_witness :
  let h := sys_events (run sys_step [CLocal "a" 5; CReceive "b" 0 3; CLocal "b" 4] (sys_start (C := HybridLogicalClock.t) (W := Z) (T := Z * Z))) in
  ∃ ej ek, h !! 0%nat = Some ej ∧ h !! 2%nat = Some ek ∧ HybridLogicalClock.compare (ev_stamp ej) (ev_stamp ek) = -1.
Proof.
  intros h.
  destruct (logical_clocks_causal [] [CLocal "a" 5; CReceive "b" 0 3; CLocal "b" 4]) as (_ & Hh & _).
  destruct (Hh 0%nat 2%nat) as (ej & ek & Hj & Hk & Hc & _); [|exists ej, ek; split; [exact Hj|split; [exact Hk|exact Hc]]].
  apply (precedes_trans _ 0 1 2).
  - eapply (precedes_message _ 0 1); vm_compute; reflexivity.
  - eapply (precedes_process _ 1 2); [lia|vm_compute; reflexivity..].
Defined.

(** ** Total-order delivery *)

Section broadcast.
Import AtomicBroadcast.
Context (m : Z → string).
Implicit Types (s : AtomicBroadcast.t) (received : list Z).

Definition receive_step (sequence : Z) s : t := state_of (receive sequence (m sequence)) s.

Definition messages (lo hi : Z) : list string := m <$> seqZ lo (hi - lo).

Record ordered (n0 : Z) received s : Prop := {
  or_next : 0 <= n0 <= next_expected s;
  or_delivered : delivered s = messages 0 (next_expected s);
  or_all : ∀ i, 0 <= i < next_expected s → i ∈ received;
  or_wf : d_wf (buffer s);
  or_buffer : ∀ i, d_get (buffer s) i = if bool_decide (i ∈ received ∧ next_expected s <= i) then Some (m i) else None;
}.

Lemma messages_snoc lo hi : lo <= hi → messages lo (hi + 1) = messages lo hi ++ [m hi].
Proof.
  intros Hle. unfold messages. replace (hi + 1 - lo) with ((hi - lo) + 1) by lia.
  rewrite seqZ_app, fmap_app by lia. f_equal. by replace (lo + (hi - lo)) with hi by lia.
Qed.

Lemma broadcast_receive_run received s q :
  ordered 0 received s → next_expected s ∉ received →
  ∃ s', receive q (m q) s = (s', Ok (messages (next_expected s) (next_expected s')))
    ∧ ordered 0 (received ++ [q]) s' ∧ next_expected s <= next_expected s' ∧ next_expected s' ∉ received ++ [q].
Proof.
  intros [Hn Hd Hall Hwf Hb] Hgap. unfold receive. rewrite bind_get.
  destruct (Z.ltb_spec q (next_expected s)) as [Hlt|Hge].
  { exists s. split_and!; [| |lia|].
    - rewrite run_ret. unfold messages. by rewrite Z.sub_diag.
    - split; [done|done| |done|].
      + intros i Hi. apply elem_of_app. left. by apply Hall.
      + intros i. rewrite Hb. erewrite bool_decide_ext; [done|]. rewrite elem_of_app, list_elem_of_singleton.
        split; [naive_solver|]. intros [[?| ->] ?]; [done|lia].
    - rewrite elem_of_app, list_elem_of_singleton. intros [?|Heq]; [done|lia]. }
  rewrite bind_put, bind_get. cbn [buffer]. set (s1 := mk _ _ _). set (n0 := next_expected s) in *.
  assert (Hs1 : ordered n0 (received ++ [q]) s1).
  { split; cbn; [lia|done| |by apply d_wf_set|].
    - intros i Hi. apply elem_of_app. left. by apply Hall.
    - intros i. rewrite d_get_set, Hb. fold n0. destruct (decide (i = q)) as [->|Hne].
      + rewrite (bool_decide_true (q = q)), bool_decide_true by set_solver. done.
      + rewrite (bool_decide_false (i = q)) by done. erewrite bool_decide_ext; [done|]. set_solver. }
  set (fuel := S _).
  assert (Hgo : ∀ fuel just s', ordered n0 (received ++ [q]) s' → just = messages n0 (next_expected s') →
    (length (buffer s') < fuel)%nat →
    ∃ s'', act_loop deliver_round fuel just s' = (s'', Ok (messages n0 (next_expected s'')))
      ∧ ordered n0 (received ++ [q]) s'' ∧ next_expected s'' ∉ received ++ [q]).
  { clear fuel. induction fuel as [|fuel IH]; intros just s' Hs' -> Hf; [lia|].
    cbn [act_loop]. unfold deliver_round at 1. rewrite bind_get. pose proof Hs' as [Hn' Hd' Hall' Hwf' Hb'].
    destruct (d_get (buffer s') (next_expected s')) as [v|] eqn:Hget.
    - rewrite bind_put, run_ret. rewrite Hb' in Hget. case_bool_decide as Hin; [|done]. simplify_eq.
      destruct Hin as [Hin _]. apply IH; cbn [next_expected buffer].
      + split; cbn [next_expected buffer delivered]; [lia|by rewrite Hd', messages_snoc by lia| |by apply d_wf_del|].
        * intros i Hi. destruct (decide (i = next_expected s')) as [->|]; [done|]. apply Hall'. lia.
        * intros i. rewrite d_get_del, Hb'. case_bool_decide as Hi; [|]; subst.
          -- rewrite bool_decide_false; [done|]. intros [_ ?]. lia.
          -- erewrite bool_decide_ext; [done|]. split; intros [? ?]; (split; [done|lia]).
      + by rewrite messages_snoc by lia.
      + assert (Hk : next_expected s' ∈ d_keys (buffer s')).
        { apply d_get_is_Some. rewrite Hb', bool_decide_true by (split; [done|lia]). done. }
        pose proof (Permutation_length (d_del_Permutation _ _ Hwf' Hk)) as Hlen. cbn [length] in Hlen.
        rewrite !d_keys_length in Hlen. lia.
    - rewrite run_ret. exists s'. split_and!; [done|done|]. rewrite Hb' in Hget. case_bool_decide as Hin; [done|].
      intros Hin'. apply Hin. split; [done|lia]. }
  destruct (Hgo fuel [] s1 Hs1) as (s'' & Hrun & Ho & Hno); [by unfold messages; rewrite Z.sub_diag|subst fuel; cbn; lia|].
  exists s''. rewrite Hrun. split_and!; [done| |apply Ho|done].
  destruct Ho as [? ? ? ? ?]. split; try done. lia.
Qed.

Lemma ordered_run received :
  ordered 0 received (run receive_step received make)
  ∧ next_expected (run receive_step received make) ∉ received.
Proof.
  unfold run. induction received as [|q received [IH IHn]] using rev_ind.
  - split; [|by apply not_elem_of_nil]. split; cbn; [lia|done|lia|constructor|]. intros i. by rewrite bool_decide_false by set_solver.
  - rewrite foldl_app. cbn [foldl]. destruct (broadcast_receive_run received _ q IH IHn) as (s' & Hrun & Ho & _ & Hno).
    unfold receive_step at 1 3, state_of. by rewrite Hrun.
Qed.

Lemma messages_prefix a b : 0 <= a <= b → messages 0 a `prefix_of` messages 0 b.
Proof.
  intros Hab. exists (messages a b). unfold messages. rewrite <- fmap_app. f_equal.
  rewrite !Z.sub_0_r. replace b with (a + (b - a)) at 1 by lia. by rewrite seqZ_app by lia.
Qed.
End broadcast.

(** C21 (safety): every node delivers the same messages in the same order. When each sequence number
    carries one message, whatever order the messages arrive in at a node, with whatever gaps and
    duplicates, what it has delivered is exactly the messages 0, 1, 2, ... up to the first number it has
    not received, and a receipt answers with exactly the ones it releases (none for a duplicate); so of any
    two nodes, one has delivered a prefix of what the other has. *)
Theorem broadcast_total_order m received1 received2 q :
  let s1 := run (receive_step m) received1 AtomicBroadcast.make in
  let s2 := run (receive_step m) received2 AtomicBroadcast.make in
  AtomicBroadcast.delivered s1 = messages m 0 (AtomicBroadcast.next_expected s1)
  ∧ 0 <= AtomicBroadcast.next_expected s1
  ∧ (∀ i, 0 <= i < AtomicBroadcast.next_expected s1 → i ∈ received1) ∧ AtomicBroadcast.next_expected s1 ∉ received1
  ∧ (∃ new, value_of (AtomicBroadcast.receive q (m q)) s1 = Ok new
      ∧ AtomicBroadcast.delivered (receive_step m q s1) = AtomicBroadcast.delivered s1 ++ new)
  ∧ (AtomicBroadcast.delivered s1 `prefix_of` AtomicBroadcast.delivered s2
     ∨ AtomicBroadcast.delivered s2 `prefix_of` AtomicBroadcast.delivered s1).
Proof.
  intros s1 s2. destruct (ordered_run m received1) as [H1 Hn1]. destruct (ordered_run m received2) as [H2 Hn2].
  fold s1 in H1, Hn1. fold s2 in H2, Hn2. split_and!; [apply H1|apply (or_next _ _ _ _ H1)|apply H1|done| |].
  - destruct (broadcast_receive_run m received1 s1 q H1 Hn1) as (s' & Hrun & Ho & Hle & _).
    unfold value_of, receive_step, state_of. rewrite Hrun. cbn [fst snd]. eexists. split; [done|].
    rewrite (or_delivered _ _ _ _ Ho), (or_delivered _ _ _ _ H1). pose proof (or_next _ _ _ _ H1).
    unfold messages. rewrite <- fmap_app. f_equal. rewrite !Z.sub_0_r.
    replace (AtomicBroadcast.next_expected s') with (AtomicBroadcast.next_expected s1 + (AtomicBroadcast.next_expected s' - AtomicBroadcast.next_expected s1)) at 1 by lia.
    rewrite seqZ_app by lia. by rewrite Z.add_0_l.
  - rewrite (or_delivered _ _ _ _ H1), (or_delivered _ _ _ _ H2).
    pose proof (or_next _ _ _ _ H1). pose proof (or_next _ _ _ _ H2).
    destruct (Z.le_ge_cases (AtomicBroadcast.next_expected s1) (AtomicBroadcast.next_expected s2));
      [left|right]; apply messages_prefix; lia.
Qed.

(** ** Hinted handoff *)

Section handoff.
Import HintedHandoff.
Implicit Types (s : HintedHandoff.t) (l : list (Z * string)).

Inductive hint_op := Store (replica : string) (now : Z) (write : string) | Replay (replica : string) (now : Z) | Pending (replica : string) (now : Z).

Definition op_time (o : hint_op) : Z := match o with Store _ now _ | Replay _ now | Pending _ now => now end.

Definition hint_step (o : hint_op) s : t :=
  match o with
  | Store r now w => state_of (store_hint r now w false) s
  | Replay r now => state_of (replay r now) s
  | Pending r now => state_of (pending r now) s
  end.

(** the writes missed by a replica since its last replay *)
Definition missed (ops : list hint_op) (replica : string) : list (Z * string) :=
  foldl (λ l o, match o with
    | Store r now w => if bool_decide (replica = r) then l ++ [(now, w)] else l
    | Replay r _ => if bool_decide (replica = r) then [] else l
    | Pending _ _ => l
    end) [] ops.

Definition young (window now : Z) (p : Z * string) : bool := now - p.1 <? window.

Record hints_inv (window : Z) (ops : list hint_op) s : Prop := {
  hi_window : hint_window s = window;
  hi_young : ∀ r now, (∀ o, o ∈ ops → op_time o <= now) →
    List.filter (young window now) (d_getd (hints s) r []) = List.filter (young window now) (missed ops r);
}.

Lemma young_young window now now' l : now' <= now →
  List.filter (young window now) (List.filter (young window now') l) = List.filter (young window now) l.
Proof.
  intros Hle. induction l as [|p l IH]; [done|]. cbn [List.filter].
  destruct (young window now' p) eqn:H'; cbn [List.filter]; destruct (young window now p) eqn:H; rewrite ?IH; try done.
  unfold young in *. apply Z.ltb_ge in H'. apply Z.ltb_lt in H. lia.
Qed.

Lemma hints_inv_step window ops o s :
  (∀ o', o' ∈ ops → op_time o' <= op_time o) → hints_inv window ops s → hints_inv window (ops ++ [o]) (hint_step o s).
Proof.
  intros Ho [Hw Hy].
  assert (Hm : ∀ r, missed (ops ++ [o]) r = match o with
    | Store r' now w => if bool_decide (r = r') then missed ops r ++ [(now, w)] else missed ops r
    | Replay r' _ => if bool_decide (r = r') then [] else missed ops r
    | Pending _ _ => missed ops r end) by (intros r; unfold missed; by rewrite foldl_app).
  assert (Hold : ∀ now, (∀ o', o' ∈ ops ++ [o] → op_time o' <= now) → (∀ o', o' ∈ ops → op_time o' <= now) ∧ op_time o <= now).
  { intros now Hall. split; [intros o' Ho'; apply Hall|apply Hall]; set_solver. }
  destruct o as [r now w|r now|r now]; split; try done; intros r' now' Hnow; rewrite Hm; destruct (Hold now' Hnow) as [Hops Hle]; cbn [op_time] in Hle;
    specialize (Hy r' now' Hops); unfold hint_step, state_of; cbn [store_hint replay pending _expire raise_if].
  - unfold store_hint. rewrite bind_raise_if, run_modify. cbn [fst hints]. rewrite d_getd_set.
    case_bool_decide; [subst|done]. by rewrite !List.filter_app, Hy.
  - unfold replay, _expire. rewrite bind_modify, bind_get, bind_put, run_ret. cbn [fst hints]. rewrite d_getd_set.
    case_bool_decide; [done|]. by rewrite d_getd_set, bool_decide_false.
  - unfold pending, _expire. rewrite bind_modify, bind_get, run_ret. cbn [fst hints]. rewrite d_getd_set.
    case_bool_decide as Hr; [subst r|done]. rewrite Hw. by rewrite (young_young window now' now).
Qed.
End handoff.

(** Also (safety): a hint is delivered once, in order, and only within its window. Over any sequence of hints
    stored, replays and size queries for any replicas, in order of time, a replay answers exactly the
    writes stored for that replica since its last replay and younger than the window, oldest first, each with
    none lost and none twice, whatever queries expired in between; an immediate second replay answers nothing,
    and a write for a replica that is up is refused with nothing stored. *)
Theorem handoff_exactly_once window ops replica now :
  StronglySorted (λ o o', op_time o <= op_time o') ops → (∀ o, o ∈ ops → op_time o <= now) →
  let s := run hint_step ops (HintedHandoff.mk window []) in
  value_of (HintedHandoff.replay replica now) s = Ok (List.filter (young window now) (missed ops replica)).*2
  ∧ value_of (HintedHandoff.replay replica now) (state_of (HintedHandoff.replay replica now) s) = Ok []
  ∧ ∀ write, HintedHandoff.store_hint replica now write true s = (s, Err Invalid).
Proof.
  intros Hsorted Hnow s. assert (hints_inv window ops s) as [Hw Hy].
  { subst s. clear Hnow. unfold run. induction ops as [|o ops IH] using rev_ind; [by split|].
    apply StronglySorted_app in Hsorted as (Ho & Hsorted & _). rewrite foldl_app. apply hints_inv_step; [|by apply IH].
    intros o' Ho'. apply Ho; set_solver. }
  specialize (Hy replica now Hnow). unfold value_of, state_of, HintedHandoff.replay, HintedHandoff._expire.
  split_and!; [| |done].
  - rewrite bind_modify, bind_get, bind_put, run_ret. cbn [snd HintedHandoff.hints HintedHandoff.hint_window].
    rewrite d_getd_set, bool_decide_true by done. rewrite Hw. do 2 f_equal. exact Hy.
  - rewrite !bind_modify, !bind_get, !bind_put, !run_ret. cbn [fst snd HintedHandoff.hints HintedHandoff.hint_window].
    by rewrite !d_getd_set, !bool_decide_true by done.
Qed.

Lemma handoff_exactly_once_witness :
  value_of (HintedHandoff.replay "r" 12)
    (run hint_step [Store "r" 1 "a"; Store "q" 2 "b"; Store "r" 5 "c"; Pending "r" 9; Store "r" 10 "d"] (HintedHandoff.mk 8 []))
  = Ok ["c"; "d"]%string.
Proof.
  refine (eq_trans (proj1 (handoff_exactly_once 8 [Store "r" 1 "a"; Store "q" 2 "b"; Store "r" 5 "c"; Pending "r" 9; Store "r" 10 "d"]
    "r" 12 _ _)) _).
  - repeat constructor; cbn; lia.
  - apply Forall_forall. repeat constructor; cbn; lia.
  - vm_compute. reflexivity.
Defined.

(** ** The chain *)

Section chains.
Import ChainReplication.
Implicit Types (s : ChainReplication.t) (l : list string).

Lemma remove_first_filter node l : NoDup l → remove_first node l = filter (.≠ node) l.
Proof.
  induction 1 as [|x l Hx Hl IH]; [done|]. cbn [remove_first]. rewrite filter_cons. case_bool_decide as Heq.
  - rewrite decide_False by naive_solver. symmetry. apply list_filter_all. intros y Hy ->. by subst.
  - by rewrite decide_True, IH.
Qed.

Lemma py_index_ends x l : py_index (x :: l) 0 = Ok x ∧ py_index (x :: l) (-1) = Ok (List.last (x :: l) x).
Proof.
  split; [done|]. destruct (exists_last (l := x :: l)) as (l' & y & Heq); [done|]. rewrite Heq.
  by rewrite py_index_last, List.last_last.
Qed.

Lemma chain_fail_run s node : NoDup (chain s) →
  (state_of (fail node) s).(chain) = filter (.≠ node) (chain s)
  ∧ (is_ok (value_of (fail node) s) = true ↔ node ∈ chain s ∧ filter (.≠ node) (chain s) ≠ []).
Proof.
  intros Hd. unfold state_of, value_of, fail. rewrite bind_get, bind_raise_if.
  case_bool_decide as Hin; cbn [negb fst snd].
  2: { split; [|naive_solver]. symmetry. apply list_filter_all. by intros x Hx ->. }
  destruct (chain s) as [|x l] eqn:Hs; [by apply elem_of_nil in Hin|]. unfold head, tail. rewrite Hs.
  destruct (py_index_ends x l) as [-> ->]. rewrite !bind_pure_of, bind_put, bind_get, bind_raise_if. cbn [chain].
  rewrite (remove_first_filter node (x :: l)) by done. set (l' := filter _ _).
  case_bool_decide as Hl'; cbn [fst snd chain]; [naive_solver|].
  assert (∃ y l'', l' = y :: l'') as (y & l'' & Hy) by (destruct l' as [|y l'']; [done|by exists y, l'']).
  rewrite Hy. destruct (py_index_ends y l'') as [H0 H1].
  repeat case_bool_decide; rewrite ?H0, ?H1, ?bind_pure_of, ?run_ret; cbn [fst snd chain]; (split; [done|naive_solver]).
Qed.
End chains.

Definition fail_step (node : string) (s : ChainReplication.t) : ChainReplication.t := state_of (ChainReplication.fail node) s.

(** Also (safety): repairing the chain never reorders it. For any chain of distinct nodes and any sequence
    of failures that leaves somebody, what remains is exactly the nodes that did not fail, in their original
    order; a write is accepted at the first of them only and a read at the last only, and every other node is
    refused; a failure is accepted exactly for a node of the chain that is not the last one alive. *)
Theorem chain_repair_keeps_order chain failed node first rest :
  NoDup chain → filter (λ n, n ∉ failed) chain = first :: rest →
  let s := run fail_step failed (ChainReplication.mk chain) in
  ChainReplication.chain s = first :: rest
  ∧ ChainReplication.write s node
    = (if bool_decide (node = first) then Ok (first, List.last (first :: rest) first) else Err Invalid)
  ∧ ChainReplication.read s node
    = (if bool_decide (node = List.last (first :: rest) first) then Ok node else Err Invalid)
  ∧ (is_ok (value_of (ChainReplication.fail node) s) = true ↔ node ∈ first :: rest ∧ first :: rest ≠ [node]).
Proof.
  intros Hd Hrest s.
  assert (ChainReplication.chain s = filter (λ n, n ∉ failed) chain) as Hs.
  { subst s. clear Hrest first rest. unfold run. induction failed as [|f failed IH] using rev_ind.
    - symmetry. apply list_filter_all. intros x _. apply not_elem_of_nil.
    - rewrite foldl_app. cbn [foldl]. unfold fail_step at 1.
      rewrite (proj1 (chain_fail_run _ f ltac:(rewrite IH; by apply NoDup_filter))), IH, list_filter_filter.
      apply list_filter_iff. intros x. rewrite not_elem_of_app, list_elem_of_singleton. tauto. }
  rewrite Hrest in Hs. destruct (py_index_ends first rest) as [H0 H1].
  assert (Hdr : NoDup (first :: rest)) by (rewrite <- Hrest; by apply NoDup_filter).
  unfold ChainReplication.write, ChainReplication.read, ChainReplication.head, ChainReplication.tail.
  rewrite Hs, H0, H1. cbn [mbind result_bind]. split_and!; [done| | |].
  - repeat case_bool_decide; cbn; subst; congruence.
  - by repeat case_bool_decide.
  - rewrite (proj2 (chain_fail_run s node ltac:(by rewrite Hs))), Hs. split; intros [Hin Hne]; (split; [done|]).
    + intros Heq. apply Hne. rewrite Heq, filter_cons, decide_False by tauto. done.
    + intros Hnil. apply Hne. clear - Hnil Hdr Hin.
      assert (Hall : ∀ x, x ∈ first :: rest → x = node).
      { intros x Hx. destruct (decide (x = node)) as [|Hx']; [done|].
        assert (x ∈ filter (.≠ node) (first :: rest)) as Hf by (by apply list_elem_of_filter). rewrite Hnil in Hf.
        by apply elem_of_nil in Hf. }
      rewrite (Hall first) by (by left). destruct rest as [|y rest]; [done|]. exfalso.
      apply NoDup_cons in Hdr as [Hn _]. apply Hn. rewrite (Hall first), <- (Hall y) by set_solver. by left.
Qed.

Lemma chain_repair_keeps_order_witness :
  ChainReplication.read (run fail_step ["b"; "d"] (ChainReplication.mk ["a"; "b"; "c"; "d"])) "c" = Ok "c"%string.
Proof.
  refine (proj1 (proj2 (proj2 (chain_repair_keeps_order ["a"; "b"; "c"; "d"] ["b"; "d"] "c" "a" ["c"] _ _)))).
  - apply (bool_decide_unpack _). vm_compute. exact I.
  - vm_compute. reflexivity.
Defined.

(** The failure of the last node is reported as [Invalid], but the node is already gone: after it the
    chain routes nothing and every call that needs the head or the tail is an [IndexError]. *)
Theorem chain_emptied_by_refusal :
  let s := state_of (ChainReplication.fail "a") (ChainReplication.mk ["a"]) in
  value_of (ChainReplication.fail "a") (ChainReplication.mk ["a"]) = Err Invalid
  ∧ ChainReplication.write s "a" = Err IndexError ∧ ChainReplication.read s "a" = Err IndexError.
Proof. by vm_compute. Qed.

(** ** The hash ring *)

Section rings.
Context (hash : string → Z).
Import HashRing.
Implicit Types (s : HashRing.t) (r : gmap Z string) (key node : string).

(** [p] comes no later than [q] going clockwise from [h] *)
Definition clockwise (h p q : Z) : Prop := (h <= p ∧ (q < h ∨ p <= q)) ∨ (p < h ∧ q < h ∧ p <= q).

Definition successor (h : Z) r p : Prop := is_Some (r !! p) ∧ ∀ q, is_Some (r !! q) → clockwise h p q.

Definition position key : Z := Z.land (hash key) 0x7FFFFFFF.

Lemma points_elem r p : p ∈ points_of r ↔ is_Some (r !! p).
Proof.
  unfold points_of. rewrite py_sorted_elem_of, list_elem_of_fmap. split.
  - intros ([q n] & -> & Hq%elem_of_map_to_list). by exists n.
  - intros [n Hn]. exists (p, n). split; [done|]. by apply elem_of_map_to_list.
Qed.

Lemma points_sorted r : StronglySorted Z.le (points_of r).
Proof. apply Sorted_StronglySorted; [apply _|]. apply py_sorted_Sorted, _. Qed.

Lemma find_sorted h l : StronglySorted Z.le l →
  match List.find (λ p, h <=? p) l with
  | Some p => p ∈ l ∧ h <= p ∧ ∀ q, q ∈ l → h <= q → p <= q
  | None => ∀ q, q ∈ l → q < h
  end.
Proof.
  induction 1 as [|x l Hl IH Hx]; cbn [List.find]; [intros q Hq; by apply elem_of_nil in Hq|].
  rewrite Forall_forall in Hx. destruct (Z.leb_spec h x) as [Hle|Hlt].
  - split_and!; [by left|done|]. intros q [->|Hq]%elem_of_cons _; [done|by apply Hx].
  - destruct (List.find _ l) as [p|].
    + destruct IH as (Hin & Hp & Hmin). split_and!; [by right|done|]. intros q [->|Hq]%elem_of_cons Hhq; [lia|by apply Hmin].
    + intros q [->|Hq]%elem_of_cons; [done|by apply IH].
Qed.

Lemma node_for_spec s key :
  (ring s = ∅ ∧ node_for hash s key = Err Invalid)
  ∨ ∃ p n, successor (position key) (ring s) p ∧ ring s !! p = Some n ∧ node_for hash s key = Ok n.
Proof.
  unfold node_for. fold (position key). set (h := position key). pose proof (points_sorted (ring s)) as Hs.
  pose proof (points_elem (ring s)) as Hin. destruct (points_of (ring s)) as [|p0 ps].
  - left. split; [|done]. apply map_eq. intros p. rewrite lookup_empty.
    destruct (ring s !! p) eqn:Hp; [|done]. exfalso. by apply (elem_of_nil p), Hin.
  - right. pose proof (find_sorted h (p0 :: ps) Hs) as Hf. apply StronglySorted_inv in Hs as [_ Hmin]. rewrite Forall_forall in Hmin.
    destruct (List.find _ (p0 :: ps)) as [p|]; cbn [from_option id].
    + destruct Hf as (Hp & Hhp & Hleast). pose proof (proj1 (Hin p) Hp) as [n Hn]. exists p, n. rewrite Hn.
      split; [|split; done]. split; [by exists n|]. intros q Hq%Hin. specialize (Hleast q Hq). unfold clockwise. lia.
    + pose proof (proj1 (Hin p0) ltac:(by left)) as [n Hn]. exists p0, n. rewrite Hn.
      split; [|split; done]. split; [by exists n|]. intros q Hq%Hin. pose proof (Hf q Hq).
      pose proof (Hf p0 ltac:(by left)). apply elem_of_cons in Hq as [->|Hq]; [unfold clockwise; lia|].
      specialize (Hmin q Hq). unfold clockwise. lia.
Qed.

Lemma successor_unique h r p q : successor h r p → successor h r q → p = q.
Proof. intros [Hp Hp'] [Hq Hq']. specialize (Hp' q Hq). specialize (Hq' p Hp). unfold clockwise in *. lia. Qed.

Lemma place_all_lookup node points r p :
  foldl (λ r p, <[p := node]> r) r points !! p = if decide (p ∈ points) then Some node else r !! p.
Proof.
  induction points as [|q points IH] using rev_ind; [by rewrite decide_False by apply not_elem_of_nil|].
  rewrite foldl_app. cbn [foldl]. destruct (decide (p = q)) as [->|Hne].
  - rewrite lookup_insert_eq, decide_True; [done|]. set_solver.
  - rewrite lookup_insert_ne, IH by done. repeat case_decide; set_solver.
Qed.

Inductive ring_op := RAdd (node : string) | RRemove (node : string).

Definition ring_step (o : ring_op) s : t :=
  match o with RAdd node => state_of (add hash node) s | RRemove node => state_of (remove node) s end.

Lemma add_ring_run s node :
  add hash node s = if bool_decide (node ∈ nodes s) then (s, Err Invalid)
    else (mk (vnodes s) (foldl (λ r p, <[p := node]> r) (ring s) (_points hash s node)) (nodes s ∪ {[node]}), Ok ()).
Proof. unfold add. rewrite bind_get, bind_raise_if. by case_bool_decide. Qed.

(** only nodes on the ring own points *)
Definition owners_ok s : Prop := ∀ p n, ring s !! p = Some n → n ∈ nodes s.

Lemma owners_ok_step o s : owners_ok s → owners_ok (ring_step o s).
Proof.
  intros Hs. destruct o as [node|node]; cbn [ring_step]; unfold state_of.
  - rewrite add_ring_run. case_bool_decide; [done|]. intros p n. cbn. rewrite place_all_lookup.
    case_decide; [intros [= <-]; set_solver|]. intros Hp%Hs. set_solver.
  - unfold remove. rewrite run_modify. intros p n. cbn. rewrite map_lookup_filter_Some. intros [Hp Hn].
    apply Hs in Hp. cbn in Hn. set_solver.
Qed.
End rings.

(** Also (functional): the ring moves as few keys as it can. For any hash function, collisions included, and any
    ring reachable by adding and removing nodes: a key is placed on a node of the ring; adding a node moves a key
    to the new node or leaves it where it was; removing a node leaves every key of the other nodes where it was;
    adding a node twice is refused with nothing changed; and only a ring without points refuses a key. *)
Theorem ring_minimal_disruption hash vnodes ops key node n :
  let s := run (ring_step hash) ops (HashRing.mk vnodes ∅ ∅) in
  HashRing.node_for hash s key = Ok n →
  n ∈ HashRing.nodes s
  ∧ (HashRing.node_for hash (ring_step hash (RAdd node) s) key = Ok n
     ∨ node ∉ HashRing.nodes s ∧ HashRing.node_for hash (ring_step hash (RAdd node) s) key = Ok node)
  ∧ (n ≠ node → HashRing.node_for hash (ring_step hash (RRemove node) s) key = Ok n)
  ∧ (node ∈ HashRing.nodes s → HashRing.add hash node s = (s, Err Invalid)).
Proof.
  intros s Hn. assert (owners_ok s) as Hown.
  { subst s. clear. apply run_invariant; [apply owners_ok_step|]. intros p n. cbn. by rewrite lookup_empty. }
  destruct (node_for_spec hash s key) as [[_ Hbad]|(p & n' & Hsucc & Hp & Hfor)]; [congruence|].
  rewrite Hfor in Hn. simplify_eq. split_and!; [by eapply Hown| | |].
  - cbn [ring_step]. unfold state_of. rewrite add_ring_run. case_bool_decide as Hin; [by left|].
    cbn [fst]. set (s' := HashRing.mk _ _ _).
    assert (Hlook : ∀ q, HashRing.ring s' !! q = if decide (q ∈ HashRing._points hash s node) then Some node else HashRing.ring s !! q)
      by (intros q; apply (place_all_lookup hash node (HashRing._points hash s node) (HashRing.ring s) q)).
    destruct (node_for_spec hash s' key) as [[Hempty _]|(p' & n' & Hsucc' & Hp' & ->)].
    { exfalso. specialize (Hlook p). rewrite Hempty, lookup_empty, Hp in Hlook. by case_decide. }
    rewrite Hlook in Hp'. case_decide as Hnew; [right; split; [done|congruence]|left].
    assert (p' = p) as ->; [|congruence]. apply (successor_unique (position hash key) (HashRing.ring s)); [|done].
    split; [by exists n'|]. intros q Hq. apply Hsucc'. rewrite Hlook. by case_decide.
  - intros Hne. cbn [ring_step]. unfold state_of, HashRing.remove. rewrite run_modify. cbn [fst]. set (s' := HashRing.mk _ _ _).
    assert (Hlook : ∀ q m, HashRing.ring s' !! q = Some m ↔ HashRing.ring s !! q = Some m ∧ m ≠ node)
      by (intros q m; apply map_lookup_filter_Some).
    destruct (node_for_spec hash s' key) as [[Hempty _]|(p' & n' & Hsucc' & Hp' & ->)].
    { exfalso. assert (HashRing.ring s' !! p = Some n) as Hk by (by apply Hlook). by rewrite Hempty, lookup_empty in Hk. }
    assert (p' = p) as ->; [|apply Hlook in Hp'; destruct Hp'; congruence].
    apply (successor_unique (position hash key) (HashRing.ring s')); [done|].
    split; [exists n; by apply Hlook|]. intros q [m Hq]. apply Hsucc. apply Hlook in Hq as [Hq _]. by exists m.
  - intros Hin. rewrite add_ring_run. by rewrite bool_decide_true.
Qed.

Lemma ring_minimal_disruption_witness :
  let h s := Z.of_nat (String.length s) in
  "bb"%string ∈ HashRing.nodes (run (ring_step h) [RAdd "bb"; RAdd "dddd"] (HashRing.mk 1 ∅ ∅)).
Proof.
  intros h.
  refine (proj1 (ring_minimal_disruption h 1 [RAdd "bb"; RAdd "dddd"] "k" "x" "bb" _)).
  vm_compute. reflexivity.
Defined.

(** A point claimed by two nodes belongs to the later one, and leaves with it: the earlier node
    stays a member of the ring with nothing left of its share. *)
Theorem ring_collision_loses_share :
  let h := λ _, 7 in
  let s := run (ring_step h) [RAdd "a"; RAdd "b"; RRemove "b"] (HashRing.mk 3 ∅ ∅) in
  HashRing.nodes s = {["a"]} ∧ HashRing.node_for h s "k" = Err Invalid.
Proof. split; [|by vm_compute]. apply (bool_decide_unpack _). by vm_compute. Qed.

(** ** Optimistic writes *)

(** A client reads, then tries to write a function of what it read. *)
Inductive client_op := ClientRead (c : nat) | ClientWrite (c : nat).

Record clients := mk_clients { shared : OptimisticValue.t; seen : gmap nat (Z * Z); done_by : list nat }.

Definition client_step (f : nat → Z → Z) (o : client_op) (s : clients) : clients :=
  match o with
  | ClientRead c => mk_clients (shared s) (<[c := OptimisticValue.read (shared s)]> (seen s)) (done_by s)
  | ClientWrite c =>
      match seen s !! c with
      | Some (v, ver) =>
          let '(o, r) := OptimisticValue.compare_and_set ver (f c v) (shared s) in
          mk_clients o (seen s) (done_by s ++ (if is_ok r then [c] else []))
      | None => s
      end
  end.

(** Also (safety): optimistic writes are serializable. For any number of clients, each any number of times
    reading the value and later trying to write any function of what it read, however they interleave, the value
    is the result of applying the functions of the successful writes one after the other, in the order they
    succeeded: no update is lost; the version and the commit count are the number of these, and a write on a
    stale version fails, counts a conflict and changes neither value nor version. *)
Theorem optimistic_serializable f ops ver v :
  let s := run (client_step f) ops (mk_clients OptimisticValue.make ∅ []) in
  OptimisticValue.value (shared s) = foldl (λ v c, f c v) 0 (done_by s)
  ∧ OptimisticValue.version (shared s) = zlen (done_by s) ∧ OptimisticValue.commits (shared s) = zlen (done_by s)
  ∧ (ver ≠ OptimisticValue.version (shared s) →
     value_of (OptimisticValue.compare_and_set ver v) (shared s) = Err Invalid
     ∧ OptimisticValue.read (state_of (OptimisticValue.compare_and_set ver v) (shared s)) = OptimisticValue.read (shared s)
     ∧ OptimisticValue.conflicts (state_of (OptimisticValue.compare_and_set ver v) (shared s)) = OptimisticValue.conflicts (shared s) + 1).
Proof.
  assert (Hcas : ∀ o ver v, OptimisticValue.compare_and_set ver v o
    = if ver =? OptimisticValue.version o
      then (OptimisticValue.mk v (OptimisticValue.version o + 1) (OptimisticValue.conflicts o) (OptimisticValue.commits o + 1), Ok ())
      else (OptimisticValue.mk (OptimisticValue.value o) (OptimisticValue.version o) (OptimisticValue.conflicts o + 1) (OptimisticValue.commits o), Err Invalid)).
  { intros o ver' v'. unfold OptimisticValue.compare_and_set. rewrite bind_get. by destruct (ver' =? _). }
  set (vals := λ l : list nat, foldl (λ v c, f c v) 0 l).
  set (I := λ s, OptimisticValue.value (shared s) = vals (done_by s) ∧ OptimisticValue.version (shared s) = zlen (done_by s)
    ∧ OptimisticValue.commits (shared s) = zlen (done_by s)
    ∧ ∀ c w ver, seen s !! c = Some (w, ver) → ver <= zlen (done_by s) ∧ (ver = zlen (done_by s) → w = vals (done_by s))).
  intros s. assert (I s) as (Hv & Hver & Hcom & _).
  { subst s. apply run_invariant.
    - intros [c|c] s (Hv & Hver & Hcom & Hseen); cbn [client_step].
      + split_and!; [done..|]. intros c' w ver'. cbn [seen done_by]. destruct (decide (c' = c)) as [->|].
        * rewrite lookup_insert_eq. intros [= <- <-]. rewrite Hv, Hver. split; [lia|done].
        * rewrite lookup_insert_ne by done. apply Hseen.
      + destruct (seen s !! c) as [[w ver']|] eqn:Hc; [|by split_and!]. rewrite Hcas. destruct (Hseen c w ver' Hc) as [Hle Hw].
        destruct (Z.eqb_spec ver' (OptimisticValue.version (shared s))) as [Heq|Hne]; unfold I; cbn [shared seen done_by is_ok OptimisticValue.value OptimisticValue.version OptimisticValue.commits].
        * rewrite zlen_app. change (zlen [c]) with 1. unfold vals. rewrite foldl_app. cbn [foldl]. fold (vals (done_by s)).
          split_and!; [f_equal; apply Hw; lia|lia|lia|]. intros c' w' ver'' Hc'. destruct (Hseen c' w' ver'' Hc'). lia.
        * rewrite app_nil_r. by split_and!.
    - split_and!; try done. }
  split_and!; [done..|]. intros Hne. unfold value_of, state_of. rewrite Hcas.
  destruct (Z.eqb_spec ver (OptimisticValue.version (shared s))); [done|]. done.
Qed.

(** ** Read repair and quorums *)

(** Also (functional): read repair returns a newest value and repairs exactly the replicas behind it. *)
Theorem read_repair_exact r rs :
  ∃ newest behind, readrepair.resolve (r :: rs) = Ok (readrepair.value newest, behind)
  ∧ newest ∈ r :: rs ∧ (∀ x, x ∈ r :: rs → readrepair.version x <= readrepair.version newest)
  ∧ (∀ name, name ∈ behind ↔ ∃ x, x ∈ r :: rs ∧ readrepair.replica x = name ∧ readrepair.version x < readrepair.version newest).
Proof.
  exists (readrepair.newest_of r rs). eexists. split; [done|].
  assert (readrepair.newest_of r rs ∈ r :: rs ∧ ∀ x, x ∈ r :: rs → readrepair.version x <= readrepair.version (readrepair.newest_of r rs)) as [Hin Hmax].
  { induction rs as [|x rs [IH IHm]] using rev_ind.
    - split; [by left|]. intros y ->%list_elem_of_singleton. done.
    - unfold readrepair.newest_of in *. rewrite foldl_app. cbn [foldl]. set (b := foldl _ r rs) in *.
      assert (Hcase : ∀ y, y ∈ r :: rs ++ [x] → y = x ∨ readrepair.version y <= readrepair.version b).
      { intros y Hy. rewrite app_comm_cons, elem_of_app, list_elem_of_singleton in Hy. destruct Hy as [Hy|Hy]; [right; by apply IHm|by left]. }
      destruct (Z.ltb_spec (readrepair.version b) (readrepair.version x)); (split; [rewrite app_comm_cons, elem_of_app, list_elem_of_singleton; tauto|]);
        intros y Hy; destruct (Hcase y Hy) as [->|?]; lia. }
  split_and!; [done|done|]. intros name. rewrite list_elem_of_fmap. split.
  - intros (x & -> & Hx%list_elem_of_In). apply filter_In in Hx as [Hx%list_elem_of_In Hlt%Z.ltb_lt]. by exists x.
  - intros (x & Hx & <- & Hlt). exists x. split; [done|]. apply list_elem_of_In, filter_In.
    split; [by apply list_elem_of_In|by apply Z.ltb_lt].
Qed.

(** A sloppy write that resolves used exactly the write quorum's number of nodes, substitutes only for
    natural replicas that are missing; and one fails exactly when there are not enough nodes at all. *)
Theorem sloppy_quorum_exact w n s q :
  sloppyquorum.make w n s = Ok q →
  match sloppyquorum.resolve q with
  | Ok (natural, substitutes) => natural + substitutes = w ∧ 0 <= natural <= n ∧ 0 <= substitutes <= s ∧ (n < w → natural = n)
  | Err e => e = Invalid ∧ n + s < w
  end.
Proof.
  unfold sloppyquorum.make. destruct (Z.ltb_spec w 1); [done|]. destruct (Z.ltb_spec n 0); [done|]. destruct (Z.ltb_spec s 0); [done|].
  cbn [orb]. intros [= <-].
  unfold sloppyquorum.resolve, sloppyquorum.substitutes_used, sloppyquorum.outcome, sloppyquorum.CLEAN, sloppyquorum.SLOPPY, sloppyquorum.FAILED. cbn.
  destruct (Z.leb_spec w n); [|destruct (Z.leb_spec w (n + s))].
  - change (bool_decide ("clean"%string = "clean"%string)) with true. cbn. lia.
  - change (bool_decide ("sloppy"%string = "clean"%string)) with false.
    change (bool_decide ("sloppy"%string = "failed"%string)) with false.
    change (bool_decide ("sloppy"%string = "sloppy"%string)) with true. cbn. lia.
  - change (bool_decide ("failed"%string = "clean"%string)) with false.
    change (bool_decide ("failed"%string = "failed"%string)) with true. cbn. split; [done|lia].
Qed.
