(* ===== verification/GroupProtocol.v ===== *)
(** * The steps of the group protocol

    [relay/joingroup.py] gathers the members of a generation, [relay/syncgroup.py] distributes the
    leader's plan, [relay/groupstate.py] and [relay/groupgeneration.py] say when a member may
    consume and which requests are stale, [relay/heartbeatsignal.py] answers heartbeats;
    [relay/assignmentcheck.py] validates an assignment, [relay/rebalancedelay.py] batches joins,
    [relay/groupmaxsize.py] caps a group, [relay/deletegroup.py] deletes one,
    [relay/findcoordinator.py] locates its coordinator, and [relay/staticassignor.py],
    [relay/taskassignment.py] and [relay/standbytask.py] place partitions and tasks by hand. *)

From S2P Require Import Prelude PyDict PyBytes PyFloat Rebalance.
Import Rebalance.rangeassign.

Module joingroup.
Module JoinPhase.
(** [relay/joingroup.py] class JoinPhase *)
Record t := mk {
  generation : Z;
  window_open : bool;
  members : list string;
  strategies : pydict string (list string);
}.

Definition make (generation : Z) : t := mk generation true [] [].

(** the answers of [join]: the generation it is folded into, or whether it leads this one *)
Inductive joined := Folded (generation : Z) | Joined (leader : bool) (generation : Z).

(** [relay/joingroup.py] JoinPhase.join *)
Definition join (member : string) (supported : list string) : act t joined :=
  self ← get;
  if negb (window_open self) then mret (Folded (generation self + 1))
  else
    modify (λ self, mk (generation self) (window_open self)
      (if bool_decide (member ∈ members self) then members self else members self ++ [member]) (strategies self));;
    modify (λ self, mk (generation self) (window_open self) (members self) (d_set (strategies self) member supported));;
    self ← get;
    first ← pure_of (py_index (members self) 0);
    mret (Joined (bool_decide (first = member)) (generation self)).

(** [relay/joingroup.py] JoinPhase.leader *)
Definition leader (self : t) : result string :=
  match members self with [] => Err Invalid | m :: _ => Ok m end.

(** [all(strategy in self.strategies[m] for m in self.members)] *)
Fixpoint all_support (strategies : pydict string (list string)) (strategy : string) (members : list string) : result bool :=
  match members with
  | [] => Ok true
  | m :: members =>
      supported ← d_item strategies m;
      if bool_decide (strategy ∈ supported) then all_support strategies strategy members else Ok false
  end.

(** [relay/joingroup.py:69-71] JoinPhase.choose_strategy *)
Fixpoint first_common (strategies : pydict string (list string)) (members : list string) (prefs : list string) : result string :=
  match prefs with
  | [] => Err Invalid
  | strategy :: prefs =>
      all ← all_support strategies strategy members;
      if all : bool then Ok strategy else first_common strategies members prefs
  end.

(** [relay/joingroup.py] JoinPhase.choose_strategy *)
Definition choose_strategy (self : t) : result string :=
  match members self with
  | [] => Err Invalid
  | m :: _ =>
      leader_prefs ← d_item (strategies self) m;
      first_common (strategies self) (members self) leader_prefs
  end.

(** [relay/joingroup.py] JoinPhase.close_window: the leader, the strategy and the number of members *)
Definition close_window : act t (string * string * Z) :=
  modify (λ self, mk (generation self) false (members self) (strategies self));;
  self ← get;
  l ← pure_of (leader self);
  strategy ← pure_of (choose_strategy self);
  mret (l, strategy, zlen (members self)).
End JoinPhase.
End joingroup.
Import joingroup.

Module syncgroup.
Module SyncPhase.
(** [relay/syncgroup.py] class SyncPhase *)
Record t := mk { leader : string; members : gset string; assignment : pydict string (list Z); submitted : bool }.

Definition make (leader : string) (members : gset string) : t := mk leader members [] false.

(** [relay/syncgroup.py:56-64] SyncPhase.submit *)
Fixpoint no_overlap (seen : gset Z) (parts : list Z) : result (gset Z) :=
  match parts with
  | [] => Ok seen
  | p :: parts => if bool_decide (p ∈ seen) then Err Invalid else no_overlap (seen ∪ {[p]}) parts
  end.

(** [relay/syncgroup.py] SyncPhase.submit *)
Definition submit (member : string) (plan : pydict string (list Z)) : act t unit :=
  self ← get;
  raise_if (negb (bool_decide (member = leader self))) Invalid;;
  raise_if (negb (bool_decide (list_to_set (d_keys plan) = members self))) Invalid;;
  pure_of (no_overlap ∅ (mjoin (d_values plan)));;
  put (mk (leader self) (members self) plan true).

(** [relay/syncgroup.py] SyncPhase.slice_for *)
Definition slice_for (self : t) (member : string) : result (list Z) :=
  if negb (submitted self) then Err Invalid
  else if negb (bool_decide (member ∈ members self)) then Err Invalid
  else Ok (d_getd (assignment self) member []).

(** [relay/syncgroup.py] SyncPhase.shares: the spread in the message *)
Definition shares (self : t) : result Z :=
  match (λ m, zlen (d_getd (assignment self) m [])) <$> elements (members self) with
  | [] => Err ValueError
  | c :: counts => Ok (py_max c counts - py_min c counts)
  end.
End SyncPhase.
End syncgroup.
Import syncgroup.

Module groupstate.
(** [relay/groupstate.py] EMPTY *)
Definition EMPTY : string := "Empty".
(** [relay/groupstate.py] PREPARING *)
Definition PREPARING : string := "PreparingRebalance".
(** [relay/groupstate.py] COMPLETING *)
Definition COMPLETING : string := "CompletingRebalance".
(** [relay/groupstate.py] STABLE *)
Definition STABLE : string := "Stable".

(** [relay/groupstate.py] ALLOWED *)
Definition ALLOWED : pydict string (list string) :=
  [(EMPTY, [PREPARING]); (PREPARING, [COMPLETING; EMPTY]); (COMPLETING, [STABLE; PREPARING]); (STABLE, [PREPARING])].

Module GroupStateMachine.
(** [relay/groupstate.py] class GroupStateMachine *)
Record t := mk { state : string; generation : Z }.

Definition make : t := mk EMPTY 0.

(** [relay/groupstate.py] GroupStateMachine.transition *)
Definition transition (target : string) : act t unit :=
  self ← get;
  raise_if (negb (bool_decide (target ∈ d_getd ALLOWED (state self) []))) Invalid;;
  modify (λ self, mk (state self) (if bool_decide (target = PREPARING) then generation self + 1 else generation self));;
  modify (λ self, mk target (generation self)).

(** [relay/groupstate.py] GroupStateMachine.may_consume *)
Definition may_consume (self : t) : bool := bool_decide (state self = STABLE).

(** [relay/groupstate.py] GroupStateMachine.commit *)
Definition commit (self : t) (generation_ : Z) : result unit :=
  if negb (bool_decide (state self = STABLE)) then Err Invalid
  else if generation_ <? generation self then Err Invalid
  else Ok ().
End GroupStateMachine.
End groupstate.
Import groupstate.

Module groupgeneration.
Module GroupGeneration.
(** [relay/groupgeneration.py] class GroupGeneration *)
Record t := mk { generation : Z; last_reason : string }.

Definition make : t := mk 0 "initial".

(** [relay/groupgeneration.py] GroupGeneration.rebalance *)
Definition rebalance (reason : string) : act t Z :=
  modify (λ self, mk (generation self + 1) reason);;
  self ← get;
  mret (generation self).

(** [relay/groupgeneration.py] GroupGeneration.admit *)
Definition admit_ (self : t) (member_generation : Z) : result unit :=
  if member_generation <? generation self then Err Invalid
  else if generation self <? member_generation then Err Invalid
  else Ok ().

(** [relay/groupgeneration.py] GroupGeneration.note *)
Definition note (self : t) : string :=
  "generation " +:+ zs (generation self) +:+ ", last rebalance: " +:+ last_reason self
  +:+ "; a generation climbing fast is a group rebalancing in a loop, churning assignments faster than it makes progress".
End GroupGeneration.
End groupgeneration.
Import groupgeneration.

Module heartbeatsignal.
(** [relay/heartbeatsignal.py] ACK *)
Definition ACK : string := "acknowledged".
(** [relay/heartbeatsignal.py] REBALANCE *)
Definition REBALANCE : string := "rebalance-in-progress".

Module HeartbeatCoordinator.
(** [relay/heartbeatsignal.py] class HeartbeatCoordinator *)
Record t := mk { generation : Z; rebalancing : bool; members : gset string }.

(** [relay/heartbeatsignal.py] HeartbeatCoordinator.register *)
Definition register (member : string) : act t unit :=
  modify (λ self, mk (generation self) (rebalancing self) (members self ∪ {[member]})).

(** [relay/heartbeatsignal.py] HeartbeatCoordinator.start_rebalance *)
Definition start_rebalance : act t unit := modify (λ self, mk (generation self) true (members self)).

(** [relay/heartbeatsignal.py] HeartbeatCoordinator.complete_rebalance *)
Definition complete_rebalance : act t unit :=
  modify (λ self, mk (generation self + 1) false (members self)).

(** [relay/heartbeatsignal.py] HeartbeatCoordinator.heartbeat *)
Definition heartbeat (self : t) (member : string) (member_generation : Z) : result string :=
  if negb (bool_decide (member ∈ members self)) then Err Invalid
  else if member_generation <? generation self then Err Fenced
  else if rebalancing self then Ok REBALANCE
  else Ok ACK.
End HeartbeatCoordinator.
End heartbeatsignal.
Import heartbeatsignal.

Module assignmentcheck.
Module AssignmentValidator.
(** [relay/assignmentcheck.py] class AssignmentValidator *)
Record t := mk { all_partitions : gset Z }.

(** [relay/assignmentcheck.py:43-45] AssignmentValidator.double_owned *)
Definition owners_of (assignment : pydict string (gset Z)) : pydict Z (list string) :=
  foldl (λ owners (p : Z * string), d_set owners p.1 (d_getd owners p.1 [] ++ [p.2])) []
    (mjoin ((λ mp : string * gset Z, (λ partition, (partition, mp.1)) <$> elements mp.2) <$> assignment)).

(** [relay/assignmentcheck.py] AssignmentValidator.double_owned *)
Definition double_owned (assignment : pydict string (gset Z)) : pydict Z (list string) :=
  (λ p : Z * list string, (p.1, py_sorted String.le p.2)) <$>
    List.filter (λ p : Z * list string, 1 <? zlen p.2) (owners_of assignment).

(** [relay/assignmentcheck.py] AssignmentValidator.orphaned *)
Definition orphaned (self : t) (assignment : pydict string (gset Z)) : gset Z :=
  all_partitions self ∖ ⋃ d_values assignment.

(** [relay/assignmentcheck.py] AssignmentValidator.validate: the count in the message *)
Definition validate (self : t) (assignment : pydict string (gset Z)) : result Z :=
  let double := double_owned assignment in
  let orphans := orphaned self assignment in
  if bool_decide (double ≠ []) || bool_decide (orphans ≠ ∅) then Err Invalid
  else Ok (Z.of_nat (size (all_partitions self))).
End AssignmentValidator.
End assignmentcheck.
Import assignmentcheck.

Module rebalancedelay.
Module RebalanceDelay.
(** [relay/rebalancedelay.py] class RebalanceDelay *)
Record t := mk { base_delay : Z; max_delay : Z; started_at : Z; ready_at : Z; batched : Z }.

(** [relay/rebalancedelay.py] RebalanceDelay.__post_init__ *)
Definition make (base_delay max_delay : Z) : result t :=
  if (base_delay <? 0) || (max_delay <? 0) then Err Invalid
  else if max_delay <? base_delay then Err Invalid
  else Ok (mk base_delay max_delay (-1) (-1) 0).

(** [relay/rebalancedelay.py] RebalanceDelay.on_join: the time in the message *)
Definition on_join (now : Z) : act t Z :=
  self ← get;
  if started_at self <? 0 then
    put (mk (base_delay self) (max_delay self) now (now + base_delay self) 1);;
    self ← get; mret (ready_at self)
  else
    let extended := Z.min (now + base_delay self) (started_at self + max_delay self) in
    put (mk (base_delay self) (max_delay self) (started_at self) (Z.max (ready_at self) extended) (batched self + 1));;
    self ← get; mret (ready_at self).

(** [relay/rebalancedelay.py] RebalanceDelay.ready *)
Definition ready (self : t) (now : Z) : bool := (0 <=? started_at self) && (ready_at self <=? now).

(** [relay/rebalancedelay.py] RebalanceDelay.status *)
Definition status (self : t) (now : Z) : string :=
  if started_at self <? 0 then "empty group; no rebalance pending"
  else if ready self now then
    "ready: rebalancing once with " +:+ zs (batched self) +:+ " member(s) batched, the herd of per-member rebalances prevented"
  else "collecting " +:+ zs (batched self) +:+ " member(s), rebalance at " +:+ zs (ready_at self).
End RebalanceDelay.
End rebalancedelay.
Import rebalancedelay.

Module groupmaxsize.
Module GroupSizeLimiter.
(** [relay/groupmaxsize.py] class GroupSizeLimiter *)
Record t := mk { partition_count : Z; standby_margin : Z; members : gset string }.

(** [relay/groupmaxsize.py] GroupSizeLimiter.__post_init__ *)
Definition make (partition_count standby_margin : Z) : result t :=
  if (partition_count <? 1) || (standby_margin <? 0) then Err Invalid else Ok (mk partition_count standby_margin ∅).

(** [relay/groupmaxsize.py] GroupSizeLimiter.cap *)
Definition cap (self : t) : Z := partition_count self + standby_margin self.

(** [relay/groupmaxsize.py] GroupSizeLimiter.join *)
Definition join (member : string) : act t unit :=
  self ← get;
  if bool_decide (member ∈ members self) then mret ()
  else
    raise_if (cap self <=? Z.of_nat (size (members self))) Invalid;;
    put (mk (partition_count self) (standby_margin self) (members self ∪ {[member]})).

(** [relay/groupmaxsize.py] GroupSizeLimiter.leave *)
Definition leave (member : string) : act t unit :=
  modify (λ self, mk (partition_count self) (standby_margin self) (members self ∖ {[member]})).

(** [relay/groupmaxsize.py] GroupSizeLimiter.utilization: working, idle, and the percentage *)
Definition utilization (self : t) : Z * Z * Z :=
  let n := Z.of_nat (size (members self)) in
  let working := Z.min n (partition_count self) in
  (working, Z.max 0 (n - partition_count self), 100 * working / Z.max n 1).
End GroupSizeLimiter.
End groupmaxsize.
Import groupmaxsize.

Module deletegroup.
Module GroupRegistry.
(** [relay/deletegroup.py] class GroupRegistry *)
Record t := mk { members : gmap string Z; offset_partitions : gmap string Z; deleted : gset string }.

(** [relay/deletegroup.py] GroupRegistry.delete: the number of partitions in the message *)
Definition delete (group_id : string) : act t Z :=
  self ← get;
  raise_if (bool_decide (group_id ∈ deleted self)) Invalid;;
  match members self !! group_id with
  | None => raise Missing
  | Some live =>
      raise_if (0 <? live) Invalid;;
      let discarded := default 0 (offset_partitions self !! group_id) in
      put (mk (base.delete group_id (members self)) (base.delete group_id (offset_partitions self))
              (deleted self ∪ {[group_id]}));;
      mret discarded
  end.
End GroupRegistry.
End deletegroup.
Import deletegroup.

Module findcoordinator.
Module CoordinatorMap.
Section coordinator_map.
Context (hash : string → Z).

(** [relay/findcoordinator.py] class CoordinatorMap *)
Record t := mk { offsets_partitions : Z; leaders : gmap Z (option string) }.

(** [relay/findcoordinator.py] CoordinatorMap.__post_init__ *)
Definition make (offsets_partitions : Z) (leaders : gmap Z (option string)) : result t :=
  if offsets_partitions <? 1 then Err Invalid else Ok (mk offsets_partitions leaders).

(** [relay/findcoordinator.py] CoordinatorMap.partition_for *)
Definition partition_for (self : t) (group_id : string) : Z :=
  Z.land (hash group_id) 0x7FFFFFFF mod offsets_partitions self.

(** [relay/findcoordinator.py] CoordinatorMap.coordinator_for *)
Definition coordinator_for (self : t) (group_id : string) : result string :=
  match leaders self !! partition_for self group_id with
  | Some (Some leader) => Ok leader
  | _ => Err Invalid
  end.

(** [relay/findcoordinator.py] CoordinatorMap.colocated *)
Definition colocated (self : t) (group_a group_b : string) : bool :=
  partition_for self group_a =? partition_for self group_b.
End coordinator_map.
End CoordinatorMap.
End findcoordinator.
Import findcoordinator.

Module staticassignor.
Module StaticAssignor.
(** [relay/staticassignor.py] class StaticAssignor *)
Record t := mk { owner_of : pydict string string; present : gset string }.

Definition make : t := mk [] ∅.

(** [relay/staticassignor.py] StaticAssignor.assign *)
Definition assign (partition member : string) : act t unit :=
  self ← get;
  raise_if (match d_get (owner_of self) partition with
            | Some existing => negb (bool_decide (existing = member)) | None => false end) Invalid;;
  put (mk (d_set (owner_of self) partition member) (present self)).

(** [relay/staticassignor.py] StaticAssignor.mark_present *)
Definition mark_present (member : string) (present_ : bool) : act t unit :=
  modify (λ self, mk (owner_of self) (if present_ then present self ∪ {[member]} else present self ∖ {[member]})).

(** [relay/staticassignor.py] StaticAssignor.partitions_for *)
Definition partitions_for (self : t) (member : string) : list string :=
  py_sorted String.le (List.filter (λ p : string * string, bool_decide (p.2 = member)) (owner_of self)).*1.

(** [relay/staticassignor.py] StaticAssignor.owner *)
Definition owner (self : t) (partition : string) : result string :=
  match d_get (owner_of self) partition with Some m => Ok m | None => Err Missing end.

(** [relay/staticassignor.py] StaticAssignor.unconsumed *)
Definition unconsumed (self : t) : list string :=
  py_sorted String.le (List.filter (λ p : string * string, negb (bool_decide (p.2 ∈ present self))) (owner_of self)).*1.

(** [relay/staticassignor.py] StaticAssignor.note *)
Definition note (self : t) : string :=
  let absent := unconsumed self in
  zs (zlen (owner_of self)) +:+ " partition(s) statically mapped, " +:+ zs (zlen absent) +:+ " unconsumed: "
  +:+ repr_list repr_str absent +:+ "; static assignment does not self-heal, that list is the manual attention the stability costs".
End StaticAssignor.
End staticassignor.
Import staticassignor.

Module taskassignment.
Module TaskAssignment.
(** [relay/taskassignment.py] class TaskAssignment *)
Record t := mk { instances : list string; active : pydict string string; standby : pydict string string }.

(** [relay/taskassignment.py] TaskAssignment.__post_init__ *)
Definition make (instances : list string) : result t :=
  match instances with [] => Err Invalid | _ => Ok (mk instances [] []) end.

(** [relay/taskassignment.py] TaskAssignment.assign_active *)
Definition assign_active (task instance : string) : act t unit :=
  self ← get;
  raise_if (negb (bool_decide (instance ∈ instances self))) Invalid;;
  put (mk (instances self) (d_set (active self) task instance) (standby self)).

(** [relay/taskassignment.py] TaskAssignment.assign_standby *)
Definition assign_standby (task instance : string) : act t unit :=
  self ← get;
  raise_if (zlen (instances self) <? 2) Invalid;;
  raise_if (bool_decide (d_get (active self) task = Some instance)) Invalid;;
  put (mk (instances self) (active self) (d_set (standby self) task instance)).

(** [relay/taskassignment.py] TaskAssignment.imbalance *)
Definition imbalance (self : t) : result Z :=
  let counts := foldl (λ d i, d_set d i 0) [] (instances self) in
  let counts := foldl (λ d i, d_set d i (d_getd d i 0 + 1)) counts (d_values (active self)) in
  match d_values counts with [] => Err ValueError | c :: cs => Ok (py_max c cs - py_min c cs) end.

(** [relay/taskassignment.py] TaskAssignment.collocated_standbys *)
Definition collocated_standbys (self : t) : list string :=
  (List.filter (λ p : string * string, bool_decide (d_get (active self) p.1 = Some p.2)) (standby self)).*1.

(** [relay/taskassignment.py] TaskAssignment.report *)
Definition report (self : t) : result string :=
  let bad := collocated_standbys self in
  imbalance ← imbalance self;
  let note := "active task imbalance " +:+ zs imbalance +:+ " across the instances" in
  Ok (match bad with
      | _ :: _ => note +:+ "; BUG: standbys collocated with actives: " +:+ repr_list repr_str bad
      | [] => note +:+ "; every standby is off its active's instance"
      end).
End TaskAssignment.
End taskassignment.
Import taskassignment.

Module standbytask.
Module StandbyManager.
(** [relay/standbytask.py] class StandbyManager *)
Record t := mk { changelog_end : Z; standbys : pydict string Z }.

(** [relay/standbytask.py] StandbyManager.track *)
Definition track (instance : string) (standby_offset : Z) : act t unit :=
  self ← get;
  raise_if (changelog_end self <? standby_offset) Invalid;;
  put (mk (changelog_end self) (d_set (standbys self) instance standby_offset)).

(** [relay/standbytask.py] StandbyManager.lag_of *)
Definition lag_of (self : t) (instance : string) : result Z :=
  match d_get (standbys self) instance with Some o => Ok (changelog_end self - o) | None => Err Invalid end.

(** [min(self.standbys, key=self.lag_of)]: the first of the least *)
Definition least_lag (self : t) (p : string * Z) (ps : list (string * Z)) : string * Z :=
  foldl (λ best p, if changelog_end self - p.2 <? changelog_end self - best.2 then p else best) p ps.

(** [relay/standbytask.py] StandbyManager.promote_best: the instance and the lag in the message *)
Definition promote_best (self : t) : result (string * Z) :=
  match standbys self with
  | [] => Err Invalid
  | p :: ps => let best := least_lag self p ps in lag ← lag_of self best.1; Ok (best.1, lag)
  end.

(** [relay/standbytask.py] StandbyManager.failover_cost: the lag in the message *)
Definition failover_cost (self : t) : option Z :=
  match (λ p : string * Z, changelog_end self - p.2) <$> standbys self with
  | [] => None
  | l :: ls => Some (py_min l ls)
  end.
End StandbyManager.
End standbytask.
Import standbytask.

Module eagerrebalance.
Module EagerRebalance.
(** [relay/eagerrebalance.py] class EagerRebalance *)
Record t := mk { total_partitions : Z; moved_partitions : Z }.

(** [relay/eagerrebalance.py] EagerRebalance.__post_init__ *)
Definition make (total moved : Z) : result t :=
  if (total <? 0) || (moved <? 0) then Err Invalid
  else if total <? moved then Err Invalid
  else Ok (mk total moved).

(** [relay/eagerrebalance.py] EagerRebalance.revoked *)
Definition revoked (self : t) : Z := total_partitions self.

(** [relay/eagerrebalance.py] EagerRebalance.paused_for_nothing *)
Definition paused_for_nothing (self : t) : Z := total_partitions self - moved_partitions self.

(** [relay/eagerrebalance.py] EagerRebalance.unnecessary_ratio *)
Definition unnecessary_ratio (self : t) : result float :=
  if total_partitions self =? 0 then Ok f0 else z_truediv (paused_for_nothing self) (total_partitions self).
(** [relay/eagerrebalance.py] EagerRebalance.report *)
Definition report (self : t) : result string :=
  let wasted := paused_for_nothing self in
  ratio ← unnecessary_ratio self;
  Ok ("eager revoked all " +:+ zs (total_partitions self) +:+ ", only " +:+ zs (moved_partitions self) +:+ " moved: "
      +:+ zs wasted +:+ " partition(s) paused for nothing (" +:+ fmt_percent 0 ratio
      +:+ "); a high ratio is the clearest candidate for cooperative").
End EagerRebalance.
End eagerrebalance.
Import eagerrebalance.

(** ** One generation: join, plan, sync *)

Section generation.
Implicit Types (s : JoinPhase.t).

Definition join_step (j : string * list string) s : JoinPhase.t := state_of (JoinPhase.join j.1 j.2) s.

(** the strategies of the last time each member joined *)
Definition last_supported (joins : list (string * list string)) (m : string) : option (list string) :=
  foldl (λ r j, if bool_decide (m = j.1) then Some j.2 else r) None joins.

Record joining (g : Z) (joins : list (string * list string)) s : Prop := {
  jo_generation : JoinPhase.generation s = g;
  jo_open : JoinPhase.window_open s = true;
  jo_distinct : NoDup (JoinPhase.members s);
  jo_members m : m ∈ JoinPhase.members s ↔ m ∈ joins.*1;
  jo_first : head (JoinPhase.members s) = head joins.*1;
  jo_strategies m : d_get (JoinPhase.strategies s) m = last_supported joins m;
}.

Lemma joining_step g joins s m supported : joining g joins s →
  ∃ s', JoinPhase.join m supported s
    = (s', Ok (JoinPhase.Joined (bool_decide (head (joins.*1 ++ [m]) = Some m)) g)) ∧ joining g (joins ++ [(m, supported)]) s'.
Proof.
  intros [Hg Ho Hd Hm Hf Hs]. unfold JoinPhase.join. rewrite bind_get, Ho. cbn [negb].
  rewrite !bind_modify, bind_get. cbn [JoinPhase.members JoinPhase.generation].
  set (ms := if bool_decide (m ∈ JoinPhase.members s) then _ else _).
  assert (Hmem : ∀ x, x ∈ ms ↔ x ∈ (joins ++ [(m, supported)]).*1).
  { intros x. rewrite fmap_app, elem_of_app, <- Hm. cbn. subst ms. case_bool_decide; set_solver. }
  assert (Hhead : head ms = head (joins.*1 ++ [m])).
  { subst ms. case_bool_decide as Hin.
    - rewrite Hf. apply Hm in Hin. destruct joins; [by apply elem_of_nil in Hin|done].
    - destruct (JoinPhase.members s) eqn:Hms; destruct joins; done || (exfalso; cbn in Hf; congruence). }
  assert (Hdis : NoDup ms).
  { subst ms. case_bool_decide; [done|]. apply NoDup_app. split_and!; [done|set_solver|apply NoDup_singleton]. }
  destruct ms as [|f ms'] eqn:Hms.
  { exfalso. apply (elem_of_nil m), Hmem. rewrite fmap_app. set_solver. }
  change (py_index (f :: ms') 0) with (Ok f). rewrite bind_pure_of, run_ret. eexists. split.
  - cbn in Hhead. rewrite <- Hhead, Hg. do 4 f_equal. apply bool_decide_ext. naive_solver.
  - split; cbn [JoinPhase.generation JoinPhase.window_open JoinPhase.members JoinPhase.strategies]; [done|done|done|done| |].
    + by rewrite Hhead, fmap_app.
    + intros x. rewrite d_get_set, Hs. unfold last_supported. rewrite foldl_app. cbn. by case_bool_decide.
Qed.

Lemma joining_run g joins : joining g joins (run join_step joins (JoinPhase.make g)).
Proof.
  unfold run. induction joins as [|[m sup] joins IH] using rev_ind.
  - split; cbn; try done. constructor.
  - rewrite foldl_app. cbn [foldl]. destruct (joining_step _ _ _ m sup IH) as (s' & Hrun & Hs').
    unfold join_step at 1, state_of. cbn [fst snd]. by rewrite Hrun.
Qed.

Lemma no_overlap_run seen parts :
  is_ok (SyncPhase.no_overlap seen parts) = true ↔ NoDup parts ∧ ∀ p, p ∈ parts → p ∉ seen.
Proof.
  revert seen. induction parts as [|p parts IH]; intros seen; cbn [SyncPhase.no_overlap].
  - split; [|done]. intros _. split; [constructor|]. intros p Hp. by apply elem_of_nil in Hp.
  - case_bool_decide as Hp.
    + split; [done|]. intros [_ Hall]. exfalso. by apply (Hall p); [left|].
    + rewrite IH, NoDup_cons. split.
      * intros [Hd Hall]. split_and!; [|done|].
        -- intros Hin. apply (Hall p Hin). set_solver.
        -- intros q [->|Hq]%elem_of_cons; [done|]. intros Hs. apply (Hall q Hq). set_solver.
      * intros [[Hn Hd] Hall]. split; [done|]. intros q Hq. rewrite elem_of_union, elem_of_singleton.
        intros [Hs| ->]; [by apply (Hall q); [right|]|done].
Qed.

Lemma submit_run (sy : SyncPhase.t) member plan :
  SyncPhase.submit member plan sy
  = if bool_decide (member = SyncPhase.leader sy) && bool_decide (list_to_set (d_keys plan) = SyncPhase.members sy)
       && is_ok (SyncPhase.no_overlap ∅ (mjoin (d_values plan)))
    then (SyncPhase.mk (SyncPhase.leader sy) (SyncPhase.members sy) plan true, Ok ())
    else (sy, Err Invalid).
Proof.
  unfold SyncPhase.submit. rewrite bind_get, bind_raise_if. case_bool_decide; [|done]. cbn [negb andb].
  rewrite bind_raise_if. case_bool_decide; [|done]. cbn [negb andb]. rewrite bind_pure_of.
  assert (Herr : ∀ seen parts e, SyncPhase.no_overlap seen parts = Err e → e = Invalid).
  { intros seen parts. revert seen. induction parts as [|p parts IH]; intros seen e; cbn; [done|].
    case_bool_decide; [by intros [= <-]|apply IH]. }
  destruct (SyncPhase.no_overlap _ _) eqn:Hno; cbn [is_ok]; [done|]. by rewrite (Herr _ _ _ Hno).
Qed.

Lemma join_concat {A} (l : list (list A)) : mjoin l = concat l.
Proof. induction l as [|x l IH]; [done|]. cbn. by rewrite <- IH. Qed.

Lemma d_getd_values (d : pydict string (list Z)) : d_wf d → (λ k, d_getd d k []) <$> d_keys d = d_values d.
Proof.
  unfold d_wf, d_keys, d_values. induction d as [|[k v] d IH]; intros Hd; [done|]. cbn in Hd. apply NoDup_cons in Hd as [Hk Hd].
  cbn [fmap list_fmap fst snd]. f_equal.
  - unfold d_getd. cbn. by rewrite bool_decide_true.
  - rewrite <- IH by done. apply list_fmap_ext. intros i x Hx. unfold d_getd. cbn.
    rewrite bool_decide_false; [done|]. intros ->. apply Hk. by eapply list_elem_of_lookup_2.
Qed.
End generation.

(** C8 (safety): one generation of the group protocol hands every partition to exactly one member. Whatever
    members join, in whatever order and however often, the first to join leads, and the members are exactly those who
    joined, each once; a range assignment computed over them is accepted by the sync phase, from the leader only; and
    every member then reads its own contiguous slice, the slices making up partitions 0 to n-1 with none missing and
    none twice. Before the submission everybody waits, an outsider is refused a slice, a plan that misses a member, adds
    one or gives a partition twice is refused with nothing changed, and who joins after the window is folded into the
    next generation without touching this one. *)
Theorem group_round_assigns_all g first supported joins n member plan' :
  0 <= n →
  let s := run join_step ((first, supported) :: joins) (JoinPhase.make g) in
  let ms := JoinPhase.members s in
  let sync := SyncPhase.make first (list_to_set ms) in
  ∃ plan, range_assign n ms = Ok plan ∧
  let after := state_of (SyncPhase.submit first plan) sync in
  (JoinPhase.leader s = Ok first ∧ NoDup ms ∧ ∀ m, m ∈ ms ↔ m = first ∨ m ∈ joins.*1)
  ∧ value_of (SyncPhase.submit first plan) sync = Ok ()
  ∧ (member ∈ ms → SyncPhase.slice_for after member = Ok (d_getd plan member []))
  ∧ mjoin ((λ m, d_getd plan m []) <$> py_sorted String.le ms) = seqZ 0 n
  ∧ (member ∉ ms → SyncPhase.slice_for after member = Err Invalid)
  ∧ SyncPhase.slice_for sync member = Err Invalid
  ∧ (member ≠ first ∨ list_to_set (d_keys plan') ≠ (list_to_set ms : gset string) ∨ ¬ NoDup (mjoin (d_values plan')) →
     SyncPhase.submit member plan' sync = (sync, Err Invalid))
  ∧ (let closed := state_of JoinPhase.close_window s in
     ∀ late, JoinPhase.join late supported closed = (closed, Ok (JoinPhase.Folded (g + 1)))).
Proof.
  intros Hn s ms sync. pose proof (joining_run g ((first, supported) :: joins)) as [Hg Ho Hd Hm Hf _]. fold s in Hg, Ho, Hd, Hm, Hf.
  fold ms in Hd, Hm, Hf.
  assert (Hne : ms ≠ []) by (intros Hnil; rewrite Hnil in Hf; done).
  destruct (range_assign_covers n ms Hd Hne Hn) as (plan & Hplan & Hkeys & Hcat & _). exists plan. split; [done|].
  intros after.
  assert (Hwf : d_wf plan) by (unfold d_wf; rewrite Hkeys, py_sorted_Permutation; done).
  assert (Hcov : (list_to_set (d_keys plan) : gset string) = list_to_set ms).
  { rewrite Hkeys. apply set_eq. intros x. by rewrite !elem_of_list_to_set, py_sorted_elem_of. }
  assert (Hno : is_ok (SyncPhase.no_overlap ∅ (mjoin (d_values plan))) = true).
  { apply no_overlap_run. rewrite join_concat, Hcat.
    split; [apply NoDup_seqZ|set_solver]. }
  assert (Hsub : SyncPhase.submit first plan sync = (SyncPhase.mk first (list_to_set ms) plan true, Ok ())).
  { rewrite submit_run. unfold sync. cbn [SyncPhase.make SyncPhase.leader SyncPhase.members].
    by rewrite !bool_decide_true, Hno by done. }
  assert (Hafter : after = SyncPhase.mk first (list_to_set ms) plan true) by (unfold after, state_of; by rewrite Hsub).
  split_and!.
  - unfold JoinPhase.leader. fold ms. destruct ms; [done|]. cbn in Hf. by injection Hf as ->.
  - done.
  - intros m. rewrite Hm. cbn. apply elem_of_cons.
  - unfold value_of. by rewrite Hsub.
  - intros Hin. rewrite Hafter. unfold SyncPhase.slice_for. cbn [SyncPhase.submitted SyncPhase.members SyncPhase.assignment negb].
    by rewrite bool_decide_true by (by apply elem_of_list_to_set).
  - by rewrite <- Hkeys, d_getd_values, join_concat by done.
  - intros Hin. rewrite Hafter. unfold SyncPhase.slice_for. cbn [SyncPhase.submitted SyncPhase.members negb].
    by rewrite bool_decide_false by (by rewrite elem_of_list_to_set).
  - done.
  - intros Hbad. rewrite submit_run. unfold sync. cbn [SyncPhase.make SyncPhase.leader SyncPhase.members].
    destruct (decide (member = first)) as [->|]; [|by rewrite bool_decide_false].
    destruct (decide (list_to_set (d_keys plan') = (list_to_set ms : gset string))) as [Heq|]; [|rewrite (bool_decide_false (list_to_set _ = _)) by done; by destruct (bool_decide (first = first))].
    destruct Hbad as [?|[?|Hbad]]; [done..|]. 
    destruct (is_ok (SyncPhase.no_overlap ∅ (mjoin (d_values plan')))) eqn:Hok; [|by rewrite andb_false_r].
    by apply no_overlap_run in Hok as [Hok _].
  - intros closed late.
    assert (Hclosed : JoinPhase.window_open closed = false ∧ JoinPhase.generation closed = g).
    { unfold closed, state_of, JoinPhase.close_window. rewrite bind_modify, bind_get. rewrite <- Hg.
      rewrite bind_pure_of. destruct (JoinPhase.leader _); [|done]. rewrite bind_pure_of. by destruct (JoinPhase.choose_strategy _). }
    unfold JoinPhase.join. rewrite bind_get. destruct Hclosed as [-> ->]. done.
Qed.

Lemma group_round_assigns_all_witness :
  let s := run join_step [("b", ["range"]); ("a", ["range"]); ("b", ["range"; "sticky"])]%string (JoinPhase.make 4) in
  ∃ plan, range_assign 5 (JoinPhase.members s) = Ok plan
  ∧ SyncPhase.slice_for (state_of (SyncPhase.submit "b" plan) (SyncPhase.make "b" (list_to_set (JoinPhase.members s)))) "a"
    = Ok [0; 1; 2].
Proof.
  intros s.
  destruct (group_round_assigns_all 4 "b" ["range"%string] [("a", ["range"]); ("b", ["range"; "sticky"])]%string 5 "a" [] ltac:(lia))
    as (plan & Hplan & _ & _ & Hslice & _).
  exists plan. split; [exact Hplan|]. refine (eq_trans (Hslice _) _).
  - apply (bool_decide_unpack _). vm_compute. exact I.
  - revert Hplan. vm_compute. intros [= <-]. reflexivity.
Defined.

Lemma all_support_run strategies strategy ms :
  (∀ m, m ∈ ms → is_Some (d_get strategies m)) →
  JoinPhase.all_support strategies strategy ms
  = Ok (forallb (λ m, bool_decide (strategy ∈ d_getd strategies m [])) ms).
Proof.
  induction ms as [|m ms IH]; intros Hs; [done|]. cbn [JoinPhase.all_support forallb].
  destruct (Hs m ltac:(by left)) as [l Hl].
  assert (Hget : d_item strategies m = Ok l ∧ d_getd strategies m [] = l) by (unfold d_item, d_getd; by rewrite Hl).
  destruct Hget as [-> ->]. cbn [mbind result_bind]. case_bool_decide; [|done]. apply IH. intros x Hx. apply Hs. by right.
Qed.

(** The strategy chosen is one every member named the last time it joined, the leader's first such; and the
    choice fails exactly when the leader names none that all the others name. *)
Theorem join_strategy_common g first supported joins :
  let all := (first, supported) :: joins in
  let s := run join_step all (JoinPhase.make g) in
  let common st := ∀ m, m ∈ all.*1 → ∃ l, last_supported all m = Some l ∧ st ∈ l in
  ∃ prefs, last_supported all first = Some prefs
  ∧ match JoinPhase.choose_strategy s with
    | Ok st => common st ∧ ∃ before after, prefs = before ++ st :: after ∧ ∀ st', st' ∈ before → ¬ common st'
    | Err e => e = Invalid ∧ ∀ st', st' ∈ prefs → ¬ common st'
    end.
Proof.
  intros all s common. destruct (joining_run g all) as [_ _ _ Hm Hf Hs]. fold s in Hm, Hf, Hs.
  assert (Hlast : ∀ joins m, m ∈ joins.*1 → is_Some (last_supported joins m)).
  { clear. intros joins m. induction joins as [|j joins IH] using rev_ind; [intros Hin; by apply elem_of_nil in Hin|].
    unfold last_supported in *. rewrite fmap_app, foldl_app, elem_of_app. cbn. case_bool_decide; [done|].
    intros [Hin|Hin]; [by apply IH|set_solver]. }
  destruct (Hlast all first) as [prefs Hprefs]; [by left|]. exists prefs. split; [done|].
  unfold JoinPhase.choose_strategy. destruct (JoinPhase.members s) as [|m ms] eqn:Hms; [done|]. cbn in Hf. injection Hf as ->.
  unfold d_item. rewrite Hs, Hprefs. cbn [mbind result_bind].
  assert (Hsome : ∀ x, x ∈ first :: ms → is_Some (d_get (JoinPhase.strategies s) x)).
  { intros x Hx. rewrite Hs. apply Hlast. by apply Hm. }
  assert (Hcommon : ∀ st, forallb (λ m, bool_decide (st ∈ d_getd (JoinPhase.strategies s) m [])) (first :: ms) = true ↔ common st).
  { intros st. rewrite forallb_forall. unfold common. setoid_rewrite <- Hm. split.
    - intros Hall x Hx. specialize (Hall x ltac:(by apply list_elem_of_In)). apply bool_decide_eq_true in Hall.
      destruct (Hsome x Hx) as [l Hl]. unfold d_getd in Hall. rewrite Hl in Hall. exists l. by rewrite <- Hs.
    - intros Hall x Hx%list_elem_of_In. destruct (Hall x Hx) as (l & Hl & Hst). apply bool_decide_eq_true.
      unfold d_getd. by rewrite Hs, Hl. }
  clear Hprefs. induction prefs as [|st prefs IH]; cbn [JoinPhase.first_common].
  - split; [done|]. intros st' Hst. by apply elem_of_nil in Hst.
  - rewrite all_support_run by done. cbn [mbind result_bind].
    destruct (forallb _ _) eqn:Hall.
    + apply Hcommon in Hall. split; [done|]. exists [], prefs. split; [done|]. intros st' Hst. by apply elem_of_nil in Hst.
    + assert (Hno : ¬ common st) by (intros Hc%Hcommon; congruence).
      destruct (JoinPhase.first_common _ _ prefs) as [st'|e].
      * destruct IH as (Hc & before & aft & -> & Hb). split; [done|]. exists (st :: before), aft. split; [done|].
        intros x [->|Hx]%elem_of_cons; [done|by apply Hb].
      * destruct IH as [-> Hnone]. split; [done|]. intros x [->|Hx]%elem_of_cons; [done|by apply Hnone].
Qed.

(** ** Stale generations *)

Section stale.

Definition machine_step (target : string) (s : GroupStateMachine.t) : GroupStateMachine.t :=
  state_of (GroupStateMachine.transition target) s.

Lemma transition_run s target :
  GroupStateMachine.transition target s
  = if bool_decide (target ∈ d_getd ALLOWED (GroupStateMachine.state s) [])
    then (GroupStateMachine.mk target (if bool_decide (target = PREPARING) then GroupStateMachine.generation s + 1 else GroupStateMachine.generation s), Ok ())
    else (s, Err Invalid).
Proof.
  unfold GroupStateMachine.transition. rewrite bind_get, bind_raise_if. case_bool_decide; [|done].
  cbn [negb]. by rewrite bind_modify, run_modify.
Qed.

Lemma machine_generation_mono targets s :
  GroupStateMachine.generation s <= GroupStateMachine.generation (run machine_step targets s).
Proof.
  revert s. induction targets as [|x targets IH]; intros s; [done|]. etrans; [|apply IH].
  unfold machine_step, state_of. rewrite transition_run. repeat case_bool_decide; cbn; lia.
Qed.

(** The four states, in the order a group goes through them: a stable group leaves by preparing. *)
Lemma stable_leaves s target : GroupStateMachine.state s = STABLE →
  machine_step target s = if bool_decide (target = PREPARING) then GroupStateMachine.mk PREPARING (GroupStateMachine.generation s + 1) else s.
Proof.
  intros Hs. unfold machine_step, state_of. rewrite transition_run, Hs.
  rewrite (bool_decide_ext (target ∈ d_getd ALLOWED STABLE []) (target = PREPARING)).
  - by case_bool_decide; subst.
  - change (d_getd ALLOWED STABLE []) with [PREPARING]. by rewrite list_elem_of_singleton.
Qed.
End stale.

Inductive beat_op := Register (member : string) | StartRebalance | CompleteRebalance.

Definition beat_step (o : beat_op) (s : HeartbeatCoordinator.t) : HeartbeatCoordinator.t :=
  state_of (match o with
    | Register m => HeartbeatCoordinator.register m
    | StartRebalance => HeartbeatCoordinator.start_rebalance
    | CompleteRebalance => HeartbeatCoordinator.complete_rebalance
    end) s.

(** Also (error): a member of an old generation is refused everywhere, for good. Once a stable group has
    accepted any transition, no later state accepts a commit at the generation it had, whatever transitions follow, and
    nothing outside Stable is consumed or committed; once the coordinator has counted a rebalance, a request at any
    earlier generation is refused for ever, and so is one at a generation it has not minted; once a rebalance has
    completed, a heartbeat at any earlier generation of a known member is answered [Fenced], never acknowledged. *)
Theorem stale_generation_refused targets target s gg reasons reason hb ops member old :
  GroupStateMachine.state s = STABLE →
  let s' := run machine_step targets (machine_step target s) in
  (is_ok (value_of (GroupStateMachine.transition target) s) = true →
     GroupStateMachine.commit s' (GroupStateMachine.generation s) = Err Invalid)
  ∧ (∀ g, GroupStateMachine.may_consume s' = false → GroupStateMachine.commit s' g = Err Invalid)
  ∧ (let gg' := run (λ r s, state_of (GroupGeneration.rebalance r) s) (reason :: reasons) gg in
     GroupGeneration.generation gg' = GroupGeneration.generation gg + 1 + zlen reasons
     ∧ ∀ g, GroupGeneration.admit_ gg' g = if g =? GroupGeneration.generation gg' then Ok () else Err Invalid)
  ∧ (let hb' := run beat_step (CompleteRebalance :: ops) hb in
     old <= HeartbeatCoordinator.generation hb → member ∈ HeartbeatCoordinator.members hb →
     HeartbeatCoordinator.heartbeat hb' member old = Err Fenced).
Proof.
  intros Hs s'. split_and!.
  - unfold value_of. intros Hok.
    assert (Ht : target = PREPARING).
    { rewrite transition_run, Hs in Hok. case_bool_decide as Hin; [|done].
      change (d_getd ALLOWED STABLE []) with [PREPARING] in Hin. by apply list_elem_of_singleton. }
    pose proof (machine_generation_mono targets (machine_step target s)) as Hmono. fold s' in Hmono.
    rewrite (stable_leaves s target Hs), bool_decide_true in Hmono by done. cbn in Hmono.
    unfold GroupStateMachine.commit. case_bool_decide; [|done]. cbn [negb].
    by destruct (Z.ltb_spec (GroupStateMachine.generation s) (GroupStateMachine.generation s')); [|lia].
  - intros g Hno. unfold GroupStateMachine.commit, GroupStateMachine.may_consume in *. by rewrite Hno.
  - cbn zeta. set (gg' := run _ _ gg).
    assert (Hgen : GroupGeneration.generation gg' = GroupGeneration.generation gg + 1 + zlen reasons).
    { assert (Hrun : ∀ rs g0, GroupGeneration.generation (run (λ r s, state_of (GroupGeneration.rebalance r) s) rs g0)
        = GroupGeneration.generation g0 + zlen rs).
      { unfold run. intros rs. induction rs as [|r rs IH]; intros g0; [rewrite zlen_nil; cbn [foldl]; lia|].
        cbn [foldl]. rewrite IH, zlen_cons. unfold GroupGeneration.rebalance, state_of. rewrite bind_modify, bind_get, run_ret. cbn. lia. }
      subst gg'. rewrite Hrun, zlen_cons. lia. }
    split; [done|]. intros g. unfold GroupGeneration.admit_.
    destruct (Z.eqb_spec g (GroupGeneration.generation gg')); subst; [by rewrite !Z.ltb_irrefl|].
    destruct (Z.ltb_spec g (GroupGeneration.generation gg')); [done|].
    by destruct (Z.ltb_spec (GroupGeneration.generation gg') g); [|lia].
  - intros hb' Hold Hmem.
    assert (HeartbeatCoordinator.generation hb < HeartbeatCoordinator.generation hb' ∧ member ∈ HeartbeatCoordinator.members hb') as [Hgen Hin].
    { subst hb'. unfold run. cbn [foldl]. set (h1 := beat_step CompleteRebalance hb).
      assert (H1 : HeartbeatCoordinator.generation hb < HeartbeatCoordinator.generation h1 ∧ member ∈ HeartbeatCoordinator.members h1)
        by (subst h1; cbn; split; [lia|done]).
      clearbody h1. revert h1 H1. induction ops as [|o ops IH]; intros h1 H1; [done|]. cbn [foldl]. apply IH.
      destruct o; cbn; (split; [lia|set_solver]). }
    unfold HeartbeatCoordinator.heartbeat. rewrite bool_decide_true by done. cbn [negb].
    by destruct (Z.ltb_spec old (HeartbeatCoordinator.generation hb')); [|lia].
Qed.

Lemma stale_generation_refused_witness :
  GroupStateMachine.commit
    (run machine_step [COMPLETING; STABLE] (machine_step PREPARING (GroupStateMachine.mk STABLE 3))) 3 = Err Invalid.
Proof.
  refine (proj1 (stale_generation_refused [COMPLETING; STABLE] PREPARING (GroupStateMachine.mk STABLE 3)
    GroupGeneration.make [] "" (HeartbeatCoordinator.mk 0 false ∅) [] "" 0 eq_refl) _).
  vm_compute. reflexivity.
Defined.

(** ** Validating an assignment *)

Section validator.
Import AssignmentValidator.
Implicit Types (assignment : pydict string (gset Z)).

Definition claims assignment : list (Z * string) :=
  mjoin ((λ mp : string * gset Z, (λ p, (p, mp.1)) <$> elements mp.2) <$> assignment).

Lemma claims_elem assignment p m : (p, m) ∈ claims assignment ↔ ∃ ps, (m, ps) ∈ assignment ∧ p ∈ ps.
Proof.
  unfold claims. rewrite list_elem_of_join. split.
  - intros (l & Hin & ([m' ps] & -> & Hmp)%list_elem_of_fmap).
    apply list_elem_of_fmap in Hin as (p' & [= -> ->] & Hp'%elem_of_elements). by exists ps.
  - intros (ps & Hin & Hp). exists ((λ p, (p, m)) <$> elements ps). split.
    + apply list_elem_of_fmap. exists p. split; [done|]. by apply elem_of_elements.
    + apply list_elem_of_fmap. by exists (m, ps).
Qed.

Lemma collect_get (l : list (Z * string)) owners p :
  d_getd (foldl (λ owners (p : Z * string), d_set owners p.1 (d_getd owners p.1 [] ++ [p.2])) owners l) p []
  = d_getd owners p [] ++ (filter (λ q : Z * string, q.1 = p) l).*2.
Proof.
  revert owners. induction l as [|[q m] l IH]; intros owners; cbn [foldl]; [by rewrite app_nil_r|].
  rewrite IH, d_getd_set, filter_cons. cbn [fst snd]. case_bool_decide; case_decide; subst; try done.
  by rewrite <- app_assoc.
Qed.

Lemma collect_wf (l : list (Z * string)) owners : d_wf owners →
  d_wf (foldl (λ owners (p : Z * string), d_set owners p.1 (d_getd owners p.1 [] ++ [p.2])) owners l).
Proof. revert owners. induction l as [|q l IH]; intros owners Ho; [done|]. apply IH. by apply d_wf_set. Qed.

Lemma claims_distinct assignment : d_wf assignment → NoDup (claims assignment).
Proof.
  unfold d_wf, d_keys. induction assignment as [|[m ps] assignment IH]; intros Hwf; [constructor|].
  cbn in Hwf. apply NoDup_cons in Hwf as [Hm Hwf]. change (claims ((m, ps) :: assignment)) with (((λ p, (p, m)) <$> elements ps) ++ claims assignment).
  apply NoDup_app. split_and!.
  - apply NoDup_fmap_2; [intros ?? [=]; done|apply NoDup_elements].
  - intros [p m'] (p' & [= -> ->] & _)%list_elem_of_fmap Hin. apply claims_elem in Hin as (ps' & Hin & _).
    apply Hm, list_elem_of_fmap. by exists (m, ps').
  - by apply IH.
Qed.

Lemma one_owner assignment p : d_wf assignment →
  zlen (d_getd (owners_of assignment) p []) <= 1 ↔
  ∀ m m' ps ps', (m, ps) ∈ assignment → (m', ps') ∈ assignment → p ∈ ps → p ∈ ps' → m = m'.
Proof.
  intros Hwf. unfold owners_of. fold (claims assignment). rewrite collect_get. cbn [app d_getd d_get default from_option].
  pose proof (claims_distinct _ Hwf) as Hd. unfold zlen. rewrite length_fmap.
  assert (Hin : ∀ q, q ∈ filter (λ q : Z * string, q.1 = p) (claims assignment) ↔ q.1 = p ∧ ∃ ps, (q.2, ps) ∈ assignment ∧ p ∈ ps).
  { intros [q m]. rewrite list_elem_of_filter, claims_elem. cbn. naive_solver. }
  apply (NoDup_filter (λ q : Z * string, q.1 = p)) in Hd. destruct (filter _ _) as [|x [|y l]].
  - split; [|cbn [length]; lia]. intros _ m m' ps ps' Hm _ Hp _. exfalso. apply (elem_of_nil (p, m)), Hin. naive_solver.
  - split; [|cbn [length]; lia]. intros _ m m' ps ps' Hm Hm' Hp Hp'.
    assert ((p, m) = x) by (apply list_elem_of_singleton, Hin; naive_solver).
    assert ((p, m') = x) by (apply list_elem_of_singleton, Hin; naive_solver). congruence.
  - split; [cbn [length]; lia|]. intros Hall. exfalso. apply NoDup_cons in Hd as [Hx _]. apply Hx.
    destruct (proj1 (Hin x)) as (Hx1 & ps & Hpx & Hpp); [by left|].
    destruct (proj1 (Hin y)) as (Hy1 & ps' & Hpy & Hpp'); [by right; left|].
    rewrite (surjective_pairing x), (surjective_pairing y), Hx1, Hy1, (Hall x.2 y.2 ps ps') by done. by left.
Qed.

Lemma double_none assignment : double_owned assignment = [] ↔ ∀ p, zlen (d_getd (owners_of assignment) p []) <= 1.
Proof.
  assert (Hwf : d_wf (owners_of assignment)) by (apply collect_wf; constructor).
  unfold double_owned. set (owners := owners_of assignment) in *. clearbody owners. split.
  - intros Hnil%fmap_nil_inv p. unfold d_getd. destruct (d_get owners p) as [l|] eqn:Hl; cbn [from_option id]; [|rewrite zlen_nil; lia].
    destruct (Z.le_gt_cases (zlen l) 1) as [|Hgt]; [done|]. exfalso.
    assert ((p, l) ∈ List.filter (λ p : Z * list string, 1 <? zlen p.2) owners) as Hin.
    { apply list_elem_of_In, filter_In. split; [by apply list_elem_of_In, d_get_elem_of|]. apply Z.ltb_lt. cbn. lia. }
    rewrite Hnil in Hin. by apply elem_of_nil in Hin.
  - intros Hall. destruct (List.filter _ owners) as [|[p l] rest] eqn:Hf; [done|]. exfalso.
    assert ((p, l) ∈ List.filter (λ p : Z * list string, 1 <? zlen p.2) owners) as Hin by (rewrite Hf; by left).
    apply list_elem_of_In, filter_In in Hin as [Hin Hlt%Z.ltb_lt]. apply list_elem_of_In in Hin.
    specialize (Hall p). unfold d_getd in Hall. rewrite (d_elem_of_get _ _ _ Hwf Hin) in Hall. cbn in *. lia.
Qed.

Lemma orphans_none v assignment : orphaned v assignment = ∅ ↔
  ∀ p, p ∈ all_partitions v → ∃ m ps, (m, ps) ∈ assignment ∧ p ∈ ps.
Proof.
  unfold orphaned.
  assert (Hu : ∀ p, p ∈ ⋃ d_values assignment ↔ ∃ m ps, (m, ps) ∈ assignment ∧ p ∈ ps).
  { intros p. rewrite elem_of_union_list. unfold d_values. split.
    - intros (ps & ([m ps'] & -> & Hin)%list_elem_of_fmap & Hp). by exists m, ps'.
    - intros (m & ps & Hin & Hp). exists ps. split; [|done]. apply list_elem_of_fmap. by exists (m, ps). }
  split.
  - intros Hempty p Hp. apply Hu. destruct (decide (p ∈ ⋃ d_values assignment)); [done|]. exfalso.
    assert (p ∈ all_partitions v ∖ ⋃ d_values assignment) as Hin by (by apply elem_of_difference). rewrite Hempty in Hin.
    by apply elem_of_empty in Hin.
  - intros Hall. apply set_eq. intros p. rewrite elem_of_difference, Hu. split; [|intros Hp; by apply elem_of_empty in Hp].
    intros [Hp Hno]. exfalso. by apply Hno, Hall.
Qed.
End validator.

(** Also (functional): an assignment goes live exactly when it is right. [validate] accepts an assignment of
    sets of partitions to members if and only if no partition is in two members' sets and every partition of
    the topic is in somebody's; otherwise it raises [Invalid], whether the fault is a double owner or an orphan. *)
Theorem assignment_validated v (assignment : pydict string (gset Z)) :
  d_wf assignment →
  let right := (∀ p m m' ps ps', (m, ps) ∈ assignment → (m', ps') ∈ assignment → p ∈ ps → p ∈ ps' → m = m')
    ∧ ∀ p, p ∈ AssignmentValidator.all_partitions v → ∃ m ps, (m, ps) ∈ assignment ∧ p ∈ ps in
  (right → AssignmentValidator.validate v assignment = Ok (Z.of_nat (size (AssignmentValidator.all_partitions v))))
  ∧ (¬ right → AssignmentValidator.validate v assignment = Err Invalid).
Proof.
  intros Hwf right. unfold AssignmentValidator.validate.
  assert (Hright : right ↔ AssignmentValidator.double_owned assignment = [] ∧ AssignmentValidator.orphaned v assignment = ∅).
  { rewrite double_none, orphans_none. unfold right. setoid_rewrite (one_owner assignment _ Hwf). done. }
  rewrite Hright. split.
  - intros [-> ->]. by rewrite !bool_decide_false by naive_solver.
  - intros Hno. repeat case_bool_decide; cbn [orb]; try done. tauto.
Qed.

Lemma assignment_validated_witness :
  AssignmentValidator.validate (AssignmentValidator.mk {[0; 1; 2]}) [("a"%string, {[0; 2]}); ("b"%string, {[1]})] = Ok 3.
Proof.
  refine (eq_trans (proj1 (assignment_validated (AssignmentValidator.mk {[0; 1; 2]}) [("a"%string, {[0; 2]}); ("b"%string, {[1]})] _) _) _).
  - apply (bool_decide_unpack _). vm_compute. exact I.
  - split.
    + intros p m m' ps ps' Hm Hm' Hp Hp'. set_unfold in Hm. set_unfold in Hm'.
      destruct Hm as [[= -> ->]|[[= -> ->]|[]]], Hm' as [[= -> ->]|[[= -> ->]|[]]]; try reflexivity; set_solver by lia.
    + intros p Hp. cbn in Hp. rewrite !elem_of_union, !elem_of_singleton in Hp. destruct Hp as [[->| ->]| ->].
      * exists "a"%string, {[0; 2]}. set_solver.
      * exists "b"%string, {[1]}. set_solver.
      * exists "a"%string, {[0; 2]}. set_solver.
  - vm_compute. reflexivity.
Defined.

(** ** Batching, caps and fixed placements *)

(** Also (bounds): the rebalance delay is bounded, whoever keeps coming. From the first join, at any time that is
    not negative, and whatever joins follow in any order of time, the group is collected for at least the base delay and
    at most the maximum; each join batches one more member and never brings the rebalance forward, and from the
    maximum on the group is ready. *)
Theorem rebalance_delay_bounded base max s first joins now :
  RebalanceDelay.make base max = Ok s → 0 <= first →
  let step t s := state_of (RebalanceDelay.on_join t) s in
  let s' := run step (first :: joins) s in
  first + base <= RebalanceDelay.ready_at s' <= first + max
  ∧ RebalanceDelay.batched s' = 1 + zlen joins
  ∧ RebalanceDelay.ready_at s' <= RebalanceDelay.ready_at (step now s')
  ∧ (first + max <= now → RebalanceDelay.ready s' now = true)
  ∧ (now < first + base → RebalanceDelay.ready s' now = false).
Proof.
  intros Hmake Hfirst step s'. unfold RebalanceDelay.make in Hmake.
  destruct (Z.ltb_spec base 0), (Z.ltb_spec max 0); try done. destruct (Z.ltb_spec max base); [done|]. injection Hmake as <-.
  set (I := λ (n : Z) s, RebalanceDelay.base_delay s = base ∧ RebalanceDelay.max_delay s = max ∧ RebalanceDelay.started_at s = first
    ∧ first + base <= RebalanceDelay.ready_at s <= first + max ∧ RebalanceDelay.batched s = n).
  assert (Hstep : ∀ n t s, I n s → I (n + 1) (step t s) ∧ RebalanceDelay.ready_at s <= RebalanceDelay.ready_at (step t s)).
  { intros n t s (Hb & Hm & Hs & Hr & Hn). unfold step, state_of, RebalanceDelay.on_join. rewrite bind_get, Hs.
    destruct (Z.ltb_spec first 0); [lia|]. rewrite bind_put, bind_get, run_ret. unfold I. cbn. lia. }
  assert (Hs' : I (1 + zlen joins) s').
  { subst s'. unfold run. cbn [foldl]. set (s1 := step first _).
    assert (H1' : I 1 s1) by (subst s1; unfold I, step, state_of, RebalanceDelay.on_join; rewrite bind_get; cbn [RebalanceDelay.started_at Z.ltb Z.compare]; rewrite bind_put, bind_get, run_ret; cbn; lia). clearbody s1.
    replace (1 + zlen joins) with (zlen joins + 1) by lia. revert H1'. generalize 1. revert s1.
    induction joins as [|t joins IH]; intros s1 n H1'; [rewrite zlen_nil; by rewrite Z.add_0_l|]. cbn [foldl].
    rewrite zlen_cons. replace (1 + zlen joins + n) with (zlen joins + (n + 1)) by lia. by apply IH, Hstep. }
  pose proof (proj2 (Hstep _ now s' Hs')) as Hmono. destruct Hs' as (Hb & Hm & Hs & Hr & Hn). split_and!; [lia|lia|done|done| |].
  - intros Hnow. unfold RebalanceDelay.ready. rewrite Hs. apply andb_true_iff. rewrite !Z.leb_le. lia.
  - intros Hnow. unfold RebalanceDelay.ready. rewrite Hs. apply andb_false_iff. rewrite !Z.leb_gt. lia.
Qed.

Lemma rebalance_delay_bounded_witness :
  RebalanceDelay.ready (run (λ t s, state_of (RebalanceDelay.on_join t) s) [100; 102; 105; 109] (RebalanceDelay.mk 3 10 (-1) (-1) 0)) 110 = true.
Proof.
  refine (proj1 (proj2 (proj2 (proj2 (rebalance_delay_bounded 3 10 (RebalanceDelay.mk 3 10 (-1) (-1) 0) 100 [102; 105; 109] 110 eq_refl _)))) _); lia.
Defined.

(** A group never grows past its cap, whatever joins and leaves. *)
Theorem group_cap_respected partitions margin ops s :
  GroupSizeLimiter.make partitions margin = Ok s →
  let step (o : bool * string) s := state_of (if o.1 then GroupSizeLimiter.join o.2 else GroupSizeLimiter.leave o.2) s in
  Z.of_nat (size (GroupSizeLimiter.members (run step ops s))) <= partitions + margin.
Proof.
  intros Hmake step. unfold GroupSizeLimiter.make in Hmake.
  destruct (Z.ltb_spec partitions 1), (Z.ltb_spec margin 0); try done. injection Hmake as <-.
  assert (H' : GroupSizeLimiter.cap (run step ops (GroupSizeLimiter.mk partitions margin ∅)) = partitions + margin
    ∧ Z.of_nat (size (GroupSizeLimiter.members (run step ops (GroupSizeLimiter.mk partitions margin ∅)))) <= partitions + margin); [|by apply H'].
  apply run_invariant; [|cbn; split; [done|rewrite size_empty; lia]].
  intros [[] m] s [Hc Hs]; unfold step, state_of; cbn [fst snd].
  - unfold GroupSizeLimiter.join. rewrite bind_get. case_bool_decide as Hin; [done|]. rewrite bind_raise_if, Hc.
    destruct (Z.leb_spec (partitions + margin) (Z.of_nat (size (GroupSizeLimiter.members s)))); [done|].
    rewrite run_put. cbn. split; [done|]. rewrite size_union, size_singleton by set_solver. lia.
  - unfold GroupSizeLimiter.leave. rewrite run_modify. cbn. split; [done|].
    assert (size (GroupSizeLimiter.members s ∖ {[m]}) <= size (GroupSizeLimiter.members s))%nat by (apply subseteq_size; set_solver). lia.
Qed.

(** A partition's configured owner never changes. *)
Theorem static_owner_fixed partition member member' s ops :
  StaticAssignor.owner s partition = Ok member →
  let step (o : string * string) s := state_of (StaticAssignor.assign o.1 o.2) s in
  StaticAssignor.owner (run step ops s) partition = Ok member
  ∧ (member' ≠ member → StaticAssignor.assign partition member' (run step ops s) = (run step ops s, Err Invalid)).
Proof.
  intros Ho step.
  assert (Hget : d_get (StaticAssignor.owner_of (run step ops s)) partition = Some member).
  { apply run_invariant; [|unfold StaticAssignor.owner in Ho; by destruct (d_get _ _); simplify_eq].
    intros [p m] s' Hs'. unfold step, state_of, StaticAssignor.assign. cbn [fst snd]. rewrite bind_get, bind_raise_if.
    destruct (d_get (StaticAssignor.owner_of s') p) as [m'|] eqn:Hp; [case_bool_decide as Heq|]; cbn; [|done|].
    - rewrite d_get_set. case_bool_decide; [|done]. congruence.
    - rewrite d_get_set. case_bool_decide; [|done]. congruence. }
  split; [unfold StaticAssignor.owner; by rewrite Hget|]. intros Hne. unfold StaticAssignor.assign.
  rewrite bind_get, bind_raise_if, Hget, bool_decide_false by done. done.
Qed.

(** The placement rule is checked only when the standby is placed: an active task that moves onto its
    standby's instance is accepted, and so is a standby on an instance nobody knows. *)
Theorem standby_rule_not_kept :
  let s := TaskAssignment.mk ["i"; "j"]%string [] [] in
  let ops := TaskAssignment.assign_active "t" "i";; TaskAssignment.assign_standby "t" "j";; TaskAssignment.assign_active "t" "j" in
  value_of ops s = Ok () ∧ TaskAssignment.collocated_standbys (state_of ops s) = ["t"]%string
  ∧ value_of (TaskAssignment.assign_standby "t" "nowhere") s = Ok ().
Proof. by vm_compute. Qed.
