(* ===== verification/Cluster.v ===== *)
(** * The cluster's metadata and placement

    [relay/controller.py] owns the metadata and [relay/metadatacache.py] is a broker's copy of
    it; [relay/controllerepoch.py] fences deposed controllers, [relay/metadatadelta.py] applies
    changes in order and [relay/metadatasnapshot.py] folds them; [relay/cluster.py] tracks which
    brokers live. [relay/placement.py] and [relay/rackawareness.py] place replicas,
    [relay/preferredleader.py] and [relay/offlinepartition.py] choose leaders,
    [relay/reassignment.py] moves a replica, [relay/stopreplica.py] and
    [relay/unregisterbroker.py] take one away, and [relay/isrflap.py] holds out a replica that
    keeps coming and going. *)

From S2P Require Import Prelude PyDict PyBytes PyFloat.

Module controller.
(** [relay/controller.py] class Metadata *)
Record Metadata := mk_metadata { version : Z; leaders : gmap Z string }.

(** [relay/controller.py] Metadata.leader_of *)
Definition leader_of (self : Metadata) (partition : Z) : result string :=
  match leaders self !! partition with Some l => Ok l | None => Err Invalid end.

Module Controller.
(** [relay/controller.py] class Controller *)
Record t := mk { controller_epoch : Z; metadata : Metadata; updates_applied : Z; stale_routes_caught : Z }.

Definition make (controller_epoch : Z) (metadata : Metadata) : t := mk controller_epoch metadata 0 0.

(** [relay/controller.py] Controller.update_leader *)
Definition update_leader (epoch partition : Z) (leader : string) : act t unit :=
  self ← get;
  raise_if (epoch <? controller_epoch self) Fenced;;
  put (mk (controller_epoch self)
          (mk_metadata (version (metadata self) + 1) (<[partition := leader]> (leaders (metadata self))))
          (updates_applied self + 1) (stale_routes_caught self)).

(** [relay/controller.py] Controller.route *)
Definition route (broker_cached_version partition : Z) : act t string :=
  self ← get;
  if broker_cached_version <? version (metadata self) then
    put (mk (controller_epoch self) (metadata self) (updates_applied self) (stale_routes_caught self + 1));;
    raise Invalid
  else pure_of (leader_of (metadata self) partition).

(** [relay/controller.py] Controller.report *)
Definition report (self : t) : string :=
  "controller epoch " +:+ zs (controller_epoch self) +:+ ", metadata version " +:+ zs (version (metadata self)) +:+ ", "
  +:+ zs (updates_applied self) +:+ " update(s), " +:+ zs (stale_routes_caught self)
  +:+ " stale route(s) caught before they reached a dead leader".
End Controller.
End controller.
Import controller.

Module metadatacache.
Module MetadataCache.
(** [relay/metadatacache.py] class MetadataCache *)
Record t := mk { version : Z; leaders : gmap Z string; refreshes_on_error : Z; refreshes_proactive : Z }.

Definition make : t := mk 0 ∅ 0 0.

(** [relay/metadatacache.py] MetadataCache.install *)
Definition install (version_ : Z) (leaders_ : gmap Z string) : act t unit :=
  self ← get;
  raise_if (version_ <? version self) Invalid;;
  put (mk version_ leaders_ (refreshes_on_error self) (refreshes_proactive self)).

(** [relay/metadatacache.py] MetadataCache.leader_of *)
Definition leader_of (self : t) (partition : Z) : result string :=
  match leaders self !! partition with Some l => Ok l | None => Err Invalid end.

(** [relay/metadatacache.py] MetadataCache.on_not_leader *)
Definition on_not_leader (partition new_version : Z) (new_leader : string) : act t unit :=
  modify (λ self, mk (version self) (leaders self) (refreshes_on_error self + 1) (refreshes_proactive self));;
  self ← get;
  install new_version (<[partition := new_leader]> (leaders self)).

(** [relay/metadatacache.py] MetadataCache.on_newer_version_seen: whether it refreshed *)
Definition on_newer_version_seen (seen_version : Z) (refreshed_leaders : gmap Z string) : act t bool :=
  self ← get;
  if seen_version <=? version self then mret false
  else
    modify (λ self, mk (version self) (leaders self) (refreshes_on_error self) (refreshes_proactive self + 1));;
    install seen_version refreshed_leaders;;
    mret true.

(** [relay/metadatacache.py] MetadataCache.health *)
Definition health (self : t) : result string :=
  let total := refreshes_on_error self + refreshes_proactive self in
  if total =? 0 then Ok "no refreshes; the cache has been stable"
  else
    error_share ← z_truediv (refreshes_on_error self) total;
    let note := if f_lt (f_dec 5 (-1)) error_share then
        "; mostly on errors means the cache is mostly wrong before it corrects, a cluster churning leadership"
      else "" in
    Ok (zs (refreshes_on_error self) +:+ " error refresh(es), " +:+ zs (refreshes_proactive self) +:+ " proactive" +:+ note).
End MetadataCache.
End metadatacache.
Import metadatacache.

Module controllerepoch.
Module ControllerFencer.
(** [relay/controllerepoch.py] class ControllerFencer *)
Record t := mk { current_epoch : Z; controller : string; rejected_stale : Z }.

Definition make : t := mk 0 "" 0.

(** [relay/controllerepoch.py] ControllerFencer.take_over *)
Definition take_over (broker : string) (epoch : Z) : act t unit :=
  self ← get;
  raise_if ((epoch <=? current_epoch self) && negb (current_epoch self =? 0)) Invalid;;
  put (mk epoch broker (rejected_stale self)).

(** [relay/controllerepoch.py] ControllerFencer.apply_change *)
Definition apply_change (from_epoch : Z) : act t unit :=
  self ← get;
  if from_epoch <? current_epoch self then
    put (mk (current_epoch self) (controller self) (rejected_stale self + 1));; raise Fenced
  else raise_if (current_epoch self <? from_epoch) Invalid.

(** [relay/controllerepoch.py] ControllerFencer.report *)
Definition report (self : t) : string :=
  "controller " +:+ controller self +:+ " at epoch " +:+ zs (current_epoch self) +:+ ", " +:+ zs (rejected_stale self)
  +:+ " stale change(s) fenced; a deposed controller still trying shows here".
End ControllerFencer.
End controllerepoch.
Import controllerepoch.

Module metadatadelta.
Module MetadataApplier.
(** [relay/metadatadelta.py] class MetadataApplier *)
Record t := mk { applied_seq : Z; needs_resync : bool }.

Definition make : t := mk (-1) false.

(** [relay/metadatadelta.py] MetadataApplier.full_image *)
Definition full_image (seq : Z) : act t unit := put (mk seq false).

(** [relay/metadatadelta.py] MetadataApplier.apply_delta: whether it was applied, and not a duplicate *)
Definition apply_delta (seq : Z) : act t bool :=
  self ← get;
  if seq =? applied_seq self then mret false
  else
    raise_if (seq <? applied_seq self) Invalid;;
    if negb (seq =? applied_seq self + 1) then put (mk (applied_seq self) true);; raise Invalid
    else put (mk seq (needs_resync self));; mret true.

(** [relay/metadatadelta.py] MetadataApplier.view_status: whether the view is whole, and the sequence *)
Definition view_status (self : t) : bool * Z := (negb (needs_resync self), applied_seq self).
End MetadataApplier.
End metadatadelta.
Import metadatadelta.

Module metadatasnapshot.
Module SnapshotManager.
(** [relay/metadatasnapshot.py] class SnapshotManager *)
Record t := mk { log_start : Z; log_end : Z; snapshot_offset : Z; snapshot_durable : bool }.

Definition make (log_start log_end : Z) : t := mk log_start log_end (-1) false.

(** [relay/metadatasnapshot.py] SnapshotManager.take *)
Definition take (at_offset : Z) : act t unit :=
  self ← get;
  raise_if (log_end self <? at_offset) Invalid;;
  raise_if (at_offset <=? snapshot_offset self) Invalid;;
  put (mk (log_start self) (log_end self) at_offset false).

(** [relay/metadatasnapshot.py] SnapshotManager.mark_durable *)
Definition mark_durable : act t unit :=
  modify (λ self, mk (log_start self) (log_end self) (snapshot_offset self) true).

(** [relay/metadatasnapshot.py] SnapshotManager.discard_below: the new start *)
Definition discard_below : act t Z :=
  self ← get;
  raise_if (negb (snapshot_durable self)) Invalid;;
  put (mk (snapshot_offset self + 1) (log_end self) (snapshot_offset self) (snapshot_durable self));;
  mret (snapshot_offset self + 1).

(** [relay/metadatasnapshot.py] SnapshotManager.replay_tail *)
Definition replay_tail (self : t) : Z :=
  if snapshot_offset self <? 0 then log_end self - log_start self else log_end self - snapshot_offset self.

(** [relay/metadatasnapshot.py] SnapshotManager.load: the offset and the tail in the message *)
Definition load (self : t) : result (Z * Z) :=
  if (0 <=? snapshot_offset self) && (snapshot_offset self + 1 <? log_start self) then Err Invalid
  else Ok (snapshot_offset self, replay_tail self).
End SnapshotManager.
End metadatasnapshot.
Import metadatasnapshot.

Module cluster.
(** [relay/cluster.py] class Broker *)
Record Broker := mk_broker { broker_id : string; rack : string; last_heartbeat : Z; fenced : bool }.

Module ClusterMembership.
(** [relay/cluster.py] class ClusterMembership *)
Record t := mk { fence_after : Z; brokers : pydict string Broker; epoch : Z }.

(** [relay/cluster.py] ClusterMembership.__post_init__ *)
Definition make (fence_after : Z) : result t := if fence_after <? 1 then Err Invalid else Ok (mk fence_after [] 0).

(** [relay/cluster.py] ClusterMembership.register *)
Definition register (broker_id rack : string) (now : Z) : act t unit :=
  modify (λ self, mk (fence_after self) (d_set (brokers self) broker_id (mk_broker broker_id rack now false)) (epoch self + 1)).

(** [relay/cluster.py] ClusterMembership.heartbeat *)
Definition heartbeat (broker_id : string) (now : Z) : act t unit :=
  self ← get;
  match d_get (brokers self) broker_id with
  | None => raise Missing
  | Some broker =>
      raise_if (fenced broker) Invalid;;
      put (mk (fence_after self)
              (d_set (brokers self) broker_id (mk_broker (cluster.broker_id broker) (rack broker) now (fenced broker))) (epoch self))
  end.

(** [not broker.fenced and now - broker.last_heartbeat > self.fence_after] *)
Definition lapsed (self : t) (now : Z) (b : Broker) : bool :=
  negb (fenced b) && (fence_after self <? now - last_heartbeat b).

(** [relay/cluster.py] ClusterMembership.fence_lapsed *)
Definition fence_lapsed (now : Z) : act t (list string) :=
  self ← get;
  let newly := broker_id <$> List.filter (lapsed self now) (d_values (brokers self)) in
  put (mk (fence_after self)
          ((λ p : string * Broker, (p.1, if lapsed self now p.2
              then mk_broker (broker_id p.2) (rack p.2) (last_heartbeat p.2) true else p.2)) <$> brokers self)
          (if bool_decide (newly = []) then epoch self else epoch self + 1));;
  mret (py_sorted String.le newly).

(** [relay/cluster.py] ClusterMembership.live_brokers *)
Definition live_brokers (self : t) : list string :=
  py_sorted String.le (broker_id <$> List.filter (λ b, negb (fenced b)) (d_values (brokers self))).

(** [relay/cluster.py] ClusterMembership.racks_available *)
Definition racks_available (self : t) : gset string :=
  list_to_set (rack <$> List.filter (λ b, negb (fenced b)) (d_values (brokers self))).

(** [relay/cluster.py] ClusterMembership.rack_diverse_enough: the answer of the message *)
Definition rack_diverse_enough (self : t) (replication_factor : Z) : bool :=
  replication_factor <=? Z.of_nat (size (racks_available self)).
End ClusterMembership.
End cluster.
Import cluster.

Module placement.
Module Placer.
(** [relay/placement.py] class Placer *)
Record t := mk { brokers : list string; rack_of : pydict string string; replication_factor : Z }.

(** [relay/placement.py] Placer.__post_init__ *)
Definition make (brokers : list string) (rack_of : pydict string string) (replication_factor : Z) : result t :=
  if replication_factor <? 1 then Err Invalid
  else if zlen brokers <? replication_factor then Err Invalid
  else Ok (mk brokers rack_of replication_factor).

(** [relay/placement.py:53-56] Placer.place *)
Fixpoint replicas_from (self : t) (start : Z) (steps : list Z) : result (list string) :=
  match steps with
  | [] => Ok []
  | step :: steps =>
      i ← py_mod (start + step) (zlen (brokers self));
      b ← py_index (brokers self) i;
      rest ← replicas_from self start steps;
      Ok (b :: rest)
  end.

(** [relay/placement.py:51-57] Placer.place *)
Fixpoint place_loop (self : t) (partitions : list Z) (assignment : pydict Z (list string)) : result (pydict Z (list string)) :=
  match partitions with
  | [] => Ok assignment
  | partition :: partitions =>
      start ← py_mod partition (zlen (brokers self));
      replicas ← replicas_from self start (seqZ 0 (replication_factor self));
      place_loop self partitions (d_set assignment partition replicas)
  end.

(** [relay/placement.py] Placer.place *)
Definition place (self : t) (partitions : Z) : result (pydict Z (list string)) := place_loop self (seqZ 0 partitions) [].

(** [self.rack_of[b] for b in replicas] *)
Fixpoint racks_for (rack_of : pydict string string) (replicas : list string) : result (list string) :=
  match replicas with
  | [] => Ok []
  | b :: replicas => r ← d_item rack_of b; rest ← racks_for rack_of replicas; Ok (r :: rest)
  end.

(** [relay/placement.py:64-67] Placer.rack_violations *)
Fixpoint violations_of (self : t) (assignment : pydict Z (list string)) : result (list Z) :=
  match assignment with
  | [] => Ok []
  | (partition, replicas) :: assignment =>
      racks ← racks_for (rack_of self) replicas;
      rest ← violations_of self assignment;
      Ok (if Z.of_nat (size (list_to_set racks : gset string)) <? zlen racks then partition :: rest else rest)
  end.

(** [relay/placement.py] Placer.rack_violations *)
Definition rack_violations (self : t) (assignment : pydict Z (list string)) : result (list Z) :=
  violated ← violations_of self assignment; Ok (py_sorted Z.le violated).

(** [relay/placement.py] Placer.balance_spread *)
Definition balance_spread (self : t) (assignment : pydict Z (list string)) : result Z :=
  let counts : pydict string Z := foldl (λ counts b, d_set counts b 0) [] (brokers self) in
  counts ← r_fold (d_values assignment) counts (λ counts replicas,
    r_fold replicas counts (λ counts broker,
      n ← d_item counts broker;
      Ok (d_set counts broker (n + 1))));
  match d_values counts with [] => Err ValueError | c :: cs => Ok (py_max c cs - py_min c cs) end.
(** [relay/placement.py] Placer.report *)
Definition report (self : t) (partitions : Z) : result string :=
  assignment ← place self partitions;
  spread ← balance_spread self assignment;
  violations ← rack_violations self assignment;
  let racks := Z.of_nat (size (list_to_set (d_values (rack_of self)) : gset string)) in
  let first := zs partitions +:+ " partition(s) placed: balance spread " +:+ zs spread in
  let second := match violations with
                | _ :: _ =>
                    "  " +:+ zs (zlen violations) +:+ " partition(s) share a rack (" +:+ zs racks +:+ " rack(s) for factor "
                    +:+ zs (replication_factor self) +:+ "); a hidden single point of failure that surfaces only in the outage"
                | [] => "  every partition's replicas span racks; no rack failure takes a majority"
                end in
  Ok (join_str nl [first; second]).
End Placer.
End placement.
Import placement.

Module rackawareness.
Module RackAwarePlacement.
(** [relay/rackawareness.py] class RackAwarePlacement *)
Record t := mk { racks : pydict string string }.

Definition make : t := mk [].

(** [relay/rackawareness.py] RackAwarePlacement.add_broker *)
Definition add_broker (broker rack : string) : act t unit :=
  raise_if (bool_decide (rack = ""%string)) Invalid;;
  modify (λ self, mk (d_set (racks self) broker rack)).

(** pairs of strings in the order of tuples *)
Definition pair_le (p q : string * string) : Prop := String.le p.1 q.1 ∧ (p.1 = q.1 → String.le p.2 q.2).
#[global] Instance pair_le_dec : RelDecision pair_le.
Proof. intros p q. unfold pair_le. apply _. Defined.

(** [relay/rackawareness.py:59-61] RackAwarePlacement.place *)
Definition by_rack (self : t) : pydict string (list string) :=
  foldl (λ d (p : string * string), d_set d p.2 (d_getd d p.2 [] ++ [p.1])) [] (py_sorted pair_le (racks self)).

(** [relay/rackawareness.py:66-70] RackAwarePlacement.place *)
Fixpoint take_heads (queues : list (list string)) : result (list string * list (list string)) :=
  match queues with
  | [] => Ok ([], [])
  | [] :: _ => Err IndexError
  | (b :: q) :: queues =>
      r ← take_heads queues;
      Ok (b :: r.1, match q with [] => r.2 | _ => q :: r.2 end)
  end.

(** [relay/rackawareness.py:65-71] RackAwarePlacement.place *)
Definition place_round (s : list string * list (list string)) : result (list string * list (list string) + list string) :=
  match s.2 with
  | [] => Ok (inr s.1)
  | queues => r ← take_heads queues; Ok (inl (s.1 ++ r.1, r.2))
  end.

(** [relay/rackawareness.py] RackAwarePlacement.place *)
Definition place (self : t) (replication_factor : Z) : result (list string) :=
  if replication_factor <? 1 then Err Invalid
  else if zlen (racks self) <? replication_factor then Err Invalid
  else
    order ← loop place_round (S (length (racks self))) ([], d_values (by_rack self));
    Ok (take (Z.to_nat replication_factor) order).

(** [relay/rackawareness.py] RackAwarePlacement.rack_span *)
Definition rack_span (self : t) (replicas : list string) : result Z :=
  racks ← Placer.racks_for (racks self) replicas;
  Ok (Z.of_nat (size (list_to_set racks : gset string))).

(** [relay/rackawareness.py] RackAwarePlacement.note *)
Definition note (self : t) (replication_factor : Z) : result string :=
  chosen ← place self replication_factor;
  span ← rack_span self chosen;
  let warn := if 1 <? span then "" else " (span of one, the failure this prevents)" in
  Ok (zs replication_factor +:+ " replica(s) span " +:+ zs span +:+ " rack(s)" +:+ warn
      +:+ "; a whole-rack outage costs at most the replicas that rack held").
End RackAwarePlacement.
End rackawareness.
Import rackawareness.

Module preferredleader.
Module LeadershipBalance.
(** [relay/preferredleader.py] class LeadershipBalance *)
Record t := mk { preferred : pydict Z string; current_leader : pydict Z string; in_sync : gmap Z (gset string) }.

(** [relay/preferredleader.py] LeadershipBalance.leader_counts *)
Definition leader_counts (self : t) : pydict string Z :=
  foldl (λ counts leader, d_set counts leader (d_getd counts leader 0 + 1)) [] (d_values (current_leader self)).

(** [relay/preferredleader.py] LeadershipBalance.imbalance *)
Definition imbalance (self : t) : Z :=
  match d_values (leader_counts self) with [] => 0 | c :: cs => py_max c cs - py_min c cs end.

(** [preferred in self.in_sync.get(partition, set())] *)
Definition is_in_sync (self : t) (partition : Z) (broker : string) : bool :=
  bool_decide (broker ∈ default ∅ (in_sync self !! partition)).

(** [relay/preferredleader.py] LeadershipBalance.restorable *)
Definition restorable (self : t) : list Z :=
  py_sorted Z.le (List.filter (λ p : Z * string,
    negb (bool_decide (d_get (current_leader self) p.1 = Some p.2)) && is_in_sync self p.1 p.2) (preferred self)).*1.

(** [relay/preferredleader.py] LeadershipBalance.restore: whether leadership moved *)
Definition restore (partition : Z) : act t bool :=
  self ← get;
  match d_get (preferred self) partition with
  | None => raise Invalid
  | Some preferred_ =>
      if bool_decide (d_get (current_leader self) partition = Some preferred_) then mret false
      else
        raise_if (negb (is_in_sync self partition preferred_)) Invalid;;
        put (mk (preferred self) (d_set (current_leader self) partition preferred_) (in_sync self));;
        mret true
  end.

(** [relay/preferredleader.py] LeadershipBalance.report *)
Definition report (self : t) : result string :=
  let counts := leader_counts self in
  let spread := imbalance self in
  if spread <=? 1 then Ok ("leadership balanced (spread " +:+ zs spread +:+ "); no broker is a hotspot")
  else
    busiest ← py_max_key Z.ltb snd counts;
    idlest ← py_min_key Z.ltb snd counts;
    Ok ("spread " +:+ zs spread +:+ ": " +:+ busiest.1 +:+ " leads " +:+ zs busiest.2 +:+ " while " +:+ idlest.1 +:+ " leads "
        +:+ zs idlest.2 +:+ "; the average would hide that one broker is melting").
End LeadershipBalance.
End preferredleader.
Import preferredleader.

Module offlinepartition.
(** [relay/offlinepartition.py] class Replica *)
Record Replica := mk_replica { broker : string; available : bool; in_sync : bool }.

Module PartitionAvailability.
(** [relay/offlinepartition.py] class PartitionAvailability *)
Record t := mk { replicas : list Replica; allow_unclean : bool }.

(** [relay/offlinepartition.py] PartitionAvailability._available_in_sync *)
Definition _available_in_sync (self : t) : list Replica := List.filter (λ r, available r && in_sync r) (replicas self).

(** [relay/offlinepartition.py] PartitionAvailability._available_any *)
Definition _available_any (self : t) : list Replica := List.filter available (replicas self).

(** [relay/offlinepartition.py] PartitionAvailability.is_online *)
Definition is_online (self : t) : bool :=
  match _available_in_sync self with
  | _ :: _ => true
  | [] => allow_unclean self && match _available_any self with [] => false | _ => true end
  end.

(** [relay/offlinepartition.py] PartitionAvailability.leader *)
Definition leader (self : t) : result string :=
  match _available_in_sync self with
  | r :: _ => Ok (broker r)
  | [] => if allow_unclean self then match _available_any self with r :: _ => Ok (broker r) | [] => Err Invalid end
          else Err Invalid
  end.

(** the three answers of [why_offline] *)
Inductive reason := Online | AllDown | NeedsUnclean.

(** [relay/offlinepartition.py] PartitionAvailability.why_offline *)
Definition why_offline (self : t) : reason :=
  if is_online self then Online else match _available_any self with [] => AllDown | _ => NeedsUnclean end.

(** [relay/offlinepartition.py] PartitionAvailability.unclean_recovery: the candidate in the message *)
Definition unclean_recovery (self : t) : option string :=
  if is_online self then None else match _available_any self with [] => None | r :: _ => Some (broker r) end.
End PartitionAvailability.
End offlinepartition.
Import offlinepartition.

Module reassignment.
Module ReplicaMove.
(** [relay/reassignment.py] class ReplicaMove *)
Record t := mk {
  partition : Z;
  from_broker : string;
  to_broker : string;
  total_bytes : Z;
  throttle_bytes_per_tick : Z;
  copied_bytes : Z;
  cancelled : bool;
}.

(** [relay/reassignment.py] ReplicaMove.__post_init__ *)
Definition make (partition : Z) (from_broker to_broker : string) (total throttle : Z) : result t :=
  if throttle <? 1 then Err Invalid
  else if bool_decide (from_broker = to_broker) then Err Invalid
  else Ok (mk partition from_broker to_broker total throttle 0 false).

(** [relay/reassignment.py] ReplicaMove.eta_ticks *)
Definition eta_ticks (self : t) : result Z :=
  let remaining := total_bytes self - copied_bytes self in
  q ← py_div (- remaining) (throttle_bytes_per_tick self);
  Ok (- q).

(** [relay/reassignment.py] ReplicaMove.caught_up *)
Definition caught_up (self : t) : bool := total_bytes self <=? copied_bytes self.

(** [relay/reassignment.py] ReplicaMove.advance: whether it is fully copied, or the ticks left *)
Definition advance (ticks : Z) : act t (option Z) :=
  self ← get;
  raise_if (cancelled self) Invalid;;
  put (mk (partition self) (from_broker self) (to_broker self) (total_bytes self) (throttle_bytes_per_tick self)
          (Z.min (total_bytes self) (copied_bytes self + ticks * throttle_bytes_per_tick self)) (cancelled self));;
  self ← get;
  if caught_up self then mret None else eta ← pure_of (eta_ticks self); mret (Some eta).

(** [relay/reassignment.py] ReplicaMove.eligible_for_election *)
Definition eligible_for_election (self : t) : bool := caught_up self && negb (cancelled self).

(** [relay/reassignment.py] ReplicaMove.cancel *)
Definition cancel : act t unit :=
  modify (λ self, mk (partition self) (from_broker self) (to_broker self) (total_bytes self)
    (throttle_bytes_per_tick self) (copied_bytes self) true).
End ReplicaMove.
End reassignment.
Import reassignment.

Module stopreplica.
Module ReplicaHost.
(** [relay/stopreplica.py] class ReplicaHost *)
Record t := mk { hosted : gset string; leading : gset string; on_disk : gset string }.

(** [relay/stopreplica.py] ReplicaHost.stop_replica *)
Definition stop_replica (partition : string) (delete : bool) : act t unit :=
  self ← get;
  raise_if (negb (bool_decide (partition ∈ hosted self))) Missing;;
  raise_if (bool_decide (partition ∈ leading self)) Invalid;;
  put (mk (hosted self ∖ {[partition]}) (leading self) (if delete then on_disk self ∖ {[partition]} else on_disk self)).
End ReplicaHost.
End stopreplica.
Import stopreplica.

Module unregisterbroker.
Module Decommission.
(** [relay/unregisterbroker.py] class Decommission *)
Record t := mk { leads : gset string; hosts_needed : gset string }.

(** [relay/unregisterbroker.py] Decommission.leadership_moved *)
Definition leadership_moved (partition : string) : act t unit := modify (λ self, mk (leads self ∖ {[partition]}) (hosts_needed self)).

(** [relay/unregisterbroker.py] Decommission.replica_rehomed *)
Definition replica_rehomed (partition : string) : act t unit := modify (λ self, mk (leads self) (hosts_needed self ∖ {[partition]})).

(** [relay/unregisterbroker.py] Decommission.can_unregister *)
Definition can_unregister (self : t) : bool := bool_decide (leads self = ∅) && bool_decide (hosts_needed self = ∅).

(** [relay/unregisterbroker.py] Decommission.unregister *)
Definition unregister (self : t) : result unit :=
  if bool_decide (leads self ≠ ∅) then Err Invalid
  else if bool_decide (hosts_needed self ≠ ∅) then Err Invalid
  else Ok ().

(** [relay/unregisterbroker.py] Decommission.blockers *)
Definition blockers (self : t) : string :=
  if can_unregister self then "nothing blocks the decommission; safe to unregister"
  else "blocked: leads " +:+ repr_list repr_str (py_sorted String.le (elements (leads self))) +:+ ", hosts needed "
       +:+ repr_list repr_str (py_sorted String.le (elements (hosts_needed self)))
       +:+ "; a hang here is usually a reassignment still catching up".
End Decommission.
End unregisterbroker.
Import unregisterbroker.

Module isrflap.
Module ReplicaFlapHistory.
(** [relay/isrflap.py] class ReplicaFlapHistory *)
Record t := mk { name : string; transitions : list (Z * bool) }.

(** [relay/isrflap.py] ReplicaFlapHistory.record *)
Definition record (tick : Z) (in_sync : bool) : act t unit :=
  self ← get;
  match last (transitions self) with
  | Some (tick', in_sync') =>
      raise_if (tick <=? tick') Invalid;;
      if negb (bool_decide (in_sync' = in_sync)) then put (mk (name self) (transitions self ++ [(tick, in_sync)])) else mret ()
  | None => put (mk (name self) (transitions self ++ [(tick, in_sync)]))
  end.

(** [relay/isrflap.py] ReplicaFlapHistory.transitions_in_window *)
Definition transitions_in_window (self : t) (now window : Z) : Z :=
  zlen (List.filter (λ p : Z * bool, now - p.1 <=? window) (transitions self)).
End ReplicaFlapHistory.

Module FlapDetector.
(** [relay/isrflap.py] class FlapDetector *)
Record t := mk { window : Z; flap_threshold : Z; cooldown : Z }.

(** [relay/isrflap.py] FlapDetector.__post_init__ *)
Definition make (window flap_threshold cooldown : Z) : result t :=
  if flap_threshold <? 2 then Err Invalid else Ok (mk window flap_threshold cooldown).

(** [relay/isrflap.py] FlapDetector.is_flapping *)
Definition is_flapping (self : t) (history : ReplicaFlapHistory.t) (now : Z) : bool :=
  flap_threshold self <=? ReplicaFlapHistory.transitions_in_window history now (window self).

(** the three answers of [may_rejoin] *)
Inductive verdict := NotQualified | HeldOut | MayRejoin.

(** [relay/isrflap.py] FlapDetector.may_rejoin *)
Definition may_rejoin (self : t) (history : ReplicaFlapHistory.t) (now : Z) (currently_qualifies : bool) : verdict :=
  if negb currently_qualifies then NotQualified
  else if is_flapping self history now then HeldOut
  else MayRejoin.

(** [relay/isrflap.py] FlapDetector.classify: the names in the message *)
Definition classify (self : t) (histories : list ReplicaFlapHistory.t) (now : Z) : list string :=
  py_sorted String.le (ReplicaFlapHistory.name <$> List.filter (λ h, is_flapping self h now) histories).
End FlapDetector.
End isrflap.
Import isrflap.


(** ** Routing on a cached version of the metadata *)

Section routing.

(** the controller, everything it has published so far, and a broker's copy *)
Record world := mk_world { ctl : Controller.t; published : list Metadata; copy : MetadataCache.t }.

Inductive cluster_op :=
  | Update (epoch partition : Z) (leader : string)
  (* a refresh may carry any snapshot that was ever published, however late it arrives *)
  | Install (i : nat)
  | NewerSeen (i : nat)
  | Route (partition : Z).

Definition cluster_step (o : cluster_op) (w : world) : world :=
  match o with
  | Update epoch partition leader =>
      let ctl' := state_of (Controller.update_leader epoch partition leader) (ctl w) in
      mk_world ctl' (published w ++ [Controller.metadata ctl']) (copy w)
  | Install i =>
      match published w !! i with
      | Some m => mk_world (ctl w) (published w)
                    (state_of (MetadataCache.install (version m) (leaders m)) (copy w))
      | None => w
      end
  | NewerSeen i =>
      match published w !! i with
      | Some m => mk_world (ctl w) (published w)
                    (state_of (MetadataCache.on_newer_version_seen (version m) (leaders m)) (copy w))
      | None => w
      end
  | Route partition =>
      mk_world (state_of (Controller.route (MetadataCache.version (copy w)) partition) (ctl w)) (published w) (copy w)
  end.

Definition cluster_start (c : Controller.t) : world := mk_world c [Controller.metadata c] MetadataCache.make.

Definition routing_ok (w : world) : Prop :=
  (∀ m, m ∈ published w → version m <= version (Controller.metadata (ctl w)) ∧
     (version m = version (Controller.metadata (ctl w)) → m = Controller.metadata (ctl w))) ∧
  (MetadataCache.leaders (copy w) = ∅ ∨
   mk_metadata (MetadataCache.version (copy w)) (MetadataCache.leaders (copy w)) ∈ published w).

Lemma published_snoc l (m0 m : Metadata) :
  (∀ m', m' ∈ l → version m' <= version m0 ∧ (version m' = version m0 → m' = m0)) →
  version m = version m0 + 1 ∨ m = m0 →
  ∀ m', m' ∈ l ++ [m] → version m' <= version m ∧ (version m' = version m → m' = m).
Proof.
  intros Hl Hm m' [H%Hl|H]%elem_of_app.
  - destruct Hm as [Hm| ->]; [|done]. split; [lia|]. intros. lia.
  - apply list_elem_of_singleton in H as ->. split; [lia|done].
Qed.

Lemma routing_ok_step o w : routing_ok w → routing_ok (cluster_step o w).
Proof.
  intros [Hpub Hcopy].
  destruct o as [epoch partition leader|i|i|partition]; cbn [cluster_step]; [|destruct (published w !! i) as [m|] eqn:Hi; [|done]..|].
  - split; cbn [ctl published copy]; [|destruct Hcopy; [by left|right; apply elem_of_app; by left]].
    eapply published_snoc; [exact Hpub|].
    unfold state_of, Controller.update_leader. act_simpl. bool_split; [by right|by left].
  - apply list_elem_of_lookup_2 in Hi. split; [done|].
    unfold state_of, MetadataCache.install. act_simpl. bool_split; [done|]. right. by destruct m.
  - apply list_elem_of_lookup_2 in Hi. split; [done|].
    unfold state_of, MetadataCache.on_newer_version_seen, MetadataCache.install. act_simpl.
    bool_split; [done|]. act_simpl. bool_split; [done|]. right. by destruct m.
  - split; cbn [ctl published copy]; [|done]. intros m Hm. specialize (Hpub m Hm).
    unfold state_of, Controller.route. act_simpl. by bool_split.
Qed.

Lemma routing_ok_run ops c : routing_ok (run cluster_step ops (cluster_start c)).
Proof.
  apply run_invariant; [apply routing_ok_step|]. split; [|by left].
  intros m ->%list_elem_of_singleton. done.
Qed.
End routing.

(** C30 (safety): the version is what makes a cached route safe.  Whatever the order in which a
    broker's copy is refreshed, with snapshots of the metadata that may arrive late or out of order,
    and however the leaders move meanwhile: a request stamped with the copy's version is refused and
    counted when the version is behind, and when it is let through the leader it is routed to is
    the leader the copy names, if it names one. *)
Theorem metadata_route_current ops c partition :
  let w := run cluster_step ops (cluster_start c) in
  let v := MetadataCache.version (copy w) in
  let '(ctl', r) := Controller.route v partition (ctl w) in
  Controller.metadata ctl' = Controller.metadata (ctl w) ∧
  (v < version (Controller.metadata (ctl w)) →
     r = Err Invalid ∧ Controller.stale_routes_caught ctl' = Controller.stale_routes_caught (ctl w) + 1) ∧
  (version (Controller.metadata (ctl w)) <= v →
     ctl' = ctl w ∧
     ∀ l, MetadataCache.leader_of (copy w) partition = Ok l → r = Ok l).
Proof.
  intros w v. destruct (routing_ok_run ops c) as [Hpub Hcopy]. fold w in Hpub, Hcopy.
  unfold Controller.route. act_simpl. bool_split; act_simpl; bool_prop; (split; [done|]).
  - split; [done|lia].
  - split; [lia|]. intros _. split; [done|]. intros l Hl.
    unfold MetadataCache.leader_of in Hl. destruct Hcopy as [He|Hin].
    + by rewrite He, lookup_empty in Hl.
    + destruct (Hpub _ Hin) as [Hle Heq]. cbn [version] in Hle, Heq.
      unfold leader_of. rewrite <- Heq by (fold v in Hle |- *; lia). exact Hl.
Qed.

(** the refresh on a not-leader error gives the whole table the new version, and corrects one
    partition: partition 1 moved at version 6 and partition 0 at version 7; a copy at version 5
    that is told of partition 0 only is then current by its version, is not refreshed by a hint,
    is let through, and names the old leader of partition 1 *)
Theorem not_leader_refresh_hides_stale :
  let m5 := <[0 := "b1"%string]> (<[1 := "b2"%string]> ∅) in
  let c0 := Controller.make 1 (mk_metadata 5 m5) in
  let c := state_of (Controller.update_leader 1 1 "b9";; Controller.update_leader 1 0 "b5") c0 in
  let k0 := state_of (MetadataCache.install 5 m5) MetadataCache.make in
  let k := state_of (MetadataCache.on_not_leader 0 (version (Controller.metadata c)) "b5") k0 in
  MetadataCache.leader_of k 1 = Ok "b2"%string ∧
  value_of (Controller.route (MetadataCache.version k) 1) c = Ok "b9"%string ∧
  value_of (MetadataCache.on_newer_version_seen (version (Controller.metadata c)) (leaders (Controller.metadata c))) k = Ok false.
Proof. vm_compute. done. Qed.

(** an update from a newer controller does not raise the controller's epoch, so the deposed one's
    updates are still taken after it *)
Theorem newer_epoch_does_not_fence (e e' : Z) p p' l l' c :
  Controller.controller_epoch c <= e < e' →
  value_of (Controller.update_leader e p' l') (state_of (Controller.update_leader e' p l) c) = Ok ().
Proof.
  intros He. unfold value_of, state_of, Controller.update_leader. act_simpl.
  rewrite (proj2 (Z.ltb_ge e' _)) by lia. act_simpl. by rewrite (proj2 (Z.ltb_ge e _)) by lia.
Qed.

(** ** The controller's epoch and the order of its changes *)

Section control.
Inductive fencer_op := TakeOver (broker : string) (epoch : Z) | Change (from_epoch : Z).

Definition fencer_step (o : fencer_op) (s : ControllerFencer.t) : ControllerFencer.t :=
  match o with
  | TakeOver b e => state_of (ControllerFencer.take_over b e) s
  | Change e => state_of (ControllerFencer.apply_change e) s
  end.

Lemma fencer_epoch_monotone ops s :
  1 <= ControllerFencer.current_epoch s →
  ControllerFencer.current_epoch s <= ControllerFencer.current_epoch (run fencer_step ops s).
Proof.
  intros Hs. apply (run_invariant _ (λ s', ControllerFencer.current_epoch s <= ControllerFencer.current_epoch s')); [|lia].
  intros [b e|e] s' Hs'; cbn [fencer_step];
    unfold state_of, ControllerFencer.take_over, ControllerFencer.apply_change; act_simpl; [|by repeat bool_split].
  rewrite (proj2 (Z.eqb_neq _ 0)) by lia. cbn [negb]. rewrite andb_true_r. bool_split; bool_prop; cbn; lia.
Qed.
End control.

(** a controller that took over fences every change from below its epoch, for good *)
Theorem deposed_controller_fenced b e s ops e' :
  0 < e → value_of (ControllerFencer.take_over b e) s = Ok () → e' < e →
  let s' := run fencer_step ops (state_of (ControllerFencer.take_over b e) s) in
  value_of (ControllerFencer.apply_change e') s' = Err Fenced ∧
  ControllerFencer.rejected_stale (state_of (ControllerFencer.apply_change e') s') = ControllerFencer.rejected_stale s' + 1.
Proof.
  intros He Hok Hlt s'.
  assert (ControllerFencer.current_epoch (state_of (ControllerFencer.take_over b e) s) = e) as Hcur.
  { revert Hok. unfold value_of, state_of, ControllerFencer.take_over. act_simpl. by bool_split. }
  pose proof (fencer_epoch_monotone ops (state_of (ControllerFencer.take_over b e) s) ltac:(lia)) as Hm.
  fold s' in Hm. unfold value_of, state_of, ControllerFencer.apply_change. act_simpl.
  by rewrite (proj2 (Z.ltb_lt e' _)) by lia.
Qed.

Lemma deposed_controller_fenced_witness :
  value_of (ControllerFencer.apply_change 1)
    (run fencer_step [Change 2; TakeOver "c" 3] (state_of (ControllerFencer.take_over "b" 2) ControllerFencer.make)) = Err Fenced.
Proof. refine (proj1 (deposed_controller_fenced "b" 2 ControllerFencer.make [Change 2; TakeOver "c" 3] 1 _ _ _)); [lia|reflexivity|lia]. Defined.

(** ** Deltas of the metadata in order *)

Section deltas.
Inductive delta_op := FullImage (seq : Z) | Delta (seq : Z).

(** what was seen since the last image: its number, the deltas applied and those refused *)
Record trace := mk_trace { image : Z; applied : list Z; seen : list Z }.

Definition delta_step (o : delta_op) (s : MetadataApplier.t * trace) : MetadataApplier.t * trace :=
  match o with
  | FullImage seq => (state_of (MetadataApplier.full_image seq) s.1, mk_trace seq [] [])
  | Delta seq =>
      (state_of (MetadataApplier.apply_delta seq) s.1,
       mk_trace (image s.2)
         (applied s.2 ++ match value_of (MetadataApplier.apply_delta seq) s.1 with Ok true => [seq] | _ => [] end)
         (seen s.2 ++ [seq]))
  end.

Definition deltas_ok (s : MetadataApplier.t * trace) : Prop :=
  applied s.2 = seqZ (image s.2 + 1) (zlen (applied s.2)) ∧
  MetadataApplier.applied_seq s.1 = image s.2 + zlen (applied s.2) ∧
  (MetadataApplier.needs_resync s.1 = false → ∀ seq, seq ∈ seen s.2 → seq <= MetadataApplier.applied_seq s.1).

Lemma deltas_ok_step o s : deltas_ok s → deltas_ok (delta_step o s).
Proof.
  intros (Happ & Hseq & Hseen). destruct o as [seq|seq]; cbn [delta_step].
  { unfold state_of, MetadataApplier.full_image. act_simpl.
    split_and!; cbn; [done|rewrite zlen_nil; lia|by intros _ ? ?%elem_of_nil]. }
  assert (∀ x : Z, x ∈ seen s.2 ++ [seq] → x ∈ seen s.2 ∨ x = seq) as Hin.
  { intros x [?|?%list_elem_of_singleton]%elem_of_app; auto. }
  unfold state_of, value_of, MetadataApplier.apply_delta. act_simpl.
  repeat (bool_split; act_simpl); bool_prop; rewrite ?app_nil_r; (split_and!; cbn; [try done..|]).
  1,2: intros Hn x [Hx| ->]%Hin; [by apply Hseen|lia].
  - done.
  - rewrite zlen_app, zlen_cons, zlen_nil, Z.add_0_r. pose proof (zlen_nonneg (applied s.2)).
    rewrite seqZ_app by lia. rewrite <- Happ. f_equal. rewrite seqZ_cons by lia. cbn. f_equal. lia.
  - rewrite zlen_app, zlen_cons, zlen_nil. lia.
  - intros Hn x [Hx| ->]%Hin; [|lia]. specialize (Hseen Hn x Hx). lia.
Qed.

Lemma deltas_ok_run ops seq : deltas_ok (run delta_step ops (MetadataApplier.mk seq false, mk_trace seq [] [])).
Proof.
  apply run_invariant; [apply deltas_ok_step|].
  split_and!; cbn; [done|rewrite zlen_nil; lia|by intros _ ? ?%elem_of_nil].
Qed.
End deltas.

(** Also (invariant): a broker's view of the metadata has no hole it does not know of.  Whatever
    images and deltas arrive, in whatever order and with whatever duplicates, the deltas applied
    since the last image are exactly those numbered after it, one by one; and while no resync is
    asked for, every delta that arrived since the image is one of them or is older than the image. *)
Theorem metadata_view_whole ops seq0 :
  let s := run delta_step ops (MetadataApplier.mk seq0 false, mk_trace seq0 [] []) in
  applied s.2 = seqZ (image s.2 + 1) (MetadataApplier.applied_seq s.1 - image s.2) ∧
  (MetadataApplier.view_status s.1 = (true, MetadataApplier.applied_seq s.1) →
     ∀ seq, seq ∈ seen s.2 → image s.2 < seq → seq ∈ applied s.2) ∧
  (∀ seq, MetadataApplier.applied_seq s.1 + 1 < seq →
     value_of (MetadataApplier.apply_delta seq) s.1 = Err Invalid ∧
     MetadataApplier.needs_resync (state_of (MetadataApplier.apply_delta seq) s.1) = true).
Proof.
  intros s. destruct (deltas_ok_run ops seq0) as (Happ & Hseq & Hseen). fold s in Happ, Hseq, Hseen.
  split_and!.
  - rewrite Happ at 1. f_equal. lia.
  - intros Hst seq Hin Hlt. rewrite Happ. apply elem_of_seqZ.
    unfold MetadataApplier.view_status in Hst. injection Hst as Hn. apply negb_true_iff in Hn.
    specialize (Hseen Hn seq Hin). lia.
  - intros seq Hlt. unfold value_of, state_of, MetadataApplier.apply_delta. act_simpl.
    rewrite (proj2 (Z.eqb_neq _ _)) by lia. rewrite (proj2 (Z.ltb_ge _ _)) by lia.
    act_simpl. by rewrite (proj2 (Z.eqb_neq seq (_ + 1))) by lia.
Qed.

(** ** Snapshots of the metadata log *)

Section snapshots.
Inductive snapshot_op := Take (at_offset : Z) | MarkDurable | Discard | Append (n : nat).

(** the log itself grows by records of other modules *)
Definition snapshot_step (o : snapshot_op) (s : SnapshotManager.t) : SnapshotManager.t :=
  match o with
  | Take at_offset => state_of (SnapshotManager.take at_offset) s
  | MarkDurable => state_of SnapshotManager.mark_durable s
  | Discard => state_of SnapshotManager.discard_below s
  | Append n => SnapshotManager.mk (SnapshotManager.log_start s) (SnapshotManager.log_end s + Z.of_nat n)
                  (SnapshotManager.snapshot_offset s) (SnapshotManager.snapshot_durable s)
  end.

Definition snapshot_ok (s : SnapshotManager.t) : Prop :=
  -1 <= SnapshotManager.snapshot_offset s <= SnapshotManager.log_end s ∧
  SnapshotManager.log_start s <= SnapshotManager.snapshot_offset s + 1 ∧
  0 <= SnapshotManager.log_start s ∧ 0 <= SnapshotManager.log_end s.

Lemma snapshot_ok_step o s : snapshot_ok s → snapshot_ok (snapshot_step o s).
Proof.
  unfold snapshot_ok. intros (? & ? & ? & ?). destruct o as [a| | |n]; cbn [snapshot_step];
    unfold state_of, SnapshotManager.take, SnapshotManager.mark_durable, SnapshotManager.discard_below;
    act_simpl; repeat (bool_split; act_simpl); bool_prop; cbn; lia.
Qed.
End snapshots.

(** a manager of a log that starts at 0 never refuses its own snapshot, and never discards what the
    snapshot does not hold; what is left to replay is what was written after the snapshot *)
Theorem snapshot_never_holed ops (end_ : nat) :
  let s := run snapshot_step ops (SnapshotManager.make 0 (Z.of_nat end_)) in
  SnapshotManager.load s = Ok (SnapshotManager.snapshot_offset s, SnapshotManager.replay_tail s) ∧
  SnapshotManager.log_start s <= SnapshotManager.snapshot_offset s + 1 ∧
  0 <= SnapshotManager.replay_tail s ∧
  (SnapshotManager.snapshot_durable s = false → value_of SnapshotManager.discard_below s = Err Invalid).
Proof.
  intros s. assert (snapshot_ok s) as (Hoff & Hstart & H0 & Hend).
  { apply run_invariant; [apply snapshot_ok_step|]. unfold snapshot_ok. cbn. lia. }
  unfold SnapshotManager.load. split_and!.
  - rewrite (proj2 (Z.ltb_ge _ _)) by lia. by rewrite andb_false_r.
  - done.
  - unfold SnapshotManager.replay_tail. bool_split; bool_prop; lia.
  - intros Hd. unfold value_of, SnapshotManager.discard_below. act_simpl. by rewrite Hd.
Qed.

(** ** Racks: the round robin of the placement *)

Section rack_rounds.
Implicit Types (Q : list (list string)).

(** what the k-th round takes, the first k rounds, and the queues that are left *)
Definition round_at Q (k : nat) : list string := omap (λ q : list string, q !! k) Q.
Fixpoint rounds Q (k : nat) : list string := match k with O => [] | S k => rounds Q k ++ round_at Q k end.
Definition left_after Q (k : nat) : list (list string) := filter (λ q, q ≠ []) (drop k <$> Q).

Lemma take_heads_round Q k : RackAwarePlacement.take_heads (left_after Q k) = Ok (round_at Q k, left_after Q (S k)).
Proof.
  unfold left_after, round_at. induction Q as [|q Q IH]; [done|]. cbn [fmap list_fmap omap list_omap].
  destruct (q !! k) as [b|] eqn:Hk.
  - rewrite (drop_S q b k Hk). rewrite filter_cons_True by done. cbn [RackAwarePlacement.take_heads]. rewrite IH. cbn [mbind result_bind fst snd].
    destruct (drop (S k) q); [by rewrite filter_cons_False by (intros H; by apply H)|by rewrite filter_cons_True].
  - apply lookup_ge_None in Hk. rewrite !drop_ge by lia. rewrite !filter_cons_False by (intros H; by apply H). exact IH.
Qed.

Lemma join_cons {A} (x : list A) l : mjoin (x :: l) = x ++ mjoin l.
Proof. done. Qed.

Lemma join_nonempty Q : mjoin (filter (λ q, q ≠ []) Q) = mjoin Q.
Proof.
  induction Q as [|q Q IH]; [done|]. rewrite filter_cons.
  case_decide as H; rewrite !join_cons; [by rewrite IH|]. subst q. exact IH.
Qed.

Lemma left_after_join Q k : mjoin (left_after Q k) = mjoin (drop k <$> Q).
Proof.
  apply join_nonempty.
Qed.

Lemma rounds_Permutation Q k : rounds Q k ++ mjoin (left_after Q k) ≡ₚ mjoin Q.
Proof.
  rewrite left_after_join. induction k as [|k IH]; cbn [rounds].
  - cbn. rewrite (list_fmap_ext _ id); [by rewrite list_fmap_id|done].
  - rewrite <- IH, <- app_assoc. apply Permutation_app_head. unfold round_at. clear IH.
    induction Q as [|q Q IH]; [done|]. cbn [fmap list_fmap omap list_omap]. rewrite !join_cons.
    destruct (q !! k) as [b|] eqn:Hk.
    + rewrite (drop_S q b k Hk). cbn [app]. apply perm_skip. rewrite <- IH.
      rewrite !app_assoc. apply Permutation_app_tail, Permutation_app_comm.
    + apply lookup_ge_None in Hk. rewrite !drop_ge by lia. exact IH.
Qed.

Lemma place_loop_rounds Q fuel : (length (mjoin Q) < fuel)%nat → 
  ∃ K, loop RackAwarePlacement.place_round fuel ([], filter (λ q, q ≠ []) Q) = Ok (rounds Q K) ∧ rounds Q K ≡ₚ mjoin Q.
Proof.
  intros Hfuel.
  apply (loop_rule RackAwarePlacement.place_round (λ s, ∃ k, s = (rounds Q k, left_after Q k))
           (λ s, length (mjoin s.2)) (λ r, ∃ K, r = Ok (rounds Q K) ∧ rounds Q K ≡ₚ mjoin Q)).
  - intros s [k ->]. unfold RackAwarePlacement.place_round. cbn [fst snd].
    pose proof (rounds_Permutation Q k) as Hp.
    destruct (left_after Q k) as [|q l] eqn:Hl.
    + exists k. split; [done|]. by rewrite app_nil_r in Hp.
    + pose proof (take_heads_round Q k) as Ht. rewrite Hl in Ht. rewrite Ht.
      cbn [mbind result_bind fst snd]. split; [by exists (S k)|].
      pose proof (rounds_Permutation Q (S k)) as Hp'. rewrite <- Hp' in Hp. cbn [rounds] in Hp.
      apply Permutation_length in Hp. rewrite !length_app in Hp.
      assert (length (round_at Q k) ≠ 0%nat) as Hne; [|cbn in Hp |- *; lia].
      assert (q ≠ []) as Hq.
      { assert (q ∈ left_after Q k) as Hin by (rewrite Hl; left). by apply list_elem_of_filter in Hin as [? _]. }
      destruct q as [|b q]; [done|]. cbn in Ht. destruct (RackAwarePlacement.take_heads l) as [r|]; [|done].
      cbn in Ht. injection Ht as <- _. done.
  - exists 0%nat. unfold left_after. cbn. rewrite (list_fmap_ext _ id); [by rewrite list_fmap_id|done].
  - cbn [snd]. by rewrite join_nonempty.
Qed.

Lemma rounds_prefix Q k k' : (k <= k')%nat → rounds Q k `prefix_of` rounds Q k'.
Proof. induction 1 as [|k' _ IH]; [done|]. etrans; [exact IH|]. by apply prefix_app_r. Qed.

Lemma take_between_rounds Q K n : (n <= length (rounds Q K))%nat →
  ∃ k, rounds Q k `prefix_of` take n (rounds Q K) ∧ take n (rounds Q K) `prefix_of` rounds Q (S k).
Proof.
  induction K as [|K IH]; intros Hn.
  - cbn in *. rewrite take_nil. exists 0%nat. split; [done|apply prefix_nil].
  - destruct (decide (n <= length (rounds Q K))%nat) as [Hle|Hgt].
    + destruct (IH Hle) as (k & H1 & H2). exists k.
      cbn [rounds]. rewrite take_app_le by done. split; [exact H1|exact H2].
    + exists K. cbn [rounds]. split.
      * rewrite take_app_ge by lia. by apply prefix_app_r.
      * apply prefix_take.
Qed.
End rack_rounds.

(** ** Racks: how many brokers of each the placement takes *)

Section rack_counts.
Variable racks : pydict string string.
Hypothesis racks_wf : d_wf racks.

Let rk (b : string) : string := d_getd racks b "".

(** how many brokers of a list stand in a rack *)
Definition in_rack (r : string) (l : list string) : nat := length (filter (λ b, d_getd racks b "" = r) l).

Lemma in_rack_app r l1 l2 : in_rack r (l1 ++ l2) = (in_rack r l1 + in_rack r l2)%nat.
Proof. unfold in_rack. by rewrite filter_app, length_app. Qed.

Lemma in_rack_Permutation r l1 l2 : l1 ≡ₚ l2 → in_rack r l1 = in_rack r l2.
Proof. unfold in_rack. by intros ->. Qed.

Lemma in_rack_prefix r l1 l2 : l1 `prefix_of` l2 → (in_rack r l1 <= in_rack r l2)%nat.
Proof. intros [l ->]. rewrite in_rack_app. lia. Qed.

Lemma in_rack_fmap r l : in_rack r l = length (filter (λ r', r' = r) (rk <$> l)).
Proof.
  unfold in_rack. induction l as [|b l IH]; [done|]. cbn [fmap list_fmap]. rewrite !filter_cons.
  change (rk b) with (d_getd racks b "").
  destruct (decide (d_getd racks b "" = r)); cbn [length]; [f_equal|]; exact IH.
Qed.

Lemma in_rack_pos r l : (1 <= in_rack r l)%nat ↔ r ∈ rk <$> l.
Proof.
  rewrite in_rack_fmap. split.
  - destruct (filter _ _) as [|x l'] eqn:Hf; cbn; [lia|]. intros _.
    assert (x ∈ filter (λ r', r' = r) (rk <$> l)) as Hx by (rewrite Hf; left).
    by apply list_elem_of_filter in Hx as [-> ?].
  - intros Hin. destruct (filter _ _) as [|x l'] eqn:Hf; cbn; [|lia].
    assert (r ∈ filter (λ r', r' = r) (rk <$> l)) as Hx by (by apply list_elem_of_filter).
    rewrite Hf in Hx. by apply elem_of_nil in Hx.
Qed.

(** the queues: what the fold over the sorted pairs leaves *)
Definition racks_fold (l : list (string * string)) : pydict string (list string) :=
  foldl (λ d (p : string * string), d_set d p.2 (d_getd d p.2 [] ++ [p.1])) [] l.

Lemma join_values_set (d : pydict string (list string)) r b :
  mjoin (d_values (d_set d r (d_getd d r [] ++ [b]))) ≡ₚ b :: mjoin (d_values d).
Proof.
  unfold d_getd, d_values. induction d as [|[r' q] d IH]; cbn [d_set d_get fmap list_fmap].
  - by cbn.
  - case_bool_decide; cbn [fmap list_fmap snd default from_option]; unfold id; rewrite !join_cons.
    + rewrite <- app_assoc. symmetry. apply (Permutation_middle q (mjoin d.*2) b).
    + rewrite IH. symmetry. apply Permutation_middle.
Qed.

Lemma racks_fold_spec l : (∀ p, p ∈ l → d_get racks p.1 = Some p.2) →
  d_wf (racks_fold l) ∧ mjoin (d_values (racks_fold l)) ≡ₚ l.*1 ∧
  (∀ r q, (r, q) ∈ racks_fold l → q ≠ [] ∧ ∀ b, b ∈ q → d_get racks b = Some r).
Proof.
  induction l as [|[b r] l IH] using rev_ind; intros Hl.
  - split; [apply d_wf_nil|]. split; [done|]. intros r q H. by apply elem_of_nil in H.
  - destruct IH as (Hwf & Hperm & Hq); [intros; apply Hl, elem_of_app; by left|].
    unfold racks_fold in *. rewrite foldl_snoc. cbn [fst snd]. split_and!.
    + by apply d_wf_set.
    + rewrite join_values_set, Hperm, fmap_app. cbn. rewrite Permutation_app_comm. done.
    + intros r' q [[-> ->]|[Hne Hin]]%d_set_elem_of; [| |done].
      * split; [by destruct (d_getd _ _ _)|]. intros b' [Hb|Hb%list_elem_of_singleton]%elem_of_app.
        -- unfold d_getd in Hb. destruct (d_get _ r) as [q|] eqn:Hg; [|by apply elem_of_nil in Hb].
           apply d_get_elem_of in Hg. by apply (Hq r q Hg).
        -- subst b'. apply (Hl (b, r)). set_solver.
      * by apply Hq.
Qed.

Lemma sorted_racks_spec p : p ∈ py_sorted RackAwarePlacement.pair_le racks → d_get racks p.1 = Some p.2.
Proof. intros H. apply py_sorted_elem_of in H. apply d_elem_of_get; [done|]. by destruct p. Qed.

Lemma in_rack_cons r b l : in_rack r (b :: l) = ((if decide (d_getd racks b "" = r) then 1 else 0) + in_rack r l)%nat.
Proof. unfold in_rack. rewrite filter_cons. by destruct (decide _). Qed.

Lemma round_at_count (B : pydict string (list string)) j r : d_wf B →
  (∀ r q, (r, q) ∈ B → ∀ b, b ∈ q → d_get racks b = Some r) →
  in_rack r (round_at (d_values B) j) = if decide (j < length (d_getd B r []))%nat then 1%nat else 0%nat.
Proof.
  unfold round_at, d_values. induction B as [|[r' q] B IH]; intros Hwf HB; [done|].
  apply NoDup_cons in Hwf as [Hnew Hwf].
  assert (∀ r q, (r, q) ∈ B → ∀ b, b ∈ q → d_get racks b = Some r) as HB' by (intros ????; apply HB; by right).
  specialize (IH Hwf HB'). cbn [fmap list_fmap omap list_omap snd].
  assert (d_getd ((r', q) :: B) r [] = if decide (r = r') then q else d_getd B r []) as ->.
  { unfold d_getd. cbn [d_get]. case_bool_decide; [by rewrite decide_True|by rewrite decide_False]. }
  assert (r = r' → d_getd B r [] = []) as Hnone.
  { intros ->. unfold d_getd. by rewrite (proj2 (d_get_None B r') Hnew). }
  destruct (q !! j) as [b|] eqn:Hj.
  - assert (d_getd racks b "" = r') as Hb.
    { unfold d_getd. by rewrite (HB r' q ltac:(left) b (list_elem_of_lookup_2 _ _ _ Hj)). }
    apply lookup_lt_Some in Hj. rewrite in_rack_cons, Hb, IH. destruct (decide (r = r')) as [Hr|Hr].
    + rewrite (Hnone Hr), (decide_True (P := r' = r)), (decide_True (P := (j < length q)%nat)) by done. done.
    + by rewrite (decide_False (P := r' = r)) by congruence.
  - apply lookup_ge_None in Hj. rewrite IH. destruct (decide (r = r')) as [Hr|Hr]; [|done].
    rewrite (Hnone Hr), (decide_False (P := (j < length q)%nat)) by lia. done.
Qed.

Lemma rounds_count (B : pydict string (list string)) k r : d_wf B →
  (∀ r q, (r, q) ∈ B → ∀ b, b ∈ q → d_get racks b = Some r) →
  in_rack r (rounds (d_values B) k) = Nat.min k (length (d_getd B r [])).
Proof.
  intros Hwf HB. induction k as [|k IH]; [done|]. cbn [rounds].
  rewrite in_rack_app, IH, round_at_count by done. destruct (decide _); lia.
Qed.

(** the placement as a reference: a prefix of the round robin over the racks' queues *)
Lemma place_round_robin rf : 1 <= rf <= zlen racks →
  ∃ order, RackAwarePlacement.place (RackAwarePlacement.mk racks) rf = Ok order ∧
    length order = Z.to_nat rf ∧ NoDup order ∧ order ⊆ d_keys racks ∧
    ∃ k, ∀ r, (Nat.min k (in_rack r (d_keys racks)) <= in_rack r order <= Nat.min (S k) (in_rack r (d_keys racks)))%nat.
Proof.
  intros Hrf. unfold RackAwarePlacement.place. rewrite !(proj2 (Z.ltb_ge _ _)) by (cbn; lia).
  cbn [RackAwarePlacement.racks].
  destruct (racks_fold_spec (py_sorted RackAwarePlacement.pair_le racks)) as (Hwf & Hperm & Hq); [apply sorted_racks_spec|].
  change (RackAwarePlacement.by_rack (RackAwarePlacement.mk racks)) with (racks_fold (py_sorted RackAwarePlacement.pair_le racks)).
  set (B := racks_fold _) in *. clearbody B. rewrite py_sorted_Permutation in Hperm.
  change (racks.*1) with (d_keys racks) in Hperm.
  assert (filter (λ q, q ≠ []) (d_values B) = d_values B) as Hf.
  { apply list_filter_all. intros q ([r q'] & -> & Hin)%list_elem_of_fmap. by apply (Hq r q'). }
  destruct (place_loop_rounds (d_values B) (S (length racks))) as (K & Hloop & HK).
  { rewrite Hperm, d_keys_length. lia. }
  rewrite Hf in Hloop. rewrite Hloop. rewrite Hperm in HK.
  assert (Z.to_nat rf <= length (rounds (d_values B) K))%nat as Hlen.
  { rewrite HK, d_keys_length. unfold zlen in Hrf. lia. }
  eexists. split; [reflexivity|]. split; [by apply length_take_le|].
  assert (NoDup (rounds (d_values B) K)) as Hnd by (rewrite HK; exact racks_wf).
  split; [by eapply sublist_NoDup, sublist_take|].
  split. { intros b Hb. rewrite <- HK. eapply elem_of_prefix; [exact Hb|apply prefix_take]. }
  destruct (take_between_rounds (d_values B) K (Z.to_nat rf) Hlen) as (k & H1 & H2).
  exists k. intros r. apply (in_rack_prefix r) in H1, H2.
  assert (∀ r q, (r, q) ∈ B → ∀ b, b ∈ q → d_get racks b = Some r) as HB by (intros; by eapply Hq).
  rewrite rounds_count in H1, H2 by done.
  assert (in_rack r (d_keys racks) = length (d_getd B r [])) as ->; [|lia].
  rewrite <- (in_rack_Permutation r _ _ HK), rounds_count by done.
  destruct (le_lt_dec (length (d_getd B r [])) K) as [|Hlt]; [lia|exfalso].
  pose proof (rounds_count B (S K) r Hwf HB) as Hc. pose proof (rounds_count B K r Hwf HB) as Hc'.
  pose proof (rounds_Permutation (d_values B) (S K)) as Hp. rewrite Hperm, <- HK in Hp.
  apply (in_rack_Permutation r) in Hp. rewrite in_rack_app in Hp. lia.
Qed.
End rack_counts.

Lemma NoDup_count (l : list string) : (∀ x, (length (filter (λ y, y = x) l) <= 1)%nat) → NoDup l.
Proof.
  induction l as [|a l IH]; intros Hc; [constructor|]. constructor.
  - intros Hin. specialize (Hc a). rewrite filter_cons_True in Hc by done. cbn in Hc.
    assert (a ∈ filter (λ y, y = a) l) as Ha by (by apply list_elem_of_filter).
    destruct (filter _ l); [by apply elem_of_nil in Ha|cbn in Hc; lia].
  - apply IH. intros x. specialize (Hc x). rewrite filter_cons in Hc. destruct (decide _); cbn in Hc; lia.
Qed.

Lemma size_NoDup (l : list string) : NoDup l → size (list_to_set l : gset string) = length l.
Proof. apply size_list_to_set. Qed.

Lemma size_to_set_le (l : list string) : (size (list_to_set l : gset string) <= length l)%nat.
Proof.
  induction l as [|a l IH]; [done|]. cbn [list_to_set length].
  rewrite size_union_alt, size_singleton.
  pose proof (subseteq_size (list_to_set l ∖ {[a]}) (list_to_set l : gset string) ltac:(set_solver)). lia.
Qed.

Lemma racks_for_known racks l : l ⊆ d_keys racks →
  Placer.racks_for racks l = Ok ((λ b, d_getd racks b ""%string) <$> l).
Proof.
  induction l as [|b l IH]; intros Hl; [done|]. cbn [Placer.racks_for fmap list_fmap].
  destruct (proj2 (d_get_is_Some racks b)) as [r Hr]; [apply Hl; left|].
  unfold d_item, d_getd at 1. rewrite Hr. cbn [mbind result_bind].
  rewrite IH by (intros x Hx; apply Hl; by right). done.
Qed.

(** the brokers a placement was given, in the order they were given *)
Definition add_brokers (l : list (string * string)) : RackAwarePlacement.t :=
  run (λ p s, state_of (RackAwarePlacement.add_broker p.1 p.2) s) l RackAwarePlacement.make.

Lemma add_brokers_wf l : d_wf (RackAwarePlacement.racks (add_brokers l)).
Proof.
  unfold add_brokers. apply (run_invariant _ (λ s, d_wf (RackAwarePlacement.racks s))); [|apply d_wf_nil].
  intros [b r] s Hs. unfold state_of, RackAwarePlacement.add_broker. act_simpl. bool_split; [done|]. by apply d_wf_set.
Qed.

(** C28 (functional): rack-aware placement always places, and spreads as far as the racks allow.
    For a replication factor between one and the number of brokers the rounds end and give that
    many distinct brokers; they span as many racks as there are, or as there are replicas when
    those are fewer; and where racks must be doubled up no rack holds two replicas more than
    another that still has a broker to give. *)
Theorem rack_placement_spreads brokers rf :
  let self := add_brokers brokers in
  let racks := RackAwarePlacement.racks self in
  1 <= rf <= zlen racks →
  ∃ order, RackAwarePlacement.place self rf = Ok order ∧
    zlen order = rf ∧ NoDup order ∧ order ⊆ d_keys racks ∧
    RackAwarePlacement.rack_span self order = Ok (Z.min rf (Z.of_nat (size (list_to_set (d_values racks) : gset string)))) ∧
    ∀ r1 r2, (in_rack racks r1 order + 1 < in_rack racks r2 order)%nat →
      in_rack racks r1 order = in_rack racks r1 (d_keys racks).
Proof.
  intros self racks Hrf. pose proof (add_brokers_wf brokers : d_wf racks) as Hwf.
  destruct (place_round_robin racks Hwf rf Hrf) as (order & Hplace & Hlen & Hnd & Hsub & k & Hk).
  assert (self = RackAwarePlacement.mk racks) as Hself by (unfold racks; by destruct self).
  rewrite Hself. clear Hself.
  exists order. split; [done|]. split; [unfold zlen; lia|]. split; [done|]. split; [done|].
  split; [|intros r1 r2; pose proof (Hk r1); pose proof (Hk r2); lia].
  unfold RackAwarePlacement.rack_span. cbn [RackAwarePlacement.racks].
  rewrite racks_for_known by done. cbn [mbind result_bind]. f_equal.
  set (rk := λ b, d_getd racks b ""%string).
  assert (∀ r, r ∈ rk <$> order → r ∈ rk <$> d_keys racks) as Hin.
  { intros r (b & -> & Hb)%list_elem_of_fmap. apply list_elem_of_fmap_2. by apply Hsub. }
  assert (d_values racks = rk <$> d_keys racks) as ->.
  { unfold d_values, d_keys, rk. rewrite <- list_fmap_compose. apply list_fmap_ext.
    intros i [b r] Hi%list_elem_of_lookup_2. cbn. unfold d_getd. by rewrite (d_elem_of_get racks b r). }
  assert (size (list_to_set (rk <$> order) : gset string) <= size (list_to_set (rk <$> d_keys racks) : gset string))%nat as Hle.
  { apply subseteq_size. intros r. rewrite !elem_of_list_to_set. apply Hin. }
  assert (size (list_to_set (rk <$> order) : gset string) <= length order)%nat as Hle'.
  { rewrite <- (length_fmap rk). apply size_to_set_le. }
  destruct k as [|k].
  - assert (size (list_to_set (rk <$> order) : gset string) = length order) as Heq; [|lia].
    rewrite size_NoDup; [apply length_fmap|].
    apply NoDup_count. intros r. unfold rk. rewrite <- (in_rack_fmap racks). specialize (Hk r). lia.
  - assert (size (list_to_set (rk <$> d_keys racks) : gset string) <= size (list_to_set (rk <$> order) : gset string))%nat; [|lia].
    apply subseteq_size. intros r. rewrite !elem_of_list_to_set. unfold rk. intros Hr%(in_rack_pos racks).
    apply (in_rack_pos racks).
    specialize (Hk r). lia.
Qed.

Lemma rack_placement_spreads_witness :
  let self := add_brokers [("b1", "x"); ("b2", "x"); ("b3", "x"); ("b4", "y"); ("b5", "z")]%string in
  ∃ order, RackAwarePlacement.place self 4 = Ok order ∧ RackAwarePlacement.rack_span self order = Ok 3.
Proof.
  destruct (rack_placement_spreads [("b1", "x"); ("b2", "x"); ("b3", "x"); ("b4", "y"); ("b5", "z")]%string 4)
    as (order & Hplace & _ & _ & _ & Hspan & _); [vm_compute; split; discriminate|].
  exists order. split; [exact Hplace|exact Hspan].
Defined.

(** ** Moving a replica *)

Section moves.
Inductive move_op := Advance (ticks : nat) | Cancel.

Definition move_step (o : move_op) (s : ReplicaMove.t) : ReplicaMove.t :=
  match o with
  | Advance ticks => state_of (ReplicaMove.advance (Z.of_nat ticks)) s
  | Cancel => state_of ReplicaMove.cancel s
  end.

Definition move_ok (s : ReplicaMove.t) : Prop :=
  0 <= ReplicaMove.copied_bytes s <= ReplicaMove.total_bytes s ∧ 1 <= ReplicaMove.throttle_bytes_per_tick s.

(** where a step of the copy leaves the move, whatever it answers *)
Lemma advance_state ticks s :
  state_of (ReplicaMove.advance ticks) s =
  if ReplicaMove.cancelled s then s
  else ReplicaMove.mk (ReplicaMove.partition s) (ReplicaMove.from_broker s) (ReplicaMove.to_broker s)
         (ReplicaMove.total_bytes s) (ReplicaMove.throttle_bytes_per_tick s)
         (Z.min (ReplicaMove.total_bytes s)
            (ReplicaMove.copied_bytes s + ticks * ReplicaMove.throttle_bytes_per_tick s)) (ReplicaMove.cancelled s).
Proof.
  unfold state_of, ReplicaMove.advance. act_simpl. destruct (ReplicaMove.cancelled s); [done|]. act_simpl.
  destruct (ReplicaMove.caught_up _); act_simpl; [done|]. by destruct (ReplicaMove.eta_ticks _).
Qed.

Lemma move_ok_step o s : move_ok s → move_ok (move_step o s).
Proof.
  unfold move_ok. intros [? ?]. destruct o as [ticks|]; cbn [move_step]; [|done].
  rewrite advance_state. bool_split; cbn; nia.
Qed.

Lemma eta_ticks_ceiling s eta : move_ok s → ReplicaMove.eta_ticks s = Ok eta →
  ∀ t : nat, Z.of_nat t < eta ↔
    ReplicaMove.copied_bytes s + Z.of_nat t * ReplicaMove.throttle_bytes_per_tick s < ReplicaMove.total_bytes s.
Proof.
  intros [? ?]. unfold ReplicaMove.eta_ticks, py_div. rewrite (proj2 (Z.eqb_neq _ 0)) by lia.
  cbn [mbind result_bind]. intros [= <-] t.
  pose proof (Z.div_mod (- (ReplicaMove.total_bytes s - ReplicaMove.copied_bytes s)) (ReplicaMove.throttle_bytes_per_tick s) ltac:(lia)).
  pose proof (Z.mod_pos_bound (- (ReplicaMove.total_bytes s - ReplicaMove.copied_bytes s)) (ReplicaMove.throttle_bytes_per_tick s) ltac:(lia)).
  set (q := _ / _) in *. set (m := _ mod _) in *. clearbody q m. split; intros; nia.
Qed.
End moves.

(** Also (bounds): a move is paced by its throttle and its estimate is exact.  However it is advanced
    and cancelled, what is copied stays between nothing and the whole partition; the estimate is the
    least number of ticks that completes the copy (one fewer leaves it incomplete); the replica can be
    elected exactly when everything is copied and the move was not cancelled; and a cancelled move
    refuses to go on. *)
Theorem reassignment_eta_exact partition from to total throttle s0 ops (ticks : nat) :
  0 <= total →
  ReplicaMove.make partition from to total throttle = Ok s0 →
  let s := run move_step ops s0 in
  let s' := state_of (ReplicaMove.advance (Z.of_nat ticks)) s in
  0 <= ReplicaMove.copied_bytes s <= total ∧
  (∃ eta, ReplicaMove.eta_ticks s = Ok eta ∧
     if ReplicaMove.cancelled s then value_of (ReplicaMove.advance (Z.of_nat ticks)) s = Err Invalid ∧ s' = s
     else (ReplicaMove.caught_up s' = true ↔ eta <= Z.of_nat ticks) ∧
          ReplicaMove.copied_bytes s' - ReplicaMove.copied_bytes s <= Z.of_nat ticks * throttle) ∧
  (ReplicaMove.eligible_for_election s = true ↔ ReplicaMove.copied_bytes s = total ∧ ReplicaMove.cancelled s = false).
Proof.
  intros Htotal Hmake s s'.
  assert (move_ok s ∧ ReplicaMove.total_bytes s = total ∧ ReplicaMove.throttle_bytes_per_tick s = throttle) as (Hok & Ht & Hr).
  { unfold ReplicaMove.make in Hmake. repeat (bool_split_in Hmake; [done|]). injection Hmake as <-. bool_prop.
    apply (run_invariant _ (λ s, move_ok s ∧ ReplicaMove.total_bytes s = total ∧ ReplicaMove.throttle_bytes_per_tick s = throttle)).
    - intros o x (Hx & Hx1 & Hx2). split; [by apply move_ok_step|]. destruct o; cbn [move_step]; [|done].
      rewrite advance_state. by bool_split.
    - unfold move_ok. cbn. lia. }
  pose proof Hok as [Hc Hr1]. rewrite <- Ht.
  split; [lia|]. split.
  - destruct (ReplicaMove.eta_ticks s) as [eta|e] eqn:Heta.
    2: { unfold ReplicaMove.eta_ticks, py_div in Heta. by rewrite (proj2 (Z.eqb_neq _ 0)) in Heta by lia. }
    exists eta. split; [done|]. pose proof (eta_ticks_ceiling s eta Hok Heta ticks) as Hceil.
    unfold s'. rewrite advance_state. destruct (ReplicaMove.cancelled s) eqn:Hcan.
    + split; [|done]. unfold value_of, ReplicaMove.advance. act_simpl. by rewrite Hcan.
    + unfold ReplicaMove.caught_up. cbn. rewrite Z.leb_le. split; [split; intros|]; nia.
  - unfold ReplicaMove.eligible_for_election, ReplicaMove.caught_up. rewrite andb_true_iff, negb_true_iff, Z.leb_le.
    split; intros [? ?]; split; done || lia.
Qed.

Lemma reassignment_eta_exact_witness :
  let s0 := ReplicaMove.mk 0 "a" "b" 1000 300 0 false in
  ReplicaMove.eligible_for_election (run move_step [Advance 2; Advance 2] s0) = true.
Proof.
  apply (reassignment_eta_exact 0 "a" "b" 1000 300 _ [Advance 2; Advance 2] 0); [lia|reflexivity|].
  split; reflexivity.
Defined.

(** ** Brokers that live and brokers that are fenced *)

Section membership.
Inductive member_op :=
  | Register (b rack : string) (now : Z)
  | Heartbeat (b : string) (now : Z)
  | FenceLapsed (now : Z).

Definition member_step (o : member_op) (s : ClusterMembership.t) : ClusterMembership.t :=
  match o with
  | Register b rack now => state_of (ClusterMembership.register b rack now) s
  | Heartbeat b now => state_of (ClusterMembership.heartbeat b now) s
  | FenceLapsed now => state_of (ClusterMembership.fence_lapsed now) s
  end.

Definition registers (b : string) (o : member_op) : Prop :=
  match o with Register b' _ _ => b' = b | _ => False end.

(** ids are the keys *)
Definition members_ok (s : ClusterMembership.t) : Prop :=
  d_wf (ClusterMembership.brokers s) ∧
  ∀ k b, d_get (ClusterMembership.brokers s) k = Some b → broker_id b = k.

Lemma d_get_map_values {V W} (f : V → W) (d : pydict string V) k :
  d_get ((λ p, (p.1, f p.2)) <$> d) k = f <$> d_get d k.
Proof. induction d as [|[k' v] d IH]; [done|]. cbn. case_bool_decide; [done|exact IH]. Qed.

Lemma d_keys_map_values {V W} (f : V → W) (d : pydict string V) : d_keys ((λ p, (p.1, f p.2)) <$> d) = d_keys d.
Proof. unfold d_keys. rewrite <- list_fmap_compose. by apply list_fmap_ext. Qed.

(** what a round of fencing does to one broker *)
Definition fence_one (s : ClusterMembership.t) (now : Z) (b : Broker) : Broker :=
  if ClusterMembership.lapsed s now b then mk_broker (broker_id b) (rack b) (last_heartbeat b) true else b.

Lemma fence_lapsed_get s now k :
  d_get (ClusterMembership.brokers (state_of (ClusterMembership.fence_lapsed now) s)) k =
  fence_one s now <$> d_get (ClusterMembership.brokers s) k.
Proof. unfold state_of, ClusterMembership.fence_lapsed. act_simpl. apply (d_get_map_values (fence_one s now)). Qed.

Lemma members_ok_step o s : members_ok s → members_ok (member_step o s).
Proof.
  intros [Hwf Hid]. destruct o as [b rack_ now|b now|now]; cbn [member_step].
  - unfold state_of, ClusterMembership.register. act_simpl. split; cbn; [by apply d_wf_set|].
    intros k b'. rewrite d_get_set. case_bool_decide as Hk; [by intros [= <-]|apply Hid].
  - unfold state_of, ClusterMembership.heartbeat. act_simpl.
    destruct (d_get _ b) as [br|] eqn:Hb; act_simpl; [|done]. bool_split; [done|]. split; cbn; [by apply d_wf_set|].
    intros k b'. rewrite d_get_set. case_bool_decide as Hk; [|apply Hid]. intros [= <-]. cbn. subst k. by apply Hid.
  - split.
    + unfold state_of, ClusterMembership.fence_lapsed. act_simpl. unfold d_wf.
      by rewrite (d_keys_map_values (fence_one s now)).
    + intros k b. rewrite fence_lapsed_get. intros (b' & Hb & ->)%fmap_Some.
      unfold fence_one. bool_split; cbn; by apply Hid.
Qed.

Lemma members_ok_run ops fence_after s0 :
  ClusterMembership.make fence_after = Ok s0 → members_ok (run member_step ops s0).
Proof.
  unfold ClusterMembership.make. intros H. bool_split_in H; [done|]. injection H as <-.
  apply run_invariant; [apply members_ok_step|]. split; [apply d_wf_nil|done].
Qed.

Lemma brokers_where (P : Broker → bool) s k : members_ok s →
  k ∈ broker_id <$> List.filter P (d_values (ClusterMembership.brokers s)) ↔
  ∃ b, d_get (ClusterMembership.brokers s) k = Some b ∧ P b = true.
Proof.
  intros [Hwf Hid]. rewrite list_elem_of_fmap. unfold d_values. split.
  - intros (b & -> & Hb). apply list_elem_of_In, List.filter_In in Hb as [Hb Hf].
    apply list_elem_of_In, list_elem_of_fmap in Hb as ([k' b'] & -> & Hb). cbn in *.
    apply d_elem_of_get in Hb; [|done]. exists b'. by rewrite (Hid _ _ Hb).
  - intros (b & Hb & Hf). exists b. split; [by rewrite (Hid _ _ Hb)|].
    apply list_elem_of_In, List.filter_In. split; [|done].
    apply list_elem_of_In. apply d_get_elem_of in Hb. by apply (list_elem_of_fmap_2 snd) in Hb.
Qed.

Lemma live_brokers_spec s k : members_ok s →
  k ∈ ClusterMembership.live_brokers s ↔ ∃ b, d_get (ClusterMembership.brokers s) k = Some b ∧ fenced b = false.
Proof.
  intros Hok. unfold ClusterMembership.live_brokers. rewrite py_sorted_elem_of, brokers_where by done.
  by setoid_rewrite negb_true_iff.
Qed.

(** a fenced broker is fenced after any step that does not register it again *)
Lemma fenced_step o s b br : ¬ registers b o →
  d_get (ClusterMembership.brokers s) b = Some br → fenced br = true →
  ∃ br', d_get (ClusterMembership.brokers (member_step o s)) b = Some br' ∧ fenced br' = true.
Proof.
  intros Ho Hb Hf. destruct o as [b' rack_ now|b' now|now]; cbn [member_step].
  - unfold state_of, ClusterMembership.register. act_simpl. exists br.
    rewrite d_get_set_ne by (intros ->; by apply Ho). done.
  - unfold state_of, ClusterMembership.heartbeat. act_simpl.
    destruct (d_get _ b') as [br'|] eqn:Hb'; act_simpl; [|by exists br].
    bool_split; [by exists br|]. exists br. cbn. rewrite d_get_set_ne; [done|]. intros ->. congruence.
  - rewrite fence_lapsed_get, Hb. eexists. split; [reflexivity|]. unfold fence_one. by bool_split.
Qed.

Lemma fenced_run ops s b br : (∀ o, o ∈ ops → ¬ registers b o) →
  d_get (ClusterMembership.brokers s) b = Some br → fenced br = true →
  ∃ br', d_get (ClusterMembership.brokers (run member_step ops s)) b = Some br' ∧ fenced br' = true.
Proof.
  revert s br. induction ops as [|o ops IH]; intros s br Hops Hb Hf; [by exists br|].
  destruct (fenced_step o s b br) as (br' & Hb' & Hf'); [apply Hops; left|done..|].
  cbn. apply (IH _ br'); [|done..]. intros; apply Hops. by right.
Qed.

Lemma membership_epoch_step o s : ClusterMembership.epoch s <= ClusterMembership.epoch (member_step o s).
Proof.
  destruct o as [b' rack_ now|b' now|now]; cbn [member_step]; unfold state_of.
  - unfold ClusterMembership.register. act_simpl. lia.
  - unfold ClusterMembership.heartbeat. act_simpl. destruct (d_get _ b'); act_simpl; [bool_split; cbn; lia|lia].
  - unfold ClusterMembership.fence_lapsed. act_simpl. bool_split; lia.
Qed.

Lemma membership_epoch_run ops s : ClusterMembership.epoch s <= ClusterMembership.epoch (run member_step ops s).
Proof.
  apply (run_invariant _ (λ s', ClusterMembership.epoch s <= ClusterMembership.epoch s')); [|lia].
  intros o s' Hs. pose proof (membership_epoch_step o s'). lia.
Qed.

Lemma fence_after_run ops fence_after s0 : ClusterMembership.make fence_after = Ok s0 →
  ClusterMembership.fence_after (run member_step ops s0) = fence_after.
Proof.
  unfold ClusterMembership.make. intros H. bool_split_in H; [done|]. injection H as <-.
  apply (run_invariant _ (λ s, ClusterMembership.fence_after s = fence_after)); [|done].
  intros [b' rack_ now|b' now|now] s Hs; cbn [member_step]; unfold state_of.
  - done.
  - unfold ClusterMembership.heartbeat. act_simpl. destruct (d_get _ b'); act_simpl; [by bool_split|done].
  - done.
Qed.

Lemma lapsed_spec s now b :
  ClusterMembership.lapsed s now b = true ↔ fenced b = false ∧ ClusterMembership.fence_after s < now - last_heartbeat b.
Proof. unfold ClusterMembership.lapsed. by rewrite andb_true_iff, negb_true_iff, Z.ltb_lt. Qed.

(** who is live after a round of fencing *)
Lemma fence_lapsed_live s now b : members_ok s →
  b ∈ ClusterMembership.live_brokers (state_of (ClusterMembership.fence_lapsed now) s) ↔
  ∃ br, d_get (ClusterMembership.brokers s) b = Some br ∧ fenced br = false ∧
        now - last_heartbeat br <= ClusterMembership.fence_after s.
Proof.
  intros Hok. rewrite live_brokers_spec, fence_lapsed_get by (apply (members_ok_step (FenceLapsed now) s Hok)).
  unfold fence_one. pose proof (lapsed_spec s now) as Hl. split.
  - intros (br & (br' & Hb & ->)%fmap_Some & Hf). exists br'. split; [done|].
    destruct (ClusterMembership.lapsed s now br') eqn:E; [done|]. split; [done|].
    destruct (Z.lt_ge_cases (ClusterMembership.fence_after s) (now - last_heartbeat br')); [|done].
    rewrite (proj2 (Hl br')) in E by done. done.
  - intros (br & Hb & Hf & Hle). rewrite Hb. eexists. split; [reflexivity|].
    destruct (ClusterMembership.lapsed s now br) eqn:E; [|done]. apply Hl in E. lia.
Qed.

Lemma fence_lapsed_value s now :
  let newly := broker_id <$> List.filter (ClusterMembership.lapsed s now) (d_values (ClusterMembership.brokers s)) in
  value_of (ClusterMembership.fence_lapsed now) s = Ok (py_sorted String.le newly) ∧
  (ClusterMembership.epoch (state_of (ClusterMembership.fence_lapsed now) s) = ClusterMembership.epoch s ↔
   py_sorted String.le newly = []).
Proof.
  intros newly. unfold value_of, state_of, ClusterMembership.fence_lapsed. act_simpl. split; [done|].
  fold newly. rewrite py_sorted_nil. case_bool_decide; split; intros; try done; lia.
Qed.
End membership.

(** Also (functional): fencing takes out exactly the silent brokers, and they stay out.  The brokers
    live after a round of fencing are those that were live and were heard within the time-out, the
    round names the others, and the epoch moves exactly when there was one; from then on a fenced
    broker's heartbeat is refused and it is not live, whatever the others do, until it registers
    again. *)
Theorem fencing_exact fence_after s0 ops now later b :
  ClusterMembership.make fence_after = Ok s0 →
  let s := run member_step ops s0 in
  let '(s', r) := ClusterMembership.fence_lapsed now s in
  (b ∈ ClusterMembership.live_brokers s' ↔
     ∃ br, d_get (ClusterMembership.brokers s) b = Some br ∧ fenced br = false ∧ now - last_heartbeat br <= fence_after) ∧
  (∃ fenced_now, r = Ok fenced_now ∧
     (b ∈ fenced_now ↔ b ∈ ClusterMembership.live_brokers s ∧ b ∉ ClusterMembership.live_brokers s') ∧
     (ClusterMembership.epoch s' = ClusterMembership.epoch s ↔ fenced_now = [])) ∧
  (b ∈ ClusterMembership.live_brokers s → b ∉ ClusterMembership.live_brokers s' →
   (∀ o, o ∈ later → ¬ registers b o) →
   let s'' := run member_step later s' in
   b ∉ ClusterMembership.live_brokers s'' ∧
   (∀ now', value_of (ClusterMembership.heartbeat b now') s'' = Err Invalid) ∧
   ClusterMembership.epoch s < ClusterMembership.epoch s'').
Proof.
  intros Hmake s. pose proof (members_ok_run ops _ _ Hmake) as Hok. fold s in Hok.
  assert (ClusterMembership.fence_after s = fence_after) as Hfa by (by apply (fence_after_run ops)).
  pose proof (members_ok_step (FenceLapsed now) s Hok) as Hok'.
  pose proof (fence_lapsed_live s now b Hok) as Hlive. pose proof (fence_lapsed_get s now b) as Hget.
  pose proof (membership_epoch_step (FenceLapsed now) s) as Hgrow.
  destruct (fence_lapsed_value s now) as (Hval & Hepoch). cbn [member_step] in Hok', Hgrow.
  unfold state_of, value_of in *.
  destruct (ClusterMembership.fence_lapsed now s) as [s' r]. cbn [fst snd] in *. rewrite Hfa in Hlive.
  assert (b ∈ py_sorted String.le (broker_id <$> List.filter (ClusterMembership.lapsed s now) (d_values (ClusterMembership.brokers s)))
          ↔ b ∈ ClusterMembership.live_brokers s ∧ b ∉ ClusterMembership.live_brokers s') as Hnewly.
  { rewrite Hlive, py_sorted_elem_of, brokers_where, live_brokers_spec by done. setoid_rewrite lapsed_spec. rewrite Hfa. split.
    - intros (br & Hb & Hf & Hlt). split; [by exists br|]. intros (x & Hx & _ & Hle). simplify_eq. lia.
    - intros [(br & Hb & Hf) Hno]. exists br. split_and!; [done..|].
      apply Z.lt_nge. intros Hle. apply Hno. by exists br. }
  split; [exact Hlive|]. split; [by eexists|].
  intros Hin Hout Hlater. set (s'' := run member_step later s').
  assert (ClusterMembership.epoch s' ≠ ClusterMembership.epoch s) as Hne.
  { rewrite Hepoch. intros Hnil. rewrite Hnil in Hnewly. by apply (elem_of_nil b), Hnewly. }
  apply live_brokers_spec in Hin as (br & Hb & Hf); [|done]. rewrite live_brokers_spec in Hout by done.
  rewrite Hb in Hget. cbn in Hget.
  destruct (fenced_run later s' b _ Hlater Hget) as (br' & Hb' & Hf').
  { destruct (fenced (fence_one s now br)) eqn:E; [done|]. exfalso. apply Hout. by eexists. }
  assert (members_ok s'') as Hok'' by (apply run_invariant; [apply members_ok_step|done]).
  split_and!.
  - rewrite live_brokers_spec by done. intros (x & Hx & Hfx). unfold s'' in Hx. congruence.
  - intros now'. unfold ClusterMembership.heartbeat. act_simpl. unfold s''. rewrite Hb'. act_simpl. by rewrite Hf'.
  - pose proof (membership_epoch_run later s'). unfold s''. lia.
Qed.

Lemma fencing_exact_witness :
  let s := run member_step [Register "a" "x" 0; Register "b" "y" 0; Heartbeat "a" 9] (ClusterMembership.mk 5 [] 0) in
  let s' := (ClusterMembership.fence_lapsed 10 s).1 in
  "b"%string ∉ ClusterMembership.live_brokers (run member_step [Heartbeat "b" 11; Register "c" "x" 12] s').
Proof.
  pose proof (fencing_exact 5 _ [Register "a" "x" 0; Register "b" "y" 0; Heartbeat "a" 9] 10
    [Heartbeat "b" 11; Register "c" "x" 12] "b" eq_refl) as H.
  destruct H as (_ & _ & H). apply H.
  - apply (bool_decide_unpack _). vm_compute. exact I.
  - apply (bool_decide_unpack _). vm_compute. exact I.
  - intros o [->|[->| []%elem_of_nil]%elem_of_cons]%elem_of_cons; intros Ho; discriminate Ho || exact Ho.
Defined.

(** ** Which leader, and when there is none *)

(** a partition has a leader exactly when it is said to be online; the leader is an available
    replica, an in-sync one whenever any is available, and an out-of-sync one only when unclean
    election was allowed; the reasons given for being offline are the true ones *)
Theorem offline_partition_exact (self : PartitionAvailability.t) :
  (is_ok (PartitionAvailability.leader self) = PartitionAvailability.is_online self) ∧
  (∀ l, PartitionAvailability.leader self = Ok l →
     ∃ r, r ∈ PartitionAvailability.replicas self ∧ broker r = l ∧ available r = true ∧
       (in_sync r = true ∨
        PartitionAvailability.allow_unclean self = true ∧
        ∀ r', r' ∈ PartitionAvailability.replicas self → available r' = true → in_sync r' = false)) ∧
  match PartitionAvailability.why_offline self with
  | PartitionAvailability.Online => PartitionAvailability.is_online self = true
  | PartitionAvailability.AllDown => ∀ r, r ∈ PartitionAvailability.replicas self → available r = false
  | PartitionAvailability.NeedsUnclean =>
      PartitionAvailability.allow_unclean self = false ∧
      (∃ r, r ∈ PartitionAvailability.replicas self ∧ available r = true) ∧
      ∀ r, r ∈ PartitionAvailability.replicas self → available r = true → in_sync r = false
  end.
Proof.
  destruct self as [rs unclean].
  assert (∀ f (r : Replica), r ∈ List.filter f rs ↔ r ∈ rs ∧ f r = true) as Hf.
  { intros f r. by rewrite !list_elem_of_In, List.filter_In. }
  unfold PartitionAvailability.leader, PartitionAvailability.is_online, PartitionAvailability.why_offline,
    PartitionAvailability.is_online, PartitionAvailability._available_in_sync, PartitionAvailability._available_any. cbn.
  pose proof (Hf (λ r, available r && in_sync r)) as Hsync. pose proof (Hf available) as Hany.
  destruct (List.filter (λ r, available r && in_sync r) rs) as [|r l] eqn:Es.
  - assert (∀ r', r' ∈ rs → available r' = true → in_sync r' = false) as Hnone.
    { intros r' Hr' Ha. destruct (in_sync r') eqn:Ei; [|done]. exfalso. apply (elem_of_nil r'), Hsync. by rewrite Ha, Ei. }
    destruct (List.filter available rs) as [|r l] eqn:Ea; cbn.
    + rewrite andb_false_r. split_and!; [by destruct unclean|by destruct unclean|].
      intros r Hr. destruct (available r) eqn:E; [|done]. exfalso. by apply (elem_of_nil r), Hany.
    + assert (r ∈ rs ∧ available r = true) as [Hr Ha] by (apply Hany; left).
      destruct unclean; cbn; split_and!; try done; [|by exists r].
      intros l' [= <-]. exists r. split_and!; [done..|]. by right.
  - assert (r ∈ rs ∧ available r && in_sync r = true) as [Hr [Ha Hi]%andb_true_iff] by (apply Hsync; left).
    split_and!; [done| |done]. intros l' [= <-]. exists r. split_and!; [done..|]. by left.
Qed.

(** leadership returns to the preferred replica exactly when that is possible: [restore] moves it
    just for the partitions [restorable] lists, and then one leader changes, to the preferred
    replica, which is in sync; it changes nothing when it is refused or already there *)
Theorem restore_only_in_sync partition self :
  d_wf (LeadershipBalance.preferred self) →
  let '(self', r) := LeadershipBalance.restore partition self in
  (r = Ok true ↔ partition ∈ LeadershipBalance.restorable self) ∧
  (r ≠ Ok true → self' = self) ∧
  (r = Ok true → ∃ p, d_get (LeadershipBalance.preferred self) partition = Some p ∧
      p ∈ default ∅ (LeadershipBalance.in_sync self !! partition) ∧
      ∀ q, d_get (LeadershipBalance.current_leader self') q =
           if bool_decide (q = partition) then Some p else d_get (LeadershipBalance.current_leader self) q).
Proof.
  intros Hwf.
  assert (partition ∈ LeadershipBalance.restorable self ↔
    ∃ p, d_get (LeadershipBalance.preferred self) partition = Some p ∧
      d_get (LeadershipBalance.current_leader self) partition ≠ Some p ∧
      LeadershipBalance.is_in_sync self partition p = true) as Hrest.
  { unfold LeadershipBalance.restorable. rewrite py_sorted_elem_of, list_elem_of_fmap. split.
    - intros ([q p] & -> & H). apply list_elem_of_In, List.filter_In in H as [Hin H]. bool_prop. exists p.
      split; [|done]. apply list_elem_of_In in Hin. by apply d_elem_of_get.
    - intros (p & Hp & Hne & Hs). exists (partition, p). split; [done|]. apply list_elem_of_In, List.filter_In.
      split; [by apply list_elem_of_In, d_get_elem_of|]. cbn. rewrite Hs. by rewrite bool_decide_eq_false_2. }
  revert Hrest. generalize (LeadershipBalance.restorable self). intros l Hrest.
  unfold LeadershipBalance.restore. act_simpl.
  destruct (d_get (LeadershipBalance.preferred self) partition) as [p|] eqn:Hp; act_simpl.
  2: { rewrite Hrest. split; [|done]. split; [done|]. by intros (? & ? & _). }
  destruct (bool_decide _) eqn:Hcur; act_simpl; bool_prop.
  { rewrite Hrest. split; [|done]. split; [done|]. intros (? & [= <-] & ? & _). done. }
  destruct (LeadershipBalance.is_in_sync self partition p) eqn:Hs; act_simpl; rewrite Hrest.
  - split; [split; [|done]; intros _; by exists p|]. split; [done|]. intros _. exists p. split; [done|].
    unfold LeadershipBalance.is_in_sync in Hs. bool_prop. split; [done|]. intros q. cbn. apply d_get_set.
  - split; [|done]. split; [done|]. intros (? & [= <-] & _ & ?). congruence.
Qed.

Lemma restore_only_in_sync_witness :
  let self := LeadershipBalance.mk [(0, "a"%string)] [(0, "b"%string)] (<[0 := {["a"%string; "b"%string]}]> ∅) in
  (LeadershipBalance.restore 0 self).2 = Ok true.
Proof.
  intros self. pose proof (restore_only_in_sync 0 self) as H. destruct H as [H _]; [repeat constructor; set_solver|].
  apply H. apply (bool_decide_unpack _). vm_compute. exact I.
Defined.

(** ** Placing new partitions *)

Lemma replicas_from_Ok self start steps : 0 < zlen (Placer.brokers self) →
  Placer.replicas_from self start steps =
  Ok ((λ step, default ""%string (Placer.brokers self !! Z.to_nat ((start + step) mod zlen (Placer.brokers self)))) <$> steps).
Proof.
  intros Hn. induction steps as [|step steps IH]; [done|]. cbn [Placer.replicas_from fmap list_fmap].
  unfold py_mod. rewrite (proj2 (Z.eqb_neq _ 0)) by lia. cbn [mbind result_bind].
  pose proof (Z.mod_pos_bound (start + step) (zlen (Placer.brokers self)) ltac:(lia)) as Hb.
  destruct (lookup_lt_is_Some_2 (Placer.brokers self) (Z.to_nat ((start + step) mod zlen (Placer.brokers self)))) as [b Hl].
  { unfold zlen in *. lia. }
  rewrite (py_index_nonneg _ _ b) by (done || lia). cbn [mbind result_bind]. rewrite Hl, IH. done.
Qed.

Lemma place_loop_get self ps d q : 0 < zlen (Placer.brokers self) → NoDup ps →
  ∃ d', Placer.place_loop self ps d = Ok d' ∧
    (q ∉ ps → d_get d' q = d_get d q) ∧
    (q ∈ ps → d_get d' q = Some ((λ step, default ""%string
       (Placer.brokers self !! Z.to_nat ((q mod zlen (Placer.brokers self) + step) mod zlen (Placer.brokers self))))
       <$> seqZ 0 (Placer.replication_factor self))).
Proof.
  intros Hn. revert d. induction ps as [|p ps IH]; intros d Hnd.
  { exists d. split; [done|]. split; [done|]. by intros H%elem_of_nil. }
  apply NoDup_cons in Hnd as [Hp Hnd]. cbn [Placer.place_loop]. unfold py_mod at 1.
  rewrite (proj2 (Z.eqb_neq _ 0)) by lia. cbn [mbind result_bind]. rewrite replicas_from_Ok by done. cbn [mbind result_bind].
  edestruct IH as (d' & Hd' & Hout & Hin); [exact Hnd|]. exists d'. split; [exact Hd'|]. split.
  - intros Hq. rewrite Hout by set_solver. apply d_get_set_ne. set_solver.
  - intros [->|Hq]%elem_of_cons; [|by apply Hin]. rewrite Hout by done. apply d_get_set_eq.
Qed.

(** the placement of a topic: every partition gets the replication factor of distinct brokers, in
    the order of the ring that starts at its number, so the leaders go round the brokers in turn *)
Theorem placer_round_robin brokers rack_of rf self partitions p :
  NoDup brokers →
  Placer.make brokers rack_of rf = Ok self →
  0 <= p < partitions →
  ∃ assignment replicas, Placer.place self partitions = Ok assignment ∧
    d_get assignment p = Some replicas ∧
    zlen replicas = rf ∧ NoDup replicas ∧ replicas ⊆ brokers ∧
    head replicas = brokers !! Z.to_nat (p mod zlen brokers).
Proof.
  intros Hnd Hmake Hp. unfold Placer.make in Hmake. repeat (bool_split_in Hmake; [done|]). injection Hmake as <-. bool_prop.
  set (self := Placer.mk brokers rack_of rf). assert (0 < zlen brokers) as Hn by lia.
  destruct (place_loop_get self (seqZ 0 partitions) [] p Hn (NoDup_seqZ _ _)) as (d & Hd & _ & Hin).
  exists d. eexists. split; [exact Hd|]. split; [apply Hin, elem_of_seqZ; lia|]. cbn [Placer.brokers Placer.replication_factor self].
  assert (∀ step, ∃ b, brokers !! Z.to_nat ((p mod zlen brokers + step) mod zlen brokers) = Some b) as Hlk.
  { intros step. apply lookup_lt_is_Some_2.
    pose proof (Z.mod_pos_bound (p mod zlen brokers + step) (zlen brokers) Hn). unfold zlen in *. lia. }
  split_and!.
  - unfold zlen. rewrite length_fmap, length_seqZ. lia.
  - apply NoDup_fmap_2_strong; [|apply NoDup_seqZ]. intros x y Hx%elem_of_seqZ Hy%elem_of_seqZ.
    destruct (Hlk x) as [bx Hbx], (Hlk y) as [by_ Hby]. rewrite Hbx, Hby. cbn. intros ->.
    pose proof (NoDup_lookup _ _ _ _ Hnd Hbx Hby) as Heq.
    pose proof (Z.mod_pos_bound (p mod zlen brokers + x) (zlen brokers) Hn).
    pose proof (Z.mod_pos_bound (p mod zlen brokers + y) (zlen brokers) Hn).
    apply Z2Nat.inj in Heq; [|lia..].
    pose proof (Z.div_mod (p mod zlen brokers + x) (zlen brokers) ltac:(lia)).
    pose proof (Z.div_mod (p mod zlen brokers + y) (zlen brokers) ltac:(lia)).
    assert ((p mod zlen brokers + x) / zlen brokers = (p mod zlen brokers + y) / zlen brokers) by nia. nia.
  - intros b (step & -> & _)%list_elem_of_fmap. destruct (Hlk step) as [b Hb]. rewrite Hb. cbn.
    by apply list_elem_of_lookup_2 in Hb.
  - rewrite seqZ_cons by lia. cbn. rewrite Z.add_0_r, Z.mod_mod by lia.
    specialize (Hlk 0). rewrite Z.add_0_r, Z.mod_mod in Hlk by lia. destruct Hlk as [b Hb]. by rewrite Hb.
Qed.

Lemma placer_round_robin_witness :
  ∃ assignment replicas, Placer.place (Placer.mk ["a"; "b"; "c"]%string [] 2) 5 = Ok assignment ∧
    d_get assignment 4 = Some replicas ∧ NoDup replicas ∧ head replicas = Some "b"%string.
Proof.
  destruct (placer_round_robin ["a"; "b"; "c"]%string [] 2 (Placer.mk ["a"; "b"; "c"]%string [] 2) 5 4) as (d & rs & Hd & Hrs & _ & Hnd & _ & Hh).
  - apply (bool_decide_unpack _). vm_compute. exact I.
  - reflexivity.
  - lia.
  - exists d, rs. split_and!; [exact Hd|exact Hrs|exact Hnd|exact Hh].
Defined.

(** ** Replicas that keep coming and going *)

Section flapping.
Definition flap_step (o : Z * bool) (h : ReplicaFlapHistory.t) : ReplicaFlapHistory.t :=
  state_of (ReplicaFlapHistory.record o.1 o.2) h.

Definition alternates (l : list (Z * bool)) : Prop :=
  ∀ i p q, l !! i = Some p → l !! S i = Some q → p.1 < q.1 ∧ q.2 = negb p.2.

Lemma alternates_snoc l p : alternates l →
  (∀ q, last l = Some q → q.1 < p.1 ∧ p.2 = negb q.2) → alternates (l ++ [p]).
Proof.
  intros Hl Hp i x y Hx Hy. apply lookup_snoc_inv in Hy as [[Hi Hy]|[Hi ->]].
  - apply (Hl i); [|done]. by rewrite lookup_app_l in Hx by lia.
  - apply Hp. rewrite last_lookup. rewrite lookup_app_l in Hx by lia. by replace (Nat.pred (length l)) with i by lia.
Qed.

Lemma flap_alternates ops h : alternates (ReplicaFlapHistory.transitions h) →
  alternates (ReplicaFlapHistory.transitions (run flap_step ops h)).
Proof.
  apply (run_invariant _ (λ h, alternates (ReplicaFlapHistory.transitions h))). clear h ops.
  intros [tick sync] h Hh. unfold flap_step, state_of, ReplicaFlapHistory.record. act_simpl.
  destruct (last _) as [[t' s']|] eqn:Hl; act_simpl.
  - bool_split; [done|]. act_simpl. bool_split; [|done]. bool_prop. apply alternates_snoc; [done|].
    rewrite Hl. intros q [= <-]. cbn. split; [lia|]. by destruct s', sync.
  - apply alternates_snoc; [done|]. rewrite Hl. done.
Qed.
End flapping.

(** the history of a replica holds only its changes, in order, so the count the detector takes is
    of changes; a replica that has not changed for longer than the window is not held out, and one
    that changed as often as the threshold within it is, even while it qualifies *)
Theorem flapper_held_out window threshold cooldown det name ops now :
  FlapDetector.make window threshold cooldown = Ok det →
  let h := run flap_step ops (ReplicaFlapHistory.mk name []) in
  alternates (ReplicaFlapHistory.transitions h) ∧
  (FlapDetector.may_rejoin det h now true = FlapDetector.HeldOut ↔
     threshold <= zlen (List.filter (λ p : Z * bool, now - p.1 <=? window) (ReplicaFlapHistory.transitions h))) ∧
  ((∀ p, p ∈ ReplicaFlapHistory.transitions h → window < now - p.1) →
     FlapDetector.may_rejoin det h now true = FlapDetector.MayRejoin).
Proof.
  intros Hmake h. unfold FlapDetector.make in Hmake. bool_split_in Hmake; [done|]. injection Hmake as <-. bool_prop.
  split; [apply flap_alternates; intros i p q H; discriminate H|].
  unfold FlapDetector.may_rejoin, FlapDetector.is_flapping, ReplicaFlapHistory.transitions_in_window. cbn.
  split.
  - rewrite <- Z.leb_le. by destruct (threshold <=? _).
  - intros Hold. rewrite (proj2 (Z.leb_gt _ _)); [done|].
    assert (List.filter (λ p : Z * bool, now - p.1 <=? window) (ReplicaFlapHistory.transitions h) = []) as ->.
    { induction (ReplicaFlapHistory.transitions h) as [|p l IH]; [done|]. cbn.
      rewrite (proj2 (Z.leb_gt _ _)) by (apply Hold; left). apply IH. intros; apply Hold. by right. }
    rewrite zlen_nil. lia.
Qed.

Lemma flapper_held_out_witness :
  let h := run flap_step [(1, true); (2, false); (3, true)] (ReplicaFlapHistory.mk "r" []) in
  FlapDetector.may_rejoin (FlapDetector.mk 10 3 60) h 5 true = FlapDetector.HeldOut.
Proof.
  apply (flapper_held_out 10 3 60 (FlapDetector.mk 10 3 60) "r" [(1, true); (2, false); (3, true)] 5 eq_refl).
  vm_compute. discriminate.
Defined.

(** the cool-down has no part in any answer of the detector *)
Theorem flap_cooldown_ignored window threshold c c' h now q :
  FlapDetector.may_rejoin (FlapDetector.mk window threshold c) h now q =
  FlapDetector.may_rejoin (FlapDetector.mk window threshold c') h now q.
Proof. reflexivity. Qed.

(** ** Taking a replica or a broker away *)

(** a broker can leave once every partition it led has moved and every replica it held has a new
    home, and not before; a replica stops only where it is hosted and does not lead, and its data go
    only when that was asked for *)
Theorem retirement_drains (self : Decommission.t) (moved rehomed : list string) :
  let self' := run (λ p s, state_of (Decommission.replica_rehomed p) s) rehomed
                 (run (λ p s, state_of (Decommission.leadership_moved p) s) moved self) in
  Decommission.unregister self' = Ok () ↔
  (∀ p, p ∈ Decommission.leads self → p ∈ moved) ∧ (∀ p, p ∈ Decommission.hosts_needed self → p ∈ rehomed).
Proof.
  assert (∀ l s, run (λ p s, state_of (Decommission.leadership_moved p) s) l s =
    Decommission.mk (Decommission.leads s ∖ list_to_set l) (Decommission.hosts_needed s)) as Hm.
  { induction l as [|p l IH]; intros s.
    - destruct s as [a b]. cbn. f_equal. set_solver.
    - unfold run in *. cbn [foldl]. rewrite IH. cbn. f_equal. set_solver. }
  assert (∀ l s, run (λ p s, state_of (Decommission.replica_rehomed p) s) l s =
    Decommission.mk (Decommission.leads s) (Decommission.hosts_needed s ∖ list_to_set l)) as Hr.
  { induction l as [|p l IH]; intros s.
    - destruct s as [a b]. cbn. f_equal. set_solver.
    - unfold run in *. cbn [foldl]. rewrite IH. cbn. f_equal. set_solver. }
  cbn zeta. rewrite Hm, Hr. unfold Decommission.unregister. cbn [Decommission.leads Decommission.hosts_needed].
  assert (∀ (X : gset string) l, X ∖ list_to_set l = ∅ ↔ ∀ p, p ∈ X → p ∈ l) as Hdiff.
  { intros X l. split; [|set_solver]. intros HX p Hp. destruct (decide (p ∈ l)); [done|]. exfalso.
    assert (p ∈ X ∖ list_to_set l) as Hin by set_solver. rewrite HX in Hin. by apply elem_of_empty in Hin. }
  rewrite <- !Hdiff. case_bool_decide as H1; [split; [done|intros [? _]; done]|].
  case_bool_decide as H2; [split; [done|intros [_ ?]; done]|].
  done.
Qed.

Theorem stop_replica_guards partition delete self :
  let '(self', r) := ReplicaHost.stop_replica partition delete self in
  (r = Ok () ↔ partition ∈ ReplicaHost.hosted self ∧ partition ∉ ReplicaHost.leading self) ∧
  (r ≠ Ok () → self' = self) ∧
  (r = Ok () → partition ∉ ReplicaHost.hosted self' ∧
     (partition ∈ ReplicaHost.on_disk self' ↔ delete = false ∧ partition ∈ ReplicaHost.on_disk self)).
Proof.
  unfold ReplicaHost.stop_replica. act_simpl. repeat (bool_split; act_simpl); bool_prop; cbn;
    (split; [set_solver|]; split; [done|]); intros ?; simplify_eq; set_solver.
Qed.
