(* ===== verification/Client.v ===== *)
(** * The consumer's side of a fetch

    [relay/fetchsession.py] keeps what a consumer asks for between fetches, and
    [relay/fetchassembly.py] and [relay/fetchmaxbytes.py] share one response among the partitions.
    [relay/consumerposition.py], [relay/offsetstore.py], [relay/commitretry.py] and
    [relay/consumerclose.py] are the consumer's offsets; [relay/seek.py],
    [relay/offsetreset.py], [relay/outofrange.py] and [relay/listoffsets.py] find a place to read
    from; [relay/pauseresume.py] and [relay/prefetch.py] hold the flow. *)

From S2P Require Import Prelude PyDict.

Module fetchsession.
Module FetchSession.
(** [relay/fetchsession.py] class FetchSession *)
Record t := mk { session_id : Z; epoch : Z; known_offsets : pydict Z Z }.

Definition make (session_id : Z) : t := mk session_id 0 [].

(** [relay/fetchsession.py] FetchSession.full_fetch *)
Definition full_fetch (offsets : pydict Z Z) : act t unit := modify (λ self, mk (session_id self) 1 offsets).

(** [relay/fetchsession.py] FetchSession.incremental_fetch: the partitions touched *)
Definition incremental_fetch (epoch_ : Z) (changed : pydict Z Z) : act t (list Z) :=
  self ← get;
  raise_if (epoch self =? 0) Invalid;;
  raise_if (negb (epoch_ =? epoch self)) Invalid;;
  put (mk (session_id self) (epoch self + 1) (d_update (known_offsets self) changed));;
  mret (py_sorted Z.le (d_keys changed)).

(** [relay/fetchsession.py] FetchSession.protocol_ratio: the entries elided *)
Definition protocol_ratio (subscribed entries_sent : Z) : result Z :=
  if subscribed <? 1 then Err Invalid else Ok (subscribed - entries_sent).
End FetchSession.
End fetchsession.
Import fetchsession.

Module fetchassembly.
Module FetchAssembler.
(** [relay/fetchassembly.py] class FetchAssembler *)
Record t := mk { response_budget : Z; rotation : Z }.

(** [relay/fetchassembly.py] FetchAssembler.__post_init__ *)
Definition make (response_budget rotation : Z) : result t :=
  if response_budget <? 1 then Err Invalid else Ok (mk response_budget rotation).

(** [relay/fetchassembly.py:50-52] FetchAssembler.assemble *)
Fixpoint rotated (available : list (Z * Z)) (rotation : Z) (is_ : list Z) : result (list (Z * Z)) :=
  match is_ with
  | [] => Ok []
  | i :: is_ =>
      k ← py_mod (rotation + i) (zlen available);
      x ← py_index available k;
      rest ← rotated available rotation is_;
      Ok (x :: rest)
  end.

(** [relay/fetchassembly.py:53-65] FetchAssembler.assemble *)
Fixpoint pack (budget : Z) (order : list (Z * Z)) (served deferred : list Z) (used : Z) : list Z * list Z :=
  match order with
  | [] => (served, deferred)
  | (partition, size) :: order =>
      if (budget <? size) && match served with [] => true | _ => false end then pack budget order (served ++ [partition]) deferred size
      else if used + size <=? budget then pack budget order (served ++ [partition]) deferred (used + size)
      else pack budget order served (deferred ++ [partition]) used
  end.

(** [relay/fetchassembly.py] FetchAssembler.assemble *)
Definition assemble (available : list (Z * Z)) : act t (list Z * list Z) :=
  self ← get;
  raise_if (match available with [] => true | _ => false end) Invalid;;
  let n := zlen available in
  order ← pure_of (rotated available (rotation self) (seqZ 0 n));
  let r := pack (response_budget self) order [] [] 0 in
  rotation' ← pure_of (py_mod (rotation self + 1) n);
  put (mk (response_budget self) rotation');;
  mret (py_sorted Z.le r.1, py_sorted Z.le r.2).

(** [relay/fetchassembly.py] FetchAssembler.report *)
Definition report (served deferred : list Z) : string :=
  let note := match deferred with
              | [] => ""
              | _ => "; " +:+ zs (zlen deferred) +:+ " deferred to a later round, which a consumer can wait on calmly"
              end in
  zs (zlen served) +:+ " partition(s) served this round" +:+ note +:+ "; fairness rotates so none starves".
End FetchAssembler.
End fetchassembly.
Import fetchassembly.

Module fetchmaxbytes.
Module PerPartitionCap.
(** [relay/fetchmaxbytes.py] class PerPartitionCap *)
Record t := mk { per_partition_max : Z }.

(** [relay/fetchmaxbytes.py] PerPartitionCap.__post_init__ *)
Definition make (per_partition_max : Z) : result t := if per_partition_max <? 1 then Err Invalid else Ok (mk per_partition_max).

(** [relay/fetchmaxbytes.py] PerPartitionCap.allocate *)
Definition allocate (self : t) (available largest_record : Z) : Z :=
  if available =? 0 then 0
  else if per_partition_max self <? largest_record then largest_record
  else Z.min available (per_partition_max self).
End PerPartitionCap.
End fetchmaxbytes.
Import fetchmaxbytes.

Module consumerposition.
Module ConsumerPosition.
(** [relay/consumerposition.py] class ConsumerPosition *)
Record t := mk { high_watermark : Z; position : Z; committed : Z }.

(** [relay/consumerposition.py] ConsumerPosition.__post_init__ *)
Definition make (high_watermark position committed : Z) : result t :=
  if high_watermark <? position then Err Invalid
  else if position <? committed then Err Invalid
  else Ok (mk high_watermark position committed).

(** [relay/consumerposition.py] ConsumerPosition.advance_position *)
Definition advance_position (to : Z) : act t unit :=
  self ← get;
  raise_if (high_watermark self <? to) Invalid;;
  raise_if (to <? position self) Invalid;;
  put (mk (high_watermark self) to (committed self)).

(** [relay/consumerposition.py] ConsumerPosition.commit *)
Definition commit (to : Z) : act t unit :=
  self ← get;
  raise_if (position self <? to) Invalid;;
  put (mk (high_watermark self) (position self) to).

(** [relay/consumerposition.py] ConsumerPosition.replay_window *)
Definition replay_window (self : t) : Z := position self - committed self.
(** [relay/consumerposition.py] ConsumerPosition.lag *)
Definition lag (self : t) : Z := high_watermark self - position self.

(** [relay/consumerposition.py] ConsumerPosition.report *)
Definition report (self : t) : string :=
  "position " +:+ zs (position self) +:+ ", committed " +:+ zs (committed self) +:+ ", watermark " +:+ zs (high_watermark self)
  +:+ "; replay window " +:+ zs (replay_window self) +:+ ", lag " +:+ zs (lag self)
  +:+ "; lag alone hides a fast reader not committing, a crash from a large replay".
End ConsumerPosition.
End consumerposition.
Import consumerposition.

Module offsetstore.
(** [relay/offsetstore.py] class CommitKey *)
Record CommitKey := mk_key { group : string; topic : string; partition : Z }.
#[global] Instance CommitKey_eq_dec : EqDecision CommitKey.
Proof. solve_decision. Defined.

Module OffsetStore.
(** [relay/offsetstore.py] class OffsetStore *)
Record t := mk { commits : pydict CommitKey Z; commit_records_written : Z }.

Definition make : t := mk [] 0.

(** [relay/offsetstore.py] OffsetStore.commit *)
Definition commit (key : CommitKey) (offset : Z) (durable : bool) : act t unit :=
  self ← get;
  raise_if (negb durable) Invalid;;
  raise_if (match d_get (commits self) key with Some held => offset <? held | None => false end) Invalid;;
  put (mk (d_set (commits self) key offset) (commit_records_written self + 1)).

(** [relay/offsetstore.py] OffsetStore.fetch *)
Definition fetch (self : t) (key : CommitKey) : result Z :=
  match d_get (commits self) key with Some offset => Ok offset | None => Err Missing end.

(** [relay/offsetstore.py] OffsetStore.compacted_size *)
Definition compacted_size (self : t) : Z := zlen (commits self).

(** [relay/offsetstore.py] OffsetStore.bound_report *)
Definition bound_report (self : t) : string :=
  zs (commit_records_written self) +:+ " commit record(s) written, " +:+ zs (compacted_size self)
  +:+ " survive compaction; the store is bounded by group-partition pairs, not by commits ever made".
End OffsetStore.
End offsetstore.
Import offsetstore.

Module commitretry.
(** [relay/commitretry.py:34-36] TRANSIENT *)
Inductive cause := TRANSIENT | COORDINATOR_MOVED | ILLEGAL_GENERATION | Unknown (s : string).

Module CommitRetrier.
(** [relay/commitretry.py] class CommitRetrier *)
Record t := mk { max_retries : Z; transient_retries : Z; redirects : Z; abandoned : Z }.

(** [relay/commitretry.py] CommitRetrier.__post_init__ *)
Definition make (max_retries : Z) : result t := if max_retries <? 1 then Err Invalid else Ok (mk max_retries 0 0 0).

(** what the caller is told to do *)
Inductive advice := RetryAgain | GiveUp | Redirect | Rejoin.

(** [relay/commitretry.py] CommitRetrier.on_failure *)
Definition on_failure (cause_ : cause) (attempt : Z) : act t advice :=
  self ← get;
  match cause_ with
  | TRANSIENT =>
      if max_retries self <=? attempt then
        put (mk (max_retries self) (transient_retries self) (redirects self) (abandoned self + 1));; mret GiveUp
      else put (mk (max_retries self) (transient_retries self + 1) (redirects self) (abandoned self));; mret RetryAgain
  | COORDINATOR_MOVED => put (mk (max_retries self) (transient_retries self) (redirects self + 1) (abandoned self));; mret Redirect
  | ILLEGAL_GENERATION => put (mk (max_retries self) (transient_retries self) (redirects self) (abandoned self + 1));; mret Rejoin
  | Unknown _ => raise Invalid
  end.

(** [relay/commitretry.py] CommitRetrier.report *)
Definition report (self : t) : string :=
  zs (transient_retries self) +:+ " transient retry(ies), " +:+ zs (redirects self) +:+ " redirect(s), " +:+ zs (abandoned self)
  +:+ " abandoned; rising transients are a flaky network, rising illegal-generation is a group rebalancing too often".
End CommitRetrier.
End commitretry.
Import commitretry.

Module consumerclose.
Module ConsumerClose.
(** [relay/consumerclose.py] class ConsumerClose *)
Record t := mk { position : Z; committed : Z; closing : bool; left_group : bool }.

(** [relay/consumerclose.py] ConsumerClose.poll *)
Definition poll : act t unit := self ← get; raise_if (closing self) Invalid.

(** [relay/consumerclose.py] ConsumerClose.close *)
Definition close : act t unit :=
  self ← get;
  raise_if (left_group self) Invalid;;
  put (mk (position self) (position self) true true).

(** [relay/consumerclose.py] ConsumerClose.crashed_cost *)
Definition crashed_cost (session_timeout : Z) : string :=
  "a consumer that crashed without leaving strands its partitions for the whole " +:+ zs session_timeout
  +:+ " session timeout before the coordinator reassigns them, consumed by no one".
End ConsumerClose.
End consumerclose.
Import consumerclose.

Module seek.
(** [relay/seek.py] class LogBounds *)
Record LogBounds := mk_bounds { log_start : Z; high_watermark : Z }.

(** [relay/seek.py] LogBounds.__post_init__ *)
Definition make_bounds (log_start high_watermark : Z) : result LogBounds :=
  if high_watermark <? log_start then Err Invalid else Ok (mk_bounds log_start high_watermark).

(** [relay/seek.py] seek_to_offset: the offset, and whether it was clamped *)
Definition seek_to_offset (bounds : LogBounds) (requested : Z) : Z * bool :=
  if requested <? log_start bounds then (log_start bounds, true)
  else if high_watermark bounds <? requested then (high_watermark bounds, true)
  else (requested, false).

(** [relay/seek.py] seek_to_beginning *)
Definition seek_to_beginning (bounds : LogBounds) : Z := log_start bounds.
(** [relay/seek.py] seek_to_end *)
Definition seek_to_end (bounds : LogBounds) : Z := high_watermark bounds.
End seek.

Module offsetreset.
(** [relay/offsetreset.py:27-27] POLICIES *)
Inductive policy := Earliest | Latest | ErrorPolicy | UnknownPolicy (s : string).

(** [relay/offsetreset.py] class PartitionBounds *)
Record PartitionBounds := mk_bounds { first_offset : Z; high_watermark : Z }.

(** the situation in the message *)
Inductive situation := NewConsumer | FellBehind | StillValid.

(** [relay/offsetreset.py] resolve_reset *)
Definition resolve_reset (policy_ : policy) (committed : option Z) (bounds : PartitionBounds) : result (Z * situation) :=
  match policy_ with
  | UnknownPolicy _ => Err Invalid
  | _ =>
      let choose (s : situation) :=
        match policy_ with
        | ErrorPolicy => Err Lagging
        | Earliest => Ok (first_offset bounds, s)
        | _ => Ok (high_watermark bounds, s)
        end in
      match committed with
      | None => choose NewConsumer
      | Some c => if c <? first_offset bounds then choose FellBehind else Ok (c, StillValid)
      end
  end.

Module ResetLedger.
(** [relay/offsetreset.py] class ResetLedger *)
Record t := mk { new_consumer_resets : Z; fell_behind_resets : Z }.

(** [relay/offsetreset.py] ResetLedger.record *)
Definition record (s : situation) : act t unit :=
  modify (λ self, match s with
    | NewConsumer => mk (new_consumer_resets self + 1) (fell_behind_resets self)
    | FellBehind => mk (new_consumer_resets self) (fell_behind_resets self + 1)
    | StillValid => self
    end).

(** [relay/offsetreset.py] ResetLedger.report *)
Definition report (self : t) : string :=
  zs (new_consumer_resets self) +:+ " new-consumer reset(s), " +:+ zs (fell_behind_resets self)
  +:+ " fell-behind reset(s); the second number is data that aged out before a consumer read it, and a rising one is a retention or a consumer problem, never nothing".
End ResetLedger.
End offsetreset.

Module outofrange.
(** [relay/outofrange.py] class Window *)
Record Window := mk_window { log_start : Z; log_end : Z }.

(** [relay/outofrange.py] Window.__post_init__ *)
Definition make_window (log_start log_end : Z) : result Window :=
  if log_end <? log_start then Err Invalid else Ok (mk_window log_start log_end).

(** [relay/outofrange.py] Window.contains *)
Definition contains (self : Window) (offset : Z) : bool := (log_start self <=? offset) && (offset <? log_end self).

(** the four answers of [resolve_out_of_range] *)
Inductive resolution := Proceed | ResetTo (offset : Z) | LossVisible | RefreshMetadata.

(** [relay/outofrange.py] resolve_out_of_range *)
Definition resolve_out_of_range (window : Window) (offset : Z) (reset_policy : string) : resolution :=
  if contains window offset then Proceed
  else if offset <? log_start window then
    if bool_decide (reset_policy = "earliest"%string) then ResetTo (log_start window) else LossVisible
  else RefreshMetadata.
End outofrange.

Module listoffsets.
(** [relay/listoffsets.py] class OffsetQuery *)
Record OffsetQuery := mk_query { log_start : Z; high_watermark : Z; timestamped : bool }.

(** [relay/listoffsets.py] OffsetQuery.__post_init__ *)
Definition make_query (log_start high_watermark : Z) (timestamped : bool) : result OffsetQuery :=
  if high_watermark <? log_start then Err Invalid else Ok (mk_query log_start high_watermark timestamped).

(** [relay/listoffsets.py] OffsetQuery.earliest *)
Definition earliest (self : OffsetQuery) : Z := log_start self.
(** [relay/listoffsets.py] OffsetQuery.latest *)
Definition latest (self : OffsetQuery) : Z := high_watermark self.

(** [relay/listoffsets.py:63-65] OffsetQuery.for_timestamp *)
Fixpoint first_at (target : Z) (records : list (Z * Z)) : option Z :=
  match records with
  | [] => None
  | (offset, ts) :: records => if target <=? ts then Some offset else first_at target records
  end.

(** [relay/listoffsets.py] OffsetQuery.for_timestamp: the offset, and whether a record matched *)
Definition for_timestamp (self : OffsetQuery) (target : Z) (records : list (Z * Z)) : result (Z * bool) :=
  if negb (timestamped self) then Err Invalid
  else match first_at target records with
       | Some offset => Ok (offset, true)
       | None => Ok (high_watermark self, false)
       end.
End listoffsets.

Module pauseresume.
Module PartitionFlow.
(** [relay/pauseresume.py] class PartitionFlow *)
Record t := mk { assigned : gset Z; paused : gset Z }.

(** [relay/pauseresume.py] PartitionFlow.pause *)
Definition pause (partition : Z) : act t unit :=
  self ← get;
  raise_if (negb (bool_decide (partition ∈ assigned self))) Invalid;;
  put (mk (assigned self) (paused self ∪ {[partition]})).

(** [relay/pauseresume.py] PartitionFlow.resume *)
Definition resume (partition : Z) : act t unit :=
  self ← get;
  raise_if (negb (bool_decide (partition ∈ assigned self))) Invalid;;
  put (mk (assigned self) (paused self ∖ {[partition]})).

(** [relay/pauseresume.py] PartitionFlow.fetchable *)
Definition fetchable (self : t) : gset Z := assigned self ∖ paused self.
(** [relay/pauseresume.py] PartitionFlow.is_paused *)
Definition is_paused (self : t) (partition : Z) : bool := bool_decide (partition ∈ paused self).

(** [relay/pauseresume.py] PartitionFlow.lag_still_counts: the partitions in the message *)
Definition lag_still_counts (self : t) (paused_lag : pydict Z Z) : pydict Z Z :=
  List.filter (λ p : Z * Z, is_paused self p.1 && (0 <? p.2)) paused_lag.
End PartitionFlow.
End pauseresume.
Import pauseresume.

Module prefetch.
Module Prefetcher.
(** [relay/prefetch.py] class Prefetcher *)
Record t := mk { high_mark : Z; low_mark : Z; buffered : Z; paused : bool }.

(** [relay/prefetch.py] Prefetcher.__post_init__ *)
Definition make (high_mark low_mark : Z) : result t :=
  if high_mark <=? low_mark then Err Invalid
  else if low_mark <? 0 then Err Invalid
  else Ok (mk high_mark low_mark 0 false).

(** [relay/prefetch.py] Prefetcher.fetched *)
Definition fetched (batches : Z) : act t unit :=
  modify (λ self, mk (high_mark self) (low_mark self) (buffered self + batches) (paused self));;
  self ← get;
  if high_mark self <=? buffered self then put (mk (high_mark self) (low_mark self) (buffered self) true) else mret ().

(** [relay/prefetch.py] Prefetcher.processed *)
Definition processed (batches : Z) : act t unit :=
  modify (λ self, mk (high_mark self) (low_mark self) (Z.max 0 (buffered self - batches)) (paused self));;
  self ← get;
  if paused self && (buffered self <=? low_mark self)
  then put (mk (high_mark self) (low_mark self) (buffered self) false) else mret ().

(** [relay/prefetch.py] Prefetcher.report *)
Definition report (self : t) : string :=
  let state := if paused self then "paused" else "active" in
  let note := if paused self then
      "; permanently paused means the processor, not the network, is the bottleneck, the opposite of what prefetch fixes"
    else "" in
  "buffer " +:+ zs (buffered self) +:+ "/" +:+ zs (high_mark self) +:+ ", prefetch " +:+ state +:+ note.
End Prefetcher.
End prefetch.
Import prefetch.

(** ** The fetch session and the consumer agree, or the consumer starts over *)

Section session.

(** a consumer of the session as the module describes it: it holds the epoch and the offsets of
    the last answer it got, and none once it has had to ask for everything again *)
Record consumer := mk_consumer { view : option (Z * pydict Z Z) }.

Inductive session_op :=
  (* a full fetch, and whether its answer arrives *)
  | Full (offsets : pydict Z Z) (answered : bool)
  (* an incremental fetch with the epoch of the view, and whether its answer arrives *)
  | Incremental (changed : pydict Z Z) (answered : bool)
  (* the broker restarts and forgets the session *)
  | BrokerRestart.

Definition session_step (o : session_op) (w : FetchSession.t * consumer) : FetchSession.t * consumer :=
  match o with
  | Full offsets answered =>
      (state_of (FetchSession.full_fetch offsets) w.1,
       mk_consumer (if answered then Some (1, offsets) else None))
  | Incremental changed answered =>
      match view w.2 with
      | None => w
      | Some (e, offsets) =>
          let r := FetchSession.incremental_fetch e changed w.1 in
          (r.1, if answered then
                  match r.2 with
                  | Ok _ => mk_consumer (Some (e + 1, d_update offsets changed))
                  | Err _ => mk_consumer None
                  end
                else w.2)
      end
  | BrokerRestart => (FetchSession.make (FetchSession.session_id w.1), w.2)
  end.

Definition in_sync (w : FetchSession.t * consumer) : Prop :=
  0 <= FetchSession.epoch w.1 ∧
  ∀ e offsets, view w.2 = Some (e, offsets) →
    1 <= e ∧ (FetchSession.epoch w.1 = e ∧ FetchSession.known_offsets w.1 = offsets
              ∨ FetchSession.epoch w.1 = 0 ∨ e < FetchSession.epoch w.1).

Lemma incremental_fetch_cases e changed s :
  FetchSession.incremental_fetch e changed s =
  if (FetchSession.epoch s =? 0) || negb (e =? FetchSession.epoch s) then (s, Err Invalid)
  else (FetchSession.mk (FetchSession.session_id s) (FetchSession.epoch s + 1) (d_update (FetchSession.known_offsets s) changed),
        Ok (py_sorted Z.le (d_keys changed))).
Proof. unfold FetchSession.incremental_fetch. act_simpl. by destruct (_ =? 0), (e =? _). Qed.

Lemma in_sync_step o w : in_sync w → in_sync (session_step o w).
Proof.
  destruct w as [s c]. intros [He Hs]. destruct o as [offsets answered|changed answered|]; cbn [session_step fst snd] in *.
  - unfold state_of, FetchSession.full_fetch. act_simpl. split; [cbn; lia|]. cbn. intros e offs Hv.
    destruct answered; [|done]. injection Hv as <- <-. split; [lia|]. by left.
  - destruct (view c) as [[e offsets]|] eqn:Hv; [|split; [done|]; cbn; intros; congruence].
    destruct (Hs e offsets eq_refl) as [He1 Hcase]. rewrite incremental_fetch_cases.
    destruct (_ || _) eqn:Hrefuse; cbn [fst snd].
    + destruct answered; [by split|]. split; [done|]. intros e' offs' Hv'. cbn [snd] in Hv'. apply Hs. by rewrite <- Hv.
    + bool_prop. split; [cbn; lia|]. destruct answered.
      * cbn. intros e' offs' [= <- <-]. split; [lia|]. left.
        destruct Hcase as [[<- <-]|[?|?]]; [done|lia..].
      * cbn. intros e' offs' Hv'. rewrite Hv in Hv'. injection Hv' as <- <-. split; [done|]. right; right. lia.
  - split; [done|]. cbn. intros e offs Hv. split; [by apply (Hs e offs)|]. right. by left.
Qed.
End session.

(** Also (refinement): an incremental fetch is served against exactly the offsets the consumer holds,
    or not at all.  Whatever full and incremental fetches are sent, whichever answers are lost and
    whenever the broker forgets the session: when an incremental fetch is accepted the session's
    offsets are the consumer's view, and after it they are that view with the changes, so no
    partition is skipped; and when it is refused the session is unchanged. *)
Theorem fetch_session_in_sync id ops e offsets changed :
  let w := run session_step ops (FetchSession.make id, mk_consumer None) in
  view w.2 = Some (e, offsets) →
  let '(s', r) := FetchSession.incremental_fetch e changed w.1 in
  (is_ok r = true → FetchSession.known_offsets w.1 = offsets ∧ FetchSession.known_offsets s' = d_update offsets changed) ∧
  (is_ok r = false → r = Err Invalid ∧ s' = w.1).
Proof.
  intros w Hv. assert (in_sync w) as [He Hs].
  { apply run_invariant; [apply in_sync_step|]. split; [done|]. intros e' o' H. discriminate H. }
  destruct (Hs e offsets Hv) as [He1 Hcase]. rewrite incremental_fetch_cases.
  destruct (_ || _) eqn:Hrefuse; cbn; [done|]. bool_prop. split; [|done]. intros _.
  destruct Hcase as [[_ <-]|[?|?]]; [done|lia..].
Qed.

Lemma fetch_session_in_sync_witness :
  let w := run session_step [Full [(0, 5); (1, 7)] true; Incremental [(0, 6)] true; Incremental [(1, 9)] false] (FetchSession.make 1, mk_consumer None) in
  view w.2 = Some (2, [(0, 6); (1, 7)]) ∧
  FetchSession.incremental_fetch 2 [(1, 9)] w.1 = (w.1, Err Invalid).
Proof.
  split; [vm_compute; reflexivity|].
  pose proof (fetch_session_in_sync 1 [Full [(0, 5); (1, 7)] true; Incremental [(0, 6)] true; Incremental [(1, 9)] false]
    2 [(0, 6); (1, 7)] [(1, 9)] eq_refl) as [_ H].
  destruct (H eq_refl) as [_ _]. vm_compute. reflexivity.
Defined.

(** ** Sharing one response *)

Section assembly.
Import FetchAssembler.

Lemma rotated_spec (available : list (Z * Z)) rot : 0 <= rot → available ≠ [] →
  let k := Z.to_nat (rot mod zlen available) in
  rotated available rot (seqZ 0 (zlen available)) = Ok (drop k available ++ take k available).
Proof.
  intros Hrot Hne k. assert (0 < zlen available) as Hn.
  { destruct available; [done|]. rewrite zlen_cons. pose proof (zlen_nonneg available). lia. }
  clear Hne.
  assert (∀ is_, rotated available rot is_ =
    Ok ((λ i, default (0, 0) (available !! Z.to_nat ((rot + i) mod zlen available))) <$> is_)) as Hmap.
  { induction is_ as [|i is_ IH]; [done|]. cbn [rotated fmap list_fmap]. unfold py_mod.
    rewrite (proj2 (Z.eqb_neq _ 0)) by lia. cbn [mbind result_bind].
    pose proof (Z.mod_pos_bound (rot + i) (zlen available) Hn).
    destruct (lookup_lt_is_Some_2 available (Z.to_nat ((rot + i) mod zlen available))) as [x Hx]; [unfold zlen in *; lia|].
    rewrite (py_index_nonneg _ _ x) by (done || lia). cbn [mbind result_bind]. rewrite IH, Hx. done. }
  rewrite Hmap. f_equal. pose proof (Z.mod_pos_bound rot (zlen available) Hn) as Hb.
  assert (k < length available)%nat as Hk by (unfold k, zlen in *; lia).
  apply list_eq_same_length with (length available).
  { rewrite length_app, length_drop, length_take. lia. }
  { rewrite length_fmap, length_seqZ. unfold zlen. lia. }
  intros i x y Hi. rewrite list_lookup_fmap, lookup_seqZ_lt by (unfold zlen; lia). cbn. intros [= <-] Hy.
  assert ((rot + (0 + Z.of_nat i)) mod zlen available =
    if decide (k + i < length available)%nat then Z.of_nat (k + i) else Z.of_nat (k + i - length available)) as ->.
  { rewrite Z.add_0_l, <- Zplus_mod_idemp_l.
    replace (rot mod zlen available) with (Z.of_nat k) by (unfold k; lia).
    destruct (decide _).
    - rewrite Z.mod_small; unfold zlen; lia.
    - replace (Z.of_nat k + Z.of_nat i) with (Z.of_nat (k + i - length available) + 1 * zlen available) by (unfold zlen; lia).
      rewrite Z.mod_add by lia. apply Z.mod_small. unfold zlen. lia. }
  destruct (decide _).
  - rewrite Nat2Z.id. rewrite lookup_app_l in Hy by (rewrite length_drop; lia).
    rewrite lookup_drop in Hy. by rewrite Hy.
  - rewrite Nat2Z.id. rewrite lookup_app_r in Hy by (rewrite length_drop; lia).
    rewrite length_drop in Hy. rewrite lookup_take_lt in Hy by lia.
    replace (k + i - length available)%nat with (i - (length available - k))%nat by lia. by rewrite Hy.
Qed.

(** what has been served so far fits, or is one record larger than any response *)
Definition fits (budget : Z) (S : list (Z * Z)) : Prop :=
  zsum snd S <= budget ∨ ∃ x, S = [x] ∧ budget < x.2.

Lemma pack_spec budget order S D :
  (∀ x, x ∈ order → 0 <= x.2) → fits budget S →
  ∃ S' D', pack budget order S.*1 D.*1 (zsum snd S) = (S'.*1, D'.*1) ∧
    S' ++ D' ≡ₚ S ++ D ++ order ∧ S `prefix_of` S' ∧ fits budget S'.
Proof.
  revert S D. induction order as [|[p size] order IH]; intros S D Hpos HS.
  { exists S, D. by rewrite app_nil_r. }
  assert (∀ x, x ∈ order → 0 <= x.2) as Hpos' by (intros; apply Hpos; by right).
  pose proof (Hpos (p, size) ltac:(left)) as Hsize. cbn in Hsize. cbn [pack].
  assert (S ++ (D ++ [(p, size)]) ++ order ≡ₚ S ++ D ++ (p, size) :: order) as Hmove by (by rewrite <- app_assoc).
  assert ((S ++ [(p, size)]) ++ D ++ order ≡ₚ S ++ D ++ (p, size) :: order) as Hmove'.
  { rewrite <- app_assoc. apply Permutation_app_head. cbn. apply Permutation_middle. }
  assert (fits budget (S ++ [(p, size)]) →
    ∃ S' D', pack budget order (S.*1 ++ [p]) D.*1 (zsum snd S + size) = (S'.*1, D'.*1) ∧
      S' ++ D' ≡ₚ S ++ D ++ (p, size) :: order ∧ S `prefix_of` S' ∧ fits budget S') as Hserve.
  { intros Hfit. destruct (IH (S ++ [(p, size)]) D Hpos' Hfit) as (S' & D' & He & Hp & Hpre & Hf).
    exists S', D'. rewrite fmap_app, zsum_app in He. cbn in He. rewrite Z.add_0_r in He.
    split_and!; [done|by rewrite Hp|by etrans; [apply prefix_app_r|exact Hpre]|done]. }
  destruct (_ && _) eqn:Hbig.
  { apply andb_true_iff in Hbig as [Hbig%Z.ltb_lt HnilS]. destruct S as [|? S]; [|done].
    apply Hserve. right. by exists (p, size). }
  destruct (Z.leb_spec (zsum snd S + size) budget) as [Hle|Hgt].
  { apply Hserve. left. rewrite zsum_app. cbn. lia. }
  destruct (IH S (D ++ [(p, size)]) Hpos' HS) as (S' & D' & He & Hp & Hpre & Hf).
  exists S', D'. rewrite fmap_app in He. cbn in He. split_and!; [done|by rewrite Hp|done..].
Qed.

(** the round a rotation gives: everything available is served or deferred, the partition at the
    front is served, and what is served fits *)
Definition assembled (budget rot : Z) (available : list (Z * Z)) (r : list Z * list Z) : Prop :=
  r.1 ++ r.2 ≡ₚ available.*1 ∧
  (∀ x, available !! Z.to_nat (rot mod zlen available) = Some x → x.1 ∈ r.1) ∧
  ∃ S, r.1 ≡ₚ S.*1 ∧ S ⊆ available ∧ fits budget S.

Lemma assemble_run available self :
  0 <= rotation self → 1 <= response_budget self → available ≠ [] → (∀ x, x ∈ available → 0 <= x.2) →
  ∃ r, assemble available self =
         (FetchAssembler.mk (response_budget self) ((rotation self + 1) mod zlen available), Ok r) ∧
       assembled (response_budget self) (rotation self) available r.
Proof.
  intros Hrot Hb Hne Hpos. unfold assemble. rewrite bind_get, bind_raise_if.
  destruct available as [|x0 l] eqn:Hav; [done|]. rewrite <- Hav in *. clear Hav x0 l.
  rewrite bind_pure_of, rotated_spec by done. set (k := Z.to_nat _).
  assert (0 < zlen available) as Hn.
  { destruct available; [done|]. rewrite zlen_cons. pose proof (zlen_nonneg available). lia. }
  unfold py_mod at 1. rewrite (proj2 (Z.eqb_neq _ 0)) by lia. cbn zeta. rewrite bind_pure_of, bind_put, run_ret.
  assert (drop k available ++ take k available ≡ₚ available) as Hperm.
  { rewrite Permutation_app_comm. by rewrite take_drop. }
  destruct (pack_spec (response_budget self) (drop k available ++ take k available) [] []) as (S & D & He & Hp & _ & Hf).
  { intros x Hx. apply Hpos. by rewrite <- Hperm. }
  { left. cbn. lia. }
  cbn [fmap list_fmap zsum foldr] in He. rewrite He. eexists. split; [reflexivity|]. cbn [fst snd].
  rewrite app_nil_l in Hp. rewrite app_nil_l, Hperm in Hp. split_and!.
  - cbn [fst snd]. rewrite !py_sorted_Permutation, <- fmap_app. by rewrite Hp.
  - intros x Hx. apply py_sorted_elem_of. fold k in Hx. rewrite (drop_S _ _ _ Hx) in He.
    assert (x ∈ available) as Hin by (by eapply list_elem_of_lookup_2). pose proof (Hpos x Hin) as Hx0.
    destruct x as [p size]. cbn [app pack fst snd] in He, Hx0 |- *.
    set (rest := drop (Datatypes.S k) available ++ take k available) in *.
    destruct (pack_spec (response_budget self) rest [(p, size)] []) as (S2 & D2 & He2 & _ & [S3 HS3] & _).
    { intros y Hy. apply Hpos. rewrite <- Hperm, (drop_S _ _ _ Hx). by right. }
    { destruct (Z.ltb_spec (response_budget self) size); [right; by exists (p, size)|left; cbn; lia]. }
    cbn in He2. rewrite Z.add_0_r in He2. rewrite Z.add_0_l, He2 in He.
    assert (S.*1 = S2.*1) as ->.
    { destruct (_ <? _) eqn:Hbig; cbn in He; [by injection He|]. bool_prop.
      rewrite (proj2 (Z.leb_le _ _)) in He by lia. by injection He. }
    rewrite HS3. left.
  - exists S. cbn [fst]. rewrite py_sorted_Permutation. split_and!; [done| |done].
    intros x Hx. rewrite <- Hp. apply elem_of_app. by left.
Qed.
End assembly.

Section fairness.
Import FetchAssembler.

(** [k] rounds over the same partitions *)
Definition assemble_rounds (available : list (Z * Z)) (k : nat) (self : FetchAssembler.t) : FetchAssembler.t :=
  run (λ (_ : unit) s, state_of (assemble available) s) (replicate k ()) self.

Lemma assemble_rounds_rotation available self k :
  0 <= rotation self → 1 <= response_budget self → available ≠ [] → (∀ x, x ∈ available → 0 <= x.2) →
  response_budget (assemble_rounds available k self) = response_budget self ∧
  0 <= rotation (assemble_rounds available k self) ∧
  rotation (assemble_rounds available k self) mod zlen available = (rotation self + Z.of_nat k) mod zlen available.
Proof.
  intros Hrot Hb Hne Hpos. assert (0 < zlen available) as Hn.
  { destruct available; [done|]. rewrite zlen_cons. pose proof (zlen_nonneg available). lia. }
  revert self Hrot Hb. induction k as [|k IH]; intros self Hrot Hb.
  { cbn. by rewrite Z.add_0_r. }
  change (assemble_rounds available (S k) self) with (assemble_rounds available k (state_of (assemble available) self)).
  destruct (assemble_run available self Hrot Hb Hne Hpos) as (r & Hr & _).
  assert (state_of (assemble available) self = FetchAssembler.mk (response_budget self) ((rotation self + 1) mod zlen available)) as ->.
  { unfold state_of. by rewrite Hr. }
  destruct (IH (FetchAssembler.mk (response_budget self) ((rotation self + 1) mod zlen available))) as (H1 & H2 & H3).
  { cbn. apply Z.mod_pos_bound. lia. }
  { done. }
  split_and!; [exact H1|exact H2|]. rewrite H3. cbn.
  rewrite Zplus_mod_idemp_l. f_equal. lia.
Qed.
End fairness.

(** Also (liveness): the rotation starves no partition.  As long as the same partitions are asked for,
    every round serves or defers each of them, serves the one at the front, and fills the response
    at most to its budget or with one record larger than any response, alone; and within as many
    rounds as there are partitions, every partition is served. *)
Theorem assembler_no_starvation available (self : FetchAssembler.t) :
  0 <= FetchAssembler.rotation self → 1 <= FetchAssembler.response_budget self →
  available ≠ [] → (∀ x, x ∈ available → 0 <= x.2) →
  let round k := value_of (FetchAssembler.assemble available) (assemble_rounds available k self) in
  (∀ k, ∃ r, round k = Ok r ∧
     assembled (FetchAssembler.response_budget self) (FetchAssembler.rotation self + Z.of_nat k) available r) ∧
  (∀ x, x ∈ available → ∃ k r, (k < length available)%nat ∧ round k = Ok r ∧ x.1 ∈ r.1).
Proof.
  intros Hrot Hb Hne Hpos round. assert (0 < zlen available) as Hn.
  { destruct available; [done|]. rewrite zlen_cons. pose proof (zlen_nonneg available). lia. }
  assert (∀ k, ∃ r, round k = Ok r ∧
     assembled (FetchAssembler.response_budget self) (FetchAssembler.rotation self + Z.of_nat k) available r) as Hround.
  { intros k. destruct (assemble_rounds_rotation available self k Hrot Hb Hne Hpos) as (H1 & H2 & H3).
    destruct (assemble_run available (assemble_rounds available k self)) as (r & Hr & Ha); [done|lia|done..|].
    exists r. unfold round, value_of. rewrite Hr. split; [done|]. unfold assembled in *. by rewrite <- H1, <- H3. }
  split; [exact Hround|]. intros x (i & Hi)%list_elem_of_lookup_1.
  set (rot := FetchAssembler.rotation self). set (k := Z.to_nat ((Z.of_nat i - rot) mod zlen available)).
  pose proof (Z.mod_pos_bound (Z.of_nat i - rot) (zlen available) Hn) as Hk.
  destruct (Hround k) as (r & Hr & _ & Hfront & _). exists k, r.
  split; [unfold k, zlen in *; lia|]. split; [exact Hr|]. apply Hfront.
  fold rot. replace (Z.of_nat k) with ((Z.of_nat i - rot) mod zlen available) by (unfold k; lia).
  rewrite Zplus_mod_idemp_r. replace (rot + (Z.of_nat i - rot)) with (Z.of_nat i) by lia.
  apply lookup_lt_Some in Hi as Hlt. rewrite Z.mod_small by (unfold zlen; lia). by rewrite Nat2Z.id.
Qed.

Lemma assembler_no_starvation_witness :
  ∃ k r, (k < 3)%nat ∧
    value_of (FetchAssembler.assemble [(0, 8); (1, 8); (2, 50)]) (assemble_rounds [(0, 8); (1, 8); (2, 50)] k (FetchAssembler.mk 10 0)) = Ok r ∧ 2 ∈ r.1.
Proof.
  refine (proj2 (assembler_no_starvation [(0, 8); (1, 8); (2, 50)] (FetchAssembler.mk 10 0) _ _ _ _) (2, 50) _).
  - vm_compute. discriminate.
  - vm_compute. discriminate.
  - discriminate.
  - apply Forall_forall. repeat constructor; cbn; lia.
  - right. right. left.
Defined.

(** the rotation is a position and not a partition: when the set that has data alternates between
    two partitions and three, the third is never served, however long it goes on *)
Theorem rotation_can_starve k :
  let two := [(0, 10); (1, 10)] in let three := [(0, 10); (1, 10); (2, 10)] in
  let cycle := λ s, state_of (FetchAssembler.assemble three) (state_of (FetchAssembler.assemble two) s) in
  let s := Nat.iter k cycle (FetchAssembler.mk 10 0) in
  value_of (FetchAssembler.assemble two) s = Ok ([0], [1]) ∧
  value_of (FetchAssembler.assemble three) (state_of (FetchAssembler.assemble two) s) = Ok ([1], [0; 2]).
Proof.
  intros two three cycle s.
  assert (s = FetchAssembler.mk 10 0 ∨ s = FetchAssembler.mk 10 2) as [-> | ->]; [|by vm_compute..].
  unfold s. induction k as [|k IH]; [by left|]. cbn [Nat.iter nat_rect]. right.
  destruct IH as [IH|IH]; unfold Nat.iter in IH |- *; rewrite IH; by vm_compute.
Qed.

(** ** Where a consumer starts reading *)

(** clamping to the nearest offset the log holds, shared by the ways to find a start *)
Definition clamp (lo hi x : Z) : Z := Z.max lo (Z.min hi x).

(** Also (bounds): a consumer never starts outside the log.  A seek lands on the nearest offset the log
    holds and says so when it had to move; a reset keeps a committed offset that is still retained,
    moves any other to the end its policy names and refuses when the policy is to refuse, and an
    unstated policy is refused whatever the position; and a look-up by time answers the first record
    at or after it, or the high watermark when there is none. *)
Theorem start_in_bounds lo hi bounds requested policy committed reset target records q :
  seek.make_bounds lo hi = Ok bounds →
  reset = offsetreset.mk_bounds lo hi →
  listoffsets.make_query lo hi true = Ok q →
  seek.seek_to_offset bounds requested = (clamp lo hi requested, negb (clamp lo hi requested =? requested)) ∧
  (offsetreset.resolve_reset policy committed reset =
     match policy, committed with
     | offsetreset.UnknownPolicy _, _ => Err Invalid
     | _, Some c => if lo <=? c then Ok (c, offsetreset.StillValid) else
                    match policy with
                    | offsetreset.Earliest => Ok (lo, offsetreset.FellBehind)
                    | offsetreset.Latest => Ok (hi, offsetreset.FellBehind)
                    | _ => Err Lagging
                    end
     | offsetreset.Earliest, None => Ok (lo, offsetreset.NewConsumer)
     | offsetreset.Latest, None => Ok (hi, offsetreset.NewConsumer)
     | _, None => Err Lagging
     end) ∧
  (∃ offset matched, listoffsets.for_timestamp q target records = Ok (offset, matched) ∧
     (matched = true ↔ ∃ r, r ∈ records ∧ target <= r.2) ∧
     (if matched then ∃ before ts after, records = before ++ (offset, ts) :: after ∧ target <= ts ∧
                       ∀ r, r ∈ before → r.2 < target
      else offset = hi)).
Proof.
  intros Hb -> Hq. unfold seek.make_bounds in Hb. unfold listoffsets.make_query in Hq.
  bool_split_in Hb; [done|]. injection Hb as <-. injection Hq as <-. bool_prop.
  split_and!.
  - unfold seek.seek_to_offset, clamp. cbn. destruct (Z.ltb_spec requested lo); [|destruct (Z.ltb_spec hi requested)].
    + rewrite Z.max_l by lia. by rewrite (proj2 (Z.eqb_neq _ _)) by lia.
    + rewrite Z.min_l, Z.max_r by lia. by rewrite (proj2 (Z.eqb_neq _ _)) by lia.
    + rewrite Z.min_r, Z.max_r by lia. by rewrite Z.eqb_refl.
  - unfold offsetreset.resolve_reset. cbn.
    destruct committed as [c|]; [|by destruct policy]. rewrite (Z.leb_antisym c lo). by destruct policy, (c <? lo).
  - unfold listoffsets.for_timestamp. cbn [negb listoffsets.timestamped].
    assert (match listoffsets.first_at target records with
      | Some offset => ∃ before ts after, records = before ++ (offset, ts) :: after ∧ target <= ts ∧ ∀ r, r ∈ before → r.2 < target
      | None => ∀ r, r ∈ records → r.2 < target end) as Hfirst.
    { induction records as [|[o ts] records IH]; [by intros ? ?%elem_of_nil|]. cbn [listoffsets.first_at].
      destruct (Z.leb_spec target ts) as [Hle|Hlt]; [exists [], ts, records; split_and!; [done..|by intros ? ?%elem_of_nil]|].
      destruct (listoffsets.first_at target records) as [o'|].
      - destruct IH as (before & ts' & after & -> & Hts & Hall). exists ((o, ts) :: before), ts', after.
        split_and!; [done..|]. intros r [->|Hr]%elem_of_cons; [done|by apply Hall].
      - intros r [->|Hr]%elem_of_cons; [done|by apply IH]. }
    destruct (listoffsets.first_at target records) as [o|].
    + exists o, true. split_and!; [done| |exact Hfirst]. split; [|done]. intros _.
      destruct Hfirst as (before & ts & after & -> & Hts & _). exists (o, ts). split; [set_solver|done].
    + exists hi, false. split_and!; [done| |done]. split; [done|]. intros (r & Hr & Hle). specialize (Hfirst r Hr). lia.
Qed.

Lemma start_in_bounds_witness :
  seek.seek_to_offset (seek.mk_bounds 10 20) 25 = (20, true) ∧
  offsetreset.resolve_reset offsetreset.Earliest (Some 4) (offsetreset.mk_bounds 10 20) = Ok (10, offsetreset.FellBehind).
Proof.
  pose proof (start_in_bounds 10 20 (seek.mk_bounds 10 20) 25 offsetreset.Earliest (Some 4) _ 0 []
    (listoffsets.mk_query 10 20 true) eq_refl eq_refl eq_refl) as (H1 & H2 & _).
  split; [exact H1|exact H2].
Defined.

(** a consumer that has read to the end of the log, and asks for the next offset, is told that its
    replica was truncated or is stale *)
Theorem tail_read_out_of_range lo hi policy bounds :
  seek.make_bounds lo hi = Ok bounds →
  outofrange.resolve_out_of_range (outofrange.mk_window lo hi) (seek.seek_to_end bounds) policy = outofrange.RefreshMetadata.
Proof.
  unfold seek.make_bounds. intros H. bool_split_in H; [done|]. injection H as <-. bool_prop.
  unfold outofrange.resolve_out_of_range, outofrange.contains. cbn.
  rewrite (proj2 (Z.leb_le lo hi)), Z.ltb_irrefl by lia. cbn. by rewrite (proj2 (Z.ltb_ge hi lo)) by lia.
Qed.

Lemma tail_read_out_of_range_witness :
  outofrange.resolve_out_of_range (outofrange.mk_window 3 9) 9 "earliest" = outofrange.RefreshMetadata.
Proof. exact (tail_read_out_of_range 3 9 "earliest" (seek.mk_bounds 3 9) eq_refl). Defined.

(** ** The consumer's offsets *)

Section positions.
Inductive position_op := AdvanceTo (to : Z) | CommitTo (to : Z).

Definition position_step (o : position_op) (s : ConsumerPosition.t) : ConsumerPosition.t :=
  match o with
  | AdvanceTo to => state_of (ConsumerPosition.advance_position to) s
  | CommitTo to => state_of (ConsumerPosition.commit to) s
  end.

Definition positions_ok (s : ConsumerPosition.t) : Prop :=
  ConsumerPosition.committed s <= ConsumerPosition.position s <= ConsumerPosition.high_watermark s.

Lemma positions_ok_step o s : positions_ok s →
  positions_ok (position_step o s) ∧
  ConsumerPosition.position s <= ConsumerPosition.position (position_step o s) ∧
  ConsumerPosition.high_watermark (position_step o s) = ConsumerPosition.high_watermark s.
Proof.
  unfold positions_ok. intros H. destruct o as [to|to]; cbn [position_step]; unfold state_of.
  - unfold ConsumerPosition.advance_position. act_simpl. repeat (bool_split; act_simpl); bool_prop; cbn; lia.
  - unfold ConsumerPosition.commit. act_simpl. repeat (bool_split; act_simpl); bool_prop; cbn; lia.
Qed.

Lemma positions_run ops hw position committed s0 :
  ConsumerPosition.make hw position committed = Ok s0 →
  let s := run position_step ops s0 in
  positions_ok s ∧ position <= ConsumerPosition.position s ∧ ConsumerPosition.high_watermark s = hw.
Proof.
  unfold ConsumerPosition.make. intros Hmake. repeat (bool_split_in Hmake; [done|]). injection Hmake as <-. bool_prop.
  apply (run_invariant _ (λ s, positions_ok s ∧ position <= ConsumerPosition.position s ∧ ConsumerPosition.high_watermark s = hw)).
  - intros o x (Hx & Hp & Hw). destruct (positions_ok_step o x Hx) as (? & ? & ?). split_and!; [done|lia|congruence].
  - unfold positions_ok. cbn. lia.
Qed.

Inductive store_op := Commit (key : CommitKey) (offset : Z) (durable : bool).

Definition store_step (o : store_op) (s : OffsetStore.t) : OffsetStore.t :=
  let '(Commit key offset durable) := o in state_of (OffsetStore.commit key offset durable) s.

(** the durable commits of one key, in the order they were asked for *)
Definition durable_commits (key : CommitKey) (ops : list store_op) : list Z :=
  omap (λ o, let '(Commit k offset durable) := o in if durable && bool_decide (k = key) then Some offset else None) ops.

(** the furthest of them *)
Definition furthest (l : list Z) : option Z := match l with [] => None | x :: l => Some (py_max x l) end.

Lemma py_max_snoc x l y : py_max x (l ++ [y]) = Z.max (py_max x l) y.
Proof.
  apply Z.le_antisymm.
  - pose proof (py_max_elem x (l ++ [y])) as [H|H]%elem_of_cons; [pose proof (py_max_ge x l x ltac:(left)); lia|].
    apply elem_of_app in H as [H|H%list_elem_of_singleton]; [|lia].
    pose proof (py_max_ge x l (py_max x (l ++ [y])) ltac:(by right)). lia.
  - apply Z.max_lub.
    + apply py_max_ge. pose proof (py_max_elem x l) as [->|H]%elem_of_cons; [left|]. right. apply elem_of_app. by left.
    + apply py_max_ge. right. apply elem_of_app. right. left.
Qed.

Lemma furthest_snoc l y : furthest (l ++ [y]) = Some (match furthest l with Some m => Z.max m y | None => y end).
Proof. destruct l as [|x l]; [done|]. cbn. by rewrite py_max_snoc. Qed.

Lemma store_run_get ops key :
  d_get (OffsetStore.commits (run store_step ops OffsetStore.make)) key = furthest (durable_commits key ops).
Proof.
  induction ops as [|[k offset durable] ops IH] using rev_ind; [done|].
  rewrite run_app. cbn [run foldl]. unfold durable_commits. rewrite omap_app. fold (durable_commits key ops).
  set (s := run store_step ops OffsetStore.make) in *. cbn [store_step omap list_omap].
  unfold state_of, OffsetStore.commit. act_simpl. destruct durable; cbn [negb andb]; act_simpl; [|by rewrite app_nil_r].
  destruct (decide (k = key)) as [->|Hne].
  - rewrite bool_decide_eq_true_2 by done. rewrite furthest_snoc, <- IH.
    destruct (d_get (OffsetStore.commits s) key) as [held|] eqn:Hh; act_simpl.
    + destruct (Z.ltb_spec offset held); act_simpl; [rewrite Hh; f_equal; lia|].
      rewrite d_get_set_eq. f_equal. lia.
    + by rewrite d_get_set_eq.
  - rewrite bool_decide_eq_false_2 by done. rewrite app_nil_r, <- IH.
    bool_split; act_simpl; [done|]. by rewrite d_get_set_ne by congruence.
Qed.
End positions.

(** Also (safety): progress is neither promised before it is made nor lost.  A position never passes
    the high watermark nor moves back, and never falls below what was committed; the store answers,
    for every group and partition, the furthest offset whose commit was durable, however the commits
    were ordered or repeated, and nothing when none was; and it keeps at most one entry for each
    commit it wrote. *)
Theorem committed_progress_kept hw position committed s0 pos_ops ops key :
  ConsumerPosition.make hw position committed = Ok s0 →
  let s := run position_step pos_ops s0 in
  let st := run store_step ops OffsetStore.make in
  (ConsumerPosition.committed s <= ConsumerPosition.position s <= hw ∧ position <= ConsumerPosition.position s ∧
   0 <= ConsumerPosition.replay_window s ∧ 0 <= ConsumerPosition.lag s) ∧
  OffsetStore.fetch st key = match furthest (durable_commits key ops) with Some o => Ok o | None => Err Missing end ∧
  OffsetStore.compacted_size st <= OffsetStore.commit_records_written st.
Proof.
  intros Hmake s st. destruct (positions_run pos_ops hw position committed s0 Hmake) as (Hok & Hle & Hhw).
  fold s in Hok, Hle, Hhw. unfold positions_ok in Hok.
  split; [unfold ConsumerPosition.replay_window, ConsumerPosition.lag; lia|]. split.
  - unfold OffsetStore.fetch, st. by rewrite store_run_get.
  - unfold st. apply (run_invariant _ (λ st, OffsetStore.compacted_size st <= OffsetStore.commit_records_written st)); [|done].
    intros [k o durable] x Hx. cbn [store_step]. unfold state_of, OffsetStore.commit. act_simpl.
    repeat (bool_split; act_simpl); [done..|]. unfold OffsetStore.compacted_size in *. cbn.
    assert (zlen (d_set (OffsetStore.commits x) k o) <= zlen (OffsetStore.commits x) + 1); [|lia].
    clear. induction (OffsetStore.commits x) as [|[k' v] d IH]; [done|]. cbn. bool_split; rewrite !zlen_cons; lia.
Qed.

Lemma committed_progress_kept_witness :
  OffsetStore.fetch (run store_step [Commit (mk_key "g" "t" 0) 5 true; Commit (mk_key "g" "t" 0) 3 true; Commit (mk_key "g" "t" 0) 9 false] OffsetStore.make)
    (mk_key "g" "t" 0) = Ok 5.
Proof.
  exact (proj1 (proj2 (committed_progress_kept 10 0 0 (ConsumerPosition.mk 10 0 0) []
    [Commit (mk_key "g" "t" 0) 5 true; Commit (mk_key "g" "t" 0) 3 true; Commit (mk_key "g" "t" 0) 9 false] (mk_key "g" "t" 0) eq_refl))).
Defined.

(** ** Reading ahead *)

Section reading_ahead.
Inductive prefetch_op := Fetched (batches : nat) | Processed (batches : nat).

Definition prefetch_step (o : prefetch_op) (s : Prefetcher.t) : Prefetcher.t :=
  match o with
  | Fetched n => state_of (Prefetcher.fetched (Z.of_nat n)) s
  | Processed n => state_of (Prefetcher.processed (Z.of_nat n)) s
  end.

Definition band (hi lo : Z) (s : Prefetcher.t) : Prop :=
  Prefetcher.high_mark s = hi ∧ Prefetcher.low_mark s = lo ∧ 0 <= Prefetcher.buffered s ∧
  if Prefetcher.paused s then lo < Prefetcher.buffered s else Prefetcher.buffered s < hi.

Lemma band_step o hi lo s : 0 <= lo < hi → band hi lo s → band hi lo (prefetch_step o s).
Proof.
  unfold band. intros Hm (Hh & Hl & Hb & Hp). destruct o as [n|n]; cbn [prefetch_step];
    unfold state_of, Prefetcher.fetched, Prefetcher.processed; act_simpl; destruct (Prefetcher.paused s) eqn:Hs;
    act_simpl; repeat (bool_split; act_simpl); bool_prop; rewrite ?Hs; split_and!; cbn; try done; lia.
Qed.
End reading_ahead.

(** Also (invariant): reading ahead is bounded, with a band between the marks.  However fetches and
    processing interleave: while fetching goes on the buffer is below the high mark, so it never holds
    more than the high mark and one fetch; once paused it stays paused until the buffer has drained
    to the low mark, so it never resumes just below the high one. *)
Theorem prefetch_hysteresis hi lo s0 ops o :
  Prefetcher.make hi lo = Ok s0 →
  let s := run prefetch_step ops s0 in
  let s' := prefetch_step o s in
  band hi lo s ∧
  (Prefetcher.paused s = false → Prefetcher.paused s' = true → hi <= Prefetcher.buffered s' ∧
     match o with Fetched n => Prefetcher.buffered s' < hi + Z.of_nat n | _ => False end) ∧
  (Prefetcher.paused s = true → Prefetcher.paused s' = false → Prefetcher.buffered s' <= lo).
Proof.
  intros Hmake s s'. unfold Prefetcher.make in Hmake. repeat (bool_split_in Hmake; [done|]). injection Hmake as <-. bool_prop.
  assert (band hi lo s) as Hband.
  { apply (run_invariant _ (band hi lo)); [intros; apply band_step; [lia|done]|]. unfold band. cbn. lia. }
  split; [done|]. destruct Hband as (Hh & Hl & Hb & Hp). unfold s'. clearbody s.
  destruct o as [n|n]; cbn [prefetch_step]; unfold state_of, Prefetcher.fetched, Prefetcher.processed; act_simpl;
    destruct (Prefetcher.paused s) eqn:Hs; act_simpl; repeat (bool_split; act_simpl); bool_prop; split; try done; rewrite ?Hs; try done; lia.
Qed.

Lemma prefetch_hysteresis_witness :
  band 4 1 (run prefetch_step [Fetched 3; Fetched 2; Processed 2] (Prefetcher.mk 4 1 0 false)).
Proof. exact (proj1 (prefetch_hysteresis 4 1 (Prefetcher.mk 4 1 0 false) [Fetched 3; Fetched 2; Processed 2] (Fetched 0) eq_refl)). Defined.

(** ** Pausing, retrying a commit and closing *)

(** pausing takes a partition out of the fetch without giving it up, and only for an assigned one;
    its lag still counts *)
Theorem pause_holds_assignment p self :
  PartitionFlow.assigned (state_of (PartitionFlow.pause p) self) = PartitionFlow.assigned self ∧
  (is_ok (value_of (PartitionFlow.pause p) self) = bool_decide (p ∈ PartitionFlow.assigned self)) ∧
  (p ∈ PartitionFlow.assigned self →
     p ∉ PartitionFlow.fetchable (state_of (PartitionFlow.pause p) self) ∧
     p ∈ PartitionFlow.fetchable (state_of (PartitionFlow.resume p) (state_of (PartitionFlow.pause p) self)) ∧
     ∀ lags lag, (p, lag) ∈ lags → 0 < lag → (p, lag) ∈ PartitionFlow.lag_still_counts (state_of (PartitionFlow.pause p) self) lags).
Proof.
  unfold state_of, value_of, PartitionFlow.pause, PartitionFlow.resume. act_simpl.
  destruct (bool_decide (p ∈ PartitionFlow.assigned self)) eqn:Hp; cbn [negb]; act_simpl.
  - split; [done|]. split; [done|]. intros Hin. rewrite Hp. act_simpl. unfold PartitionFlow.fetchable. cbn.
    split; [set_solver|]. split; [set_solver|]. intros lags lag Hl Hpos. unfold PartitionFlow.lag_still_counts.
    apply list_elem_of_In, List.filter_In. split; [by apply list_elem_of_In|]. cbn.
    unfold PartitionFlow.is_paused. cbn. rewrite bool_decide_eq_true_2 by set_solver. by apply Z.ltb_lt.
  - split; [done|]. split; [done|]. bool_prop. done.
Qed.

(** a commit that keeps failing is not retried for ever: a transient failure is retried exactly
    while attempts are left, a moved coordinator is never retried, a dead generation never; each
    failure is counted once *)
Theorem commit_retry_bounded cause attempt self :
  let '(self', r) := CommitRetrier.on_failure cause attempt self in
  (r = Ok CommitRetrier.RetryAgain ↔ cause = TRANSIENT ∧ attempt < CommitRetrier.max_retries self) ∧
  CommitRetrier.transient_retries self' + CommitRetrier.redirects self' + CommitRetrier.abandoned self' =
  CommitRetrier.transient_retries self + CommitRetrier.redirects self + CommitRetrier.abandoned self + (if is_ok r then 1 else 0) ∧
  (is_ok r = false ↔ ∃ s, cause = Unknown s).
Proof.
  unfold CommitRetrier.on_failure. destruct cause as [| | |c]; act_simpl; try (bool_split; act_simpl; bool_prop).
  2: { split; [done|]. split; [lia|]. split; [done|by intros [? ?]]. }
  4: { split; [split; [done|by intros [? ?]]|]. split; [lia|]. split; [by eexists|done]. }
  all: split; [split; [done|intros [? ?]; done || lia]|]; (split; [lia|]); (split; [done|by intros [? ?]]).
Qed.

(** after a close nothing more is read, the final offsets are committed before the group is left,
    and a second close is refused *)
Theorem consumer_close_commits self :
  ConsumerClose.left_group self = false →
  let self' := state_of ConsumerClose.close self in
  ConsumerClose.committed self' = ConsumerClose.position self ∧ ConsumerClose.left_group self' = true ∧
  value_of ConsumerClose.poll self' = Err Invalid ∧ ConsumerClose.close self' = (self', Err Invalid).
Proof. intros H. unfold state_of, value_of, ConsumerClose.close, ConsumerClose.poll. act_simpl. rewrite H. by act_simpl. Qed.

Lemma consumer_close_commits_witness :
  ConsumerClose.committed (state_of ConsumerClose.close (ConsumerClose.mk 7 3 false false)) = 7.
Proof. exact (proj1 (consumer_close_commits (ConsumerClose.mk 7 3 false false) eq_refl)). Defined.

(** the cap of one partition gives it what it has up to the cap, something whenever it has anything,
    and a record larger than the cap whole *)
Theorem partition_cap_progress cap self available largest :
  PerPartitionCap.make cap = Ok self → 1 <= largest <= available →
  let got := PerPartitionCap.allocate self available largest in
  largest <= got ∨ (got = cap ∧ largest <= cap).
Proof.
  unfold PerPartitionCap.make. intros H Hl. bool_split_in H; [done|]. injection H as <-. bool_prop.
  unfold PerPartitionCap.allocate. cbn. rewrite (proj2 (Z.eqb_neq _ _)) by lia. bool_split; bool_prop; lia.
Qed.

Lemma partition_cap_progress_witness : let got := PerPartitionCap.allocate (PerPartitionCap.mk 10) 40 25 in 25 <= got ∨ (got = 10 ∧ 25 <= 10).
Proof. exact (partition_cap_progress 10 (PerPartitionCap.mk 10) 40 25 eq_refl ltac:(split; discriminate)). Defined.
