(* ===== verification/Producer.v ===== *)
(** * The producer's side: records on their way to a log

    A record is checked ([relay/sizelimits.py], [relay/headers.py], [relay/interceptors.py],
    [relay/timestampskew.py]), given a partition ([relay/keyhandling.py], [relay/partitioner.py],
    [relay/orderingscope.py]) and waits for room ([relay/producerbuffer.py], [relay/maxblock.py]);
    batches are built, split and checked ([relay/batching.py], [relay/batchsplit.py],
    [relay/batchheader.py], [relay/batchvalidate.py], [relay/producevalidate.py]); a send is retried
    up to a deadline ([relay/deliverytimeout.py], [relay/produceerrors.py], [relay/retrytopic.py],
    [relay/deserialize.py]) under declared guarantees ([relay/inflight.py],
    [relay/inflightorder.py], [relay/produceracks.py], [relay/deliverysemantics.py]); and
    [relay/producerclose.py] drains what is left.  [relay/sequencer.py] numbers events across
    producers, and [relay/readverify.py] and [relay/downconvert.py] serve a stored batch. *)

From Stdlib Require Import Strings.Byte Strings.Ascii.
From S2P Require Import Prelude PyDict PyBytes PyFloat Groups Codec.

Module sequencer.
Module Sequencer.
(** [relay/sequencer.py] class Sequencer *)
Record t := mk { next_seq : Z; highest_issued : Z }.

Definition make : t := mk 0 (-1).

(** [relay/sequencer.py] Sequencer.issue *)
Definition issue : act t Z :=
  self ← get;
  put (mk (next_seq self + 1) (next_seq self));;
  mret (next_seq self).

(** [relay/sequencer.py] Sequencer.issue_batch *)
Definition issue_batch (size : Z) : act t (Z * Z) :=
  raise_if (size <? 1) Invalid;;
  self ← get;
  put (mk (next_seq self + size) (next_seq self + size - 1));;
  mret (next_seq self, next_seq self + size - 1).

(** [relay/sequencer.py] Sequencer.failover_resume *)
Definition failover_resume (floor : Z) : act t unit :=
  self ← get;
  raise_if (floor <=? highest_issued self) Invalid;;
  put (mk floor (highest_issued self)).

(** [relay/sequencer.py] Sequencer.throughput_note *)
Definition throughput_note (per_second : Z) : string :=
  "one sequencer stamps ~" +:+ zs per_second
  +:+ "/s; a system approaching that has the sequencer, not the brokers, as its bottleneck, the cost of a total order".
End Sequencer.
End sequencer.
Import sequencer.

Module deliverytimeout.
Module DeliveryAttempt.
(** what became of a delivery *)
Inductive outcome_t := Pending | Delivered | Failed.

(** [relay/deliverytimeout.py] class DeliveryAttempt *)
Record t := mk {
  delivery_timeout : Z;
  base_backoff : Z;
  started_at : Z;
  attempts : Z;
  resolved : bool;
  outcome : outcome_t;
  backoffs : list Z;
}.

(** [relay/deliverytimeout.py] DeliveryAttempt.__post_init__ *)
Definition make (delivery_timeout base_backoff started_at : Z) : result t :=
  if (delivery_timeout <? 1) || (base_backoff <? 1) then Err Invalid
  else Ok (mk delivery_timeout base_backoff started_at 0 false Pending []).

(** [relay/deliverytimeout.py] DeliveryAttempt._next_backoff *)
Definition _next_backoff (self : t) : Z := base_backoff self * 2 ^ (attempts self - 1).

(** [relay/deliverytimeout.py] DeliveryAttempt.try_send *)
Definition try_send (now : Z) (succeeded : bool) : act t unit :=
  self ← get;
  raise_if (resolved self) Invalid;;
  modify (λ self, mk (delivery_timeout self) (base_backoff self) (started_at self) (attempts self + 1) (resolved self) (outcome self) (backoffs self));;
  self ← get;
  if succeeded : bool then
    put (mk (delivery_timeout self) (base_backoff self) (started_at self) (attempts self) true Delivered (backoffs self))
  else
    let elapsed := now - started_at self in
    let backoff := _next_backoff self in
    if delivery_timeout self <=? elapsed + backoff then
      put (mk (delivery_timeout self) (base_backoff self) (started_at self) (attempts self) true Failed (backoffs self))
    else
      put (mk (delivery_timeout self) (base_backoff self) (started_at self) (attempts self) (resolved self) (outcome self) (backoffs self ++ [backoff])).

(** [relay/deliverytimeout.py] DeliveryAttempt.is_final *)
Definition is_final (self : t) : bool := resolved self.
End DeliveryAttempt.
End deliverytimeout.
Import deliverytimeout.

Module producerbuffer.
(** [relay/producerbuffer.py:33-35] POLICIES *)
Inductive policy := BLOCK | FAIL.

Module ProducerBuffer.
(** [relay/producerbuffer.py] class ProducerBuffer *)
Record t := mk {
  capacity_bytes : Z;
  on_full : policy;
  block_timeout : Z;
  used_bytes : Z;
  ticks_blocked : Z;
  failed_sends : Z;
}.

(** [relay/producerbuffer.py] ProducerBuffer.__post_init__: an unknown policy is [None] *)
Definition make (capacity_bytes : Z) (on_full : option policy) (block_timeout : Z) : result t :=
  match on_full with
  | None => Err Invalid
  | Some p => if capacity_bytes <? 1 then Err Invalid else Ok (mk capacity_bytes p block_timeout 0 0 0)
  end.

(** [relay/producerbuffer.py] ProducerBuffer.free *)
Definition free (bytes_sent : Z) : act t unit :=
  modify (λ self, mk (capacity_bytes self) (on_full self) (block_timeout self) (Z.max 0 (used_bytes self - bytes_sent)) (ticks_blocked self) (failed_sends self)).

(** the answers of [append] *)
Inductive answer := Buffered | SendFailed | BlockedTooLong | BlockedThenBuffered.

(** [relay/producerbuffer.py] ProducerBuffer.append *)
Definition append (size free_in_ticks : Z) : act t answer :=
  self ← get;
  if used_bytes self + size <=? capacity_bytes self then
    put (mk (capacity_bytes self) (on_full self) (block_timeout self) (used_bytes self + size) (ticks_blocked self) (failed_sends self));;
    mret Buffered
  else
    match on_full self with
    | FAIL =>
        put (mk (capacity_bytes self) (on_full self) (block_timeout self) (used_bytes self) (ticks_blocked self) (failed_sends self + 1));;
        mret SendFailed
    | BLOCK =>
        if block_timeout self <? free_in_ticks then
          put (mk (capacity_bytes self) (on_full self) (block_timeout self) (used_bytes self) (ticks_blocked self + block_timeout self) (failed_sends self + 1));;
          mret BlockedTooLong
        else
          put (mk (capacity_bytes self) (on_full self) (block_timeout self) (used_bytes self + size) (ticks_blocked self + free_in_ticks) (failed_sends self));;
          mret BlockedThenBuffered
    end.

(** [relay/producerbuffer.py] ProducerBuffer.report *)
Definition report (self : t) : string :=
  zs (used_bytes self) +:+ " of " +:+ zs (capacity_bytes self) +:+ " bytes used, " +:+ zs (ticks_blocked self)
  +:+ " tick(s) blocked, " +:+ zs (failed_sends self) +:+ " failed; time blocked is a capacity signal the buffer sees first".
End ProducerBuffer.
End producerbuffer.
Import producerbuffer.

Module maxblock.
Module BlockBudget.
(** [relay/maxblock.py] class BlockBudget *)
Record t := mk { budget : Z; spent_on_metadata : Z; spent_on_buffer : Z }.

(** [relay/maxblock.py] BlockBudget.__post_init__ *)
Definition make (budget : Z) : result t := if budget <=? 0 then Err Invalid else Ok (mk budget 0 0).

(** [relay/maxblock.py] BlockBudget.wait_metadata *)
Definition wait_metadata (ticks : Z) : act t unit := modify (λ self, mk (budget self) (spent_on_metadata self + ticks) (spent_on_buffer self)).
(** [relay/maxblock.py] BlockBudget.wait_buffer *)
Definition wait_buffer (ticks : Z) : act t unit := modify (λ self, mk (budget self) (spent_on_metadata self) (spent_on_buffer self + ticks)).
(** [relay/maxblock.py] BlockBudget.spent *)
Definition spent (self : t) : Z := spent_on_metadata self + spent_on_buffer self.
(** [relay/maxblock.py] BlockBudget.remaining *)
Definition remaining (self : t) : Z := Z.max 0 (budget self - spent self).
(** [relay/maxblock.py] BlockBudget.can_proceed *)
Definition can_proceed (self : t) : bool := spent self <=? budget self.

Inductive verdict := Proceeds (left_ : Z) | FailsOnMetadata | FailsOnBuffer.

(** [relay/maxblock.py] BlockBudget.resolve *)
Definition resolve (self : t) : verdict :=
  if can_proceed self then Proceeds (remaining self)
  else if spent_on_buffer self <=? spent_on_metadata self then FailsOnMetadata else FailsOnBuffer.
End BlockBudget.
End maxblock.
Import maxblock.

Module batchsplit.
(** [relay/batchsplit.py] _split *)
Fixpoint _split (fuel : nat) (records : list Z) (max_size : Z) : result (list (list Z)) :=
  match fuel with
  | O => Err OutOfFuel
  | S fuel =>
      match records with
      | [] => Ok []
      | _ =>
          if zsum id records <=? max_size then Ok [records]
          else if (length records =? 1)%nat then Ok [records]
          else
            let mid := (length records / 2)%nat in
            l ← _split fuel (take mid records) max_size;
            r ← _split fuel (drop mid records) max_size;
            Ok (l ++ r)
      end
  end.

(** [relay/batchsplit.py] split_batch *)
Definition split_batch (record_sizes : list Z) (max_size : Z) : result (list (list Z)) :=
  if max_size <? 1 then Err Invalid
  else match List.filter (λ s, max_size <? s) record_sizes with
       | [] => _split (S (length record_sizes)) record_sizes max_size
       | _ => Err Invalid
       end.

(** [relay/batchsplit.py] split_report *)
Definition split_report (record_sizes : list Z) (max_size : Z) : result string :=
  batches ← split_batch record_sizes max_size;
  Ok (zs (zlen record_sizes) +:+ " record(s) split into " +:+ zs (zlen batches) +:+ " batch(es) under " +:+ zs max_size
      +:+ "; a large fan-out multiplies the request count and argues for a smaller batch size or better compression, not repeated splitting at send time").
End batchsplit.
Import batchsplit.

Module batching.
(** [relay/batching.py] PER_RECORD_OVERHEAD *)
Definition PER_RECORD_OVERHEAD : Z := 30.
(** [relay/batching.py] BATCH_OVERHEAD *)
Definition BATCH_OVERHEAD : Z := 60.

Module Batch.
(** [relay/batching.py] class Batch *)
Record t := mk { raw_record_bytes : list Z }.

(** [relay/batching.py] Batch.__post_init__ *)
Definition make (raw_record_bytes : list Z) : result t :=
  match raw_record_bytes with [] => Err Invalid | _ => Ok (mk raw_record_bytes) end.

(** [relay/batching.py] Batch.unbatched_bytes *)
Definition unbatched_bytes (self : t) : Z := zsum (λ size, size + PER_RECORD_OVERHEAD) (raw_record_bytes self).
(** [relay/batching.py] Batch.batched_bytes *)
Definition batched_bytes (self : t) : Z := zsum id (raw_record_bytes self) + BATCH_OVERHEAD.
(** [relay/batching.py] Batch.overhead_saved *)
Definition overhead_saved (self : t) : Z := unbatched_bytes self - batched_bytes self.
End Batch.

Module CompressionLedger.
(** [relay/batching.py] class CompressionLedger *)
Record t := mk {
  compressor : string;
  batches_stored : Z;
  stored_compressed : Z;
  stored_raw_negative : Z;
  total_raw : Z;
  total_stored : Z;
}.

Definition make (compressor : string) : t := mk compressor 0 0 0 0 0.

(** [relay/batching.py] CompressionLedger.store: whether the compressed form was kept *)
Definition store (batch : Batch.t) (compressed_size : Z) : act t bool :=
  raise_if (compressed_size <? 0) Invalid;;
  let raw := Batch.batched_bytes batch in
  self ← get;
  if compressed_size <? raw then
    put (mk (compressor self) (batches_stored self + 1) (stored_compressed self + 1) (stored_raw_negative self)
            (total_raw self + raw) (total_stored self + compressed_size));;
    mret true
  else
    put (mk (compressor self) (batches_stored self + 1) (stored_compressed self) (stored_raw_negative self + 1)
            (total_raw self + raw) (total_stored self + raw));;
    mret false.

(** [relay/batching.py] CompressionLedger.realized_ratio *)
Definition realized_ratio (self : t) : result string :=
  if total_raw self =? 0 then Err Invalid
  else
    ratio ← z_truediv (total_raw self) (total_stored self);
    Ok (zs (batches_stored self) +:+ " batch(es): realized " +:+ fmt_fixed 2 ratio +:+ "x, " +:+ zs (stored_raw_negative self)
        +:+ " stored raw because compression grew them; the brochure and the payload disagree on every binary topic").
End CompressionLedger.
End batching.
Import batching.

Module batchheader.
Module BatchHeader.
(** [relay/batchheader.py] class BatchHeader *)
Record t := mk { base_offset : Z; last_offset_delta : Z; base_timestamp : Z; record_count : Z }.

(** [relay/batchheader.py] BatchHeader.__post_init__ *)
Definition make (base_offset last_offset_delta base_timestamp record_count : Z) : result t :=
  if last_offset_delta <? 0 then Err Invalid
  else if record_count <? 1 then Err Invalid
  else Ok (mk base_offset last_offset_delta base_timestamp record_count).

(** [relay/batchheader.py] BatchHeader.last_offset *)
Definition last_offset (self : t) : Z := base_offset self + last_offset_delta self.
(** [relay/batchheader.py] BatchHeader.next_base_offset *)
Definition next_base_offset (self : t) : Z := last_offset self + 1.
(** [relay/batchheader.py] BatchHeader.offset_of *)
Definition offset_of (self : t) (delta : Z) : result Z :=
  if negb ((0 <=? delta) && (delta <=? last_offset_delta self)) then Err Invalid else Ok (base_offset self + delta).
(** [relay/batchheader.py] BatchHeader.follows *)
Definition follows (self previous : t) : bool := base_offset self =? next_base_offset previous.
(** [relay/batchheader.py] BatchHeader.coverage: the gaps in the message *)
Definition coverage (self : t) : Z := last_offset_delta self + 1 - record_count self.
End BatchHeader.
End batchheader.
Import batchheader.

Module batchvalidate.
(** [relay/batchvalidate.py] SUPPORTED_MAGIC *)
Definition SUPPORTED_MAGIC : Z := 2.

(** [relay/batchvalidate.py] class Batch *)
Record Batch := mk_batch { magic : Z; crc : Z; computed_crc : Z; base_offset : Z; last_offset_delta : Z; record_count : Z }.

(** [relay/batchvalidate.py] validate_batch *)
Definition validate_batch (batch : Batch) : result unit :=
  if negb (magic batch =? SUPPORTED_MAGIC) then Err Invalid
  else if negb (crc batch =? computed_crc batch) then Err Invalid
  else if record_count batch <? 1 then Err Invalid
  else if negb (last_offset_delta batch =? record_count batch - 1) then Err Invalid
  else Ok ().
End batchvalidate.

Module producevalidate.
(** [relay/producevalidate.py] KNOWN_CODECS *)
Definition KNOWN_CODECS : list string := ["none"; "gzip"; "snappy"; "zstd"; "lz4"]%string.

(** [relay/producevalidate.py] class ProduceBatch *)
Record ProduceBatch := mk_batch { topic : string; codec : string; declared_count : Z; records : list bytes }.

Module ProduceValidator.
(** [relay/producevalidate.py] class ProduceValidator *)
Record t := mk { known_topics : gset string; authorized : gset (string * string) }.

(** [relay/producevalidate.py] ProduceValidator.validate: the number of records accepted *)
Definition validate (self : t) (principal : string) (batch : ProduceBatch) : result Z :=
  if negb (bool_decide (topic batch ∈ known_topics self)) then Err Invalid
  else if negb (bool_decide ((principal, topic batch) ∈ authorized self)) then Err Invalid
  else match records batch with
       | [] => Err Invalid
       | _ =>
           if negb (bool_decide (codec batch ∈ KNOWN_CODECS)) then Err Invalid
           else if negb (declared_count batch =? zlen (records batch)) then Err Invalid
           else Ok (zlen (records batch))
       end.
End ProduceValidator.
End producevalidate.
Import producevalidate.

Module sizelimits.
(** [relay/sizelimits.py] class SizeLimits *)
Record SizeLimits := mk_limits { producer_batch_max : Z; request_max : Z; broker_message_max : Z; topic_override : option Z }.

(** [relay/sizelimits.py] SizeLimits.effective_message_max *)
Definition effective_message_max (self : SizeLimits) : Z := default (broker_message_max self) (topic_override self).

(** the gate named in the message *)
Inductive gate := Fits | ProducerBatch | Request | TopicOverride | BrokerDefault.

(** [relay/sizelimits.py] validate_record: raised exactly when the gate is not [Fits] *)
Definition validate_record (limits : SizeLimits) (record_size : Z) : gate :=
  if producer_batch_max limits <? record_size then ProducerBatch
  else if request_max limits <? record_size then Request
  else if effective_message_max limits <? record_size then
    match topic_override limits with Some _ => TopicOverride | None => BrokerDefault end
  else Fits.
End sizelimits.
Import sizelimits.

Module headers.
(** [relay/headers.py] RESERVED_PREFIX *)
Definition RESERVED_PREFIX : string := "__relay.".
(** [relay/headers.py] MAX_HEADER_BYTES *)
Definition MAX_HEADER_BYTES : Z := 4096.

(** [name.startswith(prefix)] *)
Definition startswith (prefix name : string) : bool := String.prefix prefix name.

Module Headers.
(** [relay/headers.py] class Headers *)
Record t := mk { entries : list (string * bytes) }.

Definition make : t := mk [].

(** [relay/headers.py] Headers.total_bytes *)
Definition total_bytes (self : t) : Z := zsum (λ p : string * bytes, slen p.1 + zlen p.2) (entries self).

(** [relay/headers.py] Headers.add *)
Definition add (name : string) (value : bytes) : act t unit :=
  raise_if (blank name) Invalid;;
  raise_if (startswith RESERVED_PREFIX name) Invalid;;
  self ← get;
  raise_if (MAX_HEADER_BYTES <? total_bytes self + slen name + zlen value) Invalid;;
  put (mk (entries self ++ [(name, value)])).

(** [relay/headers.py] Headers.add_reserved *)
Definition add_reserved (name : string) (value : bytes) : act t unit :=
  raise_if (negb (startswith RESERVED_PREFIX name)) Invalid;;
  modify (λ self, mk (entries self ++ [(name, value)])).

(** [relay/headers.py] Headers.get_all *)
Definition get_all (self : t) (name : string) : list bytes := (filter (λ p, p.1 = name) (entries self)).*2.

(** [relay/headers.py] Headers.ordered_names *)
Definition ordered_names (self : t) : list string := (entries self).*1.
End Headers.
End headers.
Import headers.

Module interceptors.
(** [relay/interceptors.py:30-33] KINDS *)
Inductive kind_t := TRANSFORM | FILTER | OBSERVE.

(** [relay/interceptors.py] class Interceptor: the function may raise *)
Record Interceptor := mk_interceptor { name : string; kind : kind_t; fn : bytes → result (option bytes) }.
(** [relay/interceptors.py] Interceptor.__post_init__: a kind outside [KINDS] is [None] *)
Definition make_interceptor (name : string) (kind : option kind_t) (fn : bytes → result (option bytes)) : result Interceptor :=
  match kind with None => Err Invalid | Some kind => Ok (mk_interceptor name kind fn) end.

Module InterceptorChain.
(** [relay/interceptors.py] class InterceptorChain *)
Record t := mk { interceptors : list Interceptor; dropped : Z }.

Definition make : t := mk [] 0.

(** [relay/interceptors.py] InterceptorChain.add *)
Definition add (interceptor : Interceptor) : act t unit := modify (λ self, mk (interceptors self ++ [interceptor]) (dropped self)).

(** [relay/interceptors.py:57-88] InterceptorChain.run *)
Fixpoint run_from (chain : list Interceptor) (current : bytes) : act t (option bytes) :=
  match chain with
  | [] => mret (Some current)
  | interceptor :: chain =>
      match fn interceptor current with
      | Err _ => raise Invalid
      | Ok out =>
          match kind interceptor with
          | OBSERVE =>
              raise_if (match out with Some r => negb (bool_decide (r = current)) | None => false end) Invalid;;
              run_from chain current
          | TRANSFORM => match out with None => raise Invalid | Some r => run_from chain r end
          | FILTER =>
              match out with
              | None => modify (λ self, mk (interceptors self) (dropped self + 1));; mret None
              | Some r => run_from chain r
              end
          end
      end
  end.

(** [relay/interceptors.py] InterceptorChain.run *)
Definition run (record : bytes) : act t (option bytes) := self ← get; run_from (interceptors self) record.

(** [relay/interceptors.py] InterceptorChain.drop_report *)
Definition drop_report (self : t) : string :=
  zs (dropped self) +:+ " record(s) filtered out; maybe-once as a number on a dashboard, not a mystery in production".
End InterceptorChain.
End interceptors.
Import interceptors.

Module keyhandling.
(** [relay/keyhandling.py] partition_for_key *)
Definition partition_for_key (key : option bytes) (partitions round_robin_next : Z) : result Z :=
  if partitions <? 1 then Err Invalid
  else match key with
       | None => py_mod round_robin_next partitions
       | Some key => py_mod (int_of_hex 0 (String.substring 0 8 (Sha256.hexdigest key))) partitions
       end.

(** [relay/keyhandling.py] validate_for_compacted: whether it is a tombstone *)
Definition validate_for_compacted (key value : option bytes) : result bool :=
  match key with
  | None => Err Invalid
  | Some _ => Ok match value with None => true | Some _ => false end
  end.

(** [relay/keyhandling.py] keys_land_together *)
Definition keys_land_together (key_a key_b : option bytes) (partitions : Z) : result bool :=
  match key_a, key_b with
  | Some a, Some b =>
      slot_a ← partition_for_key (Some a) partitions 0;
      slot_b ← partition_for_key (Some b) partitions 0;
      Ok (slot_a =? slot_b)
  | _, _ => Ok false
  end.
End keyhandling.
Import keyhandling.

Module partitioner.
Module RoundRobinPartitioner.
(** [relay/partitioner.py] class RoundRobinPartitioner *)
Record t := mk { partitions : Z; next_partition : Z }.

(** [relay/partitioner.py] RoundRobinPartitioner.__post_init__ *)
Definition make (partitions : Z) : result t := if partitions <? 1 then Err Invalid else Ok (mk partitions 0).

(** [relay/partitioner.py] RoundRobinPartitioner.assign *)
Definition assign : act t Z :=
  self ← get;
  let chosen := next_partition self in
  next ← pure_of (py_mod (chosen + 1) (partitions self));
  put (mk (partitions self) next);;
  mret chosen.
End RoundRobinPartitioner.

Module StickyPartitioner.
(** [relay/partitioner.py] class StickyPartitioner *)
Record t := mk { partitions : Z; batch_size : Z; current : Z; in_batch : Z; batches_produced : Z }.

(** [relay/partitioner.py] StickyPartitioner.__post_init__ *)
Definition make (partitions batch_size : Z) : result t :=
  if (partitions <? 1) || (batch_size <? 1) then Err Invalid else Ok (mk partitions batch_size 0 0 1).

(** [relay/partitioner.py] StickyPartitioner.assign *)
Definition assign : act t Z :=
  self ← get;
  self ← (if batch_size self <=? in_batch self then
            next ← pure_of (py_mod (current self + 1) (partitions self));
            mret (mk (partitions self) (batch_size self) next 0 (batches_produced self + 1))
          else mret self);
  put (mk (partitions self) (batch_size self) (current self) (in_batch self + 1) (batches_produced self));;
  mret (current self).
End StickyPartitioner.

(** [relay/partitioner.py:72-76] count_batches_roundrobin *)
Fixpoint count_rounds (records : nat) (batch_size : Z) (s : RoundRobinPartitioner.t * list Z * Z) : result Z :=
  match records with
  | O => Ok s.2
  | S records =>
      let '(partitioner, per_partition, batches) := s in
      match RoundRobinPartitioner.assign partitioner with
      | (_, Err e) => Err e
      | (partitioner, Ok p) =>
          n ← py_index per_partition p;
          per_partition ← py_setitem per_partition p (n + 1);
          m ← py_mod (n + 1) batch_size;
          count_rounds records batch_size (partitioner, per_partition, if m =? 1 then batches + 1 else batches)
      end
  end.

(** [relay/partitioner.py] count_batches_roundrobin *)
Definition count_batches_roundrobin (records partitions batch_size : Z) : result Z :=
  partitioner ← RoundRobinPartitioner.make partitions;
  count_rounds (Z.to_nat records) batch_size (partitioner, replicate (Z.to_nat partitions) 0, 0).

(** [relay/partitioner.py] compare_strategies: the two numbers in the message *)
Definition compare_strategies (records partitions batch_size : Z) : result (Z * Z) :=
  rr ← count_batches_roundrobin records partitions batch_size;
  sticky ← StickyPartitioner.make partitions batch_size;
  let '(sticky, r) := for_each (seqZ 0 records) (λ _, StickyPartitioner.assign;; mret ()) sticky in
  _ ← r;
  Ok (rr, StickyPartitioner.batches_produced sticky).
End partitioner.
Import partitioner.

Module orderingscope.
Section orderingscope.
(** [hash(s)] of the interpreter, which differs from one run of it to the next *)
Variable hash : string → Z.

(** [relay/orderingscope.py] class OrderingScope *)
Record OrderingScope := mk_scope { partitions : Z }.

(** [relay/orderingscope.py] OrderingScope.__post_init__ *)
Definition make (partitions : Z) : result OrderingScope := if partitions <? 1 then Err Invalid else Ok (mk_scope partitions).

(** [relay/orderingscope.py] OrderingScope.partition_for *)
Definition partition_for (self : OrderingScope) (key : string) : result Z := py_mod (Z.land (hash key) 0x7FFFFFFF) (partitions self).

(** [relay/orderingscope.py] OrderingScope.ordered_between *)
Definition ordered_between (self : OrderingScope) (key_a key_b : string) : result bool :=
  a ← partition_for self key_a; b ← partition_for self key_b; Ok (a =? b).

(** [relay/orderingscope.py] OrderingScope.order_note *)
Definition order_note (self : OrderingScope) (key_a key_b : string) : result string :=
  together ← ordered_between self key_a key_b;
  Ok (if (together : bool) then "'" +:+ key_a +:+ "' and '" +:+ key_b +:+ "' share a partition; their order is guaranteed"
      else "'" +:+ key_a +:+ "' and '" +:+ key_b
           +:+ "' are on different partitions; no order between them, a consumer can see either first").
(** [relay/orderingscope.py] OrderingScope.spread *)
Definition spread (self : OrderingScope) (keys : list string) : result string :=
  parts ← mapM (partition_for self) keys;
  let used : gset Z := list_to_set parts in
  Ok (if partitions self =? 1 then
        "one partition orders the whole topic but serializes all throughput onto one broker, the parallelism thrown away"
      else zs (zlen keys) +:+ " key(s) spread across " +:+ zs (Z.of_nat (size used))
           +:+ " partition(s); order across them needs keying them together or ordering after consuming").
End orderingscope.
End orderingscope.

Module producerclose.
Module Producer.
(** [relay/producerclose.py] class Producer *)
Record t := mk { pending : list string; closing : bool; closed : bool }.

Definition make : t := mk [] false false.

(** [relay/producerclose.py] Producer.send *)
Definition send (record : string) : act t unit :=
  self ← get;
  raise_if (closing self || closed self) Invalid;;
  put (mk (pending self ++ [record]) (closing self) (closed self)).

(** [l[i:]] *)
Definition slice_from {A} (l : list A) (i : Z) : list A :=
  drop (Z.to_nat (if i <? 0 then Z.max 0 (zlen l + i) else i)) l.

(** [relay/producerclose.py] Producer.close: how many were flushed, and how many failed *)
Definition close (acked_within_deadline : Z) : act t (Z * Z) :=
  self ← get;
  raise_if (closed self) Invalid;;
  let total := zlen (pending self) in
  let flushed := Z.min acked_within_deadline total in
  let failed := slice_from (pending self) flushed in
  put (mk [] true true);;
  mret (flushed, zlen failed).
End Producer.
End producerclose.
Import producerclose.

Module produceerrors.
(** [relay/produceerrors.py] RETRIABLE *)
Definition RETRIABLE : list string := ["not-leader"; "request-timeout"; "not-enough-replicas"; "coordinator-loading"]%string.
(** [relay/produceerrors.py] FATAL *)
Definition FATAL : list string := ["message-too-large"; "authorization-failed"; "serialization-error"; "invalid-topic"]%string.
(** [relay/produceerrors.py] AMBIGUOUS *)
Definition AMBIGUOUS : list string := ["ack-lost"]%string.

(** the first word of the verdict *)
Inductive verdict := Retriable | Fatal.
#[global] Instance verdict_eq_dec : EqDecision verdict.
Proof. solve_decision. Defined.

(** [relay/produceerrors.py] classify *)
Definition classify (error : string) (idempotent : bool) : result verdict :=
  if bool_decide (error ∈ RETRIABLE) then Ok Retriable
  else if bool_decide (error ∈ FATAL) then Ok Fatal
  else if bool_decide (error ∈ AMBIGUOUS) then Ok (if idempotent then Retriable else Fatal)
  else Err Invalid.

(** [relay/produceerrors.py] should_retry *)
Definition should_retry (error : string) (idempotent : bool) : result bool :=
  verdict ← classify error idempotent; Ok (bool_decide (verdict = Retriable)).
End produceerrors.
Import produceerrors.

Module retrytopic.
Module RetryRouter.
(** [relay/retrytopic.py] class RetryRouter *)
Record t := mk { tier_delays : list Z }.

(** [relay/retrytopic.py] RetryRouter.__post_init__ *)
Definition make (tier_delays : list Z) : result t :=
  match tier_delays with
  | [] => Err Invalid
  | _ => if existsb (λ d, d <? 0) tier_delays then Err Invalid else Ok (mk tier_delays)
  end.

(** where a record goes next *)
Inductive route := DeadLetter | Tier (attempt : Z).

(** [relay/retrytopic.py] RetryRouter.route_on_failure *)
Definition route_on_failure (self : t) (attempt : Z) : result route :=
  if attempt <? 0 then Err Invalid
  else if zlen (tier_delays self) <=? attempt then Ok DeadLetter
  else Ok (Tier attempt).

(** [relay/retrytopic.py] RetryRouter.delay_for *)
Definition delay_for (self : t) (attempt : Z) : result Z :=
  if (attempt <? 0) || (zlen (tier_delays self) <=? attempt) then Err Invalid else py_index (tier_delays self) attempt.

(** [relay/retrytopic.py] RetryRouter.on_success *)
Definition on_success (attempt : Z) : string :=
  "record succeeded on tier " +:+ zs attempt +:+ "; done, not escalated, or escalating a succeeded record would reprocess it".
(** [relay/retrytopic.py] RetryRouter.report *)
Definition report (self : t) (attempt : Z) : result string :=
  dest ← route_on_failure self attempt;
  match dest with
  | DeadLetter => Ok ("attempt " +:+ zs attempt +:+ " exhausted all " +:+ zs (zlen (tier_delays self))
                      +:+ " tiers; to the dead-letter for a human, a permanent failure")
  | Tier attempt' =>
      delay ← delay_for self attempt;
      Ok ("on retry-tier-" +:+ zs attempt' +:+ ", waiting " +:+ zs delay
          +:+ "; a pile-up here is a persistent failure the retries only postpone")
  end.
End RetryRouter.
End retrytopic.
Import retrytopic.

Module deserialize.
(** [relay/deserialize.py:37-39] STOP *)
Inductive policy := STOP | SKIP | DIVERT.

Module PoisonHandler.
(** [relay/deserialize.py] class PoisonHandler *)
Record t := mk { policy_ : policy; committed : Z; diverted : list Z; hits : Z }.

(** [relay/deserialize.py] PoisonHandler.__post_init__: an unknown policy is [None] *)
Definition make (p : option policy) : result t := match p with None => Err Invalid | Some p => Ok (mk p 0 [] 0) end.

(** [relay/deserialize.py] PoisonHandler.on_poison *)
Definition on_poison (offset : Z) : act t unit :=
  modify (λ self, mk (policy_ self) (committed self) (diverted self) (hits self + 1));;
  self ← get;
  match policy_ self with
  | STOP => raise Invalid
  | SKIP => put (mk (policy_ self) (offset + 1) (diverted self) (hits self))
  | DIVERT => put (mk (policy_ self) (offset + 1) (diverted self ++ [offset]) (hits self))
  end.

(** the text of a policy *)
Definition policy_text (p : policy) : string := match p with STOP => "stop" | SKIP => "skip" | DIVERT => "divert" end.
(** [relay/deserialize.py] PoisonHandler.health *)
Definition health (self : t) : string :=
  zs (hits self) +:+ " poison pill(s) hit under '" +:+ policy_text (policy_ self)
  +:+ "'; a rising count is a producer writing malformed records upstream, the bug behind the symptom".
End PoisonHandler.
End deserialize.
Import deserialize.

Module inflight.
(** [relay/inflight.py] class ProducerPipeline *)
Record ProducerPipeline := mk_pipeline { max_in_flight : Z; idempotent : bool }.

(** [relay/inflight.py] ProducerPipeline.__post_init__ *)
Definition make (max_in_flight : Z) (idempotent : bool) : result ProducerPipeline :=
  if max_in_flight <? 1 then Err Invalid else Ok (mk_pipeline max_in_flight idempotent).

(** [relay/inflight.py] ordering_safe *)
Definition ordering_safe (pipeline : ProducerPipeline) : bool := (max_in_flight pipeline =? 1) || idempotent pipeline.

(** [relay/inflight.py] check_ordering *)
Definition check_ordering (pipeline : ProducerPipeline) : result unit :=
  if max_in_flight pipeline =? 1 then Ok () else if idempotent pipeline then Ok () else Err Invalid.

(** [relay/inflight.py] throughput_class: whether it is pipelined *)
Definition throughput_class (pipeline : ProducerPipeline) : result bool :=
  if negb (ordering_safe pipeline) then Err Invalid
  else Ok (negb ((max_in_flight pipeline =? 1) && negb (idempotent pipeline))).
End inflight.

Module inflightorder.
(** [relay/inflightorder.py] class ProducerConfig *)
Record ProducerConfig := mk_config { max_in_flight : Z; idempotent : bool; needs_ordering : bool }.

(** [relay/inflightorder.py] ProducerConfig.__post_init__ *)
Definition make (max_in_flight : Z) (idempotent needs_ordering : bool) : result ProducerConfig :=
  if max_in_flight <? 1 then Err Invalid else Ok (mk_config max_in_flight idempotent needs_ordering).

(** [relay/inflightorder.py] validate_ordering *)
Definition validate_ordering (config : ProducerConfig) : result unit :=
  if max_in_flight config =? 1 then Ok ()
  else if idempotent config then Ok ()
  else if needs_ordering config then Err Invalid
  else Ok ().

(** [relay/inflightorder.py] would_reorder *)
Definition would_reorder (config : ProducerConfig) (batch_one_failed : bool) : bool :=
  if idempotent config || (max_in_flight config =? 1) then false else batch_one_failed.
End inflightorder.

Module produceracks.
Inductive level := Zero | One | All.

(** [relay/produceracks.py] ProducerAcks.loses_record *)
Definition loses_record (self : level) (leader_fails_before_replication : bool) : bool :=
  match self with Zero => true | One => leader_fails_before_replication | All => false end.

(** [relay/produceracks.py] ProducerAcks.__post_init__: the three values of [_LEVELS] *)
Definition make (value : string) : result level :=
  if bool_decide (value = "0") then Ok Zero
  else if bool_decide (value = "1") then Ok One
  else if bool_decide (value = "all") then Ok All
  else Err Invalid.
(** the text of a level *)
Definition level_text (self : level) : string := match self with Zero => "0" | One => "1" | All => "all" end.
(** [relay/produceracks.py] ProducerAcks.waits_for *)
Definition waits_for (self : level) : string :=
  match self with
  | Zero => "nothing; fire and forget"
  | One => "the leader's own write"
  | All => "every in-sync replica"
  end.
(** [relay/produceracks.py] ProducerAcks.loses_on *)
Definition loses_on (self : level) : string :=
  match self with
  | Zero => "any failure, even a full send buffer, silently"
  | One => "the leader failing before a follower copied the record"
  | All => "losing all in-sync replicas at once"
  end.
(** [relay/produceracks.py] ProducerAcks.note *)
Definition note (self : level) : string :=
  let latency := match self with Zero => "lowest" | One => "one write" | All => "slowest follower" end in
  "acks=" +:+ level_text self +:+ " waits for " +:+ waits_for self +:+ ", loses on " +:+ loses_on self +:+ "; latency " +:+ latency
  +:+ ". acks=all is only as strong as the in-sync set is deep, pair it with a min-in-sync floor".
End produceracks.

Module deliverysemantics.
(** [relay/deliverysemantics.py:34-36] AT_MOST_ONCE *)
Inductive guarantee_t := AT_MOST_ONCE | AT_LEAST_ONCE | EXACTLY_ONCE.

(** [relay/deliverysemantics.py] class Chain *)
Record Chain := mk_chain {
  acks_all : bool;
  idempotent : bool;
  transactional : bool;
  consumer_commits_after_process : bool;
  consumer_commits_in_txn : bool;
}.

(** [relay/deliverysemantics.py] Chain.guarantee *)
Definition guarantee (self : Chain) : guarantee_t :=
  if negb (acks_all self) then AT_MOST_ONCE
  else if negb (consumer_commits_after_process self) then AT_MOST_ONCE
  else if idempotent self && transactional self && consumer_commits_in_txn self then EXACTLY_ONCE
  else AT_LEAST_ONCE.

(** [relay/deliverysemantics.py] Chain.weakest_link *)
Definition weakest_link (self : Chain) : string :=
  match guarantee self with
  | EXACTLY_ONCE => "every link supports exactly-once"
  | _ =>
      if negb (acks_all self) then "producer acks<all can lose a record: caps at at-most-once"
      else if negb (consumer_commits_after_process self) then
        "consumer commits before processing: a crash loses in-flight records, at-most-once"
      else
        let missing := (if negb (idempotent self) then ["idempotent producer"] else [])
                       ++ (if negb (transactional self) then ["transactional producer"] else [])
                       ++ (if negb (consumer_commits_in_txn self) then ["consumer commit inside the transaction"] else []) in
        "at-least-once; exactly-once needs " +:+ join_str ", " missing
  end.
End deliverysemantics.

Module downconvert.
Module ConversionTracker.
(** [relay/downconvert.py] class ConversionTracker *)
Record t := mk { zero_copy_fetches : Z; down_converted_fetches : Z }.

Definition make : t := mk 0 0.

(** [relay/downconvert.py] CONVERSION_CPU_PREMIUM *)
Definition CONVERSION_CPU_PREMIUM : Z := 5.

(** [relay/downconvert.py] ConversionTracker.serve: whether it was zero-copy *)
Definition serve (client_format broker_format : Z) : act t bool :=
  raise_if (broker_format <? client_format) Invalid;;
  if client_format =? broker_format then
    modify (λ self, mk (zero_copy_fetches self + 1) (down_converted_fetches self));; mret true
  else modify (λ self, mk (zero_copy_fetches self) (down_converted_fetches self + 1));; mret false.

(** [relay/downconvert.py] ConversionTracker.cpu_premium: the premium and the share *)
Definition cpu_premium (self : t) : result (Z * Z) :=
  let total := zero_copy_fetches self + down_converted_fetches self in
  if total =? 0 then Err Invalid
  else share ← py_div (100 * down_converted_fetches self) total;
       Ok (down_converted_fetches self * CONVERSION_CPU_PREMIUM, share).

(** [relay/downconvert.py] ConversionTracker.is_subsidizing *)
Definition is_subsidizing (self : t) : bool :=
  let total := zero_copy_fetches self + down_converted_fetches self in
  if total =? 0 then false else total <? down_converted_fetches self * 2.
End ConversionTracker.
End downconvert.
Import downconvert.

Module timestampskew.
(** [relay/timestampskew.py] class SkewGuard *)
Record SkewGuard := mk_guard { max_skew : Z }.

(** [relay/timestampskew.py] SkewGuard.__post_init__ *)
Definition make (max_skew : Z) : result SkewGuard := if max_skew <? 0 then Err Invalid else Ok (mk_guard max_skew).

(** [relay/timestampskew.py] SkewGuard.check: the skew in the message *)
Definition check_ (self : SkewGuard) (record_ts broker_now : Z) : result Z :=
  let skew := record_ts - broker_now in
  if max_skew self <? skew then Err Invalid else Ok skew.

(** [relay/timestampskew.py] SkewGuard.is_future_poison *)
Definition is_future_poison (self : SkewGuard) (record_ts broker_now : Z) : bool := max_skew self <? record_ts - broker_now.

(** [relay/timestampskew.py] SkewGuard.drift_note *)
Definition drift_note (self : SkewGuard) (record_ts broker_now : Z) : string :=
  let skew := record_ts - broker_now in
  if skew <=? 0 then "record is at or behind the broker clock; a normal past event"
  else
    let headroom := max_skew self - skew in
    zs skew +:+ " ahead, " +:+ zs headroom
    +:+ " before the skew bound; a producer drifting toward it is a clock slipping before records are rejected".
End timestampskew.
Import timestampskew.

Module readverify.
Module ReadVerifier.
(** [relay/readverify.py] class ReadVerifier *)
Record t := mk { verify_failures : Z; reads : Z }.

Definition make : t := mk 0 0.

(** [relay/readverify.py] ReadVerifier.serve *)
Definition serve (data : bytes) (stored_crc : Z) : act t unit :=
  modify (λ self, mk (verify_failures self) (reads self + 1));;
  self ← get;
  if negb (Codec.crc32c.crc32c data =? stored_crc) then
    put (mk (verify_failures self + 1) (reads self));; raise Invalid
  else mret ().

(** [relay/readverify.py] ReadVerifier.repair_from *)
Definition repair_from (replica_data : bytes) (stored_crc : Z) : result bytes :=
  if negb (Codec.crc32c.crc32c replica_data =? stored_crc) then Err Invalid else Ok replica_data.

(** [relay/readverify.py] ReadVerifier.failure_rate *)
Definition failure_rate (self : t) : result string :=
  if reads self =? 0 then Ok "no reads verified yet"
  else
    share ← z_truediv (verify_failures self) (reads self);
    let pct := f_mul share (of_Z 100) in
    Ok (zs (verify_failures self) +:+ "/" +:+ zs (reads self) +:+ " reads failed verification (" +:+ fmt_fixed 1 pct
        +:+ "%); a rising rate is a disk starting to fail, caught before the failure is total").
End ReadVerifier.
End readverify.
Import readverify.

(** ** Numbers in one total order *)

Section total_order.
Inductive sequencer_op := Issue | IssueBatch (size : Z) | Failover (floor : Z).

(** a step, and the numbers it hands out *)
Definition sequencer_step (o : sequencer_op) (w : Sequencer.t * list Z) : Sequencer.t * list Z :=
  match o with
  | Issue => let r := Sequencer.issue w.1 in (r.1, w.2 ++ match r.2 with Ok n => [n] | Err _ => [] end)
  | IssueBatch size =>
      let r := Sequencer.issue_batch size w.1 in
      (r.1, w.2 ++ match r.2 with Ok (a, b) => seqZ a (b - a + 1) | Err _ => [] end)
  | Failover floor => (state_of (Sequencer.failover_resume floor) w.1, w.2)
  end.

Definition issued_ok (w : Sequencer.t * list Z) : Prop :=
  StronglySorted Z.lt w.2 ∧ (∀ n, n ∈ w.2 → n <= Sequencer.highest_issued w.1) ∧
  Sequencer.highest_issued w.1 < Sequencer.next_seq w.1.

(** appending numbers above all those handed out *)
Lemma issued_app (l l' : list Z) hi :
  StronglySorted Z.lt l → (∀ n, n ∈ l → n <= hi) → StronglySorted Z.lt l' → (∀ n, n ∈ l' → hi < n) →
  StronglySorted Z.lt (l ++ l').
Proof.
  intros Hl Hhi Hl' Hlo. induction Hl as [|x l Hl IH Hx]; [done|]. cbn. constructor.
  - apply IH. intros n Hn. apply Hhi. by right.
  - rewrite Forall_app. split; [done|]. apply Forall_forall. intros n Hn.
    specialize (Hlo n Hn). specialize (Hhi x ltac:(left)). lia.
Qed.

Lemma issued_ok_step o w : issued_ok w → issued_ok (sequencer_step o w).
Proof.
  destruct w as [s l]. intros (Hs & Hhi & Hnext). cbn [fst snd] in *. destruct o as [|size|floor]; cbn [sequencer_step fst snd].
  - unfold Sequencer.issue. act_simpl. split_and!; cbn; [|intros n [Hn|Hn%list_elem_of_singleton]%elem_of_app|lia].
    + apply issued_app with (Sequencer.highest_issued s); [done..|repeat constructor|].
      intros n ->%list_elem_of_singleton. done.
    + specialize (Hhi n Hn). lia.
    + lia.
  - unfold Sequencer.issue_batch. act_simpl. bool_split; act_simpl; bool_prop; [by rewrite app_nil_r|].
    split_and!; cbn; [| |lia].
    + apply issued_app with (Sequencer.highest_issued s); [done..|apply StronglySorted_seqZ|].
      intros n Hn%elem_of_seqZ. lia.
    + intros n [Hn|Hn%elem_of_seqZ]%elem_of_app; [specialize (Hhi n Hn)|]; lia.
  - unfold state_of, Sequencer.failover_resume. act_simpl. bool_split; [done|]. bool_prop. split_and!; cbn; [done..|lia].
Qed.
End total_order.

(** Also (safety): one total order, and no number twice.  Whatever single numbers and ranges are handed
    out, and whenever a standby takes over at a floor, all the numbers ever handed out, in the order
    they were, strictly increase; a floor at or below one already handed out is refused, and changes
    nothing. *)
Theorem sequencer_total_order ops floor :
  let w := run sequencer_step ops (Sequencer.make, []) in
  StronglySorted Z.lt w.2 ∧ NoDup w.2 ∧
  ((∃ n, n ∈ w.2 ∧ floor <= n) → Sequencer.failover_resume floor w.1 = (w.1, Err Invalid)).
Proof.
  intros w. assert (issued_ok w) as (Hs & Hhi & _).
  { apply run_invariant; [apply issued_ok_step|]. split_and!; cbn; [constructor|by intros n ?%elem_of_nil|lia]. }
  split; [done|]. split.
  - clear Hhi. induction Hs as [|x l Hl IH Hx]; constructor; [|done]. intros Hin.
    rewrite Forall_forall in Hx. specialize (Hx x Hin). lia.
  - intros (n & Hn & Hle). specialize (Hhi n Hn). unfold Sequencer.failover_resume. act_simpl.
    by rewrite (proj2 (Z.leb_le floor _)) by lia.
Qed.

(** ** Splitting a batch *)

Section splitting.
Lemma split_spec fuel records max_size : (length records < fuel)%nat → (∀ s, s ∈ records → s <= max_size) →
  ∃ bs, _split fuel records max_size = Ok bs ∧ mjoin bs = records ∧
    ∀ b, b ∈ bs → b ≠ [] ∧ zsum id b <= max_size.
Proof.
  revert records. induction fuel as [|fuel IH]; intros records Hfuel Hsize; [lia|].
  destruct (decide (records = [])) as [->|Hne]; [exists []; split_and!; [done..|by intros ? ?%elem_of_nil]|].
  cbn [_split]. destruct records as [|x l0] eqn:Hr; [done|]. rewrite <- Hr in *. clear Hne.
  destruct (Z.leb_spec (zsum id records) max_size) as [Hle|Hgt].
  { exists [records]. split_and!; [done|by rewrite <- (app_nil_r records) at 2|].
    intros b ->%list_elem_of_singleton. split; [by rewrite Hr|done]. }
  destruct (Nat.eqb_spec (length records) 1) as [H1|H1].
  { exfalso. subst records. destruct l0; [|done]. cbn in Hgt. specialize (Hsize x ltac:(left)). unfold id in Hgt. lia. }
  set (mid := (length records / 2)%nat).
  assert (2 <= length records)%nat as H2 by (rewrite Hr in H1 |- *; cbn in H1 |- *; lia).
  pose proof (Nat.div_mod_eq (length records) 2) as Hdm. pose proof (Nat.mod_upper_bound (length records) 2 ltac:(lia)).
  fold mid in Hdm. 
  destruct (IH (take mid records)) as (l & Hl & Hjl & Hbl).
  { rewrite length_take. lia. }
  { intros s (i & Hi & _)%elem_of_take. by eapply Hsize, list_elem_of_lookup_2. }
  destruct (IH (drop mid records)) as (r & Hrr & Hjr & Hbr).
  { rewrite length_drop. lia. }
  { intros s Hs. apply Hsize. rewrite <- (take_drop mid records). apply elem_of_app. by right. }
  rewrite Hl. cbn [mbind result_bind]. rewrite Hrr. cbn [mbind result_bind]. exists (l ++ r).
  split; [done|]. split; [by rewrite join_app, Hjl, Hjr, take_drop|].
  intros b [Hb|Hb]%elem_of_app; [by apply Hbl|by apply Hbr].
Qed.
End splitting.

(** Also (termination): halving an over-large batch ends, and loses and reorders nothing.  A limit that
    some record exceeds on its own, or that is not positive, is refused up front; otherwise the
    splitting always ends in batches that are not empty and each within the limit, and that put
    end to end are the records in their order. *)
Theorem split_batch_fits record_sizes max_size :
  if (max_size <? 1) || existsb (λ s, max_size <? s) record_sizes
  then split_batch record_sizes max_size = Err Invalid
  else ∃ batches, split_batch record_sizes max_size = Ok batches ∧ mjoin batches = record_sizes ∧
         ∀ b, b ∈ batches → b ≠ [] ∧ zsum id b <= max_size.
Proof.
  unfold split_batch. destruct (max_size <? 1); [done|]. cbn [orb].
  destruct (existsb _ record_sizes) eqn:Hbig.
  - apply existsb_exists in Hbig as (s & Hs & Hlt). destruct (List.filter _ _) eqn:Hf; [|done].
    assert (In s (List.filter (λ s, max_size <? s) record_sizes)) as Hin by (by apply List.filter_In).
    by rewrite Hf in Hin.
  - assert (∀ s, s ∈ record_sizes → s <= max_size) as Hsize.
    { intros s Hs. apply Z.nlt_ge. intros Hlt. apply list_elem_of_In in Hs.
      enough (existsb (λ s, max_size <? s) record_sizes = true) by congruence.
      apply existsb_exists. exists s. split; [done|by apply Z.ltb_lt]. }
    assert (List.filter (λ s, max_size <? s) record_sizes = []) as ->.
    { destruct (List.filter _ _) as [|s l] eqn:Hf; [done|].
      assert (In s (List.filter (λ s, max_size <? s) record_sizes)) as Hin by (rewrite Hf; by left).
      apply List.filter_In in Hin as [Hin Hlt%Z.ltb_lt]. apply list_elem_of_In in Hin. specialize (Hsize s Hin). lia. }
    apply split_spec; [lia|done].
Qed.

(** ** A delivery has a last attempt *)

Section delivery.
Implicit Types (s : DeliveryAttempt.t).

(** an attempt at a tick of the clock since the send, and whether it succeeds *)
Definition delivery_step (o : nat * bool) s : DeliveryAttempt.t :=
  state_of (DeliveryAttempt.try_send (DeliveryAttempt.started_at s + Z.of_nat o.1) o.2) s.

Record delivery_ok (timeout base : Z) s : Prop := {
  do_timeout : DeliveryAttempt.delivery_timeout s = timeout;
  do_base : DeliveryAttempt.base_backoff s = base;
  do_attempts : 0 <= DeliveryAttempt.attempts s;
  do_outcome : DeliveryAttempt.resolved s = false ↔ DeliveryAttempt.outcome s = DeliveryAttempt.Pending;
  do_window : DeliveryAttempt.resolved s = false → 1 <= DeliveryAttempt.attempts s →
    base * 2 ^ (DeliveryAttempt.attempts s - 1) < timeout;
  do_backoffs : DeliveryAttempt.backoffs s = (λ i, base * 2 ^ i) <$> seqZ 0 (zlen (DeliveryAttempt.backoffs s));
  do_count : zlen (DeliveryAttempt.backoffs s) = DeliveryAttempt.attempts s - (if DeliveryAttempt.resolved s then 1 else 0);
}.

Lemma try_send_run now (succeeded : bool) s :
  DeliveryAttempt.try_send now succeeded s =
  if DeliveryAttempt.resolved s then (s, Err Invalid) else
  let a := DeliveryAttempt.attempts s + 1 in
  let backoff := DeliveryAttempt.base_backoff s * 2 ^ (a - 1) in
  let fin o := DeliveryAttempt.mk (DeliveryAttempt.delivery_timeout s) (DeliveryAttempt.base_backoff s)
                 (DeliveryAttempt.started_at s) a true o (DeliveryAttempt.backoffs s) in
  if succeeded : bool then (fin DeliveryAttempt.Delivered, Ok ())
  else if DeliveryAttempt.delivery_timeout s <=? now - DeliveryAttempt.started_at s + backoff
       then (fin DeliveryAttempt.Failed, Ok ())
       else (DeliveryAttempt.mk (DeliveryAttempt.delivery_timeout s) (DeliveryAttempt.base_backoff s)
               (DeliveryAttempt.started_at s) a false (DeliveryAttempt.outcome s) (DeliveryAttempt.backoffs s ++ [backoff]), Ok ()).
Proof.
  unfold DeliveryAttempt.try_send. act_simpl. destruct (DeliveryAttempt.resolved s) eqn:Hr; [done|]. act_simpl.
  destruct succeeded; act_simpl; [done|]. unfold DeliveryAttempt._next_backoff. cbn. bool_split; act_simpl; by rewrite ?Hr.
Qed.

Lemma delivery_ok_step timeout base o s : 1 <= base → delivery_ok timeout base s → delivery_ok timeout base (delivery_step o s).
Proof.
  intros Hbase [H1 H2 H3 H4 H5 H6 H7]. unfold delivery_step, state_of. rewrite try_send_run.
  destruct (DeliveryAttempt.resolved s) eqn:Hr; [cbn; split; rewrite ?Hr; done|]. cbn zeta.
  destruct o as [now [|]]; cbn [snd fst]; [split; cbn; try done; lia|].
  bool_split; bool_prop; [split; cbn; try done; lia|].
  split; cbn; try done; [lia|intros _ _; rewrite <- H2; lia| |rewrite zlen_app, zlen_cons, zlen_nil; lia].
  pose proof (zlen_nonneg (DeliveryAttempt.backoffs s)).
  rewrite zlen_app. change (zlen [_]) with 1. rewrite seqZ_app by lia.
  rewrite fmap_app, <- H6. f_equal. rewrite seqZ_cons by lia. cbn. rewrite Z.sub_0_r in H7.
  rewrite H2, H7. do 3 f_equal. lia.
Qed.

Lemma delivery_attempts_step o s :
  DeliveryAttempt.resolved (delivery_step o s) = false → DeliveryAttempt.attempts (delivery_step o s) = DeliveryAttempt.attempts s + 1 ∧ DeliveryAttempt.resolved s = false.
Proof.
  unfold delivery_step, state_of. rewrite try_send_run. destruct (DeliveryAttempt.resolved s) eqn:Hr; [cbn; congruence|].
  cbn zeta. destruct o as [now [|]]; cbn [snd fst]; [done|]. by bool_split.
Qed.

Lemma delivery_attempts_run ops s :
  DeliveryAttempt.resolved (run delivery_step ops s) = false →
  DeliveryAttempt.attempts (run delivery_step ops s) = DeliveryAttempt.attempts s + zlen ops.
Proof.
  induction ops as [|o ops IH] using rev_ind; [cbn; rewrite zlen_nil; lia|].
  rewrite run_app. cbn [run foldl]. intros [-> Hr]%delivery_attempts_step.
  rewrite IH by done. rewrite zlen_app, zlen_cons, zlen_nil. lia.
Qed.
End delivery.

(** Also (liveness): a delivery always gets a final answer, by the time-out and not by a count.
    Every retry that is scheduled falls strictly before the time-out, the pauses double from the base, a
    delivery is open exactly while it has no outcome, and one that was tried as often as the
    logarithm of the time-out and two more is final, whatever the answers and the clock; a final
    one is never tried again. *)
Theorem delivery_final timeout base start s0 ops now (succeeded : bool) :
  DeliveryAttempt.make timeout base start = Ok s0 →
  let s := run delivery_step ops s0 in
  let s' := delivery_step (now, succeeded) s in
  (DeliveryAttempt.is_final s = false ↔ DeliveryAttempt.outcome s = DeliveryAttempt.Pending) ∧
  DeliveryAttempt.backoffs s = (λ i, base * 2 ^ i) <$> seqZ 0 (zlen (DeliveryAttempt.backoffs s)) ∧
  (Z.log2 timeout + 2 <= zlen ops → DeliveryAttempt.is_final s = true) ∧
  (DeliveryAttempt.is_final s' = false → ∃ pause, last (DeliveryAttempt.backoffs s') = Some pause ∧ Z.of_nat now + pause < timeout) ∧
  (DeliveryAttempt.is_final s = true → s' = s).
Proof.
  intros Hmake s s'. unfold DeliveryAttempt.make in Hmake. bool_split_in Hmake; [done|]. injection Hmake as <-. bool_prop.
  set (s0 := DeliveryAttempt.mk timeout base start 0 false DeliveryAttempt.Pending []) in *.
  assert (delivery_ok timeout base s) as Hs.
  { apply run_invariant; [intros; by apply delivery_ok_step|]. by split; cbn; try done; lia. }
  destruct Hs as [H1 H2 H3 H4 H5 H6 H7]. unfold DeliveryAttempt.is_final. split_and!; [done|done| | |].
  - intros Hlen. apply not_false_iff_true. intros Hr. pose proof (delivery_attempts_run ops s0 Hr) as Ha.
    fold s in Ha. cbn in Ha. pose proof (Z.log2_nonneg timeout).
    specialize (H5 Hr ltac:(lia)). pose proof (Z.log2_spec timeout ltac:(lia)) as [_ Hlog].
    assert (2 ^ Z.succ (Z.log2 timeout) <= 2 ^ (DeliveryAttempt.attempts s - 1)) by (apply Z.pow_le_mono_r; lia). nia.
  - unfold s', delivery_step, state_of. rewrite try_send_run. destruct (DeliveryAttempt.resolved s) eqn:Hr; [cbn; congruence|].
    cbn zeta. destruct succeeded; [done|]. cbn [fst snd]. bool_split; [done|]. bool_prop. intros _. cbn.
    eexists. split; [apply last_snoc|]. rewrite H1 in Heqb0 || idtac. lia.
  - intros Hr. unfold s', delivery_step, state_of. rewrite try_send_run. by rewrite Hr.
Qed.

Lemma delivery_final_witness :
  DeliveryAttempt.is_final (run delivery_step [(0%nat, false); (3%nat, false); (9%nat, false); (9%nat, false); (9%nat, false); (9%nat, false)] (DeliveryAttempt.mk 10 2 0 0 false DeliveryAttempt.Pending [])) = true.
Proof.
  refine (proj1 (proj2 (proj2 (delivery_final 10 2 0 (DeliveryAttempt.mk 10 2 0 0 false DeliveryAttempt.Pending [])
    [(0%nat, false); (3%nat, false); (9%nat, false); (9%nat, false); (9%nat, false); (9%nat, false)] 0 false eq_refl))) _).
  vm_compute. discriminate.
Defined.

(** ** How many batches each way of choosing a partition makes *)

(** batches of at most [b] records that hold [n] records *)
Definition ceil (n b : Z) : Z := (n + b - 1) / b.

Lemma ceil_step n b : 2 <= b → 0 <= n → ceil (n + 1) b = ceil n b + (if (n + 1) mod b =? 1 then 1 else 0).
Proof.
  intros Hb Hn. unfold ceil. replace (n + 1 + b - 1) with (n + b) by lia.
  pose proof (Z.div_mod (n + 1) b ltac:(lia)) as H1. pose proof (Z.mod_pos_bound (n + 1) b ltac:(lia)) as H2.
  set (q := (n + 1) / b) in *. set (m := (n + 1) mod b) in *. clearbody q m.
  destruct (Z.eqb_spec m 1) as [->|Hm].
  - rewrite <- (Z.div_unique (n + b) b (q + 1) 0) by lia.
    rewrite <- (Z.div_unique (n + b - 1) b q (b - 1)) by lia. lia.
  - destruct (decide (m = 0)) as [->|Hm0].
    + rewrite <- (Z.div_unique (n + b) b q (b - 1)) by lia.
      rewrite <- (Z.div_unique (n + b - 1) b q (b - 2)) by lia. lia.
    + rewrite <- (Z.div_unique (n + b) b (q + 1) (m - 1)) by lia.
      rewrite <- (Z.div_unique (n + b - 1) b (q + 1) (m - 2)) by lia. lia.
Qed.

Lemma ceil_add_le n m b : 1 <= b → ceil (n + m) b <= ceil n b + ceil m b.
Proof.
  intros Hb. unfold ceil.
  pose proof (Z.div_mod (n + b - 1) b ltac:(lia)). pose proof (Z.mod_pos_bound (n + b - 1) b ltac:(lia)).
  pose proof (Z.div_mod (m + b - 1) b ltac:(lia)). pose proof (Z.mod_pos_bound (m + b - 1) b ltac:(lia)).
  apply Z.lt_succ_r, Z.div_lt_upper_bound; nia.
Qed.

Lemma ceil_zsum_le (l : list Z) b : 1 <= b → ceil (zsum id l) b <= zsum (λ n, ceil n b) l.
Proof.
  intros Hb. induction l as [|n l IH].
  - cbn. unfold ceil. rewrite Z.div_small by lia. done.
  - change (zsum id (n :: l)) with (n + zsum id l). change (zsum (λ n, ceil n b) (n :: l)) with (ceil n b + zsum (λ n, ceil n b) l).
    pose proof (ceil_add_le n (zsum id l) b Hb). lia.
Qed.

Lemma ceil_zero b : 1 <= b → ceil 0 b = 0.
Proof. intros. unfold ceil. apply Z.div_small. lia. Qed.

Section round_robin.
Variables (partitions batch_size : Z).
Hypothesis partitions_pos : 1 <= partitions.

(** the share of partition [p] after [k] records *)
Definition share (k p : Z) : Z := (k - p + partitions - 1) / partitions.

Lemma share_step k p : 0 <= k → 0 <= p < partitions →
  share (k + 1) p = share k p + (if k mod partitions =? p then 1 else 0).
Proof.
  intros Hk Hp. unfold share. replace (k + 1 - p + partitions - 1) with (k - p + partitions) by lia.
  pose proof (Z.div_mod k partitions ltac:(lia)) as H1. pose proof (Z.mod_pos_bound k partitions ltac:(lia)) as H2.
  set (q := k / partitions) in *. set (m := k mod partitions) in *. clearbody q m. subst k.
  destruct (Z.eqb_spec m p) as [->|Hm].
  - rewrite <- (Z.div_unique (partitions * q + p - p + partitions) partitions (q + 1) 0) by lia.
    rewrite <- (Z.div_unique (partitions * q + p - p + partitions - 1) partitions q (partitions - 1)) by lia. lia.
  - destruct (Z.lt_ge_cases m p).
    + rewrite <- (Z.div_unique (partitions * q + m - p + partitions) partitions q (m - p + partitions)) by lia.
      rewrite <- (Z.div_unique (partitions * q + m - p + partitions - 1) partitions q (m - p + partitions - 1)) by lia. lia.
    + rewrite <- (Z.div_unique (partitions * q + m - p + partitions) partitions (q + 1) (m - p)) by lia.
      rewrite <- (Z.div_unique (partitions * q + m - p + partitions - 1) partitions (q + 1) (m - p - 1)) by lia. lia.
Qed.

Definition shares (k : Z) : list Z := share k <$> seqZ 0 partitions.

Lemma shares_lookup k p : 0 <= p < partitions → shares k !! Z.to_nat p = Some (share k p).
Proof.
  intros Hp. unfold shares. rewrite list_lookup_fmap, lookup_seqZ_lt by lia. cbn. do 2 f_equal. lia.
Qed.

Lemma shares_step k : 0 <= k →
  shares (k + 1) = <[Z.to_nat (k mod partitions) := share k (k mod partitions) + 1]> (shares k).
Proof.
  intros Hk. pose proof (Z.mod_pos_bound k partitions ltac:(lia)) as Hm. apply list_eq. intros i.
  destruct (decide (i < Z.to_nat partitions)%nat) as [Hi|Hi].
  - replace i with (Z.to_nat (Z.of_nat i)) by lia. rewrite shares_lookup by lia.
    rewrite share_step by lia. destruct (Z.eqb_spec (k mod partitions) (Z.of_nat i)) as [Heq|Hne].
    + rewrite Heq. rewrite list_lookup_insert_eq; [done|]. unfold shares. rewrite length_fmap, length_seqZ. lia.
    + rewrite list_lookup_insert_ne by lia. rewrite shares_lookup by lia. f_equal. lia.
  - rewrite !lookup_ge_None_2; [done|rewrite length_insert|]; unfold shares; rewrite length_fmap, length_seqZ; lia.
Qed.

Lemma zsum_insert {A} (f : A → Z) (l : list A) i x y :
  l !! i = Some y → zsum f (<[i := x]> l) = zsum f l - f y + f x.
Proof.
  revert i. induction l as [|a l IH]; intros [|i] Hi; simplify_eq/=; [lia|]. rewrite (IH i) by done. lia.
Qed.

Lemma share_nonneg k p : 0 <= k → 0 <= p < partitions → 0 <= share k p.
Proof. intros. unfold share. apply Z.div_pos; lia. Qed.

(** [k] records already placed, [n] to come *)
Lemma count_rounds_spec n k : 2 <= batch_size → 0 <= k →
  count_rounds n batch_size (RoundRobinPartitioner.mk partitions (k mod partitions), shares k, zsum (λ m, ceil m batch_size) (shares k))
  = Ok (zsum (λ m, ceil m batch_size) (shares (k + Z.of_nat n))).
Proof.
  intros Hb. revert k. induction n as [|n IH]; intros k Hk; [cbn; by rewrite Z.add_0_r|].
  pose proof (Z.mod_pos_bound k partitions ltac:(lia)) as Hm. cbn [count_rounds].
  unfold RoundRobinPartitioner.assign. act_simpl. unfold py_mod at 1. rewrite (proj2 (Z.eqb_neq _ 0)) by lia. act_simpl.
  pose proof (shares_lookup k _ Hm) as Hl. rewrite (py_index_nonneg _ _ _ (proj1 Hm) Hl). cbn [mbind result_bind].
  unfold py_setitem. rewrite (py_pos_nonneg _ _ _ (proj1 Hm) Hl). cbn [mbind result_bind].
  unfold py_mod at 1. rewrite (proj2 (Z.eqb_neq _ 0)) by lia. cbn [mbind result_bind].
  rewrite Zplus_mod_idemp_l. replace (k + Z.of_nat (S n)) with (k + 1 + Z.of_nat n) by lia.
  rewrite <- (IH (k + 1)) by lia. f_equal. rewrite shares_step by done. f_equal.
  rewrite (zsum_insert _ _ _ _ _ Hl), ceil_step by (done || by apply share_nonneg). bool_split; lia.
Qed.

Lemma shares_zero : shares 0 = replicate (Z.to_nat partitions) 0.
Proof.
  apply list_eq. intros i. destruct (decide (i < Z.to_nat partitions)%nat) as [Hi|Hi].
  - replace i with (Z.to_nat (Z.of_nat i)) at 1 by lia. rewrite shares_lookup by lia.
    rewrite lookup_replicate_2 by lia. unfold share. f_equal. apply Z.div_small. lia.
  - rewrite !lookup_ge_None_2; [done|rewrite length_replicate|unfold shares; rewrite length_fmap, length_seqZ]; lia.
Qed.

Lemma zsum_zero (l : list Z) : (∀ x, x ∈ l → x = 0) → zsum id l = 0.
Proof.
  induction l as [|x l IH]; intros H; [done|]. change (zsum id (x :: l)) with (x + zsum id l).
  rewrite IH by (intros; apply H; by right). rewrite (H x) by left. done.
Qed.

Lemma shares_total k : 0 <= k → zsum id (shares k) = k.
Proof.
  intros Hk. pattern k. apply natlike_ind; [| |done]; clear k Hk.
  - rewrite shares_zero. apply zsum_zero. by intros x [-> _]%elem_of_replicate.
  - intros k Hk IH. rewrite <- Z.add_1_r, shares_step by done.
    pose proof (Z.mod_pos_bound k partitions ltac:(lia)) as Hm.
    rewrite (zsum_insert _ _ _ _ _ (shares_lookup k _ Hm)), IH. unfold id. lia.
Qed.
End round_robin.

Section sticky.
Implicit Types (s : StickyPartitioner.t).

Definition sticky_ok (k : Z) s : Prop :=
  1 <= StickyPartitioner.partitions s ∧ 1 <= StickyPartitioner.batch_size s ∧ 1 <= StickyPartitioner.batches_produced s ∧
  k = (StickyPartitioner.batches_produced s - 1) * StickyPartitioner.batch_size s + StickyPartitioner.in_batch s ∧
  0 <= StickyPartitioner.in_batch s <= StickyPartitioner.batch_size s ∧
  (1 <= StickyPartitioner.in_batch s ∨ k = 0) ∧
  StickyPartitioner.current s = (StickyPartitioner.batches_produced s - 1) mod StickyPartitioner.partitions s.

Lemma sticky_partitioner_assign_run k s : sticky_ok k s →
  ∃ s' p, StickyPartitioner.assign s = (s', Ok p) ∧ sticky_ok (k + 1) s' ∧
    StickyPartitioner.partitions s' = StickyPartitioner.partitions s ∧
    StickyPartitioner.batch_size s' = StickyPartitioner.batch_size s ∧
    p = (k / StickyPartitioner.batch_size s) mod StickyPartitioner.partitions s.
Proof.
  intros (Hp & Hb & Hbp & Hk & Hin & Hfirst & Hcur). unfold StickyPartitioner.assign, sticky_ok in *. act_simpl.
  destruct (Z.leb_spec (StickyPartitioner.batch_size s) (StickyPartitioner.in_batch s)) as [Hfull|Hroom]; act_simpl.
  - unfold py_mod. rewrite (proj2 (Z.eqb_neq _ 0)) by lia. act_simpl. eexists _, _. split; [reflexivity|]. cbn.
    rewrite Hcur, Zplus_mod_idemp_l. split_and!; try lia; f_equal; [lia|].
    assert (StickyPartitioner.in_batch s = StickyPartitioner.batch_size s) as Heq by lia. rewrite Heq in Hk.
    apply Z.div_unique with 0; lia.
  - eexists _, _. split; [reflexivity|]. cbn. split_and!; try done; try lia. rewrite Hcur. f_equal.
    apply Z.div_unique with (StickyPartitioner.in_batch s); lia.
Qed.

Lemma sticky_run n k s : sticky_ok k s →
  ∃ s', for_each n (λ _ : Z, StickyPartitioner.assign;; mret ()) s = (s', Ok ()) ∧ sticky_ok (k + zlen n) s' ∧
    StickyPartitioner.batch_size s' = StickyPartitioner.batch_size s.
Proof.
  revert k s. induction n as [|i n IH]; intros k s Hs; [exists s; by rewrite zlen_nil, Z.add_0_r|].
  destruct (sticky_partitioner_assign_run k s Hs) as (s1 & p & H1 & Hs1 & _ & Hb1 & _).
  destruct (IH (k + 1) s1 Hs1) as (s2 & H2 & Hs2 & Hb2). exists s2.
  cbn [for_each]. rewrite !bind_run, H1, run_ret. rewrite zlen_cons.
  replace (k + (1 + zlen n)) with (k + 1 + zlen n) by lia. split_and!; [done|done|congruence].
Qed.

Lemma sticky_batches k s : sticky_ok k s → 1 <= k → StickyPartitioner.batches_produced s = ceil k (StickyPartitioner.batch_size s).
Proof.
  intros (Hp & Hb & Hbp & Hk & Hin & Hfirst & _) H1. unfold ceil.
  apply Z.div_unique with (StickyPartitioner.in_batch s - 1); lia.
Qed.
End sticky.

(** Also (functional): the sticky partitioner never sends more batches than round-robin.  For batches of
    two records or more, round-robin over the partitions sends, for each partition, the batches its
    equal share of the records fills; the sticky partitioner sends the batches that all the
    records together fill; so the comparison the program makes never favours round-robin. *)
Theorem sticky_never_worse records partitions batch_size :
  1 <= records → 1 <= partitions → 2 <= batch_size →
  ∃ rr sticky, compare_strategies records partitions batch_size = Ok (rr, sticky) ∧
    rr = zsum (λ n, ceil n batch_size) (shares partitions records) ∧
    sticky = ceil records batch_size ∧ sticky <= rr.
Proof.
  intros Hr Hp Hb. unfold compare_strategies, count_batches_roundrobin, RoundRobinPartitioner.make, StickyPartitioner.make.
  rewrite (proj2 (Z.ltb_ge partitions 1)), (proj2 (Z.ltb_ge batch_size 1)) by lia. cbn [orb mbind result_bind].
  assert (zsum (λ m, ceil m batch_size) (shares partitions 0) = 0) as H0.
  { rewrite shares_zero by done. induction (Z.to_nat partitions) as [|n IH]; [done|]. cbn [replicate].
    change (zsum (λ m, ceil m batch_size) (0 :: replicate n 0)) with (ceil 0 batch_size + zsum (λ m, ceil m batch_size) (replicate n 0)).
    rewrite ceil_zero by lia. done. }
  pose proof (count_rounds_spec partitions batch_size Hp (Z.to_nat records) 0 Hb ltac:(lia)) as Hrr.
  rewrite H0, shares_zero, Z.mod_0_l, Z.add_0_l, Z2Nat.id in Hrr by lia. rewrite Hrr. cbn [mbind result_bind].
  destruct (sticky_run (seqZ 0 records) 0 (StickyPartitioner.mk partitions batch_size 0 0 1)) as (s & Hs & Hok & Hbs).
  { unfold sticky_ok. cbn. rewrite Z.mod_0_l by lia. lia. }
  rewrite Hs. cbn [mbind result_bind]. rewrite Z.add_0_l in Hok.
  assert (zlen (seqZ 0 records) = records) as Hlen by (unfold zlen; rewrite length_seqZ; lia). rewrite Hlen in Hok.
  rewrite (sticky_batches records s Hok Hr), Hbs. cbn. eexists _, _. split_and!; [done..|].
  rewrite <- (shares_total partitions Hp records) at 1 by lia. apply ceil_zsum_le. lia.
Qed.

Lemma sticky_never_worse_witness :
  ∃ rr sticky, compare_strategies 100 6 10 = Ok (rr, sticky) ∧ sticky = 10 ∧ sticky <= rr.
Proof.
  destruct (sticky_never_worse 100 6 10) as (rr & st & H & _ & Hst & Hle); [lia|lia|lia|].
  exists rr, st. split; [exact H|split; [exact Hst|exact Hle]].
Defined.

(** with batches of one record the count of round-robin is zero, however many are sent: a remainder
    by one is never one *)
Theorem single_record_batches_uncounted records partitions :
  1 <= partitions → count_batches_roundrobin records partitions 1 = Ok 0.
Proof.
  intros Hp. unfold count_batches_roundrobin, RoundRobinPartitioner.make. rewrite (proj2 (Z.ltb_ge partitions 1)) by lia.
  cbn [mbind result_bind].
  assert (∀ n next per, 0 <= next < partitions → zlen per = partitions →
    count_rounds n 1 (RoundRobinPartitioner.mk partitions next, per, 0) = Ok 0) as H.
  { induction n as [|n IH]; intros next per Hn Hper; [done|]. cbn [count_rounds].
    unfold RoundRobinPartitioner.assign. act_simpl. unfold py_mod at 1. rewrite (proj2 (Z.eqb_neq _ 0)) by lia. act_simpl.
    destruct (lookup_lt_is_Some_2 per (Z.to_nat next)) as [x Hx]; [unfold zlen in Hper; lia|].
    rewrite (py_index_nonneg _ _ _ (proj1 Hn) Hx). cbn [mbind result_bind].
    unfold py_setitem. rewrite (py_pos_nonneg _ _ _ (proj1 Hn) Hx). cbn [mbind result_bind].
    unfold py_mod. cbn [Z.eqb mbind result_bind]. rewrite Z.mod_1_r. cbn [Z.eqb].
    apply IH; [apply Z.mod_pos_bound; lia|]. unfold zlen. by rewrite length_insert. }
  apply H; [lia|]. unfold zlen. rewrite length_replicate. lia.
Qed.

Lemma single_record_batches_uncounted_witness : count_batches_roundrobin 12 3 1 = Ok 0.
Proof. exact (single_record_batches_uncounted 12 3 ltac:(lia)). Defined.

(** ** Batches put end to end *)

Section tiling.
Import batchvalidate.

(** the header of a batch that passed validation *)
Definition header (ts : Z) (b : Batch) : BatchHeader.t := BatchHeader.mk (base_offset b) (last_offset_delta b) ts (record_count b).

(** the offsets a header gives its records *)
Definition offsets_of (h : BatchHeader.t) : list Z :=
  omap (λ d, match BatchHeader.offset_of h d with Ok o => Some o | Err _ => None end) (seqZ 0 (BatchHeader.record_count h)).

Definition chained (hs : list BatchHeader.t) : Prop :=
  ∀ i h h', hs !! i = Some h → hs !! S i = Some h' → BatchHeader.follows h' h = true.

Lemma omap_fmap_some {A B} (f : A → option B) (g : A → B) (l : list A) : (∀ x, x ∈ l → f x = Some (g x)) → omap f l = g <$> l.
Proof.
  induction l as [|x l IH]; intros H; [done|]. cbn. rewrite (H x) by left. f_equal. apply IH. intros; apply H. by right.
Qed.

Lemma offsets_of_valid ts b : validate_batch b = Ok () →
  1 <= record_count b ∧ BatchHeader.next_base_offset (header ts b) = base_offset b + record_count b ∧
  offsets_of (header ts b) = seqZ (base_offset b) (record_count b).
Proof.
  unfold validate_batch. intros H. repeat (bool_split_in H; [done|]). bool_prop.
  unfold BatchHeader.next_base_offset, BatchHeader.last_offset. cbn. split; [lia|]. split; [lia|].
  unfold offsets_of. rewrite (omap_fmap_some _ (Z.add (base_offset b))).
  - cbn. rewrite fmap_add_seqZ. f_equal. lia.
  - intros d Hd%elem_of_seqZ. cbn in Hd. unfold BatchHeader.offset_of. cbn.
    rewrite (proj2 (Z.leb_le 0 d)), (proj2 (Z.leb_le d _)) by lia. done.
Qed.
End tiling.

(** Also (invariant): validated batches that follow one another leave no offset out and give none twice.
    For any batches that pass validation and whose headers each follow the one before, the offsets
    their records get, read in order, are the consecutive offsets from the first base, as many as
    the records counted, and the next batch can only follow at the offset after them. *)
Theorem batches_tile_offsets ts b bs :
  (∀ x, x ∈ b :: bs → batchvalidate.validate_batch x = Ok ()) →
  chained (header ts <$> b :: bs) →
  mjoin (offsets_of <$> (header ts <$> b :: bs)) =
    seqZ (batchvalidate.base_offset b) (zsum batchvalidate.record_count (b :: bs)) ∧
  ∀ h, chained ((header ts <$> b :: bs) ++ [h]) →
    BatchHeader.base_offset h = batchvalidate.base_offset b + zsum batchvalidate.record_count (b :: bs).
Proof.
  revert b. induction bs as [|b' bs IH]; intros b Hvalid Hch.
  - destruct (offsets_of_valid ts b (Hvalid b ltac:(left))) as (Hpos & Hnext & Hoff). split.
    + cbn. by rewrite Hoff, app_nil_r, Z.add_0_r.
    + intros h Hh. specialize (Hh 0%nat _ h eq_refl eq_refl). unfold BatchHeader.follows in Hh. bool_prop.
      rewrite Hh, Hnext. cbn. lia.
  - destruct (offsets_of_valid ts b (Hvalid b ltac:(left))) as (Hpos & Hnext & Hoff).
    assert (chained (header ts <$> b' :: bs)) as Hch' by (intros i h h' H1 H2; by apply (Hch (S i))).
    assert (∀ x, x ∈ b' :: bs → batchvalidate.validate_batch x = Ok ()) as Hvalid' by (intros; apply Hvalid; by right).
    destruct (IH b' Hvalid' Hch') as [Hjoin Hlast].
    assert (batchvalidate.base_offset b' = batchvalidate.base_offset b + batchvalidate.record_count b) as Hbase.
    { specialize (Hch 0%nat _ _ eq_refl eq_refl). unfold BatchHeader.follows in Hch. bool_prop. rewrite Hnext in Hch. exact Hch. }
    assert (0 <= zsum batchvalidate.record_count (b' :: bs)) as Hrest.
    { apply zsum_nonneg. intros x Hx. destruct (offsets_of_valid ts x (Hvalid' x Hx)) as (? & _). lia. }
    change (zsum batchvalidate.record_count (b :: b' :: bs)) with (batchvalidate.record_count b + zsum batchvalidate.record_count (b' :: bs)).
    split.
    + change (mjoin (offsets_of <$> (header ts <$> b :: b' :: bs))) with (offsets_of (header ts b) ++ mjoin (offsets_of <$> (header ts <$> b' :: bs))).
      rewrite Hjoin, Hoff, seqZ_app, Hbase by lia. done.
    + intros h Hh. rewrite (Hlast h), Hbase; [lia|]. intros i x y H1 H2. by apply (Hh (S i)).
Qed.

Lemma batches_tile_offsets_witness :
  let b o n := batchvalidate.mk_batch 2 7 7 o (n - 1) n in
  mjoin (offsets_of <$> (header 0 <$> [b 10 3; b 13 2])) = [10; 11; 12; 13; 14].
Proof.
  intros b. refine (eq_trans (proj1 (batches_tile_offsets 0 (b 10 3) [b 13 2] _ _)) _).
  - intros x [->|[->|[]%elem_of_nil]%elem_of_cons]%elem_of_cons; reflexivity.
  - intros [|[|i]] h h' H1 H2; try discriminate. injection H1 as <-. injection H2 as <-. reflexivity.
  - vm_compute. reflexivity.
Defined.

(** ** Headers *)

Section header_store.
Inductive header_op := Add (name : string) (value : bytes) | AddReserved (name : string) (value : bytes).

(** what was accepted, in order, and whether a producer set it *)
Definition header_step (o : header_op) (w : Headers.t * list (bool * (string * bytes))) : Headers.t * list (bool * (string * bytes)) :=
  match o with
  | Add name value =>
      let r := Headers.add name value w.1 in
      (r.1, w.2 ++ match r.2 with Ok _ => [(true, (name, value))] | Err _ => [] end)
  | AddReserved name value =>
      let r := Headers.add_reserved name value w.1 in
      (r.1, w.2 ++ match r.2 with Ok _ => [(false, (name, value))] | Err _ => [] end)
  end.

Definition header_size (p : string * bytes) : Z := slen p.1 + zlen p.2.

Definition headers_ok (w : Headers.t * list (bool * (string * bytes))) : Prop :=
  Headers.entries w.1 = w.2.*2 ∧
  (∀ b p, (b, p) ∈ w.2 → startswith RESERVED_PREFIX p.1 = negb b) ∧
  zsum (λ x : bool * (string * bytes), if x.1 : bool then header_size x.2 else 0) w.2 <= MAX_HEADER_BYTES.

Lemma header_size_nonneg p : 0 <= header_size p.
Proof. unfold header_size, slen. pose proof (zlen_nonneg p.2). lia. Qed.

Lemma headers_ok_step o w : headers_ok w → headers_ok (header_step o w).
Proof.
  destruct w as [s l]. intros (He & Hres & Hsum). cbn [fst snd] in *.
  assert (zsum (λ x : bool * (string * bytes), if x.1 : bool then header_size x.2 else 0) l <= Headers.total_bytes s) as Htot.
  { unfold Headers.total_bytes. rewrite He. clear. induction l as [|[b p] l IH]; [done|]. cbn.
    pose proof (header_size_nonneg p). unfold header_size in *. destruct b; cbn in *; unfold zsum in IH; lia. }
  destruct o as [name value|name value]; cbn [header_step fst snd].
  - unfold Headers.add. act_simpl.
    destruct (blank name) eqn:Hb; act_simpl; [by rewrite app_nil_r|].
    destruct (startswith RESERVED_PREFIX name) eqn:Hp; act_simpl; [by rewrite app_nil_r|].
    bool_split; act_simpl; [by rewrite app_nil_r|]. bool_prop. split_and!; cbn [fst snd].
    + by rewrite fmap_app, He.
    + intros b p [Hin|Hin%list_elem_of_singleton]%elem_of_app; [by apply Hres|]. by injection Hin as -> ->.
    + rewrite zsum_app. cbn. unfold header_size at 2. cbn. lia.
  - unfold Headers.add_reserved. act_simpl. destruct (startswith RESERVED_PREFIX name) eqn:Hp; act_simpl; [|by rewrite app_nil_r].
    split_and!; cbn [fst snd].
    + by rewrite fmap_app, He.
    + intros b p [Hin|Hin%list_elem_of_singleton]%elem_of_app; [by apply Hres|]. by injection Hin as -> ->.
    + rewrite zsum_app. cbn. lia.
Qed.
End header_store.

(** Also (safety): headers keep order and repetition, and a producer cannot forge the broker's.  Whatever
    headers are added: the store holds exactly those accepted, in order, and answers for a name
    every value it was given, in order; every header in the reserved name space was set by the
    broker and every other by a producer; and what producers set stays within the size cap. *)
Theorem headers_unforged ops name :
  let w := run header_step ops (Headers.make, []) in
  Headers.entries w.1 = w.2.*2 ∧
  Headers.get_all w.1 name = (filter (λ p : string * bytes, p.1 = name) w.2.*2).*2 ∧
  (∀ b p, (b, p) ∈ w.2 → startswith RESERVED_PREFIX p.1 = negb b) ∧
  zsum (λ x : bool * (string * bytes), if x.1 : bool then header_size x.2 else 0) w.2 <= MAX_HEADER_BYTES.
Proof.
  intros w. assert (headers_ok w) as (He & Hres & Hsum).
  { apply run_invariant; [apply headers_ok_step|]. split_and!; cbn; [done|by intros ? ? ?%elem_of_nil|unfold MAX_HEADER_BYTES; lia]. }
  split_and!; [done| |done|done]. unfold Headers.get_all. by rewrite He.
Qed.

(** ** Interceptors do what they declare *)

Section chain.
Implicit Types (c : InterceptorChain.t).

(** the chain without its observers *)
Definition acting (l : list Interceptor) : list Interceptor :=
  List.filter (λ i, match kind i with OBSERVE => false | _ => true end) l.

Lemma run_from_spec chain record c :
  let '(c', r) := InterceptorChain.run_from chain record c in
  InterceptorChain.interceptors c' = InterceptorChain.interceptors c ∧
  InterceptorChain.dropped c' = InterceptorChain.dropped c + (if decide (r = Ok None) then 1 else 0) ∧
  (is_ok r = true → InterceptorChain.run_from (acting chain) record c = (c', r)) ∧
  (is_ok r = false → r = Err Invalid) ∧
  (r = Ok None → ∃ i, i ∈ chain ∧ kind i = FILTER).
Proof.
  revert record c. induction chain as [|i chain IH]; intros record c.
  { cbn. rewrite decide_False by done. split_and!; try done; lia. }
  cbn [InterceptorChain.run_from acting List.filter].
  destruct (fn i record) as [out|e] eqn:Hfn.
  2: { unfold raise. rewrite decide_False by done. split_and!; try done; lia. }
  assert (∀ record', let '(c', r) := InterceptorChain.run_from chain record' c in
    (r = Ok None → ∃ i0, i0 ∈ i :: chain ∧ kind i0 = FILTER)) as Hsome.
  { intros record'. specialize (IH record' c). destruct (InterceptorChain.run_from chain record' c) as [c' r].
    destruct IH as (_ & _ & _ & _ & H). intros Hr. destruct (H Hr) as (j & Hj & Hk). exists j. split; [by right|done]. }
  destruct (kind i) eqn:Hk; cbn [InterceptorChain.run_from]; rewrite ?Hfn, ?Hk.
  - destruct out as [r|]; [|unfold raise; rewrite decide_False by done; split_and!; try done; lia].
    specialize (IH r c). specialize (Hsome r). destruct (InterceptorChain.run_from chain r c) as [c' q].
    destruct IH as (H1 & H2 & H3 & H4 & _). split_and!; done.
  - destruct out as [r|].
    + specialize (IH r c). specialize (Hsome r). destruct (InterceptorChain.run_from chain r c) as [c' q].
      destruct IH as (H1 & H2 & H3 & H4 & _). split_and!; done.
    + act_simpl. split_and!; try done. intros _. exists i. split; [left|done].
  - act_simpl. set (b := match out with Some r => _ | None => false end). destruct b.
    { rewrite decide_False by done. split_and!; try done; lia. }
    specialize (IH record c). specialize (Hsome record). destruct (InterceptorChain.run_from chain record c) as [c' q].
    destruct IH as (H1 & H2 & H3 & H4 & _). split_and!; done.
Qed.
End chain.

(** Also (safety): a chain of interceptors does to a record only what its members declare.  When a run
    gives an answer it is the answer of the chain without its observers; a record disappears only
    where a filter is declared, and each one that does is counted, once; an observer that changes
    the record, a transform that drops it or any exception fails the record and counts nothing. *)
Theorem interceptors_keep_kind c record :
  let '(c', r) := InterceptorChain.run record c in
  let observed_out := InterceptorChain.run record (InterceptorChain.mk (acting (InterceptorChain.interceptors c)) (InterceptorChain.dropped c)) in
  (is_ok r = true → observed_out.2 = r) ∧
  (r = Ok None → ∃ i, i ∈ InterceptorChain.interceptors c ∧ kind i = FILTER) ∧
  InterceptorChain.dropped c' = InterceptorChain.dropped c + (if decide (r = Ok None) then 1 else 0) ∧
  (is_ok r = false → r = Err Invalid ∧ c' = c).
Proof.
  unfold InterceptorChain.run. rewrite !bind_get. cbn [InterceptorChain.interceptors].
  pose proof (run_from_spec (InterceptorChain.interceptors c) record c) as H.
  destruct (InterceptorChain.run_from (InterceptorChain.interceptors c) record c) as [c' r].
  destruct H as (H1 & H2 & H3 & H4 & H5). split_and!; [|done|done|].
  - intros Hok. specialize (H3 Hok). clear H1 H2 H4 H5.
    assert (∀ chain record c c2, (InterceptorChain.run_from chain record c).2 = (InterceptorChain.run_from chain record c2).2) as Hstate.
    { clear. induction chain as [|i chain IH]; intros record c c2; [done|]. cbn [InterceptorChain.run_from].
      destruct (fn i record) as [out|e]; [|done]. destruct (kind i).
      - destruct out; [apply IH|done].
      - destruct out; [apply IH|done].
      - act_simpl. destruct (match out with Some _ => _ | None => _ end); [done|apply IH]. }
    rewrite (Hstate _ _ _ c), H3. done.
  - intros Hno. split; [by apply H4|]. rewrite decide_False in H2 by (intros ->; done). rewrite Z.add_0_r in H2.
    destruct c, c'; cbn in *; congruence.
Qed.

(** ** The buffer, and the time a send may wait *)

Section buffer.
Inductive buffer_op := Append (size free_in : nat) | Free (bytes_sent : nat).

Definition buffer_step (o : buffer_op) (s : ProducerBuffer.t) : ProducerBuffer.t :=
  match o with
  | Append size free_in => state_of (ProducerBuffer.append (Z.of_nat size) (Z.of_nat free_in)) s
  | Free n => state_of (ProducerBuffer.free (Z.of_nat n)) s
  end.

Lemma buffer_append_run size free_in s :
  ProducerBuffer.append size free_in s =
  let mk' used blocked failed := ProducerBuffer.mk (ProducerBuffer.capacity_bytes s) (ProducerBuffer.on_full s) (ProducerBuffer.block_timeout s) used blocked failed in
  if ProducerBuffer.used_bytes s + size <=? ProducerBuffer.capacity_bytes s
  then (mk' (ProducerBuffer.used_bytes s + size) (ProducerBuffer.ticks_blocked s) (ProducerBuffer.failed_sends s), Ok ProducerBuffer.Buffered)
  else match ProducerBuffer.on_full s with
       | FAIL => (mk' (ProducerBuffer.used_bytes s) (ProducerBuffer.ticks_blocked s) (ProducerBuffer.failed_sends s + 1), Ok ProducerBuffer.SendFailed)
       | BLOCK => if ProducerBuffer.block_timeout s <? free_in
                  then (mk' (ProducerBuffer.used_bytes s) (ProducerBuffer.ticks_blocked s + ProducerBuffer.block_timeout s) (ProducerBuffer.failed_sends s + 1), Ok ProducerBuffer.BlockedTooLong)
                  else (mk' (ProducerBuffer.used_bytes s + size) (ProducerBuffer.ticks_blocked s + free_in) (ProducerBuffer.failed_sends s), Ok ProducerBuffer.BlockedThenBuffered)
       end.
Proof. unfold ProducerBuffer.append. act_simpl. bool_split; act_simpl; [done|]. destruct (ProducerBuffer.on_full s); [bool_split|]; done. Qed.
End buffer.

(** a producer that would rather fail than wait never holds more than its capacity, and a send is
    lost exactly when it is reported as failed; with either policy no send waits past the time-out *)
Theorem fail_policy_bounded capacity timeout s0 ops (size free_in : nat) :
  ProducerBuffer.make capacity (Some FAIL) timeout = Ok s0 →
  let s := run buffer_step ops s0 in
  let '(s', r) := ProducerBuffer.append (Z.of_nat size) (Z.of_nat free_in) s in
  0 <= ProducerBuffer.used_bytes s <= capacity ∧ ProducerBuffer.ticks_blocked s = 0 ∧
  match r with
  | Ok ProducerBuffer.Buffered => ProducerBuffer.used_bytes s' = ProducerBuffer.used_bytes s + Z.of_nat size
  | Ok ProducerBuffer.SendFailed => ProducerBuffer.used_bytes s' = ProducerBuffer.used_bytes s ∧
      ProducerBuffer.failed_sends s' = ProducerBuffer.failed_sends s + 1 ∧ capacity < ProducerBuffer.used_bytes s + Z.of_nat size
  | _ => False
  end.
Proof.
  intros Hmake s. unfold ProducerBuffer.make in Hmake. bool_split_in Hmake; [done|]. injection Hmake as <-. bool_prop.
  assert (ProducerBuffer.capacity_bytes s = capacity ∧ ProducerBuffer.on_full s = FAIL ∧ ProducerBuffer.ticks_blocked s = 0 ∧
    0 <= ProducerBuffer.used_bytes s <= capacity) as (Hc & Hf & Ht & Hu).
  { apply (run_invariant _ (λ s, ProducerBuffer.capacity_bytes s = capacity ∧ ProducerBuffer.on_full s = FAIL ∧
      ProducerBuffer.ticks_blocked s = 0 ∧ 0 <= ProducerBuffer.used_bytes s <= capacity)); [|cbn; split_and!; done || lia].
    intros [sz fr|n] x (H1 & H2 & H3 & H4); cbn [buffer_step]; unfold state_of.
    - rewrite buffer_append_run, H2. cbn zeta. bool_split; bool_prop; cbn; split_and!; try done; lia.
    - unfold ProducerBuffer.free. act_simpl. split_and!; try done; lia. }
  rewrite buffer_append_run, Hf, Hc. cbn zeta. bool_split; bool_prop; cbn; split_and!; try done; lia.
Qed.

Lemma fail_policy_bounded_witness :
  ProducerBuffer.used_bytes (run buffer_step [Append 60 0; Append 60 0; Free 10] (ProducerBuffer.mk 100 FAIL 5 0 0 0)) <= 100.
Proof.
  exact (proj2 (proj1 (fail_policy_bounded 100 5 (ProducerBuffer.mk 100 FAIL 5 0 0 0) [Append 60 0; Append 60 0; Free 10] 0 0 eq_refl))).
Defined.

(** a producer that waits is not bounded by its capacity: a send that waited is buffered without
    another look at the room, so one record larger than the whole buffer is taken, and the bytes
    held grow with every send *)
Theorem block_policy_unbounded n :
  let s := Nat.iter n (λ s, state_of (ProducerBuffer.append 150 1) s) (ProducerBuffer.mk 100 BLOCK 5 0 0 0) in
  ProducerBuffer.used_bytes s = 150 * Z.of_nat n ∧ value_of (ProducerBuffer.append 150 1) s = Ok ProducerBuffer.BlockedThenBuffered.
Proof.
  intros s. assert (s = ProducerBuffer.mk 100 BLOCK 5 (150 * Z.of_nat n) (Z.of_nat n) 0) as ->.
  { unfold s. clear s. induction n as [|n IH]; [done|]. cbn [Nat.iter nat_rect]. unfold Nat.iter in IH. rewrite IH.
    unfold state_of. rewrite buffer_append_run. cbn -[Z.mul Z.of_nat Z.add]. rewrite (proj2 (Z.leb_gt _ _)) by lia. cbn [fst]. f_equal; lia. }
  split; [done|]. unfold value_of. rewrite buffer_append_run. cbn -[Z.mul Z.of_nat Z.add]. by rewrite (proj2 (Z.leb_gt _ _)) by lia.
Qed.

(** the budget of one send is shared by its waits: it goes on exactly while their sum is within it *)
Theorem block_budget_shared budget s0 (waits : list (nat + nat)) :
  BlockBudget.make budget = Ok s0 →
  let s := run (λ w s, match w with inl n => state_of (BlockBudget.wait_metadata (Z.of_nat n)) s
                                  | inr n => state_of (BlockBudget.wait_buffer (Z.of_nat n)) s end) waits s0 in
  let total := zsum (λ w : nat + nat, match w with inl n => Z.of_nat n | inr n => Z.of_nat n end) waits in
  BlockBudget.spent s = total ∧
  (BlockBudget.can_proceed s = true ↔ total <= budget) ∧
  (BlockBudget.can_proceed s = true → BlockBudget.resolve s = BlockBudget.Proceeds (budget - total)).
Proof.
  intros Hmake s total. unfold BlockBudget.make in Hmake. bool_split_in Hmake; [done|]. injection Hmake as <-. bool_prop.
  assert (BlockBudget.spent s = total ∧ BlockBudget.budget s = budget) as [Hs Hb].
  { unfold s, total. clear s total. induction waits as [|[n|n] waits IH] using rev_ind; [done|..];
      rewrite run_app, zsum_app; cbn; unfold BlockBudget.spent, run in *; cbn in *; lia. }
  unfold BlockBudget.resolve, BlockBudget.can_proceed, BlockBudget.remaining. rewrite Hs, Hb.
  split; [done|]. split; [apply Z.leb_le|]. intros H. rewrite H. bool_prop. f_equal. lia.
Qed.

Lemma block_budget_shared_witness :
  let s := run (λ w s, match w with inl n => state_of (BlockBudget.wait_metadata (Z.of_nat n)) s
                                  | inr n => state_of (BlockBudget.wait_buffer (Z.of_nat n)) s end) [inl 30%nat; inr 20%nat] (BlockBudget.mk 60 0 0) in
  BlockBudget.spent s = 50.
Proof. exact (proj1 (block_budget_shared 60 (BlockBudget.mk 60 0 0) [inl 30%nat; inr 20%nat] eq_refl)). Defined.

(** ** Closing *)

(** once closing begins nothing more is accepted, and every record sent before is counted, as flushed
    or as failed; a second close is refused *)
Theorem producer_close_counts (records : list string) (acked : nat) late :
  let s := run (λ r s, state_of (Producer.send r) s) records Producer.make in
  let '(s', r) := Producer.close (Z.of_nat acked) s in
  Producer.pending s = records ∧
  (∃ flushed failed, r = Ok (flushed, failed) ∧ flushed + failed = zlen records ∧ flushed <= Z.of_nat acked ∧ 0 <= failed) ∧
  Producer.send late s' = (s', Err Invalid) ∧ Producer.close (Z.of_nat acked) s' = (s', Err Invalid).
Proof.
  intros s. assert (s = Producer.mk records false false) as ->.
  { unfold s. induction records as [|r records IH] using rev_ind; [done|]. rewrite run_app, IH. done. }
  unfold Producer.close, Producer.send, Producer.slice_from. act_simpl. split; [done|]. split; [|done].
  pose proof (zlen_nonneg records). eexists _, _. split; [reflexivity|].
  rewrite (proj2 (Z.ltb_ge _ 0)) by lia. unfold zlen in *. rewrite length_drop. lia.
Qed.

(** ** Keys, errors and guarantees *)

(** a key has one home: the same as [topics._key_slot] gives it, within range, whatever the turn of
    the unkeyed records is; records without a key take that turn *)
Theorem keyed_home_stable key partitions turn turn' :
  1 <= partitions →
  partition_for_key (Some key) partitions turn = topics._key_slot key partitions ∧
  partition_for_key (Some key) partitions turn = partition_for_key (Some key) partitions turn' ∧
  (∃ slot, partition_for_key (Some key) partitions turn = Ok slot ∧ 0 <= slot < partitions) ∧
  partition_for_key None partitions turn = Ok (turn mod partitions) ∧
  keys_land_together (Some key) (Some key) partitions = Ok true ∧
  keys_land_together None (Some key) partitions = Ok false.
Proof.
  intros Hp. unfold keys_land_together, partition_for_key, topics._key_slot. rewrite (proj2 (Z.ltb_ge partitions 1)) by lia.
  unfold py_mod. rewrite (proj2 (Z.eqb_neq partitions 0)) by lia. cbn [mbind result_bind]. rewrite Z.eqb_refl.
  split_and!; try done. eexists. split; [reflexivity|]. apply Z.mod_pos_bound. lia.
Qed.

Lemma keyed_home_stable_witness :
  partition_for_key (Some (encode "user-7")) 12 0 = topics._key_slot (encode "user-7") 12.
Proof. exact (proj1 (keyed_home_stable (encode "user-7") 12 0 0 ltac:(lia))). Defined.

(** a stored batch with one byte changed is not served, and is not taken as a repair *)
Theorem read_verify_catches data1 data2 b b' s (Hb : b ≠ b') :
  let stored := Codec.crc32c.crc32c (data1 ++ b :: data2) in
  value_of (ReadVerifier.serve (data1 ++ b :: data2) stored) s = Ok () ∧
  value_of (ReadVerifier.serve (data1 ++ b' :: data2) stored) s = Err Invalid ∧
  ReadVerifier.verify_failures (state_of (ReadVerifier.serve (data1 ++ b' :: data2) stored) s) = ReadVerifier.verify_failures s + 1 ∧
  ReadVerifier.repair_from (data1 ++ b' :: data2) stored = Err Invalid ∧
  ReadVerifier.repair_from (data1 ++ b :: data2) stored = Ok (data1 ++ b :: data2).
Proof.
  intros stored. pose proof (crc32c_one_byte data1 data2 b b' Hb) as Hne. apply Z.eqb_neq in Hne. fold stored in Hne.
  assert (Codec.crc32c.crc32c (data1 ++ b :: data2) =? stored = true) as He by apply Z.eqb_refl.
  unfold value_of, state_of, ReadVerifier.serve, ReadVerifier.repair_from. autorewrite with act.
  rewrite Hne, He. cbn [negb]. done.
Qed.

Lemma read_verify_catches_witness :
  ReadVerifier.repair_from [x31; x00] (Codec.crc32c.crc32c [x31; x32]) = Err Invalid.
Proof. exact (proj1 (proj2 (proj2 (proj2 (read_verify_catches [x31] [] x32 x00 ReadVerifier.make ltac:(discriminate)))))). Defined.

(** the verdict on an error never asks for the retry that could duplicate a write: an error is retried
    only when it is transient, or ambiguous with idempotence on; every other known error is final *)
Theorem retry_never_duplicates error idempotent :
  should_retry error idempotent =
  if bool_decide (error ∈ RETRIABLE ++ FATAL ++ AMBIGUOUS)
  then Ok (bool_decide (error ∈ RETRIABLE) || (bool_decide (error ∈ AMBIGUOUS) && idempotent))
  else Err Invalid.
Proof.
  unfold should_retry, classify. rewrite (bool_decide_ext (error ∈ RETRIABLE ++ FATAL ++ AMBIGUOUS) (error ∈ RETRIABLE ∨ error ∈ FATAL ∨ error ∈ AMBIGUOUS)) by (rewrite !elem_of_app; done).
  destruct (decide (error ∈ RETRIABLE)) as [H1|H1].
  { rewrite (bool_decide_eq_true_2 (error ∈ RETRIABLE)), bool_decide_eq_true_2 by auto. done. }
  rewrite (bool_decide_eq_false_2 (error ∈ RETRIABLE)) by done.
  destruct (decide (error ∈ FATAL)) as [H2|H2].
  { rewrite (bool_decide_eq_true_2 (error ∈ FATAL)), bool_decide_eq_true_2 by auto.
    rewrite (bool_decide_eq_false_2 (error ∈ AMBIGUOUS)); [done|]. intros H3%list_elem_of_singleton. subst error.
    apply (bool_decide_eq_true_2 _) in H2. vm_compute in H2. discriminate. }
  rewrite (bool_decide_eq_false_2 (error ∈ FATAL)) by done.
  destruct (decide (error ∈ AMBIGUOUS)) as [H3|H3].
  - rewrite (bool_decide_eq_true_2 (error ∈ AMBIGUOUS)), bool_decide_eq_true_2 by auto. by destruct idempotent.
  - rewrite (bool_decide_eq_false_2 (error ∈ AMBIGUOUS)), bool_decide_eq_false_2 by naive_solver. done.
Qed.

(** the two checks of a pipeline agree, a pipeline they accept never reorders, and the strongest
    guarantee needs every link *)
Theorem ordering_checks_agree n idem needs failed p c :
  inflight.make n idem = Ok p → inflightorder.make n idem needs = Ok c →
  (is_ok (inflight.check_ordering p) = inflight.ordering_safe p) ∧
  (needs = true → is_ok (inflightorder.validate_ordering c) = inflight.ordering_safe p) ∧
  (inflight.ordering_safe p = true → inflightorder.would_reorder c failed = false ∧ is_ok (inflight.throughput_class p) = true).
Proof.
  unfold inflight.make, inflightorder.make. intros Hp Hc. bool_split_in Hp; [done|]. injection Hp as <-. injection Hc as <-.
  unfold inflight.check_ordering, inflight.ordering_safe, inflight.throughput_class, inflight.ordering_safe, inflightorder.validate_ordering, inflightorder.would_reorder. cbn.
  destruct (n =? 1), idem, needs; done.
Qed.

Lemma ordering_checks_agree_witness : is_ok (inflight.check_ordering (inflight.mk_pipeline 5 false)) = false.
Proof. exact (proj1 (ordering_checks_agree 5 false true true (inflight.mk_pipeline 5 false) (inflightorder.mk_config 5 false true) eq_refl eq_refl)). Defined.

(** the tiers a failing record goes through end in the dead-letter topic, each with its own delay *)
Theorem retry_tiers_end delays self (attempt : nat) :
  RetryRouter.make delays = Ok self →
  if (attempt <? length delays)%nat
  then RetryRouter.route_on_failure self (Z.of_nat attempt) = Ok (RetryRouter.Tier (Z.of_nat attempt)) ∧
       ∃ d, RetryRouter.delay_for self (Z.of_nat attempt) = Ok d ∧ delays !! attempt = Some d ∧ 0 <= d
  else RetryRouter.route_on_failure self (Z.of_nat attempt) = Ok RetryRouter.DeadLetter ∧
       RetryRouter.delay_for self (Z.of_nat attempt) = Err Invalid.
Proof.
  intros Hmake. unfold RetryRouter.make in Hmake. destruct delays as [|d0 l] eqn:Hd; [done|]. rewrite <- Hd in *. clear Hd.
  destruct (existsb _ delays) eqn:Hneg; [done|]. injection Hmake as <-.
  unfold RetryRouter.route_on_failure, RetryRouter.delay_for. cbn [RetryRouter.tier_delays].
  rewrite (proj2 (Z.ltb_ge _ 0)) by lia. cbn [orb]. unfold zlen. destruct (Nat.ltb_spec attempt (length delays)) as [Hlt|Hge].
  - rewrite (proj2 (Z.leb_gt _ _)) by lia. split; [done|]. destruct (lookup_lt_is_Some_2 delays attempt Hlt) as [d Hd].
    exists d. rewrite (py_index_nonneg _ _ d) by (rewrite ?Nat2Z.id; done || lia). split_and!; [done..|].
    apply Z.nlt_ge. intros Hlt'. enough (existsb (λ d, d <? 0) delays = true) by congruence.
    apply existsb_exists. exists d. split; [by apply list_elem_of_In, list_elem_of_lookup_2 with attempt|by apply Z.ltb_lt].
  - by rewrite (proj2 (Z.leb_le _ _)) by lia.
Qed.

Lemma retry_tiers_end_witness : RetryRouter.route_on_failure (RetryRouter.mk [5; 60]) 2 = Ok RetryRouter.DeadLetter.
Proof. exact (proj1 (retry_tiers_end [5; 60] (RetryRouter.mk [5; 60]) 2 eq_refl)). Defined.

(** the gate that refuses a record is the first one it does not fit, and the limit of the topic replaces
    the broker's *)
Theorem size_gate_first limits size :
  (validate_record limits size = Fits ↔
     size <= producer_batch_max limits ∧ size <= request_max limits ∧
     size <= match topic_override limits with Some m => m | None => broker_message_max limits end) ∧
  (producer_batch_max limits < size → validate_record limits size = ProducerBatch).
Proof.
  unfold validate_record, effective_message_max. split.
  - repeat (bool_split; bool_prop); destruct (topic_override limits); cbn in *; split; intros; try done; lia.
  - intros H. by rewrite (proj2 (Z.ltb_lt _ _)).
Qed.

(** a batch is never stored larger than it is, and never below what compression gave: the stored
    total is the sum over batches of the smaller form *)
Theorem compression_never_grows (ops : list (Batch.t * nat)) name :
  let s := run (λ o s, state_of (CompressionLedger.store o.1 (Z.of_nat o.2)) s) ops (CompressionLedger.make name) in
  CompressionLedger.total_stored s = zsum (λ o : Batch.t * nat, Z.min (Z.of_nat o.2) (Batch.batched_bytes o.1)) ops ∧
  CompressionLedger.total_raw s = zsum (λ o : Batch.t * nat, Batch.batched_bytes o.1) ops ∧
  CompressionLedger.stored_compressed s + CompressionLedger.stored_raw_negative s = CompressionLedger.batches_stored s.
Proof.
  induction ops as [|[b n] ops IH] using rev_ind; [done|]. cbn zeta in *. rewrite run_app, !zsum_app. cbn [run foldl fst snd].
  destruct IH as (H1 & H2 & H3). set (s := run _ ops _) in *. clearbody s.
  unfold state_of, CompressionLedger.store. act_simpl. rewrite (proj2 (Z.ltb_ge _ 0)) by lia. act_simpl.
  bool_split; act_simpl; bool_prop; cbn; lia.
Qed.

(** a record that cannot be read blocks the partition, is passed over or is set aside, as the policy
    says: the committed offset never passes it under [STOP], and what is set aside is every such
    record, in order *)
Theorem poison_handled policy offsets s0 :
  PoisonHandler.make (Some policy) = Ok s0 →
  let s := run (λ o s, state_of (PoisonHandler.on_poison o) s) offsets s0 in
  PoisonHandler.hits s = zlen offsets ∧
  PoisonHandler.diverted s = (match policy with DIVERT => offsets | _ => [] end) ∧
  PoisonHandler.committed s = match policy with STOP => 0 | _ => match last offsets with Some o => o + 1 | None => 0 end end.
Proof.
  intros [= <-]. cbn zeta.
  enough (run (λ o s, state_of (PoisonHandler.on_poison o) s) offsets (PoisonHandler.mk policy 0 [] 0) =
    PoisonHandler.mk policy (match policy with STOP => 0 | _ => match last offsets with Some o => o + 1 | None => 0 end end)
      (match policy with DIVERT => offsets | _ => [] end) (zlen offsets)) as -> by done.
  induction offsets as [|o offsets IH] using rev_ind; [by destruct policy|].
  rewrite run_app, IH. cbn [run foldl]. rewrite last_snoc, zlen_app. change (zlen [o]) with 1.
  unfold state_of, PoisonHandler.on_poison. act_simpl. by destruct policy; act_simpl.
Qed.

Lemma poison_handled_witness :
  PoisonHandler.diverted (run (λ o s, state_of (PoisonHandler.on_poison o) s) [4; 9] (PoisonHandler.mk DIVERT 0 [] 0)) = [4; 9].
Proof. exact (proj1 (proj2 (poison_handled DIVERT [4; 9] (PoisonHandler.mk DIVERT 0 [] 0) eq_refl))). Defined.
