(* ===== verification/Resilience.v ===== *)
(** * Rate limits, retries and overload

    The broker's protections against overload: token and leaky buckets, client,
    request and connection quotas, the circuit breaker, bulkheads, fair and
    bounded queues, credit flow control, in-order correlation, deadlines,
    monotonic stamps, retry budgets, hedging, backoff and moving averages.
    Rates and levels are floating-point numbers, as in the code ([PyFloat]). *)

From Stdlib Require Import Strings.Byte Strings.Ascii.
From S2P Require Import Prelude PyDict PyBytes PyFloat.

Module tokenbucket.
Module TokenBucket.
(** [relay/tokenbucket.py] class TokenBucket *)
Record t := mk { capacity : float; refill_per_tick : float; tokens : float; last_tick : Z; }.
Definition set_tokens (v : float) (self : t) : t := mk (capacity self) (refill_per_tick self) v (last_tick self).
Definition set_last_tick (v : Z) (self : t) : t := mk (capacity self) (refill_per_tick self) (tokens self) v.
(** [relay/tokenbucket.py] TokenBucket.__post_init__ *)
Definition __post_init__ : act t unit :=
  self ← get;
  raise_if ((f_le (capacity self) f0) || (f_le (refill_per_tick self) f0)) Invalid;;
  (if f_lt (tokens self) f0 then put (set_tokens (capacity self) self) else mret ()).
(** [relay/tokenbucket.py] TokenBucket.__post_init__ *)
Definition make (capacity : float) (refill_per_tick : float) : result t := construct __post_init__ (mk capacity refill_per_tick (f_neg (of_Z 1)) 0).
(** [relay/tokenbucket.py] TokenBucket._refill *)
Definition _refill (now : Z) : act t unit :=
  self ← get;
  raise_if (now <? last_tick self) Invalid;;
  let elapsed := now - (last_tick self) in
  put (set_tokens (f_min (capacity self) (f_add (tokens self) (f_mul (of_Z elapsed) (refill_per_tick self)))) self);;
  self ← get;
  put (set_last_tick now self).
(** [relay/tokenbucket.py] TokenBucket.take *)
Definition take (now : Z) (size_ : float) : act t string :=
  self ← get;
  raise_if (f_lt (capacity self) size_) Invalid;;
  _refill now;;
  self ← get;
  if f_le size_ (tokens self) then
    put (set_tokens (f_sub (tokens self) size_) self);;
    self ← get;
    mret ("served " +:+ f_repr size_ +:+ "; " +:+ fmt_fixed 1 (tokens self) +:+ " token(s) left")
  else
  let deficit := f_sub size_ (tokens self) in
  wait ← pure_of (f_div deficit (refill_per_tick self));
  mret ("throttled " +:+ f_repr size_ +:+ ": short " +:+ fmt_fixed 1 deficit
        +:+ " token(s), wait ~" +:+ fmt_fixed 1 wait
        +:+ " tick(s); the burst is spent and throughput now falls to the refill rate").
End TokenBucket.
End tokenbucket.
Import tokenbucket.

Module leakybucket.
Module LeakyBucket.
(** [relay/leakybucket.py] class LeakyBucket *)
Record t := mk {
  capacity : float;
  drain_per_tick : float;
  level : float;
  last_tick : Z;
  spilled : Z;
}.
Definition set_level (v : float) (self : t) : t := mk (capacity self) (drain_per_tick self) v (last_tick self) (spilled self).
Definition set_last_tick (v : Z) (self : t) : t := mk (capacity self) (drain_per_tick self) (level self) v (spilled self).
Definition set_spilled (v : Z) (self : t) : t := mk (capacity self) (drain_per_tick self) (level self) (last_tick self) v.
(** [relay/leakybucket.py] LeakyBucket.__post_init__ *)
Definition make (capacity : float) (drain_per_tick : float) : result t :=
  if (f_le capacity f0) || (f_le drain_per_tick f0) then Err Invalid else
  Ok (mk capacity drain_per_tick f0 0 0).
(** [relay/leakybucket.py] LeakyBucket._drain *)
Definition _drain (now : Z) : act t unit :=
  self ← get;
  raise_if (now <? last_tick self) Invalid;;
  let elapsed := now - (last_tick self) in
  put (set_level (f_max f0 (f_sub (level self) (f_mul (of_Z elapsed) (drain_per_tick self)))) self);;
  self ← get;
  put (set_last_tick now self).
(** [relay/leakybucket.py] LeakyBucket.offer *)
Definition offer (now : Z) (amount : float) : act t string :=
  _drain now;;
  self ← get;
  let room := f_sub (capacity self) (level self) in
  if f_le amount room then
    put (set_level (f_add (level self) amount) self);;
    self ← get;
    mret ("admitted " +:+ f_repr amount +:+ "; level " +:+ fmt_fixed 1 (level self) +:+ "/"
          +:+ f_repr (capacity self))
  else
  let overflow := f_sub amount room in
  put (set_level (capacity self) self);;
  self ← get;
  put (set_spilled (spilled self + 1) self);;
  mret ("spilled " +:+ fmt_fixed 1 overflow +:+ " of " +:+ f_repr amount
        +:+ "; the bucket is full and the source is producing faster than the drain sustains, slow the source rather than enlarge the bucket").
End LeakyBucket.
End leakybucket.
Import leakybucket.

Module quotas.
Module ClientQuota.
(** [relay/quotas.py] class ClientQuota *)
Record t := mk {
  client_id : string;
  bytes_per_tick : Z;
  window_ticks : Z;
  events : list (Z * Z);
  throttle_ticks_applied : Z;
}.
Definition set_events (v : list (Z * Z)) (self : t) : t := mk (client_id self) (bytes_per_tick self) (window_ticks self) v (throttle_ticks_applied self).
Definition set_throttle_ticks_applied (v : Z) (self : t) : t := mk (client_id self) (bytes_per_tick self) (window_ticks self) (events self) v.
(** [relay/quotas.py] ClientQuota.__post_init__ *)
Definition make (client_id : string) (bytes_per_tick : Z) (window_ticks : Z) : result t :=
  if (bytes_per_tick <? 1) || (window_ticks <? 1) then Err Invalid else
  Ok (mk client_id bytes_per_tick window_ticks [] 0).
(** [relay/quotas.py] ClientQuota._prune *)
Definition _prune (now : Z) : act t unit :=
  self ← get;
  let cutoff := now - (window_ticks self) in
  put (set_events (py_filter (λ '(tick, size_), cutoff <? tick) (events self)) self).
(** [relay/quotas.py] ClientQuota._windowed_bytes *)
Definition _windowed_bytes (self : t) : Z :=
  zsum (λ '(_, size_), size_) (events self).
(** [relay/quotas.py] ClientQuota.record *)
Definition record (now : Z) (size_ : Z) : act t string :=
  _prune now;;
  self ← get;
  put (set_events (events self ++ [(now, size_)]) self);;
  self ← get;
  let allowed := (bytes_per_tick self) * (window_ticks self) in
  let used := _windowed_bytes self in
  if used <=? allowed then
    mret ((client_id self) +:+ ": " +:+ zs used +:+ " of " +:+ zs allowed
          +:+ " bytes in window, no throttle")
  else
  let over := used - allowed in
  q ← pure_of (py_div (- over) (bytes_per_tick self));
  let delay := - q in
  put (set_throttle_ticks_applied (throttle_ticks_applied self + delay) self);;
  self ← get;
  mret ((client_id self) +:+ ": " +:+ zs over +:+ " bytes over, delayed " +:+ zs delay
        +:+ " tick(s) to restore the rate; connected and self-correcting, not disconnected").
(** [relay/quotas.py] ClientQuota.bill *)
Definition bill (self : t) : string :=
  (client_id self) +:+ ": " +:+ zs (throttle_ticks_applied self)
        +:+ " throttle tick(s) applied; a client told why can back off, a client that just sees latency retries harder".
End ClientQuota.
End quotas.
Import quotas.

Module quotaenforcer.
Module QuotaEnforcer.
(** [relay/quotaenforcer.py] class QuotaEnforcer *)
Record t := mk {
  quota_bytes_per_sec : float;
  window_seconds : float;
  _window_start : float;
  _bytes_in_window : Z;
}.
Definition set__window_start (v : float) (self : t) : t := mk (quota_bytes_per_sec self) (window_seconds self) v (_bytes_in_window self).
Definition set__bytes_in_window (v : Z) (self : t) : t := mk (quota_bytes_per_sec self) (window_seconds self) (_window_start self) v.
(** [relay/quotaenforcer.py] QuotaEnforcer.__post_init__ *)
Definition make (quota_bytes_per_sec : float) (window_seconds : float) : result t :=
  if f_le quota_bytes_per_sec f0 then Err Invalid else
  if f_le window_seconds f0 then Err Invalid else
  Ok (mk quota_bytes_per_sec window_seconds f0 0).
(** [relay/quotaenforcer.py] QuotaEnforcer._throttle_delay *)
Definition _throttle_delay (self : t) : result float :=
  let allowed := f_mul (quota_bytes_per_sec self) (window_seconds self) in
  if zf_le (_bytes_in_window self) allowed then
    Ok f0
  else
  let overage := f_sub (of_Z (_bytes_in_window self)) allowed in
  f_div overage (quota_bytes_per_sec self).
(** [relay/quotaenforcer.py] QuotaEnforcer.record *)
Definition record (now : float) (byte_count : Z) : act t float :=
  self ← get;
  (if f_le (f_add (_window_start self) (window_seconds self)) now then
     put (set__window_start now self);;
     self ← get;
     put (set__bytes_in_window 0 self)
   else
     mret ());;
  self ← get;
  put (set__bytes_in_window (_bytes_in_window self + byte_count) self);;
  self ← get;
  pure_of (_throttle_delay self).
(** [relay/quotaenforcer.py] QuotaEnforcer.rate *)
Definition rate (self : t) : result float :=
  f_div (of_Z (_bytes_in_window self)) (window_seconds self).
(** [relay/quotaenforcer.py] QuotaEnforcer.note *)
Definition note (self : t) : result string :=
  r ← rate self;
  q ← f_div r (quota_bytes_per_sec self);
  let pct := f_mul q (of_Z 100) in
  r1 ← rate self;
  Ok ("window at " +:+ fmt_fixed 0 r1 +:+ " B/s, " +:+ fmt_fixed 0 pct
        +:+ "% of quota; a client pinned at quota is one to consider giving more, one always far under has quota to lend elsewhere").
End QuotaEnforcer.
End quotaenforcer.
Import quotaenforcer.

Module quotaentity.
(** [relay/quotaentity.py] PAIR *)
Definition PAIR : string := "user+client".
(** [relay/quotaentity.py] USER *)
Definition USER : string := "user".
(** [relay/quotaentity.py] CLIENT *)
Definition CLIENT : string := "client".
(** [relay/quotaentity.py] DEFAULT *)
Definition DEFAULT : string := "default".
Module QuotaResolver.
(** [relay/quotaentity.py] class QuotaResolver *)
Record t := mk {
  pair : pydict (string * string) Z;
  per_user : pydict string Z;
  per_client : pydict string Z;
  cluster_default : option Z;
}.
Definition new : t := mk [] [] [] None.
(** [relay/quotaentity.py] QuotaResolver.resolve *)
Definition resolve (self : t) (user : string) (client : string) : result (Z * string) :=
  if d_mem (pair self) (user, client) then
    v ← d_item (pair self) (user, client);
    Ok (v, PAIR)
  else
  if d_mem (per_user self) user then
    v ← d_item (per_user self) user;
    Ok (v, USER)
  else
  if d_mem (per_client self) client then
    v ← d_item (per_client self) client;
    Ok (v, CLIENT)
  else
  match cluster_default self with
  | Some cluster_default_ =>
      Ok (cluster_default_, DEFAULT)
  | None =>
      Err Missing
  end.
(** [relay/quotaentity.py] QuotaResolver.describe *)
Definition describe (self : t) (user : string) (client : string) : result string :=
  r ← resolve self user client;
  let '(limit, level) := r in
  Ok ("user '" +:+ user +:+ "' client '" +:+ client +:+ "' limited to " +:+ zs limit
        +:+ " by the " +:+ level +:+ " entity; change it there").
End QuotaResolver.
End quotaentity.
Import quotaentity.

Module requestquota.
Module RequestQuota.
(** [relay/requestquota.py] class RequestQuota *)
Record t := mk { allowance_pct : float; thread_capacity_pct : float; }.
(** [relay/requestquota.py] RequestQuota.__post_init__ *)
Definition make (allowance_pct : float) (thread_capacity_pct : float) : result t :=
  if f_le allowance_pct f0 then Err Invalid else
  if f_lt thread_capacity_pct allowance_pct then Err Invalid else
  Ok (mk allowance_pct thread_capacity_pct).
(** [relay/requestquota.py] RequestQuota.throttle_ticks *)
Definition throttle_ticks (self : t) (used_pct : float) (window_ticks : Z) : result Z :=
  if f_le used_pct (allowance_pct self) then
    Ok 0
  else
  let overage := f_sub used_pct (allowance_pct self) in
  q ← f_div (f_mul (of_Z window_ticks) overage) (allowance_pct self);
  f_int q.
(** [relay/requestquota.py] RequestQuota.evaluate *)
Definition evaluate (self : t) (used_pct : float) (window_ticks : Z) : result string :=
  delay ← throttle_ticks self used_pct window_ticks;
  if delay =? 0 then
    Ok ("within quota: used " +:+ fmt_fixed 0 used_pct +:+ "% of a thread, allowance "
          +:+ fmt_fixed 0 (allowance_pct self) +:+ "%, no throttle")
  else
  Ok ("throttled " +:+ zs delay +:+ " tick(s): used " +:+ fmt_fixed 0 used_pct
        +:+ "% against a " +:+ fmt_fixed 0 (allowance_pct self)
        +:+ "% allowance; a CPU flood of small requests, invisible on a bytes dashboard").
End RequestQuota.
End requestquota.
Import requestquota.

Module distributedratelimit.
Module DistributedRateLimit.
(** [relay/distributedratelimit.py] class DistributedRateLimit *)
Record t := mk { global_limit : Z; nodes : Z; }.
(** [relay/distributedratelimit.py] DistributedRateLimit.__post_init__ *)
Definition make (global_limit : Z) (nodes : Z) : result t :=
  if nodes <? 1 then Err Invalid else
  if global_limit <? 0 then Err Invalid else
  Ok (mk global_limit nodes).
(** [relay/distributedratelimit.py] DistributedRateLimit.static_share *)
Definition static_share (self : t) : result float :=
  z_truediv (global_limit self) (nodes self).
(** [relay/distributedratelimit.py] DistributedRateLimit.static_effective *)
Definition static_effective (self : t) (loads : list float) : result float :=
  share ← static_share self;
  Ok (f_sum ((λ load, f_min load share) <$> loads)).
(** [relay/distributedratelimit.py] DistributedRateLimit.wasted *)
Definition wasted (self : t) (loads : list float) : result float :=
  if fz_lt (f_sum loads) (global_limit self) then
    Ok f0
  else
  r ← static_effective self loads;
  Ok (f_sub (of_Z (global_limit self)) r).
(** [relay/distributedratelimit.py] DistributedRateLimit.report *)
Definition report (self : t) (loads : list float) : result string :=
  effective ← static_effective self loads;
  wasted ← wasted self loads;
  Ok ("static split serves " +:+ fmt_fixed 0 effective +:+ " of the "
        +:+ zs (global_limit self) +:+ " global limit; " +:+ fmt_fixed 0 wasted
        +:+ " wasted on idle nodes' shares, which pooling would recover, the skewed-load case static division handles worst").
End DistributedRateLimit.
End distributedratelimit.
Import distributedratelimit.

Module circuitbreaker.
(** [relay/circuitbreaker.py] CLOSED *)
Definition CLOSED : string := "closed".
(** [relay/circuitbreaker.py] OPEN *)
Definition OPEN : string := "open".
(** [relay/circuitbreaker.py] HALF_OPEN *)
Definition HALF_OPEN : string := "half-open".
Module CircuitBreaker.
(** [relay/circuitbreaker.py] class CircuitBreaker *)
Record t := mk { threshold : Z; cooldown : Z; state : string; failures : Z; opened_at : Z; }.
Definition set_state (v : string) (self : t) : t := mk (threshold self) (cooldown self) v (failures self) (opened_at self).
Definition set_failures (v : Z) (self : t) : t := mk (threshold self) (cooldown self) (state self) v (opened_at self).
Definition set_opened_at (v : Z) (self : t) : t := mk (threshold self) (cooldown self) (state self) (failures self) v.
(** [relay/circuitbreaker.py] CircuitBreaker.__post_init__ *)
Definition make (threshold : Z) (cooldown : Z) : result t :=
  if (threshold <? 1) || (cooldown <? 1) then Err Invalid else
  Ok (mk threshold cooldown CLOSED 0 (-1)).
(** [relay/circuitbreaker.py] CircuitBreaker._maybe_half_open *)
Definition _maybe_half_open (now : Z) : act t unit :=
  self ← get;
  (if (bool_decide (state self = OPEN)) && (cooldown self <=? now - (opened_at self)) then put (set_state HALF_OPEN self) else mret ()).
(** [relay/circuitbreaker.py] CircuitBreaker.allow *)
Definition allow (now : Z) : act t string :=
  _maybe_half_open now;;
  self ← get;
  if bool_decide (state self = OPEN) then
    let wait := cooldown self - (now - (opened_at self)) in
    raise Invalid
  else
  mret ("call allowed in " +:+ (state self)).
(** [relay/circuitbreaker.py] CircuitBreaker.on_success *)
Definition on_success (now : Z) : act t string :=
  _maybe_half_open now;;
  self ← get;
  put (set_state CLOSED self);;
  self ← get;
  put (set_failures 0 self);;
  mret "success; circuit closed".
(** [relay/circuitbreaker.py] CircuitBreaker.on_failure *)
Definition on_failure (now : Z) : act t string :=
  self ← get;
  if bool_decide (state self = HALF_OPEN) then
    put (set_state OPEN self);;
    self ← get;
    put (set_opened_at now self);;
    mret "trial failed; circuit re-opened for another cooldown"
  else
  put (set_failures (failures self + 1) self);;
  self ← get;
  if threshold self <=? failures self then
    put (set_state OPEN self);;
    self ← get;
    put (set_opened_at now self);;
    self ← get;
    mret ("threshold " +:+ zs (threshold self) +:+ " hit; circuit opened, failing fast")
  else
  mret ("failure " +:+ zs (failures self) +:+ "/" +:+ zs (threshold self) +:+ "; still closed").
End CircuitBreaker.
End circuitbreaker.
Import circuitbreaker.

Module bulkhead.
Module Bulkhead.
(** [relay/bulkhead.py] class Bulkhead *)
Record t := mk { pool_sizes : pydict string Z; in_use : pydict string Z; }.
Definition set_in_use (v : pydict string Z) (self : t) : t := mk (pool_sizes self) v.
(** [relay/bulkhead.py] Bulkhead.__post_init__ *)
Definition __post_init__ : act t unit :=
  self ← get;
  raise_if (existsb (λ size_, size_ <? 1) (d_values (pool_sizes self))) Invalid;;
  put (set_in_use ((λ k, (k, 0)) <$> (d_keys (pool_sizes self))) self).
(** [relay/bulkhead.py] Bulkhead.__post_init__ *)
Definition make (pool_sizes : pydict string Z) : result t := construct __post_init__ (mk pool_sizes []).
(** [relay/bulkhead.py] Bulkhead.acquire *)
Definition acquire (cls : string) : act t string :=
  self ← get;
  raise_if (negb (d_mem (pool_sizes self) cls)) Invalid;;
  v ← pure_of (d_item (in_use self) cls);
  v1 ← pure_of (d_item (pool_sizes self) cls);
  raise_if (v1 <=? v) Invalid;;
  v2 ← pure_of (d_item (in_use self) cls);
  put (set_in_use (d_set (in_use self) cls (v2 + 1)) self);;
  self ← get;
  v3 ← pure_of (d_item (in_use self) cls);
  v4 ← pure_of (d_item (pool_sizes self) cls);
  mret ("acquired a '" +:+ cls +:+ "' thread, " +:+ zs v3 +:+ "/" +:+ zs v4).
(** [relay/bulkhead.py] Bulkhead.release *)
Definition release (cls : string) : act t unit :=
  self ← get;
  (if 0 <? d_getd (in_use self) cls 0 then
     v ← pure_of (d_item (in_use self) cls);
     put (set_in_use (d_set (in_use self) cls (v - 1)) self)
   else
     mret ()).
(** [relay/bulkhead.py] Bulkhead.utilization *)
Definition utilization (self : t) : result string :=
  parts ← mapM (λ '(cls, size_), v ← d_item (in_use self) cls; Ok (cls +:+ " " +:+ zs v +:+ "/" +:+ zs size_)) (pool_sizes self);
  Ok (join_str "; " parts
        +:+ "; a pool full while others idle is a partition set wrong for the demand, the utilization cost of isolation").
End Bulkhead.
End bulkhead.
Import bulkhead.

Module fairqueue.
Module FairQueue.
(** [relay/fairqueue.py] class FairQueue *)
Record t := mk {
  weights : pydict string Z;
  queues : pydict string (list Z);
  deficit : pydict string Z;
  served : pydict string Z;
}.
Definition set_queues (v : pydict string (list Z)) (self : t) : t := mk (weights self) v (deficit self) (served self).
Definition set_deficit (v : pydict string Z) (self : t) : t := mk (weights self) (queues self) v (served self).
Definition set_served (v : pydict string Z) (self : t) : t := mk (weights self) (queues self) (deficit self) v.
(** [relay/fairqueue.py] FairQueue.__post_init__ *)
Definition __post_init__ : act t unit :=
  self ← get;
  raise_if (existsb (λ w, w <=? 0) (d_values (weights self))) Invalid;;
  for_each (d_keys (weights self)) (λ c,
    self ← get;
    put (set_queues (d_setdefault (queues self) c []) self);;
    self ← get;
    put (set_deficit (d_setdefault (deficit self) c 0) self);;
    self ← get;
    put (set_served (d_setdefault (served self) c 0) self));;
  mret ().
(** [relay/fairqueue.py] FairQueue.__post_init__ *)
Definition make (weights : pydict string Z) : result t := construct __post_init__ (mk weights [] [] []).
(** [relay/fairqueue.py] FairQueue.enqueue *)
Definition enqueue (client : string) (cost : Z) : act t unit :=
  self ← get;
  raise_if (negb (d_mem (weights self) client)) Invalid;;
  v ← pure_of (d_item (queues self) client);
  put (set_queues (d_set (queues self) client (v ++ [cost])) self).
(** [relay/fairqueue.py:60-63] FairQueue.round: every turn of the loop takes a request off the queue *)
Fixpoint serve_loop (client : string) (fuel : nat) : act t unit :=
  self ← get;
  q ← pure_of (d_item (queues self) client);
  d ← pure_of (d_item (deficit self) client);
  match q with
  | [] => mret ()
  | cost :: q =>
      if cost <=? d then
        match fuel with
        | O => raise OutOfFuel
        | S fuel =>
            put (set_queues (d_set (queues self) client q) self);;
            self ← get;
            put (set_deficit (d_set (deficit self) client (d - cost)) self);;
            self ← get;
            v ← pure_of (d_item (served self) client);
            put (set_served (d_set (served self) client (v + cost)) self);;
            serve_loop client fuel
        end
      else mret ()
  end.
(** [relay/fairqueue.py:58-63] FairQueue.round *)
Definition serve_client (client : string) (weight : Z) : act t unit :=
  self ← get;
  v ← pure_of (d_item (deficit self) client);
  put (set_deficit (d_set (deficit self) client (v + weight)) self);;
  self ← get;
  q ← pure_of (d_item (queues self) client);
  serve_loop client (length q).
(** [relay/fairqueue.py:56-57] FairQueue.round *)
Definition round : act t unit :=
  self ← get;
  for_each (weights self) (λ '(client, weight), serve_client client weight).
(** [relay/fairqueue.py] FairQueue.report *)
Definition report (self : t) : result string :=
  parts ← mapM (λ '(c, w), v ← d_item (served self) c; Ok (c +:+ ": served " +:+ zs v +:+ " (weight " +:+ zs w +:+ ")")) (weights self);
  Ok (join_str "; " parts
        +:+ "; the served ratio should track the weights, and a client far under its weight ran its queue empty, offering less not denied").
End FairQueue.
End fairqueue.
Import fairqueue.

Module flowcontrol.
Module FlowControl.
(** [relay/flowcontrol.py] class FlowControl *)
Record t := mk { credit : Z; }.
Definition set_credit (v : Z) (self : t) : t := mk v.
Definition new : t := mk 0.
(** [relay/flowcontrol.py] FlowControl.grant *)
Definition grant (amount : Z) : act t Z :=
  raise_if (amount <? 0) Invalid;;
  self ← get;
  put (set_credit (credit self + amount) self);;
  self ← get;
  mret (credit self).
(** [relay/flowcontrol.py] FlowControl.send *)
Definition send (count : Z) : act t string :=
  raise_if (count <? 1) Invalid;;
  self ← get;
  raise_if (credit self <? count) Invalid;;
  put (set_credit (credit self - count) self);;
  self ← get;
  mret ("sent " +:+ zs count +:+ "; " +:+ zs (credit self) +:+ " credit remaining").
(** [relay/flowcontrol.py] FlowControl.processed *)
Definition processed (count : Z) : act t Z :=
  grant count.
(** [relay/flowcontrol.py] FlowControl.report *)
Definition report (self : t) : string :=
  if credit self =? 0 then
    "no credit; the sender is faster than the receiver processes, the back-pressure working as intended"
  else
  zs (credit self) +:+ " credit outstanding; the receiver is keeping ahead".
End FlowControl.
End flowcontrol.
Import flowcontrol.

Module requestqueue.
Module RequestQueue.
(** [relay/requestqueue.py] class RequestQueue *)
Record t := mk { capacity : Z; control : list string; data : list string; shed : Z; }.
Definition set_control (v : list string) (self : t) : t := mk (capacity self) v (data self) (shed self).
Definition set_data (v : list string) (self : t) : t := mk (capacity self) (control self) v (shed self).
Definition set_shed (v : Z) (self : t) : t := mk (capacity self) (control self) (data self) v.
(** [relay/requestqueue.py] RequestQueue.__post_init__ *)
Definition make (capacity : Z) : result t :=
  if capacity <? 1 then Err Invalid else
  Ok (mk capacity [] [] 0).
(** [relay/requestqueue.py] RequestQueue._depth *)
Definition _depth (self : t) : Z :=
  zlen (control self) + (zlen (data self)).
(** [relay/requestqueue.py] RequestQueue.offer *)
Definition offer (request : string) (is_control : bool) : act t string :=
  if is_control then
    self ← get;
    put (set_control (control self ++ [request]) self);;
    mret (request +:+ " enqueued ahead of data (control)")
  else
  self ← get;
  if capacity self <=? _depth self then
    put (set_shed (shed self + 1) self);;
    self ← get;
    mret (request +:+ " shed: queue full at " +:+ zs (capacity self)
          +:+ ", rejected in a moment because that beats serving it after its caller gave up")
  else
  put (set_data (data self ++ [request]) self);;
  mret (request +:+ " enqueued").
(** [relay/requestqueue.py] RequestQueue.next_request *)
Definition next_request : act t string :=
  self ← get;
  if negb (bool_decide (control self = [])) then
    x ← pure_of (py_index (control self) 0);
    put (set_control (drop 1 (control self)) self);;
    mret x
  else
  if negb (bool_decide (data self = [])) then
    x ← pure_of (py_index (data self) 0);
    put (set_data (drop 1 (data self)) self);;
    mret x
  else
  raise Invalid.
(** [relay/requestqueue.py] RequestQueue.report *)
Definition report (self : t) : string :=
  zs (_depth self) +:+ " queued (" +:+ zs (zlen (control self)) +:+ " control ahead), "
        +:+ zs (shed self)
        +:+ " shed under load; control preserved, because a queue that rejected a leadership change to serve a produce optimized the wrong thing".
End RequestQueue.
End requestqueue.
Import requestqueue.

Module throttlechannel.
Module ThrottleChannel.
(** [relay/throttlechannel.py] class ThrottleChannel *)
Record t := mk { client_id : string; next_allowed_tick : Z; honored : Z; muted : Z; }.
Definition set_next_allowed_tick (v : Z) (self : t) : t := mk (client_id self) v (honored self) (muted self).
Definition set_honored (v : Z) (self : t) : t := mk (client_id self) (next_allowed_tick self) v (muted self).
Definition set_muted (v : Z) (self : t) : t := mk (client_id self) (next_allowed_tick self) (honored self) v.
Definition new (client_id : string) : t := mk client_id 0 0 0.
(** [relay/throttlechannel.py] ThrottleChannel.respond *)
Definition respond (now : Z) (throttle_ticks : Z) : act t string :=
  raise_if (throttle_ticks <? 0) Invalid;;
  self ← get;
  put (set_next_allowed_tick (now + throttle_ticks) self);;
  mret ("data returned now with throttle-time " +:+ zs throttle_ticks
        +:+ "; wait before the next request, a deliberate delay not broker slowness").
(** [relay/throttlechannel.py] ThrottleChannel.receive *)
Definition receive (now : Z) : act t string :=
  self ← get;
  if now <? next_allowed_tick self then
    put (set_muted (muted self + 1) self);;
    self ← get;
    let wait := next_allowed_tick self - now in
    mret ("held " +:+ zs wait
          +:+ " tick(s): the client ignored its throttle-time and sent early, so honoring and ignoring the field converge on the same rate")
  else
  put (set_honored (honored self + 1) self);;
  mret "request accepted at the throttle boundary".
(** [relay/throttlechannel.py] ThrottleChannel.behavior *)
Definition behavior (self : t) : string :=
  let total := honored self + (muted self) in
  if total =? 0 then
    "no requests yet"
  else
  if honored self <? muted self then
    (client_id self) +:+ " sent early " +:+ zs (muted self) +:+ " time(s) vs honored "
          +:+ zs (honored self)
          +:+ ": a broken backoff worth flagging before it is throttled harder for load it need not generate"
  else
  (client_id self) +:+ " honored " +:+ zs (honored self) +:+ ", muted "
        +:+ zs (muted self) +:+ ": well-behaved, self-pacing on the field".
End ThrottleChannel.
End throttlechannel.
Import throttlechannel.

Module connectionquota.
Module ConnectionQuota.
(** [relay/connectionquota.py] class ConnectionQuota *)
Record t := mk { per_ip_cap : Z; broker_cap : Z; counts : pydict string Z; }.
Definition set_counts (v : pydict string Z) (self : t) : t := mk (per_ip_cap self) (broker_cap self) v.
(** [relay/connectionquota.py] ConnectionQuota.__post_init__ *)
Definition make (per_ip_cap : Z) (broker_cap : Z) : result t :=
  if (per_ip_cap <? 1) || (broker_cap <? 1) then Err Invalid else
  Ok (mk per_ip_cap broker_cap []).
(** [relay/connectionquota.py] ConnectionQuota.total *)
Definition total (self : t) : Z :=
  zsum id (d_values (counts self)).
(** [relay/connectionquota.py] ConnectionQuota.open *)
Definition open (host : string) (interbroker : bool) : act t string :=
  self ← get;
  raise_if (broker_cap self <=? total self) Invalid;;
  raise_if ((negb interbroker) && (per_ip_cap self <=? d_getd (counts self) host 0)) Invalid;;
  put (set_counts (d_set (counts self) host (d_getd (counts self) host 0 + 1)) self);;
  self ← get;
  mret ("accepted from " +:+ host +:+ "; " +:+ zs (total self) +:+ "/" +:+ zs (broker_cap self)
        +:+ " total").
(** [relay/connectionquota.py] ConnectionQuota.close *)
Definition close (host : string) : act t unit :=
  self ← get;
  (if 0 <? d_getd (counts self) host 0 then
     v ← pure_of (d_item (counts self) host);
     put (set_counts (d_set (counts self) host (v - 1)) self);;
     self ← get;
     v1 ← pure_of (d_item (counts self) host);
     (if v1 =? 0 then put (set_counts (d_del (counts self) host) self) else mret ())
   else
     mret ()).
(** [relay/connectionquota.py] ConnectionQuota.busiest *)
Definition busiest (self : t) : result string :=
  if bool_decide (counts self = []) then
    Ok "no connections open"
  else
  host ← py_max_key Z.ltb (λ k, d_getd (counts self) k 0) (d_keys (counts self));
  v ← d_item (counts self) host;
  q ← z_truediv v (total self);
  let share := f_mul q (of_Z 100) in
  v1 ← d_item (counts self) host;
  Ok (host +:+ " holds " +:+ zs v1 +:+ "/" +:+ zs (total self) +:+ " (" +:+ fmt_fixed 0 share
        +:+ "%); a host holding most is the reconnect storm to chase before saturation").
End ConnectionQuota.
End connectionquota.
Import connectionquota.

Module connreaper.
Module Connection.
(** [relay/connreaper.py] class Connection *)
Record t := mk {
  conn_id : string;
  last_activity : Z;
  long_polling : bool;
  in_transaction : bool;
  closed : bool;
}.
Definition set_last_activity (v : Z) (self : t) : t := mk (conn_id self) v (long_polling self) (in_transaction self) (closed self).
Definition set_closed (v : bool) (self : t) : t := mk (conn_id self) (last_activity self) (long_polling self) (in_transaction self) v.
Definition new (conn_id : string) (last_activity : Z) : t := mk conn_id last_activity false false false.
End Connection.
Module ConnectionReaper.
(** [relay/connreaper.py] class ConnectionReaper *)
Record t := mk {
  idle_timeout : Z;
  connections : pydict string Connection.t;
  reaped : Z;
  protected : Z;
}.
Definition set_connections (v : pydict string Connection.t) (self : t) : t := mk (idle_timeout self) v (reaped self) (protected self).
Definition set_reaped (v : Z) (self : t) : t := mk (idle_timeout self) (connections self) v (protected self).
Definition set_protected (v : Z) (self : t) : t := mk (idle_timeout self) (connections self) (reaped self) v.
(** [relay/connreaper.py] ConnectionReaper.__post_init__ *)
Definition make (idle_timeout : Z) : result t :=
  if idle_timeout <? 1 then Err Invalid else
  Ok (mk idle_timeout [] 0 0).
(** [relay/connreaper.py] ConnectionReaper.register *)
Definition register (conn : Connection.t) : act t unit :=
  self ← get;
  put (set_connections (d_set (connections self) (Connection.conn_id conn) conn) self).
(** [relay/connreaper.py] ConnectionReaper.touch *)
Definition touch (conn_id : string) (now : Z) : act t unit :=
  self ← get;
  let conn := d_get (connections self) conn_id in
  match conn with
  | None =>
      raise Invalid
  | Some conn =>
      raise_if (Connection.closed conn) Invalid;;
      let conn := Connection.set_last_activity now conn in
      put (set_connections (d_set (connections self) conn_id conn) self)
  end.
(** [relay/connreaper.py] ConnectionReaper.reap *)
Definition reap (now : Z) : act t (list string) :=
  let reaped_ := [] in
  self ← get;
  reaped_ ← for_fold (d_keys (connections self)) reaped_ (λ reaped_ k,
    self ← get;
    conn ← pure_of (d_item (connections self) k);
    if Connection.closed conn then
      mret reaped_
    else
    if now - (Connection.last_activity conn) <=? idle_timeout self then
      mret reaped_
    else
    if (Connection.long_polling conn) || (Connection.in_transaction conn) then
      put (set_protected (protected self + 1) self);;
      mret reaped_
    else
    let conn := Connection.set_closed true conn in
    put (set_connections (d_set (connections self) k conn) self);;
    self ← get;
    put (set_reaped (reaped self + 1) self);;
    let reaped_ := reaped_ ++ [Connection.conn_id conn] in
    mret reaped_);
  mret (py_sorted String.le reaped_).
(** [relay/connreaper.py] ConnectionReaper.open_slots_freed *)
Definition open_slots_freed (self : t) : Z :=
  reaped self.
(** [relay/connreaper.py] ConnectionReaper.report *)
Definition report (self : t) : string :=
  zs (reaped self) +:+ " idle connection(s) reaped, " +:+ zs (protected self)
        +:+ " busy connection(s) protected; a tightening timeout shows its effect here before it causes a reconnect storm".
End ConnectionReaper.
End connreaper.
Import connreaper.

Module correlation.
Module CorrelationTracker.
(** [relay/correlation.py] class CorrelationTracker *)
Record t := mk { _next : Z; outstanding : list Z; }.
Definition set__next (v : Z) (self : t) : t := mk v (outstanding self).
Definition set_outstanding (v : list Z) (self : t) : t := mk (_next self) v.
Definition new : t := mk 0 [].
(** [relay/correlation.py] CorrelationTracker.send *)
Definition send : act t Z :=
  self ← get;
  let correlation_id := _next self in
  put (set__next (_next self + 1) self);;
  self ← get;
  put (set_outstanding (outstanding self ++ [correlation_id]) self);;
  mret correlation_id.
(** [relay/correlation.py] CorrelationTracker.receive *)
Definition receive (correlation_id : Z) : act t string :=
  self ← get;
  raise_if (negb (bool_decide (correlation_id ∈ outstanding self))) Invalid;;
  oldest ← pure_of (py_index (outstanding self) 0);
  raise_if (negb (correlation_id =? oldest)) Invalid;;
  put (set_outstanding (drop 1 (outstanding self)) self);;
  mret ("matched response " +:+ zs correlation_id).
(** [relay/correlation.py] CorrelationTracker.depth *)
Definition depth (self : t) : string :=
  zs (zlen (outstanding self))
        +:+ " request(s) in flight; a depth that keeps growing is a client sending faster than the broker responds".
End CorrelationTracker.
End correlation.
Import correlation.

Module deadlinepropagation.
Module Deadline.
(** [relay/deadlinepropagation.py] class Deadline *)
Record t := mk { deadline_at : Z; }.
(** [relay/deadlinepropagation.py] Deadline.remaining *)
Definition remaining (self : t) (now : Z) : Z :=
  deadline_at self - now.
(** [relay/deadlinepropagation.py] Deadline.expired *)
Definition expired (self : t) (now : Z) : bool :=
  deadline_at self <=? now.
(** [relay/deadlinepropagation.py] Deadline.begin_call *)
Definition begin_call (self : t) (now : Z) (estimated_cost : Z) : result string :=
  if expired self now then Err Invalid else
  let left := remaining self now in
  if left <? estimated_cost then Err Invalid else
  Ok ("call begins with " +:+ zs left +:+ " budget remaining").
(** [relay/deadlinepropagation.py] Deadline.hop_note *)
Definition hop_note (self : t) (now : Z) : string :=
  let left := remaining self now in
  if left <=? 0 then
    "no budget left at this hop; the early hops spent the deadline before the work that needed it, speed them up"
  else
  zs left +:+ " of the shared deadline budget remains at this hop".
End Deadline.
End deadlinepropagation.
Import deadlinepropagation.

Module monotonictime.
Module MonotonicStamper.
(** [relay/monotonictime.py] class MonotonicStamper *)
Record t := mk { last_stamp : Z; clamps : Z; stamped : Z; }.
Definition set_last_stamp (v : Z) (self : t) : t := mk v (clamps self) (stamped self).
Definition set_clamps (v : Z) (self : t) : t := mk (last_stamp self) v (stamped self).
Definition set_stamped (v : Z) (self : t) : t := mk (last_stamp self) (clamps self) v.
Definition new : t := mk 0 0 0.
(** [relay/monotonictime.py] MonotonicStamper.stamp *)
Definition stamp (wall_clock : Z) : act t Z :=
  raise_if (wall_clock <? 0) Invalid;;
  self ← get;
  put (set_stamped (stamped self + 1) self);;
  self ← get;
  stamp ← (if wall_clock <? last_stamp self then
     put (set_clamps (clamps self + 1) self);;
     self ← get;
     let stamp := last_stamp self in
     mret stamp
   else
     let stamp := wall_clock in
     mret stamp);
  self ← get;
  put (set_last_stamp stamp self);;
  mret stamp.
(** [relay/monotonictime.py] MonotonicStamper.clamp_rate *)
Definition clamp_rate (self : t) : result string :=
  if stamped self =? 0 then Err Invalid else
  pct ← z_truediv (100 * (clamps self)) (stamped self);
  let note := if f_lt (of_Z 5) pct then "; a high rate means the clock steps often, an NTP or hardware problem to fix at the source, not paper over" else "" in
  Ok (zs (clamps self) +:+ " clamp(s) in " +:+ zs (stamped self) +:+ " stamp(s) ("
        +:+ fmt_fixed 0 pct +:+ "%)" +:+ note).
End MonotonicStamper.
End monotonictime.
Import monotonictime.

Module retrybudget.
Module RetryBudget.
(** [relay/retrybudget.py] class RetryBudget *)
Record t := mk { ratio : float; requests : Z; retries : Z; }.
Definition set_requests (v : Z) (self : t) : t := mk (ratio self) v (retries self).
Definition set_retries (v : Z) (self : t) : t := mk (ratio self) (requests self) v.
(** [relay/retrybudget.py] RetryBudget.__post_init__ *)
Definition make (ratio : float) : result t :=
  if negb ((f_lt f0 ratio) && (f_lt ratio (of_Z 1))) then Err Invalid else
  Ok (mk ratio 0 0).
(** [relay/retrybudget.py] RetryBudget.record_request *)
Definition record_request : act t unit :=
  self ← get;
  put (set_requests (requests self + 1) self).
(** [relay/retrybudget.py] RetryBudget.allow_retry *)
Definition allow_retry (self : t) : bool :=
  zf_le (retries self + 1) (f_mul (of_Z (requests self)) (ratio self)).
(** [relay/retrybudget.py] RetryBudget.retry *)
Definition retry : act t string :=
  self ← get;
  raise_if (negb (allow_retry self)) Invalid;;
  put (set_retries (retries self + 1) self);;
  self ← get;
  mret ("retry permitted; " +:+ zs (retries self) +:+ " retries against " +:+ zs (requests self)
        +:+ " requests").
(** [relay/retrybudget.py] RetryBudget.current_ratio *)
Definition current_ratio (self : t) : result string :=
  if requests self =? 0 then
    Ok "no requests yet"
  else
  ratio_ ← z_truediv (retries self) (requests self);
  Ok ("retry ratio " +:+ fmt_fixed 2 ratio_ +:+ " against cap " +:+ f_repr (ratio self)
        +:+ "; a budget always at its cap is a downstream failing enough that retries are maxed, the amplification being held back").
End RetryBudget.
End retrybudget.
Import retrybudget.

Module backpressure.
Module Stage.
(** [relay/backpressure.py] class Stage *)
Record t := mk { name : string; rate : float; bounded_buffer : bool; }.
Definition new (name : string) (rate : float) : t := mk name rate true.
End Stage.
Module Pipeline.
(** [relay/backpressure.py] class Pipeline *)
Record t := mk { stages : list Stage.t; }.
(** [relay/backpressure.py] Pipeline.__post_init__ *)
Definition make (stages : list Stage.t) : result t :=
  if bool_decide (stages = []) then Err Invalid else
  if existsb (λ s, f_le (Stage.rate s) f0) stages then Err Invalid else
  Ok (mk stages).
(** [relay/backpressure.py] Pipeline.bottleneck *)
Definition bottleneck (self : t) : result Stage.t :=
  py_min_key f_lt (λ s, Stage.rate s) (stages self).
(** [relay/backpressure.py] Pipeline.throughput *)
Definition throughput (self : t) : result float :=
  r ← bottleneck self;
  Ok (Stage.rate r).
(** [relay/backpressure.py] Pipeline.is_stable *)
Definition is_stable (self : t) : bool :=
  forallb (λ s, Stage.bounded_buffer s) (stages self).
(** [relay/backpressure.py] Pipeline.report *)
Definition report (self : t) : result string :=
  b ← bottleneck self;
  if negb (is_stable self) then
    let unbounded := (λ s, Stage.name s) <$> (py_filter (λ s, negb (Stage.bounded_buffer s)) (stages self)) in
    Ok ("UNSTABLE: " +:+ repr_list repr_str unbounded
          +:+ " have unbounded buffers absorbing the backlog instead of transmitting backpressure; it grows to OOM, the bufferbloat failure")
  else
  Ok ("stable at the bottleneck '" +:+ (Stage.name b) +:+ "' rate " +:+ f_repr (Stage.rate b)
        +:+ "; the source is throttled to it, so speeding up any other stage buys nothing").
End Pipeline.
End backpressure.
Import backpressure.

Module errorbudget.
Module ErrorBudget.
(** [relay/errorbudget.py] class ErrorBudget *)
Record t := mk { target_pct : float; window_seconds : float; consumed_seconds : float; }.
(** [relay/errorbudget.py] ErrorBudget.__post_init__ *)
Definition make (target_pct : float) (window_seconds : float) : result t :=
  if negb ((f_lt f0 target_pct) && (f_lt target_pct (of_Z 100))) then Err Invalid else
  Ok (mk target_pct window_seconds f0).
(** [relay/errorbudget.py] ErrorBudget.budget_seconds *)
Definition budget_seconds (self : t) : result float :=
  f_div (f_mul (window_seconds self) (f_sub (of_Z 100) (target_pct self))) (of_Z 100).
(** [relay/errorbudget.py] ErrorBudget.remaining *)
Definition remaining (self : t) : result float :=
  r ← budget_seconds self;
  Ok (f_sub r (consumed_seconds self)).
(** [relay/errorbudget.py] ErrorBudget.is_frozen *)
Definition is_frozen (self : t) : result bool :=
  r ← remaining self;
  Ok (f_le r f0).
(** [relay/errorbudget.py] ErrorBudget.burn_rate *)
Definition burn_rate (self : t) (over_seconds : float) (spent : float) : result float :=
  if f_le over_seconds f0 then Err Invalid else
  r ← budget_seconds self;
  sustainable ← f_div r (window_seconds self);
  actual ← f_div spent over_seconds;
  (if negb (f_zero sustainable) then f_div actual sustainable else Ok f_inf).
(** [relay/errorbudget.py] ErrorBudget.report *)
Definition report (self : t) : result string :=
  r ← is_frozen self;
  if (r : bool) then
    r1 ← budget_seconds self;
    Ok ("budget spent (" +:+ fmt_fixed 0 (consumed_seconds self) +:+ "s of " +:+ fmt_fixed 0 r1
          +:+ "s); frozen, risky changes wait until the window rolls and it refills")
  else
  r1 ← remaining self;
  r2 ← budget_seconds self;
  Ok (fmt_fixed 0 r1 +:+ "s of " +:+ fmt_fixed 0 r2
        +:+ "s budget left; room to absorb a failure, so a risky change can ship").
End ErrorBudget.
End errorbudget.
Import errorbudget.

Module hedgedrequest.
Module HedgePolicy.
(** [relay/hedgedrequest.py] class HedgePolicy *)
Record t := mk { hedge_delay : Z; responded : bool; hedged : bool; }.
Definition set_responded (v : bool) (self : t) : t := mk (hedge_delay self) v (hedged self).
Definition set_hedged (v : bool) (self : t) : t := mk (hedge_delay self) (responded self) v.
(** [relay/hedgedrequest.py] HedgePolicy.__post_init__ *)
Definition make (hedge_delay : Z) : result t :=
  if hedge_delay <? 1 then Err Invalid else
  Ok (mk hedge_delay false false).
(** [relay/hedgedrequest.py] HedgePolicy.should_hedge *)
Definition should_hedge (self : t) (waited : Z) : bool :=
  (negb (responded self)) && (hedge_delay self <=? waited).
(** [relay/hedgedrequest.py] HedgePolicy.hedge *)
Definition hedge (waited : Z) : act t string :=
  self ← get;
  raise_if (responded self) Invalid;;
  raise_if (waited <? hedge_delay self) Invalid;;
  put (set_hedged true self);;
  mret "hedged to a second replica; first answer wins, cancel the other".
(** [relay/hedgedrequest.py] HedgePolicy.respond *)
Definition respond : act t string :=
  self ← get;
  put (set_responded true self);;
  self ← get;
  let extra := if hedged self then " (the hedge copy is cancelled)" else "" in
  mret ("response taken" +:+ extra).
(** [relay/hedgedrequest.py] HedgePolicy.expected_hedge_rate *)
Definition expected_hedge_rate (self : t) (fraction_over_delay : float) : string :=
  let pct := f_mul fraction_over_delay (of_Z 100) in
  let note := "~" +:+ fmt_fixed 0 pct +:+ "% of requests exceed the delay and get hedged" in
  if f_lt (f_dec 1 (-1)) fraction_over_delay then
    note +:+ "; far above a few percent means the delay is too low"
  else
  note +:+ "; a small tail, the intended use".
End HedgePolicy.
End hedgedrequest.
Import hedgedrequest.

Module backoff.
Module BackoffPolicy.
(** [relay/backoff.py] class BackoffPolicy *)
Record t := mk { base : Z; ceiling : Z; }.
(** [relay/backoff.py] BackoffPolicy.__post_init__ *)
Definition make (base : Z) (ceiling : Z) : result t :=
  if (base <? 1) || (ceiling <? base) then Err Invalid else
  Ok (mk base ceiling).
(** [relay/backoff.py] BackoffPolicy.window *)
Definition window (self : t) (attempt : Z) : result Z :=
  if attempt <? 0 then Err Invalid else
  Ok (Z.min (ceiling self) ((base self) * (2 ^ attempt))).
(** [relay/backoff.py] BackoffPolicy.jittered *)
Definition jittered (self : t) (attempt : Z) (roll : float) : result Z :=
  if negb ((f_le f0 roll) && (f_le roll (of_Z 1))) then Err Invalid else
  r ← window self attempt;
  f_int (f_mul (of_Z r) roll).
End BackoffPolicy.
(** [relay/backoff.py] spread_of_fleet *)
Definition spread_of_fleet (policy : BackoffPolicy.t) (attempt : Z) (rolls : list float) : result string :=
  if bool_decide (rolls = []) then Err Invalid else
  samples ← mapM (λ r, r1 ← BackoffPolicy.jittered policy attempt r; Ok r1) rolls;
  m ← match samples with [] => Err ValueError | x :: l => Ok (py_max x l) end;
  m1 ← match samples with [] => Err ValueError | x :: l => Ok (py_min x l) end;
  let spread := m - m1 in
  window ← BackoffPolicy.window policy attempt;
  Ok ("attempt " +:+ zs attempt +:+ ": window " +:+ zs window +:+ ", " +:+ zs (zlen rolls)
        +:+ " client(s) spread across " +:+ zs spread
        +:+ " tick(s); without jitter all would arrive at once, the wave that knocks a recovering broker back down").
End backoff.
Import backoff.

Module exponentialbackoff.
Module ExponentialBackoff.
(** [relay/exponentialbackoff.py] class ExponentialBackoff *)
Record t := mk { base_ms : float; cap_ms : float; }.
(** [relay/exponentialbackoff.py] ExponentialBackoff.__post_init__ *)
Definition make (base_ms : float) (cap_ms : float) : result t :=
  if f_le base_ms f0 then Err Invalid else
  if f_lt cap_ms base_ms then Err Invalid else
  Ok (mk base_ms cap_ms).
(** [relay/exponentialbackoff.py] ExponentialBackoff.ceiling_ms *)
Definition ceiling_ms (self : t) (attempt : Z) : result float :=
  if attempt <? 0 then Err Invalid else
  Ok (f_min (cap_ms self) (f_mul (base_ms self) (of_Z (2 ^ attempt)))).
(** [relay/exponentialbackoff.py] ExponentialBackoff.delay_ms: [roll] is what [self._rand()] returned *)
Definition delay_ms (self : t) (roll : float) (attempt : Z) : result float :=
  r ← ceiling_ms self attempt;
  Ok (f_mul roll r).
(** [relay/exponentialbackoff.py] ExponentialBackoff.note *)
Definition note (self : t) (attempt : Z) : result string :=
  r ← ceiling_ms self attempt;
  Ok ("attempt " +:+ zs attempt +:+ " draws a jittered delay under " +:+ fmt_fixed 0 r
        +:+ "ms; the ceiling is what an operator reasons about, and the jitter is what keeps a fleet from retrying in lockstep and herding the broker").
End ExponentialBackoff.
End exponentialbackoff.
Import exponentialbackoff.

Module movingaverage.
Module MovingAverage.
(** [relay/movingaverage.py] class MovingAverage *)
Record t := mk { window : Z; _samples : list float; }.
Definition set__samples (v : list float) (self : t) : t := mk (window self) v.
(** [relay/movingaverage.py] MovingAverage.__post_init__ *)
Definition make (window : Z) : result t :=
  if window <? 1 then Err Invalid else
  Ok (mk window []).
(** [relay/movingaverage.py] MovingAverage.average *)
Definition average (self : t) : result float :=
  if bool_decide (_samples self = []) then Err Invalid else
  f_div (f_sum (_samples self)) (of_Z (zlen (_samples self))).
(** [relay/movingaverage.py] MovingAverage.add *)
Definition add (sample : float) : act t float :=
  self ← get;
  put (set__samples (_samples self ++ [sample]) self);;
  self ← get;
  (if window self <? zlen (_samples self) then put (set__samples (drop 1 (_samples self)) self) else mret ());;
  self ← get;
  pure_of (average self).
(** [relay/movingaverage.py] MovingAverage.is_full *)
Definition is_full (self : t) : bool :=
  zlen (_samples self) =? window self.
(** [relay/movingaverage.py] MovingAverage.fill_note *)
Definition fill_note (self : t) : string :=
  if negb (is_full self) then
    zs (zlen (_samples self)) +:+ "/" +:+ zs (window self)
          +:+ " samples; a mean of fewer than the window implies, overstating how settled the metric is"
  else
  "full window of " +:+ zs (window self) +:+ "; the mean lags the real value by ~half the window".
End MovingAverage.
End movingaverage.
Import movingaverage.

Module emarate.
Module EmaRate.
(** [relay/emarate.py] class EmaRate *)
Record t := mk { alpha : float; value : float; _seeded : bool; }.
Definition set_value (v : float) (self : t) : t := mk (alpha self) v (_seeded self).
Definition set__seeded (v : bool) (self : t) : t := mk (alpha self) (value self) v.
(** [relay/emarate.py] EmaRate.__post_init__ *)
Definition make (alpha : float) : result t :=
  if negb ((f_lt f0 alpha) && (f_lt alpha (of_Z 1))) then Err Invalid else
  Ok (mk alpha f0 false).
(** [relay/emarate.py] EmaRate.update *)
Definition update (sample : float) : act t float :=
  self ← get;
  (if negb (_seeded self) then
     put (set_value sample self);;
     self ← get;
     put (set__seeded true self)
   else
     put (set_value (f_add (f_mul (alpha self) sample) (f_mul (f_sub (of_Z 1) (alpha self)) (value self))) self));;
  self ← get;
  mret (value self).
(** [relay/emarate.py] EmaRate.current *)
Definition current (self : t) : result float :=
  if negb (_seeded self) then Err Invalid else
  Ok (value self).
(** [relay/emarate.py] EmaRate.responsiveness *)
Definition responsiveness (self : t) : string :=
  if f_le (f_dec 5 (-1)) (alpha self) then
    "alpha " +:+ f_repr (alpha self) +:+ ": fast to react, noisier"
  else
  "alpha " +:+ f_repr (alpha self) +:+ ": smooth, slower to react".
End EmaRate.
End emarate.
Import emarate.


(** ** The circuit breaker *)

Section breaker.
Import CircuitBreaker.

Inductive breaker_op :=
  | Allow (now : Z)
  | OnSuccess (now : Z)
  | OnFailure (now : Z).

Definition breaker_step (o : breaker_op) (b : CircuitBreaker.t) : CircuitBreaker.t :=
  match o with
  | Allow now => state_of (allow now) b
  | OnSuccess now => state_of (on_success now) b
  | OnFailure now => state_of (on_failure now) b
  end.

Definition breaker_ok (b : CircuitBreaker.t) : Prop :=
  1 <= threshold b ∧ 1 <= cooldown b ∧ 0 <= failures b ∧
  ((state b = CLOSED ∧ failures b < threshold b) ∨
   ((state b = OPEN ∨ state b = HALF_OPEN) ∧ threshold b <= failures b)).

Lemma maybe_half_open_run now b :
  _maybe_half_open now b =
  (if bool_decide (state b = OPEN) && (cooldown b <=? now - opened_at b) then set_state HALF_OPEN b else b, Ok ()).
Proof. unfold _maybe_half_open. act_simpl. by destruct (_ && _). Qed.

Lemma allow_run now b :
  allow now b =
  if bool_decide (state b = OPEN) && negb (cooldown b <=? now - opened_at b) then (b, Err Invalid)
  else let b' := if bool_decide (state b = OPEN) then set_state HALF_OPEN b else b in
       (b', Ok ("call allowed in " +:+ state b')%string).
Proof.
  unfold allow. rewrite bind_run, maybe_half_open_run. act_simpl.
  destruct (decide (state b = OPEN)) as [Ho|Ho].
  - rewrite (bool_decide_eq_true_2 _ Ho). cbn [andb]. destruct (cooldown b <=? _); cbn [negb].
    + by rewrite bool_decide_eq_false_2.
    + by rewrite bool_decide_eq_true_2.
  - rewrite (bool_decide_eq_false_2 _ Ho). cbn [andb]. by rewrite bool_decide_eq_false_2.
Qed.

Lemma breaker_ok_step o b : breaker_ok b → breaker_ok (breaker_step o b).
Proof.
  intros (Ht & Hc & Hf & Hs). destruct o as [now|now|now]; cbn [breaker_step]; unfold state_of.
  - rewrite allow_run. destruct (bool_decide (state b = OPEN)) eqn:Ho; cbn [andb]; [|done].
    bool_prop. destruct (negb _); cbn; [done|]. unfold breaker_ok. cbn.
    destruct Hs as [[Hs _]|[_ Hs]]; [by rewrite Hs in Ho|]. split_and!; auto.
  - unfold on_success. rewrite bind_run, maybe_half_open_run. act_simpl.
    destruct (_ && _); unfold breaker_ok; cbn; (split_and!; [lia..|left; split; [done|lia]]).
  - unfold on_failure. act_simpl. bool_split; act_simpl; bool_prop.
    { unfold breaker_ok. cbn. destruct Hs as [[Hs _]|[_ Hs]]; [by rewrite Hs in Heqb0|]. split_and!; auto. }
    bool_split; act_simpl; bool_prop; unfold breaker_ok; cbn; split_and!; try lia; auto.
    destruct Hs as [[Hs _]|[[Hs|Hs] Hle]]; [left; split; [done|lia]|lia|done].
Qed.

Lemma breaker_reachable ops threshold cooldown b :
  CircuitBreaker.make threshold cooldown = Ok b → breaker_ok (run breaker_step ops b).
Proof.
  intros Hm. apply run_invariant; [apply breaker_ok_step|].
  unfold CircuitBreaker.make in Hm. destruct (_ || _) eqn:E; [done|]. bool_prop. injection Hm as <-.
  unfold breaker_ok. cbn. split_and!; [lia..|left; split; [done|lia]].
Qed.

Lemma failures_run n b : breaker_ok b → state b = CLOSED → failures b + Z.of_nat n < threshold b →
  run breaker_step (replicate n (OnFailure 0)) b = set_failures (failures b + Z.of_nat n) b.
Proof.
  revert b. induction n as [|n IH]; intros b Hok Hs Hn.
  { rewrite Z.add_0_r. by destruct b. }
  assert (breaker_step (OnFailure 0) b = set_failures (failures b + 1) b) as Hstep.
  { cbn [breaker_step]. unfold state_of, on_failure. act_simpl. rewrite Hs. act_simpl.
    by rewrite (proj2 (Z.leb_gt _ _)) by lia. }
  pose proof (breaker_ok_step (OnFailure 0) b Hok) as Hok'. rewrite Hstep in Hok'.
  change (run breaker_step (replicate (S n) (OnFailure 0)) b)
    with (run breaker_step (replicate n (OnFailure 0)) (breaker_step (OnFailure 0) b)).
  rewrite Hstep, IH; [|done|done|cbn; lia]. destruct b. unfold set_failures. cbn -[Z.add Z.of_nat]. f_equal. lia.
Qed.
End breaker.

(** Also (safety): an open circuit breaker fails fast.  In every state reached from a new breaker: while it
    is open, a call before the cool-down has passed is refused and changes nothing, and from then on a
    call is let through and the breaker is half open; a closed breaker always lets a call through, and
    holds fewer failures than the threshold; a failure in the half-open state opens it again for a whole
    cool-down from that moment; a success closes it and forgets the failures. *)
Theorem breaker_fails_fast threshold cooldown b0 ops (Hmake : CircuitBreaker.make threshold cooldown = Ok b0) :
  let b := run breaker_step ops b0 in
  (CircuitBreaker.state b = OPEN → ∀ now,
     if now - CircuitBreaker.opened_at b <? CircuitBreaker.cooldown b
     then CircuitBreaker.allow now b = (b, Err Invalid)
     else CircuitBreaker.allow now b = (CircuitBreaker.set_state HALF_OPEN b, Ok "call allowed in half-open"%string)) ∧
  (CircuitBreaker.state b = CLOSED →
     CircuitBreaker.failures b < CircuitBreaker.threshold b ∧
     ∀ now, CircuitBreaker.allow now b = (b, Ok "call allowed in closed"%string)) ∧
  (CircuitBreaker.state b = HALF_OPEN → ∀ now,
     state_of (CircuitBreaker.on_failure now) b = CircuitBreaker.set_opened_at now (CircuitBreaker.set_state OPEN b)) ∧
  (∀ now, state_of (CircuitBreaker.on_success now) b = CircuitBreaker.set_failures 0 (CircuitBreaker.set_state CLOSED b)) ∧
  CircuitBreaker.state b ∈ [CLOSED; OPEN; HALF_OPEN].
Proof.
  intros b. pose proof (breaker_reachable ops _ _ _ Hmake) as Hok. fold b in Hok.
  destruct Hok as (Ht & Hc & Hf & Hs). split_and!.
  - intros Ho now. rewrite allow_run, Ho. cbn [andb bool_decide decide_rel].
    rewrite (bool_decide_eq_true_2 (OPEN = OPEN)) by done. cbn [andb].
    destruct (Z.ltb_spec (now - CircuitBreaker.opened_at b) (CircuitBreaker.cooldown b)).
    + by rewrite (proj2 (Z.leb_gt _ _)) by lia.
    + by rewrite (proj2 (Z.leb_le _ _)) by lia.
  - intros Hcl. split.
    + destruct Hs as [[_ Hs]|[Hs _]]; [done|]. rewrite Hcl in Hs. by destruct Hs.
    + intros now. rewrite allow_run, Hcl, (bool_decide_eq_false_2 (CLOSED = OPEN)) by done. cbn [andb]. by rewrite Hcl.
  - intros Hh now. unfold state_of, CircuitBreaker.on_failure. act_simpl. by rewrite Hh.
  - intros now. unfold state_of, CircuitBreaker.on_success. rewrite bind_run, maybe_half_open_run. act_simpl. by destruct (_ && _).
  - destruct Hs as [[-> _]|[[->| ->] _]]; rewrite !elem_of_cons; auto.
Qed.

Lemma breaker_fails_fast_witness :
  let b := run breaker_step [OnFailure 3; OnFailure 4] (CircuitBreaker.mk 2 5 CLOSED 0 (-1)) in
  CircuitBreaker.allow 8 b = (b, Err Invalid).
Proof.
  intros b. destruct (breaker_fails_fast 2 5 _ [OnFailure 3; OnFailure 4] eq_refl) as [H _].
  exact (H eq_refl 8).
Defined.

(** Also (functional): the breaker opens on the failure that reaches the threshold, and not before. *)
Theorem breaker_opens_at_threshold threshold cooldown b0 n
    (Hmake : CircuitBreaker.make threshold cooldown = Ok b0) (Hn : Z.of_nat n < threshold) :
  let b := run breaker_step (replicate n (OnFailure 0)) b0 in
  CircuitBreaker.state b = CLOSED ∧
  CircuitBreaker.state (breaker_step (OnFailure 0) b) = if Z.of_nat (S n) =? threshold then OPEN else CLOSED.
Proof.
  intros b. pose proof (breaker_reachable [] _ _ _ Hmake) as Hok. cbn in Hok.
  assert (b0 = CircuitBreaker.mk threshold cooldown CLOSED 0 (-1)) as ->.
  { unfold CircuitBreaker.make in Hmake. destruct (_ || _); [done|]. by injection Hmake as <-. }
  assert (b = CircuitBreaker.mk threshold cooldown CLOSED (Z.of_nat n) (-1)) as Hb.
  { unfold b. by rewrite failures_run by (try done; cbn; lia). }
  rewrite Hb. split; [done|]. cbn [breaker_step]. unfold state_of, CircuitBreaker.on_failure.
  rewrite Nat2Z.inj_succ, <- Z.add_1_r. generalize (Z.of_nat n), Hn. clear. intros m Hm. act_simpl.
  destruct (Z.eqb_spec (m + 1) threshold).
  - by rewrite (proj2 (Z.leb_le threshold _)) by lia.
  - by rewrite (proj2 (Z.leb_gt threshold _)) by lia.
Qed.

(** Also (error): half open, the breaker does not limit the trial to one call: every further call is let
    through as well, however many come before the first one has answered. *)
Theorem half_open_floods b (Hb : CircuitBreaker.state b = HALF_OPEN) (calls : list Z) :
  run (λ now b, state_of (CircuitBreaker.allow now) b) calls b = b ∧
  ∀ now, (CircuitBreaker.allow now b).2 = Ok "call allowed in half-open"%string.
Proof.
  assert (∀ now, CircuitBreaker.allow now b = (b, Ok "call allowed in half-open"%string)) as H.
  { intros now. rewrite allow_run, Hb, (bool_decide_eq_false_2 (HALF_OPEN = OPEN)) by done. cbn [andb]. by rewrite Hb. }
  split; [|intros now; by rewrite H].
  apply (run_invariant _ (λ b', b' = b)); [|done]. intros now b' ->. unfold state_of. by rewrite H.
Qed.

(** ** Correlation, credit and stamps *)

Section correlation.
Import CorrelationTracker.

Inductive correlation_op :=
  | Send
  | Receive (correlation_id : Z).

(** the tracker, the ids sent and the responses matched, in order *)
Definition correlation_step (o : correlation_op) (w : t * list Z * list Z) : t * list Z * list Z :=
  let '(self, sent, matched) := w in
  match o with
  | Send => match send self with
            | (self, Ok i) => (self, sent ++ [i], matched)
            | (self, Err _) => (self, sent, matched)
            end
  | Receive i => match receive i self with
                 | (self, Ok _) => (self, sent, matched ++ [i])
                 | (self, Err _) => (self, sent, matched)
                 end
  end.

Lemma credit_receive_run i self :
  receive i self =
  match outstanding self with
  | [] => (self, Err Invalid)
  | j :: l => if i =? j then (set_outstanding l self, Ok ("matched response " +:+ zs i)%string) else (self, Err Invalid)
  end.
Proof.
  unfold receive. act_simpl. destruct (outstanding self) as [|j l] eqn:Ho.
  - by rewrite bool_decide_eq_false_2 by (by intros ?%elem_of_nil).
  - change (py_index (j :: l) 0) with (Ok j : result Z). destruct (Z.eqb_spec i j) as [->|Hne].
    + rewrite bool_decide_eq_true_2 by left. rewrite Z.eqb_refl. cbn [negb]. act_simpl. by rewrite drop_0.
    + rewrite (proj2 (Z.eqb_neq i j) Hne). by destruct (negb (bool_decide _)).
Qed.
Definition correlation_ok (w : t * list Z * list Z) : Prop :=
  let '(self, sent, matched) := w in
  0 <= _next self ∧ sent = seqZ 0 (_next self) ∧ sent = matched ++ outstanding self.

Lemma correlation_ok_step o w : correlation_ok w → correlation_ok (correlation_step o w).
Proof.
  destruct w as [[s sent] matched]. intros (Hn & Hs & Hm). destruct o as [|i]; cbn [correlation_step].
  - unfold send. act_simpl. split_and!; [lia| |by rewrite app_assoc, <- Hm].
    rewrite Hs at 1. by rewrite seqZ_app by lia.
  - rewrite credit_receive_run. destruct (outstanding s) as [|j l] eqn:Ho; [by rewrite <- Ho in Hm|].
    destruct (Z.eqb_spec i j) as [->|]; [|by rewrite <- Ho in Hm].
    split_and!; [done..|]. rewrite Hm. cbn. by rewrite <- app_assoc.
Qed.
End correlation.

(** Also (safety): responses are matched in the order of their requests.  Whatever is sent and whatever ids
    come back, the ids handed out are 0, 1, 2, ... without a gap or a repeat; the responses accepted are
    exactly a prefix of them, in order; and what is left outstanding is exactly the rest.  A response that
    is not the oldest outstanding one is refused, and changes nothing. *)
Theorem correlation_in_order ops :
  let '(s, sent, matched) := run correlation_step ops (CorrelationTracker.new, [], []) in
  sent = seqZ 0 (CorrelationTracker._next s) ∧
  sent = matched ++ CorrelationTracker.outstanding s ∧
  ∀ i, head (CorrelationTracker.outstanding s) ≠ Some i → CorrelationTracker.receive i s = (s, Err Invalid).
Proof.
  pose proof (run_invariant correlation_step correlation_ok ops (CorrelationTracker.new, [], []) correlation_ok_step) as H.
  destruct (run _ _ _) as [[s sent] matched]. destruct H as (H0 & H1 & H2); [by split_and!|].
  split_and!; [done..|]. intros i Hi. rewrite credit_receive_run.
  destruct (CorrelationTracker.outstanding s) as [|j l]; [done|]. destruct (Z.eqb_spec i j) as [->|]; done.
Qed.

(** Also (invariant): credit is conserved.  The credit left is what was granted less what was sent, and it
    is never negative: whatever is asked for, no more is sent than has been granted. *)
Inductive credit_op :=
  | Grant (amount : Z)
  | SendRecords (count : Z).

Definition credit_step (o : credit_op) (w : FlowControl.t * Z * Z) : FlowControl.t * Z * Z :=
  let '(self, granted, sent) := w in
  match o with
  | Grant amount => match FlowControl.grant amount self with
                    | (self, Ok _) => (self, granted + amount, sent)
                    | (self, Err _) => (self, granted, sent)
                    end
  | SendRecords count => match FlowControl.send count self with
                         | (self, Ok _) => (self, granted, sent + count)
                         | (self, Err _) => (self, granted, sent)
                         end
  end.

Theorem credit_conserved ops :
  let '(s, granted, sent) := run credit_step ops (FlowControl.new, 0, 0) in
  FlowControl.credit s = granted - sent ∧ 0 <= sent <= granted ∧
  ∀ count, 1 <= count →
    (∃ m, FlowControl.send count s = (FlowControl.set_credit (FlowControl.credit s - count) s, Ok m)) ↔
    count <= FlowControl.credit s.
Proof.
  pose proof (run_invariant credit_step
    (λ w, let '(s, granted, sent) := w in
      FlowControl.credit s = granted - sent ∧ 0 <= sent <= granted) ops (FlowControl.new, 0, 0)) as H.
  destruct (run _ _ _) as [[s granted] sent].
  assert (FlowControl.credit s = granted - sent ∧ 0 <= sent <= granted) as [Hc Hs].
  { apply H; [|done]. clear. intros o [[s granted] sent] [Hc Hs]. destruct o as [n|n]; cbn [credit_step].
    - unfold FlowControl.grant. act_simpl. bool_split; act_simpl; bool_prop; [done|]. cbn. lia.
    - unfold FlowControl.send. act_simpl. bool_split; act_simpl; bool_prop; [done|].
      bool_split; act_simpl; bool_prop; [done|]. cbn. lia. }
  split; [done|]. split; [done|]. intros count Hcount. unfold FlowControl.send. act_simpl.
  rewrite (proj2 (Z.ltb_ge count 1)) by lia. destruct (Z.ltb_spec (FlowControl.credit s) count); act_simpl.
  - split; [intros [m Hm]; done|lia].
  - split; [lia|]. intros _. eexists. done.
Qed.

(** Also (safety): timestamps never go back.  A stamp is the largest wall-clock reading seen so far, however
    the clock steps, so the stamps of a partition never decrease; the clamp count is the number of readings
    that were behind one before them. *)
Definition stamp_step (wall : Z) (w : MonotonicStamper.t * list Z) : MonotonicStamper.t * list Z :=
  match MonotonicStamper.stamp wall w.1 with
  | (self, Ok n) => (self, w.2 ++ [n])
  | (self, Err _) => (self, w.2)
  end.

Lemma stamp_run wall s :
  MonotonicStamper.stamp wall s =
  if wall <? 0 then (s, Err Invalid)
  else (MonotonicStamper.mk (Z.max wall (MonotonicStamper.last_stamp s))
          (MonotonicStamper.clamps s + (if wall <? MonotonicStamper.last_stamp s then 1 else 0))
          (MonotonicStamper.stamped s + 1), Ok (Z.max wall (MonotonicStamper.last_stamp s))).
Proof.
  unfold MonotonicStamper.stamp. act_simpl. destruct (wall <? 0); [done|]. act_simpl.
  destruct (Z.ltb_spec wall (MonotonicStamper.last_stamp s)); act_simpl; cbn.
  - rewrite Z.max_r by lia. done.
  - rewrite Z.max_l, Z.add_0_r by lia. done.
Qed.

Theorem stamps_never_go_back walls :
  let w := run stamp_step walls (MonotonicStamper.new, []) in
  StronglySorted Z.le w.2 ∧
  (∀ n, n ∈ w.2 → n <= MonotonicStamper.last_stamp w.1) ∧
  MonotonicStamper.last_stamp w.1 = foldr Z.max 0 walls ∧
  MonotonicStamper.stamped w.1 = zlen w.2.
Proof.
  intros w.
  assert (∀ walls w0, let w := run stamp_step walls w0 in
    StronglySorted Z.le w0.2 → (∀ n, n ∈ w0.2 → n <= MonotonicStamper.last_stamp w0.1) →
    0 <= MonotonicStamper.last_stamp w0.1 → MonotonicStamper.stamped w0.1 = zlen w0.2 →
    StronglySorted Z.le w.2 ∧ (∀ n, n ∈ w.2 → n <= MonotonicStamper.last_stamp w.1) ∧
    MonotonicStamper.last_stamp w.1 = foldr Z.max (MonotonicStamper.last_stamp w0.1) walls ∧
    MonotonicStamper.stamped w.1 = zlen w.2) as H.
  { clear. induction walls as [|x walls IH]; intros [s l] w Hs Hle H0 Hn; [done|]. cbn [fst snd] in *.
    specialize (IH (stamp_step x (s, l))). cbn zeta in IH.
    change (run stamp_step walls (stamp_step x (s, l))) with w in IH. cbn [foldr].
    unfold stamp_step in IH. cbn [fst snd] in IH. rewrite stamp_run in IH. clearbody w.
    destruct (Z.ltb_spec x 0) as [Hx|Hx]; cbn [fst snd MonotonicStamper.last_stamp MonotonicStamper.stamped] in IH.
    - destruct (IH Hs Hle H0 Hn) as (H1 & H2 & H3 & H4). split_and!; [done..| |done]. rewrite H3.
      assert (0 <= foldr Z.max (MonotonicStamper.last_stamp s) walls); [|lia].
      clear -H0. induction walls as [|y l IH]; cbn [foldr]; lia.
    - destruct IH as (H1 & H2 & H3 & H4); [..|split_and!; [done..| |done]].
      + clear -Hs Hle. induction Hs as [|y l Hs IH Hy]; cbn; [repeat constructor|]. constructor.
        * apply IH. intros n Hn'. apply Hle. by right.
        * rewrite Forall_app. split; [done|]. repeat constructor. specialize (Hle y ltac:(left)). lia.
      + intros n [Hn'|Hn'%list_elem_of_singleton]%elem_of_app; [specialize (Hle n Hn')|]; lia.
      + lia.
      + rewrite Hn. rewrite zlen_app. change (zlen [_]) with 1. done.
      + rewrite H3. clear. induction walls as [|y l IH]; cbn [foldr]; lia. }
  apply (H walls (MonotonicStamper.new, [])); [constructor|by intros ? ?%elem_of_nil|done..].
Qed.

(** ** The request queue *)

Inductive request_op :=
  | Offer (request : string) (is_control : bool)
  | Next.

(** the queue, with the control requests and the admitted data requests offered to it, and those it served *)
Record request_world := RW {
  rw_queue : RequestQueue.t;
  rw_control_in : list string; rw_data_in : list string;
  rw_control_out : list string; rw_data_out : list string;
}.

Definition request_step (o : request_op) (w : request_world) : request_world :=
  let '(RW q ci di co do_) := w in
  match o with
  | Offer r true => RW (state_of (RequestQueue.offer r true) q) (ci ++ [r]) di co do_
  | Offer r false =>
      let q' := state_of (RequestQueue.offer r false) q in
      RW q' ci (if RequestQueue.shed q' =? RequestQueue.shed q then di ++ [r] else di) co do_
  | Next =>
      match RequestQueue.next_request q with
      | (q', Ok r) => if bool_decide (RequestQueue.control q = []) then RW q' ci di co (do_ ++ [r])
                      else RW q' ci di (co ++ [r]) do_
      | (q', Err _) => RW q' ci di co do_
      end
  end.

Section requests.
Import RequestQueue.
Implicit Types q : RequestQueue.t.

Lemma next_control q r l : control q = r :: l → next_request q = (set_control l q, Ok r).
Proof. intros Hq. unfold next_request. act_simpl. rewrite Hq. cbn. by rewrite drop_0. Qed.

Lemma next_data q r l : control q = [] → data q = r :: l → next_request q = (set_data l q, Ok r).
Proof. intros Hc Hq. unfold next_request. act_simpl. rewrite Hc, Hq. cbn. by rewrite drop_0. Qed.

Lemma next_none q : control q = [] → data q = [] → next_request q = (q, Err Invalid).
Proof. intros Hc Hq. unfold next_request. act_simpl. by rewrite Hc, Hq. Qed.

Lemma offer_data q r :
  state_of (offer r false) q =
  if capacity q <=? _depth q then set_shed (shed q + 1) q else set_data (data q ++ [r]) q.
Proof. unfold state_of, offer. act_simpl. by destruct (_ <=? _). Qed.

Definition requests_ok (cap : Z) (w : request_world) : Prop :=
  capacity (rw_queue w) = cap ∧ 1 <= cap ∧
  rw_control_in w = rw_control_out w ++ control (rw_queue w) ∧
  rw_data_in w = rw_data_out w ++ data (rw_queue w) ∧ zlen (data (rw_queue w)) <= cap.

Lemma requests_ok_step cap o w : requests_ok cap w → requests_ok cap (request_step o w).
Proof.
  destruct w as [q ci di co do_]. unfold requests_ok. cbn [rw_queue rw_control_in rw_data_in rw_control_out rw_data_out]. intros (Hcap & H1 & H2 & H3 & H4).
  destruct o as [r [|]|]; cbn [request_step].
  - unfold state_of, offer. act_simpl. split_and!; [done..| |done|done]. by rewrite H2, app_assoc.
  - rewrite offer_data. destruct (Z.leb_spec (capacity q) (_depth q)) as [Hle|Hgt]; cbn -[Z.add].
    + rewrite (proj2 (Z.eqb_neq _ _)) by lia. done.
    + rewrite Z.eqb_refl. split_and!; [done..|by rewrite app_assoc, <- H3|].
      rewrite zlen_app. change (zlen [r]) with 1. unfold _depth in Hgt. pose proof (zlen_nonneg (control q)). lia.
  - destruct (control q) as [|r l] eqn:Hc; [destruct (data q) as [|r l] eqn:Hd|].
    + rewrite next_none by done. cbn. by rewrite Hc, Hd.
    + rewrite (next_data q r l) by done. cbn. rewrite Hc. rewrite zlen_cons in H4. rewrite <- app_assoc. split_and!; [done..|lia].
    + rewrite (next_control q r l) by done. cbn. by rewrite <- app_assoc.
Qed.
End requests.

(** Also (safety): control requests are never shed and never overtaken.  After any sequence of offers and
    takes, the control requests offered are those served followed by those waiting, in order, and so are the
    data requests that were admitted; while a control request waits the next one served is the oldest
    control request; a data request is shed exactly when the queue is full, so at most [capacity] data
    requests ever wait. *)
Theorem request_queue_keeps_control capacity q0 ops (Hmake : RequestQueue.make capacity = Ok q0) :
  let w := run request_step ops (RW q0 [] [] [] []) in
  let q := rw_queue w in
  rw_control_in w = rw_control_out w ++ RequestQueue.control q ∧
  rw_data_in w = rw_data_out w ++ RequestQueue.data q ∧
  zlen (RequestQueue.data q) <= capacity ∧
  (∀ r l, RequestQueue.control q = r :: l → RequestQueue.next_request q = (RequestQueue.set_control l q, Ok r)) ∧
  (∀ r, RequestQueue.shed (state_of (RequestQueue.offer r false) q) =
        RequestQueue.shed q + (if capacity <=? RequestQueue._depth q then 1 else 0)).
Proof.
  intros w q. assert (requests_ok capacity w) as (Hcap & H1 & H2 & H3 & H4).
  { apply run_invariant; [apply requests_ok_step|]. unfold RequestQueue.make in Hmake.
    destruct (Z.ltb_spec capacity 1); [done|]. injection Hmake as <-. split_and!; done || (cbn -[zlen]; rewrite ?zlen_nil; lia). }
  fold q in Hcap, H2, H3, H4. split_and!; [done..| |].
  - intros r l. apply next_control.
  - intros r. rewrite offer_data, Hcap. destruct (capacity <=? _); cbn -[Z.add]; lia.
Qed.

Lemma request_queue_keeps_control_witness :
  let w := run request_step [Offer "d1" false; Offer "d2" false; Offer "c1" true; Next] (RW (RequestQueue.mk 1 [] [] 0) [] [] [] []) in
  rw_control_in w = rw_control_out w ++ RequestQueue.control (rw_queue w).
Proof. refine (proj1 (request_queue_keeps_control 1 _ _ _)). reflexivity. Defined.

(** ** Quotas and pools *)

(** Also (functional): the throttle delay restores the rate exactly.  After a record of [size] bytes at
    [now], the events kept are those of the window and the new one; the delay added is zero when the bytes
    in the window fit the rate, and otherwise the fewest whole ticks after which they do. *)
Theorem quota_delay_restores_rate q client rate window now size
    (Hq : ClientQuota.make client rate window = Ok q) (events : list (Z * Z)) :
  let s := ClientQuota.set_events events q in
  let s' := state_of (ClientQuota.record now size) s in
  let d := ClientQuota.throttle_ticks_applied s' - ClientQuota.throttle_ticks_applied s in
  ClientQuota.events s' = py_filter (λ p, now - window <? p.1) events ++ [(now, size)] ∧
  0 <= d ∧
  (∀ n, 0 <= n → ClientQuota._windowed_bytes s' <= rate * (window + n) ↔ d <= n).
Proof.
  unfold ClientQuota.make in Hq. destruct (_ || _) eqn:E; [done|]. bool_prop. injection Hq as <-.
  intros s s' d.
  assert (py_filter (λ '(tick, size_), now - window <? tick) events = py_filter (λ p, now - window <? p.1) events) as Hf.
  { apply filter_ext_in. by intros [tick sz]. }
  set (l := py_filter (λ p, now - window <? p.1) events ++ [(now, size)]).
  assert (ClientQuota.events s' = l ∧
    d = Z.max 0 (- (- (zsum (λ '(_, sz), sz) l - rate * window) / rate))) as [He Hd].
  { unfold d, s', s, l, state_of, ClientQuota.record, ClientQuota._prune. act_simpl. unfold ClientQuota._windowed_bytes. cbn [ClientQuota.events ClientQuota.set_events].
    rewrite Hf. fold l. destruct (Z.leb_spec (zsum (λ '(_, size_), size_) l) (rate * window)); act_simpl.
    - split; [done|]. rewrite Z.sub_diag. symmetry. apply Z.max_l.
      assert (0 <= - (zsum (λ '(_, sz), sz) l - rate * window) / rate) by (apply Z.div_pos; lia). lia.
    - unfold py_div. rewrite (proj2 (Z.eqb_neq rate 0)) by lia. act_simpl. split; [done|]. cbn.
      rewrite Z.max_r; [lia|]. assert (- (zsum (λ '(_, sz), sz) l - rate * window) / rate <= 0); [|lia].
      apply Z.div_le_upper_bound; lia. }
  split; [done|]. split; [lia|]. intros n Hn. unfold ClientQuota._windowed_bytes. rewrite He.
  set (used := zsum _ l) in *.
  assert (used <= rate * (window + n) ↔ - n <= - (used - rate * window) / rate) as ->; [|lia].
  split; intros Hle.
  - apply Z.div_le_lower_bound; lia.
  - pose proof (Z.mul_div_le (- (used - rate * window)) rate ltac:(lia)). nia.
Qed.

Lemma quota_delay_restores_rate_witness :
  ∀ n, 0 <= n → ClientQuota._windowed_bytes (state_of (ClientQuota.record 5 250) (ClientQuota.mk "c" 10 10 [] 0)) <= 10 * (10 + n) ↔ 15 <= n.
Proof. exact (proj2 (proj2 (quota_delay_restores_rate (ClientQuota.mk "c" 10 10 [] 0) "c" 10 10 5 250 eq_refl []))). Defined.

Section bulkhead.
Import Bulkhead.

Inductive pool_op :=
  | Acquire (cls : string)
  | Release (cls : string).

Definition pool_step (o : pool_op) (b : t) : t :=
  match o with
  | Acquire cls => state_of (acquire cls) b
  | Release cls => state_of (release cls) b
  end.

Definition pools_ok (sizes : pydict string Z) (b : t) : Prop :=
  pool_sizes b = sizes ∧ ∀ cls,
    match d_get sizes cls with
    | Some size => 1 <= size ∧ ∃ n, d_get (in_use b) cls = Some n ∧ 0 <= n <= size
    | None => d_get (in_use b) cls = None
    end.

Lemma bulkhead_acquire_run sizes cls b : pools_ok sizes b →
  state_of (acquire cls) b =
  match d_get sizes cls, d_get (in_use b) cls with
  | Some size, Some n => if n <? size then set_in_use (d_set (in_use b) cls (n + 1)) b else b
  | _, _ => b
  end ∧
  is_ok (acquire cls b).2 =
  match d_get sizes cls, d_get (in_use b) cls with Some size, Some n => n <? size | _, _ => false end.
Proof.
  intros [Hs Hok]. specialize (Hok cls). unfold state_of, acquire. act_simpl. rewrite Hs, d_mem_get.
  destruct (d_get sizes cls) as [size|] eqn:Hsize; [|done].
  destruct Hok as (_ & n & Hn & _). cbn [negb]. act_simpl. unfold d_item. rewrite Hn, Hsize. act_simpl.
  rewrite Z.leb_antisym. destruct (n <? size); cbn [negb]; act_simpl; [|done].
  unfold d_item. rewrite d_get_set_eq, Hs, Hsize. by act_simpl.
Qed.

Lemma release_run sizes cls b : pools_ok sizes b →
  state_of (release cls) b =
  match d_get (in_use b) cls with
  | Some n => if 0 <? n then set_in_use (d_set (in_use b) cls (n - 1)) b else b
  | None => b
  end.
Proof.
  intros _. unfold state_of, release. act_simpl. unfold d_getd, d_item.
  destruct (d_get (in_use b) cls) as [n|]; cbn; [|done]. by destruct (0 <? n).
Qed.

Lemma pools_ok_step sizes o b : pools_ok sizes b → pools_ok sizes (pool_step o b).
Proof.
  intros Hb. pose proof Hb as [Hs Hok]. destruct o as [cls|cls]; cbn [pool_step].
  - rewrite (proj1 (bulkhead_acquire_run _ cls _ Hb)). pose proof (Hok cls) as Hcls.
    destruct (d_get sizes cls) as [size|] eqn:Hsize; [|done]. destruct Hcls as (Hpos & n & Hn & Hle). rewrite Hn.
    destruct (Z.ltb_spec n size); [|done]. split; [done|]. intros c. cbn. rewrite d_get_set.
    case_bool_decide as Hc; [subst c; rewrite Hsize; split; [done|]; eexists; split; [done|lia]|apply Hok].
  - rewrite (release_run _ cls _ Hb). pose proof (Hok cls) as Hcls.
    destruct (d_get (in_use b) cls) as [n|] eqn:Hn; [|done]. destruct (Z.ltb_spec 0 n); [|done].
    split; [done|]. intros c. cbn. rewrite d_get_set. case_bool_decide as Hc; [subst c|apply Hok].
    destruct (d_get sizes cls) as [size|]; [|done]. destruct Hcls as (Hpos & m & [= <-] & Hle).
    split; [done|]. eexists; split; [done|lia].
Qed.

Lemma pools_ok_make sizes b : Bulkhead.make sizes = Ok b → pools_ok sizes b.
Proof.
  unfold Bulkhead.make, construct, __post_init__. act_simpl. destruct (existsb _ _) eqn:E; [done|]. intros [= <-].
  split; [done|]. intros cls. cbn. rewrite existsb_none in E.
  assert (d_get ((λ k, (k, 0)) <$> d_keys sizes) cls = (λ _, 0) <$> d_get sizes cls) as ->.
  { clear E. unfold d_keys. induction sizes as [|[k v] l IH]; [done|]. cbn. by case_bool_decide. }
  destruct (d_get sizes cls) as [size|] eqn:Hsize; [|done].
  assert (1 <= size). { apply Z.ltb_ge, E. apply d_get_elem_of in Hsize. apply list_elem_of_fmap. by exists (cls, size). }
  split; [done|]. exists 0. split; [done|lia].
Qed.
End bulkhead.

(** Also (invariant): one class of requests cannot use up another's threads.  In every reachable state each pool's
    use is between zero and its size; an acquire succeeds exactly when that class's own pool has a thread
    free, whatever the others hold; and acquiring or releasing in one class changes no other class's use. *)
Theorem bulkhead_isolates sizes b0 ops (Hmake : Bulkhead.make sizes = Ok b0) :
  let b := run pool_step ops b0 in
  (∀ cls size, d_get sizes cls = Some size → ∃ n, d_get (Bulkhead.in_use b) cls = Some n ∧ 0 <= n <= size ∧
     is_ok (Bulkhead.acquire cls b).2 = (n <? size)) ∧
  (∀ o cls, match o with Acquire c | Release c => c end ≠ cls →
     d_get (Bulkhead.in_use (pool_step o b)) cls = d_get (Bulkhead.in_use b) cls) ∧
  (∀ cls, d_get sizes cls = None → Bulkhead.acquire cls b = (b, Err Invalid)).
Proof.
  intros b. assert (pools_ok sizes b) as Hb.
  { apply run_invariant; [apply pools_ok_step|by apply pools_ok_make]. }
  split_and!.
  - intros cls size Hsize. pose proof (proj2 Hb cls) as H. rewrite Hsize in H. destruct H as (_ & n & Hn & Hle).
    exists n. rewrite (proj2 (bulkhead_acquire_run _ cls _ Hb)), Hsize, Hn. done.
  - intros o cls Hne. destruct o as [c|c]; cbn [pool_step].
    + rewrite (proj1 (bulkhead_acquire_run _ c _ Hb)). destruct (d_get sizes c), (d_get (Bulkhead.in_use b) c); try done.
      destruct (_ <? _); [|done]. cbn. by rewrite d_get_set_ne.
    + rewrite (release_run _ c _ Hb). destruct (d_get (Bulkhead.in_use b) c); [|done]. destruct (_ <? _); [|done]. cbn. by rewrite d_get_set_ne.
  - intros cls Hcls. unfold Bulkhead.acquire. act_simpl. rewrite (proj1 Hb), d_mem_get, Hcls. done.
Qed.

Lemma bulkhead_isolates_witness :
  let b := run pool_step [Acquire "produce"; Acquire "produce"] (Bulkhead.mk [("produce", 1); ("fetch", 2)] [("produce", 0); ("fetch", 0)]) in
  ∃ n, d_get (Bulkhead.in_use b) "fetch" = Some n ∧ 0 <= n <= 2 ∧ is_ok (Bulkhead.acquire "fetch" b).2 = (n <? 2).
Proof. refine (proj1 (bulkhead_isolates [("produce", 1); ("fetch", 2)] _ _ _) "fetch"%string 2 _); reflexivity. Defined.

Section connections.
Import ConnectionQuota.

Inductive connection_op :=
  | Open (host : string) (interbroker : bool)
  | Close (host : string).

(** the quota, and the hosts that have opened an inter-broker connection *)
Definition connection_step (o : connection_op) (w : t * gset string) : t * gset string :=
  match o with
  | Open host ib => (state_of (open host ib) w.1, if ib then {[host]} ∪ w.2 else w.2)
  | Close host => (state_of (close host) w.1, w.2)
  end.

Lemma open_run host ib s :
  open host ib s =
  if (broker_cap s <=? total s) || (negb ib && (per_ip_cap s <=? d_getd (counts s) host 0)) then (s, Err Invalid)
  else let s' := set_counts (d_set (counts s) host (d_getd (counts s) host 0 + 1)) s in
       (s', Ok ("accepted from " +:+ host +:+ "; " +:+ zs (total s') +:+ "/" +:+ zs (broker_cap s') +:+ " total")%string).
Proof. unfold open. act_simpl. destruct (_ <=? _); [done|]. act_simpl. by destruct (negb ib && _). Qed.

Lemma close_run host s :
  state_of (close host) s =
  let n := d_getd (counts s) host 0 in
  if 0 <? n then set_counts (let d := d_set (counts s) host (n - 1) in if n - 1 =? 0 then d_del d host else d) s else s.
Proof.
  unfold state_of, close. act_simpl. unfold d_getd, d_item. destruct (d_get (counts s) host) as [n|] eqn:Hn; cbn; [|done].
  destruct (0 <? n); [|done]. act_simpl. rewrite d_get_set_eq. act_simpl. by destruct (n - 1 =? 0).
Qed.

Definition connections_ok (ip broker : Z) (w : t * gset string) : Prop :=
  let '(s, ib) := w in
  per_ip_cap s = ip ∧ broker_cap s = broker ∧ d_wf (counts s) ∧ 0 <= total s <= broker ∧
  (∀ host n, d_get (counts s) host = Some n → 1 <= n) ∧
  (∀ host, host ∉ ib → d_getd (counts s) host 0 <= ip).

Lemma connections_ok_step ip broker o w : 1 <= ip → connections_ok ip broker w → connections_ok ip broker (connection_step o w).
Proof.
  intros Hip1. destruct w as [s ib]. intros (Hip & Hbr & Hwf & Ht & Hpos & Hcap). destruct o as [host i|host]; cbn [connection_step fst snd].
  - unfold state_of. rewrite open_run. destruct (_ || _) eqn:E; bool_prop; cbn [fst].
    { split_and!; [done|done|done|lia|lia|done|]. intros h Hh. apply Hcap. destruct i; set_solver. }
    split_and!; cbn [counts set_counts per_ip_cap broker_cap]; [done|done|by apply d_wf_set|..].
    + unfold total in *. cbn [counts set_counts]. rewrite (zsum_values_set id 0) by done. unfold id in *. lia.
    + unfold total in *. cbn [counts set_counts]. rewrite (zsum_values_set id 0) by done. unfold id in *. lia.
    + intros h n. rewrite d_get_set. case_bool_decide as Hh; [|apply Hpos]. intros [= <-]. unfold d_getd.
      destruct (d_get (counts s) host) as [m|] eqn:Hm; [specialize (Hpos _ _ Hm)|]; cbn; lia.
    + intros h Hh. rewrite d_getd_set. case_bool_decide as Heq; [subst h|apply Hcap; destruct i; set_solver].
      destruct i; [set_solver|]. cbn in *. bool_prop. destruct H0; [done|]. bool_prop. lia.
  - rewrite close_run. cbn zeta. unfold d_getd. destruct (d_get (counts s) host) as [n|] eqn:Hn; cbn; [|done].
    pose proof (Hpos _ _ Hn). rewrite (proj2 (Z.ltb_lt 0 n)) by lia.
    assert (zsum id (d_values (d_set (counts s) host (n - 1))) = total s - 1) as Hsum.
    { rewrite (zsum_values_set id 0) by done. unfold d_getd, total. rewrite Hn. cbn. unfold id. lia. }
    assert (0 <= total s - 1) as Ht1.
    { rewrite <- Hsum. apply zsum_nonneg. intros x (p & -> & Hp)%list_elem_of_fmap. destruct p as [k v].
      apply d_set_elem_of in Hp as [[_ ->]|[_ Hp]]; [cbn; unfold id; lia| |done].
      apply d_elem_of_get in Hp; [|done]. specialize (Hpos _ _ Hp). cbn. unfold id. lia. }
    destruct (Z.eqb_spec (n - 1) 0) as [Hz|Hz]; split_and!; cbn [counts set_counts per_ip_cap broker_cap]; try done.
    + by apply d_wf_del, d_wf_set.
    + unfold total. cbn [counts set_counts]. rewrite (zsum_values_del id 0), Hsum by (try done; by apply d_wf_set). unfold d_getd. rewrite d_get_set_eq. cbn. unfold id. lia.
    + unfold total at 1. cbn [counts set_counts]. rewrite (zsum_values_del id 0), Hsum by (try done; by apply d_wf_set). unfold d_getd. rewrite d_get_set_eq. cbn. unfold id. lia.
    + intros h m. rewrite d_get_del, d_get_set. repeat case_bool_decide; try done. apply Hpos.
    + intros h Hh. unfold d_getd. rewrite d_get_del, d_get_set. specialize (Hcap h Hh). unfold d_getd in Hcap. repeat case_bool_decide; cbn; lia || done.
    + by apply d_wf_set.
    + unfold total at 1. cbn [counts set_counts]. lia.
    + unfold total at 1. cbn [counts set_counts]. lia.
    + intros h m. rewrite d_get_set. case_bool_decide; [intros [= <-]; lia|apply Hpos].
    + intros h Hh. specialize (Hcap h Hh). unfold d_getd in *. rewrite d_get_set. case_bool_decide; [subst h; rewrite Hn in Hcap; cbn in *; lia|done].
Qed.
End connections.

(** Also (bounds): the connection caps hold.  After any connects and disconnects the broker never holds more than
    its cap, no host that has only opened client connections holds more than the per-host cap, and every
    host listed holds at least one; a host below its cap is let in exactly while the broker has room, and
    an inter-broker connection is exempt from the per-host cap but not from the broker's. *)
Theorem connection_caps_hold ip broker q0 ops (Hmake : ConnectionQuota.make ip broker = Ok q0) :
  let '(q, interbroker) := run connection_step ops (q0, ∅) in
  0 <= ConnectionQuota.total q <= broker ∧
  (∀ host, host ∉ interbroker → d_getd (ConnectionQuota.counts q) host 0 <= ip) ∧
  (∀ host n, d_get (ConnectionQuota.counts q) host = Some n → 1 <= n) ∧
  (∀ host ib, is_ok (ConnectionQuota.open host ib q).2 =
     (ConnectionQuota.total q <? broker) && (ib || (d_getd (ConnectionQuota.counts q) host 0 <? ip))).
Proof.
  unfold ConnectionQuota.make in Hmake. destruct (_ || _) eqn:E; [done|]. bool_prop. injection Hmake as <-.
  pose proof (run_invariant connection_step (connections_ok ip broker) ops (ConnectionQuota.mk ip broker [], ∅)) as Hrun.
  destruct (run _ _ _) as [q ibs]. destruct Hrun as (Hip & Hbr & Hwf & Ht & Hpos & Hcap).
  { intros o w. by apply connections_ok_step. }
  { split_and!; cbn; [done..|constructor|done|unfold ConnectionQuota.total; cbn; lia|done|]. intros host _. cbn. lia. }
  split_and!; [lia|lia|done..|]. intros host i. rewrite open_run, Hip, Hbr.
  rewrite (Z.ltb_antisym broker), (Z.ltb_antisym ip).
  destruct (broker <=? _), i, (ip <=? _); done.
Qed.

Lemma connection_caps_hold_witness :
  let '(q, _) := run connection_step [Open "h" false; Open "h" false; Open "b" true] (ConnectionQuota.mk 1 2 [], ∅) in
  0 <= ConnectionQuota.total q <= 2.
Proof. exact (proj1 (connection_caps_hold 1 2 _ [Open "h" false; Open "h" false; Open "b" true] eq_refl)). Defined.

(** ** Fair queueing *)

Section fair.
Import FairQueue.
Implicit Types s : t.

(** what the scheduler holds of a client: its queue, its deficit and the cost served *)
Definition client_view s (c : string) : option (list Z * Z * Z) :=
  q ← d_get (queues s) c; d ← d_get (deficit s) c; v ← d_get (served s) c; Some (q, d, v).

Lemma client_view_inv s c q d v : client_view s c = Some (q, d, v) →
  d_get (queues s) c = Some q ∧ d_get (deficit s) c = Some d ∧ d_get (served s) c = Some v.
Proof.
  unfold client_view. destruct (d_get (queues s) c); [|done]. destruct (d_get (deficit s) c); [|done].
  destruct (d_get (served s) c); [|done]. cbn. by intros [= -> -> ->].
Qed.

(** one client's turn: a prefix of its queue is served out of its deficit, and what stops the turn is an
    empty queue or a request that costs more than is left *)
Definition turn (weight : Z) (v v' : list Z * Z * Z) : Prop :=
  let '(q, d, n) := v in let '(q', d', n') := v' in
  ∃ k, q' = drop k q ∧ n' = n + zsum id (take k q) ∧ d' = d + weight - zsum id (take k q) ∧
    (0 <= d + weight → 0 <= d') ∧ match q' with [] => True | cost :: _ => d' < cost end.

Lemma serve_loop_run c fuel s q d v : client_view s c = Some (q, d, v) → (length q <= fuel)%nat →
  ∃ s' v', serve_loop c fuel s = (s', Ok ()) ∧ weights s' = weights s ∧
    client_view s' c = Some v' ∧ turn 0 (q, d, v) v' ∧ (∀ c', c' ≠ c → client_view s' c' = client_view s c').
Proof.
  revert s q d v. induction fuel as [|fuel IH]; intros s q d v Hview Hf;
    pose proof (client_view_inv _ _ _ _ _ Hview) as (Hq & Hd & Hv);
    cbn [serve_loop]; act_simpl; unfold d_item; rewrite Hq, Hd; act_simpl.
  - destruct q; [|cbn in Hf; lia]. act_simpl. exists s, ([], d, v). split_and!; try done.
    exists 0%nat. cbn. split_and!; lia || done.
  - destruct q as [|cost q]; act_simpl.
    { exists s, ([], d, v). split_and!; try done. exists 0%nat. cbn. split_and!; lia || done. }
    destruct (Z.leb_spec cost d); act_simpl.
    + unfold d_item. rewrite Hv. act_simpl.
      set (s1 := set_served _ _).
      assert (client_view s1 c = Some (q, d - cost, v + cost)) as H1.
      { unfold client_view, s1. cbn. by rewrite !d_get_set_eq. }
      assert (∀ c', c' ≠ c → client_view s1 c' = client_view s c') as Hframe.
      { intros c' Hne. unfold client_view, s1. cbn. by rewrite !d_get_set_ne. }
      destruct (IH s1 q (d - cost) (v + cost) H1) as (s' & [[q' d'] v'] & Hrun & Hw & Hview' & (k & Hq' & Hv' & Hd' & Hpos & Hstop) & Hfr); [cbn in Hf; lia|].
      exists s', (q', d', v'). split_and!; [done|by rewrite Hw|done| |].
      * exists (S k). cbn [take drop]. rewrite zsum_cons. unfold id at 1 3. split_and!; [done|lia|lia| |done].
        intros _. apply Hpos. lia.
      * intros c' Hne. by rewrite Hfr, Hframe.
    + exists s, (cost :: q, d, v). split_and!; try done. exists 0%nat. cbn. split_and!; lia || done.
Qed.

Lemma serve_client_run c weight s v : client_view s c = Some v →
  ∃ s' v', serve_client c weight s = (s', Ok ()) ∧ weights s' = weights s ∧
    client_view s' c = Some v' ∧ turn weight v v' ∧ (∀ c', c' ≠ c → client_view s' c' = client_view s c').
Proof.
  destruct v as [[q d] v]. intros Hview. pose proof (client_view_inv _ _ _ _ _ Hview) as (Hq & Hd & Hv).
  unfold serve_client. act_simpl. unfold d_item. rewrite Hd. act_simpl. rewrite Hq. act_simpl.
  set (s1 := set_deficit _ _).
  assert (client_view s1 c = Some (q, d + weight, v)) as H1.
  { unfold client_view, s1. cbn. by rewrite Hq, d_get_set_eq, Hv. }
  assert (∀ c', c' ≠ c → client_view s1 c' = client_view s c') as Hframe.
  { intros c' Hne. unfold client_view, s1. cbn. by rewrite d_get_set_ne. }
  destruct (serve_loop_run c (length q) s1 q (d + weight) v H1 ltac:(lia))
    as (s' & [[q' d'] v'] & Hrun & Hw & Hview' & (k & Hq' & Hv' & Hd' & Hpos & Hstop) & Hfr).
  exists s', (q', d', v'). split_and!; [done|by rewrite Hw|done| |].
  - exists k. split_and!; [done|done|lia| |done]. intros ?. apply Hpos. lia.
  - intros c' Hne. by rewrite Hfr, Hframe.
Qed.

Lemma round_run l s : NoDup l.*1 → (∀ c, c ∈ l.*1 → is_Some (client_view s c)) →
  ∃ s', for_each l (λ '(client, weight), serve_client client weight) s = (s', Ok ()) ∧ weights s' = weights s ∧
    (∀ c w, (c, w) ∈ l → ∃ v v', client_view s c = Some v ∧ client_view s' c = Some v' ∧ turn w v v') ∧
    (∀ c, c ∉ l.*1 → client_view s' c = client_view s c).
Proof.
  revert s. induction l as [|[c w] l IH]; intros s Hnd Hsome.
  { exists s. split_and!; try done. intros c w Hin. by apply elem_of_nil in Hin. }
  cbn in Hnd. apply NoDup_cons in Hnd as [Hc Hnd].
  destruct (Hsome c ltac:(left)) as [v Hv].
  destruct (serve_client_run c w s v Hv) as (s1 & v1 & Hrun & Hw & Hv1 & Hturn & Hframe).
  destruct (IH s1) as (s' & Hrun' & Hw' & Hin & Hout); [done| |].
  { intros c' Hc'. rewrite Hframe by (intros ->; done). apply Hsome. by right. }
  exists s'. cbn [for_each]. rewrite bind_run, Hrun. split_and!; [done|by rewrite Hw'| |].
  - intros c' w' [[= -> ->]|Hin']%elem_of_cons.
    + exists v, v1. split_and!; [done|by rewrite Hout|done].
    + destruct (Hin c' w' Hin') as (u & u' & Hu & Hu' & Ht). exists u, u'. split_and!; [|done|done].
      rewrite <- Hframe; [done|]. intros ->. apply Hc, list_elem_of_fmap. by exists (c, w').
  - intros c' [Hne Hc']%not_elem_of_cons. rewrite Hout by done. by apply Hframe.
Qed.

Inductive fair_op :=
  | Enqueue (client : string) (cost : Z)
  | Round.

(** the scheduler and the number of rounds it has run *)
Definition fair_step (o : fair_op) (w : t * Z) : t * Z :=
  match o with
  | Enqueue c cost => (state_of (enqueue c cost) w.1, w.2)
  | Round => (state_of round w.1, w.2 + 1)
  end.

Definition fair_ok (ws : pydict string Z) (w : t * Z) : Prop :=
  weights w.1 = ws ∧
  ∀ c weight, (c, weight) ∈ ws → ∃ q d v,
    client_view w.1 c = Some (q, d, v) ∧ 0 <= d ∧ v + d = weight * w.2.

Lemma enqueue_run c cost s ws n : fair_ok ws (s, n) →
  enqueue c cost s = match d_get ws c, d_get (queues s) c with
                     | Some _, Some q => (set_queues (d_set (queues s) c (q ++ [cost])) s, Ok ())
                     | _, _ => (s, Err Invalid)
                     end.
Proof.
  intros [Hw Hok]. cbn in *. unfold enqueue. act_simpl. rewrite Hw, d_mem_get.
  destruct (d_get ws c) as [weight|] eqn:Hc; [|done]. cbn [negb]. act_simpl.
  destruct (Hok c weight (d_get_elem_of _ _ _ Hc)) as (q & d & v & Hv & _).
  apply client_view_inv in Hv as (Hq & _). unfold d_item. by rewrite Hq.
Qed.

Lemma round_fair ws s n : d_wf ws → (∀ c w, (c, w) ∈ ws → 0 < w) → fair_ok ws (s, n) →
  ∃ s', round s = (s', Ok ()) ∧ fair_ok ws (s', n + 1) ∧
    ∀ c w, (c, w) ∈ ws → ∃ v v', client_view s c = Some v ∧ client_view s' c = Some v' ∧ turn w v v'.
Proof.
  intros Hwf Hpos [Hw Hok]. cbn in *. unfold round. act_simpl. rewrite Hw.
  destruct (round_run ws s) as (s' & Hrun & Hw' & Hin & _); [done| |].
  { intros c ([c' w] & -> & Hc)%list_elem_of_fmap. destruct (Hok _ _ Hc) as (q & d & v & Hv & _). cbn. by rewrite Hv. }
  exists s'. split; [done|]. split; [|done]. split; [by cbn; rewrite Hw'|].
  intros c w Hc. cbn. destruct (Hok _ _ Hc) as (q & d & v & Hv & Hd & Hsum).
  destruct (Hin c w Hc) as (u & [[q' d'] v'] & Hu & Hu' & Ht). rewrite Hv in Hu. injection Hu as <-.
  destruct Ht as (k & _ & Hv' & Hd' & Hnn & _). specialize (Hpos _ _ Hc). exists q', d', v'. split_and!; [done| |lia].
  apply Hnn. lia.
Qed.

Lemma fair_ok_step ws o w : d_wf ws → (∀ c n, (c, n) ∈ ws → 0 < n) → fair_ok ws w → fair_ok ws (fair_step o w).
Proof.
  intros Hwf Hpos Hok. destruct w as [s n], o as [c cost|]; cbn [fair_step fst snd].
  - unfold state_of. rewrite (enqueue_run _ _ _ _ _ Hok). destruct (d_get ws c); [|done].
    destruct (d_get (queues s) c) as [q|] eqn:Hq; [|done]. cbn [fst]. destruct Hok as [Hw Hok]. split; [done|].
    intros c' w Hc'. destruct (Hok _ _ Hc') as (q' & d & v & (Hq' & Hd & Hv)%client_view_inv & Hrest). cbn in *.
    unfold client_view. cbn. rewrite d_get_set, Hd, Hv. destruct (bool_decide (c' = c)); cbn; [by eauto|].
    rewrite Hq'. cbn. by eauto.
  - destruct (round_fair ws s n Hwf Hpos Hok) as (s' & Hrun & Hok' & _). unfold state_of. by rewrite Hrun.
Qed.

Lemma fair_ok_make ws s : d_wf ws → FairQueue.make ws = Ok s →
  fair_ok ws (s, 0) ∧ (∀ c w, (c, w) ∈ ws → 0 < w) ∧ ∀ c, c ∈ d_keys ws → client_view s c = Some ([], 0, 0).
Proof.
  intros Hwf. unfold FairQueue.make, construct, __post_init__. act_simpl. destruct (existsb _ _) eqn:E; [done|].
  rewrite existsb_none in E. intros Hmake.
  assert (∀ c w, (c, w) ∈ ws → 0 < w) as Hpos.
  { intros c w Hc. apply Z.leb_gt, E, list_elem_of_fmap. by exists (c, w). }
  act_simpl in Hmake.
  set (body := λ c : string, _) in Hmake.
  assert (∀ l s0, NoDup l → (∀ c, c ∈ l → d_get (queues s0) c = None ∧ d_get (deficit s0) c = None ∧ d_get (served s0) c = None) →
    ∃ s1, for_each l body s0 = (s1, Ok ()) ∧ weights s1 = weights s0 ∧
      (∀ c, c ∈ l → client_view s1 c = Some ([], 0, 0)) ∧
      (∀ c, c ∉ l → client_view s1 c = client_view s0 c)) as Hloop.
  { clear. induction l as [|c l IH]; intros s0 Hnd Hnone.
    { exists s0. split_and!; try done. by intros c ?%elem_of_nil. }
    apply NoDup_cons in Hnd as [Hc Hnd]. destruct (Hnone c ltac:(left)) as (Hq & Hd & Hv).
    set (s1 := mk (weights s0) (d_set (queues s0) c []) (d_set (deficit s0) c 0) (d_set (served s0) c 0)).
    assert (body c s0 = (s1, Ok ())) as Hbody.
    { unfold body, s1. act_simpl. unfold d_setdefault. rewrite !d_mem_get. cbn. by rewrite Hq, Hd, Hv. }
    destruct (IH s1) as (s2 & Hrun & Hw & Hin & Hout); [done| |].
    { intros c' Hc'. unfold s1. cbn. rewrite !d_get_set_ne by (intros ->; done). apply Hnone. by right. }
    exists s2. cbn [for_each]. rewrite bind_run, Hbody. split_and!; [done|done| |].
    - intros c' [->|Hc']%elem_of_cons; [|by apply Hin]. rewrite Hout by done. unfold client_view, s1. cbn. by rewrite !d_get_set_eq.
    - intros c' [Hne Hc']%not_elem_of_cons. rewrite Hout by done. unfold client_view, s1. cbn. by rewrite !d_get_set_ne. }
  destruct (Hloop (d_keys ws) (mk ws [] [] [])) as (s1 & Hrun & Hw & Hin & _); [done|done|].
  rewrite bind_run, Hrun in Hmake. injection Hmake as <-. split; [|by split]. split; [done|].
  intros c w Hc. exists [], 0, 0. cbn. rewrite Hin; [split_and!; lia || done|]. apply list_elem_of_fmap. by exists (c, w).
Qed.
End fair.

Section hoard.
Import FairQueue.
Context (ws : pydict string Z) (Hwf : d_wf ws) (Hpos : ∀ c w, (c, w) ∈ ws → 0 < w).

Lemma fair_run_ok ops w : fair_ok ws w → fair_ok ws (run fair_step ops w).
Proof. intros Hw. apply (run_invariant fair_step (fair_ok ws)); [|done]. intros o w'. by apply fair_ok_step. Qed.

Lemma idle_rounds c weight w (n : nat) : (c, weight) ∈ ws → fair_ok ws w → client_view w.1 c = Some ([], 0, 0) → w.2 = 0 →
  client_view (run fair_step (replicate n Round) w).1 c = Some ([], weight * Z.of_nat n, 0).
Proof.
  intros Hc Hw Hv H0. assert (∃ d, client_view (run fair_step (replicate n Round) w).1 c = Some ([], d, 0) ∧
    (run fair_step (replicate n Round) w).2 = Z.of_nat n) as (d & Hd & Hn).
  { induction n as [|n IH]; [by exists 0|]. destruct IH as (d & Hd & Hn).
    rewrite replicate_S_end, run_app. pose proof (fair_run_ok (replicate n Round) w Hw) as Hok.
    destruct (run fair_step (replicate n Round) w) as [s m]. cbn in *.
    destruct (round_fair ws s m Hwf Hpos Hok) as (s' & Hrun & _ & Hturn).
    destruct (Hturn c weight Hc) as (u & [[q' d'] v'] & Hu & Hu' & Ht). rewrite Hd in Hu. injection Hu as <-.
    destruct Ht as (k & Hq' & Hv' & _).
    unfold state_of. rewrite Hrun. cbn. rewrite Hu'. rewrite drop_nil in Hq'. rewrite take_nil in Hv'. cbn in Hv'.
    exists d'. subst. split; [done|lia]. }
  destruct (proj2 (fair_run_ok (replicate n Round) w Hw) c weight Hc) as (q & d' & v & Hv' & _ & Hsum).
  rewrite Hd in Hv'. injection Hv' as <- <- <-. rewrite Hd, Hn in *. repeat f_equal. lia.
Qed.

Lemma enqueue_all c costs w q d v : c ∈ d_keys ws → fair_ok ws w → client_view w.1 c = Some (q, d, v) →
  client_view (run fair_step (Enqueue c <$> costs) w).1 c = Some (q ++ costs, d, v).
Proof.
  intros Hc. revert w q. induction costs as [|x costs IH]; intros w q Hw Hv; [by rewrite app_nil_r|].
  cbn [fmap list_fmap]. change (run fair_step (Enqueue c x :: (Enqueue c <$> costs)) w)
    with (run fair_step (Enqueue c <$> costs) (fair_step (Enqueue c x) w)).
  pose proof (fair_ok_step ws (Enqueue c x) w Hwf Hpos Hw) as Hw'.
  rewrite cons_middle, app_assoc. apply IH; [done|]. destruct w as [s m]. cbn [fair_step fst].
  unfold state_of. rewrite (enqueue_run _ _ _ _ _ Hw).
  destruct (d_get ws c) as [weight|] eqn:Hg; [|by apply d_get_None in Hg].
  cbn in Hv. apply client_view_inv in Hv as (Hq & Hd & Hs). rewrite Hq. unfold client_view. cbn.
  by rewrite d_get_set_eq, Hd, Hs.
Qed.
End hoard.

(** A client with a request waiting, whose next request costs at most [most]. *)
Definition backlogged (s : FairQueue.t) (c : string) (most : Z) : Prop :=
  ∃ cost q, d_get (FairQueue.queues s) c = Some (cost :: q) ∧ cost <= most.

(** A client that has a request waiting whenever a round begins, so that it is never idle. *)
Fixpoint never_idle (c : string) (ops : list fair_op) (w : FairQueue.t * Z) : bool :=
  match ops with
  | [] => true
  | o :: ops =>
      match o, d_get (FairQueue.queues w.1) c with
      | Round, None | Round, Some [] => false
      | _, _ => never_idle c ops (fair_step o w)
      end
  end.

(** What a round leaves of each client: it carries what was not served of its quanta, which does not pay for its
    next request. *)
Definition settled (ws : pydict string Z) (w : FairQueue.t * Z) : Prop :=
  ∀ c weight, (c, weight) ∈ ws → ∃ q d v, client_view w.1 c = Some (q, d, v) ∧ 0 <= d ∧ v + d = weight * w.2
    ∧ match q with [] => True | cost :: _ => d < cost end.

Section shares.
Context (ws : pydict string Z) (Hwf : d_wf ws) (Hpos : ∀ c w, (c, w) ∈ ws → 0 < w).

Lemma settled_run ops w : fair_ok ws w →
  fair_ok ws (run fair_step (ops ++ [Round]) w) ∧ settled ws (run fair_step (ops ++ [Round]) w).
Proof.
  intros Hok. rewrite run_app. pose proof (fair_run_ok ws Hwf Hpos ops w Hok) as Hok1.
  destruct (run fair_step ops w) as [s1 n]. destruct (round_fair ws s1 n Hwf Hpos Hok1) as (s & Hrun & Hok2 & Hturn).
  cbn [run foldl fair_step fst snd]. unfold state_of. rewrite Hrun. split; [done|].
  intros c weight Hc. destruct (proj2 Hok2 c weight Hc) as (q & d & v & Hview & Hd & Hsum).
  destruct (Hturn c weight Hc) as (u & u' & _ & Hu' & Ht). cbn [fst] in *. rewrite Hview in Hu'. injection Hu' as <-.
  destruct u as [[q0 d0] v0], Ht as (k & _ & _ & _ & _ & Hstop). by exists q, d, v.
Qed.

Lemma settled_backlogged w c weight most : settled ws w → (c, weight) ∈ ws → backlogged w.1 c most →
  ∃ d, 0 <= d < most ∧ d_getd (FairQueue.served w.1) c 0 = weight * w.2 - d.
Proof.
  intros Hw Hc (cost & q & Hq & Hle). destruct (Hw c weight Hc) as (q' & d & v & Hview & Hd & Hsum & Hstop).
  apply client_view_inv in Hview as (Hq' & _ & Hv). rewrite Hq in Hq'. injection Hq' as <-.
  exists d. unfold d_getd. rewrite Hv. cbn. unfold id. lia.
Qed.

Lemma settled_served w c weight : settled ws w → (c, weight) ∈ ws → d_getd (FairQueue.served w.1) c 0 <= weight * w.2.
Proof.
  intros Hw Hc. destruct (Hw c weight Hc) as (q & d & v & (_ & _ & Hv)%client_view_inv & Hd & Hsum & _).
  unfold d_getd. rewrite Hv. cbn. unfold id. lia.
Qed.
End shares.

(** C25 (bounds): weighted fair service.  After any enqueues and rounds no client, however much it enqueues, has been
    served more than its weight times the number of rounds.  Two clients that were never idle when a round began, and
    whose next requests cost at most [most], have been served in the ratio of their weights up to less than one such
    request of the heavier.  And over any stretch of rounds that begins and ends with a client waiting and finds it idle at
    no round, the client is served its weight times the number of rounds of the stretch up to less than
    one such request, so the services of two such clients differ from the ratio of their weights
    by less than one request each: a flood of requests buys no service beyond the weight. *)
Theorem fair_queue_shares ws s0 before during (Hwf : d_wf ws) (Hmake : FairQueue.make ws = Ok s0) :
  let w1 := run fair_step (before ++ [Round]) (s0, 0) in
  let w2 := run fair_step (during ++ [Round]) w1 in
  let served w c := d_getd (FairQueue.served (fst w)) c 0 in
  (∀ c w, (c, w) ∈ ws → served w1 c <= w * w1.2) ∧
  (∀ c c' w w' most, (c, w) ∈ ws → (c', w') ∈ ws →
     never_idle c (before ++ [Round]) (s0, 0) = true → never_idle c' (before ++ [Round]) (s0, 0) = true →
     backlogged w1.1 c most → backlogged w1.1 c' most →
     Z.abs (served w1 c * w' - served w1 c' * w) < most * Z.max w w') ∧
  let steady c most := backlogged w1.1 c most ∧ never_idle c (during ++ [Round]) w1 = true ∧ backlogged w2.1 c most in
  (∀ c w most, (c, w) ∈ ws → steady c most → Z.abs (served w2 c - served w1 c - w * (w2.2 - w1.2)) < most) ∧
  (∀ c c' w w' most, (c, w) ∈ ws → (c', w') ∈ ws → steady c most → steady c' most →
     Z.abs ((served w2 c - served w1 c) * w' - (served w2 c' - served w1 c') * w) < most * (w + w')).
Proof.
  destruct (fair_ok_make ws s0 Hwf Hmake) as (Hok & Hpos & _). intros w1 w2 served.
  destruct (settled_run ws Hwf Hpos before (s0, 0) Hok) as [Hok1 Hs1]. fold w1 in Hok1, Hs1.
  destruct (settled_run ws Hwf Hpos during w1 Hok1) as [_ Hs2]. fold w2 in Hs2.
  assert (∀ c w most, (c, w) ∈ ws → backlogged w1.1 c most → backlogged w2.1 c most →
    Z.abs (served w2 c - served w1 c - w * (w2.2 - w1.2)) < most) as Hone.
  { intros c w most Hc H1 H2. destruct (settled_backlogged ws w1 c w most Hs1 Hc H1) as (d1 & Hd1 & Hv1).
    destruct (settled_backlogged ws w2 c w most Hs2 Hc H2) as (d2 & Hd2 & Hv2). unfold served. rewrite Hv1, Hv2. lia. }
  split_and!.
  - intros c w. by apply settled_served.
  - intros c c' w w' most Hc Hc' _ _ H1 H1'. pose proof (Hpos _ _ Hc). pose proof (Hpos _ _ Hc').
    destruct (settled_backlogged ws w1 c w most Hs1 Hc H1) as (d & Hd & Hv).
    destruct (settled_backlogged ws w1 c' w' most Hs1 Hc' H1') as (d' & Hd' & Hv'). unfold served. rewrite Hv, Hv'.
    replace (_ - _) with (d' * w - d * w') by ring. nia.
  - intros steady. split; [intros c w most Hc (H1 & _ & H2); by apply Hone|].
    intros c c' w w' most Hc Hc' (H1 & _ & H2) (H1' & _ & H2'). pose proof (Hpos _ _ Hc). pose proof (Hpos _ _ Hc').
    pose proof (Hone c w most Hc H1 H2). pose proof (Hone c' w' most Hc' H1' H2').
    set (x := served w2 c - served w1 c) in *. set (x' := served w2 c' - served w1 c') in *. set (r := w2.2 - w1.2) in *.
    replace (x * w' - x' * w) with ((x - w * r) * w' - (x' - w' * r) * w) by ring. nia.
Qed.

Lemma fair_queue_shares_witness :
  let ws := [("a", 1); ("b", 2)] : pydict string Z in
  let flood := [Enqueue "a" 2; Enqueue "a" 2; Enqueue "a" 2; Enqueue "b" 3; Enqueue "b" 3; Enqueue "b" 3] in
  let s0 := FairQueue.mk ws [("a", []); ("b", [])] [("a", 0); ("b", 0)] [("a", 0); ("b", 0)] in
  let w1 := run fair_step (flood ++ [Round]) (s0, 0) in
  let w2 := run fair_step ([Round] ++ [Round]) w1 in
  never_idle "b" ([Round] ++ [Round]) w1 = true ∧
  Z.abs (d_getd (FairQueue.served w2.1) "b" 0 - d_getd (FairQueue.served w1.1) "b" 0 - 2 * (w2.2 - w1.2)) < 3.
Proof.
  intros ws flood s0 w1 w2. assert (never_idle "b" ([Round] ++ [Round]) w1 = true) as Hidle by (vm_compute; reflexivity).
  assert (d_wf ws) as Hwf by (unfold d_wf; apply (bool_decide_unpack _); vm_compute; exact I).
  destruct (fair_queue_shares ws s0 flood [Round] Hwf eq_refl) as (_ & _ & Hone & _). split; [exact Hidle|].
  apply (Hone "b" 2 3); [right; left|]. split; [|split; [exact Hidle|]].
  - exists 3, [3; 3]. split; [vm_compute; reflexivity|lia].
  - exists 3, []. split; [vm_compute; reflexivity|lia].
Defined.

(** Also (error): an idle client's quantum is hoarded.  A client that asked for nothing during [n] rounds has
    kept every quantum of them: requests worth [n + 1] quanta, enqueued together, are all served in its one next turn. *)
Theorem idle_quantum_hoarded ws s0 c w (n : nat) costs (Hwf : d_wf ws) (Hmake : FairQueue.make ws = Ok s0)
    (Hc : (c, w) ∈ ws) (Hcosts : ∀ x, x ∈ costs → 0 < x) (Hsum : zsum id costs <= w * (Z.of_nat n + 1)) :
  let s := (run fair_step (replicate n Round ++ (Enqueue c <$> costs) ++ [Round]) (s0, 0)).1 in
  d_get (FairQueue.queues s) c = Some [] ∧ d_get (FairQueue.served s) c = Some (zsum id costs).
Proof.
  destruct (fair_ok_make ws s0 Hwf Hmake) as (Hok & Hpos & Hnew). cbn zeta.
  assert (c ∈ d_keys ws) as Hk by (apply list_elem_of_fmap; by exists (c, w)).
  rewrite !run_app.
  pose proof (idle_rounds ws Hwf Hpos c w (s0, 0) n Hc Hok (Hnew c Hk) eq_refl) as Hidle.
  pose proof (fair_run_ok ws Hwf Hpos (replicate n Round) _ Hok) as Hok1.
  pose proof (enqueue_all ws Hwf Hpos c costs _ _ _ _ Hk Hok1 Hidle) as Henq.
  pose proof (fair_run_ok ws Hwf Hpos (Enqueue c <$> costs) _ Hok1) as Hok2.
  destruct (run fair_step (Enqueue c <$> costs) _) as [s2 m].
  destruct (round_fair ws s2 m Hwf Hpos Hok2) as (s & Hrun & _ & Hturn).
  destruct (Hturn c w Hc) as (u & [[q' d'] v'] & Hu & Hu' & Ht). cbn in Henq. rewrite Henq in Hu. injection Hu as <-.
  destruct Ht as (k & Hq' & Hv' & Hd' & _ & Hstop).
  cbn [run foldl fair_step fst snd]. unfold state_of. rewrite Hrun. cbn [fst].
  apply client_view_inv in Hu' as (-> & _ & ->). cbn [app] in *.
  assert (zsum id costs = zsum id (take k costs) + zsum id (drop k costs)) as Hsplit.
  { by rewrite <- zsum_app, take_drop. }
  assert (q' = []) as ->.
  { destruct q' as [|x q']; [done|]. exfalso. rewrite <- Hq', zsum_cons in Hsplit. unfold id at 3 in Hsplit.
    assert (0 <= zsum id q').
    { apply zsum_nonneg. intros y Hy. unfold id. assert (y ∈ costs) as Hin; [|specialize (Hcosts _ Hin); lia].
      rewrite <- (take_drop k costs), <- Hq'. apply elem_of_app. right. by right. }
    nia. }
  rewrite <- Hq' in Hsplit. cbn [zsum foldr] in Hsplit. split; [done|]. f_equal. lia.
Qed.

(** ** Reaping idle connections *)

Section reaper.
Import ConnectionReaper.
Implicit Types s : t.

Definition idle (timeout now : Z) (c : Connection.t) : bool :=
  negb (Connection.closed c) && (timeout <? now - Connection.last_activity c).
Definition busy (c : Connection.t) : bool := Connection.long_polling c || Connection.in_transaction c.
Definition reapable (timeout now : Z) (c : Connection.t) : bool := idle timeout now c && negb (busy c).
Definition reap_one (timeout now : Z) (c : Connection.t) : Connection.t :=
  if reapable timeout now c then Connection.set_closed true c else c.

Inductive reaper_op :=
  | Register (conn : Connection.t)
  | Touch (conn_id : string) (now : Z)
  | Reap (now : Z).

Definition reaper_step (o : reaper_op) (s : t) : t :=
  match o with
  | Register conn => state_of (register conn) s
  | Touch i now => state_of (touch i now) s
  | Reap now => state_of (reap now) s
  end.

Definition reaper_ok s : Prop :=
  d_wf (connections s) ∧ ∀ k c, d_get (connections s) k = Some c → Connection.conn_id c = k.

(** what the connections under keys [l] satisfy *)
Definition ids_where (P : Connection.t → bool) (d : pydict string Connection.t) (l : list string) : list string :=
  py_filter (λ k, match d_get d k with Some c => P c | None => false end) l.

Lemma ids_where_cons P d k l c : d_get d k = Some c →
  ids_where P d (k :: l) = if P c then k :: ids_where P d l else ids_where P d l.
Proof. intros Hk. unfold ids_where. by rewrite py_filter_cons, Hk. Qed.

Lemma ids_where_ext P d d' l : (∀ k, k ∈ l → d_get d' k = d_get d k) → ids_where P d' l = ids_where P d l.
Proof. intros H. apply filter_ext_in. intros k Hk. by rewrite H. Qed.

(** the body of the loop of [reap] *)
Definition reap_body (now : Z) : list string → string → act t (list string) :=
  λ reaped_ k,
    self ← get;
    conn ← pure_of (d_item (connections self) k);
    if Connection.closed conn then
      mret reaped_
    else
    if now - (Connection.last_activity conn) <=? idle_timeout self then
      mret reaped_
    else
    if (Connection.long_polling conn) || (Connection.in_transaction conn) then
      put (set_protected (protected self + 1) self);;
      mret reaped_
    else
    let conn := Connection.set_closed true conn in
    put (set_connections (d_set (connections self) k conn) self);;
    self ← get;
    put (set_reaped (reaped self + 1) self);;
    let reaped_ := reaped_ ++ [Connection.conn_id conn] in
    mret reaped_.

Lemma reap_run_fold now s :
  reap now s = (for_fold (d_keys (connections s)) [] (reap_body now) ≫= λ l, mret (py_sorted String.le l)) s.
Proof. reflexivity. Qed.

Lemma reap_loop now l s acc : NoDup l → (∀ k, k ∈ l → is_Some (d_get (connections s) k)) →
  (∀ k c, d_get (connections s) k = Some c → Connection.conn_id c = k) →
  ∃ s', for_fold l acc (reap_body now) s = (s', Ok (acc ++ ids_where (reapable (idle_timeout s) now) (connections s) l)) ∧
  idle_timeout s' = idle_timeout s ∧ d_keys (connections s') = d_keys (connections s) ∧
  (∀ k, d_get (connections s') k =
     (if decide (k ∈ l) then reap_one (idle_timeout s) now <$> d_get (connections s) k else d_get (connections s) k)) ∧
  reaped s' = reaped s + zlen (ids_where (reapable (idle_timeout s) now) (connections s) l) ∧
  protected s' = protected s + zlen (ids_where (λ c, idle (idle_timeout s) now c && busy c) (connections s) l).
Proof.
  revert s acc. induction l as [|k l IH]; intros s acc Hnd Hsome Hid.
  { exists s. cbn. rewrite app_nil_r, !Z.add_0_r. split_and!; try done. }
  apply NoDup_cons in Hnd as [Hk Hnd]. destruct (Hsome k ltac:(left)) as [c Hc].
  cbn [for_fold]. rewrite !(ids_where_cons _ _ _ _ _ Hc).
  assert (∃ s1, reap_body now acc k s = (s1, Ok (if reapable (idle_timeout s) now c then acc ++ [k] else acc)) ∧
    s1 = mk (idle_timeout s) (if reapable (idle_timeout s) now c then d_set (connections s) k (Connection.set_closed true c) else connections s)
           (if reapable (idle_timeout s) now c then reaped s + 1 else reaped s)
           (if idle (idle_timeout s) now c && busy c then protected s + 1 else protected s)) as (s1 & Hbody & Hs1).
  { eexists. split; [|reflexivity]. unfold reap_body. act_simpl. unfold d_item. rewrite Hc. act_simpl.
    unfold reapable, idle, busy. destruct (Connection.closed c); cbn; [by destruct s|].
    rewrite Z.ltb_antisym. destruct (_ <=? _); cbn; [by destruct s|].
    destruct (_ || _); cbn; [by destruct s|]. rewrite (Hid _ _ Hc). done. }
  assert (∀ k', k' ≠ k → d_get (connections s1) k' = d_get (connections s) k') as Hother.
  { intros k' Hne. rewrite Hs1. cbn. destruct (reapable _ _ _); [by rewrite d_get_set_ne|done]. }
  destruct (IH s1 (if reapable (idle_timeout s) now c then acc ++ [k] else acc)) as (s' & Hrun & Ht & Hkeys & Hget & Hr & Hp); [done| |..].
  { intros k' Hk'. rewrite Hother by (intros ->; done). apply Hsome. by right. }
  { intros k' c' Hk'. destruct (decide (k' = k)) as [->|Hne]; [|by apply Hid; rewrite <- Hother].
    rewrite Hs1 in Hk'. cbn in Hk'. destruct (reapable _ _ _); [rewrite d_get_set_eq in Hk'; injection Hk' as <-; cbn|]; by apply Hid. }
  assert (idle_timeout s1 = idle_timeout s) as Hto by by rewrite Hs1.
  assert (∀ P, ids_where P (connections s1) l = ids_where P (connections s) l) as Hids.
  { intros P. apply ids_where_ext. intros k' Hk'. apply Hother. by intros ->. }
  rewrite Hto, !Hids in *. exists s'. rewrite bind_run, Hbody, Hrun. split_and!.
  - destruct (reapable _ _ _); [by rewrite <- app_assoc|done].
  - done.
  - rewrite Hkeys, Hs1. cbn. destruct (reapable _ _ _); [|done]. apply d_keys_set_mem, d_get_is_Some. by rewrite Hc.
  - intros k'. rewrite Hget. destruct (decide (k' = k)) as [->|Hne].
    + rewrite (decide_False (P := k ∈ l)), (decide_True (P := k ∈ k :: l)), Hc by (done || left).
      rewrite Hs1. cbn. unfold reap_one. destruct (reapable _ _ _); [by rewrite d_get_set_eq|done].
    + rewrite Hother by done. destruct (decide (k' ∈ l)); [rewrite decide_True by by right|rewrite decide_False]; [done|done|].
      intros [?|?]%elem_of_cons; done.
  - rewrite Hr, Hs1. cbn. destruct (reapable _ _ _); rewrite ?zlen_cons; lia.
  - rewrite Hp, Hs1. cbn. destruct (idle _ _ _ && _); rewrite ?zlen_cons; lia.
Qed.

Lemma reap_run now s : reaper_ok s → ∃ s',
  reap now s = (s', Ok (py_sorted String.le (ids_where (reapable (idle_timeout s) now) (connections s) (d_keys (connections s))))) ∧
  reaper_ok s' ∧ (∀ k, d_get (connections s') k = reap_one (idle_timeout s) now <$> d_get (connections s) k) ∧
  reaped s' = reaped s + zlen (ids_where (reapable (idle_timeout s) now) (connections s) (d_keys (connections s))) ∧
  protected s' = protected s + zlen (ids_where (λ c, idle (idle_timeout s) now c && busy c) (connections s) (d_keys (connections s))).
Proof.
  intros [Hwf Hid].
  destruct (reap_loop now (d_keys (connections s)) s []) as (s' & Hrun & Ht & Hkeys & Hget & Hr & Hp); [done| |done|].
  { intros k Hk. by apply d_get_is_Some. }
  assert (∀ k, d_get (connections s') k = reap_one (idle_timeout s) now <$> d_get (connections s) k) as Hget'.
  { intros k. rewrite Hget. case_decide as Hk; [done|]. apply d_get_None in Hk. by rewrite Hk. }
  exists s'. rewrite reap_run_fold, bind_run, Hrun. split; [done|]. split; [split|done].
  - unfold d_wf. by rewrite Hkeys.
  - intros k c Hk. rewrite Hget' in Hk. apply fmap_Some in Hk as (c0 & Hc0 & ->). unfold reap_one.
    destruct (reapable _ _ _); cbn; by eapply Hid.
Qed.

Lemma reaper_ok_step o s : reaper_ok s → reaper_ok (reaper_step o s).
Proof.
  intros Hs. pose proof Hs as [Hwf Hid]. destruct o as [c|i now|now]; cbn [reaper_step].
  - unfold state_of, register. act_simpl. split; [by apply d_wf_set|]. cbn. intros k c'. rewrite d_get_set.
    case_bool_decide as Hk; [intros [= <-]; done|apply Hid].
  - unfold state_of, touch. act_simpl. destruct (d_get (connections s) i) as [c|] eqn:Hc; [|done]. act_simpl.
    destruct (Connection.closed c); act_simpl; [done|]. split; [by apply d_wf_set|]. cbn. intros k c'. rewrite d_get_set.
    case_bool_decide as Hk; [intros [= <-]; subst k; by apply Hid in Hc|apply Hid].
  - destruct (reap_run now s Hs) as (s' & Hrun & Hok & _). unfold state_of. by rewrite Hrun.
Qed.
End reaper.

(** Also (safety): the reaper closes idle connections and spares busy ones.  After any registrations, activity and
    earlier sweeps, a sweep closes exactly the open connections idle for longer than the timeout that are
    neither long polling nor in a transaction, returns their ids in order, and leaves every other
    connection as it was; the counters go up by the connections closed and by the busy ones spared. *)
Theorem reaper_spares_busy timeout r0 ops now (Hmake : ConnectionReaper.make timeout = Ok r0) :
  let s := run reaper_step ops r0 in
  let s' := state_of (ConnectionReaper.reap now) s in
  let ids P := ids_where P (ConnectionReaper.connections s) (d_keys (ConnectionReaper.connections s)) in
  (ConnectionReaper.reap now s).2 = Ok (py_sorted String.le (ids (reapable timeout now))) ∧
  (∀ k c, d_get (ConnectionReaper.connections s) k = Some c →
     d_get (ConnectionReaper.connections s') k =
     Some (if negb (Connection.closed c) && (timeout <? now - Connection.last_activity c) && negb (busy c)
           then Connection.set_closed true c else c)) ∧
  ConnectionReaper.reaped s' = ConnectionReaper.reaped s + zlen (ids (reapable timeout now)) ∧
  ConnectionReaper.protected s' = ConnectionReaper.protected s + zlen (ids (λ c, idle timeout now c && busy c)).
Proof.
  intros s s' ids. assert (reaper_ok s ∧ ConnectionReaper.idle_timeout s = timeout) as [Hok Ht].
  { unfold s. apply (run_invariant reaper_step (λ s, reaper_ok s ∧ ConnectionReaper.idle_timeout s = timeout)).
    - clear. intros o s [Hok Ht]. split; [by apply reaper_ok_step|]. destruct o as [c|i n|n]; cbn [reaper_step]; unfold state_of.
      + unfold ConnectionReaper.register. by act_simpl.
      + unfold ConnectionReaper.touch. act_simpl. destruct (d_get _ _) as [c|]; [|done]. act_simpl. by destruct (Connection.closed c).
      + destruct (reap_loop n (d_keys (ConnectionReaper.connections s)) s []) as (s' & Hrun & Ht' & _);
          [apply Hok|intros k Hk; by apply d_get_is_Some|apply Hok|].
        rewrite reap_run_fold, bind_run, Hrun. cbn. congruence.
    - unfold ConnectionReaper.make in Hmake. destruct (_ <? _); [done|]. injection Hmake as <-. split; [split; [constructor|done]|done]. }
  destruct (reap_run now s Hok) as (s1 & Hrun & _ & Hget & Hr & Hp).
  assert (s' = s1) as -> by (unfold s', state_of; by rewrite Hrun). rewrite Hrun. unfold ids. rewrite Ht in *.
  split_and!; [done| |done|done]. intros k c Hc. rewrite Hget, Hc. done.
Qed.

Lemma reaper_spares_busy_witness :
  let s := run reaper_step [Register (Connection.mk "idle" 0 false false false); Register (Connection.mk "poll" 0 true false false)]
             (ConnectionReaper.mk 10 [] 0 0) in
  (ConnectionReaper.reap 20 s).2 = Ok ["idle"].
Proof. exact (proj1 (reaper_spares_busy 10 _ [Register (Connection.mk "idle" 0 false false false); Register (Connection.mk "poll" 0 true false false)] 20 eq_refl)). Defined.

(** ** Back-off and buckets *)

(** Also (bounds): the back-off window lies between the base and the ceiling, never shrinks from one
    attempt to the next, doubles until it meets the ceiling, and stays there. *)
Theorem backoff_window_bounds base ceiling p attempt (Hmake : BackoffPolicy.make base ceiling = Ok p) (Hn : 0 <= attempt) :
  ∃ w w', BackoffPolicy.window p attempt = Ok w ∧ BackoffPolicy.window p (attempt + 1) = Ok w' ∧
    base <= w <= w' ∧ w' = Z.min ceiling (2 * w) ∧ (w = ceiling → w' = ceiling).
Proof.
  unfold BackoffPolicy.make in Hmake. destruct (_ || _) eqn:E; [done|]. bool_prop. injection Hmake as <-.
  unfold BackoffPolicy.window. cbn [BackoffPolicy.base BackoffPolicy.ceiling].
  rewrite !(proj2 (Z.ltb_ge _ 0)) by lia. rewrite Z.pow_add_r by lia.
  assert (1 <= 2 ^ attempt) by (pose proof (Z.pow_pos_nonneg 2 attempt); lia).
  do 2 eexists. split; [done|]. split; [done|]. change (2 ^ 1) with 2. nia.
Qed.


(** Also (bounds): a refill never overfills the token bucket and a drain never empties a leaky bucket below
    zero: whatever the rounding of the arithmetic, the tokens after a refill do not exceed the capacity and
    the level after a drain is not negative; a served take is covered by the tokens there; and a clock
    that runs backwards is refused and changes nothing. *)
Theorem buckets_keep_bounds b l now (Hb : TokenBucket.last_tick b <= now) (Hl : LeakyBucket.last_tick l <= now) :
  let b' := state_of (TokenBucket._refill now) b in
  f_lt (TokenBucket.capacity b) (TokenBucket.tokens b') = false ∧
  (∀ size, f_lt (TokenBucket.capacity b) size = false → f_lt (TokenBucket.tokens b') size = true →
     state_of (TokenBucket.take now size) b = b') ∧
  f_lt (LeakyBucket.level (state_of (LeakyBucket._drain now) l)) f0 = false ∧
  (∀ past size, past < TokenBucket.last_tick b → TokenBucket.take past size b = (b, Err Invalid)) ∧
  (∀ past amount, past < LeakyBucket.last_tick l → LeakyBucket.offer past amount l = (l, Err Invalid)).
Proof.
  assert (∀ n, TokenBucket.last_tick b <= n → TokenBucket._refill n b =
    (TokenBucket.mk (TokenBucket.capacity b) (TokenBucket.refill_per_tick b)
      (f_min (TokenBucket.capacity b) (f_add (TokenBucket.tokens b) (f_mul (of_Z (n - TokenBucket.last_tick b)) (TokenBucket.refill_per_tick b)))) n, Ok ())) as Hrefill.
  { intros n Hle. unfold TokenBucket._refill. act_simpl. by rewrite (proj2 (Z.ltb_ge n _)) by lia. }
  split_and!.
  - unfold state_of. rewrite Hrefill by done. apply f_min_upper.
  - intros size Hcap Hlt. unfold state_of in *. rewrite Hrefill in * by done. cbn in Hlt.
    unfold TokenBucket.take. act_simpl. rewrite Hcap. act_simpl. rewrite bind_run, Hrefill by done. act_simpl. cbn.
    rewrite (f_lt_not_ge _ _ Hlt). act_simpl. by destruct (f_div _ _).
  - unfold state_of, LeakyBucket._drain. act_simpl. rewrite (proj2 (Z.ltb_ge now _)) by lia. act_simpl. apply f_max_lower.
  - intros past size Hp. unfold TokenBucket.take, TokenBucket._refill. act_simpl. destruct (f_lt _ _); [done|]. act_simpl.
    by rewrite (proj2 (Z.ltb_lt past _)) by lia.
  - intros past amount Hp. unfold LeakyBucket.offer, LeakyBucket._drain. act_simpl.
    by rewrite (proj2 (Z.ltb_lt past _)) by lia.
Qed.
