(* ===== verification/Processing.v ===== *)
(** * Stream processing: windows, joins and connectors

    Windows: [relay/hoppingwindow.py] (overlapping windows of a fixed size), [relay/streamtime.py] and [relay/eventtime.py]
    (watermarks and late events), [relay/sessionwindowmerge.py] (sessions fused by a late event), [relay/punctuate.py] and
    [relay/intervalscheduler.py] (callbacks by time).  Tables: [relay/tablestreamduality.py], [relay/globaltable.py],
    [relay/globaltablejoin.py], [relay/temporaljoin.py], [relay/cogroup.py], [relay/outerjoin.py], [relay/rangequery.py],
    [relay/interactivequery.py].  Operators: [relay/flatmap.py], [relay/branch.py], [relay/smt.py], [relay/repartition.py],
    [relay/aggregatemerge.py], [relay/retraction.py], [relay/streammerge.py],
    [relay/watermarkpropagation.py].  Edges of a topology: [relay/sinkconnector.py],
    [relay/connectoroffset.py], [relay/callbackorder.py].

    A function a user passes to an operator is an argument that may raise.  The session windows are proved equal to a
    declarative definition ([is_session]). *)

From Stdlib Require Import Strings.Byte Strings.Ascii.
From S2P Require Import Prelude PyDict PyBytes PyFloat.

Module aggregatemerge.
(** [relay/aggregatemerge.py] merge_associative *)
Definition merge_associative (partials : list Z) (combine : Z → Z → Z) : result Z :=
  if bool_decide (partials = []) then Err Invalid else
  left ← py_index partials 0;
  left ← r_fold (drop 1 partials) left (λ left p,
    let left := combine left p in
    Ok left);
  Ok left.
(** [relay/aggregatemerge.py] is_associative *)
Definition is_associative (combine : Z → Z → Z) (sample : list Z) : result bool :=
  if zlen sample <? 3 then
    Ok true
  else
  x ← py_index sample 0;
  x1 ← py_index sample 1;
  x2 ← py_index sample 2;
  let '(a, b, c) := (x, x1, x2) in
  Ok (combine (combine a b) c =? combine a (combine b c)).
Module MeanPartial.
(** [relay/aggregatemerge.py] class MeanPartial *)
Record t := mk { total : Z; count : Z; }.
(** [relay/aggregatemerge.py] MeanPartial.merge *)
Definition merge (self : t) (other : MeanPartial.t) : MeanPartial.t :=
  MeanPartial.mk (total self + (MeanPartial.total other)) (count self + (MeanPartial.count other)).
(** [relay/aggregatemerge.py] MeanPartial.mean *)
Definition mean (self : t) : result float :=
  if count self =? 0 then Err Invalid else
  z_truediv (total self) (count self).
End MeanPartial.
(** [relay/aggregatemerge.py] merge_means *)
Definition merge_means (partials : list MeanPartial.t) : result string :=
  if bool_decide (partials = []) then Err Invalid else
  merged ← py_index partials 0;
  merged ← r_fold (drop 1 partials) merged (λ merged p,
    let merged := MeanPartial.merge merged p in
    Ok merged);
  xs ← mapM (λ p, r ← MeanPartial.mean p; Ok r) partials;
  naive ← f_div (f_sum ((λ p, p) <$> xs)) (of_Z (zlen partials));
  correct ← MeanPartial.mean merged;
  Ok ("correct mean " +:+ fmt_fixed 2 correct +:+ " from merged sum "
        +:+ zs (MeanPartial.total merged) +:+ " and count " +:+ zs (MeanPartial.count merged)
        +:+ "; averaging the averages would give " +:+ fmt_fixed 2 naive
        +:+ ", wrong unless every partition had the same count").
End aggregatemerge.
Import aggregatemerge.

Module cogroup.
Module CoGroup.
(** [relay/cogroup.py] class CoGroup *)
Record t := mk {
  aggregators : pydict string (Z → Z → Z);
  partitions : Z;
  state : pydict string Z;
  contributors : pydict string (gset string);
}.
Definition set_state (v : pydict string Z) (self : t) : t := mk (aggregators self) (partitions self) v (contributors self).
Definition set_contributors (v : pydict string (gset string)) (self : t) : t := mk (aggregators self) (partitions self) (state self) v.
(** [relay/cogroup.py] CoGroup.__post_init__ *)
Definition make (aggregators : pydict string (Z → Z → Z)) (partitions : Z) : result t :=
  if bool_decide (aggregators = []) then Err Invalid else
  Ok (mk aggregators partitions [] []).
(** [relay/cogroup.py] CoGroup.require_copartitioned *)
Definition require_copartitioned (self : t) (stream_partitions : Z) : result unit :=
  if negb (stream_partitions =? partitions self) then Err Invalid else
  Ok ().
(** [relay/cogroup.py] CoGroup.apply *)
Definition apply (stream : string) (key : string) (value : Z) : act t Z :=
  self ← get;
  raise_if (negb (d_mem (aggregators self) stream)) Invalid;;
  let current := d_getd (state self) key 0 in
  v ← pure_of (d_item (aggregators self) stream);
  put (set_state (d_set (state self) key (v current value)) self);;
  self ← get;
  put (set_contributors (d_set (contributors self) key ({[stream]} ∪ (d_getd (contributors self) key (∅)))) self);;
  self ← get;
  pure_of (d_item (state self) key).
(** [relay/cogroup.py] CoGroup.completeness *)
Definition completeness (self : t) (key : string) : string :=
  let seen := Z.of_nat (base.size (d_getd (contributors self) key (∅))) in
  let total := zlen (aggregators self) in
  if seen <? total then
    "key '" +:+ key +:+ "' has " +:+ zs seen +:+ "/" +:+ zs total
          +:+ " stream(s) contributing; an incomplete value the other streams have not reached yet"
  else
  "key '" +:+ key +:+ "' has all " +:+ zs total +:+ " stream(s); a complete value".
End CoGroup.
End cogroup.
Import cogroup.

Module eventtime.
(** [relay/eventtime.py] USE_ARRIVAL *)
Definition USE_ARRIVAL : string := "arrival".
(** [relay/eventtime.py] DROP *)
Definition DROP : string := "drop".
(** [relay/eventtime.py] FAIL *)
Definition FAIL : string := "fail".
(** [relay/eventtime.py] _MAX_REASONABLE *)
Definition _MAX_REASONABLE : Z := 10 ^ 15.
Module EventTimeExtractor.
(** [relay/eventtime.py] class EventTimeExtractor *)
Record t := mk { field_name : string; fallback : string; fell_back : Z; }.
Definition set_fell_back (v : Z) (self : t) : t := mk (field_name self) (fallback self) v.
(** [relay/eventtime.py] EventTimeExtractor.__post_init__ *)
Definition make (field_name : string) (fallback : string) : result t :=
  if negb (bool_decide (fallback ∈ [USE_ARRIVAL; DROP; FAIL])) then Err Invalid else
  Ok (mk field_name fallback 0).
(** [relay/eventtime.py] EventTimeExtractor._fall_back *)
Definition _fall_back (arrival_time : Z) : act t (option Z) :=
  self ← get;
  put (set_fell_back (fell_back self + 1) self);;
  self ← get;
  if bool_decide (fallback self = USE_ARRIVAL) then
    mret (Some arrival_time)
  else
  if bool_decide (fallback self = DROP) then
    mret None
  else
  raise Invalid.
(** [relay/eventtime.py] EventTimeExtractor.extract *)
Definition extract (record : pydict string pyval) (arrival_time : Z) : act t (option Z) :=
  self ← get;
  let raw := d_get record (field_name self) in
  match raw with
  | Some (PInt raw) =>
      raise_if ((raw <? 0) || (_MAX_REASONABLE <? raw)) Invalid;;
      mret (Some raw)
  | _ => _fall_back arrival_time
  end.
(** [relay/eventtime.py] EventTimeExtractor.fallback_note *)
Definition fallback_note (self : t) (total : Z) : result string :=
  if total =? 0 then
    Ok "no records processed"
  else
  q ← z_truediv (fell_back self) total;
  let pct := f_mul q (of_Z 100) in
  Ok (zs (fell_back self) +:+ "/" +:+ zs total +:+ " record(s) fell back ("
        +:+ fmt_fixed 0 pct
        +:+ "%); mostly falling back is the wrong field or data without event time, a config error before the windows come out wrong").
End EventTimeExtractor.
End eventtime.
Import eventtime.

Module flatmap.
Module FlatMap.
(** [relay/flatmap.py] class FlatMap *)
Record t := mk { fan_out : Z → (list Z); inputs : Z; outputs : Z; }.
Definition set_inputs (v : Z) (self : t) : t := mk (fan_out self) v (outputs self).
Definition set_outputs (v : Z) (self : t) : t := mk (fan_out self) (inputs self) v.
Definition new (fan_out : Z → (list Z)) : t := mk fan_out 0 0.
(** [relay/flatmap.py] FlatMap.apply *)
Definition apply (record : Z) : act t (list Z) :=
  self ← get;
  let result_ := fan_out self record in
  put (set_inputs (inputs self + 1) self);;
  self ← get;
  put (set_outputs (outputs self + (zlen result_)) self);;
  mret result_.
(** [relay/flatmap.py] FlatMap.apply_all *)
Definition apply_all (records : list Z) : act t (list Z) :=
  let out : list Z := [] in
  out ← for_fold records out (λ out r,
    r1 ← apply r;
    let out := out ++ r1 in
    mret out);
  mret out.
(** [relay/flatmap.py] FlatMap.fan_out_ratio *)
Definition fan_out_ratio (self : t) : result float :=
  if inputs self =? 0 then
    Ok f0
  else
  z_truediv (outputs self) (inputs self).
(** [relay/flatmap.py] FlatMap.report *)
Definition report (self : t) : result string :=
  ratio ← fan_out_ratio self;
  let kind := if f_lt (of_Z 1) ratio then "an amplifier" else if f_lt ratio (of_Z 1) then "a filter" else "one-to-one" in
  Ok ("fan-out " +:+ fmt_fixed 1 ratio +:+ "x (" +:+ zs (outputs self) +:+ "/"
        +:+ zs (inputs self) +:+ "), " +:+ kind
        +:+ "; size the downstream from this measured ratio, not the intended one, or an amplification no one counted buries it").
End FlatMap.
End flatmap.
Import flatmap.

Module globaltable.
Module GlobalTable.
(** [relay/globaltable.py] class GlobalTable *)
Record t := mk {
  estimated_bytes : Z;
  instance_memory : Z;
  instances : Z;
  safe_fraction : float;
  loaded : bool;
  data : pydict string string;
}.
Definition set_loaded (v : bool) (self : t) : t := mk (estimated_bytes self) (instance_memory self) (instances self) (safe_fraction self) v (data self).
Definition set_data (v : pydict string string) (self : t) : t := mk (estimated_bytes self) (instance_memory self) (instances self) (safe_fraction self) (loaded self) v.
(** [relay/globaltable.py] GlobalTable.__post_init__ *)
Definition make (estimated_bytes : Z) (instance_memory : Z) (instances : Z) (safe_fraction : float) : result t :=
  let budget := f_mul (of_Z instance_memory) safe_fraction in
  if fz_lt budget estimated_bytes then Err Invalid else
  Ok (mk estimated_bytes instance_memory instances safe_fraction false []).
(** [relay/globaltable.py] GlobalTable.finish_load *)
Definition finish_load (rows : pydict string string) : act t unit :=
  self ← get;
  put (set_data rows self);;
  self ← get;
  put (set_loaded true self).
(** [relay/globaltable.py] GlobalTable.lookup *)
Definition lookup_ (self : t) (key : string) : result string :=
  if negb (loaded self) then Err Invalid else
  if negb (d_mem (data self) key) then Err Invalid else
  d_item (data self) key.
(** [relay/globaltable.py] GlobalTable.cluster_footprint *)
Definition cluster_footprint (self : t) : string :=
  let total := (estimated_bytes self) * (instances self) in
  zs (estimated_bytes self) +:+ " byte(s) on each of " +:+ zs (instances self)
        +:+ " instance(s) = " +:+ zs total
        +:+ " across the cluster; cheap per key, expensive per instance, and this is the multiplication to see before declaring one global".
End GlobalTable.
End globaltable.
Import globaltable.

Module globaltablejoin.
(** [relay/globaltablejoin.py] INNER *)
Definition INNER : string := "inner".
(** [relay/globaltablejoin.py] LEFT *)
Definition LEFT : string := "left".
Module GlobalTableJoin.
(** [relay/globaltablejoin.py] class GlobalTableJoin *)
Record t := mk {
  table : pydict string string;
  foreign_key : (pydict string pyval) → string;
  join_type : string;
  hits : Z;
  misses : Z;
}.
Definition set_hits (v : Z) (self : t) : t := mk (table self) (foreign_key self) (join_type self) v (misses self).
Definition set_misses (v : Z) (self : t) : t := mk (table self) (foreign_key self) (join_type self) (hits self) v.
(** [relay/globaltablejoin.py] GlobalTableJoin.__post_init__ *)
Definition make (table : pydict string string) (foreign_key : (pydict string pyval) → string) (join_type : string) : result t :=
  if negb (bool_decide (join_type ∈ [INNER; LEFT])) then Err Invalid else
  Ok (mk table foreign_key join_type 0 0).
(** [relay/globaltablejoin.py] GlobalTableJoin.join *)
Definition join (record : pydict string pyval) : act t (option (pydict string pyval)) :=
  self ← get;
  let fk := foreign_key self record in
  if d_mem (table self) fk then
    put (set_hits (hits self + 1) self);;
    self ← get;
    v ← pure_of (d_item (table self) fk);
    mret (Some (d_set record "enriched" (PStr v)))
  else
  put (set_misses (misses self + 1) self);;
  self ← get;
  if bool_decide (join_type self = LEFT) then
    mret (Some (d_set record "enriched" PNone))
  else
  mret None.
(** [relay/globaltablejoin.py] GlobalTableJoin.join_batch *)
Definition join_batch (records : list (pydict string pyval)) : act t (list (pydict string pyval)) :=
  let out := [] in
  out ← for_fold records out (λ out r,
    joined ← join r;
    out ← match joined with
      | None =>
          mret out
      | Some joined =>
          let out := out ++ [joined] in
          mret out
      end;
    mret out);
  mret out.
(** [relay/globaltablejoin.py] GlobalTableJoin.miss_rate *)
Definition miss_rate (self : t) : result string :=
  let total := hits self + (misses self) in
  if total =? 0 then
    Ok "no records joined yet"
  else
  q ← z_truediv (misses self) total;
  let pct := f_mul q (of_Z 100) in
  Ok (zs (misses self) +:+ "/" +:+ zs total +:+ " missed the table (" +:+ fmt_fixed 0 pct
        +:+ "%); mostly missing is a foreign key extracted wrong or a table not fully loaded, dropping or null-enriching events that should have matched").
End GlobalTableJoin.
End globaltablejoin.
Import globaltablejoin.

Module hoppingwindow.
Module HoppingWindows.
(** [relay/hoppingwindow.py] class HoppingWindows *)
Record t := mk { size_ : Z; hop : Z; }.
(** [relay/hoppingwindow.py] HoppingWindows.__post_init__ *)
Definition make (size_ : Z) (hop : Z) : result t :=
  if (size_ <? 1) || (hop <? 1) then Err Invalid else
  if size_ <? hop then Err Invalid else
  Ok (mk size_ hop).
(** [relay/hoppingwindow.py:55-58] HoppingWindows.windows_for: [hop] is positive, so
    [time - start + 1] turns are enough *)
Fixpoint starts_loop (self : t) (time start : Z) (fuel : nat) : list Z :=
  match fuel with
  | O => []
  | S fuel =>
      if start <=? time then
        (if (start <=? time) && (time <? start + size_ self) then [start] else [])
        ++ starts_loop self time (start + hop self) fuel
      else []
  end.
(** [relay/hoppingwindow.py] HoppingWindows.windows_for *)
Definition windows_for (self : t) (time : Z) : result (list Z) :=
  q ← py_div (time - (size_ self)) (hop self);
  let earliest_start := (q + 1) * (hop self) in
  let earliest_start := Z.max 0 earliest_start in
  let start := earliest_start in
  let starts := starts_loop self time start (Z.to_nat (time - start + 1)) in
  Ok starts.
(** [relay/hoppingwindow.py] HoppingWindows.overlap_factor *)
Definition overlap_factor (self : t) : result Z :=
  q ← py_div (- (size_ self)) (hop self);
  Ok (- q).
(** [relay/hoppingwindow.py] HoppingWindows.report *)
Definition report (self : t) : result string :=
  factor ← overlap_factor self;
  Ok ("size " +:+ zs (size_ self) +:+ " hop " +:+ zs (hop self) +:+ ": each record lands in "
        +:+ zs factor
        +:+ " window(s) at once; a smaller hop smooths the view and multiplies the state and output by that factor").
End HoppingWindows.
End hoppingwindow.
Import hoppingwindow.

Module interactivequery.
Module QueryRouter.
Section query_router.
Context (hash : string → Z).

(** [relay/interactivequery.py] class QueryRouter *)
Record t := mk { partitions : Z; owners : pydict Z string; standbys : pydict Z string; }.
(** [relay/interactivequery.py] QueryRouter.__post_init__ *)
Definition make (partitions : Z) : result t :=
  if partitions <? 1 then Err Invalid else
  Ok (mk partitions [] []).
(** [relay/interactivequery.py] QueryRouter.partition_for *)
Definition partition_for (self : t) (key : string) : result Z :=
  py_mod (Z.land (hash key) 0x7FFFFFFF) (partitions self).
(** [relay/interactivequery.py] QueryRouter.owner_of *)
Definition owner_of (self : t) (key : string) : result string :=
  part ← partition_for self key;
  let owner := d_get (owners self) part in
  match owner with
  | None =>
      Err Invalid
  | Some owner =>
      Ok owner
  end.
(** [relay/interactivequery.py] QueryRouter.route *)
Definition route (self : t) (key : string) (arrived_at : string) : result string :=
  owner ← owner_of self key;
  if bool_decide (arrived_at = owner) then
    Ok ("served '" +:+ key +:+ "' locally at '" +:+ owner +:+ "'")
  else
  Ok ("redirect '" +:+ key +:+ "' from '" +:+ arrived_at +:+ "' to its owner '" +:+ owner +:+ "'").
(** [relay/interactivequery.py] QueryRouter.route_with_fallback *)
Definition route_with_fallback (self : t) (key : string) : result string :=
  part ← partition_for self key;
  if d_mem (owners self) part then
    v ← d_item (owners self) part;
    Ok ("served by active owner '" +:+ v +:+ "'")
  else
  let standby := d_get (standbys self) part in
  match standby with
  | None =>
      Err Invalid
  | Some standby =>
      Ok ("active down; served by standby '" +:+ standby
            +:+ "' with a stale-read caveat, it may be slightly behind")
  end.
End query_router.
End QueryRouter.
End interactivequery.
Import interactivequery.

Module intervalscheduler.
(** [relay/intervalscheduler.py] select *)
Definition select (intervals : list (Z * Z)) : result (list (Z * Z)) :=
  r_fold intervals () (λ _ '(start, end_),
    if end_ <=? start then Err Invalid else
    Ok ());;
  let chosen : list (Z * Z) := [] in
  let last_end := None in
  '(last_end, chosen) ← r_fold (py_sorted (key_le (λ iv, iv.2)) intervals) (last_end, chosen) (λ '(last_end, chosen) '(start, end_),
    if match last_end with None => true | Some last_end => last_end <=? start end
    then Ok (Some end_, chosen ++ [(start, end_)])
    else Ok (last_end, chosen));
  Ok chosen.
(** [relay/intervalscheduler.py] schedule_report *)
Definition schedule_report (intervals : list (Z * Z)) : result string :=
  if bool_decide (intervals = []) then
    Ok "no intervals offered; nothing to schedule"
  else
  fit ← select intervals;
  Ok (zs (zlen fit) +:+ "/" +:+ zs (zlen intervals)
        +:+ " interval(s) fit without overlap; fitting few of many is a resource oversubscribed, more jobs wanting the slot than the non-overlap constraint allows").
End intervalscheduler.
Import intervalscheduler.

Module outerjoin.
Module OuterJoin.
(** [relay/outerjoin.py] class OuterJoin *)
Record t := mk { window : Z; pending : pydict string (Z * bool); }.
Definition set_pending (v : pydict string (Z * bool)) (self : t) : t := mk (window self) v.
Definition new (window : Z) : t := mk window [].
(** [relay/outerjoin.py] OuterJoin.arrive *)
Definition arrive (key : string) (time : Z) : act t unit :=
  self ← get;
  put (set_pending (d_set (pending self) key (time, false)) self).
(** [relay/outerjoin.py] OuterJoin.match *)
Definition match_ (key : string) : act t string :=
  self ← get;
  raise_if (negb (d_mem (pending self) key)) Invalid;;
  v ← pure_of (d_item (pending self) key);
  let '(arrival, _) := v in
  put (set_pending (d_set (pending self) key (arrival, true)) self);;
  mret ("joined pair for '" +:+ key +:+ "'; the pending unmatched emission is cancelled").
(** [relay/outerjoin.py] OuterJoin.window_closed *)
Definition window_closed (self : t) (key : string) (watermark : Z) : result bool :=
  if negb (d_mem (pending self) key) then
    Ok false
  else
  v ← d_item (pending self) key;
  let '(arrival, _) := v in
  Ok (arrival + (window self) <? watermark).
(** [relay/outerjoin.py] OuterJoin.advance *)
Definition advance (watermark : Z) : act t (list string) :=
  let emitted := [] in
  self ← get;
  emitted ← for_fold (d_keys (pending self)) emitted (λ emitted key,
    self ← get;
    v ← pure_of (d_item (pending self) key);
    let '(arrival, matched) := v in
    emitted ← (if (negb matched) && (arrival + (window self) <? watermark) then
       let emitted := emitted ++ [key] in
       put (set_pending (d_del (pending self) key) self);;
       mret emitted
     else
       mret emitted);
    mret emitted);
  mret emitted.
(** [relay/outerjoin.py] OuterJoin.emit_unmatched *)
Definition emit_unmatched (key : string) (watermark : Z) : act t string :=
  self ← get;
  r ← pure_of (window_closed self key watermark);
  raise_if (negb r) Invalid;;
  put (set_pending (d_del (pending self) key) self);;
  mret ("emitted '" +:+ key +:+ "' with a null; its window closed unmatched").
(** [relay/outerjoin.py] OuterJoin.report *)
Definition report (self : t) : string :=
  let waiting := zlen (py_filter (λ '(_, matched), negb matched) (d_values (pending self))) in
  zs waiting
        +:+ " record(s) pending a match; a growing set is a join whose one side lags, matches landing just before windows close, the worst case for outer-join latency".
End OuterJoin.
End outerjoin.
Import outerjoin.

Module punctuate.
(** [relay/punctuate.py] STREAM_TIME *)
Definition STREAM_TIME : string := "stream-time".
(** [relay/punctuate.py] WALL_CLOCK *)
Definition WALL_CLOCK : string := "wall-clock".
Module Punctuation.
(** [relay/punctuate.py] class Punctuation *)
Record t := mk { clock : string; interval : Z; next_mark : Z; fires : Z; }.
Definition set_next_mark (v : Z) (self : t) : t := mk (clock self) (interval self) v (fires self).
Definition set_fires (v : Z) (self : t) : t := mk (clock self) (interval self) (next_mark self) v.
(** [relay/punctuate.py] Punctuation.__post_init__ *)
Definition __post_init__ : act t unit :=
  self ← get;
  raise_if (negb (bool_decide (clock self ∈ [STREAM_TIME; WALL_CLOCK]))) Invalid;;
  raise_if (interval self <? 1) Invalid;;
  put (set_next_mark (interval self) self).
(** [relay/punctuate.py] Punctuation.__post_init__ *)
Definition make (clock : string) (interval : Z) : result t := construct __post_init__ (mk clock interval 0 0).
(** [relay/punctuate.py:61-64] Punctuation.on_stream_time: [interval] is positive, so
    [now - next_mark + 1] turns are enough *)
Fixpoint fire_loop (now : Z) (fired : Z) (fuel : nat) : act t Z :=
  self ← get;
  if next_mark self <=? now then
    match fuel with
    | O => raise OutOfFuel
    | S fuel =>
        put (set_next_mark (next_mark self + interval self) self);;
        self ← get;
        put (set_fires (fires self + 1) self);;
        fire_loop now (fired + 1) fuel
    end
  else mret fired.
(** [relay/punctuate.py] Punctuation.on_stream_time *)
Definition on_stream_time (stream_time : Z) : act t Z :=
  self ← get;
  if negb (bool_decide (clock self = STREAM_TIME)) then
    mret 0
  else
  let fired := 0 in
  fired ← fire_loop stream_time fired (Z.to_nat (stream_time - next_mark self + 1));
  mret fired.
(** [relay/punctuate.py] Punctuation.on_wall_clock *)
Definition on_wall_clock (now : Z) : act t Z :=
  self ← get;
  if negb (bool_decide (clock self = WALL_CLOCK)) then
    mret 0
  else
  let fired := 0 in
  fired ← fire_loop now fired (Z.to_nat (now - next_mark self + 1));
  mret fired.
(** [relay/punctuate.py] Punctuation.idle_note *)
Definition idle_note (self : t) (stream_time : Z) (wall_clock : Z) : string :=
  if negb (bool_decide (clock self = STREAM_TIME)) then
    "wall-clock punctuation fires on schedule even when idle"
  else
  let gap := wall_clock - stream_time in
  "stream-time punctuation last mark " +:+ zs (next_mark self - (interval self))
        +:+ ", stream time " +:+ zs stream_time +:+ ", wall clock " +:+ zs wall_clock
        +:+ ": a gap of " +:+ zs gap
        +:+ " means a stalled stream whose stream-time punctuations have silently stopped".
End Punctuation.
End punctuate.
Import punctuate.

Module rangequery.
(** [bisect.bisect_left(keys, x)] and [bisect.bisect_right(keys, x)] of a sorted list *)
Definition bisect_left (keys : list Z) (x : Z) : nat := length (py_filter (λ k, k <? x) keys).
Definition bisect_right (keys : list Z) (x : Z) : nat := length (py_filter (λ k, k <=? x) keys).

Module SortedIndex.
(** [relay/rangequery.py] class SortedIndex *)
Record t := mk { keys : list Z; }.
(** [relay/rangequery.py] SortedIndex.__post_init__ *)
Definition make (keys : list Z) : result t :=
  r_fold (py_range 1 (zlen keys)) () (λ _ i,
    x ← py_index keys i;
    x1 ← py_index keys (i - 1);
    if x <? x1 then Err Invalid else
    Ok ());;
  Ok (mk keys).
(** [relay/rangequery.py] SortedIndex.range *)
Definition range (self : t) (low : Z) (high : Z) : result (list Z) :=
  if high <? low then Err Invalid else
  let start := bisect_left (keys self) low in
  let end_ := bisect_right (keys self) high in
  Ok (take (end_ - start) (drop start (keys self))).
(** [relay/rangequery.py] SortedIndex.selectivity *)
Definition selectivity (self : t) (low : Z) (high : Z) : result string :=
  r ← range self low high;
  let slice_size := zlen r in
  let total := zlen (keys self) in
  if total =? 0 then
    Ok "empty index; nothing to scan"
  else
  q ← z_truediv slice_size total;
  let frac := f_mul q (of_Z 100) in
  Ok (zs slice_size +:+ "/" +:+ zs total +:+ " entries in range (" +:+ fmt_fixed 0 frac
        +:+ "%); a range returning most of the index is a scan in disguise, cheap only when narrow").
End SortedIndex.
End rangequery.
Import rangequery.

Module repartition.
Module Repartitioner.
Section repartitioner.
Context (hash : string → Z).

(** [relay/repartition.py] class Repartitioner *)
Record t := mk { partitions : Z; routed : pydict string (gset Z); }.
Definition set_routed (v : pydict string (gset Z)) (self : t) : t := mk (partitions self) v.
(** [relay/repartition.py] Repartitioner.__post_init__ *)
Definition make (partitions : Z) : result t :=
  if partitions <? 1 then Err Invalid else
  Ok (mk partitions []).
(** [relay/repartition.py] Repartitioner.partition_for *)
Definition partition_for (new_key : string) : act t Z :=
  self ← get;
  target ← pure_of (py_mod (Z.land (hash new_key) 0x7FFFFFFF) (partitions self));
  put (set_routed (d_set (routed self) new_key ({[target]} ∪ d_getd (routed self) new_key ∅)) self);;
  mret target.
(** [relay/repartition.py] Repartitioner.is_grouping_safe *)
Definition is_grouping_safe (self : t) (new_key : string) : bool :=
  Z.of_nat (base.size (d_getd (routed self) new_key (∅))) <=? 1.
(** [relay/repartition.py] Repartitioner.require_grouping_safe *)
Definition require_grouping_safe (self : t) (new_key : string) : result unit :=
  if negb (is_grouping_safe self new_key) then Err Invalid else
  Ok ().
(** [relay/repartition.py] Repartitioner.shuffle_cost *)
Definition shuffle_cost (self : t) (changed : Z) (total : Z) : result string :=
  if total =? 0 then
    Ok "no records; no shuffle"
  else
  q ← z_truediv changed total;
  let pct := f_mul q (of_Z 100) in
  Ok (zs changed +:+ "/" +:+ zs total +:+ " record(s) changed partition (" +:+ fmt_fixed 0 pct
        +:+ "%); a repartition writes every record back to a topic and reads it again, doubling the traffic for that step").
End repartitioner.
End Repartitioner.
End repartition.
Import repartition.

Module retraction.
Module RetractingEmitter.
(** [relay/retraction.py] class RetractingEmitter *)
Record t := mk { emitted : pydict Z Z; retractions : Z; }.
Definition set_emitted (v : pydict Z Z) (self : t) : t := mk v (retractions self).
Definition set_retractions (v : Z) (self : t) : t := mk (emitted self) v.
Definition new : t := mk [] 0.
(** [relay/retraction.py] RetractingEmitter.emit *)
Definition emit (window : Z) (value : Z) : act t (list (string * Z * Z)) :=
  let out : list (string * Z * Z) := [] in
  self ← get;
  out ← (if d_mem (emitted self) window then
     v ← pure_of (d_item (emitted self) window);
     let out := out ++ [("retract", window, v)] in
     put (set_retractions (retractions self + 1) self);;
     mret out
   else
     mret out);
  let out := out ++ [("add", window, value)] in
  self ← get;
  put (set_emitted (d_set (emitted self) window value) self);;
  mret out.
(** [relay/retraction.py] RetractingEmitter.retract_only *)
Definition retract_only (window : Z) : act t (string * Z * Z) :=
  self ← get;
  raise_if (negb (d_mem (emitted self) window)) Invalid;;
  v ← pure_of (d_item (emitted self) window);
  put (set_emitted (d_del (emitted self) window) self);;
  let value := v in
  self ← get;
  put (set_retractions (retractions self + 1) self);;
  mret ("retract", window, value).
(** [relay/retraction.py] RetractingEmitter.net_effect *)
Definition net_effect (self : t) (records : list (string * Z * Z)) : Z :=
  let total := 0 in
  let total := foldl (λ total '(kind, _window, value),
    let total := total + (if bool_decide (kind = "add") then value else - value) in
    total) total records in
  total.
(** [relay/retraction.py] RetractingEmitter.report *)
Definition report (self : t) : string :=
  zs (retractions self)
        +:+ " retraction(s) emitted; a stream emitting many is seeing many late records, where suppressing until the window closed might send less than a retraction per late arrival".
End RetractingEmitter.
End retraction.
Import retraction.

Module sessionwindowmerge.
Module _Session.
(** [relay/sessionwindowmerge.py] class _Session *)
Record t := mk { start : Z; end_ : Z; count : Z; }.
#[global] Instance eq_dec : EqDecision t.
Proof. solve_decision. Defined.
End _Session.
Module SessionWindowMerge.
(** [relay/sessionwindowmerge.py] class SessionWindowMerge *)
Record t := mk { gap : Z; sessions : list _Session.t; }.
Definition set_sessions (v : list _Session.t) (self : t) : t := mk (gap self) v.
(** [relay/sessionwindowmerge.py] SessionWindowMerge.__post_init__ *)
Definition make (gap : Z) : result t :=
  if gap <=? 0 then Err Invalid else
  Ok (mk gap []).
(** [l.remove(x)]: the first element equal to [x], or [ValueError] *)
Fixpoint list_remove (l : list _Session.t) (x : _Session.t) : result (list _Session.t) :=
  match l with
  | [] => Err ValueError
  | y :: l => if bool_decide (y = x) then Ok l else l ← list_remove l x; Ok (y :: l)
  end.
(** [relay/sessionwindowmerge.py] SessionWindowMerge.add_event *)
Definition add_event (timestamp : Z) : act t unit :=
  self ← get;
  let touched := py_filter (λ s, (_Session.start s - (gap self) <=? timestamp) && (timestamp <=? _Session.end_ s + (gap self))) (sessions self) in
  (if bool_decide (touched = []) then
     put (set_sessions (sessions self ++ [_Session.mk timestamp timestamp 1]) self)
   else
     start ← pure_of (match ((λ s, _Session.start s) <$> touched) ++ [timestamp] with [] => Err ValueError | x :: l => Ok (py_min x l) end);
     end_ ← pure_of (match ((λ s, _Session.end_ s) <$> touched) ++ [timestamp] with [] => Err ValueError | x :: l => Ok (py_max x l) end);
     let count := zsum (λ s, _Session.count s) touched + 1 in
     for_each touched (λ s,
      self ← get;
      sessions_ ← pure_of (list_remove (sessions self) s);
      put (set_sessions sessions_ self));;
     self ← get;
     put (set_sessions (sessions self ++ [_Session.mk start end_ count]) self));;
  self ← get;
  put (set_sessions (py_sorted (key_le _Session.start) (sessions self)) self).
(** [relay/sessionwindowmerge.py] SessionWindowMerge.spans *)
Definition spans (self : t) : list (Z * Z * Z) :=
  (λ s, (_Session.start s, _Session.end_ s, _Session.count s)) <$> (sessions self).
(** [relay/sessionwindowmerge.py] SessionWindowMerge.note *)
Definition note (self : t) : string :=
  let n := zlen (sessions self) in
  zs n
        +:+ " session(s) for this key; a key whose sessions keep merging is one long continuous activity, many small sessions is bursty with real quiet between".
End SessionWindowMerge.
End sessionwindowmerge.
Import sessionwindowmerge.

Module sinkconnector.
Module SinkConnector.
(** [relay/sinkconnector.py] class SinkConnector *)
Record t := mk { inflight : pydict Z bool; committed : Z; consumed : Z; }.
Definition set_inflight (v : pydict Z bool) (self : t) : t := mk v (committed self) (consumed self).
Definition set_committed (v : Z) (self : t) : t := mk (inflight self) v (consumed self).
Definition set_consumed (v : Z) (self : t) : t := mk (inflight self) (committed self) v.
Definition new : t := mk [] (-1) (-1).
(** [relay/sinkconnector.py] SinkConnector.consume *)
Definition consume (offset : Z) : act t unit :=
  self ← get;
  raise_if (offset <=? consumed self) Invalid;;
  put (set_inflight (d_set (inflight self) offset false) self);;
  self ← get;
  put (set_consumed offset self).
(** [relay/sinkconnector.py] SinkConnector.confirm_write *)
Definition confirm_write (offset : Z) : act t unit :=
  self ← get;
  raise_if (negb (d_mem (inflight self) offset)) Invalid;;
  put (set_inflight (d_set (inflight self) offset true) self).
(** [relay/sinkconnector.py:59-64] SinkConnector.commit *)
Fixpoint commit_loop (positions : list Z) : act t unit :=
  match positions with
  | [] => mret ()
  | pos :: positions =>
      self ← get;
      acked ← pure_of (d_item (inflight self) pos);
      if acked : bool then
        put (set_committed pos self);;
        self ← get;
        put (set_inflight (d_del (inflight self) pos) self);;
        commit_loop positions
      else mret ()
  end.
(** [relay/sinkconnector.py] SinkConnector.commit *)
Definition commit : act t Z :=
  self ← get;
  commit_loop (py_sorted Z.le (d_keys (inflight self)));;
  self ← get;
  mret (committed self).
(** [relay/sinkconnector.py] SinkConnector.report *)
Definition report (self : t) : string :=
  let behind := consumed self - (committed self) in
  "committed offset " +:+ zs (committed self) +:+ ", consumed " +:+ zs (consumed self)
        +:+ ", " +:+ zs behind
        +:+ " written but not yet committable; a large gap is a sink slow to acknowledge, growing the re-delivery and duplicates on a crash".
End SinkConnector.
End sinkconnector.
Import sinkconnector.

Module connectoroffset.
Module ConnectorOffsets.
(** [relay/connectoroffset.py] class ConnectorOffsets *)
Record t := mk { inflight : pydict Z bool; committed : Z; latest_read : Z; }.
Definition set_inflight (v : pydict Z bool) (self : t) : t := mk v (committed self) (latest_read self).
Definition set_committed (v : Z) (self : t) : t := mk (inflight self) v (latest_read self).
Definition set_latest_read (v : Z) (self : t) : t := mk (inflight self) (committed self) v.
Definition new : t := mk [] (-1) (-1).
(** [relay/connectoroffset.py] ConnectorOffsets.read *)
Definition read (source_position : Z) : act t unit :=
  self ← get;
  raise_if (source_position <=? latest_read self) Invalid;;
  put (set_inflight (d_set (inflight self) source_position false) self);;
  self ← get;
  put (set_latest_read source_position self).
(** [relay/connectoroffset.py] ConnectorOffsets.acknowledge *)
Definition acknowledge (source_position : Z) : act t unit :=
  self ← get;
  raise_if (negb (d_mem (inflight self) source_position)) Invalid;;
  put (set_inflight (d_set (inflight self) source_position true) self).
(** [relay/connectoroffset.py:63-68] ConnectorOffsets.commit *)
Fixpoint commit_loop (positions : list Z) : act t unit :=
  match positions with
  | [] => mret ()
  | pos :: positions =>
      self ← get;
      acked ← pure_of (d_item (inflight self) pos);
      if acked : bool then
        put (set_committed pos self);;
        self ← get;
        put (set_inflight (d_del (inflight self) pos) self);;
        commit_loop positions
      else mret ()
  end.
(** [relay/connectoroffset.py] ConnectorOffsets.commit *)
Definition commit : act t Z :=
  self ← get;
  let positions := py_sorted Z.le (d_keys (inflight self)) in
  commit_loop positions;;
  self ← get;
  mret (committed self).
(** [relay/connectoroffset.py] ConnectorOffsets.resume_from *)
Definition resume_from (self : t) : Z :=
  committed self.
(** [relay/connectoroffset.py] ConnectorOffsets.report *)
Definition report (self : t) : string :=
  let behind := latest_read self - (committed self) in
  "committed source position " +:+ zs (committed self) +:+ ", latest read "
        +:+ zs (latest_read self) +:+ ", " +:+ zs behind
        +:+ " in flight; a large gap is a backlog to the broker that grows the re-read on a crash".
End ConnectorOffsets.
End connectoroffset.
Import connectoroffset.

Module smt.
Module SmtChain.
(** [relay/smt.py] class SmtChain *)
Record t := mk {
  transforms : list ((pydict string pyval) → (option (pydict string pyval)));
  transformed : Z;
  dropped : Z;
}.
Definition set_transformed (v : Z) (self : t) : t := mk (transforms self) v (dropped self).
Definition set_dropped (v : Z) (self : t) : t := mk (transforms self) (transformed self) v.
(** [relay/smt.py] SmtChain.__post_init__ *)
Definition make (transforms : list ((pydict string pyval) → (option (pydict string pyval)))) : result t :=
  if bool_decide (transforms = []) then Err Invalid else
  Ok (mk transforms 0 0).
(** [relay/smt.py:53-57] SmtChain.apply: the chain stops at the first transform that drops the record *)
Fixpoint chain_loop (transforms : list (pydict string pyval → option (pydict string pyval)))
    (current : pydict string pyval) : option (pydict string pyval) :=
  match transforms with
  | [] => Some current
  | transform :: transforms => current ← transform current; chain_loop transforms current
  end.
(** [relay/smt.py] SmtChain.apply *)
Definition apply (record : pydict string pyval) : act t (option (pydict string pyval)) :=
  self ← get;
  match chain_loop (transforms self) record with
  | None =>
      put (set_dropped (dropped self + 1) self);;
      mret None
  | Some current =>
      put (set_transformed (transformed self + 1) self);;
      mret (Some current)
  end.
(** [relay/smt.py] SmtChain.apply_batch *)
Definition apply_batch (records : list (pydict string pyval)) : act t (list (pydict string pyval)) :=
  let out := [] in
  out ← for_fold records out (λ out r,
    result_ ← apply r;
    out ← match result_ with
      | None =>
          mret out
      | Some result_ =>
          let out := out ++ [result_] in
          mret out
      end;
    mret out);
  mret out.
(** [relay/smt.py] SmtChain.report *)
Definition report (self : t) : result string :=
  let total := transformed self + (dropped self) in
  if total =? 0 then
    Ok "no records processed"
  else
  q ← z_truediv (dropped self) total;
  let pct := f_mul q (of_Z 100) in
  Ok (zs (transformed self) +:+ " transformed, " +:+ zs (dropped self) +:+ " dropped ("
        +:+ fmt_fixed 0 pct
        +:+ "%); a deliberate filter drops a known fraction while a broken transform drops nearly everything").
End SmtChain.
End smt.
Import smt.

Module streammerge.
Module StreamMerge.
(** [relay/streammerge.py] class StreamMerge *)
Record t := mk { watermarks : pydict string Z; }.
Definition set_watermarks (v : pydict string Z) (self : t) : t := mk v.
Definition new : t := mk [].
(** [relay/streammerge.py] StreamMerge.observe *)
Definition observe (stream : string) (watermark : Z) : act t unit :=
  self ← get;
  let prior := d_getd (watermarks self) stream watermark in
  raise_if (watermark <? prior) Invalid;;
  put (set_watermarks (d_set (watermarks self) stream watermark) self).
(** [relay/streammerge.py] StreamMerge.merged_watermark *)
Definition merged_watermark (self : t) : result Z :=
  if bool_decide (watermarks self = []) then
    Ok 0
  else
  match d_values (watermarks self) with [] => Err ValueError | x :: l => Ok (py_min x l) end.
(** [relay/streammerge.py] StreamMerge.laggard *)
Definition laggard (self : t) : result string :=
  if bool_decide (watermarks self = []) then Err Invalid else
  py_min_key Z.ltb (λ k, d_getd (watermarks self) k 0) (d_keys (watermarks self)).
(** [relay/streammerge.py] StreamMerge.spread *)
Definition spread (self : t) : result string :=
  if bool_decide (watermarks self = []) then
    Ok "no inputs observed"
  else
  fastest ← match d_values (watermarks self) with [] => Err ValueError | x :: l => Ok (py_max x l) end;
  slowest ← match d_values (watermarks self) with [] => Err ValueError | x :: l => Ok (py_min x l) end;
  let gap := fastest - slowest in
  r ← laggard self;
  Ok ("merged watermark " +:+ zs slowest +:+ " held by '" +:+ r +:+ "'; " +:+ zs gap
        +:+ " behind the fastest input, and a widening gap is the early warning before a slow input becomes a stalled one that freezes the merged clock").
End StreamMerge.
End streammerge.
Import streammerge.

Module streamtime.
Module WindowedStream.
(** [relay/streamtime.py] class WindowedStream *)
Record t := mk {
  window_size : Z;
  allowed_lateness : Z;
  watermark : Z;
  windows : pydict Z Z;
  closed : gset Z;
  dropped_late : Z;
}.
Definition set_watermark (v : Z) (self : t) : t := mk (window_size self) (allowed_lateness self) v (windows self) (closed self) (dropped_late self).
Definition set_windows (v : pydict Z Z) (self : t) : t := mk (window_size self) (allowed_lateness self) (watermark self) v (closed self) (dropped_late self).
Definition set_closed (v : gset Z) (self : t) : t := mk (window_size self) (allowed_lateness self) (watermark self) (windows self) v (dropped_late self).
Definition set_dropped_late (v : Z) (self : t) : t := mk (window_size self) (allowed_lateness self) (watermark self) (windows self) (closed self) v.
(** [relay/streamtime.py] WindowedStream.__post_init__ *)
Definition make (window_size : Z) (allowed_lateness : Z) : result t :=
  if (window_size <? 1) || (allowed_lateness <? 0) then Err Invalid else
  Ok (mk window_size allowed_lateness 0 [] (∅) 0).
(** [relay/streamtime.py] WindowedStream._window_start *)
Definition _window_start (self : t) (event_time : Z) : result Z :=
  q ← py_div event_time (window_size self);
  Ok (q * (window_size self)).
(** [relay/streamtime.py] WindowedStream.advance_watermark *)
Definition advance_watermark (to_time : Z) : act t (list Z) :=
  self ← get;
  raise_if (to_time <? watermark self) Invalid;;
  put (set_watermark to_time self);;
  let newly_closed := [] in
  self ← get;
  newly_closed ← for_fold (py_sorted Z.le (d_keys (windows self))) newly_closed (λ newly_closed start,
    self ← get;
    let window_end := start + (window_size self) in
    newly_closed ← (if (negb (bool_decide (start ∈ closed self))) && (window_end + (allowed_lateness self) <=? watermark self) then
       put (set_closed ({[start]} ∪ (closed self)) self);;
       let newly_closed := newly_closed ++ [start] in
       mret newly_closed
     else
       mret newly_closed);
    mret newly_closed);
  mret newly_closed.
(** [relay/streamtime.py] WindowedStream.add *)
Definition add (event_time : Z) (value : Z) : act t string :=
  self ← get;
  start ← pure_of (_window_start self event_time);
  let window_end := start + (window_size self) in
  if bool_decide (start ∈ closed self) then
    put (set_dropped_late (dropped_late self + 1) self);;
    mret ("dropped: event at " +:+ zs event_time
          +:+ " is past its closed window and the grace; counted as late, not swallowed")
  else
  if window_end <=? watermark self then
    put (set_windows (d_set (windows self) start (d_getd (windows self) start 0 + value)) self);;
    mret ("late but in grace: event at " +:+ zs event_time +:+ " reopened window [" +:+ zs start
          +:+ "," +:+ zs window_end +:+ ")")
  else
  put (set_windows (d_set (windows self) start (d_getd (windows self) start 0 + value)) self);;
  mret ("on time: added to window [" +:+ zs start +:+ "," +:+ zs window_end +:+ ")").
(** [relay/streamtime.py] WindowedStream.result *)
Definition result_ (self : t) (start : Z) : result Z :=
  if negb (d_mem (windows self) start) then Err Invalid else
  d_item (windows self) start.
(** [relay/streamtime.py] WindowedStream.lateness_report *)
Definition lateness_report (self : t) : string :=
  zs (Z.of_nat (base.size (closed self))) +:+ " window(s) closed, "
        +:+ zs (dropped_late self)
        +:+ " event(s) dropped past grace; a number someone can act on, not a silent wrong aggregate".
End WindowedStream.
End streamtime.
Import streamtime.

Module tablestreamduality.
(** [relay/tablestreamduality.py] TOMBSTONE *)
Definition TOMBSTONE : option Z := None.
Module TableStream.
(** [relay/tablestreamduality.py] class TableStream *)
Record t := mk { table : pydict string Z; stream_length : Z; }.
Definition set_table (v : pydict string Z) (self : t) : t := mk v (stream_length self).
Definition set_stream_length (v : Z) (self : t) : t := mk (table self) v.
Definition new : t := mk [] 0.
(** [relay/tablestreamduality.py] TableStream.fold *)
Definition fold (key : string) (value : option Z) : act t unit :=
  raise_if (bool_decide (key = "")) Invalid;;
  self ← get;
  put (set_stream_length (stream_length self + 1) self);;
  self ← get;
  match value with
  | None => put (set_table (d_del (table self) key) self)
  | Some value => put (set_table (d_set (table self) key value) self)
  end.
(** [relay/tablestreamduality.py] TableStream.changelog *)
Definition changelog (self : t) : list (string * Z) :=
  py_sorted (skey_le (λ p, p.1)) (table self).
(** [relay/tablestreamduality.py] TableStream.compaction_ratio *)
Definition compaction_ratio (self : t) : result string :=
  if stream_length self =? 0 then
    Ok "empty stream; nothing folded"
  else
  ratio ← z_truediv (stream_length self) (Z.max 1 (zlen (table self)));
  Ok (zs (stream_length self) +:+ " update(s) folded into " +:+ zs (zlen (table self))
        +:+ " key(s), a " +:+ fmt_fixed 1 ratio
        +:+ "x compaction; a small table from a long stream is heavy updates per key, what the duality predicts").
End TableStream.
End tablestreamduality.
Import tablestreamduality.

Module temporaljoin.
Module TemporalJoin.
(** [relay/temporaljoin.py] class TemporalJoin *)
Record t := mk { versions : list (Z * string); }.
Definition set_versions (v : list (Z * string)) (self : t) : t := mk v.
Definition new : t := mk [].
(** [relay/temporaljoin.py] TemporalJoin.add_version *)
Definition add_version (effective_time : Z) (value : string) : act t unit :=
  self ← get;
  b ← pure_of (if negb (bool_decide (versions self = [])) then x ← py_index (versions self) (-1); Ok (effective_time <=? x.1) else Ok false);
  raise_if (b : bool) Invalid;;
  put (set_versions (versions self ++ [(effective_time, value)]) self).
(** [relay/temporaljoin.py:57-61] TemporalJoin.join *)
Fixpoint applicable_loop (versions : list (Z * string)) (event_time : Z) (applicable : string) : string :=
  match versions with
  | [] => applicable
  | (eff, value) :: versions =>
      if eff <=? event_time then applicable_loop versions event_time value else applicable
  end.
(** [relay/temporaljoin.py] TemporalJoin.join *)
Definition join (self : t) (event_time : Z) : result string :=
  b ← (if bool_decide (versions self = []) then Ok true
       else x ← py_index (versions self) 0; Ok (event_time <? x.1));
  if (b : bool) then Err Missing else
  x ← py_index (versions self) 0;
  Ok (applicable_loop (versions self) event_time x.2).
(** [relay/temporaljoin.py:67-71] TemporalJoin.staleness *)
Fixpoint eff_loop (versions : list (Z * string)) (event_time : Z) (eff : option Z) : option Z :=
  match versions with
  | [] => eff
  | (e, _) :: versions => if e <=? event_time then eff_loop versions event_time (Some e) else eff
  end.
(** [relay/temporaljoin.py] TemporalJoin.staleness *)
Definition staleness (self : t) (event_time : Z) : string :=
  match eff_loop (versions self) event_time None with
  | None => "no applicable version"
  | Some eff =>
      let back := event_time - eff in
      "joined a version effective " +:+ zs back
      +:+ " before the record; a stream routinely joining old versions lags the reference data, where a current-value join would silently give a too-new answer"
  end.
End TemporalJoin.
End temporaljoin.
Import temporaljoin.

Module watermarkpropagation.
Module WatermarkView.
(** [relay/watermarkpropagation.py] class WatermarkView *)
Record t := mk { leader_watermark : Z; last_response_watermark : Z; }.
Definition set_leader_watermark (v : Z) (self : t) : t := mk v (last_response_watermark self).
Definition set_last_response_watermark (v : Z) (self : t) : t := mk (leader_watermark self) v.
(** [relay/watermarkpropagation.py] WatermarkView.__post_init__ *)
Definition make (leader_watermark : Z) (last_response_watermark : Z) : result t :=
  if leader_watermark <? last_response_watermark then Err Invalid else
  Ok (mk leader_watermark last_response_watermark).
(** [relay/watermarkpropagation.py] WatermarkView.follower_exposes *)
Definition follower_exposes (self : t) : Z :=
  last_response_watermark self.
(** [relay/watermarkpropagation.py] WatermarkView.propagation_gap *)
Definition propagation_gap (self : t) : Z :=
  leader_watermark self - (last_response_watermark self).
(** [relay/watermarkpropagation.py] WatermarkView.refresh *)
Definition refresh (new_leader_watermark : Z) : act t unit :=
  self ← get;
  raise_if (new_leader_watermark <? last_response_watermark self) Invalid;;
  put (set_leader_watermark (Z.max (leader_watermark self) new_leader_watermark) self);;
  self ← get;
  put (set_last_response_watermark new_leader_watermark self).
(** [relay/watermarkpropagation.py] WatermarkView.describe *)
Definition describe (self : t) : string :=
  let gap := propagation_gap self in
  "follower exposes " +:+ zs (last_response_watermark self) +:+ ", leader at "
        +:+ zs (leader_watermark self) +:+ ": " +:+ zs gap
        +:+ " record(s) committed since the follower's last fetch, invisible to a follower reader until its next fetch round".
End WatermarkView.
End watermarkpropagation.
Import watermarkpropagation.

Module callbackorder.
Module CallbackDispatcher.
(** [relay/callbackorder.py] class CallbackDispatcher *)
Record t := mk {
  next_to_fire : pydict string Z;
  buffered : pydict string (gset Z);
  fired : pydict string (gset Z);
}.
Definition set_next_to_fire (v : pydict string Z) (self : t) : t := mk v (buffered self) (fired self).
Definition set_buffered (v : pydict string (gset Z)) (self : t) : t := mk (next_to_fire self) v (fired self).
Definition set_fired (v : pydict string (gset Z)) (self : t) : t := mk (next_to_fire self) (buffered self) v.
Definition new : t := mk [] [] [].
(** [relay/callbackorder.py:65-69] CallbackDispatcher._drain: every turn takes an offset out of the buffer *)
Fixpoint drain_loop (partition : string) (expected : Z) (fired_now : list Z) (fuel : nat) :
    act t (Z * list Z) :=
  self ← get;
  b ← pure_of (d_item (buffered self) partition);
  if bool_decide (expected ∈ b) then
    match fuel with
    | O => raise OutOfFuel
    | S fuel =>
        put (set_buffered (d_set (buffered self) partition (b ∖ {[expected]})) self);;
        self ← get;
        f ← pure_of (d_item (fired self) partition);
        put (set_fired (d_set (fired self) partition ({[expected]} ∪ f)) self);;
        drain_loop partition (expected + 1) (fired_now ++ [expected]) fuel
    end
  else mret (expected, fired_now).
(** [relay/callbackorder.py] CallbackDispatcher._drain *)
Definition _drain (partition : string) : act t (list Z) :=
  self ← get;
  let expected := d_getd (next_to_fire self) partition 0 in
  let fired_now := [] in
  '(expected, fired_now) ← drain_loop partition expected fired_now (base.size (d_getd (buffered self) partition ∅));
  self ← get;
  put (set_next_to_fire (d_set (next_to_fire self) partition expected) self);;
  mret fired_now.
(** [relay/callbackorder.py] CallbackDispatcher.acknowledge *)
Definition acknowledge (partition : string) (offset : Z) : act t (list Z) :=
  self ← get;
  put (set_fired (d_setdefault (fired self) partition (∅)) self);;
  self ← get;
  put (set_buffered (d_setdefault (buffered self) partition (∅)) self);;
  self ← get;
  v ← pure_of (d_item (fired self) partition);
  b ← pure_of (if bool_decide (offset ∈ v) then Ok true else v ← d_item (buffered self) partition; Ok (bool_decide (offset ∈ v)));
  raise_if (b : bool) Invalid;;
  let expected := d_getd (next_to_fire self) partition 0 in
  raise_if (offset <? expected) Invalid;;
  v1 ← pure_of (d_item (buffered self) partition);
  put (set_buffered (d_set (buffered self) partition ({[offset]} ∪ v1)) self);;
  _drain partition.
(** [relay/callbackorder.py] CallbackDispatcher.pending *)
Definition pending (self : t) (partition : string) : Z :=
  Z.of_nat (base.size (d_getd (buffered self) partition (∅))).
(** [relay/callbackorder.py] CallbackDispatcher.stall_note *)
Definition stall_note (self : t) (partition : string) : string :=
  let n := pending self partition in
  if n =? 0 then
    "'" +:+ partition +:+ "': no callbacks waiting; completions flow in order"
  else
  "'" +:+ partition +:+ "': " +:+ zs n
        +:+ " callback(s) buffered behind a stuck acknowledgement, a head-of-line stall in the completion path".
End CallbackDispatcher.
End callbackorder.
Import callbackorder.

Module branch.
Module Brancher.
(** [relay/branch.py] class Brancher *)
Record t := mk {
  branches : list (string * (Z → bool));
  default : option string;
  counts : pydict string Z;
}.
Definition set_counts (v : pydict string Z) (self : t) : t := mk (branches self) (default self) v.
Definition new : t := mk [] None [].
(** [relay/branch.py:42-45] Brancher.route: the first branch whose predicate holds *)
Fixpoint first_match (branches : list (string * (Z → bool))) (record : Z) : option string :=
  match branches with
  | [] => None
  | (name, predicate) :: branches => if predicate record then Some name else first_match branches record
  end.
(** [relay/branch.py] Brancher.route *)
Definition route (record : Z) : act t string :=
  self ← get;
  match first_match (branches self) record with
  | Some name =>
      put (set_counts (d_set (counts self) name (d_getd (counts self) name 0 + 1)) self);;
      mret name
  | None =>
      match default self with
      | Some default_ =>
          put (set_counts (d_set (counts self) default_ (d_getd (counts self) default_ 0 + 1)) self);;
          mret default_
      | None =>
          put (set_counts (d_set (counts self) "<dropped>" (d_getd (counts self) "<dropped>" 0 + 1)) self);;
          mret "<dropped>"
      end
  end.
(** [relay/branch.py] Brancher.distribution *)
Definition distribution (self : t) : string :=
  let parts := join_str ", " ((λ '(name, n), name +:+ ": " +:+ zs n)
                 <$> py_sorted (skey_le (λ p, p.1)) (counts self)) in
  parts +:+ "; a branch receiving nothing usually has a predicate a preceding branch already satisfies, the first-match shadowing a count reveals".
(** [relay/branch.py] Brancher.starved *)
Definition starved (self : t) : list string :=
  (λ '(name, _), name) <$> (py_filter (λ '(name, _), d_getd (counts self) name 0 =? 0) (branches self)).
End Brancher.
End branch.
Import branch.


(** ** Windows and clocks *)

Section hopping.
Import HoppingWindows.

Lemma starts_loop_spec self time start fuel s : 1 <= hop self → (Z.to_nat (time - start + 1) <= fuel)%nat →
  s ∈ starts_loop self time start fuel ↔
  ∃ k, 0 <= k ∧ s = start + k * hop self ∧ s <= time < s + size_ self.
Proof.
  intros Hhop. revert start. induction fuel as [|fuel IH]; intros start Hf; cbn [starts_loop].
  { split; [by intros ?%elem_of_nil|]. intros (k & Hk & -> & Hle). nia. }
  destruct (Z.leb_spec start time) as [Hle|Hgt]; cbn [andb].
  - rewrite elem_of_app, IH by lia. split.
    + intros [H|(k & Hk & -> & Hin)]; [|exists (k + 1); nia].
      destruct (Z.ltb_spec time (start + size_ self)); [|by apply elem_of_nil in H].
      apply list_elem_of_singleton in H as ->. exists 0. lia.
    + intros (k & Hk & -> & Hin). destruct (decide (k = 0)) as [->|Hne].
      * left. rewrite (proj2 (Z.ltb_lt time _)) by lia. apply list_elem_of_singleton. lia.
      * right. exists (k - 1). nia.
  - split; [by intros ?%elem_of_nil|]. intros (k & Hk & -> & Hin). nia.
Qed.

Lemma starts_loop_sorted self time start fuel : 1 <= hop self →
  StronglySorted Z.lt (starts_loop self time start fuel) ∧ ∀ s, s ∈ starts_loop self time start fuel → start <= s.
Proof.
  intros Hhop. revert start. induction fuel as [|fuel IH]; intros start; cbn [starts_loop].
  { split; [constructor|]. by intros s ?%elem_of_nil. }
  destruct (Z.leb_spec start time); cbn [andb]; [|split; [constructor|by intros s ?%elem_of_nil]].
  destruct (IH (start + hop self)) as [Hs Hlo].
  destruct (Z.ltb_spec time (start + size_ self)); cbn [app].
  - split.
    + constructor; [done|]. apply Forall_forall. intros s Hin. specialize (Hlo s Hin). lia.
    + intros s [->|Hin]%elem_of_cons; [lia|]. specialize (Hlo s Hin). lia.
  - split; [done|]. intros s Hin. specialize (Hlo s Hin). lia.
Qed.
End hopping.

(** Also (equivalence): a record is put in exactly the windows that cover it.  The starts computed for a time are,
    in increasing order and without repeats, all the non-negative multiples of the hop whose window of
    [size] contains the time; none is missed and there are at most ceil(size / hop) of them. *)
Theorem hopping_windows_exact size hop w time (Hmake : HoppingWindows.make size hop = Ok w) :
  ∃ starts, HoppingWindows.windows_for w time = Ok starts ∧
    StronglySorted Z.lt starts ∧
    (∀ s, s ∈ starts ↔ ∃ k, 0 <= k ∧ s = k * hop ∧ s <= time < s + size) ∧
    (0 <= time → hop = size → starts = [time - time mod size]).
Proof.
  unfold HoppingWindows.make in Hmake. destruct (_ || _) eqn:E; [done|]. destruct (Z.ltb_spec size hop) as [|Hsh]; [done|].
  bool_prop. injection Hmake as <-. unfold HoppingWindows.windows_for, py_div. cbn.
  rewrite (proj2 (Z.eqb_neq hop 0)) by lia. cbn [mbind result_bind]. set (w := HoppingWindows.mk size hop).
  set (lo := Z.max 0 (((time - size) / hop + 1) * hop)). eexists. split; [done|].
  pose proof (starts_loop_sorted w time lo (Z.to_nat (time - lo + 1)) ltac:(cbn; lia)) as [Hs _].
  assert (∃ k0, 0 <= k0 ∧ lo = k0 * hop) as (k0 & Hk0 & Hlo).
  { unfold lo. destruct (Z.le_gt_cases 0 ((time - size) / hop + 1)).
    - exists ((time - size) / hop + 1). rewrite Z.max_r by nia. done.
    - exists 0. rewrite Z.max_l by nia. lia. }
  pose proof (Z.mul_div_le (time - size) hop ltac:(lia)).
  pose proof (Z.mul_succ_div_gt (time - size) hop ltac:(lia)).
  assert (∀ s, s ∈ HoppingWindows.starts_loop w time lo (Z.to_nat (time - lo + 1)) ↔
    ∃ k, 0 <= k ∧ s = k * hop ∧ s <= time < s + size) as Hin.
  { intros s. rewrite starts_loop_spec by (cbn; lia). cbn. split.
    - intros (k & Hk & -> & Ht). exists (k0 + k). rewrite Hlo in *. split_and!; nia.
    - intros (k & Hk & -> & Ht). exists (k - k0). rewrite Hlo in *. split_and!; [|nia..].
      assert (k0 <= k); [|lia]. assert (lo <= k * hop) as Hle; [|rewrite Hlo in Hle; nia].
      assert ((time - size) / hop < k) by nia. unfold lo. apply Z.max_lub; nia. }
  split; [done|]. split; [done|]. intros Ht ->.
  pose proof (Z.div_mod time size ltac:(lia)) as Hdm. pose proof (Z.mod_pos_bound time size ltac:(lia)).
  pose proof (Z.div_pos time size ltac:(lia) ltac:(lia)).
  assert (∀ s, s ∈ HoppingWindows.starts_loop w time lo (Z.to_nat (time - lo + 1)) ↔ s = time - time mod size) as Hone.
  { intros s. rewrite Hin. split; [|intros ->; exists (time / size); nia]. intros (k & Hk & -> & Hr).
    assert (k = time / size) by nia. nia. }
  clear Hin. destruct (HoppingWindows.starts_loop w time lo (Z.to_nat (time - lo + 1))) as [|a [|b l]].
  - specialize (proj2 (Hone _) eq_refl). by intros ?%elem_of_nil.
  - f_equal. apply Hone. left.
  - exfalso. apply StronglySorted_inv in Hs as [_ Hs]. inversion Hs; subst.
    assert (a = time - time mod size) by (apply Hone; left). assert (b = time - time mod size) by (apply Hone; right; left). lia.
Qed.

Lemma hopping_windows_exact_witness :
  ∃ starts, HoppingWindows.windows_for (HoppingWindows.mk 10 4) 11 = Ok starts ∧
    StronglySorted Z.lt starts ∧
    (∀ s, s ∈ starts ↔ ∃ k, 0 <= k ∧ s = k * 4 ∧ s <= 11 < s + 10) ∧
    (0 <= 11 → 4 = 10 → starts = [11 - 11 mod 10]).
Proof. exact (hopping_windows_exact 10 4 _ 11 eq_refl). Defined.

Section punctuation.
Import Punctuation.

Lemma fire_loop_run now fuel fired s : 1 <= interval s → (Z.to_nat (now - next_mark s + 1) <= fuel)%nat →
  fire_loop now fired fuel s =
  let k := Z.max 0 ((now - next_mark s) / interval s + 1) in
  (mk (clock s) (interval s) (next_mark s + k * interval s) (fires s + k), Ok (fired + k)).
Proof.
  intros Hi. revert s fired Hi. induction fuel as [|fuel IH]; intros s fired Hi Hf; cbn [fire_loop]; act_simpl.
  - rewrite (proj2 (Z.leb_gt _ _)) by lia. act_simpl.
    assert ((now - next_mark s) / interval s + 1 <= 0) by (assert ((now - next_mark s) / interval s < 0) by (apply Z.div_lt_upper_bound; lia); lia).
    rewrite Z.max_l by lia. destruct s; cbn. repeat f_equal; lia.
  - destruct (Z.leb_spec (next_mark s) now); act_simpl.
    + rewrite IH by (cbn; lia). cbn. replace (now - (next_mark s + interval s)) with (now - next_mark s + (-1) * interval s) by lia.
      rewrite Z.div_add by lia. assert (0 <= (now - next_mark s) / interval s) by (apply Z.div_pos; lia).
      set (q := (now - next_mark s) / interval s) in *. rewrite (Z.max_r 0 (q + 1)), (Z.max_r 0 (q + -1 + 1)) by lia.
      f_equal; [f_equal; nia|f_equal; lia].
    + assert ((now - next_mark s) / interval s + 1 <= 0) by (assert ((now - next_mark s) / interval s < 0) by (apply Z.div_lt_upper_bound; lia); lia).
      rewrite Z.max_l by lia. destruct s; cbn. repeat f_equal; lia.
Qed.

Definition punctuation_step (now : Z) (s : t) : t := state_of (on_stream_time now) s.
End punctuation.

(** Also (termination): punctuation catches up exactly.  However stream time moves, each advance ends with the
    schedule at the first multiple of the interval after the latest time seen; every mark up to it has
    fired once, so in total as many as there are multiples of the interval up to the largest time; a time
    that goes back fires nothing; and a punctuator on the wall clock ignores stream time. *)
Theorem punctuation_catches_up interval p times (Hmake : Punctuation.make STREAM_TIME interval = Ok p) :
  let s := run punctuation_step times p in
  let latest := foldr Z.max 0 times in
  Punctuation.fires s = latest / interval ∧
  Punctuation.next_mark s = (latest / interval + 1) * interval ∧
  (∀ now, Punctuation.on_wall_clock now s = (s, Ok 0)) ∧
  ∀ now, (Punctuation.on_stream_time now s).2 = Ok (Z.max 0 (now / interval - latest / interval)).
Proof.
  intros s latest. unfold Punctuation.make, construct, Punctuation.__post_init__ in Hmake. act_simpl in Hmake.
  destruct (Z.ltb_spec interval 1) as [|Hi]; [done|]. act_simpl in Hmake. injection Hmake as <-.
  assert (∀ s0 L now, 0 <= L → s0 = Punctuation.mk STREAM_TIME interval ((L / interval + 1) * interval) (L / interval) →
    Punctuation.on_stream_time now s0 =
    (Punctuation.mk STREAM_TIME interval ((Z.max L now / interval + 1) * interval) (Z.max L now / interval),
     Ok (Z.max 0 (now / interval - L / interval)))) as Hstep.
  { intros s0 L now HL ->. unfold Punctuation.on_stream_time. act_simpl. rewrite bind_run, fire_loop_run by (cbn; lia). cbn.
    pose proof (Z.div_pos L interval HL ltac:(lia)).
    replace (now - (L / interval + 1) * interval) with (now + (- (L / interval + 1)) * interval) by lia.
    rewrite Z.div_add by lia. replace (now / interval + - (L / interval + 1) + 1) with (now / interval - L / interval) by lia.
    destruct (Z.le_gt_cases now L) as [Hle|Hgt].
    - pose proof (Z.div_le_mono now L interval ltac:(lia) Hle). rewrite (Z.max_l L) by lia. rewrite run_ret, Z.max_l by lia. f_equal; f_equal; nia.
    - pose proof (Z.div_le_mono L now interval ltac:(lia) ltac:(lia)). rewrite (Z.max_r L) by lia. rewrite run_ret, Z.max_r by lia. f_equal; f_equal; nia. }
  assert (∀ ts L s0, 0 <= L → s0 = Punctuation.mk STREAM_TIME interval ((L / interval + 1) * interval) (L / interval) →
    let L' := foldr Z.max L ts in
    0 <= L' ∧ run punctuation_step ts s0 = Punctuation.mk STREAM_TIME interval ((L' / interval + 1) * interval) (L' / interval)) as Hrun.
  { clear -Hstep. induction ts as [|x ts IH]; intros L s0 HL Hs0; [done|].
    change (run punctuation_step (x :: ts) s0) with (run punctuation_step ts (punctuation_step x s0)).
    assert (foldr Z.max L (x :: ts) = foldr Z.max (Z.max L x) ts) as ->.
    { cbn. clear. induction ts as [|y ts IH]; cbn; lia. }
    apply IH; [lia|]. unfold punctuation_step, state_of. by rewrite (Hstep _ L). }
  destruct (Hrun times 0 (Punctuation.mk STREAM_TIME interval interval 0)) as [HL Hs]; [done|by rewrite Z.div_0_l, Z.add_0_l, Z.mul_1_l by lia|].
  change (s = Punctuation.mk STREAM_TIME interval ((latest / interval + 1) * interval) (latest / interval)) in Hs.
  rewrite Hs. cbn -[Z.add Z.mul]. split_and!; [done|done|done|]. intros now. by rewrite (Hstep _ latest).
Qed.

Lemma punctuation_catches_up_witness :
  Punctuation.fires (run punctuation_step [7; 35; 12] (Punctuation.mk STREAM_TIME 10 10 0)) = 35 / 10.
Proof. exact (proj1 (punctuation_catches_up 10 _ [7; 35; 12] eq_refl)). Defined.

(** Also (equivalence): a range query returns exactly the entries in the range, in order. *)
Theorem range_query_exact keys s low high (Hmake : SortedIndex.make keys = Ok s) (Hle : low <= high) :
  SortedIndex.range s low high = Ok (py_filter (λ k, (low <=? k) && (k <=? high)) keys).
Proof.
  unfold SortedIndex.make in Hmake.
  assert (Sorted Z.le keys ∧ s = SortedIndex.mk keys) as [Hs ->].
  { destruct (r_fold _ _ _) as [u|e] eqn:E in Hmake; [|done]. injection Hmake as <-. split; [|done].
    assert (∀ i a b, keys !! i = Some a → keys !! S i = Some b → a <= b) as Hadj.
    { intros i a b Ha Hb. pose proof (lookup_lt_Some _ _ _ Hb) as Hlt.
      assert (Z.of_nat (S i) ∈ py_range 1 (zlen keys)) as Hin.
      { unfold py_range. apply elem_of_seqZ. unfold zlen. lia. }
      revert E Hin. generalize (py_range 1 (zlen keys)). clear Hlt. intros l. revert u. induction l as [|x l IH]; intros u E Hin.
      { by apply elem_of_nil in Hin. }
      cbn [r_fold] in E. destruct (py_index keys x) as [y|] eqn:Hy; [|done]. cbn [mbind result_bind] in E.
      destruct (py_index keys (x - 1)) as [z|] eqn:Hz; [|done]. cbn [mbind result_bind] in E.
      destruct (Z.ltb_spec y z); [done|]. cbn [mbind result_bind] in E.
      apply elem_of_cons in Hin as [Hx|Hin]; [|by eapply IH]. subst x.
      rewrite (py_index_nonneg keys _ b) in Hy by (try lia; by rewrite Nat2Z.id). injection Hy as ->.
      rewrite (py_index_nonneg keys _ a) in Hz by (try lia; by replace (Z.to_nat (Z.of_nat (S i) - 1)) with i by lia). injection Hz as ->. done. }
    clear -Hadj. induction keys as [|a keys IH]; [constructor|]. constructor.
    - apply IH. intros i. apply (Hadj (S i)).
    - destruct keys as [|b keys]; constructor. by apply (Hadj 0%nat). }
  unfold SortedIndex.range. rewrite (proj2 (Z.ltb_ge high low)) by lia. cbn [SortedIndex.keys]. f_equal.
  apply Sorted_StronglySorted in Hs; [|intros ???; lia].
  unfold bisect_left, bisect_right. clear Hmake. induction Hs as [|a l Hs IH Ha]; [done|]. rewrite Forall_forall in Ha.
  rewrite !py_filter_cons. destruct (Z.ltb_spec a low) as [Hal|Hal].
  - rewrite (proj2 (Z.leb_le a high)) by lia. rewrite (proj2 (Z.leb_gt low a)) by lia. cbn [length andb drop]. by rewrite Nat.sub_succ.
  - assert (py_filter (λ k, k <? low) l = []) as E0.
    { apply py_filter_nil_iff. intros x Hx. specialize (Ha x Hx). lia. }
    rewrite E0 in *. cbn [length drop]. rewrite (proj2 (Z.leb_le low a)) by lia. cbn [andb]. rewrite drop_0, Nat.sub_0_r in *.
    destruct (Z.leb_spec a high); cbn [length take]; [by rewrite IH|].
    assert (py_filter (λ k, k <=? high) l = []) as E1.
    { apply py_filter_nil_iff. intros x Hx. specialize (Ha x Hx). lia. }
    rewrite E1. cbn. symmetry. apply py_filter_nil_iff. intros x Hx. specialize (Ha x Hx). lia.
Qed.

(** Also (equivalence): partial aggregates can be merged in any grouping.  If the combiner is associative,
    merging the partials of each of several shards and then merging the results gives what one pass over
    all of them gives. *)
Theorem partial_aggregates_merge (combine : Z → Z → Z) (shards : list (list Z))
    (Hassoc : ∀ a b c, combine a (combine b c) = combine (combine a b) c) (Hne : ∀ l, l ∈ shards → l ≠ []) (Hs : shards ≠ []) :
  ∃ partials, mapM (λ l, merge_associative l combine) shards = Ok partials ∧
    merge_associative partials combine = merge_associative (mjoin shards) combine.
Proof.
  assert (∀ x l, merge_associative (x :: l) combine = Ok (foldl combine x l)) as Hm.
  { intros x l. change (merge_associative (x :: l) combine) with (z ← r_fold (drop 0 l) x (λ a p, Ok (combine a p)); Ok z).
    by rewrite drop_0, r_fold_pure. }
  assert (∀ l x y, foldl combine (combine x y) l = combine x (foldl combine y l)) as Hfold.
  { induction l as [|z l IH]; intros x y; [done|]. cbn. by rewrite <- Hassoc, IH. }
  assert (∀ shards, (∀ l, l ∈ shards → l ≠ []) → ∃ partials, mapM (λ l, merge_associative l combine) shards = Ok partials ∧
    ∀ x, foldl combine x partials = foldl combine x (mjoin shards)) as Hall.
  { clear shards Hne Hs. induction shards as [|l shards IH]; intros Hne; [by exists []|].
    destruct IH as (ps & Hps & Heq); [intros k Hk; apply Hne; by right|].
    destruct l as [|y l]; [by destruct (Hne []); [left|]|].
    exists (foldl combine y l :: ps). split.
    - cbn [mapM]. rewrite Hm. cbn. by rewrite Hps.
    - intros x. cbn [foldl]. rewrite Heq. change (mjoin ((y :: l) :: shards)) with ((y :: l) ++ mjoin shards).
      rewrite foldl_app. cbn [foldl]. by rewrite <- Hfold. }
  destruct shards as [|[|y l] shards]; [done|by destruct (Hne []); [left|]|].
  destruct (Hall shards) as (ps & Hps & Heq); [intros k Hk; apply Hne; by right|].
  exists (foldl combine y l :: ps). split; [cbn [mapM]; rewrite Hm; cbn; by rewrite Hps|].
  rewrite Hm. change (mjoin ((y :: l) :: shards)) with (y :: (l ++ mjoin shards)). rewrite Hm. f_equal. by rewrite foldl_app.
Qed.

(** ** Retractions, commits and completions *)

Section retraction.
Import RetractingEmitter.

Inductive retraction_op :=
  | Emit (window value : Z)
  | RetractOnly (window : Z).

(** the emitter, and every record it has sent downstream *)
Definition retraction_step (o : retraction_op) (w : t * list (string * Z * Z)) : t * list (string * Z * Z) :=
  match o with
  | Emit win v => match emit win v w.1 with (s, Ok out) => (s, w.2 ++ out) | (s, Err _) => (s, w.2) end
  | RetractOnly win => match retract_only win w.1 with (s, Ok r) => (s, w.2 ++ [r]) | (s, Err _) => (s, w.2) end
  end.

Definition of_window (win : Z) (l : list (string * Z * Z)) : list (string * Z * Z) := py_filter (λ '(_, w, _), w =? win) l.

Lemma net_effect_app s l1 l2 : net_effect s (l1 ++ l2) = net_effect s l1 + net_effect s l2.
Proof.
  unfold net_effect. rewrite foldl_app. generalize (foldl (λ total '(kind, _, value), total + (if bool_decide (kind = "add") then value else - value)) 0 l1).
  assert (∀ a b, foldl (λ total '(kind, _, value), total + (if bool_decide (kind = "add") then value else - value)) (a + b) l2
    = a + foldl (λ total '(kind, _, value), total + (if bool_decide (kind = "add") then value else - value)) b l2) as H.
  { induction l2 as [|[[k w] v] l2 IH]; intros a b; [done|]. cbn. by rewrite <- Z.add_assoc, IH. }
  intros a. by rewrite <- (Z.add_0_r a) at 1; rewrite H.
Qed.

Lemma net_effect_add s win v : net_effect s [("add"%string, win, v)] = v.
Proof. unfold net_effect. cbn -[Z.add]. by rewrite bool_decide_eq_true_2. Qed.
Lemma net_effect_retract s win v : net_effect s [("retract"%string, win, v)] = - v.
Proof. unfold net_effect. cbn -[Z.add]. by rewrite bool_decide_eq_false_2. Qed.
Lemma net_effect_replace s win v v' : net_effect s [("retract"%string, win, v); ("add"%string, win, v')] = v' - v.
Proof.
  change [("retract"%string, win, v); ("add"%string, win, v')] with ([("retract"%string, win, v)] ++ [("add"%string, win, v')]).
  rewrite net_effect_app, net_effect_add, net_effect_retract. lia.
Qed.

Lemma emit_run win v s :
  emit win v s =
  match d_get (emitted s) win with
  | Some old => (mk (d_set (emitted s) win v) (retractions s + 1), Ok [("retract"%string, win, old); ("add"%string, win, v)])
  | None => (mk (d_set (emitted s) win v) (retractions s), Ok [("add"%string, win, v)])
  end.
Proof.
  unfold emit. act_simpl. rewrite d_mem_get. destruct (d_get (emitted s) win) as [old|] eqn:E; act_simpl; [|done].
  unfold d_item. rewrite E. by act_simpl.
Qed.

Lemma retract_only_run win s :
  retract_only win s =
  match d_get (emitted s) win with
  | Some old => (mk (d_del (emitted s) win) (retractions s + 1), Ok ("retract"%string, win, old))
  | None => (s, Err Invalid)
  end.
Proof.
  unfold retract_only. act_simpl. rewrite d_mem_get. destruct (d_get (emitted s) win) as [old|] eqn:E; act_simpl; [|done].
  unfold d_item. rewrite E. by act_simpl.
Qed.

Definition retraction_ok (w : t * list (string * Z * Z)) : Prop :=
  ∀ s win, net_effect s (of_window win w.2) = d_getd (emitted w.1) win 0.

Lemma retraction_ok_step o w : retraction_ok w → retraction_ok (retraction_step o w).
Proof.
  destruct w as [e l]. intros H s win. specialize (H s win). cbn [fst snd] in H. destruct o as [w v|w]; cbn [retraction_step fst snd].
  - rewrite emit_run. unfold d_getd in *. destruct (d_get (emitted e) w) as [old|] eqn:E; cbn [fst snd emitted].
    + unfold of_window in *. rewrite py_filter_app, net_effect_app, H, d_get_set, !py_filter_cons, py_filter_nil.
      case_bool_decide as Hw; [subst win; rewrite Z.eqb_refl, ?E, ?net_effect_add, ?net_effect_retract, ?net_effect_replace; cbn -[Z.add]; lia|].
      rewrite (proj2 (Z.eqb_neq w win)) by congruence. cbn. lia.
    + unfold of_window in *. rewrite py_filter_app, net_effect_app, H, d_get_set, !py_filter_cons, py_filter_nil.
      case_bool_decide as Hw; [subst win; rewrite Z.eqb_refl, ?E, ?net_effect_add, ?net_effect_retract, ?net_effect_replace; cbn -[Z.add]; lia|].
      rewrite (proj2 (Z.eqb_neq w win)) by congruence. cbn. lia.
  - rewrite retract_only_run. unfold d_getd in *. destruct (d_get (emitted e) w) as [old|] eqn:E; cbn [fst snd emitted]; [|done].
    unfold of_window in *. rewrite py_filter_app, net_effect_app, H, d_get_del, !py_filter_cons, py_filter_nil.
    case_bool_decide as Hw; [subst win; rewrite Z.eqb_refl, ?E, ?net_effect_add, ?net_effect_retract, ?net_effect_replace; cbn -[Z.add]; lia|].
    rewrite (proj2 (Z.eqb_neq w win)) by congruence. cbn. lia.
Qed.
End retraction.

(** Also (refinement): a consumer that sums what it is sent is never wrong.  Whatever windows are emitted, corrected
    and withdrawn, for each window the additions less the retractions sent downstream are exactly the value
    currently emitted for it, and zero for a window never emitted or withdrawn. *)
Theorem retractions_net_out ops (win : Z) :
  let '(s, sent) := run retraction_step ops (RetractingEmitter.new, []) in
  RetractingEmitter.net_effect s (of_window win sent) = d_getd (RetractingEmitter.emitted s) win 0 ∧
  (∀ v, d_getd (RetractingEmitter.emitted (state_of (RetractingEmitter.emit win v) s)) win 0 = v).
Proof.
  pose proof (run_invariant retraction_step retraction_ok ops (RetractingEmitter.new, []) retraction_ok_step) as H.
  destruct (run _ _ _) as [s sent]. split; [apply H; by intros|]. intros v. unfold state_of. rewrite emit_run. unfold d_getd.
  destruct (d_get (RetractingEmitter.emitted s) win); cbn; by rewrite d_get_set_eq.
Qed.

Section connector.
Import ConnectorOffsets.
Implicit Types s : t.

Inductive connector_op :=
  | Read (position : Z)
  | Acknowledge (position : Z)
  | Commit.

(** the offsets, the positions read so far, in order, and those acknowledged *)
Definition connector_step (o : connector_op) (w : t * list Z * gset Z) : t * list Z * gset Z :=
  let '(s, reads, acked) := w in
  match o with
  | Read p => match read p s with (s, Ok _) => (s, reads ++ [p], acked) | (s, Err _) => (s, reads, acked) end
  | Acknowledge p => match acknowledge p s with (s, Ok _) => (s, reads, {[p]} ∪ acked) | (s, Err _) => (s, reads, acked) end
  | Commit => (state_of commit s, reads, acked)
  end.

(** the positions read are the committed ones and then those in flight, in order *)
Definition connector_ok (w : t * list Z * gset Z) : Prop :=
  let '(s, reads, acked) := w in
  ∃ pre, reads = pre ++ d_keys (inflight s) ∧ StronglySorted Z.lt reads ∧
    (∀ p, p ∈ reads → -1 < p <= latest_read s) ∧ -1 <= latest_read s ∧
    committed s = List.last pre (-1) ∧
    (∀ p, p ∈ pre → p ∈ acked) ∧ (∀ p, p ∈ acked → p ∈ reads) ∧
    (∀ p b, d_get (inflight s) p = Some b → b = bool_decide (p ∈ acked)).

Lemma commit_loop_run (keys : list Z) s : keys = d_keys (inflight s) → StronglySorted Z.lt keys →
  ∃ s' pre rest, commit_loop keys s = (s', Ok ()) ∧ keys = pre ++ rest ∧ d_keys (inflight s') = rest ∧
    latest_read s' = latest_read s ∧ committed s' = List.last pre (committed s) ∧
    (∀ p, p ∈ pre → d_get (inflight s) p = Some true) ∧
    (∀ p, p ∈ rest → d_get (inflight s') p = d_get (inflight s) p) ∧
    (∀ p, head rest = Some p → d_get (inflight s) p = Some false).
Proof.
  intros Hkeys Hs. revert s Hkeys. induction Hs as [|p keys Hs IH Hp]; intros s Hkeys.
  { exists s, [], []. cbn. split_and!; try done. all: by intros ? ?%elem_of_nil. }
  destruct (inflight s) as [|[p' b] fl] eqn:Hfl; [done|]. cbn in Hkeys. injection Hkeys as <- Hkeys.
  assert (p ∉ keys) as Hnot. { intros Hin. rewrite Forall_forall in Hp. specialize (Hp p Hin). lia. }
  cbn [commit_loop]. act_simpl. rewrite Hfl. unfold d_item. cbn [d_get]. rewrite bool_decide_eq_true_2 by done. act_simpl.
  destruct b; act_simpl.
  - assert (d_del ((p, true) :: fl) p = fl) as Hdel.
    { unfold d_del. rewrite filter_cons_False by (cbn; tauto). apply list_filter_all. intros [q c] Hq. cbn. intros ->.
      apply Hnot. rewrite Hkeys. apply list_elem_of_fmap. by exists (p, c). }
    rewrite Hfl, Hdel. change (set_inflight fl (set_committed p s)) with (mk fl p (latest_read s)).
    destruct (IH (mk fl p (latest_read s))) as (s' & pre & rest & Hrun & Hk & Hk' & Hl & Hc & Hd & Hr & Hh); [done|].
    exists s', (p :: pre), rest. split_and!; [done|by rewrite Hk|done|done| | | |].
    + rewrite Hc. symmetry. apply list_last_cons.
    + intros q [->|Hq]%elem_of_cons; cbn; [by rewrite bool_decide_eq_true_2|].
      rewrite bool_decide_eq_false_2; [by apply Hd|]. intros ->. apply Hnot. rewrite Hk. apply elem_of_app. by left.
    + intros q Hq. rewrite Hr by done. cbn. rewrite bool_decide_eq_false_2; [done|].
      intros ->. apply Hnot. rewrite Hk. apply elem_of_app. by right.
    + intros q Hq. cbn. rewrite bool_decide_eq_false_2; [by apply Hh|]. intros ->. apply Hnot. rewrite Hk.
      apply elem_of_app. right. destruct rest; [done|]. injection Hq as ->. left.
  - exists s, [], (p :: keys). rewrite ?Hfl. cbn. rewrite ?Hkeys. split_and!; try done.
    + by intros q ?%elem_of_nil.
    + intros q [= <-]. by rewrite bool_decide_eq_true_2.
Qed.

Lemma StronglySorted_lt_le (l : list Z) : StronglySorted Z.lt l → Sorted Z.le l.
Proof.
  intros H. apply StronglySorted_Sorted. induction H as [|x l H IH Hx]; constructor; [done|].
  rewrite Forall_forall in *. intros y Hy. specialize (Hx y Hy). lia.
Qed.

Lemma StronglySorted_suffix (l1 l2 : list Z) : StronglySorted Z.lt (l1 ++ l2) → StronglySorted Z.lt l2.
Proof. induction l1 as [|x l1 IH]; cbn; [done|]. intros H. apply StronglySorted_inv in H as [H _]. auto. Qed.

Lemma connector_commit_run s reads acked : connector_ok (s, reads, acked) →
  ∃ s', commit s = (s', Ok (committed s')) ∧ connector_ok (s', reads, acked) ∧
    (∀ p, head (d_keys (inflight s')) = Some p → p ∉ acked) ∧ committed s <= committed s'.
Proof.
  intros (pre & Hreads & Hsort & Hrange & Hlo & Hc & Hdone & Hack & Hfl). pose proof Hsort as Hsort'. rewrite Hreads in Hsort'.
  apply StronglySorted_suffix in Hsort'.
  destruct (commit_loop_run (d_keys (inflight s)) s) as (s' & done' & rest & Hrun & Hk & Hk' & Hl & Hc' & Hd & Hr & Hh); [done|done|].
  exists s'. unfold commit. act_simpl. rewrite py_sorted_id by by apply StronglySorted_lt_le. rewrite bind_run, Hrun. split; [done|].
  split.
  - exists (pre ++ done'). rewrite Hk', <- app_assoc, <- Hk, Hl. split_and!; try done.
    + rewrite Hc', Hc. destruct done' as [|x l] using rev_ind; [by rewrite app_nil_r|]. rewrite app_assoc, !List.last_last. done.
    + intros p [Hp|Hp]%elem_of_app; [by apply Hdone|]. specialize (Hd p Hp). apply Hfl in Hd. symmetry in Hd. by apply bool_decide_eq_true in Hd.
    + intros p b Hp. apply (Hfl p b). rewrite <- Hr; [done|]. rewrite <- Hk'. apply d_get_is_Some. by eexists.
  - split.
    { intros p Hp. rewrite Hk' in Hp. specialize (Hh p Hp). apply Hfl in Hh. symmetry in Hh. by apply bool_decide_eq_false in Hh. }
    rewrite Hc'. destruct done' as [|x l _] using rev_ind; [done|]. rewrite List.last_last, Hc. rewrite Hreads, Hk, <- app_assoc in Hsort, Hrange.
    destruct pre as [|y l' _] using rev_ind.
    { assert (-1 < x <= latest_read s); [|cbn; lia]. apply Hrange. set_solver. }
    rewrite List.last_last. apply (StronglySorted_app_1_elem_of Z.lt (l' ++ [y]) (l ++ [x] ++ rest) y x) in Hsort; [lia|set_solver..].
Qed.

Lemma connector_ok_step o w : connector_ok w → connector_ok (connector_step o w).
Proof.
  destruct w as [[s reads] acked]. intros Hok. pose proof Hok as (pre & Hreads & Hsort & Hrange & Hlo & Hc & Hdone & Hack & Hfl).
  destruct o as [p|p|]; cbn [connector_step].
  - unfold read. act_simpl. destruct (Z.leb_spec p (latest_read s)) as [|Hp]; act_simpl; [done|].
    assert (p ∉ d_keys (inflight s)) as Hnew.
    { intros Hin. assert (p ∈ reads) as Hr by (rewrite Hreads; apply elem_of_app; by right). specialize (Hrange p Hr). lia. }
    exists pre. cbn. rewrite d_keys_set_fresh, app_assoc, <- Hreads by done. split_and!; try done.
    + clear -Hsort Hrange Hp. assert (∀ q, q ∈ reads → q <= latest_read s) as H by (intros q Hq; by apply Hrange). clear Hrange.
      induction Hsort as [|x l Hs IH Hx]; cbn; [repeat constructor|]. constructor; [apply IH; intros q Hq; apply H; by right|].
      rewrite Forall_app. split; [done|]. repeat constructor. specialize (H x ltac:(left)). lia.
    + intros q [Hq|Hq%list_elem_of_singleton]%elem_of_app; [specialize (Hrange q Hq)|]; lia.
    + lia.
    + intros q Hq. apply elem_of_app. left. by apply Hack.
    + intros q b. rewrite d_get_set. case_bool_decide as Hq; [|apply Hfl]. intros [= <-]. subst q. symmetry.
      apply bool_decide_eq_false_2. intros Hin. specialize (Hrange p (Hack p Hin)). lia.
  - unfold acknowledge. act_simpl. rewrite d_mem_get. destruct (d_get (inflight s) p) as [b0|] eqn:Hp; act_simpl; [|done].
    assert (p ∈ d_keys (inflight s)) as Hin by (apply d_get_is_Some; by rewrite Hp).
    exists pre. cbn. rewrite d_keys_set_mem by done. split_and!; try done.
    + intros q Hq. apply elem_of_union. right. by apply Hdone.
    + intros q [->%elem_of_singleton|Hq]%elem_of_union; [|by apply Hack]. rewrite Hreads. apply elem_of_app. by right.
    + intros q b. rewrite d_get_set. case_bool_decide as Hq.
      * intros [= <-]. subst q. symmetry. apply bool_decide_eq_true_2. set_solver.
      * intros Hb. rewrite (Hfl q b Hb). apply bool_decide_ext. set_solver.
  - destruct (connector_commit_run s reads acked Hok) as (s' & Hrun & Hok' & _). unfold state_of. by rewrite Hrun.
Qed.
End connector.

(** Also (safety): a connector never commits past an unacknowledged position.  After any reads, acknowledgements and
    commits, a commit leaves committed the last position of the longest prefix of what was read that is
    acknowledged in full, whatever was acknowledged beyond it: restarting there re-reads every position not
    yet acknowledged, so none is lost, and what was committed does not go back. *)
Theorem connector_commits_prefix ops :
  let '(s, reads, acked) := run connector_step ops (ConnectorOffsets.new, [], ∅) in
  ∃ s', ConnectorOffsets.commit s = (s', Ok (ConnectorOffsets.committed s')) ∧
    ∃ pre rest, reads = pre ++ rest ∧ ConnectorOffsets.resume_from s' = List.last pre (-1) ∧
      (∀ p, p ∈ pre → p ∈ acked) ∧ (∀ p, head rest = Some p → p ∉ acked) ∧
      (∀ p, p ∈ rest → ConnectorOffsets.resume_from s' < p) ∧
      ConnectorOffsets.committed s <= ConnectorOffsets.committed s'.
Proof.
  pose proof (run_invariant connector_step connector_ok ops (ConnectorOffsets.new, [], ∅) connector_ok_step) as H.
  destruct (run _ _ _) as [[s reads] acked].
  assert (connector_ok (s, reads, acked)) as Hok.
  { apply H. exists []. cbn. split_and!; (done || lia || (by constructor) || (by intros ? ?%elem_of_nil) || set_solver). }
  clear H. destruct (connector_commit_run s reads acked Hok) as (s' & Hrun & Hok' & Hhead & Hmono). exists s'. split; [done|].
  destruct Hok' as (pre & Hreads & Hsort & Hrange & Hlo & Hc & Hdone & _ & _).
  exists pre, (d_keys (ConnectorOffsets.inflight s')). unfold ConnectorOffsets.resume_from. split_and!; try done.
  intros p Hp. rewrite Hc. assert (p ∈ reads) as Hin by (rewrite Hreads; apply elem_of_app; by right).
  destruct pre as [|x l _] using rev_ind; [specialize (Hrange p Hin); cbn; lia|]. rewrite List.last_last. rewrite Hreads in Hsort.
  apply (StronglySorted_app_1_elem_of Z.lt _ _ x p Hsort); [set_solver|done].
Qed.

Section temporal.
Import TemporalJoin.

(** the versions in force, newest last: [add_version] keeps their times increasing *)
Definition versions_ok (s : t) : Prop := StronglySorted Z.lt (versions s).*1.

Lemma add_version_run eff value s :
  add_version eff value s =
  if forallb (λ p, p.1 <? eff) (default [] ((λ p, [p]) <$> last (versions s)))
  then (mk (versions s ++ [(eff, value)]), Ok ()) else (s, Err Invalid).
Proof.
  unfold add_version. act_simpl. destruct (versions s) as [|p l _] using rev_ind; [done|].
  rewrite bool_decide_eq_false_2 by (by destruct l). cbn [negb]. rewrite py_index_last, last_snoc. cbn.
  rewrite andb_true_r, Z.ltb_antisym. by destruct (eff <=? p.1).
Qed.

Lemma versions_ok_add eff value s : versions_ok s → versions_ok (state_of (add_version eff value) s).
Proof.
  unfold versions_ok, state_of. rewrite add_version_run. destruct (forallb _ _) eqn:E; [|done]. cbn [fst versions].
  rewrite fmap_app. cbn. intros Hs. apply StronglySorted_app. split_and!; [|done|repeat constructor].
  intros x y Hx ->%list_elem_of_singleton.
  destruct (versions s) as [|p l _] using rev_ind; [by apply elem_of_nil in Hx|].
  rewrite last_snoc in E. cbn in E. rewrite andb_true_r in E. bool_prop. rewrite fmap_app in *. cbn in *.
  apply elem_of_app in Hx as [Hx| ->%list_elem_of_singleton]; [|done].
  assert (x < p.1); [|lia]. apply (StronglySorted_app_1_elem_of Z.lt _ _ x p.1 Hs); [done|left].
Qed.

Lemma applicable_loop_spec l now v : StronglySorted Z.lt l.*1 →
  applicable_loop l now v = default v (snd <$> last (py_filter (λ p, p.1 <=? now) l)).
Proof.
  revert v. induction l as [|[e x] l IH]; intros v Hs; [done|]. cbn in Hs. apply StronglySorted_inv in Hs as [Hs Hall].
  cbn [applicable_loop]. rewrite py_filter_cons. cbn [fst]. destruct (Z.leb_spec e now) as [Hle|Hgt].
  - rewrite IH by done. rewrite last_cons. by destruct (last _).
  - assert (py_filter (λ p, p.1 <=? now) l = []) as ->; [|done]. apply py_filter_nil_iff. intros [e' x'] Hin.
    rewrite Forall_forall in Hall. assert (e < e') by (apply Hall, list_elem_of_fmap; by exists (e', x')). cbn. lia.
Qed.
End temporal.

(** Also (equivalence): a temporal join reads the version in force at the event's own time: the last one
    effective at or before it, even when newer ones are already known; before the first version the join
    fails rather than guess.  Versions cannot be added out of order. *)
Theorem temporal_join_exact adds event_time :
  let s := run (λ '(eff, value), state_of (TemporalJoin.add_version eff value)) adds TemporalJoin.new in
  TemporalJoin.join s event_time =
    match last (py_filter (λ p, p.1 <=? event_time) (TemporalJoin.versions s)) with
    | Some (_, value) => Ok value
    | None => Err Missing
    end ∧
  StronglySorted Z.lt (TemporalJoin.versions s).*1.
Proof.
  intros s. assert (versions_ok s) as Hs.
  { apply (run_invariant _ versions_ok); [|constructor]. intros [eff v] s'. apply versions_ok_add. }
  split; [|done]. unfold TemporalJoin.join. unfold versions_ok in Hs.
  destruct (TemporalJoin.versions s) as [|[e v] l] eqn:Hv; [done|].
  change (py_index ((e, v) :: l) 0) with (Ok (e, v) : result (Z * string)).
  rewrite bool_decide_eq_false_2 by done. cbn [mbind result_bind fst snd].
  destruct (Z.ltb_spec event_time e) as [Hlt|Hge].
  - assert (py_filter (λ p, p.1 <=? event_time) ((e, v) :: l) = []) as ->; [|done].
    apply py_filter_nil_iff. cbn in Hs. apply StronglySorted_inv in Hs as [_ Hall]. rewrite Forall_forall in Hall.
    intros [e' x] [[= -> ->]|Hin]%elem_of_cons; cbn; [lia|].
    assert (e < e') by (apply Hall, list_elem_of_fmap; by exists (e', x)). lia.
  - rewrite applicable_loop_spec by done. rewrite py_filter_cons. cbn [fst]. rewrite (proj2 (Z.leb_le e event_time)) by lia.
    rewrite last_cons. by destruct (last _) as [[]|].
Qed.

(** ** Callbacks in order *)

Section callbacks.
Import CallbackDispatcher.
Implicit Types s : t.

Lemma drain_loop_run p fuel s (b f : gset Z) expected fired_now :
  d_get (buffered s) p = Some b → d_get (fired s) p = Some f → (base.size b <= fuel)%nat →
  ∃ (k : nat) s', drain_loop p expected fired_now fuel s = (s', Ok (expected + Z.of_nat k, fired_now ++ seqZ expected (Z.of_nat k))) ∧
    next_to_fire s' = next_to_fire s ∧
    (∃ b' f', d_get (buffered s') p = Some b' ∧ d_get (fired s') p = Some f' ∧
       (∀ n, n ∈ b' ↔ n ∈ b ∧ ¬ (expected <= n < expected + Z.of_nat k)) ∧
       (∀ n, n ∈ f' ↔ n ∈ f ∨ expected <= n < expected + Z.of_nat k) ∧
       (∀ n, expected <= n < expected + Z.of_nat k → n ∈ b) ∧ expected + Z.of_nat k ∉ b) ∧
    (∀ q, q ≠ p → d_get (buffered s') q = d_get (buffered s) q ∧ d_get (fired s') q = d_get (fired s) q).
Proof.
  revert s b f expected fired_now. induction fuel as [|fuel IH]; intros s b f expected fired_now Hb Hf Hsize;
    cbn [drain_loop]; act_simpl; unfold d_item; rewrite Hb; act_simpl; destruct (decide (expected ∈ b)) as [Hin|Hout].
  - exfalso. assert (b = ∅) as ->; [|by apply elem_of_empty in Hin]. apply leibniz_equiv, size_empty_iff. lia.
  - rewrite bool_decide_eq_false_2 by done. act_simpl. exists 0%nat, s.
    rewrite Z.add_0_r. cbn [Z.of_nat]. rewrite seqZ_nil, app_nil_r by lia. split_and!; try done.
    exists b, f. split_and!; [done|done|intros n; intuition lia|intros n; intuition lia|intros n; lia|done].
  - rewrite bool_decide_eq_true_2 by done. act_simpl. rewrite Hf. act_simpl.
    set (s1 := set_fired _ _).
    destruct (IH s1 (b ∖ {[expected]}) ({[expected]} ∪ f) (expected + 1) (fired_now ++ [expected]))
      as (k & s' & Hrun & Hn & (b' & f' & Hb' & Hf' & Hbi & Hfi & Hall & Hend) & Hother).
    { unfold s1. cbn. by rewrite d_get_set_eq. }
    { unfold s1. cbn. by rewrite d_get_set_eq. }
    { rewrite size_difference, size_singleton; [lia|set_solver]. }
    exists (S k), s'. split_and!; [| done| |].
    + rewrite Hrun. rewrite Nat2Z.inj_succ, (seqZ_cons expected) by lia. rewrite <- app_assoc. cbn [app].
      rewrite Z.pred_succ, <- (Z.add_1_r expected). by replace (expected + 1 + Z.of_nat k) with (expected + Z.succ (Z.of_nat k)) by lia.
    + exists b', f'. rewrite Nat2Z.inj_succ. split_and!; [done|done| | | |].
      * intros n. rewrite Hbi. set_solver by lia.
      * intros n. rewrite Hfi. set_solver by lia.
      * intros n Hn'. destruct (decide (n = expected)) as [->|]; [done|]. assert (n ∈ b ∖ {[expected]}); [apply Hall; lia|set_solver].
      * intros Hin'. apply Hend. apply elem_of_difference. split; [by replace (expected + 1 + Z.of_nat k) with (expected + Z.succ (Z.of_nat k)) by lia|].
        rewrite elem_of_singleton. lia.
    + intros q Hq. destruct (Hother q Hq) as [-> ->]. unfold s1. cbn. by rewrite !d_get_set_ne.
  - rewrite bool_decide_eq_false_2 by done. act_simpl. exists 0%nat, s.
    rewrite Z.add_0_r. cbn [Z.of_nat]. rewrite seqZ_nil, app_nil_r by lia. split_and!; try done.
    exists b, f. split_and!; [done|done|intros n; intuition lia|intros n; intuition lia|intros n; lia|done].
Qed.

(** the dispatcher, the callbacks fired and the offsets acknowledged, by partition, in order *)
Definition callback_step (o : string * Z) (w : t * list (string * Z) * list (string * Z)) : t * list (string * Z) * list (string * Z) :=
  let '(s, log, acked) := w in
  match acknowledge o.1 o.2 s with
  | (s, Ok fired_now) => (s, log ++ ((λ n, (o.1, n)) <$> fired_now), acked ++ [o])
  | (s, Err _) => (s, log, acked)
  end.

Definition of_partition (p : string) (l : list (string * Z)) : list Z := snd <$> py_filter (λ x, bool_decide (x.1 = p)) l.

Definition callback_ok (w : t * list (string * Z) * list (string * Z)) : Prop :=
  let '(s, log, acked) := w in
  ∀ p, let n := d_getd (next_to_fire s) p 0 in
    0 <= n ∧ of_partition p log = seqZ 0 n ∧ NoDup (of_partition p acked) ∧
    (∀ m, m ∈ d_getd (fired s) p ∅ ↔ 0 <= m < n) ∧
    (∀ m, m ∈ d_getd (buffered s) p ∅ → n < m) ∧
    (∀ m, m ∈ of_partition p acked ↔ 0 <= m < n ∨ m ∈ d_getd (buffered s) p ∅).

Lemma of_partition_app p l1 l2 : of_partition p (l1 ++ l2) = of_partition p l1 ++ of_partition p l2.
Proof. unfold of_partition. by rewrite py_filter_app, fmap_app. Qed.
Lemma of_partition_all p l : of_partition p ((λ n, (p, n)) <$> l) = l.
Proof. unfold of_partition. induction l as [|x l IH]; [done|]. cbn [fmap list_fmap]. rewrite py_filter_cons. cbn [fst]. rewrite bool_decide_eq_true_2 by done. cbn. by f_equal. Qed.
Lemma of_partition_other p q l : q ≠ p → of_partition q ((λ n, (p, n)) <$> l) = [].
Proof. intros Hne. unfold of_partition. induction l as [|x l IH]; [done|]. cbn [fmap list_fmap]. rewrite py_filter_cons. cbn [fst]. by rewrite bool_decide_eq_false_2 by congruence. Qed.

Lemma d_getd_setdefault {V} (d : pydict string V) k v v0 q :
  v = v0 → d_getd (d_setdefault d k v) q v0 = d_getd d q v0.
Proof.
  intros ->. unfold d_setdefault. rewrite d_mem_get. destruct (d_get d k) eqn:E; [done|].
  rewrite d_getd_set. case_bool_decide; [subst; unfold d_getd; by rewrite E|done].
Qed.
Lemma d_get_setdefault {V} (d : pydict string V) k v : d_get (d_setdefault d k v) k = Some (d_getd d k v).
Proof. unfold d_setdefault, d_getd. rewrite d_mem_get. destruct (d_get d k) eqn:E; cbn; [done|]. by rewrite d_get_set_eq. Qed.

(** one acknowledgement: refused when it is old news, and otherwise every callback now due fires *)
Lemma acknowledge_run p m s log acked : callback_ok (s, log, acked) →
  let n := d_getd (next_to_fire s) p 0 in
  let b := d_getd (buffered s) p ∅ in
  if bool_decide (m < n ∨ m ∈ b) then
    ∃ s', acknowledge p m s = (s', Err Invalid) ∧ ∀ q, d_getd (next_to_fire s') q 0 = d_getd (next_to_fire s) q 0 ∧
      d_getd (buffered s') q ∅ = d_getd (buffered s) q ∅ ∧ d_getd (fired s') q ∅ = d_getd (fired s) q ∅
  else
    ∃ (k : nat) s', acknowledge p m s = (s', Ok (seqZ n (Z.of_nat k))) ∧
      d_getd (next_to_fire s') p 0 = n + Z.of_nat k ∧
      (∀ x, x ∈ d_getd (buffered s') p ∅ ↔ (x = m ∨ x ∈ b) ∧ ¬ (n <= x < n + Z.of_nat k)) ∧
      (∀ x, x ∈ d_getd (fired s') p ∅ ↔ x ∈ d_getd (fired s) p ∅ ∨ n <= x < n + Z.of_nat k) ∧
      (∀ x, n <= x < n + Z.of_nat k → x = m ∨ x ∈ b) ∧ n + Z.of_nat k ≠ m ∧ n + Z.of_nat k ∉ b ∧
      ∀ q, q ≠ p → d_getd (next_to_fire s') q 0 = d_getd (next_to_fire s) q 0 ∧
        d_getd (buffered s') q ∅ = d_getd (buffered s) q ∅ ∧ d_getd (fired s') q ∅ = d_getd (fired s) q ∅.
Proof.
  intros Hok n b. destruct (Hok p) as (Hn & _ & _ & Hfired & Hbuf & _). fold n in Hn, Hfired, Hbuf.
  unfold acknowledge. act_simpl. set (s1 := set_buffered _ _).
  assert (d_get (fired s1) p = Some (d_getd (fired s) p ∅)) as Hf1 by (unfold s1; cbn; apply d_get_setdefault).
  assert (d_get (buffered s1) p = Some b) as Hb1 by (unfold s1; cbn; apply d_get_setdefault).
  assert (∀ q, d_getd (next_to_fire s1) q 0 = d_getd (next_to_fire s) q 0 ∧
      d_getd (buffered s1) q ∅ = d_getd (buffered s) q ∅ ∧ d_getd (fired s1) q ∅ = d_getd (fired s) q ∅) as Hsame.
  { intros q. unfold s1. cbn [next_to_fire buffered fired set_buffered set_fired].
    by rewrite (d_getd_setdefault (fired s)), (d_getd_setdefault (buffered s)). }
  unfold d_item. rewrite !d_get_setdefault. fold b n. act_simpl.
  destruct (decide (m ∈ d_getd (fired s) p ∅)) as [Hmf|Hmf].
  { rewrite (bool_decide_eq_true_2 (m ∈ d_getd (fired s) p ∅)) by done. act_simpl. rewrite bool_decide_eq_true_2 by (left; by apply Hfired).
    by exists s1. }
  rewrite (bool_decide_eq_false_2 (m ∈ d_getd (fired s) p ∅)) by done. cbn [mbind result_bind]. act_simpl.
  destruct (decide (m ∈ b)) as [Hmb|Hmb].
  { rewrite (bool_decide_eq_true_2 (m ∈ b)), (bool_decide_eq_true_2 (_ ∨ _)) by tauto. act_simpl. by exists s1. }
  rewrite (bool_decide_eq_false_2 (m ∈ b)) by done. act_simpl.
  destruct (Z.ltb_spec m n) as [Hlt|Hge].
  { act_simpl. rewrite bool_decide_eq_true_2 by tauto. by exists s1. }
  act_simpl. rewrite bool_decide_eq_false_2 by (intros [?|?]; [lia|done]).
  unfold _drain. act_simpl. fold n.
  set (fuel := base.size _). set (s2 := set_buffered _ s1).
  assert (d_get (buffered s2) p = Some ({[m]} ∪ b)) as Hb2 by (unfold s2; cbn; by rewrite d_get_set_eq).
  destruct (drain_loop_run p fuel s2 ({[m]} ∪ b) (d_getd (fired s) p ∅) n [])
    as (k & s' & Hrun & Hnn & (b' & f' & Hb' & Hf' & Hbi & Hfi & Hall & Hend) & Hother); [done|done| |].
  { unfold fuel, d_getd. by rewrite d_get_set_eq. }
  exists k. eexists. rewrite bind_run, Hrun. act_simpl. cbn [app]. split; [reflexivity|]. cbn [next_to_fire set_next_to_fire buffered fired].
  split_and!.
  - by rewrite d_getd_set, bool_decide_eq_true_2.
  - intros x. unfold d_getd. rewrite Hb'. cbn. rewrite Hbi. set_solver.
  - intros x. unfold d_getd at 1. rewrite Hf'. cbn. by rewrite Hfi.
  - intros x Hx. specialize (Hall x Hx). set_solver.
  - set_solver.
  - set_solver.
  - intros q Hq. destruct (Hother q Hq) as [Hob Hof]. destruct (Hsame q) as (H1 & H2 & H3).
    rewrite d_getd_set, bool_decide_eq_false_2, Hnn by done. split; [done|].
    rewrite <- H2, <- H3. unfold d_getd. rewrite Hob, Hof. unfold s2. cbn. by rewrite d_get_set_ne.
Qed.

Lemma callback_ok_step o w : callback_ok w → callback_ok (callback_step o w).
Proof.
  destruct w as [[s log] acked], o as [p m]. intros Hok. pose proof (acknowledge_run p m s log acked Hok) as Hrun.
  cbn [callback_step fst snd]. cbn zeta in Hrun. case_bool_decide as Hold.
  - destruct Hrun as (s' & -> & Hsame). intros q. destruct (Hsame q) as (-> & -> & ->). apply Hok.
  - destruct Hrun as (k & s' & -> & Hn' & Hb' & Hf' & Hall & Hend & Hendb & Hother). intros q. cbn zeta.
    rewrite !of_partition_app. destruct (decide (q = p)) as [->|Hne].
    + destruct (Hok p) as (Hn & Hlog & Hnd & Hfired & Hbuf & Hack). cbn zeta in *.
      set (n := d_getd (next_to_fire s) p 0) in *. rewrite Hn', of_partition_all, Hlog.
      assert (of_partition p [(p, m)] = [m]) as -> by apply (of_partition_all p [m]).
      split_and!.
      * lia.
      * by rewrite seqZ_app by lia.
      * apply NoDup_app. split_and!; [done| |apply NoDup_singleton]. intros x Hx ->%list_elem_of_singleton.
        apply Hack in Hx. destruct Hx as [Hx|Hx]; [apply Hold; left; lia|apply Hold; by right].
      * intros x. rewrite Hf', Hfired. lia.
      * intros x [Hx Hnot]%Hb'. destruct (decide (x = n + Z.of_nat k)) as [->|Hxk]; [by destruct Hx|].
        destruct Hx as [->|Hx]; [|specialize (Hbuf x Hx)]; [|lia]. assert (n <= m) by (destruct (Z.le_gt_cases n m); [done|]; exfalso; apply Hold; by left). lia.
      * intros x. rewrite elem_of_app, Hack, list_elem_of_singleton, Hb'.
        destruct (decide (n <= x < n + Z.of_nat k)) as [Hin|Hout]; [specialize (Hall x Hin)|]; [|]; intuition lia.
    + rewrite of_partition_other by done. assert (of_partition q [(p, m)] = []) as -> by by apply (of_partition_other p q [m]).
      rewrite !app_nil_r. destruct (Hother q Hne) as (-> & -> & ->). apply Hok.
Qed.
End callbacks.

(** Also (liveness): callbacks fire in the order of the log, each exactly once, and as soon as they can.  Whatever
    the order the acknowledgements of each partition arrive in, the callbacks fired for a partition are
    those of offsets 0, 1, 2, ... up to the first offset not yet acknowledged, without a gap or a repeat;
    partitions do not hold each other up; and an offset already acknowledged is refused. *)
Theorem callbacks_in_order acks p :
  let '(s, log, acked) := run callback_step acks (CallbackDispatcher.new, [], []) in
  let n := d_getd (CallbackDispatcher.next_to_fire s) p 0 in
  of_partition p log = seqZ 0 n ∧ NoDup (of_partition p acked) ∧
  (∀ m, 0 <= m < n → m ∈ of_partition p acked) ∧ n ∉ of_partition p acked ∧
  (∀ m, m ∈ of_partition p acked → (CallbackDispatcher.acknowledge p m s).2 = Err Invalid).
Proof.
  pose proof (run_invariant callback_step callback_ok acks (CallbackDispatcher.new, [], []) callback_ok_step) as H.
  destruct (run _ _ _) as [[s log] acked]. assert (callback_ok (s, log, acked)) as Hok.
  { apply H. intros q. cbn. split_and!; [done|done|constructor|..]; intros m; set_solver by lia. }
  clear H. intros n. destruct (Hok p) as (Hn & Hlog & Hnd & Hfired & Hbuf & Hack). fold n in Hn, Hlog, Hfired, Hbuf, Hack.
  split_and!; [done|done|intros m Hm; apply Hack; by left| |].
  - intros [?|Hin]%Hack; [lia|]. specialize (Hbuf n Hin). lia.
  - intros m [Hm|Hm]%Hack; pose proof (acknowledge_run p m s log acked Hok) as Hrun; cbn zeta in Hrun; fold n in Hrun.
    + rewrite bool_decide_eq_true_2 in Hrun by (left; lia). by destruct Hrun as (s' & -> & _).
    + rewrite bool_decide_eq_true_2 in Hrun by by right. by destruct Hrun as (s' & -> & _).
Qed.

(** ** Event-time windows *)

Section windows.
Import WindowedStream.
Implicit Types s : t.

Inductive window_op :=
  | Advance (to_time : Z)
  | Add (event_time value : Z).

(** the stream, the windows reported closed in order, and the values added and dropped so far *)
Record window_world := WW { ww_stream : t; ww_closed : list Z; ww_added : Z; ww_dropped : Z }.

Definition window_step (o : window_op) (w : window_world) : window_world :=
  let '(WW s cl added dropped) := w in
  match o with
  | Advance to_time =>
      match advance_watermark to_time s with
      | (s, Ok l) => WW s (cl ++ l) added dropped
      | (s, Err _) => WW s cl added dropped
      end
  | Add e v =>
      match add e v s with
      | (s', Ok _) => WW s' cl (added + v) (if dropped_late s' =? dropped_late s then dropped else dropped + v)
      | (s', Err _) => WW s' cl added dropped
      end
  end.

Definition due (s : t) (to_time start : Z) : bool :=
  negb (bool_decide (start ∈ closed s)) && (start + window_size s + allowed_lateness s <=? to_time).

(** the body of the loop of [advance_watermark] *)
Definition close_body : list Z → Z → act t (list Z) :=
  λ newly_closed start,
    self ← get;
    let window_end := start + (window_size self) in
    newly_closed ← (if (negb (bool_decide (start ∈ closed self))) && (window_end + (allowed_lateness self) <=? watermark self) then
       put (set_closed ({[start]} ∪ (closed self)) self);;
       let newly_closed := newly_closed ++ [start] in
       mret newly_closed
     else
       mret newly_closed);
    mret newly_closed.

Lemma advance_unfold to_time s :
  advance_watermark to_time s =
  if to_time <? watermark s then (s, Err Invalid)
  else for_fold (py_sorted Z.le (d_keys (windows s))) [] close_body (set_watermark to_time s).
Proof.
  unfold advance_watermark. rewrite bind_get, bind_raise_if. destruct (_ <? _); [done|].
  change (match for_fold (py_sorted Z.le (d_keys (windows s))) [] close_body (set_watermark to_time s) with
          | (s', Ok a) => (s', Ok a) | (s', Err e) => (s', Err e) end
          = for_fold (py_sorted Z.le (d_keys (windows s))) [] close_body (set_watermark to_time s)).
  by destruct (for_fold _ _ _ _) as [? []].
Qed.

Lemma close_body_run acc x s :
  close_body acc x s = if due s (watermark s) x then (set_closed ({[x]} ∪ closed s) s, Ok (acc ++ [x])) else (s, Ok acc).
Proof. unfold close_body, due. act_simpl. by destruct (_ && _). Qed.

Lemma close_loop_run (l acc : list Z) s : NoDup l →
  for_fold l acc close_body s =
  (set_closed (list_to_set (py_filter (due s (watermark s)) l) ∪ closed s) s, Ok (acc ++ py_filter (due s (watermark s)) l)).
Proof.
  revert acc s. induction l as [|x l IH]; intros acc s Hnd.
  { cbn. rewrite app_nil_r, union_empty_l_L. by destruct s. }
  apply NoDup_cons in Hnd as [Hx Hnd]. cbn [for_fold]. rewrite py_filter_cons, bind_run, close_body_run.
  destruct (due s (watermark s) x) eqn:Hdue.
  - rewrite IH by done. cbn [watermark set_closed closed window_size allowed_lateness].
    assert (py_filter (due (set_closed ({[x]} ∪ closed s) s) (watermark s)) l = py_filter (due s (watermark s)) l) as ->.
    { apply filter_ext_in. intros y Hy. unfold due. cbn. rewrite (bool_decide_ext (y ∈ {[x]} ∪ closed s) (y ∈ closed s)); [done|].
      assert (y ≠ x) by (intros ->; done). set_solver. }
    rewrite <- app_assoc. unfold set_closed. cbn. f_equal. f_equal. apply set_eq. intros y. set_solver.
  - by rewrite IH.
Qed.

Lemma windowed_advance_run to_time s : d_wf (windows s) →
  advance_watermark to_time s =
  if to_time <? watermark s then (s, Err Invalid)
  else let l := py_filter (due s to_time) (py_sorted Z.le (d_keys (windows s))) in
       (set_closed (list_to_set l ∪ closed s) (set_watermark to_time s), Ok l).
Proof.
  intros Hwf. rewrite advance_unfold. destruct (to_time <? watermark s); [done|].
  rewrite close_loop_run; [done|]. by rewrite py_sorted_Permutation.
Qed.

Lemma windowed_add_run e v s : 1 <= window_size s →
  let start := e / window_size s * window_size s in
  ∃ m, add e v s = if bool_decide (start ∈ closed s) then (set_dropped_late (dropped_late s + 1) s, Ok m)
                   else (set_windows (d_set (windows s) start (d_getd (windows s) start 0 + v)) s, Ok m).
Proof.
  intros Hw start. unfold add, _window_start, py_div. act_simpl. rewrite (proj2 (Z.eqb_neq (window_size s) 0)) by lia. act_simpl.
  fold start. case_bool_decide; act_simpl; [by eexists|]. destruct (_ <=? _); act_simpl; by eexists.
Qed.

Definition windows_ok (size late : Z) (w : window_world) : Prop :=
  let s := ww_stream w in
  window_size s = size ∧ 1 <= size ∧ allowed_lateness s = late ∧ d_wf (windows s) ∧
  closed s = list_to_set (ww_closed w) ∧ NoDup (ww_closed w) ∧
  (∀ start, start ∈ closed s → start + size + late <= watermark s ∧ start ∈ d_keys (windows s)) ∧
  zsum id (d_values (windows s)) + ww_dropped w = ww_added w.

Lemma windows_ok_step size late o w : windows_ok size late w → windows_ok size late (window_step o w).
Proof.
  destruct w as [s cl added dropped]. intros (Hsize & H1 & Hlate & Hwf & Hcl & Hnd & Hclosed & Hsum).
  cbn [ww_stream ww_closed ww_added ww_dropped] in *.
  destruct o as [to_time|e v]; cbn [window_step].
  - rewrite windowed_advance_run by done. destruct (Z.ltb_spec to_time (watermark s)) as [|Hle]; [done|].
    set (l := py_filter _ _). split_and!; cbn; try done.
    + rewrite Hcl. apply set_eq. intros y. set_solver.
    + apply NoDup_app. split_and!; [done| |].
      * intros x Hx [Hd _]%elem_of_py_filter. unfold due in Hd. bool_prop. rewrite Hcl in *. set_solver.
      * apply NoDup_filter. by rewrite py_sorted_Permutation.
    + intros start [[Hd Hk]%elem_of_list_to_set%elem_of_py_filter|Hst]%elem_of_union.
      * unfold due in Hd. bool_prop. rewrite Hsize, Hlate in *. split; [done|]. by apply py_sorted_elem_of in Hk.
      * destruct (Hclosed start Hst). split; [lia|done].
  - destruct (windowed_add_run e v s ltac:(lia)) as [m Hm]. rewrite Hm. set (start := e / window_size s * window_size s) in *.
    case_bool_decide as Hin; cbn.
    + rewrite (proj2 (Z.eqb_neq _ _)) by lia. split_and!; try done.
      cbn [ww_stream windows set_dropped_late ww_dropped ww_added]. lia.
    + rewrite Z.eqb_refl. split_and!; cbn; try done.
      * by apply d_wf_set.
      * intros st Hst. destruct (Hclosed st Hst) as [? Hk]. split; [done|]. apply d_get_is_Some. rewrite d_get_set.
        case_bool_decide; [by eexists|]. by apply d_get_is_Some.
      * change (zsum id (d_values (d_set (windows s) start (d_getd (windows s) start 0 + v))) + dropped = added + v).
        rewrite (zsum_values_set id 0) by done. unfold id at 2 3. lia.
Qed.

Lemma closed_window_kept size late ops w start : windows_ok size late w → start ∈ closed (ww_stream w) →
  start ∈ closed (ww_stream (run window_step ops w)) ∧
  d_get (windows (ww_stream (run window_step ops w))) start = d_get (windows (ww_stream w)) start.
Proof.
  intros Hok Hin. apply (run_invariant window_step (λ w', windows_ok size late w' ∧ start ∈ closed (ww_stream w') ∧
    d_get (windows (ww_stream w')) start = d_get (windows (ww_stream w)) start)); [|done].
  clear Hok Hin. intros o w' (Hok & Hin & Hget). split; [by apply windows_ok_step|].
  destruct w' as [s cl added dropped]. pose proof Hok as (Hsize & H1 & Hlate & Hwf & _). cbn in *.
  destruct o as [to_time|e v]; cbn [window_step].
  - rewrite windowed_advance_run by done. destruct (to_time <? watermark s); [done|]. cbn. split; [set_solver|done].
  - destruct (windowed_add_run e v s ltac:(lia)) as [m Hm]. rewrite Hm. case_bool_decide as Hs; cbn; [done|].
    split; [done|]. rewrite d_get_set_ne; [done|]. by intros ->.
Qed.
End windows.

(** Also (safety): a closed window is final, and nothing is lost silently.  After any events and watermark advances,
    the windows reported closed are distinct, and each was due: the watermark is past its end and the
    allowed lateness; whatever happens next a closed window stays closed and its result does not change;
    and the values added are exactly those in the windows and those counted as dropped. *)
Theorem closed_windows_final size late s0 ops ops' (Hmake : WindowedStream.make size late = Ok s0) :
  let w := run window_step ops (WW s0 [] 0 0) in
  let w' := run window_step ops' w in
  NoDup (ww_closed w) ∧
  (∀ start, start ∈ ww_closed w →
     start + size + late <= WindowedStream.watermark (ww_stream w) ∧
     start ∈ ww_closed w' ∧ WindowedStream.result_ (ww_stream w') start = WindowedStream.result_ (ww_stream w) start) ∧
  zsum id (d_values (WindowedStream.windows (ww_stream w))) + ww_dropped w = ww_added w.
Proof.
  unfold WindowedStream.make in Hmake. destruct (_ || _) eqn:E; [done|]. bool_prop. injection Hmake as <-. intros w w'.
  assert (windows_ok size late w) as Hok.
  { apply run_invariant; [apply windows_ok_step|]. split_and!; cbn; (done || lia || constructor || set_solver). }
  assert (windows_ok size late w') as Hok' by (apply run_invariant; [apply windows_ok_step|done]).
  pose proof Hok as (_ & _ & _ & _ & Hcl & Hnd & Hclosed & Hsum). pose proof Hok' as (_ & _ & _ & _ & Hcl' & _).
  split_and!; [done| |done]. intros start Hin.
  assert (start ∈ WindowedStream.closed (ww_stream w)) as Hin' by (rewrite Hcl; set_solver).
  destruct (closed_window_kept size late ops' w start Hok Hin') as [Hkept Hget]. fold w' in Hkept, Hget.
  split_and!; [by apply Hclosed|rewrite Hcl' in Hkept; set_solver|].
  unfold WindowedStream.result_, d_item. by rewrite !d_mem_get, Hget.
Qed.

Lemma closed_windows_final_witness :
  let w := run window_step [Add 5 7; Advance 20; Add 6 1] (WW (WindowedStream.mk 10 5 0 [] ∅ 0) [] 0 0) in
  zsum id (d_values (WindowedStream.windows (ww_stream w))) + ww_dropped w = ww_added w.
Proof. exact (proj2 (proj2 (closed_windows_final 10 5 _ [Add 5 7; Advance 20; Add 6 1] [] eq_refl))). Defined.

(** Also (error): an event whose window held nothing when the watermark passed its grace is still accepted,
    however late it is: only windows that hold data are ever closed. *)
Theorem late_event_past_grace_accepted size late s0 e v now (Hmake : WindowedStream.make size late = Ok s0)
    (Hnow : 0 <= now) (Hlate : e / size * size + size + late <= now) :
  let s := state_of (WindowedStream.advance_watermark now) s0 in
  let s' := state_of (WindowedStream.add e v) s in
  WindowedStream.dropped_late s' = 0 ∧ WindowedStream.result_ s' (e / size * size) = Ok v.
Proof.
  unfold WindowedStream.make in Hmake. destruct (_ || _) eqn:E; [done|]. bool_prop. injection Hmake as <-.
  unfold state_of. rewrite windowed_advance_run by constructor. cbn [WindowedStream.watermark]. rewrite (proj2 (Z.ltb_ge now 0)) by lia. cbn [fst snd].
  set (s1 := WindowedStream.set_closed _ _).
  assert (WindowedStream.closed s1 = ∅) as Hcl by (unfold s1; cbn; by rewrite union_empty_l_L).
  assert (WindowedStream.windows s1 = [] ∧ WindowedStream.window_size s1 = size ∧ WindowedStream.dropped_late s1 = 0) as (Hw & Hs & Hd) by done.
  clearbody s1. destruct (windowed_add_run e v s1 ltac:(lia)) as [m Hm]. rewrite Hs in Hm. rewrite Hm, Hcl, bool_decide_eq_false_2 by set_solver.
  cbn. split; [done|]. unfold WindowedStream.result_, d_item. rewrite d_mem_get. cbn. rewrite Hw. cbn. by rewrite bool_decide_eq_true_2.
Qed.

(** ** Tables, merged clocks *)

(** Also (roundtrip): a table read back from its changelog is the same table. *)
Theorem changelog_rebuilds_table ops :
  let fold_all := run (λ '(key, value), state_of (TableStream.fold key value)) in
  let s := fold_all ops TableStream.new in
  d_eq (TableStream.table (fold_all ((λ '(k, v), (k, Some v)) <$> TableStream.changelog s) TableStream.new)) (TableStream.table s) ∧
  ∀ k, k ∈ d_keys (TableStream.table s) → k ≠ ""%string.
Proof.
  intros fold_all s.
  assert (d_wf (TableStream.table s) ∧ ∀ k, k ∈ d_keys (TableStream.table s) → k ≠ ""%string) as [Hwf Hkeys].
  { unfold s, fold_all. apply (run_invariant _ (λ s, d_wf (TableStream.table s) ∧ ∀ k, k ∈ d_keys (TableStream.table s) → k ≠ ""%string));
      [|split; [constructor|by intros k ?%elem_of_nil]]. clear.
    intros [k v] s [Hwf Hkeys]. unfold state_of, TableStream.fold. act_simpl. case_bool_decide as Hk; [done|]. act_simpl.
    destruct v as [v|]; act_simpl.
    - split; [by apply d_wf_set|]. intros k'. rewrite <- d_get_is_Some, d_get_set. case_bool_decide; [by intros _; subst|]. rewrite d_get_is_Some. apply Hkeys.
    - split; [by apply d_wf_del|]. intros k'. rewrite <- d_get_is_Some, d_get_del. case_bool_decide; [by intros [? ?]|]. rewrite d_get_is_Some. apply Hkeys. }
  split; [|done].
  assert (∀ l s0, (∀ k, k ∈ l.*1 → k ≠ ""%string) →
    TableStream.table (fold_all ((λ '(k, v), (k, Some v)) <$> l) s0) = d_update (TableStream.table s0) l) as Hfold.
  { clear. induction l as [|[k v] l IH]; intros s0 Hk; [done|]. cbn [fmap list_fmap].
    change (fold_all ((k, Some v) :: ((λ '(k, v), (k, Some v)) <$> l)) s0)
      with (fold_all ((λ '(k, v), (k, Some v)) <$> l) (state_of (TableStream.fold k (Some v)) s0)).
    rewrite IH by (intros k' Hk'; apply Hk; by right). unfold state_of, TableStream.fold. act_simpl.
    rewrite bool_decide_eq_false_2 by (apply Hk; left). by act_simpl. }
  assert (TableStream.changelog s ≡ₚ TableStream.table s) as Hp by apply py_sorted_Permutation.
  rewrite Hfold.
  - intros k. rewrite d_get_update.
    + cbn [TableStream.new TableStream.table d_get].
      assert (d_get (TableStream.changelog s) k = d_get (TableStream.table s) k) as ->; [|by destruct (d_get _ k)].
      destruct (d_get (TableStream.table s) k) as [v|] eqn:Hv.
      * apply d_elem_of_get; [unfold d_wf, d_keys; by rewrite Hp|]. rewrite Hp. by apply d_get_elem_of.
      * apply d_get_None in Hv. apply d_get_None. unfold d_keys in *. by rewrite Hp.
    + unfold d_wf, d_keys. by rewrite Hp.
  - intros k Hk. apply Hkeys. unfold d_keys. by rewrite <- Hp.
Qed.

(** Also (safety): a merged stream's clock is its slowest input's.  It is the least of the watermarks reported,
    so no input can still send a record behind it; an input already seen can only move it forward; and an
    input that goes back is refused. *)
Theorem merged_clock_is_slowest obs stream mark :
  let s := run (λ '(st, m), state_of (StreamMerge.observe st m)) obs StreamMerge.new in
  let s' := state_of (StreamMerge.observe stream mark) s in
  (∀ st m, d_get (StreamMerge.watermarks s) st = Some m → ∃ low, StreamMerge.merged_watermark s = Ok low ∧ low <= m) ∧
  (StreamMerge.watermarks s ≠ [] → ∃ st low, StreamMerge.merged_watermark s = Ok low ∧ d_get (StreamMerge.watermarks s) st = Some low) ∧
  (∀ m, d_get (StreamMerge.watermarks s) stream = Some m →
     if mark <? m then StreamMerge.observe stream mark s = (s, Err Invalid)
     else ∃ low low', StreamMerge.merged_watermark s = Ok low ∧ StreamMerge.merged_watermark s' = Ok low' ∧ low <= low').
Proof.
  intros s s'.
  assert (∀ s, d_wf (StreamMerge.watermarks s) → StreamMerge.watermarks s ≠ [] →
    ∃ low st, StreamMerge.merged_watermark s = Ok low ∧ d_get (StreamMerge.watermarks s) st = Some low ∧
      ∀ st' m, d_get (StreamMerge.watermarks s) st' = Some m → low <= m) as Hmin.
  { clear. intros s Hwf Hne. unfold StreamMerge.merged_watermark. rewrite bool_decide_eq_false_2 by done.
    destruct (d_values (StreamMerge.watermarks s)) as [|x l] eqn:Hv; [by destruct (StreamMerge.watermarks s)|].
    pose proof (py_min_elem x l) as Hin. rewrite <- Hv in Hin. apply list_elem_of_fmap in Hin as ([st m] & Hm & Hst).
    exists (py_min x l), st. split_and!; [done|rewrite Hm; by apply d_elem_of_get|].
    intros st' m' Hget. apply d_get_elem_of in Hget. apply py_min_le. rewrite <- Hv. apply list_elem_of_fmap. by exists (st', m'). }
  assert (∀ st m s, StreamMerge.observe st m s =
    if m <? d_getd (StreamMerge.watermarks s) st m then (s, Err Invalid) else (StreamMerge.mk (d_set (StreamMerge.watermarks s) st m), Ok ())) as Hobs.
  { intros st m s1. unfold StreamMerge.observe. act_simpl. by destruct (_ <? _). }
  assert (d_wf (StreamMerge.watermarks s)) as Hwf.
  { unfold s. apply (run_invariant _ (λ s, d_wf (StreamMerge.watermarks s))); [|constructor]. intros [st m] s1 H1.
    unfold state_of. rewrite Hobs. destruct (_ <? _); [done|]. by apply d_wf_set. }
  split_and!.
  - intros st m Hm. destruct (Hmin s Hwf) as (low & st' & Hl & _ & Hle); [by intros E; rewrite E in Hm|]. exists low. eauto.
  - intros Hne. destruct (Hmin s Hwf Hne) as (low & st & Hl & Hst & _). by exists st, low.
  - intros m Hm. pose proof (Hobs stream mark s) as Hs. unfold d_getd in Hs. rewrite Hm in Hs. cbn in Hs.
    destruct (Z.ltb_spec mark m) as [|Hle]; [done|].
    destruct (Hmin s Hwf) as (low & st & Hl & Hst & Hlow); [by intros E; rewrite E in Hm|].
    assert (s' = StreamMerge.mk (d_set (StreamMerge.watermarks s) stream mark)) as Hs' by (unfold s', state_of; by rewrite Hs).
    destruct (Hmin s') as (low' & st' & Hl' & Hst' & Hlow').
    { rewrite Hs'. by apply d_wf_set. }
    { rewrite Hs'. cbn. intros E. pose proof (d_get_set_eq (StreamMerge.watermarks s) stream mark) as Heq. by rewrite E in Heq. }
    exists low, low'. split_and!; [done|done|]. rewrite Hs' in Hst'. cbn in Hst'. rewrite d_get_set in Hst'.
    case_bool_decide as Hc; [injection Hst' as <-; specialize (Hlow _ _ Hm); lia|by eapply Hlow].
Qed.

(** ** Session windows *)

Section sessions.
Import SessionWindowMerge.
Notation session := _Session.t.
Notation start := _Session.start.
Notation finish := _Session.end_.

Definition within (s : session) (e : Z) : bool := (start s <=? e) && (e <=? finish s).
Definition count_within (s : session) (events : list Z) : Z := zlen (py_filter (within s) events).

(** what a session window is: it runs from an event to an event, nowhere inside it is the wait for the next
    event longer than the gap, no event outside is within the gap of it, and it counts its events *)
Definition is_session (gap : Z) (events : list Z) (s : session) : Prop :=
  start s ∈ events ∧ finish s ∈ events ∧ start s <= finish s ∧
  _Session.count s = count_within s events ∧
  (∀ x, start s <= x < finish s → ∃ e, e ∈ events ∧ x < e <= x + gap) ∧
  (∀ e, e ∈ events → start s - gap <= e <= finish s + gap → start s <= e <= finish s).

(** far enough apart *)
Definition apart (gap : Z) (s u : session) : Prop := finish s + gap < start u ∨ finish u + gap < start s.

Record sessions_ok (g : Z) (events : list Z) (l : list session) : Prop := {
  ok_ends : ∀ s, s ∈ l → start s ∈ events ∧ finish s ∈ events ∧ start s <= finish s;
  ok_count : ∀ s, s ∈ l → _Session.count s = count_within s events;
  ok_dense : ∀ s x, s ∈ l → start s <= x < finish s → ∃ e, e ∈ events ∧ x < e <= x + g;
  ok_cover : ∀ e, e ∈ events → ∃ s, s ∈ l ∧ within s e = true;
  ok_apart : ∀ s u, s ∈ l → u ∈ l → s ≠ u → apart g s u;
  ok_nodup : NoDup l }.

Lemma within_spec s e : within s e = true ↔ start s <= e <= finish s.
Proof. unfold within. rewrite andb_true_iff, !Z.leb_le. done. Qed.

(** the declarative specification, from the invariant *)
Lemma sessions_ok_exact g events l s : 0 < g → sessions_ok g events l → s ∈ l ↔ is_session g events s.
Proof.
  intros Hg [Hends Hcount Hdense Hcover Hapart Hnd]. split.
  - intros Hs. destruct (Hends s Hs) as (H1 & H2 & H3). split_and!; [done..|by apply Hcount|intros x; by apply Hdense|].
    intros e He Hin. destruct (Hcover e He) as (u & Hu & Hw%within_spec).
    destruct (decide (s = u)) as [->|Hne]; [lia|]. destruct (Hapart s u Hs Hu Hne); lia.
  - intros (H1 & H2 & H3 & H4 & H5 & H6). destruct (Hcover _ H1) as (u & Hu & Hw%within_spec).
    destruct (Hends u Hu) as (U1 & U2 & U3).
    assert (start u = start s) as Hst.
    { destruct (decide (start s - g <= start u)) as [Hclose|Hfar].
      - destruct (H6 _ U1 ltac:(lia)). lia.
      - destruct (Hdense u (start s - g - 1) Hu ltac:(lia)) as (e & He & Hin). destruct (H6 e He ltac:(lia)). lia. }
    assert (finish u = finish s) as Hfin.
    { destruct (Z.lt_trichotomy (finish u) (finish s)) as [Hlt|[?|Hgt]]; [|done|].
      - destruct (H5 (finish u) ltac:(lia)) as (e & He & Hin). destruct (Hcover e He) as (v & Hv & Hwv%within_spec).
        destruct (Hends v Hv) as (_ & _ & V3). destruct (decide (u = v)) as [<-|Hne]; [lia|]. destruct (Hapart u v Hu Hv Hne); lia.
      - destruct (Hdense u (finish s) Hu ltac:(lia)) as (e & He & Hin). destruct (H6 e He ltac:(lia)). lia. }
    assert (_Session.count u = _Session.count s) as Hc.
    { rewrite (Hcount u Hu), H4. unfold count_within. f_equal. apply filter_ext_in. intros e _. unfold within. by rewrite Hst, Hfin. }
    destruct u, s. cbn in *. by subst.
Qed.

Definition touches (g ts : Z) (s : session) : bool := (start s - g <=? ts) && (ts <=? finish s + g).

Lemma remove_all_run (touched : list session) self : NoDup touched → NoDup (sessions self) →
  (∀ s, s ∈ touched → s ∈ sessions self) →
  for_each touched (λ s,
      self ← get;
      sessions_ ← pure_of (list_remove (sessions self) s);
      put (set_sessions sessions_ self)) self =
  (set_sessions (filter (λ s, s ∉ touched) (sessions self)) self, Ok ()).
Proof.
  revert self. induction touched as [|t l IH]; intros self Ht Hs Hin.
  { cbn. rewrite list_filter_all; [by destruct self|]. intros s _ ?%elem_of_nil. done. }
  apply NoDup_cons in Ht as [Htl Ht].
  assert (∀ k, NoDup k → t ∈ k → list_remove k t = Ok (filter (λ s, s ≠ t) k)) as Hremove.
  { clear. induction k as [|u k IH]; intros Hk Hin; [by apply elem_of_nil in Hin|].
    apply NoDup_cons in Hk as [Huk Hk]. cbn [list_remove]. case_bool_decide as Hu.
    - subst u. rewrite filter_cons_False by tauto. rewrite list_filter_all; [done|]. intros s Hs ->. done.
    - rewrite filter_cons_True by done. apply elem_of_cons in Hin as [->|Hin]; [done|]. by rewrite IH. }
  cbn [for_each]. rewrite bind_run. act_simpl. rewrite Hremove by (try done; apply Hin; left). act_simpl.
  rewrite IH; [|done|by apply NoDup_filter|].
  - cbn. unfold set_sessions. cbn. f_equal. f_equal. rewrite list_filter_filter. apply filter_ext_in. intros s _. set_solver.
  - intros s Hsl. cbn. apply list_elem_of_filter. split; [by intros ->|]. apply Hin. by right.
Qed.

(** the session an event makes of those it touches *)
Definition merged (touched : list session) (ts : Z) : session :=
  _Session.mk (foldr Z.min ts (start <$> touched)) (foldr Z.max ts (finish <$> touched)) (zsum _Session.count touched + 1).

Lemma foldr_min_app x l y : foldr Z.min x (l ++ [y]) = Z.min y (foldr Z.min x l).
Proof. induction l as [|z l IH]; cbn; lia. Qed.
Lemma foldr_max_app x l y : foldr Z.max x (l ++ [y]) = Z.max y (foldr Z.max x l).
Proof. induction l as [|z l IH]; cbn; lia. Qed.
Lemma foldr_min_swap x y l : foldr Z.min x (l ++ [y]) = Z.min x (foldr Z.min y l).
Proof. rewrite foldr_min_app. induction l as [|z l IH]; cbn; lia. Qed.
Lemma foldr_max_swap x y l : foldr Z.max x (l ++ [y]) = Z.max x (foldr Z.max y l).
Proof. rewrite foldr_max_app. induction l as [|z l IH]; cbn; lia. Qed.

Lemma add_event_run ts self : NoDup (sessions self) →
  let touched := py_filter (touches (gap self) ts) (sessions self) in
  add_event ts self =
  (mk (gap self) (py_sorted (key_le start) (py_filter (λ s, negb (touches (gap self) ts s)) (sessions self) ++ [merged touched ts])), Ok ()).
Proof.
  intros Hnd touched. unfold add_event. rewrite bind_get. fold (touches (gap self) ts).
  change (py_filter (λ s, (start s - gap self <=? ts) && (ts <=? finish s + gap self)) (sessions self)) with touched.
  assert (filter (λ s, s ∉ touched) (sessions self) = py_filter (λ s, negb (touches (gap self) ts s)) (sessions self)) as Hrest.
  { apply filter_ext_in. intros s Hs. unfold touched. rewrite elem_of_py_filter, negb_true_iff.
    destruct (touches (gap self) ts s); split; intros; try done; try tauto. intros [? _]. done. }
  case_bool_decide as Hempty.
  - act_simpl. unfold set_sessions. cbn. rewrite <- Hrest. assert (touched = []) as -> by exact Hempty.
    rewrite list_filter_all; [done|]. by intros s _ ?%elem_of_nil.
  - assert (touched ⊆ sessions self) as Hsub by (intros s [_ Hs]%elem_of_py_filter; done).
    assert (NoDup touched) as Hndt by by apply NoDup_filter.
    change (py_filter (touches (gap self) ts) (sessions self)) with touched in Hempty |- *. clearbody touched.
    destruct touched as [|t l]; [done|]. cbn [fmap list_fmap app]. rewrite bind_assoc, bind_pure_of, bind_assoc, bind_pure_of, bind_assoc.
    rewrite bind_run, remove_all_run by done. rewrite Hrest. act_simpl. unfold set_sessions. cbn [gap sessions].
    f_equal. f_equal. f_equal. f_equal. f_equal. unfold merged. cbn [fmap list_fmap foldr]. f_equal.
    + unfold py_min. apply foldr_min_swap.
    + unfold py_max. apply foldr_max_swap.
Qed.

Lemma merged_start touched ts :
  start (merged touched ts) <= ts ∧ (∀ s, s ∈ touched → start (merged touched ts) <= start s) ∧
  (start (merged touched ts) = ts ∨ ∃ s, s ∈ touched ∧ start s = start (merged touched ts)).
Proof.
  cbn. induction touched as [|t l (H1 & H2 & H3)]; cbn; [split_and!; [lia|by intros s ?%elem_of_nil|by left]|].
  split_and!; [lia| |].
  - intros s [->|Hs]%elem_of_cons; [lia|]. specialize (H2 s Hs). lia.
  - destruct (Z.min_spec (start t) (foldr Z.min ts (start <$> l))) as [[_ ->]|[_ ->]].
    + right. exists t. split; [left|done].
    + destruct H3 as [H3|(s & Hs & H3)]; [by left|]. right. exists s. split; [by right|done].
Qed.
Lemma merged_finish touched ts :
  ts <= finish (merged touched ts) ∧ (∀ s, s ∈ touched → finish s <= finish (merged touched ts)) ∧
  (finish (merged touched ts) = ts ∨ ∃ s, s ∈ touched ∧ finish s = finish (merged touched ts)).
Proof.
  cbn. induction touched as [|t l (H1 & H2 & H3)]; cbn; [split_and!; [lia|by intros s ?%elem_of_nil|by left]|].
  split_and!; [lia| |].
  - intros s [->|Hs]%elem_of_cons; [lia|]. specialize (H2 s Hs). lia.
  - destruct (Z.max_spec (finish t) (foldr Z.max ts (finish <$> l))) as [[_ ->]|[_ ->]].
    + destruct H3 as [H3|(s & Hs & H3)]; [by left|]. right. exists s. split; [by right|done].
    + right. exists t. split; [left|done].
Qed.

(** counting over disjoint sessions *)
Lemma count_disjoint (l : list session) events :
  NoDup l → (∀ s u e, s ∈ l → u ∈ l → s ≠ u → within s e = true → within u e = false) →
  zsum (λ s, count_within s events) l = zlen (py_filter (λ e, existsb (λ s, within s e) l) events).
Proof.
  unfold count_within. induction l as [|s l IH]; intros Hnd Hdis.
  { cbn. assert (py_filter (λ _ : Z, false) events = []) as ->; [|done]. by apply py_filter_nil_iff. }
  apply NoDup_cons in Hnd as [Hs Hnd]. rewrite zsum_cons, IH; [|done|intros u v e Hu Hv; apply Hdis; by right].
  clear IH. cbn [existsb]. induction events as [|e events IH]; [done|]. rewrite !py_filter_cons.
  destruct (within s e) eqn:Hse; cbn [orb].
  - assert (existsb (λ s, within s e) l = false) as ->.
    { apply existsb_none. intros u Hu. eapply (Hdis s u e); [left|by right|by intros ->|done]. }
    rewrite !zlen_cons. lia.
  - destruct (existsb _ l); rewrite ?zlen_cons; lia.
Qed.

Lemma sessions_ok_step g ts events l : 0 < g → sessions_ok g events l →
  sessions_ok g (events ++ [ts]) (py_sorted (key_le start)
    (py_filter (λ s, negb (touches g ts s)) l ++ [merged (py_filter (touches g ts) l) ts])).
Proof.
  intros Hg [Hends Hcount Hdense Hcover Hapart Hnd].
  set (touched := py_filter (touches g ts) l). set (rest := py_filter (λ s, negb (touches g ts s)) l). set (m := merged touched ts).
  destruct (merged_start touched ts) as (S1 & S2 & S3). destruct (merged_finish touched ts) as (F1 & F2 & F3). fold m in S1, S2, S3, F1, F2, F3.
  assert (∀ s, s ∈ touched ↔ s ∈ l ∧ start s - g <= ts <= finish s + g) as Htouched.
  { intros s. unfold touched, touches. rewrite elem_of_py_filter, andb_true_iff, !Z.leb_le. tauto. }
  assert (∀ s, s ∈ rest ↔ s ∈ l ∧ ¬ (start s - g <= ts <= finish s + g)) as Hrest.
  { intros s. unfold rest, touches. rewrite elem_of_py_filter, negb_true_iff, andb_false_iff, !Z.leb_gt. intuition lia. }
  (* the merged session keeps its distance *)
  assert (∀ s, s ∈ rest → finish s + g < start m ∨ finish m + g < start s) as Hfar.
  { intros s [Hs Hnot]%Hrest. destruct (Hends s Hs) as (_ & _ & Hle).
    assert (∀ t, t ∈ touched → (ts > finish s + g → finish s + g < start t) ∧ (ts < start s - g → finish t + g < start s)) as Ht.
    { intros t [Htl Hin]%Htouched. destruct (Hends t Htl) as (_ & _ & Hlet).
      assert (s ≠ t) as Hne by (intros ->; lia). destruct (Hapart s t Hs Htl Hne); lia. }
    destruct (decide (ts > finish s + g)) as [Hgt|Hngt].
    - left. destruct S3 as [->|(t & Hin & <-)]; [lia|]. by apply Ht.
    - right. destruct F3 as [->|(t & Hin & <-)]; [lia|]. apply Ht; [done|lia]. }
  assert (∀ s, s ∈ py_sorted (key_le start) (rest ++ [m]) ↔ s ∈ rest ∨ s = m) as Hin.
  { intros s. by rewrite py_sorted_elem_of, elem_of_app, list_elem_of_singleton. }
  constructor.
  - intros s [Hs| ->]%Hin.
    + apply Hrest in Hs as [Hs _]. destruct (Hends s Hs) as (? & ? & ?). split_and!; [apply elem_of_app; by left..|done].
    + split_and!; [| |lia].
      * apply elem_of_app. destruct S3 as [->|(t & [Ht _]%Htouched & <-)]; [right; left|left; by apply Hends].
      * apply elem_of_app. destruct F3 as [->|(t & [Ht _]%Htouched & <-)]; [right; left|left; by apply Hends].
  - intros s [Hs| ->]%Hin; unfold count_within; rewrite py_filter_app, zlen_app, py_filter_cons, py_filter_nil.
    + apply Hrest in Hs as [Hs Hnot]. rewrite (Hcount s Hs). unfold count_within.
      assert (within s ts = false) as ->; [|rewrite zlen_nil; lia]. apply not_true_iff_false. rewrite within_spec. lia.
    + rewrite (proj2 (within_spec m ts)) by lia. change (zlen [ts]) with 1.
      assert (zsum _Session.count touched = zlen (py_filter (within m) events)) as Hsum; [|cbn; lia].
      rewrite (zsum_ext _ (λ s, count_within s events)) by (intros s [Hs _]%Htouched; by apply Hcount).
      rewrite count_disjoint.
      * f_equal. apply filter_ext_in. intros e He. rewrite existsb_elem. split.
        -- intros (t & Ht & Hw%within_spec). apply within_spec. specialize (S2 t Ht). specialize (F2 t Ht). lia.
        -- intros Hw%within_spec. destruct (Hcover e He) as (t & Ht & Hwt). exists t. split; [|done]. apply Htouched. split; [done|].
           apply within_spec in Hwt. destruct (decide (start t - g <= ts <= finish t + g)) as [|Hnot]; [done|].
           assert (t ∈ rest) as Hr by by apply Hrest. destruct (Hfar t Hr); lia.
      * by apply NoDup_filter.
      * intros s u e [Hs _]%Htouched [Hu _]%Htouched Hne Hw%within_spec. apply not_true_iff_false. rewrite within_spec.
        destruct (Hapart s u Hs Hu Hne); lia.
  - intros s x [Hs| ->]%Hin Hx.
    + apply Hrest in Hs as [Hs _]. destruct (Hdense s x Hs Hx) as (e & He & ?). exists e. split; [apply elem_of_app; by left|done].
    + assert (∀ t, t ∈ touched → start t <= x < finish t → ∃ e, e ∈ events ++ [ts] ∧ x < e <= x + g) as Hinside.
      { intros t [Ht _]%Htouched Hxt. destruct (Hdense t x Ht Hxt) as (e & He & ?). exists e. split; [apply elem_of_app; by left|done]. }
      destruct (Z.lt_ge_cases x ts) as [Hlt|Hge].
      * destruct (Z.le_gt_cases ts (x + g)); [exists ts; split; [apply elem_of_app; right; left|lia]|].
        destruct S3 as [Heq|(t & Ht & Heq)]; [lia|]. apply (Hinside t Ht). apply Htouched in Ht as [_ Ht]. lia.
      * destruct F3 as [Heq|(t & Ht & Heq)]; [lia|]. destruct (Z.le_gt_cases (start t) x); [apply (Hinside t Ht); lia|].
        apply Htouched in Ht as [Ht Hts]. exists (start t). split; [apply elem_of_app; left; by apply Hends|lia].
  - intros e [He|He%list_elem_of_singleton]%elem_of_app.
    + destruct (Hcover e He) as (s & Hs & Hw). destruct (decide (start s - g <= ts <= finish s + g)) as [Ht|Hnot].
      * exists m. split; [apply Hin; by right|]. apply within_spec in Hw. apply within_spec.
        assert (s ∈ touched) as Hst by by apply Htouched. specialize (S2 s Hst). specialize (F2 s Hst). lia.
      * exists s. split; [apply Hin; left; by apply Hrest|done].
    + subst e. exists m. split; [apply Hin; by right|]. apply within_spec. lia.
  - intros s u [Hs| ->]%Hin [Hu| ->]%Hin Hne; unfold apart.
    + apply Hrest in Hs as [Hs _]. apply Hrest in Hu as [Hu _]. by apply Hapart.
    + by apply Hfar.
    + destruct (Hfar u Hu); [by right|by left].
    + done.
  - rewrite py_sorted_Permutation. apply NoDup_app. split_and!; [by apply NoDup_filter| |apply NoDup_singleton].
    intros s Hs ->%list_elem_of_singleton. destruct (Hfar m Hs); lia.
Qed.

Lemma is_session_perm g events events' s : events ≡ₚ events' → is_session g events s → is_session g events' s.
Proof.
  intros Hperm (H1 & H2 & H3 & H4 & H5 & H6).
  assert (∀ e, e ∈ events ↔ e ∈ events') as Hin by (intros e; by rewrite Hperm).
  split_and!; [by apply Hin..|done| | |].
  - rewrite H4. unfold count_within, zlen, py_filter. by rewrite Hperm.
  - intros x Hx. destruct (H5 x Hx) as (e & He & ?). exists e. split; [by apply Hin|done].
  - intros e He. by apply H6, Hin.
Qed.
End sessions.

(** C23 (refinement): session windows are exact, in whatever order the events arrive.  After any events, the sessions
    held are exactly the windows of the declarative definition [is_session]: runs of events never more than
    the gap apart, from an event to an event, with no other event within the gap of them, each with the
    number of its events; they are in order of their starts, without repeats, and any reordering of the
    same events gives the same sessions, so a late event that bridges two sessions fuses them into one. *)
Theorem session_windows_exact gap w0 events events' (Hmake : SessionWindowMerge.make gap = Ok w0) (Hperm : events ≡ₚ events') :
  let after evs := SessionWindowMerge.sessions (run (λ e, state_of (SessionWindowMerge.add_event e)) evs w0) in
  (∀ s, s ∈ after events ↔ is_session gap events s) ∧
  NoDup (after events) ∧ StronglySorted (λ s u, _Session.start s < _Session.start u) (after events) ∧
  after events' = after events.
Proof.
  intros after. unfold SessionWindowMerge.make in Hmake. destruct (Z.leb_spec gap 0) as [|Hg]; [done|]. injection Hmake as <-.
  assert (∀ evs, sessions_ok gap evs (after evs) ∧ Sorted (key_le _Session.start) (after evs) ∧
    SessionWindowMerge.gap (run (λ e, state_of (SessionWindowMerge.add_event e)) evs (SessionWindowMerge.mk gap [])) = gap) as Hok.
  { intros evs. unfold after. induction evs as [|e evs IH] using rev_ind.
    - cbn. split_and!; [|constructor|done]. constructor; try (by intros ? ?%elem_of_nil); try (by intros ? ? ?%elem_of_nil); constructor.
    - rewrite run_app. destruct IH as (Hok & _ & Hgap). cbn [run foldl].
      destruct (run _ evs _) as [g l]. cbn in Hok, Hgap. subst g. unfold state_of.
      rewrite add_event_run by apply Hok. cbn [fst SessionWindowMerge.sessions SessionWindowMerge.gap]. split_and!; [by apply sessions_ok_step| |done].
      apply py_sorted_Sorted. apply _. }
  assert (∀ evs, StronglySorted (λ s u, _Session.start s < _Session.start u) (after evs)) as Hsorted.
  { intros evs. destruct (Hok evs) as ([Hends _ _ _ Hapart Hnd] & Hs & _). apply Sorted_StronglySorted in Hs; [|apply _].
    induction Hs as [|s l Hs IH Hall]; constructor.
    - apply IH; [intros; apply Hends; by right|intros; apply Hapart; [by right..|done]|by apply NoDup_cons in Hnd as [_ ?]].
    - rewrite Forall_forall in Hall |- *. intros u Hu. specialize (Hall u Hu). unfold key_le in Hall.
      apply NoDup_cons in Hnd as [Hsl _]. assert (s ≠ u) as Hne by (intros ->; done).
      destruct (Hends s ltac:(left)) as (_ & _ & ?). destruct (Hends u ltac:(by right)) as (_ & _ & ?).
      destruct (Hapart s u ltac:(left) ltac:(by right) Hne); lia. }
  assert (∀ evs s, s ∈ after evs ↔ is_session gap evs s) as Hexact.
  { intros evs s. apply sessions_ok_exact; [done|apply Hok]. }
  split_and!; [apply Hexact|apply Hok|apply Hsorted|].
  apply (StronglySorted_unique_strong (λ s u, _Session.start s < _Session.start u)); [intros; lia|apply Hsorted..|].
  apply NoDup_Permutation; [apply Hok..|]. intros s. rewrite !Hexact. split; apply is_session_perm; [by symmetry|done].
Qed.

Lemma session_windows_exact_witness :
  let after evs := SessionWindowMerge.sessions (run (λ e, state_of (SessionWindowMerge.add_event e)) evs (SessionWindowMerge.mk 5 [])) in
  (∀ s, s ∈ after [0; 8; 4] ↔ is_session 5 [0; 8; 4] s) ∧
  NoDup (after [0; 8; 4]) ∧ StronglySorted (λ s u, _Session.start s < _Session.start u) (after [0; 8; 4]) ∧
  after [0; 4; 8] = after [0; 8; 4].
Proof. apply (session_windows_exact 5 _ [0; 8; 4] [0; 4; 8] eq_refl). apply (bool_decide_unpack _). vm_compute. exact I. Defined.
