(* ===== verification/Operators.v ===== *)
(** * Topologies and leaderboards

    [relay/topology.py]: the graph of a stream application, checked for cycles by a depth-first search
    and measured by its longest path; [relay/topn.py]: the [n] best of a stream, kept in a binary heap.
    The recursions of the source are not structural, so each part proves that its fuel, the number of
    nodes or the length of the heap, is enough before it says what is returned. *)

From S2P Require Import Prelude PyDict Structures.

Module topology.
(** [relay/topology.py:35-35] _WHITE, _GRAY, _BLACK: a node absent from the map is white.  The source fills the map with every
    node, and reading it at a name that is not a node raises; [connect] leaves no edge to such a name *)
Inductive color := Gray | Black.

(** [path[path.index(x):]] *)
Fixpoint from (x : string) (path : list string) : list string :=
  match path with
  | [] => []
  | y :: path' => if bool_decide (y = x) then path else from x path'
  end.

Module Topology.
(** [relay/topology.py] class Topology *)
Record t := mk { edges : pydict string (list string); nodes : gset string; }.
Definition set_edges (v : pydict string (list string)) (self : t) : t := mk v (nodes self).
Definition set_nodes (v : gset string) (self : t) : t := mk (edges self) v.
Definition new : t := mk [] (∅).
(** [relay/topology.py] Topology.add_node *)
Definition add_node (name : string) : act t unit :=
  self ← get;
  put (set_nodes ({[name]} ∪ (nodes self)) self);;
  self ← get;
  put (set_edges (d_setdefault (edges self) name []) self).
(** [relay/topology.py] Topology.connect *)
Definition connect (upstream : string) (downstream : string) : act t unit :=
  self ← get;
  raise_if ((negb (bool_decide (upstream ∈ nodes self))) || (negb (bool_decide (downstream ∈ nodes self)))) Invalid;;
  v ← pure_of (d_item (edges self) upstream);
  put (set_edges (d_set (edges self) upstream (v ++ [downstream])) self).
(** [relay/topology.py:62-68] Topology.find_cycle: the loop over the successors of a node, whose body
    calls [walk]; the state is [color], by the nodes that are not white, and [path] *)
Fixpoint each_out (walk : pydict string color * list string → string → (pydict string color * list string) * list string)
    (outs : list string) (st : pydict string color * list string) : (pydict string color * list string) * list string :=
  match outs with
  | [] => (st, [])
  | nxt :: outs =>
      match d_get st.1 nxt with
      | Some Gray => (st, from nxt st.2 ++ [nxt])
      | Some Black => each_out walk outs st
      | None =>
          let '(st, found) := walk st nxt in
          if bool_decide (found = []) then each_out walk outs st else (st, found)
      end
  end.
(** [relay/topology.py:59-71] Topology.find_cycle: [walk].  Every call paints a white node, so one turn per
    node is enough *)
Fixpoint walk (self : t) (fuel : nat) (st : pydict string color * list string) (node : string) :
    (pydict string color * list string) * list string :=
  match fuel with
  | O => (st, [])
  | S fuel =>
      let st := (d_set st.1 node Gray, st.2 ++ [node]) in
      let '(st, found) := each_out (walk self fuel) (d_getd (edges self) node []) st in
      if bool_decide (found = [])
      then ((d_set st.1 node Black, take (length st.2 - 1) st.2), [])
      else (st, found)
  end.
(** [relay/topology.py:73-78] Topology.find_cycle *)
Fixpoint walk_all (self : t) (fuel : nat) (nodes : list string)
    (st : pydict string color * list string) : list string :=
  match nodes with
  | [] => []
  | node :: nodes =>
      match d_get st.1 node with
      | None =>
          let '(st, found) := walk self fuel st node in
          if bool_decide (found = []) then walk_all self fuel nodes st else found
      | Some _ => walk_all self fuel nodes st
      end
  end.
(** [relay/topology.py] Topology.find_cycle *)
Definition find_cycle (self : t) : list string :=
  walk_all self (base.size (nodes self)) (elements (nodes self)) ([], []).
(** [relay/topology.py] Topology.validate *)
Definition validate (self : t) : result string :=
  let cycle := find_cycle self in
  if negb (bool_decide (cycle = [])) then Err Invalid else
  Ok "topology is a valid DAG".
(** [relay/topology.py:93-98] Topology.depth: [longest]; on a graph without a cycle the recursion is
    no deeper than the number of nodes, on a cycle Python's recursion limit ends it *)
Fixpoint longest (self : t) (fuel : nat) (memo : pydict string Z) (node : string) :
    result (Z * pydict string Z) :=
  match d_get memo node with
  | Some v => Ok (v, memo)
  | None =>
      match fuel with
      | O => Err OutOfFuel
      | S fuel =>
          '(best, memo) ← r_fold (d_getd (edges self) node []) (0, memo) (λ '(best, memo) n,
            '(v, memo) ← longest self fuel memo n; Ok (Z.max best v, memo));
          Ok (1 + best, d_set memo node (1 + best))
      end
  end.
(** [relay/topology.py] Topology.depth *)
Definition depth (self : t) : result Z :=
  '(best, _) ← r_fold (elements (nodes self)) (0, []) (λ '(best, memo) n,
    '(v, memo) ← longest self (base.size (nodes self)) memo n; Ok (Z.max best v, memo));
  Ok best.
End Topology.
End topology.
Import topology.

Module topn.
(** [heapq] on a list of pairs, which compare lexicographically: the array algorithm of
    the standard library.  A round of [siftdown] halves the position and a round of
    [siftup] at least doubles it, so the length of the list is enough fuel. *)
Definition pair_lt (a b : Z * string) : bool := PriorityQueue.ltb a b.

Fixpoint siftdown (fuel : nat) (heap : list (Z * string)) (start pos : nat) (item : Z * string) :
    list (Z * string) :=
  match fuel with
  | O => <[pos := item]> heap
  | S fuel =>
      if (start <? pos)%nat then
        match heap !! ((pos - 1) / 2)%nat with
        | Some parent =>
            if pair_lt item parent
            then siftdown fuel (<[pos := parent]> heap) start ((pos - 1) / 2) item
            else <[pos := item]> heap
        | None => <[pos := item]> heap
        end
      else <[pos := item]> heap
  end.

Fixpoint siftup (fuel : nat) (heap : list (Z * string)) (pos : nat) (item : Z * string) :
    list (Z * string) :=
  match fuel with
  | O => siftdown (length heap) heap 0 pos item
  | S fuel =>
      match heap !! (2 * pos + 1)%nat with
      | None => siftdown (length heap) heap 0 pos item
      | Some lhs =>
          let '(child, x) :=
            match heap !! (2 * pos + 2)%nat with
            | Some rhs => if negb (pair_lt lhs rhs) then ((2 * pos + 2)%nat, rhs)
                            else ((2 * pos + 1)%nat, lhs)
            | None => ((2 * pos + 1)%nat, lhs)
            end in
          siftup fuel (<[pos := x]> heap) child item
      end
  end.

Definition heappush (heap : list (Z * string)) (item : Z * string) : list (Z * string) :=
  siftdown (S (length heap)) (heap ++ [item]) 0 (length heap) item.
Definition heapreplace (heap : list (Z * string)) (item : Z * string) : list (Z * string) :=
  siftup (length heap) heap 0 item.

Module TopN.
(** [relay/topn.py] class TopN *)
Record t := mk { n : Z; _heap : list (Z * string); }.
(** [relay/topn.py] TopN.__post_init__ *)
Definition make (n : Z) : result t :=
  if n <? 1 then Err Invalid else
  Ok (mk n []).
(** [relay/topn.py] TopN.offer *)
Definition offer (item : string) (score : Z) : act t bool :=
  self ← get;
  if zlen (_heap self) <? n self then
    put (mk (n self) (heappush (_heap self) (score, item)));;
    mret true
  else
  x ← pure_of (py_index (_heap self) 0);
  if x.1 <? score then
    put (mk (n self) (heapreplace (_heap self) (score, item)));;
    mret true
  else
  mret false.
(** [relay/topn.py] TopN.top *)
Definition top (self : t) : result (list (string * Z)) :=
  let ordered := py_sorted (key_ge (λ pair, pair.1)) (_heap self) in
  Ok ((λ '(score, item), (item, score)) <$> ordered).
(** [relay/topn.py] TopN.threshold *)
Definition threshold (self : t) : result string :=
  if zlen (_heap self) <? n self then
    Ok ("top-N not full (" +:+ zs (zlen (_heap self)) +:+ "/" +:+ zs (n self)
          +:+ "); any item is admitted until it fills")
  else
  x ← py_index (_heap self) 0;
  Ok ("admission threshold " +:+ zs x.1
        +:+ "; an item must beat it to enter, and a high one means the leaderboard has stabilized").
End TopN.
End topn.
Import topn.

(** ** The topology *)

Section topology.
Import Topology.

(** an edge of the graph, and its paths *)
Definition edge (g : t) (a b : string) : Prop := b ∈ d_getd (edges g) a [].
Definition chain (g : t) (l : list string) : Prop :=
  ∀ i a b, l !! i = Some a → l !! S i = Some b → edge g a b.
(** a path from a node back to itself, written with the node at both ends *)
Definition is_cycle (g : t) (c : list string) : Prop := ∃ x mid, c = x :: mid ++ [x] ∧ chain g c.
Definition acyclic (g : t) : Prop := ∀ n, ¬ tc (edge g) n n.
(** the edges join nodes of the graph *)
Definition wired (g : t) : Prop := ∀ a b, edge g a b → a ∈ nodes g ∧ b ∈ nodes g.

Lemma chain_nil g : chain g [].
Proof. intros i a b Ha. done. Qed.
Lemma chain_one g x : chain g [x].
Proof. intros [|i] a b Ha Hb; done. Qed.
Lemma chain_app_r g l1 l2 : chain g (l1 ++ l2) → chain g l2.
Proof.
  intros H i a b Ha Hb. apply (H (length l1 + i)%nat).
  - by rewrite lookup_app_r, Nat.add_comm, Nat.add_sub by lia.
  - rewrite lookup_app_r by lia. by replace (S (length l1 + i) - length l1)%nat with (S i) by lia.
Qed.
Lemma chain_app_l g l1 l2 : chain g (l1 ++ l2) → chain g l1.
Proof. intros H i a b Ha Hb. by apply (H i); apply lookup_app_l_Some. Qed.
Lemma chain_snoc g l x : chain g l → (∀ y, last l = Some y → edge g y x) → chain g (l ++ [x]).
Proof.
  intros H Hx i a b Ha Hb. destruct (decide (S i < length l)%nat) as [Hi|Hi].
  - rewrite lookup_app_l in Ha, Hb by lia. by eapply H.
  - apply lookup_lt_Some in Hb as Hlen. rewrite length_app in Hlen. cbn in Hlen. assert (S i = length l) as Hs by lia.
    rewrite Hs, list_lookup_middle in Hb by done. injection Hb as <-. apply Hx. rewrite lookup_app_l in Ha by lia.
    rewrite last_lookup. by replace (pred (length l)) with i by lia.
Qed.
Lemma chain_cons g x l : chain g l → (∀ y, head l = Some y → edge g x y) → chain g (x :: l).
Proof.
  intros H Hx [|i] a b Ha Hb; cbn in Ha, Hb; [|by eapply H].
  injection Ha as <-. apply Hx. destruct l; done.
Qed.
Lemma chain_tail g x l : chain g (x :: l) → chain g l.
Proof. apply (chain_app_r g [x]). Qed.
Lemma chain_head g x y l : chain g (x :: y :: l) → edge g x y.
Proof. intros H. by apply (H 0%nat). Qed.

(** a path of two nodes or more goes along the edges *)
Lemma chain_tc g x mid y : chain g (x :: mid ++ [y]) → tc (edge g) x y.
Proof.
  revert x. induction mid as [|z mid IH]; intros x H.
  - apply tc_once. exact (chain_head _ _ _ _ H).
  - apply tc_l with z; [exact (chain_head _ _ _ _ H)|]. apply IH. exact (chain_tail _ _ _ H).
Qed.
Lemma cycle_tc g c : is_cycle g c → ¬ acyclic g.
Proof. intros (x & mid & -> & H) Ha. by apply (Ha x), (chain_tc g x mid x). Qed.

Lemma from_spec x path : x ∈ path → ∃ pre suf, path = pre ++ x :: suf ∧ from x path = x :: suf.
Proof.
  induction path as [|y path IH]; intros Hx; [by apply not_elem_of_nil in Hx|]. cbn [from]. case_bool_decide as Hy.
  - subst y. by exists [], path.
  - apply elem_of_cons in Hx as [->|Hx]; [done|]. destruct (IH Hx) as (pre & suf & -> & ->). by exists (y :: pre), suf.
Qed.

(** ** The search *)

(** the nodes not painted yet *)
Definition whites (g : t) (colors : pydict string color) : gset string := filter (λ n, d_get colors n = None) (nodes g).

(** what the search keeps: the grey nodes are those of the path, and what leaves a black node is black and never
    comes back to it *)
Record searched (g : t) (st : pydict string color * list string) : Prop := {
  s_gray n : d_get st.1 n = Some Gray ↔ n ∈ st.2;
  s_chain : chain g st.2;
  s_closed n m : d_get st.1 n = Some Black → edge g n m → d_get st.1 m = Some Black;
  s_acyclic n : d_get st.1 n = Some Black → ¬ tc (edge g) n n }.

Definition grows (st st' : pydict string color * list string) : Prop :=
  st'.2 = st.2 ∧ ∀ n, d_get st.1 n ≠ None → d_get st'.1 n = d_get st.1 n.

Lemma grows_refl st : grows st st.
Proof. done. Qed.
Lemma grows_trans st1 st2 st3 : grows st1 st2 → grows st2 st3 → grows st1 st3.
Proof.
  intros [H1 H2] [H3 H4]. split; [congruence|]. intros n Hn. rewrite H4 by (by rewrite H2). by apply H2.
Qed.
Lemma grows_whites g st st' : grows st st' → whites g st'.1 ⊆ whites g st.1.
Proof.
  intros [_ H] n. unfold whites. rewrite !elem_of_filter. intros [Hn ?]. split; [|done].
  destruct (d_get st.1 n) eqn:E; [|done]. rewrite H, E in Hn; [done|by rewrite E].
Qed.

(** black is for ever: what is reached from a black node is black *)
Lemma black_reach g st n m : searched g st → d_get st.1 n = Some Black → tc (edge g) n m → d_get st.1 m = Some Black.
Proof. intros Hs Hn Ht. induction Ht as [n m H|n m k H Ht IH]; [by eapply s_closed|]. apply IH. by eapply s_closed. Qed.

(** painting a white node grey *)
Lemma paint_gray g st node : searched g st → d_get st.1 node = None → (∀ y, last st.2 = Some y → edge g y node) →
  searched g (d_set st.1 node Gray, st.2 ++ [node]).
Proof.
  intros Hs Hw He. split; cbn [fst snd].
  - intros n. rewrite d_get_set, elem_of_app, list_elem_of_singleton. case_bool_decide as Hn; [tauto|].
    rewrite (s_gray _ _ Hs). tauto.
  - apply chain_snoc; [apply Hs|done].
  - intros n m. rewrite !d_get_set. case_bool_decide as Hn; [done|]. intros Hb Hnm.
    pose proof (s_closed _ _ Hs _ _ Hb Hnm) as Hm. case_bool_decide as Hm'; [subst; congruence|done].
  - intros n. rewrite d_get_set. case_bool_decide as Hn; [done|]. apply Hs.
Qed.

(** painting the last grey node black, when all its successors are *)
Lemma paint_black g colors path node : searched g (colors, path ++ [node]) → node ∉ path →
  (∀ m, edge g node m → d_get colors m = Some Black) → searched g (d_set colors node Black, path).
Proof.
  intros Hs Hnp Hout. assert (d_get colors node = Some Gray) as Hg by (apply (s_gray _ _ Hs); set_solver).
  split; cbn [fst snd].
  - intros n. rewrite d_get_set. case_bool_decide as Hn; [split; [done|by subst]|].
    rewrite (s_gray _ _ Hs n). set_solver.
  - apply (chain_app_l g _ [node]), Hs.
  - intros n m. rewrite !d_get_set. case_bool_decide as Hn.
    + subst n. intros _ He. case_bool_decide; [done|by apply Hout].
    + intros Hb He. case_bool_decide; [done|]. by apply (s_closed _ _ Hs n).
  - assert (∀ m, d_get colors m = Some Black → ¬ tc (edge g) m node) as Hback.
    { intros m Hm Ht. pose proof (black_reach g _ m node Hs Hm Ht) as Hn. cbn [fst] in Hn. congruence. }
    intros n. rewrite d_get_set. case_bool_decide as Hn; [|apply (s_acyclic _ _ Hs)]. subst n. intros _ Ht.
    inversion Ht as [? ? He|? m ? He Ht']; subst.
    + pose proof (Hout _ He). congruence.
    + by apply (Hback m); [apply Hout|].
Qed.

(** What the search of one node promises: either it found nothing, the node is black and everything painted before
    keeps its colour, or what it found is a cycle of the graph. *)
Definition search_ok (g : t) (goal : pydict string color * list string → Prop)
    (st : pydict string color * list string) (r : (pydict string color * list string) * list string) : Prop :=
  match r.2 with
  | [] => searched g r.1 ∧ grows st r.1 ∧ goal r.1
  | _ => is_cycle g r.2
  end.

Lemma cycle_found g path node nxt : chain g path → last path = Some node → nxt ∈ path → edge g node nxt →
  from nxt path ++ [nxt] ≠ [] ∧ is_cycle g (from nxt path ++ [nxt]).
Proof.
  intros Hc Hl Hin He. destruct (from_spec _ _ Hin) as (pre & suf & -> & ->). split; [done|].
  exists nxt, suf. split; [done|]. apply (chain_snoc g (nxt :: suf) nxt).
  - by apply chain_app_r in Hc.
  - intros y Hy. rewrite last_app_cons in Hl. congruence.
Qed.

Lemma each_out_ok g node (search : pydict string color * list string → string → (pydict string color * list string) * list string) n outs st :
  (∀ st x, searched g st → d_get st.1 x = None → x ∈ nodes g → (∀ y, last st.2 = Some y → edge g y x) → (size (whites g st.1) <= n)%nat →
    search_ok g (λ st', d_get st'.1 x = Some Black) st (search st x)) →
  (∀ x, x ∈ outs → edge g node x ∧ x ∈ nodes g) →
  searched g st → last st.2 = Some node → (size (whites g st.1) <= n)%nat →
  search_ok g (λ st', ∀ x, x ∈ outs → d_get st'.1 x = Some Black) st (each_out search outs st).
Proof.
  intros Hsearch. revert st. induction outs as [|x outs IH]; intros st Houts Hs Hl Hn.
  { unfold search_ok; cbn. split_and!; [done..|]. by intros x ?%elem_of_nil. }
  destruct (Houts x) as [He Hx]; [by left|]. assert (∀ y, y ∈ outs → edge g node y ∧ y ∈ nodes g) as Houts' by (intros; apply Houts; by right).
  cbn [each_out]. destruct (d_get st.1 x) as [[]|] eqn:E.
  - apply (s_gray _ _ Hs) in E. destruct (cycle_found g st.2 node x) as [Hne Hc]; [apply Hs|done..|].
    unfold search_ok; cbn [snd]. by destruct (from x st.2 ++ [x]).
  - specialize (IH st Houts' Hs Hl Hn). unfold search_ok in *. destruct (each_out search outs st) as [st' [|c found]]; cbn [fst snd] in *; [|done].
    destruct IH as (? & Hg & Hall). split_and!; [done..|]. intros y [->|Hy]%elem_of_cons; [|by apply Hall].
    destruct Hg as [_ Hg]. by rewrite Hg, E by congruence.
  - specialize (Hsearch st x Hs E Hx). unfold search_ok in Hsearch. destruct (search st x) as [st1 [|c found]]; cbn [fst snd] in Hsearch.
    + destruct Hsearch as (Hs1 & Hg1 & Hb); [intros y Hy; congruence|done|]. rewrite bool_decide_eq_true_2 by done.
      assert (size (whites g st1.1) <= n)%nat as Hn1 by (pose proof (subseteq_size _ _ (grows_whites g st st1 Hg1)); lia).
      specialize (IH st1 Houts' Hs1 ltac:(by rewrite (proj1 Hg1)) Hn1). unfold search_ok in *.
      destruct (each_out search outs st1) as [st2 [|c' found']]; cbn [fst snd] in *; [|done].
      destruct IH as (? & Hg2 & Hall). split_and!; [done|by eapply grows_trans|]. intros y [->|Hy]%elem_of_cons; [|by apply Hall].
      destruct Hg2 as [_ Hg2]. by rewrite Hg2, Hb by congruence.
    + rewrite bool_decide_eq_false_2 by done. apply Hsearch; [intros y Hy; congruence|done].
Qed.

Lemma walk_ok g : wired g → ∀ fuel st x, searched g st → d_get st.1 x = None → x ∈ nodes g →
  (∀ y, last st.2 = Some y → edge g y x) → (size (whites g st.1) <= fuel)%nat →
  search_ok g (λ st', d_get st'.1 x = Some Black) st (walk g fuel st x).
Proof.
  intros Hw fuel. induction fuel as [|fuel IH]; intros st x Hs Hx Hxg He Hn.
  { exfalso. assert (x ∈ whites g st.1) as Hin by (apply elem_of_filter; done).
    apply (non_empty_inhabited_L x) in Hin. apply Hin, leibniz_equiv, size_empty_inv. lia. }
  cbn [walk]. set (st1 := (d_set st.1 x Gray, st.2 ++ [x])). pose proof (paint_gray g st x Hs Hx He) as Hs1. fold st1 in Hs1.
  assert (x ∉ st.2) as Hfresh by (rewrite <-(s_gray _ _ Hs); congruence).
  assert (size (whites g st1.1) <= fuel)%nat as Hn1.
  { assert (whites g st1.1 ⊂ whites g st.1) as Hsub%subset_size; [|lia]. split.
    - intros n. unfold whites. rewrite !elem_of_filter. cbn [st1 fst]. rewrite d_get_set. case_bool_decide; [by intros [? _]|done].
    - intros Hsub. specialize (Hsub x). unfold whites in Hsub. rewrite !elem_of_filter in Hsub. cbn [st1 fst] in Hsub.
      rewrite d_get_set_eq in Hsub. by destruct Hsub. }
  pose proof (each_out_ok g x (walk g fuel) fuel (d_getd (edges g) x []) st1 IH) as Hout.
  destruct (each_out _ _ _) as [[colors path] found] eqn:E. unfold search_ok in Hout |- *; cbn [fst snd] in Hout.
  destruct found as [|c found]; [|rewrite bool_decide_eq_false_2 by done; cbn [snd]; apply Hout; [|done|by apply last_snoc|done]; intros y Hy; by destruct (Hw x y Hy)].
  rewrite bool_decide_eq_true_2 by done. cbn [fst snd].
  destruct Hout as (Hs2 & [Hp Hc] & Hall); [intros y Hy; by destruct (Hw x y Hy)|done|by apply last_snoc|done|].
  cbn [st1 fst snd] in Hp, Hc. subst path.
  replace (take (length (st.2 ++ [x]) - 1) (st.2 ++ [x])) with st.2
    by (rewrite length_app, Nat.add_sub; by rewrite take_app_length).
  split_and!.
  - by apply paint_black.
  - split; [done|]. cbn [fst]. intros n Hn0. rewrite d_get_set. case_bool_decide as Hnx; [by subst|].
    specialize (Hc n). rewrite d_get_set, bool_decide_eq_false_2 in Hc by done. by apply Hc.
  - cbn [fst]. apply d_get_set_eq.
Qed.

Lemma walk_all_ok g : wired g → ∀ l st, searched g st → st.2 = [] → (∀ x, x ∈ l → x ∈ nodes g) →
  match walk_all g (size (nodes g)) l st with
  | [] => ∃ st', searched g st' ∧ grows st st' ∧ ∀ x, x ∈ l → d_get st'.1 x = Some Black
  | c => is_cycle g c
  end.
Proof.
  intros Hw l. induction l as [|x l IH]; intros st Hs Hp Hl.
  { exists st. split_and!; [done..|]. by intros x ?%elem_of_nil. }
  assert (∀ y, y ∈ l → y ∈ nodes g) as Hl' by (intros; apply Hl; by right). cbn [walk_all].
  destruct (d_get st.1 x) as [c|] eqn:E.
  - specialize (IH st Hs Hp Hl'). destruct (walk_all _ _ l st) as [|? ?]; [|done].
    destruct IH as (st' & Hs' & Hg & Hall). exists st'. split_and!; [done..|]. intros y [->|Hy]%elem_of_cons; [|by apply Hall].
    rewrite (proj2 Hg) by congruence. destruct c; [|done]. apply (s_gray _ _ Hs) in E. rewrite Hp in E. by apply not_elem_of_nil in E.
  - pose proof (walk_ok g Hw (size (nodes g)) st x Hs E (Hl x ltac:(by left))) as Hx. unfold search_ok in Hx.
    assert (size (whites g st.1) <= size (nodes g))%nat as Hn by (apply subseteq_size; intros y; unfold whites; rewrite elem_of_filter; tauto).
    destruct (walk _ _ _ _) as [st1 [|c found]]; cbn [fst snd] in Hx.
    + destruct Hx as (Hs1 & Hg1 & Hb); [by rewrite Hp|done|]. rewrite bool_decide_eq_true_2 by done.
      specialize (IH st1 Hs1 ltac:(by rewrite (proj1 Hg1)) Hl'). destruct (walk_all _ _ l st1) as [|? ?]; [|done].
      destruct IH as (st' & Hs' & Hg & Hall). exists st'. split_and!; [done|by eapply grows_trans|].
      intros y [->|Hy]%elem_of_cons; [|by apply Hall]. by rewrite (proj2 Hg), Hb by congruence.
    + rewrite bool_decide_eq_false_2 by done. apply Hx; [by rewrite Hp|done].
Qed.

Lemma searched_start g : searched g ([], []).
Proof. split; cbn; [|apply chain_nil|done..]. intros n. split; [done|by intros ?%elem_of_nil]. Qed.

Lemma find_cycle_ok g : wired g →
  (find_cycle g = [] → acyclic g) ∧ (find_cycle g ≠ [] → is_cycle g (find_cycle g)).
Proof.
  intros Hw. unfold find_cycle. pose proof (walk_all_ok g Hw (elements (nodes g)) ([], [])) as H.
  destruct (walk_all _ _ _ _) as [|c l].
  - split; [|done]. intros _ n Ht. destruct H as (st & Hs & _ & Hall); [apply searched_start|done|by intros x ?%elem_of_elements|].
    assert (n ∈ nodes g) as Hn by (inversion Ht as [? ? He|? ? ? He ?]; subst; by destruct (Hw _ _ He)).
    by apply (s_acyclic _ _ Hs n); [apply Hall, elem_of_elements|].
  - split; [done|]. intros _. apply H; [apply searched_start|done|by intros x ?%elem_of_elements].
Qed.

(** ** The depth *)

(** the longest path out of each of some nodes has [v] nodes *)
Definition path_from (g : t) (n : string) (l : list string) : Prop := head l = Some n ∧ chain g l.
Definition is_height (g : t) (n : string) (v : Z) : Prop :=
  (∃ l, path_from g n l ∧ zlen l = v) ∧ ∀ l, path_from g n l → zlen l <= v.
Definition heights (g : t) (memo : pydict string Z) : Prop := ∀ n v, d_get memo n = Some v → is_height g n v.

(** the paths of an acyclic graph do not meet a node twice, so they are no longer than the graph *)
Lemma path_nodup g l : acyclic g → chain g l → NoDup l.
Proof.
  intros Ha. induction l as [|x l IH]; intros Hc; [constructor|]. constructor; [|by apply IH, (chain_tail g x)].
  intros (l1 & l2 & ->)%list_elem_of_split. apply (Ha x), (chain_tc g x l1 x), (chain_app_l g _ l2).
  cbn. by rewrite <-app_assoc.
Qed.

Lemma path_short g l : acyclic g → chain g l → (∀ x, x ∈ l → x ∈ nodes g) → (length l <= size (nodes g))%nat.
Proof.
  intros Ha Hc Hl. rewrite <-(size_list_to_set (C := gset string)) by by apply (path_nodup g).
  apply subseteq_size. intros x Hx%elem_of_list_to_set. by apply Hl.
Qed.

Lemma path_nodes g n l : wired g → n ∈ nodes g → path_from g n l → ∀ x, x ∈ l → x ∈ nodes g.
Proof.
  intros Hw. revert n. induction l as [|y l IH]; intros n Hn [Hh Hc] x Hx; [by apply not_elem_of_nil in Hx|].
  injection Hh as ->. apply elem_of_cons in Hx as [->|Hx]; [done|]. destruct l as [|z l]; [by apply not_elem_of_nil in Hx|].
  apply (IH z); [|by split; [|apply (chain_tail g n)]|done]. by destruct (Hw n z (chain_head _ _ _ _ Hc)).
Qed.

(** the loop over the nodes [outs], each of which [search] measures *)
Lemma longest_fold g (search : pydict string Z → string → result (Z * pydict string Z)) outs best memo :
  (∀ memo x, x ∈ outs → heights g memo → ∃ v memo', search memo x = Ok (v, memo') ∧ is_height g x v ∧ heights g memo') →
  heights g memo →
  ∃ b memo', r_fold outs (best, memo) (λ '(best, memo) n, '(v, memo) ← search memo n; Ok (Z.max best v, memo)) = Ok (b, memo')
    ∧ heights g memo' ∧ best <= b ∧ (∀ x l, x ∈ outs → path_from g x l → zlen l <= b)
    ∧ (b = best ∨ ∃ x l, x ∈ outs ∧ path_from g x l ∧ zlen l = b).
Proof.
  revert best memo. induction outs as [|x outs IH]; intros best memo Hsearch Hm.
  { exists best, memo. split_and!; [done|done|lia|by intros ? ? ?%elem_of_nil|by left]. }
  destruct (Hsearch memo x) as (v & m1 & Hrun & [[l [Hl Hlen]] Hmax] & Hm1); [by left|done|].
  destruct (IH (Z.max best v) m1) as (b & m2 & Hfold & Hm2 & Hle & Hall & Hreach); [intros; apply Hsearch; [by right|done]|done|].
  exists b, m2. cbn [r_fold]. rewrite Hrun. cbn [mbind result_bind]. split_and!; [done|done|lia| |].
  - intros y l' [->|Hy]%elem_of_cons Hp; [specialize (Hmax _ Hp); lia|by eapply Hall].
  - destruct Hreach as [->|(y & l' & Hy & Hp & Hb)]; [|right; exists y, l'; split_and!; [by right|done..]].
    destruct (Z.max_spec best v) as [[? Hmx]|[? Hmx]]; rewrite Hmx; [|by left].
    right. exists x, l. split_and!; [by left|done..].
Qed.

Lemma longest_ok g : ∀ fuel memo n, (∀ l, path_from g n l → (length l <= fuel)%nat) → heights g memo →
  ∃ v memo', longest g fuel memo n = Ok (v, memo') ∧ is_height g n v ∧ heights g memo'.
Proof.
  intros fuel. induction fuel as [|fuel IH]; intros memo n Hf Hm.
  all: cbn [longest]; destruct (d_get memo n) as [v|] eqn:E; [exists v, memo; split_and!; [done|by apply Hm|done]|].
  { exfalso. specialize (Hf [n]). cbn in Hf. assert (1 <= 0)%nat; [|lia]. apply Hf. split; [done|apply chain_one]. }
  assert (∀ x, x ∈ d_getd (edges g) n [] → ∀ l, path_from g x l → (length l <= fuel)%nat) as Hf'.
  { intros x Hx l [Hh Hc]. specialize (Hf (n :: l)). cbn in Hf. assert (S (length l) <= S fuel)%nat; [|lia].
    apply Hf. split; [done|]. apply chain_cons; [done|]. intros y Hy. rewrite Hh in Hy. by injection Hy as <-. }
  destruct (longest_fold g (longest g fuel) (d_getd (edges g) n []) 0 memo) as (b & m1 & Hrun & Hm1 & Hle & Hall & Hreach);
    [intros m x Hx; apply IH; by apply Hf'|done|].
  rewrite Hrun. cbn [mbind result_bind].
  assert (is_height g n (1 + b)) as Hn.
  { split.
    - destruct Hreach as [->|(x & l & Hx & [Hh Hc] & Hb)].
      + exists [n]. split; [split; [done|apply chain_one]|done].
      + exists (n :: l). split; [|by rewrite zlen_cons, Hb]. split; [done|]. apply chain_cons; [done|].
        intros y Hy. rewrite Hh in Hy. by injection Hy as <-.
    - intros [|y l] [Hh Hc]; [done|]. injection Hh as ->. rewrite zlen_cons. destruct l as [|z l]; [rewrite zlen_nil; lia|].
      assert (zlen (z :: l) <= b); [|lia]. apply (Hall z); [exact (chain_head _ _ _ _ Hc)|]. split; [done|by apply (chain_tail g n)]. }
  exists (1 + b), (d_set m1 n (1 + b)). split_and!; [done..|]. intros m v. rewrite d_get_set.
  case_bool_decide; [|by apply Hm1]. intros Hv. by simplify_eq.
Qed.

Lemma depth_ok g : wired g → acyclic g → ∃ d, depth g = Ok d ∧
  (∃ l, chain g l ∧ (∀ x, x ∈ l → x ∈ nodes g) ∧ zlen l = d) ∧
  ∀ l, chain g l → (∀ x, x ∈ l → x ∈ nodes g) → zlen l <= d.
Proof.
  intros Hw Ha. unfold depth.
  destruct (longest_fold g (longest g (size (nodes g))) (elements (nodes g)) 0 []) as (b & m & Hrun & _ & Hle & Hall & Hreach).
  { intros m x Hx%elem_of_elements Hm. apply longest_ok; [|done]. intros l Hl. apply (path_short g); [done|apply Hl|].
    by apply (path_nodes g x). }
  { by intros n v. }
  rewrite Hrun. cbn [mbind result_bind]. exists b. split_and!; [done| |].
  - destruct Hreach as [->|(x & l & Hx%elem_of_elements & Hp & Hb)].
    + exists []. split_and!; [apply chain_nil|by intros ? ?%elem_of_nil|done].
    + exists l. split_and!; [apply Hp|by apply (path_nodes g x)|done].
  - intros [|x l] Hc Hl; [rewrite zlen_nil; lia|]. apply (Hall x); [apply elem_of_elements, Hl; by left|by split].
Qed.

Inductive topology_op := AddNode (name : string) | Connect (upstream downstream : string).
Definition topology_step (o : topology_op) (g : t) : t :=
  match o with
  | AddNode name => state_of (add_node name) g
  | Connect upstream downstream => state_of (connect upstream downstream) g
  end.

Lemma add_node_state n g : state_of (add_node n) g = mk (d_setdefault (edges g) n []) ({[n]} ∪ nodes g).
Proof. reflexivity. Qed.

Lemma topology_step_wired o g : wired g → wired (topology_step o g).
Proof.
  intros Hw. destruct o as [n|u d]; cbn [topology_step]; intros a b.
  - rewrite add_node_state. unfold edge at 1. cbn [edges nodes]. intros He. assert (edge g a b) as He'.
    { unfold edge. unfold d_setdefault in He. destruct (d_mem (edges g) n) eqn:E; [done|]. rewrite d_getd_set in He.
      case_bool_decide; [|done]. by apply elem_of_nil in He. }
    destruct (Hw a b He'). set_solver.
  - unfold state_of, connect. rewrite bind_get, bind_raise_if. destruct (_ || _) eqn:E; [apply Hw|].
    apply orb_false_iff in E as [Hu%negb_false_iff%bool_decide_eq_true Hd%negb_false_iff%bool_decide_eq_true].
    rewrite bind_pure_of. destruct (d_item (edges g) u) as [v|e] eqn:Hv; cbn [fst]; [|apply Hw].
    unfold put, edge; cbn [fst edges nodes set_edges]. rewrite d_getd_set. case_bool_decide as Hau; [|apply Hw]. subst a.
    intros [Hb|Hb]%elem_of_app; [|apply list_elem_of_singleton in Hb as ->; by split].
    apply (Hw u b). unfold edge, d_getd. unfold d_item in Hv. by destruct (d_get (edges g) u); simplify_eq/=.
Qed.

Lemma topology_wired ops : wired (run topology_step ops new).
Proof. apply run_invariant; [intros o g; apply topology_step_wired|]. by intros a b He%elem_of_nil. Qed.

Lemma connect_refused g a b : a ∉ nodes g ∨ b ∉ nodes g → connect a b g = (g, Err Invalid).
Proof.
  intros Hab. unfold connect. rewrite bind_get, bind_raise_if.
  destruct Hab as [Ha|Hb]; [rewrite (bool_decide_eq_false_2 (a ∈ _)) by done; done|].
  by rewrite (bool_decide_eq_false_2 (b ∈ _)), orb_true_r by done.
Qed.

Lemma find_cycle_iff g : wired g → find_cycle g = [] ↔ acyclic g.
Proof.
  intros Hw. destruct (find_cycle_ok g Hw) as [Hnone Hsome]. split; [done|]. intros Ha.
  destruct (decide (find_cycle g = [])) as [|E]; [done|]. by destruct (cycle_tc g _ (Hsome E)).
Qed.

(** The roles the designer gives the nodes; the code does not keep them. *)
Inductive role := Source | Processor | Sink.
Definition roles_respected (roles : string → role) (g : t) : Prop :=
  ∀ a b, edge g a b → roles a ≠ Sink ∧ roles b ≠ Source.
End topology.

(** C22 (equivalence): no record can loop in a topology that is accepted.  However it is wired, the depth-first search
    always ends; it answers the empty list exactly if no node reaches itself along the edges, and otherwise a cycle of the
    graph, written with its first node at both ends, and then [validate] raises [Invalid].  A topology without a cycle in
    which no edge enters a source or leaves a sink is accepted.  Its edges join nodes that were added, and [connect] with a
    name that was not raises [Invalid] and changes nothing.  And of a topology without a cycle the depth is always
    computed, and is the number of nodes of a longest path, the hops a record can take. *)
Theorem topology_cycles_exact (ops : list topology_op) :
  let g := run topology_step ops Topology.new in
  (Topology.find_cycle g = [] ↔ ∀ n, ¬ tc (edge g) n n) ∧
  (Topology.find_cycle g ≠ [] → is_cycle g (Topology.find_cycle g) ∧ Topology.validate g = Err Invalid) ∧
  (∀ roles, roles_respected roles g → (∀ n, ¬ tc (edge g) n n) → Topology.validate g = Ok "topology is a valid DAG"%string) ∧
  (∀ a b, edge g a b → a ∈ Topology.nodes g ∧ b ∈ Topology.nodes g) ∧
  (∀ a b, a ∉ Topology.nodes g ∨ b ∉ Topology.nodes g → Topology.connect a b g = (g, Err Invalid)) ∧
  ((∀ n, ¬ tc (edge g) n n) → ∃ d, Topology.depth g = Ok d ∧
    (∃ l, chain g l ∧ (∀ x, x ∈ l → x ∈ Topology.nodes g) ∧ zlen l = d) ∧
    ∀ l, chain g l → (∀ x, x ∈ l → x ∈ Topology.nodes g) → zlen l <= d).
Proof.
  intros g. pose proof (topology_wired ops) as Hw. fold g in Hw. split_and!.
  - by apply find_cycle_iff.
  - intros E. split; [by apply find_cycle_ok|]. unfold Topology.validate. by rewrite bool_decide_eq_false_2.
  - intros _ _ Ha. unfold Topology.validate. by rewrite (proj2 (find_cycle_iff g Hw) Ha), bool_decide_eq_true_2.
  - exact Hw.
  - intros a b. apply connect_refused.
  - by apply depth_ok.
Qed.

Lemma topology_cycles_exact_witness :
  let g := run topology_step [AddNode "in"; AddNode "map"; AddNode "out"; Connect "in" "map"; Connect "map" "typo";
                              Connect "map" "out"; Connect "out" "in"] Topology.new in
  is_cycle g (Topology.find_cycle g) ∧ Topology.validate g = Err Invalid.
Proof.
  refine (proj1 (proj2 (topology_cycles_exact [AddNode "in"; AddNode "map"; AddNode "out"; Connect "in" "map";
    Connect "map" "typo"; Connect "map" "out"; Connect "out" "in"])) _). vm_compute. discriminate.
Defined.

(** ** The heap *)

Section heap.
Import PriorityQueue topn.
Implicit Types (h : list (Z * string)) (a b x y item : Z * string) (i j k pos : nat).
#[local] Existing Instances le_trans le_total.

(** [k] is a child of [i] *)
Definition kid i k : Prop := (k = 2 * i + 1 ∨ k = 2 * i + 2)%nat.
Definition ordered h i k : Prop := ∀ x y, h !! i = Some x → h !! k = Some y → le x y.
Definition is_heap h : Prop := ∀ i k, kid i k → ordered h i k.

Lemma kid_parent k : (0 < k)%nat → kid ((k - 1) / 2) k.
Proof. intros Hk. unfold kid. pose proof (Nat.div_mod (k - 1) 2). pose proof (Nat.mod_upper_bound (k - 1) 2). lia. Qed.
Lemma kid_unique i j k : kid i k → kid j k → i = j.
Proof. unfold kid. lia. Qed.
Lemma kid_lt i k : kid i k → (i < k)%nat.
Proof. unfold kid. lia. Qed.

(** the root of a heap is its least element *)
Lemma heap_root h m : is_heap h → h !! 0%nat = Some m → ∀ x, x ∈ h → le m x.
Proof.
  intros Hh Hm x [k Hk]%list_elem_of_lookup. revert x Hk. induction (lt_wf k) as [k _ IH]. intros x Hk.
  destruct (decide (k = 0)%nat) as [->|Hne]; [simplify_eq; apply le_refl|].
  pose proof (kid_parent k ltac:(lia)) as Hkid. pose proof (kid_lt _ _ Hkid) as Hlt.
  destruct (lookup_lt_is_Some_2 h ((k - 1) / 2)) as [y Hy]; [apply lookup_lt_Some in Hk; lia|].
  etrans; [by eapply IH|by eapply Hh].
Qed.

(** moving the hole from [pos] to [j] *)
Lemma move_hole h pos j x item : h !! j = Some x → (pos < length h)%nat → j ≠ pos →
  <[j := item]> (<[pos := x]> h) ≡ₚ <[pos := item]> h.
Proof.
  intros Hj Hpos Hne. transitivity (swap (<[pos := item]> h) pos j); [|apply swap_Permutation].
  unfold swap. rewrite list_lookup_insert_eq, list_lookup_insert_ne, Hj by done.
  by rewrite (list_insert_insert_ne _ pos j), list_insert_insert_eq by done.
Qed.

Lemma siftdown_perm fuel : ∀ h start pos item, (pos < length h)%nat → siftdown fuel h start pos item ≡ₚ <[pos := item]> h.
Proof.
  induction fuel as [|fuel IH]; intros h start pos item Hpos; [done|]. cbn [siftdown].
  case_match; [|done]. case_match eqn:Hp; [|done]. case_match; [|done].
  assert ((pos - 1) / 2 < pos)%nat as Hlt by (apply kid_lt, kid_parent; destruct (Nat.ltb_spec start pos); [lia|done]).
  rewrite IH by (rewrite length_insert; lia). by apply move_hole; [..|lia].
Qed.

(** [h] with [item] at [pos] is a heap but for the edge above [pos], whose ends may be the wrong way round *)
Definition heap_but_above h pos item : Prop :=
  (∀ i k, kid i k → k ≠ pos → ordered (<[pos := item]> h) i k) ∧
  (∀ i k x y, kid i pos → kid pos k → h !! i = Some x → h !! k = Some y → le x y).

Lemma siftdown_heap fuel : ∀ h pos item, (pos <= fuel)%nat → (pos < length h)%nat → heap_but_above h pos item →
  is_heap (siftdown fuel h 0 pos item).
Proof.
  induction fuel as [|fuel IH]; intros h pos item Hf Hpos [Hedges Habove].
  { intros i k Hk. assert (pos = 0%nat) as -> by lia. apply Hedges; [done|]. pose proof (kid_lt _ _ Hk). lia. }
  cbn [siftdown]. destruct (Nat.ltb_spec 0 pos) as [Hp|Hp].
  2:{ intros i k Hk. apply Hedges; [done|]. pose proof (kid_lt _ _ Hk). lia. }
  set (up := ((pos - 1) / 2)%nat). pose proof (kid_parent pos Hp) as Hup. fold up in Hup. pose proof (kid_lt _ _ Hup) as Hlt.
  destruct (lookup_lt_is_Some_2 h up) as [p Hpar]; [lia|]. rewrite Hpar. destruct (pair_lt item p) eqn:Hc.
  - apply ltb_true in Hc. apply IH; [lia|rewrite length_insert; lia|]. split.
    + intros i k Hk Hne x y Hx Hy. destruct (decide (k = pos)) as [->|Hkp].
      * assert (i = up) as -> by by eapply kid_unique. rewrite list_lookup_insert_eq in Hx by (rewrite length_insert; lia).
        rewrite list_lookup_insert_ne, list_lookup_insert_eq in Hy by done. by simplify_eq.
      * rewrite !list_lookup_insert_ne in Hy by done. destruct (decide (i = up)) as [->|Hiu].
        -- rewrite list_lookup_insert_eq in Hx by (rewrite length_insert; lia). simplify_eq. etrans; [exact Hc|].
           apply (Hedges up k Hk Hkp); rewrite list_lookup_insert_ne by (done || lia); done.
        -- rewrite list_lookup_insert_ne in Hx by done. destruct (decide (i = pos)) as [->|Hip].
           ++ rewrite list_lookup_insert_eq in Hx by done. simplify_eq. by apply (Habove up k).
           ++ rewrite list_lookup_insert_ne in Hx by done.
              apply (Hedges i k Hk Hkp); by rewrite list_lookup_insert_ne.
    + intros i k x y Hi Hk Hx Hy. pose proof (kid_lt _ _ Hi). rewrite list_lookup_insert_ne in Hx by lia.
      assert (le x p) as Hxp.
      { apply (Hedges i up Hi ltac:(lia)); rewrite list_lookup_insert_ne by lia; done. }
      destruct (decide (k = pos)) as [->|Hkp]; [rewrite list_lookup_insert_eq in Hy by done; by simplify_eq|].
      rewrite list_lookup_insert_ne in Hy by done. etrans; [exact Hxp|].
      apply (Hedges up k Hk Hkp); rewrite list_lookup_insert_ne by (done || lia); done.
  - apply ltb_false in Hc. intros i k Hk. destruct (decide (k = pos)) as [->|Hkp]; [|by apply Hedges].
    assert (i = up) as -> by by eapply kid_unique. intros x y Hx Hy. rewrite list_lookup_insert_ne in Hx by lia.
    rewrite list_lookup_insert_eq in Hy by done. by simplify_eq.
Qed.

(** a hole at [pos]: every edge that does not touch it is in order, and so is the edge that would skip it *)
Definition heap_around h pos : Prop :=
  (∀ i k, kid i k → i ≠ pos → k ≠ pos → ordered h i k) ∧
  (∀ i k x y, kid i pos → kid pos k → h !! i = Some x → h !! k = Some y → le x y).

(** the child the hole moves to is the least of the children *)
Lemma siftup_step h pos c x : kid pos c → h !! c = Some x → (∀ k y, kid pos k → h !! k = Some y → le x y) →
  heap_around h pos → heap_around (<[pos := x]> h) c.
Proof.
  intros Hc Hx Hmin [Hedges Hskip]. pose proof (kid_lt _ _ Hc) as Hlt. pose proof (lookup_lt_Some _ _ _ Hx) as Hlen. split.
  - intros i k Hk Hic Hkc a b Ha Hb. destruct (decide (k = pos)) as [->|Hkp].
    + pose proof (kid_lt _ _ Hk). rewrite list_lookup_insert_ne in Ha by lia. rewrite list_lookup_insert_eq in Hb by lia.
      simplify_eq. by apply (Hskip i c).
    + rewrite list_lookup_insert_ne in Hb by done. destruct (decide (i = pos)) as [->|Hip].
      * rewrite list_lookup_insert_eq in Ha by lia. simplify_eq. by apply (Hmin k).
      * rewrite list_lookup_insert_ne in Ha by done. by apply (Hedges i k).
  - intros i k a b Hi Hk Ha Hb. assert (i = pos) as -> by by eapply kid_unique. pose proof (kid_lt _ _ Hk).
    rewrite list_lookup_insert_eq in Ha by lia. rewrite list_lookup_insert_ne in Hb by lia. simplify_eq.
    by apply (Hedges c k); [done|lia..| |].
Qed.

Lemma siftup_ok fuel : ∀ h pos item, (length h - pos <= fuel)%nat → (pos < length h)%nat → heap_around h pos →
  is_heap (siftup fuel h pos item) ∧ siftup fuel h pos item ≡ₚ <[pos := item]> h.
Proof.
  induction fuel as [|fuel IH]; intros h pos item Hf Hpos Hh; [lia|]. cbn [siftup].
  destruct (h !! (2 * pos + 1)%nat) as [l|] eqn:Hl.
  - set (choice := match h !! (2 * pos + 2)%nat with Some rhs => _ | None => _ end).
    assert (∃ c x, choice = (c, x) ∧ kid pos c ∧ h !! c = Some x ∧ ∀ k y, kid pos k → h !! k = Some y → le x y) as (c & x & -> & Hc & Hx & Hmin).
    { unfold choice. destruct (h !! (2 * pos + 2)%nat) as [r|] eqn:Hr; [destruct (pair_lt l r) eqn:E|]; cbn [negb].
      - exists (2 * pos + 1)%nat, l. split_and!; [done|by left|done|]. intros k y [->| ->] Hy; simplify_eq; [apply le_refl|by apply ltb_true].
      - exists (2 * pos + 2)%nat, r. split_and!; [done|by right|done|]. intros k y [->| ->] Hy; simplify_eq; [by apply ltb_false|apply le_refl].
      - exists (2 * pos + 1)%nat, l. split_and!; [done|by left|done|]. intros k y [->| ->] Hy; simplify_eq; [apply le_refl]. }
    pose proof (kid_lt _ _ Hc). pose proof (lookup_lt_Some _ _ _ Hx).
    destruct (IH (<[pos := x]> h) c item) as [Hok Hperm]; [rewrite length_insert; lia..|by eapply siftup_step|].
    split; [done|]. rewrite Hperm. apply move_hole; [done..|lia].
  - assert (∀ k, kid pos k → h !! k = None) as Hleaf.
    { intros k [->| ->]; [done|]. apply lookup_ge_None. apply lookup_ge_None in Hl. lia. }
    split; [|by apply siftdown_perm]. destruct Hh as [Hedges Hskip]. apply siftdown_heap; [lia|done|]. split.
    + intros i k Hk Hkp x y Hx Hy. rewrite list_lookup_insert_ne in Hy by done. destruct (decide (i = pos)) as [->|Hip].
      * by rewrite Hleaf in Hy.
      * rewrite list_lookup_insert_ne in Hx by done. by apply (Hedges i k).
    + intros i k x y _ Hk _ Hy. by rewrite Hleaf in Hy.
Qed.

(** [heappush] and [heapreplace] do what the standard library says *)
Lemma heappush_ok h item : is_heap h → is_heap (heappush h item) ∧ heappush h item ≡ₚ item :: h.
Proof.
  intros Hh. unfold heappush.
  assert (<[length h := item]> (h ++ [item]) = h ++ [item]) as Hins.
  { rewrite insert_app_r_alt, Nat.sub_diag by lia. done. }
  split; [|rewrite siftdown_perm by (rewrite length_app; cbn; lia); rewrite Hins; apply Permutation_app_comm].
  apply siftdown_heap; [lia|rewrite length_app; cbn; lia|]. split.
  - intros i k Hk Hne x y Hx Hy. rewrite Hins in Hx, Hy. pose proof (kid_lt _ _ Hk).
    assert (k < length h)%nat by (apply lookup_lt_Some in Hy; rewrite length_app in Hy; cbn in Hy; lia).
    rewrite lookup_app_l in Hx, Hy by lia. by eapply Hh.
  - intros i k x y _ Hk _ Hy. pose proof (kid_lt _ _ Hk). apply lookup_lt_Some in Hy. rewrite length_app in Hy. cbn in Hy. lia.
Qed.
Lemma heapreplace_ok m h item : is_heap (m :: h) → is_heap (heapreplace (m :: h) item) ∧ heapreplace (m :: h) item ≡ₚ item :: h.
Proof.
  intros Hh. unfold heapreplace. apply (siftup_ok _ (m :: h) 0 item); [cbn; lia..|]. split.
  - intros i k Hk _ _. by apply Hh.
  - intros i k x y Hi. unfold kid in Hi. lia.
Qed.
End heap.

(** ** The leaderboard *)

Section leaderboard.
Import topn TopN.

Definition offer_step (o : string * Z) (s : t) : t := state_of (offer o.1 o.2) s.
(** the entry of an offer *)
Definition entry (o : string * Z) : Z * string := (o.2, o.1).

(** what is kept after the offers [hist]: as many as fit, none beaten by one left out *)
Record keeps_best (size : Z) (hist : list (Z * string)) (s : t) : Prop := {
  kb_size : n s = size;
  kb_pos : 1 <= size;
  kb_heap : is_heap (_heap s);
  kb_length : zlen (_heap s) = Z.min size (zlen hist);
  kb_best : ∃ left_out, hist ≡ₚ _heap s ++ left_out ∧ ∀ k r, k ∈ _heap s → r ∈ left_out → r.1 <= k.1 }.

Lemma offer_run item score s : 1 <= n s → zlen (_heap s) <= n s →
  offer item score s =
    if zlen (_heap s) <? n s then (mk (n s) (heappush (_heap s) (score, item)), Ok true)
    else match _heap s with
         | [] => (s, Err IndexError)
         | m :: _ => if m.1 <? score then (mk (n s) (heapreplace (_heap s) (score, item)), Ok true) else (s, Ok false)
         end.
Proof.
  intros Hn Hle. unfold offer. rewrite bind_get. destruct (zlen (_heap s) <? n s) eqn:E; [done|]. rewrite bind_pure_of.
  destruct (_heap s) as [|m h]; [done|]. change (py_index (m :: h) 0) with (Ok m). cbn.
  by destruct (m.1 <? score).
Qed.

Lemma le_score (a b : Z * string) : PriorityQueue.le a b → a.1 <= b.1.
Proof. intros [H|[H _]]; lia. Qed.

Lemma offer_keeps size hist s o : keeps_best size hist s → keeps_best size (entry o :: hist) (offer_step o s).
Proof.
  intros [Hn Hpos Hheap Hlen (out & Hperm & Hbest)]. destruct o as [item score]. unfold offer_step, state_of, entry; cbn [fst snd].
  pose proof (zlen_nonneg hist). rewrite offer_run by lia. rewrite Hn.
  destruct (Z.ltb_spec (zlen (_heap s)) size) as [Hroom|Hfull]; cbn [fst].
  - destruct (heappush_ok (_heap s) (score, item) Hheap) as [Hh Hp].
    assert (out = []) as ->.
    { apply Permutation_length in Hperm. rewrite length_app in Hperm. unfold zlen in *. destruct out; [done|cbn in Hperm; lia]. }
    split; cbn [n _heap]; [done|done|done| |].
    + unfold zlen in *. rewrite Hp. cbn. lia.
    + exists []. split; [rewrite Hp, Hperm; by rewrite !app_nil_r|]. by intros ? ? _ ?%elem_of_nil.
  - destruct (_heap s) as [|m h] eqn:Eh; [rewrite zlen_nil in *; lia|].
    assert (∀ k, k ∈ m :: h → m.1 <= k.1) as Hroot by (intros k Hk; apply le_score; by eapply heap_root).
    assert (zlen (m :: h) = Z.min size (zlen ((score, item) :: hist))) as Hlen' by (rewrite (zlen_cons (score, item)); lia).
    destruct (Z.ltb_spec m.1 score) as [Hbeat|Hno]; cbn [fst].
    + destruct (heapreplace_ok m h (score, item) Hheap) as [Hh Hp]. split; cbn [n _heap]; [done|done|done| |].
      * rewrite <-Hlen'. unfold zlen. by rewrite Hp.
      * exists (m :: out). split; [rewrite Hp, Hperm; cbn; constructor; apply Permutation_middle|].
        intros k r Hk. rewrite Hp in Hk. intros [->|Hr]%elem_of_cons.
        -- apply elem_of_cons in Hk as [->|Hk]; [cbn; lia|]. apply Hroot. by right.
        -- pose proof (Hbest m r ltac:(by left) Hr). apply elem_of_cons in Hk as [->|Hk]; [cbn; lia|]. apply Hbest; [by right|done].
    + split; rewrite ?Eh; [done|done|done|done|]. exists ((score, item) :: out). split; [rewrite Hperm; apply Permutation_middle|].
      intros k r Hk [->|Hr]%elem_of_cons; [|by apply Hbest]. cbn. specialize (Hroot k Hk). lia.
Qed.

Lemma offers_keep size offers s hist : keeps_best size hist s →
  keeps_best size (reverse (entry <$> offers) ++ hist) (run offer_step offers s).
Proof.
  revert s hist. induction offers as [|o offers IH]; intros s hist Hs; [done|].
  cbn [fmap list_fmap run foldl]. rewrite reverse_cons, <-app_assoc. apply IH. by apply offer_keeps.
Qed.

#[local] Instance ge_antisym : AntiSymm (=) Z.ge.
Proof. intros a b. lia. Qed.
#[local] Instance ge_trans : Transitive Z.ge.
Proof. intros a b c. lia. Qed.
#[local] Instance ge_total : Total Z.ge.
Proof. intros a b. lia. Qed.

(** the best of a list of scores are the head of the sorted list *)
Lemma best_are_first (best rest all : list Z) : StronglySorted Z.ge best → all ≡ₚ best ++ rest →
  (∀ b r, b ∈ best → r ∈ rest → r <= b) → take (length best) (py_sorted Z.ge all) = best.
Proof.
  intros Hs Hp Hle. assert (py_sorted Z.ge all = best ++ py_sorted Z.ge rest) as ->; [|apply take_app_length].
  apply (StronglySorted_unique Z.ge); [apply Sorted_StronglySorted; [apply _|apply py_sorted_Sorted, _]| |].
  - apply StronglySorted_app_2; [|done|apply Sorted_StronglySorted; [apply _|apply py_sorted_Sorted, _]].
    intros b r Hb Hr. apply py_sorted_elem_of in Hr. specialize (Hle b r Hb Hr). lia.
  - by rewrite !py_sorted_Permutation.
Qed.

Definition listed (k : Z * string) : string * Z := let '(score, item) := k in (item, score).
Lemma listed_entry (offers : list (string * Z)) : (listed ∘ entry) <$> offers = offers.
Proof. rewrite <-(list_fmap_id offers) at 2. apply list_fmap_ext. by intros _ [item score] _. Qed.

(** what [top] answers, in a state that keeps the best *)
Lemma top_best size (offers : list (string * Z)) s : keeps_best size (reverse (entry <$> offers)) s →
  ∃ l, top s = Ok l ∧ l ≡ₚ listed <$> _heap s ∧ l.*2 = take (Z.to_nat size) (py_sorted Z.ge offers.*2) ∧
    ∃ left_out, offers ≡ₚ l ++ left_out ∧ ∀ k r, k ∈ l → r ∈ left_out → r.2 <= k.2.
Proof.
  intros [Hn Hpos Hheap Hlen (out & Hperm & Hbest)].
  exists (listed <$> py_sorted (key_ge (λ pair, pair.1)) (_heap s)). split; [done|]. set (l := listed <$> _).
  assert (l ≡ₚ listed <$> _heap s) as Hl by (unfold l; by rewrite py_sorted_Permutation).
  assert (∀ k, k ∈ l → ∃ e, e ∈ _heap s ∧ e.1 = k.2) as Hin.
  { intros k Hk. rewrite Hl in Hk. apply list_elem_of_fmap in Hk as ([score item] & -> & ?). by exists (score, item). }
  assert (offers ≡ₚ l ++ (listed <$> out)) as Hall.
  { rewrite Hl, <-fmap_app, <-Hperm, <-(listed_entry offers) at 1. by rewrite reverse_Permutation, list_fmap_compose. }
  assert (∀ k r, k ∈ l → r ∈ listed <$> out → r.2 <= k.2) as Hle.
  { intros k r (e & He & <-)%Hin ([score item] & -> & Hr)%list_elem_of_fmap. by apply (Hbest e (score, item)). }
  split; [done|]. split; [|by exists (listed <$> out)].
  assert (StronglySorted Z.ge l.*2) as Hsort.
  { assert (l.*2 = (py_sorted (key_ge (λ pair, pair.1)) (_heap s)).*1) as ->.
    { unfold l. rewrite <-list_fmap_compose. apply list_fmap_ext. by intros _ [score item] _. }
    apply (StronglySorted_fmap _ (key_ge (λ pair : Z * string, pair.1))); [intros a b H; unfold key_ge in H; lia|].
    apply Sorted_StronglySorted; [apply _|apply py_sorted_Sorted, _]. }
  rewrite <-(best_are_first l.*2 (listed <$> out).*2 offers.*2) at 1; [|done|by rewrite Hall, fmap_app|].
  2:{ intros b r (k & -> & Hk)%list_elem_of_fmap (e & -> & He)%list_elem_of_fmap. by apply Hle. }
  rewrite length_fmap. unfold zlen in Hlen. rewrite length_reverse, length_fmap in Hlen.
  assert (length l = length (_heap s)) as Hll by (by rewrite Hl, length_fmap).
  destruct (decide (length (_heap s) = Z.to_nat size)) as [He|Hne]; [by rewrite Hll, He|].
  rewrite !take_ge; [done|rewrite py_sorted_length, length_fmap; lia..].
Qed.
End leaderboard.

(** Also (functional): the leaderboard is exactly the best of everything offered.  After any offers, items repeated or tied
    included, as many are kept as fit, no offer left out has a higher score than one kept, and [top] lists the kept ones
    from the highest score down, so its scores are exactly the first [n] of all the scores sorted; and an offer is
    admitted exactly if there is room or it beats the lowest score kept.  A heap of [n] entries is enough: no sort of
    the stream is needed. *)
Theorem top_n_exact (n : Z) (s0 : topn.TopN.t) (offers : list (string * Z)) (Hmake : topn.TopN.make n = Ok s0) :
  let s := run offer_step offers s0 in
  ∃ l, topn.TopN.top s = Ok l ∧
    l.*2 = take (Z.to_nat n) (py_sorted Z.ge offers.*2) ∧
    (∃ left_out, offers ≡ₚ l ++ left_out ∧ ∀ k r, k ∈ l → r ∈ left_out → r.2 <= k.2) ∧
    (∀ item score, value_of (topn.TopN.offer item score) s =
      Ok ((zlen offers <? n) || existsb (λ k, k.2 <? score) l)).
Proof.
  intros s. unfold topn.TopN.make in Hmake. destruct (Z.ltb_spec n 1) as [|Hpos]; [done|]. injection Hmake as <-.
  assert (keeps_best n (reverse (entry <$> offers)) s) as Hs.
  { rewrite <-(app_nil_r (reverse _)). apply offers_keep. split; cbn [topn.TopN.n topn.TopN._heap].
    - done.
    - done.
    - by intros i k _ x y Hx.
    - rewrite !zlen_nil. lia.
    - exists []. split; [done|]. by intros k r Hk%elem_of_nil. }
  destruct (top_best _ _ _ Hs) as (l & Htop & Hl & Hscores & Hout). exists l. split_and!; [done..|].
  destruct Hs as [Hn _ Hheap Hlen _]. assert (zlen (topn.TopN._heap s) = Z.min n (zlen offers)) as Hlen'.
  { rewrite Hlen. unfold zlen. by rewrite length_reverse, length_fmap. }
  intros item score. unfold value_of. rewrite offer_run by lia. rewrite Hn, Hlen'.
  destruct (Z.ltb_spec (Z.min n (zlen offers)) n), (Z.ltb_spec (zlen offers) n); try lia; [done|]. cbn [orb].
  destruct (topn.TopN._heap s) as [|m h] eqn:Eh; [rewrite zlen_nil in *; lia|].
  assert (existsb (λ k : string * Z, k.2 <? score) l = (m.1 <? score)) as ->; [|by destruct (m.1 <? score)].
  apply eq_true_iff_eq. rewrite existsb_elem, Z.ltb_lt. split.
  - intros (k & Hk & Hlt%Z.ltb_lt). rewrite Hl in Hk. apply list_elem_of_fmap in Hk as ([sc it] & -> & Hk). cbn in Hlt.
    pose proof (le_score _ _ (heap_root _ m Hheap eq_refl _ Hk)) as Hm. cbn in Hm. lia.
  - intros Hlt. exists (listed m). split; [rewrite Hl; by left|]. apply Z.ltb_lt. by destruct m.
Qed.
Example top_n_exact_witness : ∃ s0 l, topn.TopN.make 2 = Ok s0 ∧
  topn.TopN.top (run offer_step [("a", 3); ("b", 5); ("c", 4)]%string s0) = Ok l ∧
  l.*2 = take 2 (py_sorted Z.ge [3; 5; 4]).
Proof.
  exists (topn.TopN.mk 2 []). destruct (top_n_exact 2 (topn.TopN.mk 2 []) [("a", 3); ("b", 5); ("c", 4)]%string eq_refl) as (l & Htop & Hl & _).
  exists l. split; [reflexivity|]. split; [exact Htop|exact Hl].
Defined.
