(* ===== verification/Maintenance.v ===== *)
(** * Log maintenance

    What keeps the files of a log in order: cleaning and compaction lag ([relay/logcleaner.py], [relay/compactionlag.py],
    [relay/tombstoneretention.py], [relay/deleteretention.py], [relay/writeamplification.py]), rolling and deleting segments
    ([relay/segmentroll.py], [relay/timeroll.py], [relay/segmentdelete.py], [relay/preallocation.py]), flushing and recovery
    ([relay/flushpolicy.py], [relay/recoverypoint.py], [relay/indexrebuild.py]), disks ([relay/logdirs.py],
    [relay/logdirfailure.py], [relay/logdirfailover.py], [relay/describelogdirs.py], [relay/diskmonitor.py]) and the
    operating system's part as the code counts it ([relay/pagecache.py], [relay/zerocopy.py], [relay/filehandles.py],
    [relay/compression.py]).  The files themselves are not modelled: the modules keep counters and names, not descriptors. *)

From Stdlib Require Import Strings.Byte Strings.Ascii.
From S2P Require Import Prelude PyDict PyBytes PyFloat.

Module logcleaner.
Module DirtyLog.
(** [relay/logcleaner.py] class DirtyLog *)
Record t := mk { partition : Z; total_records : Z; superseded_records : Z; }.
(** [relay/logcleaner.py] DirtyLog.__post_init__ *)
Definition make (partition : Z) (total_records : Z) (superseded_records : Z) : result t :=
  if total_records <? 1 then Err Invalid else
  if total_records <? superseded_records then Err Invalid else
  Ok (mk partition total_records superseded_records).
(** [relay/logcleaner.py] DirtyLog.dirty_ratio *)
Definition dirty_ratio (self : t) : result float :=
  z_truediv (superseded_records self) (total_records self).
End DirtyLog.
Module LogCleaner.
(** [relay/logcleaner.py] class LogCleaner *)
Record t := mk {
  min_dirty_ratio : float;
  work_spent : Z;
  records_reclaimed : Z;
  logs_cleaned : list Z;
}.
Definition set_work_spent (v : Z) (self : t) : t := mk (min_dirty_ratio self) v (records_reclaimed self) (logs_cleaned self).
Definition set_records_reclaimed (v : Z) (self : t) : t := mk (min_dirty_ratio self) (work_spent self) v (logs_cleaned self).
Definition set_logs_cleaned (v : list Z) (self : t) : t := mk (min_dirty_ratio self) (work_spent self) (records_reclaimed self) v.
(** [relay/logcleaner.py] LogCleaner.__post_init__ *)
Definition make (min_dirty_ratio : float) : result t :=
  if negb ((f_lt f0 min_dirty_ratio) && (f_lt min_dirty_ratio (of_Z 1))) then Err Invalid else
  Ok (mk min_dirty_ratio 0 0 []).
(** [relay/logcleaner.py:68-72] LogCleaner.rank: the key [(-log.dirty_ratio(), log.partition)] *)
Definition ranks_before (a b : float * DirtyLog.t) : bool :=
  f_lt (f_neg a.1) (f_neg b.1)
  || (f_eq (f_neg a.1) (f_neg b.1) && (DirtyLog.partition a.2 <? DirtyLog.partition b.2)).
Definition ranks_le (a b : float * DirtyLog.t) : Prop := ranks_before b a = false.
#[global] Instance ranks_le_dec : RelDecision ranks_le.
Proof. unfold RelDecision, ranks_le. intros a b. apply _. Defined.
(** [relay/logcleaner.py] LogCleaner.rank *)
Definition rank (self : t) (logs : list DirtyLog.t) : result (list DirtyLog.t) :=
  keyed ← mapM (λ log, r ← DirtyLog.dirty_ratio log; Ok (r, log)) logs;
  let eligible := py_filter (λ p, f_le (min_dirty_ratio self) p.1) keyed in
  Ok ((py_sorted ranks_le eligible).*2).
(** [relay/logcleaner.py] LogCleaner.clean *)
Definition clean (log : DirtyLog.t) : act t string :=
  r ← pure_of (DirtyLog.dirty_ratio log);
  self ← get;
  if f_lt r (min_dirty_ratio self) then
    r1 ← pure_of (DirtyLog.dirty_ratio log);
    mret ("partition " +:+ zs (DirtyLog.partition log) +:+ " at " +:+ fmt_percent 0 r1
          +:+ " dirty is below the " +:+ fmt_percent 0 (min_dirty_ratio self)
          +:+ " floor; skipped, because chasing tiny gains competes with live traffic for nothing")
  else
  put (set_work_spent (work_spent self + (DirtyLog.total_records log)) self);;
  self ← get;
  put (set_records_reclaimed (records_reclaimed self + (DirtyLog.superseded_records log)) self);;
  self ← get;
  put (set_logs_cleaned (logs_cleaned self ++ [DirtyLog.partition log]) self);;
  mret ("partition " +:+ zs (DirtyLog.partition log) +:+ " compacted, reclaimed "
        +:+ zs (DirtyLog.superseded_records log) +:+ " of " +:+ zs (DirtyLog.total_records log)
        +:+ " records").
(** [relay/logcleaner.py] LogCleaner.efficiency *)
Definition efficiency (self : t) : result string :=
  if work_spent self =? 0 then Err Invalid else
  ratio ← z_truediv (records_reclaimed self) (work_spent self);
  Ok (zs (records_reclaimed self) +:+ " reclaimed for " +:+ zs (work_spent self)
        +:+ " processed (" +:+ fmt_percent 0 ratio
        +:+ "); a cleaner running flat out while reclaiming little is a misconfiguration in the costume of diligence").
End LogCleaner.
End logcleaner.
Import logcleaner.

Module preallocation.
Module PreallocatedSegment.
(** [relay/preallocation.py] class PreallocatedSegment *)
Record t := mk { reserved : Z; used : Z; sealed : bool; }.
Definition set_reserved (v : Z) (self : t) : t := mk v (used self) (sealed self).
Definition set_used (v : Z) (self : t) : t := mk (reserved self) v (sealed self).
Definition set_sealed (v : bool) (self : t) : t := mk (reserved self) (used self) v.
(** [relay/preallocation.py] PreallocatedSegment.__post_init__ *)
Definition make (reserved : Z) : result t :=
  if reserved <? 1 then Err Invalid else
  Ok (mk reserved 0 false).
(** [relay/preallocation.py] PreallocatedSegment.append *)
Definition append (size_ : Z) : act t string :=
  self ← get;
  raise_if (sealed self) Invalid;;
  raise_if (reserved self <? used self + size_) Invalid;;
  put (set_used (used self + size_) self);;
  self ← get;
  mret ("appended into reserved space, " +:+ zs (used self) +:+ "/" +:+ zs (reserved self)).
(** [relay/preallocation.py] PreallocatedSegment.seal *)
Definition seal : act t string :=
  self ← get;
  let reclaimed := reserved self - (used self) in
  put (set_reserved (used self) self);;
  self ← get;
  put (set_sealed true self);;
  mret ("sealed and truncated, " +:+ zs reclaimed
        +:+ " reserved byte(s) returned to the disk; the reservation was temporary").
End PreallocatedSegment.
Module PreallocationReport.
(** [relay/preallocation.py] class PreallocationReport *)
Record t := mk { segments : list PreallocatedSegment.t; }.
Definition new : t := mk [].
(** [relay/preallocation.py] PreallocationReport.totals *)
Definition totals (self : t) : string :=
  let reserved := zsum (λ s, PreallocatedSegment.reserved s) (segments self) in
  let used := zsum (λ s, PreallocatedSegment.used s) (segments self) in
  let slack := reserved - used in
  zs reserved +:+ " reserved, " +:+ zs used +:+ " used, " +:+ zs slack
        +:+ " preallocated slack reclaimed on seal; an operator seeing high usage needs reserved-but-empty told apart from data that stays".
End PreallocationReport.
End preallocation.
Import preallocation.

Module recoverypoint.
Module RecoveryState.
(** [relay/recoverypoint.py] class RecoveryState *)
Record t := mk { recovery_point : Z; log_end : Z; clean_shutdown : bool; }.
(** [relay/recoverypoint.py] RecoveryState.__post_init__ *)
Definition make (recovery_point : Z) (log_end : Z) (clean_shutdown : bool) : result t :=
  if log_end <? recovery_point then Err Invalid else
  Ok (mk recovery_point log_end clean_shutdown).
End RecoveryState.
(** [relay/recoverypoint.py] tail_to_verify *)
Definition tail_to_verify (state : RecoveryState.t) : Z :=
  RecoveryState.log_end state - (RecoveryState.recovery_point state).
(** [relay/recoverypoint.py] startup_plan *)
Definition startup_plan (state : RecoveryState.t) : string :=
  let tail_ := tail_to_verify state in
  if (RecoveryState.clean_shutdown state) && (tail_ =? 0) then
    "clean shutdown, recovery point at the end; trust the whole log and restart fast, verifying nothing"
  else
  if RecoveryState.clean_shutdown state then
    "clean shutdown but " +:+ zs tail_
          +:+ " record(s) past the recovery point; verify the tail, a small bounded cost"
  else
  "crash detected: recovery point stale, verify " +:+ zs tail_
        +:+ " record(s) of tail; bounded by the checkpoint interval, not the whole log, and the number an operator waiting on a slow startup deserves".
End recoverypoint.
Import recoverypoint.

Module filehandles.
Module FileHandleBudget.
(** [relay/filehandles.py] class FileHandleBudget *)
Record t := mk { limit : Z; open_segments : Z; files_per_segment : Z; connections : Z; }.
(** [relay/filehandles.py] FileHandleBudget.__post_init__ *)
Definition make (limit : Z) (open_segments : Z) (files_per_segment : Z) : result t :=
  if files_per_segment <? 1 then Err Invalid else
  if limit <? 1 then Err Invalid else
  Ok (mk limit open_segments files_per_segment 0).
(** [relay/filehandles.py] FileHandleBudget.segment_fds *)
Definition segment_fds (self : t) : Z :=
  (open_segments self) * (files_per_segment self).
(** [relay/filehandles.py] FileHandleBudget.total *)
Definition total (self : t) : Z :=
  segment_fds self + (connections self).
(** [relay/filehandles.py] FileHandleBudget.headroom *)
Definition headroom (self : t) : Z :=
  limit self - (total self).
(** [relay/filehandles.py] FileHandleBudget.at_risk *)
Definition at_risk (self : t) (warn_fraction : float) : bool :=
  fz_le (f_mul (of_Z (limit self)) warn_fraction) (total self).
(** [relay/filehandles.py] FileHandleBudget.report *)
Definition report (self : t) : string :=
  if limit self <=? total self then
    "OVER: " +:+ zs (total self) +:+ " of " +:+ zs (limit self)
          +:+ " descriptors; the broker cannot open a new segment or accept a connection, an outage"
  else
  let dominant := if connections self <=? segment_fds self then "segments" else "connections" in
  let fix_ := if bool_decide (dominant = "segments") then "retention or segment sizing" else "the connection quota" in
  let state := if at_risk self (f_dec 9 (-1)) then "AT RISK" else "ok" in
  state +:+ ": " +:+ zs (total self) +:+ "/" +:+ zs (limit self) +:+ ", "
        +:+ zs (headroom self) +:+ " headroom; " +:+ dominant +:+ " dominate, reach for " +:+ fix_.
End FileHandleBudget.
End filehandles.
Import filehandles.

Module flushpolicy.
(** [relay/flushpolicy.py] EVERY_RECORD *)
Definition EVERY_RECORD : string := "every-record".
(** [relay/flushpolicy.py] INTERVAL *)
Definition INTERVAL : string := "interval".
(** [relay/flushpolicy.py] LAZY *)
Definition LAZY : string := "lazy".
(** [relay/flushpolicy.py] POLICIES *)
Definition POLICIES : list string := [EVERY_RECORD; INTERVAL; LAZY].
Module DurabilityConfig.
(** [relay/flushpolicy.py] class DurabilityConfig *)
Record t := mk { flush_policy : string; replication_factor : Z; }.
(** [relay/flushpolicy.py] DurabilityConfig.__post_init__ *)
Definition make (flush_policy : string) (replication_factor : Z) : result t :=
  if negb (bool_decide (flush_policy ∈ POLICIES)) then Err Invalid else
  if replication_factor <? 1 then Err Invalid else
  Ok (mk flush_policy replication_factor).
End DurabilityConfig.
(** [relay/flushpolicy.py] durability_source *)
Definition durability_source (config : DurabilityConfig.t) : result string :=
  let fsync_durable := bool_decide (DurabilityConfig.flush_policy config = EVERY_RECORD) in
  let replication_durable := 2 <=? DurabilityConfig.replication_factor config in
  if (negb fsync_durable) && (negb replication_durable) then Err Invalid else
  if replication_durable && (negb fsync_durable) then
    Ok ("durability from replication (factor "
          +:+ zs (DurabilityConfig.replication_factor config)
          +:+ "): fsync traded for copies, and this is what makes the broker fast")
  else
  if fsync_durable && (negb replication_durable) then
    Ok "durability from fsync alone: every record synced, slow but safe on a single machine"
  else
  Ok "durability from both replication and fsync: safe and slow, belt and suspenders".
(** [relay/flushpolicy.py] throughput_note *)
Definition throughput_note (config : DurabilityConfig.t) : string :=
  if bool_decide (DurabilityConfig.flush_policy config = EVERY_RECORD) then
    "throughput capped at the disk sync rate"
  else
  "throughput unbound by fsync; the page cache absorbs writes".
End flushpolicy.
Import flushpolicy.

Module pagecache.
Module CacheModel.
(** [relay/pagecache.py] class CacheModel *)
Record t := mk { log_start : Z; log_end : Z; cached_bytes : Z; bytes_per_offset : Z; }.
(** [relay/pagecache.py] CacheModel.__post_init__ *)
Definition make (log_start : Z) (log_end : Z) (cached_bytes : Z) (bytes_per_offset : Z) : result t :=
  let log_bytes := (log_end - log_start) * bytes_per_offset in
  if log_bytes <? cached_bytes then Err Invalid else
  Ok (mk log_start log_end cached_bytes bytes_per_offset).
(** [relay/pagecache.py] CacheModel.cache_edge *)
Definition cache_edge (self : t) : result Z :=
  cached_offsets ← py_div (cached_bytes self) (bytes_per_offset self);
  Ok (log_end self - cached_offsets).
(** [relay/pagecache.py] CacheModel.is_cache_hit *)
Definition is_cache_hit (self : t) (read_offset : Z) : result bool :=
  r ← cache_edge self;
  Ok (r <=? read_offset).
(** [relay/pagecache.py] CacheModel.classify *)
Definition classify (self : t) (read_offset : Z) : result string :=
  edge ← cache_edge self;
  if edge <=? read_offset then
    Ok ("offset " +:+ zs read_offset +:+ " is inside the cached window (edge " +:+ zs edge
          +:+ "); served from cache, no disk")
  else
  let behind := edge - read_offset in
  Ok ("offset " +:+ zs read_offset +:+ " is " +:+ zs behind
        +:+ " offset(s) behind the cache edge " +:+ zs edge
        +:+ "; a disk fault that also evicts hot pages, so this lag slows every consumer, not just this one").
End CacheModel.
End pagecache.
Import pagecache.

Module zerocopy.
Module FetchPath.
(** [relay/zerocopy.py] class FetchPath *)
Record t := mk {
  needs_downconversion : bool;
  needs_encryption : bool;
  convert_cpu_multiple : float;
}.
(** [relay/zerocopy.py] FetchPath.__post_init__ *)
Definition make (needs_downconversion : bool) (needs_encryption : bool) (convert_cpu_multiple : float) : result t :=
  if f_lt convert_cpu_multiple (of_Z 1) then Err Invalid else
  Ok (mk needs_downconversion needs_encryption convert_cpu_multiple).
(** [relay/zerocopy.py] FetchPath.is_zero_copy *)
Definition is_zero_copy (self : t) : bool :=
  (negb (needs_downconversion self)) && (negb (needs_encryption self)).
(** [relay/zerocopy.py] FetchPath.cpu_multiple *)
Definition cpu_multiple (self : t) : float :=
  if is_zero_copy self then
    of_Z 1
  else
  if needs_downconversion self then
    convert_cpu_multiple self
  else
  of_Z 2.
(** [relay/zerocopy.py] FetchPath.classify *)
Definition classify (self : t) : string :=
  if is_zero_copy self then
    "zero-copy: disk to socket untouched, almost no CPU per byte, the broker's throughput secret"
  else
  if needs_downconversion self then
    "down-conversion forces bytes into user space: ~" +:+ fmt_fixed 0 (cpu_multiple self)
          +:+ "x the CPU, so an old consumer raises CPU for everyone, not a traffic rise"
  else
  "TLS must encrypt before the socket: bytes copied into user space, ~2x the CPU a plaintext broker pays".
End FetchPath.
End zerocopy.
Import zerocopy.

Module segmentroll.
Module RollPlan.
(** [relay/segmentroll.py] class RollPlan *)
Record t := mk { size_limit : Z; time_limit : Z; index_limit : Z; }.
(** [relay/segmentroll.py] RollPlan.__post_init__ *)
Definition make (size_limit : Z) (time_limit : Z) (index_limit : Z) : result t :=
  if (Z.min (Z.min size_limit time_limit) index_limit) <? 1 then Err Invalid else
  Ok (mk size_limit time_limit index_limit).
(** [relay/segmentroll.py] RollPlan.should_roll *)
Definition should_roll (self : t) (size_ : Z) (age : Z) (index_entries : Z) : bool :=
  (size_limit self <=? size_) || (time_limit self <=? age) || (index_limit self <=? index_entries).
(** [relay/segmentroll.py] RollPlan.trigger *)
Definition trigger (self : t) (size_ : Z) (age : Z) (index_entries : Z) : string :=
  let reached := [] in
  let reached :=
    if size_limit self <=? size_ then
     let reached := reached ++ [("size", "the partition is busy")] in
     reached
    else
     reached in
  let reached :=
    if time_limit self <=? age then
     let reached := reached ++ [("time", "the partition is slow")] in
     reached
    else
     reached in
  let reached :=
    if index_limit self <=? index_entries then
     let reached := reached ++ [("index", "its records are unusually small")] in
     reached
    else
     reached in
  if bool_decide (reached = []) then
    "no roll yet; the segment is under every limit"
  else
  let names := join_str ", " ((λ '(n, why), n +:+ " (" +:+ why +:+ ")") <$> reached) in
  "rolling on " +:+ names.
(** [relay/segmentroll.py] RollPlan.remaining *)
Definition remaining (self : t) (size_ : Z) (age : Z) (index_entries : Z) : result string :=
  let candidates := [("size", size_limit self - size_); ("time", time_limit self - age); ("index", index_limit self - index_entries)] in
  m ← py_min_key Z.ltb (λ c, c.2) candidates;
  let '(which, soonest) := m in
  Ok ("rolls next on " +:+ which +:+ " in " +:+ zs (Z.max 0 soonest)
        +:+ "; a partition rolling on a limit other than the one it was sized for changes the segment count and open file handles").
End RollPlan.
End segmentroll.
Import segmentroll.

Module segmentdelete.
Module SegmentDeletion.
(** [relay/segmentdelete.py] class SegmentDeletion *)
Record t := mk {
  delay_ticks : Z;
  renamed_at : Z;
  open_readers : Z;
  finished : Z;
  unlinked : bool;
}.
Definition set_renamed_at (v : Z) (self : t) : t := mk (delay_ticks self) v (open_readers self) (finished self) (unlinked self).
Definition set_open_readers (v : Z) (self : t) : t := mk (delay_ticks self) (renamed_at self) v (finished self) (unlinked self).
Definition set_finished (v : Z) (self : t) : t := mk (delay_ticks self) (renamed_at self) (open_readers self) v (unlinked self).
Definition set_unlinked (v : bool) (self : t) : t := mk (delay_ticks self) (renamed_at self) (open_readers self) (finished self) v.
(** [relay/segmentdelete.py] SegmentDeletion.__post_init__ *)
Definition make (delay_ticks : Z) : result t :=
  if delay_ticks <? 1 then Err Invalid else
  Ok (mk delay_ticks (-1) 0 0 false).
(** [relay/segmentdelete.py] SegmentDeletion.rename *)
Definition rename (now : Z) (readers_open : Z) : act t string :=
  self ← get;
  raise_if (0 <=? renamed_at self) Invalid;;
  put (set_renamed_at now self);;
  self ← get;
  put (set_open_readers readers_open self);;
  mret ("renamed at " +:+ zs now +:+ "; no new read can open it, " +:+ zs readers_open
        +:+ " read(s) still in flight before the unlink").
(** [relay/segmentdelete.py] SegmentDeletion.reader_finished *)
Definition reader_finished : act t unit :=
  self ← get;
  (if finished self <? open_readers self then put (set_finished (finished self + 1) self) else mret ()).
(** [relay/segmentdelete.py] SegmentDeletion.try_unlink *)
Definition try_unlink (now : Z) : act t string :=
  self ← get;
  raise_if (renamed_at self <? 0) Invalid;;
  let remaining := open_readers self - (finished self) in
  raise_if ((now - (renamed_at self) <? delay_ticks self) && (0 <? remaining)) Invalid;;
  put (set_unlinked true self);;
  mret ("unlinked at " +:+ zs now +:+ "; disk reclaimed").
(** [relay/segmentdelete.py] SegmentDeletion.status *)
Definition status (self : t) (now : Z) : string :=
  if renamed_at self <? 0 then
    "not yet marked for deletion"
  else
  let due := renamed_at self + (delay_ticks self) in
  let remaining := open_readers self - (finished self) in
  "unlink due at " +:+ zs due +:+ " (" +:+ zs (Z.max 0 (due - now)) +:+ " tick(s) away), "
        +:+ zs remaining +:+ " pre-rename read(s) still holding it".
End SegmentDeletion.
End segmentdelete.
Import segmentdelete.

Module timeroll.
Module TimeRollPolicy.
(** [relay/timeroll.py] class TimeRollPolicy *)
Record t := mk { max_bytes : Z; max_open_ticks : Z; size_rolls : Z; time_rolls : Z; }.
Definition set_size_rolls (v : Z) (self : t) : t := mk (max_bytes self) (max_open_ticks self) v (time_rolls self).
Definition set_time_rolls (v : Z) (self : t) : t := mk (max_bytes self) (max_open_ticks self) (size_rolls self) v.
(** [relay/timeroll.py] TimeRollPolicy.__post_init__ *)
Definition make (max_bytes : Z) (max_open_ticks : Z) : result t :=
  if (max_bytes <? 1) || (max_open_ticks <? 1) then Err Invalid else
  Ok (mk max_bytes max_open_ticks 0 0).
(** [relay/timeroll.py] TimeRollPolicy.should_roll *)
Definition should_roll (segment_bytes : Z) (opened_at : Z) (now : Z) (has_records : bool) : act t string :=
  if negb has_records then
    mret "empty segment does not roll"
  else
  self ← get;
  let by_size := max_bytes self <=? segment_bytes in
  let by_age := max_open_ticks self <=? now - opened_at in
  if (by_size : bool) then
    put (set_size_rolls (size_rolls self + 1) self);;
    mret "roll by size: a busy partition behaving normally"
  else
  if (by_age : bool) then
    put (set_time_rolls (time_rolls self + 1) self);;
    mret "roll by age: a slow partition rescued from retention starvation, its old records now sealable"
  else
  mret "no roll: within both size and age".
(** [relay/timeroll.py] TimeRollPolicy.report *)
Definition report (self : t) : string :=
  zs (size_rolls self) +:+ " size roll(s), " +:+ zs (time_rolls self)
        +:+ " time roll(s); a rise in time rolls means partitions slowed down, a workload change worth noticing".
End TimeRollPolicy.
End timeroll.
Import timeroll.

Module indexrebuild.
Module IndexRebuilder.
(** [relay/indexrebuild.py] class IndexRebuilder *)
Record t := mk { interval : Z; log_end : Z; entries : list (Z * Z); }.
Definition set_entries (v : list (Z * Z)) (self : t) : t := mk (interval self) (log_end self) v.
(** [relay/indexrebuild.py] IndexRebuilder.__post_init__ *)
Definition make (interval : Z) (log_end : Z) : result t :=
  if interval <? 1 then Err Invalid else
  Ok (mk interval log_end []).
(** [relay/indexrebuild.py] IndexRebuilder.is_corrupt *)
Fixpoint not_increasing (entries : list (Z * Z)) : bool :=
  match entries with
  | a :: ((b :: _) as entries) => (b.1 <=? a.1) || not_increasing entries
  | _ => false
  end.
(** [relay/indexrebuild.py] IndexRebuilder.is_corrupt *)
Definition is_corrupt (self : t) : bool := not_increasing (entries self).
(** [relay/indexrebuild.py] IndexRebuilder.is_short *)
Definition is_short (self : t) : result bool :=
  last_ ← (if negb (bool_decide (entries self = [])) then x ← py_index (entries self) (-1); Ok x.1 else Ok (-1));
  Ok (last_ <? log_end self - 1).
(** [relay/indexrebuild.py] IndexRebuilder.rebuild *)
Definition rebuild (positions : pydict Z Z) : act t string :=
  self ← get;
  last_indexed ← pure_of (if negb (bool_decide (entries self = [])) then x ← py_index (entries self) (-1); Ok x.1 else Ok (-1));
  raise_if (log_end self - 1 <? last_indexed) Invalid;;
  start ← (if is_corrupt self then
     put (set_entries [] self);;
     let start := 0 in
     mret start
   else
     let start := last_indexed + 1 in
     mret start);
  self ← get;
  let rebuilt := entries self in
  rebuilt ← for_fold (py_range start (log_end self)) rebuilt (λ rebuilt offset,
    self ← get;
    r1 ← pure_of (py_mod offset (interval self));
    rebuilt ← (if (r1 =? 0) && (d_mem positions offset) then
       v ← pure_of (d_item positions offset);
       let rebuilt := rebuilt ++ [(offset, v)] in
       mret rebuilt
     else
       mret rebuilt);
    mret rebuilt);
  self ← get;
  put (set_entries rebuilt self);;
  self ← get;
  mret ("rebuilt to " +:+ zs (zlen (entries self)) +:+ " entry(ies) up to log end "
        +:+ zs (log_end self)).
(** [relay/indexrebuild.py] IndexRebuilder.report *)
Definition report (self : t) : result string :=
  q ← py_div (log_end self) (interval self);
  let expected := Z.max 1 q in
  Ok (zs (zlen (entries self)) +:+ " index entry(ies) for a log of " +:+ zs (log_end self)
        +:+ "; far below the ~" +:+ zs expected
        +:+ " the interval implies means the scan stopped early on a torn record").
End IndexRebuilder.
End indexrebuild.
Import indexrebuild.

Module diskmonitor.
Module DiskMonitor.
(** [relay/diskmonitor.py] class DiskMonitor *)
Record t := mk {
  total_bytes : Z;
  stop_write_ratio : float;
  lead_time : Z;
  samples : list (Z * Z);
}.
Definition set_samples (v : list (Z * Z)) (self : t) : t := mk (total_bytes self) (stop_write_ratio self) (lead_time self) v.
(** [relay/diskmonitor.py] DiskMonitor.__post_init__ *)
Definition make (total_bytes : Z) (stop_write_ratio : float) (lead_time : Z) : result t :=
  if negb ((f_lt f0 stop_write_ratio) && (f_le stop_write_ratio (of_Z 1))) then Err Invalid else
  Ok (mk total_bytes stop_write_ratio lead_time []).
(** [relay/diskmonitor.py] DiskMonitor.observe *)
Definition observe (tick : Z) (used_bytes : Z) : act t unit :=
  self ← get;
  raise_if (total_bytes self <? used_bytes) Invalid;;
  b ← pure_of (if negb (bool_decide (samples self = [])) then x ← py_index (samples self) (-1); Ok (tick <=? x.1) else Ok false);
  raise_if (b : bool) Invalid;;
  put (set_samples (samples self ++ [(tick, used_bytes)]) self).
(** [relay/diskmonitor.py] DiskMonitor.net_fill_rate *)
Definition net_fill_rate (self : t) : result float :=
  if zlen (samples self) <? 2 then Err Invalid else
  '(t0, u0) ← py_index (samples self) 0;
  '(t1, u1) ← py_index (samples self) (-1);
  z_truediv (u1 - u0) (t1 - t0).
(** [relay/diskmonitor.py] DiskMonitor.ticks_to_stop *)
Definition ticks_to_stop (self : t) : result string :=
  rate ← net_fill_rate self;
  x ← py_index (samples self) (-1);
  let used := x.2 in
  stop_at ← f_int (f_mul (of_Z (total_bytes self)) (stop_write_ratio self));
  if f_le rate f0 then
    if stop_at <=? used then
      Ok "at the stop mark but holding steady; retention is working, the broker is sized right"
    else
    Ok "free space is stable or growing; no projection needed"
  else
  let remaining := stop_at - used in
  if remaining <=? 0 then
    Ok "already at the stop-write mark; writes halting now"
  else
  q ← f_div (of_Z remaining) rate;
  ticks ← f_int q;
  let verb := if ticks <? lead_time self then "ACTIONABLE" else "informational" in
  Ok (verb +:+ ": disk hits the stop-write mark in about " +:+ zs ticks
        +:+ " tick(s) at the current net fill rate; a decision made with time to spare, not during the incident").
End DiskMonitor.
End diskmonitor.
Import diskmonitor.

Module logdirs.
Module LogDirBalancer.
(** [relay/logdirs.py] class LogDirBalancer *)
Record t := mk {
  disks : list string;
  partition_disk : pydict Z string;
  partition_size : pydict Z Z;
  offline_disks : gset string;
}.
Definition set_partition_disk (v : pydict Z string) (self : t) : t := mk (disks self) v (partition_size self) (offline_disks self).
Definition set_partition_size (v : pydict Z Z) (self : t) : t := mk (disks self) (partition_disk self) v (offline_disks self).
Definition set_offline_disks (v : gset string) (self : t) : t := mk (disks self) (partition_disk self) (partition_size self) v.
(** [relay/logdirs.py] LogDirBalancer.__post_init__ *)
Definition make (disks : list string) : result t :=
  if bool_decide (disks = []) then Err Invalid else
  Ok (mk disks [] [] (∅)).
(** the order of [(bytes_on[d], d)] *)
Definition bytes_then_name (a b : Z * string) : bool :=
  (a.1 <? b.1) || ((a.1 =? b.1) && String.ltb a.2 b.2).
(** [relay/logdirs.py] LogDirBalancer.place *)
Definition place (partition : Z) (size_ : Z) : act t string :=
  self ← get;
  let healthy := py_filter (λ d, negb (bool_decide (d ∈ offline_disks self))) (disks self) in
  raise_if (bool_decide (healthy = [])) Invalid;;
  let bytes_on : pydict string Z := d_of_list ((λ k, (k, 0)) <$> healthy) in
  bytes_on ← for_fold (partition_disk self) bytes_on (λ bytes_on '(p, disk),
    bytes_on ← (if d_mem bytes_on disk then
       v ← pure_of (d_item bytes_on disk);
       self ← get;
       let bytes_on := d_set bytes_on disk (v + (d_getd (partition_size self) p 0)) in
       mret bytes_on
     else
       mret bytes_on);
    mret bytes_on);
  chosen ← pure_of (py_min_key bytes_then_name (λ d, (d_getd bytes_on d 0, d)) healthy);
  self ← get;
  put (set_partition_disk (d_set (partition_disk self) partition chosen) self);;
  self ← get;
  put (set_partition_size (d_set (partition_size self) partition size_) self);;
  mret ("partition " +:+ zs partition +:+ " placed on " +:+ chosen).
(** [relay/logdirs.py] LogDirBalancer.fail_disk *)
Definition fail_disk (disk : string) : act t string :=
  self ← get;
  raise_if (negb (bool_decide (disk ∈ disks self))) Invalid;;
  put (set_offline_disks ({[disk]} ∪ (offline_disks self)) self);;
  self ← get;
  let stranded := py_sorted Z.le ((λ '(p, d), p) <$> (py_filter (λ '(p, d), bool_decide (d = disk)) (partition_disk self))) in
  mret (disk +:+ " failed: " +:+ repr_list zs stranded
        +:+ " offline and need re-replication from other replicas; the broker stays alive for its healthy disks, a bounded blast radius").
(** [relay/logdirs.py] LogDirBalancer.relocate *)
Definition relocate (partition : Z) (sole_replica : bool) : act t string :=
  self ← get;
  raise_if (negb (d_mem (partition_disk self) partition)) Invalid;;
  raise_if (sole_replica : bool) Invalid;;
  v ← pure_of (d_item (partition_size self) partition);
  r ← place partition v;
  mret ("partition " +:+ zs partition +:+ " relocated to balance bytes").
End LogDirBalancer.
End logdirs.
Import logdirs.

Module logdirfailure.
Module LogDirFailure.
(** [relay/logdirfailure.py] class LogDirFailure *)
Record t := mk {
  directories : gset string;
  failed : gset string;
  placement : pydict string string;
}.
Definition set_directories (v : gset string) (self : t) : t := mk v (failed self) (placement self).
Definition set_failed (v : gset string) (self : t) : t := mk (directories self) v (placement self).
Definition set_placement (v : pydict string string) (self : t) : t := mk (directories self) (failed self) v.
Definition new : t := mk (∅) (∅) [].
(** [relay/logdirfailure.py] LogDirFailure.add_directory *)
Definition add_directory (directory : string) : act t unit :=
  self ← get;
  put (set_directories ({[directory]} ∪ (directories self)) self).
(** [relay/logdirfailure.py] LogDirFailure.place *)
Definition place (partition : string) (directory : string) : act t unit :=
  self ← get;
  raise_if (negb (bool_decide (directory ∈ directories self))) Invalid;;
  raise_if (bool_decide (directory ∈ failed self)) Invalid;;
  put (set_placement (d_set (placement self) partition directory) self).
(** [relay/logdirfailure.py] LogDirFailure.fail *)
Definition fail (directory : string) : act t (list string) :=
  self ← get;
  raise_if (negb (bool_decide (directory ∈ directories self))) Invalid;;
  put (set_failed ({[directory]} ∪ (failed self)) self);;
  self ← get;
  mret (py_sorted String.le ((λ '(p, d), p) <$> (py_filter (λ '(p, d), bool_decide (d = directory)) (placement self)))).
(** [relay/logdirfailure.py] LogDirFailure.is_serviceable *)
Definition is_serviceable (self : t) (partition : string) : result bool :=
  if negb (d_mem (placement self) partition) then Err Missing else
  v ← d_item (placement self) partition;
  Ok (negb (bool_decide (v ∈ failed self))).
(** [relay/logdirfailure.py] LogDirFailure.offline_partitions *)
Definition offline_partitions (self : t) : list string :=
  py_sorted String.le ((λ '(p, d), p) <$> (py_filter (λ '(p, d), bool_decide (d ∈ failed self)) (placement self))).
(** [relay/logdirfailure.py] LogDirFailure.broker_down *)
Definition broker_down (self : t) : bool :=
  (negb (bool_decide (directories self = ∅))) && (bool_decide (directories self ⊆ failed self)).
(** [relay/logdirfailure.py] LogDirFailure.note *)
Definition note (self : t) : string :=
  let online := Z.of_nat (base.size (directories self)) - (Z.of_nat (base.size (failed self))) in
  let offline := zlen (offline_partitions self) in
  zs online +:+ " online directory/ies, " +:+ zs (Z.of_nat (base.size (failed self)))
        +:+ " failed, " +:+ zs offline
        +:+ " partition(s) offline; that offline count is the blast radius per-directory handling exists to keep small".
End LogDirFailure.
End logdirfailure.
Import logdirfailure.

Module logdirfailover.
Module LogDirManager.
(** [relay/logdirfailover.py] class LogDirManager *)
Record t := mk { dir_partitions : pydict string (gset string); failed : gset string; }.
Definition set_failed (v : gset string) (self : t) : t := mk (dir_partitions self) v.
Definition new : t := mk [] (∅).
(** [relay/logdirfailover.py] LogDirManager.offline_partitions *)
Definition offline_partitions (self : t) : gset string :=
  let offline : gset string := ∅ in
  let offline := foldl (λ offline d,
    let offline := offline ∪ (d_getd (dir_partitions self) d (∅)) in
    offline) offline (elements (failed self)) in
  offline.
(** [relay/logdirfailover.py] LogDirManager.all_failed *)
Definition all_failed (self : t) : bool :=
  (negb (bool_decide (dir_partitions self = []))) && (bool_decide (failed self = list_to_set (d_keys (dir_partitions self)))).
(** [relay/logdirfailover.py] LogDirManager.fail_dir *)
Definition fail_dir (path : string) : act t string :=
  self ← get;
  raise_if (negb (d_mem (dir_partitions self) path)) Invalid;;
  raise_if (bool_decide (path ∈ failed self)) Invalid;;
  put (set_failed ({[path]} ∪ (failed self)) self);;
  self ← get;
  let moved := d_getd (dir_partitions self) path (∅) in
  if all_failed self then
    mret ("log dir '" +:+ path
          +:+ "' failed; every dir is now down, the broker has no working storage and shuts down rather than pretending to serve")
  else
  mret ("log dir '" +:+ path +:+ "' failed, " +:+ zs (Z.of_nat (base.size moved))
        +:+ " partition(s) offline; the broker serves the healthy dirs on").
(** [relay/logdirfailover.py] LogDirManager.surviving_dirs *)
Definition surviving_dirs (self : t) : list string :=
  py_sorted String.le (elements ((list_to_set (d_keys (dir_partitions self))) ∖ (failed self))).
(** [relay/logdirfailover.py] LogDirManager.report *)
Definition report (self : t) : string :=
  zs (zlen (surviving_dirs self)) +:+ " surviving dir(s), "
        +:+ zs (Z.of_nat (base.size (failed self))) +:+ " failed, "
        +:+ zs (Z.of_nat (base.size (offline_partitions self)))
        +:+ " partition(s) offline for the controller to move".
End LogDirManager.
End logdirfailover.
Import logdirfailover.

Module describelogdirs.
Module LogDir.
(** [relay/describelogdirs.py] class LogDir *)
Record t := mk { path : string; partition_sizes : pydict string Z; offline : bool; }.
Definition new (path : string) : t := mk path [] false.
(** [relay/describelogdirs.py] LogDir.total *)
Definition total (self : t) : result Z :=
  if offline self then Err Invalid else
  Ok (zsum id (d_values (partition_sizes self))).
(** [relay/describelogdirs.py] LogDir.largest_partition *)
Definition largest_partition (self : t) : result (string * Z) :=
  if bool_decide (partition_sizes self = []) then
    Ok ("", 0)
  else
  name ← py_max_key Z.ltb (λ k, d_getd (partition_sizes self) k 0) (d_keys (partition_sizes self));
  v ← d_item (partition_sizes self) name;
  Ok (name, v).
End LogDir.
Module LogDirsReport.
(** [relay/describelogdirs.py] class LogDirsReport *)
Record t := mk { dirs : list LogDir.t; }.
Definition new : t := mk [].
(** [relay/describelogdirs.py] LogDirsReport.imbalance *)
Definition imbalance (self : t) : result string :=
  let live := py_filter (λ d, negb (LogDir.offline d)) (dirs self) in
  if zlen live <? 2 then
    Ok "fewer than two live dirs; nothing to balance"
  else
  xs ← mapM (λ d, r ← LogDir.total d; Ok (LogDir.path d, r)) live;
  let totals := d_of_list xs in
  fullest ← py_max_key Z.ltb (λ k, d_getd totals k 0) (d_keys totals);
  emptiest ← py_min_key Z.ltb (λ k, d_getd totals k 0) (d_keys totals);
  v ← d_item totals fullest;
  v1 ← d_item totals emptiest;
  let gap := v - v1 in
  heavy ← match py_filter (λ d, bool_decide (LogDir.path d = fullest)) live with
          | d :: _ => LogDir.largest_partition d
          | [] => Err IndexError (* [StopIteration]: the fullest is one of them *)
          end;
  let '(heavy_name, heavy_size) := heavy in
  Ok (fullest +:+ " is " +:+ zs gap +:+ " byte(s) fuller than " +:+ emptiest +:+ "; its largest partition "
      +:+ heavy_name +:+ " holds " +:+ zs heavy_size
      +:+ ", which must move itself to relieve the disk, not other partitions around it").
(** [relay/describelogdirs.py] LogDirsReport.offline_dirs *)
Definition offline_dirs (self : t) : list string :=
  (λ d, LogDir.path d) <$> (py_filter (λ d, LogDir.offline d) (dirs self)).
End LogDirsReport.
End describelogdirs.
Import describelogdirs.

Module compactionlag.
(** [relay/compactionlag.py] NOT_YET *)
Definition NOT_YET : string := "not-yet-eligible".
(** [relay/compactionlag.py] ELIGIBLE *)
Definition ELIGIBLE : string := "eligible".
(** [relay/compactionlag.py] OVERDUE *)
Definition OVERDUE : string := "overdue".
Module CompactionLag.
(** [relay/compactionlag.py] class CompactionLag *)
Record t := mk { min_lag : Z; max_lag : Z; }.
(** [relay/compactionlag.py] CompactionLag.__post_init__ *)
Definition make (min_lag : Z) (max_lag : Z) : result t :=
  if (min_lag <? 0) || (max_lag <? 0) then Err Invalid else
  if max_lag <? min_lag then Err Invalid else
  Ok (mk min_lag max_lag).
(** [relay/compactionlag.py] CompactionLag.classify *)
Definition classify (self : t) (age : Z) : string :=
  if age <? min_lag self then
    NOT_YET
  else
  if max_lag self <? age then
    OVERDUE
  else
  ELIGIBLE.
(** [relay/compactionlag.py] CompactionLag.status *)
Definition status (self : t) (age : Z) : string :=
  let state := classify self age in
  if bool_decide (state = NOT_YET) then
    "not eligible for " +:+ zs (min_lag self - age)
          +:+ " more; the minimum lag keeps it visible to consumers first"
  else
  if bool_decide (state = OVERDUE) then
    "overdue by " +:+ zs (age - (max_lag self))
          +:+ "; compaction is behind its deadline and a deletion promise is at risk"
  else
  "eligible; compaction may take it, " +:+ zs (max_lag self - age) +:+ " before overdue".
End CompactionLag.
End compactionlag.
Import compactionlag.

Module tombstoneretention.
Module TombstoneRetention.
(** [relay/tombstoneretention.py] class TombstoneRetention *)
Record t := mk { retention_ms : Z; }.
(** [relay/tombstoneretention.py] TombstoneRetention.__post_init__ *)
Definition make (retention_ms : Z) : result t :=
  if retention_ms <? 0 then Err Invalid else
  Ok (mk retention_ms).
(** [relay/tombstoneretention.py] TombstoneRetention.removal_deadline *)
Definition removal_deadline (self : t) (eligible_at_ms : Z) : Z :=
  eligible_at_ms + (retention_ms self).
(** [relay/tombstoneretention.py] TombstoneRetention.may_remove *)
Definition may_remove (self : t) (eligible_at_ms : Z) (now_ms : Z) : bool :=
  removal_deadline self eligible_at_ms <=? now_ms.
(** [relay/tombstoneretention.py] TombstoneRetention.check_removal *)
Definition check_removal (self : t) (eligible_at_ms : Z) (now_ms : Z) : result string :=
  let deadline := removal_deadline self eligible_at_ms in
  if now_ms <? deadline then Err Invalid else
  Ok ("tombstone may be removed; grace elapsed at " +:+ zs deadline).
(** [relay/tombstoneretention.py] TombstoneRetention.note *)
Definition note (self : t) (eligible_at_ms : Z) (now_ms : Z) : string :=
  let deadline := removal_deadline self eligible_at_ms in
  let state := if deadline <=? now_ms then "past grace" else "in grace" in
  "tombstone " +:+ state +:+ ", removable at " +:+ zs deadline +:+ ", now " +:+ zs now_ms
        +:+ "; too short and a lagging consumer misses the delete, too long and the key lingers after it is logically gone".
End TombstoneRetention.
End tombstoneretention.
Import tombstoneretention.

Module deleteretention.
Module Tombstone.
(** [relay/deleteretention.py] class Tombstone *)
Record t := mk { key : bytes; offset : Z; eligible_at : Z; }.
End Tombstone.
Module DeleteRetention.
(** [relay/deleteretention.py] class DeleteRetention *)
Record t := mk { retention_ticks : Z; }.
(** [relay/deleteretention.py] DeleteRetention.__post_init__ *)
Definition make (retention_ticks : Z) : result t :=
  if retention_ticks <? 1 then Err Invalid else
  Ok (mk retention_ticks).
(** [relay/deleteretention.py] DeleteRetention.removable *)
Definition removable (self : t) (tombstone : Tombstone.t) (now : Z) (min_consumer_offset : Z) : bool :=
  let aged := retention_ticks self <=? now - (Tombstone.eligible_at tombstone) in
  let read := Tombstone.offset tombstone <? min_consumer_offset in
  aged && read.
(** [relay/deleteretention.py] DeleteRetention.explain *)
Definition explain (self : t) (tombstone : Tombstone.t) (now : Z) (min_consumer_offset : Z) : string :=
  let aged := retention_ticks self <=? now - (Tombstone.eligible_at tombstone) in
  let read := Tombstone.offset tombstone <? min_consumer_offset in
  if aged && read then
    "tombstone for " +:+ repr_bytes (Tombstone.key tombstone)
          +:+ " removable: aged past retention and read by every consumer"
  else
  if (negb aged) && (negb read) then
    "tombstone for " +:+ repr_bytes (Tombstone.key tombstone)
          +:+ " held on both: still young and still unread by a consumer"
  else
  if negb aged then
    "tombstone for " +:+ repr_bytes (Tombstone.key tombstone)
          +:+ " held on the clock; waiting out delete-retention, raise nothing"
  else
  "tombstone for " +:+ repr_bytes (Tombstone.key tombstone)
        +:+ " held on a reader; aged out but a consumer has not read past it, find the stuck reader".
End DeleteRetention.
End deleteretention.
Import deleteretention.

Module writeamplification.
Module WriteAmplification.
(** [relay/writeamplification.py] class WriteAmplification *)
Record t := mk {
  client_bytes : Z;
  replication_factor : Z;
  compaction_rewrites : Z;
  index_bytes : Z;
}.
(** [relay/writeamplification.py] WriteAmplification.__post_init__ *)
Definition make (client_bytes : Z) (replication_factor : Z) (compaction_rewrites : Z) (index_bytes : Z) : result t :=
  if client_bytes <? 1 then Err Invalid else
  if (replication_factor <? 1) || (compaction_rewrites <? 0) || (index_bytes <? 0) then Err Invalid else
  Ok (mk client_bytes replication_factor compaction_rewrites index_bytes).
(** [relay/writeamplification.py] WriteAmplification.replication_bytes *)
Definition replication_bytes (self : t) : Z :=
  (client_bytes self) * (replication_factor self).
(** [relay/writeamplification.py] WriteAmplification.compaction_bytes *)
Definition compaction_bytes (self : t) : Z :=
  (client_bytes self) * (compaction_rewrites self).
(** [relay/writeamplification.py] WriteAmplification.total_written *)
Definition total_written (self : t) : Z :=
  replication_bytes self + (compaction_bytes self) + (index_bytes self).
(** [relay/writeamplification.py] WriteAmplification.ratio *)
Definition ratio (self : t) : result float :=
  z_truediv (total_written self) (client_bytes self).
(** [relay/writeamplification.py] WriteAmplification.dominant *)
Definition dominant (self : t) : result string :=
  let parts := [("replication", replication_bytes self); ("compaction", compaction_bytes self); ("index", index_bytes self)] in
  py_max_key Z.ltb (λ k, d_getd parts k 0) (d_keys parts).
(** [relay/writeamplification.py] WriteAmplification.report *)
Definition report (self : t) : result string :=
  top ← dominant self;
  hint ← d_item [("replication", "the factor you chose, not tunable without durability"); ("compaction", "compacting too aggressively, relax the trigger"); ("index", "index overhead, usually small")] top;
  r ← ratio self;
  Ok (fmt_fixed 1 r +:+ "x write amplification, dominated by " +:+ top +:+ ": " +:+ hint
        +:+ "; disk IO far above client throughput is one of these three").
End WriteAmplification.
End writeamplification.
Import writeamplification.

Module compression.
(** [relay/compression.py] CODECS *)
Definition CODECS : pydict string (float * Z) := [("none", (of_Z 1, 0)); ("fast", (of_Z 2, 1)); ("balanced", (of_Z 3, 3)); ("high", (of_Z 4, 8))].
Module Workload.
(** [relay/compression.py] class Workload *)
Record t := mk { binding_resource : string; avg_batch_records : Z; }.
(** [relay/compression.py] Workload.__post_init__ *)
Definition make (binding_resource : string) (avg_batch_records : Z) : result t :=
  if negb (bool_decide (binding_resource ∈ ["network"; "cpu"])) then Err Invalid else
  if avg_batch_records <? 1 then Err Invalid else
  Ok (mk binding_resource avg_batch_records).
End Workload.
(** [relay/compression.py] recommend_codec *)
Definition recommend_codec (workload : Workload.t) : string :=
  if Workload.avg_batch_records workload <? 4 then
    "fix batching first: high-ratio compression on tiny batches pays full CPU for almost no ratio, too little data to find redundancy; raise linger, not the codec"
  else
  if bool_decide (Workload.binding_resource workload = "network") then
    "codec high: network-bound, so spend CPU for ratio and pay it back in bytes on an expensive link"
  else
  "codec fast: cpu-bound, so a ratio computed by stealing cycles from real work is a false economy".
(** [relay/compression.py] effective_ratio *)
Definition effective_ratio (codec : string) (batch_records : Z) : result float :=
  if negb (d_mem CODECS codec) then Err Invalid else
  v ← d_item CODECS codec;
  let '(nominal, _) := v in
  if batch_records <? 4 then
    q ← z_truediv batch_records 4;
    Ok (f_add (of_Z 1) (f_mul (f_sub nominal (of_Z 1)) q))
  else
  Ok nominal.
(** [relay/compression.py] cpu_cost *)
Definition cpu_cost (codec : string) : result Z :=
  if negb (d_mem CODECS codec) then Err Invalid else
  v ← d_item CODECS codec;
  Ok v.2.
End compression.
Import compression.


(** ** Rebuilding the index *)

Section rebuild.
Import IndexRebuilder.
Implicit Types self : t.

(** the entry of an offset of the log, if the interval gives it one *)
Definition entry_at (interval : Z) (positions : pydict Z Z) (o : Z) : option (Z * Z) :=
  if o mod interval =? 0 then (λ v, (o, v)) <$> d_get positions o else None.
(** the index of the log from one offset up to another, and of the whole log *)
Definition index_from (interval : Z) (positions : pydict Z Z) (from to : Z) : list (Z * Z) := omap (entry_at interval positions) (seqZ from (to - from)).
Definition full_index (interval : Z) (positions : pydict Z Z) (log_end : Z) : list (Z * Z) := index_from interval positions 0 log_end.

Definition last_indexed (l : list (Z * Z)) : Z := default (-1) (fst <$> last l).
Definition rebuild_body (positions : pydict Z Z) (rebuilt : list (Z * Z)) (offset : Z) : act t (list (Z * Z)) :=
    self ← get;
    r1 ← pure_of (py_mod offset (interval self));
    rebuilt ← (if (r1 =? 0) && (d_mem positions offset) then
       v ← pure_of (d_item positions offset);
       let rebuilt := rebuilt ++ [(offset, v)] in
       mret rebuilt
     else
       mret rebuilt);
    mret rebuilt.

Lemma rebuild_loop positions l rebuilt self : 1 <= interval self →
  for_fold l rebuilt (rebuild_body positions) self = (self, Ok (rebuilt ++ omap (entry_at (interval self) positions) l)).
Proof.
  intros Hi. revert rebuilt. induction l as [|o l IH]; intros rebuilt; [by rewrite app_nil_r|].
  cbn [for_fold]. rewrite bind_run. assert (rebuild_body positions rebuilt o self =
    (self, Ok (match entry_at (interval self) positions o with Some e => rebuilt ++ [e] | None => rebuilt end))) as ->.
  { unfold rebuild_body, entry_at, py_mod. rewrite bind_get, (proj2 (Z.eqb_neq (interval self) 0)) by lia. rewrite bind_pure_of, d_mem_get.
    destruct (_ =? 0); cbn [andb]; [|done]. unfold d_item. by destruct (d_get positions o). }
  rewrite IH. cbn [omap list_omap]. destruct (entry_at _ _ _); [by rewrite <- app_assoc|done].
Qed.

Lemma rebuild_last self : (if negb (bool_decide (entries self = [])) then x ← py_index (entries self) (-1); Ok x.1 else Ok (-1)) = Ok (last_indexed (entries self)).
Proof.
  unfold last_indexed. destruct (entries self) as [|e l _] using rev_ind; [done|].
  rewrite bool_decide_eq_false_2 by (by destruct l). cbn [negb]. by rewrite py_index_last, last_snoc.
Qed.

Lemma rebuild_run positions self : 1 <= interval self → state_of (rebuild positions) self =
  if log_end self - 1 <? last_indexed (entries self) then self
  else if is_corrupt self then mk (interval self) (log_end self) (full_index (interval self) positions (log_end self))
  else mk (interval self) (log_end self) (entries self ++ index_from (interval self) positions (last_indexed (entries self) + 1) (log_end self)).
Proof.
  intros Hi. unfold state_of, rebuild. rewrite bind_get, rebuild_last, bind_pure_of, bind_raise_if. destruct (_ <? _); [done|].
  destruct (is_corrupt self).
  - rewrite bind_assoc, bind_put, bind_ret, bind_get, bind_run.
    change (for_fold _ _ _) with (for_fold (py_range 0 (log_end self)) [] (rebuild_body positions)). rewrite rebuild_loop by done. done.
  - rewrite bind_ret, bind_get, bind_run.
    change (for_fold _ _ _) with (for_fold (py_range (last_indexed (entries self) + 1) (log_end self)) (entries self) (rebuild_body positions)).
    rewrite rebuild_loop by done. done.
Qed.

Lemma index_from_app i ps a b c : a <= b <= c → index_from i ps a c = index_from i ps a b ++ index_from i ps b c.
Proof.
  intros H. unfold index_from. rewrite <- omap_app. f_equal. replace (c - a) with ((b - a) + (c - b)) by lia.
  rewrite seqZ_app by lia. do 2 f_equal; lia.
Qed.
Lemma index_from_elem i ps a b o v : (o, v) ∈ index_from i ps a b ↔ a <= o < b ∧ o mod i = 0 ∧ d_get ps o = Some v.
Proof.
  unfold index_from, entry_at. rewrite list_elem_of_omap. split.
  - intros (o' & Ho%elem_of_seqZ & Hv). destruct (Z.eqb_spec (o' mod i) 0) as [Hm|]; [|done].
    destruct (d_get ps o') as [v'|] eqn:Hg; [|done]. cbn in Hv. injection Hv as <- <-. split_and!; [lia..|done|done].
  - intros (Ho & Hm & Hv). exists o. rewrite elem_of_seqZ. split; [lia|]. by rewrite Hm, Hv.
Qed.
Lemma index_from_sorted i ps a b : StronglySorted (λ p q, p.1 < q.1) (index_from i ps a b).
Proof.
  unfold index_from. pose proof (StronglySorted_seqZ a (b - a)) as Hs. induction Hs as [|o l Hs IH Ho]; [constructor|].
  cbn [omap list_omap]. destruct (entry_at i ps o) as [[o' v]|] eqn:He; [|done]. constructor; [done|].
  rewrite Forall_forall in Ho. apply Forall_forall. intros [p w] Hp. apply list_elem_of_omap in Hp as (q & Hq & Hpw). specialize (Ho q Hq). cbn.
  unfold entry_at in He, Hpw. destruct (o mod i =? 0), (q mod i =? 0); try done.
  destruct (d_get ps o), (d_get ps q); try done. cbn in *. simplify_eq. lia.
Qed.

Lemma not_increasing_spec l : not_increasing l = false ↔ StronglySorted (λ p q : Z * Z, p.1 < q.1) l.
Proof.
  split.
  - intros H. apply Sorted_StronglySorted; [intros p q r; lia|]. induction l as [|p [|q l] IH]; [constructor|repeat constructor|].
    cbn [not_increasing] in H. apply orb_false_iff in H as [H1%Z.leb_gt H2]. constructor; [by apply IH|]. constructor. lia.
  - induction 1 as [|p l Hs IH Hp]; [done|]. destruct l as [|q l]; [done|].
    change (not_increasing (p :: q :: l)) with ((q.1 <=? p.1) || not_increasing (q :: l)). apply Forall_inv in Hp. rewrite IH, (proj2 (Z.leb_gt q.1 p.1)) by done. done.
Qed.

(** cutting the whole index after its first entries leaves the index up to the next offset *)
Lemma index_prefix i ps l k b : full_index i ps b = l ++ k → last_indexed l < b ∨ l = [] →
  k = index_from i ps (last_indexed l + 1) b ∧ -1 <= last_indexed l.
Proof.
  intros Hfull Hlast. unfold last_indexed in *. destruct l as [|[o v] l _] using rev_ind.
  { cbn. split; [|lia]. symmetry. exact Hfull. }
  rewrite last_snoc in *. cbn in *. clear Hlast.
  assert ((o, v) ∈ full_index i ps b) as Hin by (rewrite Hfull, !elem_of_app; left; right; left).
  pose proof Hin as (Hob & _ & _)%index_from_elem. split; [|lia].
  pose proof (index_from_sorted i ps 0 b) as Hs. unfold full_index in Hfull.
  assert (∀ x, x ∈ l ++ [(o, v)] → x.1 < o + 1) as Hleft.
  { intros x [Hx| ->%list_elem_of_singleton]%elem_of_app; [|cbn; lia]. rewrite Hfull, <- app_assoc in Hs.
    pose proof (StronglySorted_app_1_elem_of _ l ([(o, v)] ++ k) x (o, v) Hs Hx ltac:(left)) as H. cbn in H. lia. }
  assert (∀ x, x ∈ k → o + 1 <= x.1) as Hright.
  { intros x Hx. rewrite Hfull in Hs. pose proof (StronglySorted_app_1_elem_of _ (l ++ [(o, v)]) k (o, v) x Hs) as H. cbn in H.
    specialize (H ltac:(apply elem_of_app; right; left) Hx). lia. }
  assert (py_filter (λ p, o + 1 <=? p.1) (index_from i ps 0 b) = k) as <-.
  { rewrite Hfull, py_filter_app. rewrite (proj2 (py_filter_nil_iff _ (l ++ _))) by (intros x Hx; apply Z.leb_gt; by apply Hleft).
    apply list_filter_all. intros x Hx. apply Z.leb_le. by apply Hright. }
  rewrite (index_from_app i ps 0 (o + 1) b), py_filter_app by lia.
  rewrite (proj2 (py_filter_nil_iff _ (index_from i ps 0 (o + 1)))), app_nil_l.
  - apply list_filter_all. intros [p w] Hp%index_from_elem. apply Z.leb_le. cbn. lia.
  - intros [p w] Hp%index_from_elem. apply Z.leb_gt. cbn. lia.
Qed.
End rebuild.

(** Also (equivalence): a rebuilt index is the index of the log, however much of it was left.  Where the entries left are a
    beginning of the whole index (the crash cut it short) and where they are out of order (a torn write), the rebuild ends
    with exactly the index a scan of the whole log gives: one entry for each offset of the log that is a
    multiple of the interval and has a position, in order; the result is not corrupt and rebuilding
    again changes nothing.  An index that points past the log is refused and left as it is. *)
Theorem index_rebuild_exact (interval log_end : Z) (positions : pydict Z Z) (r0 : IndexRebuilder.t) (entries : list (Z * Z))
    (Hmake : IndexRebuilder.make interval log_end = Ok r0)
    (Hleft : (∃ rest, full_index interval positions log_end = entries ++ rest) ∨ IndexRebuilder.not_increasing entries = true) :
  let r := IndexRebuilder.set_entries entries r0 in
  let r' := state_of (IndexRebuilder.rebuild positions) r in
  (last_indexed entries < log_end → IndexRebuilder.entries r' = full_index interval positions log_end ∧
    IndexRebuilder.is_corrupt r' = false ∧ state_of (IndexRebuilder.rebuild positions) r' = r') ∧
  (log_end <= last_indexed entries → r' = r ∧ value_of (IndexRebuilder.rebuild positions) r = Err Invalid) ∧
  (∀ o v, (o, v) ∈ full_index interval positions log_end ↔ 0 <= o < log_end ∧ o mod interval = 0 ∧ d_get positions o = Some v) ∧
  StronglySorted (λ p q, p.1 < q.1) (full_index interval positions log_end).
Proof.
  intros r r'. unfold IndexRebuilder.make in Hmake. destruct (Z.ltb_spec interval 1) as [|Hi]; [done|]. injection Hmake as <-.
  assert (IndexRebuilder.not_increasing (full_index interval positions log_end) = false) as Hfull by (apply not_increasing_spec, index_from_sorted).
  split_and!; [|..|intros o v; apply index_from_elem|apply index_from_sorted].
  - intros Hlast. assert (r' = IndexRebuilder.mk interval log_end (full_index interval positions log_end)) as Hr'.
    { unfold r', r. rewrite rebuild_run by done. cbn [IndexRebuilder.set_entries IndexRebuilder.interval IndexRebuilder.log_end IndexRebuilder.entries].
      rewrite (proj2 (Z.ltb_ge _ _)) by lia. unfold IndexRebuilder.is_corrupt. cbn [IndexRebuilder.set_entries IndexRebuilder.entries].
      destruct (IndexRebuilder.not_increasing entries) eqn:Hc; [done|]. destruct Hleft as [[rest Hrest]|?]; [|done].
      destruct (index_prefix interval positions entries rest log_end Hrest) as [Hk _]; [by left|]. by rewrite <- Hk, Hrest. }
    split_and!; [by rewrite Hr'|by rewrite Hr'|]. rewrite Hr', rebuild_run by done.
    cbn [IndexRebuilder.interval IndexRebuilder.log_end IndexRebuilder.entries]. destruct (Z.ltb_spec (log_end - 1) (last_indexed (full_index interval positions log_end))) as [|Hle]; [done|].
    unfold IndexRebuilder.is_corrupt. cbn [IndexRebuilder.entries]. rewrite Hfull. f_equal.
    destruct (index_prefix interval positions (full_index interval positions log_end) [] log_end) as [Hk _].
    { by rewrite app_nil_r. }
    { left. lia. }
    by rewrite <- Hk, app_nil_r.
  - intros Hlast. assert (r' = r) as Hr by (unfold r', r; rewrite rebuild_run by done; cbn [IndexRebuilder.set_entries IndexRebuilder.log_end IndexRebuilder.entries];
      by rewrite (proj2 (Z.ltb_lt (log_end - 1) (last_indexed entries))) by lia).
    split; [done|]. unfold value_of, IndexRebuilder.rebuild. rewrite bind_get, rebuild_last, bind_pure_of, bind_raise_if.
    unfold r. cbn [IndexRebuilder.set_entries IndexRebuilder.log_end IndexRebuilder.entries].
    by rewrite (proj2 (Z.ltb_lt (log_end - 1) (last_indexed entries))) by lia.
Qed.

Lemma index_rebuild_exact_witness :
  let positions := [(0, 0); (2, 70); (4, 150); (6, 230)] in
  let r := IndexRebuilder.set_entries [(0, 0); (2, 70)] (IndexRebuilder.mk 2 7 []) in
  let r' := state_of (IndexRebuilder.rebuild positions) r in
  (last_indexed [(0, 0); (2, 70)] < 7 → IndexRebuilder.entries r' = full_index 2 positions 7 ∧
    IndexRebuilder.is_corrupt r' = false ∧ state_of (IndexRebuilder.rebuild positions) r' = r') ∧
  (7 <= last_indexed [(0, 0); (2, 70)] → r' = r ∧ value_of (IndexRebuilder.rebuild positions) r = Err Invalid) ∧
  (∀ o v, (o, v) ∈ full_index 2 positions 7 ↔ 0 <= o < 7 ∧ o mod 2 = 0 ∧ d_get positions o = Some v) ∧
  StronglySorted (λ p q, p.1 < q.1) (full_index 2 positions 7).
Proof.
  apply (index_rebuild_exact 2 7 [(0, 0); (2, 70); (4, 150); (6, 230)] (IndexRebuilder.mk 2 7 []) [(0, 0); (2, 70)]).
  - reflexivity.
  - left. exists [(4, 150); (6, 230)]. reflexivity.
Defined.

(** ** Deleting a segment *)

Section deletion.
Import SegmentDeletion.

Inductive seg_op := Rename (now readers : Z) | Finished | Try_unlink (now : Z).
Definition seg_step (o : seg_op) : t → t :=
  match o with
  | Rename now readers => state_of (rename now readers)
  | Finished => state_of reader_finished
  | Try_unlink now => state_of (try_unlink now)
  end.

Lemma rename_run now readers s : state_of (rename now readers) s =
  if 0 <=? renamed_at s then s else mk (delay_ticks s) now readers (finished s) (unlinked s).
Proof. unfold state_of, rename. rewrite bind_get, bind_raise_if. by destruct (_ <=? _). Qed.
Lemma unlink_run now s : state_of (try_unlink now) s =
  if (renamed_at s <? 0) || ((now - renamed_at s <? delay_ticks s) && (0 <? open_readers s - finished s)) then s
  else mk (delay_ticks s) (renamed_at s) (open_readers s) (finished s) true.
Proof.
  unfold state_of, try_unlink. rewrite bind_get, bind_raise_if. destruct (_ <? 0); [done|]. rewrite bind_raise_if.
  cbn [orb]. by destruct (_ && _).
Qed.
Lemma finished_run s : state_of reader_finished s =
  if finished s <? open_readers s then mk (delay_ticks s) (renamed_at s) (open_readers s) (finished s + 1) (unlinked s) else s.
Proof. unfold state_of, reader_finished. rewrite bind_get. by destruct (_ <? _). Qed.

End deletion.

(** Also (safety): once the delay is over a segment is unlinked whether or not a read that was open when it was renamed
    is still active: after a rename with readers, no number of the readers finishing is needed.  Before
    the delay is over the unlink waits for all of them, and a segment never renamed is not unlinked. *)
Theorem unlink_waits_only_for_delay (delay now readers later : Z) (s0 : SegmentDeletion.t)
    (Hmake : SegmentDeletion.make delay = Ok s0) (Hnow : 0 <= now) :
  let s := seg_step (Rename now readers) s0 in
  SegmentDeletion.renamed_at s = now ∧ SegmentDeletion.open_readers s = readers ∧
  (SegmentDeletion.unlinked (seg_step (Try_unlink later) s) = true ↔ now + delay <= later ∨ readers <= 0) ∧
  (∀ n, let s := Nat.iter n (seg_step Finished) s in
    SegmentDeletion.finished s = Z.max 0 (Z.min (Z.of_nat n) readers) ∧
    (SegmentDeletion.unlinked (seg_step (Try_unlink later) s) = true ↔ now + delay <= later ∨ readers <= Z.of_nat n)) ∧
  SegmentDeletion.unlinked (seg_step (Try_unlink later) s0) = false.
Proof.
  unfold SegmentDeletion.make in Hmake. destruct (Z.ltb_spec delay 1) as [|Hd]; [done|]. injection Hmake as <-.
  intros s. assert (s = SegmentDeletion.mk delay now readers 0 false) as -> by (unfold s; cbn [seg_step]; by rewrite rename_run).
  assert (∀ f, 0 <= f → SegmentDeletion.unlinked (seg_step (Try_unlink later) (SegmentDeletion.mk delay now readers f false)) = true ↔
    now + delay <= later ∨ readers <= f) as Hunlink.
  { intros f Hf. cbn [seg_step]. rewrite unlink_run. cbn [SegmentDeletion.renamed_at SegmentDeletion.delay_ticks SegmentDeletion.open_readers SegmentDeletion.finished].
    rewrite (proj2 (Z.ltb_ge now 0)) by done. cbn [orb]. destruct (Z.ltb_spec (later - now) delay), (Z.ltb_spec 0 (readers - f)); cbn; split; intros; try done; lia. }
  split_and!; [done|done|by apply (Hunlink 0)| |done].
  intros n. cbn zeta. assert (Nat.iter n (seg_step Finished) (SegmentDeletion.mk delay now readers 0 false) =
    SegmentDeletion.mk delay now readers (Z.max 0 (Z.min (Z.of_nat n) readers)) false) as ->.
  { induction n as [|n IH]; [cbn; f_equal; lia|]. change (Nat.iter (S n) ?f ?x) with (f (Nat.iter n f x)). rewrite IH. cbn [seg_step]. rewrite finished_run.
    cbn [SegmentDeletion.finished SegmentDeletion.open_readers SegmentDeletion.delay_ticks SegmentDeletion.renamed_at SegmentDeletion.unlinked].
    destruct (Z.ltb_spec (Z.max 0 (Z.min (Z.of_nat n) readers)) readers); f_equal; lia. }
  split; [done|]. rewrite Hunlink by lia. lia.
Qed.

(** ** Placing partitions on disks *)

Section placement.
Import LogDirBalancer.
Implicit Types self : t.

Definition healthy self : list string := py_filter (λ d, negb (bool_decide (d ∈ offline_disks self))) (disks self).
(** the bytes placed on a disk *)
Definition load self (disk : string) : Z :=
  zsum (λ '(p, d), if bool_decide (d = disk) then d_getd (partition_size self) p 0 else 0) (partition_disk self).

Definition bytes_body (bytes_on : pydict string Z) : Z * string → act t (pydict string Z) := λ '(p, disk),
    bytes_on ← (if d_mem bytes_on disk then
       v ← pure_of (d_item bytes_on disk);
       self ← get;
       let bytes_on := d_set bytes_on disk (v + (d_getd (partition_size self) p 0)) in
       mret bytes_on
     else
       mret bytes_on);
    mret bytes_on.

Lemma bytes_loop self l bytes_on : ∃ b, for_fold l bytes_on bytes_body self = (self, Ok b) ∧
  (∀ k, d_mem b k = d_mem bytes_on k) ∧
  ∀ k, d_mem bytes_on k = true → d_getd b k 0 = d_getd bytes_on k 0 + zsum (λ '(p, d), if bool_decide (d = k) then d_getd (partition_size self) p 0 else 0) l.
Proof.
  revert bytes_on. induction l as [|[p d] l IH]; intros b; [exists b; split_and!; [done..|]; intros k _; cbn; lia|].
  cbn [for_fold]. rewrite bind_run.
  assert (bytes_body b (p, d) self = (self, Ok (if d_mem b d then d_set b d (d_getd b d 0 + d_getd (partition_size self) p 0) else b))) as ->.
  { unfold bytes_body. rewrite d_mem_get. destruct (d_get b d) as [v|] eqn:Hv; [|done]. unfold d_item, d_getd. by rewrite Hv. }
  destruct (d_mem b d) eqn:Hd.
  - destruct (IH (d_set b d (d_getd b d 0 + d_getd (partition_size self) p 0))) as (b' & Hrun & Hmem & Hsum). exists b'.
    assert (∀ k, d_mem (d_set b d (d_getd b d 0 + d_getd (partition_size self) p 0)) k = d_mem b k) as Hsame.
    { intros k. rewrite !d_mem_get, d_get_set. case_bool_decide as Hk; [|done]. subst k. rewrite d_mem_get in Hd. by destruct (d_get b d). }
    split_and!; [done|intros k; by rewrite Hmem|]. intros k Hk. rewrite Hsum by (by rewrite Hsame). rewrite zsum_cons, d_getd_set.
    case_bool_decide as Hkd; [subst k; rewrite bool_decide_eq_true_2 by done|rewrite bool_decide_eq_false_2 by congruence]; lia.
  - destruct (IH b) as (b' & Hrun & Hmem & Hsum). exists b'. split_and!; [done..|]. intros k Hk. rewrite Hsum, zsum_cons by done.
    rewrite bool_decide_eq_false_2; [lia|]. intros ->. congruence.
Qed.

Lemma least_first {A} (f : A → Z * string) l x : py_min_key bytes_then_name f l = Ok x → x ∈ l ∧ ∀ y, y ∈ l → (f x).1 <= (f y).1.
Proof.
  intros Hx. split; [by eapply py_min_key_elem|]. destruct l as [|z l]; [done|]. injection Hx as <-. revert z.
  induction l as [|w l IH]; intros z y Hy; cbn [foldl]; [by apply list_elem_of_singleton in Hy as ->|].
  assert (bytes_then_name (f w) (f z) = true → (f w).1 <= (f z).1) as H1.
  { unfold bytes_then_name. rewrite orb_true_iff, andb_true_iff, Z.ltb_lt, Z.eqb_eq. lia. }
  assert (bytes_then_name (f w) (f z) = false → (f z).1 <= (f w).1) as H2.
  { unfold bytes_then_name. rewrite orb_false_iff, Z.ltb_ge. intros [? _]. lia. }
  pose proof (IH (if bytes_then_name (f w) (f z) then w else z)) as H.
  apply elem_of_cons in Hy as [->|[->|Hy]%elem_of_cons]; [| |apply H; by right]; (etrans; [apply H; left|]); destruct (bytes_then_name _ _); auto; lia.
Qed.

Lemma zero_bytes (l : list string) b0 : (∀ k, d_getd b0 k 0 = 0) →
  let b := foldl (λ d p, d_set d p.1 p.2) b0 ((λ k, (k, 0)) <$> l) in
  (∀ k, d_getd b k 0 = 0) ∧ ∀ k, d_mem b k = d_mem b0 k || bool_decide (k ∈ l).
Proof.
  revert b0. induction l as [|x l IH]; intros b0 H0; cbn zeta.
  { split; [done|]. intros k. cbn. rewrite bool_decide_eq_false_2 by apply not_elem_of_nil. by rewrite orb_false_r. }
  cbn [fmap list_fmap foldl]. destruct (IH (d_set b0 x 0)) as [H1 H2].
  { intros k. rewrite d_getd_set. by case_bool_decide. }
  split; [exact H1|]. intros k. rewrite H2, !d_mem_get, d_get_set. case_bool_decide as Hk.
  - subst k. rewrite (bool_decide_eq_true_2 (x ∈ x :: l)) by left. by rewrite orb_true_r.
  - assert (bool_decide (k ∈ x :: l) = bool_decide (k ∈ l)) as ->; [|done]. apply bool_decide_ext. rewrite elem_of_cons. naive_solver.
Qed.

Lemma place_run partition size self : healthy self ≠ [] → ∃ chosen,
  chosen ∈ healthy self ∧ (∀ d, d ∈ healthy self → load self chosen <= load self d) ∧
  place partition size self = (mk (disks self) (d_set (partition_disk self) partition chosen) (d_set (partition_size self) partition size) (offline_disks self),
    Ok ("partition " +:+ zs partition +:+ " placed on " +:+ chosen)).
Proof.
  intros Hne. unfold place. rewrite bind_get, bind_raise_if. fold (healthy self). rewrite bool_decide_eq_false_2 by done.
  set (b0 := d_of_list _). destruct (zero_bytes (healthy self) []) as [Hzero Hmem0]; [done|]. change (foldl _ [] _) with b0 in Hzero, Hmem0.
  rewrite bind_run. change (for_fold (partition_disk self) b0 _) with (for_fold (partition_disk self) b0 bytes_body).
  destruct (bytes_loop self (partition_disk self) b0) as (b & -> & Hmem & Hsum).
  assert (∀ d, d ∈ healthy self → d_getd b d 0 = load self d) as Hload.
  { intros d Hd. rewrite Hsum, Hzero; [done|]. rewrite Hmem0. by rewrite bool_decide_eq_true_2. }
  destruct (py_min_key _ _ (healthy self)) as [chosen|] eqn:Hmin.
  - apply least_first in Hmin as [Hin Hle]. exists chosen. split_and!; [done| |].
    + intros d Hd. specialize (Hle d Hd). cbn in Hle. by rewrite !Hload in Hle.
    + done.
  - unfold py_min_key in Hmin. by destruct (healthy self).
Qed.
End placement.

(** Also (functional): a partition goes to the emptiest disk that works.  While some disk is healthy the placement is defined
    and picks a healthy disk no other healthy disk has fewer bytes on; a partition new to the broker adds its bytes to
    that disk and to no other, and nothing else moves; with every disk offline the placement is
    refused and nothing changes. *)
Theorem place_on_emptiest_disk (self : LogDirBalancer.t) (partition size : Z)
    (Hnew : partition ∉ d_keys (LogDirBalancer.partition_disk self)) :
  let '(after, r) := LogDirBalancer.place partition size self in
  (healthy self = [] → r = Err Invalid ∧ after = self) ∧
  (healthy self ≠ [] → ∃ chosen,
    chosen ∈ LogDirBalancer.disks self ∧ chosen ∉ LogDirBalancer.offline_disks self ∧
    (∀ d, d ∈ LogDirBalancer.disks self → d ∉ LogDirBalancer.offline_disks self → load self chosen <= load self d) ∧
    r = Ok ("partition " +:+ zs partition +:+ " placed on " +:+ chosen) ∧
    d_get (LogDirBalancer.partition_disk after) partition = Some chosen ∧
    (∀ p, p ≠ partition → d_get (LogDirBalancer.partition_disk after) p = d_get (LogDirBalancer.partition_disk self) p) ∧
    ∀ d, load after d = load self d + if bool_decide (d = chosen) then size else 0).
Proof.
  assert (∀ d, d ∈ healthy self ↔ d ∈ LogDirBalancer.disks self ∧ d ∉ LogDirBalancer.offline_disks self) as Hhealthy.
  { intros d. unfold healthy. rewrite elem_of_py_filter, negb_true_iff, bool_decide_eq_false. tauto. }
  destruct (decide (healthy self = [])) as [Hnil|Hne].
  - unfold LogDirBalancer.place. rewrite bind_get, bind_raise_if. fold (healthy self). by rewrite bool_decide_eq_true_2.
  - destruct (place_run partition size self Hne) as (chosen & Hin & Hleast & ->). split; [done|]. intros _.
    apply Hhealthy in Hin as [Hd Hon]. exists chosen. split_and!; [done|done| |done| | |].
    + intros d H1 H2. by apply Hleast, Hhealthy.
    + apply d_get_set_eq.
    + intros p Hp. by apply d_get_set_ne.
    + intros d. unfold load. cbn [LogDirBalancer.partition_disk LogDirBalancer.partition_size].
      rewrite (d_set_fresh (LogDirBalancer.partition_disk self)), zsum_app by done. rewrite zsum_cons, d_getd_set, (bool_decide_eq_true_2 (partition = partition)) by done.
      assert (∀ l, (∀ p k, (p, k) ∈ l → p ≠ partition) →
        zsum (λ '(p, d0), if bool_decide (d0 = d) then d_getd (d_set (LogDirBalancer.partition_size self) partition size) p 0 else 0) l =
        zsum (λ '(p, d0), if bool_decide (d0 = d) then d_getd (LogDirBalancer.partition_size self) p 0 else 0) l) as Hsame.
      { intros l Hl. apply zsum_ext. intros [p k] Hp. rewrite d_getd_set, (bool_decide_eq_false_2 (p = partition)); [done|]. by eapply Hl. }
      rewrite Hsame.
      * cbn. rewrite Z.add_0_r. f_equal. assert (bool_decide (chosen = d) = bool_decide (d = chosen)) as ->; [|done]. apply bool_decide_ext. naive_solver.
      * intros p k Hp ->. apply Hnew. apply list_elem_of_fmap. by exists (partition, k).
Qed.

Lemma place_on_emptiest_disk_witness :
  let self := LogDirBalancer.mk ["d1"; "d2"; "d3"] [(0, "d1"); (1, "d2"); (2, "d3")] [(0, 50); (1, 20); (2, 5)] {["d3"]} in
  let '(after, r) := LogDirBalancer.place 7 40 self in
  (healthy self = [] → r = Err Invalid ∧ after = self) ∧
  (healthy self ≠ [] → ∃ chosen,
    chosen ∈ LogDirBalancer.disks self ∧ chosen ∉ LogDirBalancer.offline_disks self ∧
    (∀ d, d ∈ LogDirBalancer.disks self → d ∉ LogDirBalancer.offline_disks self → load self chosen <= load self d) ∧
    r = Ok ("partition " +:+ zs 7 +:+ " placed on " +:+ chosen) ∧
    d_get (LogDirBalancer.partition_disk after) 7 = Some chosen ∧
    (∀ p, p ≠ 7 → d_get (LogDirBalancer.partition_disk after) p = d_get (LogDirBalancer.partition_disk self) p) ∧
    ∀ d, load after d = load self d + if bool_decide (d = chosen) then 40 else 0).
Proof.
  apply (place_on_emptiest_disk (LogDirBalancer.mk ["d1"; "d2"; "d3"] [(0, "d1"); (1, "d2"); (2, "d3")] [(0, 50); (1, 20); (2, 5)] {["d3"]}) 7 40).
  apply (bool_decide_unpack _). vm_compute. exact I.
Defined.
