(* ===== verification/Admin.v ===== *)
(** * Topic and broker administration

    Topics: their ids ([relay/topicid.py]), configuration ([relay/topicconfig.py], [relay/configinherit.py],
    [relay/configvalidate.py], [relay/alterconfig.py]), deletion ([relay/topicdelete.py], [relay/internaltopic.py],
    [relay/idletopic.py]) and size ([relay/partitionlimit.py], [relay/partitionexpand.py], [relay/partitionplan.py],
    [relay/replicationfactor.py], [relay/capacityplan.py]).  Brokers: identity ([relay/brokerid.py], [relay/clusterid.py]),
    start and stop ([relay/startup.py], [relay/gracefulshutdown.py], [relay/controlledshutdown.py],
    [relay/rollingrestart.py], [relay/featureflags.py]) and the way in ([relay/listeners.py], [relay/apirouter.py],
    [relay/protocol.py], [relay/metadatabootstrap.py], [relay/metadataage.py]). *)

From Stdlib Require Import Strings.Byte Strings.Ascii.
From S2P Require Import Prelude PyDict PyBytes PyFloat.

Module topicconfig.
(** [relay/topicconfig.py] DEFAULTS *)
Definition DEFAULTS : pydict string Z := [("retention_ticks", 604800); ("min_in_sync", 2); ("max_message_bytes", 1000000)].
Module TopicConfig.
(** [relay/topicconfig.py] class TopicConfig *)
Record t := mk {
  replication_factor : Z;
  broker_fetch_max_bytes : Z;
  worst_consumer_lag_ticks : Z;
  overrides : pydict string Z;
}.
Definition set_overrides (v : pydict string Z) (self : t) : t := mk (replication_factor self) (broker_fetch_max_bytes self) (worst_consumer_lag_ticks self) v.
Definition new (replication_factor : Z) (broker_fetch_max_bytes : Z) (worst_consumer_lag_ticks : Z) : t := mk replication_factor broker_fetch_max_bytes worst_consumer_lag_ticks [].
(** [relay/topicconfig.py] TopicConfig.get *)
Definition get_ (self : t) (key : string) : result Z :=
  v ← d_item DEFAULTS key;
  Ok (d_getd (overrides self) key v).
(** [relay/topicconfig.py] TopicConfig.set *)
Definition set (key : string) (value : Z) : act t string :=
  raise_if (negb (d_mem DEFAULTS key)) Invalid;;
  self ← get;
  raise_if ((bool_decide (key = "retention_ticks")) && (value <? worst_consumer_lag_ticks self)) Invalid;;
  raise_if ((bool_decide (key = "min_in_sync")) && (replication_factor self <? value)) Invalid;;
  raise_if ((bool_decide (key = "max_message_bytes")) && (broker_fetch_max_bytes self <? value)) Invalid;;
  put (set_overrides (d_set (overrides self) key value) self);;
  mret (key +:+ " set to " +:+ zs value).
(** [relay/topicconfig.py] TopicConfig.describe *)
Definition describe (self : t) : result string :=
  let lines := [] in
  lines ← r_fold (py_sorted String.le (d_keys DEFAULTS)) lines (λ lines key,
    lines ← (if d_mem (overrides self) key then
       v ← d_item (overrides self) key;
       v1 ← d_item (overrides self) key;
       let lines := lines ++ [key +:+ " = " +:+ zs v +:+ " (override)"] in
       Ok lines
     else
       v ← d_item DEFAULTS key;
       v1 ← d_item DEFAULTS key;
       let lines := lines ++ [key +:+ " = " +:+ zs v +:+ " (inherited)"] in
       Ok lines);
    Ok lines);
  Ok (join_str "
" lines).
End TopicConfig.
End topicconfig.
Import topicconfig.

Module topicdelete.
(** [relay/topicdelete.py] ACTIVE *)
Definition ACTIVE : string := "active".
(** [relay/topicdelete.py] MARKED *)
Definition MARKED : string := "marked-for-deletion".
(** [relay/topicdelete.py] REMOVED *)
Definition REMOVED : string := "removed".
Module TopicLifecycle.
(** [relay/topicdelete.py] class TopicLifecycle *)
Record t := mk {
  name : string;
  state : string;
  marked_by : string;
  marked_at : Z;
  grace_ticks : Z;
  audit : list string;
}.
Definition set_state (v : string) (self : t) : t := mk (name self) v (marked_by self) (marked_at self) (grace_ticks self) (audit self).
Definition set_marked_by (v : string) (self : t) : t := mk (name self) (state self) v (marked_at self) (grace_ticks self) (audit self).
Definition set_marked_at (v : Z) (self : t) : t := mk (name self) (state self) (marked_by self) v (grace_ticks self) (audit self).
Definition set_audit (v : list string) (self : t) : t := mk (name self) (state self) (marked_by self) (marked_at self) (grace_ticks self) v.
Definition new (name : string) : t := mk name ACTIVE "" 0 100 [].
(** [relay/topicdelete.py] TopicLifecycle.accepts_produce *)
Definition accepts_produce (self : t) : bool :=
  bool_decide (state self = ACTIVE).
(** [relay/topicdelete.py] TopicLifecycle.mark *)
Definition mark (requester : string) (now : Z) : act t string :=
  self ← get;
  raise_if (negb (bool_decide (state self = ACTIVE))) Invalid;;
  raise_if (blank requester) Invalid;;
  put (set_state MARKED self);;
  self ← get;
  put (set_marked_by requester self);;
  self ← get;
  put (set_marked_at now self);;
  self ← get;
  put (set_audit (audit self ++ ["marked by " +:+ requester +:+ " at " +:+ zs now]) self);;
  self ← get;
  mret ((name self) +:+ " marked for deletion by " +:+ requester
        +:+ "; produces stop, data stays, consumers drain").
(** [relay/topicdelete.py] TopicLifecycle.cancel *)
Definition cancel : act t string :=
  self ← get;
  raise_if (negb (bool_decide (state self = MARKED))) Invalid;;
  put (set_state ACTIVE self);;
  self ← get;
  put (set_audit (audit self ++ ["deletion cancelled"]) self);;
  self ← get;
  mret ((name self)
        +:+ " deletion cancelled; a retirement that cannot be undone turns a typo into an outage").
(** [relay/topicdelete.py] TopicLifecycle.remove *)
Definition remove (now : Z) (uncommitted_groups : list string) : act t string :=
  self ← get;
  raise_if (negb (bool_decide (state self = MARKED))) Invalid;;
  raise_if (now - (marked_at self) <? grace_ticks self) Invalid;;
  raise_if (negb (bool_decide (uncommitted_groups = []))) Invalid;;
  put (set_state REMOVED self);;
  self ← get;
  put (set_audit (audit self ++ ["removed at " +:+ zs now]) self);;
  self ← get;
  mret ((name self) +:+ " removed; the record of who requested it (" +:+ (marked_by self)
        +:+ ") survives the data").
End TopicLifecycle.
End topicdelete.
Import topicdelete.

Module topicid.
Module TopicRegistry.
(** [relay/topicid.py] class TopicRegistry *)
Record t := mk { _next : Z; by_name : pydict string Z; live_ids : gset Z; retired_ids : gset Z; }.
Definition set__next (v : Z) (self : t) : t := mk v (by_name self) (live_ids self) (retired_ids self).
Definition set_by_name (v : pydict string Z) (self : t) : t := mk (_next self) v (live_ids self) (retired_ids self).
Definition set_live_ids (v : gset Z) (self : t) : t := mk (_next self) (by_name self) v (retired_ids self).
Definition set_retired_ids (v : gset Z) (self : t) : t := mk (_next self) (by_name self) (live_ids self) v.
Definition new : t := mk 1 [] (∅) (∅).
(** [relay/topicid.py] TopicRegistry.create *)
Definition create (name : string) : act t Z :=
  self ← get;
  raise_if (d_mem (by_name self) name) Invalid;;
  let topic_id := _next self in
  put (set__next (_next self + 1) self);;
  self ← get;
  put (set_by_name (d_set (by_name self) name topic_id) self);;
  self ← get;
  put (set_live_ids ({[topic_id]} ∪ (live_ids self)) self);;
  mret topic_id.
(** [relay/topicid.py] TopicRegistry.delete *)
Definition delete_ (name : string) : act t unit :=
  self ← get;
  raise_if (negb (d_mem (by_name self) name)) Missing;;
  v ← pure_of (d_item (by_name self) name);
  put (set_by_name (d_del (by_name self) name) self);;
  let topic_id := v in
  self ← get;
  put (set_live_ids ((live_ids self) ∖ {[topic_id]}) self);;
  self ← get;
  put (set_retired_ids ({[topic_id]} ∪ (retired_ids self)) self).
(** [relay/topicid.py] TopicRegistry.resolve_id *)
Definition resolve_id (self : t) (topic_id : Z) : result string :=
  if negb (bool_decide (topic_id ∈ live_ids self)) then Err Missing else
  found ← r_first (by_name self) (λ '(name, tid),
        if tid =? topic_id then
          Ok (Some name)
        else
        Ok None);
  match found with
  | Some r => Ok r
  | None =>
      Err Missing
  end.
(** [relay/topicid.py] TopicRegistry.is_recreated *)
Definition is_recreated (self : t) (name : string) (client_saw_id : Z) : bool :=
  let current := d_get (by_name self) name in
  match current with None => false | Some current => negb (current =? client_saw_id) end.
End TopicRegistry.
End topicid.
Import topicid.

Module internaltopic.
Module InternalTopicManager.
(** [relay/internaltopic.py] class InternalTopicManager *)
Record t := mk { app_id : string; user_topics : gset string; internal : pydict string Z; }.
Definition set_internal (v : pydict string Z) (self : t) : t := mk (app_id self) (user_topics self) v.
Definition new (app_id : string) : t := mk app_id (∅) [].
(** [relay/internaltopic.py] InternalTopicManager.name_for *)
Definition name_for (self : t) (purpose : string) : string :=
  (app_id self) +:+ "-" +:+ purpose.
(** [relay/internaltopic.py] InternalTopicManager.create *)
Definition create (purpose : string) (partitions : Z) (source_partitions : Z) : act t string :=
  self ← get;
  let name := name_for self purpose in
  raise_if (bool_decide (name ∈ user_topics self)) Invalid;;
  raise_if (negb (partitions =? source_partitions)) Invalid;;
  put (set_internal (d_set (internal self) name partitions) self);;
  mret ("created internal topic '" +:+ name +:+ "' with " +:+ zs partitions +:+ " partition(s)").
(** [relay/internaltopic.py] InternalTopicManager.delete *)
Definition delete_ (name : string) : act t string :=
  self ← get;
  raise_if (negb (d_mem (internal self) name)) Invalid;;
  put (set_internal (d_del (internal self) name) self);;
  mret ("deleted internal topic '" +:+ name +:+ "'").
(** [relay/internaltopic.py] InternalTopicManager.owned *)
Definition owned (self : t) : list string :=
  py_sorted String.le (d_keys (internal self)).
End InternalTopicManager.
End internaltopic.
Import internaltopic.

Module configinherit.
(** [relay/configinherit.py] TOPIC *)
Definition TOPIC : string := "topic override".
(** [relay/configinherit.py] BROKER *)
Definition BROKER : string := "broker override".
(** [relay/configinherit.py] DEFAULT *)
Definition DEFAULT : string := "built-in default".
Module ConfigResolver.
(** [relay/configinherit.py] class ConfigResolver *)
Record t := mk {
  defaults : pydict string string;
  broker : pydict string string;
  topic : pydict string string;
}.
Definition new : t := mk [] [] [].
(** [relay/configinherit.py] ConfigResolver.resolve *)
Definition resolve (self : t) (key : string) : result (string * string) :=
  if d_mem (topic self) key then
    v ← d_item (topic self) key;
    Ok (v, TOPIC)
  else
  if d_mem (broker self) key then
    v ← d_item (broker self) key;
    Ok (v, BROKER)
  else
  if d_mem (defaults self) key then
    v ← d_item (defaults self) key;
    Ok (v, DEFAULT)
  else
  Err Missing.
(** [relay/configinherit.py] ConfigResolver.describe *)
Definition describe (self : t) (key : string) : result string :=
  r ← resolve self key;
  let '(value, source) := r in
  Ok (key +:+ " = " +:+ value +:+ " (from " +:+ source +:+ ")").
(** [relay/configinherit.py] ConfigResolver.redundant_overrides *)
Definition redundant_overrides (self : t) : list string :=
  (λ '(key, _), key) <$> py_filter (λ '(key, value), bool_decide (d_get (broker self) key = Some value)) (topic self).
End ConfigResolver.
End configinherit.
Import configinherit.

Module configvalidate.
Module TopicConfig.
(** [relay/configvalidate.py] class TopicConfig *)
Record t := mk {
  replication_factor : Z;
  min_insync_replicas : Z;
  retention_ticks : Z;
  segment_roll_ticks : Z;
  compacted : bool;
  size_retained : bool;
}.
End TopicConfig.
(** [relay/configvalidate.py] validate *)
Definition validate (config : TopicConfig.t) : result (list string) :=
  let errors := [] in
  errors ← (if TopicConfig.replication_factor config <? TopicConfig.min_insync_replicas config then
     let errors := errors ++ ["min-insync " +:+ zs (TopicConfig.min_insync_replicas config) +:+ " exceeds replication factor " +:+ zs (TopicConfig.replication_factor config) +:+ ": acks-all writes block forever, valid per field and broken as a whole"] in
     Ok errors
   else
     Ok errors);
  errors ← (if TopicConfig.retention_ticks config <=? TopicConfig.segment_roll_ticks config then
     let errors := errors ++ ["retention " +:+ zs (TopicConfig.retention_ticks config) +:+ " is not longer than segment roll " +:+ zs (TopicConfig.segment_roll_ticks config) +:+ ": retention deletes whole sealed segments, so a window shorter than the seal time deletes nothing"] in
     Ok errors
   else
     Ok errors);
  if negb (bool_decide (errors = [])) then Err Invalid else
  Ok [].
(** [relay/configvalidate.py] warnings *)
Definition warnings (config : TopicConfig.t) : list string :=
  let notes := [] in
  let notes :=
    if (TopicConfig.compacted config) && (TopicConfig.size_retained config) then
     let notes := notes ++ ["compacted and size-retained together: the operator must know which deletes what, a surprise not an error"] in
     notes
    else
     notes in
  let notes :=
    if (TopicConfig.min_insync_replicas config =? TopicConfig.replication_factor config) && (1 <? TopicConfig.replication_factor config) then
     let notes := notes ++ ["min-insync equals replication factor: any single replica loss stops acks-all writes, maximally durable and minimally available"] in
     notes
    else
     notes in
  notes.
End configvalidate.
Import configvalidate.

Module alterconfig.
(** [relay/alterconfig.py] INSTANT *)
Definition INSTANT : gset string := {["max_message_bytes"; "retention_ticks"; "max_open_ticks"]}.
(** [relay/alterconfig.py] RESHAPING *)
Definition RESHAPING : gset string := {["compacted"]}.
(** [relay/alterconfig.py] FORBIDDEN *)
Definition FORBIDDEN : gset string := {["partition_count"]}.
(** [relay/alterconfig.py] classify_change *)
Definition classify_change (setting : string) (acknowledged : bool) : result string :=
  if bool_decide (setting ∈ INSTANT) then
    Ok ("instant: " +:+ setting
          +:+ " affects only future records, applies cleanly with no effect on existing data")
  else
  if bool_decide (setting ∈ RESHAPING) then
    if negb acknowledged then Err Invalid else
    Ok ("reshaping acknowledged: " +:+ setting +:+ " will transform the existing log, intended")
  else
  if bool_decide (setting ∈ FORBIDDEN) then Err Invalid else
  Err Invalid.
(** [relay/alterconfig.py] is_safe_live *)
Definition is_safe_live (setting : string) : bool :=
  bool_decide (setting ∈ INSTANT).
End alterconfig.
Import alterconfig.

Module featureflags.
(** the order of the pairs [(version, broker)] *)
Definition version_le (a b : Z * string) : Prop := a.1 < b.1 ∨ (a.1 = b.1 ∧ String.le a.2 b.2).
#[export] Instance version_le_dec : RelDecision version_le.
Proof. unfold RelDecision, version_le. intros a b. apply _. Defined.

Module FeatureGate.
(** [relay/featureflags.py] class FeatureGate *)
Record t := mk {
  feature_min_version : pydict string Z;
  broker_versions : pydict string Z;
  enabled : gset string;
}.
Definition set_enabled (v : gset string) (self : t) : t := mk (feature_min_version self) (broker_versions self) v.
Definition new (feature_min_version : pydict string Z) : t := mk feature_min_version [] (∅).
(** [relay/featureflags.py] FeatureGate.cluster_min_version *)
Definition cluster_min_version (self : t) : result Z :=
  if bool_decide (broker_versions self = []) then Err Invalid else
  match d_values (broker_versions self) with [] => Err ValueError | x :: l => Ok (py_min x l) end.
(** [relay/featureflags.py] FeatureGate.laggard_for *)
Definition laggard_for (self : t) (feature : string) : result (option string) :=
  let required := d_get (feature_min_version self) feature in
  match required with
  | None =>
      Err Invalid
  | Some required =>
      let behind := py_sorted version_le ((λ '(broker, version), (version, broker))
                      <$> py_filter (λ '(_, version), version <? required) (broker_versions self)) in
      Ok (snd <$> head behind)
    
  end.
(** [relay/featureflags.py] FeatureGate.enable *)
Definition enable (feature : string) : act t string :=
  self ← get;
  laggard ← pure_of (laggard_for self feature);
  match laggard with
  | Some laggard =>
      raise Invalid
  | None =>
      put (set_enabled ({[feature]} ∪ (enabled self)) self);;
      mret (feature +:+ " enabled: every broker can speak it, safe to depend on")
  end.
(** [relay/featureflags.py] FeatureGate.reconcile *)
Definition reconcile : act t (list string) :=
  let disabled := [] in
  self ← get;
  disabled ← for_fold (py_sorted String.le (elements (enabled self))) disabled (λ disabled feature,
    self ← get;
    r ← pure_of (laggard_for self feature);
    disabled ← (if negb (bool_decide (r = None)) then
       let disabled := disabled ++ [feature] in
       mret disabled
     else
       mret disabled);
    mret disabled);
  for_each disabled (λ feature,
    self ← get;
    put (set_enabled ((enabled self) ∖ {[feature]}) self));;
  mret disabled.
(** [relay/featureflags.py] FeatureGate.report *)
Definition report (self : t) : string :=
  let pending := py_sorted String.le (py_filter (λ f, negb (bool_decide (f ∈ enabled self))) (d_keys (feature_min_version self))) in
  "finalized: " +:+ repr_list repr_str (py_sorted String.le (elements (enabled self)))
        +:+ ", pending: " +:+ repr_list repr_str pending
        +:+ "; the upgrade is a list that grows, not a boolean that flips at the end".
End FeatureGate.
End featureflags.
Import featureflags.

Module brokerid.
Module BrokerRegistry.
(** [relay/brokerid.py] class BrokerRegistry *)
Record t := mk { live : pydict Z string; }.
Definition set_live (v : pydict Z string) (self : t) : t := mk v.
Definition new : t := mk [].
(** [relay/brokerid.py] BrokerRegistry.register *)
Definition register (broker_id : Z) (incarnation : string) (previous_alive : bool) : act t string :=
  self ← get;
  let held := d_get (live self) broker_id in
  raise_if (match held with None => false | Some held => (negb (bool_decide (held = incarnation))) && previous_alive end) Invalid;;
  let restart := match held with None => false | Some held => negb (bool_decide (held = incarnation)) end in
  put (set_live (d_set (live self) broker_id incarnation) self);;
  if (restart : bool) then
    mret ("broker id " +:+ zs broker_id
          +:+ " re-registered with a new incarnation, a legitimate restart of a dead broker")
  else
  mret ("broker id " +:+ zs broker_id +:+ " registered (" +:+ incarnation +:+ ")").
(** [relay/brokerid.py] BrokerRegistry.deregister *)
Definition deregister (broker_id : Z) : act t unit :=
  self ← get;
  put (set_live (d_del (live self) broker_id) self).
(** [relay/brokerid.py] BrokerRegistry.is_conflict *)
Definition is_conflict (self : t) (broker_id : Z) (incarnation : string) (previous_alive : bool) : bool :=
  let held := d_get (live self) broker_id in
  match held with None => false | Some held => (negb (bool_decide (held = incarnation))) && previous_alive end.
End BrokerRegistry.
End brokerid.
Import brokerid.

Module clusterid.
Module ClusterIdentity.
(** [relay/clusterid.py] class ClusterIdentity *)
Record t := mk { cluster_id : string; }.
(** [relay/clusterid.py] ClusterIdentity.__post_init__ *)
Definition make (cluster_id : string) : result t :=
  if bool_decide (cluster_id = "") then Err Invalid else
  Ok (mk cluster_id).
(** [relay/clusterid.py] ClusterIdentity.join *)
Definition join (self : t) (broker_presents : option string) : result string :=
  match broker_presents with
  | None =>
      Ok ("fresh broker adopts cluster id '" +:+ (cluster_id self) +:+ "' on its first join")
  | Some broker_presents =>
      if bool_decide (broker_presents = "") then
        Ok ("fresh broker adopts cluster id '" +:+ (cluster_id self) +:+ "' on its first join")
      else
      if negb (bool_decide (broker_presents = cluster_id self)) then Err Fenced else
      Ok ("broker joined; cluster id '" +:+ (cluster_id self) +:+ "' matches")
  end.
(** [relay/clusterid.py] ClusterIdentity.rename *)
Definition rename (self : t) (_new_id : string) : result string :=
  Err Invalid.
End ClusterIdentity.
End clusterid.
Import clusterid.

Module controlledshutdown.
Module _Partition.
(** [relay/controlledshutdown.py] class _Partition *)
Record t := mk { name : string; leader : string; in_sync : pydict string Z; }.
End _Partition.
Module ControlledShutdown.
(** [relay/controlledshutdown.py] class ControlledShutdown *)
Record t := mk { broker : string; partitions : list _Partition.t; }.
Definition set_partitions (v : list _Partition.t) (self : t) : t := mk (broker self) v.
Definition new (broker : string) : t := mk broker [].
(** [relay/controlledshutdown.py] ControlledShutdown.led_by_broker *)
Definition led_by_broker (name : string) (in_sync : pydict string Z) : act t unit :=
  self ← get;
  raise_if (negb (d_mem in_sync (broker self))) Invalid;;
  put (set_partitions (partitions self ++ [_Partition.mk name (broker self) in_sync]) self).
(** [relay/controlledshutdown.py] ControlledShutdown.plan *)
Definition plan (self : t) : result (pydict string string) :=
  let moves : pydict string string := [] in
  moves ← r_fold (partitions self) moves (λ moves p,
    let targets := py_filter (λ '(r, e), negb (bool_decide (r = broker self))) (_Partition.in_sync p) in
    moves ← (if negb (bool_decide (targets = [])) then
       name ← py_max_key Z.ltb (λ r, d_getd targets r 0) (d_keys targets);
       Ok (d_set moves (_Partition.name p) name)

     else
       Ok moves);
    Ok moves);
  Ok moves.
(** [relay/controlledshutdown.py] ControlledShutdown.blocked *)
Definition blocked (self : t) : list string :=
  (λ p, _Partition.name p) <$> (py_filter (λ p, forallb (λ r, bool_decide (r = broker self)) (d_keys (_Partition.in_sync p))) (partitions self)).
(** [relay/controlledshutdown.py] ControlledShutdown.is_clean *)
Definition is_clean (self : t) : bool :=
  bool_decide (blocked self = []).
(** [relay/controlledshutdown.py] ControlledShutdown.note *)
Definition note (self : t) : result string :=
  moves ← plan self;
  let blocked := blocked self in
  if negb (bool_decide (blocked = [])) then
    Ok (zs (zlen moves) +:+ " leadership move(s) planned, but " +:+ zs (zlen blocked)
          +:+ " partition(s) blocked: " +:+ repr_list repr_str (py_sorted String.le blocked)
          +:+ "; shutting down now would strand them, the failure controlled shutdown prevents")
  else
  Ok (zs (zlen moves)
        +:+ " leadership move(s) planned, none blocked; every handoff goes to a caught-up replica, no gap and no loss").
End ControlledShutdown.
End controlledshutdown.
Import controlledshutdown.

Module gracefulshutdown.
Module ShutdownPlan.
(** [relay/gracefulshutdown.py] class ShutdownPlan *)
Record t := mk {
  departing : string;
  led_partitions : pydict Z (list string);
  caught_up : pydict Z (gset string);
  handed_off : pydict Z string;
  stranded : list Z;
}.
Definition set_handed_off (v : pydict Z string) (self : t) : t := mk (departing self) (led_partitions self) (caught_up self) v (stranded self).
Definition set_stranded (v : list Z) (self : t) : t := mk (departing self) (led_partitions self) (caught_up self) (handed_off self) v.
Definition new (departing : string) (led_partitions : pydict Z (list string)) (caught_up : pydict Z (gset string)) : t := mk departing led_partitions caught_up [] [].
(** [relay/gracefulshutdown.py] ShutdownPlan.report *)
Definition report (self : t) : string :=
  let total := zlen (led_partitions self) in
  let lines := [zs (zlen (handed_off self)) +:+ " of " +:+ zs total +:+ " partition(s) handed off, no election needed for them"] in
  let lines :=
    if negb (bool_decide (stranded self = [])) then
     let lines := lines ++ ["  " +:+ zs (zlen (stranded self)) +:+ " stranded with no caught-up follower: told to the operator, not pretended away, because handing to a laggard would truncate committed records"] in
     lines
    else
     let lines := lines ++ ["  every partition handed off; a clean exit with no partition left leaderless"] in
     lines in
  join_str "
" lines.
(** [relay/gracefulshutdown.py] ShutdownPlan.execute *)
Definition execute : act t string :=
  self ← get;
  for_each (led_partitions self) (λ '(partition, replicas),
    self ← get;
    let candidates := py_filter (λ r, (negb (bool_decide (r = departing self))) && (bool_decide (r ∈ d_getd (caught_up self) partition (∅)))) replicas in
    (if negb (bool_decide (candidates = [])) then
       x ← pure_of (py_index candidates 0);
       put (set_handed_off (d_set (handed_off self) partition x) self)
     else
       put (set_stranded (stranded self ++ [partition]) self));;
    mret ());;
  self ← get;
  mret (report self).
(** [relay/gracefulshutdown.py] ShutdownPlan.may_exit *)
Definition may_exit (self : t) : bool :=
  bool_decide (stranded self = []).
End ShutdownPlan.
(** [relay/gracefulshutdown.py] validate_handoff *)
Definition validate_handoff (partition : Z) (target : string) (caught_up : gset string) : result unit :=
  if negb (bool_decide (target ∈ caught_up)) then Err Invalid else
  Ok ().
End gracefulshutdown.
Import gracefulshutdown.

Module startup.
Module LogDir.
(** [relay/startup.py] class LogDir *)
Record t := mk {
  partition : Z;
  segment_bases : list Z;
  segment_ends : list Z;
  recorded_end : Z;
  actual_end : Z;
}.
(** [relay/startup.py] LogDir.is_contiguous *)
Definition is_contiguous (self : t) : bool :=
  forallb (λ '(base, end_), base =? end_) (zip (drop 1 (segment_bases self)) (take (length (segment_ends self) - 1) (segment_ends self))).
End LogDir.
Module BrokerStartup.
(** [relay/startup.py] class BrokerStartup *)
Record t := mk { online : list Z; offline : pydict Z string; }.
Definition set_online (v : list Z) (self : t) : t := mk v (offline self).
Definition set_offline (v : pydict Z string) (self : t) : t := mk (online self) v.
Definition new : t := mk [] [].
(** [relay/startup.py] BrokerStartup.load *)
Definition load (log_dir : LogDir.t) : act t string :=
  if bool_decide (LogDir.segment_bases log_dir = []) then
    self ← get;
    put (set_offline (d_set (offline self) (LogDir.partition log_dir) "no segments") self);;
    mret ("partition " +:+ zs (LogDir.partition log_dir) +:+ " offline: empty dir")
  else
  if negb (LogDir.is_contiguous log_dir) then
    self ← get;
    put (set_offline (d_set (offline self) (LogDir.partition log_dir) "offset gap between segments") self);;
    mret ("partition " +:+ zs (LogDir.partition log_dir)
          +:+ " offline: a gap means a missing segment, quarantined so torn data is never served as whole")
  else
  if negb (LogDir.recorded_end log_dir =? LogDir.actual_end log_dir) then
    self ← get;
    put (set_offline (d_set (offline self) (LogDir.partition log_dir) ("end mismatch: recorded " +:+ zs (LogDir.recorded_end log_dir) +:+ ", actual " +:+ zs (LogDir.actual_end log_dir))) self);;
    mret ("partition " +:+ zs (LogDir.partition log_dir)
          +:+ " offline: an interrupted write; recovery must truncate to the last intact record before it leads")
  else
  self ← get;
  put (set_online (online self ++ [LogDir.partition log_dir]) self);;
  mret ("partition " +:+ zs (LogDir.partition log_dir) +:+ " online").
(** [relay/startup.py] BrokerStartup.load_all *)
Definition load_all (dirs : list LogDir.t) : act t string :=
  for_each dirs (λ log_dir,
    r ← load log_dir;
    mret ());;
  self ← get;
  raise_if ((bool_decide (online self = [])) && (bool_decide (offline self = []))) Invalid;;
  mret (zs (zlen (online self)) +:+ " partition(s) online, " +:+ zs (zlen (offline self))
        +:+ " quarantined; a broker that refused to start over one bad directory would take the healthy partitions down with it").
End BrokerStartup.
End startup.
Import startup.

Module rollingrestart.
Module RollingRestart.
(** [relay/rollingrestart.py] class RollingRestart *)
Record t := mk { brokers : list string; restarted : gset string; under_replicated : gset string; }.
Definition set_restarted (v : gset string) (self : t) : t := mk (brokers self) v (under_replicated self).
Definition set_under_replicated (v : gset string) (self : t) : t := mk (brokers self) (restarted self) v.
(** [relay/rollingrestart.py] RollingRestart.__post_init__ *)
Definition make (brokers : list string) : result t :=
  if bool_decide (brokers = []) then Err Invalid else
  Ok (mk brokers (∅) (∅)).
(** [relay/rollingrestart.py] RollingRestart.safe_to_proceed *)
Definition safe_to_proceed (self : t) : bool :=
  bool_decide (under_replicated self = ∅).
(** [relay/rollingrestart.py] RollingRestart.restart *)
Definition restart (broker : string) : act t string :=
  self ← get;
  raise_if (negb (bool_decide (broker ∈ brokers self))) Invalid;;
  raise_if (bool_decide (broker ∈ restarted self)) Invalid;;
  raise_if (negb (bool_decide (under_replicated self = ∅))) Invalid;;
  put (set_restarted ({[broker]} ∪ (restarted self)) self);;
  mret ("restarted '" +:+ broker +:+ "'; wait for its partitions to rejoin the ISR").
(** [relay/rollingrestart.py] RollingRestart.catch_up *)
Definition catch_up (partition : string) : act t unit :=
  self ← get;
  put (set_under_replicated ((under_replicated self) ∖ {[partition]}) self).
(** [relay/rollingrestart.py] RollingRestart.mark_under_replicated *)
Definition mark_under_replicated (partition : string) : act t unit :=
  self ← get;
  put (set_under_replicated ({[partition]} ∪ (under_replicated self)) self).
(** [relay/rollingrestart.py] RollingRestart.progress *)
Definition progress (self : t) : string :=
  let done := Z.of_nat (base.size (restarted self)) in
  let state := if safe_to_proceed self then "safe to proceed" else "waiting on " +:+ repr_list repr_str (py_sorted String.le (elements (under_replicated self))) in
  zs done +:+ "/" +:+ zs (zlen (brokers self)) +:+ " brokers restarted; " +:+ state.
End RollingRestart.
End rollingrestart.
Import rollingrestart.

Module partitionlimit.
Module PartitionLimit.
(** [relay/partitionlimit.py] class PartitionLimit *)
Record t := mk { cap : Z; topics : pydict string Z; }.
Definition set_topics (v : pydict string Z) (self : t) : t := mk (cap self) v.
(** [relay/partitionlimit.py] PartitionLimit.__post_init__ *)
Definition make (cap : Z) : result t :=
  if cap <? 1 then Err Invalid else
  Ok (mk cap []).
(** [relay/partitionlimit.py] PartitionLimit.total *)
Definition total (self : t) : Z :=
  zsum id (d_values (topics self)).
(** [relay/partitionlimit.py] PartitionLimit.create *)
Definition create (topic : string) (partitions : Z) : act t string :=
  raise_if (partitions <? 1) Invalid;;
  self ← get;
  raise_if (d_mem (topics self) topic) Invalid;;
  raise_if (cap self <? total self + partitions) Invalid;;
  put (set_topics (d_set (topics self) topic partitions) self);;
  self ← get;
  mret ("created '" +:+ topic +:+ "'; total " +:+ zs (total self) +:+ "/" +:+ zs (cap self)).
(** [relay/partitionlimit.py] PartitionLimit.headroom *)
Definition headroom (self : t) : string :=
  let left := cap self - (total self) in
  zs left
        +:+ " partition(s) of headroom; near the cap means the next failover will be slow, raise the cap deliberately or consolidate topics before it bites".
End PartitionLimit.
End partitionlimit.
Import partitionlimit.

Module partitionexpand.
Module ExpansionRequest.
(** [relay/partitionexpand.py] class ExpansionRequest *)
Record t := mk { topic : string; keyed : bool; current_partitions : Z; new_partitions : Z; }.
(** [relay/partitionexpand.py] ExpansionRequest.__post_init__ *)
Definition make (topic : string) (keyed : bool) (current_partitions : Z) (new_partitions : Z) : result t :=
  if new_partitions <=? current_partitions then Err Invalid else
  Ok (mk topic keyed current_partitions new_partitions).
End ExpansionRequest.
(** [relay/partitionexpand.py] evaluate_expansion *)
Definition evaluate_expansion (request : ExpansionRequest.t) (operator_asserts_no_keys : bool) : result string :=
  if negb (ExpansionRequest.keyed request) then
    Ok ((ExpansionRequest.topic request) +:+ ": safe to expand "
          +:+ zs (ExpansionRequest.current_partitions request) +:+ " -> "
          +:+ zs (ExpansionRequest.new_partitions request)
          +:+ "; unkeyed records just get more round-robin targets, nothing moves")
  else
  if (operator_asserts_no_keys : bool) then
    Ok ((ExpansionRequest.topic request)
          +:+ ": expanding under an operator assertion that no keyed records will ever arrive; a landmine with a note on it, but permitted")
  else
  Err Invalid.
(** [relay/partitionexpand.py] keys_would_split *)
Definition keys_would_split (key_hash : Z) (old_count : Z) (new_count : Z) : result bool :=
  r ← py_mod key_hash old_count;
  r1 ← py_mod key_hash new_count;
  Ok (negb (r =? r1)).
End partitionexpand.
Import partitionexpand.

Module partitionplan.
Module PartitionRequirements.
(** [relay/partitionplan.py] class PartitionRequirements *)
Record t := mk { target_throughput : Z; per_partition_capacity : Z; consumer_parallelism : Z; }.
(** [relay/partitionplan.py] PartitionRequirements.__post_init__ *)
Definition make (target_throughput : Z) (per_partition_capacity : Z) (consumer_parallelism : Z) : result t :=
  if per_partition_capacity <? 1 then Err Invalid else
  if (target_throughput <? 1) || (consumer_parallelism <? 1) then Err Invalid else
  Ok (mk target_throughput per_partition_capacity consumer_parallelism).
End PartitionRequirements.
(** [relay/partitionplan.py] plan_partitions *)
Definition plan_partitions (req : PartitionRequirements.t) : result Z :=
  q ← py_div (- (PartitionRequirements.target_throughput req)) (PartitionRequirements.per_partition_capacity req);
  let by_throughput := - q in
  let floor := Z.max by_throughput (PartitionRequirements.consumer_parallelism req) in
  Ok (floor + (Z.max 1 (floor / 4))).
(** [relay/partitionplan.py] explain_plan *)
Definition explain_plan (req : PartitionRequirements.t) : result string :=
  q ← py_div (- (PartitionRequirements.target_throughput req)) (PartitionRequirements.per_partition_capacity req);
  let by_throughput := - q in
  let floor := Z.max by_throughput (PartitionRequirements.consumer_parallelism req) in
  let binding := if PartitionRequirements.consumer_parallelism req <=? by_throughput then "throughput" else "consumer parallelism" in
  chosen ← plan_partitions req;
  Ok (zs chosen +:+ " partition(s): floor " +:+ zs floor +:+ " bound by " +:+ binding
        +:+ " (throughput needs " +:+ zs by_throughput +:+ ", parallelism needs "
        +:+ zs (PartitionRequirements.consumer_parallelism req)
        +:+ "), plus headroom because being one short is a migration").
(** [relay/partitionplan.py] audit_count *)
Definition audit_count (req : PartitionRequirements.t) (chosen : Z) : result string :=
  q ← py_div (- (PartitionRequirements.target_throughput req)) (PartitionRequirements.per_partition_capacity req);
  let need := Z.max (- q) (PartitionRequirements.consumer_parallelism req) in
  if chosen <? need then Err Invalid else
  if need * 10 <? chosen then
    Ok (zs chosen +:+ " partitions vastly exceeds the need of " +:+ zs need
          +:+ "; each adds metadata, open files, and rebalance cost, the mistake in the other direction")
  else
  Ok (zs chosen +:+ " partitions is well matched to a need of " +:+ zs need).
End partitionplan.
Import partitionplan.

Module replicationfactor.
Module ReplicationPlan.
(** [relay/replicationfactor.py] class ReplicationPlan *)
Record t := mk { factor : Z; broker_count : Z; rack_count : Z; }.
(** [relay/replicationfactor.py] ReplicationPlan.__post_init__ *)
Definition make (factor : Z) (broker_count : Z) : result t :=
  if factor <? 1 then Err Invalid else
  if broker_count <? factor then Err Invalid else
  Ok (mk factor broker_count 1).
(** [relay/replicationfactor.py] ReplicationPlan.broker_fault_tolerance *)
Definition broker_fault_tolerance (self : t) : Z :=
  factor self - 1.
(** [relay/replicationfactor.py] ReplicationPlan.rack_fault_tolerance *)
Definition rack_fault_tolerance (self : t) : result string :=
  if rack_count self <=? 1 then
    Ok "one rack: no rack-failure tolerance regardless of factor"
  else
  q ← py_div (- (factor self)) (rack_count self);
  let copies_per_rack := - q in
  let survivable := rack_count self - copies_per_rack in
  if survivable <? 1 then
    Ok ("factor " +:+ zs (factor self) +:+ " across " +:+ zs (rack_count self)
          +:+ " rack(s) cannot give each copy its own rack; it survives losing the smaller rack at best")
  else
  Ok ("survives losing " +:+ zs survivable +:+ " of " +:+ zs (rack_count self) +:+ " rack(s)").
(** [relay/replicationfactor.py] ReplicationPlan.durability_note *)
Definition durability_note (self : t) : string :=
  if factor self =? 1 then
    "factor 1 is no replication; the copy dies with its broker, a durability-for-cost trade to make knowingly"
  else
  "factor " +:+ zs (factor self) +:+ " survives " +:+ zs (broker_fault_tolerance self)
        +:+ " simultaneous broker loss(es); three is the common floor for data that matters".
End ReplicationPlan.
End replicationfactor.
Import replicationfactor.

Module idletopic.
Module TopicActivity.
(** [relay/idletopic.py] class TopicActivity *)
Record t := mk { name : string; last_produce_tick : Z; active_consumers : Z; }.
End TopicActivity.
Module IdleDetector.
(** [relay/idletopic.py] class IdleDetector *)
Record t := mk { idle_window : Z; }.
(** [relay/idletopic.py] IdleDetector.__post_init__ *)
Definition make (idle_window : Z) : result t :=
  if idle_window <? 1 then Err Invalid else
  Ok (mk idle_window).
(** [relay/idletopic.py] IdleDetector.assess *)
Definition assess (self : t) (activity : TopicActivity.t) (now : Z) : string :=
  let no_produces := idle_window self <? now - (TopicActivity.last_produce_tick activity) in
  let no_consumers := TopicActivity.active_consumers activity =? 0 in
  if no_produces && no_consumers then
    (TopicActivity.name activity)
          +:+ ": no produces and no consumers for the window; mark for review, never auto-delete, because a slow topic may fire monthly"
  else
  if no_produces && (negb no_consumers) then
    (TopicActivity.name activity) +:+ ": no produces but "
          +:+ zs (TopicActivity.active_consumers activity)
          +:+ " active consumer(s); being drained, not abandoned"
  else
  if (negb no_produces) && no_consumers then
    (TopicActivity.name activity)
          +:+ ": produces but no consumers; a producer writing to a topic whose reader died, a different problem"
  else
  (TopicActivity.name activity) +:+ ": active on both signals".
(** [relay/idletopic.py] IdleDetector.archivable *)
Definition archivable (self : t) (activity : TopicActivity.t) (now : Z) : bool :=
  (idle_window self <? now - (TopicActivity.last_produce_tick activity)) && (TopicActivity.active_consumers activity =? 0).
End IdleDetector.
End idletopic.
Import idletopic.

Module listeners.
(** [relay/listeners.py] CLIENT *)
Definition CLIENT : string := "client".
(** [relay/listeners.py] INTERBROKER *)
Definition INTERBROKER : string := "interbroker".
(** [relay/listeners.py] _CLIENT_PROTOCOLS *)
Definition _CLIENT_PROTOCOLS : list string := ["produce"; "fetch"; "metadata"; "offsetcommit"].
(** [relay/listeners.py] _INTERBROKER_PROTOCOLS *)
Definition _INTERBROKER_PROTOCOLS : list string := ["replicate"; "controller"; "leaderandisr"].
Module Listener.
(** [relay/listeners.py] class Listener *)
Record t := mk { name : string; role : string; advertised : string; }.
(** [relay/listeners.py] Listener.__post_init__ *)
Definition make (name : string) (role : string) (advertised : string) : result t :=
  if negb (bool_decide (role ∈ [CLIENT; INTERBROKER])) then Err Invalid else
  if bool_decide (advertised = "") then Err Invalid else
  Ok (mk name role advertised).
End Listener.
Module ListenerRouter.
(** [relay/listeners.py] class ListenerRouter *)
Record t := mk { listeners : pydict string Listener.t; }.
Definition set_listeners (v : pydict string Listener.t) (self : t) : t := mk v.
Definition new : t := mk [].
(** [relay/listeners.py] ListenerRouter.add *)
Definition add (listener : Listener.t) : act t unit :=
  self ← get;
  put (set_listeners (d_set (listeners self) (Listener.role listener) listener) self).
(** [relay/listeners.py] ListenerRouter.route *)
Definition route (self : t) (arrived_on : string) (protocol : string) : result string :=
  let listener := d_get (listeners self) arrived_on in
  match listener with
  | None =>
      Err Invalid
  | Some listener =>
      if (bool_decide (arrived_on = CLIENT)) && (bool_decide (protocol ∈ _INTERBROKER_PROTOCOLS)) then Err Invalid else
      if (bool_decide (arrived_on = INTERBROKER)) && (bool_decide (protocol ∈ _CLIENT_PROTOCOLS)) then Err Invalid else
      Ok ("'" +:+ protocol +:+ "' served on the " +:+ arrived_on +:+ " listener")
  end.
(** [relay/listeners.py] ListenerRouter.mapping *)
Definition mapping (self : t) : string :=
  let parts := (λ '(role, lis), role +:+ " -> " +:+ Listener.advertised lis) <$> py_sorted (skey_le (λ p, p.1)) (listeners self) in
  join_str "; " parts +:+ "; a timeout is often a peer pointed at the wrong door".
End ListenerRouter.
End listeners.
Import listeners.

Module apirouter.
Module ApiRouter.
(** [relay/apirouter.py] class ApiRouter *)
Record t := mk { handlers : pydict string (Z * Z); }.
Definition set_handlers (v : pydict string (Z * Z)) (self : t) : t := mk v.
Definition new : t := mk [].
(** [relay/apirouter.py] ApiRouter.register *)
Definition register (key : string) (min_version : Z) (max_version : Z) : act t unit :=
  raise_if (max_version <? min_version) Invalid;;
  self ← get;
  put (set_handlers (d_set (handlers self) key (min_version, max_version)) self).
(** [relay/apirouter.py] ApiRouter.route *)
Definition route (self : t) (key : string) (version : Z) : result string :=
  if negb (d_mem (handlers self) key) then Err Missing else
  v ← d_item (handlers self) key;
  let '(low, high) := v in
  if version <? low then Err Invalid else
  if high <? version then Err Invalid else
  Ok ("routed '" +:+ key +:+ "' v" +:+ zs version +:+ " to its handler").
(** [relay/apirouter.py] ApiRouter.advertised_versions *)
Definition advertised_versions (self : t) : pydict string (Z * Z) :=
  handlers self.
End ApiRouter.
End apirouter.
Import apirouter.

Module metadatabootstrap.
Module Bootstrapper.
(** [relay/metadatabootstrap.py] class Bootstrapper *)
Record t := mk {
  bootstrap : list string;
  reachable : gset string;
  leaders : pydict Z string;
  _fetched : bool;
}.
Definition set__fetched (v : bool) (self : t) : t := mk (bootstrap self) (reachable self) (leaders self) v.
(** [relay/metadatabootstrap.py] Bootstrapper.__post_init__ *)
Definition make (bootstrap : list string) : result t :=
  if bool_decide (bootstrap = []) then Err Invalid else
  Ok (mk bootstrap (∅) [] false).
(** [relay/metadatabootstrap.py] Bootstrapper.fetch_metadata *)
Definition fetch_metadata : act t string :=
  self ← get;
  found ← for_first (imap (λ i x, (Z.of_nat i, x)) (bootstrap self)) (λ '(i, broker),
        self ← get;
        if bool_decide (broker ∈ reachable self) then
          put (set__fetched true self);;
          mret (Some ("bootstrapped from '" +:+ broker +:+ "' after trying " +:+ zs (i + 1)
                +:+ " broker(s); metadata fetched, now routing to leaders"))
        else
        mret None);
  match found with
  | Some r => mret r
  | None =>
      raise Invalid
  end.
(** [relay/metadatabootstrap.py] Bootstrapper.leader_of *)
Definition leader_of (self : t) (partition : Z) : result string :=
  if negb (_fetched self) then Err Invalid else
  if negb (d_mem (leaders self) partition) then Err Invalid else
  d_item (leaders self) partition.
(** [relay/metadatabootstrap.py] Bootstrapper.tries_needed *)
Definition tries_needed (self : t) : string :=
  match first_some (imap (λ i x, (Z.of_nat i, x)) (bootstrap self))
          (λ '(i, broker), if bool_decide (broker ∈ reachable self) then Some i else None) with
  | None => "no bootstrap broker reachable"
  | Some fell_through =>
      if fell_through =? 0 then "first bootstrap broker answered; healthy"
      else "fell through " +:+ zs fell_through
           +:+ " down broker(s) before one answered; the earlier bootstrap brokers are down, a fragility"
  end.
End Bootstrapper.
End metadatabootstrap.
Import metadatabootstrap.

Module metadataage.
Module AgeThresholds.
(** [relay/metadataage.py] class AgeThresholds *)
Record t := mk { read_max_age : Z; write_max_age : Z; }.
(** [relay/metadataage.py] AgeThresholds.__post_init__ *)
Definition make (read_max_age : Z) (write_max_age : Z) : result t :=
  if read_max_age <? write_max_age then Err Invalid else
  Ok (mk read_max_age write_max_age).
End AgeThresholds.
(** [relay/metadataage.py] refresh_needed *)
Definition refresh_needed (thresholds : AgeThresholds.t) (age : Z) (for_durable_write : bool) : string :=
  let limit := if for_durable_write then AgeThresholds.write_max_age thresholds else AgeThresholds.read_max_age thresholds in
  let kind := if for_durable_write then "durable write" else "read" in
  if age <=? limit then
    "no refresh: age " +:+ zs age +:+ " is within the " +:+ kind +:+ " threshold " +:+ zs limit
  else
  "refresh before this " +:+ kind +:+ ": age " +:+ zs age +:+ " exceeds the threshold "
        +:+ zs limit +:+ ", and a stale route could "
        +:+ (if for_durable_write then "accept a write the new leader will not have" else "cost one not-leader round trip, self-correcting").
(** [relay/metadataage.py] age_report *)
Definition age_report (thresholds : AgeThresholds.t) (age : Z) : string :=
  let read_ok := age <=? AgeThresholds.read_max_age thresholds in
  let write_ok := age <=? AgeThresholds.write_max_age thresholds in
  "age " +:+ zs age +:+ ": reads " +:+ (if read_ok then "ok" else "stale")
        +:+ ", durable writes " +:+ (if write_ok then "ok" else "stale")
        +:+ "; the same age can be fine for a read and stale for a write".
End metadataage.
Import metadataage.

Module capacityplan.
Module CapacityPlan.
(** [relay/capacityplan.py] class CapacityPlan *)
Record t := mk {
  bytes_per_second : float;
  retention_seconds : float;
  replication_factor : Z;
  brokers : Z;
}.
(** [relay/capacityplan.py] CapacityPlan.__post_init__ *)
Definition make (bytes_per_second : float) (retention_seconds : float) (replication_factor : Z) (brokers : Z) : result t :=
  if replication_factor <? 1 then Err Invalid else
  if f_le retention_seconds f0 then Err Invalid else
  if brokers <? 1 then Err Invalid else
  Ok (mk bytes_per_second retention_seconds replication_factor brokers).
(** [relay/capacityplan.py] CapacityPlan.one_copy_bytes *)
Definition one_copy_bytes (self : t) : float :=
  f_mul (bytes_per_second self) (retention_seconds self).
(** [relay/capacityplan.py] CapacityPlan.total_disk_bytes *)
Definition total_disk_bytes (self : t) : float :=
  f_mul (one_copy_bytes self) (of_Z (replication_factor self)).
(** [relay/capacityplan.py] CapacityPlan.per_broker_disk_bytes *)
Definition per_broker_disk_bytes (self : t) : result float :=
  f_div (total_disk_bytes self) (of_Z (brokers self)).
(** [relay/capacityplan.py] CapacityPlan.replication_out_bytes_per_second *)
Definition replication_out_bytes_per_second (self : t) : float :=
  f_mul (bytes_per_second self) (of_Z (replication_factor self - 1)).
(** [relay/capacityplan.py] CapacityPlan.report *)
Definition report (self : t) : result string :=
  let total := total_disk_bytes self in
  per ← per_broker_disk_bytes self;
  let repl := replication_out_bytes_per_second self in
  Ok ("disk " +:+ fmt_fixed 0 total +:+ " byte(s) total at factor "
        +:+ zs (replication_factor self) +:+ ", " +:+ fmt_fixed 0 per
        +:+ " per broker; leader replication out " +:+ fmt_fixed 0 repl
        +:+ " byte(s)/s, which saturates the network before client traffic on a high-factor cluster").
End CapacityPlan.
End capacityplan.
Import capacityplan.

Module protocol.
Module VersionRange.
(** [relay/protocol.py] class VersionRange *)
Record t := mk { minimum : Z; maximum : Z; }.
(** [relay/protocol.py] VersionRange.__post_init__ *)
Definition make (minimum : Z) (maximum : Z) : result t :=
  if maximum <? minimum then Err Invalid else
  Ok (mk minimum maximum).
(** [relay/protocol.py] VersionRange.overlaps *)
Definition overlaps (self : t) (other : VersionRange.t) : bool :=
  (minimum self <=? VersionRange.maximum other) && (VersionRange.minimum other <=? maximum self).
End VersionRange.
(** [relay/protocol.py] negotiate *)
Definition negotiate (request : string) (broker : VersionRange.t) (client : VersionRange.t) : result (Z * string) :=
  if negb (VersionRange.overlaps broker client) then
    if VersionRange.maximum broker <? VersionRange.minimum client then Err Invalid else
    Err Invalid
  else
  let chosen := Z.min (VersionRange.maximum broker) (VersionRange.maximum client) in
  Ok (chosen, request +:+ " negotiated at v" +:+ zs chosen
        +:+ "; recorded so a field that appeared in a later version does not confuse a client that never learned it").
End protocol.
Import protocol.


(** ** Topic ids *)

Section topic_ids.
Import TopicRegistry.

Inductive topic_op := Create (name : string) | Delete (name : string).
Definition topic_step (o : topic_op) : t → t :=
  match o with Create name => state_of (create name) | Delete name => state_of (delete_ name) end.

Lemma create_run name s : create name s =
  if d_mem (by_name s) name then (s, Err Invalid)
  else (mk (_next s + 1) (d_set (by_name s) name (_next s)) ({[_next s]} ∪ live_ids s) (retired_ids s), Ok (_next s)).
Proof. unfold create. rewrite bind_get, bind_raise_if. by destruct (d_mem _ _). Qed.
Lemma delete_run name s : delete_ name s =
  match d_get (by_name s) name with
  | Some i => (mk (_next s) (d_del (by_name s) name) (live_ids s ∖ {[i]}) ({[i]} ∪ retired_ids s), Ok ())
  | None => (s, Err Missing)
  end.
Proof.
  unfold delete_. rewrite bind_get, bind_raise_if, d_mem_get. destruct (d_get (by_name s) name) as [i|] eqn:Hi; [|done]. cbn [negb].
  unfold d_item. rewrite Hi. done.
Qed.

(** the names map one to one to the live ids; live and retired ids are apart and make up all those handed out *)
Record topics_ok (s : t) : Prop := {
  names_wf : d_wf (by_name s);
  ids_live : ∀ i, i ∈ live_ids s ↔ ∃ n, d_get (by_name s) n = Some i;
  ids_unique : ∀ n m i, d_get (by_name s) n = Some i → d_get (by_name s) m = Some i → n = m;
  ids_apart : live_ids s ## retired_ids s;
  ids_next : 1 <= _next s;
  ids_all : ∀ i, i ∈ live_ids s ∪ retired_ids s ↔ 1 <= i < _next s }.

Lemma topic_step_ok o s : topics_ok s → topics_ok (topic_step o s).
Proof.
  intros Hs. pose proof Hs as [Hwf Hlive Huniq Hapart Hone Hall]. destruct o as [n|n]; cbn [topic_step]; unfold state_of.
  - rewrite create_run, d_mem_get. destruct (d_get (by_name s) n) as [i|] eqn:Hn; [done|].
    assert (∀ m i, d_get (by_name s) m = Some i → 1 <= i < _next s) as Hbelow.
    { intros m i Hm. apply Hall, elem_of_union_l, Hlive. by exists m. }
    assert (_next s ∉ live_ids s ∪ retired_ids s) as Hfresh by (rewrite Hall; lia).
    constructor; cbn [fst _next by_name live_ids retired_ids].
    + by apply d_wf_set.
    + intros i. rewrite elem_of_union, elem_of_singleton, Hlive. split.
      * intros [->|[m Hm]]; [exists n; by rewrite d_get_set_eq|]. exists m. rewrite d_get_set_ne; [done|]. intros ->. congruence.
      * intros [m Hm]. rewrite d_get_set in Hm. case_bool_decide; [left; congruence|right; by exists m].
    + intros a b i. rewrite !d_get_set. case_bool_decide as Ha; case_bool_decide as Hb; intros H1 H2; simplify_eq; try done.
      * apply Hbelow in H2. lia.
      * apply Hbelow in H1. lia.
      * by eapply Huniq.
    + set_solver.
    + lia.
    + intros i. rewrite <- union_assoc_L, elem_of_union, elem_of_singleton, Hall. lia.
  - rewrite delete_run. destruct (d_get (by_name s) n) as [i|] eqn:Hn; [|done].
    assert (i ∈ live_ids s) as Hi by (apply Hlive; by exists n).
    constructor; cbn [fst _next by_name live_ids retired_ids].
    + by apply d_wf_del.
    + intros j. rewrite elem_of_difference, elem_of_singleton, Hlive. split.
      * intros [[m Hm] Hj]. exists m. rewrite d_get_del. case_bool_decide; [congruence|done].
      * intros [m Hm]. rewrite d_get_del in Hm. case_bool_decide as Hmn; [done|]. split; [by exists m|]. intros ->. by apply Hmn, (Huniq _ _ i).
    + intros a b j. rewrite !d_get_del. case_bool_decide; case_bool_decide; try done. apply Huniq.
    + set_solver.
    + done.
    + intros j. rewrite <- Hall. destruct (decide (j = i)) as [->|]; set_solver.
Qed.

(** the registry and, for each topic created, its name and id, oldest first *)
Definition record_step (o : topic_op) (w : t * list (string * Z)) : t * list (string * Z) :=
  match o with
  | Create name => match create name w.1 with (s, Ok i) => (s, w.2 ++ [(name, i)]) | (s, Err _) => (s, w.2) end
  | Delete name => (topic_step o w.1, w.2)
  end.

Record history_ok (w : t * list (string * Z)) : Prop := {
  hist_ok : topics_ok w.1;
  hist_ids : w.2.*2 = seqZ 1 (_next w.1 - 1);
  hist_names : ∀ n i, d_get (by_name w.1) n = Some i → (n, i) ∈ w.2 }.

Lemma record_step_ok o w : history_ok w → history_ok (record_step o w).
Proof.
  destruct w as [s h]. intros [Hs Hids Hnames]. cbn [fst snd] in *.
  pose proof (topic_step_ok o s Hs) as Hs'. destruct o as [n|n]; cbn [record_step fst snd topic_step] in *; unfold state_of in *.
  - revert Hs'. rewrite create_run, d_mem_get. destruct (d_get (by_name s) n) as [i|] eqn:Hn; [by constructor|]. intros Hs'.
    constructor; cbn [fst snd _next by_name]; [done| |].
    + pose proof (ids_next _ Hs). rewrite fmap_app, Hids. cbn. replace (_next s + 1 - 1) with (_next s - 1 + 1) by lia.
      rewrite seqZ_app by lia. f_equal. rewrite (seqZ_cons (1 + (_next s - 1)) 1) by lia. cbn. f_equal. lia.
    + intros m i. rewrite d_get_set, elem_of_app, list_elem_of_singleton. case_bool_decide as Hm.
      * intros [= <-]. subst m. by right.
      * intros Hi. left. by apply Hnames.
  - revert Hs'. rewrite delete_run. destruct (d_get (by_name s) n) as [i|] eqn:Hn; [|by constructor]. intros Hs'.
    constructor; cbn [fst snd _next by_name] in *; [done|done|].
    intros m j. rewrite d_get_del. case_bool_decide; [done|]. apply Hnames.
Qed.
Lemma retired_stays later s i : i ∈ retired_ids s → i ∈ retired_ids (run topic_step later s).
Proof.
  apply (run_invariant topic_step (λ s, i ∈ retired_ids s)). clear. intros [n|n] s Hi; cbn [topic_step]; unfold state_of.
  - rewrite create_run. by destruct (d_mem _ _).
  - rewrite delete_run. destruct (d_get _ _); [|done]. cbn. set_solver.
Qed.

Lemma resolve_exact s i : topics_ok s →
  (∀ n, resolve_id s i = Ok n ↔ d_get (by_name s) n = Some i) ∧ (i ∉ live_ids s → resolve_id s i = Err Missing).
Proof.
  intros [Hwf Hlive Huniq _ _ _]. unfold resolve_id. case_bool_decide as Hi; cbn [negb].
  - split; [|done]. intros n. apply Hlive in Hi as [m Hm].
    assert (∀ l : pydict string Z, r_first l (λ '(name, tid), if tid =? i then Ok (Some name) else Ok None) =
      Ok (fst <$> head (py_filter (λ p, p.2 =? i) l))) as Hfirst.
    { induction l as [|[a b] l IH]; [done|]. cbn [r_first]. rewrite py_filter_cons. cbn [snd]. by destruct (b =? i). }
    rewrite Hfirst. cbn [mbind result_bind].
    assert ((m, i) ∈ py_filter (λ p, p.2 =? i) (by_name s)) as Hin.
    { apply elem_of_py_filter. split; [apply Z.eqb_refl|by apply d_get_elem_of]. }
    destruct (py_filter _ _) as [|[a b] l] eqn:Hl; [by apply elem_of_nil in Hin|]. cbn.
    assert ((a, b) ∈ py_filter (λ p, p.2 =? i) (by_name s)) as Hab by (rewrite Hl; left).
    apply elem_of_py_filter in Hab as [Hb Hab]. cbn in Hb. apply Z.eqb_eq in Hb as ->. apply (d_elem_of_get _ _ _ Hwf) in Hab.
    split; [by intros [= <-]|]. intros Hn. f_equal. by eapply Huniq.
  - split; [|done]. intros n. split; [done|]. intros Hn. destruct Hi. apply Hlive. by exists n.
Qed.

Lemma deleted_unresolved s n i later : topics_ok s → d_get (by_name s) n = Some i →
  resolve_id (run topic_step (Delete n :: later) s) i = Err Missing.
Proof.
  intros Hs Hn. cbn [run foldl]. change (foldl _ _ later) with (run topic_step later (topic_step (Delete n) s)).
  assert (topics_ok (run topic_step later (topic_step (Delete n) s))) as Hs'.
  { apply (run_invariant topic_step topics_ok); [apply topic_step_ok|by apply topic_step_ok]. }
  apply (resolve_exact _ i Hs'). intros Hi. apply (ids_apart _ Hs' i Hi), retired_stays.
  cbn [topic_step]. unfold state_of. rewrite delete_run, Hn. cbn. set_solver.
Qed.

Lemma history_run ops : history_ok (run record_step ops (new, [])).
Proof.
  apply (run_invariant record_step history_ok); [apply record_step_ok|].
  constructor; cbn; [constructor; cbn|done|done]; [constructor| |done|set_solver|lia|set_solver by lia].
  intros i. split; [set_solver|by intros (? & ?)].
Qed.
End topic_ids.

(** C27 (invariant): a topic id names one topic forever.  After any sequence of creations and deletions, refused ones
    included, the ids handed out are 1, 2, and so on, no two creations getting the same one even under the same
    name; an id is live exactly if a present name has it, and it was handed out for that name; every id
    handed out is live or retired, never both; an id resolves to a name exactly if that name has it, and one that is not
    live raises [Missing].  Creating a name that is absent succeeds with the next id, one that is present raises
    [Invalid], deleting one that is absent [Missing], and neither changes anything; once a name is deleted, its id
    never resolves again, whatever follows; and a client that saw a retired id of a name is told that the
    topic was recreated exactly if the name is present. *)
Theorem topic_ids_never_reused (ops : list topic_op) :
  let '(s, created) := run record_step ops (TopicRegistry.new, []) in
  let named n i := d_get (TopicRegistry.by_name s) n = Some i in
  (created.*2 = seqZ 1 (TopicRegistry._next s - 1) ∧ NoDup created.*2) ∧
  (∀ i, i ∈ TopicRegistry.live_ids s ↔ ∃ n, named n i) ∧ (∀ n i, named n i → (n, i) ∈ created) ∧
  (∀ i, i ∈ created.*2 ↔ i ∈ TopicRegistry.live_ids s ∪ TopicRegistry.retired_ids s) ∧
  TopicRegistry.live_ids s ## TopicRegistry.retired_ids s ∧
  (∀ i, (∀ n, TopicRegistry.resolve_id s i = Ok n ↔ named n i) ∧
    (i ∉ TopicRegistry.live_ids s → TopicRegistry.resolve_id s i = Err Missing)) ∧
  (∀ n, match d_get (TopicRegistry.by_name s) n with
        | Some i => TopicRegistry.create n s = (s, Err Invalid) ∧
            ∀ later, TopicRegistry.resolve_id (run topic_step (Delete n :: later) s) i = Err Missing
        | None => TopicRegistry.delete_ n s = (s, Err Missing) ∧
            (TopicRegistry.create n s).2 = Ok (TopicRegistry._next s) ∧
            d_get (TopicRegistry.by_name (TopicRegistry.create n s).1) n = Some (TopicRegistry._next s)
        end) ∧
  (∀ n i, (n, i) ∈ created → i ∈ TopicRegistry.retired_ids s →
    TopicRegistry.is_recreated s n i = d_mem (TopicRegistry.by_name s) n).
Proof.
  pose proof (history_run ops) as Hok. destruct (run record_step ops _) as [s created].
  destruct Hok as [Hs Hids Hnames]. cbn [fst snd] in *. split_and!.
  - exact Hids.
  - rewrite Hids. apply NoDup_seqZ.
  - apply Hs.
  - exact Hnames.
  - intros i. rewrite Hids, elem_of_seqZ, (ids_all _ Hs). lia.
  - apply Hs.
  - intros i. by apply resolve_exact.
  - intros n. rewrite create_run, delete_run, d_mem_get. destruct (d_get (TopicRegistry.by_name s) n) as [i|] eqn:Hn.
    + split; [done|]. intros later. by apply deleted_unresolved.
    + cbn [fst snd TopicRegistry.by_name]. split_and!; [done..|apply d_get_set_eq].
  - intros n i _ Hret. unfold TopicRegistry.is_recreated. rewrite d_mem_get.
    destruct (d_get (TopicRegistry.by_name s) n) as [j|] eqn:Hj; [|done].
    rewrite (proj2 (Z.eqb_neq j i)); [done|]. intros ->. apply (ids_apart _ Hs i); [apply Hs; by exists n|done].
Qed.

(** ** Controlled shutdown *)

Section shutdown.
Import ControlledShutdown.

(** the replicas that could take over a partition *)
Definition takers (self : t) (p : _Partition.t) : pydict string Z :=
  py_filter (λ '(r, _), negb (bool_decide (r = broker self))) (_Partition.in_sync p).
Definition plan_body (self : t) (moves : pydict string string) (p : _Partition.t) : result (pydict string string) :=
    let targets := takers self p in
    moves ← (if negb (bool_decide (targets = [])) then
       name ← py_max_key Z.ltb (λ r, d_getd targets r 0) (d_keys targets);
       Ok (d_set moves (_Partition.name p) name)
     else
       Ok moves);
    Ok moves.

Lemma takers_elem_of self p r e : (r, e) ∈ takers self p ↔ (r, e) ∈ _Partition.in_sync p ∧ r ≠ broker self.
Proof. unfold takers. rewrite elem_of_py_filter, negb_true_iff, bool_decide_eq_false. tauto. Qed.
Lemma takers_wf self p : d_wf (_Partition.in_sync p) → d_wf (takers self p).
Proof.
  unfold d_wf, d_keys, takers. intros Hwf. induction (_Partition.in_sync p) as [|[r e] l IH]; [constructor|].
  cbn in Hwf. apply NoDup_cons in Hwf as [Hr Hwf]. rewrite py_filter_cons. destruct (negb _); [|by apply IH].
  cbn. constructor; [|by apply IH]. intros ([r' e'] & -> & Hin)%list_elem_of_fmap. apply elem_of_py_filter in Hin as [_ Hin].
  apply Hr. apply list_elem_of_fmap. by exists (r', e').
Qed.
Lemma blocked_takers self p : forallb (λ r, bool_decide (r = broker self)) (d_keys (_Partition.in_sync p)) = true ↔ takers self p = [].
Proof.
  rewrite forallb_elem. split.
  - intros Hall. apply py_filter_nil_iff. intros [r e] Hin. apply negb_false_iff. apply Hall. apply list_elem_of_fmap. by exists (r, e).
  - intros Hnil r ([r' e] & -> & Hin)%list_elem_of_fmap. apply bool_decide_eq_true. destruct (decide (r' = broker self)); [done|].
    assert ((r', e) ∈ takers self p) as H by by apply takers_elem_of. rewrite Hnil in H. by apply elem_of_nil in H.
Qed.

(** a good new leader of a partition: in sync, not the departing broker, and none of them is further ahead *)
Definition good_target (self : t) (p : _Partition.t) (target : string) : Prop :=
  target ≠ broker self ∧ ∃ e, d_get (_Partition.in_sync p) target = Some e ∧
  ∀ r e', d_get (_Partition.in_sync p) r = Some e' → r ≠ broker self → e' <= e.

Lemma plan_one self p moves : d_wf (_Partition.in_sync p) →
  (takers self p = [] ∧ plan_body self moves p = Ok moves) ∨
  ∃ target, good_target self p target ∧ plan_body self moves p = Ok (d_set moves (_Partition.name p) target).
Proof.
  intros Hwf. unfold plan_body. case_bool_decide as Hnil; cbn [negb]; [by left|]. right.
  pose proof (takers_wf self p Hwf) as Htwf.
  destruct (py_max_key _ _ _) as [target|] eqn:Hmax.
  - exists target. split; [|done]. pose proof (py_max_key_elem _ _ _ _ Hmax) as Hin. pose proof (py_max_key_ge _ _ _ Hmax) as Hge.
    apply list_elem_of_fmap in Hin as ([t e] & Ht & Hin). cbn in Ht. subst target. pose proof Hin as [Hsync Hne]%takers_elem_of.
    split; [done|]. exists e. split; [by apply d_elem_of_get|]. intros r e' Hr Hrne.
    assert ((r, e') ∈ takers self p) as Hrin by (apply takers_elem_of; split; [by apply d_get_elem_of|done]).
    specialize (Hge r ltac:(apply list_elem_of_fmap; by exists (r, e'))). cbn in Hge. unfold d_getd in Hge.
    by rewrite (d_elem_of_get _ _ _ Htwf Hrin), (d_elem_of_get _ _ _ Htwf Hin) in Hge.
  - unfold py_max_key, d_keys in Hmax. by destruct (takers self p).
Qed.

Lemma plan_loop self l moves : (∀ p, p ∈ l → d_wf (_Partition.in_sync p)) → NoDup (_Partition.name <$> l) →
  (∀ p, p ∈ l → _Partition.name p ∉ d_keys moves) →
  ∃ moves', r_fold l moves (plan_body self) = Ok moves' ∧
    (∀ n, n ∉ _Partition.name <$> l → d_get moves' n = d_get moves n) ∧
    ∀ p, p ∈ l → match d_get moves' (_Partition.name p) with Some target => good_target self p target | None => takers self p = [] end.
Proof.
  revert moves. induction l as [|p l IH]; intros moves Hwf Hnd Hfresh.
  { exists moves. split_and!; [done..|]. by intros p ?%elem_of_nil. }
  cbn [fmap list_fmap] in Hnd. apply NoDup_cons in Hnd as [Hp Hnd]. cbn [r_fold].
  assert (∀ moves1, (∀ n, n ≠ _Partition.name p → d_get moves1 n = d_get moves n) → plan_body self moves p = Ok moves1 →
    match d_get moves1 (_Partition.name p) with Some target => good_target self p target | None => takers self p = [] end →
    ∃ moves', (b ← plan_body self moves p; r_fold l b (plan_body self)) = Ok moves' ∧
      (∀ n, n ∉ _Partition.name <$> p :: l → d_get moves' n = d_get moves n) ∧
      ∀ q, q ∈ p :: l → match d_get moves' (_Partition.name q) with Some target => good_target self q target | None => takers self q = [] end) as Hstep.
  { intros moves1 Hother Hrun Hgood. destruct (IH moves1) as (moves' & Hm & Hout & Hin).
    - intros q Hq. apply Hwf. by right.
    - done.
    - intros q Hq. rewrite <- d_get_None, Hother; [apply d_get_None, Hfresh; by right|].
      intros Heq. apply Hp. apply list_elem_of_fmap. by exists q.
    - exists moves'. split_and!; [by rewrite Hrun| |].
      + intros n [Hn Hnl]%not_elem_of_cons. rewrite Hout by done. by apply Hother.
      + intros q [->|Hq]%elem_of_cons; [|by apply Hin]. by rewrite Hout. }
  destruct (plan_one self p moves) as [[Hnil Hrun]|(target & Hgood & Hrun)]; [apply Hwf; left| |].
  - apply (Hstep moves); [done|done|]. rewrite (proj2 (d_get_None _ _)); [done|]. apply Hfresh. left.
  - apply (Hstep (d_set moves (_Partition.name p) target)); [|done|by rewrite d_get_set_eq].
    intros n Hn. by apply d_get_set_ne.
Qed.
End shutdown.

(** Also (functional): a controlled shutdown moves each leadership to the best survivor.  For partitions of distinct names,
    the plan is always defined; each partition with an in-sync replica besides the departing broker moves to one that
    is in sync, is not the broker, and is as far ahead as any other; the rest, and only they, are
    reported blocked, and the shutdown is clean exactly if every partition has a move. *)
Theorem shutdown_plan_exact (self : ControlledShutdown.t)
    (Hwf : ∀ p, p ∈ ControlledShutdown.partitions self → d_wf (_Partition.in_sync p))
    (Hnames : NoDup (_Partition.name <$> ControlledShutdown.partitions self)) :
  ∃ moves, ControlledShutdown.plan self = Ok moves ∧
  (∀ n, n ∈ d_keys moves → n ∈ _Partition.name <$> ControlledShutdown.partitions self) ∧
  (∀ p, p ∈ ControlledShutdown.partitions self →
    match d_get moves (_Partition.name p) with
    | Some target => good_target self p target ∧ _Partition.name p ∉ ControlledShutdown.blocked self
    | None => _Partition.name p ∈ ControlledShutdown.blocked self
    end) ∧
  (ControlledShutdown.is_clean self = true ↔
    ∀ p, p ∈ ControlledShutdown.partitions self → is_Some (d_get moves (_Partition.name p))).
Proof.
  destruct (plan_loop self (ControlledShutdown.partitions self) [] Hwf Hnames) as (moves & Hrun & Hout & Hin).
  { intros p _. apply not_elem_of_nil. }
  assert (∀ p, p ∈ ControlledShutdown.partitions self → _Partition.name p ∈ ControlledShutdown.blocked self ↔ takers self p = []) as Hblocked.
  { intros p Hp. unfold ControlledShutdown.blocked. rewrite <- blocked_takers. split.
    - intros (q & Hq & Hqin)%list_elem_of_fmap. apply elem_of_py_filter in Hqin as [Hb Hqin].
      assert (p = q) as ->; [|done]. clear -Hp Hq Hqin Hnames. induction (ControlledShutdown.partitions self) as [|a l IH]; [by apply elem_of_nil in Hp|].
      cbn in Hnames. apply NoDup_cons in Hnames as [Ha Hnd].
      apply elem_of_cons in Hp as [->|Hp], Hqin as [->|Hqin]; [done| | |by apply IH].
      + destruct Ha. apply list_elem_of_fmap. by exists q.
      + destruct Ha. apply list_elem_of_fmap. by exists p.
    - intros Hb. apply list_elem_of_fmap. exists p. split; [done|]. by apply elem_of_py_filter. }
  assert (∀ p, p ∈ ControlledShutdown.partitions self → d_get moves (_Partition.name p) = None ↔ takers self p = []) as Hnone.
  { intros p Hp. specialize (Hin p Hp). destruct (d_get moves _) as [target|]; [|done]. split; [done|]. intros Hnil.
    destruct Hin as (Hne & e & He & _). assert ((target, e) ∈ takers self p) as H by (apply takers_elem_of; split; [by apply d_get_elem_of|done]).
    rewrite Hnil in H. by apply elem_of_nil in H. }
  exists moves. split_and!; [| | |].
  { unfold ControlledShutdown.plan. change (r_fold _ _ _) with (r_fold (ControlledShutdown.partitions self) [] (plan_body self)). by rewrite Hrun. }
  - intros n Hn. destruct (decide (n ∈ _Partition.name <$> ControlledShutdown.partitions self)); [done|].
    apply d_get_is_Some in Hn. rewrite Hout in Hn by done. by destruct Hn.
  - intros p Hp. specialize (Hin p Hp). specialize (Hnone p Hp). specialize (Hblocked p Hp). destruct (d_get moves _) as [target|].
    + split; [done|]. rewrite Hblocked, <- Hnone. done.
    + by apply Hblocked, Hnone.
  - unfold ControlledShutdown.is_clean. rewrite bool_decide_eq_true. split.
    + intros Hnil p Hp. destruct (d_get moves _) as [target|] eqn:Hget; [done|]. exfalso.
      apply Hnone, Hblocked in Hget; [|done..]. rewrite Hnil in Hget. by apply elem_of_nil in Hget.
    + intros Hall. assert (∀ n, n ∉ ControlledShutdown.blocked self) as Hno; [|destruct (ControlledShutdown.blocked self) as [|n l]; [done|]; by destruct (Hno n); left].
      intros n Hn. pose proof Hn as Hn'.
      unfold ControlledShutdown.blocked in Hn. apply list_elem_of_fmap in Hn as (p & -> & [_ Hp]%elem_of_py_filter).
      apply Hblocked, Hnone in Hn'; [|done..]. destruct (Hall p Hp) as [? ?]. congruence.
Qed.

Lemma shutdown_plan_exact_witness :
  let self := ControlledShutdown.mk "b1" [_Partition.mk "p0" "b1" [("b1", 9); ("b2", 7); ("b3", 8)]; _Partition.mk "p1" "b1" [("b1", 4)]] in
  ∃ moves, ControlledShutdown.plan self = Ok moves ∧
  (∀ n, n ∈ d_keys moves → n ∈ _Partition.name <$> ControlledShutdown.partitions self) ∧
  (∀ p, p ∈ ControlledShutdown.partitions self →
    match d_get moves (_Partition.name p) with
    | Some target => good_target self p target ∧ _Partition.name p ∉ ControlledShutdown.blocked self
    | None => _Partition.name p ∈ ControlledShutdown.blocked self
    end) ∧
  (ControlledShutdown.is_clean self = true ↔
    ∀ p, p ∈ ControlledShutdown.partitions self → is_Some (d_get moves (_Partition.name p))).
Proof.
  apply (shutdown_plan_exact (ControlledShutdown.mk "b1" [_Partition.mk "p0" "b1" [("b1", 9); ("b2", 7); ("b3", 8)]; _Partition.mk "p1" "b1" [("b1", 4)]])).
  - intros p Hp. cbn in Hp. apply elem_of_cons in Hp as [ -> |Hp]; [|apply list_elem_of_singleton in Hp as -> ];
      unfold d_wf; apply (bool_decide_unpack _); vm_compute; exact I.
  - apply (bool_decide_unpack _). vm_compute. exact I.
Defined.

(** ** Topic deletion *)

Section deletion.
Import TopicLifecycle.

Inductive life_op := Mark (requester : string) (now : Z) | Cancel | Remove (now : Z) (uncommitted : list string).
Definition life_step (o : life_op) : t → t :=
  match o with
  | Mark requester now => state_of (mark requester now)
  | Cancel => state_of cancel
  | Remove now uncommitted => state_of (remove now uncommitted)
  end.

(** the last mark that stands, with when it was set *)
Fixpoint standing (ops : list life_op) (m : option (string * Z)) : option (string * Z) :=
  match ops with
  | [] => m
  | Mark requester now :: ops => standing ops (match m with None => if blank requester then None else Some (requester, now) | Some _ => m end)
  | Cancel :: ops => standing ops None
  | Remove _ _ :: ops => standing ops m
  end.

Definition life_inv (ops : list life_op) (s : t) : Prop :=
  grace_ticks s = 100 ∧
  ((state s = ACTIVE ∧ standing ops None = None) ∨
   (state s = MARKED ∧ standing ops None = Some (marked_by s, marked_at s)) ∨
   (state s = REMOVED ∧ ∃ pre post now, ops = pre ++ Remove now [] :: post ∧
      ∃ requester at_, standing pre None = Some (requester, at_) ∧ at_ + 100 <= now ∧ marked_by s = requester)).

Lemma standing_snoc ops o m : standing (ops ++ [o]) m = standing [o] (standing ops m).
Proof. revert m. induction ops as [|p ops IH]; intros m; [done|]. destruct p; cbn [app]; apply IH. Qed.

Lemma life_step_inv ops o s : life_inv ops s → life_inv (ops ++ [o]) (life_step o s).
Proof.
  intros [Hg Hcase]. unfold life_inv. rewrite standing_snoc.
  destruct o as [requester now| |now uncommitted]; cbn [life_step]; unfold state_of.
  - unfold mark. rewrite bind_get, bind_raise_if. destruct Hcase as [[Hs Hm]|[[Hs Hm]|[Hs Hr]]]; rewrite Hs.
    + rewrite Hm. cbn [standing]. change (bool_decide (ACTIVE = ACTIVE)) with true. cbn [negb]. rewrite bind_raise_if.
      destruct (blank requester); [by split; [|left]|]. cbn. split; [done|]. right. left. done.
    + split; [done|]. right. left. split; [done|]. cbn [fst standing]. by rewrite Hm.
    + split; [done|]. right. right. split; [done|]. destruct Hr as (pre & post & n & -> & H). exists pre, (post ++ [Mark requester now]), n.
      split; [by rewrite <- app_assoc|done].
  - unfold cancel. rewrite bind_get, bind_raise_if. destruct Hcase as [[Hs Hm]|[[Hs Hm]|[Hs Hr]]]; rewrite Hs.
    + cbn. split; [done|]. by left.
    + cbn. split; [done|]. by left.
    + split; [done|]. right. right. split; [done|]. destruct Hr as (pre & post & n & -> & H). exists pre, (post ++ [Cancel]), n.
      split; [by rewrite <- app_assoc|done].
  - unfold remove. rewrite bind_get, bind_raise_if. destruct Hcase as [[Hs Hm]|[[Hs Hm]|[Hs Hr]]]; rewrite Hs.
    + split; [done|]. left. done.
    + change (bool_decide (MARKED = MARKED)) with true. cbn [negb]. rewrite bind_raise_if, Hg.
      destruct (Z.ltb_spec (now - marked_at s) 100); [split; [done|]; right; by left|]. rewrite bind_raise_if.
      case_bool_decide as Hu; [|split; [done|]; right; by left]. cbn. split; [done|]. right. right. split; [done|].
      exists ops, [], now. subst uncommitted. split; [done|]. exists (marked_by s), (marked_at s). split_and!; [done|lia|done].
    + split; [done|]. right. right. split; [done|]. destruct Hr as (pre & post & n & -> & H). exists pre, (post ++ [Remove now uncommitted]), n.
      split; [by rewrite <- app_assoc|done].
Qed.
End deletion.

(** Also (safety): a topic is removed only after its grace.  After any sequence of marks, cancellations and removals,
    the topic takes writes exactly while no deletion mark stands and it is not removed; it is removed only if
    some removal came with no group uncommitted and at least the grace after the mark that stood then, whose
    requester is still on record; and nothing brings a removed topic back. *)
Theorem topic_removed_after_grace (name : string) (ops : list life_op) :
  let s := run life_step ops (TopicLifecycle.new name) in
  (TopicLifecycle.state s = REMOVED → ∃ pre post now requester at_, ops = pre ++ Remove now [] :: post ∧
    standing pre None = Some (requester, at_) ∧ at_ + 100 <= now ∧ TopicLifecycle.marked_by s = requester) ∧
  (TopicLifecycle.accepts_produce s = true → standing ops None = None) ∧
  (TopicLifecycle.state s = MARKED ↔ TopicLifecycle.accepts_produce s = false ∧ TopicLifecycle.state s ≠ REMOVED) ∧
  (TopicLifecycle.state s = REMOVED → ∀ later, run life_step later s = s).
Proof.
  intros s. assert (life_inv ops s) as [Hg Hcase].
  { unfold s. induction ops as [|o ops IH] using rev_ind; [by split; [|left]|]. rewrite run_app. by apply life_step_inv. }
  unfold TopicLifecycle.accepts_produce. split_and!.
  - intros Hr. destruct Hcase as [[Hs _]|[[Hs _]|[_ (pre & post & now & Hops & requester & at_ & H)]]]; [by rewrite Hs in Hr..|].
    exists pre, post, now, requester, at_. done.
  - rewrite bool_decide_eq_true. intros Ha. destruct Hcase as [[_ H]|[[Hs _]|[Hs _]]]; [done|by rewrite Hs in Ha..].
  - rewrite bool_decide_eq_false. destruct Hcase as [[Hs _]|[[Hs _]|[Hs _]]]; rewrite Hs; split; try done; by intros [? ?].
  - intros Hr later. induction later as [|o l IH]; [done|]. cbn [run foldl]. assert (life_step o s = s) as ->; [|exact IH].
    destruct o; cbn [life_step]; unfold state_of, TopicLifecycle.mark, TopicLifecycle.cancel, TopicLifecycle.remove;
      rewrite bind_get, bind_raise_if, Hr; done.
Qed.

(** ** Versions, partitions and handing off *)

Section planning.

Definition speaks (r : VersionRange.t) (v : Z) : Prop := VersionRange.minimum r <= v <= VersionRange.maximum r.

Lemma overlap_spec (b c : VersionRange.t) : VersionRange.minimum b <= VersionRange.maximum b → VersionRange.minimum c <= VersionRange.maximum c →
  VersionRange.overlaps b c = true ↔ ∃ v, speaks b v ∧ speaks c v.
Proof.
  intros Hb Hc. unfold VersionRange.overlaps, speaks. rewrite andb_true_iff, !Z.leb_le. split; [|intros (v & ? & ?); lia].
  intros [? ?]. exists (Z.min (VersionRange.maximum b) (VersionRange.maximum c)). lia.
Qed.

(** what [execute] may hand a partition to *)
Definition candidates (s : ShutdownPlan.t) (p : Z) (replicas : list string) : list string :=
  py_filter (λ r, negb (bool_decide (r = ShutdownPlan.departing s)) && bool_decide (r ∈ d_getd (ShutdownPlan.caught_up s) p ∅)) replicas.
Definition handoff_body (p : Z * list string) : act ShutdownPlan.t unit :=
  let '(partition, replicas) := p in
  self ← get;
  let cs := candidates self partition replicas in
  (if negb (bool_decide (cs = [])) then
     x ← pure_of (py_index cs 0);
     put (ShutdownPlan.set_handed_off (d_set (ShutdownPlan.handed_off self) partition x) self)
   else put (ShutdownPlan.set_stranded (ShutdownPlan.stranded self ++ [partition]) self));;
  mret ().

Definition handed (p : Z) (replicas : list string) (s : ShutdownPlan.t) : ShutdownPlan.t :=
  match candidates s p replicas with
  | c :: _ => ShutdownPlan.set_handed_off (d_set (ShutdownPlan.handed_off s) p c) s
  | [] => ShutdownPlan.set_stranded (ShutdownPlan.stranded s ++ [p]) s
  end.
Lemma handoff_body_run p replicas s : handoff_body (p, replicas) s = (handed p replicas s, Ok ()).
Proof. unfold handoff_body, handed. rewrite bind_get. cbv zeta. by destruct (candidates s p replicas). Qed.

Lemma handoff_loop l s : NoDup l.*1 → ∃ s', for_each l handoff_body s = (s', Ok ()) ∧
  ShutdownPlan.departing s' = ShutdownPlan.departing s ∧ ShutdownPlan.caught_up s' = ShutdownPlan.caught_up s ∧
  ShutdownPlan.led_partitions s' = ShutdownPlan.led_partitions s ∧
  (∀ p rs, (p, rs) ∈ l → match candidates s p rs with
    | c :: _ => d_get (ShutdownPlan.handed_off s') p = Some c
    | [] => d_get (ShutdownPlan.handed_off s') p = d_get (ShutdownPlan.handed_off s) p end) ∧
  (∀ p, p ∉ l.*1 → d_get (ShutdownPlan.handed_off s') p = d_get (ShutdownPlan.handed_off s) p) ∧
  (∀ p, p ∈ ShutdownPlan.stranded s' ↔ p ∈ ShutdownPlan.stranded s ∨ ∃ rs, (p, rs) ∈ l ∧ candidates s p rs = []).
Proof.
  revert s. induction l as [|[p rs] l IH]; intros s Hnd.
  { exists s. split_and!; [done..|by intros ? ? ?%elem_of_nil|done|]. intros p. split; [by left|]. intros [?|(? & ?%elem_of_nil & _)]; done. }
  apply NoDup_cons in Hnd as [Hp Hnd]. change (p ∉ l.*1) in Hp. cbn [for_each]. rewrite bind_run, handoff_body_run.
  set (s1 := handed p rs s).
  assert (ShutdownPlan.departing s1 = ShutdownPlan.departing s ∧ ShutdownPlan.caught_up s1 = ShutdownPlan.caught_up s ∧
    ShutdownPlan.led_partitions s1 = ShutdownPlan.led_partitions s) as (Hd & Hc & Hl) by (unfold s1, handed; by destruct (candidates s p rs)).
  assert (∀ q qs, candidates s1 q qs = candidates s q qs) as Hcand by (intros; unfold candidates; by rewrite Hd, Hc).
  destruct (IH s1 Hnd) as (s' & Hrun & Hd' & Hc' & Hl' & Hin & Hout & Hstr). exists s'.
  assert (∀ q, q ≠ p → d_get (ShutdownPlan.handed_off s1) q = d_get (ShutdownPlan.handed_off s) q) as Hother.
  { intros q Hq. unfold s1, handed. destruct (candidates s p rs); [done|]. cbn. by rewrite d_get_set_ne. }
  split_and!; [|congruence..| | |].
  - exact Hrun.
  - intros q qs [[= -> ->]|Hq]%elem_of_cons.
    + rewrite (Hout p Hp). unfold s1, handed. destruct (candidates s p rs) as [|c cs]; [done|]. cbn. apply d_get_set_eq.
    + specialize (Hin q qs Hq). rewrite Hcand in Hin. destruct (candidates s q qs); [|done]. rewrite Hin. apply Hother.
      intros ->. apply Hp, list_elem_of_fmap. by exists (p, qs).
  - intros q Hq. change (q ∉ p :: l.*1) in Hq. rewrite Hout by set_solver. apply Hother. set_solver.
  - intros q. rewrite Hstr. setoid_rewrite Hcand. unfold s1, handed. setoid_rewrite elem_of_cons. split.
    + destruct (candidates s p rs) as [|c cs] eqn:E; cbn [ShutdownPlan.stranded ShutdownPlan.set_stranded ShutdownPlan.set_handed_off].
      * rewrite elem_of_app, list_elem_of_singleton. intros [[?| ->]|(qs & ? & ?)]; [by left|right; exists rs; split; [by left|done]|right; exists qs; split; [by right|done]].
      * intros [?|(qs & ? & ?)]; [by left|right; exists qs; split; [by right|done]].
    + intros [Hq|(qs & [[= -> ->]|Hq] & He)]; [left|left; rewrite He; cbn; set_solver|right; by exists qs].
      destruct (candidates s p rs); cbn; set_solver.
Qed.
End planning.

(** Also (functional): versions are negotiated up.  For a broker and a client whose ranges the constructor accepts, the version agreed
    on is one both speak and the highest such, and the request is refused exactly if they have none in common. *)
Theorem negotiate_highest_common (b1 b2 c1 c2 : Z) (broker client : VersionRange.t) (request : string)
    (Hb : VersionRange.make b1 b2 = Ok broker) (Hc : VersionRange.make c1 c2 = Ok client) :
  (∀ v text, negotiate request broker client = Ok (v, text) →
    speaks broker v ∧ speaks client v ∧ ∀ w, speaks broker w → speaks client w → w <= v) ∧
  (negotiate request broker client = Err Invalid ↔ ∀ v, ¬ (speaks broker v ∧ speaks client v)).
Proof.
  unfold VersionRange.make in Hb, Hc. destruct (Z.ltb_spec b2 b1); [done|]. destruct (Z.ltb_spec c2 c1); [done|].
  injection Hb as <-. injection Hc as <-. pose proof (overlap_spec (VersionRange.mk b1 b2) (VersionRange.mk c1 c2)) as Ho.
  cbn [VersionRange.minimum VersionRange.maximum] in Ho. specialize (Ho ltac:(lia) ltac:(lia)).
  unfold negotiate. destruct (VersionRange.overlaps _ _) eqn:E; cbn [negb].
  - pose proof E as E'. unfold VersionRange.overlaps in E'. bool_prop. cbn [VersionRange.minimum VersionRange.maximum] in *. split.
    + intros v text [= <- _]. unfold speaks. cbn. split_and!; lia.
    + split; [done|]. destruct (proj1 Ho eq_refl) as (v & Hv). intros Hnone. by destruct (Hnone v).
  - split; [by intros ? ?; destruct (_ <? _)|]. split; [|by destruct (_ <? _)]. intros _ v Hv.
    assert (false = true); [|done]. apply Ho. by exists v.
Qed.
Example negotiate_highest_common_witness :
  negotiate "fetch" (VersionRange.mk 2 7) (VersionRange.mk 4 9) = Err Invalid ↔
  ∀ v, ¬ (speaks (VersionRange.mk 2 7) v ∧ speaks (VersionRange.mk 4 9) v).
Proof. exact (proj2 (negotiate_highest_common 2 7 4 9 (VersionRange.mk 2 7) (VersionRange.mk 4 9) "fetch" eq_refl eq_refl)). Defined.

(** Also (functional): the number of partitions planned is enough.  For requirements the constructor accepts, the plan carries the
    target throughput and gives each consumer a partition, with at least one to spare; and a count passes
    the audit exactly if it carries the throughput and feeds the consumers, so the plan passes. *)
Theorem plan_covers_need (target capacity consumers : Z) (req : PartitionRequirements.t)
    (Hmake : PartitionRequirements.make target capacity consumers = Ok req) :
  (∃ n, plan_partitions req = Ok n ∧ target <= (n - 1) * capacity ∧ consumers <= n - 1) ∧
  (∀ n, is_ok (audit_count req n) = true ↔ target <= n * capacity ∧ consumers <= n).
Proof.
  unfold PartitionRequirements.make in Hmake. destruct (Z.ltb_spec capacity 1); [done|]. destruct (_ || _) eqn:E; [done|].
  injection Hmake as <-. bool_prop. assert (∀ n, target <= n * capacity ↔ - (- target / capacity) <= n) as Hceil.
  { intros n. pose proof (Z.div_mod (- target) capacity ltac:(lia)). pose proof (Z.mod_pos_bound (- target) capacity ltac:(lia)). split; nia. }
  unfold plan_partitions, audit_count, py_div. cbn [PartitionRequirements.target_throughput PartitionRequirements.per_partition_capacity PartitionRequirements.consumer_parallelism].
  rewrite (proj2 (Z.eqb_neq capacity 0)) by lia. cbn [mbind result_bind]. split.
  - eexists. split; [done|]. rewrite Hceil. split; lia.
  - intros n. rewrite Hceil. destruct (Z.ltb_spec n (Z.max (- (- target / capacity)) consumers)); cbn [is_ok].
    + split; [done|lia].
    + destruct (_ <? n); cbn; (split; [lia|done]).
Qed.
Example plan_covers_need_witness :
  (∃ n, plan_partitions (PartitionRequirements.mk 100 30 3) = Ok n ∧ 100 <= (n - 1) * 30 ∧ 3 <= n - 1).
Proof. exact (proj1 (plan_covers_need 100 30 3 (PartitionRequirements.mk 100 30 3) eq_refl)). Defined.

(** Also (functional): a graceful shutdown hands over what it safely can and says what it cannot.  After the plan has run, each
    partition the departing broker led is either handed to a replica of it that is caught up and is not the
    broker, or stranded, and it is stranded exactly if there is no such replica; the broker may exit exactly
    if every partition it led was handed over. *)
Theorem graceful_handoff_exact (departing : string) (led : pydict Z (list string)) (caught : pydict Z (gset string)) (Hwf : d_wf led) :
  let s := ShutdownPlan.new departing led caught in
  let s' := state_of ShutdownPlan.execute s in
  let fit p b := b ≠ departing ∧ b ∈ d_getd caught p ∅ in
  (∀ p replicas, (p, replicas) ∈ led →
    (∃ b, d_get (ShutdownPlan.handed_off s') p = Some b ∧ b ∈ replicas ∧ fit p b ∧ p ∉ ShutdownPlan.stranded s') ∨
    (d_get (ShutdownPlan.handed_off s') p = None ∧ p ∈ ShutdownPlan.stranded s' ∧ ∀ b, b ∈ replicas → ¬ fit p b)) ∧
  (ShutdownPlan.may_exit s' = true ↔ ∀ p replicas, (p, replicas) ∈ led → is_Some (d_get (ShutdownPlan.handed_off s') p)).
Proof.
  intros s s' fit. destruct (handoff_loop led s Hwf) as (s1 & Hrun & _ & _ & _ & Hin & _ & Hstr).
  assert (s' = s1) as Hs'.
  { unfold s', state_of, ShutdownPlan.execute. rewrite bind_get.
    change (for_each (ShutdownPlan.led_partitions s) _) with (for_each led handoff_body). rewrite bind_run, Hrun. done. }
  clearbody s'. subst s'.
  assert (∀ p rs b, b ∈ candidates s p rs ↔ fit p b ∧ b ∈ rs) as Hcand.
  { intros p rs b. unfold candidates, fit. rewrite elem_of_py_filter, andb_true_iff, negb_true_iff, bool_decide_eq_false, bool_decide_eq_true. done. }
  assert (∀ p rs, (p, rs) ∈ led → (∃ b, d_get (ShutdownPlan.handed_off s1) p = Some b ∧ b ∈ rs ∧ fit p b ∧ p ∉ ShutdownPlan.stranded s1) ∨
    (d_get (ShutdownPlan.handed_off s1) p = None ∧ p ∈ ShutdownPlan.stranded s1 ∧ ∀ b, b ∈ rs → ¬ fit p b)) as Hall.
  { intros p rs Hp. specialize (Hin p rs Hp). destruct (candidates s p rs) as [|c cs] eqn:E.
    - right. split_and!; [by rewrite Hin|apply Hstr; right; by exists rs|].
      intros b Hb Hfit. assert (b ∈ candidates s p rs) as Hbad by by apply Hcand. rewrite E in Hbad. by apply elem_of_nil in Hbad.
    - left. assert (c ∈ candidates s p rs) as [Hfit Hc]%Hcand by (rewrite E; by left). exists c. split_and!; [done..|].
      intros [Hbad|(rs' & Hp' & He)]%Hstr; [by apply elem_of_nil in Hbad|].
      assert (rs' = rs) as ->; [|congruence]. apply d_elem_of_get in Hp, Hp'; [congruence|done..]. }
  split; [exact Hall|]. unfold ShutdownPlan.may_exit. rewrite bool_decide_eq_true. split.
  - intros Hnone p rs Hp. destruct (Hall p rs Hp) as [(b & Hb & _)|(_ & Hbad & _)]; [by exists b|].
    rewrite Hnone in Hbad. by apply elem_of_nil in Hbad.
  - intros Hsome. apply elem_of_nil_inv. intros p [Hbad|(rs & Hp & He)]%Hstr; [by apply elem_of_nil in Hbad|].
    destruct (Hall p rs Hp) as [(b & _ & _ & _ & Hno)|(Hnone & _)]; [apply Hno, Hstr; right; by exists rs|].
    destruct (Hsome p rs Hp). congruence.
Qed.
Example graceful_handoff_exact_witness :
  let s' := state_of ShutdownPlan.execute (ShutdownPlan.new "b1" [(0, ["b1"; "b2"])] [(0, {["b2"]})]) in
  ShutdownPlan.may_exit s' = true ↔ ∀ p replicas, (p, replicas) ∈ [(0, ["b1"; "b2"])] → is_Some (d_get (ShutdownPlan.handed_off s') p).
Proof.
  refine (proj2 (graceful_handoff_exact "b1" [(0, ["b1"; "b2"])] [(0, {["b2"]})] _)). apply (bool_decide_unpack _). vm_compute. exact I.
Defined.
