(* ===== verification/Coordinators.v ===== *)
(** * Group coordinators and member clients

    The coordinator of a group ([relay/groupcoordinator.py], [relay/groupcoordinatorload.py], [relay/coordinatorload.py],
    [relay/coordinatorepoch.py], [relay/groupdescribe.py], [relay/grouptype.py], [relay/listgroups.py],
    [relay/rebalancestorm.py]), what a member does between polls ([relay/heartbeatthread.py], [relay/sessiontimeout.py],
    [relay/maxpoll.py], [relay/maxpollrecords.py], [relay/autocommit.py], [relay/rebalancelistener.py]), assignment by hand
    or weight ([relay/manualassign.py], [relay/assignmode.py], [relay/weightedassign.py], [relay/consumerscaling.py]), the
    life of committed offsets ([relay/offsetdelete.py], [relay/offsetexpiry.py], [relay/offsetfetch.py],
    [relay/offsettranslation.py]) and fetches ([relay/longpoll.py], [relay/fetchcoalesce.py], [relay/quorumobserver.py]). *)

From Stdlib Require Import Strings.Byte Strings.Ascii.
From S2P Require Import Prelude PyDict PyBytes PyFloat.

Module groupcoordinator.
(** [relay/groupcoordinator.py] coordinator_partition *)
Definition coordinator_partition (group : string) (offset_partitions : Z) : result Z :=
  if offset_partitions <? 1 then Err Invalid else
  let digest := Sha256.hexdigest (encode group) in
  py_mod (int_of_hex 0 (String.substring 0 8 digest)) offset_partitions.
Module CoordinatorLocator.
(** [relay/groupcoordinator.py] class CoordinatorLocator *)
Record t := mk { offset_partitions : Z; partition_leaders : pydict Z string; }.
Definition set_partition_leaders (v : pydict Z string) (self : t) : t := mk (offset_partitions self) v.
(** [relay/groupcoordinator.py] CoordinatorLocator.coordinator_for *)
Definition coordinator_for (self : t) (group : string) : result string :=
  partition ← coordinator_partition group (offset_partitions self);
  let leader := d_get (partition_leaders self) partition in
  match leader with
  | None =>
      Err Invalid
  | Some leader =>
      Ok leader
  end.
(** [relay/groupcoordinator.py] CoordinatorLocator.serve_or_redirect *)
Definition serve_or_redirect (self : t) (group : string) (asked_broker : string) : result string :=
  real ← coordinator_for self group;
  if bool_decide (asked_broker = real) then
    Ok (asked_broker +:+ " coordinates " +:+ group)
  else
  Err Invalid.
(** [relay/groupcoordinator.py] CoordinatorLocator.on_failover *)
Definition on_failover (partition : Z) (new_leader : string) : act t string :=
  self ← get;
  put (set_partition_leaders (d_set (partition_leaders self) partition new_leader) self);;
  mret ("offset partition " +:+ zs partition +:+ " failed over to " +:+ new_leader
        +:+ "; every group it coordinates moved with it, a coordinator failover that is just a partition failover").
End CoordinatorLocator.
End groupcoordinator.
Import groupcoordinator.

Module groupcoordinatorload.
Module CoordinatorLoad.
(** [relay/groupcoordinatorload.py] class CoordinatorLoad *)
Record t := mk { log_end : Z; replayed_to : Z; }.
Definition set_replayed_to (v : Z) (self : t) : t := mk (log_end self) v.
(** [relay/groupcoordinatorload.py] CoordinatorLoad.__post_init__ *)
Definition make (log_end : Z) : result t :=
  if log_end <? 0 then Err Invalid else
  Ok (mk log_end 0).
(** [relay/groupcoordinatorload.py] CoordinatorLoad.is_loaded *)
Definition is_loaded (self : t) : bool :=
  log_end self <=? replayed_to self.
(** [relay/groupcoordinatorload.py] CoordinatorLoad.apply *)
Definition apply (count : Z) : act t unit :=
  raise_if (count <? 0) Invalid;;
  self ← get;
  raise_if (log_end self <? replayed_to self + count) Invalid;;
  put (set_replayed_to (replayed_to self + count) self).
(** [relay/groupcoordinatorload.py] CoordinatorLoad.serve *)
Definition serve (self : t) (request : string) : result string :=
  if negb (is_loaded self) then Err Invalid else
  Ok ("served '" +:+ request +:+ "' from loaded state").
(** [relay/groupcoordinatorload.py] CoordinatorLoad.progress *)
Definition progress (self : t) : result float :=
  if log_end self =? 0 then
    Ok (of_Z 1)
  else
  z_truediv (replayed_to self) (log_end self).
(** [relay/groupcoordinatorload.py] CoordinatorLoad.note *)
Definition note (self : t) : result string :=
  let state := if is_loaded self then "loaded" else "loading" in
  r ← progress self;
  Ok (state +:+ ", replay " +:+ fmt_fixed 0 (f_mul r (of_Z 100)) +:+ "% ("
        +:+ zs (replayed_to self) +:+ "/" +:+ zs (log_end self)
        +:+ "); a coordinator stuck loading is a group that cannot commit or fetch, an outage as slow recovery").
End CoordinatorLoad.
End groupcoordinatorload.
Import groupcoordinatorload.

Module coordinatorload.
Module CoordinatorLoad.
(** [relay/coordinatorload.py] class CoordinatorLoad *)
Record t := mk { partition_end : Z; replayed_to : Z; ready : bool; }.
Definition set_replayed_to (v : Z) (self : t) : t := mk (partition_end self) v (ready self).
Definition set_ready (v : bool) (self : t) : t := mk (partition_end self) (replayed_to self) v.
(** [relay/coordinatorload.py] CoordinatorLoad.__post_init__ *)
Definition make (partition_end : Z) : result t :=
  if partition_end <? 0 then Err Invalid else
  Ok (mk partition_end 0 false).
(** [relay/coordinatorload.py] CoordinatorLoad.replay *)
Definition replay (up_to : Z) : act t unit :=
  self ← get;
  raise_if (up_to <? replayed_to self) Invalid;;
  put (set_replayed_to (Z.min up_to (partition_end self)) self).
(** [relay/coordinatorload.py] CoordinatorLoad.mark_ready *)
Definition mark_ready : act t string :=
  self ← get;
  raise_if (replayed_to self <? partition_end self) Invalid;;
  put (set_ready true self);;
  mret "coordinator ready; state fully replayed".
(** [relay/coordinatorload.py] CoordinatorLoad.fraction *)
Definition fraction (self : t) : result string :=
  if partition_end self =? 0 then
    Ok "100% of 0"
  else
  q ← z_truediv (replayed_to self) (partition_end self);
  let pct := f_mul q (of_Z 100) in
  Ok (fmt_fixed 0 pct +:+ "% (" +:+ zs (replayed_to self) +:+ "/" +:+ zs (partition_end self) +:+ ")").
(** [relay/coordinatorload.py] CoordinatorLoad.serve *)
Definition serve (self : t) (request : string) : result string :=
  if negb (ready self) then Err Invalid else
  Ok ("served '" +:+ request +:+ "'").
End CoordinatorLoad.
End coordinatorload.
Import coordinatorload.

Module coordinatorepoch.
Module CoordinatorEpoch.
(** [relay/coordinatorepoch.py] class CoordinatorEpoch *)
Record t := mk { epoch : Z; _fenced : Z; }.
Definition set_epoch (v : Z) (self : t) : t := mk v (_fenced self).
Definition set__fenced (v : Z) (self : t) : t := mk (epoch self) v.
Definition new : t := mk 0 0.
(** [relay/coordinatorepoch.py] CoordinatorEpoch.take_over *)
Definition take_over (new_epoch : Z) : act t unit :=
  self ← get;
  raise_if (new_epoch <=? epoch self) Invalid;;
  put (set_epoch new_epoch self).
(** [relay/coordinatorepoch.py] CoordinatorEpoch.write *)
Definition write (writer_epoch : Z) (state : string) : act t string :=
  self ← get;
  if writer_epoch <? epoch self then
    put (set__fenced (_fenced self + 1) self);;
    raise Fenced
  else
  mret ("accepted '" +:+ state +:+ "' at epoch " +:+ zs (epoch self)).
(** [relay/coordinatorepoch.py] CoordinatorEpoch.fenced_count *)
Definition fenced_count (self : t) : Z :=
  _fenced self.
(** [relay/coordinatorepoch.py] CoordinatorEpoch.note *)
Definition note (self : t) : string :=
  "coordinator epoch " +:+ zs (epoch self) +:+ ", " +:+ zs (_fenced self)
        +:+ " write(s) fenced; fenced writes accumulating is a split-brain coordinator actively trying to write, the failure the epoch closes off".
End CoordinatorEpoch.
End coordinatorepoch.
Import coordinatorepoch.

Module groupdescribe.
Module PartitionStatus.
(** [relay/groupdescribe.py] class PartitionStatus *)
Record t := mk { partition : Z; owner : option string; committed : Z; end_offset : Z; }.
(** [relay/groupdescribe.py] PartitionStatus.lag *)
Definition lag (self : t) : Z :=
  end_offset self - (committed self).
End PartitionStatus.
(** the order of the keys [(-p.lag(), p.partition)] *)
Definition worst_le (p q : PartitionStatus.t) : Prop :=
  PartitionStatus.lag q < PartitionStatus.lag p
  ∨ (PartitionStatus.lag p = PartitionStatus.lag q ∧ PartitionStatus.partition p <= PartitionStatus.partition q).
#[export] Instance worst_le_dec : RelDecision worst_le.
Proof. unfold RelDecision, worst_le. intros p q. apply _. Defined.

Module GroupDescription.
(** [relay/groupdescribe.py] class GroupDescription *)
Record t := mk { group : string; stable : bool; partitions : list PartitionStatus.t; }.
(** [relay/groupdescribe.py] GroupDescription.worst_first *)
Definition worst_first (self : t) : list PartitionStatus.t :=
  py_sorted worst_le (partitions self).
(** [relay/groupdescribe.py] GroupDescription.unowned *)
Definition unowned (self : t) : list Z :=
  py_sorted Z.le ((λ p, PartitionStatus.partition p) <$> (py_filter (λ p, bool_decide (PartitionStatus.owner p = None)) (partitions self))).
(** [relay/groupdescribe.py] GroupDescription.describe *)
Definition describe (self : t) : result string :=
  if negb (stable self) then Err Invalid else
  let rows := worst_first self in
  let lines := ["group " +:+ (group self) +:+ ": " +:+ zs (zlen rows) +:+ " partition(s)"] in
  lines ← r_fold rows lines (λ lines status,
    let owner := match PartitionStatus.owner status with
                 | Some owner => if bool_decide (owner = "") then "UNOWNED" else owner
                 | None => "UNOWNED"
                 end in
    Ok (lines ++ ["  partition " +:+ zs (PartitionStatus.partition status) +:+ ": " +:+ owner +:+ ", committed "
                  +:+ zs (PartitionStatus.committed status) +:+ ", end " +:+ zs (PartitionStatus.end_offset status)
                  +:+ ", lag " +:+ zs (PartitionStatus.lag status)])
);
  let unowned := unowned self in
  lines ← (if negb (bool_decide (unowned = [])) then
     let lines := lines ++ ["  UNOWNED " +:+ repr_list zs unowned +:+ ": lag grows unbounded, a member died without reassignment, not general slowness"] in
     Ok lines
   else
     Ok lines);
  Ok (join_str "
" lines).
End GroupDescription.
End groupdescribe.
Import groupdescribe.

Module grouptype.
Module GroupTypeRegistry.
(** [relay/grouptype.py] class GroupTypeRegistry *)
Record t := mk { protocol_type : string; members : Z; }.
Definition set_protocol_type (v : string) (self : t) : t := mk v (members self).
Definition set_members (v : Z) (self : t) : t := mk (protocol_type self) v.
Definition new : t := mk "" 0.
(** [relay/grouptype.py] GroupTypeRegistry.join *)
Definition join (member_type : string) : act t string :=
  raise_if (bool_decide (member_type = "")) Invalid;;
  self ← get;
  if members self =? 0 then
    put (set_protocol_type member_type self);;
    self ← get;
    put (set_members 1 self);;
    mret ("group typed as '" +:+ member_type +:+ "' by its first member")
  else
  raise_if (negb (bool_decide (member_type = protocol_type self))) Invalid;;
  put (set_members (members self + 1) self);;
  mret ("joined as '" +:+ member_type +:+ "'; the group stays homogeneous").
(** [relay/grouptype.py] GroupTypeRegistry.leave *)
Definition leave : act t string :=
  self ← get;
  (if 0 <? members self then put (set_members (members self - 1) self) else mret ());;
  self ← get;
  if members self =? 0 then
    put (set_protocol_type "" self);;
    mret "group empty; type cleared, the id can be reused for another kind"
  else
  mret ("member left; " +:+ zs (members self) +:+ " remaining, still '" +:+ (protocol_type self)
        +:+ "'").
(** [relay/grouptype.py] GroupTypeRegistry.current_type *)
Definition current_type (self : t) : string :=
  if members self =? 0 then
    "untyped (empty); the next member sets the type"
  else
  "'" +:+ (protocol_type self) +:+ "' with " +:+ zs (members self) +:+ " member(s)".
End GroupTypeRegistry.
End grouptype.
Import grouptype.

Module listgroups.
(** [relay/listgroups.py] STABLE *)
Definition STABLE : string := "Stable".
(** [relay/listgroups.py] EMPTY *)
Definition EMPTY : string := "Empty".
(** [relay/listgroups.py] PREPARING *)
Definition PREPARING : string := "PreparingRebalance".
(** [relay/listgroups.py] COMPLETING *)
Definition COMPLETING : string := "CompletingRebalance".
(** [relay/listgroups.py] DEAD *)
Definition DEAD : string := "Dead".
(** [relay/listgroups.py] _REBALANCING *)
Definition _REBALANCING : list string := [PREPARING; COMPLETING].
Module GroupInfo.
(** [relay/listgroups.py] class GroupInfo *)
Record t := mk { group_id : string; state : string; members : Z; offset_age_ticks : Z; }.
End GroupInfo.
Module GroupList.
(** [relay/listgroups.py] class GroupList *)
Record t := mk { groups : list GroupInfo.t; }.
Definition new : t := mk [].
(** [relay/listgroups.py] GroupList.visible *)
Definition visible (self : t) : list GroupInfo.t :=
  py_filter (λ g, negb (bool_decide (GroupInfo.state g = DEAD))) (groups self).
(** [relay/listgroups.py] GroupList.in_state *)
Definition in_state (self : t) (state : string) : list GroupInfo.t :=
  py_filter (λ g, bool_decide (GroupInfo.state g = state)) (visible self).
(** [relay/listgroups.py] GroupList.stuck_rebalancing *)
Definition stuck_rebalancing (self : t) (threshold : Z) : list string :=
  (λ g, GroupInfo.group_id g) <$> (py_filter (λ g, (bool_decide (GroupInfo.state g ∈ _REBALANCING)) && (threshold <=? GroupInfo.offset_age_ticks g)) (visible self)).
(** [relay/listgroups.py] GroupList.deletable_empty *)
Definition deletable_empty (self : t) (offset_age_limit : Z) : list string :=
  (λ g, GroupInfo.group_id g) <$> (py_filter (λ g, (bool_decide (GroupInfo.state g = EMPTY)) && (GroupInfo.members g =? 0) && (offset_age_limit <=? GroupInfo.offset_age_ticks g)) (visible self)).
(** [relay/listgroups.py] GroupList.by_state *)
Definition by_state (self : t) : string :=
  let counts : pydict string Z := [] in
  let counts := foldl (λ counts g,
    let counts := d_set counts (GroupInfo.state g) (d_getd counts (GroupInfo.state g) 0 + 1) in
    counts) counts (visible self) in
  let parts := join_str ", " ((λ '(s, n), s +:+ ": " +:+ zs n) <$> py_sorted (skey_le (λ p, p.1)) counts) in
  parts +:+ "; a healthy cluster is mostly stable with a few empty and none stuck rebalancing".
End GroupList.
End listgroups.
Import listgroups.

Module rebalancelistener.
Module RebalanceListener.
(** [relay/rebalancelistener.py] class RebalanceListener *)
Record t := mk {
  owned : gset Z;
  revoke_committed : pydict Z Z;
  revoke_failures : Z;
  phase : string;
}.
Definition set_owned (v : gset Z) (self : t) : t := mk v (revoke_committed self) (revoke_failures self) (phase self).
Definition set_revoke_committed (v : pydict Z Z) (self : t) : t := mk (owned self) v (revoke_failures self) (phase self).
Definition set_revoke_failures (v : Z) (self : t) : t := mk (owned self) (revoke_committed self) v (phase self).
Definition set_phase (v : string) (self : t) : t := mk (owned self) (revoke_committed self) (revoke_failures self) v.
Definition new : t := mk (∅) [] 0 "stable".
(** [relay/rebalancelistener.py] RebalanceListener.begin_revoke *)
Definition begin_revoke (partitions : gset Z) : act t string :=
  self ← get;
  raise_if (negb (bool_decide (partitions ⊆ owned self))) Invalid;;
  put (set_phase "revoking" self);;
  mret ("on-revoke for " +:+ repr_list zs (py_sorted Z.le (elements partitions)) +:+ ": commit now").
(** [relay/rebalancelistener.py] RebalanceListener.commit_on_revoke *)
Definition commit_on_revoke (partition : Z) (offset : Z) : act t string :=
  self ← get;
  raise_if (negb (bool_decide (phase self = "revoking"))) Invalid;;
  raise_if (negb (bool_decide (partition ∈ owned self))) Invalid;;
  put (set_revoke_committed (d_set (revoke_committed self) partition offset) self);;
  mret ("partition " +:+ zs partition +:+ " committed at " +:+ zs offset +:+ " before release").
(** [relay/rebalancelistener.py] RebalanceListener.complete_revoke *)
Definition complete_revoke (partitions : gset Z) : act t string :=
  self ← get;
  put (set_owned ((owned self) ∖ partitions) self);;
  self ← get;
  put (set_phase "stable" self);;
  mret ("released " +:+ repr_list zs (py_sorted Z.le (elements partitions))).
(** [relay/rebalancelistener.py] RebalanceListener.on_assign *)
Definition on_assign (partitions : gset Z) : act t string :=
  self ← get;
  put (set_owned ((owned self) ∪ partitions) self);;
  self ← get;
  put (set_phase "stable" self);;
  mret ("on-assign for " +:+ repr_list zs (py_sorted Z.le (elements partitions))
        +:+ ": seek to committed and load state").
(** [relay/rebalancelistener.py] RebalanceListener.revoke_threw *)
Definition revoke_threw : act t string :=
  self ← get;
  put (set_revoke_failures (revoke_failures self + 1) self);;
  self ← get;
  put (set_phase "stable" self);;
  mret "on-revoke failed; the rebalance proceeds so one member's cleanup bug does not stall the group, but a member failing this consistently corrupts its output".
End RebalanceListener.
End rebalancelistener.
Import rebalancelistener.

Module rebalancestorm.
Module StormDetector.
(** [relay/rebalancestorm.py] class StormDetector *)
Record t := mk {
  window : Z;
  threshold : Z;
  rebalances : list Z;
  churn : pydict string Z;
  stable_members : Z;
}.
Definition set_rebalances (v : list Z) (self : t) : t := mk (window self) (threshold self) v (churn self) (stable_members self).
Definition set_churn (v : pydict string Z) (self : t) : t := mk (window self) (threshold self) (rebalances self) v (stable_members self).
(** [relay/rebalancestorm.py] StormDetector.__post_init__ *)
Definition make (window : Z) (threshold : Z) : result t :=
  if (window <? 1) || (threshold <? 1) then Err Invalid else
  Ok (mk window threshold [] [] 0).
(** [relay/rebalancestorm.py] StormDetector.record_rebalance *)
Definition record_rebalance (now : Z) (culprit : string) : act t unit :=
  self ← get;
  put (set_rebalances (rebalances self ++ [now]) self);;
  self ← get;
  put (set_rebalances (py_filter (λ t, now - t <? window self) (rebalances self)) self);;
  self ← get;
  put (set_churn (d_set (churn self) culprit (d_getd (churn self) culprit 0 + 1)) self).
(** [relay/rebalancestorm.py] StormDetector.is_storm *)
Definition is_storm (self : t) : bool :=
  threshold self <=? zlen (rebalances self).
(** [relay/rebalancestorm.py] StormDetector.churn_leader *)
Definition churn_leader (self : t) : result string :=
  if bool_decide (churn self = []) then Err Invalid else
  py_max_key Z.ltb (λ k, d_getd (churn self) k 0) (d_keys (churn self)).
(** [relay/rebalancestorm.py] StormDetector.may_quarantine *)
Definition may_quarantine (self : t) (member : string) (flap_limit : Z) : result string :=
  if d_getd (churn self) member 0 <? flap_limit then Err Invalid else
  if stable_members self <=? 1 then Err Invalid else
  Ok ("quarantine " +:+ member
        +:+ " for a cool-off; the group settles instead of being rebalanced by the flapper each cycle").
(** [relay/rebalancestorm.py] StormDetector.report *)
Definition report (self : t) : result string :=
  let rate := zlen (rebalances self) in
  let verdict := if is_storm self then "STORM" else "steady" in
  leader ← (if negb (bool_decide (churn self = [])) then churn_leader self else Ok "none");
  Ok (zs rate +:+ " rebalance(s) in the window vs threshold " +:+ zs (threshold self) +:+ ": "
        +:+ verdict +:+ "; churn leader '" +:+ leader
        +:+ "', the member to restart before the backlog grows").
End StormDetector.
End rebalancestorm.
Import rebalancestorm.

Module weightedassign.
(** [sorted(l, key=k, reverse=True)] with a floating-point key, and [l[:n]] *)
Definition fkey_ge (k : string → float) (a b : string) : Prop := f_lt (k a) (k b) = false.
#[export] Instance fkey_ge_dec k : RelDecision (fkey_ge k).
Proof. unfold RelDecision, fkey_ge. intros a b. apply _. Defined.
Definition py_take (n : Z) (l : list string) : list string :=
  if 0 <=? n then take (Z.to_nat n) l else take (length l - Z.to_nat (- n)) l.
(** [f"{d}"] of a dict of counts *)
Definition repr_counts (d : pydict string Z) : string :=
  "{" +:+ join_str ", " ((λ '(k, v), repr_str k +:+ ": " +:+ zs v) <$> d) +:+ "}".
(** [relay/weightedassign.py] assign *)
Definition assign (partitions : Z) (weights : pydict string float) : result (pydict string Z) :=
  if partitions <? 0 then Err Invalid else
  if (bool_decide (weights = [])) || (existsb (λ w, f_le w f0) (d_values weights)) then Err Invalid else
  let total := f_sum (d_values weights) in
  ideal ← mapM (λ '(c, w), q ← f_div (f_mul (of_Z partitions) w) total; Ok (c, q)) weights;
  base ← mapM (λ '(c, v), n ← f_int v; Ok (c, n)) ideal;
  let assigned := zsum id (d_values base) in
  let leftover := partitions - assigned in
  let remainders := py_sorted (fkey_ge (λ c, f_sub (d_getd ideal c f0) (of_Z (d_getd base c 0)))) (d_keys weights) in
  base ← r_fold (py_take leftover remainders) base (λ base c, v ← d_item base c; Ok (d_set base c (v + 1)));
  if negb (zsum id (d_values base) =? partitions) then Err Invalid else
  Ok base.
(** [relay/weightedassign.py] spread *)
Definition spread (partitions : Z) (weights : pydict string float) : result string :=
  result_ ← assign partitions weights;
  per_weight ← mapM (λ c, v ← d_item result_ c; v1 ← d_item weights c; q ← f_div (of_Z v) v1; Ok (c, q)) (d_keys weights);
  hi ← py_max_key f_lt id (d_values per_weight);
  lo ← py_min_key f_lt id (d_values per_weight);
  Ok ("assigned " +:+ repr_counts result_ +:+ "; load-per-weight spread " +:+ fmt_fixed 2 (f_sub hi lo)
      +:+ ", smaller than the partition-count spread because weighting matches partitions to capacity").
End weightedassign.
Import weightedassign.

Module manualassign.
(** [relay/manualassign.py] UNSET *)
Definition UNSET : string := "unset".
(** [relay/manualassign.py] SUBSCRIBED *)
Definition SUBSCRIBED : string := "subscribed".
(** [relay/manualassign.py] ASSIGNED *)
Definition ASSIGNED : string := "assigned".
Module AssignmentMode.
(** [relay/manualassign.py] class AssignmentMode *)
Record t := mk { mode : string; partitions : gset string; }.
Definition set_mode (v : string) (self : t) : t := mk v (partitions self).
Definition set_partitions (v : gset string) (self : t) : t := mk (mode self) v.
Definition new : t := mk UNSET (∅).
(** [relay/manualassign.py] AssignmentMode.subscribe *)
Definition subscribe (topics : list string) : act t string :=
  self ← get;
  raise_if (bool_decide (mode self = ASSIGNED)) Invalid;;
  put (set_mode SUBSCRIBED self);;
  mret ("subscribed to " +:+ repr_list repr_str topics
        +:+ "; the coordinator assigns, rebalances, and fails over automatically").
(** [relay/manualassign.py] AssignmentMode.assign *)
Definition assign (partitions_ : list string) : act t string :=
  self ← get;
  raise_if (bool_decide (mode self = SUBSCRIBED)) Invalid;;
  raise_if (bool_decide (partitions_ = [])) Invalid;;
  put (set_mode ASSIGNED self);;
  self ← get;
  put (set_partitions (list_to_set partitions_) self);;
  self ← get;
  mret ("assigned " +:+ repr_list repr_str (py_sorted String.le (elements (partitions self)))
        +:+ " directly; no group, no rebalances, and no automatic failover").
(** [relay/manualassign.py] AssignmentMode.failover_note *)
Definition failover_note (self : t) : string :=
  if bool_decide (mode self = SUBSCRIBED) then
    "subscribed: the coordinator moves partitions on failure"
  else
  if bool_decide (mode self = ASSIGNED) then
    "manually assigned: nothing moves these partitions if the consumer dies; the operator owns that failover"
  else
  "no partitions yet; neither subscribed nor assigned".
End AssignmentMode.
End manualassign.
Import manualassign.

Module assignmode.
(** [relay/assignmode.py] NONE *)
Definition NONE : string := "none".
(** [relay/assignmode.py] SUBSCRIBED *)
Definition SUBSCRIBED : string := "subscribed".
(** [relay/assignmode.py] ASSIGNED *)
Definition ASSIGNED : string := "assigned".
Module ConsumerMode.
(** [relay/assignmode.py] class ConsumerMode *)
Record t := mk { mode : string; partitions : gset Z; }.
Definition set_mode (v : string) (self : t) : t := mk v (partitions self).
Definition set_partitions (v : gset Z) (self : t) : t := mk (mode self) v.
Definition new : t := mk NONE (∅).
(** [relay/assignmode.py] ConsumerMode.subscribe *)
Definition subscribe (group : string) : act t string :=
  self ← get;
  raise_if (bool_decide (mode self = ASSIGNED)) Invalid;;
  put (set_mode SUBSCRIBED self);;
  mret ("subscribed to " +:+ group
        +:+ ": the coordinator assigns and rebalances, the group's protections apply").
(** [relay/assignmode.py] ConsumerMode.assign *)
Definition assign (partitions_ : gset Z) : act t string :=
  self ← get;
  raise_if (bool_decide (mode self = SUBSCRIBED)) Invalid;;
  put (set_mode ASSIGNED self);;
  self ← get;
  put (set_partitions partitions_ self);;
  mret ("assigned " +:+ repr_list zs (py_sorted Z.le (elements partitions_))
        +:+ ": no rebalancing, and no automatic failover, so manual assignment is also manual failure handling").
(** [relay/assignmode.py] ConsumerMode.release *)
Definition release : act t string :=
  self ← get;
  let was := mode self in
  put (set_mode NONE self);;
  self ← get;
  put (set_partitions (∅) self);;
  mret ("released " +:+ was +:+ " ownership").
End ConsumerMode.
End assignmode.
Import assignmode.

Module heartbeatthread.
Module LivenessTimers.
(** [relay/heartbeatthread.py] class LivenessTimers *)
Record t := mk { session_timeout : Z; max_poll_interval : Z; last_heartbeat : Z; last_poll : Z; }.
Definition set_last_heartbeat (v : Z) (self : t) : t := mk (session_timeout self) (max_poll_interval self) v (last_poll self).
Definition set_last_poll (v : Z) (self : t) : t := mk (session_timeout self) (max_poll_interval self) (last_heartbeat self) v.
(** [relay/heartbeatthread.py] LivenessTimers.__post_init__ *)
Definition make (session_timeout : Z) (max_poll_interval : Z) : result t :=
  if (session_timeout <? 1) || (max_poll_interval <? 1) then Err Invalid else
  Ok (mk session_timeout max_poll_interval 0 0).
(** [relay/heartbeatthread.py] LivenessTimers.heartbeat *)
Definition heartbeat (now : Z) : act t unit :=
  self ← get;
  put (set_last_heartbeat now self).
(** [relay/heartbeatthread.py] LivenessTimers.poll *)
Definition poll (now : Z) : act t unit :=
  self ← get;
  put (set_last_poll now self);;
  self ← get;
  put (set_last_heartbeat now self).
(** [relay/heartbeatthread.py] LivenessTimers.evaluate *)
Definition evaluate (self : t) (now : Z) : string :=
  let heartbeat_dead := session_timeout self <? now - (last_heartbeat self) in
  let poll_stuck := max_poll_interval self <? now - (last_poll self) in
  if (heartbeat_dead : bool) then
    "evicted on session timeout: a dead process or a network partition, not a stuck processor"
  else
  if (poll_stuck : bool) then
    "evicted on max-poll-interval: alive to the group but the processor is wedged, likely a poison record, not a network problem"
  else
  "healthy: heartbeating and making progress".
End LivenessTimers.
End heartbeatthread.
Import heartbeatthread.

Module sessiontimeout.
Module SessionTiming.
(** [relay/sessiontimeout.py] class SessionTiming *)
Record t := mk { heartbeat_interval : Z; session_timeout : Z; }.
(** [relay/sessiontimeout.py] SessionTiming.__post_init__ *)
Definition make (heartbeat_interval : Z) (session_timeout : Z) : result t :=
  if (session_timeout <? 1) || (heartbeat_interval <? 1) then Err Invalid else
  if session_timeout <=? heartbeat_interval then Err Invalid else
  Ok (mk heartbeat_interval session_timeout).
(** [relay/sessiontimeout.py] SessionTiming.beats_per_window *)
Definition beats_per_window (self : t) : result float :=
  z_truediv (session_timeout self) (heartbeat_interval self).
(** [relay/sessiontimeout.py] SessionTiming.tolerated_misses *)
Definition tolerated_misses (self : t) : result Z :=
  r ← beats_per_window self;
  n ← f_int r;
  Ok (n - 1).
(** [relay/sessiontimeout.py] SessionTiming.assess *)
Definition assess (self : t) : result string :=
  beats ← beats_per_window self;
  if f_lt beats (of_Z 2) then
    Ok ("only " +:+ fmt_fixed 1 beats
          +:+ " beats per window; a dropped heartbeat evicts a healthy member, a false-positive rebalance on jitter")
  else
  if f_lt (of_Z 10) beats then
    Ok (fmt_fixed 0 beats
          +:+ " beats per window; heartbeating far more than needed, wasting network on beats that prove nothing new")
  else
  r ← tolerated_misses self;
  Ok (fmt_fixed 0 beats +:+ " beats per window, tolerating " +:+ zs r
        +:+ " lost; a transient hiccup is a non-event, not a rebalance").
End SessionTiming.
End sessiontimeout.
Import sessiontimeout.

Module maxpoll.
Module ConsumerHealth.
(** [relay/maxpoll.py] class ConsumerHealth *)
Record t := mk {
  instance_id : string;
  last_heartbeat : Z;
  last_poll : Z;
  evicted : bool;
  reason : string;
}.
Definition set_last_heartbeat (v : Z) (self : t) : t := mk (instance_id self) v (last_poll self) (evicted self) (reason self).
Definition set_last_poll (v : Z) (self : t) : t := mk (instance_id self) (last_heartbeat self) v (evicted self) (reason self).
Definition set_evicted (v : bool) (self : t) : t := mk (instance_id self) (last_heartbeat self) (last_poll self) v (reason self).
Definition set_reason (v : string) (self : t) : t := mk (instance_id self) (last_heartbeat self) (last_poll self) (evicted self) v.
Definition new (instance_id : string) (last_heartbeat : Z) (last_poll : Z) : t := mk instance_id last_heartbeat last_poll false "".
End ConsumerHealth.
Module ProgressTracker.
(** [relay/maxpoll.py] class ProgressTracker *)
Record t := mk {
  session_timeout : Z;
  max_poll_interval : Z;
  consumers : pydict string ConsumerHealth.t;
}.
Definition set_consumers (v : pydict string ConsumerHealth.t) (self : t) : t := mk (session_timeout self) (max_poll_interval self) v.
(** [relay/maxpoll.py] ProgressTracker.__post_init__ *)
Definition make (session_timeout : Z) (max_poll_interval : Z) : result t :=
  if max_poll_interval <=? session_timeout then Err Invalid else
  Ok (mk session_timeout max_poll_interval []).
(** [relay/maxpoll.py] ProgressTracker.register *)
Definition register (instance_id : string) (now : Z) : act t unit :=
  self ← get;
  put (set_consumers (d_set (consumers self) instance_id (ConsumerHealth.mk instance_id now now false "")) self).
(** [relay/maxpoll.py] ProgressTracker._live *)
Definition _live (self : t) (instance_id : string) : result ConsumerHealth.t :=
  let member := d_get (consumers self) instance_id in
  match member with
  | None =>
      Err Invalid
  | Some member =>
      if ConsumerHealth.evicted member then Err Invalid else
      Ok member
  end.
(** [relay/maxpoll.py] ProgressTracker.heartbeat *)
Definition heartbeat (instance_id : string) (now : Z) : act t unit :=
  self ← get;
  member ← pure_of (_live self instance_id);
  put (set_consumers (d_set (consumers self) instance_id (ConsumerHealth.set_last_heartbeat now member)) self).
(** [relay/maxpoll.py] ProgressTracker.poll *)
Definition poll (instance_id : string) (now : Z) : act t unit :=
  self ← get;
  member ← pure_of (_live self instance_id);
  let member := ConsumerHealth.set_last_poll now member in
  put (set_consumers (d_set (consumers self) instance_id (ConsumerHealth.set_last_heartbeat now member)) self).
(** [relay/maxpoll.py] ProgressTracker.sweep *)
Definition sweep (now : Z) : act t (list string) :=
  let evicted := [] in
  self ← get;
  evicted ← for_fold (d_keys (consumers self)) evicted (λ evicted k,
    self ← get;
    member ← pure_of (d_item (consumers self) k);
    if ConsumerHealth.evicted member then
      mret evicted
    else
    evicted ← (if session_timeout self <? now - (ConsumerHealth.last_heartbeat member) then
       let member := ConsumerHealth.set_evicted true member in
       put (set_consumers (d_set (consumers self) k member) self);;
       let member := ConsumerHealth.set_reason "died (no heartbeat)" member in
       self ← get;
       put (set_consumers (d_set (consumers self) k member) self);;
       let evicted := evicted ++ [ConsumerHealth.instance_id member] in
       mret evicted
     else
       evicted ← (if max_poll_interval self <? now - (ConsumerHealth.last_poll member) then
          let member := ConsumerHealth.set_evicted true member in
          put (set_consumers (d_set (consumers self) k member) self);;
          let member := ConsumerHealth.set_reason "livelocked (heartbeat but no poll)" member in
          self ← get;
          put (set_consumers (d_set (consumers self) k member) self);;
          let evicted := evicted ++ [ConsumerHealth.instance_id member] in
          mret evicted
        else
          mret evicted);
       mret evicted);
    mret evicted);
  mret (py_sorted String.le evicted).
(** [relay/maxpoll.py] ProgressTracker.reason_for *)
Definition reason_for (self : t) (instance_id : string) : result string :=
  let member := d_get (consumers self) instance_id in
  match member with
  | None =>
      Err Invalid
  | Some member =>
      if negb (ConsumerHealth.evicted member) then
        Ok (instance_id +:+ " is healthy")
      else
      Ok (instance_id +:+ " evicted: " +:+ (ConsumerHealth.reason member))
  end.
End ProgressTracker.
End maxpoll.
Import maxpoll.

Module maxpollrecords.
Module PollBudget.
(** [relay/maxpollrecords.py] class PollBudget *)
Record t := mk { poll_interval : Z; per_record_time : float; margin : float; }.
(** [relay/maxpollrecords.py] PollBudget.__post_init__ *)
Definition make (poll_interval : Z) (per_record_time : float) (margin : float) : result t :=
  if f_le per_record_time f0 then Err Invalid else
  if zf_le poll_interval per_record_time then Err Invalid else
  if negb ((f_le f0 margin) && (f_lt margin (of_Z 1))) then Err Invalid else
  Ok (mk poll_interval per_record_time margin).
(** [relay/maxpollrecords.py] PollBudget.safe_max_records *)
Definition safe_max_records (self : t) : result Z :=
  let usable := f_mul (of_Z (poll_interval self)) (f_sub (of_Z 1) (margin self)) in
  q ← f_div usable (per_record_time self);
  n ← f_int q;
  Ok (Z.max 1 n).
(** [relay/maxpollrecords.py] PollBudget.would_kick *)
Definition would_kick (self : t) (configured : Z) : bool :=
  zf_lt (poll_interval self) (f_mul (of_Z configured) (per_record_time self)).
(** [relay/maxpollrecords.py] PollBudget.headroom *)
Definition headroom (self : t) (configured : Z) : string :=
  let cost := f_mul (of_Z configured) (per_record_time self) in
  if zf_lt (poll_interval self) cost then
    let over := f_sub cost (of_Z (poll_interval self)) in
    "batch of " +:+ zs configured +:+ " takes " +:+ fmt_fixed 0 cost +:+ " > interval "
          +:+ zs (poll_interval self) +:+ ", over by " +:+ fmt_fixed 0 over
          +:+ "; the consumer is kicked mid-batch, a rebalance it caused"
  else
  let slack := f_sub (of_Z (poll_interval self)) cost in
  "batch of " +:+ zs configured +:+ " takes " +:+ fmt_fixed 0 cost +:+ " of "
        +:+ zs (poll_interval self) +:+ ", " +:+ fmt_fixed 0 slack
        +:+ " headroom; a batch at the limit is one slow record from a kick".
End PollBudget.
End maxpollrecords.
Import maxpollrecords.

Module autocommit.
Module AutoCommitPolicy.
(** [relay/autocommit.py] class AutoCommitPolicy *)
Record t := mk { interval_ticks : Z; record_rate : float; }.
(** [relay/autocommit.py] AutoCommitPolicy.__post_init__ *)
Definition make (interval_ticks : Z) (record_rate : float) : result t :=
  if (interval_ticks <? 1) || (f_lt record_rate f0) then Err Invalid else
  Ok (mk interval_ticks record_rate).
(** [relay/autocommit.py] AutoCommitPolicy.replay_window_records *)
Definition replay_window_records (self : t) : result Z :=
  f_int (f_mul (of_Z (interval_ticks self)) (record_rate self)).
(** [relay/autocommit.py] AutoCommitPolicy.describe *)
Definition describe (self : t) : result string :=
  window ← replay_window_records self;
  Ok ("interval " +:+ zs (interval_ticks self) +:+ " at rate " +:+ f_repr (record_rate self)
        +:+ "/tick: a crash replays up to " +:+ zs window
        +:+ " record(s), the size of the window weighed against the cost of reprocessing them").
(** [relay/autocommit.py] AutoCommitPolicy.guarantee_note *)
Definition guarantee_note (self : t) (commits_on_poll : bool) : string :=
  if (commits_on_poll : bool) then
    "auto-commit commits on poll not process, so a crash can lose fetched-but-unprocessed records, turning at-least-once into at-most-once by accident; a consumer that must not lose records commits manually after processing"
  else
  "committing after processing keeps at-least-once; the replay window is reprocessing, not loss".
End AutoCommitPolicy.
End autocommit.
Import autocommit.

Module offsetdelete.
Module OffsetDeleter.
(** [relay/offsetdelete.py] class OffsetDeleter *)
Record t := mk { committed : pydict string Z; owned : gset string; }.
Definition set_committed (v : pydict string Z) (self : t) : t := mk v (owned self).
Definition new : t := mk [] (∅).
(** [relay/offsetdelete.py] OffsetDeleter.delete *)
Definition delete_ (partition : string) : act t string :=
  self ← get;
  raise_if (bool_decide (partition ∈ owned self)) Invalid;;
  if negb (d_mem (committed self) partition) then
    mret (partition +:+ ": no committed offset, nothing to delete")
  else
  put (set_committed (d_del (committed self) partition) self);;
  mret (partition +:+ ": offset deleted").
(** [sub in s] *)
Definition py_contains (sub s : string) : bool :=
  match String.index 0 sub s with Some _ => true | None => false end.
(** [relay/offsetdelete.py:54-63] OffsetDeleter.delete_many: one partition, with the counts so far *)
Definition delete_one (counts : Z * Z * Z) (p : string) : act t (Z * Z * Z) := λ self,
  let '(deleted, skipped, refused) := counts in
  match delete_ p self with
  | (self, Ok result_) =>
      if py_contains "deleted" result_ then (self, Ok (deleted + 1, skipped, refused))
      else (self, Ok (deleted, skipped + 1, refused))
  | (self, Err Invalid) => (self, Ok (deleted, skipped, refused + 1))
  | (self, Err e) => (self, Err e)
  end.
(** [relay/offsetdelete.py] OffsetDeleter.delete_many *)
Definition delete_many (partitions : list string) : act t string :=
  counts ← for_fold partitions (0, 0, 0) delete_one;
  let '(deleted, skipped, refused) := counts in
  mret (zs deleted +:+ " deleted, " +:+ zs skipped +:+ " already empty, " +:+ zs refused
        +:+ " refused as still owned; many refused means the group is more active than thought and the topic was not abandoned").
End OffsetDeleter.
End offsetdelete.
Import offsetdelete.

Module offsetexpiry.
Module GroupOffset.
(** [relay/offsetexpiry.py] class GroupOffset *)
Record t := mk { group : string; partition : Z; committed_offset : Z; last_commit_tick : Z; }.
End GroupOffset.
Module OffsetExpirer.
(** [relay/offsetexpiry.py] class OffsetExpirer *)
Record t := mk { retention_ticks : Z; expired : Z; freed_entries : Z; protected_active : Z; }.
Definition set_expired (v : Z) (self : t) : t := mk (retention_ticks self) v (freed_entries self) (protected_active self).
Definition set_freed_entries (v : Z) (self : t) : t := mk (retention_ticks self) (expired self) v (protected_active self).
Definition set_protected_active (v : Z) (self : t) : t := mk (retention_ticks self) (expired self) (freed_entries self) v.
(** [relay/offsetexpiry.py] OffsetExpirer.__post_init__ *)
Definition make (retention_ticks : Z) : result t :=
  if retention_ticks <? 1 then Err Invalid else
  Ok (mk retention_ticks 0 0 0).
(** [relay/offsetexpiry.py] OffsetExpirer.sweep *)
Definition sweep (offsets : list GroupOffset.t) (active_groups : gset string) (now : Z) : act t (list GroupOffset.t) :=
  let survivors := [] in
  survivors ← for_fold offsets survivors (λ survivors entry,
    if bool_decide (GroupOffset.group entry ∈ active_groups) then
      self ← get;
      put (set_protected_active (protected_active self + 1) self);;
      let survivors := survivors ++ [entry] in
      mret survivors
    else
    self ← get;
    if now - (GroupOffset.last_commit_tick entry) <=? retention_ticks self then
      let survivors := survivors ++ [entry] in
      mret survivors
    else
    put (set_expired (expired self + 1) self);;
    self ← get;
    put (set_freed_entries (freed_entries self + 1) self);;
    mret survivors);
  mret survivors.
(** [relay/offsetexpiry.py] OffsetExpirer.report *)
Definition report (self : t) : string :=
  if (expired self =? 0) && (protected_active self =? 0) then
    "nothing swept yet"
  else
  zs (expired self) +:+ " offset(s) expired freeing " +:+ zs (freed_entries self)
        +:+ " entrie(s), " +:+ zs (protected_active self)
        +:+ " active group(s) protected; a store that expires nothing leaks and one that expires active groups loses data, so healthy is a small nonzero".
End OffsetExpirer.
End offsetexpiry.
Import offsetexpiry.

Module offsetfetch.
(** [relay/offsetfetch.py] NO_OFFSET *)
Definition NO_OFFSET : Z := (-1).
Module OffsetFetchResponse.
(** [relay/offsetfetch.py] class OffsetFetchResponse *)
Record t := mk { log_ends : pydict string Z; committed : pydict string Z; }.
Definition set_committed (v : pydict string Z) (self : t) : t := mk (log_ends self) v.
Definition new (log_ends : pydict string Z) : t := mk log_ends [].
(** [relay/offsetfetch.py] OffsetFetchResponse.commit *)
Definition commit (partition : string) (offset : Z) : act t unit :=
  self ← get;
  let end_ := d_get (log_ends self) partition in
  raise_if (match end_ with None => false | Some end_ => end_ <? offset end) Invalid;;
  put (set_committed (d_set (committed self) partition offset) self).
(** [relay/offsetfetch.py] OffsetFetchResponse.fetch *)
Definition fetch (self : t) (partition : string) : Z :=
  d_getd (committed self) partition NO_OFFSET.
(** [relay/offsetfetch.py] OffsetFetchResponse.resume_or_reset *)
Definition resume_or_reset (self : t) (partition : string) : string :=
  let offset := fetch self partition in
  if offset =? NO_OFFSET then
    partition +:+ ": no commit; fall back to the reset policy, not offset zero"
  else
  partition +:+ ": resume at committed offset " +:+ zs offset.
(** [relay/offsetfetch.py] OffsetFetchResponse.summary *)
Definition summary (self : t) (owned : list string) : string :=
  let committed_ := zlen (py_filter (λ p, negb (fetch self p =? NO_OFFSET)) owned) in
  let reset := zlen owned - committed_ in
  zs committed_ +:+ " partition(s) resume from a commit, " +:+ zs reset
        +:+ " reset; resetting more than resuming usually means the consumer just joined or had partitions added".
End OffsetFetchResponse.
End offsetfetch.
Import offsetfetch.

Module offsettranslation.
Module OffsetTranslator.
(** [relay/offsettranslation.py] class OffsetTranslator *)
Record t := mk { checkpoints : list (Z * Z); }.
Definition set_checkpoints (v : list (Z * Z)) (self : t) : t := mk v.
Definition new : t := mk [].
(** [relay/offsettranslation.py] OffsetTranslator.add_checkpoint *)
Definition add_checkpoint (source_offset : Z) (target_offset : Z) : act t unit :=
  self ← get;
  (if negb (bool_decide (checkpoints self = [])) then
     x ← pure_of (py_index (checkpoints self) (-1));
     let '(last_src, last_tgt) := x in
     raise_if ((source_offset <=? last_src) || (target_offset <=? last_tgt)) Invalid
   else
     mret ());;
  self ← get;
  put (set_checkpoints (checkpoints self ++ [(source_offset, target_offset)]) self).
(** [relay/offsettranslation.py:62-66] OffsetTranslator.translate *)
Fixpoint translate_loop (checkpoints : list (Z * Z)) (source_offset target : Z) : Z :=
  match checkpoints with
  | [] => target
  | (src, tgt) :: checkpoints =>
      if src <=? source_offset then translate_loop checkpoints source_offset tgt else target
  end.
(** [relay/offsettranslation.py] OffsetTranslator.translate *)
Definition translate (self : t) (source_offset : Z) : result Z :=
  b ← (if bool_decide (checkpoints self = []) then Ok true
       else x ← py_index (checkpoints self) 0; Ok (source_offset <? x.1));
  if (b : bool) then Err Missing else
  x ← py_index (checkpoints self) 0;
  Ok (translate_loop (checkpoints self) source_offset x.2).
(** [relay/offsettranslation.py] OffsetTranslator.reprocessing *)
Definition reprocessing (self : t) (source_offset : Z) : result string :=
  match py_filter (λ '(src, _), src <=? source_offset) (rev (checkpoints self)) with
  | (src, _) :: _ =>
      let gap := source_offset - src in
      Ok ("translating from checkpoint at source " +:+ zs src +:+ " reprocesses " +:+ zs gap
          +:+ " record(s); at-least-once across the failover")
  | [] => Err Missing
  end.
End OffsetTranslator.
End offsettranslation.
Import offsettranslation.

Module consumerscaling.
Module ConsumerScaling.
(** [relay/consumerscaling.py] class ConsumerScaling *)
Record t := mk { partitions : Z; consumers : Z; }.
(** [relay/consumerscaling.py] ConsumerScaling.__post_init__ *)
Definition make (partitions : Z) (consumers : Z) : result t :=
  if partitions <? 1 then Err Invalid else
  if consumers <? 0 then Err Invalid else
  Ok (mk partitions consumers).
(** [relay/consumerscaling.py] ConsumerScaling.active *)
Definition active (self : t) : Z :=
  Z.min (consumers self) (partitions self).
(** [relay/consumerscaling.py] ConsumerScaling.idle *)
Definition idle (self : t) : Z :=
  Z.max 0 (consumers self - (partitions self)).
(** [relay/consumerscaling.py] ConsumerScaling.max_useful *)
Definition max_useful (self : t) : Z :=
  partitions self.
(** [relay/consumerscaling.py] ConsumerScaling.report *)
Definition report (self : t) : string :=
  let idle := idle self in
  if (idle =? 0) && (consumers self <? partitions self) then
    zs (consumers self) +:+ " active, room for " +:+ zs (partitions self - (consumers self))
          +:+ " more before the partition count caps parallelism"
  else
  if idle =? 0 then
    zs (active self) +:+ " active, one per partition, fully parallel"
  else
  zs (active self) +:+ " active, " +:+ zs idle
        +:+ " idle; to use the idle ones add partitions, not consumers, at the cost of keyed ordering, since more consumers on a maxed group add cost without throughput".
End ConsumerScaling.
End consumerscaling.
Import consumerscaling.

Module longpoll.
Module LongPollRequest.
(** [relay/longpoll.py] class LongPollRequest *)
Record t := mk { min_bytes : Z; max_wait : Z; max_response : Z; }.
(** [relay/longpoll.py] LongPollRequest.__post_init__ *)
Definition make (min_bytes : Z) (max_wait : Z) (max_response : Z) : result t :=
  if (min_bytes <? 0) || (max_wait <? 1) then Err Invalid else
  if max_response <? min_bytes then Err Invalid else
  Ok (mk min_bytes max_wait max_response).
End LongPollRequest.
(** [relay/longpoll.py:58-62] resolve_fetch: the loop that stops at the wait or returns *)
Fixpoint early_return (request : LongPollRequest.t) (available_over_time : list (Z * Z)) : option (Z * Z) :=
  match available_over_time with
  | [] => None
  | (tick, cumulative) :: rest =>
      if LongPollRequest.max_wait request <? tick then None
      else if LongPollRequest.min_bytes request <=? cumulative then Some (tick, cumulative)
      else early_return request rest
  end.
(** [relay/longpoll.py] resolve_fetch *)
Definition resolve_fetch (request : LongPollRequest.t) (available_over_time : list (Z * Z)) : (Z * string) :=
  match early_return request available_over_time with
  | Some (tick, cumulative) =>
      (tick, "returned at tick " +:+ zs tick +:+ " with " +:+ zs cumulative
             +:+ " bytes; the min-bytes condition met before the max-wait, so a burst does not wait out the timer")
  | None =>
  let final := 0 in
  let final := foldl (λ final '(tick, cumulative),
    let final :=
      if tick <=? LongPollRequest.max_wait request then
       let final := cumulative in
       final
      else
       final in
    final) final available_over_time in
  (LongPollRequest.max_wait request, "returned at max-wait "
        +:+ zs (LongPollRequest.max_wait request) +:+ " with " +:+ zs final
        +:+ " byte(s); an idle partition returns at the ceiling without a busy-wait")
  end.
End longpoll.
Import longpoll.

Module fetchcoalesce.
(** the order of the pairs [(start, end)] *)
Definition range_le (a b : Z * Z) : Prop := a.1 < b.1 ∨ (a.1 = b.1 ∧ a.2 <= b.2).
#[export] Instance range_le_dec : RelDecision range_le.
Proof. unfold RelDecision, range_le. intros a b. apply _. Defined.
(** [relay/fetchcoalesce.py:46-50] coalesce: one range against the last merged one *)
Definition merge_range (merged : list (Z * Z)) (r : Z * Z) : list (Z * Z) :=
  let '(start, end_) := r in
  match last merged with
  | Some (last_start, last_end) =>
      if start <=? last_end then take (length merged - 1) merged ++ [(last_start, Z.max last_end end_)]
      else merged ++ [(start, end_)]
  | None => merged ++ [(start, end_)]
  end.
(** [relay/fetchcoalesce.py] coalesce *)
Definition coalesce (ranges : list (Z * Z)) : result (list (Z * Z)) :=
  r_fold ranges () (λ _ '(start, end_),
    if end_ <=? start then Err Invalid else
    Ok ());;
  if bool_decide (ranges = []) then
    Ok []
  else
  match py_sorted range_le ranges with
  | [] => Ok []
  | first :: ordered => Ok (foldl merge_range [first] ordered)
  end.
(** [relay/fetchcoalesce.py] amplification *)
Definition amplification (ranges : list (Z * Z)) : result string :=
  let raw := zsum (λ '(start, end_), end_ - start) ranges in
  r ← coalesce ranges;
  let coalesced := zsum (λ '(start, end_), end_ - start) r in
  let saved := raw - coalesced in
  r1 ← coalesce ranges;
  Ok (zs (zlen ranges) +:+ " range(s) reading " +:+ zs raw +:+ " byte(s) raw coalesce to "
        +:+ zs (zlen r1) +:+ " reading " +:+ zs coalesced +:+ "; " +:+ zs saved
        +:+ " byte(s) of duplicate reading avoided, the win growing with how much the ranges overlap").
End fetchcoalesce.
Import fetchcoalesce.

Module quorumobserver.
Module QuorumMembership.
(** [relay/quorumobserver.py] class QuorumMembership *)
Record t := mk {
  leader_offset : Z;
  max_promote_lag : Z;
  voters : gset string;
  observers : pydict string Z;
}.
Definition set_voters (v : gset string) (self : t) : t := mk (leader_offset self) (max_promote_lag self) v (observers self).
Definition set_observers (v : pydict string Z) (self : t) : t := mk (leader_offset self) (max_promote_lag self) (voters self) v.
Definition new (leader_offset : Z) (max_promote_lag : Z) : t := mk leader_offset max_promote_lag (∅) [].
(** [relay/quorumobserver.py] QuorumMembership.commit_majority *)
Definition commit_majority (self : t) : Z :=
  (Z.of_nat (base.size (voters self))) / 2 + 1.
(** [relay/quorumobserver.py] QuorumMembership.add_observer *)
Definition add_observer (broker : string) (offset : Z) : act t unit :=
  self ← get;
  raise_if (bool_decide (broker ∈ voters self)) Invalid;;
  put (set_observers (d_set (observers self) broker offset) self).
(** [relay/quorumobserver.py] QuorumMembership.promote *)
Definition promote (broker : string) : act t string :=
  self ← get;
  raise_if (negb (d_mem (observers self) broker)) Invalid;;
  v ← pure_of (d_item (observers self) broker);
  let lag := leader_offset self - v in
  raise_if (max_promote_lag self <? lag) Invalid;;
  put (set_observers (d_del (observers self) broker) self);;
  self ← get;
  put (set_voters ({[broker]} ∪ (voters self)) self);;
  self ← get;
  mret ("promoted " +:+ broker +:+ " to voter; commit majority now " +:+ zs (commit_majority self)).
(** [relay/quorumobserver.py] QuorumMembership.report *)
Definition report (self : t) : string :=
  zs (Z.of_nat (base.size (voters self))) +:+ " voter(s) needing "
        +:+ zs (commit_majority self) +:+ " to commit, " +:+ zs (zlen (observers self))
        +:+ " observer(s) for read capacity that never change the commit math".
End QuorumMembership.
End quorumobserver.
Import quorumobserver.


(** ** Coalescing fetch ranges *)

Section ranges.
Implicit Types (r : Z * Z) (l m : list (Z * Z)).

(** the positions the ranges read *)
Definition covered l (x : Z) : Prop := ∃ r, r ∈ l ∧ r.1 <= x < r.2.
(** ranges that are not empty, in order, with a gap between each two *)
Definition separate (a b : Z * Z) : Prop := a.2 < b.1.
Definition canonical l : Prop := StronglySorted separate l ∧ ∀ r, r ∈ l → r.1 < r.2.

#[local] Instance range_le_total : Total range_le.
Proof. intros a b. unfold range_le. lia. Qed.
#[local] Instance range_le_trans : Transitive range_le.
Proof. intros a b c. unfold range_le. lia. Qed.

Lemma covered_app l1 l2 x : covered (l1 ++ l2) x ↔ covered l1 x ∨ covered l2 x.
Proof. unfold covered. setoid_rewrite elem_of_app. naive_solver. Qed.
Lemma covered_cons r l x : covered (r :: l) x ↔ r.1 <= x < r.2 ∨ covered l x.
Proof. unfold covered. setoid_rewrite elem_of_cons. naive_solver. Qed.
Lemma covered_singleton r x : covered [r] x ↔ r.1 <= x < r.2.
Proof. unfold covered. setoid_rewrite list_elem_of_singleton. naive_solver. Qed.
Lemma canonical_nil : canonical [].
Proof. split; [constructor|by intros r ?%elem_of_nil]. Qed.

Lemma ranges_canonical_cons r l : canonical (r :: l) → canonical l ∧ r.1 < r.2 ∧ ∀ s, s ∈ l → r.2 < s.1.
Proof.
  intros [Hs Hne]. apply StronglySorted_inv in Hs as [Hs Hr]. split_and!.
  - split; [done|]. intros s Hsl. apply Hne. by right.
  - apply Hne. left.
  - rewrite Forall_forall in Hr. intros s Hsl. apply (Hr s Hsl).
Qed.

(** a canonical list is determined by what it covers *)
Lemma canonical_below r l : canonical (r :: l) → ∀ x, covered (r :: l) x → r.1 <= x.
Proof.
  intros (_ & Hr & Hl)%ranges_canonical_cons x [?|(s & Hs & ?)]%covered_cons; [lia|]. specialize (Hl s Hs). lia.
Qed.
Lemma canonical_unique l m : canonical l → canonical m → (∀ x, covered l x ↔ covered m x) → l = m.
Proof.
  revert m. induction l as [|r l IH]; intros m Hl Hm Heq; destruct m as [|s m].
  - done.
  - destruct (ranges_canonical_cons _ _ Hm) as (_ & Hs & _). exfalso.
    destruct (proj2 (Heq s.1)) as (t & []%elem_of_nil & _). apply covered_cons. lia.
  - destruct (ranges_canonical_cons _ _ Hl) as (_ & Hr & _). exfalso.
    destruct (proj1 (Heq r.1)) as (t & []%elem_of_nil & _). apply covered_cons. lia.
  - destruct (ranges_canonical_cons _ _ Hl) as (Hcl & Hr & Hlr). destruct (ranges_canonical_cons _ _ Hm) as (Hcm & Hs & Hms).
    assert (r.1 = s.1) as H1.
    { apply Z.le_antisymm.
      - apply (canonical_below _ _ Hl), Heq, covered_cons. lia.
      - apply (canonical_below _ _ Hm), Heq, covered_cons. lia. }
    assert (∀ a b k j, (∀ t, t ∈ k → a.2 < t.1) → a.1 = b.1 → a.1 < a.2 →
      (∀ x, covered (b :: j) x → covered (a :: k) x) → b.2 <= a.2) as Hends.
    { intros a b k j Hgap H H' Hsub. destruct (Z.le_gt_cases b.2 a.2) as [|Hgt]; [done|]. exfalso.
      assert (covered (a :: k) a.2) as [?|(t & Ht & ?)]%covered_cons by (apply Hsub, covered_cons; lia); [lia|].
      specialize (Hgap t Ht). lia. }
    assert (r.2 = s.2) as H2.
    { apply Z.le_antisymm.
      - apply (Hends s r m l); try done. intros x Hx. by apply Heq.
      - apply (Hends r s l m); try done. intros x Hx. by apply Heq. }
    assert (r = s) as <- by (destruct r, s; cbn in *; congruence).
    f_equal. apply IH; [done..|]. intros x. specialize (Heq x). rewrite !covered_cons in Heq. split; intros Hx.
    + destruct (proj1 Heq (or_intror Hx)) as [Hin|]; [|done]. destruct Hx as (t & Ht & ?). specialize (Hlr t Ht). lia.
    + destruct (proj2 Heq (or_intror Hx)) as [Hin|]; [|done]. destruct Hx as (t & Ht & ?). specialize (Hms t Ht). lia.
Qed.

Lemma merge_range_spec m last_r r : canonical (m ++ [last_r]) → r.1 < r.2 → last_r.1 <= r.1 →
  ∃ m' last', merge_range (m ++ [last_r]) r = m' ++ [last'] ∧ canonical (m' ++ [last']) ∧ last'.1 <= r.1 ∧
  ∀ x, covered (m' ++ [last']) x ↔ covered (m ++ [last_r]) x ∨ r.1 <= x < r.2.
Proof.
  destruct r as [a b], last_r as [la lb]. cbn [fst snd]. intros [Hs Hne] Hab Hla. unfold merge_range. rewrite last_snoc.
  assert (la < lb) as Hlast by (apply (Hne (la, lb)), elem_of_app; right; left).
  destruct (Z.leb_spec a lb) as [Hle|Hgt].
  - exists m, (la, Z.max lb b). replace (length (m ++ [(la, lb)]) - 1)%nat with (length m) by (rewrite length_app; cbn; lia).
    rewrite take_app_length. split_and!; [done| |cbn; lia|].
    + split.
      * apply StronglySorted_app_2; [|by eapply StronglySorted_app_1_l|repeat constructor].
        intros s u Hsm ->%list_elem_of_singleton. unfold separate. cbn.
        apply (StronglySorted_app_1_elem_of separate m [(la, lb)] s (la, lb)); [done|done|left].
      * intros s [Hsm| ->%list_elem_of_singleton]%elem_of_app; [apply Hne, elem_of_app; by left|cbn; lia].
    + intros x. rewrite !covered_app, !covered_singleton. cbn. intuition lia.
  - exists (m ++ [(la, lb)]), (a, b). split_and!; [done| |cbn; lia|].
    + split.
      * apply StronglySorted_app_2; [|done|repeat constructor]. intros s u Hsm ->%list_elem_of_singleton. unfold separate. cbn.
        apply elem_of_app in Hsm as [Hsm| ->%list_elem_of_singleton]; [|done].
        pose proof (StronglySorted_app_1_elem_of separate m [(la, lb)] s (la, lb) Hs Hsm ltac:(left)) as H. unfold separate in H. cbn in H. lia.
      * intros s [Hsm| ->%list_elem_of_singleton]%elem_of_app; [by apply Hne|done].
    + intros x. rewrite covered_app, covered_singleton. done.
Qed.

Lemma merge_all_spec l m last_r : canonical (m ++ [last_r]) → (∀ r, r ∈ l → r.1 < r.2 ∧ last_r.1 <= r.1) → StronglySorted range_le l →
  canonical (foldl merge_range (m ++ [last_r]) l) ∧
  ∀ x, covered (foldl merge_range (m ++ [last_r]) l) x ↔ covered (m ++ [last_r]) x ∨ covered l x.
Proof.
  revert m last_r. induction l as [|r l IH]; intros m last_r Hc Hl Hs; cbn [foldl].
  { split; [done|]. intros x. unfold covered at 3. split; [by left|]. intros [?|(s & []%elem_of_nil & _)]. done. }
  apply StronglySorted_inv in Hs as [Hs Hr]. destruct (Hl r ltac:(left)) as [Hne Hle].
  destruct (merge_range_spec m last_r r Hc Hne Hle) as (m' & last' & -> & Hc' & Hle' & Hcov).
  destruct (IH m' last' Hc') as [Hcan Hall]; [|done|].
  { intros s Hsl. split; [by apply Hl; right|]. rewrite Forall_forall in Hr. specialize (Hr s Hsl). unfold range_le in Hr. lia. }
  split; [done|]. intros x. rewrite Hall, Hcov, covered_cons. tauto.
Qed.

Lemma coalesce_check l : r_fold l () (λ _ '(start, end_), if end_ <=? start then Err Invalid else Ok ()) =
  if existsb (λ r, r.2 <=? r.1) l then Err Invalid else Ok ().
Proof. induction l as [|[a b] l IH]; [done|]. cbn [r_fold existsb fst snd]. by destruct (b <=? a). Qed.

Lemma coalesce_run l : (∀ r, r ∈ l → r.1 < r.2) →
  ∃ m, coalesce l = Ok m ∧ canonical m ∧ ∀ x, covered m x ↔ covered l x.
Proof.
  intros Hne. unfold coalesce. rewrite coalesce_check. rewrite (proj2 (existsb_none _ _)) by (intros r Hr; specialize (Hne r Hr); lia).
  cbn [mbind result_bind]. case_bool_decide as Hnil.
  { subst l. exists []. split_and!; [done|apply canonical_nil|done]. }
  assert (∀ x, covered (py_sorted range_le l) x ↔ covered l x) as Hcov.
  { intros x. unfold covered. by setoid_rewrite py_sorted_elem_of. }
  assert (StronglySorted range_le (py_sorted range_le l)) as Hs by (apply Sorted_StronglySorted; [apply _|apply py_sorted_Sorted, _]).
  assert (∀ r, r ∈ py_sorted range_le l → r.1 < r.2) as Hne' by (intros r; rewrite py_sorted_elem_of; apply Hne).
  destruct (py_sorted range_le l) as [|r k] eqn:Hk; [by apply py_sorted_nil in Hk|].
  apply StronglySorted_inv in Hs as [Hs Hr]. rewrite Forall_forall in Hr.
  destruct (merge_all_spec k [] r) as [Hc Hall]; [| |done|].
  - split; [repeat constructor|]. intros s ->%list_elem_of_singleton. apply Hne'. left.
  - intros s Hsk. split; [by apply Hne'; right|]. specialize (Hr s Hsk). unfold range_le in Hr. lia.
  - eexists. split_and!; [done|done|]. intros x. rewrite Hall, <- Hcov, covered_cons. cbn. by rewrite covered_singleton.
Qed.

(** the length of a canonical list is at most that of any cover *)
Lemma canonical_disjoint_sum m : canonical m → NoDup (m ≫= λ r, seqZ r.1 (r.2 - r.1)) ∧
  zlen (m ≫= λ r, seqZ r.1 (r.2 - r.1)) = zsum (λ r, r.2 - r.1) m ∧
  ∀ x, x ∈ (m ≫= λ r, seqZ r.1 (r.2 - r.1)) ↔ covered m x.
Proof.
  induction m as [|r m IH]; intros Hm.
  { split_and!; [constructor|done|]. intros x. cbn. split; [by intros ?%elem_of_nil|by intros (? & []%elem_of_nil & _)]. }
  destruct (ranges_canonical_cons _ _ Hm) as (Hcm & Hr & Hgap). destruct (IH Hcm) as (Hnd & Hlen & Hin). rewrite bind_cons.
  assert (∀ x, x ∈ seqZ r.1 (r.2 - r.1) ↔ r.1 <= x < r.2) as Hseq by (intros x; rewrite elem_of_seqZ; lia).
  split_and!.
  - apply NoDup_app. split_and!; [apply NoDup_seqZ| |done]. intros x Hx%Hseq (s & Hs & ?)%Hin. specialize (Hgap s Hs). lia.
  - rewrite zlen_app, zsum_cons, Hlen. unfold zlen at 1. rewrite length_seqZ. lia.
  - intros x. rewrite elem_of_app, Hseq, Hin, covered_cons. done.
Qed.
Lemma canonical_shortest m l : canonical m → (∀ x, covered m x → covered l x) → (∀ r, r ∈ l → r.1 < r.2) →
  zsum (λ r, r.2 - r.1) m <= zsum (λ r, r.2 - r.1) l.
Proof.
  intros Hm Hsub Hne. destruct (canonical_disjoint_sum m Hm) as (Hnd & <- & Hin).
  assert (zlen (l ≫= λ r, seqZ r.1 (r.2 - r.1)) = zsum (λ r, r.2 - r.1) l) as <-.
  { clear Hsub. induction l as [|r l IH]; [done|]. rewrite bind_cons, zlen_app, zsum_cons, IH by (intros s Hs; apply Hne; by right).
    unfold zlen at 1. rewrite length_seqZ. specialize (Hne r ltac:(left)). lia. }
  unfold zlen. apply inj_le, submseteq_length, NoDup_submseteq; [done|].
  intros x Hx%Hin. destruct (Hsub x Hx) as (r & Hr & ?). apply list_elem_of_bind. exists r. split; [|done]. apply elem_of_seqZ. lia.
Qed.
End ranges.

(** C26 (functional): coalesced fetches read exactly what was asked, once.  Ranges that are not empty coalesce into the one
    list of ranges, in order and never touching, that covers exactly the same positions, in as few bytes
    as any ranges that cover them; so the order of the requests does not matter, and
    coalescing again changes nothing.  An empty or backwards range refuses the whole batch. *)
Theorem coalesce_exact (ranges : list (Z * Z)) :
  (coalesce ranges = Err Invalid ↔ ∃ r, r ∈ ranges ∧ r.2 <= r.1) ∧
  ((∀ r, r ∈ ranges → r.1 < r.2) → ∃ m, coalesce ranges = Ok m ∧
    StronglySorted (λ a b, a.2 < b.1) m ∧ (∀ r, r ∈ m → r.1 < r.2) ∧ (∀ x, covered m x ↔ covered ranges x) ∧
    (∀ other, (∀ r, r ∈ other → r.1 < r.2) → (∀ x, covered ranges x → covered other x) →
      zsum (λ r, r.2 - r.1) m <= zsum (λ r, r.2 - r.1) other) ∧
    (∀ ranges', ranges' ≡ₚ ranges → coalesce ranges' = Ok m) ∧ coalesce m = Ok m).
Proof.
  split.
  - destruct (existsb (λ r, r.2 <=? r.1) ranges) eqn:Hbad.
    + split; [intros _|intros _; unfold coalesce; by rewrite coalesce_check, Hbad].
      apply existsb_elem in Hbad as (r & Hr & ?%Z.leb_le). by exists r.
    + rewrite existsb_none in Hbad. split; [|intros (r & Hr & ?); specialize (Hbad r Hr); lia].
      intros Herr. destruct (coalesce_run ranges) as (m & Hm & _); [|by rewrite Hm in Herr]. intros r Hr. specialize (Hbad r Hr). lia.
  - intros Hne. destruct (coalesce_run ranges Hne) as (m & Hm & Hc & Hcov). exists m. split_and!; [done|apply Hc|apply Hc|done| | |].
    + intros other Ho Hsub. apply canonical_shortest; [done| |done]. intros x Hx. by apply Hsub, Hcov.
    + intros ranges' Hp. destruct (coalesce_run ranges') as (m' & -> & Hc' & Hcov'); [intros r; rewrite Hp; apply Hne|].
      f_equal. apply canonical_unique; [done..|]. intros x. rewrite Hcov', Hcov. unfold covered. by setoid_rewrite Hp.
    + destruct (coalesce_run m) as (m' & -> & Hc' & Hcov'); [apply Hc|]. f_equal. by apply canonical_unique.
Qed.

Lemma coalesce_exact_example : coalesce [(10, 20); (0, 4); (15, 30); (4, 6); (40, 41)] = Ok [(0, 6); (10, 30); (40, 41)].
Proof. reflexivity. Qed.

(** ** Translating offsets *)

Section translation.
Import OffsetTranslator.

(** checkpoints go up on both sides *)
Definition rising (a b : Z * Z) : Prop := a.1 < b.1 ∧ a.2 < b.2.

Lemma add_checkpoint_run s t w : state_of (add_checkpoint s t) w =
  match last (checkpoints w) with
  | Some (ls, lt) => if (s <=? ls) || (t <=? lt) then w else mk (checkpoints w ++ [(s, t)])
  | None => mk (checkpoints w ++ [(s, t)])
  end.
Proof.
  destruct w as [l]. unfold state_of, add_checkpoint. rewrite bind_get. cbn [checkpoints].
  destruct l as [|[ls lt] l _] using rev_ind; [done|]. rewrite bool_decide_eq_false_2 by (by destruct l). cbn [negb].
  rewrite py_index_last, last_snoc. rewrite bind_run, bind_pure_of. by destruct (_ || _).
Qed.

Lemma add_checkpoint_rising s t w : StronglySorted rising (checkpoints w) → StronglySorted rising (checkpoints (state_of (add_checkpoint s t) w)).
Proof.
  intros Hw. rewrite add_checkpoint_run. destruct w as [l]. cbn [checkpoints] in *.
  destruct l as [|[ls lt] l _] using rev_ind; [repeat constructor|]. rewrite last_snoc.
  destruct (_ || _) eqn:Hc; [done|]. cbn [checkpoints]. apply orb_false_iff in Hc as [Hc1%Z.leb_gt Hc2%Z.leb_gt].
  apply StronglySorted_app_2; [|done|repeat constructor]. intros x y Hx ->%list_elem_of_singleton. unfold rising. cbn.
  apply elem_of_app in Hx as [Hx| ->%list_elem_of_singleton]; [|done].
  pose proof (StronglySorted_app_1_elem_of rising l [(ls, lt)] x (ls, lt) Hw Hx ltac:(left)) as [H1 H2]. cbn in *. lia.
Qed.

Lemma translate_loop_spec l o d : StronglySorted rising l →
  translate_loop l o d = default d (snd <$> last (py_filter (λ c, c.1 <=? o) l)).
Proof.
  revert d. induction l as [|[s t] l IH]; intros d Hl; [done|]. cbn [translate_loop]. rewrite py_filter_cons. cbn [fst].
  apply StronglySorted_inv in Hl as [Hl Hx]. destruct (Z.leb_spec s o) as [Hle|Hgt].
  - rewrite IH by done. rewrite last_cons. by destruct (last _).
  - rewrite (proj2 (py_filter_nil_iff _ l)); [done|]. intros c Hc. rewrite Forall_forall in Hx. specialize (Hx c Hc) as [? _]. cbn in *. lia.
Qed.
End translation.

(** Also (safety): translating an offset never skips a record.  After any attempts to add checkpoints, those kept go up on
    both sides; an offset translates exactly if some checkpoint is at or before it, and then to the target of the
    last such checkpoint, so the consumer resumes at or before its place and never past the next
    checkpoint; and a later offset never translates to an earlier place. *)
Theorem translation_never_ahead (adds : list (Z * Z)) (o : Z) :
  let w := run (λ '(s, t), state_of (OffsetTranslator.add_checkpoint s t)) adds OffsetTranslator.new in
  let cs := OffsetTranslator.checkpoints w in
  StronglySorted rising cs ∧
  (is_ok (OffsetTranslator.translate w o) = true ↔ ∃ c, c ∈ cs ∧ c.1 <= o) ∧
  (∀ t, OffsetTranslator.translate w o = Ok t →
    (∃ c, c ∈ cs ∧ c.1 <= o ∧ c.2 = t) ∧ (∀ c, c ∈ cs → c.1 <= o → c.2 <= t) ∧ (∀ c, c ∈ cs → o < c.1 → t < c.2)) ∧
  (∀ o' t t', o <= o' → OffsetTranslator.translate w o = Ok t → OffsetTranslator.translate w o' = Ok t' → t <= t').
Proof.
  intros w cs. assert (StronglySorted rising cs) as Hcs.
  { unfold cs, w. apply (run_invariant (λ '(s, t), state_of (OffsetTranslator.add_checkpoint s t)) (λ w, StronglySorted rising (OffsetTranslator.checkpoints w))); [|constructor].
    intros [s t] w'. apply add_checkpoint_rising. }
  assert (∀ o, OffsetTranslator.translate w o =
    match last (py_filter (λ c, c.1 <=? o) cs) with Some c => Ok c.2 | None => Err Missing end) as Hrun.
  { clear o. intros o. unfold OffsetTranslator.translate. fold cs. destruct cs as [|c l] eqn:Hl; [done|].
    rewrite bool_decide_eq_false_2 by done. rewrite (py_index_nonneg _ 0 c) by done. cbn [mbind result_bind].
    rewrite translate_loop_spec by done. rewrite py_filter_cons, Z.ltb_antisym. destruct (Z.leb_spec c.1 o) as [Hle|Hgt]; cbn [negb].
    - rewrite last_cons. by destruct (last _).
    - rewrite (proj2 (py_filter_nil_iff _ l)); [done|]. intros c' Hc'. apply StronglySorted_inv in Hcs as [_ Hx].
      rewrite Forall_forall in Hx. specialize (Hx c' Hc') as [? _]. lia. }
  assert (∀ o c, last (py_filter (λ c, c.1 <=? o) cs) = Some c → (c ∈ cs ∧ c.1 <= o) ∧ ∀ c', c' ∈ cs → c'.1 <= o → c' = c ∨ rising c' c) as Hlast.
  { clear -Hcs. intros o c Hc. apply last_Some in Hc as [l Hl].
    assert (∀ x, x ∈ l ++ [c] ↔ x.1 <= o ∧ x ∈ cs) as Hin by (intros x; rewrite <- Hl, elem_of_py_filter, Z.leb_le; done).
    split; [destruct (proj1 (Hin c)) as [? ?]; [apply elem_of_app; right; left|done]|].
    intros c' Hc' Ho. assert (c' ∈ l ++ [c]) as [Hcl| ->%list_elem_of_singleton]%elem_of_app by (by apply Hin); [right|by left].
    assert (StronglySorted rising (l ++ [c])) as Hs by (rewrite <- Hl; by apply StronglySorted_filter).
    apply (StronglySorted_app_1_elem_of rising l [c] c' c); [done|done|left]. }
  split_and!; [done| | |].
  - rewrite Hrun. destruct (last _) as [c|] eqn:Hc; cbn.
    + split; [|done]. intros _. exists c. by apply (Hlast o).
    + apply last_None in Hc. split; [done|]. intros (c & Hcs' & Ho). rewrite py_filter_nil_iff in Hc. specialize (Hc c Hcs'). lia.
  - intros t. rewrite Hrun. destruct (last _) as [c|] eqn:Hc; [|done]. intros [= <-]. destruct (Hlast o c Hc) as [[Hin Ho] Hmax].
    split_and!; [by exists c| |].
    + intros c' Hc' Ho'. destruct (Hmax c' Hc' Ho') as [->|[_ ?]]; lia.
    + intros c' Hc' Ho'. clear -Hcs Hin Hc' Ho Ho'. induction Hcs as [|x l Hs IH Hx]; [by apply elem_of_nil in Hin|].
      rewrite Forall_forall in Hx. apply elem_of_cons in Hin as [->|Hin], Hc' as [->|Hc'].
      * lia.
      * by apply Hx.
      * specialize (Hx c Hin) as [? _]. lia.
      * by apply IH.
  - intros o' t t' Ho. rewrite !Hrun. destruct (last (py_filter (λ c, c.1 <=? o) cs)) as [c|] eqn:Hc; [|done]. intros [= <-].
    destruct (last (py_filter (λ c, c.1 <=? o') cs)) as [c'|] eqn:Hc'; [|done]. intros [= <-].
    destruct (Hlast o c Hc) as [[Hin Hco] _]. destruct (Hlast o' c' Hc') as [_ Hmax].
    destruct (Hmax c Hin ltac:(lia)) as [->|[_ ?]]; lia.
Qed.

(** ** Expiring offsets *)

Section expiry.
Import OffsetExpirer.

Definition kept (self : t) (active : gset string) (now : Z) (e : GroupOffset.t) : bool :=
  bool_decide (GroupOffset.group e ∈ active) || (now - GroupOffset.last_commit_tick e <=? retention_ticks self).
Definition sweep_body (active : gset string) (now : Z) (survivors : list GroupOffset.t) (entry : GroupOffset.t) : act t (list GroupOffset.t) :=
    if bool_decide (GroupOffset.group entry ∈ active) then
      self ← get;
      put (set_protected_active (protected_active self + 1) self);;
      let survivors := survivors ++ [entry] in
      mret survivors
    else
    self ← get;
    if now - (GroupOffset.last_commit_tick entry) <=? retention_ticks self then
      let survivors := survivors ++ [entry] in
      mret survivors
    else
    put (set_expired (expired self + 1) self);;
    self ← get;
    put (set_freed_entries (freed_entries self + 1) self);;
    mret survivors.

Lemma sweep_loop active now l survivors self :
  for_fold l survivors (sweep_body active now) self =
  (mk (retention_ticks self) (expired self + zlen (py_filter (λ e, negb (kept self active now e)) l))
      (freed_entries self + zlen (py_filter (λ e, negb (kept self active now e)) l))
      (protected_active self + zlen (py_filter (λ e, bool_decide (GroupOffset.group e ∈ active)) l)),
   Ok (survivors ++ py_filter (kept self active now) l)).
Proof.
  revert survivors self. induction l as [|e l IH]; intros survivors self.
  { cbn [for_fold]. rewrite run_ret, !py_filter_nil, !zlen_nil, !Z.add_0_r, app_nil_r. by destruct self. }
  cbn [for_fold]. rewrite bind_run. unfold sweep_body at 1. rewrite !py_filter_cons.
  assert (∀ self', retention_ticks self' = retention_ticks self → kept self' active now = kept self active now) as Hk.
  { intros self' Hr. unfold kept. by rewrite Hr. }
  assert (kept self active now e = bool_decide (GroupOffset.group e ∈ active) || (now - GroupOffset.last_commit_tick e <=? retention_ticks self)) as -> by done.
  case_bool_decide as Hactive; cbn [orb negb].
  - rewrite bind_get, bind_put. cbn beta iota. rewrite run_ret, IH. cbn [retention_ticks expired freed_entries protected_active set_protected_active].
    rewrite (Hk (set_protected_active _ self)) by done. rewrite zlen_cons, <- app_assoc. do 2 f_equal. lia.
  - rewrite bind_get. destruct (_ <=? _); cbn [negb].
    + rewrite run_ret, IH, <- app_assoc. done.
    + rewrite bind_put, bind_get, bind_put, run_ret, IH.
      cbn [retention_ticks expired freed_entries protected_active set_expired set_freed_entries].
      rewrite (Hk (set_freed_entries _ _)) by done. rewrite !zlen_cons. do 2 f_equal; lia.
Qed.
End expiry.

(** Also (functional): expiry frees only what nobody can resume from.  A sweep keeps, in order, exactly the offsets
    of active groups and those committed within the retention, and counts the others as expired and the
    protected ones apart; an active group loses nothing however old its commit is. *)
Theorem expiry_spares_active (w : OffsetExpirer.t) (offsets : list GroupOffset.t) (active : gset string) (now : Z) :
  ∃ survivors, value_of (OffsetExpirer.sweep offsets active now) w = Ok survivors ∧ survivors `sublist_of` offsets ∧
  let w' := state_of (OffsetExpirer.sweep offsets active now) w in
  (∀ e, e ∈ survivors ↔ e ∈ offsets ∧ (GroupOffset.group e ∈ active ∨ now - GroupOffset.last_commit_tick e <= OffsetExpirer.retention_ticks w)) ∧
  OffsetExpirer.expired w' = OffsetExpirer.expired w + (zlen offsets - zlen survivors) ∧
  OffsetExpirer.freed_entries w' - OffsetExpirer.freed_entries w = OffsetExpirer.expired w' - OffsetExpirer.expired w ∧
  OffsetExpirer.protected_active w' = OffsetExpirer.protected_active w + zlen (py_filter (λ e, bool_decide (GroupOffset.group e ∈ active)) offsets).
Proof.
  exists (py_filter (kept w active now) offsets). unfold value_of, state_of, OffsetExpirer.sweep. rewrite bind_get || idtac.
  rewrite bind_run. change (for_fold offsets [] _) with (for_fold offsets [] (sweep_body active now)). rewrite sweep_loop, run_ret.
  cbn [fst snd OffsetExpirer.expired OffsetExpirer.freed_entries OffsetExpirer.protected_active app]. split_and!; [done|apply sublist_filter| | |lia|done].
  - intros e. rewrite elem_of_py_filter. unfold kept. rewrite orb_true_iff, bool_decide_eq_true, Z.leb_le. tauto.
  - assert (zlen offsets = zlen (py_filter (kept w active now) offsets) + zlen (py_filter (λ e, negb (kept w active now e)) offsets)); [|lia].
    clear. induction offsets as [|e l IH]; [done|]. rewrite !py_filter_cons. destruct (kept w active now e); cbn [negb]; rewrite !zlen_cons; lia.
Qed.

(** Also (functional): a deletion is reported by what its message says, not by what happened: a partition without an
    offset whose own name has the word in it counts as deleted. *)
Theorem delete_many_miscounts :
  value_of (OffsetDeleter.delete_many ["deleted-orders"]) OffsetDeleter.new =
    value_of (OffsetDeleter.delete_many ["orders"]) (OffsetDeleter.mk [("orders", 7)] ∅).
Proof. vm_compute. reflexivity. Qed.

(** ** The coordinator of a group *)

(** Also (safety): a group has one coordinator.  Groups are spread over the offset partitions by a hash alone, so
    two brokers never both serve the same group, groups of one partition share their coordinator, and a
    failover of a partition moves the groups of that partition, all of them and no other. *)
Theorem one_coordinator_serves (s : CoordinatorLocator.t) (Hn : 1 <= CoordinatorLocator.offset_partitions s) :
  (∀ g, ∃ p, coordinator_partition g (CoordinatorLocator.offset_partitions s) = Ok p ∧ 0 <= p < CoordinatorLocator.offset_partitions s ∧
    ∀ l s', s' = state_of (CoordinatorLocator.on_failover p l) s → CoordinatorLocator.coordinator_for s' g = Ok l) ∧
  (∀ g b b', is_ok (CoordinatorLocator.serve_or_redirect s g b) = true → is_ok (CoordinatorLocator.serve_or_redirect s g b') = true → b = b') ∧
  (∀ g g' p, coordinator_partition g (CoordinatorLocator.offset_partitions s) = Ok p →
    coordinator_partition g' (CoordinatorLocator.offset_partitions s) = Ok p →
    CoordinatorLocator.coordinator_for s g = CoordinatorLocator.coordinator_for s g') ∧
  (∀ g p l, coordinator_partition g (CoordinatorLocator.offset_partitions s) ≠ Ok p →
    CoordinatorLocator.coordinator_for (state_of (CoordinatorLocator.on_failover p l) s) g = CoordinatorLocator.coordinator_for s g).
Proof.
  assert (∀ p l, state_of (CoordinatorLocator.on_failover p l) s =
    CoordinatorLocator.mk (CoordinatorLocator.offset_partitions s) (d_set (CoordinatorLocator.partition_leaders s) p l)) as Hrun by done.
  split_and!.
  - intros g. unfold coordinator_partition at 1. rewrite (proj2 (Z.ltb_ge _ _)) by done. unfold py_mod.
    rewrite (proj2 (Z.eqb_neq _ _)) by lia. eexists. split; [done|]. split; [apply Z.mod_pos_bound; lia|].
    intros l s' ->. rewrite Hrun. unfold CoordinatorLocator.coordinator_for, coordinator_partition.
    cbn [CoordinatorLocator.offset_partitions CoordinatorLocator.partition_leaders].
    rewrite (proj2 (Z.ltb_ge _ _)) by done. unfold py_mod. rewrite (proj2 (Z.eqb_neq _ _)) by lia. cbn [mbind result_bind].
    by rewrite d_get_set_eq.
  - intros g b b'. unfold CoordinatorLocator.serve_or_redirect.
    destruct (CoordinatorLocator.coordinator_for s g) as [real|e]; cbn; [|done]. by repeat case_bool_decide; subst.
  - intros g g' p Hg Hg'. unfold CoordinatorLocator.coordinator_for. by rewrite Hg, Hg'.
  - intros g p l Hne. rewrite Hrun. unfold CoordinatorLocator.coordinator_for. cbn [CoordinatorLocator.offset_partitions CoordinatorLocator.partition_leaders].
    destruct (coordinator_partition g _) as [q|e]; cbn [mbind result_bind]; [|done]. rewrite d_get_set_ne; [done|congruence].
Qed.

(** ** The long poll *)

Lemma early_return_spec r av :
  match early_return r av with
  | Some (t, c) => (t, c) ∈ av ∧ t <= LongPollRequest.max_wait r ∧ LongPollRequest.min_bytes r <= c ∧
      (StronglySorted Z.lt av.*1 → ∀ t' c', (t', c') ∈ av → t' < t → c' < LongPollRequest.min_bytes r)
  | None => StronglySorted Z.lt av.*1 → ∀ t' c', (t', c') ∈ av → t' <= LongPollRequest.max_wait r → c' < LongPollRequest.min_bytes r
  end.
Proof.
  induction av as [|[t c] av IH]; cbn [early_return]; [by intros _ ? ? ?%elem_of_nil|].
  assert (∀ t' c', StronglySorted Z.lt (((t, c) :: av).*1) → (t', c') ∈ av → t < t') as Hlater.
  { intros t' c' [_ Hall]%StronglySorted_inv Hin. rewrite Forall_forall in Hall. apply Hall, list_elem_of_fmap. by exists (t', c'). }
  destruct (Z.ltb_spec (LongPollRequest.max_wait r) t) as [Hlate|Hintime].
  - intros Hs t' c' [[= -> ->]|Hin]%elem_of_cons Hle; [lia|]. specialize (Hlater _ _ Hs Hin). lia.
  - destruct (Z.leb_spec (LongPollRequest.min_bytes r) c) as [Henough|Hfew].
    + split_and!; [by left|done|done|]. intros Hs t' c' [[= -> ->]|Hin]%elem_of_cons Hlt; [lia|]. specialize (Hlater _ _ Hs Hin). lia.
    + destruct (early_return r av) as [[t0 c0]|].
      * destruct IH as (Hin & Hle & Hmin & Hbefore). split_and!; [by right|done|done|].
        intros Hs t' c' [[= -> ->]|Hin']%elem_of_cons Hlt; [done|]. apply (Hbefore (proj1 (StronglySorted_inv Hs)) t' c' Hin' Hlt).
      * intros Hs t' c' [[= -> ->]|Hin']%elem_of_cons Hle; [done|]. apply (IH (proj1 (StronglySorted_inv Hs)) t' c' Hin' Hle).
Qed.

(** Also (liveness): a long poll returns as soon as it may and no later than it must.  For a request the constructor accepts and
    what becomes available over time in order of ticks, the tick it returns at is within the maximum wait, no
    earlier tick had the minimum of bytes, and a return before the maximum wait is at a tick that had it. *)
Theorem long_poll_earliest (min_bytes max_wait max_response : Z) (r : LongPollRequest.t) (av : list (Z * Z))
    (Hmake : LongPollRequest.make min_bytes max_wait max_response = Ok r) (Hsorted : StronglySorted Z.lt av.*1) :
  let t := (resolve_fetch r av).1 in
  t <= max_wait ∧ (∀ t' c, (t', c) ∈ av → t' < t → c < min_bytes) ∧
  (t < max_wait → ∃ c, (t, c) ∈ av ∧ min_bytes <= c).
Proof.
  unfold LongPollRequest.make in Hmake. destruct (_ || _); [done|]. destruct (_ <? _); [done|]. injection Hmake as <-.
  pose proof (early_return_spec (LongPollRequest.mk min_bytes max_wait max_response) av) as H.
  unfold resolve_fetch. destruct (early_return _ av) as [[t c]|]; cbn [fst LongPollRequest.max_wait LongPollRequest.min_bytes] in *.
  - destruct H as (Hin & Hle & Hmin & Hbefore). split_and!; [done|by apply Hbefore|]. intros _. by exists c.
  - split_and!; [lia| |lia]. intros t' c Hin Hlt. apply (H Hsorted t' c Hin). lia.
Qed.
Example long_poll_earliest_witness :
  (resolve_fetch (LongPollRequest.mk 10 5 100) [(1, 4); (3, 12); (4, 20)]).1 = 3 ∧
  (3 <= 5 ∧ ∀ t' c, (t', c) ∈ [(1, 4); (3, 12); (4, 20)] → t' < 3 → c < 10).
Proof.
  destruct (long_poll_earliest 10 5 100 (LongPollRequest.mk 10 5 100) [(1, 4); (3, 12); (4, 20)] eq_refl) as (H1 & H2 & _).
  - repeat constructor.
  - split; [reflexivity|]. split; [exact H1|exact H2].
Defined.

(** ** Rebalance storms *)

Definition storm_step (o : Z * string) (s : StormDetector.t) : StormDetector.t := state_of (StormDetector.record_rebalance o.1 o.2) s.

Lemma storm_step_run o s : storm_step o s =
  StormDetector.mk (StormDetector.window s) (StormDetector.threshold s)
    (py_filter (λ t, o.1 - t <? StormDetector.window s) (StormDetector.rebalances s ++ [o.1]))
    (d_set (StormDetector.churn s) o.2 (d_getd (StormDetector.churn s) o.2 0 + 1)) (StormDetector.stable_members s).
Proof. by destruct o. Qed.

Lemma filter_window w (last now : Z) (ts : list Z) : last <= now →
  py_filter (λ t, now - t <? w) (py_filter (λ t, last - t <? w) ts) = py_filter (λ t, now - t <? w) ts.
Proof.
  intros Hle. induction ts as [|t ts IH]; [done|]. rewrite (py_filter_cons (λ t, last - t <? w)), (py_filter_cons _ t ts).
  destruct (Z.ltb_spec (last - t) w), (Z.ltb_spec (now - t) w); rewrite ?py_filter_cons; try lia.
  - rewrite (proj2 (Z.ltb_lt (now - t) w)) by done. by rewrite IH.
  - rewrite (proj2 (Z.ltb_ge (now - t) w)) by done. done.
  - done.
Qed.

(** Also (equivalence): a storm is exactly what the window says.  For rebalances recorded in order of time, the detector, which forgets
    as it goes, counts exactly those of the whole history within the window of the last one, so it reports
    a storm exactly if there are as many as the threshold; and each member is charged with exactly its own. *)
Theorem storm_counts_window (window threshold : Z) (s0 : StormDetector.t) (events : list (Z * string)) (now : Z) (who : string)
    (Hmake : StormDetector.make window threshold = Ok s0) (Hsorted : StronglySorted Z.le (events.*1 ++ [now])) :
  let s := run storm_step (events ++ [(now, who)]) s0 in
  StormDetector.is_storm s = (threshold <=? zlen (py_filter (λ t, now - t <? window) (events.*1 ++ [now]))) ∧
  ∀ m, d_getd (StormDetector.churn s) m 0 = zlen (py_filter (λ e, bool_decide (e.2 = m)) (events ++ [(now, who)])).
Proof.
  unfold StormDetector.make in Hmake. destruct (_ || _) eqn:E; [done|]. injection Hmake as <-. bool_prop.
  assert (∀ evs last who, StronglySorted Z.le (evs.*1 ++ [last]) →
    let s := run storm_step (evs ++ [(last, who)]) (StormDetector.mk window threshold [] [] 0) in
    StormDetector.window s = window ∧ StormDetector.threshold s = threshold ∧
    StormDetector.rebalances s = py_filter (λ t, last - t <? window) (evs.*1 ++ [last]) ∧
    ∀ m, d_getd (StormDetector.churn s) m 0 = zlen (py_filter (λ e, bool_decide (e.2 = m)) (evs ++ [(last, who)]))) as Hinv.
  { clear. intros evs. induction evs as [|[t w] evs IH] using rev_ind; intros last who Hs; cbn zeta.
    - change (run storm_step ([] ++ [(last, who)]) _) with (storm_step (last, who) (StormDetector.mk window threshold [] [] 0)).
      rewrite storm_step_run. cbn [fst snd StormDetector.window StormDetector.threshold StormDetector.rebalances StormDetector.churn fmap list_fmap app].
      split_and!; [done..|]. intros m. rewrite d_getd_set, py_filter_cons. cbn [snd]. do 2 case_bool_decide; try congruence; done.
    - rewrite fmap_app in Hs. cbn [fmap list_fmap fst] in Hs.
      destruct (IH t w) as (Hw & Ht & Hr & Hc); [by apply StronglySorted_app_1_l in Hs|].
      rewrite run_app. set (s := run storm_step (evs ++ [(t, w)]) _) in *.
      change (run storm_step [(last, who)] s) with (storm_step (last, who) s). rewrite storm_step_run.
      cbn [fst snd StormDetector.window StormDetector.threshold StormDetector.rebalances StormDetector.churn].
      split_and!; [done..| |].
      + rewrite Hw, Hr, py_filter_app, filter_window, fmap_app, <-py_filter_app; [done|].
        apply (StronglySorted_app_1_elem_of Z.le _ _ t last Hs); [apply elem_of_app; right; by left|by left].
      + intros m. rewrite d_getd_set, (py_filter_app _ (evs ++ _)), zlen_app, <-Hc, py_filter_cons. cbn [snd].
        case_bool_decide as Hm; [subst m; rewrite bool_decide_eq_true_2 by done|rewrite bool_decide_eq_false_2 by congruence];
          change (py_filter (λ e : Z * string, bool_decide (e.2 = _)) []) with (@nil (Z * string)); rewrite ?zlen_cons; change (zlen (@nil (Z * string))) with 0; lia. }
  destruct (Hinv events now who Hsorted) as (_ & Ht & Hr & Hc). split; [|exact Hc].
  unfold StormDetector.is_storm. by rewrite Ht, Hr.
Qed.
Example storm_counts_window_witness :
  StormDetector.is_storm (run storm_step ([(1, "a"); (9, "b")] ++ [(10, "a")]) (StormDetector.mk 5 2 [] [] 0)) = (2 <=? zlen [9; 10]).
Proof.
  destruct (storm_counts_window 5 2 (StormDetector.mk 5 2 [] [] 0) [(1, "a"); (9, "b")] 10 "a" eq_refl) as [H _]; [|exact H].
  cbn. repeat first [apply SSorted_nil | apply SSorted_cons | apply Forall_nil_2 | apply Forall_cons_2 | lia].
Defined.

(** ** Observers of the quorum *)

Inductive quorum_op := AddObserver (broker : string) (offset : Z) | Promote (broker : string).
Definition quorum_op_step (o : quorum_op) (q : QuorumMembership.t) : QuorumMembership.t :=
  match o with
  | AddObserver broker offset => state_of (QuorumMembership.add_observer broker offset) q
  | Promote broker => state_of (QuorumMembership.promote broker) q
  end.

Lemma promote_run broker q :
  QuorumMembership.promote broker q =
    match d_get (QuorumMembership.observers q) broker with
    | None => (q, Err Invalid)
    | Some o =>
        if QuorumMembership.max_promote_lag q <? QuorumMembership.leader_offset q - o then (q, Err Invalid)
        else let q' := QuorumMembership.set_voters ({[broker]} ∪ QuorumMembership.voters q)
                         (QuorumMembership.set_observers (d_del (QuorumMembership.observers q) broker) q) in
             (q', Ok ("promoted " +:+ broker +:+ " to voter; commit majority now " +:+ zs (QuorumMembership.commit_majority q')))
    end.
Proof.
  unfold QuorumMembership.promote. rewrite bind_get, bind_raise_if, d_mem_get. unfold d_item.
  destruct (d_get (QuorumMembership.observers q) broker) as [o|]; cbn [negb]; [|done]. rewrite bind_pure_of. cbn beta iota.
  rewrite bind_raise_if. by destruct (_ <? _).
Qed.

(** Also (safety): observers never change what a commit needs.  After any sequence of additions and promotions a broker is never
    observer and voter at once; adding an observer, however many there are, leaves the voters and the
    majority as they are; a promotion succeeds exactly for an observer within the allowed lag, and then the
    voters are the old ones and it. *)
Theorem observers_never_vote (leader_offset max_lag : Z) (ops : list quorum_op) :
  let q := run quorum_op_step ops (QuorumMembership.new leader_offset max_lag) in
  (∀ b, b ∈ QuorumMembership.voters q → d_get (QuorumMembership.observers q) b = None) ∧
  (∀ b o, QuorumMembership.voters (quorum_op_step (AddObserver b o) q) = QuorumMembership.voters q ∧
    QuorumMembership.commit_majority (quorum_op_step (AddObserver b o) q) = QuorumMembership.commit_majority q) ∧
  (∀ b, is_ok (value_of (QuorumMembership.promote b) q) = true ↔
    ∃ o, d_get (QuorumMembership.observers q) b = Some o ∧ leader_offset - o <= max_lag) ∧
  (∀ b, is_ok (value_of (QuorumMembership.promote b) q) = true →
    QuorumMembership.voters (quorum_op_step (Promote b) q) = {[b]} ∪ QuorumMembership.voters q ∧ b ∉ QuorumMembership.voters q).
Proof.
  intros q.
  assert (QuorumMembership.leader_offset q = leader_offset ∧ QuorumMembership.max_promote_lag q = max_lag ∧
    ∀ b, b ∈ QuorumMembership.voters q → d_get (QuorumMembership.observers q) b = None) as (Hl & Hm & Hq).
  { apply (run_invariant quorum_op_step (λ q, QuorumMembership.leader_offset q = leader_offset ∧ QuorumMembership.max_promote_lag q = max_lag ∧
      ∀ b, b ∈ QuorumMembership.voters q → d_get (QuorumMembership.observers q) b = None)).
    - intros [b o|b] s (H1 & H2 & H3); cbn [quorum_op_step]; unfold state_of.
      + unfold QuorumMembership.add_observer. rewrite bind_get, bind_raise_if. case_bool_decide as Hb; [by split_and!|].
        cbn. split_and!; [done..|]. intros b' Hb'. rewrite d_get_set_ne; [by apply H3|by intros ->].
      + rewrite promote_run. destruct (d_get _ b) as [o|]; [|by split_and!]. destruct (_ <? _); [by split_and!|].
        cbn [fst QuorumMembership.voters QuorumMembership.observers QuorumMembership.set_voters QuorumMembership.set_observers].
        split_and!; [done..|]. intros b' Hb'. rewrite d_get_del. case_bool_decide; [done|]. apply H3. set_solver.
    - split_and!; [done..|]. set_solver. }
  split_and!; [done| | |].
  - intros b o. cbn [quorum_op_step]. unfold state_of, QuorumMembership.add_observer. rewrite bind_get, bind_raise_if. by case_bool_decide.
  - intros b. unfold value_of. rewrite promote_run, Hl, Hm. destruct (d_get _ b) as [o|]; [|split; [done|by intros (? & ? & ?)]].
    destruct (Z.ltb_spec max_lag (leader_offset - o)) as [Hlag|Hlag]; cbn [snd is_ok].
    + split; [done|]. intros (? & [= <-] & ?). lia.
    + split; [|done]. intros _. by exists o.
  - intros b. cbn [quorum_op_step]. unfold value_of, state_of. rewrite promote_run. destruct (d_get _ b) as [o|] eqn:E; [|done].
    destruct (_ <? _); [done|]. intros _. split; [done|]. intros Hb. specialize (Hq b Hb). congruence.
Qed.
