(* ===== verification/ReplicaOps.v ===== *)
(** * Replica operations

    How far a replica is behind and what follows from it ([relay/replicalagtime.py], [relay/replicationlagbytes.py],
    [relay/urp.py], [relay/followerstale.py], [relay/slowbroker.py], [relay/phiaccrual.py]), fetching
    ([relay/replicafetcherthread.py], [relay/replicaselector.py], [relay/closestreplica.py], [relay/followerfetch.py],
    [relay/leaderepochfence.py]), moving replicas ([relay/reassignprogress.py], [relay/reassignmentthrottle.py],
    [relay/partitionreassigncancel.py], [relay/replicationthrottle.py]), leadership ([relay/leaderstickiness.py],
    [relay/uncleanleader.py], [relay/splitvote.py]), racks ([relay/rackspread.py]), and data between clusters or loops
    ([relay/mirroring.py], [relay/gossip.py], [relay/ctp.py]).  The logarithm of the failure detector is a parameter: it is
    the C library's. *)

From Stdlib Require Import Strings.Byte Strings.Ascii.
From S2P Require Import Prelude PyDict PyBytes PyFloat.

Module rackspread.
Module RackDistribution.
(** [relay/rackspread.py] class RackDistribution *)
Record t := mk { replicas_per_rack : pydict string Z; min_in_sync : Z; }.
(** [relay/rackspread.py] RackDistribution.__post_init__ *)
Definition make (replicas_per_rack : pydict string Z) (min_in_sync : Z) : result t :=
  if bool_decide (replicas_per_rack = []) then Err Invalid else
  if min_in_sync <? 1 then Err Invalid else
  Ok (mk replicas_per_rack min_in_sync).
(** [relay/rackspread.py] RackDistribution.total_replicas *)
Definition total_replicas (self : t) : Z :=
  zsum id (d_values (replicas_per_rack self)).
(** [relay/rackspread.py:56-61] RackDistribution.survivable_rack_failures: the loop over the racks *)
Fixpoint survive_loop (sizes : list Z) (min_in_sync remaining failures : Z) : Z :=
  match sizes with
  | [] => failures
  | size :: sizes =>
      if remaining - size <? min_in_sync then failures
      else survive_loop sizes min_in_sync (remaining - size) (failures + 1)
  end.
(** [relay/rackspread.py] RackDistribution.survivable_rack_failures *)
Definition survivable_rack_failures (self : t) : Z :=
  let sizes := py_sorted Z.ge (d_values (replicas_per_rack self)) in
  let remaining := total_replicas self in
  survive_loop sizes (min_in_sync self) remaining 0.
(** [relay/rackspread.py] RackDistribution.report *)
Definition report (self : t) : result string :=
  let tolerance := survivable_rack_failures self in
  p ← py_max_key Z.ltb snd (replicas_per_rack self);
  let '(heaviest, load) := p in
  let note := "" in
  note ← (if tolerance =? 0 then
     let note := "; looks redundant but survives zero rack failures, the false comfort exposed before the event not during it" in
     Ok note
   else
     Ok note);
  Ok (zs (total_replicas self) +:+ " replica(s) across " +:+ zs (zlen (replicas_per_rack self))
      +:+ " rack(s), heaviest " +:+ heaviest +:+ " holds " +:+ zs load +:+ ": survives " +:+ zs tolerance
      +:+ " rack failure(s) at min-in-sync " +:+ zs (min_in_sync self) +:+ note).
End RackDistribution.
End rackspread.
Import rackspread.

Module leaderstickiness.
Module LeaderStickiness.
(** [relay/leaderstickiness.py] class LeaderStickiness *)
Record t := mk { hold_down : Z; in_sync_since : Z; }.
Definition set_in_sync_since (v : Z) (self : t) : t := mk (hold_down self) v.
(** [relay/leaderstickiness.py] LeaderStickiness.__post_init__ *)
Definition make (hold_down : Z) : result t :=
  if hold_down <? 1 then Err Invalid else
  Ok (mk hold_down (-1)).
(** [relay/leaderstickiness.py] LeaderStickiness.became_in_sync *)
Definition became_in_sync (now : Z) : act t unit :=
  self ← get;
  (if in_sync_since self <? 0 then put (set_in_sync_since now self) else mret ()).
(** [relay/leaderstickiness.py] LeaderStickiness.dropped_out *)
Definition dropped_out : act t unit :=
  self ← get;
  put (set_in_sync_since (-1) self).
(** [relay/leaderstickiness.py] LeaderStickiness.may_reclaim *)
Definition may_reclaim (self : t) (now : Z) : bool :=
  (0 <=? in_sync_since self) && (hold_down self <=? now - (in_sync_since self)).
(** [relay/leaderstickiness.py] LeaderStickiness.reclaim *)
Definition reclaim (self : t) (now : Z) : result string :=
  if in_sync_since self <? 0 then Err Invalid else
  if negb (may_reclaim self now) then
    let remaining := hold_down self - (now - (in_sync_since self)) in
    Err Invalid
  else
  Ok "preferred leader reclaims; it has been stably in-sync".
(** [relay/leaderstickiness.py] LeaderStickiness.report *)
Definition report (self : t) (now : Z) : string :=
  if in_sync_since self <? 0 then
    "preferred broker not in sync; the failover leader keeps serving"
  else
  if may_reclaim self now then
    "hold-down elapsed; safe to reclaim"
  else
  zs (hold_down self - (now - (in_sync_since self)))
        +:+ " left in the hold-down; a hold-down that keeps resetting is a broker still flapping".
End LeaderStickiness.
End leaderstickiness.
Import leaderstickiness.

Module partitionreassigncancel.
Module ReassignmentCancel.
(** [relay/partitionreassigncancel.py] class ReassignmentCancel *)
Record t := mk {
  original : list string;
  target : list string;
  surviving : gset string;
  completed : bool;
}.
Definition set_surviving (v : gset string) (self : t) : t := mk (original self) (target self) v (completed self).
(** [relay/partitionreassigncancel.py] ReassignmentCancel.__post_init__ *)
Definition __post_init__ : act t unit :=
  self ← get;
  (if bool_decide (surviving self = ∅) then put (set_surviving (list_to_set (original self)) self) else mret ()).
(** [relay/partitionreassigncancel.py] ReassignmentCancel.__post_init__ *)
Definition make (original : list string) (target : list string) : result t := construct __post_init__ (mk original target (∅) false).
(** [relay/partitionreassigncancel.py] ReassignmentCancel.cancel *)
Definition cancel (self : t) : result (list string) :=
  if completed self then Err Invalid else
  if negb (existsb (λ r, bool_decide (r ∈ surviving self)) (original self)) then Err Invalid else
  Ok (py_filter (λ r, negb (bool_decide (r ∈ original self))) (target self)).
(** [relay/partitionreassigncancel.py] ReassignmentCancel.reverted_replicas *)
Definition reverted_replicas (self : t) : list string :=
  original self.
(** [relay/partitionreassigncancel.py] ReassignmentCancel.in_flight_union *)
Definition in_flight_union (self : t) : list string :=
  let seen : list string := original self in
  let seen := foldl (λ seen r,
    let seen :=
      if negb (bool_decide (r ∈ seen)) then
       let seen := seen ++ [r] in
       seen
      else
       seen in
    seen) seen (target self) in
  seen.
(** [relay/partitionreassigncancel.py] ReassignmentCancel.note *)
Definition note (self : t) : result string :=
  if completed self then
    Ok "reassignment completed; nothing in flight to cancel"
  else
  dropped ← cancel self;
  Ok ("cancel reverts to " +:+ repr_list repr_str (original self) +:+ ", dropping "
        +:+ repr_list repr_str dropped
        +:+ "; those brokers copied a log now thrown away, the cost of a reassignment started and abandoned").
End ReassignmentCancel.
End partitionreassigncancel.
Import partitionreassigncancel.

Module reassignmentthrottle.
Module ReassignmentThrottle.
(** [relay/reassignmentthrottle.py] class ReassignmentThrottle *)
Record t := mk {
  bytes_to_move : Z;
  throttle_bytes_per_sec : float;
  link_capacity_bytes_per_sec : float;
}.
(** [relay/reassignmentthrottle.py] ReassignmentThrottle.__post_init__ *)
Definition make (bytes_to_move : Z) (throttle_bytes_per_sec : float) (link_capacity_bytes_per_sec : float) : result t :=
  if f_le throttle_bytes_per_sec f0 then Err Invalid else
  if f_le link_capacity_bytes_per_sec throttle_bytes_per_sec then Err Invalid else
  if bytes_to_move <? 0 then Err Invalid else
  Ok (mk bytes_to_move throttle_bytes_per_sec link_capacity_bytes_per_sec).
(** [relay/reassignmentthrottle.py] ReassignmentThrottle.completion_seconds *)
Definition completion_seconds (self : t) : result float :=
  f_div (of_Z (bytes_to_move self)) (throttle_bytes_per_sec self).
(** [relay/reassignmentthrottle.py] ReassignmentThrottle.headroom_bytes_per_sec *)
Definition headroom_bytes_per_sec (self : t) : float :=
  f_sub (link_capacity_bytes_per_sec self) (throttle_bytes_per_sec self).
(** [relay/reassignmentthrottle.py] ReassignmentThrottle.throttle_for_deadline *)
Definition throttle_for_deadline (self : t) (seconds : float) : result float :=
  if f_le seconds f0 then Err Invalid else
  needed ← f_div (of_Z (bytes_to_move self)) seconds;
  if f_le (link_capacity_bytes_per_sec self) needed then Err Invalid else
  Ok needed.
(** [relay/reassignmentthrottle.py] ReassignmentThrottle.note *)
Definition note (self : t) : result string :=
  r ← completion_seconds self;
  Ok ("move takes " +:+ fmt_fixed 0 r +:+ "s at "
        +:+ fmt_fixed 0 (throttle_bytes_per_sec self) +:+ " B/s, leaving "
        +:+ fmt_fixed 0 (headroom_bytes_per_sec self)
        +:+ " B/s for live traffic; those two are the both sides of the one decision").
End ReassignmentThrottle.
End reassignmentthrottle.
Import reassignmentthrottle.

Module reassignprogress.
Module ReassignmentTracker.
(** [relay/reassignprogress.py] class ReassignmentTracker *)
Record t := mk { target_offset : Z; samples : list (Z * Z); }.
Definition set_target_offset (v : Z) (self : t) : t := mk v (samples self).
Definition set_samples (v : list (Z * Z)) (self : t) : t := mk (target_offset self) v.
Definition new (target_offset : Z) : t := mk target_offset [].
(** [relay/reassignprogress.py] ReassignmentTracker.observe *)
Definition observe (tick : Z) (replica_offset : Z) (leader_offset : Z) : act t unit :=
  self ← get;
  b ← pure_of (if negb (bool_decide (samples self = [])) then x ← py_index (samples self) (-1); Ok (tick <=? x.1) else Ok false);
  raise_if (b : bool) Invalid;;
  put (set_target_offset leader_offset self);;
  self ← get;
  put (set_samples (samples self ++ [(tick, replica_offset)]) self).
(** [relay/reassignprogress.py] ReassignmentTracker.closure_velocity *)
Definition closure_velocity (self : t) : result float :=
  if zlen (samples self) <? 2 then Err Invalid else
  first ← py_index (samples self) 0;
  last ← py_index (samples self) (-1);
  let '(t0, o0) := first in
  let '(t1, o1) := last in
  z_truediv (o1 - o0) (t1 - t0).
(** [relay/reassignprogress.py] ReassignmentTracker.eta *)
Definition eta (self : t) : result string :=
  velocity ← closure_velocity self;
  x ← py_index (samples self) (-1);
  let gap := target_offset self - x.2 in
  if f_le velocity f0 then
    Ok "WEDGED: closure velocity is zero or negative, the new replica falls behind as fast as it catches up; raise the reassignment throttle or slow the writes, because this move can never complete"
  else
  if gap <=? 0 then
    Ok "complete: the new replica has caught the leader"
  else
  q ← f_div (of_Z gap) velocity;
  ticks ← f_int q;
  Ok ("advancing: " +:+ zs gap +:+ " record(s) left at " +:+ fmt_fixed 1 velocity
        +:+ "/tick, about " +:+ zs ticks +:+ " tick(s) to complete; patience, not intervention").
End ReassignmentTracker.
End reassignprogress.
Import reassignprogress.

Module urp.
Module PartitionReplication.
(** [relay/urp.py] class PartitionReplication *)
Record t := mk { partition : Z; replication_factor : Z; in_sync : Z; min_in_sync : Z; }.
(** [relay/urp.py] PartitionReplication.__post_init__ *)
Definition make (partition : Z) (replication_factor : Z) (in_sync : Z) (min_in_sync : Z) : result t :=
  if replication_factor <? in_sync then Err Invalid else
  Ok (mk partition replication_factor in_sync min_in_sync).
(** [relay/urp.py] PartitionReplication.margin *)
Definition margin (self : t) : Z :=
  in_sync self - (min_in_sync self).
(** [relay/urp.py] PartitionReplication.state *)
Definition state (self : t) : string :=
  if in_sync self <? min_in_sync self then
    "under-minimum"
  else
  if margin self =? 0 then
    "at-risk"
  else
  "healthy".
End PartitionReplication.
Module ReplicationMonitor.
(** [relay/urp.py] class ReplicationMonitor *)
Record t := mk { partitions : list PartitionReplication.t; }.
(** [relay/urp.py] ReplicationMonitor.under_replicated *)
Definition under_replicated (self : t) : list PartitionReplication.t :=
  py_filter (λ p, PartitionReplication.in_sync p <? PartitionReplication.replication_factor p) (partitions self).
(** [relay/urp.py] ReplicationMonitor.at_risk_or_worse *)
Definition at_risk_or_worse (self : t) : list Z :=
  py_sorted Z.le ((λ p, PartitionReplication.partition p) <$> (py_filter (λ p, negb (bool_decide (PartitionReplication.state p = "healthy"))) (partitions self))).
(** [relay/urp.py] ReplicationMonitor.blast_radius *)
Definition blast_radius (self : t) : result string :=
  if bool_decide (partitions self = []) then Err Invalid else
  let exposed := at_risk_or_worse self in
  if bool_decide (exposed = []) then
    Ok "0 partition(s) at risk; a broker can die with no data-loss exposure, the only state worth calling healthy"
  else
  worst ← match (λ p, PartitionReplication.margin p) <$> (partitions self) with [] => Err ValueError | x :: l => Ok (py_min x l) end;
  Ok (zs (zlen exposed) +:+ " partition(s) at risk or worse (worst margin " +:+ zs worst
        +:+ "); this is the blast radius of the next broker failure, never averaged away").
End ReplicationMonitor.
End urp.
Import urp.

Module uncleanleader.
Module UncleanLeaderElection.
(** [relay/uncleanleader.py] class UncleanLeaderElection *)
Record t := mk {
  committed_offset : Z;
  allow_unclean : bool;
  log_ends : pydict string Z;
  in_sync : gset string;
}.
Definition set_log_ends (v : pydict string Z) (self : t) : t := mk (committed_offset self) (allow_unclean self) v (in_sync self).
Definition set_in_sync (v : gset string) (self : t) : t := mk (committed_offset self) (allow_unclean self) (log_ends self) v.
Definition new (committed_offset : Z) : t := mk committed_offset false [] (∅).
(** [relay/uncleanleader.py] UncleanLeaderElection.set_replica *)
Definition set_replica (replica : string) (log_end : Z) (in_sync_ : bool) : act t unit :=
  self ← get;
  put (set_log_ends (d_set (log_ends self) replica log_end) self);;
  (if (in_sync_ : bool) then
     self ← get;
     put (set_in_sync ({[replica]} ∪ (in_sync self)) self)
   else
     self ← get;
     put (set_in_sync ((in_sync self) ∖ {[replica]}) self));;
  mret ().
(** [relay/uncleanleader.py] UncleanLeaderElection.elect: a tie in the in-sync set goes to
    the first in the set's iteration order, which Python leaves open and the model fixes *)
Definition elect (self : t) : result string :=
  if negb (bool_decide (in_sync self = ∅)) then
    leader ← py_max_key Z.ltb (λ r, d_getd (log_ends self) r (-1)) (elements (in_sync self));
    Ok ("clean election of '" +:+ leader +:+ "'; no committed record is lost")
  else
  if negb (allow_unclean self) then Err Invalid else
  if bool_decide (log_ends self = []) then Err Invalid else
  p ← py_max_key Z.ltb snd (log_ends self);
  let '(leader, log_end) := p in
  let loss := Z.max 0 (committed_offset self - log_end) in
  Ok ("unclean election of '" +:+ leader +:+ "'; " +:+ zs loss
      +:+ " committed record(s) lost, the tail past this replica's log end is gone, availability chosen over durability").
(** [relay/uncleanleader.py] UncleanLeaderElection.loss_window *)
Definition loss_window (self : t) (replica : string) : result Z :=
  if negb (d_mem (log_ends self) replica) then Err Invalid else
  v ← d_item (log_ends self) replica;
  Ok (Z.max 0 (committed_offset self - v)).
(** [relay/uncleanleader.py] UncleanLeaderElection.note *)
Definition note (self : t) : string :=
  let mode := if allow_unclean self then "on" else "off" in
  zs (Z.of_nat (base.size (in_sync self))) +:+ " in-sync of "
        +:+ zs (zlen (log_ends self)) +:+ " replica(s), unclean election " +:+ mode
        +:+ "; with an empty ISR this switch is the durability-versus-availability decision, not a bug to fix".
End UncleanLeaderElection.
End uncleanleader.
Import uncleanleader.

Module slowbroker.
(** the order of [sorted] on floats: [a] may come first unless [b < a] *)
Definition f_leq (a b : float) : Prop := f_lt b a = false.
#[export] Instance f_leq_dec : RelDecision f_leq.
Proof. unfold RelDecision, f_leq. intros a b. apply _. Defined.

Module SlowBrokerDetector.
(** [relay/slowbroker.py] class SlowBrokerDetector *)
Record t := mk { latencies : pydict string float; multiple : float; }.
(** [relay/slowbroker.py] SlowBrokerDetector.__post_init__ *)
Definition make (multiple : float) : result t :=
  if f_le multiple (of_Z 1) then Err Invalid else
  Ok (mk [] multiple).
(** [relay/slowbroker.py] SlowBrokerDetector._median *)
Definition _median (self : t) : result float :=
  let vals := py_sorted f_leq (d_values (latencies self)) in
  let n := zlen vals in
  if n =? 0 then Err Invalid else
  let mid := n / 2 in
  if negb (n mod 2 =? 0) then py_index vals mid else
  a ← py_index vals (mid - 1);
  b ← py_index vals mid;
  f_div (f_add a b) (of_Z 2).
(** [relay/slowbroker.py] SlowBrokerDetector.slow_brokers *)
Definition slow_brokers (self : t) : result (list string) :=
  if zlen (latencies self) <? 2 then
    Ok []
  else
  median ← _median self;
  if f_eq median f0 then
    Ok []
  else
  Ok ((λ '(b, lat), b) <$> (py_filter (λ '(b, lat), f_le (f_mul median (multiple self)) lat) (latencies self))).
(** [relay/slowbroker.py] SlowBrokerDetector.report *)
Definition report (self : t) (broker : string) : result string :=
  median ← _median self;
  let lat := d_get (latencies self) broker in
  match lat with
  | None =>
      Err Invalid
  | Some lat =>
      ratio ← (if negb (f_zero median) then f_div lat median else Ok f0);
      r ← slow_brokers self;
      if negb (bool_decide (broker ∈ r)) then
        Ok ("'" +:+ broker +:+ "' at " +:+ fmt_fixed 1 ratio +:+ "x the median; within the fleet")
      else
      let verdict := if f_lt ratio (of_Z 5) then "watch" else "remove from the in-sync set" in
      Ok ("'" +:+ broker +:+ "' is " +:+ fmt_fixed 1 ratio
            +:+ "x the median, a slow broker holding up every acks-all producer that waits for it: "
            +:+ verdict)
  end.
End SlowBrokerDetector.
End slowbroker.
Import slowbroker.

Module replicalagtime.
Module IsrByTime.
(** [relay/replicalagtime.py] class IsrByTime *)
Record t := mk { lag_window : Z; caught_up_at : pydict string Z; }.
Definition set_caught_up_at (v : pydict string Z) (self : t) : t := mk (lag_window self) v.
(** [relay/replicalagtime.py] IsrByTime.__post_init__ *)
Definition make (lag_window : Z) : result t :=
  if lag_window <? 1 then Err Invalid else
  Ok (mk lag_window []).
(** [relay/replicalagtime.py] IsrByTime.caught_up *)
Definition caught_up (follower : string) (now : Z) : act t unit :=
  self ← get;
  b ← pure_of (if d_mem (caught_up_at self) follower then v ← d_item (caught_up_at self) follower; Ok (now <? v) else Ok false);
  raise_if (b : bool) Invalid;;
  put (set_caught_up_at (d_set (caught_up_at self) follower now) self).
(** [relay/replicalagtime.py] IsrByTime.in_sync *)
Definition in_sync (self : t) (follower : string) (now : Z) : bool :=
  let last_ := d_get (caught_up_at self) follower in
  match last_ with
  | None =>
      false
  | Some last_ =>
      now - last_ <=? lag_window self
  end.
(** [relay/replicalagtime.py] IsrByTime.evict *)
Definition evict (self : t) (now : Z) : list string :=
  (λ '(f, last_), f) <$> (py_filter (λ '(f, last_), lag_window self <? now - last_) (caught_up_at self)).
(** [relay/replicalagtime.py] IsrByTime.report *)
Definition report (self : t) (follower : string) (now : Z) : string :=
  let last_ := d_get (caught_up_at self) follower in
  match last_ with
  | None =>
      follower +:+ " has never caught up; out until it does"
  | Some last_ =>
      let since := now - last_ in
      follower +:+ " last caught up " +:+ zs since +:+ " ago against a "
            +:+ zs (lag_window self)
            +:+ " window; creeping toward it is a slowing fetch, the warning before durability narrows"
  end.
End IsrByTime.
End replicalagtime.
Import replicalagtime.

Module replicationlagbytes.
Module ByteLag.
(** [relay/replicationlagbytes.py] class ByteLag *)
Record t := mk {
  leader_bytes : Z;
  follower_bytes : Z;
  bandwidth_per_tick : float;
  write_rate_per_tick : float;
}.
(** [relay/replicationlagbytes.py] ByteLag.__post_init__ *)
Definition make (leader_bytes : Z) (follower_bytes : Z) (bandwidth_per_tick : float) (write_rate_per_tick : float) : result t :=
  if leader_bytes <? follower_bytes then Err Invalid else
  if f_le bandwidth_per_tick f0 then Err Invalid else
  Ok (mk leader_bytes follower_bytes bandwidth_per_tick write_rate_per_tick).
(** [relay/replicationlagbytes.py] ByteLag.lag_bytes *)
Definition lag_bytes (self : t) : Z :=
  leader_bytes self - (follower_bytes self).
(** [relay/replicationlagbytes.py] ByteLag.net_catch_up_rate *)
Definition net_catch_up_rate (self : t) : float :=
  f_sub (bandwidth_per_tick self) (write_rate_per_tick self).
(** [relay/replicationlagbytes.py] ByteLag.falling_behind *)
Definition falling_behind (self : t) : bool :=
  f_le (net_catch_up_rate self) f0.
(** [relay/replicationlagbytes.py] ByteLag.report *)
Definition report (self : t) : result string :=
  let lag := lag_bytes self in
  if falling_behind self then
    Ok (zs lag
          +:+ " byte(s) behind and falling: the write rate meets or exceeds the replication bandwidth, so it never catches up; needs more bandwidth or less load")
  else
  ticks ← f_div (of_Z lag) (net_catch_up_rate self);
  Ok (zs lag +:+ " byte(s) behind, catches up in ~" +:+ fmt_fixed 0 ticks
        +:+ " tick(s) at the net rate; a moving target since the leader keeps writing").
End ByteLag.
End replicationlagbytes.
Import replicationlagbytes.

Module replicationthrottle.
Module ReplicationThrottle.
(** [relay/replicationthrottle.py] class ReplicationThrottle *)
Record t := mk { catchup_rate : Z; catchup_boundary : Z; }.
(** [relay/replicationthrottle.py] ReplicationThrottle.__post_init__ *)
Definition make (catchup_rate : Z) (catchup_boundary : Z) : result t :=
  if catchup_rate <? 1 then Err Invalid else
  Ok (mk catchup_rate catchup_boundary).
(** [relay/replicationthrottle.py] ReplicationThrottle.is_catchup *)
Definition is_catchup (self : t) (fetch_offset : Z) : bool :=
  fetch_offset <? catchup_boundary self.
(** [relay/replicationthrottle.py] ReplicationThrottle.rate_for *)
Definition rate_for (self : t) (fetch_offset : Z) : string :=
  if is_catchup self fetch_offset then
    "throttled at " +:+ zs (catchup_rate self) +:+ "/tick: fetch at " +:+ zs fetch_offset
          +:+ " is below the catch-up boundary " +:+ zs (catchup_boundary self)
          +:+ ", backlog that must leave headroom for live traffic"
  else
  "unthrottled: fetch at " +:+ zs fetch_offset
        +:+ " is the steady tail, and throttling the tail keeps a healthy follower permanently behind".
(** [relay/replicationthrottle.py] ReplicationThrottle.catchup_eta *)
Definition catchup_eta (self : t) (follower_offset : Z) (leader_offset : Z) : result string :=
  if leader_offset <? follower_offset then Err Invalid else
  let backlog := catchup_boundary self - follower_offset in
  if backlog <=? 0 then
    Ok "no catch-up needed; the follower is in the tail"
  else
  q ← py_div (- backlog) (catchup_rate self);
  let ticks := - q in
  Ok ("catch-up of " +:+ zs backlog +:+ " record(s) at " +:+ zs (catchup_rate self)
        +:+ "/tick finishes in about " +:+ zs ticks
        +:+ " tick(s); the number an operator needs before deciding to wait or intervene").
End ReplicationThrottle.
End replicationthrottle.
Import replicationthrottle.

Module replicafetcherthread.
Module ReplicaFetcher.
(** [relay/replicafetcherthread.py] class ReplicaFetcher *)
Record t := mk { leader_log_end : Z; fetch_offset : Z; }.
Definition set_fetch_offset (v : Z) (self : t) : t := mk (leader_log_end self) v.
(** [relay/replicafetcherthread.py] ReplicaFetcher.__post_init__ *)
Definition make (leader_log_end : Z) (fetch_offset : Z) : result t :=
  if (fetch_offset <? 0) || (leader_log_end <? 0) then Err Invalid else
  Ok (mk leader_log_end fetch_offset).
(** [relay/replicafetcherthread.py] ReplicaFetcher.fetch *)
Definition fetch (count : Z) : act t Z :=
  raise_if (count <? 0) Invalid;;
  self ← get;
  raise_if (leader_log_end self <? fetch_offset self) Invalid;;
  let available := leader_log_end self - (fetch_offset self) in
  let received := Z.min count available in
  put (set_fetch_offset (fetch_offset self + received) self);;
  mret received.
(** [relay/replicafetcherthread.py] ReplicaFetcher.acknowledged_through *)
Definition acknowledged_through (self : t) : Z :=
  fetch_offset self.
(** [relay/replicafetcherthread.py] ReplicaFetcher.lag *)
Definition lag (self : t) : Z :=
  leader_log_end self - (fetch_offset self).
(** [relay/replicafetcherthread.py] ReplicaFetcher.note *)
Definition note (self : t) : string :=
  "fetch offset " +:+ zs (fetch_offset self) +:+ ", leader log end "
        +:+ zs (leader_log_end self) +:+ ", lag " +:+ zs (lag self)
        +:+ "; a fetch offset that stops advancing while the leader grows is a follower falling out of sync".
End ReplicaFetcher.
End replicafetcherthread.
Import replicafetcherthread.

Module replicaselector.
Module _Replica.
(** [relay/replicaselector.py] class _Replica *)
Record t := mk { broker : string; rack : string; log_end : Z; in_sync : bool; }.
End _Replica.
Module ReplicaSelector.
(** [relay/replicaselector.py] class ReplicaSelector *)
Record t := mk { leader : string; replicas : pydict string _Replica.t; }.
Definition set_replicas (v : pydict string _Replica.t) (self : t) : t := mk (leader self) v.
Definition new (leader : string) : t := mk leader [].
(** [relay/replicaselector.py] ReplicaSelector.add_replica *)
Definition add_replica (broker : string) (rack : string) (log_end : Z) (in_sync : bool) : act t unit :=
  self ← get;
  put (set_replicas (d_set (replicas self) broker (_Replica.mk broker rack log_end in_sync)) self).
(** [relay/replicaselector.py] ReplicaSelector.select *)
Definition select (self : t) (consumer_rack : string) : result (string * string) :=
  if negb (existsb (λ r, _Replica.in_sync r) (d_values (replicas self))) then Err Invalid else
  let local := py_filter (λ r, (_Replica.in_sync r) && (bool_decide (_Replica.rack r = consumer_rack))) (d_values (replicas self)) in
  if negb (bool_decide (local = [])) then
    best ← py_max_key Z.ltb (λ r, _Replica.log_end r) local;
    Ok (_Replica.broker best, "local hit")
  else
  Ok (leader self, "leader fallback").
(** [relay/replicaselector.py] ReplicaSelector.staleness *)
Definition staleness (self : t) (broker : string) : result Z :=
  if negb (d_mem (replicas self) broker) then Err Invalid else
  v ← d_item (replicas self) (leader self);
  let leader_end := _Replica.log_end v in
  v1 ← d_item (replicas self) broker;
  Ok (Z.max 0 (leader_end - (_Replica.log_end v1))).
(** [relay/replicaselector.py] ReplicaSelector.note *)
Definition note (self : t) (consumer_rack : string) : result string :=
  r ← select self consumer_rack;
  let '(broker, how) := r in
  lag ← staleness self broker;
  Ok ("consumer in '" +:+ consumer_rack +:+ "' reads from '" +:+ broker +:+ "' (" +:+ how
        +:+ "), " +:+ zs lag
        +:+ " record(s) behind the leader; a far-behind follower turns a bandwidth saving into a latency cost").
End ReplicaSelector.
End replicaselector.
Import replicaselector.

Module closestreplica.
(** [relay/closestreplica.py] DISTANCE *)
Definition DISTANCE : pydict string Z := [("same-host", 0); ("same-rack", 1); ("same-datacenter", 2); ("cross-region", 3)].
Module ReplicaLocation.
(** [relay/closestreplica.py] class ReplicaLocation *)
Record t := mk { broker : string; distance_tier : string; in_sync : bool; }.
(** [relay/closestreplica.py] ReplicaLocation.__post_init__ *)
Definition make (broker : string) (distance_tier : string) (in_sync : bool) : result t :=
  if negb (d_mem DISTANCE distance_tier) then Err Invalid else
  Ok (mk broker distance_tier in_sync).
(** [relay/closestreplica.py] ReplicaLocation.distance *)
Definition distance (self : t) : result Z :=
  d_item DISTANCE (distance_tier self).
End ReplicaLocation.
(** the order of the keys [(r.distance(), r.broker)] *)
Definition nearer_ltb (a b : Z * ReplicaLocation.t) : bool :=
  (a.1 <? b.1) || ((a.1 =? b.1) && String.ltb (ReplicaLocation.broker a.2) (ReplicaLocation.broker b.2)).
(** [relay/closestreplica.py] select_closest *)
Definition select_closest (replicas : list ReplicaLocation.t) : result (ReplicaLocation.t * string) :=
  let in_sync := py_filter (λ r, ReplicaLocation.in_sync r) replicas in
  if bool_decide (in_sync = []) then Err Invalid else
  in_sync ← mapM (λ r, d ← ReplicaLocation.distance r; Ok (d, r)) in_sync;
  best ← py_min_key nearer_ltb id in_sync;
  let '(distance, chosen) := best in
  out_of_sync ← mapM (λ r, d ← ReplicaLocation.distance r; Ok (d, r)) (py_filter (λ r, negb (ReplicaLocation.in_sync r)) replicas);
  let skipped_nearer := (λ p, p.2) <$> py_filter (λ p, p.1 <? distance) out_of_sync in
  if negb (bool_decide (skipped_nearer = [])) then
    let names := join_str ", " (py_sorted String.le (ReplicaLocation.broker <$> skipped_nearer)) in
    Ok (chosen, "reading " +:+ ReplicaLocation.broker chosen +:+ " at " +:+ ReplicaLocation.distance_tier chosen
                +:+ "; nearer but out-of-sync (" +:+ names +:+ ") skipped, so this consumer pays for a replica's health problem, worth surfacing")
  else
  Ok (chosen, "reading " +:+ ReplicaLocation.broker chosen +:+ " at " +:+ ReplicaLocation.distance_tier chosen
              +:+ ", the closest in-sync copy").
End closestreplica.
Import closestreplica.

Module followerfetch.
Module ReplicaEndpoint.
(** [relay/followerfetch.py] class ReplicaEndpoint *)
Record t := mk { broker : string; rack : string; high_watermark : Z; in_sync : bool; }.
End ReplicaEndpoint.
(** [relay/followerfetch.py] select_replica *)
Definition select_replica (consumer_rack : string) (leader : ReplicaEndpoint.t) (followers : list ReplicaEndpoint.t) : result (ReplicaEndpoint.t * string) :=
  let same_rack := py_filter (λ f, (bool_decide (ReplicaEndpoint.rack f = consumer_rack)) && (ReplicaEndpoint.in_sync f)) followers in
  if bool_decide (same_rack = []) then
    Ok (leader, "no in-sync replica in rack " +:+ consumer_rack
          +:+ "; reading the leader, paying cross-zone to stay current")
  else
  nearest ← py_max_key Z.ltb (λ f, ReplicaEndpoint.high_watermark f) same_rack;
  let staleness := ReplicaEndpoint.high_watermark leader - (ReplicaEndpoint.high_watermark nearest) in
  Ok (nearest, "reading " +:+ (ReplicaEndpoint.broker nearest) +:+ " in rack "
        +:+ consumer_rack +:+ ", trailing the leader by " +:+ zs staleness
        +:+ " record(s); a trade you opted into, and stated so it stays a trade").
(** [relay/followerfetch.py] safe_read_ceiling *)
Definition safe_read_ceiling (replica : ReplicaEndpoint.t) : Z :=
  ReplicaEndpoint.high_watermark replica.
(** [relay/followerfetch.py] validate_follower_read *)
Definition validate_follower_read (replica : ReplicaEndpoint.t) (offset : Z) : result unit :=
  if ReplicaEndpoint.high_watermark replica <=? offset then Err Missing else
  if negb (ReplicaEndpoint.in_sync replica) then Err Invalid else
  Ok ().
End followerfetch.
Import followerfetch.

Module followerstale.
Module FollowerRead.
(** [relay/followerstale.py] class FollowerRead *)
Record t := mk { leader_watermark : Z; follower_watermark : Z; max_lag : Z; }.
(** [relay/followerstale.py] FollowerRead.__post_init__ *)
Definition make (leader_watermark : Z) (follower_watermark : Z) (max_lag : Z) : result t :=
  if leader_watermark <? follower_watermark then Err Invalid else
  Ok (mk leader_watermark follower_watermark max_lag).
(** [relay/followerstale.py] FollowerRead.staleness *)
Definition staleness (self : t) : Z :=
  leader_watermark self - (follower_watermark self).
(** [relay/followerstale.py] FollowerRead.in_sync *)
Definition in_sync (self : t) : bool :=
  staleness self <=? max_lag self.
(** [relay/followerstale.py] FollowerRead.may_serve *)
Definition may_serve (self : t) (tolerance : Z) : result string :=
  if negb (in_sync self) then Err Invalid else
  if tolerance <? staleness self then Err Invalid else
  Ok ("follower read served: " +:+ zs (staleness self)
        +:+ " stale, within the consumer's tolerance " +:+ zs tolerance
        +:+ " and the max-lag ceiling " +:+ zs (max_lag self)).
End FollowerRead.
End followerstale.
Import followerstale.

Module leaderepochfence.
Module LeaderEpochFence.
(** [relay/leaderepochfence.py] class LeaderEpochFence *)
Record t := mk { broker_epoch : Z; }.
(** [relay/leaderepochfence.py] LeaderEpochFence.__post_init__ *)
Definition make (broker_epoch : Z) : result t :=
  if broker_epoch <? 0 then Err Invalid else
  Ok (mk broker_epoch).
(** [relay/leaderepochfence.py] LeaderEpochFence.check *)
Definition check (self : t) (request_epoch : Z) : result string :=
  if request_epoch <? 0 then Err Invalid else
  if request_epoch <? broker_epoch self then Err Fenced else
  if broker_epoch self <? request_epoch then Err Fenced else
  Ok ("epoch " +:+ zs request_epoch +:+ " matches; served by the current leader").
(** [relay/leaderepochfence.py] LeaderEpochFence.mismatch_direction *)
Definition mismatch_direction (self : t) (request_epoch : Z) : string :=
  if request_epoch =? broker_epoch self then
    "match; both sides agree on leadership"
  else
  if broker_epoch self <? request_epoch then
    "broker behind; many such requests mean it lags the controller's leadership changes, a propagation problem"
  else
  "client behind; a stale metadata cache, refreshed on the fence".
End LeaderEpochFence.
End leaderepochfence.
Import leaderepochfence.

Module mirroring.
Module MirrorLink.
(** [relay/mirroring.py] class MirrorLink *)
Record t := mk {
  source_topic : string;
  dest_topic : string;
  translation : pydict Z Z;
  dest_next_offset : Z;
  last_source_copied : Z;
}.
Definition set_translation (v : pydict Z Z) (self : t) : t := mk (source_topic self) (dest_topic self) v (dest_next_offset self) (last_source_copied self).
Definition set_dest_next_offset (v : Z) (self : t) : t := mk (source_topic self) (dest_topic self) (translation self) v (last_source_copied self).
Definition set_last_source_copied (v : Z) (self : t) : t := mk (source_topic self) (dest_topic self) (translation self) (dest_next_offset self) v.
Definition new (source_topic : string) (dest_topic : string) : t := mk source_topic dest_topic [] 0 (-1).
(** [relay/mirroring.py] MirrorLink.copy *)
Definition copy (source_offset : Z) : act t Z :=
  self ← get;
  raise_if (source_offset <=? last_source_copied self) Invalid;;
  raise_if (negb (source_offset =? last_source_copied self + 1)) Invalid;;
  let dest := dest_next_offset self in
  put (set_translation (d_set (translation self) source_offset dest) self);;
  self ← get;
  put (set_dest_next_offset (dest_next_offset self + 1) self);;
  self ← get;
  put (set_last_source_copied source_offset self);;
  mret dest.
(** [relay/mirroring.py] MirrorLink.translate *)
Definition translate (self : t) (source_offset : Z) : result Z :=
  let dest := d_get (translation self) source_offset in
  match dest with
  | None =>
      Err Missing
  | Some dest =>
      Ok dest
  end.
(** [relay/mirroring.py] MirrorLink.lag *)
Definition lag (self : t) (source_end : Z) : Z :=
  source_end - (last_source_copied self + 1).
(** [relay/mirroring.py] MirrorLink.status *)
Definition status (self : t) (source_end : Z) : string :=
  let behind := lag self source_end in
  if behind =? 0 then
    (dest_topic self)
          +:+ " is caught up to the source at this instant, which async mirroring cannot promise for the next one"
  else
  (dest_topic self) +:+ " trails by " +:+ zs behind
        +:+ " record(s); a mirror believed current when it trails is a DR plan that loses that gap and calls it zero".
End MirrorLink.
End mirroring.
Import mirroring.

Module gossip.
Module GossipModel.
Section GossipModel.
(** [math.log(n)] of an integer: the platform's C library decides its last bit *)
Variable log : Z → float.
(** [relay/gossip.py] class GossipModel *)
Record t := mk { nodes : Z; fanout : Z; }.
(** [relay/gossip.py] GossipModel.__post_init__ *)
Definition make (nodes : Z) (fanout : Z) : result t :=
  if nodes <? 1 then Err Invalid else
  if fanout <? 1 then Err Invalid else
  Ok (mk nodes fanout).
(** [relay/gossip.py] GossipModel.rounds_to_converge *)
Definition rounds_to_converge (self : t) : result Z :=
  if nodes self =? 1 then
    Ok 0
  else
  q ← f_div (log (nodes self)) (log (1 + fanout self));
  f_ceil q.
(** [relay/gossip.py] GossipModel.messages *)
Definition messages (self : t) : result Z :=
  r ← rounds_to_converge self;
  Ok (((nodes self) * (fanout self)) * r).
(** [relay/gossip.py] GossipModel.report *)
Definition report (self : t) : result string :=
  rounds ← rounds_to_converge self;
  r ← messages self;
  Ok (zs (nodes self) +:+ " node(s) converge in ~" +:+ zs rounds +:+ " round(s) at fanout "
        +:+ zs (fanout self) +:+ ", ~" +:+ zs r
        +:+ " message(s); a higher fanout converges faster but sends more duplicates, the redundancy gossip trades for robustness").
End GossipModel.
End GossipModel.
End gossip.
Import gossip.

Module splitvote.
Module SplitVote.
(** [relay/splitvote.py] class SplitVote *)
Record t := mk { voters : Z; base_timeout : Z; jitter_range : Z; }.
(** [relay/splitvote.py] SplitVote.__post_init__ *)
Definition make (voters : Z) (base_timeout : Z) (jitter_range : Z) : result t :=
  if jitter_range <? 1 then Err Invalid else
  Ok (mk voters base_timeout jitter_range).
(** [relay/splitvote.py] SplitVote.majority *)
Definition majority (self : t) : Z :=
  (voters self) / 2 + 1.
(** [relay/splitvote.py] SplitVote.is_split *)
Definition is_split (self : t) (tally : pydict string Z) : bool :=
  negb (existsb (λ v, majority self <=? v) (d_values tally)).
(** [relay/splitvote.py] SplitVote.staggered_timeouts *)
Definition staggered_timeouts (self : t) (nodes : list string) (roll : string → Z) : result (pydict string Z) :=
  xs ← mapM (λ n, r ← py_mod (roll n) (jitter_range self); Ok (n, base_timeout self + r)) nodes;
  Ok (d_of_list xs).
(** [relay/splitvote.py] SplitVote.first_to_wake *)
Definition first_to_wake (self : t) (nodes : list string) (roll : string → Z) : result string :=
  timeouts ← staggered_timeouts self nodes roll;
  py_min_key Z.ltb (λ k, d_getd timeouts k 0) (d_keys timeouts).
(** [relay/splitvote.py] SplitVote.report *)
Definition report (self : t) (tally : pydict string Z) : result string :=
  if negb (is_split self tally) then
    winner ← py_max_key Z.ltb (λ k, d_getd tally k 0) (d_keys tally);
    v ← d_item tally winner;
    Ok ("'" +:+ winner +:+ "' won with " +:+ zs v +:+ "/" +:+ zs (voters self))
  else
  Ok ("split vote, no majority of " +:+ zs (majority self)
        +:+ "; randomized timeouts stagger the retry so one node campaigns alone, and a cluster that keeps splitting has too narrow a timeout range").
End SplitVote.
End splitvote.
Import splitvote.

Module ctp.
Module ProcessingTransaction.
(** [relay/ctp.py] class ProcessingTransaction *)
Record t := mk {
  exactly_once : bool;
  open : bool;
  produced : list (string * Z);
  offset_commit : option (string * Z * Z);
}.
Definition set_open (v : bool) (self : t) : t := mk (exactly_once self) v (produced self) (offset_commit self).
Definition set_produced (v : list (string * Z)) (self : t) : t := mk (exactly_once self) (open self) v (offset_commit self).
Definition set_offset_commit (v : option (string * Z * Z)) (self : t) : t := mk (exactly_once self) (open self) (produced self) v.
Definition new (exactly_once : bool) : t := mk exactly_once false [] None.
(** [relay/ctp.py] ProcessingTransaction.begin *)
Definition begin : act t unit :=
  self ← get;
  raise_if (open self) Invalid;;
  put (set_open true self);;
  self ← get;
  put (set_produced [] self);;
  self ← get;
  put (set_offset_commit None self).
(** [relay/ctp.py] ProcessingTransaction.produce *)
Definition produce (topic : string) (offset : Z) : act t unit :=
  self ← get;
  raise_if (negb (open self)) Invalid;;
  put (set_produced (produced self ++ [(topic, offset)]) self).
(** [relay/ctp.py] ProcessingTransaction.commit_offset *)
Definition commit_offset (group : string) (partition : Z) (offset : Z) : act t unit :=
  self ← get;
  raise_if (negb (open self)) Invalid;;
  put (set_offset_commit (Some (group, partition, offset)) self).
(** [relay/ctp.py] ProcessingTransaction.commit *)
Definition commit : act t string :=
  self ← get;
  raise_if (negb (open self)) Invalid;;
  raise_if ((exactly_once self) && (bool_decide (offset_commit self = None))) Invalid;;
  put (set_open false self);;
  self ← get;
  mret ("committed " +:+ zs (zlen (produced self))
        +:+ " output(s) and the input offset atomically; a crash now replays only unshipped input").
(** [relay/ctp.py] ProcessingTransaction.abort *)
Definition abort : act t string :=
  self ← get;
  raise_if (negb (open self)) Invalid;;
  put (set_open false self);;
  self ← get;
  mret ("aborted: " +:+ zs (zlen (produced self))
        +:+ " output(s) and the offset both roll back, so neither half survives").
End ProcessingTransaction.
(** [relay/ctp.py] bare_commit_check *)
Definition bare_commit_check (exactly_once : bool) : result unit :=
  if (exactly_once : bool) then Err Invalid else
  Ok ().
End ctp.
Import ctp.

Module phiaccrual.
Module PhiAccrual.
(** [relay/phiaccrual.py] class PhiAccrual *)
Record t := mk { threshold : float; mean_interval : float; last_beat : Z; _beats : Z; }.
Definition set_mean_interval (v : float) (self : t) : t := mk (threshold self) v (last_beat self) (_beats self).
Definition set_last_beat (v : Z) (self : t) : t := mk (threshold self) (mean_interval self) v (_beats self).
Definition set__beats (v : Z) (self : t) : t := mk (threshold self) (mean_interval self) (last_beat self) v.
(** [relay/phiaccrual.py] PhiAccrual.__post_init__ *)
Definition make (threshold : float) : result t :=
  if f_le threshold f0 then Err Invalid else
  Ok (mk threshold f0 (-1) 0).
(** [relay/phiaccrual.py] PhiAccrual.heartbeat *)
Definition heartbeat (now : Z) : act t unit :=
  self ← get;
  (if 0 <=? last_beat self then
     let interval := now - (last_beat self) in
     put (set__beats (_beats self + 1) self);;
     self ← get;
     q ← pure_of (f_div (f_sub (of_Z interval) (mean_interval self)) (of_Z (_beats self)));
     put (set_mean_interval (f_add (mean_interval self) q) self)
   else
     put (set__beats 0 self));;
  self ← get;
  put (set_last_beat now self).
(** [relay/phiaccrual.py] PhiAccrual.phi *)
Definition phi (self : t) (now : Z) : result float :=
  if (last_beat self <? 0) || (f_le (mean_interval self) f0) then Err Invalid else
  let elapsed := now - (last_beat self) in
  f_div (of_Z elapsed) (mean_interval self).
(** [relay/phiaccrual.py] PhiAccrual.is_suspect *)
Definition is_suspect (self : t) (now : Z) : result bool :=
  r ← phi self now;
  Ok (f_le (threshold self) r).
(** [relay/phiaccrual.py] PhiAccrual.report *)
Definition report (self : t) (now : Z) : result string :=
  p ← phi self now;
  let state := if f_le (threshold self) p then "SUSPECT" else "alive" in
  Ok ("phi " +:+ fmt_fixed 1 p +:+ " against threshold " +:+ f_repr (threshold self) +:+ " ("
        +:+ state
        +:+ "); a phi climbing steadily is a node going quiet, caught as suspicion builds rather than at a cliff").
End PhiAccrual.
End phiaccrual.
Import phiaccrual.


(** ** Racks *)

Section racks.
Import RackDistribution.

Lemma zsum_id_fmap_snd {A} (l : list (A * Z)) : zsum id l.*2 = zsum snd l.
Proof. induction l as [|p l IH]; [done|]. cbn [fmap list_fmap]. by rewrite !zsum_cons, IH. Qed.

(** no choice of elements of a decreasing list sums to more than as many of its first ones *)
Lemma zsum_take_max (l f : list Z) : StronglySorted Z.ge l → f ⊆+ l → zsum id f <= zsum id (take (length f) l).
Proof.
  intros Hl. revert f. induction Hl as [|x l Hl IH Hx]; intros f Hf.
  { by apply submseteq_nil_r in Hf as ->. }
  apply submseteq_cons_r in Hf as [Hf|(f' & Hperm & Hf)].
  - destruct f as [|y f]; [done|]. specialize (IH _ Hf). cbn [length take] in *. rewrite zsum_cons in IH. rewrite !zsum_cons.
    assert (∀ k, (k < length l)%nat → zsum id (take (S k) l) <= x + zsum id (take k l)) as Hshift.
    { clear -Hx. intros k Hk. destruct (lookup_lt_is_Some_2 l k Hk) as [z Hz]. rewrite (take_S_r _ _ z) by done.
      rewrite zsum_app, zsum_cons. change (zsum id []) with 0. rewrite Forall_forall in Hx. specialize (Hx z ltac:(by eapply list_elem_of_lookup_2)). unfold id. lia. }
    apply submseteq_length in Hf. cbn in Hf. specialize (Hshift (length f) ltac:(lia)). unfold id in *. lia.
  - rewrite (zsum_Permutation _ _ _ Hperm). rewrite (Permutation_length Hperm). cbn [length take]. rewrite !zsum_cons.
    specialize (IH f' Hf). lia.
Qed.

Lemma survive_loop_spec sizes m remaining failures : zsum id sizes = remaining → 1 <= m →
  (∀ s, s ∈ sizes → 0 <= s) →
  let k := survive_loop sizes m remaining failures - failures in
  (0 <= k ∧ (k < zlen sizes ∨ remaining < m ∧ k = 0)) ∧
  (m <= remaining → m <= remaining - zsum id (take (Z.to_nat k) sizes)) ∧
  remaining - zsum id (take (Z.to_nat k + 1) sizes) < m.
Proof.
  revert remaining failures. induction sizes as [|s sizes IH]; intros remaining failures Hrem Hm Hpos k.
  - cbn in Hrem. subst remaining k. cbn [survive_loop]. rewrite Z.sub_diag, !take_nil. cbn. split_and!; [lia|right; lia|lia|lia].
  - rewrite zsum_cons in Hrem. unfold id in Hrem at 1. pose proof (Hpos s ltac:(left)) as Hs. subst k. cbn [survive_loop].
    destruct (Z.ltb_spec (remaining - s) m) as [Hlt|Hge].
    + rewrite Z.sub_diag. change (Z.to_nat 0) with 0%nat. rewrite zlen_cons. cbn [take Nat.add]. rewrite ?take_0. unfold zsum. cbn [foldr].
      pose proof (zlen_nonneg sizes). unfold id. split_and!; [lia|left; lia|lia|lia].
    + specialize (IH (remaining - s) (failures + 1) ltac:(lia) Hm ltac:(intros; apply Hpos; by right)).
      set (r := survive_loop sizes m (remaining - s) (failures + 1)) in *. destruct IH as ([Hk Hcase] & Hok & Hover).
      replace (r - failures) with (1 + (r - (failures + 1))) by lia. set (k := r - (failures + 1)) in *.
      replace (Z.to_nat (1 + k)) with (S (Z.to_nat k)) by lia. cbn [take Nat.add]. rewrite !zsum_cons, zlen_cons. unfold id in *.
      specialize (Hok Hge). pose proof (zlen_nonneg sizes). split_and!; [lia|destruct Hcase; [left; lia|lia]|lia|lia].
Qed.
End racks.

(** C29 (equivalence): the number of rack failures a placement survives is exact.  With at least the minimum in sync to
    begin with, it is the greatest [k] such that the loss of any [k] racks, whichever they are, leaves at least the
    minimum in sync: every set of at most [k] racks may fail, and some set of [k + 1] racks would not
    leave enough; it is less than the number of racks. *)
Theorem rack_failures_exact (racks : pydict string Z) (min_in_sync : Z) (d : RackDistribution.t)
    (Hmake : RackDistribution.make racks min_in_sync = Ok d) (Hsizes : ∀ r n, (r, n) ∈ racks → 0 <= n)
    (Hnow : min_in_sync <= RackDistribution.total_replicas d) :
  let k := RackDistribution.survivable_rack_failures d in
  0 <= k < zlen racks ∧
  (∀ failed, failed ⊆+ racks → zlen failed <= k → min_in_sync <= RackDistribution.total_replicas d - zsum snd failed) ∧
  (∃ failed, failed ⊆+ racks ∧ zlen failed = k + 1 ∧ RackDistribution.total_replicas d - zsum snd failed < min_in_sync).
Proof.
  unfold RackDistribution.make in Hmake. case_bool_decide as Hne; [done|]. destruct (Z.ltb_spec min_in_sync 1) as [|Hm]; [done|].
  injection Hmake as <-. intros k. unfold RackDistribution.survivable_rack_failures, RackDistribution.total_replicas in *.
  cbn [RackDistribution.replicas_per_rack RackDistribution.min_in_sync] in *. unfold d_values in *.
  set (sizes := py_sorted Z.ge racks.*2) in *.
  assert (k = RackDistribution.survive_loop sizes min_in_sync (zsum snd racks) 0) as Hkeq by (unfold k; by rewrite zsum_id_fmap_snd).
  rewrite zsum_id_fmap_snd in Hnow |- *. clearbody k.
  assert (sizes ≡ₚ racks.*2) as Hperm by apply py_sorted_Permutation.
  assert (StronglySorted Z.ge sizes) as Hsorted.
  { apply Sorted_StronglySorted; [intros ???; lia|]. apply py_sorted_Sorted. intros ??. lia. }
  assert (zlen sizes = zlen racks) as Hlen by (unfold zlen; by rewrite Hperm, length_fmap).
  destruct (survive_loop_spec sizes min_in_sync (zsum snd racks) 0) as ([Hk Hcase] & Hok & Hover).
  { by rewrite (zsum_Permutation _ _ _ Hperm), zsum_id_fmap_snd. }
  { done. }
  { intros s. rewrite Hperm. intros ([r n] & -> & Hin)%list_elem_of_fmap. by eapply Hsizes. }
  rewrite Z.sub_0_r, <- Hkeq in *. specialize (Hok Hnow).
  assert (0 <= k < zlen racks) as Hbound by (destruct Hcase; lia). split_and!; [lia|lia| |].
  - intros failed Hsub Hf. assert (failed.*2 ⊆+ sizes) as Hsub2 by (rewrite Hperm; by apply fmap_submseteq).
    pose proof (zsum_take_max sizes _ Hsorted Hsub2) as Hle. rewrite zsum_id_fmap_snd, length_fmap in Hle.
    assert (zsum id (take (length failed) sizes) <= zsum id (take (Z.to_nat k) sizes)) as Hmono; [|lia].
    assert (∀ s, s ∈ sizes → 0 <= s) as Hpos.
    { intros s. rewrite Hperm. intros ([r n] & -> & Hin)%list_elem_of_fmap. by eapply Hsizes. }
    replace (Z.to_nat k) with (length failed + (Z.to_nat k - length failed))%nat by (unfold zlen in Hf; lia).
    rewrite <- take_take_drop, zsum_app. assert (0 <= zsum id (take (Z.to_nat k - length failed) (drop (length failed) sizes))); [|lia].
    apply zsum_nonneg. intros s Hs. apply Hpos. by apply (subseteq_drop (length failed)), (subseteq_take (Z.to_nat k - length failed)).
  - assert (∃ failed, failed ⊆+ racks ∧ failed.*2 = take (Z.to_nat k + 1) sizes) as (failed & Hsub & Heq).
    { apply Permutation_map_inv in Hperm as (racks' & Heq & Hp). exists (take (Z.to_nat k + 1) racks'). split.
      - rewrite Hp. apply sublist_submseteq, sublist_take.
      - by rewrite fmap_take, Heq. }
    exists failed. rewrite <- (zsum_id_fmap_snd failed), Heq. split_and!; [done| |done].
    assert (length failed = length (take (Z.to_nat k + 1) sizes)) as Hl by by rewrite <- Heq, length_fmap.
    rewrite length_take in Hl. unfold zlen in *. lia.
Qed.

Lemma rack_failures_exact_witness :
  let k := RackDistribution.survivable_rack_failures (RackDistribution.mk [("a", 1); ("b", 3); ("c", 2)] 2) in
  0 <= k < 3 ∧
  (∀ failed, failed ⊆+ [("a", 1); ("b", 3); ("c", 2)] → zlen failed <= k → 2 <= 6 - zsum snd failed) ∧
  (∃ failed, failed ⊆+ [("a", 1); ("b", 3); ("c", 2)] ∧ zlen failed = k + 1 ∧ 6 - zsum snd failed < 2).
Proof.
  apply (rack_failures_exact [("a", 1); ("b", 3); ("c", 2)] 2 (RackDistribution.mk [("a", 1); ("b", 3); ("c", 2)] 2)).
  - reflexivity.
  - intros r n H. assert (n = 1 ∨ n = 2 ∨ n = 3) as Hn by set_solver. lia.
  - apply (bool_decide_unpack _). vm_compute. exact I.
Defined.

(** ** Mirroring *)

Section mirror.
Import MirrorLink.

Lemma copy_run o m : copy o m =
  if (o <=? last_source_copied m) || negb (o =? last_source_copied m + 1) then (m, Err Invalid)
  else (mk (source_topic m) (dest_topic m) (d_set (translation m) o (dest_next_offset m)) (dest_next_offset m + 1) o, Ok (dest_next_offset m)).
Proof.
  unfold copy. rewrite bind_get, bind_raise_if. destruct (_ <=? _); [done|]. rewrite bind_raise_if.
  by destruct (negb _).
Qed.

(** what was copied: the first [n] offsets of the source, each with its destination *)
Definition mirrored (m : t) (n : Z) : Prop :=
  0 <= n ∧ last_source_copied m = n - 1 ∧ dest_next_offset m = n ∧
  ∀ o, d_get (translation m) o = if (0 <=? o) && (o <? n) then Some o else None.

Lemma copy_mirrored o m n : mirrored m n → mirrored (state_of (copy o) m) (if o =? n then n + 1 else n).
Proof.
  intros (Hn & Hl & Hd & Ht). unfold state_of. rewrite copy_run, Hl, Hd. replace (n - 1 + 1) with n by lia.
  destruct (Z.eqb_spec o n) as [->|Hne]; cbn [negb].
  - rewrite (proj2 (Z.leb_gt n (n - 1))) by lia. cbn. split_and!; cbn; [lia..|]. intros o. rewrite d_get_set, Ht.
    case_bool_decide as Ho; [subst o|].
    + by rewrite (proj2 (Z.leb_le 0 n)), (proj2 (Z.ltb_lt n (n + 1))) by lia.
    + destruct (Z.leb_spec 0 o), (Z.ltb_spec o n), (Z.ltb_spec o (n + 1)); cbn; (done || lia).
  - rewrite orb_true_r. by split_and!.
Qed.

Lemma mirror_run copies s d : ∃ n, mirrored (run (λ o, state_of (copy o)) copies (new s d)) n.
Proof.
  induction copies as [|o l [n IH]] using rev_ind.
  - exists 0. split_and!; [done..|]. intros o. cbn. destruct (Z.leb_spec 0 o), (Z.ltb_spec o 0); (done || lia).
  - rewrite run_app. cbn [run foldl]. eexists. by apply copy_mirrored.
Qed.
End mirror.

(** Also (safety): a mirror has no gap.  After any attempts to copy, in any order and with repeats, what was copied is
    the first [n] offsets of the source: an offset translates exactly if it is one of them, no two to the
    same offset; the lag is the rest of the source; the next offset, and only it, can be copied,
    so a skipped or repeated offset is refused and changes nothing. *)
Theorem mirror_has_no_gap (source dest : string) (copies : list Z) :
  let m := run (λ o, state_of (MirrorLink.copy o)) copies (MirrorLink.new source dest) in
  ∃ n, 0 <= n ∧ (∀ o d, MirrorLink.translate m o = Ok d ↔ 0 <= o < n ∧ d = o) ∧
  (∀ source_end, MirrorLink.lag m source_end = source_end - n) ∧
  (∀ o, o ≠ n → MirrorLink.copy o m = (m, Err Invalid)) ∧
  value_of (MirrorLink.copy n) m = Ok n.
Proof.
  intros m. destruct (mirror_run copies source dest) as (n & Hn & Hl & Hd & Ht). fold m in Hl, Hd, Ht.
  exists n. split_and!; [done| | | |].
  - intros o d. unfold MirrorLink.translate. rewrite Ht. destruct (Z.leb_spec 0 o), (Z.ltb_spec o n); cbn; split; intros H1; try done; try lia.
    + injection H1 as <-. lia.
    + by destruct H1 as [_ ->].
  - intros e. unfold MirrorLink.lag. rewrite Hl. lia.
  - intros o Ho. rewrite copy_run, Hl. rewrite (proj2 (Z.eqb_neq o _)) by lia. by rewrite orb_true_r.
  - unfold value_of. rewrite copy_run, Hl, Hd. rewrite (proj2 (Z.leb_gt n (n - 1))), (proj2 (Z.eqb_eq n (n - 1 + 1))) by lia. done.
Qed.

(** ** Leader stickiness *)

Section stickiness.
Import LeaderStickiness.

Inductive sync_op := In_sync (now : Z) | Dropped.
Definition sync_step (o : sync_op) : t → t :=
  match o with In_sync now => state_of (became_in_sync now) | Dropped => state_of dropped_out end.
(** the first report of being in sync since the broker last dropped out *)
Fixpoint in_sync_from (reports : list sync_op) (since : option Z) : option Z :=
  match reports with
  | [] => since
  | Dropped :: reports => in_sync_from reports None
  | In_sync now :: reports => in_sync_from reports (Some (default now since))
  end.

Lemma sync_run hold since reports (Hclock : ∀ now, In_sync now ∈ reports → 0 <= now) (Hs : ∀ n, since = Some n → 0 <= n) :
  run sync_step reports (mk hold (default (-1) since)) = mk hold (default (-1) (in_sync_from reports since)).
Proof.
  revert since Hs. induction reports as [|o reports IH]; intros since Hs; [done|]. cbn [run foldl].
  specialize (IH ltac:(intros n Hn; apply Hclock; by right)). destruct o as [now|]; cbn [sync_step in_sync_from].
  - specialize (Hclock now ltac:(left)). rewrite <- IH by (intros n [= <-]; destruct since; [by apply Hs|done]).
    unfold run. f_equal. unfold state_of, became_in_sync. rewrite bind_get. cbn [in_sync_since]. destruct since as [n|]; cbn [default from_option].
    + unfold default, id. by rewrite (proj2 (Z.ltb_ge n 0)) by by apply Hs.
    + done.
  - by rewrite <- (IH None) by done.
Qed.
End stickiness.

(** Also (safety): leadership is reclaimed only after an unbroken hold-down.  On a clock that is never negative, after
    any reports of dropping out and of being in sync, the preferred broker may reclaim at a time exactly if it
    has been in sync without a break since a report at least the hold-down before; dropping out
    starts the wait again. *)
Theorem reclaim_needs_unbroken_sync (hold now : Z) (s0 : LeaderStickiness.t) (reports : list sync_op)
    (Hmake : LeaderStickiness.make hold = Ok s0) (Hclock : ∀ n, In_sync n ∈ reports → 0 <= n) :
  let s := run sync_step reports s0 in
  is_ok (LeaderStickiness.reclaim s now) = LeaderStickiness.may_reclaim s now ∧
  (LeaderStickiness.may_reclaim s now = true ↔ ∃ since, in_sync_from reports None = Some since ∧ since + hold <= now) ∧
  LeaderStickiness.may_reclaim (sync_step Dropped s) now = false.
Proof.
  unfold LeaderStickiness.make in Hmake. destruct (Z.ltb_spec hold 1) as [|Hhold]; [done|]. injection Hmake as <-.
  intros s. assert (s = LeaderStickiness.mk hold (default (-1) (in_sync_from reports None))) as Hs by by apply (sync_run hold None).
  assert (∀ n, in_sync_from reports None = Some n → 0 <= n) as Hpos.
  { assert (∀ l since, (∀ n, In_sync n ∈ l → 0 <= n) → (∀ n, since = Some n → 0 <= n) → ∀ n, in_sync_from l since = Some n → 0 <= n) as H.
    { induction l as [|[k|] l IH]; intros since Hl Hsince n; cbn [in_sync_from]; [by apply Hsince| |].
      - apply IH; [intros; apply Hl; by right|]. intros n' [= <-]. destruct since; [by apply Hsince|]. apply Hl. left.
      - apply IH; [intros; apply Hl; by right|done]. }
    by apply H. }
  rewrite Hs. clear Hs s. destruct (in_sync_from reports None) as [n|]; cbn [default from_option].
  - specialize (Hpos n eq_refl). unfold LeaderStickiness.reclaim, LeaderStickiness.may_reclaim. cbn. unfold default, id.
    rewrite (proj2 (Z.ltb_ge n 0)), (proj2 (Z.leb_le 0 n)) by done. cbn. split_and!.
    + by destruct (_ <=? _).
    + rewrite Z.leb_le. split; [intros; exists n; split; [done|lia]|intros (k & [= <-] & ?); lia].
    + done.
  - split_and!; [done| |done]. split; [done|by intros (? & ? & _)].
Qed.
