(* ===== verification/Sessions.v ===== *)
(** * Sessions: producers, transactions and authentication

    Producer ids and their expiry ([relay/produceridblock.py], [relay/produceridexpiry.py], [relay/describeproducers.py]),
    transactions as consumers and operators see them ([relay/aborttransaction.py], [relay/describetransactions.py],
    [relay/txninit.py], [relay/controlrecords.py]), authentication ([relay/sasl.py], [relay/saslreauth.py],
    [relay/delegationtoken.py], [relay/principalmapping.py]) and the trace context of a request ([relay/tracecontext.py]). *)

From Stdlib Require Import Strings.Byte Strings.Ascii.
From S2P Require Import Prelude PyDict PyBytes PyFloat Access.

Module aborttransaction.
Module AbortedTransactions.
(** [relay/aborttransaction.py] class AbortedTransactions *)
Record t := mk { aborted : pydict string Z; }.
Definition set_aborted (v : pydict string Z) (self : t) : t := mk v.
Definition new : t := mk [].
(** [relay/aborttransaction.py] AbortedTransactions.record_abort *)
Definition record_abort (producer_id : string) (first_offset : Z) : act t unit :=
  raise_if (first_offset <? 0) Invalid;;
  self ← get;
  put (set_aborted (d_set (aborted self) producer_id first_offset) self).
(** [relay/aborttransaction.py] AbortedTransactions._is_aborted *)
Definition _is_aborted (self : t) (producer_id : string) (offset : Z) : bool :=
  let start := d_get (aborted self) producer_id in
  match start with None => false | Some start => start <=? offset end.
(** [relay/aborttransaction.py] AbortedTransactions.filter_for_read_committed *)
Definition filter_for_read_committed (self : t) (records : list (Z * string)) : list (Z * string) :=
  py_filter (λ '(offset, pid), negb (_is_aborted self pid offset)) records.
(** [relay/aborttransaction.py] AbortedTransactions.filter_for_read_uncommitted *)
Definition filter_for_read_uncommitted (self : t) (records : list (Z * string)) : list (Z * string) :=
  records.
(** [relay/aborttransaction.py] AbortedTransactions.dropped_count *)
Definition dropped_count (self : t) (records : list (Z * string)) : Z :=
  zlen records - (zlen (filter_for_read_committed self records)).
(** [relay/aborttransaction.py] AbortedTransactions.note *)
Definition note (self : t) (records : list (Z * string)) : result string :=
  let dropped := dropped_count self records in
  let total := if zlen records =? 0 then 1 else zlen records in
  q ← z_truediv dropped total;
  Ok (zs dropped +:+ "/" +:+ zs (zlen records) +:+ " record(s) dropped by the aborted index ("
        +:+ fmt_fixed 0 (f_mul q (of_Z 100))
        +:+ "%); a high fraction is a topic paying a heavy tax for transactions that mostly roll back").
End AbortedTransactions.
End aborttransaction.
Import aborttransaction.

Module describetransactions.
(** [relay/describetransactions.py] EMPTY *)
Definition EMPTY : string := "Empty".
(** [relay/describetransactions.py] ONGOING *)
Definition ONGOING : string := "Ongoing".
(** [relay/describetransactions.py] PREPARE_COMMIT *)
Definition PREPARE_COMMIT : string := "PrepareCommit".
(** [relay/describetransactions.py] PREPARE_ABORT *)
Definition PREPARE_ABORT : string := "PrepareAbort".
(** [relay/describetransactions.py] COMPLETE *)
Definition COMPLETE : string := "Complete".
(** [relay/describetransactions.py] DEAD *)
Definition DEAD : string := "Dead".
(** [relay/describetransactions.py] _NON_TERMINAL *)
Definition _NON_TERMINAL : list string := [ONGOING; PREPARE_COMMIT; PREPARE_ABORT].
Module TxnRecord.
(** [relay/describetransactions.py] class TxnRecord *)
Record t := mk { txn_id : string; state : string; duration_ticks : Z; partitions : Z; }.
End TxnRecord.
Module TransactionDirectory.
(** [relay/describetransactions.py] class TransactionDirectory *)
Record t := mk { transactions : list TxnRecord.t; }.
Definition new : t := mk [].
(** [relay/describetransactions.py] TransactionDirectory.in_state *)
Definition in_state (self : t) (state : string) : list TxnRecord.t :=
  py_filter (λ t, bool_decide (TxnRecord.state t = state)) (transactions self).
(** [relay/describetransactions.py] TransactionDirectory.active *)
Definition active (self : t) : list TxnRecord.t :=
  py_filter (λ t, negb (bool_decide (TxnRecord.state t = DEAD))) (transactions self).
(** [relay/describetransactions.py] TransactionDirectory.stuck *)
Definition stuck (self : t) (timeout : Z) : list string :=
  (λ t, TxnRecord.txn_id t) <$> (py_filter (λ t, (bool_decide (TxnRecord.state t ∈ _NON_TERMINAL)) && (timeout <? TxnRecord.duration_ticks t)) (transactions self)).
(** [relay/describetransactions.py] TransactionDirectory.longest_non_terminal *)
Definition longest_non_terminal (self : t) : result (option TxnRecord.t) :=
  let candidates := py_filter (λ t, bool_decide (TxnRecord.state t ∈ _NON_TERMINAL)) (transactions self) in
  if bool_decide (candidates = []) then
    Ok None
  else
  m ← py_max_key Z.ltb (λ t, TxnRecord.duration_ticks t) candidates;
  Ok (Some m).
(** [relay/describetransactions.py] TransactionDirectory.report *)
Definition report (self : t) (timeout : Z) : result string :=
  live ← (if existsb (λ t, bool_decide (TxnRecord.state t = DEAD)) (transactions self) then
     let live := active self in
     Ok live
   else
     let live := transactions self in
     Ok live);
  let counts : pydict string Z := [] in
  counts ← r_fold live counts (λ counts t,
    let counts := d_set counts (TxnRecord.state t) (d_getd counts (TxnRecord.state t) 0 + 1) in
    Ok counts);
  longest ← longest_non_terminal self;
  let head := join_str ", " ((λ '(s, n), s +:+ ": " +:+ zs n) <$> py_sorted (skey_le (λ p, p.1)) counts) in
  match longest with
  | None =>
      Ok (head +:+ "; no non-terminal transactions, nothing pinning an LSO")

  | Some longest =>
      let flag := "" in
      flag ← (if bool_decide (TxnRecord.txn_id longest ∈ stuck self timeout) then
         let flag := " (past timeout, force to complete)" in
         Ok flag
       else
         Ok flag);
      Ok (head +:+ "; longest non-terminal '" +:+ TxnRecord.txn_id longest +:+ "' in " +:+ TxnRecord.state longest
          +:+ " for " +:+ zs (TxnRecord.duration_ticks longest) +:+ " tick(s)" +:+ flag)
    
  end.
(** [relay/describetransactions.py] TransactionDirectory.assert_not_dead *)
Definition assert_not_dead (self : t) (txn_id : string) : result unit :=
  r_fold (transactions self) () (λ _ t,
    if (bool_decide (TxnRecord.txn_id t = txn_id)) && (bool_decide (TxnRecord.state t = DEAD)) then Err Invalid else
    Ok ());;
  Ok ().
End TransactionDirectory.
End describetransactions.
Import describetransactions.

Module describeproducers.
Module ProducerRecord.
(** [relay/describeproducers.py] class ProducerRecord *)
Record t := mk {
  producer_id : Z;
  epoch : Z;
  last_sequence : Z;
  open_txn_offset : Z;
  txn_open_ticks : Z;
}.
Definition new (producer_id : Z) (epoch : Z) (last_sequence : Z) : t := mk producer_id epoch last_sequence (-1) 0.
(** [relay/describeproducers.py] ProducerRecord.has_open_txn *)
Definition has_open_txn (self : t) : bool :=
  0 <=? open_txn_offset self.
End ProducerRecord.
Module ProducerDirectory.
(** [relay/describeproducers.py] class ProducerDirectory *)
Record t := mk { producers : list ProducerRecord.t; }.
Definition new : t := mk [].
(** [relay/describeproducers.py] ProducerDirectory.open_transactions *)
Definition open_transactions (self : t) : list ProducerRecord.t :=
  py_filter (λ p, ProducerRecord.has_open_txn p) (producers self).
(** [relay/describeproducers.py] ProducerDirectory.lso_blocker *)
Definition lso_blocker (self : t) : result (option ProducerRecord.t) :=
  let open_txns := open_transactions self in
  if bool_decide (open_txns = []) then
    Ok None
  else
  m ← py_min_key Z.ltb (λ p, ProducerRecord.open_txn_offset p) open_txns;
  Ok (Some m).
(** [relay/describeproducers.py] ProducerDirectory.hung *)
Definition hung (self : t) (txn_timeout : Z) : list Z :=
  (λ p, ProducerRecord.producer_id p) <$> (py_filter (λ p, txn_timeout <? ProducerRecord.txn_open_ticks p) (open_transactions self)).
(** [relay/describeproducers.py] ProducerDirectory.report *)
Definition report (self : t) (txn_timeout : Z) : result string :=
  blocker ← lso_blocker self;
  match blocker with
  | None =>
      Ok "no open transactions; the LSO equals the high watermark and read-committed sees the same as read-uncommitted"
  | Some blocker =>
      let hung := hung self txn_timeout in
      let detail := "producer " +:+ zs (ProducerRecord.producer_id blocker) +:+ " pins the LSO at offset " +:+ zs (ProducerRecord.open_txn_offset blocker) +:+ ", txn open " +:+ zs (ProducerRecord.txn_open_ticks blocker) +:+ " tick(s)" in
      if bool_decide (ProducerRecord.producer_id blocker ∈ hung) then
        Ok (detail +:+ "; past the timeout, a candidate for forced abort")
      else
      Ok detail
  end.
(** [relay/describeproducers.py] ProducerDirectory.last_sequence_of *)
Definition last_sequence_of (self : t) (producer_id : Z) : result Z :=
  found ← r_first (producers self) (λ p,
        if ProducerRecord.producer_id p =? producer_id then
          if ProducerRecord.last_sequence p <? 0 then Err Invalid else
          Ok (Some (ProducerRecord.last_sequence p))
        else
        Ok None);
  match found with
  | Some r => Ok r
  | None =>
      Err Invalid
  end.
End ProducerDirectory.
End describeproducers.
Import describeproducers.

Module txninit.
(** [relay/txninit.py] UNINITIALIZED *)
Definition UNINITIALIZED : string := "uninitialized".
(** [relay/txninit.py] EPOCH_CLAIMED *)
Definition EPOCH_CLAIMED : string := "epoch-claimed".
(** [relay/txninit.py] READY *)
Definition READY : string := "ready".
Module TransactionalInit.
(** [relay/txninit.py] class TransactionalInit *)
Record t := mk { txn_id : string; state : string; epoch : Z; recovered_dangling : Z; }.
Definition set_state (v : string) (self : t) : t := mk (txn_id self) v (epoch self) (recovered_dangling self).
Definition set_epoch (v : Z) (self : t) : t := mk (txn_id self) (state self) v (recovered_dangling self).
Definition set_recovered_dangling (v : Z) (self : t) : t := mk (txn_id self) (state self) (epoch self) v.
Definition new (txn_id : string) : t := mk txn_id UNINITIALIZED 0 0.
(** [relay/txninit.py] TransactionalInit.claim_epoch *)
Definition claim_epoch (new_epoch : Z) : act t string :=
  self ← get;
  raise_if ((new_epoch <=? epoch self) && (negb (epoch self =? 0))) Invalid;;
  put (set_epoch new_epoch self);;
  self ← get;
  put (set_state EPOCH_CLAIMED self);;
  self ← get;
  mret ((txn_id self) +:+ " claimed epoch " +:+ zs new_epoch).
(** [relay/txninit.py] TransactionalInit.recover *)
Definition recover (dangling_open : bool) : act t string :=
  self ← get;
  raise_if (negb (bool_decide (state self = EPOCH_CLAIMED))) Invalid;;
  put (set_state READY self);;
  if (dangling_open : bool) then
    self ← get;
    put (set_recovered_dangling (recovered_dangling self + 1) self);;
    self ← get;
    mret ((txn_id self)
          +:+ " recovered a dangling transaction from a dead predecessor, aborted it; a new one started over it would have tangled two under one id")
  else
  self ← get;
  mret ((txn_id self) +:+ " recovered a clean slate, ready").
(** [relay/txninit.py] TransactionalInit.begin_transaction *)
Definition begin_transaction (self : t) : result string :=
  if negb (bool_decide (state self = READY)) then Err Invalid else
  Ok ((txn_id self) +:+ " may begin a transaction").
End TransactionalInit.
End txninit.
Import txninit.

Module controlrecords.
(** [relay/controlrecords.py] DATA *)
Definition DATA : string := "data".
(** [relay/controlrecords.py] COMMIT_MARKER *)
Definition COMMIT_MARKER : string := "commit".
(** [relay/controlrecords.py] ABORT_MARKER *)
Definition ABORT_MARKER : string := "abort".
(** [relay/controlrecords.py] CONTROL_KINDS *)
Definition CONTROL_KINDS : list string := [COMMIT_MARKER; ABORT_MARKER].
Module LogEntry.
(** [relay/controlrecords.py] class LogEntry *)
Record t := mk { offset : Z; kind : string; payload : option bytes; }.
(** [relay/controlrecords.py] LogEntry.is_control *)
Definition is_control (self : t) : bool :=
  bool_decide (kind self ∈ CONTROL_KINDS).
End LogEntry.
(** [relay/controlrecords.py] consumer_visible *)
Definition consumer_visible (entries : list LogEntry.t) : list LogEntry.t :=
  py_filter (λ e, negb (LogEntry.is_control e)) entries.
(** [relay/controlrecords.py] next_data_offset *)
Definition next_data_offset (entries : list LogEntry.t) (after : Z) : result Z :=
  found ← r_first (py_sorted (key_le (λ e, LogEntry.offset e)) entries) (λ entry,
        if (after <? LogEntry.offset entry) && (negb (LogEntry.is_control entry)) then
          Ok (Some (LogEntry.offset entry))
        else
        Ok None);
  match found with
  | Some r => Ok r
  | None =>
      Err Invalid
  end.
(** [relay/controlrecords.py] offsets_stay_dense *)
Definition offsets_stay_dense (entries : list LogEntry.t) : result bool :=
  let offsets := py_sorted Z.le ((λ e, LogEntry.offset e) <$> entries) in
  first ← py_index offsets 0;
  Ok (forallb (λ '(expected, actual), expected =? actual) (imap (λ i x, (first + Z.of_nat i, x)) offsets)).
Module ControlAudience.
(** [relay/controlrecords.py] class ControlAudience *)
Record t := mk {  }.
(** [relay/controlrecords.py] ControlAudience.for_data_path *)
Definition for_data_path (self : t) (entries : list LogEntry.t) : string :=
  let control := zlen (py_filter (λ e, LogEntry.is_control e) entries) in
  let visible := zlen (consumer_visible entries) in
  zs visible +:+ " data record(s) to the consumer, " +:+ zs control
        +:+ " control record(s) filtered out; the offset sequence stays dense so no consumer drifts".
(** [relay/controlrecords.py] ControlAudience.for_admin *)
Definition for_admin (self : t) (entries : list LogEntry.t) : list string :=
  (λ e, "offset " +:+ zs (LogEntry.offset e) +:+ ": " +:+ (LogEntry.kind e)
        +:+ " marker") <$> (py_filter (λ e, LogEntry.is_control e) entries).
End ControlAudience.
End controlrecords.
Import controlrecords.

Module produceridblock.
Module ProducerIdBlock.
(** [relay/produceridblock.py] class ProducerIdBlock *)
Record t := mk { block_start : Z; block_size : Z; next_id : Z; }.
Definition set_block_start (v : Z) (self : t) : t := mk v (block_size self) (next_id self).
Definition set_block_size (v : Z) (self : t) : t := mk (block_start self) v (next_id self).
Definition set_next_id (v : Z) (self : t) : t := mk (block_start self) (block_size self) v.
(** [relay/produceridblock.py] ProducerIdBlock.__post_init__ *)
Definition __post_init__ : act t unit :=
  self ← get;
  raise_if (block_size self <? 1) Invalid;;
  (if next_id self <? 0 then put (set_next_id (block_start self) self) else mret ()).
(** [relay/produceridblock.py] ProducerIdBlock.__post_init__ *)
Definition make (block_start : Z) (block_size : Z) : result t := construct __post_init__ (mk block_start block_size (-1)).
(** [relay/produceridblock.py] ProducerIdBlock.block_end *)
Definition block_end (self : t) : Z :=
  block_start self + (block_size self).
(** [relay/produceridblock.py] ProducerIdBlock.allocate *)
Definition allocate : act t Z :=
  self ← get;
  raise_if (block_end self <=? next_id self) Invalid;;
  let allocated := next_id self in
  put (set_next_id (next_id self + 1) self);;
  mret allocated.
(** [relay/produceridblock.py] ProducerIdBlock.remaining *)
Definition remaining (self : t) : Z :=
  block_end self - (next_id self).
(** [relay/produceridblock.py] ProducerIdBlock.refill *)
Definition refill (new_start : Z) (new_size : Z) : act t string :=
  self ← get;
  raise_if (new_start <? block_end self) Invalid;;
  put (set_block_start new_start self);;
  self ← get;
  put (set_block_size new_size self);;
  self ← get;
  put (set_next_id new_start self);;
  self ← get;
  mret ("refilled block [" +:+ zs new_start +:+ ", " +:+ zs (block_end self) +:+ ")").
(** [relay/produceridblock.py] ProducerIdBlock.health *)
Definition health (self : t) : string :=
  zs (remaining self)
        +:+ " id(s) left in the block; a broker burning blocks fast has a storm of short-lived producers, worth catching before id allocation becomes the bottleneck".
End ProducerIdBlock.
End produceridblock.
Import produceridblock.

Module produceridexpiry.
Module ProducerState.
(** [relay/produceridexpiry.py] class ProducerState *)
Record t := mk { producer_id : Z; last_seq : Z; idle_ticks : Z; in_transaction : bool; }.
Definition new (producer_id : Z) (last_seq : Z) (idle_ticks : Z) : t := mk producer_id last_seq idle_ticks false.
End ProducerState.
Module ProducerRegistry.
(** [relay/produceridexpiry.py] class ProducerRegistry *)
Record t := mk { timeout_ticks : Z; states : pydict Z ProducerState.t; }.
Definition set_states (v : pydict Z ProducerState.t) (self : t) : t := mk (timeout_ticks self) v.
(** [relay/produceridexpiry.py] ProducerRegistry.__post_init__ *)
Definition make (timeout_ticks : Z) : result t :=
  if timeout_ticks <? 1 then Err Invalid else
  Ok (mk timeout_ticks []).
(** [relay/produceridexpiry.py] ProducerRegistry.track *)
Definition track (state : ProducerState.t) : act t unit :=
  self ← get;
  put (set_states (d_set (states self) (ProducerState.producer_id state) state) self).
(** [relay/produceridexpiry.py] ProducerRegistry.expire_idle *)
Definition expire_idle : act t (list Z) :=
  let expired := [] in
  self ← get;
  expired ← for_fold (states self) expired (λ expired '(pid, st),
    self ← get;
    if ProducerState.idle_ticks st <? timeout_ticks self then
      mret expired
    else
    raise_if (ProducerState.in_transaction st) Invalid;;
    put (set_states (d_del (states self) pid) self);;
    let expired := expired ++ [pid] in
    mret expired);
  mret expired.
(** [relay/produceridexpiry.py] ProducerRegistry.resume_note *)
Definition resume_note (self : t) (producer_id : Z) : string :=
  if d_mem (states self) producer_id then
    "producer " +:+ zs producer_id
          +:+ " still tracked; it resumes from its last sequence and dedup still holds"
  else
  "producer " +:+ zs producer_id
        +:+ " was expired; the broker forgot its baseline sequence and cannot tell a fresh write from a duplicate, so it must re-initialize and get a new producer id rather than resume".
(** [relay/produceridexpiry.py] ProducerRegistry.live_versus_expirable *)
Definition live_versus_expirable (self : t) : string :=
  let live := zlen (py_filter (λ s, ProducerState.idle_ticks s <? timeout_ticks self) (d_values (states self))) in
  let expirable := zlen (states self) - live in
  zs live +:+ " live producer(s), " +:+ zs expirable
        +:+ " idle past the timeout and expirable; memory pressure from producer state is mostly the idle ones still tracked".
End ProducerRegistry.
End produceridexpiry.
Import produceridexpiry.

Module delegationtoken.
Module DelegationToken.
(** [relay/delegationtoken.py] class DelegationToken *)
Record t := mk { issued_at : Z; expiry : Z; max_lifetime_at : Z; revoked : bool; }.
Definition set_expiry (v : Z) (self : t) : t := mk (issued_at self) v (max_lifetime_at self) (revoked self).
Definition set_revoked (v : bool) (self : t) : t := mk (issued_at self) (expiry self) (max_lifetime_at self) v.
(** [relay/delegationtoken.py] DelegationToken.__post_init__ *)
Definition make (issued_at : Z) (expiry : Z) (max_lifetime_at : Z) : result t :=
  if max_lifetime_at <? expiry then Err Invalid else
  Ok (mk issued_at expiry max_lifetime_at false).
(** [relay/delegationtoken.py] DelegationToken.is_usable *)
Definition is_usable (self : t) (now : Z) : bool :=
  (negb (revoked self)) && (now <? expiry self).
(** [relay/delegationtoken.py] DelegationToken.renew *)
Definition renew (now : Z) (extend_to : Z) : act t string :=
  self ← get;
  raise_if (revoked self) Invalid;;
  raise_if (expiry self <=? now) Invalid;;
  raise_if (max_lifetime_at self <? extend_to) Invalid;;
  put (set_expiry extend_to self);;
  self ← get;
  mret ("renewed; expiry now " +:+ zs (expiry self) +:+ ", max lifetime " +:+ zs (max_lifetime_at self)).
(** [relay/delegationtoken.py] DelegationToken.revoke *)
Definition revoke : act t unit :=
  self ← get;
  put (set_revoked true self).
(** [relay/delegationtoken.py] DelegationToken.authenticate *)
Definition authenticate (self : t) (now : Z) : result string :=
  if revoked self then Err Invalid else
  if expiry self <=? now then Err Invalid else
  Ok "authenticated by delegation token".
(** [relay/delegationtoken.py] DelegationToken.status *)
Definition status (self : t) (now : Z) : string :=
  zs (Z.max 0 (expiry self - now)) +:+ " until expiry, "
        +:+ zs (Z.max 0 (max_lifetime_at self - now))
        +:+ " until re-auth; a worker tracking only expiry is surprised when renewal is refused".
End DelegationToken.
End delegationtoken.
Import delegationtoken.

Module principalmapping.
(** [l.index(x)]: the position of the first element equal to [x] *)
Fixpoint list_index {A} `{EqDecision A} (l : list A) (x : A) : result Z :=
  match l with
  | [] => Err ValueError
  | y :: l => if bool_decide (y = x) then Ok 0 else i ← list_index l x; Ok (1 + i)
  end.
Module MappingRule.
(** [relay/principalmapping.py] class MappingRule *)
Record t := mk { prefix : string; principal : string; }.
#[global] Instance eq_dec : EqDecision t.
Proof. solve_decision. Defined.
(** [relay/principalmapping.py] MappingRule.matches *)
Definition matches (self : t) (identity : string) : bool :=
  startswith identity (prefix self).
End MappingRule.
Module PrincipalMapper.
(** [relay/principalmapping.py] class PrincipalMapper *)
Record t := mk { rules : list MappingRule.t; }.
(** [relay/principalmapping.py] PrincipalMapper.__post_init__ *)
Definition make (rules : list MappingRule.t) : result t :=
  if bool_decide (rules = []) then Err Invalid else
  Ok (mk rules).
(** [relay/principalmapping.py] PrincipalMapper._first_match *)
Definition _first_match (self : t) (identity : string) : option MappingRule.t :=
  match first_some (rules self) (λ rule,
        if MappingRule.matches rule identity then
          Some (Some rule)
        else
        None) with
  | Some r => r
  | None =>
      None
  end.
(** [relay/principalmapping.py] PrincipalMapper.map *)
Definition map (self : t) (identity : string) : result string :=
  let rule := _first_match self identity in
  match rule with
  | None =>
      Err Invalid
  | Some rule =>
      Ok (MappingRule.principal rule)
  end.
(** [relay/principalmapping.py] PrincipalMapper.explain *)
Definition explain (self : t) (identity : string) : result string :=
  let rule := _first_match self identity in
  match rule with
  | None =>
      Ok ("'" +:+ identity +:+ "' unmapped; no rule matches, access refused")
  | Some rule =>
      idx ← list_index (rules self) rule;
      Ok ("'" +:+ identity +:+ "' mapped to '" +:+ MappingRule.principal rule +:+ "' by rule " +:+ zs idx
          +:+ " (prefix '" +:+ MappingRule.prefix rule
          +:+ "'); a surprising result is an earlier broad rule shadowing a later specific one")
    
  end.
End PrincipalMapper.
End principalmapping.
Import principalmapping.

Module sasl.
(** [relay/sasl.py] START *)
Definition START : string := "start".
(** [relay/sasl.py] CHOSEN *)
Definition CHOSEN : string := "chosen".
(** [relay/sasl.py] AUTHENTICATING *)
Definition AUTHENTICATING : string := "authenticating".
(** [relay/sasl.py] COMPLETE *)
Definition COMPLETE : string := "complete".
(** [relay/sasl.py] FAILED *)
Definition FAILED : string := "failed".
Module SaslHandshake.
(** [relay/sasl.py] class SaslHandshake *)
Record t := mk {
  enabled_mechanisms : list string;
  state : string;
  mechanism : string;
  rounds : Z;
}.
Definition set_state (v : string) (self : t) : t := mk (enabled_mechanisms self) v (mechanism self) (rounds self).
Definition set_mechanism (v : string) (self : t) : t := mk (enabled_mechanisms self) (state self) v (rounds self).
Definition set_rounds (v : Z) (self : t) : t := mk (enabled_mechanisms self) (state self) (mechanism self) v.
Definition new (enabled_mechanisms : list string) : t := mk enabled_mechanisms START "" 0.
(** [relay/sasl.py] SaslHandshake.choose *)
Definition choose (mechanism_ : string) : act t string :=
  self ← get;
  raise_if (bool_decide (state self = COMPLETE)) Fenced;;
  raise_if (negb (bool_decide (mechanism_ ∈ enabled_mechanisms self))) Invalid;;
  put (set_mechanism mechanism_ self);;
  self ← get;
  put (set_state CHOSEN self);;
  self ← get;
  mret ("chose " +:+ mechanism_ +:+ " from " +:+ repr_list repr_str (enabled_mechanisms self)).
(** [relay/sasl.py] SaslHandshake.exchange *)
Definition exchange (done : bool) (ok : bool) : act t string :=
  self ← get;
  raise_if (negb (bool_decide (state self ∈ [CHOSEN; AUTHENTICATING]))) Invalid;;
  put (set_rounds (rounds self + 1) self);;
  if negb done then
    self ← get;
    put (set_state AUTHENTICATING self);;
    self ← get;
    mret ("round " +:+ zs (rounds self) +:+ ", more to go")
  else
  self ← get;
  put (set_state (if ok then COMPLETE else FAILED) self);;
  self ← get;
  mret ("authentication " +:+ (state self) +:+ " after " +:+ zs (rounds self) +:+ " round(s)").
(** [relay/sasl.py] SaslHandshake.may_serve *)
Definition may_serve (self : t) (request : string) : result string :=
  if negb (bool_decide (state self = COMPLETE)) then Err Invalid else
  Ok ("'" +:+ request +:+ "' authorized to proceed").
End SaslHandshake.
End sasl.
Import sasl.

Module saslreauth.
Module ReauthSession.
(** [relay/saslreauth.py] class ReauthSession *)
Record t := mk { principal : string; session_expiry : Z; }.
Definition set_session_expiry (v : Z) (self : t) : t := mk (principal self) v.
(** [relay/saslreauth.py] ReauthSession.reauthenticate *)
Definition reauthenticate (now : Z) (principal_ : string) (new_expiry : Z) : act t string :=
  self ← get;
  raise_if (negb (bool_decide (principal_ = principal self))) Fenced;;
  raise_if (new_expiry <=? now) Invalid;;
  put (set_session_expiry new_expiry self);;
  mret ("re-authenticated '" +:+ principal_ +:+ "'; session now to " +:+ zs new_expiry).
(** [relay/saslreauth.py] ReauthSession.serve *)
Definition serve (self : t) (now : Z) (request : string) : result string :=
  if session_expiry self <=? now then Err Invalid else
  Ok ("served '" +:+ request +:+ "'").
(** [relay/saslreauth.py] ReauthSession.time_left *)
Definition time_left (self : t) (now : Z) : string :=
  let left := session_expiry self - now in
  if left <=? 0 then
    "session expired; re-auth required before any more requests"
  else
  zs left
        +:+ " until re-auth required; a client re-authenticating only after being cut off is not tracking its session expiry".
End ReauthSession.
End saslreauth.
Import saslreauth.

Module tracecontext.
(** [relay/tracecontext.py] BROKER_SPAN_PREFIX *)
Definition BROKER_SPAN_PREFIX : string := "__relay.span.".
Module TracePropagator.
(** [relay/tracecontext.py] class TracePropagator *)
Record t := mk { client_headers : pydict string string; broker_headers : pydict string string; }.
Definition set_client_headers (v : pydict string string) (self : t) : t := mk v (broker_headers self).
Definition set_broker_headers (v : pydict string string) (self : t) : t := mk (client_headers self) v.
Definition new : t := mk [] [].
(** [relay/tracecontext.py] TracePropagator.set_client *)
Definition set_client (name : string) (value : string) : act t unit :=
  raise_if (startswith name BROKER_SPAN_PREFIX) Invalid;;
  self ← get;
  put (set_client_headers (d_set (client_headers self) name value) self).
(** [relay/tracecontext.py] TracePropagator.add_broker_span *)
Definition add_broker_span (name : string) (value : string) : act t unit :=
  let full := BROKER_SPAN_PREFIX +:+ name in
  self ← get;
  raise_if (d_mem (client_headers self) full) Invalid;;
  put (set_broker_headers (d_set (broker_headers self) full value) self).
(** [relay/tracecontext.py] TracePropagator.delivered_to_consumer *)
Definition delivered_to_consumer (self : t) : pydict string string :=
  d_update (client_headers self) (broker_headers self).
(** [relay/tracecontext.py] TracePropagator.trace_survived *)
Definition trace_survived (self : t) (received : pydict string string) : string :=
  match first_some (client_headers self) (λ '(name, value),
        if negb (bool_decide (d_get received name = Some value)) then
          Some ("BROKEN: client header " +:+ name
                +:+ " changed in transit; a propagation bug, not a tracing-team problem to debug in the broker")
        else
        None) with
  | Some r => r
  | None =>
      "trace intact: every client header survived byte-for-byte, plus the broker's own span between produce and consume"
  end.
End TracePropagator.
End tracecontext.
Import tracecontext.


(** ** Blocks of producer ids *)

Section producer_ids.
Import ProducerIdBlock.

Inductive id_op := Allocate | Refill (new_start new_size : Z).

(** the block and the ids it handed out, oldest first *)
Definition id_step (o : id_op) (w : t * list Z) : t * list Z :=
  match o with
  | Allocate => match allocate w.1 with (b, Ok i) => (b, w.2 ++ [i]) | (b, Err _) => (b, w.2) end
  | Refill new_start new_size => (state_of (refill new_start new_size) w.1, w.2)
  end.

Lemma allocate_run b :
  allocate b = if block_end b <=? next_id b then (b, Err Invalid) else (mk (block_start b) (block_size b) (next_id b + 1), Ok (next_id b)).
Proof. unfold allocate. rewrite bind_get, bind_raise_if. by destruct (_ <=? _). Qed.
Lemma refill_run b start size :
  state_of (refill start size) b = if start <? block_end b then b else mk start size start.
Proof. unfold state_of, refill. rewrite bind_get, bind_raise_if. by destruct (_ <? _). Qed.

(** every id handed out is below the next one, which is within the block *)
Record ids_inv (w : t * list Z) : Prop := {
  ids_block : block_start w.1 <= next_id w.1 <= block_end w.1;
  ids_sorted : StronglySorted Z.lt w.2;
  ids_below : ∀ i, i ∈ w.2 → i < next_id w.1 }.

Definition sized (o : id_op) : Prop := match o with Allocate => True | Refill _ size => 0 <= size end.

Lemma id_step_inv o w : sized o → ids_inv w → ids_inv (id_step o w).
Proof.
  destruct w as [b ids]. intros Ho [Hb Hs Hlt]. cbn [fst snd] in *. destruct o as [|start size]; cbn [id_step fst snd].
  - rewrite allocate_run. destruct (Z.leb_spec (block_end b) (next_id b)); [by constructor|].
    constructor; cbn [fst snd block_start next_id] in *; unfold block_end in *; cbn [block_start block_size] in *; [lia| |].
    + apply StronglySorted_app_2; [|done|repeat constructor]. intros x y Hx ->%list_elem_of_singleton. by apply Hlt.
    + intros i [Hi| ->%list_elem_of_singleton]%elem_of_app; [specialize (Hlt i Hi)|]; lia.
  - rewrite refill_run. destruct (Z.ltb_spec start (block_end b)); [by constructor|].
    constructor; cbn [fst snd next_id block_start]; unfold block_end in *; cbn [block_start block_size] in *; [cbn in Ho; lia|done|].
    intros i Hi. specialize (Hlt i Hi). lia.
Qed.
End producer_ids.

(** Also (safety): no producer id is handed out twice.  From a fresh block, after any sequence of allocations and of
    refills whose size is not negative (refused ones included), the ids handed out are strictly increasing,
    each was below the block's next id, and an exhausted block refuses rather than hand out an id past
    its end; a refill that overlaps the block is refused and changes nothing. *)
Theorem producer_ids_unique (start size : Z) (b0 : ProducerIdBlock.t) (ops : list id_op)
    (Hmake : ProducerIdBlock.make start size = Ok b0) (Hsized : ∀ o, o ∈ ops → sized o) :
  let '(b, ids) := run id_step ops (b0, []) in
  StronglySorted Z.lt ids ∧ NoDup ids ∧ (∀ i, i ∈ ids → i < ProducerIdBlock.next_id b) ∧
  (ProducerIdBlock.remaining b = 0 → ProducerIdBlock.allocate b = (b, Err Invalid)) ∧
  (0 < ProducerIdBlock.remaining b →
    ∃ i, value_of ProducerIdBlock.allocate b = Ok i ∧ i ∉ ids ∧ ProducerIdBlock.block_start b <= i < ProducerIdBlock.block_end b) ∧
  (∀ s n, s < ProducerIdBlock.block_end b → ProducerIdBlock.refill s n b = (b, Err Invalid)).
Proof.
  assert (ids_inv (run id_step ops (b0, []))) as Hinv.
  { unfold ProducerIdBlock.make, construct, ProducerIdBlock.__post_init__ in Hmake. rewrite bind_get, bind_raise_if in Hmake.
    cbn [ProducerIdBlock.block_size ProducerIdBlock.next_id] in Hmake. destruct (Z.ltb_spec size 1); [done|]. cbn in Hmake. injection Hmake as <-.
    assert (∀ l w, (∀ o, o ∈ l → sized o) → ids_inv w → ids_inv (run id_step l w)) as Hrun.
    { induction l as [|o l IH]; intros w Hl Hw; [done|]. cbn. apply IH; [intros o' Ho'; apply Hl; by right|].
      apply id_step_inv; [apply Hl; left|done]. }
    apply Hrun; [done|]. constructor; cbn [fst snd]; [|constructor|by intros i ?%elem_of_nil].
    unfold ProducerIdBlock.block_end. cbn. lia. }
  destruct (run _ _ _) as [b ids]. destruct Hinv as [Hb Hs Hlt]. cbn [fst snd] in *. unfold ProducerIdBlock.remaining. split_and!.
  - done.
  - clear -Hs. induction Hs as [|x l Hs IH Hx]; constructor; [|done]. intros Hin. rewrite Forall_forall in Hx. specialize (Hx x Hin). lia.
  - done.
  - intros. rewrite allocate_run. by rewrite (proj2 (Z.leb_le _ _)) by lia.
  - intros. exists (ProducerIdBlock.next_id b). unfold value_of. rewrite allocate_run, (proj2 (Z.leb_gt _ _)) by lia.
    split_and!; [done| |lia..]. intros Hin. specialize (Hlt _ Hin). lia.
  - intros s n Hsn. unfold ProducerIdBlock.refill. rewrite bind_get, bind_raise_if. by rewrite (proj2 (Z.ltb_lt _ _)).
Qed.

Lemma producer_ids_unique_witness :
  let '(b, ids) := run id_step [Allocate; Allocate; Allocate; Refill 1 5; Refill 7 2; Allocate] (ProducerIdBlock.mk 0 2 0, []) in
  StronglySorted Z.lt ids ∧ NoDup ids ∧ (∀ i, i ∈ ids → i < ProducerIdBlock.next_id b) ∧
  (ProducerIdBlock.remaining b = 0 → ProducerIdBlock.allocate b = (b, Err Invalid)) ∧
  (0 < ProducerIdBlock.remaining b →
    ∃ i, value_of ProducerIdBlock.allocate b = Ok i ∧ i ∉ ids ∧ ProducerIdBlock.block_start b <= i < ProducerIdBlock.block_end b) ∧
  (∀ s n, s < ProducerIdBlock.block_end b → ProducerIdBlock.refill s n b = (b, Err Invalid)).
Proof.
  apply (producer_ids_unique 0 2 (ProducerIdBlock.mk 0 2 0)
    [Allocate; Allocate; Allocate; Refill 1 5; Refill 7 2; Allocate]); [reflexivity|].
  intros o Ho. assert (o = Allocate ∨ o = Refill 1 5 ∨ o = Refill 7 2) as Hcase by set_solver.
  destruct Hcase as [ -> | [ -> | -> ]]; cbn; lia.
Defined.

(** Also (safety): the size of a refill is not checked, and a negative one brings an id back: a block that ends before
    it starts lets the next refill overlap ids already handed out. *)
Theorem refill_negative_reissues :
  ∃ b0, ProducerIdBlock.make 0 2 = Ok b0 ∧
  (run id_step [Allocate; Allocate; Refill 2 (-2); Refill 0 2; Allocate; Allocate] (b0, [])).2 = [0; 1; 0; 1].
Proof. eexists. split; reflexivity. Qed.

(** ** The index of aborted transactions *)

Section aborted.
Import AbortedTransactions.

(** the first offset of the last abort recorded for the producer *)
Definition last_abort (aborts : list (string * Z)) (pid : string) : option Z :=
  last (snd <$> py_filter (λ a, bool_decide (a.1 = pid)) aborts).

Lemma aborts_run aborts (Hpos : ∀ a, a ∈ aborts → 0 <= a.2) pid :
  d_get (aborted (run (λ '(p, o), state_of (record_abort p o)) aborts new)) pid = last_abort aborts pid.
Proof.
  unfold last_abort. induction aborts as [|[p o] l IH] using rev_ind; [done|].
  specialize (IH ltac:(intros; apply Hpos, elem_of_app; by left)).
  rewrite run_app, py_filter_app, fmap_app, py_filter_cons, py_filter_nil. set (s := run _ l new) in *. cbn [run foldl fst].
  unfold state_of, record_abort.
  rewrite bind_raise_if, (proj2 (Z.ltb_ge o 0)) by (apply (Hpos (p, o)), elem_of_app; right; left).
  rewrite bind_get, run_put. cbn [fst set_aborted aborted]. rewrite d_get_set, IH.
  case_bool_decide as Hp.
  - subst p. rewrite bool_decide_eq_true_2 by done. cbn [fmap list_fmap]. by rewrite last_snoc.
  - rewrite bool_decide_eq_false_2 by done. cbn [fmap list_fmap]. by rewrite app_nil_r.
Qed.
End aborted.

(** Also (functional): what a read-committed consumer sees.  After any aborts were recorded, a record of the fetch is
    shown exactly if its producer has no abort or the record is before the first offset of the producer's
    last one; the order is kept, the other isolation level shows everything, and the dropped records
    are the rest. *)
Theorem read_committed_filter (aborts records : list (string * Z)) (Hpos : ∀ a, a ∈ aborts → 0 <= a.2)
    (batch : list (Z * string)) :
  let s := run (λ '(p, o), state_of (AbortedTransactions.record_abort p o)) aborts AbortedTransactions.new in
  let shown := AbortedTransactions.filter_for_read_committed s batch in
  (∀ o p, (o, p) ∈ shown ↔ (o, p) ∈ batch ∧ (∀ first, last_abort aborts p = Some first → o < first)) ∧
  shown `sublist_of` batch ∧
  AbortedTransactions.filter_for_read_uncommitted s batch = batch ∧
  AbortedTransactions.dropped_count s batch = zlen (py_filter (λ '(o, p), AbortedTransactions._is_aborted s p o) batch).
Proof.
  intros s shown. split_and!.
  - intros o p. unfold shown, AbortedTransactions.filter_for_read_committed. rewrite elem_of_py_filter, negb_true_iff.
    unfold AbortedTransactions._is_aborted, s. rewrite aborts_run by done. destruct (last_abort aborts p) as [f|].
    + rewrite Z.leb_gt. split; [intros [? ?]; split; [done|]; intros ? [= <-]; done|intros [? H]; split; [by apply H|done]].
    + split; [intros [_ ?]; by split|intros [? _]; by split].
  - apply sublist_filter.
  - done.
  - unfold AbortedTransactions.dropped_count. fold shown. unfold shown, AbortedTransactions.filter_for_read_committed.
    clear. induction batch as [|[o p] l IH]; [done|]. rewrite !py_filter_cons.
    destruct (AbortedTransactions._is_aborted s p o); cbn [negb]; rewrite !zlen_cons; lia.
Qed.

(** Also (safety): the index holds one abort per producer, so a second abort of the same producer forgets the first,
    whose records the read-committed filter then shows, and a transaction the producer commits after an abort is dropped. *)
Theorem second_abort_forgets_first :
  let s := run (λ '(p, o), state_of (AbortedTransactions.record_abort p o)) [("p", 10); ("p", 50)] AbortedTransactions.new in
  AbortedTransactions.filter_for_read_committed s [(9, "p"); (10, "p"); (20, "p"); (50, "p"); (90, "p")] = [(9, "p"); (10, "p"); (20, "p")].
Proof. reflexivity. Qed.

(** ** The authentication handshake *)

Section handshake.
Import SaslHandshake.

Inductive sasl_op := Choose (m : string) | Exchange (last_round ok : bool).
Definition sasl_step (o : sasl_op) : t → t :=
  match o with
  | Choose m => state_of (choose m)
  | Exchange last_round ok => state_of (exchange last_round ok)
  end.

Lemma choose_run m s : choose m s =
  if bool_decide (state s = COMPLETE) then (s, Err Fenced)
  else if bool_decide (m ∈ enabled_mechanisms s) then
    (mk (enabled_mechanisms s) CHOSEN m (rounds s), Ok ("chose " +:+ m +:+ " from " +:+ repr_list repr_str (enabled_mechanisms s)))
  else (s, Err Invalid).
Proof.
  unfold choose. rewrite bind_get, bind_raise_if. case_bool_decide; [done|]. rewrite bind_raise_if.
  by case_bool_decide.
Qed.
Lemma exchange_state last_round ok s : state_of (exchange last_round ok) s =
  if bool_decide (state s ∈ [CHOSEN; AUTHENTICATING]) then
    mk (enabled_mechanisms s) (if last_round then if ok then COMPLETE else FAILED else AUTHENTICATING) (mechanism s) (rounds s + 1)
  else s.
Proof.
  unfold state_of, exchange. rewrite bind_get, bind_raise_if. case_bool_decide; [|done]. cbn [negb].
  rewrite bind_put. by destruct last_round.
Qed.

(** what may happen between the choice and the last round *)
Definition unfinished (mechanisms : list string) (o : sasl_op) : Prop :=
  match o with Choose m => m ∉ mechanisms | Exchange last_round _ => last_round = false end.

Definition started (mechanisms : list string) (ops : list sasl_op) (m : string) : Prop :=
  ∃ pre mid, ops = pre ++ Choose m :: mid ∧ m ∈ mechanisms ∧ Forall (unfinished mechanisms) mid.
Definition authenticated (mechanisms : list string) (ops : list sasl_op) (m : string) : Prop :=
  ∃ pre post, ops = pre ++ Exchange true true :: post ∧ started mechanisms pre m.

(** what the state says of the history *)
Record sasl_inv (mechanisms : list string) (ops : list sasl_op) (s : t) : Prop := {
  sasl_mechanisms : enabled_mechanisms s = mechanisms;
  sasl_state : state s ∈ [START; CHOSEN; AUTHENTICATING; COMPLETE; FAILED];
  sasl_started : state s ∈ [CHOSEN; AUTHENTICATING] → started mechanisms ops (mechanism s);
  sasl_complete : state s = COMPLETE → authenticated mechanisms ops (mechanism s) }.

Lemma authenticated_snoc ms ops o m : authenticated ms ops m → authenticated ms (ops ++ [o]) m.
Proof. intros (pre & post & -> & Hs). exists pre, (post ++ [o]). by rewrite <- app_assoc. Qed.
Lemma started_snoc ms ops o m : unfinished ms o → started ms ops m → started ms (ops ++ [o]) m.
Proof.
  intros Ho (pre & mid & -> & Hm & Hmid). exists pre, (mid ++ [o]). rewrite <- app_assoc. split_and!; [done..|].
  apply Forall_app. split; [done|]. by constructor.
Qed.

Lemma sasl_step_inv ms ops o s : sasl_inv ms ops s → sasl_inv ms (ops ++ [o]) (sasl_step o s).
Proof.
  intros [Hms Hst Hstarted Hcomplete]. destruct o as [m|last_round ok]; cbn [sasl_step].
  - unfold state_of. rewrite choose_run. case_bool_decide as Hc; cbn [fst].
    { constructor; [done..| |]; [rewrite Hc; set_solver|]. intros _. by apply authenticated_snoc, Hcomplete. }
    rewrite Hms. case_bool_decide as Hm; cbn [fst].
    + constructor; cbn; [done|set_solver| |done]. intros _. exists ops, []. by split_and!.
    + constructor; [done..| |done]. intros H. apply started_snoc; [done|]. by apply Hstarted.
  - rewrite exchange_state. case_bool_decide as Hin.
    + specialize (Hstarted Hin). destruct last_round; [destruct ok|].
      * constructor; cbn; [done|set_solver|set_solver|]. intros _. exists ops, []. by split.
      * constructor; cbn; [done|set_solver|set_solver|done].
      * constructor; cbn; [done|set_solver| |done]. intros _. by apply started_snoc.
    + constructor; [done..|]. intros Hc. by apply authenticated_snoc, Hcomplete.
Qed.

Lemma sasl_run_inv ms ops : sasl_inv ms ops (run sasl_step ops (new ms)).
Proof.
  induction ops as [|o ops IH] using rev_ind; [constructor; cbn; [done|set_solver|set_solver|done]|].
  rewrite run_app. by apply sasl_step_inv.
Qed.

Lemma complete_stays ops s : state s = COMPLETE → run sasl_step ops s = s.
Proof.
  intros Hc. induction ops as [|o ops IH]; [done|]. cbn [run foldl]. assert (sasl_step o s = s) as ->; [|exact IH].
  destruct o; cbn [sasl_step].
  - unfold state_of. rewrite choose_run. by rewrite bool_decide_eq_true_2.
  - rewrite exchange_state. rewrite bool_decide_eq_false_2; [done|]. rewrite Hc. set_solver.
Qed.

Lemma unfinished_stays ms mid s : enabled_mechanisms s = ms → state s ∈ [CHOSEN; AUTHENTICATING] → Forall (unfinished ms) mid →
  let s' := run sasl_step mid s in
  enabled_mechanisms s' = ms ∧ state s' ∈ [CHOSEN; AUTHENTICATING] ∧ mechanism s' = mechanism s.
Proof.
  intros Hms Hst Hmid. revert s Hms Hst. induction Hmid as [|o mid Ho Hmid IH]; intros s Hms Hst; [done|]. cbn [run foldl].
  assert (enabled_mechanisms (sasl_step o s) = ms ∧ state (sasl_step o s) ∈ [CHOSEN; AUTHENTICATING] ∧ mechanism (sasl_step o s) = mechanism s) as (H1 & H2 & H3).
  { destruct o as [m|last_round ok]; cbn [sasl_step].
    - unfold state_of. rewrite choose_run, bool_decide_eq_false_2; [|intros Hc; rewrite Hc in Hst; set_solver].
      rewrite bool_decide_eq_false_2; [done|]. by rewrite Hms.
    - rewrite exchange_state, bool_decide_eq_true_2 by done. cbn in Ho. subst last_round. cbn. split_and!; [done|set_solver|done]. }
  destruct (IH _ H1 H2) as (? & ? & H4). split_and!; [done..|by rewrite <- H3].
Qed.
(** The client gives the connection up when it fails: no mechanism is chosen in the failed state. *)
Definition gives_up (ms : list string) (ops : list sasl_op) : Prop :=
  ∀ pre m post, ops = pre ++ Choose m :: post → state (run sasl_step pre (new ms)) ≠ FAILED.

Lemma may_serve_run s request :
  may_serve s request = if bool_decide (state s = COMPLETE) then Ok ("'" +:+ request +:+ "' authorized to proceed") else Err Invalid.
Proof. unfold may_serve. by case_bool_decide. Qed.

(** an accepted choice, unfinished rounds and a last round that succeeds complete the handshake *)
Lemma attempt_completes ms pre m mid post : m ∈ ms → Forall (unfinished ms) mid →
  state (run sasl_step (pre ++ Choose m :: mid ++ Exchange true true :: post) (new ms)) = COMPLETE.
Proof.
  intros Hm Hmid. rewrite run_app. set (s0 := run sasl_step pre (new ms)).
  destruct (decide (state s0 = COMPLETE)) as [Hc0|Hc0]; [by rewrite complete_stays|].
  pose proof (sasl_mechanisms _ _ _ (sasl_run_inv ms pre)) as Hms0. fold s0 in Hms0.
  set (s1 := mk ms CHOSEN m (rounds s0)). assert (sasl_step (Choose m) s0 = s1) as Hs1.
  { cbn [sasl_step]. unfold state_of. by rewrite choose_run, bool_decide_eq_false_2, Hms0, bool_decide_eq_true_2. }
  change (state (run sasl_step (mid ++ Exchange true true :: post) (sasl_step (Choose m) s0)) = COMPLETE). rewrite Hs1, run_app.
  destruct (unfinished_stays ms mid s1) as (_ & Hst & _); [done|cbn; set_solver|done|].
  set (s2 := run sasl_step mid s1) in *.
  assert (state (sasl_step (Exchange true true) s2) = COMPLETE) as Hc.
  { cbn [sasl_step]. by rewrite exchange_state, bool_decide_eq_true_2. }
  change (state (run sasl_step post (sasl_step (Exchange true true) s2)) = COMPLETE). by rewrite complete_stays.
Qed.

Lemma exchange_refused s last_round ok : state s ∉ [CHOSEN; AUTHENTICATING] → exchange last_round ok s = (s, Err Invalid).
Proof. intros Hs. unfold exchange. rewrite bind_get, bind_raise_if. by rewrite (bool_decide_eq_false_2 (_ ∈ _)). Qed.
End handshake.

(** C31 (safety): no request is served before authentication.  After any sequence of choices and exchanges [may_serve]
    answers or raises [Invalid], and it answers only if, at some point, the client chose the enabled mechanism the session
    holds and the exchanges that followed the choice, with nothing in between but unfinished rounds and refused
    choices, ended with a last round that succeeded; and from then on nothing changes the session, a second
    choice being fenced.  A client that gives the connection up when its authentication fails is served exactly if it
    authenticated so.  In the start, complete and failed states every exchange raises [Invalid] and changes nothing, and a
    mechanism the broker did not enable is never accepted. *)
Theorem sasl_serves_authenticated (mechanisms : list string) (ops : list sasl_op) (request : string) :
  let s := run sasl_step ops (SaslHandshake.new mechanisms) in
  let served := ∃ answer, SaslHandshake.may_serve s request = Ok answer in
  (¬ served → SaslHandshake.may_serve s request = Err Invalid) ∧
  (served → authenticated mechanisms ops (SaslHandshake.mechanism s) ∧ SaslHandshake.mechanism s ∈ mechanisms ∧
    (∀ m, SaslHandshake.choose m s = (s, Err Fenced)) ∧ ∀ later, run sasl_step later s = s) ∧
  (gives_up mechanisms ops → served ↔ ∃ m, authenticated mechanisms ops m) ∧
  (SaslHandshake.state s ∈ [START; COMPLETE; FAILED] → ∀ last_round ok, SaslHandshake.exchange last_round ok s = (s, Err Invalid)) ∧
  (∀ m, m ∉ mechanisms → SaslHandshake.choose m s
     = (s, Err (if bool_decide (SaslHandshake.state s = COMPLETE) then Fenced else Invalid))).
Proof.
  intros s served. pose proof (sasl_run_inv mechanisms ops) as [Hms Hst Hstarted Hcomplete]. fold s in Hms, Hst, Hstarted, Hcomplete.
  assert (served ↔ SaslHandshake.state s = COMPLETE) as Hserve.
  { unfold served. rewrite may_serve_run. case_bool_decide; naive_solver. }
  split_and!.
  - intros Hno. rewrite may_serve_run. rewrite Hserve in Hno. by rewrite bool_decide_eq_false_2.
  - rewrite Hserve. intros Hc. split_and!; [by apply Hcomplete| | |].
    + destruct (Hcomplete Hc) as (? & ? & _ & ? & ? & _ & ? & _). done.
    + intros m. rewrite choose_run. by rewrite bool_decide_eq_true_2.
    + intros later. by apply complete_stays.
  - intros _. rewrite Hserve. split; [intros Hc; eexists; by apply Hcomplete|].
    intros (m & pre & post & -> & pre' & mid & -> & Hm & Hmid). unfold s. rewrite <- app_assoc. by apply attempt_completes.
  - rewrite !elem_of_cons. intros Hin last_round ok. apply exchange_refused.
    destruct Hin as [->|[->|[->|[]%elem_of_nil]]]; apply (bool_decide_unpack _); vm_compute; exact I.
  - intros m Hm. rewrite choose_run, Hms. case_bool_decide; [done|]. by rewrite bool_decide_eq_false_2.
Qed.

Lemma sasl_serves_authenticated_witness :
  let ops := [Exchange true true; Choose "PLAIN"; Choose "SCRAM"; Exchange false true; Exchange true true; Choose "SCRAM"] in
  let s := run sasl_step ops (SaslHandshake.new ["SCRAM"; "GSSAPI"]) in
  SaslHandshake.may_serve s "produce" = Ok "'produce' authorized to proceed" ∧ SaslHandshake.mechanism s ∈ ["SCRAM"; "GSSAPI"].
Proof.
  intros ops s. assert (SaslHandshake.may_serve s "produce" = Ok "'produce' authorized to proceed") as Hs by (vm_compute; reflexivity).
  destruct (sasl_serves_authenticated ["SCRAM"; "GSSAPI"] ops "produce") as (_ & Hserved & _).
  split; [exact Hs|]. exact (proj1 (proj2 (Hserved (ex_intro _ _ Hs)))).
Defined.

(** A failure is not terminal: the client chooses again on the same connection, and is served. *)
Lemma failed_client_retries :
  SaslHandshake.may_serve (run sasl_step [Choose "PLAIN"; Exchange true false; Choose "PLAIN"; Exchange true true]
    (SaslHandshake.new ["PLAIN"])) "produce" = Ok "'produce' authorized to proceed".
Proof. reflexivity. Qed.

(** ** Delegation tokens *)

Section tokens.
Import DelegationToken.

Inductive token_op := Renew (now extend_to : Z) | Revoke.
Definition token_step (o : token_op) : t → t :=
  match o with Renew now extend_to => state_of (renew now extend_to) | Revoke => state_of revoke end.

Lemma token_renew_run now extend_to s : state_of (renew now extend_to) s =
  if revoked s || (expiry s <=? now) || (max_lifetime_at s <? extend_to) then s
  else mk (issued_at s) extend_to (max_lifetime_at s) (revoked s).
Proof.
  unfold state_of, renew. rewrite bind_get, bind_raise_if. destruct (revoked s) eqn:Hr; [done|]. rewrite bind_raise_if.
  destruct (_ <=? _); [done|]. rewrite bind_raise_if. destruct (_ <? _); [done|]. cbn. unfold set_expiry. by rewrite Hr.
Qed.
End tokens.

(** Also (invariant): a delegation token never outlives its maximum.  After any renewals and revocations of a token the
    constructor let through, its expiry is within the maximum lifetime, which never moves; it authenticates
    exactly at the moments it is usable, all of them before both; a revoked token stays revoked, whatever
    follows; and an expired token cannot be renewed at or after its expiry. *)
Theorem token_lifetime_bounded (issued expiry0 maximum : Z) (s0 : DelegationToken.t) (ops : list token_op) (now : Z)
    (Hmake : DelegationToken.make issued expiry0 maximum = Ok s0) :
  let s := run token_step ops s0 in
  DelegationToken.expiry s <= maximum ∧ DelegationToken.max_lifetime_at s = maximum ∧
  (is_ok (DelegationToken.authenticate s now) = true ↔ DelegationToken.is_usable s now = true) ∧
  (DelegationToken.is_usable s now = true → now < DelegationToken.expiry s ∧ now < maximum) ∧
  (Revoke ∈ ops → ∀ later t, is_ok (DelegationToken.authenticate (run token_step later s) t) = false) ∧
  (DelegationToken.expiry s <= now → ∀ e, state_of (DelegationToken.renew now e) s = s).
Proof.
  intros s. unfold DelegationToken.make in Hmake. destruct (Z.ltb_spec maximum expiry0) as [|Hle]; [done|]. injection Hmake as <-.
  assert (DelegationToken.expiry s <= maximum ∧ DelegationToken.max_lifetime_at s = maximum) as [He Hm].
  { unfold s. apply (run_invariant token_step (λ s, DelegationToken.expiry s <= maximum ∧ DelegationToken.max_lifetime_at s = maximum)); [|done].
    intros [n e|] w [H1 H2]; cbn [token_step]; [|done]. rewrite token_renew_run. destruct (_ || _) eqn:Hc; [done|]. cbn.
    apply orb_false_iff in Hc as [_ Hc%Z.ltb_ge]. lia. }
  assert (∀ w o, DelegationToken.revoked w = true → DelegationToken.revoked (token_step o w) = true) as Hrevoked.
  { intros w [n e|] Hw; cbn [token_step]; [|done]. rewrite token_renew_run, Hw. done. }
  assert (∀ l w, DelegationToken.revoked w = true → DelegationToken.revoked (run token_step l w) = true) as Hstay.
  { induction l as [|o l IH]; intros w Hw; [done|]. cbn. by apply IH, Hrevoked. }
  assert (∀ w t, is_ok (DelegationToken.authenticate w t) = DelegationToken.is_usable w t) as Hauth.
  { intros w t. unfold DelegationToken.authenticate, DelegationToken.is_usable. destruct (DelegationToken.revoked w); [done|].
    rewrite Z.ltb_antisym. by destruct (_ <=? _). }
  split_and!; [done..|by rewrite Hauth| | |].
  - unfold DelegationToken.is_usable. rewrite andb_true_iff, Z.ltb_lt. lia.
  - intros (l1 & l2 & Hops)%list_elem_of_split later t. rewrite Hauth. unfold DelegationToken.is_usable.
    rewrite Hstay; [done|]. unfold s. rewrite Hops, run_app. cbn [run foldl]. by apply Hstay.
  - intros Hexp e. rewrite token_renew_run, (proj2 (Z.leb_le _ _) Hexp). by rewrite orb_true_r.
Qed.
