(* ===== verification/Metrics.v ===== *)
(** * Metrics and sketches

    Lag and latency ([relay/lagalert.py], [relay/lagmonitor.py], [relay/lagtime.py], [relay/latency.py],
    [relay/producelatency.py], [relay/histogrammerge.py], [relay/linger.py], [relay/hotpartition.py],
    [relay/timestamptype.py]), sketches ([relay/countminsketch.py], [relay/hyperloglog.py], [relay/reservoirsample.py]) and
    rendezvous hashing ([relay/rendezvoushash.py]).  The interpreter's string hash, which changes from run to run, and the
    rolls of the reservoir are arguments. *)

From Stdlib Require Import Strings.Byte Strings.Ascii.
From Stdlib Require Import Floats.SpecFloat.
From S2P Require Import Prelude PyDict PyBytes PyFloat.

Module lagalert.
Module LagAlerter.
(** [relay/lagalert.py] class LagAlerter *)
Record t := mk { lag_floor : Z; window : Z; samples : list (Z * Z); }.
Definition set_samples (v : list (Z * Z)) (self : t) : t := mk (lag_floor self) (window self) v.
(** [relay/lagalert.py] LagAlerter.__post_init__ *)
Definition make (lag_floor : Z) (window : Z) : result t :=
  if window <? 2 then Err Invalid else
  Ok (mk lag_floor window []).
(** [relay/lagalert.py] LagAlerter.observe *)
Definition observe (tick : Z) (lag : Z) : act t unit :=
  self ← get;
  b ← pure_of (if negb (bool_decide (samples self = [])) then x ← py_index (samples self) (-1); Ok (tick <=? x.1) else Ok false);
  raise_if (b : bool) Invalid;;
  raise_if (lag <? 0) Invalid;;
  put (set_samples (samples self ++ [(tick, lag)]) self);;
  self ← get;
  (if window self <? zlen (samples self) then
     x ← pure_of (py_index (samples self) 0);
     put (set_samples (drop 1 (samples self)) self)
   else
     mret ()).
(** [relay/lagalert.py] LagAlerter.trend *)
Definition trend (self : t) : result float :=
  if zlen (samples self) <? 2 then Err Invalid else
  first ← py_index (samples self) 0;
  last ← py_index (samples self) (-1);
  let '(t0, l0) := first in
  let '(t1, l1) := last in
  z_truediv (l1 - l0) (t1 - t0).
(** [relay/lagalert.py] LagAlerter.evaluate *)
Definition evaluate (self : t) : result string :=
  x ← py_index (samples self) (-1);
  let current := x.2 in
  slope ← trend self;
  if current <? lag_floor self then
    Ok "no alert: lag is below the floor, negligible"
  else
  if f_le slope f0 then
    Ok ("no alert: lag " +:+ zs current +:+ " is high but draining at " +:+ fmt_fixed 1 slope
          +:+ "/tick, a system recovering, no human needed")
  else
  q ← f_div (of_Z current) slope;
  drains_in ← f_int q;
  Ok ("ALERT: lag " +:+ zs current +:+ " growing at " +:+ fmt_fixed 1 slope
        +:+ "/tick, clears in about " +:+ zs drains_in
        +:+ " tick(s) only if the trend reverses; not draining, and a backlog that grows unbounded exhausts retention and turns latency into loss").
End LagAlerter.
End lagalert.
Import lagalert.

Module lagmonitor.
Module LagMonitor.
(** [relay/lagmonitor.py] class LagMonitor *)
Record t := mk { samples : list (Z * Z); }.
Definition set_samples (v : list (Z * Z)) (self : t) : t := mk v.
Definition new : t := mk [].
(** [relay/lagmonitor.py] LagMonitor.observe *)
Definition observe (tick : Z) (lag : Z) : act t unit :=
  raise_if (lag <? 0) Invalid;;
  self ← get;
  b ← pure_of (if negb (bool_decide (samples self = [])) then x ← py_index (samples self) (-1); Ok (tick <=? x.1) else Ok false);
  raise_if (b : bool) Invalid;;
  put (set_samples (samples self ++ [(tick, lag)]) self).
(** [relay/lagmonitor.py] LagMonitor.drain_rate *)
Definition drain_rate (self : t) : result float :=
  if zlen (samples self) <? 2 then Err Invalid else
  x ← py_index (samples self) 0;
  let '(first_tick, first_lag) := x in
  x1 ← py_index (samples self) (-1);
  let '(last_tick, last_lag) := x1 in
  z_truediv (last_lag - first_lag) (last_tick - first_tick).
(** [relay/lagmonitor.py] LagMonitor.verdict *)
Definition verdict (self : t) : result string :=
  if zlen (samples self) <? 2 then Err Invalid else
  slope ← drain_rate self;
  x ← py_index (samples self) (-1);
  let current := x.2 in
  if f_le slope f0 then
    if current =? 0 then
      Ok "lag is zero; the consumer is caught up"
    else
    if f_eq slope f0 then
      Ok ("lag " +:+ zs current +:+ ", flat; holding steady, not a page")
    else
    q ← f_div (of_Z current) (f_neg slope);
    ticks_to_empty ← f_int q;
    Ok ("lag " +:+ zs current +:+ ", draining, empty in about " +:+ zs ticks_to_empty
          +:+ " tick(s); a shrug, not a page")
  else
  Ok ("lag " +:+ zs current +:+ ", growing at " +:+ fmt_fixed 0 slope
        +:+ "/tick; the consumer is losing the race and never empties, which is a page").
(** [relay/lagmonitor.py] LagMonitor.should_page *)
Definition should_page (self : t) : result bool :=
  if zlen (samples self) <? 2 then
    Ok false
  else
  r ← drain_rate self;
  Ok (f_lt f0 r).
End LagMonitor.
End lagmonitor.
Import lagmonitor.

Module lagtime.
Module LagReading.
(** [relay/lagtime.py] class LagReading *)
Record t := mk { end_offset : Z; consumed_offset : Z; end_timestamp : Z; consumed_timestamp : Z; }.
(** [relay/lagtime.py] LagReading.__post_init__ *)
Definition make (end_offset : Z) (consumed_offset : Z) (end_timestamp : Z) (consumed_timestamp : Z) : result t :=
  if end_offset <? consumed_offset then Err Invalid else
  if end_timestamp <? consumed_timestamp then Err Invalid else
  Ok (mk end_offset consumed_offset end_timestamp consumed_timestamp).
(** [relay/lagtime.py] LagReading.offset_lag *)
Definition offset_lag (self : t) : Z :=
  end_offset self - (consumed_offset self).
(** [relay/lagtime.py] LagReading.time_lag *)
Definition time_lag (self : t) : Z :=
  end_timestamp self - (consumed_timestamp self).
(** [relay/lagtime.py] LagReading.recency_note *)
Definition recency_note (self : t) : string :=
  let offset_lag := offset_lag self in
  let time_lag := time_lag self in
  if (0 <? offset_lag) && (time_lag =? 0) then
    zs offset_lag
          +:+ " record(s) behind but 0 time lag: behind on volume, current on recency, which for many uses is fine"
  else
  zs offset_lag +:+ " record(s) and " +:+ zs time_lag
        +:+ " time unit(s) behind; scale on whichever is growing, not the count alone".
End LagReading.
End lagtime.
Import lagtime.

Module latency.
Module LatencyHistogram.
(** [relay/latency.py] class LatencyHistogram *)
Record t := mk { bucket_ms : Z; counts : pydict Z Z; total : Z; }.
Definition set_counts (v : pydict Z Z) (self : t) : t := mk (bucket_ms self) v (total self).
Definition set_total (v : Z) (self : t) : t := mk (bucket_ms self) (counts self) v.
(** [relay/latency.py] LatencyHistogram.__post_init__ *)
Definition make (bucket_ms : Z) : result t :=
  if bucket_ms <? 1 then Err Invalid else
  Ok (mk bucket_ms [] 0).
(** [relay/latency.py] LatencyHistogram.observe *)
Definition observe (latency_ms : Z) : act t unit :=
  raise_if (latency_ms <? 0) Invalid;;
  self ← get;
  q ← pure_of (py_div latency_ms (bucket_ms self));
  let bucket := q * (bucket_ms self) in
  put (set_counts (d_set (counts self) bucket (d_getd (counts self) bucket 0 + 1)) self);;
  self ← get;
  put (set_total (total self + 1) self).
(** [relay/latency.py:54-58] LatencyHistogram.percentile: the loop, with what it has seen *)
Fixpoint percentile_walk (counts : pydict Z Z) (target : float) (seen : Z) (buckets : list Z) : result (option Z) :=
  match buckets with
  | [] => Ok None
  | bucket :: buckets =>
      v ← d_item counts bucket;
      if fz_le target (seen + v) then Ok (Some bucket) else percentile_walk counts target (seen + v) buckets
  end.
(** [relay/latency.py] LatencyHistogram.percentile *)
Definition percentile (self : t) (p : float) : result Z :=
  if negb ((f_lt f0 p) && (f_le p (of_Z 100))) then Err Invalid else
  if total self =? 0 then Err Invalid else
  target ← f_div (f_mul (of_Z (total self)) p) (of_Z 100);
  found ← percentile_walk (counts self) target 0 (py_sorted Z.le (d_keys (counts self)));
  match found with
  | Some bucket => Ok bucket
  | None =>
      match d_keys (counts self) with [] => Err ValueError | x :: l => Ok (py_max x l) end
  end.
(** [relay/latency.py] LatencyHistogram.mean *)
Definition mean (self : t) : result float :=
  if total self =? 0 then Err Invalid else
  xs ← mapM (λ '(bucket, count), q ← z_truediv (bucket_ms self) 2; Ok (f_mul (f_add (of_Z bucket) q) (of_Z count))) (counts self);
  let weighted := f_sum xs in
  f_div weighted (of_Z (total self)).
(** [relay/latency.py] LatencyHistogram.report *)
Definition report (self : t) : result string :=
  mean ← mean self;
  p99 ← percentile self (of_Z 99);
  let gap := if zf_le p99 (f_mul mean (of_Z 3)) then "healthy" else "hidden tail" in
  r ← percentile self (of_Z 50);
  r1 ← percentile self (f_dec 999 (-1));
  Ok ("mean " +:+ fmt_fixed 0 mean +:+ "ms, p50 " +:+ zs r +:+ "ms, p99 " +:+ zs p99
        +:+ "ms, p999 " +:+ zs r1 +:+ "ms (" +:+ gap +:+ ", " +:+ zs (bucket_ms self)
        +:+ "ms buckets); a mean far below its p99 is a tail a mean-only dashboard calls fine").
End LatencyHistogram.
End latency.
Import latency.

Module histogrammerge.
Module Histogram.
(** [relay/histogrammerge.py] class Histogram *)
Record t := mk { boundaries : list Z; counts : list Z; }.
(** [relay/histogrammerge.py] Histogram.__post_init__ *)
Definition make (boundaries : list Z) (counts : list Z) : result t :=
  if negb (zlen counts =? zlen boundaries) then Err Invalid else
  Ok (mk boundaries counts).
(** [relay/histogrammerge.py:54-58] Histogram.percentile: the loop *)
Fixpoint percentile_walk (target : float) (cumulative : Z) (l : list (Z * Z)) : option Z :=
  match l with
  | [] => None
  | (boundary, count) :: l =>
      if fz_le target (cumulative + count) then Some boundary else percentile_walk target (cumulative + count) l
  end.
(** [relay/histogrammerge.py] Histogram.percentile *)
Definition percentile (self : t) (p : float) : result Z :=
  if negb ((f_le f0 p) && (f_le p (of_Z 100))) then Err Invalid else
  let total := zsum id (counts self) in
  if total =? 0 then
    Ok 0
  else
  q ← f_div p (of_Z 100);
  let target := f_mul q (of_Z total) in
  if negb (zlen (boundaries self) =? zlen (counts self)) then
    (* [zip(..., strict=True)] *)
    match percentile_walk target 0 (zip (boundaries self) (counts self)) with
    | Some boundary => Ok boundary
    | None => Err ValueError
    end
  else
  match percentile_walk target 0 (zip (boundaries self) (counts self)) with
  | Some boundary => Ok boundary
  | None => py_index (boundaries self) (-1)
  end.
End Histogram.
(** [relay/histogrammerge.py] merge *)
Definition merge (histograms : list Histogram.t) : result Histogram.t :=
  if bool_decide (histograms = []) then Err Invalid else
  first ← py_index histograms 0;
  let boundaries := Histogram.boundaries first in
  r_fold histograms () (λ _ h,
    if negb (bool_decide (Histogram.boundaries h = boundaries)) then Err Invalid else
    Ok ());;
  summed ← mapM (λ i, xs ← mapM (λ h, x ← py_index (Histogram.counts h) i; Ok x) histograms; Ok (zsum id xs)) (seqZ 0 (zlen boundaries));
  Histogram.make boundaries summed.
(** [relay/histogrammerge.py] fleet_versus_naive *)
Definition fleet_versus_naive (histograms : list Histogram.t) (p : float) : result string :=
  r ← merge histograms;
  fleet ← Histogram.percentile r p;
  xs ← mapM (λ h, r ← Histogram.percentile h p; Ok r) histograms;
  naive ← z_truediv (zsum id xs) (zlen histograms);
  Ok ("fleet p" +:+ fmt_fixed 0 p +:+ " " +:+ zs fleet
        +:+ " from merged buckets; averaging the per-broker p" +:+ fmt_fixed 0 p +:+ "s would give "
        +:+ fmt_fixed 0 naive +:+ ", off by " +:+ fmt_fixed 0 (f_abs (f_sub (of_Z fleet) naive))
        +:+ ", worse when load is uneven").
End histogrammerge.
Import histogrammerge.

Module producelatency.
Module ProduceLatency.
(** [relay/producelatency.py] class ProduceLatency *)
Record t := mk { queue_ms : float; append_ms : float; follower_acks_ms : list float; }.
(** [relay/producelatency.py] ProduceLatency.__post_init__ *)
Definition make (queue_ms : float) (append_ms : float) (follower_acks_ms : list float) : result t :=
  if (f_lt queue_ms f0) || (f_lt append_ms f0) then Err Invalid else
  if existsb (λ t, f_lt t f0) follower_acks_ms then Err Invalid else
  Ok (mk queue_ms append_ms follower_acks_ms).
(** [relay/producelatency.py] ProduceLatency.replication_wait *)
Definition replication_wait (self : t) : float :=
  match follower_acks_ms self with [] => f0 | x :: l => foldl f_max x l end.
(** [relay/producelatency.py] ProduceLatency.latency *)
Definition latency (self : t) (acks_all : bool) : float :=
  let base := f_add (queue_ms self) (append_ms self) in
  if (acks_all : bool) then
    f_add base (replication_wait self)
  else
  base.
(** [relay/producelatency.py] ProduceLatency.dominant_stage *)
Definition dominant_stage (self : t) (acks_all : bool) : result string :=
  let stages := [("queue", queue_ms self); ("append", append_ms self)] in
  stages ← (if (acks_all : bool) then
     let stages := d_set stages "replication" (replication_wait self) in
     Ok stages
   else
     Ok stages);
  top ← py_max_key f_lt (λ k, d_getd stages k f0) (d_keys stages);
  let hints := [("queue", "an overloaded broker"); ("append", "slow disk or large batches"); ("replication", "a lagging follower")] in
  v ← d_item stages top;
  v1 ← d_item hints top;
  Ok (top +:+ " dominates (" +:+ fmt_fixed 1 v +:+ "ms), pointing at " +:+ v1).
(** [relay/producelatency.py] ProduceLatency.report *)
Definition report (self : t) (acks_all : bool) : result string :=
  let total := latency self acks_all in
  let mode := if acks_all then "acks=all" else "acks=leader" in
  r ← dominant_stage self acks_all;
  Ok (mode +:+ " latency " +:+ fmt_fixed 1 total +:+ "ms; " +:+ r
        +:+ "; the slowest follower, not the average, sets the commit time").
End ProduceLatency.
End producelatency.
Import producelatency.

Module linger.
Module LingerModel.
(** [relay/linger.py] class LingerModel *)
Record t := mk { records_per_tick : float; max_batch : Z; }.
(** [relay/linger.py] LingerModel.__post_init__ *)
Definition make (records_per_tick : float) (max_batch : Z) : result t :=
  if (f_le records_per_tick f0) || (max_batch <? 1) then Err Invalid else
  Ok (mk records_per_tick max_batch).
(** [relay/linger.py] LingerModel.batch_size_at *)
Definition batch_size_at (self : t) (linger : Z) : result Z :=
  if linger <? 0 then Err Invalid else
  n ← f_int (f_mul (records_per_tick self) (of_Z linger));
  let collected := n + 1 in
  Ok (Z.min collected (max_batch self)).
(** [relay/linger.py] LingerModel.marginal_gain *)
Definition marginal_gain (self : t) (linger : Z) : result Z :=
  r ← batch_size_at self (linger + 1);
  r1 ← batch_size_at self linger;
  Ok (r - r1).
(** [relay/linger.py:58-63] LingerModel.optimal_linger: the loop *)
Fixpoint linger_walk (self : t) (lingers : list Z) (best : Z) : result Z :=
  match lingers with
  | [] => Ok best
  | linger :: lingers =>
      n ← batch_size_at self linger;
      if max_batch self <=? n then Ok linger else
      gain ← marginal_gain self linger;
      linger_walk self lingers (if 1 <=? gain then linger + 1 else best)
  end.
(** [relay/linger.py] LingerModel.optimal_linger *)
Definition optimal_linger (self : t) (max_linger : Z) : result Z :=
  let best := 0 in
  linger_walk self (seqZ 0 (max_linger + 1)) best.
(** [relay/linger.py] LingerModel.report *)
Definition report (self : t) (max_linger : Z) : result string :=
  knee ← optimal_linger self max_linger;
  at_zero ← batch_size_at self 0;
  at_knee ← batch_size_at self knee;
  Ok ("knee at linger " +:+ zs knee +:+ ": batch grows " +:+ zs at_zero +:+ " -> "
        +:+ zs at_knee
        +:+ "; zero linger leaves free batching on the table at high rates, and large linger buys latency the record rate cannot convert into batches").
End LingerModel.
End linger.
Import linger.

Module hotpartition.
Module HotPartitionDetector.
(** [relay/hotpartition.py] class HotPartitionDetector *)
Record t := mk { counts : pydict Z Z; multiple : float; }.
(** [relay/hotpartition.py] HotPartitionDetector.__post_init__ *)
Definition make (multiple : float) : result t :=
  if f_le multiple (of_Z 1) then Err Invalid else
  Ok (mk [] multiple).
(** [relay/hotpartition.py] HotPartitionDetector.total *)
Definition total (self : t) : Z :=
  zsum id (d_values (counts self)).
(** [relay/hotpartition.py] HotPartitionDetector.even_share *)
Definition even_share (self : t) : result float :=
  if bool_decide (counts self = []) then
    Ok f0
  else
  z_truediv (total self) (zlen (counts self)).
(** [relay/hotpartition.py] HotPartitionDetector.hot_partitions *)
Definition hot_partitions (self : t) : result (list Z) :=
  even ← even_share self;
  if f_eq even f0 then
    Ok []
  else
  Ok ((λ '(p, c), p) <$> (py_filter (λ '(p, c), fz_le (f_mul even (multiple self)) c) (counts self))).
(** [relay/hotpartition.py] HotPartitionDetector.report *)
Definition report (self : t) : result string :=
  if bool_decide (counts self = []) then
    Ok "no traffic observed"
  else
  hottest ← py_max_key Z.ltb (λ k, d_getd (counts self) k 0) (d_keys (counts self));
  v ← d_item (counts self) hottest;
  r ← even_share self;
  ratio ← f_div (of_Z v) r;
  r1 ← hot_partitions self;
  if negb (bool_decide (hottest ∈ r1)) then
    Ok ("partition " +:+ zs hottest +:+ " at " +:+ fmt_fixed 1 ratio
          +:+ "x the even share; balanced enough")
  else
  Ok ("partition " +:+ zs hottest +:+ " at " +:+ fmt_fixed 1 ratio
        +:+ "x the even share, a hot partition from a skewed key; the fix is a better key or partitioner, not more partitions the hot key would still skip").
End HotPartitionDetector.
End hotpartition.
Import hotpartition.

Module timestamptype.
(** [relay/timestamptype.py] CREATE_TIME *)
Definition CREATE_TIME : string := "create-time".
(** [relay/timestamptype.py] LOG_APPEND_TIME *)
Definition LOG_APPEND_TIME : string := "log-append-time".
(** [relay/timestamptype.py] TYPES *)
Definition TYPES : list string := [CREATE_TIME; LOG_APPEND_TIME].
Module TimestampChoice.
(** [relay/timestamptype.py] class TimestampChoice *)
Record t := mk { timestamp_type : string; }.
(** [relay/timestamptype.py] TimestampChoice.__post_init__ *)
Definition make (timestamp_type : string) : result t :=
  if negb (bool_decide (timestamp_type ∈ TYPES)) then Err Invalid else
  Ok (mk timestamp_type).
End TimestampChoice.
(** [relay/timestamptype.py] retention_clock *)
Definition retention_clock (choice : TimestampChoice.t) : string :=
  if bool_decide (TimestampChoice.timestamp_type choice = CREATE_TIME) then
    "retention ages by the producer's clock; a wrong or replaying producer can make records delete instantly or never"
  else
  "retention ages by the broker's clock, immune to producer skew, at the cost of the producer's intended timestamp".
(** [relay/timestamptype.py] suitable_for_event_time *)
Definition suitable_for_event_time (choice : TimestampChoice.t) : string :=
  if bool_decide (TimestampChoice.timestamp_type choice = CREATE_TIME) then
    "suitable for event-time windowing, which needs when events happened, not when the broker filed them; accept the clock-skew exposure"
  else
  "unsuitable for event-time windowing: the broker's file time is not the event time, and a window built on it aggregates the wrong axis".
(** [relay/timestamptype.py] switch_warning *)
Definition switch_warning (old : TimestampChoice.t) (new : TimestampChoice.t) : string :=
  if bool_decide (TimestampChoice.timestamp_type old = TimestampChoice.timestamp_type new) then
    "no change"
  else
  "switching " +:+ (TimestampChoice.timestamp_type old) +:+ " -> "
        +:+ (TimestampChoice.timestamp_type new)
        +:+ " changes time-based query results with no error; a query gets a different clock than before, the hardest failure to debug because nothing breaks".
End timestamptype.
Import timestamptype.

Module countminsketch.
Module CountMinSketch.
Section CountMinSketch.
(** [hash(s)] of the interpreter, which differs from one run of it to the next *)
Variable hash : string → Z.
(** [relay/countminsketch.py] class CountMinSketch *)
Record t := mk { rows : Z; cols : Z; grid : list (list Z); }.
Definition set_grid (v : list (list Z)) (self : t) : t := mk (rows self) (cols self) v.
(** [relay/countminsketch.py] CountMinSketch.__post_init__ *)
Definition __post_init__ : act t unit :=
  self ← get;
  raise_if ((rows self <? 1) || (cols self <? 1)) Invalid;;
  (if bool_decide (grid self = []) then put (set_grid ((λ _, replicate (Z.to_nat (cols self)) 0) <$> (seqZ 0 (rows self))) self) else mret ()).
(** [relay/countminsketch.py] CountMinSketch.__post_init__ *)
Definition make (rows : Z) (cols : Z) : result t := construct __post_init__ (mk rows cols []).
(** [relay/countminsketch.py] CountMinSketch._positions *)
Definition _positions (self : t) (key : string) : result (list Z) :=
  mapM (λ r, py_mod (Z.land (hash (zs r +:+ ":" +:+ key)) 0x7FFFFFFF) (cols self)) (seqZ 0 (rows self)).
(** [relay/countminsketch.py] CountMinSketch.add *)
Definition add (key : string) (count : Z) : act t unit :=
  raise_if (count <? 1) Invalid;;
  self ← get;
  r ← pure_of (_positions self key);
  for_each (imap (λ i x, (Z.of_nat i, x)) r) (λ '(r, pos),
    self ← get;
    row ← pure_of (py_index (grid self) r);
    v ← pure_of (py_index row pos);
    row ← pure_of (py_setitem row pos (v + count));
    grid ← pure_of (py_setitem (grid self) r row);
    put (set_grid grid self)
);;
  mret ().
(** [relay/countminsketch.py] CountMinSketch.estimate *)
Definition estimate (self : t) (key : string) : result Z :=
  r ← _positions self key;
  xs ← mapM (λ '(r, pos), x ← py_index (grid self) r; x1 ← py_index x pos; Ok x1) (imap (λ i x, (Z.of_nat i, x)) r);
  match xs with [] => Err ValueError | x :: l => Ok (py_min x l) end.
(** [relay/countminsketch.py] CountMinSketch.is_heavy_hitter *)
Definition is_heavy_hitter (self : t) (key : string) (threshold : Z) : result bool :=
  r ← estimate self key;
  Ok (threshold <=? r).
(** [relay/countminsketch.py] CountMinSketch.report *)
Definition report (self : t) : string :=
  zs (rows self) +:+ "x" +:+ zs (cols self)
        +:+ " sketch, never underestimates; too few columns for the stream's cardinality overcounts until every key looks hot, defeating the purpose".
End CountMinSketch.
End CountMinSketch.
End countminsketch.
Import countminsketch.

Module reservoirsample.
Module Reservoir.
(** [relay/reservoirsample.py] class Reservoir *)
Record t := mk { size_ : Z; reservoir : list Z; seen : Z; }.
Definition set_reservoir (v : list Z) (self : t) : t := mk (size_ self) v (seen self).
Definition set_seen (v : Z) (self : t) : t := mk (size_ self) (reservoir self) v.
(** [relay/reservoirsample.py] Reservoir.__post_init__ *)
Definition make (size_ : Z) : result t :=
  if size_ <? 1 then Err Invalid else
  Ok (mk size_ [] 0).
(** [relay/reservoirsample.py] Reservoir.offer *)
Definition offer (item : Z) (roll : option (Z → Z)) : act t unit :=
  self ← get;
  put (set_seen (seen self + 1) self);;
  self ← get;
  if zlen (reservoir self) <? size_ self then
    put (set_reservoir (reservoir self ++ [item]) self)
  else
  let picker := default id roll in
  let j := picker (seen self) in
  if (0 <=? j) && (j <? size_ self) then
    l ← pure_of (py_setitem (reservoir self) j item);
    put (set_reservoir l self)
  else mret ().
(** [relay/reservoirsample.py] Reservoir.sample *)
Definition sample (self : t) : list Z :=
  reservoir self.
(** [relay/reservoirsample.py] Reservoir.fill_note *)
Definition fill_note (self : t) : string :=
  if zlen (reservoir self) <? size_ self then
    zs (zlen (reservoir self)) +:+ "/" +:+ zs (size_ self)
          +:+ " filled; the stream is shorter than the sample, so the sample is the whole stream and no sampling has happened yet"
  else
  "full at " +:+ zs (size_ self) +:+ "; each of " +:+ zs (seen self) +:+ " seen has equal odds".
End Reservoir.
End reservoirsample.
Import reservoirsample.

Module rendezvoushash.
Module RendezvousHash.
Section RendezvousHash.
(** [hash(s)] of the interpreter, which differs from one run of it to the next *)
Variable hash : string → Z.
(** [relay/rendezvoushash.py] class RendezvousHash *)
Record t := mk { nodes : gset string; }.
Definition set_nodes (v : gset string) (self : t) : t := mk v.
Definition new : t := mk (∅).
(** [relay/rendezvoushash.py] RendezvousHash._weight *)
Definition _weight (self : t) (key : string) (node : string) : Z :=
  Z.land (hash (key +:+ "@" +:+ node)) 0x7FFFFFFF.
(** [relay/rendezvoushash.py] RendezvousHash.place: equal weights go to the first node in the
    set's iteration order, which Python leaves open and the model fixes *)
Definition place (self : t) (key : string) : result string :=
  if bool_decide (nodes self = ∅) then Err Invalid else
  py_max_key Z.ltb (λ n, _weight self key n) (elements (nodes self)).
(** [relay/rendezvoushash.py] RendezvousHash.ranked *)
Definition ranked (self : t) (key : string) : list string :=
  py_sorted (key_ge (λ n, _weight self key n)) (elements (nodes self)).
(** [relay/rendezvoushash.py] RendezvousHash.add *)
Definition add (node : string) : act t unit :=
  self ← get;
  put (set_nodes ({[node]} ∪ (nodes self)) self).
(** [relay/rendezvoushash.py] RendezvousHash.remove *)
Definition remove (node : string) : act t unit :=
  self ← get;
  put (set_nodes ((nodes self) ∖ {[node]}) self).
(** [relay/rendezvoushash.py] RendezvousHash.moved_if_added *)
Definition moved_if_added (keys : list string) (new_node : string) : act t string :=
  self ← get;
  xs ← pure_of (mapM (λ k, r ← place self k; Ok (k, r)) keys);
  let before := d_of_list xs in
  add new_node;;
  self ← get;
  after ← pure_of (mapM (λ k, r ← place self k; old ← d_item before k; Ok (negb (bool_decide (r = old)))) keys);
  let moved := zlen (py_filter id after) in
  pct ← pure_of (if negb (bool_decide (keys = [])) then q ← z_truediv moved (zlen keys); Ok (f_mul q (of_Z 100)) else Ok f0);
  mret ("adding '" +:+ new_node +:+ "' moves " +:+ zs moved +:+ "/" +:+ zs (zlen keys) +:+ " key(s) (" +:+ fmt_fixed 0 pct
        +:+ "%); a small fraction is the minimal-disruption promise, a large one means the hash is not spreading keys as assumed").
End RendezvousHash.
End RendezvousHash.
End rendezvoushash.
Import rendezvoushash.

Module hyperloglog.
(** [relay/hyperloglog.py] _leading_zeros *)
Definition _leading_zeros (value : Z) (width : Z) : Z :=
  match first_some (seqZ 0 width) (λ i,
        if negb (Z.land value (Z.shiftl 1 (width - 1 - i)) =? 0) then
          Some i
        else
        None) with
  | Some r => r
  | None =>
      width
  end.
Module HyperLogLog.
Section HyperLogLog.
(** [hash(s)] of the interpreter, which differs from one run of it to the next *)
Variable hash : string → Z.
(** [relay/hyperloglog.py] class HyperLogLog *)
Record t := mk { registers : Z; _regs : list Z; }.
Definition set__regs (v : list Z) (self : t) : t := mk (registers self) v.
(** [relay/hyperloglog.py] HyperLogLog.__post_init__ *)
Definition __post_init__ : act t unit :=
  self ← get;
  raise_if ((registers self <? 1) || (negb (Z.land (registers self) (registers self - 1) =? 0))) Invalid;;
  (if bool_decide (_regs self = []) then put (set__regs (replicate (Z.to_nat (registers self)) 0) self) else mret ()).
(** [relay/hyperloglog.py] HyperLogLog.__post_init__ *)
Definition make (registers : Z) : result t := construct __post_init__ (mk registers []).
(** [n.bit_length()] of a positive integer *)
Definition bit_length (n : Z) : Z := Z.log2 n + 1.
(** [relay/hyperloglog.py] HyperLogLog.add *)
Definition add (item : string) : act t unit :=
  self ← get;
  let h := Z.land (hash item) 0xFFFFFFFF in
  let bucket_bits := bit_length (registers self) - 1 in
  let bucket := Z.land h (registers self - 1) in
  let rest := Z.shiftr h bucket_bits in
  let run := _leading_zeros rest (32 - bucket_bits) + 1 in
  old ← pure_of (py_index (_regs self) bucket);
  regs ← pure_of (py_setitem (_regs self) bucket (Z.max old run));
  put (set__regs regs self).
(** [2.0 ** e] *)
Definition f_dec_pow2 (e : Z) : float := binary_normalize prec emax 1 e false.
(** [relay/hyperloglog.py] HyperLogLog.estimate *)
Definition estimate (self : t) : result Z :=
  let m := registers self in
  q ← f_div (f_dec 1079 (-3)) (of_Z m);
  alpha ← f_div (f_dec 7213 (-4)) (f_add (of_Z 1) q);
  let denom := f_sum ((λ r, f_dec_pow2 (- r)) <$> _regs self) in
  raw ← f_div (f_mul (f_mul alpha (of_Z m)) (of_Z m)) denom;
  f_int raw.
(** [relay/hyperloglog.py] HyperLogLog.error_bound: [root] is [** 0.5], computed by the C library *)
Definition error_bound (root : float → float) (self : t) : result string :=
  rel ← f_div (f_dec 104 (-2)) (root (of_Z (registers self)));
  Ok ("~" +:+ fmt_fixed 1 (f_mul rel (of_Z 100)) +:+ "% relative error from " +:+ zs (registers self)
      +:+ " registers; the estimate is approximate, right to a few percent, not exact to the unit").
End HyperLogLog.
End HyperLogLog.
End hyperloglog.
Import hyperloglog.


(** ** The count-min sketch *)

Section sketch.
Import CountMinSketch.
Context (hash : string → Z) (n m : Z) (Hn : 1 <= n) (Hm : 1 <= m).

(** the column of a key in a row *)
Definition column (r : Z) (key : string) : Z := Z.land (hash (zs r +:+ ":" +:+ key)) 0x7FFFFFFF mod m.
(** the grid with a value in each cell *)
Definition grid_of (f : Z → Z → Z) : list (list Z) := (λ r, f r <$> seqZ 0 m) <$> seqZ 0 n.
(** what was added in a cell: the counts of the keys that fall there *)
Definition load (adds : list (string * Z)) (r p : Z) : Z := zsum snd (py_filter (λ a, column r a.1 =? p) adds).

Lemma column_range r key : 0 <= column r key < m.
Proof. apply Z.mod_pos_bound. lia. Qed.
Lemma grid_of_ext f g : (∀ r p, 0 <= r < n → 0 <= p < m → f r p = g r p) → grid_of f = grid_of g.
Proof. intros Heq. apply tab_ext. intros r Hr. apply tab_ext. intros p Hp. by apply Heq. Qed.
Lemma grid_index f r : 0 <= r < n → py_index (grid_of f) r = Ok (f r <$> seqZ 0 m).
Proof. apply (tab_index (λ r, f r <$> seqZ 0 m)). Qed.
Lemma grid_setitem f g r : 0 <= r < n →
  py_setitem (grid_of f) r (g <$> seqZ 0 m) = Ok (grid_of (λ r', if r' =? r then g else f r')).
Proof.
  intros Hr. unfold grid_of. rewrite (tab_setitem (λ r, f r <$> seqZ 0 m)) by done. f_equal. apply tab_ext. intros r' _.
  by destruct (r' =? r).
Qed.
Lemma sketch_positions_run self key : rows self = n → cols self = m →
  _positions hash self key = Ok ((λ r, column r key) <$> seqZ 0 n).
Proof.
  intros Hr Hc. unfold _positions. rewrite Hr, Hc. apply tab_mapM. intros i _. unfold py_mod.
  by rewrite (proj2 (Z.eqb_neq m 0)) by lia.
Qed.

Definition add_body (count : Z) : Z * Z → act t unit := λ '(r, pos),
    self ← get;
    row ← pure_of (py_index (grid self) r);
    v ← pure_of (py_index row pos);
    row ← pure_of (py_setitem row pos (v + count));
    grid ← pure_of (py_setitem (grid self) r row);
    put (set_grid grid self).

Lemma add_body_run count r p f : 0 <= r < n → 0 <= p < m →
  add_body count (r, p) (mk n m (grid_of f)) =
  (mk n m (grid_of (λ r' p', if (r' =? r) && (p' =? p) then f r p + count else f r' p')), Ok ()).
Proof.
  intros Hr Hp. unfold add_body. rewrite bind_get. cbn [grid rows cols].
  rewrite grid_index by done. rewrite bind_pure_of, tab_index by done. rewrite bind_pure_of, tab_setitem by done.
  rewrite bind_pure_of, grid_setitem by done. rewrite bind_pure_of. unfold set_grid. rewrite run_put. cbn [rows cols]. f_equal. f_equal.
  apply grid_of_ext. intros r' p' _ _. by destruct (Z.eqb_spec r' r) as [->|].
Qed.

Lemma add_rows_run key count (l : list Z) f : NoDup l → (∀ r, r ∈ l → 0 <= r < n) →
  for_each ((λ r, (r, column r key)) <$> l) (add_body count) (mk n m (grid_of f)) =
  (mk n m (grid_of (λ r p, if bool_decide (r ∈ l) && (column r key =? p) then f r p + count else f r p)), Ok ()).
Proof.
  revert f. induction l as [|r l IH]; intros f Hnd Hl; [done|].
  apply NoDup_cons in Hnd as [Hr Hnd]. cbn [fmap list_fmap for_each].
  rewrite bind_run, add_body_run by (try apply column_range; apply Hl; left).
  rewrite IH; [|done|intros ? ?; apply Hl; by right]. f_equal. f_equal. apply grid_of_ext. intros r' p _ _.
  destruct (Z.eqb_spec r' r) as [->|Hne].
  - rewrite (bool_decide_eq_false_2 (r ∈ l)) by done. rewrite bool_decide_eq_true_2 by left. cbn [andb].
    rewrite (Z.eqb_sym p). by destruct (Z.eqb_spec (column r key) p) as [->|].
  - cbn [andb]. assert (bool_decide (r' ∈ r :: l) = bool_decide (r' ∈ l)) as ->; [|done].
    apply bool_decide_ext. rewrite elem_of_cons. naive_solver.
Qed.

Lemma sketch_add_run key count f : 1 <= count →
  add hash key count (mk n m (grid_of f)) =
  (mk n m (grid_of (λ r p, if column r key =? p then f r p + count else f r p)), Ok ()).
Proof.
  intros Hc. unfold add. rewrite bind_raise_if, (proj2 (Z.ltb_ge _ _)) by lia. rewrite bind_get.
  rewrite sketch_positions_run by done. rewrite bind_pure_of, bind_run.
  rewrite (tab_imap (λ r, column r key) (λ i x, (i, x))).
  change (for_each _ _) with (for_each ((λ r, (r, column r key)) <$> seqZ 0 n) (add_body count)).
  rewrite add_rows_run by (try apply NoDup_seqZ; intros r Hr%elem_of_seqZ; lia). rewrite run_ret. f_equal. f_equal.
  apply grid_of_ext. intros r p Hr _. by rewrite bool_decide_eq_true_2 by (apply elem_of_seqZ; lia).
Qed.

Lemma adds_run adds : (∀ a, a ∈ adds → 1 <= a.2) →
  run (λ '(k, c), state_of (add hash k c)) adds (mk n m (grid_of (λ _ _, 0))) = mk n m (grid_of (load adds)).
Proof.
  induction adds as [|[k c] adds IH] using rev_ind; intros Hpos; [done|].
  rewrite run_app, IH by (intros; apply Hpos, elem_of_app; by left). cbn [run foldl]. unfold state_of.
  rewrite sketch_add_run by (apply (Hpos (k, c)), elem_of_app; right; left). cbn [fst]. f_equal. apply grid_of_ext. intros r p _ _.
  unfold load. rewrite py_filter_app, zsum_app, py_filter_cons, py_filter_nil. cbn [fst].
  destruct (column r k =? p); cbn; lia.
Qed.

Lemma estimate_run adds key :
  estimate hash (mk n m (grid_of (load adds))) key =
  Ok (py_min (load adds 0 (column 0 key)) ((λ r, load adds r (column r key)) <$> seqZ 1 (n - 1))).
Proof.
  unfold estimate. rewrite sketch_positions_run by done. cbn [mbind result_bind].
  rewrite (tab_imap (λ r, column r key) (λ i x, (i, x))). cbn [grid].
  assert (∀ l, (∀ r, r ∈ l → 0 <= r < n) →
    mapM (λ '(r, pos), x ← py_index (grid_of (load adds)) r; x1 ← py_index x pos; Ok x1) ((λ r, (r, column r key)) <$> l)
    = Ok ((λ r, load adds r (column r key)) <$> l)) as Hmap.
  { induction l as [|r l IH]; intros Hl; [done|]. cbn [fmap list_fmap mapM]. 
    rewrite grid_index by (apply Hl; left). cbn [mbind result_bind]. rewrite tab_index by apply column_range. cbn [mbind result_bind].
    by rewrite IH by (intros ? ?; apply Hl; by right). }
  rewrite Hmap by (intros r Hr%elem_of_seqZ; lia). cbn [mbind result_bind].
  rewrite (seqZ_cons 0 n) by lia. cbn [fmap list_fmap]. done.
Qed.

Lemma sketch_make : make n m = Ok (mk n m (grid_of (λ _ _, 0))).
Proof.
  unfold make, construct, __post_init__. rewrite bind_get, bind_raise_if. cbn [rows cols grid].
  rewrite (proj2 (orb_false_iff _ _)) by (split; apply Z.ltb_ge; lia). rewrite bool_decide_eq_true_2 by done.
  unfold set_grid. rewrite run_put. cbn [rows cols]. do 2 f_equal. apply tab_ext. intros r _. apply tab_replicate.
Qed.

(** the total added under one key *)
Definition true_count (adds : list (string * Z)) (key : string) : Z := zsum snd (py_filter (λ a, bool_decide (a.1 = key)) adds).

Lemma true_count_load adds key r : (∀ a, a ∈ adds → 1 <= a.2) → true_count adds key <= load adds r (column r key).
Proof.
  unfold true_count, load. induction adds as [|[k c] adds IH]; intros Hpos; [done|]. rewrite !py_filter_cons. cbn [fst].
  specialize (IH ltac:(intros; apply Hpos; by right)). pose proof (Hpos (k, c) ltac:(left)) as Hc. cbn in Hc.
  case_bool_decide as Hk.
  - subst k. rewrite Z.eqb_refl, !zsum_cons. lia.
  - destruct (_ =? _); rewrite ?zsum_cons; cbn; lia.
Qed.
Lemma load_alone adds key r :
  (∀ a, a ∈ adds → a.1 ≠ key → column r a.1 ≠ column r key) → load adds r (column r key) = true_count adds key.
Proof.
  intros Halone. unfold load, true_count. f_equal. apply filter_ext_in. intros a Ha. rewrite Z.eqb_eq, bool_decide_eq_true.
  split; [|by intros ->]. intros Heq. destruct (decide (a.1 = key)); [done|]. by destruct (Halone a Ha).
Qed.
End sketch.

(** C32 (bounds): the count-min sketch never underestimates.  Whatever the hash, after any sequence of valid additions
    the estimate of any key is defined and is the least, over the rows, of the total added by the keys
    that share its column there; so it is at least what was added under the key, at most everything that
    was added, and exact as soon as one row keeps the key apart from every other key added. *)
Theorem sketch_never_underestimates (hash : string → Z) (rows cols : Z) (adds : list (string * Z))
    (Hrows : 1 <= rows) (Hcols : 1 <= cols) (Hpos : ∀ a, a ∈ adds → 1 <= a.2) :
  ∃ s0, CountMinSketch.make rows cols = Ok s0 ∧
  let s := run (λ '(k, c), state_of (CountMinSketch.add hash k c)) adds s0 in
  ∀ key, ∃ e, CountMinSketch.estimate hash s key = Ok e ∧
    (∃ r, 0 <= r < rows ∧ e = load hash cols adds r (column hash cols r key)) ∧
    (∀ r, 0 <= r < rows → e <= load hash cols adds r (column hash cols r key)) ∧
    true_count adds key <= e <= zsum snd adds ∧
    (∀ r, 0 <= r < rows → (∀ a, a ∈ adds → a.1 ≠ key → column hash cols r a.1 ≠ column hash cols r key) →
      e = true_count adds key).
Proof.
  eexists. split; [by apply sketch_make|]. intros s key. unfold s. rewrite adds_run by done.
  eexists. split; [by apply estimate_run|].
  set (ld r := load hash cols adds r (column hash cols r key)). set (e := py_min _ _).
  assert (∃ r, 0 <= r < rows ∧ e = ld r) as (r & Hr & He).
  { assert (e ∈ ld 0 :: (ld <$> seqZ 1 (rows - 1))) as Hin by apply py_min_elem.
    apply elem_of_cons in Hin as [->|(r & -> & Hr%elem_of_seqZ)%list_elem_of_fmap]; [exists 0|exists r]; split; (lia || done). }
  assert (∀ r, 0 <= r < rows → e <= ld r) as Hle.
  { intros r' Hr'. apply py_min_le. destruct (decide (r' = 0)) as [->|]; [left|]. right. apply list_elem_of_fmap.
    exists r'. split; [done|]. apply elem_of_seqZ. lia. }
  split_and!; [by exists r|done| | |].
  - rewrite He. by apply true_count_load.
  - rewrite He. unfold ld, load. clear -Hpos. generalize (column hash cols r key). intros p.
    induction adds as [|a adds IH]; [done|]. rewrite py_filter_cons, zsum_cons.
    specialize (IH ltac:(intros; apply Hpos; by right)). pose proof (Hpos a ltac:(left)).
    destruct (_ =? _); rewrite ?zsum_cons; lia.
  - intros r' Hr' Halone. apply Z.le_antisymm.
    + rewrite <- (load_alone hash cols adds key r') by done. by apply Hle.
    + rewrite He. by apply true_count_load.
Qed.

Lemma sketch_never_underestimates_witness :
  ∃ s0, CountMinSketch.make 2 3 = Ok s0 ∧
  let s := run (λ '(k, c), state_of (CountMinSketch.add (λ s, Z.of_nat (String.length s)) k c)) [("a", 2); ("bb", 5)] s0 in
  ∀ key, ∃ e, CountMinSketch.estimate (λ s, Z.of_nat (String.length s)) s key = Ok e ∧
    (∃ r, 0 <= r < 2 ∧ e = load (λ s, Z.of_nat (String.length s)) 3 [("a", 2); ("bb", 5)] r (column (λ s, Z.of_nat (String.length s)) 3 r key)) ∧
    (∀ r, 0 <= r < 2 → e <= load (λ s, Z.of_nat (String.length s)) 3 [("a", 2); ("bb", 5)] r (column (λ s, Z.of_nat (String.length s)) 3 r key)) ∧
    true_count [("a", 2); ("bb", 5)] key <= e <= zsum snd [("a", 2); ("bb", 5)] ∧
    (∀ r, 0 <= r < 2 → (∀ a, a ∈ [("a", 2); ("bb", 5)] → a.1 ≠ key →
        column (λ s, Z.of_nat (String.length s)) 3 r a.1 ≠ column (λ s, Z.of_nat (String.length s)) 3 r key) →
      e = true_count [("a", 2); ("bb", 5)] key).
Proof.
  apply (sketch_never_underestimates (λ s, Z.of_nat (String.length s)) 2 3 [("a", 2); ("bb", 5)]); [lia|lia|].
  intros a [->|[->|[]%elem_of_nil]%elem_of_cons]%elem_of_cons; cbn; lia.
Defined.

(** ** Rendezvous hashing *)

Section rendezvous.
Import RendezvousHash.
Context (hash : string → Z).
Implicit Types s : RendezvousHash.t.

(** no two nodes have the same weight for the key *)
Definition no_ties (ns : gset string) (key : string) : Prop :=
  ∀ a b, a ∈ ns → b ∈ ns → _weight hash new key a = _weight hash new key b → a = b.

Definition heavier (key : string) (a b : string) : Prop := _weight hash new key b < _weight hash new key a.

Lemma ranked_elem_of s key x : x ∈ ranked hash s key ↔ x ∈ nodes s.
Proof. unfold ranked. by rewrite py_sorted_elem_of, elem_of_elements. Qed.

Lemma ranked_sorted s key : no_ties (nodes s) key → StronglySorted (heavier key) (ranked hash s key).
Proof.
  intros Hties. assert (Sorted (key_ge (λ n, _weight hash s key n)) (ranked hash s key)) as Hs by (apply py_sorted_Sorted, _).
  apply Sorted_StronglySorted in Hs; [|apply _].
  assert (NoDup (ranked hash s key)) as Hnd by (unfold ranked; rewrite py_sorted_Permutation; apply NoDup_elements).
  assert (∀ x, x ∈ ranked hash s key → x ∈ nodes s) as Hin by (intros x; apply ranked_elem_of).
  induction Hs as [|a l Hs IH Ha]; constructor.
  - apply IH; [by apply NoDup_cons in Hnd as [_ ?]|]. intros x Hx. apply Hin. by right.
  - rewrite Forall_forall in Ha |- *. intros b Hb. specialize (Ha b Hb). apply NoDup_cons in Hnd as [Hal _].
    unfold heavier. unfold key_ge in Ha. change (_weight hash s key) with (_weight hash new key) in Ha.
    destruct (Z.eq_dec (_weight hash new key a) (_weight hash new key b)) as [Heq|]; [|lia].
    apply Hties in Heq as ->; [done|apply Hin; left|apply Hin; by right].
Qed.

Lemma heavier_NoDup key l : StronglySorted (heavier key) l → NoDup l.
Proof.
  induction 1 as [|a l Hs IH Ha]; constructor; [|done]. intros Hal. rewrite Forall_forall in Ha. specialize (Ha a Hal).
  unfold heavier in Ha. lia.
Qed.

Lemma ranked_unique s key l : StronglySorted (heavier key) l → (∀ x, x ∈ l ↔ x ∈ nodes s) → ranked hash s key = l.
Proof.
  intros Hl Hin. apply py_sorted_strict; [apply _..| |].
  - eapply StronglySorted_weaken; [|done]. intros a b Hab. unfold heavier in Hab. unfold key_ge.
    change (_weight hash s key) with (_weight hash new key). lia.
  - apply NoDup_Permutation; [by eapply heavier_NoDup|apply NoDup_elements|]. intros x. by rewrite Hin, elem_of_elements.
Qed.

Lemma place_ranked s key : no_ties (nodes s) key →
  place hash s key = match ranked hash s key with [] => Err Invalid | p :: _ => Ok p end.
Proof.
  intros Hties. unfold place. case_bool_decide as Hempty.
  - unfold ranked. rewrite Hempty. by rewrite elements_empty.
  - destruct (py_max_key Z.ltb _ _) as [p|] eqn:Hp.
    + pose proof (py_max_key_elem _ _ _ _ Hp) as Hin%elem_of_elements. pose proof (py_max_key_ge _ _ _ Hp) as Hmax.
      pose proof (ranked_sorted s key Hties) as Hs.
      destruct (ranked hash s key) as [|q l] eqn:Hr.
      { apply (ranked_elem_of s key) in Hin. rewrite Hr in Hin. by apply elem_of_nil in Hin. }
      f_equal. assert (q ∈ nodes s) as Hq by (apply (ranked_elem_of s key); rewrite Hr; left).
      assert (p ∈ q :: l) as [->|Hpl]%elem_of_cons by (rewrite <- Hr; by apply ranked_elem_of); [done|].
      apply StronglySorted_inv in Hs as [_ Hall]. rewrite Forall_forall in Hall. specialize (Hall p Hpl). unfold heavier in Hall.
      specialize (Hmax q ltac:(by apply elem_of_elements)). cbn in Hmax. change (_weight hash s key) with (_weight hash new key) in Hmax. lia.
    + unfold py_max_key in Hp. destruct (elements (nodes s)) eqn:He; [|done]. by apply elements_empty_inv, leibniz_equiv in He.
Qed.

Lemma ranked_remove s key node : no_ties (nodes s) key →
  ranked hash (state_of (remove node) s) key = filter (.≠ node) (ranked hash s key).
Proof.
  intros Hties. apply ranked_unique.
  - apply StronglySorted_filter, ranked_sorted. done.
  - intros x. rewrite list_elem_of_filter, ranked_elem_of. cbn. set_solver.
Qed.
End rendezvous.

(** Also (functional): rendezvous hashing moves as little as it can.  Where no two nodes weigh the same for a key, the
    node of the key is the first of its ranking; removing a node takes just that node out of the ranking,
    so a key moves only if the removed node held it, and then to its second choice; and adding a node puts
    just that node into the ranking, so a key stays where it is or moves to the new node, which it does
    exactly if the new node outweighs the old one. *)
Theorem rendezvous_minimal_disruption (hash : string → Z) (s : RendezvousHash.t) (key node : string)
    (Hties : no_ties hash ({[node]} ∪ RendezvousHash.nodes s) key) :
  let added := state_of (RendezvousHash.add node) s in
  let removed := state_of (RendezvousHash.remove node) s in
  let place s := RendezvousHash.place hash s key in
  let ranked s := RendezvousHash.ranked hash s key in
  place s = match ranked s with [] => Err Invalid | p :: _ => Ok p end ∧
  ranked removed = filter (.≠ node) (ranked s) ∧
  (∀ p, place s = Ok p → p ≠ node → place removed = Ok p) ∧
  (∀ p q l, ranked s = p :: q :: l → p = node → place removed = Ok q) ∧
  (node ∉ RendezvousHash.nodes s → filter (.≠ node) (ranked added) = ranked s) ∧
  (∀ p, place s = Ok p → place added =
    Ok (if RendezvousHash._weight hash s key p <? RendezvousHash._weight hash s key node then node else p)).
Proof.
  intros added removed place ranked.
  assert (no_ties hash (RendezvousHash.nodes s) key) as Hold by (intros a b Ha Hb; apply Hties; set_solver).
  assert (no_ties hash (RendezvousHash.nodes added) key) as Hnew by done.
  assert (no_ties hash (RendezvousHash.nodes removed) key) as Hless by (intros a b Ha Hb; apply Hties; cbn in *; set_solver).
  assert (ranked removed = filter (.≠ node) (ranked s)) as Hremoved by by apply ranked_remove.
  assert (node ∉ RendezvousHash.nodes s → filter (.≠ node) (ranked added) = ranked s) as Hadded.
  { intros Hfresh. unfold ranked, added. rewrite <- ranked_remove by done. apply ranked_unique; [by apply ranked_sorted|].
    intros x. rewrite ranked_elem_of. cbn. set_solver. }
  split_and!; [by apply place_ranked|done| | |done|].
  - intros p Hp Hne. unfold place in *. rewrite place_ranked in Hp |- * by done. fold (ranked removed). rewrite Hremoved. fold (ranked s) in Hp.
    destruct (ranked s) as [|q l]; [done|]. injection Hp as ->. by rewrite filter_cons_True.
  - intros p q l Hr ->. unfold place. rewrite place_ranked by done. fold (ranked removed). rewrite Hremoved, Hr.
    pose proof (ranked_sorted hash s key Hold) as Hs%heavier_NoDup. change (NoDup (ranked s)) in Hs. rewrite Hr in Hs.
    apply NoDup_cons in Hs as [Hnode _]. rewrite filter_cons_False by tauto. rewrite filter_cons_True; [done|]. intros ->. apply Hnode. left.
  - intros p Hp. unfold place in *. unfold RendezvousHash.place in Hp |- *.
    case_bool_decide as Hempty; [done|].
    pose proof (py_max_key_elem _ _ _ _ Hp) as Hin%elem_of_elements. pose proof (py_max_key_ge _ _ _ Hp) as Hmax.
    rewrite bool_decide_eq_false_2 by (cbn; set_solver).
    destruct (py_max_key _ _ (elements (RendezvousHash.nodes added))) as [q|] eqn:Hq.
    + pose proof (py_max_key_elem _ _ _ _ Hq) as Hqin%elem_of_elements. pose proof (py_max_key_ge _ _ _ Hq) as Hqmax.
      f_equal. pose proof (Hqmax p ltac:(apply elem_of_elements; cbn; set_solver)) as Hpq.
      pose proof (Hqmax node ltac:(apply elem_of_elements; cbn; set_solver)) as Hnq.
      assert (p ∈ {[node]} ∪ RendezvousHash.nodes s ∧ node ∈ {[node]} ∪ RendezvousHash.nodes s) as [Hp' Hn'] by set_solver.
      change (RendezvousHash._weight hash added key) with (RendezvousHash._weight hash RendezvousHash.new key) in *.
      change (RendezvousHash._weight hash s key) with (RendezvousHash._weight hash RendezvousHash.new key) in *. cbn in Hpq, Hnq, Hmax.
      apply elem_of_union in Hqin as Hcase. destruct (Z.ltb_spec (RendezvousHash._weight hash RendezvousHash.new key p) (RendezvousHash._weight hash RendezvousHash.new key node)) as [Hlt|Hge].
      * destruct Hcase as [Hcase|Hqs]; [apply elem_of_singleton in Hcase|]; [done|]. specialize (Hmax q ltac:(by apply elem_of_elements)). lia.
      * destruct Hcase as [Hcase|Hqs]; [apply elem_of_singleton in Hcase as ->; symmetry; apply Hties; [done..|lia]|].
        specialize (Hmax q ltac:(by apply elem_of_elements)). apply Hties; [done..|lia].
    + unfold py_max_key in Hq. destruct (elements (RendezvousHash.nodes added)) eqn:He; [|done].
      apply elements_empty_inv, leibniz_equiv in He. cbn in He. set_solver.
Qed.

Lemma rendezvous_minimal_disruption_witness :
  let h (s : string) := Z.of_nat (String.length s) in
  let s := RendezvousHash.mk {["a"; "bb"]} in
  let added := state_of (RendezvousHash.add "ccc") s in
  let removed := state_of (RendezvousHash.remove "ccc") s in
  let place s := RendezvousHash.place h s "k" in
  let ranked s := RendezvousHash.ranked h s "k" in
  place s = match ranked s with [] => Err Invalid | p :: _ => Ok p end ∧
  ranked removed = filter (.≠ "ccc") (ranked s) ∧
  (∀ p, place s = Ok p → p ≠ "ccc" → place removed = Ok p) ∧
  (∀ p q l, ranked s = p :: q :: l → p = "ccc" → place removed = Ok q) ∧
  ("ccc" ∉ RendezvousHash.nodes s → filter (.≠ "ccc") (ranked added) = ranked s) ∧
  (∀ p, place s = Ok p → place added =
    Ok (if RendezvousHash._weight h s "k" p <? RendezvousHash._weight h s "k" "ccc" then "ccc" else p)).
Proof.
  apply (rendezvous_minimal_disruption (λ s, Z.of_nat (String.length s)) (RendezvousHash.mk {["a"; "bb"]}) "k" "ccc").
  intros a b Ha Hb. assert (∀ x : string, x ∈ ({["ccc"]} ∪ {["a"; "bb"]} : gset string) → x = "ccc" ∨ x = "a" ∨ x = "bb") as Hin by set_solver.
  destruct (Hin a Ha) as [ -> | [ -> | -> ]], (Hin b Hb) as [ -> | [ -> | -> ]]; vm_compute; intros; (reflexivity || discriminate).
Defined.

(** ** Merging histograms *)

Section histograms.
Notation hist := Histogram.t.
Notation bounds := Histogram.boundaries.
Notation counts := Histogram.counts.

(** a histogram the constructor lets through *)
Definition hist_ok (h : hist) : Prop := zlen (counts h) = zlen (bounds h).
Definition bucket (h : hist) (i : Z) : Z := default 0 (counts h !! Z.to_nat i).
(** the histogram of all the observations *)
Definition pooled (bs : list Z) (hs : list hist) : hist := Histogram.mk bs ((λ i, zsum (λ h, bucket h i) hs) <$> seqZ 0 (zlen bs)).

Lemma bucket_index h i : hist_ok h → 0 <= i < zlen (bounds h) → py_index (counts h) i = Ok (bucket h i).
Proof.
  unfold hist_ok, zlen, bucket. intros Hok Hi. destruct (lookup_lt_is_Some_2 (counts h) (Z.to_nat i)) as [x Hx]; [lia|].
  rewrite (py_index_nonneg _ _ x) by (lia || done). by rewrite Hx.
Qed.
Lemma hist_counts h : hist_ok h → counts h = bucket h <$> seqZ 0 (zlen (bounds h)).
Proof.
  unfold hist_ok, zlen. intros Hok. apply list_eq. intros k. rewrite list_lookup_fmap.
  destruct (decide (k < length (counts h))%nat) as [Hk|Hk].
  - rewrite lookup_seqZ_lt by lia. cbn. unfold bucket. replace (Z.to_nat (0 + Z.of_nat k)) with k by lia.
    by destruct (lookup_lt_is_Some_2 (counts h) k Hk) as [x ->].
  - rewrite lookup_seqZ_ge by lia. apply lookup_ge_None_2. lia.
Qed.
Lemma pooled_ok bs hs : hist_ok (pooled bs hs).
Proof.
  unfold hist_ok, pooled, zlen. cbn [Histogram.counts Histogram.boundaries]. rewrite length_fmap, length_seqZ. lia.
Qed.
Lemma pooled_bucket bs hs i : 0 <= i < zlen bs → bucket (pooled bs hs) i = zsum (λ h, bucket h i) hs.
Proof. intros Hi. unfold bucket at 1. cbn. by rewrite (tab_lookup (λ i, zsum (λ h, bucket h i) hs)). Qed.

Lemma zsum_id_fmap {A} (f : A → Z) l : zsum id (f <$> l) = zsum f l.
Proof. induction l as [|x l IH]; [done|]. cbn [fmap list_fmap]. by rewrite !zsum_cons, IH. Qed.
Lemma zsum_swap {A B} (f : A → B → Z) l k : zsum (λ x, zsum (f x) k) l = zsum (λ y, zsum (λ x, f x y) l) k.
Proof.
  induction l as [|x l IH]; [by induction k|]. rewrite zsum_cons, IH. clear IH. induction k as [|y k IH]; [done|].
  rewrite !zsum_cons, <- IH. lia.
Qed.
Lemma merge_run bs hs : hs ≠ [] → (∀ h, h ∈ hs → hist_ok h ∧ bounds h = bs) → merge hs = Ok (pooled bs hs).
Proof.
  intros Hne Hall. unfold merge. rewrite bool_decide_eq_false_2 by done.
  destruct hs as [|h0 hs]; [done|]. rewrite (py_index_nonneg _ 0 h0) by done. cbn [mbind result_bind].
  rewrite (proj2 (Hall h0 ltac:(left))).
  assert (∀ l, (∀ h, h ∈ l → h ∈ h0 :: hs) → r_fold l () (λ _ h, if negb (bool_decide (bounds h = bs)) then Err Invalid else Ok ()) = Ok ()) as Hcheck.
  { induction l as [|h l IH]; intros Hl; [done|]. cbn [r_fold]. rewrite bool_decide_eq_true_2 by apply Hall, Hl, list_elem_of_here.
    cbn. apply IH. intros h' Hh'. apply Hl. by right. }
  rewrite Hcheck by done. cbn [mbind result_bind].
  rewrite (tab_mapM _ (λ i, zsum (λ h, bucket h i) (h0 :: hs))).
  - cbn [mbind result_bind]. unfold Histogram.make. rewrite (proj2 (Z.eqb_eq _ _)); [done|]. apply (pooled_ok bs (h0 :: hs)).
  - intros i Hi. assert (∀ l, (∀ h, h ∈ l → h ∈ h0 :: hs) →
      mapM (λ h, x ← py_index (counts h) i; Ok x) l = Ok ((λ h, bucket h i) <$> l)) as Hmap.
    { induction l as [|h l IH]; intros Hl; [done|]. cbn [mapM]. destruct (Hall h (Hl h ltac:(left))) as [Hok <-].
      rewrite bucket_index by done. cbn. by rewrite IH by (intros h' Hh'; apply Hl; by right). }
    rewrite Hmap by done. cbn [mbind result_bind]. f_equal. apply zsum_id_fmap.
Qed.
End histograms.

(** Also (equivalence): merging histograms pools their observations.  Histograms over the same boundaries merge into
    the histogram whose every bucket is the sum of theirs, so the totals add up, the order of the brokers does
    not matter, and merging merged parts is merging the whole: the percentile of the fleet does not
    depend on how the merge was staged. *)
Theorem histogram_merge_pools (bs : list Z) (xs ys : list Histogram.t) (p : float)
    (Hxs : xs ≠ []) (Hys : ys ≠ []) (Hall : ∀ h, h ∈ xs ++ ys → hist_ok h ∧ Histogram.boundaries h = bs) :
  ∃ a b m, merge xs = Ok a ∧ merge ys = Ok b ∧ merge (xs ++ ys) = Ok m ∧
  merge [a; b] = Ok m ∧ merge (ys ++ xs) = Ok m ∧
  Histogram.percentile m p = (r ← merge [a; b]; Histogram.percentile r p) ∧
  (∀ i, 0 <= i < zlen bs → bucket m i = zsum (λ h, bucket h i) (xs ++ ys)) ∧
  zsum id (Histogram.counts m) = zsum (λ h, zsum id (Histogram.counts h)) (xs ++ ys).
Proof.
  assert (∀ l, (∀ h, h ∈ l → h ∈ xs ++ ys) → l ≠ [] → merge l = Ok (pooled bs l)) as Hrun.
  { intros l Hl Hne. apply merge_run; [done|]. intros h Hh. by apply Hall, Hl. }
  exists (pooled bs xs), (pooled bs ys), (pooled bs (xs ++ ys)).
  assert (merge [pooled bs xs; pooled bs ys] = Ok (pooled bs (xs ++ ys))) as Hparts.
  { rewrite (merge_run bs); [|done|].
    - f_equal. unfold pooled at 1. change (pooled bs (xs ++ ys)) with (Histogram.mk bs ((λ i, zsum (λ h, bucket h i) (xs ++ ys)) <$> seqZ 0 (zlen bs))).
      f_equal. apply tab_ext. intros i Hi. rewrite zsum_app, !zsum_cons. cbn [zsum foldr].
      rewrite !pooled_bucket by done. lia.
    - intros h [->|[->|[]%elem_of_nil]%elem_of_cons]%elem_of_cons; split; by try apply pooled_ok. }
  split_and!.
  - apply Hrun; [|done]. intros h Hh. apply elem_of_app. by left.
  - apply Hrun; [|done]. intros h Hh. apply elem_of_app. by right.
  - apply Hrun; [done|]. by destruct xs.
  - done.
  - rewrite Hrun; [|intros h; rewrite !elem_of_app; tauto|by destruct ys]. f_equal. unfold pooled. f_equal. apply tab_ext.
    intros i _. apply zsum_Permutation. by rewrite Permutation_app_comm.
  - by rewrite Hparts.
  - intros i Hi. by apply pooled_bucket.
  - assert (∀ h, h ∈ xs ++ ys → zsum id (Histogram.counts h) = zsum (bucket h) (seqZ 0 (zlen bs))) as Htot.
    { intros h Hh. destruct (Hall h Hh) as [Hok <-]. rewrite (hist_counts h Hok) at 1. apply zsum_id_fmap. }
    rewrite (zsum_ext _ _ _ Htot), zsum_swap. apply zsum_id_fmap.
Qed.
