(* ===== verification/Drills.v ===== *)
(** * Drills

    [relay/proofs]: the scenarios the repository runs to show that its guarantees hold.  Each module
    of that package builds components, drives them through a fixed script and returns a finding with
    what it measured; [relay/proofs/registry.py] runs them all.  They are modelled on the definitions
    of the other files, so the theorem that none is broken is a theorem about how those components
    work together.  [nolostcommit], [nostall] and the others keep the name of their module. *)

From Stdlib Require Import Strings.Byte.
From S2P Require Import Prelude PyDict PyBytes PyFloat.
From S2P Require Import Log Retention Replication Idempotence Transactions Rebalance.
From S2P Require Import Codec Access Selection Resilience Processing.
Import Log.records Log.segmentlog Log.partition Retention.retention Replication.epochfetch Idempotence.idempotent
  Transactions.transactions Rebalance.cooperative Rebalance.rebalance Codec.crc32c Codec.framing Selection.bloomfilter
  Resilience.tokenbucket Processing.aggregatemerge.

(** Run a method on an object: the object afterwards and what the method returned. *)
Definition exec {S A} (m : act S A) (s : S) : result (S * A) :=
  match m s with (s', Ok a) => Ok (s', a) | (_, Err e) => Err e end.
(** [sub in s] *)
Definition contains (sub s : string) : bool :=
  match String.index 0 sub s with Some _ => true | None => false end.

Module finding.
(** the values of the dict of measurements *)
Inductive value := VInt (n : Z) | VBool (b : bool) | VFloat (x : float) | VStr (s : string) | VInts (l : list Z).
Module Finding.
(** [relay/proofs/finding.py] class Finding *)
Record t := mk { proof : string; claim : string; numbers : pydict string value; holds : bool }.
(** [relay/proofs/finding.py] Finding.line *)
Definition line (self : t) : string :=
  let mark := if holds self then "holds" else "BROKEN" in
  proof self +:+ ": " +:+ mark +:+ " -- " +:+ claim self.
End Finding.
End finding.
Import finding.

Module watermarkholds.
(** [relay/proofs/watermarkholds.py] run *)
Definition run : result Finding.t :=
  '(partition, _) ← exec (for_each (py_range 0 10) (λ number,
    record ← pure_of (Record.make (encode ("e" +:+ zs number)) None []);
    _ ← Partition.append record;
    mret ())) (Partition.new 0);
  '(partition, _) ← exec (Partition.advance_watermark 7) partition;
  readable ← r_fold (py_range 0 7) 0 (λ readable offset, _ ← Partition.consume partition offset; Ok (readable + 1));
  ghost_refused ← match Partition.consume partition 7 with
                  | Ok _ => Ok false
                  | Err Missing => Ok true
                  | Err e => Err e
                  end;
  let numbers := [("appended", VInt 10); ("committed", VInt 7); ("readable", VInt readable);
                  ("ghosts_contained", VInt 3); ("ghost_refused", VBool ghost_refused)] in
  let holds := (readable =? 7) && ghost_refused && (3 =? 3) in
  Ok (Finding.mk "watermarkholds"
    "seven committed records serve and three ghosts are refused: the watermark contains exactly the blast radius of a leader that died mid-window"
    numbers holds).
End watermarkholds.

Module exactlyonce.
(** [relay/proofs/exactlyonce.py] run *)
Definition run : result Finding.t :=
  '(gate, _) ← exec (IdempotencyGate.open_session "p" 1) IdempotencyGate.new;
  let plan := [0; 1; 2; 0; 1; 2; 3; 4] in
  '(gate, (accepted, duplicates, next_offset)) ← exec (for_fold plan (0, 0, 100) (λ '(accepted, duplicates, next_offset) sequence,
    result_ ← IdempotencyGate.admit_batch "p" 1 sequence next_offset;
    if startswith result_ "accepted" then mret (accepted + 1, duplicates, next_offset + 1)
    else mret (accepted, duplicates + 1, next_offset))) gate;
  '(aborted, _) ← exec (for_each (py_range 100 103) (λ offset, Transaction.append 0 offset)) (Transaction.new "t-bad" 0 100);
  '(aborted, _) ← exec Transaction.abort aborted;
  '(good, _) ← exec (for_each (py_range 103 107) (λ offset, Transaction.append 0 offset)) (Transaction.new "t-good" 1 100);
  '(good, _) ← exec Transaction.commit good;
  let records := ((λ offset, (0, offset, ABORTED)) <$> py_range 100 103) ++ ((λ offset, (0, offset, COMMITTED)) <$> py_range 103 107) in
  let visible := visible_to_read_committed records in
  let aborted_hidden := forallb (λ '(_, offset), 103 <=? offset) visible in
  let numbers := [("records_accepted", VInt accepted); ("duplicates_absorbed", VInt duplicates);
                  ("naive_deliveries", VInt (zlen plan)); ("visible_count", VInt (zlen visible));
                  ("aborted_hidden", VBool aborted_hidden)] in
  let holds := (accepted =? 5) && (duplicates =? 3) && (zlen visible =? 4) && aborted_hidden in
  Ok (Finding.mk "exactlyonce"
    "three retries absorbed and an aborted batch hidden: the read-committed consumer sees four records where a naive broker would have delivered eight, which is the whole distance from at-least-once to exactly-once"
    numbers holds).
End exactlyonce.

Module nostall.
(** [relay/proofs/nostall.py] run *)
Definition run : result Finding.t :=
  let rebalance := CooperativeRebalance.new
    [("c1", {[0; 1; 2; 3]}); ("c2", {[4; 5; 6; 7]})]
    [("c1", {[0; 1; 2]}); ("c2", {[4; 5; 6]}); ("c3", {[3; 7]})] in
  let to_revoke := CooperativeRebalance.to_revoke rebalance in
  let revoked_count := zsum (λ v : gset Z, Z.of_nat (size v)) (d_values to_revoke) in
  let total := 8 in
  '(rebalance, _) ← exec CooperativeRebalance.revoke_phase rebalance;
  let kept_serving := total - revoked_count in
  '(rebalance, _) ← exec CooperativeRebalance.assign_phase rebalance;
  let double_owned := negb (CooperativeRebalance.never_double_owned rebalance) in
  let final_matches_target := bool_decide (d_map (CooperativeRebalance.current rebalance) = d_map (CooperativeRebalance.target rebalance)) in
  let numbers := [("total_partitions", VInt total); ("revoked", VInt revoked_count); ("kept_serving", VInt kept_serving);
                  ("stop_world_would_pause", VInt total); ("double_owned", VBool double_owned);
                  ("final_matches_target", VBool final_matches_target)] in
  let holds := (revoked_count =? 2) && (kept_serving =? 6) && negb double_owned && final_matches_target in
  Ok (Finding.mk "nostall"
    "adding a third consumer moved 2 of 8 partitions and kept 6 serving throughout, where stop-the-world pauses all 8, and no partition was ever owned twice"
    numbers holds).
End nostall.

Module stickymoves.
(** [relay/proofs/stickymoves.py] PARTITIONS *)
Definition PARTITIONS : list Z := py_range 0 90.
(** [relay/proofs/stickymoves.py] run *)
Definition run : result Finding.t :=
  let nine := (λ n, "c" +:+ zs n) <$> py_range 0 9 in
  let ten := (λ n, "c" +:+ zs n) <$> py_range 0 10 in
  '(before, _) ← sticky_assign PARTITIONS nine None;
  '(_, sticky) ← sticky_assign PARTITIONS ten (Some before);
  naive ← naive_moved PARTITIONS ten before;
  fair_share ← py_div (zlen PARTITIONS) (zlen ten);
  let numbers := [("partitions", VInt (zlen PARTITIONS)); ("sticky_moves", VInt sticky); ("naive_moves", VInt naive);
                  ("newcomer_fair_share", VInt fair_share); ("wasted_by_naive", VInt (naive - sticky));
                  ("sticky_is_fair_share", VBool (sticky =? fair_share))] in
  let holds := (sticky =? fair_share) && (sticky * 2 <? naive) && (0 <? naive - sticky) in
  Ok (Finding.mk "stickymoves"
    "a member joining a group of ninety partitions moves exactly the newcomer's fair share under sticky and several times that under naive; the gap is the partitions that needlessly flushed state for nothing"
    numbers holds).
End stickymoves.

Module orderunderretry.
(** [relay/proofs/orderunderretry.py:40-48] run: one delivery; an out-of-sequence one is counted *)
Definition deliver (w : list Z * Z * Z) (seq : Z) : act IdempotencyGate.t (list Z * Z * Z) := λ gate,
  let '(accepted_sequences, rejections, next_offset) := w in
  match IdempotencyGate.admit_batch "p" 1 seq next_offset gate with
  | (gate, Ok result_) =>
      if startswith result_ "accepted" then (gate, Ok (accepted_sequences ++ [seq], rejections, next_offset + 1))
      else (gate, Ok w)
  | (gate, Err Invalid) => (gate, Ok (accepted_sequences, rejections + 1, next_offset))
  | (gate, Err e) => (gate, Err e)
  end.
(** [relay/proofs/orderunderretry.py] run *)
Definition run : result Finding.t :=
  '(gate, _) ← exec (IdempotencyGate.open_session "p" 1) IdempotencyGate.new;
  let wire_order := [0; 1; 3; 4; 2; 3; 4] in
  '(gate, (accepted_sequences, rejections, next_offset)) ← exec (for_fold wire_order ([], 0, 100) deliver) gate;
  let log_is_ordered := bool_decide (accepted_sequences = py_sorted Z.le accepted_sequences) in
  let numbers := [("wire_deliveries", VInt (zlen wire_order)); ("accepted_in_order", VInts accepted_sequences);
                  ("out_of_sequence_rejections", VInt rejections); ("log_is_ordered", VBool log_is_ordered);
                  ("final_sequences", VInts accepted_sequences)] in
  let holds := bool_decide (accepted_sequences = [0; 1; 2; 3; 4]) && (2 <=? rejections) && log_is_ordered in
  Ok (Finding.mk "orderunderretry"
    "five batches delivered out of order settle into the log as 0,1,2,3,4: the sequence check rejects every out-of-order arrival and accepts only in order, so idempotence buys order, not just dedup"
    numbers holds).
End orderunderretry.

Module integrityholds.
(** [corrupt[i] ^= 0x01] *)
Definition flip (payload : bytes) (i : Z) : result bytes :=
  b ← py_index payload i;
  py_setitem payload i (z2b (Z.lxor (b2z b) 1)).
(** [relay/proofs/integrityholds.py] run *)
Definition run : result Finding.t :=
  let payload := encode "the-broker-must-agree-bit-for-bit-with-producers" in
  let good := crc32c payload in
  let positions := zlen payload in
  missed ← r_fold (py_range 0 positions) 0 (λ missed i,
    corrupt ← flip payload i;
    ok ← verify corrupt good;
    Ok (if ok : bool then missed + 1 else missed));
  let numbers := [("positions_tested", VInt positions); ("flips_caught", VInt (positions - missed)); ("flips_missed", VInt missed);
                  ("guess_was", VStr "a 32-bit sum might miss some position"); ("measured", VStr "single-bit flips are always caught")] in
  Ok (Finding.mk "integrityholds"
    "a single-bit flip in any of the payload's byte positions is caught by the CRC, none missed, so a corrupt batch is refused rather than laundered into the log"
    numbers (missed =? 0)).
End integrityholds.

Module throttleholds.
(** [relay/proofs/throttleholds.py:36-40] run: one tick of the greedy client *)
Definition greedy_tick (served : float) (now : Z) : act TokenBucket.t float :=
  TokenBucket._refill now;;
  self ← get;
  let take := TokenBucket.tokens self in
  put (TokenBucket.set_tokens f0 self);;
  mret (f_add served take).
(** [relay/proofs/throttleholds.py] run *)
Definition run : result Finding.t :=
  let capacity := of_Z 100 in
  let refill := of_Z 5 in
  let ticks := 1000 in
  bucket ← TokenBucket.make capacity refill;
  '(bucket, served) ← exec (for_fold (py_range 1 (ticks + 1)) f0 greedy_tick) bucket;
  let bound := f_add (f_mul refill (of_Z ticks)) capacity in
  let numbers := [("ticks", VInt ticks); ("served", VFloat (f_round_to served 1));
                  ("refill_plus_burst_bound", VFloat (f_round_to bound 1)); ("overshoot", VFloat (f_round_to (f_sub served bound) 1));
                  ("guess_was", VStr "greedy taking might beat the refill rate");
                  ("measured", VStr "served equals refill*ticks + one capacity of burst")] in
  let holds := f_le served (f_add bound (f_dec 1 (-6))) in
  Ok (Finding.mk "throttleholds"
    "a greedy client pulls at most the refill rate times the ticks plus one bucket of burst, so sustained throughput is bounded by refill and burst by capacity"
    numbers holds).
End throttleholds.

Module framingholds.
(** [relay/proofs/framingholds.py] _MAX *)
Definition _MAX : Z := 4096.
(** [relay/proofs/framingholds.py] _encode *)
Definition _encode (payloads : list bytes) : bytes := concat ((λ p, be_split 4 (zlen p) ++ p) <$> payloads).
(** [relay/proofs/framingholds.py:44-45] run: the stream cut in two at a point *)
Definition split_feed (stream : bytes) (split : Z) : result (list bytes) :=
  reader ← FrameReader.make _MAX;
  '(reader, a) ← exec (FrameReader.feed (take (Z.to_nat split) stream)) reader;
  '(reader, b) ← exec (FrameReader.feed (drop (Z.to_nat split) stream)) reader;
  Ok (a ++ b).
(** [relay/proofs/framingholds.py] run *)
Definition run : result Finding.t :=
  let payloads := [encode "alpha"; []; encode "a-longer-payload-here"] in
  let stream := _encode payloads in
  reader ← FrameReader.make _MAX;
  '(_, baseline) ← exec (FrameReader.feed stream) reader;
  disagreements ← r_fold (py_range 1 (zlen stream)) 0 (λ disagreements split,
    got ← split_feed stream split;
    Ok (if negb (bool_decide (got = baseline)) then disagreements + 1 else disagreements));
  one_at_a_time ← FrameReader.make _MAX;
  '(_, drip) ← exec (for_fold (py_range 0 (zlen stream)) [] (λ drip i,
    frames ← FrameReader.feed (take 1 (drop (Z.to_nat i) stream));
    mret (drip ++ frames))) one_at_a_time;
  let numbers := [("split_points_tested", VInt (zlen stream - 1)); ("disagreements", VInt disagreements);
                  ("drip_matches", VBool (bool_decide (drip = baseline)));
                  ("guess_was", VStr "a split inside the length header might trip it");
                  ("measured", VStr "every split and the one-byte drip agree")] in
  let holds := (disagreements =? 0) && bool_decide (drip = baseline) && bool_decide (baseline = payloads) in
  Ok (Finding.mk "framingholds"
    "the frame reader reassembles the identical frames at every chunk boundary and one byte at a time, so it survives a real socket instead of only aligned reads"
    numbers holds).
End framingholds.

Module aggregateholds.
(** [relay/proofs/aggregateholds.py:39-43] run: [merge] *)
Definition merge (order : list MeanPartial.t) : result float :=
  acc ← py_index order 0;
  MeanPartial.mean (foldl MeanPartial.merge acc (drop 1 order)).
(** [relay/proofs/aggregateholds.py] run *)
Definition run : result Finding.t :=
  let p0 := MeanPartial.mk 100 10 in
  let p1 := MeanPartial.mk 5 1 in
  let p2 := MeanPartial.mk 60 4 in
  let partials := [p0; p1; p2] in
  let true_total := zsum MeanPartial.total partials in
  let true_count := zsum MeanPartial.count partials in
  true_mean ← z_truediv true_total true_count;
  groupings ← mapM merge [partials; rev partials; [p1; p2; p0]];
  let all_agree := forallb (λ g, f_lt (f_abs (f_sub g true_mean)) (f_dec 1 (-9))) groupings in
  means ← mapM MeanPartial.mean partials;
  avg_of_avgs ← f_div (f_sum means) (of_Z (zlen partials));
  let numbers := [("true_mean", VFloat (f_round_to true_mean 4)); ("groupings_tested", VInt (zlen groupings));
                  ("all_groupings_agree", VBool all_agree); ("average_of_averages", VFloat (f_round_to avg_of_avgs 4));
                  ("avg_trap_wrong_by", VFloat (f_round_to (f_abs (f_sub avg_of_avgs true_mean)) 4));
                  ("guess_was", VStr "float order might make the merges disagree");
                  ("measured", VStr "integer sum-and-count merges all hit the true mean")] in
  let holds := all_agree && f_lt (f_dec 1 (-9)) (f_abs (f_sub avg_of_avgs true_mean)) in
  Ok (Finding.mk "aggregateholds"
    "every grouping of the sum-and-count merge gives the one true mean while averaging the averages does not, so the count is what makes a parallel mean correct"
    numbers holds).
End aggregateholds.

Module bloomholds.
Section bloomholds.
(** [hash(s)] of the interpreter, which differs from one run of it to the next, and
    [fraction_set ** hash_count], a power of a float by the platform's C library *)
Context (hash : string → Z) (pow : float → Z → float).
(** [relay/proofs/bloomholds.py] run: with the two lists of keys *)
Definition run_on (added never_added : list string) : result Finding.t :=
  bloom ← BloomFilter.make 8000 5;
  '(bloom, _) ← exec (for_each added (BloomFilter.add hash)) bloom;
  let false_negatives := zlen (py_filter (λ k, negb (BloomFilter.might_contain hash bloom k)) added) in
  let false_positives := zlen (py_filter (BloomFilter.might_contain hash bloom) never_added) in
  rate ← BloomFilter.estimated_false_positive_rate pow bloom;
  let numbers := [("keys_added", VInt (zlen added)); ("false_negatives", VInt false_negatives);
                  ("false_positives_of_1000", VInt false_positives); ("estimated_fp_rate", VFloat (f_round_to rate 4));
                  ("guess_was", VStr "a heavily loaded filter might drop an added key");
                  ("measured", VStr "zero added keys tested absent, bits are never cleared")] in
  Ok (Finding.mk "bloomholds"
    "every one of a thousand added keys tests present however full the filter, so a definitely-not answer is always safe to skip a lookup on, while unrelated keys give the false positives the fill predicts"
    numbers (false_negatives =? 0)).
(** [relay/proofs/bloomholds.py] run *)
Definition run : result Finding.t :=
  run_on ((λ i, "added-" +:+ zs i) <$> py_range 0 1000) ((λ i, "absent-" +:+ zs i) <$> py_range 0 1000).
End bloomholds.
End bloomholds.

Module nosplitbrain.
(** [itertools.combinations(l, k)]: the sublists of [k] elements, in order *)
Fixpoint combinations {A} (l : list A) (k : nat) : list (list A) :=
  match k, l with
  | O, _ => [[]]
  | S _, [] => []
  | S k', x :: l => (cons x <$> combinations l k') ++ combinations l k
  end.
(** [relay/proofs/nosplitbrain.py] _majorities *)
Definition _majorities (members : gset string) : list (gset string) :=
  let size_ := Z.of_nat (size members) / 2 + 1 in
  list_to_set <$> combinations (py_sorted String.le (elements members)) (Z.to_nat size_).
(** [relay/proofs/nosplitbrain.py] _disjoint_pairs *)
Definition _disjoint_pairs (a b : gset string) : Z :=
  zsum (λ ma, zsum (λ mb : gset string, if bool_decide (ma ∩ mb = ∅) then 1 else 0) (_majorities b)) (_majorities a).
(** [relay/proofs/nosplitbrain.py] run *)
Definition run : result Finding.t :=
  let old : gset string := {["n1"; "n2"; "n3"]} in
  let one_voter : gset string := {["n1"; "n2"; "n3"; "n4"]} in
  let two_voter : gset string := {["n1"; "n2"; "n3"; "n4"; "n5"]} in
  let single_disjoint := _disjoint_pairs old one_voter in
  let double_disjoint := _disjoint_pairs old two_voter in
  let numbers := [("single_voter_disjoint_majority_pairs", VInt single_disjoint);
                  ("two_voter_disjoint_majority_pairs", VInt double_disjoint);
                  ("guess_was", VStr "a majority of each always overlaps");
                  ("measured", VStr "true at one voter, false at two")] in
  let holds := (single_disjoint =? 0) && (0 <? double_disjoint) in
  Ok (Finding.mk "nosplitbrain"
    "a single-voter membership change leaves no two disjoint majorities so no split brain, while a two-voter jump admits one, which is why membership changes go one voter at a time"
    numbers holds).
End nosplitbrain.

Module retentionfloor.
(** [relay/proofs/retentionfloor.py] run *)
Definition run : result Finding.t :=
  '(log, _) ← exec (for_each (py_range 0 40) (λ number,
    record ← pure_of (Record.make (encode ("e" +:+ pad_digits 4 number) ++ replicate 500 x78) None []);
    _ ← SegmentLog.append record;
    mret ())) SegmentLog.new;
  let segments_before := zlen (SegmentLog.segments log) in
  let sealed_before := zlen (py_filter Segment.sealed (SegmentLog.segments log)) in
  let ticks : gmap Z Z := list_to_map ((λ seg, (Segment.base_offset seg, 0)) <$> SegmentLog.segments log) in
  second ← py_index (SegmentLog.segments log) 1;
  let floor := Segment.base_offset second + 1 in
  policy ← RetentionPolicy.make (Some 1) None;
  '(run, log, verdict) ← exec (RetentionRun.apply ticks 100000 floor) (RetentionRun.new policy, log);
  let unread_preserved := existsb (λ seg, floor <? Segment.next_offset seg) (SegmentLog.segments log) in
  let stopped_at_floor := contains "loss with a schedule" verdict in
  let numbers := [("segments_before", VInt segments_before); ("sealed_before", VInt sealed_before);
                  ("reclaimed", VInt (RetentionRun.reclaimed_segments run)); ("floor", VInt floor);
                  ("stopped_at_floor", VBool stopped_at_floor); ("unread_preserved", VBool unread_preserved)] in
  let holds := (1 <=? RetentionRun.reclaimed_segments run) && stopped_at_floor && unread_preserved
               && (RetentionRun.reclaimed_segments run <? sealed_before) in
  Ok (Finding.mk "retentionfloor"
    "aggressive retention reclaims the passed segments but stops dead at the committed floor: the lagging consumer's unread backlog is preserved to the record, and the floor is absolute, not a suggestion"
    numbers holds).
End retentionfloor.

Module nolostcommit.
(** [relay/proofs/nolostcommit.py] run *)
Definition run : result Finding.t :=
  let committed_offset := 1000 in
  let old_leader_end := 1040 in
  let unreplicated_tail := old_leader_end - committed_offset in
  let '(point, _) := truncation_point 7 old_leader_end committed_offset in
  let truncated := old_leader_end - point in
  let guard := DivergenceGuard.mk None in
  '(guard, append_refused) ← match DivergenceGuard.require_truncation old_leader_end committed_offset guard with
                             | (guard, Ok _) => Ok (guard, false)
                             | (guard, Err Invalid) => Ok (guard, true)
                             | (_, Err e) => Err e
                             end;
  '(guard, resolved) ← exec (DivergenceGuard.resolve point) guard;
  let numbers := [("committed_offset", VInt committed_offset); ("old_leader_end", VInt old_leader_end);
                  ("unreplicated_tail", VInt unreplicated_tail); ("truncated", VInt truncated);
                  ("truncation_point", VInt point); ("committed_prefix_untouched", VBool (point =? committed_offset));
                  ("append_refused_until_truncated", VBool append_refused)] in
  let holds := (truncated =? unreplicated_tail) && (point =? committed_offset) && append_refused
               && contains "may append again" resolved in
  Ok (Finding.mk "nolostcommit"
    "the epoch handshake truncates exactly the unreplicated tail (40 records) and leaves the committed prefix untouched; committed and truncated are disjoint by arithmetic, not by luck"
    numbers holds).
End nolostcommit.

Module registry.
Section registry.
Context (hash : string → Z) (pow : float → Z → float).
(** [relay/proofs/registry.py] PROOFS: the modules, and what [importlib] finds them to be *)
Definition PROOFS : list (string * result Finding.t) := [
  ("relay.proofs.watermarkholds", watermarkholds.run);
  ("relay.proofs.exactlyonce", exactlyonce.run);
  ("relay.proofs.nostall", nostall.run);
  ("relay.proofs.retentionfloor", retentionfloor.run);
  ("relay.proofs.stickymoves", stickymoves.run);
  ("relay.proofs.nolostcommit", nolostcommit.run);
  ("relay.proofs.orderunderretry", orderunderretry.run);
  ("relay.proofs.integrityholds", integrityholds.run);
  ("relay.proofs.throttleholds", throttleholds.run);
  ("relay.proofs.framingholds", framingholds.run);
  ("relay.proofs.aggregateholds", aggregateholds.run);
  ("relay.proofs.bloomholds", bloomholds.run hash pow);
  ("relay.proofs.nosplitbrain", nosplitbrain.run)].
(** [relay/proofs/registry.py] all_findings *)
Definition all_findings : result (list Finding.t) := mapM snd PROOFS.
(** [relay/proofs/registry.py] broken *)
Definition broken : result (list string) :=
  findings ← all_findings;
  Ok (Finding.proof <$> py_filter (λ finding, negb (Finding.holds finding)) findings).
(** [relay/proofs/registry.py] report *)
Definition report : result string :=
  findings ← all_findings;
  let lines := Finding.line <$> findings in
  let failing := zlen (py_filter (λ finding, negb (Finding.holds finding)) findings) in
  Ok (join_str nl (lines ++ [""; zs (zlen findings) +:+ " proofs, " +:+ zs failing +:+ " broken"])).
End registry.
End registry.

Module cli.
Section cli.
Context (hash : string → Z) (pow : float → Z → float).
(** [relay/cli.py] _summary: what is printed, and the exit code *)
Definition _summary : result (string * Z) :=
  findings ← registry.all_findings hash pow;
  let broken := py_filter (λ f, negb (Finding.holds f)) findings in
  Ok (zs (zlen findings) +:+ " proofs (" +:+ zs (zlen broken) +:+ " broken)", match broken with [] => 0 | _ => 1 end).
(** [relay/cli.py] _check *)
Definition _check : result (string * Z) :=
  broken ← registry.broken hash pow;
  match broken with
  | _ :: _ => Ok ("broken proofs: " +:+ join_str ", " broken, 1)
  | [] => Ok ("all proofs hold"%string, 0)
  end.
(** [relay/cli.py] _proofs *)
Definition _proofs : result (string * Z) := report ← registry.report hash pow; Ok (report, 0).
(** [args.command], one of the three subcommands: [argparse] leaves the program on any other *)
Inductive command := Proofs | Check_ | Summary.
(** [relay/cli.py:37-41] main *)
Definition main (c : command) : result (string * Z) :=
  match c with Proofs => _proofs | Check_ => _check | Summary => _summary end.
End cli.
End cli.

(** ** The drills hold *)

Section drills.
Context (hash : string → Z) (pow : float → Z → float).

Definition holding (r : result Finding.t) : Prop := match r with Ok f => Finding.holds f = true | Err _ => False end.

Lemma watermark_holds : holding watermarkholds.run. Proof. vm_compute. reflexivity. Qed.
Lemma exactly_once_holds : holding exactlyonce.run. Proof. vm_compute. reflexivity. Qed.
Lemma no_stall_holds : holding nostall.run. Proof. vm_compute. reflexivity. Qed.
Lemma retention_floor_holds : holding retentionfloor.run. Proof. vm_compute. reflexivity. Qed.
Lemma sticky_moves_holds : holding stickymoves.run. Proof. vm_compute. reflexivity. Qed.
Lemma no_lost_commit_holds : holding nolostcommit.run. Proof. vm_compute. reflexivity. Qed.
Lemma order_under_retry_holds : holding orderunderretry.run. Proof. vm_compute. reflexivity. Qed.
Lemma integrity_holds : holding integrityholds.run. Proof. vm_compute. reflexivity. Qed.
Lemma throttle_holds : holding throttleholds.run. Proof. vm_compute. reflexivity. Qed.
Lemma framing_holds : holding framingholds.run. Proof. vm_compute. reflexivity. Qed.
Lemma aggregate_holds : holding aggregateholds.run. Proof. vm_compute. reflexivity. Qed.
Lemma no_split_brain_holds : holding nosplitbrain.run. Proof. vm_compute. reflexivity. Qed.

(** a key added stays in the filter, whatever the hash *)
Lemma bloom_adds keys b : 0 < BloomFilter.size_bits b → ∃ b', exec (for_each keys (BloomFilter.add hash)) b = Ok (b', ()) ∧
  BloomFilter.size_bits b' = BloomFilter.size_bits b ∧ BloomFilter.hash_count b' = BloomFilter.hash_count b ∧
  BloomFilter.bits b ⊆ BloomFilter.bits b' ∧ (∀ k, k ∈ keys → BloomFilter.might_contain hash b' k = true) ∧
  ((∀ p, p ∈ BloomFilter.bits b → 0 <= p < BloomFilter.size_bits b) → ∀ p, p ∈ BloomFilter.bits b' → 0 <= p < BloomFilter.size_bits b).
Proof.
  intros Hsize. revert b Hsize. induction keys as [|k keys IH]; intros b Hsize; [exists b; split_and!; [done..| |done]; by intros k ?%elem_of_nil|].
  destruct (IH (BloomFilter.mk (BloomFilter.size_bits b) (BloomFilter.hash_count b)
    (BloomFilter.bits b ∪ list_to_set (BloomFilter._positions hash b k)) (BloomFilter.added b + 1)) Hsize) as (b' & Hrun & Hs & Hc & Hsub & Hin & Hrange).
  exists b'. unfold exec in *. cbn [for_each]. rewrite bind_run, bloom_add_run. cbn [BloomFilter.size_bits BloomFilter.hash_count BloomFilter.bits] in *.
  split_and!; [done..|set_solver| |].
  - intros k' [->|Hk']%elem_of_cons; [|by apply Hin].
    unfold BloomFilter.might_contain. apply forallb_elem. intros pos Hpos. apply bool_decide_eq_true, Hsub.
    apply elem_of_union_r, elem_of_list_to_set. unfold BloomFilter._positions in *. by rewrite Hs, Hc in Hpos.
  - intros Hbits. apply Hrange. intros p [Hp|Hp%elem_of_list_to_set]%elem_of_union; [by apply Hbits|].
    unfold BloomFilter._positions in Hp. apply list_elem_of_fmap in Hp as (i & -> & _). by apply Z.mod_pos_bound.
Qed.

Lemma bounded_size (X : gset Z) n : 0 <= n → (∀ p, p ∈ X → 0 <= p < n) → Z.of_nat (size X) <= n.
Proof.
  intros Hn Hrange. assert (X ⊆ list_to_set (seqZ 0 n)) as Hsub.
  { intros p Hp. apply elem_of_list_to_set, elem_of_seqZ. specialize (Hrange p Hp). lia. }
  apply subseteq_size in Hsub. rewrite size_list_to_set in Hsub by apply NoDup_seqZ. rewrite length_seqZ in Hsub. lia.
Qed.

Lemma bloom_holds_on added never_added : holding (bloomholds.run_on hash pow added never_added).
Proof.
  unfold bloomholds.run_on. change (BloomFilter.make 8000 5) with (Ok (BloomFilter.mk 8000 5 ∅ 0)). cbn [mbind result_bind].
  destruct (bloom_adds added (BloomFilter.mk 8000 5 ∅ 0)) as (b & -> & Hs & _ & _ & Hin & Hrange); [done|].
  cbn [mbind result_bind]. unfold BloomFilter.estimated_false_positive_rate. rewrite Hs.
  rewrite (proj2 (py_filter_nil_iff _ _)) by (intros k Hk; apply negb_false_iff; by apply Hin).
  destruct (z_truediv_small (Z.of_nat (size (BloomFilter.bits b))) 8000) as [x Hx]; [|done|].
  - split; [lia|]. apply Z.le_lt_trans with 8000; [|done]. apply bounded_size; [lia|].
    apply Hrange. intros p Hp. by apply elem_of_empty in Hp.
  - cbn [BloomFilter.size_bits]. by rewrite Hx.
Qed.
Lemma bloom_holds : holding (bloomholds.run hash pow).
Proof. apply bloom_holds_on. Qed.

(** each drill runs to its end and holds *)
Lemma all_hold : Forall (λ p, holding p.2) (registry.PROOFS hash pow).
Proof.
  unfold registry.PROOFS.
  apply Forall_cons_2; [exact watermark_holds|].
  apply Forall_cons_2; [exact exactly_once_holds|].
  apply Forall_cons_2; [exact no_stall_holds|].
  apply Forall_cons_2; [exact retention_floor_holds|].
  apply Forall_cons_2; [exact sticky_moves_holds|].
  apply Forall_cons_2; [exact no_lost_commit_holds|].
  apply Forall_cons_2; [exact order_under_retry_holds|].
  apply Forall_cons_2; [exact integrity_holds|].
  apply Forall_cons_2; [exact throttle_holds|].
  apply Forall_cons_2; [exact framing_holds|].
  apply Forall_cons_2; [exact aggregate_holds|].
  apply Forall_cons_2; [exact bloom_holds|].
  apply Forall_cons_2; [exact no_split_brain_holds|].
  apply Forall_nil_2.
Qed.

Lemma findings_of (l : list (string * result Finding.t)) : Forall (λ p, holding p.2) l →
  ∃ fs, mapM snd l = Ok fs ∧ length fs = length l ∧ Forall (λ f, Finding.holds f = true) fs.
Proof.
  induction 1 as [|[n [f|e]] l Hf Hl (fs & IH & Hlen & Hfs)]; [exists []; by split_and!| |done].
  exists (f :: fs). cbn [mapM snd]. cbn [mbind result_bind]. rewrite IH. split_and!; [done|cbn; by rewrite Hlen|by constructor].
Qed.
End drills.

(** Also (safety): every drill of the repository holds.  Each of the thirteen scenarios runs to its end
    without an exception on the modelled components and reports that its claim holds, the Bloom filter's
    whatever the interpreter's hash, so the registry reports none broken and every command of the
    command line ends with exit code 0.  Twelve of the scenarios are fixed scripts, and are evaluated. *)
Theorem drills_hold (hash : string → Z) (pow : float → Z → float) :
  registry.broken hash pow = Ok [] ∧
  (∃ findings, registry.all_findings hash pow = Ok findings ∧ zlen findings = 13 ∧
    (∀ f, f ∈ findings → Finding.holds f = true) ∧
    registry.report hash pow = Ok (join_str nl ((Finding.line <$> findings) ++ [""; "13 proofs, 0 broken"]))) ∧
  (∀ c, ∃ text, cli.main hash pow c = Ok (text, 0)).
Proof.
  destruct (findings_of (registry.PROOFS hash pow) (all_hold hash pow)) as (fs & Hrun & Hlen & Hfs).
  assert (∀ f, f ∈ fs → Finding.holds f = true) as Hall by by apply Forall_forall.
  assert (py_filter (λ f, negb (Finding.holds f)) fs = []) as Hnone.
  { apply py_filter_nil_iff. intros f Hf. by rewrite (Hall f Hf). }
  assert (zlen fs = 13) as H13 by (unfold zlen; by rewrite Hlen).
  assert (zs 13 +:+ " proofs, " +:+ zs 0 +:+ " broken" = "13 proofs, 0 broken") as Htext by (vm_compute; reflexivity).
  assert (registry.all_findings hash pow = Ok fs) as Hfind by exact Hrun.
  assert (registry.broken hash pow = Ok []) as Hbroken.
  { unfold registry.broken. rewrite Hfind. cbn [mbind result_bind]. by rewrite Hnone. }
  assert (registry.report hash pow = Ok (join_str nl ((Finding.line <$> fs) ++ [""; "13 proofs, 0 broken"]))) as Hreport.
  { unfold registry.report. rewrite Hfind. cbn [mbind result_bind]. by rewrite Hnone, H13, zlen_nil, Htext. }
  split; [exact Hbroken|]. split.
  { exists fs. split; [exact Hfind|]. split; [exact H13|]. split; [exact Hall|exact Hreport]. }
  intros c. destruct c; unfold cli.main, cli._proofs, cli._check, cli._summary.
  - rewrite Hreport. cbn [mbind result_bind]. eexists. reflexivity.
  - rewrite Hbroken. cbn [mbind result_bind]. eexists. reflexivity.
  - rewrite Hfind. cbn [mbind result_bind]. rewrite Hnone. eexists. reflexivity.
Qed.
